(* ===== verification/_CoqProject ===== *)
-Q . S2P
Prelude.v
Stream.v
StreamItems.v
MemoryStream.v
CircularBuffer.v
Handles.v
MultiHandle.v
HandleViews.v
Buffered.v
Transfer.v
BitIO.v
Compress.v
Algorithms.v
BTree.v
BTreeStore.v
BTreeInv.v
BTreeOps.v
BTreeQuery.v
BTreeSpec.v
CacheLRU.v
Dense.v
Queue.v
ThreadPool.v
ThreadPoolSpec.v
DblBuffer.v
DblBufferSpec.v
Text.v
Strings.v
Translator.v
LocalPathName.v
Json.v
JsonParser.v
JsonRoundtrip.v
Date.v
Time.v
DateTime.v
SemanticVersion.v
RendezvousHash.v
RLE.v
Base64.v
MD5.v
BloomFilter.v
MachineInt.v
HyperCube.v
URI.v
Url.v
HEALPix.v
HEALPixRings.v
Double.v
TranslatorDouble.v
Specs.v
Trie.v
DoubleOrder.v
DoubleFixed.v
Fraction.v
SparseMatrix.v
SparseOps.v
SharedValue.v
SharedValueSpec.v
Configuration.v
ConfigurationShared.v
CSVParser.v
CmdArgs.v
SPTree.v
KDTree.v
KPoint.v
KDTreeSpec.v
BSPTree.v
