(* ===== verification/Prelude.v ===== *)
(** * Verification of eckit

    eckit is the C++ toolkit under the software of ECMWF: serialisation, data handles,
    containers, parsers, calendars, hashes, threads, grids and linear algebra, as one
    library ([src/eckit/]) of parts that other programs call.  This development models
    the parts with logic of their own, each in a file that names its sources, and proves
    what their callers rely on.

    ** How the code is modelled

    A C++ call is a function to [outcome]: it returns ([Ok]), throws one of the classes of
    [exception/Exceptions.h] or of the standard library ([Throw]) or has undefined
    behaviour ([Undef]: an access out of bounds, signed overflow, division by zero).  A
    method that changes its object is a function of the monad [M S]: the state reached so
    far is returned with an exception, as in C++.  Integers are [Z] with the width written
    out: [wrapU], [wrapS] and [in_S] of this file for unsigned arithmetic and conversions,
    the expressions of [MachineInt] for signed arithmetic that must not overflow, and
    [Double] for IEEE binary64.  Bytes are [byte], [std::string] is a list of bytes.
    Memory that is allocated and not yet written is a parameter ([junk]), and so are the
    system calls, the hash functions and [std::sort] where the order of equal elements is
    open: theorems hold for every choice, or for every choice with the documented
    behaviour, which a hypothesis states and a witness instantiates.

    Threads are interleavings of sections that hold a mutex: [Queue], [ThreadPool] and
    [DblBuffer] are step relations on a shared state and the points that the threads have
    reached, with sleeping, signals and spurious wake-ups.  Objects that share contents by
    pointer ([SharedValue], [ConfigurationShared]) live on a heap of counted contents, so
    that aliasing and what a change does to a copy can be stated.

    ** The parts

    Serialisation ([serialisation/]).  [Stream] is the tagged stream over any device of
    the class [Device]; [StreamItems] the typed operators on it, as one family with its
    wire format; [MemoryStream] the two devices in memory.  Values written are read back,
    in order, on both devices; a truncated value, a wrong type and an exception of the
    writer are reported to the reader.

    Data handles ([io/]).  [Handles] has the interface of [DataHandle] as a class, its
    laws for a handle that is read, for one that is written, and [MemoryHandle].
    [MultiHandle], [HandleViews] ([PartHandle], [PeekHandle]) and [Buffered]
    ([BufferedHandle], [TeeHandle], [StatsHandle]) build handles on handles and are
    verified against the laws, so that they can be stacked; [Transfer] moves the bytes of
    one handle to another ([saveInto], [copyTo], [compare]) and [DblBuffer], with
    [DblBufferSpec], does so with a second thread and a ring of buffers: in order, without
    loss, and always to an end, unless a read is negative without an exception.  [BitIO]
    reads and writes bit fields through any handle and [Compress], LZW, uses [BitIO]: decompression gives
    the data back.  [CircularBuffer] refines a queue of bytes.

    Containers ([container/]).  [BTree] is the paged B+tree with locks, page cache and
    file, its algorithms written against the class of page stores; [BTreeStore] shows that
    the cached file is such a store; [BTreeInv], [BTreeOps] and [BTreeQuery] have the
    representation invariant and what each operation does to it; [BTreeSpec] the
    refinement of a finite map over whole histories of operations, flushes and reopening.
    [Algorithms] has [std::lower_bound].  [CacheLRU] refines the list of its entries by
    recency of use, [Dense] the sorted maps and sets, [Queue] the bounded blocking queue:
    first in, first out, without lost wake-ups, and able to proceed.  [Trie] refines a finite
    map of strings, and [BloomFilter], on [MD5], is a set with false positives only.

    Spatial trees ([container/], [geometry/]).  [SPTree] has the nodes, the queue of
    candidates, the brute force searches and the loop over the nodes, [KDTree] building,
    insertion and the queries of the KD tree with both allocators; both are written against
    a class of points and distances.  [KPoint] is the point of the source in the arithmetic
    of doubles ([DoubleOrder]: the comparison of doubles is a total order without NaN;
    [DoubleFixed]: sums and squares of coordinates on a grid are exact), and [KDTreeSpec]
    the result: the queries agree with the brute force searches on every such tree.
    [BSPTree] has the nodes of the binary space partition and their queries.

    Values and configurations ([value/], [memory/Counted.h], [config/]).  [SharedValue]
    has values as pointers to counted contents that are cloned before a change;
    [SharedValueSpec] shows that programs cannot tell them from values of their own.
    [Configuration] reads and writes typed parameters along paths of names, and
    [ConfigurationShared] shows that copies of a configuration, which share their
    contents, do not share their changes.  [CmdArgs] ([option/]) turns the arguments of a
    program into such parameters, with options against an interface of their own.  [Specs]
    ([spec/]) has the dictionaries of typed values and the stacks of them.

    Threads ([thread/]).  [ThreadPool] has the pool and its workers, [ThreadPoolSpec] what
    is guaranteed: tasks are taken in order and executed once, [wait] returns when all those
    pushed one by one are done, no signal of the task list is lost, [waitForThreads] reports the errors.

    Text and parsers.  [Text] has the character functions of the C library, [Strings] the
    tokenizer and the string tools with the expansion of templates, [Translator] and
    [TranslatorDouble] the conversions of strings.  [LocalPathName] normalises path names
    and relates them, [URI] parses and prints identifiers, [Url] the addresses
    of the web server.  [Json] is the writer of [log/JSON.cc], [JsonParser] the parser on
    [StreamParser], and [JsonRoundtrip] shows that every value without doubles and null
    characters that is written is read back, whatever the formatting.  [CSVParser] reads
    lines of items with the same stream parser.

    Types and utilities.  [Date], [Time] and [DateTime], [SemanticVersion], [Fraction] (exact
    rational numbers: every result is in lowest terms, and exact below the bounds of its
    overflow tests), [HyperCube] (indices in several dimensions), [RLE] (where a search
    beyond the end of the array is undefined, as it is in the code), [Base64], [MD5] (equal
    to the digest of RFC 1321 however the text is cut) and [RendezvousHash].

    Geography and linear algebra.  [HEALPix] and [HEALPixRings]: the ring and the nested
    numbering of the pixels are inverse to each other, without overflow, up to the
    resolution that the code accepts.  [SparseMatrix] and [SparseOps]: matrices in
    compressed rows are built, transposed, pruned, reduced, iterated and multiplied as
    the rows of entries that they represent.

    ** Fuel

    A loop that is not structural takes fuel and returns [NoFuel] without it; no theorem
    has [NoFuel] as an accepted result.  The fuel is either computed by the caller from
    the state (the length of what is left to read or search, the number of pages, the
    limit of 10000 iterations of [Fraction]) or an argument for which the theorem states
    a bound from which on the call returns: the length of the input for [Compress], for
    the JSON parser and for the transfer of handles, the depth of the tree for [BTree],
    the number of tags for [Stream], the depth of the values for [SharedValue]
    ([fuel_needed]) and [ConfigurationShared] ([config_fuel]).  The building of a KD tree
    takes the length of its container, and a transfer of [DblBuffer] ends by a measure on
    its states.

    ** What is not modelled

    Code that is system calls or bindings of other libraries (files, sockets, processes,
    shared memory, MPI, curl, projections, compression libraries, the back ends of linear
    algebra), generated parsers, code for the terminal and the web server, logging and the
    registration of classes: nothing is decided there that the kernel could check without
    assuming the system.  Within the modelled parts, printing for diagnosis, hashing,
    cloning and persistence are left out where they do not change the state.  Of code
    with logic of its own the development leaves out the YAML parser, the SQL engine, the
    comparison and arithmetic of values, the stream forms of [Fraction], [SparseMatrix]
    and values, the geometry that needs the trigonometric functions of the C library, and
    the dense kernels, which are sums of doubles in an order that the back ends choose. *)
From stdpp Require Export base gmap sets list strings options.
From Stdlib Require Export ZArith Lia.
From Stdlib Require Export Strings.Byte.
From coqutil Require Export Byte Word.LittleEndianList.

#[global] Open Scope Z_scope.

(** ** Outcomes of a C++ call

    A call returns ([Ok]), throws ([Throw]) or has undefined behaviour
    ([Undef]: out-of-bounds access, signed overflow, division by zero).
    [NoFuel] is the outcome of a fuelled recursion that was given too little
    fuel; no theorem may rest on it. *)

(** The exception classes of [exception/Exceptions.h] that the modelled code
    throws, with the part of the message that a caller can observe. *)
Inductive exn : Type :=
| SeriousBug
| AssertionFailed
| BadValue
| UserError
| OutOfRange
| NotImplemented
| WriteError
| ReadError
| ShortFile
| RemoteException (what : list byte)
| BadTag
| BadDate
| BadTime
| BadParameter
| StdOutOfRange
| StdInvalidArgument
| StdRangeError
| StdLengthError
| OrderError
| GridError
| RestartTransfer (from : Z)
| ParserError
| BadConversion
| BadComparison
| BadOperator
| ConfigurationNotFound (name : list byte)
| DblBufferError
| SpecError.

Inductive outcome (A : Type) : Type :=
| Ok (a : A)
| Throw (e : exn)
| Undef
| NoFuel.
Arguments Ok {A} a.
Arguments Throw {A} e.
Arguments Undef {A}.
Arguments NoFuel {A}.

#[export] Instance byte_eq_dec : EqDecision byte := Byte.byte_eq_dec.
#[export] Instance exn_eq_dec : EqDecision exn.
Proof. solve_decision. Defined.

Definition outcome_bind {A B} (f : A -> outcome B) (o : outcome A) : outcome B :=
  match o with
  | Ok a => f a
  | Throw e => Throw e
  | Undef => Undef
  | NoFuel => NoFuel
  end.

#[export] Instance outcome_ret : MRet outcome := fun A a => Ok a.
#[export] Instance outcome_mbind : MBind outcome := fun A B f o => outcome_bind f o.

(** [ASSERT(c)] of [exception/Exceptions.h]. *)
Definition ASSERT (c : bool) : outcome unit :=
  if c then Ok tt else Throw AssertionFailed.

(** ** Stateful calls

    The object's fields are threaded explicitly.  An exception does not roll
    the object back: the state reached so far is returned with it. *)
Definition M (S A : Type) : Type := S -> outcome A * S.

#[export] Instance M_ret S : MRet (M S) := fun A a s => (Ok a, s).
#[export] Instance M_bind S : MBind (M S) := fun A B f m s =>
  match m s with
  | (Ok a, s') => f a s'
  | (Throw e, s') => (Throw e, s')
  | (Undef, s') => (Undef, s')
  | (NoFuel, s') => (NoFuel, s')
  end.

Definition throwM {S A} (e : exn) : M S A := fun s => (Throw e, s).
Definition liftM {S A} (o : outcome A) : M S A := fun s => (o, s).
Definition getM {S} : M S S := fun s => (Ok s, s).
Definition putM {S} (s' : S) : M S unit := fun _ => (Ok tt, s').
Definition modifyM {S} (f : S -> S) : M S unit := fun s => (Ok tt, f s).
Definition assertM {S} (c : bool) : M S unit := liftM (ASSERT c).

Lemma M_bind_Ok {S A B} (m : M S A) (f : A -> M S B) s a s' :
  m s = (Ok a, s') -> (m ≫= f) s = f a s'.
Proof. unfold mbind, M_bind. by intros ->. Qed.
Lemma M_bind_Throw {S A B} (m : M S A) (f : A -> M S B) s e s' :
  m s = (Throw e, s') -> (m ≫= f) s = (Throw e, s').
Proof. unfold mbind, M_bind. by intros ->. Qed.

Lemma M_bind_ret {S A B} (a : A) (f : A -> M S B) s : (mret a ≫= f) s = f a s.
Proof. done. Qed.
Lemma M_bind_get {S B} (f : S -> M S B) s : (getM ≫= f) s = f s s.
Proof. done. Qed.
Lemma M_bind_put {S B} (f : unit -> M S B) s s' : (putM s' ≫= f) s = f tt s'.
Proof. done. Qed.
Lemma M_bind_modify {S B} g (f : unit -> M S B) s : (modifyM g ≫= f) s = f tt (g s).
Proof. done. Qed.
Lemma M_bind_lift {S A B} a (f : A -> M S B) s : (liftM (Ok a) ≫= f) s = f a s.
Proof. done. Qed.
Create Rewrite HintDb monad.
#[export] Hint Rewrite @M_bind_ret @M_bind_get @M_bind_put @M_bind_modify @M_bind_lift : monad.

(** Run the steps whose result is known. *)
Ltac msimp := autorewrite with monad.

(** ** Machine integers

    A [w]-bit value is a [Z]; unsigned arithmetic wraps modulo [2^w], and the
    two's complement reading of an unsigned word is [to_signed]. *)
Definition wrapU (w z : Z) : Z := z mod 2 ^ w.
Definition to_signed (w u : Z) : Z := if u <? 2 ^ (w - 1) then u else u - 2 ^ w.
Definition wrapS (w z : Z) : Z := to_signed w (wrapU w z).

Definition in_U (w z : Z) : bool := (0 <=? z) && (z <? 2 ^ w).
Definition in_S (w z : Z) : bool := (- 2 ^ (w - 1) <=? z) && (z <? 2 ^ (w - 1)).

(** [std::string] and raw memory are byte lists. *)
Definition str (s : string) : list byte := String.list_byte_of_string s.

(** Big-endian images ([htonl] and friends). *)
Definition be_split (n : nat) (z : Z) : list byte := rev (le_split n z).
Definition be_combine (bs : list byte) : Z := le_combine (rev bs).

Arguments be_split : simpl never.
Arguments be_combine : simpl never.

Definition zlen {A} (l : list A) : Z := Z.of_nat (length l).

Create HintDb eckit.
Create Rewrite HintDb eckit.

Lemma zlen_app {A} (l k : list A) : zlen (l ++ k) = zlen l + zlen k.
Proof. unfold zlen. rewrite length_app. lia. Qed.
Lemma zlen_cons {A} (x : A) l : zlen (x :: l) = 1 + zlen l.
Proof. unfold zlen. simpl length. lia. Qed.
Lemma zlen_nil {A} : zlen (@nil A) = 0.
Proof. done. Qed.
Lemma zlen_nonneg {A} (l : list A) : 0 <= zlen l.
Proof. unfold zlen. lia. Qed.
#[export] Hint Rewrite @zlen_app @zlen_cons @zlen_nil : eckit.

Lemma length_be_split n z : length (be_split n z) = n.
Proof. unfold be_split. rewrite length_rev. apply length_le_split. Qed.
Lemma zlen_be_split n z : zlen (be_split n z) = Z.of_nat n.
Proof. unfold zlen. by rewrite length_be_split. Qed.
#[export] Hint Rewrite zlen_be_split length_be_split : eckit.

Lemma be_combine_split n z : be_combine (be_split n z) = z mod 2 ^ (8 * Z.of_nat n).
Proof.
  unfold be_combine, be_split. rewrite rev_involutive, le_combine_split.
  f_equal. f_equal. lia.
Qed.

Lemma be_split_combine bs : be_split (length bs) (be_combine bs) = bs.
Proof.
  unfold be_combine, be_split. rewrite <- (length_rev bs), split_le_combine.
  apply rev_involutive.
Qed.

Lemma be_combine_bound bs : 0 <= be_combine bs < 2 ^ (8 * zlen bs).
Proof. unfold be_combine, zlen. rewrite <- (length_rev bs). apply le_combine_bound. Qed.

Lemma testbit_above y n i : 0 <= y < 2 ^ n -> 0 <= n <= i -> Z.testbit y i = false.
Proof. intros Hy Hi. rewrite <- (Z.mod_small y (2 ^ n)) by lia. apply Z.mod_pow2_bits_high. lia. Qed.
Lemma lor_shiftl x y n : 0 <= n -> 0 <= y < 2 ^ n -> Z.lor (Z.shiftl x n) y = x * 2 ^ n + y.
Proof.
  intros Hn Hy. rewrite <- Z.shiftl_mul_pow2 by lia.
  assert (E : Z.land (Z.shiftl x n) y = 0).
  { apply Z.bits_inj'. intros i Hi. rewrite Z.land_spec, Z.bits_0. destruct (Z.lt_ge_cases i n).
    - by rewrite Z.shiftl_spec_low.
    - rewrite (testbit_above y n) by lia. apply andb_false_r. }
  by rewrite Z.add_nocarry_lxor, Z.lxor_lor.
Qed.

Lemma in_U_spec w z : in_U w z = true <-> 0 <= z < 2 ^ w.
Proof. unfold in_U. rewrite andb_true_iff, Z.leb_le, Z.ltb_lt. done. Qed.
Lemma in_S_spec w z : in_S w z = true <-> - 2 ^ (w - 1) <= z < 2 ^ (w - 1).
Proof. unfold in_S. rewrite andb_true_iff, Z.leb_le, Z.ltb_lt. done. Qed.

Lemma wrapU_id w z : in_U w z = true -> wrapU w z = z.
Proof. rewrite in_U_spec. apply Z.mod_small. Qed.

Lemma pow2_double w : 0 < w -> 2 ^ w = 2 * 2 ^ (w - 1).
Proof. intros. rewrite <- Z.pow_succ_r by lia. f_equal. lia. Qed.

Lemma wrapS_id w z : 0 < w -> in_S w z = true -> wrapS w z = z.
Proof.
  rewrite in_S_spec. intros Hw Hz. pose proof (pow2_double w Hw) as E.
  unfold wrapS, to_signed, wrapU. destruct (Z.ltb_spec z 0).
  - replace (z mod 2 ^ w) with (z + 2 ^ w).
    + destruct (Z.ltb_spec (z + 2 ^ w) (2 ^ (w - 1))); lia.
    + rewrite <- (Z.mod_small (z + 2 ^ w) (2 ^ w)) by lia.
      rewrite <- Z.add_mod_idemp_r, Z.mod_same, Z.add_0_r by lia. done.
  - rewrite Z.mod_small by lia. destruct (Z.ltb_spec z (2 ^ (w - 1))); lia.
Qed.

Lemma wrapS_range w z : 0 < w -> in_S w (wrapS w z) = true.
Proof.
  intros Hw. rewrite in_S_spec. pose proof (pow2_double w Hw) as E.
  unfold wrapS, to_signed, wrapU.
  pose proof (Z.pow_pos_nonneg 2 (w - 1) ltac:(lia) ltac:(lia)).
  pose proof (Z.mod_pos_bound z (2 ^ w) ltac:(lia)).
  destruct (Z.ltb_spec (z mod 2 ^ w) (2 ^ (w - 1))); lia.
Qed.

#[export] Instance byte_countable : Countable byte :=
  inj_countable Byte.to_N Byte.of_N Byte.of_to_N.

(** ** Automation *)

(** Rewrite with the development's equations and close arithmetic side goals. *)
Ltac zsimp := autorewrite with eckit in *.
Ltac zsolve := zsimp; unfold zlen in *; simpl in *; lia.

(** Case analysis on the first boolean comparison or decision of the goal. *)
Ltac case_test :=
  match goal with
  | |- context [if decide ?P then _ else _] => destruct (decide P)
  | |- context [Z.ltb ?a ?b] => destruct (Z.ltb_spec a b)
  | |- context [Z.leb ?a ?b] => destruct (Z.leb_spec a b)
  | |- context [Z.eqb ?a ?b] => destruct (Z.eqb_spec a b)
  end.

Lemma prefix_app_strict {A} (p b1 b2 : list A) :
  p `prefix_of` b1 ++ b2 -> p <> b1 ++ b2 ->
  (p `prefix_of` b1 /\ p <> b1) \/ (exists p2, p = b1 ++ p2 /\ p2 `prefix_of` b2 /\ p2 <> b2).
Proof.
  intros [k Hk] Hne. revert p k Hk Hne.
  induction b1 as [|x b1 IH]; intros [|y p] k Hk Hne; simplify_eq/=.
  - right. exists []. split; [done|]. split; [apply prefix_nil|congruence].
  - right. exists (y :: p). split; [done|]. split; [by exists k|congruence].
  - left. split; [apply prefix_nil|done].
  - destruct (IH p k) as [[Hp Hn]|(p2 & -> & Hp & Hn)]; [done|congruence| |].
    + left. split; [by apply prefix_cons|congruence].
    + right. by exists p2.
Qed.

Lemma filter_none {A} (P : A -> Prop) `{forall x, Decision (P x)} l :
  Forall (fun x => ~ P x) l -> filter P l = [].
Proof. induction 1; [done|]. by rewrite filter_cons_False. Qed.

(** ** Raw memory

    An allocation is a byte list; copying outside it is undefined behaviour. *)

(** [memcpy(address + pos, src, n)] with [n] bytes of [src]. *)
Definition memcpy_at (a : list byte) (pos : nat) (src : list byte) : list byte :=
  take pos a ++ src ++ drop (pos + length src) a.

Lemma length_memcpy_at a pos src :
  (pos + length src <= length a)%nat -> length (memcpy_at a pos src) = length a.
Proof. intros. unfold memcpy_at. rewrite !length_app, length_take, length_drop. lia. Qed.

Lemma take_memcpy_at a pos src :
  (pos <= length a)%nat -> take (pos + length src) (memcpy_at a pos src) = take pos a ++ src.
Proof.
  intros. unfold memcpy_at. rewrite app_assoc. apply take_app_length'.
  rewrite length_app, length_take. lia.
Qed.

(** [memcpy] of [src] to [dst + start]; outside the allocation it is undefined. *)
Definition memcpy (dst : list byte) (start : nat) (src : list byte) : outcome (list byte) :=
  if decide (start + length src <= length dst)%nat then Ok (memcpy_at dst start src) else Undef.

(** [n] bytes from [buffer_ + start]. *)
Definition memory (b : list byte) (start n : nat) : outcome (list byte) :=
  if decide (start + n <= length b)%nat then Ok (take n (drop start b)) else Undef.

(** A list is determined by its length and elements below it. *)
Lemma list_eq_below {A} (l k : list A) :
  length l = length k -> (forall i, (i < length l)%nat -> l !! i = k !! i) -> l = k.
Proof.
  intros Hlen Hi. apply list_eq. intros i. destruct (decide (i < length l)%nat); [by apply Hi|].
  rewrite !lookup_ge_None_2 by lia. done.
Qed.

Lemma lookup_memcpy_at a k src j :
  (k + length src <= length a)%nat ->
  memcpy_at a k src !! j = if decide (k <= j < k + length src)%nat then src !! (j - k)%nat else a !! j.
Proof.
  intros Hk. unfold memcpy_at. case_decide as Hj.
  - rewrite lookup_app_r by (rewrite length_take; lia). rewrite length_take.
    rewrite lookup_app_l by lia. f_equal. lia.
  - destruct (decide (j < k)%nat).
    + rewrite lookup_app_l by (rewrite length_take; lia). apply lookup_take_lt. lia.
    + rewrite lookup_app_r by (rewrite length_take; lia). rewrite length_take.
      rewrite lookup_app_r by lia. rewrite lookup_drop. f_equal. lia.
Qed.

Lemma memcpy_ok b start src :
  (start + length src <= length b)%nat -> memcpy b start src = Ok (memcpy_at b start src).
Proof. intros. unfold memcpy. by rewrite decide_True. Qed.

(** Newly allocated memory, whose content is indeterminate. *)
Definition allocate (junk : nat -> byte) (n : nat) : list byte := junk <$> seq 0 n.

Lemma length_allocate junk n : length (allocate junk n) = n.
Proof. unfold allocate. by rewrite length_fmap, length_seq. Qed.

Lemma memory_ok (mem : list byte) start n :
  (start + n <= length mem)%nat -> memory mem start n = Ok (take n (drop start mem)).
Proof. intros. unfold memory. by rewrite decide_True. Qed.
