(* ===== verification/Stream.v ===== *)
(** * The tagged serialisation stream

    [serialisation/Stream.h] and [serialisation/Stream.cc]: every value is
    written as a one byte tag followed by big-endian 32-bit words or raw bytes,
    and is read back only if the next tag is the expected one.  The two virtual
    methods [write] and [read] are the interface [StreamDevice]; what the
    memory devices of the directory promise about them is [SinkLaws] and
    [SourceLaws]. *)
From S2P Require Import Prelude.

(** ** Tags *)

(** [enum tag]; [tag_other] is a byte of the input that names no tag. *)
Inductive tag : Type :=
| tag_zero
| tag_start_obj
| tag_end_obj
| tag_char
| tag_unsigned_char
| tag_int
| tag_unsigned_int
| tag_short
| tag_unsigned_short
| tag_long
| tag_unsigned_long
| tag_long_long
| tag_unsigned_long_long
| tag_float
| tag_double
| tag_string
| tag_blob
| tag_exception
| tag_start_rec
| tag_end_rec
| tag_eof
| tag_large_blob
| last_tag
| tag_other (c : byte).

#[export] Instance tag_eq_dec : EqDecision tag.
Proof. solve_decision. Defined.

(** [static_cast<unsigned char>(t)]. *)
Definition tag_byte (t : tag) : byte :=
  match t with
  | tag_zero => x00
  | tag_start_obj => x01
  | tag_end_obj => x02
  | tag_char => x03
  | tag_unsigned_char => x04
  | tag_int => x05
  | tag_unsigned_int => x06
  | tag_short => x07
  | tag_unsigned_short => x08
  | tag_long => x09
  | tag_unsigned_long => x0a
  | tag_long_long => x0b
  | tag_unsigned_long_long => x0c
  | tag_float => x0d
  | tag_double => x0e
  | tag_string => x0f
  | tag_blob => x10
  | tag_exception => x11
  | tag_start_rec => x12
  | tag_end_rec => x13
  | tag_eof => x14
  | tag_large_blob => x15
  | last_tag => x16
  | tag_other c => c
  end.

(** [static_cast<tag>(c)]. *)
Definition byte_tag (c : byte) : tag :=
  match c with
  | x00 => tag_zero
  | x01 => tag_start_obj
  | x02 => tag_end_obj
  | x03 => tag_char
  | x04 => tag_unsigned_char
  | x05 => tag_int
  | x06 => tag_unsigned_int
  | x07 => tag_short
  | x08 => tag_unsigned_short
  | x09 => tag_long
  | x0a => tag_unsigned_long
  | x0b => tag_long_long
  | x0c => tag_unsigned_long_long
  | x0d => tag_float
  | x0e => tag_double
  | x0f => tag_string
  | x10 => tag_blob
  | x11 => tag_exception
  | x12 => tag_start_rec
  | x13 => tag_end_rec
  | x14 => tag_eof
  | x15 => tag_large_blob
  | x16 => last_tag
  | c => tag_other c
  end.

(** ** The device behind a stream *)

(** [virtual long write(const void*, long)] returns the number of bytes
    taken; [virtual long read(void*, long)] returns a count and the bytes it
    stored. *)
Class StreamDevice (D : Type) := {
  dev_write : list byte -> M D Z;
  dev_read : Z -> M D (Z * list byte);
}.

(** A device that takes every byte offered while it has room, in order. *)
Class SinkLaws (D : Type) `{StreamDevice D} := {
  sink_out : D -> list byte;
  sink_room : D -> nat -> Prop;
  sink_write : forall d bs, sink_room d (length bs) ->
    exists d', dev_write bs d = (Ok (zlen bs), d') /\
      sink_out d' = sink_out d ++ bs /\
      forall m, sink_room d (length bs + m) -> sink_room d' m;
  sink_room_le : forall d n m, (n <= m)%nat -> sink_room d m -> sink_room d n;
}.

(** A device that delivers its pending bytes in order, short only at the end. *)
Class SourceLaws (D : Type) `{StreamDevice D} := {
  pending : D -> list byte -> Prop;
  src_read : forall d n bs, 0 <= n -> pending d bs ->
    exists d', dev_read n d =
        (Ok (Z.min n (zlen bs), take (Z.to_nat (Z.min n (zlen bs))) bs), d') /\
      pending d' (drop (Z.to_nat (Z.min n (zlen bs))) bs);
}.

(** ** The stream object *)

Record stream (D : Type) : Type := mkStream {
  lastTag_ : tag;
  writeCount_ : Z;
  device : D;
}.
Arguments mkStream {D} _ _ _.
Arguments lastTag_ {D} _.
Arguments writeCount_ {D} _.
Arguments device {D} _.

(** [Stream::Stream()] *)
Definition Stream_init {D} (d : D) : stream D := mkStream tag_zero 0 d.

Definition setLastTag {D} (t : tag) (s : stream D) : stream D :=
  mkStream t (writeCount_ s) (device s).

(** Run a device operation inside the stream. *)
Definition onDevice {D A} (m : M D A) : M (stream D) A := fun s =>
  let '(o, d) := m (device s) in (o, mkStream (lastTag_ s) (writeCount_ s) d).

Section Stream.
Context {D : Type} `{StreamDevice D}.

Abbreviation str_t := (stream D).

Definition putBytes (buf : list byte) : M str_t unit :=
  modifyM (fun s => mkStream (lastTag_ s) (writeCount_ s + zlen buf) (device s)) ;;
  n ← onDevice (dev_write buf);
  if n =? zlen buf then mret tt else throwM WriteError.

Definition getBytes (len : Z) : M str_t (list byte) :=
  nb ← onDevice (dev_read len);
  if fst nb =? len then mret (snd nb) else throwM ReadError.

Definition putChar (c : Z) : M str_t unit := putBytes [byte.of_Z c].

Definition getChar : M str_t Z :=
  bs ← getBytes 1;
  mret (byte.unsigned (default x00 (head bs))).

(** LP64: [unsigned int n = htonl(p)] keeps the low 32 bits of [p]. *)
Definition putLong (p : Z) : M str_t unit := putBytes (be_split 4 p).

Definition getLong : M str_t Z :=
  bs ← getBytes 4;
  mret (be_combine bs).

Fixpoint getChars (n : nat) : M str_t (list byte) :=
  match n with
  | O => mret []
  | S n' => c ← getChar; cs ← getChars n'; mret (byte.of_Z c :: cs)
  end.

Definition badTag {A} (need got : tag) : M str_t A :=
  (if decide (got = tag_string)
   then length ← getLong; _ ← getChars (Z.to_nat length); mret tt
   else mret tt) ;;
  throwM BadTag.

Definition nextTag : M str_t tag :=
  s ← getM;
  if decide (lastTag_ s <> tag_zero)
  then modifyM (setLastTag tag_zero) ;; mret (lastTag_ s)
  else
    nb ← onDevice (dev_read 1);
    if fst nb =? 0 then mret tag_eof
    else if fst nb =? -1 then throwM ShortFile
    else mret (byte_tag (default x00 (head (snd nb)))).

(** The body of [operator>>(std::string&)] after its tag. *)
Definition getString : M str_t (list byte) :=
  length ← getLong;
  getBytes length.

(** The loop over lingering end-of-object tags is fuelled; a call with an
    exception pending reads the message, whose own tag is read by the same
    function. *)
Fixpoint readTag (fuel : nat) (need : tag) : M str_t tag :=
  match fuel with
  | O => liftM NoFuel
  | S f =>
      t ← nextTag;
      if decide (t = tag_end_obj) then readTag f need
      else if decide (t = tag_exception) then
        _ ← readTag f tag_string;
        s ← getString;
        throwM (RemoteException s)
      else if decide (need <> t) then badTag need t
      else mret t
  end.

Definition writeTag (t : tag) : M str_t unit := putBytes [tag_byte t].

(** ** Output operators *)

Definition write_char (x : Z) : M str_t unit :=
  writeTag tag_char ;; putChar (wrapU 8 x).

Definition write_unsigned_char (x : Z) : M str_t unit :=
  writeTag tag_unsigned_char ;; putChar x.

Definition write_int (x : Z) : M str_t unit :=
  writeTag tag_int ;; putLong (wrapU 32 x).

Definition write_bool (x : bool) : M str_t unit :=
  write_int (if x then 1 else 0).

Definition write_unsigned_int (x : Z) : M str_t unit :=
  writeTag tag_unsigned_int ;; putLong x.

(** The [long] is stored into the [int32_t] member of a union first. *)
Definition write_long (x : Z) : M str_t unit :=
  writeTag tag_long ;; putLong (wrapU 32 x).

Definition write_unsigned_long (x : Z) : M str_t unit :=
  writeTag tag_unsigned_long ;; putLong x.

Definition write_long_long (x : Z) : M str_t unit :=
  writeTag tag_long_long ;;
  putLong (Z.shiftr (wrapU 64 x) 32) ;;
  putLong (Z.land (wrapU 64 x) 0xffffffff).

Definition write_unsigned_long_long (x : Z) : M str_t unit :=
  writeTag tag_unsigned_long_long ;;
  putLong (Z.shiftr x 32) ;;
  putLong (Z.land x 0xffffffff).

Definition write_short (x : Z) : M str_t unit :=
  writeTag tag_short ;; putLong (wrapU 16 x).

Definition write_unsigned_short (x : Z) : M str_t unit :=
  writeTag tag_unsigned_short ;; putLong x.

Definition write_float (x : Z) : M str_t unit :=
  writeTag tag_float ;; throwM NotImplemented.

(** A [double] is its 64-bit image; on the little-endian host the union
    member [s.hi] overlays the low word and [s.lo] the high word. *)
Definition double_hi (bits : Z) : Z := Z.land bits 0xffffffff.
Definition double_lo (bits : Z) : Z := Z.shiftr bits 32.

Definition write_double (x : Z) : M str_t unit :=
  writeTag tag_double ;;
  putLong (double_hi x) ;;
  putLong (double_lo x).

Definition write_string (x : list byte) : M str_t unit :=
  writeTag tag_string ;;
  putLong (zlen x) ;;
  putBytes x.

(** The chunk loop of [writeLargeBlob]: at most [n] bytes per call. *)
Fixpoint putChunks (fuel : nat) (n : Z) (p : list byte) : M str_t unit :=
  match fuel with
  | O => liftM NoFuel
  | S f =>
      if 0 <? zlen p then
        if zlen p >? n then
          putBytes (take (Z.to_nat n) p) ;; putChunks f n (drop (Z.to_nat n) p)
        else putBytes p ;; putChunks f n []
      else mret tt
  end.

Definition blob_chunk : Z := 0x80000000.

Definition writeLargeBlob (buffer : list byte) : M str_t unit :=
  writeTag tag_large_blob ;;
  putLong (Z.shiftr (zlen buffer) 32) ;;
  putLong (Z.land (zlen buffer) 0xffffffff) ;;
  putChunks (2 + length buffer) blob_chunk buffer.

Definition writeBlob (buffer : list byte) : M str_t unit :=
  writeTag tag_blob ;;
  assertM (0 <=? wrapS 64 (zlen buffer)) ;;
  putLong (zlen buffer) ;;
  putBytes buffer.

Definition write_exception (what : list byte) : M str_t unit :=
  writeTag tag_exception ;; write_string what.

Definition startObject : M str_t unit := writeTag tag_start_obj.

Definition endObject : M str_t unit := writeTag tag_end_obj.

(** ** Input operators *)

Variable fuel : nat.

Definition read_char : M str_t Z :=
  readTag fuel tag_char ;; u ← getChar; mret (to_signed 8 u).

Definition read_unsigned_char : M str_t Z :=
  readTag fuel tag_unsigned_char ;; getChar.

Definition read_int : M str_t Z :=
  readTag fuel tag_int ;; u ← getLong; mret (to_signed 32 u).

Definition read_bool : M str_t bool :=
  n ← read_int; mret (negb (n =? 0)).

Definition read_unsigned_int : M str_t Z :=
  readTag fuel tag_unsigned_int ;; u ← getLong; mret (wrapU 32 u).

Definition read_short : M str_t Z :=
  readTag fuel tag_short ;; u ← getLong; mret (to_signed 16 (wrapU 16 u)).

Definition read_unsigned_short : M str_t Z :=
  readTag fuel tag_unsigned_short ;; u ← getLong; mret (wrapU 16 u).

Definition read_long : M str_t Z :=
  readTag fuel tag_long ;; u ← getLong; mret (to_signed 32 (wrapU 32 u)).

Definition read_unsigned_long : M str_t Z :=
  readTag fuel tag_unsigned_long ;; getLong.

(** Two words, high word first. *)
Definition getLongLong : M str_t Z :=
  u1 ← getLong; u2 ← getLong; mret (Z.lor (wrapU 64 (Z.shiftl u1 32)) u2).

Definition read_long_long : M str_t Z :=
  readTag fuel tag_long_long ;; u ← getLongLong; mret (to_signed 64 u).

Definition read_unsigned_long_long : M str_t Z :=
  readTag fuel tag_unsigned_long_long ;; getLongLong.

Definition read_float : M str_t Z :=
  readTag fuel tag_float ;; throwM NotImplemented.

Definition read_double : M str_t Z :=
  readTag fuel tag_double ;;
  hi ← getLong; lo ← getLong; mret (Z.lor hi (Z.shiftl lo 32)).

Definition read_string : M str_t (list byte) :=
  readTag fuel tag_string ;; getString.

Fixpoint getChunks (fl : nat) (n : Z) (size : Z) : M str_t (list byte) :=
  match fl with
  | O => liftM NoFuel
  | S f =>
      if 0 <? size then
        let l := if size >? n then n else size in
        bs ← getBytes l; rest ← getChunks f n (size - l); mret (bs ++ rest)
      else mret []
  end.

Definition readLargeBlob (size : Z) : M str_t (list byte) :=
  readTag fuel tag_large_blob ;;
  len ← getLongLong;
  assertM (len =? size) ;;
  getChunks (2 + Z.to_nat (size / blob_chunk)) blob_chunk size.

Definition readBlob (size : Z) : M str_t (list byte) :=
  readTag fuel tag_blob ;;
  len ← getLong;
  assertM (0 <=? len) ;;
  assertM (len =? size) ;;
  getBytes len.

Definition blobSize : M str_t Z :=
  readTag fuel tag_blob ;;
  len ← getLong;
  assertM (0 <=? len) ;;
  mret len.

(** [m[k] = v]: the last value written for a key wins. *)
Fixpoint read_map_loop (n : nat) (m : gmap (list byte) (list byte)) :
    M str_t (gmap (list byte) (list byte)) :=
  match n with
  | O => mret m
  | S n' => k ← read_string; v ← read_string; read_map_loop n' (<[k := v]> m)
  end.

Definition read_map : M str_t (gmap (list byte) (list byte)) :=
  size ← read_unsigned_long;
  read_map_loop (Z.to_nat size) ∅.

(** [bool next(std::string&)], [bool next(int&)], [bool next(bool&)]:
    [None] is the end of the stream. *)
Definition next_string : M str_t (option (list byte)) :=
  t ← nextTag;
  if decide (t = tag_eof) then mret None
  else if decide (t <> tag_string) then badTag tag_string t
  else s ← getString; mret (Some s).

Definition next_int : M str_t (option Z) :=
  t ← nextTag;
  if decide (t = tag_eof) then mret None
  else if decide (t <> tag_int) then badTag tag_int t
  else u ← getLong; mret (Some (to_signed 32 u)).

Definition next_bool : M str_t (option bool) :=
  r ← next_int; mret ((fun n : Z => negb (n =? 0)) <$> r).

Definition endObjectFound : M str_t bool :=
  t ← nextTag;
  modifyM (setLastTag t) ;;
  mret (bool_decide (t = tag_end_obj) || bool_decide (t = tag_zero)).

Definition skipEndObject : M str_t unit :=
  b ← endObjectFound;
  if (b : bool) then modifyM (setLastTag tag_zero) else mret tt.

(** [bool next()]: advance to the next start of object. *)
Fixpoint next_object (fl : nat) : M str_t bool :=
  match fl with
  | O => liftM NoFuel
  | S f =>
      t ← nextTag;
      if decide (t = tag_start_obj) then mret true
      else if decide (t = tag_eof) then mret false
      else if decide (t <> tag_end_obj) then badTag tag_start_obj t
      else next_object f
  end.
End Stream.

(** ** Theory: what a writer appends and a reader consumes *)

Section StreamTheory.
Context {D : Type} `{StreamDevice D}.

(** [m] appends [bs] to the device and counts them. *)
Definition emits `{!SinkLaws D} (m : M (stream D) unit) (bs : list byte) : Prop :=
  forall s, sink_room (device s) (length bs) ->
    exists d', m s = (Ok tt, mkStream (lastTag_ s) (writeCount_ s + zlen bs) d') /\
      sink_out d' = sink_out (device s) ++ bs /\
      forall n, sink_room (device s) (length bs + n) -> sink_room d' n.

Section Sink.
Context `{!SinkLaws D}.

Lemma emits_ret : emits (mret tt) [].
Proof.
  intros [t c d] Hr. exists d. simpl. split_and!; [|by rewrite app_nil_r|done].
  unfold mret, M_ret. do 2 f_equal. unfold zlen; simpl; lia.
Qed.

Lemma emits_putBytes bs : emits (putBytes bs) bs.
Proof.
  intros [t c d] Hr. destruct (sink_write d bs Hr) as (d' & Hw & Ho & Hm).
  exists d'. split; [|done].
  unfold putBytes, mbind, M_bind, modifyM, onDevice; simpl. rewrite Hw.
  by rewrite Z.eqb_refl.
Qed.

Lemma emits_seq m1 m2 b1 b2 :
  emits m1 b1 -> emits m2 b2 -> emits (m1 ;; m2) (b1 ++ b2).
Proof.
  intros H1 H2 s Hr. rewrite length_app in Hr.
  destruct (H1 s) as (d1 & E1 & O1 & R1).
  { eapply sink_room_le; [|done]. lia. }
  destruct (H2 (mkStream (lastTag_ s) (writeCount_ s + zlen b1) d1)) as (d2 & E2 & O2 & R2).
  { simpl. by apply R1. }
  exists d2. unfold mbind, M_bind. rewrite E1, E2. simpl in *. split_and!.
  - do 2 f_equal. zsolve.
  - by rewrite O2, O1, app_assoc.
  - intros n Hn. apply R2, R1. eapply sink_room_le; [|done]. rewrite length_app. lia.
Qed.

Lemma emits_assert c m bs : c = true -> emits m bs -> emits (assertM c ;; m) bs.
Proof. intros -> Hm. done. Qed.

Lemma emits_writeTag t : emits (writeTag t) [tag_byte t].
Proof. apply emits_putBytes. Qed.

Lemma emits_putChunks n p f :
  0 < n -> (length p + 1 < f)%nat -> emits (putChunks f n p) p.
Proof.
  intros Hn. revert p. induction f as [|f IH]; intros p Hf; [lia|].
  simpl. destruct (Z.ltb_spec 0 (zlen p)) as [Hp|Hp].
  - destruct (Z.gtb_spec (zlen p) n) as [Hl|Hl].
    + assert (Hs : emits (putBytes (take (Z.to_nat n) p) ;; putChunks f n (drop (Z.to_nat n) p))
                         (take (Z.to_nat n) p ++ drop (Z.to_nat n) p)).
      { apply emits_seq, IH; [apply emits_putBytes|]. unfold zlen in *. rewrite length_drop. lia. }
      by rewrite take_drop in Hs.
    + assert (Hs : emits (putBytes p ;; putChunks f n []) (p ++ [])).
      { apply emits_seq, IH; [apply emits_putBytes|]. unfold zlen in *. simpl. lia. }
      by rewrite app_nil_r in Hs.
  - destruct p; [apply emits_ret|]. exfalso. zsolve.
Qed.
End Sink.

(** [m] consumes exactly [bs] and returns [a]; on a strict prefix of [bs] it
    throws, whatever the state it leaves. *)
Definition reads `{!SourceLaws D} {A} (m : M (stream D) A) (bs : list byte) (a : A) : Prop :=
  (forall s rest, lastTag_ s = tag_zero -> pending (device s) (bs ++ rest) ->
     exists d', m s = (Ok a, mkStream tag_zero (writeCount_ s) d') /\ pending d' rest) /\
  (forall s p, lastTag_ s = tag_zero -> pending (device s) p -> p `prefix_of` bs -> p <> bs ->
     exists e s', m s = (Throw e, s') /\ (e = ReadError \/ e = BadTag)).

Section Source.
Context `{!SourceLaws D}.

Lemma reads_ret {A} (a : A) : reads (mret a) [] a.
Proof.
  split.
  - intros [t c d] rest Ht Hin. simpl in *; subst. by exists d.
  - intros s p _ _ Hp Hne. by apply prefix_nil_inv in Hp.
Qed.

Lemma reads_bind {A B} (m : M (stream D) A) (f : A -> M (stream D) B) b1 b2 a b :
  reads m b1 a -> reads (f a) b2 b -> reads (m ≫= f) (b1 ++ b2) b.
Proof.
  intros [Y1 S1] [Y2 S2]. split.
  - intros s rest Ht Hin. rewrite <- app_assoc in Hin.
    destruct (Y1 s (b2 ++ rest) Ht Hin) as (d1 & E1 & I1).
    destruct (Y2 (mkStream tag_zero (writeCount_ s) d1) rest eq_refl I1) as (d2 & E2 & I2).
    exists d2. unfold mbind, M_bind. by rewrite E1, E2.
  - intros s p Ht Hin Hp Hne.
    destruct (prefix_app_strict _ _ _ Hp Hne) as [[Hp1 Hn1]|(p2 & -> & Hp2 & Hn2)].
    + destruct (S1 s p Ht Hin Hp1 Hn1) as (e & s' & E & He).
      exists e, s'. split; [by apply M_bind_Throw|done].
    + destruct (Y1 s p2 Ht Hin) as (d1 & E1 & I1). rewrite (M_bind_Ok _ _ _ _ _ E1).
      by eapply S2.
Qed.

Lemma reads_bind_ret {A B} (m : M (stream D) A) (g : A -> B) bs a :
  reads m bs a -> reads (x ← m; mret (g x)) bs (g a).
Proof. intros Hm. rewrite <- (app_nil_r bs). eapply reads_bind, reads_ret; done. Qed.

Lemma reads_assert {A} c (m : M (stream D) A) bs a :
  c = true -> reads m bs a -> reads (assertM c ;; m) bs a.
Proof. intros -> Hm. done. Qed.

Lemma reads_getBytes bs : reads (getBytes (zlen bs)) bs bs.
Proof.
  split.
  - intros [t c d] rest Ht Hin. simpl in *; subst.
    destruct (src_read d (zlen bs) _ (zlen_nonneg _) Hin) as (d' & Hr & Hd).
    replace (Z.min (zlen bs) (zlen (bs ++ rest))) with (zlen bs) in * by zsolve.
    exists d'. unfold getBytes, mbind, M_bind, onDevice. simpl. rewrite Hr. simpl.
    rewrite Z.eqb_refl. unfold zlen in *. rewrite Nat2Z.id in *.
    rewrite take_app_length. by rewrite drop_app_length in Hd.
  - intros [t c d] p Ht Hin Hp Hne. simpl in *; subst.
    destruct (src_read d (zlen bs) _ (zlen_nonneg _) Hin) as (d' & Hr & Hd).
    unfold getBytes, mbind, M_bind, onDevice. simpl. rewrite Hr. simpl.
    destruct (Z.eqb_spec (Z.min (zlen bs) (zlen p)) (zlen bs)) as [E|E]; [|eauto].
    exfalso. apply Hne. destruct Hp as [k ->].
    destruct k; [by rewrite app_nil_r|]. exfalso. zsolve.
Qed.

Lemma reads_getBytes_eq n bs : n = zlen bs -> reads (getBytes n) bs bs.
Proof. intros ->. apply reads_getBytes. Qed.

Lemma reads_getLong z : reads getLong (be_split 4 z) (wrapU 32 z).
Proof.
  unfold getLong, wrapU. replace (z mod 2 ^ 32) with (be_combine (be_split 4 z)).
  - apply reads_bind_ret, reads_getBytes_eq. by rewrite zlen_be_split.
  - by rewrite be_combine_split.
Qed.

Lemma reads_getChar z : reads getChar [byte.of_Z z] (wrapU 8 z).
Proof.
  unfold getChar. replace (wrapU 8 z) with (byte.unsigned (default x00 (head [byte.of_Z z]))).
  - apply (reads_bind_ret (getBytes 1) (fun bs => byte.unsigned (default x00 (head bs)))).
    by apply reads_getBytes_eq.
  - simpl. apply byte.unsigned_of_Z.
Qed.

(** The byte of a named tag is read back as that tag. *)
Definition named_tag (t : tag) : bool :=
  match t with tag_other _ => false | _ => true end.

(** Tags that introduce a value: no marker, no exception, not the end. *)
Definition value_tag (t : tag) : bool :=
  match t with
  | tag_other _ | tag_end_obj | tag_exception | tag_eof | tag_zero => false
  | _ => true
  end.

Lemma nextTag_cons s b rest :
  lastTag_ s = tag_zero -> pending (device s) (b :: rest) ->
  exists d', nextTag s = (Ok (byte_tag b), mkStream tag_zero (writeCount_ s) d') /\
    pending d' rest.
Proof.
  intros Ht Hin. destruct s as [t c d]; simpl in *; subst.
  destruct (src_read d 1 _ ltac:(lia) Hin) as (d' & Hr & Hd).
  replace (Z.min 1 (zlen (b :: rest))) with 1 in * by zsolve.
  exists d'. split; [|exact Hd].
  unfold nextTag, mbind, M_bind, getM, onDevice. simpl. by rewrite Hr.
Qed.

Lemma nextTag_nil s :
  lastTag_ s = tag_zero -> pending (device s) [] ->
  exists d', nextTag s = (Ok tag_eof, mkStream tag_zero (writeCount_ s) d') /\ pending d' [].
Proof.
  intros Ht Hin. destruct s as [t c d]; simpl in *; subst.
  destruct (src_read d 1 _ ltac:(lia) Hin) as (d' & Hr & Hd).
  replace (Z.min 1 (zlen (@nil byte))) with 0 in * by zsolve.
  exists d'. split; [|exact Hd].
  unfold nextTag, mbind, M_bind, getM, onDevice. simpl. by rewrite Hr.
Qed.

Lemma byte_tag_byte t : named_tag t = true -> byte_tag (tag_byte t) = t.
Proof. by destruct t. Qed.

Lemma value_tag_named t : value_tag t = true -> named_tag t = true.
Proof. by destruct t. Qed.

(** [readTag] skips lingering end-of-object bytes. *)
Definition ends (n : nat) : list byte := replicate n (tag_byte tag_end_obj).

Lemma readTag_end f t s rest :
  lastTag_ s = tag_zero -> pending (device s) (tag_byte tag_end_obj :: rest) ->
  exists d', readTag (S f) t s = readTag f t (mkStream tag_zero (writeCount_ s) d') /\
    pending d' rest.
Proof.
  intros Ht Hin. destruct (nextTag_cons s _ rest Ht Hin) as (d' & Hn & Hd).
  exists d'. split; [|done]. simpl. unfold mbind, M_bind. by rewrite Hn.
Qed.

Lemma readTag_ends n f t s rest :
  lastTag_ s = tag_zero -> pending (device s) (ends n ++ rest) ->
  exists d', readTag (n + f) t s = readTag f t (mkStream tag_zero (writeCount_ s) d') /\
    pending d' rest.
Proof.
  revert s. induction n as [|n IH]; intros [t' c d] Ht Hin; simpl in Ht, Hin; subst.
  - by exists d.
  - destruct (readTag_end (n + f) t (mkStream tag_zero c d) (ends n ++ rest)) as (d1 & E & I); [done..|].
    destruct (IH (mkStream tag_zero c d1) eq_refl I) as (d2 & E2 & I2).
    exists d2. split; [|done]. etransitivity; [exact E|exact E2].
Qed.

Lemma badTag_nil {A} need got s :
  got <> tag_string -> badTag (A := A) need got s = (Throw BadTag, s).
Proof. intros Hg. unfold badTag, mbind, M_bind, throwM. by rewrite decide_False by done. Qed.

Lemma reads_getChars bs : reads (getChars (length bs)) bs bs.
Proof.
  induction bs as [|b bs IH]; [apply reads_ret|].
  assert (Eb : byte.of_Z (wrapU 8 (byte.unsigned b)) = b).
  { unfold wrapU. rewrite Z.mod_small by apply byte.unsigned_range. apply byte.of_Z_unsigned. }
  assert (R : reads (getChars (length (b :: bs))) ([byte.of_Z (byte.unsigned b)] ++ bs) (b :: bs)).
  { simpl. eapply (reads_bind getChar _ [byte.of_Z (byte.unsigned b)]); [apply reads_getChar|].
    cbn beta. rewrite Eb. by apply (reads_bind_ret _ (cons b)). }
  by rewrite byte.of_Z_unsigned in R.
Qed.

(** An unexpected string is consumed before [BadTag] is thrown. *)
Lemma badTag_string {A} need s w rest :
  lastTag_ s = tag_zero -> pending (device s) ((be_split 4 (zlen w) ++ w) ++ rest) ->
  in_U 32 (zlen w) = true ->
  exists s', badTag (A := A) need tag_string s = (Throw BadTag, s').
Proof.
  intros Ht Hin Hw.
  assert (R : reads (length ← getLong; _ ← getChars (Z.to_nat length); mret tt)
                    (be_split 4 (zlen w) ++ w) tt).
  { eapply reads_bind; [apply reads_getLong|]. rewrite wrapU_id by done.
    unfold zlen. rewrite Nat2Z.id. eapply (reads_bind_ret _ (fun _ => tt)), reads_getChars. }
  destruct R as [Y _]. destruct (Y s rest Ht Hin) as (d' & E & _).
  exists (mkStream tag_zero (writeCount_ s) d'). unfold badTag.
  rewrite decide_True by done. unfold mbind, M_bind in *. by rewrite E.
Qed.

Lemma readTag_eof f t s :
  lastTag_ s = tag_zero -> pending (device s) [] -> t <> tag_eof ->
  exists s', readTag (S f) t s = (Throw BadTag, s').
Proof.
  intros Ht Hin Hne. destruct (nextTag_nil s Ht Hin) as (d' & Hn & Hd). simpl.
  unfold mbind, M_bind. rewrite Hn. rewrite !decide_False by done.
  rewrite decide_True by done. rewrite badTag_nil by done. eauto.
Qed.

Lemma readTag_hit f t s rest :
  value_tag t = true -> lastTag_ s = tag_zero -> pending (device s) (tag_byte t :: rest) ->
  exists d', readTag (S f) t s = (Ok t, mkStream tag_zero (writeCount_ s) d') /\ pending d' rest.
Proof.
  intros Hv Ht Hin. destruct (nextTag_cons s _ rest Ht Hin) as (d' & Hn & Hd).
  rewrite byte_tag_byte in Hn by by apply value_tag_named.
  exists d'. split; [|done]. simpl. unfold mbind, M_bind. rewrite Hn.
  rewrite !decide_False by (intros ?; subst; naive_solver). done.
Qed.

Lemma prefix_ends_snoc n b p :
  p `prefix_of` ends n ++ [b] -> p <> ends n ++ [b] -> exists m, (m <= n)%nat /\ p = ends m.
Proof.
  intros Hp Hne. destruct (prefix_app_strict _ _ _ Hp Hne) as [[Hp1 _]|(p2 & -> & Hp2 & Hn2)].
  - exists (length p). split.
    + apply prefix_length in Hp1. unfold ends in *. by rewrite length_replicate in Hp1.
    + destruct Hp1 as [k Hk]. unfold ends in *. symmetry in Hk.
      apply (f_equal (take (length p))) in Hk. rewrite take_app_length in Hk.
      rewrite take_replicate in Hk. rewrite Hk at 1. f_equal.
      apply (f_equal length) in Hk. rewrite length_replicate in Hk. lia.
  - exists n. split; [done|]. destruct p2 as [|x p2]; [by rewrite app_nil_r|].
    apply prefix_cons_inv_1 in Hp2 as Hx; subst. apply prefix_cons_inv_2 in Hp2.
    by apply prefix_nil_inv in Hp2; subst.
Qed.

Lemma reads_readTag n f t :
  value_tag t = true -> (n < f)%nat -> reads (readTag f t) (ends n ++ [tag_byte t]) t.
Proof.
  intros Hv Hf. split.
  - intros s rest Ht Hin. rewrite <- app_assoc in Hin.
    replace f with (n + S (f - n - 1))%nat by lia.
    destruct (readTag_ends n (S (f - n - 1)) t s _ Ht Hin) as (d1 & E & I).
    destruct (readTag_hit (f - n - 1) t (mkStream tag_zero (writeCount_ s) d1) rest Hv eq_refl I)
      as (d2 & E2 & I2).
    exists d2. split; [|done]. etransitivity; [exact E|exact E2].
  - intros s p Ht Hin Hp Hne. destruct (prefix_ends_snoc _ _ _ Hp Hne) as (m & Hm & ->).
    replace f with (m + S (f - m - 1))%nat by lia.
    destruct (readTag_ends m (S (f - m - 1)) t s []) as (d1 & E & I); [done|by rewrite app_nil_r|].
    destruct (readTag_eof (f - m - 1) t (mkStream tag_zero (writeCount_ s) d1)) as (s' & E');
      [done..|by destruct t|].
    exists BadTag, s'. split; [|auto]. etransitivity; [exact E|exact E'].
Qed.

Lemma reads_getChunks n f size bs :
  0 < n -> size = zlen bs -> (size + n - 1) / n < Z.of_nat f ->
  reads (getChunks f n size) bs bs.
Proof.
  intros Hn. revert size bs. induction f as [|f IH]; intros size bs Hsz Hf.
  { pose proof (Z.div_pos (size + n - 1) n). pose proof (zlen_nonneg bs). lia. }
  simpl. destruct (Z.ltb_spec 0 size) as [Hp|Hp].
  - destruct (Z.gtb_spec size n) as [Hl|Hl].
    + rewrite <- (take_drop (Z.to_nat n) bs).
      eapply (reads_bind (getBytes n)); [apply reads_getBytes_eq|].
      { unfold zlen in *. rewrite length_take. lia. }
      apply (reads_bind_ret _ (fun rest => take (Z.to_nat n) bs ++ rest)), IH.
      * unfold zlen in *. rewrite length_drop. lia.
      * replace (size - n + n - 1) with (size + n - 1 + (-1) * n) by lia. rewrite Z.div_add by lia. lia.
    + rewrite <- (app_nil_r bs). eapply (reads_bind (getBytes size)).
      { by apply reads_getBytes_eq. }
      apply (reads_bind_ret _ (fun rest => bs ++ rest)), IH; [zsolve|].
      rewrite Z.div_small by lia. pose proof (Z.div_le_lower_bound (size + n - 1) n 1). lia.
  - destruct bs; [apply reads_ret|]. exfalso. zsolve.
Qed.
End Source.
End StreamTheory.
