(* ===== verification/StreamItems.v ===== *)
(** * Values on a stream

    The overloaded operators of [serialisation/Stream.cc] as one family
    indexed by the C++ type of the value, the bytes each one puts on the wire,
    and the properties of the format: round trip, self-delimitation, truncated
    input, type mismatches and remote exceptions. *)
From S2P Require Import Prelude Stream.

(** A value together with the overload that writes it. *)
Inductive item : Type :=
| IChar (x : Z)
| IUnsignedChar (x : Z)
| IBool (x : bool)
| IInt (x : Z)
| IUnsignedInt (x : Z)
| IShort (x : Z)
| IUnsignedShort (x : Z)
| ILong (x : Z)
| IUnsignedLong (x : Z)
| ILongLong (x : Z)
| IUnsignedLongLong (x : Z)
| IDouble (bits : Z)
| IString (s : list byte)
| IBlob (b : list byte)
| ILargeBlob (b : list byte).

(** The overload that reads: a blob is read into a buffer of known size. *)
Inductive kind : Type :=
| KChar | KUnsignedChar | KBool | KInt | KUnsignedInt | KShort | KUnsignedShort
| KLong | KUnsignedLong | KLongLong | KUnsignedLongLong | KDouble | KString
| KBlob (size : Z) | KLargeBlob (size : Z).

Definition kind_of (i : item) : kind :=
  match i with
  | IChar _ => KChar
  | IUnsignedChar _ => KUnsignedChar
  | IBool _ => KBool
  | IInt _ => KInt
  | IUnsignedInt _ => KUnsignedInt
  | IShort _ => KShort
  | IUnsignedShort _ => KUnsignedShort
  | ILong _ => KLong
  | IUnsignedLong _ => KUnsignedLong
  | ILongLong _ => KLongLong
  | IUnsignedLongLong _ => KUnsignedLongLong
  | IDouble _ => KDouble
  | IString _ => KString
  | IBlob b => KBlob (zlen b)
  | ILargeBlob b => KLargeBlob (zlen b)
  end.

Definition kind_tag (k : kind) : tag :=
  match k with
  | KChar => tag_char
  | KUnsignedChar => tag_unsigned_char
  | KBool => tag_int
  | KInt => tag_int
  | KUnsignedInt => tag_unsigned_int
  | KShort => tag_short
  | KUnsignedShort => tag_unsigned_short
  | KLong => tag_long
  | KUnsignedLong => tag_unsigned_long
  | KLongLong => tag_long_long
  | KUnsignedLongLong => tag_unsigned_long_long
  | KDouble => tag_double
  | KString => tag_string
  | KBlob _ => tag_blob
  | KLargeBlob _ => tag_large_blob
  end.

(** The values that the wire format can carry: the type's range, except that a
    [long] or [unsigned long] travels as 32 bits and that lengths of strings and
    blobs are 32-bit words. *)
Definition item_ok (i : item) : bool :=
  match i with
  | IChar x => in_S 8 x
  | IUnsignedChar x => in_U 8 x
  | IBool _ => true
  | IInt x => in_S 32 x
  | IUnsignedInt x => in_U 32 x
  | IShort x => in_S 16 x
  | IUnsignedShort x => in_U 16 x
  | ILong x => in_S 32 x
  | IUnsignedLong x => in_U 32 x
  | ILongLong x => in_S 64 x
  | IUnsignedLongLong x => in_U 64 x
  | IDouble x => in_U 64 x
  | IString s => in_U 32 (zlen s)
  | IBlob b => in_U 32 (zlen b)
  | ILargeBlob b => in_U 63 (zlen b)
  end.

(** The values of the types, a [long] of 64 bits included; and what arrives of them. *)
Definition item_typed (i : item) : bool :=
  match i with ILong x => in_S 64 x | IUnsignedLong x => in_U 64 x | _ => item_ok i end.
Definition carried (i : item) : item :=
  match i with ILong x => ILong (wrapS 32 x) | IUnsignedLong x => IUnsignedLong (wrapU 32 x) | _ => i end.

(** The bytes after the tag. *)
Definition payload (i : item) : list byte :=
  match i with
  | IChar x | IUnsignedChar x => [byte.of_Z x]
  | IBool x => be_split 4 (if x then 1 else 0)
  | IInt x | IUnsignedInt x | ILong x | IUnsignedLong x | IUnsignedShort x => be_split 4 x
  | IShort x => be_split 4 (wrapU 16 x)
  | ILongLong x | IUnsignedLongLong x => be_split 4 (Z.shiftr x 32) ++ be_split 4 x
  | IDouble x => be_split 4 x ++ be_split 4 (Z.shiftr x 32)
  | IString s => be_split 4 (zlen s) ++ s
  | IBlob b => be_split 4 (zlen b) ++ b
  | ILargeBlob b => be_split 4 (Z.shiftr (zlen b) 32) ++ be_split 4 (zlen b) ++ b
  end.

Definition enc (i : item) : list byte := tag_byte (kind_tag (kind_of i)) :: payload i.

Section Items.
Context {D : Type} `{StreamDevice D}.

Definition write_item (i : item) : M (stream D) unit :=
  match i with
  | IChar x => write_char x
  | IUnsignedChar x => write_unsigned_char x
  | IBool x => write_bool x
  | IInt x => write_int x
  | IUnsignedInt x => write_unsigned_int x
  | IShort x => write_short x
  | IUnsignedShort x => write_unsigned_short x
  | ILong x => write_long x
  | IUnsignedLong x => write_unsigned_long x
  | ILongLong x => write_long_long x
  | IUnsignedLongLong x => write_unsigned_long_long x
  | IDouble x => write_double x
  | IString s => write_string s
  | IBlob b => writeBlob b
  | ILargeBlob b => writeLargeBlob b
  end.

Definition read_item (fuel : nat) (k : kind) : M (stream D) item :=
  match k with
  | KChar => x ← read_char fuel; mret (IChar x)
  | KUnsignedChar => x ← read_unsigned_char fuel; mret (IUnsignedChar x)
  | KBool => x ← read_bool fuel; mret (IBool x)
  | KInt => x ← read_int fuel; mret (IInt x)
  | KUnsignedInt => x ← read_unsigned_int fuel; mret (IUnsignedInt x)
  | KShort => x ← read_short fuel; mret (IShort x)
  | KUnsignedShort => x ← read_unsigned_short fuel; mret (IUnsignedShort x)
  | KLong => x ← read_long fuel; mret (ILong x)
  | KUnsignedLong => x ← read_unsigned_long fuel; mret (IUnsignedLong x)
  | KLongLong => x ← read_long_long fuel; mret (ILongLong x)
  | KUnsignedLongLong => x ← read_unsigned_long_long fuel; mret (IUnsignedLongLong x)
  | KDouble => x ← read_double fuel; mret (IDouble x)
  | KString => x ← read_string fuel; mret (IString x)
  | KBlob n => x ← readBlob fuel n; mret (IBlob x)
  | KLargeBlob n => x ← readLargeBlob fuel n; mret (ILargeBlob x)
  end.

(** A session of the writer: values, with objects closed in between. *)
Inductive token : Type := TItem (i : item) | TEndObject.

Definition write_token (t : token) : M (stream D) unit :=
  match t with TItem i => write_item i | TEndObject => endObject end.

Fixpoint write_tokens (ts : list token) : M (stream D) unit :=
  match ts with
  | [] => mret tt
  | t :: ts => write_token t ;; write_tokens ts
  end.

Fixpoint read_items (fuel : nat) (ks : list kind) : M (stream D) (list item) :=
  match ks with
  | [] => mret []
  | k :: ks => i ← read_item fuel k; l ← read_items fuel ks; mret (i :: l)
  end.
End Items.

Definition enc_token (t : token) : list byte :=
  match t with TItem i => enc i | TEndObject => [tag_byte tag_end_obj] end.

Definition enc_tokens (ts : list token) : list byte := ts ≫= enc_token.

Definition items (ts : list token) : list item :=
  ts ≫= fun t => match t with TItem i => [i] | TEndObject => [] end.

Definition token_ok (t : token) : bool :=
  match t with TItem i => item_ok i | TEndObject => true end.

Definition token_typed (t : token) : bool :=
  match t with TItem i => item_typed i | TEndObject => true end.
Definition carried_token (t : token) : token := match t with TItem i => TItem (carried i) | TEndObject => TEndObject end.

(** What [operator<<(const std::exception&)] writes. *)
Definition enc_exception (what : list byte) : list byte :=
  tag_byte tag_exception :: enc (IString what).

(** ** Lemmas on words *)

Lemma be_split_mod n m z w :
  m = 8 * Z.of_nat n -> w mod 2 ^ m = z mod 2 ^ m -> be_split n w = be_split n z.
Proof.
  intros -> Hw. unfold be_split. f_equal. rewrite (le_split_mod w), (le_split_mod z).
  f_equal. rewrite Z.mul_comm. done.
Qed.

Lemma be_split_wrapU n w z : w = 8 * Z.of_nat n -> be_split n (wrapU w z) = be_split n z.
Proof. intros ->. eapply be_split_mod; [done|]. apply Z.mod_mod. lia. Qed.

Lemma be_split_land z : be_split 4 (Z.land z 0xffffffff) = be_split 4 z.
Proof.
  change 0xffffffff with (Z.ones 32). rewrite Z.land_ones by lia.
  by apply (be_split_wrapU 4 32).
Qed.

Lemma shiftr_wrapU64 z : be_split 4 (Z.shiftr (wrapU 64 z) 32) = be_split 4 (Z.shiftr z 32).
Proof.
  apply (be_split_mod 4 32); [done|]. unfold wrapU.
  rewrite !Z.shiftr_div_pow2 by lia. change (2 ^ 64) with (2 ^ 32 * 2 ^ 32).
  rewrite Z.rem_mul_r by lia. rewrite Z.mul_comm, Z.div_add by lia.
  rewrite (Z.div_small (z mod 2 ^ 32)) by (apply Z.mod_pos_bound; lia).
  rewrite Z.add_0_l. apply Z.mod_mod. lia.
Qed.

Lemma lor_hi_lo u hi lo :
  hi = wrapU 32 (Z.shiftr u 32) -> lo = wrapU 32 u ->
  Z.lor (wrapU 64 (Z.shiftl hi 32)) lo = wrapU 64 u.
Proof.
  intros -> ->. unfold wrapU.
  rewrite <- !Z.land_ones by lia. apply Z.bits_inj'. intros k Hk.
  rewrite Z.lor_spec, !Z.land_spec. rewrite Z.shiftl_spec by lia.
  destruct (Z.ltb_spec k 32).
  - rewrite (Z.testbit_neg_r _ (k - 32)) by lia.
    rewrite !Z.ones_spec_low by lia. by rewrite !andb_true_r.
  - rewrite Z.land_spec, Z.shiftr_spec by lia. replace (k - 32 + 32) with k by lia.
    rewrite (Z.ones_spec_high 32 k) by lia. rewrite andb_false_r, orb_false_r.
    destruct (Z.ltb_spec k 64).
    + rewrite !Z.ones_spec_low by lia. by rewrite !andb_true_r.
    + by rewrite (Z.ones_spec_high 64 k), !andb_false_r by lia.
Qed.

Lemma shiftl_small u : 0 <= u < 2 ^ 32 -> wrapU 64 (Z.shiftl u 32) = Z.shiftl u 32.
Proof. intros. apply wrapU_id, in_U_spec. rewrite Z.shiftl_mul_pow2 by lia. lia. Qed.

(** ** Writers and readers of one value *)

Section ItemTheory.
Context {D : Type} `{StreamDevice D}.

Lemma emits_item `{!SinkLaws D} i :
  item_ok i = true -> emits (write_item i) (enc i).
Proof.
  assert (Hcons : forall t bs m, emits m bs -> emits (writeTag t ;; m) (tag_byte t :: bs)).
  { intros t bs m Hm. change (tag_byte t :: bs) with ([tag_byte t] ++ bs).
    apply emits_seq; [apply emits_writeTag|done]. }
  intros Hok.
  destruct i; cbn [enc write_item payload kind_of kind_tag]; apply Hcons.
  1-2: unfold putChar; (replace (byte.of_Z (wrapU 8 x)) with (byte.of_Z x) by
      (apply byte.unsigned_inj; rewrite !byte.unsigned_of_Z; unfold byte.wrap, wrapU;
       by rewrite Z.mod_mod by lia)) || idtac; apply emits_putBytes.
  all: unfold putLong, double_hi, double_lo; rewrite ?(be_split_wrapU 4 32) by done;
    rewrite ?shiftr_wrapU64, ?be_split_land, ?(be_split_mod 4 32 x (wrapU 64 x)) by
      (done || (unfold wrapU; rewrite Z.mod_mod_divide; [done|by exists (2 ^ 32)])).
  all: repeat first [apply emits_putBytes | apply emits_assert | apply emits_seq].
  - (* blob *) rewrite wrapS_id; [apply Z.leb_le, zlen_nonneg|lia|].
    cbn in Hok. rewrite in_U_spec in Hok. rewrite in_S_spec. lia.
  - (* large blob *) apply emits_putChunks; [done|lia].
Qed.

Section Reading.
Context `{!SourceLaws D}.

(** A reader that is a tag followed by a payload reader. *)
Lemma reads_tagged {A} f n t (m : M (stream D) A) bs a :
  value_tag t = true -> (n < f)%nat -> reads m bs a ->
  reads (readTag f t ;; m) (ends n ++ tag_byte t :: bs) a.
Proof.
  intros Hv Hf Hm. change (tag_byte t :: bs) with ([tag_byte t] ++ bs).
  rewrite app_assoc. eapply reads_bind; [by apply reads_readTag|done].
Qed.

Lemma reads_getLong_eq z u : u = wrapU 32 z -> reads getLong (be_split 4 z) u.
Proof. intros ->. apply reads_getLong. Qed.

Lemma reads_getLongLong z :
  reads getLongLong (be_split 4 (Z.shiftr z 32) ++ be_split 4 z) (wrapU 64 z).
Proof.
  unfold getLongLong. rewrite <- (lor_hi_lo z _ _ eq_refl eq_refl).
  eapply reads_bind; [apply reads_getLong|].
  apply (reads_bind_ret _ (fun u2 => Z.lor (wrapU 64 (Z.shiftl (wrapU 32 (Z.shiftr z 32)) 32)) u2)).
  apply reads_getLong.
Qed.

Lemma reads_eq {A} (m : M (stream D) A) bs a b : reads m bs a -> a = b -> reads m bs b.
Proof. by intros ? <-. Qed.

Lemma reads_getString s : in_U 32 (zlen s) = true -> reads getString (be_split 4 (zlen s) ++ s) s.
Proof.
  intros Hs. unfold getString. eapply reads_bind; [by apply reads_getLong|].
  apply reads_getBytes_eq. by apply wrapU_id.
Qed.

Lemma to_signed_wrap w z : 0 < w -> in_S w z = true -> to_signed w (wrapU w z) = z.
Proof. apply wrapS_id. Qed.

Lemma wrapU_wrapU w v z : 0 <= w <= v -> wrapU w (wrapU v z) = wrapU w z.
Proof.
  intros Hw. unfold wrapU. rewrite Z.mod_mod_divide; [done|].
  exists (2 ^ (v - w)). rewrite <- Z.pow_add_r by lia. f_equal. lia.
Qed.

Lemma reads_double bits :
  in_U 64 bits = true ->
  reads (hi ← getLong; lo ← getLong; mret (Z.lor hi (Z.shiftl lo 32)))
        (be_split 4 bits ++ be_split 4 (Z.shiftr bits 32)) bits.
Proof.
  intros Hb. eapply reads_eq.
  - eapply reads_bind; [apply reads_getLong|].
    apply (reads_bind_ret _ (fun lo => Z.lor (wrapU 32 bits) (Z.shiftl lo 32))), reads_getLong.
  - cbn beta. rewrite Z.lor_comm, <- (shiftl_small (wrapU 32 (Z.shiftr bits 32))).
    + rewrite (lor_hi_lo bits _ _ eq_refl eq_refl). by apply wrapU_id.
    + apply Z.mod_pos_bound. lia.
Qed.

(** [read_item] wraps the value read after the tag. *)
Lemma reads_wrapped {A} f n t (m : M (stream D) A) (c : A -> item) bs a v :
  value_tag t = true -> (n < f)%nat -> reads m bs a -> a = v ->
  reads (x ← (readTag f t ;; m); mret (c x)) (ends n ++ tag_byte t :: bs) (c v).
Proof.
  intros Ht Hf Hm <-. apply (reads_bind_ret _ c). by apply reads_tagged.
Qed.

Lemma reads_item f n i :
  item_ok i = true -> (n < f)%nat -> reads (read_item f (kind_of i)) (ends n ++ enc i) i.
Proof.
  intros Hok Hf. destruct i; unfold enc; cbn [item_ok payload kind_of kind_tag read_item] in Hok |- *.
  - eapply reads_wrapped; [done..|apply reads_bind_ret, reads_getChar|by apply to_signed_wrap].
  - eapply reads_wrapped; [done..|apply reads_getChar|by apply wrapU_id].
  - unfold read_bool. apply (reads_bind_ret _ IBool).
    replace x with ((fun v => negb (v =? 0)) (to_signed 32 (wrapU 32 (if x then 1 else 0))))
      at 2 by by destruct x.
    apply (reads_bind_ret (read_int f) (fun v => negb (v =? 0))).
    apply reads_tagged, (reads_bind_ret getLong (to_signed 32)), reads_getLong; done.
  - eapply reads_wrapped; [done..|apply reads_bind_ret, reads_getLong|by apply to_signed_wrap].
  - eapply reads_wrapped; [done..|apply reads_bind_ret, reads_getLong|].
    cbn beta. rewrite wrapU_wrapU by lia. by apply wrapU_id.
  - eapply reads_wrapped; [done..|apply reads_bind_ret, reads_getLong|].
    cbn beta. rewrite !wrapU_wrapU by lia.
    by apply to_signed_wrap.
  - eapply reads_wrapped; [done..|apply reads_bind_ret, reads_getLong|].
    cbn beta. rewrite wrapU_wrapU by lia. by apply wrapU_id.
  - eapply reads_wrapped; [done..|apply reads_bind_ret, reads_getLong|].
    cbn beta. rewrite wrapU_wrapU by lia. by apply to_signed_wrap.
  - eapply reads_wrapped; [done..|apply reads_getLong|by apply wrapU_id].
  - eapply reads_wrapped; [done..|apply reads_bind_ret, reads_getLongLong|by apply to_signed_wrap].
  - eapply reads_wrapped; [done..|apply reads_getLongLong|by apply wrapU_id].
  - eapply reads_wrapped; [done..|by apply reads_double|done].
  - eapply reads_wrapped; [done..|by apply reads_getString|done].
  - eapply reads_wrapped; [done..| |done].
    eapply reads_bind; [apply reads_getLong|]. rewrite wrapU_id by done.
    apply reads_assert; [apply Z.leb_le, zlen_nonneg|].
    apply reads_assert; [apply Z.eqb_refl|apply reads_getBytes].
  - eapply reads_wrapped; [done..| |done]. rewrite app_assoc.
    eapply reads_bind; [apply reads_getLongLong|]. rewrite wrapU_id.
    2:{ rewrite in_U_spec in *. lia. }
    apply reads_assert; [apply Z.eqb_refl|]. apply reads_getChunks; [done|done|].
    unfold blob_chunk. pose proof (zlen_nonneg b).
    rewrite Nat2Z.inj_add, Z2Nat.id by (apply Z.div_pos; lia).
    replace (zlen b + 0x80000000 - 1) with (1 * 0x80000000 + (zlen b - 1)) by lia.
    rewrite Z.div_add_l by lia.
    pose proof (Z.div_le_mono (zlen b - 1) (zlen b) 0x80000000). lia.
Qed.
End Reading.
End ItemTheory.

(** ** Sessions *)

Section Sessions.
Context {D : Type} `{StreamDevice D}.

Lemma emits_tokens `{!SinkLaws D} ts :
  forallb token_ok ts = true -> emits (write_tokens ts) (enc_tokens ts).
Proof.
  unfold enc_tokens. induction ts as [|t ts IH]; simpl; [intros; apply emits_ret|].
  intros [Ht Hts]%andb_true_iff. apply emits_seq; [|by apply IH].
  destruct t; [by apply emits_item|apply emits_writeTag].
Qed.

Lemma read_items_tokens `{!SourceLaws D} fuel ts n s rest :
  forallb token_ok ts = true -> (n + length ts < fuel)%nat ->
  lastTag_ s = tag_zero -> pending (device s) (ends n ++ enc_tokens ts ++ rest) ->
  exists d' k, read_items fuel (kind_of <$> items ts) s =
      (Ok (items ts), mkStream tag_zero (writeCount_ s) d') /\ pending d' (ends k ++ rest).
Proof.
  revert n s. unfold enc_tokens, items.
  induction ts as [|t ts IH]; simpl; intros n s Hok Hf Ht Hin.
  { destruct s as [? c d]; simpl in *; subst. by exists d, n. }
  apply andb_true_iff in Hok as [Hok Hoks]. destruct t as [i|]; simpl in *.
  - destruct (reads_item fuel n i Hok ltac:(lia)) as [Y _].
    destruct (Y s (mbind enc_token ts ++ rest) Ht) as (d1 & E1 & I1).
    { by rewrite <- !app_assoc in Hin |- *. }
    destruct (IH 0%nat (mkStream tag_zero (writeCount_ s) d1)) as (d2 & k & E2 & I2); [done|lia|done..|].
    exists d2, k. split; [|done]. rewrite (M_bind_Ok _ _ _ _ _ E1). by rewrite (M_bind_Ok _ _ _ _ _ E2).
  - apply (IH (S n)); [done|lia|done|]. unfold ends in *.
    by rewrite replicate_S_end, <- app_assoc.
Qed.

Lemma read_item_throw fuel k s e s' :
  readTag fuel (kind_tag k) s = (Throw e, s') -> read_item fuel k s = (Throw e, s').
Proof. intros E. destruct k; cbn [read_item]; repeat first [exact E | apply M_bind_Throw]. Qed.

(** Lingering end-of-object bytes, then a remote exception. *)
Lemma read_item_remote `{!SourceLaws D} fuel n k what s rest :
  in_U 32 (zlen what) = true -> (n + 1 < fuel)%nat -> lastTag_ s = tag_zero ->
  pending (device s) (ends n ++ tag_byte tag_exception :: enc (IString what) ++ rest) ->
  exists d', read_item fuel k s =
      (Throw (RemoteException what), mkStream tag_zero (writeCount_ s) d') /\ pending d' rest.
Proof.
  intros Hw Hf Ht Hin.
  assert (R : exists d', readTag fuel (kind_tag k) s =
      (Throw (RemoteException what), mkStream tag_zero (writeCount_ s) d') /\ pending d' rest).
  { replace fuel with (n + S (fuel - n - 1))%nat by lia.
    destruct (readTag_ends n (S (fuel - n - 1)) (kind_tag k) s _ Ht Hin) as (d1 & E1 & I1).
    destruct (nextTag_cons (mkStream tag_zero (writeCount_ s) d1) _ _ eq_refl I1) as (d2 & E2 & I2).
    destruct (reads_readTag 0 (fuel - n - 1) tag_string eq_refl ltac:(lia)) as [Y1 _].
    destruct (Y1 (mkStream tag_zero (writeCount_ s) d2) (payload (IString what) ++ rest) eq_refl I2)
      as (d3 & E3 & I3).
    destruct (reads_getString what Hw) as [Y2 _].
    destruct (Y2 (mkStream tag_zero (writeCount_ s) d3) rest eq_refl I3) as (d4 & E4 & I4).
    exists d4. split; [|done]. etransitivity; [exact E1|].
    cbn [readTag]. unfold mbind, M_bind. rewrite E2.
    change (byte_tag (tag_byte tag_exception)) with tag_exception.
    rewrite decide_False, decide_True by done. simpl in E3, E4 |- *. by rewrite E3, E4. }
  destruct R as (d' & E & I). exists d'. split; [by apply read_item_throw|done].
Qed.

(** The next value has another type: the reader throws [BadTag]. *)
Lemma read_item_mismatch `{!SourceLaws D} fuel n k i s rest :
  item_ok i = true -> kind_tag k <> kind_tag (kind_of i) -> (n < fuel)%nat ->
  lastTag_ s = tag_zero -> pending (device s) (ends n ++ enc i ++ rest) ->
  exists s', read_item fuel k s = (Throw BadTag, s').
Proof.
  intros Hok Hne Hf Ht Hin.
  assert (R : exists s', readTag fuel (kind_tag k) s = (Throw BadTag, s')).
  { replace fuel with (n + S (fuel - n - 1))%nat by lia.
    destruct (readTag_ends n (S (fuel - n - 1)) (kind_tag k) s _ Ht Hin) as (d1 & E1 & I1).
    destruct (nextTag_cons (mkStream tag_zero (writeCount_ s) d1) _ _ eq_refl I1) as (d2 & E2 & I2).
    rewrite byte_tag_byte in E2 by by destruct i.
    assert (B : exists s', badTag (A := tag) (kind_tag k) (kind_tag (kind_of i))
                  (mkStream tag_zero (writeCount_ s) d2) = (Throw BadTag, s')).
    { destruct (decide (kind_tag (kind_of i) = tag_string)) as [Hs|Hs].
      - destruct i; try done. simpl in Hok. rewrite Hs.
        eapply badTag_string; [done|exact I2|done].
      - rewrite badTag_nil by done. eauto. }
    destruct B as (s' & B). exists s'. etransitivity; [exact E1|].
    cbn [readTag]. unfold mbind at 1, M_bind at 1. cbn in E2. rewrite E2.
    rewrite !decide_False by by destruct i. by rewrite decide_True by done. }
  destruct R as (s' & E). exists s'. by apply read_item_throw.
Qed.
End Sessions.

(** ** Properties *)

(** C40. Truncated input: if the device ends anywhere inside a value (or right
    before it, after any number of closed objects), the read throws [ReadError]
    or [BadTag]; a partial value is never returned. *)
Theorem truncated_value_throws {D} `{SourceLaws D} (fuel n : nat) (i : item)
    (s : stream D) (p : list byte) :
  item_ok i = true -> (n < fuel)%nat ->
  lastTag_ s = tag_zero -> pending (device s) p ->
  p `prefix_of` ends n ++ enc i -> p <> ends n ++ enc i ->
  exists e s', read_item fuel (kind_of i) s = (Throw e, s') /\ (e = ReadError \/ e = BadTag).
Proof. intros Hok Hf. destruct (reads_item fuel n i Hok Hf) as [_ S]. apply S. Qed.

(** Type safety of the wire: reading a value of a type with another tag
    than the value on the device throws [BadTag], whatever precedes it. *)
Theorem wrong_type_bad_tag {D} `{SourceLaws D} (fuel n : nat) (k : kind) (i : item)
    (s : stream D) (rest : list byte) :
  item_ok i = true -> kind_tag k <> kind_tag (kind_of i) -> (n < fuel)%nat ->
  lastTag_ s = tag_zero -> pending (device s) (ends n ++ enc i ++ rest) ->
  exists s', read_item fuel k s = (Throw BadTag, s').
Proof. apply read_item_mismatch. Qed.

(** Remote exceptions: [operator<<(const std::exception&)] puts
    [enc_exception] on the wire, and whatever is read next at the other end
    throws [RemoteException] with the peer's message and leaves the stream
    positioned after it. *)
Theorem remote_exception_rethrown {W D} `{SinkLaws W} `{SourceLaws D}
    (fuel n : nat) (k : kind) (what : list byte) (s : stream D) (rest : list byte) :
  in_U 32 (zlen what) = true -> (n + 1 < fuel)%nat ->
  lastTag_ s = tag_zero -> pending (device s) (ends n ++ enc_exception what ++ rest) ->
  emits (D := W) (write_exception what) (enc_exception what) /\
  exists d', read_item fuel k s =
      (Throw (RemoteException what), mkStream tag_zero (writeCount_ s) d') /\
    pending d' rest.
Proof.
  intros Hw Hf Ht Hp. split.
  - apply (emits_seq _ _ [_]); [apply emits_writeTag|by apply (emits_item (IString what))].
  - by eapply read_item_remote.
Qed.

(** A [long] travels as 32 bits: on an LP64 host any [long] is written
    without error and is read back reduced to the range of [int32_t]; it
    survives exactly when it already fits. *)
Theorem long_reduced_to_32_bits {W D} `{SinkLaws W} `{SourceLaws D} (fuel : nat) (x : Z) :
  emits (D := W) (write_long x) (tag_byte tag_long :: be_split 4 x) /\
  reads (D := D) (read_long (S fuel)) (tag_byte tag_long :: be_split 4 x) (wrapS 32 x) /\
  (wrapS 32 x = x <-> in_S 32 x = true).
Proof.
  split_and!.
  - apply (emits_seq _ _ [_]); [apply emits_writeTag|].
    unfold putLong. rewrite (be_split_wrapU 4 32) by done. apply emits_putBytes.
  - apply (reads_tagged (S fuel) 0); [done|lia|].
    eapply reads_eq; [apply reads_bind_ret, reads_getLong|].
    cbn beta. by rewrite wrapU_wrapU by lia.
  - split; [|by apply wrapS_id]. intros <-. by apply wrapS_range.
Qed.

(** The values that arrive are written with the same bytes. *)
Lemma be_split_wrapS z : be_split 4 (wrapS 32 z) = be_split 4 z.
Proof.
  apply (be_split_mod 4 32); [done|]. unfold wrapS, to_signed, wrapU. destruct (_ <? _); [by rewrite Z.mod_mod by lia|].
  rewrite <- (Z.mod_add _ 1 (2 ^ 32)) by lia. replace (z mod 2 ^ 32 - 2 ^ 32 + 1 * 2 ^ 32) with (z mod 2 ^ 32) by lia. by rewrite Z.mod_mod by lia.
Qed.

Lemma carried_kind i : kind_of (carried i) = kind_of i.
Proof. by destruct i. Qed.
Lemma carried_enc i : enc (carried i) = enc i.
Proof. unfold enc. rewrite carried_kind. f_equal. destruct i; simpl; try done; [apply be_split_wrapS|by apply (be_split_wrapU 4 32)]. Qed.
Lemma carried_ok i : item_typed i = true -> item_ok (carried i) = true.
Proof. destruct i; simpl; try done; intros _; [by apply wrapS_range|]. apply in_U_spec. apply Z.mod_pos_bound. lia. Qed.
Lemma carried_id i : item_ok i = true -> carried i = i.
Proof. destruct i; simpl; try done; intros Hi; f_equal; [by apply wrapS_id|by apply wrapU_id]. Qed.
Lemma write_carried {D} `{StreamDevice D} i : write_item (D := D) (carried i) = write_item i.
Proof.
  destruct i; simpl; try done; unfold write_long, write_unsigned_long, putLong; by rewrite ?(be_split_wrapU 4 32), ?be_split_wrapS.
Qed.

Lemma carried_tokens {D} `{StreamDevice D} ts : write_tokens (D := D) (carried_token <$> ts) = write_tokens ts.
Proof. induction ts as [|t ts IH]; [done|]. rewrite fmap_cons. cbn [write_tokens]. rewrite IH. destruct t; [|done]. cbn [carried_token write_token]. by rewrite write_carried. Qed.
Lemma carried_enc_tokens ts : enc_tokens (carried_token <$> ts) = enc_tokens ts.
Proof.
  unfold enc_tokens. induction ts as [|t ts IH]; [done|]. rewrite fmap_cons, !bind_cons, IH. destruct t; [|done]. cbn [carried_token enc_token]. by rewrite carried_enc.
Qed.
Lemma carried_items ts : items (carried_token <$> ts) = carried <$> items ts.
Proof. unfold items. induction ts as [|t ts IH]; [done|]. rewrite fmap_cons, !bind_cons, IH, fmap_app. by destruct t. Qed.
Lemma carried_tokens_ok ts : forallb token_typed ts = true -> forallb token_ok (carried_token <$> ts) = true.
Proof. rewrite !forallb_forall. intros H t (t' & <- & Ht)%in_map_iff. specialize (H t' Ht). destruct t'; [by apply carried_ok|done]. Qed.
Lemma carried_items_id ts : forallb token_ok ts = true -> carried <$> items ts = items ts.
Proof.
  unfold items. induction ts as [|t ts IH]; [done|]. cbn [forallb]. intros [Hi Hts]%andb_true_iff. rewrite bind_cons, fmap_app, IH by done. destruct t as [i|]; [|done]. cbn. by rewrite (carried_id i Hi).
Qed.

(** Peeking at the end of an object is transparent: [endObjectFound] puts
    the tag back, so the next operation sees the same tag and the same device as
    if the peek had not happened; [skipEndObject] removes exactly one
    end-of-object. *)
Theorem peek_transparent {D} `{SourceLaws D} (s : stream D) (t : tag) (rest : list byte) :
  value_tag t = true \/ t = tag_end_obj \/ t = tag_exception ->
  lastTag_ s = tag_zero -> pending (device s) (tag_byte t :: rest) ->
  (endObjectFound ;; nextTag) s = nextTag s /\
  (exists s', endObjectFound s = (Ok (bool_decide (t = tag_end_obj)), s')) /\
  (exists d', pending d' rest /\
     skipEndObject s =
       (Ok tt, mkStream (if decide (t = tag_end_obj) then tag_zero else t) (writeCount_ s) d')).
Proof.
  intros Hv Ht Hp. destruct (nextTag_cons s _ _ Ht Hp) as (d' & E & I).
  assert (Hn : byte_tag (tag_byte t) = t /\ t <> tag_zero).
  { destruct Hv as [Hv|[->| ->]]; [|done..]. split; [by apply byte_tag_byte, value_tag_named|by intros ->]. }
  destruct Hn as [Hb Hz]. rewrite Hb in E.
  assert (F : endObjectFound s = (Ok (bool_decide (t = tag_end_obj)), mkStream t (writeCount_ s) d')).
  { unfold endObjectFound. rewrite (M_bind_Ok _ _ _ _ _ E). unfold mbind, M_bind, modifyM, mret, M_ret.
    simpl. by rewrite (bool_decide_false (t = tag_zero)), orb_false_r by done. }
  split_and!; [|by eauto|].
  - rewrite (M_bind_Ok _ _ _ _ _ F), E. unfold nextTag, mbind, M_bind, getM, modifyM, mret, M_ret.
    simpl. by rewrite decide_True by done.
  - exists d'. split; [done|]. unfold skipEndObject. rewrite (M_bind_Ok _ _ _ _ _ F).
    case_bool_decide; [by rewrite decide_True by done|by rewrite decide_False by done].
Qed.
