(* ===== verification/MemoryStream.v ===== *)
(** * Memory devices for streams

    [serialisation/MemoryStream.cc] (a stream over a caller's fixed buffer) and
    [serialisation/ResizableMemoryStream.cc] (a stream over a [Buffer] that
    grows on demand), with [Buffer::resize] of [io/Buffer.cc] and
    [eckit::round] of [maths/Functions.cc].  Both satisfy the interfaces of
    [Stream], so the properties of the wire format hold for them. *)
From S2P Require Import Prelude Stream StreamItems.

Module MemoryStream.
(** [address_] and [size_] (its length), [position_]. *)
Record t : Type := mk { address_ : list byte; position_ : nat }.

Definition read (length : Z) : M t (Z * list byte) := fun d =>
  let left := zlen (address_ d) - Z.of_nat (position_ d) in
  let size := Z.min left length in
  (Ok (size, take (Z.to_nat size) (drop (position_ d) (address_ d))),
   mk (address_ d) (position_ d + Z.to_nat size)).

Definition write (buffer : list byte) : M t Z := fun d =>
  let left := zlen (address_ d) - Z.of_nat (position_ d) in
  let size := Z.min left (zlen buffer) in
  (Ok size,
   mk (memcpy_at (address_ d) (position_ d) (take (Z.to_nat size) buffer))
      (position_ d + Z.to_nat size)).

Definition rewind (d : t) : t := mk (address_ d) 0.

(** The invariant kept by every method. *)
Definition wf (d : t) : Prop := (position_ d <= length (address_ d))%nat.

#[global] Instance device : StreamDevice t := {| dev_write := write; dev_read := read |}.

Lemma write_wf bs d : wf d -> wf (write bs d).2 /\
  length (address_ (write bs d).2) = length (address_ d).
Proof.
  unfold wf, write, zlen. simpl. intros Hd.
  rewrite length_memcpy_at by (rewrite length_take; lia). lia.
Qed.

Lemma read_wf n d : 0 <= n -> wf d -> wf (read n d).2.
Proof. unfold wf, read, zlen. simpl. lia. Qed.

#[global] Program Instance sink : SinkLaws t := {|
  sink_out d := take (position_ d) (address_ d);
  sink_room d n := (position_ d + n <= length (address_ d))%nat;
|}.
Next Obligation.
  intros [a p] bs Hr. simpl in Hr. unfold dev_write, device, write. simpl.
  replace (Z.min (zlen a - Z.of_nat p) (zlen bs)) with (zlen bs) by zsolve.
  unfold zlen. rewrite Nat2Z.id, firstn_all. eexists. split; [done|]. simpl.
  rewrite take_memcpy_at by lia. split; [done|]. intros m Hm.
  rewrite length_memcpy_at by lia. lia.
Qed.
Next Obligation. simpl. lia. Qed.

(** A source delivers what lies between the position and the end. *)
#[global] Program Instance source : SourceLaws t := {|
  pending d bs := wf d /\ drop (position_ d) (address_ d) = bs;
|}.
Next Obligation.
  intros [a p] n bs Hn [Hwf <-]. unfold wf in *. simpl in *.
  unfold dev_read, device, read. simpl.
  replace (Z.min n (zlen (drop p a))) with (Z.min (zlen a - Z.of_nat p) n).
  2:{ unfold zlen. rewrite length_drop. lia. }
  eexists. split; [done|]. unfold wf, zlen in *. simpl. rewrite drop_drop.
  split; [lia|done].
Qed.
End MemoryStream.

(** [eckit::round] *)
Definition round (x n : Z) : Z := ((x + n - 1) / n) * n.

Lemma round_ge x n : 0 < n -> x <= round x n.
Proof. intros. unfold round. pose proof (Z.div_mod (x + n - 1) n). pose proof (Z.mod_pos_bound (x + n - 1) n). nia. Qed.

(** [eckit::round] on [size_t]. *)
Definition round_size (x n : Z) : Z := wrapU 64 (wrapU 64 (x + n - 1) / n * n).

Module ResizableMemoryStream.
(** [buffer_] and [position_]. *)
Record t : Type := mk { buffer_ : list byte; position_ : nat }.

Section Device.
(** The content of freshly allocated memory is indeterminate. *)
Variable junk : nat -> byte.

Definition fresh (n : nat) : list byte := junk <$> seq 0 n.

(** [Buffer::resize(size, preserveData = true)] *)
Definition resize (size : Z) (b : list byte) : list byte :=
  if negb (size =? zlen b)
  then memcpy_at (fresh (Z.to_nat size)) 0 (take (Z.to_nat size) b)
  else b.

Definition read (length : Z) : M t (Z * list byte) := fun d =>
  let left := zlen (buffer_ d) - Z.of_nat (position_ d) in
  let size := Z.min left length in
  (Ok (size, take (Z.to_nat size) (drop (position_ d) (buffer_ d))),
   mk (buffer_ d) (position_ d + Z.to_nat size)).

Definition write (buffer : list byte) : M t Z := fun d =>
  let len := zlen buffer in
  let left := zlen (buffer_ d) - Z.of_nat (position_ d) in
  let b := if left <? len
           then resize (round (2 * (zlen (buffer_ d) + (len - left))) 64) (buffer_ d)
           else buffer_ d in
  let left := zlen b - Z.of_nat (position_ d) in
  let written := Z.min left len in
  (Ok written,
   mk (memcpy_at b (position_ d) (take (Z.to_nat written) buffer))
      (position_ d + Z.to_nat written)).

Definition rewind (d : t) : t := mk (buffer_ d) 0.

Definition wf (d : t) : Prop := (position_ d <= length (buffer_ d))%nat.

Definition device : StreamDevice t := {| dev_write := write; dev_read := read |}.

Lemma resize_prefix size b :
  zlen b <= size -> zlen (resize size b) = size /\ take (length b) (resize size b) = b.
Proof.
  intros Hs. unfold resize. destruct (Z.eqb_spec size (zlen b)) as [->|Hne]; simpl.
  { split; [done|apply firstn_all]. }
  unfold zlen in *. rewrite (take_ge b) by lia. unfold memcpy_at, fresh. simpl. split.
  - rewrite length_app, length_drop, length_fmap, length_seq. lia.
  - by rewrite take_app_length.
Qed.

(** Growing makes room for [len] bytes at the position. *)
Lemma grow_spec d len :
  wf d -> 0 <= len ->
  let left := zlen (buffer_ d) - Z.of_nat (position_ d) in
  let b := if left <? len
           then resize (round (2 * (zlen (buffer_ d) + (len - left))) 64) (buffer_ d)
           else buffer_ d in
  Z.of_nat (position_ d) + len <= zlen b /\ take (position_ d) b = take (position_ d) (buffer_ d).
Proof.
  intros Hwf Hlen left b. subst left b. unfold wf in Hwf.
  destruct (Z.ltb_spec (zlen (buffer_ d) - Z.of_nat (position_ d)) len) as [Hl|Hl];
    [|split; [lia|done]].
  set (size := round _ _). assert (Hs : 2 * (Z.of_nat (position_ d) + len) <= size).
  { etransitivity; [|by apply round_ge]. lia. }
  destruct (resize_prefix size (buffer_ d)) as [Hz Ht]; [unfold zlen in *; lia|].
  split; [lia|]. rewrite <- Ht at 2. rewrite take_take. f_equal. lia.
Qed.

#[local] Existing Instance device.

#[export] Program Instance sink : SinkLaws t := {|
  sink_out d := take (position_ d) (buffer_ d);
  sink_room d n := wf d;
|}.
Next Obligation.
  intros [b p] bs Hr. unfold dev_write, device, write. cbn [buffer_ position_].
  destruct (grow_spec (mk b p) (zlen bs) Hr (zlen_nonneg bs)) as [Hb Ht].
  cbn [buffer_ position_] in Hb, Ht. set (b' := if _ <? _ then _ else _) in *.
  replace (Z.min (zlen b' - Z.of_nat p) (zlen bs)) with (zlen bs) by lia.
  unfold zlen in *. rewrite Nat2Z.id, firstn_all. eexists. split; [done|]. simpl.
  rewrite take_memcpy_at by lia. rewrite Ht. split; [done|]. intros _ _.
  unfold wf. simpl. rewrite length_memcpy_at by lia. lia.
Qed.
Next Obligation. done. Qed.

#[export] Program Instance source : SourceLaws t := {|
  pending d bs := wf d /\ drop (position_ d) (buffer_ d) = bs;
|}.
Next Obligation.
  intros [a p] n bs Hn [Hwf <-]. unfold wf in *. simpl in *.
  unfold dev_read, device, read. simpl.
  replace (Z.min n (zlen (drop p a))) with (Z.min (zlen a - Z.of_nat p) n).
  2:{ unfold zlen. rewrite length_drop. lia. }
  eexists. split; [done|]. unfold wf, zlen in *. simpl. rewrite drop_drop.
  split; [lia|done].
Qed.
End Device.
End ResizableMemoryStream.

(** ** Properties *)

(** C1. Round trip through a fixed memory buffer: any sequence of values of the types of
    the format, texts and blobs shorter than 4 GiB and large blobs shorter than [2^63]
    bytes, with any number of objects closed in between, is written without error into a
    buffer that is large enough, and after a rewind the matching sequence of reads returns
    them: a [long] or [unsigned long] reduced to 32 bits, and every other value as it was. *)
Theorem memory_roundtrip (ts : list token) (buf : list byte) (fuel : nat) :
  forallb token_typed ts = true ->
  (length (enc_tokens ts) <= length buf)%nat ->
  (length ts < fuel)%nat ->
  exists s' s'',
    write_tokens ts (Stream_init (MemoryStream.mk buf 0)) = (Ok tt, s') /\
    writeCount_ s' = zlen (enc_tokens ts) /\
    read_items fuel (kind_of <$> items ts) (Stream_init (MemoryStream.rewind (device s')))
      = (Ok (carried <$> items ts), s'') /\
    (forallb token_ok ts = true -> carried <$> items ts = items ts).
Proof.
  intros Hty Hb Hf. pose proof (carried_tokens_ok ts Hty) as Hok. rewrite <- carried_enc_tokens in *.
  destruct (emits_tokens _ Hok (Stream_init (MemoryStream.mk buf 0))) as (d' & E & O & _); [done|].
  eexists. destruct (read_items_tokens fuel (carried_token <$> ts) 0 (Stream_init (MemoryStream.rewind d'))
    (drop (MemoryStream.position_ d') (MemoryStream.address_ d'))) as (d'' & k & R & _); [done|rewrite length_fmap; lia|done| |].
  { simpl. split; [unfold MemoryStream.wf; simpl; lia|]. simpl in O. by rewrite <- O, take_drop. }
  rewrite carried_tokens in E. rewrite carried_items in R.
  assert (Ek : kind_of <$> (carried <$> items ts) = kind_of <$> items ts) by (rewrite <- list_fmap_compose; apply list_fmap_ext; intros ? i _; apply carried_kind).
  rewrite Ek in R. eexists. split_and!; [exact E|done|exact R|apply carried_items_id].
Qed.

Lemma memory_roundtrip_witness :
  let ts := [TItem (IInt (-7)); TEndObject; TEndObject; TItem (IString (str "abc")); TItem (ILong (-9)); TItem (ILong (2 ^ 32 + 5));
             TItem (ILongLong (-5000000000)); TEndObject] in
  exists s' s'',
    write_tokens ts (Stream_init (MemoryStream.mk (replicate 50 x00) 0)) = (Ok tt, s') /\
    writeCount_ s' = zlen (enc_tokens ts) /\
    read_items 10 (kind_of <$> items ts) (Stream_init (MemoryStream.rewind (device s')))
      = (Ok [IInt (-7); IString (str "abc"); ILong (-9); ILong 5; ILongLong (-5000000000)], s'').
Proof.
  intros ts. destruct (memory_roundtrip ts (replicate 50 x00) 10) as (s' & s'' & E & Hc & R & _); [reflexivity|vm_compute; lia|simpl; lia|].
  exists s', s''. split; [exact E|]. split; [exact Hc|exact R].
Defined.

(** Round trip through a growing buffer: whatever the initial size of the
    buffer and whatever fresh memory contains, writing never fails and reading
    back from the start returns the values. *)
Theorem resizable_roundtrip (junk : nat -> byte) (ts : list token) (buf : list byte) (fuel : nat) :
  forallb token_ok ts = true ->
  (length ts < fuel)%nat ->
  exists s' s'',
    @write_tokens _ (ResizableMemoryStream.device junk) ts
       (Stream_init (ResizableMemoryStream.mk buf 0)) = (Ok tt, s') /\
    @read_items _ (ResizableMemoryStream.device junk) fuel (kind_of <$> items ts)
       (Stream_init (ResizableMemoryStream.rewind (device s'))) = (Ok (items ts), s'').
Proof.
  intros Hok Hf. pose (ResizableMemoryStream.device junk) as dev.
  pose (ResizableMemoryStream.sink junk) as snk. pose (ResizableMemoryStream.source junk) as src.
  destruct (emits_tokens ts Hok (Stream_init (ResizableMemoryStream.mk buf 0))) as (d' & E & O & R).
  { unfold sink_room; simpl. unfold ResizableMemoryStream.wf. simpl. lia. }
  eexists. destruct (read_items_tokens fuel ts 0 (Stream_init (ResizableMemoryStream.rewind d'))
    (drop (ResizableMemoryStream.position_ d') (ResizableMemoryStream.buffer_ d')))
    as (d'' & k & R' & _); [done|lia|done| |].
  { simpl. split; [unfold ResizableMemoryStream.wf; simpl; lia|]. simpl in O. by rewrite <- O, take_drop. }
  eexists. split; [exact E|exact R'].
Qed.

Lemma resizable_roundtrip_witness :
  let ts := [TItem (IString (str "growing")); TEndObject; TItem (IDouble 4614253070214989087)] in
  exists s' s'',
    @write_tokens _ (ResizableMemoryStream.device (fun _ => x2a)) ts
       (Stream_init (ResizableMemoryStream.mk [] 0)) = (Ok tt, s') /\
    @read_items _ (ResizableMemoryStream.device (fun _ => x2a)) 4 (kind_of <$> items ts)
       (Stream_init (ResizableMemoryStream.rewind (device s'))) = (Ok (items ts), s'').
Proof. apply resizable_roundtrip; [reflexivity|simpl; lia]. Defined.

(** ** Concrete instances of the stream properties *)

Lemma truncated_value_throws_witness :
  exists e s', read_item 2 KInt (Stream_init (MemoryStream.mk [x05; x00; x00] 0)) = (Throw e, s') /\
    (e = ReadError \/ e = BadTag).
Proof.
  apply (truncated_value_throws 2 0 (IInt 7) _ [x05; x00; x00]); [reflexivity|lia|reflexivity| | |].
  - simpl. split; [unfold MemoryStream.wf; simpl; lia|reflexivity].
  - exists [x00; x07]. reflexivity.
  - discriminate.
Defined.

Lemma wrong_type_bad_tag_witness :
  exists s', read_item 3 KDouble (Stream_init (MemoryStream.mk (x02 :: enc (IString (str "hi"))) 0))
    = (Throw BadTag, s').
Proof.
  apply (wrong_type_bad_tag 3 1 KDouble (IString (str "hi")) _ []); [reflexivity|discriminate|lia|reflexivity|].
  simpl. split; [unfold MemoryStream.wf; simpl; lia|reflexivity].
Defined.

Lemma remote_exception_rethrown_witness :
  exists d', read_item 3 KBool (Stream_init (MemoryStream.mk (enc_exception (str "boom") ++ [x02]) 0))
    = (Throw (RemoteException (str "boom")), mkStream tag_zero 0 d') /\ pending d' [x02].
Proof.
  apply (remote_exception_rethrown (W := MemoryStream.t) 3 0 KBool (str "boom")
           (Stream_init (MemoryStream.mk (enc_exception (str "boom") ++ [x02]) 0)) [x02]);
    [reflexivity|lia|reflexivity|].
  simpl. split; [unfold MemoryStream.wf; simpl; lia|reflexivity].
Defined.

Lemma peek_transparent_witness :
  let s := Stream_init (MemoryStream.mk [x02; x05] 0) in
  (endObjectFound ;; nextTag) s = nextTag s /\
  (exists s', endObjectFound s = (Ok true, s')) /\
  (exists d', pending d' [x05] /\ skipEndObject s = (Ok tt, mkStream tag_zero 0 d')).
Proof.
  apply (peek_transparent (Stream_init (MemoryStream.mk [x02; x05] 0)) tag_end_obj [x05]);
    [right; left; reflexivity|reflexivity|].
  simpl. split; [unfold MemoryStream.wf; simpl; lia|reflexivity].
Defined.

(** A full buffer: when fewer bytes than requested are left, [putBytes]
    throws [WriteError]; the buffer keeps its size, what was written before stays
    intact, and no byte is stored outside the buffer. *)
Theorem memory_overflow_throws (s : stream MemoryStream.t) (bs : list byte) :
  MemoryStream.wf (device s) ->
  (length (MemoryStream.address_ (device s)) < MemoryStream.position_ (device s) + length bs)%nat ->
  exists d', putBytes bs s = (Throw WriteError, mkStream (lastTag_ s) (writeCount_ s + zlen bs) d') /\
    MemoryStream.wf d' /\
    length (MemoryStream.address_ d') = length (MemoryStream.address_ (device s)) /\
    take (MemoryStream.position_ (device s)) (MemoryStream.address_ d')
      = take (MemoryStream.position_ (device s)) (MemoryStream.address_ (device s)).
Proof.
  destruct s as [t c [a p]]. unfold MemoryStream.wf. simpl. intros Hwf Hr.
  unfold putBytes, mbind, M_bind, modifyM, onDevice, dev_write. simpl.
  destruct (Z.eqb_spec (Z.min (zlen a - Z.of_nat p) (zlen bs)) (zlen bs)); [unfold zlen in *; lia|].
  eexists. split; [done|]. simpl. unfold zlen.
  rewrite length_memcpy_at by (rewrite length_take; lia). split_and!; [lia|done|].
  unfold memcpy_at. rewrite take_app_le by (rewrite length_take; lia). rewrite take_take. f_equal. lia.
Qed.

Lemma memory_overflow_throws_witness :
  let s := Stream_init (MemoryStream.mk [x01; x02] 1) in
  exists d', putBytes [xaa; xbb] s = (Throw WriteError, mkStream tag_zero 2 d') /\
    MemoryStream.wf d' /\ length (MemoryStream.address_ d') = 2%nat /\
    take 1 (MemoryStream.address_ d') = [x01].
Proof.
  apply (memory_overflow_throws (Stream_init (MemoryStream.mk [x01; x02] 1)) [xaa; xbb]).
  - unfold MemoryStream.wf. simpl. lia.
  - simpl. lia.
Defined.
