(* ===== verification/CircularBuffer.v ===== *)
(** * Circular byte buffer

    [io/CircularBuffer.cc]: a byte queue in a ring of [size_] bytes that grows,
    by multiples of its initial size, up to [capacity_], which is not bounded unless it
    is given ([numeric_limits<size_t>::max()]).  [pos_] is the offset
    of the oldest byte and [used_] the number of queued bytes.  Every method
    holds the (recursive) mutex from start to end, so calls are atomic and a
    history of the object is a sequence of calls. *)
From S2P Require Import Prelude Stream StreamItems MemoryStream.
#[local] Open Scope nat_scope.

Record CircularBuffer : Type := mkCB {
  buffer_ : list byte;   (** the allocated memory *)
  increment_ : nat;
  size_ : nat;
  capacity_ : Z;
  pos_ : nat;
  used_ : nat }.

Section Buffer.
(** The content of freshly allocated memory is indeterminate. *)
Variable junk : nat -> byte.

Definition CircularBuffer_new (size : nat) (capacity : Z) : outcome CircularBuffer :=
  ASSERT (bool_decide (Z.of_nat size <= capacity)%Z) ≫= fun _ =>
  Ok (mkCB (allocate junk size) size size capacity 0 0).

(** The default of the capacity. *)
Definition unlimited : Z := 2 ^ 64 - 1.

(** [x % size_] *)
Definition mod_size (x size : nat) : outcome nat := if decide (size = 0) then Undef else Ok (x mod size).

Definition read (length : nat) : M CircularBuffer (nat * list byte) :=
  c ← getM;
  let len := Nat.min (used_ c) length in
  let n := Nat.min (size_ c - pos_ c) len in
  p1 ← liftM (memory (buffer_ c) (pos_ c) n);
  p2 ← liftM (memory (buffer_ c) 0 (len - n));
  pos ← liftM (mod_size (pos_ c + len) (size_ c));
  putM (mkCB (buffer_ c) (increment_ c) (size_ c) (capacity_ c) pos (used_ c - len)) ;;
  mret (len, p1 ++ p2).

(** The growth branch of [write]. *)
Definition grow (newsize : nat) : M CircularBuffer unit :=
  c ← getM;
  let save := used_ c in
  '(got, bytes) ← read save;
  assertM (bool_decide (got = save)) ;;
  buffer ← liftM (memcpy (allocate junk newsize) 0 bytes);
  putM (mkCB buffer (increment_ c) newsize (capacity_ c) 0 save).

(** The end of [write]: the bytes are copied after the queued ones. *)
Definition append (p : list byte) : M CircularBuffer nat :=
  c ← getM;
  start ← liftM (mod_size (pos_ c + used_ c) (size_ c));
  let n := Nat.min (size_ c - start) (length p) in
  b ← liftM (memcpy (buffer_ c) start (take n p));
  b ← liftM (memcpy b 0 (drop n p));
  putM (mkCB b (increment_ c) (size_ c) (capacity_ c) (pos_ c) (used_ c + length p)) ;;
  mret (length p).

Definition write (p : list byte) : M CircularBuffer nat :=
  c ← getM;
  let left := size_ c - used_ c in
  (if decide (left < length p) then
     let newsize := Z.to_nat (round_size (Z.of_nat (size_ c) + zlen p) (Z.of_nat (increment_ c))) in
     if decide (capacity_ c < Z.of_nat newsize)%Z then throwM SeriousBug else grow newsize
   else mret tt) ;;
  append p.

Definition length_ : M CircularBuffer nat := c ← getM; mret (used_ c).

Definition clear : M CircularBuffer unit :=
  modifyM (fun c => mkCB (buffer_ c) (increment_ c) (size_ c) (capacity_ c) 0 0).

(** ** Abstract specification: a queue of bytes with a current size *)

Record queue : Type := mkQueue { bytes : list byte; room : nat; step_ : nat; limit : Z }.

Inductive op : Type := Write (p : list byte) | Read (n : nat) | Length | Clear.
Inductive result : Type := RCount (n : nat) | RBytes (n : nat) (p : list byte) | RUnit | RThrow (e : exn).

(** The size after a write of [n] bytes: the least multiple of the initial size
    that is at least the current size plus [n], when the bytes do not fit. *)
Definition grown (q : queue) (n : nat) : nat :=
  if decide (room q - length (bytes q) < n) then
    let x := room q + n in (x + step_ q - 1) / step_ q * step_ q
  else room q.

Definition spec_step (o : op) (q : queue) : result * queue :=
  match o with
  | Write p =>
      if decide (room q - length (bytes q) < length p /\ (limit q < Z.of_nat (grown q (length p)))%Z)
      then (RThrow SeriousBug, q)
      else (RCount (length p), mkQueue (bytes q ++ p) (grown q (length p)) (step_ q) (limit q))
  | Read n =>
      (RBytes (Nat.min (length (bytes q)) n) (take n (bytes q)),
       mkQueue (drop n (bytes q)) (room q) (step_ q) (limit q))
  | Length => (RCount (length (bytes q)), q)
  | Clear => (RUnit, mkQueue [] (room q) (step_ q) (limit q))
  end.

Definition catch {A} (m : M CircularBuffer A) (f : A -> result) : M CircularBuffer result := fun c =>
  match m c with
  | (Ok a, c') => (Ok (f a), c')
  | (Throw e, c') => (Ok (RThrow e), c')
  | (Undef, c') => (Undef, c')
  | (NoFuel, c') => (NoFuel, c')
  end.

Definition step (o : op) : M CircularBuffer result :=
  match o with
  | Write p => catch (write p) RCount
  | Read n => catch (read n) (fun r => RBytes r.1 r.2)
  | Length => catch length_ RCount
  | Clear => catch clear (fun _ => RUnit)
  end.

Fixpoint run (os : list op) : M CircularBuffer (list result) :=
  match os with [] => mret [] | o :: os => r ← step o; rs ← run os; mret (r :: rs) end.

Fixpoint spec_run (os : list op) (q : queue) : list result * queue :=
  match os with
  | [] => ([], q)
  | o :: os => let '(r, q1) := spec_step o q in let '(rs, q2) := spec_run os q1 in (r :: rs, q2)
  end.

(** ** Representation invariant *)

Record wf (c : CircularBuffer) : Prop := {
  wf_buffer : length (buffer_ c) = size_ c;
  wf_inc : 0 < increment_ c;
  wf_size : 0 < size_ c /\ (Z.of_nat (size_ c) <= capacity_ c)%Z;
  wf_incsize : increment_ c <= size_ c;
  wf_pos : pos_ c < size_ c;
  wf_used : used_ c <= size_ c }.

(** The queued bytes, oldest first. *)
Definition contents (c : CircularBuffer) : list byte :=
  take (used_ c) (drop (pos_ c) (buffer_ c ++ buffer_ c)).

Definition represents (c : CircularBuffer) (q : queue) : Prop :=
  wf c /\ contents c = bytes q /\ size_ c = room q /\ increment_ c = step_ q /\ capacity_ c = limit q.

(** Wrapping an offset of at most twice the size. *)
Lemma mod_wrap x s : 0 < s -> x < s + s -> x mod s = if decide (x < s) then x else x - s.
Proof.
  intros. case_decide; [by apply Nat.mod_small|].
  replace x with (x - s + 1 * s) at 1 by lia. rewrite Nat.Div0.mod_add. apply Nat.mod_small. lia.
Qed.

Lemma mod_size_ok x s : 0 < s -> mod_size x s = Ok (x mod s).
Proof. intros. unfold mod_size. rewrite decide_False by lia. done. Qed.

Lemma lookup_twice (b : list byte) j :
  (b ++ b) !! j = if decide (j < length b) then b !! j else b !! (j - length b).
Proof. case_decide; [by apply lookup_app_l|apply lookup_app_r; lia]. Qed.

Lemma lookup_contents c i :
  wf c -> i < used_ c -> contents c !! i = buffer_ c !! ((pos_ c + i) mod size_ c).
Proof.
  intros [Hb _ [Hs _] _ Hp Hu] Hi. unfold contents.
  rewrite lookup_take_lt by done. rewrite lookup_drop, lookup_twice, mod_wrap by lia. rewrite Hb.
  by repeat case_decide.
Qed.

Lemma length_contents c : wf c -> length (contents c) = used_ c.
Proof. intros [Hb _ _ _ Hp Hu]. unfold contents. rewrite length_take, length_drop, length_app. lia. Qed.

Lemma ring_read_ok c n :
  wf c ->
  read n c = (Ok (Nat.min (used_ c) n, take n (contents c)),
    mkCB (buffer_ c) (increment_ c) (size_ c) (capacity_ c)
      ((pos_ c + Nat.min (used_ c) n) mod size_ c) (used_ c - Nat.min (used_ c) n)).
Proof.
  intros Hw. pose proof Hw as [Hb _ [Hs _] _ Hp Hu]. unfold read.
  rewrite (M_bind_Ok _ _ _ c c) by done.
  set (len := Nat.min (used_ c) n). set (k := Nat.min (size_ c - pos_ c) len).
  unfold memory. rewrite !decide_True by lia. rewrite drop_0, mod_size_ok by lia.
  unfold mbind, M_bind, liftM, putM, mret, M_ret. f_equal. f_equal. f_equal.
  unfold contents. rewrite take_take, drop_app_le, take_app by lia.
  rewrite length_drop. f_equal.
  - destruct (decide (len <= size_ c - pos_ c)); [f_equal; lia|].
    rewrite !take_ge by (rewrite length_drop; lia). done.
  - f_equal. lia.
Qed.

Lemma read_represents c q n :
  represents c q ->
  exists c', read n c = (Ok (Nat.min (length (bytes q)) n, take n (bytes q)), c') /\
    represents c' (mkQueue (drop n (bytes q)) (room q) (step_ q) (limit q)).
Proof.
  intros (Hw & Hc & Hr & Hi & Hl). rewrite <- Hc, length_contents, ring_read_ok by done.
  eexists. split; [done|]. pose proof Hw as [Hb ? [Hs ?] ? Hp Hu].
  set (len := Nat.min (used_ c) n).
  assert (Hw' : wf (mkCB (buffer_ c) (increment_ c) (size_ c) (capacity_ c)
                      ((pos_ c + len) mod size_ c) (used_ c - len))).
  { split; simpl; try lia. apply Nat.mod_upper_bound. lia. }
  split; [done|]. split; [|done]. cbn [bytes]. apply list_eq_below.
  { rewrite length_drop, !length_contents by done. simpl. lia. }
  rewrite length_contents by done. cbn [used_]. intros i Hi'. rewrite lookup_drop.
  rewrite !lookup_contents by (try done; simpl; lia). cbn [buffer_ pos_ size_].
  f_equal. rewrite Nat.Div0.add_mod_idemp_l. f_equal. lia.
Qed.

Lemma grow_represents c q newsize :
  represents c q -> room q <= newsize -> (Z.of_nat newsize <= limit q)%Z ->
  exists c', grow newsize c = (Ok tt, c') /\ represents c' (mkQueue (bytes q) newsize (step_ q) (limit q)) /\
    pos_ c' = 0.
Proof.
  intros (Hw & Hc & Hr & Hi & Hl) Hn Hn'. pose proof Hw as [Hb ? [Hs ?] ? Hp Hu]. unfold grow.
  rewrite (M_bind_Ok _ _ _ c c) by done.
  rewrite (M_bind_Ok _ _ _ _ _ (ring_read_ok c (used_ c) Hw)). rewrite Nat.min_id.
  rewrite (take_ge (contents c)) by (by rewrite length_contents).
  rewrite bool_decide_true by done.
  rewrite memcpy_ok by (rewrite length_contents, length_allocate by done; lia).
  unfold mbind, M_bind, assertM, liftM, putM, ASSERT. eexists. split; [done|].
  assert (Hw' : wf (mkCB (memcpy_at (allocate junk newsize) 0 (contents c)) (increment_ c) newsize
                      (capacity_ c) 0 (used_ c))).
  { split; simpl; try lia. rewrite length_memcpy_at; [apply length_allocate|].
    rewrite length_contents, length_allocate by done. lia. }
  split; [|done]. split; [done|]. cbn [bytes room step_ limit size_ increment_ capacity_].
  split; [|done]. rewrite <- Hc. apply list_eq_below.
  { by rewrite !length_contents. }
  rewrite length_contents by done. cbn [used_]. intros i Hi'.
  rewrite (lookup_contents _ i Hw') by done. cbn [buffer_ pos_ size_]. simpl.
  rewrite Nat.mod_small by lia.
  rewrite lookup_memcpy_at by (rewrite length_contents, length_allocate by done; lia).
  rewrite decide_True by (rewrite length_contents by done; lia). f_equal. lia.
Qed.

Lemma append_represents c q p :
  represents c q -> length (bytes q) + length p <= room q ->
  exists c', append p c = (Ok (length p), c') /\
    represents c' (mkQueue (bytes q ++ p) (room q) (step_ q) (limit q)).
Proof.
  intros (Hw & Hc & Hr & Hi & Hl) Hfit. pose proof Hw as [Hb ? [Hs ?] ? Hp Hu].
  assert (Hlen := length_contents c Hw). rewrite Hc in Hlen. unfold append.
  rewrite (M_bind_Ok _ _ _ c c) by done. rewrite mod_size_ok by lia.
  rewrite (M_bind_Ok (liftM (Ok _)) _ _ _ c eq_refl).
  set (start := (pos_ c + used_ c) mod size_ c).
  assert (Hst : start = if decide (pos_ c + used_ c < size_ c) then pos_ c + used_ c
                        else pos_ c + used_ c - size_ c) by (by apply mod_wrap; lia).
  assert (start < size_ c) by (apply Nat.mod_upper_bound; lia).
  set (n := Nat.min (size_ c - start) (length p)).
  set (b1 := memcpy_at (buffer_ c) start (take n p)). set (b2 := memcpy_at b1 0 (drop n p)).
  assert (Ht : length (take n p) = n) by (rewrite length_take; lia).
  assert (Hb1 : length b1 = size_ c) by (unfold b1; rewrite length_memcpy_at; lia).
  assert (Hd : length (drop n p) = length p - n) by apply length_drop.
  rewrite memcpy_ok by lia. rewrite (M_bind_Ok (liftM (Ok _)) _ _ _ c eq_refl). fold b1.
  rewrite memcpy_ok by lia. fold b2. eexists. split; [done|].
  assert (Hw' : wf (mkCB b2 (increment_ c) (size_ c) (capacity_ c) (pos_ c) (used_ c + length p))).
  { split; simpl; try lia. unfold b2. rewrite length_memcpy_at; lia. }
  split; [done|]. split; [|done]. cbn [bytes]. rewrite <- Hc. apply list_eq_below.
  { by rewrite length_app, !length_contents. }
  rewrite length_contents by done. cbn [used_]. intros i Hi'.
  rewrite lookup_contents by done. cbn [buffer_ pos_ size_].
  unfold b2. rewrite lookup_memcpy_at by lia. unfold b1. rewrite lookup_memcpy_at by lia.
  rewrite mod_wrap by lia. destruct (decide (i < used_ c)) as [Hiu|Hiu].
  - rewrite lookup_app_l by (by rewrite length_contents). rewrite lookup_contents, mod_wrap by (done || lia).
    repeat case_decide; try lia; done.
  - rewrite lookup_app_r by (rewrite length_contents by done; lia). rewrite length_contents by done.
    destruct (decide (pos_ c + used_ c < size_ c)); destruct (decide (pos_ c + i < size_ c));
      repeat case_decide; try lia; rewrite ?lookup_drop, ?lookup_take_lt by lia; f_equal; lia.
Qed.

(** ** Sequences of calls *)

(** The sizes that the writes compute fit in a [size_t]. *)
Definition op_fits (o : op) (q : queue) : Prop :=
  match o with Write p => (Z.of_nat (room q) + zlen p + Z.of_nat (step_ q) < 2 ^ 64)%Z | _ => True end.
Fixpoint fits (os : list op) (q : queue) : Prop :=
  match os with [] => True | o :: os => op_fits o q /\ fits os (spec_step o q).2 end.

Lemma round_size_nat x n :
  0 < n -> (Z.of_nat x + Z.of_nat n < 2 ^ 64)%Z ->
  Z.to_nat (round_size (Z.of_nat x) (Z.of_nat n)) = (x + n - 1) / n * n.
Proof.
  intros Hn Hx. unfold round_size, wrapU.
  replace (Z.of_nat x + Z.of_nat n - 1)%Z with (Z.of_nat (x + n - 1)) by lia.
  rewrite (Z.mod_small (Z.of_nat (x + n - 1))) by lia.
  rewrite <- Nat2Z.inj_div, <- Nat2Z.inj_mul.
  pose proof (Nat.Div0.mul_div_le (x + n - 1) n).
  rewrite Z.mod_small by lia. apply Nat2Z.id.
Qed.

Lemma div_up_ge x n : 0 < n -> x <= (x + n - 1) / n * n.
Proof. intros. pose proof (Nat.div_mod_eq (x + n - 1) n). pose proof (Nat.mod_upper_bound (x + n - 1) n). nia. Qed.

Lemma write_represents c q p :
  represents c q -> op_fits (Write p) q ->
  exists c', step (Write p) c = (Ok (spec_step (Write p) q).1, c') /\
    represents c' (spec_step (Write p) q).2.
Proof.
  intros Hrep Hp. pose proof Hrep as (Hw & Hc & Hr & Hi & Hl). pose proof Hw as [Hb ? [Hs ?] ? Hps Hu].
  assert (Hlen := length_contents c Hw). rewrite Hc in Hlen.
  unfold op_fits, zlen in Hp. unfold step, catch, write. rewrite (M_bind_Ok _ _ _ c c) by done.
  cbn [spec_step]. unfold grown. rewrite <- Hr, Hlen, <- Hi, <- Hl.
  destruct (decide (size_ c - used_ c < length p)) as [Hg|Hg].
  - unfold zlen. rewrite <- Nat2Z.inj_add, round_size_nat by lia.
    set (newsize := (_ + _ - 1) / _ * _).
    assert (size_ c + length p <= newsize) by (by apply div_up_ge).
    destruct (decide (capacity_ c < Z.of_nat newsize)%Z) as [Hcap|Hcap].
    + rewrite decide_True by done. by eexists.
    + rewrite decide_False by lia. cbn [fst snd].
      destruct (grow_represents c q newsize Hrep ltac:(lia) ltac:(lia)) as (c1 & E1 & H1 & _).
      rewrite (M_bind_Ok _ _ _ _ _ E1).
      destruct (append_represents _ _ p H1) as (c2 & E2 & H2); [cbn [bytes room]; lia|].
      rewrite E2. cbn [bytes room step_ limit] in *. rewrite Hi, Hl. by eexists.
  - rewrite decide_False by lia. cbn [fst snd].
    rewrite (M_bind_Ok _ _ _ tt c) by done.
    destruct (append_represents _ _ p Hrep) as (c2 & E2 & H2); [lia|].
    rewrite E2. rewrite Hi, Hr, Hl. by eexists.
Qed.

Lemma step_represents o c q :
  represents c q -> op_fits o q ->
  exists c', step o c = (Ok (spec_step o q).1, c') /\ represents c' (spec_step o q).2.
Proof.
  intros Hrep Ho.
  destruct o as [p|n| |].
  - destruct (write_represents c q p Hrep Ho) as (c' & ? & ?). by exists c'.
  - destruct (read_represents c q n Hrep) as (c' & E & H). exists c'.
    unfold step, catch. by rewrite E.
  - pose proof Hrep as (Hw & Hc & _). exists c. unfold step, catch, length_. simpl.
    by rewrite <- Hc, length_contents.
  - destruct Hrep as (Hw & Hc & Hr). eexists. split; [done|].
    split; [|done]. destruct Hw. split; simpl; lia.
Qed.

Lemma run_represents os c q :
  represents c q -> fits os q ->
  exists c', run os c = (Ok (spec_run os q).1, c') /\ represents c' (spec_run os q).2.
Proof.
  revert c q. induction os as [|o os IH]; intros c q Hrep Hos; [by exists c|].
  destruct Hos as [Ho Hos'].
  destruct (step_represents o c q Hrep Ho) as (c1 & E1 & H1).
  destruct (IH c1 _ H1 Hos') as (c2 & E2 & H2).
  exists c2. cbn [run spec_run]. rewrite (M_bind_Ok _ _ _ _ _ E1), (M_bind_Ok _ _ _ _ _ E2).
  destruct (spec_step o q) as [r q1]. cbn [fst snd] in *. by destruct (spec_run os q1).
Qed.

Lemma new_buffer_represents size capacity :
  0 < size -> (Z.of_nat size <= capacity)%Z ->
  exists c, CircularBuffer_new size capacity = Ok c /\ represents c (mkQueue [] size size capacity).
Proof.
  intros Hs Hc. unfold CircularBuffer_new. rewrite bool_decide_true by lia. eexists. split; [done|].
  split; [|done]. split; simpl; try lia. apply length_allocate.
Qed.
End Buffer.

(** ** Sequences of calls whose sizes fit *)

Lemma spec_step_sizes o q : 0 < step_ q -> let q' := (spec_step o q).2 in
  step_ q' = step_ q /\ limit q' = limit q /\ (Z.of_nat (room q') <= Z.max (Z.of_nat (room q)) (limit q))%Z /\
  room q' <= room q + match o with Write p => length p + step_ q | _ => 0 end.
Proof.
  intros Hs. destruct o as [p|n| |]; simpl; try (split_and!; (done || lia)). case_decide as H; simpl; [split_and!; (done || lia)|].
  split; [done|]. split; [done|]. unfold grown in *. case_decide as Hg; [|lia].
  pose proof (Nat.Div0.mul_div_le (room q + length p + step_ q - 1) (step_ q)). split; [|nia]. assert (~ (limit q < Z.of_nat ((room q + length p + step_ q - 1) / step_ q * step_ q))%Z) by (intros Hlt; apply H; done). lia.
Qed.

(** Below a capacity of [2^62], and writes below [2^62]. *)
Lemma fits_capacity os : forall q, 0 < step_ q -> (Z.of_nat (room q) <= limit q < 2 ^ 62)%Z -> (Z.of_nat (step_ q) < 2 ^ 62)%Z ->
  Forall (fun o => match o with Write p => (zlen p < 2 ^ 62)%Z | _ => True end) os -> fits os q.
Proof.
  induction os as [|o os IH]; intros q H0 Hr Hs Hos; [done|]. inversion Hos as [|? ? Ho Hos']; subst. destruct (spec_step_sizes o q H0) as (H1 & H2 & H3 & _).
  split; [destruct o; simpl; (done || lia)|]. apply IH; [lia|lia|lia|done].
Qed.

(** With any capacity, until [2^64] bytes were asked for: the bytes of every write and a
    multiple of the initial size. *)
Definition demand (size : nat) (os : list op) : Z :=
  foldr (fun o n => match o with Write p => zlen p + Z.of_nat size + n | _ => n end)%Z 0%Z os.
Lemma fits_demand os : forall q, 0 < step_ q -> (Z.of_nat (room q) + demand (step_ q) os < 2 ^ 64)%Z -> fits os q.
Proof.
  induction os as [|o os IH]; intros q H0 Hd; [done|]. destruct (spec_step_sizes o q H0) as (H1 & _ & _ & H4).
  assert (Hpos : (0 <= demand (step_ q) os)%Z) by (clear; induction os as [|[] os IH]; simpl; unfold zlen in *; lia).
  split; [destruct o; simpl in *; (done || lia)|]. apply IH; [lia|]. rewrite H1. destruct o; simpl in *; unfold zlen in *; lia.
Qed.

(** C10. The circular buffer is a byte queue: any sequence of calls on a new buffer with a
    positive size and any capacity, the unlimited one included, returns what a queue
    returns, bytes coming out in the order they went in across wrap-around and growth; a
    write that would need more than the capacity throws and changes nothing, and no call
    touches memory outside the buffer.  The sizes that the writes compute must fit in 64
    bits, as they do when the capacity is below [2^62], or when fewer than [2^64] bytes are
    asked for. *)
Theorem circular_buffer_refines_queue (junk : nat -> byte) (size : nat) (capacity : Z) (os : list op) :
  0 < size -> (Z.of_nat size <= capacity)%Z -> fits os (mkQueue [] size size capacity) ->
  exists c0 c, CircularBuffer_new junk size capacity = Ok c0 /\
    run junk os c0 = (Ok (spec_run os (mkQueue [] size size capacity)).1, c) /\
    contents c = bytes (spec_run os (mkQueue [] size size capacity)).2 /\
    (Z.of_nat (size_ c) <= capacity)%Z.
Proof.
  intros Hs Hc Hos. destruct (new_buffer_represents junk size capacity Hs Hc) as (c0 & E0 & H0).
  destruct (run_represents junk os c0 _ H0 Hos) as (c & E & Hw & Hb & Hr & _ & Hl).
  exists c0, c. split_and!; [done..|]. destruct Hw as [_ _ [_ Hle] _ _ _].
  assert (Hlim : forall os q, limit (spec_run os q).2 = limit q).
  { clear. induction os as [|o os IH]; intros q; [done|]. cbn [spec_run].
    destruct (spec_step o q) as [r q1] eqn:E. specialize (IH q1). destruct (spec_run os q1). simpl in *.
    rewrite IH. destruct o; simpl in E; try case_decide; by simplify_eq. }
  rewrite Hlim in Hl. simpl in Hl. lia.
Qed.

Lemma circular_buffer_refines_queue_witness :
  (exists c0 c, CircularBuffer_new (fun _ => "000"%byte) 4 8 = Ok c0 /\
    run (fun _ => "000"%byte) [Write (str "abc"); Read 2; Write (str "defg"); Read 1; Write (str "0123456789"); Read 9] c0 =
      (Ok [RCount 3; RBytes 2 (str "ab"); RCount 4; RBytes 1 (str "c"); RThrow SeriousBug; RBytes 4 (str "defg")], c) /\
    contents c = [] /\ (Z.of_nat (size_ c) <= 8)%Z) /\
  exists c0 c, CircularBuffer_new (fun _ => "000"%byte) 4 unlimited = Ok c0 /\
    run (fun _ => "000"%byte) [Write (str "abc"); Read 2; Write (str "0123456789"); Read 20] c0 =
      (Ok [RCount 3; RBytes 2 (str "ab"); RCount 10; RBytes 11 (str "c0123456789")], c) /\
    contents c = [] /\ (Z.of_nat (size_ c) <= unlimited)%Z.
Proof.
  split.
  - apply (circular_buffer_refines_queue (fun _ => "000"%byte) 4 8); [lia|lia|]. apply fits_demand; [simpl; lia|vm_compute; reflexivity].
  - apply (circular_buffer_refines_queue (fun _ => "000"%byte) 4 unlimited); [lia|vm_compute; discriminate|]. apply fits_demand; [simpl; lia|vm_compute; reflexivity].
Defined.
