(* ===== verification/Handles.v ===== *)
(** * Data handles

    [io/DataHandle.h]: the interface through which eckit moves bytes, as a class
    of operations and as the laws that a readable handle (a source with a
    content) and a writable handle (a sink with room) obey; and
    [io/MemoryHandle.cc], the handle over a block of memory. *)
From S2P Require Import Prelude Stream StreamItems MemoryStream.

(** ** The interface *)

(** The virtual methods used by the handles modelled here.  [dh_read] returns the
    count and the bytes stored in the caller's buffer. *)
Class DataHandle (H : Type) : Type := {
  dh_openForRead : M H Z;
  dh_openForWrite : Z -> M H unit;
  dh_read : Z -> M H (Z * list byte);
  dh_write : list byte -> M H Z;
  dh_close : M H unit;
  dh_seek : Z -> M H Z;
  dh_position : M H Z;
  dh_size : M H Z;
  dh_estimate : M H Z }.

(** What a readable handle promises.  [readable h c p]: [h] has the content [c],
    and is closed ([p = None]) or open for reading at an offset.  A read returns
    as many bytes as there are, up to the number asked for. *)
Class SourceHandle (H : Type) `{DataHandle H} : Type := {
  readable : H -> list byte -> option nat -> Prop;
  readable_bound h c p : readable h c (Some p) -> (p <= length c)%nat;
  src_open h c : readable h c None ->
    exists h', dh_openForRead h = (Ok (zlen c), h') /\ readable h' c (Some 0%nat);
  src_read h c p n : readable h c (Some p) -> 0 < n ->
    let got := take (Z.to_nat n) (drop p c) in
    exists h', dh_read n h = (Ok (zlen got, got), h') /\ readable h' c (Some (p + length got)%nat);
  src_close h c p : readable h c (Some p) ->
    exists h', dh_close h = (Ok tt, h') /\ readable h' c None;
  src_seek h c p o : readable h c (Some p) -> 0 <= o <= zlen c ->
    exists h', dh_seek o h = (Ok o, h') /\ readable h' c (Some (Z.to_nat o));
  src_position h c p : readable h c (Some p) -> dh_position h = (Ok (Z.of_nat p), h);
  src_estimate h c p : readable h c p -> dh_estimate h = (Ok (zlen c), h) }.

(** Not every handle knows its size before it is read. *)
Class SizedSource (H : Type) `{SourceHandle H} : Prop :=
  src_size h c p : readable h c p -> dh_size h = (Ok (zlen c), h).

(** What a writable handle promises.  [writable h p out room]: [h] has received
    [out]; it is open ([p]) or not, and can take [room] more bytes.  The length
    given when it is opened is an estimate, which may be less than what follows. *)
Class SinkHandle (H : Type) `{DataHandle H} : Type := {
  writable : H -> bool -> list byte -> nat -> Prop;
  snk_open h n room : 0 <= n <= Z.of_nat room -> writable h false [] room ->
    exists h', dh_openForWrite n h = (Ok tt, h') /\ writable h' true [] room;
  snk_write h out room bs : writable h true out room -> (length bs <= room)%nat ->
    exists h', dh_write bs h = (Ok (zlen bs), h') /\ writable h' true (out ++ bs) (room - length bs);
  snk_close h out room : writable h true out room ->
    exists h', dh_close h = (Ok tt, h') /\ writable h' false out room }.

(** ** Memory handle *)

Record MemoryHandle : Type := mkMH {
  address_ : list byte;
  size_ : Z;
  capacity_ : Z;
  opened_ : bool;
  readOnly_ : bool;
  read_ : bool;
  grow_ : bool;
  owned_ : bool;
  position_ : Z }.

Module MemoryHandle.
Section Handle.
Variable junk : nat -> byte.

Implicit Types h : MemoryHandle.

(** Over a caller's memory, [const] or not, and over memory of its own. *)
Definition over (address : list byte) (readOnly : bool) : MemoryHandle :=
  mkMH address (zlen address) (zlen address) false readOnly false false false 0.
Definition owned (size : Z) (grow : bool) : MemoryHandle :=
  mkMH (allocate junk (Z.to_nat size)) 0 size false false false grow true 0.

Definition set_mode (opened read : bool) (position : Z) h : MemoryHandle :=
  mkMH (address_ h) (size_ h) (capacity_ h) opened (readOnly_ h) read (grow_ h) (owned_ h) position.

Definition openForRead : M MemoryHandle Z :=
  modifyM (set_mode true true 0) ;; h ← getM; mret (size_ h).

Definition openForWrite (length : Z) : M MemoryHandle unit :=
  h ← getM; assertM (negb (readOnly_ h)) ;; putM (set_mode true false 0 h).

Definition openForAppend (length : Z) : M MemoryHandle unit := throwM NotImplemented.

Definition read (length : Z) : M MemoryHandle (Z * list byte) :=
  h ← getM;
  assertM (opened_ h) ;;
  assertM (read_ h) ;;
  assertM (0 <=? length) ;;
  let left := wrapU 64 (size_ h - position_ h) in
  let size := Z.min left length in
  bytes ← liftM (memory (address_ h) (Z.to_nat (position_ h)) (Z.to_nat size));
  putM (set_mode (opened_ h) (read_ h) (position_ h + size) h) ;;
  mret (size, bytes).

(** The growth branch of [write]. *)
Definition enlarge (length : Z) : M MemoryHandle unit :=
  h ← getM;
  (if wrapU 64 (capacity_ h - position_ h) <? length then
     let newcapacity := round_size (capacity_ h + length) (1024 * 1024) in
     bytes ← liftM (memory (address_ h) 0 (Z.to_nat (position_ h)));
     newdata ← liftM (memcpy (allocate junk (Z.to_nat newcapacity)) 0 bytes);
     putM (mkMH newdata (size_ h) newcapacity (opened_ h) (readOnly_ h) (read_ h) (grow_ h) (owned_ h) (position_ h))
   else mret tt) ;;
  modifyM (fun h => mkMH (address_ h) (size_ h + length) (capacity_ h) (opened_ h) (readOnly_ h) (read_ h)
                      (grow_ h) (owned_ h) (position_ h)).

Definition write (buffer : list byte) : M MemoryHandle Z :=
  let length := zlen buffer in
  h ← getM;
  assertM (opened_ h) ;;
  assertM (negb (read_ h)) ;;
  let left := wrapU 64 (size_ h - position_ h) in
  (if grow_ h && (left <? length) then enlarge length else mret tt) ;;
  h ← getM;
  let left := wrapU 64 (size_ h - position_ h) in
  let size := Z.min left length in
  address ← liftM (memcpy (address_ h) (Z.to_nat (position_ h)) (take (Z.to_nat size) buffer));
  putM (mkMH address (size_ h) (capacity_ h) (opened_ h) (readOnly_ h) (read_ h) (grow_ h) (owned_ h)
          (position_ h + size)) ;;
  mret size.

Definition close : M MemoryHandle unit := modifyM (fun h => set_mode false (read_ h) (position_ h) h).

Definition flush : M MemoryHandle unit := mret tt.

Definition rewind : M MemoryHandle unit :=
  h ← getM; assertM (opened_ h) ;; putM (set_mode (opened_ h) (read_ h) 0 h).

Definition seek (off : Z) : M MemoryHandle Z :=
  h ← getM;
  assertM (opened_ h) ;;
  assertM (wrapU 64 off <=? size_ h) ;;
  putM (set_mode (opened_ h) (read_ h) off h) ;;
  mret off.

Definition position : M MemoryHandle Z := h ← getM; assertM (opened_ h) ;; mret (position_ h).

Definition skip (len : Z) : M MemoryHandle unit :=
  h ← getM; assertM (read_ h) ;; p ← position; _ ← seek (p + len); mret tt.

Definition size : M MemoryHandle Z := h ← getM; mret (size_ h).
Definition estimate : M MemoryHandle Z := h ← getM; mret (size_ h).

(** [std::string(address_, address_ + position_)] *)
Definition str : M MemoryHandle (list byte) :=
  h ← getM; liftM (memory (address_ h) 0 (Z.to_nat (position_ h))).

(** A handle that owns its memory is copied; the others share the memory. *)
Definition clone (h : MemoryHandle) : outcome MemoryHandle :=
  if owned_ h then
    let c := owned (size_ h) (grow_ h) in
    bytes ← memory (address_ h) 0 (Z.to_nat (size_ h));
    address ← memcpy (address_ c) 0 bytes;
    Ok (mkMH address (size_ h) (capacity_ c) false false false (grow_ h) true 0)
  else
    bytes ← memory (address_ h) 0 (Z.to_nat (size_ h));
    Ok (over bytes (readOnly_ h)).

#[export] Instance handle : DataHandle MemoryHandle := {|
  dh_openForRead := openForRead; dh_openForWrite := openForWrite; dh_read := read; dh_write := write;
  dh_close := close; dh_seek := seek; dh_position := position; dh_size := size; dh_estimate := estimate |}.

(** *** The laws *)

Definition sane h : Prop :=
  zlen (address_ h) = capacity_ h /\ 0 <= position_ h <= size_ h /\ size_ h <= capacity_ h < 2 ^ 62.

Definition opened_at h (p : option nat) : Prop :=
  match p with None => opened_ h = false | Some k => opened_ h = true /\ read_ h = true /\ position_ h = Z.of_nat k end.

Definition has_content h (c : list byte) : Prop := zlen c = size_ h /\ take (length c) (address_ h) = c.

Definition is_readable h (c : list byte) (p : option nat) : Prop := sane h /\ has_content h c /\ opened_at h p.

#[local] Ltac mh_solve :=
  unfold is_readable, sane, has_content, opened_at, set_mode, zlen in *; destruct_and?; simpl; split_and!; try done; try lia.

Lemma wrapU_small z : 0 <= z < 2 ^ 64 -> wrapU 64 z = z.
Proof. apply Z.mod_small. Qed.

Lemma take_length_of_take {A} n (x : list A) : take (length (take n x)) x = take n x.
Proof.
  rewrite length_take. destruct (Nat.le_ge_cases n (length x)).
  - by rewrite Nat.min_l.
  - by rewrite Nat.min_r, !take_ge by lia.
Qed.

Lemma memory_read_ok h c p n :
  is_readable h c (Some p) -> 0 <= n ->
  let got := take (Z.to_nat n) (drop p c) in
  exists h', read n h = (Ok (zlen got, got), h') /\ is_readable h' c (Some (p + length got)%nat).
Proof.
  intros ((Ha & Hp & Hs) & (Hc & Ht) & Ho & Hr & Hpos) Hn got. unfold read.
  rewrite (M_bind_Ok _ _ _ h h) by done. rewrite Ho, Hr. unfold assertM.
  destruct (Z.leb_spec 0 n); [|lia]. cbn [ASSERT]. rewrite !(M_bind_Ok (liftM (Ok tt)) _ _ tt h) by done.
  rewrite wrapU_small by lia. unfold zlen in *.
  assert (Hl : Z.of_nat (length got) = Z.min (size_ h - position_ h) n).
  { unfold got. rewrite length_take, length_drop. lia. }
  rewrite <- Hl, Nat2Z.id, Hpos, Nat2Z.id, memory_ok by lia.
  assert (Hg : take (length got) (drop p (address_ h)) = got).
  { transitivity (take (length got) (drop p c)).
    - rewrite <- Ht at 1. rewrite skipn_firstn_comm, take_take. f_equal. lia.
    - apply take_length_of_take. }
  rewrite Hg. eexists. split; [done|]. mh_solve.
Qed.

#[export] Program Instance source : SourceHandle MemoryHandle := {| readable := is_readable |}.
Next Obligation. intros h c p ((_ & Hp & _) & (Hc & _) & _ & _ & E). unfold zlen in *. lia. Qed.
Next Obligation.
  intros h c ((Ha & Hp & Hs) & (Hc & Ht) & Ho). rewrite Hc. eexists. split; [done|].
  mh_solve.
Qed.
Next Obligation. intros h c p n Hr Hn. apply memory_read_ok; [done|lia]. Qed.
Next Obligation. intros h c p (Hs & Hc & _). by eexists. Qed.
Next Obligation.
  intros h c p o ((Ha & Hp & Hs) & (Hc & Ht) & Ho & Hr & Hpos) Hoff. cbn [dh_seek handle]. unfold seek.
  rewrite (M_bind_Ok _ _ _ h h) by done. rewrite Ho, wrapU_small by lia.
  destruct (Z.leb_spec o (size_ h)); [|lia]. eexists. split; [done|].
  mh_solve.
Qed.
Next Obligation.
  intros h c p (_ & _ & Ho & _ & Hpos). cbn [dh_position handle]. unfold position.
  rewrite (M_bind_Ok _ _ _ h h) by done. rewrite Ho, Hpos. done.
Qed.
Next Obligation. intros h c p (_ & (Hc & _) & _). cbn [dh_estimate handle]. by rewrite Hc. Qed.
#[export] Instance sized : SizedSource MemoryHandle.
Proof. intros h c p (_ & (Hc & _) & _). cbn [dh_size handle]. by rewrite Hc. Qed.

(** A handle that grows, or one that does not.  The room left counts for the
    bytes themselves and the rounding of the capacity at each write. *)
Definition is_writable (grow : bool) h (opened : bool) (out : list byte) (room : nat) : Prop :=
  readOnly_ h = false /\ sane h /\ capacity_ h + (2 ^ 20 + 1) * Z.of_nat room < 2 ^ 62 /\
  position_ h = zlen out /\ take (length out) (address_ h) = out /\
  grow_ h = grow /\ (if grow then size_ h = position_ h else zlen out + Z.of_nat room <= size_ h) /\
  opened_ h = opened /\ (opened = true -> read_ h = false).

Lemma round_size_bound x n : 0 < n -> 0 <= x -> x + n < 2 ^ 64 -> x <= round_size x n < x + n.
Proof.
  intros Hn Hx Hb. unfold round_size. rewrite (wrapU_small (x + n - 1)) by lia.
  pose proof (Z.div_mod (x + n - 1) n ltac:(lia)). pose proof (Z.mod_pos_bound (x + n - 1) n Hn).
  rewrite wrapU_small by nia. nia.
Qed.

(** After growing there is room for the bytes at the position, and the bytes
    before it are kept. *)
Lemma enlarge_ok h out room len :
  is_writable true h true out room -> 0 < len <= Z.of_nat room ->
  exists h', enlarge len h = (Ok tt, h') /\ size_ h' = zlen out + len /\ position_ h' = zlen out /\
    zlen (address_ h') = capacity_ h' /\ size_ h' <= capacity_ h' /\
    capacity_ h' <= capacity_ h + len + 2 ^ 20 /\ take (length out) (address_ h') = out /\
    readOnly_ h' = false /\ grow_ h' = true /\ opened_ h' = true /\ read_ h' = false.
Proof.
  intros (Hro & (Ha & Hp & Hs) & Hroom & Hpos & Ht & Eg & Hg & Ho & Hr) Hlen.
  unfold enlarge. rewrite (M_bind_Ok _ _ _ h h) by done. rewrite wrapU_small by lia.
  unfold zlen in *. destruct (Z.ltb_spec (capacity_ h - position_ h) len).
  - pose proof (round_size_bound (capacity_ h + len) (1024 * 1024) ltac:(lia) ltac:(lia) ltac:(lia)) as Hround.
    set (newcap := round_size _ _) in *. rewrite Hpos, Nat2Z.id.
    rewrite (memory_ok (address_ h)), drop_0, Ht by lia. unfold mbind, M_bind, liftM.
    rewrite memcpy_ok by (rewrite length_allocate; lia).
    eexists. split; [done|]. simpl. split_and!; try done; try lia.
    + rewrite length_memcpy_at by (rewrite length_allocate; lia). rewrite length_allocate. lia.
    + rewrite (take_memcpy_at _ 0 out) by lia. done.
    + by apply Hr.
  - eexists. split; [done|]. simpl. split_and!; try done; try lia. by apply Hr.
Qed.

Lemma memory_write_ok g h out room bs :
  is_writable g h true out room -> (length bs <= room)%nat ->
  exists h', write bs h = (Ok (zlen bs), h') /\ is_writable g h' true (out ++ bs) (room - length bs).
Proof.
  intros Hw Hbs. pose proof Hw as (Hro & (Ha & Hp & Hs) & Hroom & Hpos & Ht & Eg & Hg & Ho & Hr).
  unfold write. rewrite (M_bind_Ok _ _ _ h h) by done. rewrite Ho, Eg, (Hr eq_refl), wrapU_small by lia.
  unfold assertM. cbn [ASSERT negb]. rewrite !(M_bind_Ok (liftM (Ok tt)) _ _ tt h) by done.
  assert (Hstep : exists h1, (if g && (size_ h - position_ h <? zlen bs) then enlarge (zlen bs) else mret tt) h = (Ok tt, h1) /\
    zlen out + zlen bs <= size_ h1 <= capacity_ h1 /\ position_ h1 = zlen out /\ zlen (address_ h1) = capacity_ h1 /\
    capacity_ h1 + (2 ^ 20 + 1) * Z.of_nat (room - length bs) < 2 ^ 62 /\ take (length out) (address_ h1) = out /\
    readOnly_ h1 = false /\ grow_ h1 = g /\ opened_ h1 = true /\ read_ h1 = false /\
    (if g then size_ h1 = zlen out + zlen bs else zlen out + Z.of_nat room <= size_ h1)).
  { unfold zlen in *. destruct g; cbn [andb].
    - destruct (Z.ltb_spec (size_ h - position_ h) (Z.of_nat (length bs))).
      + destruct (enlarge_ok h out room (Z.of_nat (length bs)) Hw ltac:(lia))
          as (h1 & E & E1 & E2 & E3 & E4 & E5 & E6 & E7 & E8 & E9 & E10).
        exists h1. unfold zlen in *. split_and!; try done; lia.
      + exists h. split_and!; try done; try lia. by apply Hr.
    - exists h. split_and!; try done; try lia. by apply Hr. }
  destruct Hstep as (h1 & E1 & Hsz & Hp1 & Ha1 & Hc1 & Ht1 & Hro1 & Hg1 & Ho1 & Hr1 & Hgrow).
  rewrite (M_bind_Ok _ _ _ _ _ E1), (M_bind_Ok _ _ _ h1 h1) by done.
  rewrite (wrapU_small (size_ h1 - _)) by (unfold zlen in *; lia).
  replace (Z.min (size_ h1 - position_ h1) (zlen bs)) with (zlen bs) by (unfold zlen in *; lia).
  unfold zlen in *. rewrite Nat2Z.id, firstn_all, Hp1, Nat2Z.id, memcpy_ok by lia.
  eexists. split; [done|]. unfold is_writable, sane, zlen. simpl. rewrite length_app.
  rewrite length_memcpy_at, take_memcpy_at, Ht1, Hg1 by lia.
  destruct g; split_and!; try done; lia.
Qed.

#[export] Program Instance sink (grow : bool) : SinkHandle MemoryHandle := {| writable := is_writable grow |}.
Next Obligation.
  intros g h n room Hn (Hro & Hs & Hroom & Hpos & Ht & Eg & Hg & Ho & Hr). cbn [dh_openForWrite handle]. unfold openForWrite.
  rewrite (M_bind_Ok _ _ _ h h) by done. rewrite Hro. eexists. split; [done|].
  unfold is_writable, sane, set_mode in *. simpl in *. change (zlen []) with 0 in *. rewrite Hpos in *.
  split_and!; try done; lia.
Qed.
Next Obligation. intros g h out room bs. apply memory_write_ok. Qed.
Next Obligation.
  intros g h out room (Hro & Hs & Hroom & Hpos & Ht & Eg & Hg & Ho & Hr). eexists. split; [done|].
  unfold is_writable, sane, set_mode in *. simpl. split_and!; try done; lia.
Qed.

(** What was written to a growing handle can be read. *)
Lemma written_readable h out room : is_writable true h false out room -> is_readable h out None.
Proof. intros (Hro & Hs & Hroom & Hpos & Ht & Eg & Hg & Ho & Hr). mh_solve. Qed.
End Handle.
End MemoryHandle.

(** ** Sequences of writes on any sink *)

Section Writes.
Context {H : Type} `{SinkHandle H}.
Implicit Types h : H.

Fixpoint write_all (chunks : list (list byte)) : M H unit :=
  match chunks with [] => mret tt | b :: chunks => n ← dh_write b; write_all chunks end.

Lemma write_all_ok chunks : forall h out room,
  writable h true out room -> (length (concat chunks) <= room)%nat ->
  exists h', write_all chunks h = (Ok tt, h') /\
    writable h' true (out ++ concat chunks) (room - length (concat chunks)).
Proof.
  induction chunks as [|b chunks IH]; intros h out room Hw Hlen.
  - exists h. simpl. by rewrite app_nil_r, Nat.sub_0_r.
  - cbn [concat] in *. rewrite length_app in Hlen.
    destruct (snk_write h out room b Hw ltac:(lia)) as (h1 & E1 & Hw1).
    destruct (IH h1 _ _ Hw1 ltac:(lia)) as (h2 & E2 & Hw2). exists h2.
    cbn [write_all]. rewrite (M_bind_Ok _ _ _ _ _ E1), E2. split; [done|].
    rewrite <- app_assoc in Hw2. rewrite length_app, Nat.sub_add_distr. done.
Qed.
End Writes.

(** Bytes written to a growing memory handle, in any number of pieces and from
    any initial capacity, are read back from its beginning after it is closed. *)
Theorem memory_handle_roundtrip (junk : nat -> byte) (size n : Z) (chunks : list (list byte)) :
  0 <= size -> size + (2 ^ 20 + 1) * zlen (concat chunks) < 2 ^ 62 -> 0 <= n ->
  exists h, (MemoryHandle.openForWrite (zlen (concat chunks)) ;;
             write_all (H0 := MemoryHandle.handle junk) chunks ;; MemoryHandle.close ;;
             _ ← MemoryHandle.openForRead; MemoryHandle.read n) (MemoryHandle.owned junk size true) =
    (Ok (Z.min (zlen (concat chunks)) n, take (Z.to_nat n) (concat chunks)), h).
Proof.
  intros Hs Hbig Hn. set (h0 := MemoryHandle.owned junk size true). set (all := concat chunks) in *.
  pose proof (zlen_nonneg all).
  assert (Hw0 : MemoryHandle.is_writable true h0 false [] (Z.to_nat (zlen all))).
  { unfold MemoryHandle.is_writable, MemoryHandle.sane. simpl. unfold zlen at 1. rewrite length_allocate.
    split_and!; try done; lia. }
  destruct (snk_open (SinkHandle := MemoryHandle.sink junk true) h0 (zlen all) (Z.to_nat (zlen all)) ltac:(lia) Hw0) as (h1 & E1 & H1).
  destruct (write_all_ok chunks h1 _ _ H1) as (h2 & E2 & H2). { fold all. unfold zlen. lia. }
  destruct (snk_close h2 _ _ H2) as (h3 & E3 & H3). apply MemoryHandle.written_readable in H3.
  destruct (src_open (SourceHandle := MemoryHandle.source junk) h3 _ H3) as (h4 & E4 & H4).
  destruct (MemoryHandle.memory_read_ok h4 _ 0 n H4 Hn) as (h5 & E5 & _). exists h5.
  rewrite (M_bind_Ok _ _ _ _ _ E1), (M_bind_Ok _ _ _ _ _ E2), (M_bind_Ok _ _ _ _ _ E3), (M_bind_Ok _ _ _ _ _ E4), E5.
  rewrite drop_0, app_nil_l. fold all. do 3 f_equal. unfold zlen. rewrite length_take. lia.
Qed.

Lemma memory_handle_roundtrip_witness :
  exists h, (MemoryHandle.openForWrite 11 ;;
             write_all (H0 := MemoryHandle.handle (fun _ => "000"%byte)) [str "hello"; str " world"] ;; MemoryHandle.close ;;
             _ ← MemoryHandle.openForRead; MemoryHandle.read 7) (MemoryHandle.owned (fun _ => "000"%byte) 4 true) =
    (Ok (7, str "hello w"), h).
Proof. apply (memory_handle_roundtrip (fun _ => "000"%byte) 4 7 [str "hello"; str " world"]); vm_compute; done. Defined.

(** Overwriting the beginning of a growing handle with more bytes than it holds
    adds the whole length to its size: the size passes the allocated capacity, and
    a read of the announced size goes out of the allocation. *)
Theorem memory_handle_overgrows (junk : nat -> byte) :
  exists h, (MemoryHandle.openForWrite 0 ;; _ ← MemoryHandle.write junk (str "abc"); MemoryHandle.rewind ;;
             _ ← MemoryHandle.write junk (str "wxyz"); MemoryHandle.close ;; MemoryHandle.openForRead)
            (MemoryHandle.owned junk 4 true) = (Ok 7, h) /\
    capacity_ h = 4 /\ zlen (address_ h) = 4 /\ (MemoryHandle.read 7 h).1 = Undef.
Proof. eexists. split; [vm_compute; reflexivity|]. by vm_compute. Qed.
