(* ===== verification/MultiHandle.v ===== *)
(** * Multi handles

    [io/MultiHandle.cc]: several handles presented as one.  Reading runs through
    them one after the other; writing cuts the bytes at the lengths announced
    for each of them.  The handles are any implementation of the interface of
    [Handles]; a multi handle over readable handles is again a readable handle,
    whose content is the concatenation. *)
From S2P Require Import Prelude Handles.
#[local] Set Warnings "-clear-no-such-hyp".

Record MultiHandle (H : Type) : Type := mkMulti {
  datahandles_ : list H;
  current_ : nat;          (** iterator into [datahandles_]; its length is [end()] *)
  length_ : list Z;
  curlen_ : nat;           (** iterator into [length_] *)
  read_ : bool;
  written_ : Z }.
Arguments mkMulti {H}.
Arguments datahandles_ {H}.
Arguments current_ {H}.
Arguments length_ {H}.
Arguments curlen_ {H}.
Arguments read_ {H}.
Arguments written_ {H}.

Module Multi.
Section Multi.
Context {H : Type} `{DataHandle H}.

Implicit Types s : MultiHandle H.

Definition new (v : list H) (lengths : list Z) : MultiHandle H := mkMulti v (length v) lengths (length lengths) false 0.

Definition set_handles (l : list H) s : MultiHandle H := mkMulti l (current_ s) (length_ s) (curlen_ s) (read_ s) (written_ s).
Definition set_current (i : nat) s : MultiHandle H :=
  mkMulti (datahandles_ s) i (length_ s) (curlen_ s) (read_ s) (written_ s).
Definition set_written (w : Z) s : MultiHandle H :=
  mkMulti (datahandles_ s) (current_ s) (length_ s) (curlen_ s) (read_ s) w.

(** A call on the handle at an iterator; dereferencing [end()] is undefined. *)
Definition on (i : nat) {A} (m : M H A) : M (MultiHandle H) A := fun s =>
  match datahandles_ s !! i with
  | Some h => let '(r, h') := m h in (r, set_handles (<[i := h']> (datahandles_ s)) s)
  | None => (Undef, s)
  end.

Definition at_end s : bool := bool_decide (current_ s = length (datahandles_ s)).

(** The length at the iterator. *)
Definition deref_curlen s : outcome Z := match length_ s !! curlen_ s with Some l => Ok l | None => Undef end.

Definition openCurrent : M (MultiHandle H) unit :=
  s ← getM;
  if at_end s then mret tt
  else if read_ s then _ ← on (current_ s) dh_openForRead; mret tt
  else l ← liftM (deref_curlen s); on (current_ s) (dh_openForWrite l).

(** The sum of the answers of the handles [i], [i+1], ... ([n] of them). *)
Fixpoint sum_handles (m : M H Z) (n i : nat) (total : Z) : M (MultiHandle H) Z :=
  match n with
  | O => mret total
  | S n => l ← on i m; sum_handles m n (S i) (total + l)
  end.

Definition size : M (MultiHandle H) Z := s ← getM; sum_handles dh_size (length (datahandles_ s)) 0 0.
Definition estimate : M (MultiHandle H) Z := s ← getM; sum_handles dh_estimate (length (datahandles_ s)) 0 0.

Definition openForRead : M (MultiHandle H) Z :=
  modifyM (fun s => mkMulti (datahandles_ s) 0 (length_ s) (curlen_ s) true (written_ s)) ;;
  openCurrent ;;
  estimate.

Definition openForWrite (length : Z) : M (MultiHandle H) unit :=
  s ← getM;
  assertM (length =? foldr Z.add 0 (length_ s)) ;;
  assertM (bool_decide (List.length (datahandles_ s) = List.length (length_ s))) ;;
  putM (mkMulti (datahandles_ s) 0 (length_ s) 0 false (written_ s)) ;;
  openCurrent ;;
  modifyM (set_written 0).

Definition openForAppend (length : Z) : M (MultiHandle H) unit := throwM NotImplemented.

(** The current handle is closed and the next one opened. *)
Definition next_handle : M (MultiHandle H) unit :=
  s ← getM;
  on (current_ s) dh_close ;;
  modifyM (fun s => set_current (S (current_ s)) s) ;;
  openCurrent.

Fixpoint read1 (fuel : nat) (length : Z) : M (MultiHandle H) (Z * list byte) :=
  match fuel with
  | O => liftM NoFuel
  | S f =>
      s ← getM;
      if at_end s then mret (0, [])
      else
        '(n, bytes) ← on (current_ s) (dh_read length);
        if n <? length then
          next_handle ;;
          if n <=? 0 then read1 f length else mret (n, bytes)
        else mret (n, bytes)
  end.

Fixpoint read_loop (fuel : nat) (length n total : Z) (p : list byte) : M (MultiHandle H) (Z * list byte) :=
  match fuel with
  | O => liftM NoFuel
  | S f =>
      let result := (if 0 <? total then total else n, p) in
      if 0 <? length then
        s ← getM;
        '(n, bytes) ← read1 (S (List.length (datahandles_ s))) length;
        if 0 <? n then read_loop f (length - n) n (total + n) (p ++ bytes)
        else mret (if 0 <? total then total else n, p)
      else mret result
  end.

Definition read (length : Z) : M (MultiHandle H) (Z * list byte) :=
  s ← getM; read_loop (S (S (List.length (datahandles_ s)))) length 0 0 [].

(** The current handle has its bytes: it is closed, and both iterators move on. *)
Definition next_part : M (MultiHandle H) unit :=
  s ← getM;
  on (current_ s) dh_close ;;
  modifyM (fun s => mkMulti (datahandles_ s) (S (current_ s)) (length_ s) (S (curlen_ s)) (read_ s) (written_ s)) ;;
  openCurrent ;;
  modifyM (set_written 0).

Fixpoint write_loop (fuel : nat) (buffer : list byte) : M (MultiHandle H) Z :=
  match fuel with
  | O => liftM NoFuel
  | S f =>
      s ← getM;
      let length := zlen buffer in
      curlen ← liftM (deref_curlen s);
      let l := Z.min (curlen - written_ s) length in
      n ← on (current_ s) (dh_write (take (Z.to_nat l) buffer));
      if n <=? 0 then mret n
      else
        modifyM (fun s => set_written (written_ s + n) s) ;;
        s ← getM;
        if written_ s =? curlen then
          next_part ;;
          if l <? length then
            s ← getM;
            assertM (negb (at_end s)) ;;
            m ← write_loop f (drop (Z.to_nat l) buffer);
            mret (if 0 <? m then n + m else n)
          else mret n
        else mret n
  end.

Definition write (buffer : list byte) : M (MultiHandle H) Z :=
  s ← getM; write_loop (S (length (datahandles_ s))) buffer.

Definition close_current : M (MultiHandle H) unit := s ← getM; if at_end s then mret tt else on (current_ s) dh_close.

Definition close : M (MultiHandle H) unit :=
  close_current ;; modifyM (fun s => set_current (length (datahandles_ s)) s).

Definition rewind : M (MultiHandle H) unit :=
  s ← getM; assertM (read_ s) ;; close_current ;; modifyM (set_current 0) ;; openCurrent.

Definition position : M (MultiHandle H) Z :=
  s ← getM;
  accumulated ← sum_handles dh_size (current_ s) 0 0;
  p ← (if at_end s then mret 0 else on (current_ s) dh_position);
  mret (accumulated + p).

(** The loop of [seek]; [true] when it returned from inside. *)
Fixpoint seek_loop (fuel : nat) (seekto accumulated : Z) : M (MultiHandle H) (bool * Z) :=
  match fuel with
  | O => liftM NoFuel
  | S f =>
      s ← getM;
      if at_end s then mret (false, accumulated)
      else
        size ← on (current_ s) dh_size;
        if (accumulated <=? seekto) && (seekto <? accumulated + size) then
          openCurrent ;;
          _ ← on (current_ s) (dh_seek (seekto - accumulated));
          mret (true, accumulated)
        else
          modifyM (fun s => set_current (S (current_ s)) s) ;;
          seek_loop f seekto (accumulated + size)
  end.

Definition seek (offset : Z) : M (MultiHandle H) Z :=
  s ← getM;
  assertM (read_ s) ;;
  close_current ;;
  modifyM (set_current 0) ;;
  '(found, accumulated) ← seek_loop (S (length (datahandles_ s))) offset 0;
  if (found : bool) then mret offset
  else assertM (offset - accumulated =? 0) ;; mret offset.

#[export] Instance handle : DataHandle (MultiHandle H) := {|
  dh_openForRead := openForRead; dh_openForWrite := openForWrite; dh_read := read; dh_write := write;
  dh_close := close; dh_seek := seek; dh_position := position; dh_size := size; dh_estimate := estimate |}.

(** ** Reading *)

Context `{!SourceHandle H}.

Definition closed (h : H) (c : list byte) : Prop := readable h c None.

(** The handles from the current one on: it is open at [q], the others closed. *)
Definition open_head (l : list H) (cs : list (list byte)) (q : nat) : Prop :=
  match l, cs with
  | [], [] => q = 0%nat
  | h :: l, c :: cs => readable h c (Some q) /\ Forall2 closed l cs
  | _, _ => False
  end.

(** [s] is at offset [q] of the first handle of [l2], after those of [l1]. *)
Record reading s l1 cs1 l2 cs2 (q : nat) : Prop := {
  rd_handles : datahandles_ s = l1 ++ l2;
  rd_current : current_ s = length l1;
  rd_read : read_ s = true;
  rd_before : Forall2 closed l1 cs1;
  rd_head : open_head l2 cs2 q }.

Definition is_readable s (c : list byte) (p : option nat) : Prop :=
  match p with
  | None => exists cs, c = concat cs /\ current_ s = length (datahandles_ s) /\ Forall2 closed (datahandles_ s) cs
  | Some p => exists l1 cs1 l2 cs2 q, reading s l1 cs1 l2 cs2 q /\ c = concat (cs1 ++ cs2) /\
                p = (length (concat cs1) + q)%nat
  end.

Lemma at_end_true s : current_ s = length (datahandles_ s) -> at_end s = true.
Proof. apply bool_decide_true. Qed.
Lemma at_end_false s l1 h l2 : datahandles_ s = l1 ++ h :: l2 -> current_ s = length l1 -> at_end s = false.
Proof. intros E1 E2. apply bool_decide_false. rewrite E1, E2, length_app. simpl. lia. Qed.

(** A call on the current handle. *)
Lemma on_current {A} (m : M H A) s l1 h l2 r h' i :
  datahandles_ s = l1 ++ h :: l2 -> i = length l1 -> m h = (r, h') ->
  on i m s = (r, set_handles (l1 ++ h' :: l2) s).
Proof.
  intros E1 -> E2. unfold on. rewrite E1, list_lookup_middle by done. rewrite E2.
  by rewrite insert_app_r_alt, Nat.sub_diag by lia.
Qed.

Lemma open_head_bound l cs q : open_head l cs q -> (q <= length (concat cs))%nat.
Proof.
  destruct l as [|h l], cs as [|c cs]; simpl; try done; [lia|].
  intros [Hr%readable_bound _]. rewrite length_app. lia.
Qed.

(** Opening the handle the iterator is at. *)
Lemma openCurrent_read s l1 cs1 l2 cs2 :
  datahandles_ s = l1 ++ l2 -> current_ s = length l1 -> read_ s = true ->
  Forall2 closed l1 cs1 -> Forall2 closed l2 cs2 ->
  exists s' l2', openCurrent s = (Ok tt, s') /\ reading s' l1 cs1 l2' cs2 0 /\ length l2' = length l2.
Proof.
  intros E1 E2 E3 H1 H2. unfold openCurrent. rewrite (M_bind_Ok _ _ _ s s) by done.
  inversion H2 as [|h c l cs Hh Ht]; subst.
  - rewrite at_end_true by (by rewrite E1, app_nil_r, E2). by exists s, [].
  - rewrite (at_end_false s l1 h l) by done. rewrite E3.
    destruct (src_open h c Hh) as (h' & En & Hh').
    rewrite (M_bind_Ok _ _ _ _ _ (on_current _ _ _ _ _ _ _ _ E1 E2 En)).
    eexists _, (h' :: l). split; [done|]. split; [by split|done].
Qed.

Lemma next_handle_read s l1 cs1 h l2 c cs2 q :
  reading s l1 cs1 (h :: l2) (c :: cs2) q ->
  exists s' h' l2', next_handle s = (Ok tt, s') /\ reading s' (l1 ++ [h']) (cs1 ++ [c]) l2' cs2 0 /\
    length l2' = length l2.
Proof.
  intros [E1 E2 E3 H1 [Hh H2]]. unfold next_handle. rewrite (M_bind_Ok _ _ _ s s) by done.
  destruct (src_close h c q Hh) as (h' & Ec & Hc).
  rewrite (M_bind_Ok _ _ _ _ _ (on_current _ _ _ _ _ _ _ _ E1 E2 Ec)).
  rewrite (M_bind_Ok (modifyM _) _ _ tt _ eq_refl).
  destruct (openCurrent_read (set_current (S (current_ s)) (set_handles (l1 ++ h' :: l2) s))
              (l1 ++ [h']) (cs1 ++ [c]) l2 cs2) as (s' & l2' & E & Hr & Hl).
  - simpl. by rewrite <- app_assoc.
  - simpl. rewrite length_app, E2. simpl. lia.
  - done.
  - apply Forall2_app; [done|by constructor].
  - done.
  - by exists s', h', l2'.
Qed.

(** What is left to read. *)
Definition rest (cs : list (list byte)) (q : nat) : list byte := drop q (concat cs).

(** The result of a read of [n] bytes from [s]: [bytes], and the state after. *)
Definition reads s (cs1 cs2 : list (list byte)) (q : nat) (left : nat) (n : Z) (bytes : list byte) s' : Prop :=
  exists l1' cs1' l2' cs2' q', reading s' l1' cs1' l2' cs2' q' /\
    cs1 ++ cs2 = cs1' ++ cs2' /\ rest cs2 q = bytes ++ rest cs2' q' /\
    length (datahandles_ s') = length (datahandles_ s) /\
    zlen bytes <= n /\ (bytes = [] -> rest cs2 q = []) /\
    (zlen bytes = n \/ bytes = [] \/ (length l2' < left)%nat).

Lemma reading_length s l1 cs1 l2 cs2 q :
  reading s l1 cs1 l2 cs2 q -> length (datahandles_ s) = (length l1 + length l2)%nat.
Proof. intros [-> _ _ _ _]. apply length_app. Qed.

(** Reading from the current handle. *)
Lemma read_head s l1 cs1 h l2 c cs2 q n :
  reading s l1 cs1 (h :: l2) (c :: cs2) q -> 0 < n ->
  exists got h' s', s' = set_handles (l1 ++ h' :: l2) s /\
    on (current_ s) (dh_read n) s = (Ok (zlen got, got), s') /\
    reading s' l1 cs1 (h' :: l2) (c :: cs2) (q + length got) /\
    rest (c :: cs2) q = got ++ rest (c :: cs2) (q + length got) /\ zlen got <= n /\
    (zlen got < n -> rest (c :: cs2) (q + length got) = rest cs2 0).
Proof.
  intros [E1 E2 E3 H1 [Hh H2]] Hn. destruct (src_read h c q n Hh Hn) as (h' & Er & Hh').
  set (got := take (Z.to_nat n) (drop q c)) in *. exists got, h'. eexists. split; [done|].
  rewrite (on_current _ _ _ _ _ _ _ _ E1 E2 Er). split; [done|]. split; [by split|].
  assert (Hq := readable_bound h c q Hh). assert (Hgot : length got = Nat.min (Z.to_nat n) (length c - q)).
  { unfold got. by rewrite length_take, length_drop. }
  unfold rest. split_and!.
  - rewrite <- drop_drop. rewrite <- (take_drop (length got) (drop q (concat (c :: cs2)))) at 1.
    f_equal. simpl. rewrite drop_app_le, take_app_le by (rewrite ?length_drop; lia).
    apply MemoryHandle.take_length_of_take.
  - unfold zlen. lia.
  - intros Hlt. unfold zlen in Hlt. replace (q + length got)%nat with (length c) by lia.
    simpl. by rewrite drop_app_length, drop_0.
Qed.

Lemma read1_ok k : forall fuel s l1 cs1 l2 cs2 q n,
  reading s l1 cs1 l2 cs2 q -> 0 < n -> length l2 = k -> (k < fuel)%nat ->
  exists bytes s', read1 fuel n s = (Ok (zlen bytes, bytes), s') /\ reads s cs1 cs2 q k n bytes s'.
Proof.
  induction k as [|k IH]; intros fuel s l1 cs1 l2 cs2 q n Hr Hn Hk Hf; (destruct fuel as [|fuel]; [lia|]);
    pose proof Hr as [E1 E2 E3 H1 H2]; cbn [read1]; rewrite (M_bind_Ok _ _ _ s s) by done.
  { apply nil_length_inv in Hk as ->. destruct cs2; [|done]. simpl in H2. subst q.
    rewrite at_end_true by (by rewrite E1, app_nil_r, E2).
    exists [], s. split; [done|]. exists l1, cs1, [], [], 0%nat.
    split_and!; try done; [unfold zlen; simpl; lia|by right; left]. }
  destruct l2 as [|h l2]; [done|]. destruct cs2 as [|c cs2]; [done|].
  rewrite (at_end_false s l1 h l2) by done. cbn [length] in Hk.
  destruct (read_head _ _ _ _ _ _ _ _ n Hr Hn) as (got & h' & s1 & Es1 & Er & Hr1 & Hrest & Hle & Hlast).
  rewrite (M_bind_Ok _ _ _ _ _ Er). assert (Hl1 := reading_length _ _ _ _ _ _ Hr1).
  assert (Hl := reading_length _ _ _ _ _ _ Hr).
  destruct (Z.ltb_spec (zlen got) n) as [Hlt|Hge].
  - rewrite (Hlast Hlt) in Hrest. destruct (next_handle_read _ _ _ _ _ _ _ _ Hr1) as (s2 & h2 & l2' & En & Hr2 & Hl2).
    rewrite (M_bind_Ok _ _ _ _ _ En). assert (Hlen2 := reading_length _ _ _ _ _ _ Hr2).
    rewrite length_app in Hlen2. simpl in Hl, Hl1, Hlen2.
    destruct (Z.leb_spec (zlen got) 0) as [Hz|Hz].
    + destruct got; [|unfold zlen in Hz; simpl in Hz; lia].
      destruct (IH fuel s2 _ _ _ _ _ n Hr2 Hn ltac:(lia) ltac:(lia)) as (bytes & s3 & E & Hreads).
      exists bytes, s3. split; [done|].
      destruct Hreads as (l1' & cs1' & l2'' & cs2' & q' & G1 & G2 & G3 & G4 & G5 & G6 & G7).
      exists l1', cs1', l2'', cs2', q'. rewrite <- app_assoc in G2. simpl in G2, Hrest. rewrite Hrest.
      split_and!; try done; [rewrite G4; lia|]. destruct G7 as [|[|]]; [by left|by right; left|right; right; lia].
    + exists got, s2. split; [done|]. exists (l1 ++ [h2]), (cs1 ++ [c]), l2', cs2, 0%nat.
      rewrite <- app_assoc, Hrest. split_and!; try done; [lia| |right; right; lia].
      intros ->. unfold zlen in Hz. simpl in Hz. lia.
  - exists got, s1. split; [done|]. exists l1, cs1, (h' :: l2), (c :: cs2), (q + length got)%nat.
    split_and!; try done; [simpl in *; lia| |left; lia].
    intros ->. unfold zlen in *. simpl in *. lia.
Qed.

(** The loop reads until it has the bytes asked for or all are read. *)
Lemma read_loop_ok k : forall fuel s l1 cs1 l2 cs2 q n0 n total acc,
  reading s l1 cs1 l2 cs2 q -> length l2 = k -> (k + 1 < fuel)%nat -> 0 <= n -> total = zlen acc ->
  (total = 0 -> n0 = 0) ->
  exists s' l1' cs1' l2' cs2' q',
    let bytes := take (Z.to_nat n) (rest cs2 q) in
    read_loop fuel n n0 total acc s = (Ok (total + zlen bytes, acc ++ bytes), s') /\
    reading s' l1' cs1' l2' cs2' q' /\ cs1 ++ cs2 = cs1' ++ cs2' /\ rest cs2 q = bytes ++ rest cs2' q'.
Proof.
  induction k as [k IH] using lt_wf_ind. intros fuel s l1 cs1 l2 cs2 q n0 n total acc Hr Hk Hf Hn Ht H0n.
  destruct fuel as [|fuel]; [lia|]. cbn [read_loop]. pose proof (zlen_nonneg acc) as Hacc.
  assert (Hres : (if 0 <? total then total else n0) = total).
  { destruct (Z.ltb_spec 0 total); [done|]. rewrite H0n; lia. }
  destruct (Z.ltb_spec 0 n) as [Hpos|Hzero].
  2:{ exists s, l1, cs1, l2, cs2, q. replace n with 0 by lia. simpl. rewrite Hres, app_nil_r, Z.add_0_r. done. }
  rewrite (M_bind_Ok _ _ _ s s) by done. assert (Hlen := reading_length _ _ _ _ _ _ Hr).
  destruct (read1_ok k (S (length (datahandles_ s))) s l1 cs1 l2 cs2 q n Hr Hpos Hk ltac:(lia))
    as (b & s1 & E & l1' & cs1' & l2' & cs2' & q' & G1 & G2 & G3 & G4 & G5 & G6 & G7).
  rewrite (M_bind_Ok _ _ _ _ _ E). pose proof (zlen_nonneg b) as Hb. destruct (Z.ltb_spec 0 (zlen b)) as [Hp|Hz].
  - assert (Htake : take (Z.to_nat n) (rest cs2 q) = b ++ take (Z.to_nat (n - zlen b)) (rest cs2' q')).
    { rewrite G3. unfold zlen in *. rewrite take_app, take_ge by lia. do 2 f_equal. lia. }
    assert (Hgo : exists s' l1'' cs1'' l2'' cs2'' q'',
      let bytes := take (Z.to_nat (n - zlen b)) (rest cs2' q') in
      read_loop fuel (n - zlen b) (zlen b) (total + zlen b) (acc ++ b) s1 =
        (Ok (total + zlen b + zlen bytes, (acc ++ b) ++ bytes), s') /\
      reading s' l1'' cs1'' l2'' cs2'' q'' /\ cs1' ++ cs2' = cs1'' ++ cs2'' /\
      rest cs2' q' = bytes ++ rest cs2'' q'').
    { destruct G7 as [G7|[->|G7]]; [|unfold zlen in Hp; simpl in Hp; lia|].
      - exists s1, l1', cs1', l2', cs2', q'. replace (n - zlen b) with 0 by lia. destruct fuel; [lia|]. simpl.
        destruct (Z.ltb_spec 0 (total + zlen b)); [|lia]. by rewrite app_nil_r, Z.add_0_r.
      - apply (IH (length l2') ltac:(lia) fuel s1 l1' cs1' l2' cs2' q'); try done; try lia.
        rewrite zlen_app. lia. }
    destruct Hgo as (s' & l1'' & cs1'' & l2'' & cs2'' & q'' & E' & Hr' & Hcs & Hrest).
    exists s', l1'', cs1'', l2'', cs2'', q''. cbv zeta in *. rewrite Htake, E', zlen_app, G2, G3.
    split_and!; [by rewrite <- app_assoc, Z.add_assoc|done|done|by rewrite <- app_assoc, <- Hrest].
  - assert (b = []) as ->. { destruct b; [done|]. unfold zlen in Hz. simpl in Hz. lia. }
    exists s1, l1', cs1', l2', cs2', q'. specialize (G6 eq_refl). cbv zeta. rewrite G6 in *. rewrite take_nil.
    rewrite app_nil_r, Z.add_0_r. split_and!; try done.
    destruct (Z.ltb_spec 0 total); [done|]. by replace total with 0 by lia.
Qed.

(** ** Sizes, closing, seeking *)

Definition some_readable (h : H) (c : list byte) : Prop := exists p, readable h c p.

Lemma closed_some l cs : Forall2 closed l cs -> Forall2 some_readable l cs.
Proof. intros Hf. eapply Forall2_impl; [exact Hf|]. intros h c Hc. by exists None. Qed.

Lemma reading_some s l1 cs1 l2 cs2 q :
  reading s l1 cs1 l2 cs2 q -> Forall2 some_readable l1 cs1 /\ Forall2 some_readable l2 cs2.
Proof.
  intros [_ _ _ H1 H2]. split; [by apply closed_some|]. destruct l2, cs2; try done.
  destruct H2 as [Hh Ht]. constructor; [by eexists|by apply closed_some].
Qed.

Lemma on_same {A} (m : M H A) s l1 h l2 r :
  datahandles_ s = l1 ++ h :: l2 -> m h = (r, h) -> on (length l1) m s = (r, s).
Proof.
  intros E1 E2. rewrite (on_current m s l1 h l2 r h) by done. rewrite <- E1. by destruct s.
Qed.

(** [m] is [size()] or [estimate()]. *)
Lemma sum_ok (m : M H Z) s l :
  (forall h c p, readable h c p -> m h = (Ok (zlen c), h)) ->
  forall pre post cs total, datahandles_ s = pre ++ l ++ post -> Forall2 some_readable l cs ->
  sum_handles m (length l) (length pre) total s = (Ok (total + zlen (concat cs)), s).
Proof.
  intros Hm. induction l as [|h l IH]; intros pre post cs total E Hf; inversion Hf as [|? c ? cs' [p Hp] Hf']; subst.
  - cbn. by rewrite Z.add_0_r.
  - cbn [sum_handles length]. rewrite (M_bind_Ok _ _ _ _ _ (on_same m s pre h (l ++ post) _ E (Hm _ _ _ Hp))).
    specialize (IH (pre ++ [h]) post cs' (total + zlen c)). rewrite length_app, <- app_assoc, Nat.add_1_r in IH.
    rewrite IH by done. cbn [concat]. by rewrite zlen_app, Z.add_assoc.
Qed.

Lemma total_ok (m : M H Z) s cs :
  (forall h c p, readable h c p -> m h = (Ok (zlen c), h)) -> Forall2 some_readable (datahandles_ s) cs ->
  sum_handles m (length (datahandles_ s)) 0 0 s = (Ok (zlen (concat cs)), s).
Proof.
  intros Hm Hf. pose proof (sum_ok m s (datahandles_ s) Hm [] [] cs 0) as E. simpl in E.
  rewrite app_nil_r in E. by apply E.
Qed.

Lemma is_readable_some s c p : is_readable s c p -> exists cs, c = concat cs /\ Forall2 some_readable (datahandles_ s) cs.
Proof.
  destruct p as [p|]; simpl.
  - intros (l1 & cs1 & l2 & cs2 & q & Hr & -> & _). exists (cs1 ++ cs2). split; [done|].
    rewrite (rd_handles _ _ _ _ _ _ Hr). by apply Forall2_app; apply (reading_some _ _ _ _ _ _ Hr).
  - intros (cs & -> & _ & Hf). exists cs. split; [done|by apply closed_some].
Qed.

Lemma close_current_ok s l1 cs1 l2 cs2 q :
  reading s l1 cs1 l2 cs2 q ->
  exists s' l', close_current s = (Ok tt, s') /\ datahandles_ s' = l' /\ Forall2 closed l' (cs1 ++ cs2) /\
    read_ s' = true /\ length l' = length (datahandles_ s).
Proof.
  intros [E1 E2 E3 H1 H2]. unfold close_current. rewrite (M_bind_Ok _ _ _ s s) by done.
  destruct l2 as [|h l2], cs2 as [|c cs2]; try done.
  - rewrite at_end_true by (by rewrite E1, app_nil_r, E2). exists s, l1. rewrite E1, !app_nil_r. done.
  - destruct H2 as [Hh H2]. rewrite (at_end_false s l1 h l2) by done.
    destruct (src_close h c q Hh) as (h' & Ec & Hc).
    rewrite (on_current _ _ _ _ _ _ _ _ E1 E2 Ec). eexists _, (l1 ++ h' :: l2). split_and!; [done|done| |done|].
    + apply Forall2_app; [done|by constructor].
    + rewrite E1, !length_app. done.
Qed.

Context `{!SizedSource H}.
#[local] Set Default Proof Using "Type*".

Lemma seek_loop_ok k : forall fuel s l1 cs1 l2 cs2 o,
  datahandles_ s = l1 ++ l2 -> current_ s = length l1 -> read_ s = true ->
  Forall2 closed l1 cs1 -> Forall2 closed l2 cs2 -> length l2 = k -> (k < fuel)%nat ->
  zlen (concat cs1) <= o <= zlen (concat (cs1 ++ cs2)) ->
  exists (found : bool) a s' l1' cs1' l2' cs2' q, seek_loop fuel o (zlen (concat cs1)) s = (Ok (found, a), s') /\
    reading s' l1' cs1' l2' cs2' q /\ cs1 ++ cs2 = cs1' ++ cs2' /\ o = zlen (concat cs1') + Z.of_nat q /\
    (found = false -> a = o).
Proof.
  induction k as [|k IH]; intros fuel s l1 cs1 l2 cs2 o E1 E2 E3 H1 H2 Hk Hf Ho; (destruct fuel as [|fuel]; [lia|]);
    cbn [seek_loop]; rewrite (M_bind_Ok _ _ _ s s) by done.
  - apply nil_length_inv in Hk as ->. inversion H2; subst. rewrite app_nil_r in Ho.
    rewrite at_end_true by (by rewrite E1, app_nil_r, E2).
    exists false, (zlen (concat cs1)), s, l1, cs1, [], [], 0%nat. split_and!; try done; lia.
  - inversion H2 as [|h c l2' cs2' Hh Ht]; subst; [done|]. rewrite (at_end_false s l1 h l2') by done.
    rewrite E2, (M_bind_Ok _ _ _ _ _ (on_same dh_size s l1 h l2' _ E1 (src_size _ _ _ Hh))).
    destruct (Z.leb_spec (zlen (concat cs1)) o); [|lia].
    destruct (Z.ltb_spec o (zlen (concat cs1) + zlen c)) as [Hin|Hout]; cbn [andb].
    + destruct (openCurrent_read s l1 cs1 (h :: l2') (c :: cs2')) as (s1 & l3 & Eo & Hr1 & _); [done..|].
      rewrite (M_bind_Ok _ _ _ _ _ Eo). pose proof Hr1 as [F1 F2 F3 F4 F5].
      destruct l3 as [|h1 l3]; [done|]. destruct F5 as [Hh1 F5].
      destruct (src_seek h1 c 0 (o - zlen (concat cs1)) Hh1) as (h2 & Es & Hh2); [lia|].
      rewrite (M_bind_Ok _ _ _ _ _ (on_current _ _ _ _ _ _ _ _ F1 eq_refl Es)).
      eexists true, _, _, l1, cs1, (h2 :: l3), (c :: cs2'), _. split; [done|]. split; [by split|].
      split_and!; try done. lia.
    + rewrite (M_bind_Ok (modifyM _) _ _ tt _ eq_refl).
      destruct (IH fuel (set_current (S (current_ s)) s) (l1 ++ [h]) (cs1 ++ [c]) l2' cs2' o)
        as (fd & a & s' & l1' & cs1' & l3 & cs3 & q & E & Hr & Hcs & Hq & Hfd); simpl; try done; try lia.
      * by rewrite <- app_assoc.
      * rewrite length_app, E2. simpl. lia.
      * apply Forall2_app; [done|by constructor].
      * by simpl in Hk; lia.
      * rewrite <- app_assoc, concat_app. simpl. rewrite app_nil_r, zlen_app. simpl in Ho. lia.
      * rewrite concat_app in E. simpl in E. rewrite app_nil_r, zlen_app in E.
        exists fd, a, s', l1', cs1', l3, cs3, q. rewrite <- app_assoc in Hcs. done.
Qed.

Lemma is_readable_bound s c p : is_readable s c (Some p) -> (p <= length c)%nat.
Proof.
  intros (l1 & cs1 & l2 & cs2 & q & Hr & -> & ->). pose proof (open_head_bound _ _ _ (rd_head _ _ _ _ _ _ Hr)).
  rewrite concat_app, length_app. lia.
Qed.

Lemma openForRead_ok s c : is_readable s c None ->
  exists s', openForRead s = (Ok (zlen c), s') /\ is_readable s' c (Some 0%nat).
Proof.
  intros (cs & -> & E & Hf). unfold openForRead. rewrite (M_bind_Ok (modifyM _) _ _ tt _ eq_refl).
  destruct (openCurrent_read (mkMulti (datahandles_ s) 0 (length_ s) (curlen_ s) true (written_ s)) [] []
    (datahandles_ s) cs) as (s' & l & Eo & Hr & _); [done..|].
  rewrite (M_bind_Ok _ _ _ _ _ Eo). unfold estimate. rewrite (M_bind_Ok _ _ _ s' s') by done.
  destruct (reading_some _ _ _ _ _ _ Hr) as [_ Hs]. pose proof (rd_handles _ _ _ _ _ _ Hr) as El. simpl in El.
  rewrite (total_ok _ _ cs) by (try apply src_estimate; by rewrite El).
  exists s'. split; [done|]. by exists [], [], l, cs, 0%nat.
Qed.

Lemma multi_read_ok s c p n : is_readable s c (Some p) -> 0 <= n ->
  let got := take (Z.to_nat n) (drop p c) in
  exists s', read n s = (Ok (zlen got, got), s') /\ is_readable s' c (Some (p + length got)%nat).
Proof.
  intros (l1 & cs1 & l2 & cs2 & q & Hr & -> & ->) Hn got. unfold read. rewrite (M_bind_Ok _ _ _ s s) by done.
  pose proof (reading_length _ _ _ _ _ _ Hr) as Hl. pose proof (open_head_bound _ _ _ (rd_head _ _ _ _ _ _ Hr)) as Hq.
  destruct (read_loop_ok (length l2) (S (S (length (datahandles_ s)))) s l1 cs1 l2 cs2 q 0 n 0 [] Hr eq_refl)
    as (s' & l1' & cs1' & l2' & cs2' & q' & E & Hr' & Hcs & Hrest); [lia|done|done|done|].
  assert (Hgot : got = take (Z.to_nat n) (rest cs2 q)).
  { unfold got, rest. rewrite concat_app, drop_app_ge by lia. do 2 f_equal. lia. }
  rewrite <- Hgot in *. exists s'. split; [exact E|]. exists l1', cs1', l2', cs2', q'. split_and!; [done|by rewrite Hcs|].
  pose proof (open_head_bound _ _ _ (rd_head _ _ _ _ _ _ Hr')) as Hq'.
  apply (f_equal length) in Hrest. apply (f_equal (fun x => length (concat x))) in Hcs.
  rewrite !concat_app, !length_app in Hcs. unfold rest in Hrest. rewrite length_app, !length_drop in Hrest. lia.
Qed.

Lemma close_ok s c p : is_readable s c (Some p) -> exists s', close s = (Ok tt, s') /\ is_readable s' c None.
Proof.
  intros (l1 & cs1 & l2 & cs2 & q & Hr & -> & ->). unfold close.
  destruct (close_current_ok _ _ _ _ _ _ Hr) as (s1 & l' & E & <- & Hf & _).
  rewrite (M_bind_Ok _ _ _ _ _ E). eexists. split; [done|]. by exists (cs1 ++ cs2).
Qed.

Lemma seek_ok s c p o : is_readable s c (Some p) -> 0 <= o <= zlen c ->
  exists s', seek o s = (Ok o, s') /\ is_readable s' c (Some (Z.to_nat o)).
Proof.
  intros (l1 & cs1 & l2 & cs2 & q & Hr & -> & ->) Ho. unfold seek. rewrite (M_bind_Ok _ _ _ s s) by done.
  rewrite (rd_read _ _ _ _ _ _ Hr). rewrite (M_bind_Ok (assertM true) _ _ tt s eq_refl).
  destruct (close_current_ok _ _ _ _ _ _ Hr) as (s1 & l' & E & El & Hf & Er & Hlen).
  rewrite (M_bind_Ok _ _ _ _ _ E), (M_bind_Ok (modifyM _) _ _ tt _ eq_refl).
  destruct (seek_loop_ok (length l') (S (length (datahandles_ s))) (set_current 0 s1) [] [] l' (cs1 ++ cs2) o)
    as (fd & a & s' & l1' & cs1' & l2' & cs2' & q' & Es & Hr' & Hcs & Hq & Hfd); try done; [by simpl; lia|].
  change (zlen (concat [])) with 0 in Es. rewrite (M_bind_Ok _ _ _ _ _ Es). exists s'.
  simpl app in Hcs. split.
  - destruct fd; [done|]. rewrite Hfd by done. by rewrite Z.sub_diag.
  - exists l1', cs1', l2', cs2', q'. split_and!; [done|by rewrite Hcs|]. unfold zlen in Hq. lia.
Qed.

Lemma position_ok s c p : is_readable s c (Some p) -> position s = (Ok (Z.of_nat p), s).
Proof.
  intros (l1 & cs1 & l2 & cs2 & q & Hr & -> & ->). pose proof Hr as [E1 E2 E3 H1 H2]. unfold position.
  rewrite (M_bind_Ok _ _ _ s s) by done. rewrite E2.
  pose proof (sum_ok dh_size s l1 src_size [] l2 cs1 0 E1 (closed_some _ _ H1)) as Es. simpl in Es.
  rewrite (M_bind_Ok _ _ _ _ _ Es). destruct l2 as [|h l2], cs2 as [|c cs2]; try done.
  - rewrite at_end_true by (by rewrite E1, app_nil_r, E2). simpl in H2. subst q.
    rewrite (M_bind_Ok (mret 0) _ _ 0 s eq_refl).
    apply (f_equal (fun z => (Ok z, s))). unfold zlen. lia.
  - rewrite (at_end_false s l1 h l2) by done. destruct H2 as [Hh _].
    rewrite (M_bind_Ok _ _ _ _ _ (on_same dh_position s l1 h l2 _ E1 (src_position _ _ _ Hh))).
    apply (f_equal (fun z => (Ok z, s))). unfold zlen. lia.
Qed.

(** A multi handle over readable handles is a readable handle. *)
#[export] Program Instance source : SourceHandle (MultiHandle H) := {| readable := is_readable |}.
Next Obligation. exact is_readable_bound. Qed.
Next Obligation. exact openForRead_ok. Qed.
Next Obligation. intros s c p n Hr Hn. apply multi_read_ok; [done|lia]. Qed.
Next Obligation. exact close_ok. Qed.
Next Obligation. exact seek_ok. Qed.
Next Obligation. exact position_ok. Qed.
Next Obligation.
  intros s c p (cs & -> & Hf)%is_readable_some. cbn [dh_estimate handle]. unfold estimate.
  rewrite (M_bind_Ok _ _ _ s s) by done. apply total_ok; [apply src_estimate|done].
Qed.
#[export] Instance sized : SizedSource (MultiHandle H).
Proof.
  intros s c p (cs & -> & Hf)%is_readable_some. cbn [dh_size handle]. unfold size.
  rewrite (M_bind_Ok _ _ _ s s) by done. apply total_ok; [apply src_size|done].
Qed.

(** ** Histories of a readable handle *)
End Multi.
End Multi.

Inductive read_op : Type := Read (n : Z) | Seek (o : Z) | Position.
Inductive read_result : Type := Bytes (n : Z) (b : list byte) | Offset (o : Z).

Section Histories.
Context {H : Type} `{DataHandle H}.

Definition read_step (o : read_op) : M H read_result :=
  match o with
  | Read n => '(k, b) ← dh_read n; mret (Bytes k b)
  | Seek o => o ← dh_seek o; mret (Offset o)
  | Position => o ← dh_position; mret (Offset o)
  end.

Fixpoint read_run (os : list read_op) : M H (list read_result) :=
  match os with [] => mret [] | o :: os => r ← read_step o; rs ← read_run os; mret (r :: rs) end.
End Histories.

(** The same operations on a byte string and an offset in it. *)
Definition flat_step (c : list byte) (o : read_op) (p : nat) : read_result * nat :=
  match o with
  | Read n => let b := take (Z.to_nat n) (drop p c) in (Bytes (zlen b) b, (p + length b)%nat)
  | Seek o => (Offset o, Z.to_nat o)
  | Position => (Offset (Z.of_nat p), p)
  end.

Fixpoint flat_run (c : list byte) (os : list read_op) (p : nat) : list read_result :=
  match os with [] => [] | o :: os => let '(r, p) := flat_step c o p in r :: flat_run c os p end.

Definition op_ok (c : list byte) (o : read_op) : Prop :=
  match o with Read n => 0 < n | Seek o => 0 <= o <= zlen c | Position => True end.

Lemma read_step_ok {H : Type} `{SourceHandle H} c o (h : H) p :
  readable h c (Some p) -> op_ok c o ->
  exists h1, read_step o h = (Ok (flat_step c o p).1, h1) /\ readable h1 c (Some (flat_step c o p).2).
Proof.
  intros Hr Ho. destruct o as [n|o|]; simpl in *.
  - destruct (src_read h c p n Hr Ho) as (h1 & E & Hr1). exists h1. by rewrite (M_bind_Ok _ _ _ _ _ E).
  - destruct (src_seek h c p o Hr Ho) as (h1 & E & Hr1). exists h1. by rewrite (M_bind_Ok _ _ _ _ _ E).
  - exists h. by rewrite (M_bind_Ok _ _ _ _ _ (src_position h c p Hr)).
Qed.

Lemma read_run_ok {H : Type} `{SourceHandle H} c os : forall (h : H) p,
  readable h c (Some p) -> Forall (op_ok c) os -> exists h', read_run os h = (Ok (flat_run c os p), h').
Proof.
  induction os as [|o os IH]; intros h p Hr Hos; [by exists h|]. inversion Hos as [|?? Ho Hos']; subst.
  destruct (read_step_ok c o h p Hr Ho) as (h1 & E1 & Hr1). destruct (IH h1 _ Hr1 Hos') as (h2 & E2). exists h2.
  cbn [read_run flat_run]. rewrite (M_bind_Ok _ _ _ _ _ E1), (M_bind_Ok _ _ _ _ _ E2).
  by destruct (flat_step c o p).
Qed.

#[local] Existing Instance Multi.handle.
#[local] Existing Instance Multi.source.

(** C3. A multi handle over handles that can be read is one handle over the
    concatenation of their contents: after opening it, any sequence of reads,
    seeks and position queries returns what the concatenated bytes give, across
    the boundaries of the handles and past empty ones. *)
Theorem multi_handle_concatenates {H : Type} `{SourceHandle H, !SizedSource H} (hs : list H) (cs : list (list byte))
    (lengths : list Z) (os : list read_op) :
  Forall2 (fun h c => readable h c None) hs cs -> Forall (op_ok (concat cs)) os ->
  exists s n s', Multi.openForRead (Multi.new hs lengths) = (Ok n, s) /\
    read_run os s = (Ok (flat_run (concat cs) os 0), s').
Proof.
  intros Hf Hos.
  destruct (Multi.openForRead_ok (Multi.new hs lengths) (concat cs)) as (s & E & Hr); [by exists cs|].
  destruct (read_run_ok (H1 := Multi.source) (concat cs) os s 0 Hr Hos) as (s' & E'). by exists s, (zlen (concat cs)), s'.
Qed.

Lemma multi_handle_concatenates_witness :
  let over c := MemoryHandle.over c true in
  exists s n s', Multi.openForRead (H0 := MemoryHandle.handle (fun _ => "000"%byte))
      (Multi.new [over (str "abc"); over []; over (str "defg")] []) = (Ok n, s) /\
    read_run (H0 := Multi.handle (H0 := MemoryHandle.handle (fun _ => "000"%byte)))
      [Read 2; Read 4; Position; Seek 1; Read 9; Read 1] s =
      (Ok [Bytes 2 (str "ab"); Bytes 4 (str "cdef"); Offset 6; Offset 1; Bytes 6 (str "bcdefg"); Bytes 0 []], s').
Proof.
  intros over.
  apply (multi_handle_concatenates (H1 := MemoryHandle.source (fun _ => "000"%byte)) (SizedSource0 := MemoryHandle.sized (fun _ => "000"%byte))
    [over (str "abc"); over []; over (str "defg")] [str "abc"; []; str "defg"] []
    [Read 2; Read 4; Position; Seek 1; Read 9; Read 1]).
  - do 3 (constructor; [vm_compute; by split_and!|]). constructor.
  - repeat constructor; vm_compute; done.
Defined.

(** ** Writing *)

Section Writing.
Context {H : Type} `{SinkHandle H}.
Implicit Types (h : H) (s : MultiHandle H).

(** A handle that waits for its bytes, and one that has received them. *)
Definition unwritten h (n : Z) : Prop := 0 < n /\ writable h false [] (Z.to_nat n).
Definition filled h (out : list byte) : Prop := writable h false out 0.

(** The current handle has received [out], fewer bytes than its length. *)
Definition open_for_write (l : list H) (ns : list Z) (out : list byte) : Prop :=
  match l, ns with
  | [], [] => out = []
  | h :: l, n :: ns => zlen out < n /\ writable h true out (Z.to_nat n - length out) /\ Forall2 unwritten l ns
  | _, _ => False
  end.

Record writing s l1 outs l2 ns (out : list byte) : Prop := {
  wr_handles : datahandles_ s = l1 ++ l2;
  wr_current : current_ s = length l1;
  wr_curlen : curlen_ s = length l1;
  wr_lengths : length_ s = (zlen <$> outs) ++ ns;
  wr_read : read_ s = false;
  wr_before : Forall2 filled l1 outs;
  wr_head : open_for_write l2 ns out;
  wr_written : written_ s = zlen out }.

Definition sum (ns : list Z) : Z := foldr Z.add 0 ns.

Lemma deref_curlen_ok s l1 outs n ns :
  curlen_ s = length l1 -> length_ s = (zlen <$> outs) ++ n :: ns -> Forall2 filled l1 outs ->
  Multi.deref_curlen s = Ok n.
Proof.
  intros E1 E2 Hf. unfold Multi.deref_curlen. rewrite E1, E2, (Forall2_length _ _ _ Hf).
  by rewrite list_lookup_middle by (by rewrite length_fmap).
Qed.

Lemma openCurrent_write s l1 outs l2 ns :
  datahandles_ s = l1 ++ l2 -> current_ s = length l1 -> curlen_ s = length l1 -> read_ s = false ->
  length_ s = (zlen <$> outs) ++ ns -> Forall2 filled l1 outs -> Forall2 unwritten l2 ns ->
  exists s' l2', Multi.openCurrent s = (Ok tt, s') /\ writing (Multi.set_written 0 s') l1 outs l2' ns [] /\
    length l2' = length l2.
Proof.
  intros E1 E2 E3 E4 E5 Hf Hu. unfold Multi.openCurrent. rewrite (M_bind_Ok _ _ _ s s) by done.
  inversion Hu as [|h n l2' ns' [Hn Hh] Hu']; subst.
  - rewrite Multi.at_end_true by (by rewrite E1, app_nil_r, E2). exists s, []. split; [done|]. by split.
  - rewrite (Multi.at_end_false s l1 h l2') by done. rewrite E4.
    rewrite (deref_curlen_ok s l1 outs n ns') by done. rewrite (M_bind_Ok (liftM (Ok n)) _ _ n s eq_refl).
    destruct (snk_open h n (Z.to_nat n) ltac:(lia) Hh) as (h' & Eo & Hh').
    rewrite (Multi.on_current _ _ _ _ _ _ _ _ E1 E2 Eo). eexists _, (h' :: l2'). split; [done|].
    split; [|done]. split; try done. simpl. split_and!; [unfold zlen; simpl; lia| |done]. by rewrite Nat.sub_0_r.
Qed.

(** The current handle is full: it is closed, and the next one opened. *)
Lemma next_for_write s l1 outs h l2 n ns out :
  datahandles_ s = l1 ++ h :: l2 -> current_ s = length l1 -> curlen_ s = length l1 -> read_ s = false ->
  length_ s = (zlen <$> outs) ++ n :: ns -> Forall2 filled l1 outs -> Forall2 unwritten l2 ns ->
  writable h true out 0 -> zlen out = n ->
  exists s' h' l2', Multi.next_part s = (Ok tt, s') /\
    writing s' (l1 ++ [h']) (outs ++ [out]) l2' ns [] /\ length l2' = length l2.
Proof.
  intros E1 E2 E3 E4 E5 Hf Hu Hh Hn. destruct (snk_close h out 0 Hh) as (h' & Ec & Hh').
  unfold Multi.next_part. rewrite (M_bind_Ok _ _ _ s s) by done.
  rewrite (M_bind_Ok _ _ _ _ _ (Multi.on_current _ _ _ _ _ _ _ _ E1 E2 Ec)).
  rewrite (M_bind_Ok (modifyM _) _ _ tt _ eq_refl).
  edestruct (openCurrent_write (mkMulti (l1 ++ h' :: l2) (S (current_ s)) (length_ s) (S (curlen_ s)) (read_ s) (written_ s))
    (l1 ++ [h']) (outs ++ [out]) l2 ns) as (s' & l2' & E & Hw & Hl); simpl; try done.
  - by rewrite <- app_assoc.
  - rewrite length_app, E2. simpl. lia.
  - rewrite length_app, E3. simpl. lia.
  - rewrite fmap_app, <- app_assoc, E5. simpl. by rewrite Hn.
  - apply Forall2_app; [done|by constructor].
  - simpl in E. rewrite (M_bind_Ok _ _ _ _ _ E). by eexists _, h', l2'.
Qed.

Lemma sum_nonneg l ns : Forall2 unwritten l ns -> 0 <= sum ns.
Proof. unfold sum. induction 1 as [|h n l ns [Hn _] _ IH]; simpl; [done|]. lia. Qed.

Lemma write_loop_ok k : forall fuel s l1 outs l2 ns out bs,
  writing s l1 outs l2 ns out -> length l2 = k -> (k < fuel)%nat -> 0 < zlen bs <= sum ns - zlen out ->
  exists s' l1' outs' l2' ns' out', Multi.write_loop fuel bs s = (Ok (zlen bs), s') /\
    writing s' l1' outs' l2' ns' out' /\ concat outs ++ out ++ bs = concat outs' ++ out' /\ length_ s' = length_ s.
Proof.
  induction k as [|k IH]; intros fuel s l1 outs l2 ns out bs [E1 E2 E3 E4 E5 Hf Hh Ew] Hk Hfuel Hbs;
    (destruct fuel as [|fuel]; [lia|]).
  { apply nil_length_inv in Hk as ->. destruct ns; [|done]. unfold sum in Hbs. simpl in Hh, Hbs. pose proof (zlen_nonneg out). lia. }
  destruct l2 as [|h l2]; [done|]. destruct ns as [|n ns]; [done|]. destruct Hh as (Hout & Hh & Hu).
  cbn [length] in Hk. pose proof (sum_nonneg _ _ Hu) as Hsum.
  change (sum (n :: ns)) with (n + sum ns) in Hbs.
  cbn [Multi.write_loop]. rewrite (M_bind_Ok _ _ _ s s) by done.
  rewrite (deref_curlen_ok s l1 outs n ns) by done. rewrite (M_bind_Ok (liftM (Ok n)) _ _ n s eq_refl). rewrite Ew.
  set (l := Z.min (n - zlen out) (zlen bs)). assert (Hl : 0 < l) by (unfold l; lia).
  assert (Ht : length (take (Z.to_nat l) bs) = Z.to_nat l) by (rewrite length_take; unfold l, zlen in *; lia).
  destruct (snk_write h out _ (take (Z.to_nat l) bs) Hh) as (h' & Eh & Hh'); [rewrite Ht; unfold l, zlen in *; lia|].
  rewrite (M_bind_Ok _ _ _ _ _ (Multi.on_current _ _ _ _ _ _ _ _ E1 E2 Eh)).
  replace (zlen (take (Z.to_nat l) bs)) with l by (unfold zlen; rewrite Ht; lia).
  destruct (Z.leb_spec l 0); [lia|]. rewrite (M_bind_Ok (modifyM _) _ _ tt _ eq_refl).
  set (s1 := Multi.set_written _ _). rewrite (M_bind_Ok getM _ _ s1 s1 eq_refl).
  replace (written_ s1) with (zlen out + l) by (by rewrite <- Ew).
  destruct (Z.eqb_spec (zlen out + l) n) as [Hfull|Hpart].
  - destruct (next_for_write s1 l1 outs h' l2 n ns (out ++ take (Z.to_nat l) bs)) as (s2 & h2 & l2' & En & Hw2 & Hl2); try done.
    { replace 0%nat with (Z.to_nat n - length out - length (take (Z.to_nat l) bs))%nat by (unfold zlen in *; lia). done. }
    { unfold zlen in *. rewrite length_app, Ht. lia. }
    rewrite (M_bind_Ok _ _ _ _ _ En).
    destruct (Z.ltb_spec l (zlen bs)) as [Hmore|Hdone].
    + pose proof Hw2 as [F1 F2 F3 F4 F5 F6 F7 F8]. rewrite (M_bind_Ok getM _ _ s2 s2 eq_refl).
      assert (Hd : zlen (drop (Z.to_nat l) bs) = zlen bs - l) by (unfold zlen in *; rewrite length_drop; lia).
      destruct (IH fuel s2 _ _ _ _ _ (drop (Z.to_nat l) bs) Hw2) as (s3 & l1' & outs' & l3 & ns' & out' & E & Hw3 & Hc & Hls);
        [lia|lia|rewrite Hd; change (zlen []) with 0; lia|].
      destruct l2' as [|h3 l3']; [destruct ns; [|done]; unfold sum in *; simpl in *; lia|].
      rewrite (Multi.at_end_false s2 (l1 ++ [h2]) h3 l3') by done.
      rewrite (M_bind_Ok (assertM true) _ _ tt s2 eq_refl), (M_bind_Ok _ _ _ _ _ E), Hd.
      destruct (Z.ltb_spec 0 (zlen bs - l)); [|lia]. exists s3, l1', outs', l3, ns', out'.
      rewrite <- Hc, concat_app. simpl. rewrite app_nil_r, <- !app_assoc, take_drop.
      split_and!; [apply (f_equal (fun z => (Ok z, s3))); lia|done|done|].
      rewrite Hls, F4, fmap_app, <- app_assoc, E4. simpl. do 3 f_equal. unfold zlen in *. rewrite length_app, Ht. lia.
    + assert (l = zlen bs) as El by (unfold l in *; lia).
      exists s2, (l1 ++ [h2]), (outs ++ [out ++ take (Z.to_nat l) bs]), l2', ns, [].
      rewrite El, concat_app. simpl. rewrite take_ge by (unfold zlen; lia). rewrite !app_nil_r.
      rewrite El, take_ge in Hw2 by (unfold zlen; lia). split_and!; try done.
      rewrite (wr_lengths _ _ _ _ _ _ Hw2), fmap_app, <- app_assoc, E4. simpl.
      by replace (zlen (out ++ bs)) with n by (rewrite zlen_app; lia).
  - assert (l = zlen bs) as El by (unfold l in *; lia).
    exists s1, l1, outs, (h' :: l2), (n :: ns), (out ++ bs). rewrite El in *.
    rewrite take_ge in * by (unfold zlen; lia). split_and!; try done.
    split; try done.
    + simpl. rewrite zlen_app, length_app. split_and!; [lia| |done]. by rewrite Nat.sub_add_distr.
    + simpl. rewrite zlen_app. lia.
Qed.

Lemma multi_write_ok s l1 outs l2 ns out bs :
  writing s l1 outs l2 ns out -> 0 < zlen bs <= sum ns - zlen out ->
  exists s' l1' outs' l2' ns' out', Multi.write bs s = (Ok (zlen bs), s') /\
    writing s' l1' outs' l2' ns' out' /\ concat outs ++ out ++ bs = concat outs' ++ out' /\ length_ s' = length_ s.
Proof.
  intros Hw Hbs. unfold Multi.write. rewrite (M_bind_Ok _ _ _ s s) by done.
  apply (write_loop_ok (length l2) _ s l1 outs l2 ns out bs); try done.
  rewrite (wr_handles _ _ _ _ _ _ Hw), length_app. lia.
Qed.

(** The counts returned by a sequence of writes. *)
Fixpoint write_counts (chunks : list (list byte)) : M (MultiHandle H) (list Z) :=
  match chunks with [] => mret [] | b :: bs => n ← Multi.write b; ns ← write_counts bs; mret (n :: ns) end.

Lemma sum_app ns ns' : sum (ns ++ ns') = sum ns + sum ns'.
Proof. unfold sum. induction ns as [|n ns IH]; simpl; lia. Qed.
Lemma sum_lengths (outs : list (list byte)) : sum (zlen <$> outs) = zlen (concat outs).
Proof. unfold sum. induction outs as [|o outs IH]; [done|]. rewrite fmap_cons. cbn [foldr concat]. rewrite zlen_app. lia. Qed.

Lemma writing_left s l1 outs l2 ns out :
  writing s l1 outs l2 ns out -> sum ns - zlen out = sum (length_ s) - zlen (concat outs ++ out).
Proof. intros Hw. rewrite (wr_lengths _ _ _ _ _ _ Hw), sum_app, sum_lengths, zlen_app. lia. Qed.

Lemma write_counts_ok chunks : forall s l1 outs l2 ns out,
  writing s l1 outs l2 ns out -> Forall (fun b => b <> []) chunks -> zlen (concat chunks) = sum ns - zlen out ->
  exists s' outs', write_counts chunks s = (Ok (zlen <$> chunks), s') /\
    writing s' (datahandles_ s') outs' [] [] [] /\ concat outs ++ out ++ concat chunks = concat outs' /\
    length_ s' = length_ s.
Proof.
  induction chunks as [|b bs IH]; intros s l1 outs l2 ns out Hw Hne Hlen.
  - exists s, outs. pose proof Hw as [E1 E2 E3 E4 E5 Hf Hh Ew]. change (zlen (concat [])) with 0 in Hlen.
    destruct l2 as [|h l2], ns as [|n ns]; try done.
    + simpl in Hh. subst out. rewrite app_nil_r in E1. rewrite E1. simpl. rewrite app_nil_r.
      split_and!; try done.
    + destruct Hh as (Ho & _ & Hu). pose proof (sum_nonneg _ _ Hu). change (sum (n :: ns)) with (n + sum ns) in Hlen. lia.
  - inversion Hne as [|?? Hb Hbs]; subst. simpl in Hlen. rewrite zlen_app in Hlen. pose proof (zlen_nonneg (concat bs)).
    assert (0 < zlen b) by (destruct b; [done|]; unfold zlen; simpl; lia).
    destruct (multi_write_ok s l1 outs l2 ns out b Hw ltac:(lia)) as (s1 & l1' & outs' & l2' & ns' & out' & E & Hw1 & Hc & Hl).
    destruct (IH s1 _ _ _ _ _ Hw1 Hbs) as (s2 & outs2 & E2 & Hw2 & Hc2 & Hl2).
    { rewrite (writing_left _ _ _ _ _ _ Hw1), Hl, <- Hc. rewrite (writing_left _ _ _ _ _ _ Hw) in Hlen.
      rewrite !zlen_app in *. lia. }
    exists s2, outs2. cbn [write_counts]. rewrite (M_bind_Ok _ _ _ _ _ E), (M_bind_Ok _ _ _ _ _ E2).
    split_and!; try done; [|by rewrite Hl2]. rewrite <- Hc2, !app_assoc, <- Hc. simpl. by rewrite <- !app_assoc.
Qed.
End Writing.

(** Writing through a multi handle cuts the bytes at the announced lengths:
    however the data comes in, every write takes all its bytes, and each handle is
    closed holding its part, in order. *)
Theorem multi_handle_splits {H : Type} `{SinkHandle H} (hs : list H) (lengths : list Z) (chunks : list (list byte)) :
  Forall2 unwritten hs lengths -> Forall (fun b => b <> []) chunks ->
  zlen (concat chunks) = foldr Z.add 0 lengths ->
  exists s outs, (Multi.openForWrite (zlen (concat chunks)) ;; ns ← write_counts chunks; Multi.close ;; mret ns)
      (Multi.new hs lengths) = (Ok (zlen <$> chunks), s) /\
    Forall2 filled (datahandles_ s) outs /\ concat outs = concat chunks /\ zlen <$> outs = lengths.
Proof.
  intros Hu Hne Hlen. unfold Multi.openForWrite.
  destruct (openCurrent_write (mkMulti hs 0 lengths 0 false 0) [] [] hs lengths) as (s1 & l2 & E1 & Hw1 & _); try done.
  destruct (write_counts_ok chunks _ _ _ _ _ _ Hw1 Hne) as (s2 & outs & E2 & [F1 F2 F3 F4 F5 F6 F7 F8] & Hc & Hl).
  { unfold sum. change (zlen []) with 0. lia. }
  assert (Hl1 : length_ (Multi.set_written 0 s1) = lengths) by apply Hw1.
  exists (Multi.set_current (length (datahandles_ s2)) s2), outs.
  assert (Eo : Multi.openForWrite (zlen (concat chunks)) (Multi.new hs lengths) = (Ok tt, Multi.set_written 0 s1)).
  { unfold Multi.openForWrite. rewrite (M_bind_Ok _ _ _ (Multi.new hs lengths) (Multi.new hs lengths)) by done.
    cbn [length_ datahandles_ Multi.new]. rewrite <- Hlen, Z.eqb_refl, bool_decide_true by (by apply Forall2_length in Hu).
    rewrite !(M_bind_Ok (assertM true) _ _ tt _ eq_refl), (M_bind_Ok (putM _) _ _ tt _ eq_refl).
    by rewrite (M_bind_Ok _ _ _ _ _ E1). }
  rewrite (M_bind_Ok _ _ _ _ _ Eo), (M_bind_Ok _ _ _ _ _ E2). split_and!; try done.
  - unfold Multi.close. assert (Ec : Multi.close_current s2 = (Ok tt, s2)).
    { unfold Multi.close_current. rewrite (M_bind_Ok _ _ _ s2 s2) by done. by rewrite Multi.at_end_true. }
    by rewrite (M_bind_Ok _ _ _ _ _ (M_bind_Ok _ _ _ _ _ Ec)).
  - rewrite Hl, Hl1, app_nil_r in F4. done.
Qed.

Lemma multi_handle_splits_witness :
  let junk := fun _ : nat => "000"%byte in
  let fixed n := MemoryHandle.over (replicate n "000"%byte) false in
  exists s outs, (Multi.openForWrite (H0 := MemoryHandle.handle junk) 7 ;;
      ns ← write_counts (H0 := MemoryHandle.handle junk) [str "ab"; str "cdef"; str "g"];
      Multi.close (H0 := MemoryHandle.handle junk) ;; mret ns) (Multi.new [fixed 3%nat; fixed 4%nat] [3; 4]) = (Ok [2; 4; 1], s) /\
    Forall2 (filled (H1 := MemoryHandle.sink junk false)) (datahandles_ s) outs /\
    concat outs = str "abcdefg" /\ zlen <$> outs = [3; 4].
Proof.
  intros junk fixed.
  apply (multi_handle_splits (H1 := MemoryHandle.sink junk false) [fixed 3%nat; fixed 4%nat] [3; 4] [str "ab"; str "cdef"; str "g"]).
  - do 2 (constructor; [vm_compute; by split_and!|]). constructor.
  - by repeat constructor.
  - reflexivity.
Defined.

(** A part announced with length 0 stops the writing: the call takes no byte,
    and so do all calls after it, although the next parts have room. *)
Theorem multi_handle_empty_part_stalls (junk : nat -> byte) (bs : list byte) :
  let hs := [MemoryHandle.over [] false; MemoryHandle.over (str "xyz") false] in
  exists s, Multi.openForWrite (H0 := MemoryHandle.handle junk) 3 (Multi.new hs [0; 3]) = (Ok tt, s) /\
    Multi.write (H0 := MemoryHandle.handle junk) bs s = (Ok 0, s).
Proof.
  eexists. split; [vm_compute; reflexivity|]. unfold Multi.write. rewrite (M_bind_Ok getM _ _ _ _ eq_refl).
  cbn [Multi.write_loop datahandles_ length]. rewrite (M_bind_Ok getM _ _ _ _ eq_refl).
  rewrite (M_bind_Ok (liftM _) _ _ 0 _ eq_refl). cbn [written_].
  replace (Z.min (0 - 0) (zlen bs)) with 0 by (pose proof (zlen_nonneg bs); lia). reflexivity.
Qed.
