(* ===== verification/HandleViews.v ===== *)
(** * Views of another handle

    [io/PartHandle.cc]: the parts of a handle given by offsets and lengths, read
    one after the other.  [io/PeekHandle.cc]: a handle whose next bytes can be
    looked at before they are read.  Both hold a handle ([io/HandleHolder.cc]),
    which is any implementation of the interface of [Handles]. *)
From S2P Require Import Prelude Handles MultiHandle.

Record PartHandle (H : Type) : Type := mkPart {
  part_handle : H;
  pos_ : Z;               (** in the current part *)
  index_ : nat;           (** the current part *)
  offset_ : list Z;
  length_ : list Z }.
Arguments mkPart {H}.
Arguments part_handle {H}.
Arguments pos_ {H}.
Arguments index_ {H}.
Arguments offset_ {H}.
Arguments length_ {H}.

Module Part.
Section Part.
Context {H : Type} `{DataHandle H}.
Implicit Types s : PartHandle H.

Definition new (h : H) (offset length : list Z) : outcome (PartHandle H) :=
  ASSERT (bool_decide (List.length offset = List.length length)) ≫= fun _ => Ok (mkPart h 0 0 offset length).

(** A call on [handle()]. *)
Definition under {A} (m : M H A) : M (PartHandle H) A := fun s =>
  let '(r, h) := m (part_handle s) in (r, mkPart h (pos_ s) (index_ s) (offset_ s) (length_ s)).

Definition set_place (pos : Z) (index : nat) s : PartHandle H :=
  mkPart (part_handle s) pos index (offset_ s) (length_ s).

Definition rewind : M (PartHandle H) unit := modifyM (set_place 0 0).

Definition estimate : M (PartHandle H) Z := s ← getM; mret (foldl Z.add 0 (length_ s)).

Definition openForRead : M (PartHandle H) Z := _ ← under dh_openForRead; rewind ;; estimate.

Definition openForWrite (length : Z) : M (PartHandle H) unit := throwM NotImplemented.
Definition write (buffer : list byte) : M (PartHandle H) Z := mret (-1).

(** [v[i]] *)
Definition at_ (v : list Z) (i : nat) : outcome Z := match v !! i with Some x => Ok x | None => Undef end.

(** [while (index_ < offset_.size() && length_[index_] == Length(0))] *)
Fixpoint skip_empty (fuel : nat) : M (PartHandle H) unit :=
  match fuel with
  | O => liftM NoFuel
  | S f =>
      s ← getM;
      if decide (index_ s < length (offset_ s))%nat then
        l ← liftM (at_ (length_ s) (index_ s));
        if l =? 0 then putM (set_place (pos_ s) (S (index_ s)) s) ;; skip_empty f else mret tt
      else mret tt
  end.

Definition read1 (length : Z) : M (PartHandle H) (Z * list byte) :=
  s ← getM;
  skip_empty (S (List.length (offset_ s))) ;;
  s ← getM;
  assertM (bool_decide (index_ s <= List.length (offset_ s))%nat) ;;
  if decide (index_ s = List.length (offset_ s)) then mret (0, [])
  else
    o ← liftM (at_ (offset_ s) (index_ s));
    l ← liftM (at_ (length_ s) (index_ s));
    let pos := o + pos_ s in
    r ← under (dh_seek pos);
    assertM (r =? pos) ;;
    let size := Z.min length (l - pos_ s) in
    '(n, bytes) ← under (dh_read size);
    if negb (n =? size) then throwM ReadError
    else
      modifyM (fun s => if l <=? pos_ s + n then set_place 0 (S (index_ s)) s
                        else set_place (pos_ s + n) (index_ s) s) ;;
      mret (n, bytes).

Fixpoint read_loop (fuel : nat) (length n total : Z) (p : list byte) : M (PartHandle H) (Z * list byte) :=
  match fuel with
  | O => liftM NoFuel
  | S f =>
      if 0 <? length then
        '(n, bytes) ← read1 length;
        if 0 <? n then read_loop f (length - n) n (total + n) (p ++ bytes)
        else mret (if 0 <? total then total else n, p)
      else mret (if 0 <? total then total else n, p)
  end.

Definition read (length : Z) : M (PartHandle H) (Z * list byte) :=
  s ← getM; read_loop (S (S (List.length (offset_ s)))) length 0 0 [].

Definition close : M (PartHandle H) unit := under dh_close.

(** The loop of [restartReadFrom]; [true] when it returned from inside. *)
Fixpoint restart_loop (fuel : nat) (len pos : Z) : M (PartHandle H) bool :=
  match fuel with
  | O => liftM NoFuel
  | S f =>
      s ← getM;
      if decide (index_ s < length (length_ s))%nat then
        e ← liftM (at_ (length_ s) (index_ s));
        if (pos <=? len) && (len <? pos + e) then putM (set_place (len - pos) (index_ s) s) ;; mret true
        else putM (set_place (pos_ s) (S (index_ s)) s) ;; restart_loop f len (pos + e)
      else mret false
  end.

Definition restartReadFrom (from : Z) : M (PartHandle H) unit :=
  rewind ;;
  s ← getM;
  found ← restart_loop (S (length (length_ s))) from 0;
  if (found : bool) then mret tt
  else e ← estimate; assertM ((from =? 0) && (e =? 0)).

(** ** The bytes of the parts *)

Context `{!SourceHandle H}.

(** A part of the content [c]. *)
Definition slice (c : list byte) (ol : Z * Z) : list byte := take (Z.to_nat ol.2) (drop (Z.to_nat ol.1) c).
Definition part_ok (c : list byte) (ol : Z * Z) : Prop := 0 <= ol.1 /\ 0 <= ol.2 /\ ol.1 + ol.2 <= zlen c.

(** What is left of the parts [ps], from position [pos] of the first. *)
Definition left_of (c : list byte) (ps : list (Z * Z)) (pos : Z) : list byte :=
  drop (Z.to_nat pos) (concat (slice c <$> ps)).

(** [s] is at [pos] in the first part of [ps], the parts that are left. *)
Record parts_at s (c : list byte) (ps : list (Z * Z)) (pos : Z) : Prop := {
  pa_lens : length (offset_ s) = length (length_ s);
  pa_rest : drop (index_ s) (zip (offset_ s) (length_ s)) = ps;
  pa_index : (index_ s + length ps = length (offset_ s))%nat;
  pa_pos : pos_ s = pos;
  pa_in : 0 <= pos /\ match ps with [] => pos = 0 | ol :: _ => pos = 0 \/ pos < ol.2 end;
  pa_ok : Forall (part_ok c) ps;
  pa_handle : exists p, readable (part_handle s) c (Some p) }.

Lemma parts_lookup s c o l ps pos :
  parts_at s c ((o, l) :: ps) pos -> at_ (offset_ s) (index_ s) = Ok o /\ at_ (length_ s) (index_ s) = Ok l /\
    drop (S (index_ s)) (zip (offset_ s) (length_ s)) = ps.
Proof.
  intros [H1 H2 H3 _ _ _ _]. assert (E : zip (offset_ s) (length_ s) !! index_ s = Some (o, l)).
  { rewrite <- (Nat.add_0_r (index_ s)), <- lookup_drop, H2. done. }
  apply lookup_zip_with_Some in E as (o' & l' & [= <- <-] & Eo & El). unfold at_. rewrite Eo, El. split_and!; try done.
  replace (S (index_ s)) with (index_ s + 1)%nat by lia. by rewrite <- drop_drop, H2.
Qed.

Lemma skip_empty_ok ps : forall fuel s c pos,
  parts_at s c ps pos -> (length ps < fuel)%nat ->
  exists s' ps', skip_empty fuel s = (Ok tt, s') /\ parts_at s' c ps' pos /\ left_of c ps pos = left_of c ps' pos /\
    (length ps' <= length ps)%nat /\ match ps' with [] => True | ol :: _ => pos < ol.2 end /\
    length (offset_ s') = length (offset_ s).
Proof.
  induction ps as [|[o l] ps IH]; intros fuel s c pos Hp Hf; (destruct fuel as [|fuel]; [simpl in Hf; lia|]);
    cbn [skip_empty]; rewrite (M_bind_Ok _ _ _ s s) by done; pose proof Hp as [H1 H2 H3 H4 H5 H6 H7].
  - rewrite decide_False by (simpl in H3; lia). by exists s, [].
  - rewrite decide_True by (simpl in H3; lia). destruct (parts_lookup _ _ _ _ _ _ Hp) as (Eo & El & Ed).
    rewrite El, (M_bind_Ok (liftM (Ok l)) _ _ l s eq_refl). apply Forall_cons in H6 as [[Hk0 [Hk1 Hk2]] H6].
    cbn [fst snd] in *. destruct (Z.eqb_spec l 0) as [->|Hl].
    + rewrite (M_bind_Ok (putM _) _ _ tt _ eq_refl). assert (pos = 0) as -> by lia.
      destruct (IH fuel (set_place (pos_ s) (S (index_ s)) s) c 0) as (s' & ps' & E & Hp' & Hleft & Hlen & Hne & Hsz).
      * split; simpl; try done; [simpl in H3; lia|]. split; [lia|]. destruct ps as [|[? ?] ?]; [done|by left].
      * simpl in Hf. lia.
      * exists s', ps'. split_and!; try done. simpl. lia.
    + exists s, ((o, l) :: ps). split_and!; try done. simpl. lia.
Qed.

Lemma length_slice c ol : part_ok c ol -> length (slice c ol) = Z.to_nat ol.2.
Proof. intros (H1 & H2 & H3). unfold slice, zlen in *. rewrite length_take, length_drop. lia. Qed.

(** Reading [size] bytes at the current place. *)
Lemma slice_read c o l ps pos size :
  part_ok c (o, l) -> 0 <= pos -> 0 < size -> pos + size <= l ->
  let got := take (Z.to_nat size) (drop (Z.to_nat (o + pos)) c) in
  zlen got = size /\ left_of c ((o, l) :: ps) pos = got ++ left_of c ((o, l) :: ps) (pos + size) /\
  (pos + size = l -> left_of c ((o, l) :: ps) (pos + size) = left_of c ps 0).
Proof.
  intros Hok Hpos Hsize Hl got. pose proof (length_slice c (o, l) Hok) as Hs. destruct Hok as (H1 & H2 & H3).
  cbn [fst snd] in *. unfold zlen in *.
  assert (Hlen : length got = Z.to_nat size) by (unfold got; rewrite length_take, length_drop; lia).
  split_and!; [lia| |].
  - unfold left_of. cbn [fmap list_fmap concat].
    rewrite (Z2Nat.inj_add pos size), <- drop_drop by lia.
    rewrite <- (take_drop (Z.to_nat size) (drop (Z.to_nat pos) (slice c (o, l) ++ _))) at 1. f_equal.
    rewrite drop_app_le, take_app_le by (rewrite ?length_drop; lia).
    unfold slice, got. cbn [fst snd]. rewrite skipn_firstn_comm, take_take, drop_drop, <- Z2Nat.inj_add by lia.
    f_equal. lia.
  - intros ->. unfold left_of. cbn [fmap list_fmap concat]. rewrite <- Hs. by rewrite drop_app_length, drop_0.
Qed.

Lemma read1_parts s c ps pos n :
  parts_at s c ps pos -> 0 < n ->
  exists bytes s' ps' pos', read1 n s = (Ok (zlen bytes, bytes), s') /\ parts_at s' c ps' pos' /\
    left_of c ps pos = bytes ++ left_of c ps' pos' /\ zlen bytes <= n /\
    (bytes = [] -> left_of c ps pos = []) /\ (zlen bytes = n \/ bytes = [] \/ (length ps' < length ps)%nat).
Proof.
  intros Hp Hn. unfold read1. rewrite (M_bind_Ok _ _ _ s s) by done.
  destruct (skip_empty_ok ps (S (length (offset_ s))) s c pos Hp) as (s1 & ps1 & E1 & Hp1 & Hleft & Hlen & Hne & Hsz).
  { pose proof (pa_index _ _ _ _ Hp). lia. }
  rewrite (M_bind_Ok _ _ _ _ _ E1), (M_bind_Ok getM _ _ s1 s1 eq_refl). pose proof Hp1 as [H1 H2 H3 H4 H5 H6 [p Hh]].
  rewrite bool_decide_true by lia. rewrite (M_bind_Ok (assertM true) _ _ tt s1 eq_refl).
  destruct ps1 as [|[o l] ps1].
  - simpl in H3. rewrite decide_True by lia. exists [], s1, [], pos. rewrite Hleft.
    assert (left_of c [] pos = []) as -> by apply drop_nil.
    split_and!; try done; [unfold zlen; simpl; lia|by right; left].
  - simpl in H3. rewrite decide_False by lia. destruct (parts_lookup _ _ _ _ _ _ Hp1) as (Eo & El & Ed).
    rewrite Eo, (M_bind_Ok (liftM (Ok o)) _ _ o s1 eq_refl), El, (M_bind_Ok (liftM (Ok l)) _ _ l s1 eq_refl), H4.
    apply Forall_cons in H6 as [Hok H6]. pose proof Hok as (K1 & K2 & K3). cbn [fst snd] in *. destruct H5 as [H5 _].
    destruct (src_seek (part_handle s1) c p (o + pos) Hh) as (h2 & E2 & Hh2); [lia|].
    assert (E2' : under (dh_seek (o + pos)) s1 = (Ok (o + pos), mkPart h2 pos (index_ s1) (offset_ s1) (length_ s1))).
    { unfold under. by rewrite E2, H4. }
    rewrite (M_bind_Ok _ _ _ _ _ E2'), Z.eqb_refl, (M_bind_Ok (assertM true) _ _ tt _ eq_refl).
    set (size := Z.min n (l - pos)). assert (Hsize : 0 < size) by (unfold size; lia).
    destruct (src_read h2 c _ size Hh2 Hsize) as (h3 & E3 & Hh3).
    destruct (slice_read c o l ps1 pos size Hok H5 Hsize ltac:(unfold size; lia)) as (G1 & G2 & G3).
    set (got := take (Z.to_nat size) _) in *. rewrite G1 in E3.
    rewrite (M_bind_Ok (under (dh_read size)) _ _ (size, got) (mkPart h3 pos (index_ s1) (offset_ s1) (length_ s1)))
      by (unfold under; cbn [part_handle pos_ index_ offset_ length_]; by rewrite E3).
    rewrite Z.eqb_refl. cbn [negb]. rewrite (M_bind_Ok (modifyM _) _ _ tt _ eq_refl). cbn [pos_ index_].
    exists got. rewrite G1. destruct (Z.leb_spec l (pos + size)) as [Hfull|Hpart].
    + assert (Hend : pos + size = l) by (unfold size in *; lia). specialize (G3 Hend). rewrite G3 in G2.
      eexists _, ps1, 0. split; [done|]. split.
      { split; simpl; try done; try lia; try (by eexists). split; [lia|]. destruct ps1 as [|[? ?] ?]; [done|by left]. }
      rewrite Hleft, G2. split_and!; try done; [unfold size; lia| |right; right; simpl in Hlen; lia].
      intros E%(f_equal zlen). rewrite G1 in E. unfold zlen in E. simpl in E. lia.
    + eexists _, ((o, l) :: ps1), (pos + size). split; [done|]. split.
      { split; simpl; try done; try lia; try (by eexists). by constructor. }
      rewrite Hleft, G2. split_and!; try done; [unfold size; lia| |left; unfold size in *; lia].
      intros E%(f_equal zlen). rewrite G1 in E. unfold zlen in E. simpl in E. lia.
Qed.

Lemma read_loop_parts k : forall fuel s c ps pos n0 n total acc,
  parts_at s c ps pos -> length ps = k -> (k + 1 < fuel)%nat -> 0 <= n -> total = zlen acc -> (total = 0 -> n0 = 0) ->
  exists s' ps' pos', let bytes := take (Z.to_nat n) (left_of c ps pos) in
    read_loop fuel n n0 total acc s = (Ok (total + zlen bytes, acc ++ bytes), s') /\ parts_at s' c ps' pos' /\
    left_of c ps pos = bytes ++ left_of c ps' pos'.
Proof.
  induction k as [k IH] using lt_wf_ind. intros fuel s c ps pos n0 n total acc Hp Hk Hf Hn Ht H0n.
  destruct fuel as [|fuel]; [lia|]. cbn [read_loop]. pose proof (zlen_nonneg acc) as Hacc.
  assert (Hres : (if 0 <? total then total else n0) = total).
  { destruct (Z.ltb_spec 0 total); [done|]. rewrite H0n; lia. }
  destruct (Z.ltb_spec 0 n) as [Hpos|Hzero].
  2:{ exists s, ps, pos. replace n with 0 by lia. simpl. rewrite Hres, app_nil_r, Z.add_0_r. done. }
  destruct (read1_parts s c ps pos n Hp Hpos) as (b & s1 & ps1 & pos1 & E & Hp1 & G1 & G2 & G3 & G4).
  rewrite (M_bind_Ok _ _ _ _ _ E). pose proof (zlen_nonneg b) as Hb. destruct (Z.ltb_spec 0 (zlen b)) as [Hbp|Hz].
  - assert (Htake : take (Z.to_nat n) (left_of c ps pos) = b ++ take (Z.to_nat (n - zlen b)) (left_of c ps1 pos1)).
    { rewrite G1. unfold zlen in *. rewrite take_app, take_ge by lia. do 2 f_equal. lia. }
    assert (Hgo : exists s' ps' pos', let bytes := take (Z.to_nat (n - zlen b)) (left_of c ps1 pos1) in
      read_loop fuel (n - zlen b) (zlen b) (total + zlen b) (acc ++ b) s1 =
        (Ok (total + zlen b + zlen bytes, (acc ++ b) ++ bytes), s') /\ parts_at s' c ps' pos' /\
      left_of c ps1 pos1 = bytes ++ left_of c ps' pos').
    { destruct G4 as [G4|[->|G4]]; [|unfold zlen in Hbp; simpl in Hbp; lia|].
      - exists s1, ps1, pos1. replace (n - zlen b) with 0 by lia. destruct fuel; [lia|]. simpl.
        destruct (Z.ltb_spec 0 (total + zlen b)); [|lia]. by rewrite app_nil_r, Z.add_0_r.
      - apply (IH (length ps1) ltac:(lia)); try done; try lia. rewrite zlen_app. lia. }
    destruct Hgo as (s' & ps' & pos' & E' & Hp' & Hrest). cbv zeta in *. exists s', ps', pos'.
    rewrite Htake, E', zlen_app, G1. split_and!; [by rewrite <- app_assoc, Z.add_assoc|done|by rewrite <- app_assoc, <- Hrest].
  - assert (b = []) as ->. { destruct b; [done|]. unfold zlen in Hz. simpl in Hz. lia. }
    exists s1, ps1, pos1. specialize (G3 eq_refl). cbv zeta. rewrite G3 in *. rewrite take_nil, app_nil_r, Z.add_0_r.
    split_and!; try done. destruct (Z.ltb_spec 0 total); [done|]. by replace total with 0 by lia.
Qed.

Lemma read_parts s c ps pos n :
  parts_at s c ps pos -> 0 <= n ->
  exists s' ps' pos', let bytes := take (Z.to_nat n) (left_of c ps pos) in
    read n s = (Ok (zlen bytes, bytes), s') /\ parts_at s' c ps' pos' /\ left_of c ps pos = bytes ++ left_of c ps' pos'.
Proof.
  intros Hp Hn. unfold read. rewrite (M_bind_Ok _ _ _ s s) by done. pose proof (pa_index _ _ _ _ Hp).
  destruct (read_loop_parts (length ps) (S (S (length (offset_ s)))) s c ps pos 0 n 0 [] Hp eq_refl)
    as (s' & ps' & pos' & E & Hp' & G); [lia|done|done|done|]. by exists s', ps', pos'.
Qed.

(** The methods it does not define are those of [DataHandle], which throw. *)
#[export] Instance handle : DataHandle (PartHandle H) := {|
  dh_openForRead := openForRead; dh_openForWrite := openForWrite; dh_read := read; dh_write := write;
  dh_close := close; dh_seek _ := throwM NotImplemented; dh_position := throwM NotImplemented;
  dh_size := throwM NotImplemented; dh_estimate := estimate |}.
End Part.
End Part.

#[local] Existing Instance Part.handle.

(** The bytes of the parts of a content, one after the other. *)
Definition parts_content (c : list byte) (offsets lengths : list Z) : list byte :=
  concat (Part.slice c <$> zip offsets lengths).

Lemma part_run {H : Type} `{SourceHandle H} c all ns : forall (s : PartHandle H) ps pos p,
  Part.parts_at s c ps pos -> Part.left_of c ps pos = drop p all -> Forall (fun n => 0 < n) ns ->
  exists s', read_run (Read <$> ns) s = (Ok (flat_run all (Read <$> ns) p), s').
Proof.
  induction ns as [|n ns IH]; intros s ps pos p Hp Hleft Hns; [by exists s|].
  apply Forall_cons in Hns as [Hn Hns]. destruct (Part.read_parts s c ps pos n Hp ltac:(lia)) as (s1 & ps1 & pos1 & E & Hp1 & G).
  rewrite Hleft in *. set (b := take (Z.to_nat n) (drop p all)) in *.
  assert (Hnext : Part.left_of c ps1 pos1 = drop (p + length b) all).
  { rewrite <- drop_drop, G. by rewrite drop_app_length. }
  destruct (IH s1 ps1 pos1 _ Hp1 Hnext Hns) as (s2 & E2). exists s2. rewrite fmap_cons. cbn [read_run flat_run read_step flat_step].
  fold b. rewrite (M_bind_Ok _ _ s (Bytes (zlen b) b) s1) by (by rewrite (M_bind_Ok _ _ _ _ _ E)).
  by rewrite (M_bind_Ok _ _ _ _ _ E2).
Qed.

(** A part handle reads as its parts joined together: opened over a readable
    handle, any sequence of reads returns the successive bytes of the parts, in
    the order of the lists, skipping empty ones; overlapping and out-of-order
    parts are allowed. *)
Theorem part_handle_reads_parts {H : Type} `{SourceHandle H} (h : H) (c : list byte) (offsets lengths ns : list Z) :
  readable h c None -> length offsets = length lengths -> Forall (Part.part_ok c) (zip offsets lengths) ->
  Forall (fun n => 0 < n) ns ->
  exists s0 len s s', Part.new h offsets lengths = Ok s0 /\ Part.openForRead s0 = (Ok len, s) /\
    read_run (Read <$> ns) s = (Ok (flat_run (parts_content c offsets lengths) (Read <$> ns) 0), s').
Proof.
  intros Hh Hlen Hok Hns. unfold Part.new. rewrite bool_decide_true by done.
  destruct (src_open h c Hh) as (h1 & E & Hh1).
  assert (Hp : Part.parts_at (mkPart h1 0 0 offsets lengths) c (zip offsets lengths) 0).
  { split; simpl; try done; [rewrite length_zip_with; lia| |by eexists]. split; [lia|]. destruct (zip offsets lengths) as [|[? ?] ?]; [done|by left]. }
  destruct (part_run c (parts_content c offsets lengths) ns _ _ _ 0 Hp eq_refl Hns) as (s' & E').
  eexists _, _, _, s'. split; [done|]. split; [|exact E'].
  unfold Part.openForRead. rewrite (M_bind_Ok (Part.under dh_openForRead) _ _ (zlen c) (mkPart h1 0 0 offsets lengths)); [done|].
  unfold Part.under. simpl. by rewrite E.
Qed.

Lemma part_handle_reads_parts_witness :
  let junk := fun _ : nat => "000"%byte in
  exists s0 len s s', Part.new (MemoryHandle.over (str "abcdefgh") true) [4; 8; 0] [3; 0; 2] = Ok s0 /\
    Part.openForRead (H0 := MemoryHandle.handle junk) s0 = (Ok len, s) /\
    read_run (H0 := Part.handle (H0 := MemoryHandle.handle junk)) (Read <$> [2; 9]) s =
      (Ok [Bytes 2 (str "ef"); Bytes 3 (str "gab")], s').
Proof.
  intros junk.
  apply (part_handle_reads_parts (H1 := MemoryHandle.source junk) (MemoryHandle.over (str "abcdefgh") true) (str "abcdefgh")
    [4; 8; 0] [3; 0; 2] [2; 9]).
  - vm_compute. by split_and!.
  - reflexivity.
  - repeat constructor; vm_compute; done.
  - by repeat constructor.
Defined.

(** ** Peek handle *)

Record PeekHandle (H : Type) : Type := mkPeek { peek_handle : H; peek_ : list byte }.
Arguments mkPeek {H}.
Arguments peek_handle {H}.
Arguments peek_ {H}.

Module Peek.
Section Peek.
Context {H : Type} `{DataHandle H}.
Implicit Types s : PeekHandle H.

Definition new (h : H) : PeekHandle H := mkPeek h [].

Definition under {A} (m : M H A) : M (PeekHandle H) A := fun s =>
  let '(r, h) := m (peek_handle s) in (r, mkPeek h (peek_ s)).

Definition set_peek (p : list byte) : M (PeekHandle H) unit := modifyM (fun s => mkPeek (peek_handle s) p).

Definition openForRead : M (PeekHandle H) Z := set_peek [] ;; under dh_openForRead.

Definition skip (len : Z) : M (PeekHandle H) unit :=
  s ← getM;
  if len =? zlen (peek_ s) then set_peek []
  else if len <? zlen (peek_ s) then set_peek (drop (Z.to_nat len) (peek_ s))
  else throwM NotImplemented.

(** [peek(size_t n)] *)
Fixpoint peek_loop (fuel n : nat) : M (PeekHandle H) byte :=
  match fuel with
  | O => liftM NoFuel
  | S f =>
      s ← getM;
      match peek_ s !! n with
      | Some c => mret c
      | None =>
          '(k, bytes) ← under (dh_read 1);
          if negb (k =? 1) then throwM ReadError
          else s ← getM; set_peek (peek_ s ++ bytes) ;; peek_loop f n
      end
  end.

Definition peek (n : nat) : M (PeekHandle H) byte := peek_loop (S (S n)) n.

(** The loop of [peek(void* buffer, size_t size, size_t pos)]. *)
Fixpoint fill_loop (fuel : nat) (last size : Z) : M (PeekHandle H) unit :=
  match fuel with
  | O => liftM NoFuel
  | S f =>
      s ← getM;
      if zlen (peek_ s) <? last then
        '(p, bytes) ← under (dh_read (Z.min (last - zlen (peek_ s)) size));
        if p <? 0 then throwM ReadError
        else if p =? 0 then mret tt
        else s ← getM; set_peek (peek_ s ++ bytes) ;; fill_loop f last size
      else mret tt
  end.

(** [len] is an [int], compared with the [size_t] [pos]. *)
Definition peek_buffer (size pos : Z) : M (PeekHandle H) (Z * list byte) :=
  let last := pos + size in
  fill_loop (S (S (Z.to_nat last))) last size ;;
  s ← getM;
  let len := wrapS 32 (Z.min last (zlen (peek_ s))) in
  assertM (pos <=? wrapU 64 len) ;;
  let len := wrapS 32 (len - pos) in
  bytes ← liftM (memory (peek_ s) (Z.to_nat pos) (Z.to_nat len));
  mret (len, bytes).

Definition read (length : Z) : M (PeekHandle H) (Z * list byte) :=
  s ← getM;
  match peek_ s with
  | [] => under (dh_read length)
  | _ =>
      let k := Z.min (zlen (peek_ s)) length in
      let first := take (Z.to_nat k) (peek_ s) in
      set_peek (drop (Z.to_nat k) (peek_ s)) ;;
      let length := length - k in
      if negb (length =? 0) then
        '(n, bytes) ← under (dh_read length);
        if n <? 0 then throwM ReadError else mret (k + n, first ++ bytes)
      else mret (k, first)
  end.

Definition close : M (PeekHandle H) unit := set_peek [] ;; under dh_close.
Definition seek (off : Z) : M (PeekHandle H) Z := set_peek [] ;; under (dh_seek off).
Definition estimate : M (PeekHandle H) Z := under dh_estimate.
Definition size : M (PeekHandle H) Z := under dh_size.
Definition position : M (PeekHandle H) Z :=
  p ← under dh_position; s ← getM; mret (wrapU 64 (p - zlen (peek_ s))).
Definition peeked : M (PeekHandle H) Z := s ← getM; mret (zlen (peek_ s)).

(** [openForWrite] and [write] are those of [DataHandle]. *)
#[export] Instance handle : DataHandle (PeekHandle H) := {|
  dh_openForRead := openForRead; dh_openForWrite _ := throwM NotImplemented; dh_read := read;
  dh_write _ := throwM NotImplemented; dh_close := close; dh_seek := seek; dh_position := position;
  dh_size := size; dh_estimate := estimate |}.

Context `{!SourceHandle H}.

(** The peeked bytes are the next ones of the content, read ahead. *)
Definition is_readable s (c : list byte) (p : option nat) : Prop :=
  match p with
  | None => readable (peek_handle s) c None /\ zlen c < 2 ^ 62
  | Some p => readable (peek_handle s) c (Some (p + length (peek_ s))%nat) /\ peek_ s `prefix_of` drop p c /\ zlen c < 2 ^ 62
  end.

Lemma under_ok {A} (m : M H A) s a h' : m (peek_handle s) = (Ok a, h') -> under m s = (Ok a, mkPeek h' (peek_ s)).
Proof. intros E. unfold under. by rewrite E. Qed.

(** Reading ahead [n] bytes. *)
Lemma read_ahead s c p n :
  is_readable s c (Some p) -> 0 < n ->
  exists got h', under (dh_read n) s = (Ok (zlen got, got), mkPeek h' (peek_ s)) /\
    got = take (Z.to_nat n) (drop (p + length (peek_ s)) c) /\
    readable h' c (Some (p + length (peek_ s) + length got)%nat) /\
    is_readable (mkPeek h' (peek_ s ++ got)) c (Some p).
Proof.
  intros (Hh & [r Hr] & Hc) Hn. destruct (src_read _ _ _ n Hh Hn) as (h' & E & Hh').
  set (got := take (Z.to_nat n) _) in *. exists got, h'. split_and!; [by apply under_ok|done|done|].
  cbn [is_readable peek_handle peek_]. rewrite length_app, Nat.add_assoc. split_and!; [done| |done].
  assert (Hgot : got = take (Z.to_nat n) r) by (unfold got; by rewrite <- drop_drop, Hr, drop_app_length).
  rewrite Hr, Hgot. apply prefix_app. exists (drop (Z.to_nat n) r). by rewrite take_drop.
Qed.

Lemma lookup_peeked s c p n : is_readable s c (Some p) -> (n < length (peek_ s))%nat -> peek_ s !! n = c !! (p + n)%nat.
Proof. intros (_ & [r Hr] & _) Hn. rewrite <- lookup_drop, Hr. by rewrite lookup_app_l. Qed.

(** Peeking one byte leaves the position where it is. *)
Lemma peek_loop_ok n fuel : forall s c p,
  is_readable s c (Some p) -> (S (S n) <= length (peek_ s) + fuel)%nat -> (0 < fuel)%nat ->
  exists s', peek_loop fuel n s = (match c !! (p + n)%nat with Some b => Ok b | None => Throw ReadError end, s') /\
    is_readable s' c (Some p).
Proof.
  induction fuel as [|fuel IH]; intros s c p Hr Hf Hpos; [lia|]. cbn [peek_loop]. rewrite (M_bind_Ok _ _ _ s s) by done.
  destruct (peek_ s !! n) as [b|] eqn:Eb.
  - pose proof (lookup_lt_Some _ _ _ Eb). rewrite <- (lookup_peeked s c p n Hr) by done. rewrite Eb. by exists s.
  - apply lookup_ge_None in Eb. destruct (read_ahead s c p 1 Hr ltac:(lia)) as (got & h' & E & Hgot & Hh' & Hr').
    rewrite (M_bind_Ok _ _ _ _ _ E). pose proof Hr as (Hh & _ & Hc). pose proof (readable_bound _ _ _ Hh) as Hbound.
    assert (Hl : length got = Nat.min 1 (length c - (p + length (peek_ s)))).
    { rewrite Hgot, length_take, length_drop. done. }
    destruct (Z.eqb_spec (zlen got) 1) as [H1|H1]; cbn [negb].
    + rewrite (M_bind_Ok getM _ _ _ _ eq_refl). cbn [peek_].
      rewrite (M_bind_Ok (set_peek _) _ _ tt (mkPeek h' (peek_ s ++ got))) by done.
      apply (IH (mkPeek h' (peek_ s ++ got)) c p Hr'); cbn [peek_]; rewrite ?length_app; unfold zlen in *; lia.
    + assert (Hnil : got = []) by (apply nil_length_inv; unfold zlen in *; lia). rewrite Hnil, app_nil_r in Hr'.
      rewrite lookup_ge_None_2 by (rewrite Hnil in Hl; cbn [length] in Hl; lia). by eexists.
Qed.

(** Filling the read-ahead up to [last]. *)
Lemma fill_loop_ok last size fuel : forall s c p,
  is_readable s c (Some p) -> 0 < size -> (Z.to_nat last < length (peek_ s) + fuel)%nat -> (0 < fuel)%nat ->
  exists s', fill_loop fuel last size s = (Ok tt, s') /\ is_readable s' c (Some p) /\
    (last <= zlen (peek_ s') \/ peek_ s' = drop p c).
Proof.
  induction fuel as [|fuel IH]; intros s c p Hr Hs Hf Hpos; [lia|]. cbn [fill_loop]. rewrite (M_bind_Ok _ _ _ s s) by done.
  destruct (Z.ltb_spec (zlen (peek_ s)) last) as [Hmore|Hdone]; [|exists s; by split_and!; auto].
  set (n := Z.min _ _). assert (0 < n) by (unfold n; lia).
  destruct (read_ahead s c p n Hr ltac:(lia)) as (got & h' & E & Hgot & Hh' & Hr').
  rewrite (M_bind_Ok _ _ _ _ _ E). pose proof (zlen_nonneg got). destruct (Z.ltb_spec (zlen got) 0); [lia|].
  destruct (Z.eqb_spec (zlen got) 0) as [H0'|H0'].
  - assert (Hnil : got = []) by (apply nil_length_inv; unfold zlen in *; lia). rewrite Hnil, app_nil_r in Hr'.
    eexists. split; [done|]. split; [done|]. right. pose proof Hr as (Hh & [r Er] & _). cbn [peek_].
    rewrite Er. rewrite Hgot in Hnil. rewrite <- drop_drop, Er, drop_app_length in Hnil.
    apply (f_equal length) in Hnil. rewrite length_take in Hnil. destruct r; [by rewrite app_nil_r|simpl in Hnil; lia].
  - rewrite (M_bind_Ok getM _ _ _ _ eq_refl). cbn [peek_].
    rewrite (M_bind_Ok (set_peek _) _ _ tt (mkPeek h' (peek_ s ++ got))) by done.
    apply (IH (mkPeek h' (peek_ s ++ got)) c p Hr' Hs); cbn [peek_]; rewrite ?length_app; unfold zlen in *; lia.
Qed.

Lemma peek_ok s c p n : is_readable s c (Some p) ->
  exists s', peek n s = (match c !! (p + n)%nat with Some b => Ok b | None => Throw ReadError end, s') /\
    is_readable s' c (Some p).
Proof. intros Hr. apply peek_loop_ok; [done|lia..]. Qed.

(** Peeking a range: what there is of it, without moving. *)
Lemma peek_buffer_ok s c p size pos : is_readable s c (Some p) -> 0 < size -> 0 <= pos -> zlen c < 2 ^ 31 ->
  Z.of_nat p + pos <= zlen c ->
  let got := take (Z.to_nat size) (drop (p + Z.to_nat pos) c) in
  exists s', peek_buffer size pos s = (Ok (zlen got, got), s') /\ is_readable s' c (Some p).
Proof.
  intros Hr Hs Hp Hc Hpos got. unfold peek_buffer.
  destruct (fill_loop_ok (pos + size) size (S (S (Z.to_nat (pos + size)))) s c p Hr Hs) as (s1 & E & Hr1 & Hfill); [lia..|].
  rewrite (M_bind_Ok _ _ _ _ _ E), (M_bind_Ok getM _ _ s1 s1 eq_refl).
  pose proof Hr1 as (Hh1 & [r Er] & _). pose proof (readable_bound _ _ _ Hh1) as Hb. unfold zlen in *.
  set (len := Z.min (pos + size) (Z.of_nat (length (peek_ s1)))).
  assert (Hlen : pos <= len < 2 ^ 31).
  { unfold len. split; [|lia]. destruct Hfill as [|Hf]; [lia|]. rewrite Hf, length_drop. lia. }
  assert (Ewrap : forall z, 0 <= z < 2 ^ 31 -> wrapS 32 z = z) by (intros; apply wrapS_id; [lia|apply in_S_spec; lia]).
  rewrite (Ewrap len) by lia. rewrite wrapU_id by (apply in_U_spec; lia).
  destruct (Z.leb_spec pos len); [|lia]. rewrite (M_bind_Ok (assertM true) _ _ tt s1 eq_refl), Ewrap by lia.
  rewrite memory_ok by (unfold len in *; lia). rewrite (M_bind_Ok (liftM (Ok _)) _ _ _ s1 eq_refl).
  assert (Hgot : take (Z.to_nat (len - pos)) (drop (Z.to_nat pos) (peek_ s1)) = got).
  { unfold got. rewrite <- drop_drop, Er. unfold len in *. destruct Hfill as [Hf|Hf].
    - rewrite drop_app_le, take_app_le by (rewrite ?length_drop; lia). f_equal. lia.
    - rewrite Hf in Er. assert (r = []) as ->.
      { apply (f_equal length) in Er. rewrite length_app in Er. apply nil_length_inv. lia. }
      rewrite app_nil_r. destruct (Z.min_spec (pos + size) (Z.of_nat (length (peek_ s1)))) as [[? ->]|[? ->]]; [f_equal; lia|].
      rewrite !take_ge by (rewrite length_drop; lia). done. }
  rewrite Hgot. exists s1. split; [|done]. apply (f_equal length) in Hgot. rewrite length_take, length_drop in Hgot.
  apply (f_equal (fun z => (Ok (z, got), s1))). unfold len in *. lia.
Qed.

Lemma peek_read_ok s c p n : is_readable s c (Some p) -> 0 < n ->
  let got := take (Z.to_nat n) (drop p c) in
  exists s', read n s = (Ok (zlen got, got), s') /\ is_readable s' c (Some (p + length got)%nat).
Proof.
  intros Hr Hn got. pose proof Hr as (Hh & [r Er] & Hc). unfold read. rewrite (M_bind_Ok _ _ _ s s) by done.
  destruct (peek_ s) as [|b0 pk] eqn:Ep.
  { simpl in Hh. rewrite Nat.add_0_r in Hh. destruct (src_read _ _ _ n Hh Hn) as (h' & E & Hh').
    rewrite (under_ok _ _ _ _ E). eexists. split; [done|]. unfold is_readable. cbn [peek_ peek_handle]. rewrite Ep, Nat.add_0_r.
    split_and!; [done|apply prefix_nil|done]. }
  rewrite <- Ep in *. set (k := Z.min (zlen (peek_ s)) n). unfold zlen in k. pose proof (readable_bound _ _ _ Hh) as Hb.
  rewrite (M_bind_Ok (set_peek _) _ _ tt (mkPeek (peek_handle s) (drop (Z.to_nat k) (peek_ s)))) by done.
  fold k. destruct (Z.eqb_spec (n - k) 0) as [Hall|Hmore]; cbn [negb].
  - assert (Hgot : got = take (Z.to_nat k) (peek_ s)).
    { unfold got. rewrite Er, take_app_le by lia. f_equal. lia. }
    rewrite Hgot. eexists. split.
    { apply (f_equal (fun z => (Ok (z, _), _))). unfold zlen. rewrite length_take. lia. }
    rewrite length_take. unfold is_readable. cbn [peek_ peek_handle]. rewrite length_drop. split_and!; [| |done].
    + replace (p + _ + _)%nat with (p + length (peek_ s))%nat by lia. done.
    + rewrite Nat.min_l by lia. rewrite <- drop_drop, Er, drop_app_le by lia. by eexists.
  - assert (Hk : Z.to_nat k = length (peek_ s)) by lia. rewrite Hk, drop_all, firstn_all.
    destruct (src_read (peek_handle s) c _ (n - k) Hh ltac:(lia)) as (h' & E & Hh').
    rewrite (M_bind_Ok _ _ _ _ _ (under_ok _ (mkPeek (peek_handle s) []) _ _ E)).
    set (more := take (Z.to_nat (n - k)) (drop (p + length (peek_ s)) c)) in *. pose proof (zlen_nonneg more). destruct (Z.ltb_spec (zlen more) 0); [lia|].
    assert (Hgot : got = peek_ s ++ more).
    { unfold got, more. rewrite <- drop_drop, Er, drop_app_length, take_app, take_ge by lia. do 2 f_equal. lia. }
    rewrite Hgot. eexists. split; [apply (f_equal (fun z => (Ok (z, _), _))); rewrite zlen_app; unfold zlen; lia|].
    unfold is_readable. cbn [peek_ peek_handle length]. rewrite length_app, Nat.add_0_r, Nat.add_assoc.
    split_and!; [done|apply prefix_nil|done].
Qed.

(** A peek handle over a readable handle is a readable handle with the same content. *)
#[export] Program Instance source : SourceHandle (PeekHandle H) := {| readable := is_readable |}.
Next Obligation. intros s c p (Hh & _). apply readable_bound in Hh. lia. Qed.
Next Obligation.
  intros s c [Hh Hc]. destruct (src_open _ _ Hh) as (h' & E & Hh'). eexists.
  cbn [dh_openForRead handle]. unfold openForRead.
  rewrite (M_bind_Ok (set_peek []) _ _ tt (mkPeek (peek_handle s) [])) by done.
  rewrite (under_ok _ (mkPeek (peek_handle s) []) _ _ E). split; [done|]. by split_and!; [|apply prefix_nil|].
Qed.
Next Obligation. intros s c p n. apply peek_read_ok. Qed.
Next Obligation.
  intros s c p (Hh & _ & Hc). destruct (src_close _ _ _ Hh) as (h' & E & Hh'). eexists.
  cbn [dh_close handle]. unfold close. rewrite (M_bind_Ok (set_peek []) _ _ tt (mkPeek (peek_handle s) [])) by done.
  by rewrite (under_ok _ (mkPeek (peek_handle s) []) _ _ E).
Qed.
Next Obligation.
  intros s c p o (Hh & _ & Hc) Ho. destruct (src_seek _ _ _ o Hh Ho) as (h' & E & Hh'). eexists.
  cbn [dh_seek handle]. unfold seek. rewrite (M_bind_Ok (set_peek []) _ _ tt (mkPeek (peek_handle s) [])) by done.
  rewrite (under_ok _ (mkPeek (peek_handle s) []) _ _ E). split; [done|].
  unfold is_readable. cbn [peek_handle peek_ length]. rewrite Nat.add_0_r. by split_and!; [|apply prefix_nil|].
Qed.
Next Obligation.
  intros s c p (Hh & _ & Hc). cbn [dh_position handle]. unfold position. pose proof (readable_bound _ _ _ Hh).
  rewrite (M_bind_Ok _ _ _ _ _ (under_ok _ _ _ _ (src_position _ _ _ Hh))), (M_bind_Ok getM _ _ _ _ eq_refl).
  destruct s as [h pk]. cbn [peek_ peek_handle] in *. unfold zlen in *.
  rewrite wrapU_id by (apply in_U_spec; lia). apply (f_equal (fun z => (Ok z, _))). lia.
Qed.
Next Obligation.
  intros s c p Hr. assert (Hh : exists q, readable (peek_handle s) c q) by (destruct p; destruct Hr; by eexists).
  destruct Hh as [q Hh]. cbn [dh_estimate handle]. unfold estimate.
  rewrite (under_ok _ _ _ _ (src_estimate _ _ _ Hh)). by destruct s.
Qed.
#[export] Instance sized `{!SizedSource H} : SizedSource (PeekHandle H).
Proof.
  intros s c p Hr. assert (Hh : exists q, readable (peek_handle s) c q) by (destruct p; destruct Hr; by eexists).
  destruct Hh as [q Hh]. cbn [dh_size handle]. unfold size. rewrite (under_ok _ _ _ _ (src_size _ _ _ Hh)). by destruct s.
Qed.
End Peek.
End Peek.

#[local] Existing Instance Peek.handle.
#[local] Existing Instance Peek.source.

(** Histories with peeks between the reads. *)
Inductive peek_op : Type := PeekByte (n : nat) | PeekRange (size pos : Z) | Plain (o : read_op).
Inductive peek_result : Type := PByte (b : byte) | PThrow (e : exn) | PResult (r : read_result).

Definition peek_step {H : Type} `{DataHandle H} (o : peek_op) : M (PeekHandle H) peek_result :=
  match o with
  | PeekByte n => fun s =>
      match Peek.peek n s with
      | (Ok b, s) => (Ok (PByte b), s)
      | (Throw e, s) => (Ok (PThrow e), s)
      | (Undef, s) => (Undef, s)
      | (NoFuel, s) => (NoFuel, s)
      end
  | PeekRange size pos => '(n, b) ← Peek.peek_buffer size pos; mret (PResult (Bytes n b))
  | Plain o => r ← read_step o; mret (PResult r)
  end.

Fixpoint peek_run {H : Type} `{DataHandle H} (os : list peek_op) : M (PeekHandle H) (list peek_result) :=
  match os with [] => mret [] | o :: os => r ← peek_step o; rs ← peek_run os; mret (r :: rs) end.

(** The same on a byte string: peeks do not move the position. *)
Definition flat_peek (c : list byte) (o : peek_op) (p : nat) : peek_result * nat :=
  match o with
  | PeekByte n => (match c !! (p + n)%nat with Some b => PByte b | None => PThrow ReadError end, p)
  | PeekRange size pos =>
      let b := take (Z.to_nat size) (drop (p + Z.to_nat pos) c) in (PResult (Bytes (zlen b) b), p)
  | Plain o => let '(r, p) := flat_step c o p in (PResult r, p)
  end.

Fixpoint flat_peeks (c : list byte) (os : list peek_op) (p : nat) : list peek_result :=
  match os with [] => [] | o :: os => let '(r, p) := flat_peek c o p in r :: flat_peeks c os p end.

(** The range of a peek starts inside the content. *)
Fixpoint peeks_ok (c : list byte) (os : list peek_op) (p : nat) : Prop :=
  match os with
  | [] => True
  | o :: os =>
      match o with
      | PeekByte _ => True
      | PeekRange size pos => 0 < size /\ 0 <= pos /\ Z.of_nat p + pos <= zlen c
      | Plain o => op_ok c o
      end /\ peeks_ok c os (flat_peek c o p).2
  end.

Lemma peek_run_ok {H : Type} `{SourceHandle H} c os : forall (s : PeekHandle H) p,
  Peek.is_readable s c (Some p) -> zlen c < 2 ^ 31 -> peeks_ok c os p ->
  exists s', peek_run os s = (Ok (flat_peeks c os p), s').
Proof.
  induction os as [|o os IH]; intros s p Hr Hc Hos; [by exists s|]. destruct Hos as [Ho Hos].
  assert (Hstep : exists s1, peek_step o s = (Ok (flat_peek c o p).1, s1) /\ Peek.is_readable s1 c (Some (flat_peek c o p).2)).
  { destruct o as [n|size pos|o].
    - destruct (Peek.peek_ok s c p n Hr) as (s1 & E & Hr1). exists s1. cbn [peek_step flat_peek fst snd]. rewrite E.
      by destruct (c !! (p + n)%nat).
    - destruct Ho as (H1' & H2' & H3'). destruct (Peek.peek_buffer_ok s c p size pos Hr H1' H2' Hc H3') as (s1 & E & Hr1).
      exists s1. cbn [peek_step]. by rewrite (M_bind_Ok _ _ _ _ _ E).
    - destruct (read_step_ok (H1 := Peek.source) c o s p Hr Ho) as (s1 & E & Hr1). exists s1.
      cbn [peek_step flat_peek]. rewrite (M_bind_Ok _ _ _ _ _ E). by destruct (flat_step c o p). }
  destruct Hstep as (s1 & E1 & Hr1). destruct (IH s1 _ Hr1 Hc Hos) as (s2 & E2). exists s2.
  cbn [peek_run flat_peeks]. rewrite (M_bind_Ok _ _ _ _ _ E1), (M_bind_Ok _ _ _ _ _ E2). by destruct (flat_peek c o p).
Qed.

(** Peeking is transparent: over a readable handle, peeks of bytes and ranges
    show the bytes ahead of the position (or throw [ReadError] past the end) and
    reads, seeks and positions return what they would without the peeks. *)
Theorem peek_handle_transparent {H : Type} `{SourceHandle H} (h : H) (c : list byte) (os : list peek_op) :
  readable h c None -> zlen c < 2 ^ 31 -> peeks_ok c os 0 ->
  exists n s s', Peek.openForRead (Peek.new h) = (Ok n, s) /\ peek_run os s = (Ok (flat_peeks c os 0), s').
Proof.
  intros Hh Hc Hos.
  destruct (src_open (SourceHandle := Peek.source) (Peek.new h) c) as (s & E & Hr); [split; [done|lia]|].
  destruct (peek_run_ok c os s 0 Hr Hc Hos) as (s' & E'). by exists (zlen c), s, s'.
Qed.

Lemma peek_handle_transparent_witness :
  let junk := fun _ : nat => "000"%byte in
  exists n s s', Peek.openForRead (H0 := MemoryHandle.handle junk) (Peek.new (MemoryHandle.over (str "abcdef") true)) = (Ok n, s) /\
    peek_run (H0 := MemoryHandle.handle junk)
      [PeekByte 2; Plain (Read 1); PeekRange 3 1; Plain (Read 4); Plain Position; PeekByte 1; PeekByte 0] s =
    (Ok [PByte "c"; PResult (Bytes 1 (str "a")); PResult (Bytes 3 (str "cde")); PResult (Bytes 4 (str "bcde"));
         PResult (Offset 5); PThrow ReadError; PByte "f"]%byte, s').
Proof.
  intros junk.
  apply (peek_handle_transparent (H1 := MemoryHandle.source junk) (MemoryHandle.over (str "abcdef") true) (str "abcdef")
    [PeekByte 2; Plain (Read 1); PeekRange 3 1; Plain (Read 4); Plain Position; PeekByte 1; PeekByte 0]).
  - vm_compute. by split_and!.
  - reflexivity.
  - vm_compute. by split_and!.
Defined.
