(* ===== verification/Buffered.v ===== *)
(** * Buffered, doubled and counted handles

    [io/BufferedHandle.cc]: reads and writes through a buffer of fixed size;
    [io/TeeHandle.cc]: one stream of writes to several handles;
    [io/StatsHandle.cc]: counts of the calls made to a handle.  Each works over any
    handle of the interface, and is again a handle of the interface. *)
From S2P Require Import Prelude Stream StreamItems MemoryStream Handles MultiHandle.

(** ** Buffered handle *)

Record BufferedHandle (H : Type) : Type := mkBuffered {
  b_handle : H;
  buffer_ : list byte;
  pos_ : Z;
  b_size : Z;
  used_ : Z;
  eof_ : bool;
  b_read : bool;
  b_position : Z;
  b_opened : bool }.
Arguments mkBuffered {H}.
Arguments b_handle {H}.
Arguments buffer_ {H}.
Arguments pos_ {H}.
Arguments b_size {H}.
Arguments used_ {H}.
Arguments eof_ {H}.
Arguments b_read {H}.
Arguments b_position {H}.
Arguments b_opened {H}.

Module Buffered.
Section Buffered.
Context {H : Type} `{DataHandle H} (junk : nat -> byte).
Implicit Types s : BufferedHandle H.

Definition new (h : H) (size : Z) (opened : bool) : BufferedHandle H :=
  mkBuffered h (allocate junk (Z.to_nat size)) 0 size 0 false false 0 opened.

Definition under {A} (m : M H A) : M (BufferedHandle H) A := fun s =>
  let '(r, h) := m (b_handle s) in
  (r, mkBuffered h (buffer_ s) (pos_ s) (b_size s) (used_ s) (eof_ s) (b_read s) (b_position s) (b_opened s)).

Definition set_window (pos used : Z) (eof : bool) s : BufferedHandle H :=
  mkBuffered (b_handle s) (buffer_ s) pos (b_size s) used eof (b_read s) (b_position s) (b_opened s).
Definition set_buffer (b : list byte) s : BufferedHandle H :=
  mkBuffered (b_handle s) b (pos_ s) (b_size s) (used_ s) (eof_ s) (b_read s) (b_position s) (b_opened s).
Definition set_read (r : bool) s : BufferedHandle H :=
  mkBuffered (b_handle s) (buffer_ s) (pos_ s) (b_size s) (used_ s) (eof_ s) r (b_position s) (b_opened s).
Definition set_position (p : Z) s : BufferedHandle H :=
  mkBuffered (b_handle s) (buffer_ s) (pos_ s) (b_size s) (used_ s) (eof_ s) (b_read s) p (b_opened s).

Definition openForRead : M (BufferedHandle H) Z :=
  modifyM (fun s => set_position 0 (set_window 0 0 false (set_read true s))) ;;
  s ← getM;
  if b_opened s then under dh_estimate else under dh_openForRead.

Definition openForWrite (length : Z) : M (BufferedHandle H) unit :=
  modifyM (fun s => set_position 0 (set_window 0 (used_ s) (eof_ s) (set_read false s))) ;;
  under (dh_openForWrite length).

Definition openForAppend (length : Z) : M (BufferedHandle H) unit := throwM NotImplemented.

Definition seek (off : Z) : M (BufferedHandle H) Z :=
  modifyM (set_window 0 0 false) ;;
  p ← under (dh_seek off);
  modifyM (set_position p) ;;
  mret p.

Definition position : M (BufferedHandle H) Z := s ← getM; mret (b_position s).

Definition skip (len : Z) : M (BufferedHandle H) unit :=
  s ← getM;
  assertM (b_read s) ;;
  let left := wrapU 64 (used_ s - pos_ s) in
  let n := wrapU 64 len in
  if n <? left then putM (set_position (b_position s + n) (set_window (pos_ s + n) (used_ s) (eof_ s) s))
  else p ← position; _ ← seek (p + len); mret tt.

(** The end of [read]: the bytes copied so far are counted and returned. *)
Definition finish (len : Z) (out : list byte) : M (BufferedHandle H) (Z * list byte) :=
  modifyM (fun s => if 0 <? len then set_position (b_position s + len) s else s) ;;
  mret (len, out).

(** Filling the buffer; [false] at the end of the handle. *)
Definition fill : M (BufferedHandle H) bool :=
  s ← getM;
  '(n, bytes) ← under (dh_read (b_size s));
  b ← liftM (memcpy (buffer_ s) 0 bytes);
  modifyM (set_buffer b) ;;
  let used := wrapU 64 n in
  modifyM (fun s => set_window 0 used (if used <=? 0 then true else eof_ s) s) ;;
  mret (negb (used <=? 0)).

Fixpoint read_loop (fuel : nat) (length len size : Z) (out : list byte) : M (BufferedHandle H) (Z * list byte) :=
  match fuel with
  | O => liftM NoFuel
  | S f =>
      s ← getM;
      if (len <? length) && negb (eof_ s) then
        let left := used_ s - pos_ s in
        assertM (0 <=? left) ;;
        more ← (if (left =? 0) && negb (eof_ s) then fill else mret true);
        if negb more then finish len out
        else
          s ← getM;
          let left := used_ s - pos_ s in
          let n := if size <? left then size else left in
          bytes ← liftM (memory (buffer_ s) (Z.to_nat (pos_ s)) (Z.to_nat n));
          let len := len + n in
          assertM (len <=? length) ;;
          modifyM (fun s => set_window (pos_ s + n) (used_ s) (eof_ s) s) ;;
          s ← getM;
          assertM (pos_ s <=? used_ s) ;;
          let size := size - n in
          assertM (0 <=? size) ;;
          read_loop f length len size (out ++ bytes)
      else finish len out
  end.

Definition read (length : Z) : M (BufferedHandle H) (Z * list byte) :=
  s ← getM;
  assertM (b_read s) ;;
  if eof_ s then mret (0, []) else read_loop (S (Z.to_nat length)) length 0 length [].

Definition bufferFlush : M (BufferedHandle H) unit :=
  s ← getM;
  if negb (pos_ s =? 0) then
    bytes ← liftM (memory (buffer_ s) 0 (Z.to_nat (pos_ s)));
    len ← under (dh_write bytes);
    s ← getM;
    assertM (wrapU 64 len =? pos_ s) ;;
    modifyM (fun s => set_window 0 (used_ s) (eof_ s) s)
  else mret tt.

Fixpoint write_loop (fuel : nat) (buffer : list byte) (written length : Z) : M (BufferedHandle H) Z :=
  match fuel with
  | O => liftM NoFuel
  | S f =>
      if 0 <? length then
        s ← getM;
        let left := b_size s - pos_ s in
        assertM (0 <? left) ;;
        let len := Z.min left length in
        assertM (0 <? len) ;;
        bytes ← liftM (memory buffer (Z.to_nat written) (Z.to_nat len));
        b ← liftM (memcpy (buffer_ s) (Z.to_nat (pos_ s)) bytes);
        modifyM (fun s => set_window (pos_ s + len) (used_ s) (eof_ s) (set_buffer b s)) ;;
        let written := written + len in
        let length := length - len in
        assertM (0 <=? length) ;;
        s ← getM;
        assertM (pos_ s <=? b_size s) ;;
        (if pos_ s =? b_size s then bufferFlush else mret tt) ;;
        write_loop f buffer written length
      else mret written
  end.

Definition write (buffer : list byte) : M (BufferedHandle H) Z :=
  s ← getM;
  assertM (negb (b_read s)) ;;
  written ← write_loop (S (length buffer)) buffer 0 (zlen buffer);
  modifyM (fun s => set_position (b_position s + written) s) ;;
  mret written.

Definition close : M (BufferedHandle H) unit :=
  s ← getM;
  (if negb (b_read s) then bufferFlush else mret tt) ;;
  under dh_close.

Definition estimate : M (BufferedHandle H) Z := under dh_estimate.

(** [size] is that of [DataHandle]. *)
#[export] Instance handle : DataHandle (BufferedHandle H) := {|
  dh_openForRead := openForRead; dh_openForWrite := openForWrite; dh_read := read; dh_write := write;
  dh_close := close; dh_seek := seek; dh_position := position; dh_size := throwM NotImplemented; dh_estimate := estimate |}.

Lemma buffered_under_ok {A} (m : M H A) s a h' : m (b_handle s) = (Ok a, h') ->
  under m s = (Ok a, mkBuffered h' (buffer_ s) (pos_ s) (b_size s) (used_ s) (eof_ s) (b_read s) (b_position s) (b_opened s)).
Proof. intros E. unfold under. by rewrite E. Qed.

(** The buffer has its size. *)
Definition sized s : Prop := 0 < b_size s < 2 ^ 62 /\ zlen (buffer_ s) = b_size s.

Section Reading.
Context `{!SourceHandle H}.

(** The next byte for the caller is at [p], the next one of the handle at [q]; the buffer
    has the bytes between. *)
Record window s (c : list byte) (p q : nat) : Prop := {
  w_sized : sized s;
  w_read : b_read s = true;
  w_under : readable (b_handle s) c (Some q);
  w_bounds : 0 <= pos_ s <= used_ s /\ used_ s <= b_size s;
  w_length : used_ s - pos_ s = Z.of_nat q - Z.of_nat p;
  w_bytes : take (q - p) (drop (Z.to_nat (pos_ s)) (buffer_ s)) = take (q - p) (drop p c);
  w_eof : eof_ s = true -> p = length c;
  w_small : zlen c < 2 ^ 62 }.

Lemma buffered_fill_ok s c p : window s c p p -> eof_ s = false -> exists s' q,
  fill s = (Ok (bool_decide (p < length c)%nat), s') /\ window s' c p q /\ b_position s' = b_position s /\ b_opened s' = b_opened s /\
  (eof_ s' = negb (bool_decide (p < length c)%nat)) /\ ((p < length c)%nat -> (p < q)%nat).
Proof.
  intros [[Hsz Hlen] Hr Hu Hb Hl _ He Hc] Hne. pose proof (readable_bound _ _ _ Hu) as Hp.
  destruct (src_read _ _ _ (b_size s) Hu ltac:(lia)) as (h' & E & Hu'). set (got := take _ _) in *.
  assert (Hg : length got = Nat.min (Z.to_nat (b_size s)) (length c - p)) by (unfold got; rewrite length_take, length_drop; lia).
  unfold fill. rewrite M_bind_get. rewrite (M_bind_Ok _ _ _ _ _ (buffered_under_ok _ _ _ _ E)).
  rewrite memcpy_ok by (unfold zlen in *; lia). rewrite M_bind_lift, !M_bind_modify. unfold set_window, set_buffer. cbn.
  assert (Ew : wrapU 64 (zlen got) = zlen got) by (apply Z.mod_small; unfold zlen in *; lia). rewrite Ew.
  assert (Et : (zlen got <=? 0) = negb (bool_decide (p < length c)%nat)).
  { unfold zlen. case_bool_decide; simpl; lia. }
  rewrite Et. eexists _, (p + length got)%nat. rewrite negb_involutive. split; [done|]. cbn. split_and!; try done; [|destruct (bool_decide _); done|lia].
  split; cbn; unfold sized, zlen in *; cbn; rewrite ?length_memcpy_at by lia; try done; try lia.
  - replace (p + length got - p)%nat with (length got) by lia. rewrite drop_0. pose proof (take_memcpy_at (buffer_ s) 0 got ltac:(lia)) as Em. simpl in Em. rewrite Em. symmetry. apply MemoryHandle.take_length_of_take.
  - case_bool_decide; simpl; [congruence|lia].
Qed.

(** Taking [n] bytes out of the buffer. *)
Lemma advance s c p q n : window s c p q -> 0 <= n <= used_ s - pos_ s -> eof_ s = false \/ n = 0 ->
  memory (buffer_ s) (Z.to_nat (pos_ s)) (Z.to_nat n) = Ok (take (Z.to_nat n) (drop p c)) /\
  window (set_window (pos_ s + n) (used_ s) (eof_ s) s) c (p + Z.to_nat n) q.
Proof.
  intros [[Hsz Hlen] Hr Hu Hb Hl Hby He Hc] Hn Hne. pose proof (readable_bound _ _ _ Hu) as Hq. split.
  - rewrite memory_ok by (unfold zlen in *; lia). f_equal.
    apply (f_equal (take (Z.to_nat n))) in Hby. by rewrite !take_take, !Nat.min_l in Hby by lia.
  - split; unfold set_window; cbn; try done; try lia.
    + apply (f_equal (drop (Z.to_nat n))) in Hby. rewrite !skipn_firstn_comm, !drop_drop in Hby.
      replace (q - (p + Z.to_nat n))%nat with (q - p - Z.to_nat n)%nat by lia. replace (Z.to_nat (pos_ s + n)) with (Z.to_nat (pos_ s) + Z.to_nat n)%nat by lia. done.
    + intros Ee. destruct Hne as [|Hne]; [congruence|]. rewrite Hne in *. rewrite Nat.add_0_r. by apply He.
Qed.

#[local] Ltac nothing := cbv zeta; unfold zlen; cbn [Z.to_nat take List.length Z.of_nat]; rewrite Z.add_0_r, app_nil_r, Nat.add_0_r; done.

Lemma buffered_read_loop_ok fuel : forall s c p q length len size out,
  window s c p q -> 0 <= size -> len + size = length -> 0 <= len -> size < Z.of_nat fuel ->
  exists s' q', let got := take (Z.to_nat size) (drop p c) in
    read_loop fuel length len size out s = finish (len + zlen got) (out ++ got) s' /\
    window s' c (p + List.length got) q' /\ b_position s' = b_position s /\ b_opened s' = b_opened s.
Proof.
  induction fuel as [|fuel IH]; intros s c p q length len size out Hw Hs Hl Hlen Hf; [lia|].
  cbn [read_loop]. rewrite M_bind_get. pose proof (readable_bound _ _ _ (w_under _ _ _ _ Hw)) as Hq.
  pose proof (w_bounds _ _ _ _ Hw) as Hb. pose proof (w_length _ _ _ _ Hw) as Hwl.
  destruct (Z.ltb_spec len length) as [Hlt|Hge]; cbn [andb].
  2: { assert (size = 0) as -> by lia. exists s, q. nothing. }
  destruct (eof_ s) eqn:Ee; cbn [negb].
  { exists s, q. assert (E : drop p c = []) by (apply drop_ge; rewrite (w_eof _ _ _ _ Hw Ee); lia). rewrite E, take_nil.
    nothing. }
  rewrite (proj2 (Z.leb_le 0 _)) by lia. rewrite (M_bind_Ok (assertM true) _ s tt s) by done. rewrite andb_true_r.
  (* the buffer has bytes, or the handle has none *)
  assert (Hstep : exists s1 q1, (if used_ s - pos_ s =? 0 then fill else mret true) s = (Ok (bool_decide (p < List.length c)%nat), s1) /\
    window s1 c p q1 /\ b_position s1 = b_position s /\ b_opened s1 = b_opened s /\ eof_ s1 = negb (bool_decide (p < List.length c)%nat) /\
    ((p < List.length c)%nat -> (p < q1)%nat)).
  { destruct (Z.eqb_spec (used_ s - pos_ s) 0) as [E0|E0].
    - assert (q = p) as -> by lia. by apply buffered_fill_ok.
    - rewrite bool_decide_eq_true_2 by lia. exists s, q. split_and!; try done. lia. }
  destruct Hstep as (s1 & q1 & E1 & Hw1 & Hp1 & Ho1 & He1 & Hpq). rewrite (M_bind_Ok _ _ _ _ _ E1).
  case_bool_decide as Hpc; cbn [negb] in *.
  2: { exists s1, q1. assert (E : drop p c = []) by (apply drop_ge; lia). rewrite E, take_nil. nothing. }
  rewrite M_bind_get. pose proof (w_length _ _ _ _ Hw1) as Hwl1. pose proof (w_bounds _ _ _ _ Hw1) as Hb1.
  pose proof (readable_bound _ _ _ (w_under _ _ _ _ Hw1)) as Hq1. specialize (Hpq Hpc).
  set (n := if size <? used_ s1 - pos_ s1 then size else used_ s1 - pos_ s1).
  assert (Hn : 0 < n <= used_ s1 - pos_ s1 /\ n <= size) by (subst n; destruct (Z.ltb_spec size (used_ s1 - pos_ s1)); lia).
  destruct (advance s1 c p q1 n Hw1 ltac:(lia) ltac:(by left)) as [Em Hw2]. rewrite Em, M_bind_lift.
  rewrite (proj2 (Z.leb_le _ length)) by lia. rewrite (M_bind_Ok (assertM true) _ s1 tt s1), M_bind_modify, M_bind_get by done.
  set (s2 := set_window _ _ _ s1) in *. pose proof (w_bounds _ _ _ _ Hw2) as Hb2.
  rewrite (proj2 (Z.leb_le (pos_ s2) _)) by lia. rewrite (M_bind_Ok (assertM true) _ s2 tt s2) by done.
  rewrite (proj2 (Z.leb_le 0 _)) by lia. rewrite (M_bind_Ok (assertM true) _ s2 tt s2) by done.
  destruct (IH s2 c (p + Z.to_nat n)%nat q1 length (len + n) (size - n) (out ++ take (Z.to_nat n) (drop p c)) Hw2)
    as (s3 & q3 & E3 & Hw3 & Hp3 & Ho3); try lia.
  exists s3, q3. cbv zeta in *.
  assert (Eg : take (Z.to_nat size) (drop p c) = take (Z.to_nat n) (drop p c) ++ take (Z.to_nat (size - n)) (drop (p + Z.to_nat n) c)).
  { rewrite <- drop_drop, take_take_drop. f_equal. lia. }
  assert (Hln : List.length (take (Z.to_nat n) (drop p c)) = Z.to_nat n) by (rewrite length_take, length_drop; lia).
  rewrite Eg, E3, zlen_app, length_app, Hln. unfold zlen at 2. rewrite Hln, Z2Nat.id by lia.
  rewrite <- app_assoc, Z.add_assoc, Nat.add_assoc. split_and!; [done|done|by rewrite Hp3|by rewrite Ho3].
Qed.

Definition is_readable s (c : list byte) (p : option nat) : Prop :=
  match p with
  | None => sized s /\ readable (b_handle s) c None /\ b_opened s = false /\ zlen c < 2 ^ 62
  | Some p => b_position s = Z.of_nat p /\ b_opened s = false /\ exists q, window s c p q
  end.

Lemma buffered_read_ok s c p n : is_readable s c (Some p) -> 0 < n ->
  let got := take (Z.to_nat n) (drop p c) in
  exists s', read n s = (Ok (zlen got, got), s') /\ is_readable s' c (Some (p + length got)%nat).
Proof.
  intros (Hp & Ho & q & Hw) Hn got. unfold read. rewrite M_bind_get, (w_read _ _ _ _ Hw).
  rewrite (M_bind_Ok (assertM true) _ s tt s) by done. destruct (eof_ s) eqn:Ee.
  - assert (E : got = []) by (unfold got; rewrite (drop_ge c), take_nil; [done|]; rewrite (w_eof _ _ _ _ Hw Ee); lia).
    rewrite E. exists s. split; [done|]. cbn [length]. rewrite Nat.add_0_r. split_and!; try done. by exists q.
  - destruct (buffered_read_loop_ok (S (Z.to_nat n)) s c p q n 0 n [] Hw) as (s' & q' & E & Hw' & Hp' & Ho'); try lia.
    fold got in E, Hw'. rewrite E. unfold finish. rewrite M_bind_modify, Z.add_0_l. eexists. split; [done|].
    destruct (Z.ltb_spec 0 (zlen got)).
    + split_and!; [unfold set_position, zlen in *; cbn; lia|cbn; congruence|]. exists q'. destruct Hw' as [? ? ? ? ? ? ? ?]. by split.
    + split_and!; [unfold zlen in *; lia|congruence|by exists q'].
Qed.

(** A buffered handle over a readable handle is a readable handle. *)
#[export] Program Instance source : SourceHandle (BufferedHandle H) := {| readable := is_readable |}.
Next Obligation. intros s c p (_ & _ & q & Hw). pose proof (readable_bound _ _ _ (w_under _ _ _ _ Hw)). pose proof (w_length _ _ _ _ Hw). pose proof (w_bounds _ _ _ _ Hw). lia. Qed.
Next Obligation.
  intros s c (Hs & Hh & Ho & Hc). destruct (src_open _ _ Hh) as (h' & E & Hh'). cbn [dh_openForRead handle]. unfold openForRead.
  rewrite M_bind_modify, M_bind_get. cbn [b_opened set_position set_window set_read]. rewrite Ho.
  erewrite buffered_under_ok by exact E. eexists. split; [done|]. split_and!; try done. exists 0%nat. split; cbn; try done.
  destruct Hs. lia.
Qed.
Next Obligation. intros s c p n. apply buffered_read_ok. Qed.
Next Obligation.
  intros s c p (Hp & Ho & q & Hw). destruct (src_close _ _ _ (w_under _ _ _ _ Hw)) as (h' & E & Hh'). cbn [dh_close handle]. unfold close.
  rewrite M_bind_get, (w_read _ _ _ _ Hw). cbn [negb]. rewrite M_bind_ret, (buffered_under_ok _ _ _ _ E). eexists. split; [done|].
  destruct Hw as [Hs ? ? ? ? ? ? ?]. split_and!; try done.
Qed.
Next Obligation.
  intros s c p o (Hp & Ho & q & Hw) Hoff. destruct (src_seek _ _ _ o (w_under _ _ _ _ Hw) Hoff) as (h' & E & Hh').
  cbn [dh_seek handle]. unfold seek. rewrite M_bind_modify.
  rewrite (M_bind_Ok _ _ _ _ _ (buffered_under_ok _ (set_window 0 0 false s) _ _ E)), M_bind_modify. eexists. split; [done|].
  destruct Hw as [[? ?] ? ? ? ? ? ? ?]. split_and!; [cbn; lia|done|]. exists (Z.to_nat o). split; cbn; try done; try lia. by rewrite Nat.sub_diag.
Qed.
Next Obligation. intros s c p (Hp & _). cbn [dh_position handle]. unfold position. by rewrite M_bind_get, Hp. Qed.
Next Obligation.
  intros s c p Hr. assert (Hh : exists q, readable (b_handle s) c q) by (destruct p as [p|]; [destruct Hr as (_ & _ & q & Hw); exists (Some q); apply Hw|exists None; apply Hr]).
  destruct Hh as [q Hh]. cbn [dh_estimate handle]. unfold estimate. rewrite (buffered_under_ok _ _ _ _ (src_estimate _ _ _ Hh)). by destruct s.
Qed.
End Reading.

Section Writing.
Context `{!SinkHandle H}.
#[local] Arguments memcpy_at : simpl never.

(** The handle has [out1], the buffer [out2]. *)
Record pending s (out1 out2 : list byte) (room : nat) : Prop := {
  pd_sized : sized s;
  pd_read : b_read s = false;
  pd_under : writable (b_handle s) true out1 (room + length out2);
  pd_pos : pos_ s = zlen out2 /\ zlen out2 <= b_size s;
  pd_bytes : take (length out2) (buffer_ s) = out2 }.

Definition is_writable s (open : bool) (out : list byte) (room : nat) : Prop :=
  if open then exists out1 out2, out = out1 ++ out2 /\ pending s out1 out2 room /\ zlen out2 < b_size s
  else sized s /\ writable (b_handle s) false out room.

Lemma bufferFlush_ok s out1 out2 room : pending s out1 out2 room ->
  exists s', bufferFlush s = (Ok tt, s') /\ pending s' (out1 ++ out2) [] room.
Proof.
  intros [[Hsz Hl] Hr Hu [Hp Hps] Hb]. unfold bufferFlush. rewrite M_bind_get. destruct (Z.eqb_spec (pos_ s) 0) as [E0|E0]; cbn [negb].
  - assert (out2 = []) as -> by (destruct out2; [done|unfold zlen in *; simpl in *; lia]). exists s. split; [done|]. rewrite app_nil_r. split; try done.
  - rewrite memory_ok by (unfold zlen in *; lia). rewrite M_bind_lift, drop_0.
    replace (Z.to_nat (pos_ s)) with (length out2) by (unfold zlen in *; lia). rewrite Hb.
    destruct (snk_write _ _ _ out2 Hu ltac:(lia)) as (h' & E & Hu').
    rewrite (M_bind_Ok _ _ _ _ _ (buffered_under_ok _ _ _ _ E)), M_bind_get. cbn [pos_].
    assert (Ew : wrapU 64 (zlen out2) = zlen out2) by (apply Z.mod_small; unfold zlen in *; lia).
    rewrite Ew, Hp, Z.eqb_refl. rewrite (M_bind_Ok (assertM true) _ _ tt _ eq_refl). eexists. split; [done|].
    split; cbn; try done; [|unfold zlen in *; simpl; lia]. by replace (room + 0)%nat with (room + length out2 - length out2)%nat by lia.
Qed.

Lemma buffered_write_loop_ok fuel : forall s bs written out1 out2 room,
  pending s out1 out2 (room + (length bs - written)) -> zlen out2 < b_size s -> (written <= length bs)%nat -> (length bs - written < fuel)%nat ->
  exists s' out1' out2', write_loop fuel bs (Z.of_nat written) (zlen bs - Z.of_nat written) s = (Ok (zlen bs), s') /\
    pending s' out1' out2' room /\ zlen out2' < b_size s' /\ out1' ++ out2' = out1 ++ out2 ++ drop written bs.
Proof.
  induction fuel as [|fuel IH]; intros s bs written out1 out2 room Hpd Hlt Hw Hf; [lia|]. cbn [write_loop].
  destruct (Z.ltb_spec 0 (zlen bs - Z.of_nat written)) as [Hpos|Hpos].
  2: { assert (written = length bs) as -> by (unfold zlen in *; lia). exists s, out1, out2. rewrite Nat.sub_diag, Nat.add_0_r in Hpd.
       rewrite drop_ge, app_nil_r by lia. unfold zlen. done. }
  pose proof Hpd as [[Hsz Hl] Hr Hu [Hp Hps] Hb]. rewrite M_bind_get. rewrite (proj2 (Z.ltb_lt 0 (b_size s - pos_ s))) by lia.
  rewrite (M_bind_Ok (assertM true) _ _ tt _ eq_refl). set (len := Z.min (b_size s - pos_ s) (zlen bs - Z.of_nat written)).
  assert (Hlen : 0 < len <= b_size s - pos_ s /\ len <= zlen bs - Z.of_nat written) by lia.
  rewrite (proj2 (Z.ltb_lt 0 len)) by lia. rewrite (M_bind_Ok (assertM true) _ _ tt _ eq_refl).
  rewrite Nat2Z.id, memory_ok by (unfold zlen in *; lia). rewrite M_bind_lift. set (part := take _ _).
  assert (Hpl : length part = Z.to_nat len) by (unfold part; rewrite length_take, length_drop; unfold zlen in *; lia).
  replace (Z.to_nat (pos_ s)) with (length out2) by (unfold zlen in *; lia).
  rewrite memcpy_ok by (unfold zlen in *; lia). rewrite M_bind_lift, M_bind_modify.
  rewrite (proj2 (Z.leb_le 0 (_ - len))) by lia. rewrite (M_bind_Ok (assertM true) _ _ tt _ eq_refl), M_bind_get.
  cbn [pos_ b_size set_window set_buffer]. rewrite (proj2 (Z.leb_le _ (b_size s))) by lia. rewrite (M_bind_Ok (assertM true) _ _ tt _ eq_refl).
  set (s1 := set_window _ _ _ _).
  assert (Hpd1 : pending s1 out1 (out2 ++ part) (room + (length bs - (written + Z.to_nat len)))).
  { split; cbn; try done.
    - unfold sized, s1; cbn. split; [done|]. unfold zlen in *. rewrite length_memcpy_at by lia. lia.
    - rewrite length_app, Hpl. replace (room + (length bs - (written + Z.to_nat len)) + (length out2 + Z.to_nat len))%nat
        with (room + (length bs - written) + length out2)%nat by (unfold zlen in *; lia). done.
    - rewrite zlen_app. unfold zlen in *. lia.
    - rewrite length_app, take_memcpy_at by (unfold zlen in *; lia). by rewrite Hb. }
  assert (Hstep : exists s2 o1 o2, (if pos_ s + len =? b_size s then bufferFlush else mret tt) s1 = (Ok tt, s2) /\
    pending s2 o1 o2 (room + (length bs - (written + Z.to_nat len))) /\ zlen o2 < b_size s2 /\ o1 ++ o2 = out1 ++ out2 ++ part).
  { destruct (Z.eqb_spec (pos_ s + len) (b_size s)).
    - destruct (bufferFlush_ok _ _ _ _ Hpd1) as (s2 & E2 & Hpd2). exists s2, (out1 ++ out2 ++ part), [].
      split_and!; [done|done|destruct Hpd2 as [[? _] _ _ _ _]; change (zlen []) with 0; lia|by rewrite app_nil_r].
    - exists s1, out1, (out2 ++ part). split_and!; [done|done| |done]. rewrite zlen_app. cbn. unfold zlen in *. lia. }
  destruct Hstep as (s2 & o1 & o2 & E2 & Hpd2 & Hlt2 & Ho). rewrite (M_bind_Ok _ _ _ _ _ E2).
  replace (Z.of_nat written + len) with (Z.of_nat (written + Z.to_nat len)) by lia.
  replace (zlen bs - Z.of_nat written - len) with (zlen bs - Z.of_nat (written + Z.to_nat len)) by lia.
  destruct (IH s2 bs (written + Z.to_nat len)%nat o1 o2 room Hpd2 Hlt2) as (s3 & p1 & p2 & E3 & Hpd3 & Hlt3 & Ho3); try (unfold zlen in *; lia).
  exists s3, p1, p2. split_and!; try done. rewrite Ho3, app_assoc, Ho. rewrite <- !app_assoc. do 2 f_equal.
  unfold part. rewrite <- drop_drop. apply take_drop.
Qed.

Lemma buffered_write_ok s out room bs : is_writable s true out room -> (length bs <= room)%nat ->
  exists s', write bs s = (Ok (zlen bs), s') /\ is_writable s' true (out ++ bs) (room - length bs).
Proof.
  intros (out1 & out2 & -> & Hpd & Hlt) Hroom. unfold write. rewrite M_bind_get, (pd_read _ _ _ _ Hpd).
  cbn [negb]. rewrite (M_bind_Ok (assertM true) _ _ tt _ eq_refl).
  destruct (buffered_write_loop_ok (S (length bs)) s bs 0 out1 out2 (room - length bs)) as (s' & o1 & o2 & E & Hpd' & Hlt' & Ho); try done; try lia.
  { by replace (room - length bs + (length bs - 0))%nat with room by lia. }
  rewrite Z.sub_0_r in E. rewrite (M_bind_Ok _ _ _ _ _ E), M_bind_modify. eexists. split; [done|].
  exists o1, o2. rewrite Ho, <- app_assoc. split; [done|]. split; [|done]. by destruct Hpd' as [? ? ? ? ?].
Qed.

(** A buffered handle over a writable handle is a writable handle: what has been written
    when it is closed is in the handle. *)
#[export] Program Instance sink : SinkHandle (BufferedHandle H) := {| writable := is_writable |}.
Next Obligation.
  intros s n room Hn [Hs Hw]. destruct (snk_open _ _ _ Hn Hw) as (h' & E & Hw'). cbn [dh_openForWrite handle]. unfold openForWrite.
  rewrite M_bind_modify. erewrite buffered_under_ok by exact E. eexists. split; [done|]. exists [], []. split; [done|].
  pose proof Hs as [? _]. split; [|unfold zlen; simpl; lia]. split; cbn; rewrite ?Nat.add_0_r; try done; unfold zlen; simpl; lia.
Qed.
Next Obligation. intros s out room bs. apply buffered_write_ok. Qed.
Next Obligation.
  intros s out room (out1 & out2 & -> & Hpd & Hlt). cbn [dh_close handle]. unfold close. rewrite M_bind_get, (pd_read _ _ _ _ Hpd). cbn [negb].
  destruct (bufferFlush_ok _ _ _ _ Hpd) as (s' & E & [Hs _ Hu _ _]). rewrite (M_bind_Ok _ _ _ _ _ E).
  rewrite Nat.add_0_r in Hu. destruct (snk_close _ _ _ Hu) as (h' & E' & Hu'). rewrite (buffered_under_ok _ _ _ _ E'). eexists. split; [done|]. by split.
Qed.
End Writing.
End Buffered.
End Buffered.

(** ** Tee handle *)

Record TeeHandle (H : Type) : Type := mkTee { tee_datahandles_ : list H }.
Arguments mkTee {H}.
Arguments tee_datahandles_ {H}.

Module Tee.
Section Tee.
Context {H : Type} `{DataHandle H}.
Implicit Types (s : TeeHandle H) (hs : list H).

Definition add (h : H) s : TeeHandle H := mkTee (tee_datahandles_ s ++ [h]).

(** A loop over the handles; a handle that throws stops it. *)
Fixpoint each {S} (body : S -> M H S) (acc : S) hs : outcome S * list H :=
  match hs with
  | [] => (Ok acc, [])
  | h :: hs =>
      match body acc h with
      | (Ok acc, h') => let '(r, hs') := each body acc hs in (r, h' :: hs')
      | (Throw e, h') => (Throw e, h' :: hs)
      | (Undef, h') => (Undef, h' :: hs)
      | (NoFuel, h') => (NoFuel, h' :: hs)
      end
  end.
Definition for_each {S} (body : S -> M H S) (acc : S) : M (TeeHandle H) S := fun s =>
  let '(r, hs) := each body acc (tee_datahandles_ s) in (r, mkTee hs).

Definition openForWrite (length : Z) : M (TeeHandle H) unit := for_each (fun _ => dh_openForWrite length) tt.

(** The index and the length that the last handle has taken. *)
Definition write_one (buffer : list byte) (acc : nat * Z) : M H (nat * Z) :=
  l ← dh_write buffer;
  (if decide (acc.1 <> 0%nat) then assertM (acc.2 =? l) else mret tt) ;;
  mret (S acc.1, l).
Definition write (buffer : list byte) : M (TeeHandle H) Z :=
  '(_, len) ← for_each (write_one buffer) (0%nat, 0); mret len.

Definition close : M (TeeHandle H) unit := for_each (fun _ => dh_close) tt.

#[export] Instance handle : DataHandle (TeeHandle H) := {|
  dh_openForRead := throwM NotImplemented; dh_openForWrite := openForWrite; dh_read _ := throwM NotImplemented; dh_write := write;
  dh_close := close; dh_seek _ := throwM NotImplemented; dh_position := throwM NotImplemented; dh_size := throwM NotImplemented;
  dh_estimate := mret 0 |}.

Context `{!SinkHandle H}.

Definition is_writable (k : nat) s (open : bool) (out : list byte) (room : nat) : Prop :=
  (length (tee_datahandles_ s) = S k) /\ Forall (fun h => writable h open out room) (tee_datahandles_ s).

Lemma each_ok {S} (P Q : H -> Prop) (I : S -> Prop) body hs :
  (forall acc h, I acc -> P h -> exists acc' h', body acc h = (Ok acc', h') /\ I acc' /\ Q h') ->
  forall acc, I acc -> Forall P hs -> exists acc' hs', each body acc hs = (Ok acc', hs') /\ I acc' /\ Forall Q hs' /\ length hs' = length hs.
Proof.
  intros Hb. induction hs as [|h hs IH]; intros acc Ha Hp; [by exists acc, []|]. apply Forall_cons in Hp as [Hh Hp].
  destruct (Hb acc h Ha Hh) as (a1 & h1 & E1 & Ha1 & Hq). destruct (IH a1 Ha1 Hp) as (a2 & hs2 & E2 & Ha2 & Hq2 & Hl).
  exists a2, (h1 :: hs2). cbn [each]. rewrite E1, E2. split_and!; [done|done|by constructor|simpl; lia].
Qed.

Lemma for_each_ok {S} (P Q : H -> Prop) (I : S -> Prop) body s acc :
  (forall acc h, I acc -> P h -> exists acc' h', body acc h = (Ok acc', h') /\ I acc' /\ Q h') ->
  I acc -> Forall P (tee_datahandles_ s) ->
  exists acc' s', for_each body acc s = (Ok acc', s') /\ I acc' /\ length (tee_datahandles_ s') = length (tee_datahandles_ s) /\ Forall Q (tee_datahandles_ s').
Proof.
  intros Hb Ha Hp. destruct (each_ok P Q I body _ Hb acc Ha Hp) as (a & hs & E & Ha' & Hq & Hl).
  exists a, (mkTee hs). unfold for_each. rewrite E. done.
Qed.

(** A tee over [k + 1] writable handles is a writable handle, and each handle gets everything. *)
#[export] Program Instance sink (k : nat) : SinkHandle (TeeHandle H) := {| writable := is_writable k |}.
Next Obligation.
  intros k s n room Hn [Hk Hf]. destruct (for_each_ok (fun h => writable h false [] room) (fun h => writable h true [] room) (fun _ => True)
    (fun _ : unit => dh_openForWrite n) s tt) as ([] & s' & E & _ & Hl & Hs'); try done; [|exists s'; split; [done|split; [congruence|done]]].
  intros [] h _ Hh. destruct (snk_open _ _ _ Hn Hh) as (h' & E & Hh'). by exists tt, h'.
Qed.
Next Obligation.
  intros k s out room bs [Hk Hf] Hroom. cbn [dh_write handle]. unfold write, for_each.
  assert (Hb : forall acc h, acc.1 = 0%nat \/ acc.2 = zlen bs -> writable h true out room -> exists acc' h', write_one bs acc h = (Ok acc', h') /\
    acc'.2 = zlen bs /\ writable h' true (out ++ bs) (room - length bs)).
  { intros acc h Ha Hh. destruct (snk_write _ _ _ bs Hh Hroom) as (h' & E & Hh'). exists (S acc.1, zlen bs), h'.
    unfold write_one. rewrite (M_bind_Ok _ _ _ _ _ E). split_and!; try done. case_decide; [|done].
    destruct Ha as [|Ha]; [done|]. by rewrite Ha, Z.eqb_refl. }
  destruct s as [[|h hs]]; [done|]. cbn [tee_datahandles_] in *. apply Forall_cons in Hf as [Hh Hf].
  destruct (Hb (0%nat, 0) h ltac:(by left) Hh) as (a1 & h1 & E1 & Ha1 & Hh1).
  destruct (each_ok (fun h => writable h true out room) (fun h => writable h true (out ++ bs) (room - length bs))
    (fun acc => acc.2 = zlen bs) (write_one bs) hs) with (acc := a1) as (a2 & hs2 & E2 & Ha2 & Hq & Hl); [|done|done|].
  { intros acc h2 Ha Hh2. apply Hb; [by right|done]. }
  exists (mkTee (h1 :: hs2)). split; [|split; [simpl in *; lia|by constructor]].
  unfold mbind, M_bind. cbn [tee_datahandles_ each]. rewrite E1, E2. destruct a2 as [n l]. simpl in Ha2. by rewrite Ha2.
Qed.
Next Obligation.
  intros k s out room [Hk Hf]. destruct (for_each_ok (fun h => writable h true out room) (fun h => writable h false out room) (fun _ => True)
    (fun _ : unit => dh_close) s tt) as ([] & s' & E & _ & Hl & Hs'); try done; [|exists s'; split; [done|split; [congruence|done]]].
  intros [] h _ Hh. destruct (snk_close _ _ _ Hh) as (h' & E & Hh'). by exists tt, h'.
Qed.
End Tee.
End Tee.

(** ** Stats handle *)

(** The times are not modelled. *)
Record StatsHandle (H : Type) : Type := mkStats {
  st_handle : H;
  reads_ : Z;
  seeks_ : Z;
  writes_ : Z;
  bytesRead_ : Z;
  bytesWritten_ : Z }.
Arguments mkStats {H}.
Arguments st_handle {H}.
Arguments reads_ {H}.
Arguments seeks_ {H}.
Arguments writes_ {H}.
Arguments bytesRead_ {H}.
Arguments bytesWritten_ {H}.

Module Stats.
Section Stats.
Context {H : Type} `{DataHandle H}.
Implicit Types s : StatsHandle H.

Definition new (h : H) : StatsHandle H := mkStats h 0 0 0 0 0.

Definition under {A} (m : M H A) : M (StatsHandle H) A := fun s =>
  let '(r, h) := m (st_handle s) in (r, mkStats h (reads_ s) (seeks_ s) (writes_ s) (bytesRead_ s) (bytesWritten_ s)).

Definition count (r k w br bw : Z) : M (StatsHandle H) unit := modifyM (fun s =>
  mkStats (st_handle s) (wrapU 64 (reads_ s + r)) (wrapU 64 (seeks_ s + k)) (wrapU 64 (writes_ s + w))
    (wrapU 64 (bytesRead_ s + br)) (wrapU 64 (bytesWritten_ s + bw))).

Definition openForRead : M (StatsHandle H) Z := under dh_openForRead.
Definition openForWrite (l : Z) : M (StatsHandle H) unit := under (dh_openForWrite l).
Definition read (len : Z) : M (StatsHandle H) (Z * list byte) := count 1 0 0 len 0 ;; under (dh_read len).
Definition write (data : list byte) : M (StatsHandle H) Z := count 0 0 1 0 (zlen data) ;; under (dh_write data).
Definition close : M (StatsHandle H) unit := under dh_close.
Definition estimate : M (StatsHandle H) Z := under dh_estimate.
Definition position : M (StatsHandle H) Z := under dh_position.
Definition seek (o : Z) : M (StatsHandle H) Z := count 0 1 0 0 0 ;; under (dh_seek o).

#[export] Instance handle : DataHandle (StatsHandle H) := {|
  dh_openForRead := openForRead; dh_openForWrite := openForWrite; dh_read := read; dh_write := write;
  dh_close := close; dh_seek := seek; dh_position := position; dh_size := throwM NotImplemented; dh_estimate := estimate |}.

Lemma stats_under_ok {A} (m : M H A) s a h' : m (st_handle s) = (Ok a, h') ->
  under m s = (Ok a, mkStats h' (reads_ s) (seeks_ s) (writes_ s) (bytesRead_ s) (bytesWritten_ s)).
Proof. intros E. unfold under. by rewrite E. Qed.

(** The calls go through. *)
#[export] Program Instance source `{!SourceHandle H} : SourceHandle (StatsHandle H) := {| readable s := readable (st_handle s) |}.
Next Obligation. intros ? s c p. apply readable_bound. Qed.
Next Obligation. intros ? s c Hh. destruct (src_open _ _ Hh) as (h' & E & Hh'). eexists. split; [apply (stats_under_ok _ _ _ _ E)|done]. Qed.
Next Obligation. intros ? s c p n Hh Hn. destruct (src_read _ _ _ n Hh Hn) as (h' & E & Hh'). cbn [dh_read handle]. unfold read, count. rewrite M_bind_modify. eexists. by erewrite stats_under_ok by exact E. Qed.
Next Obligation. intros ? s c p Hh. destruct (src_close _ _ _ Hh) as (h' & E & Hh'). eexists. split; [apply (stats_under_ok _ _ _ _ E)|done]. Qed.
Next Obligation. intros ? s c p o Hh Ho. destruct (src_seek _ _ _ o Hh Ho) as (h' & E & Hh'). cbn [dh_seek handle]. unfold seek, count. rewrite M_bind_modify. eexists. by erewrite stats_under_ok by exact E. Qed.
Next Obligation. intros ? s c p Hh. cbn [dh_position handle]. unfold position. rewrite (stats_under_ok _ _ _ _ (src_position _ _ _ Hh)). by destruct s. Qed.
Next Obligation. intros ? s c p Hh. cbn [dh_estimate handle]. unfold estimate. rewrite (stats_under_ok _ _ _ _ (src_estimate _ _ _ Hh)). by destruct s. Qed.

#[export] Program Instance sink `{!SinkHandle H} : SinkHandle (StatsHandle H) := {| writable s := writable (st_handle s) |}.
Next Obligation. intros ? s n room Hn Hw. destruct (snk_open _ _ _ Hn Hw) as (h' & E & Hh'). eexists. split; [apply (stats_under_ok _ _ _ _ E)|done]. Qed.
Next Obligation. intros ? s out room bs Hw Hl. destruct (snk_write _ _ _ bs Hw Hl) as (h' & E & Hh'). cbn [dh_write handle]. unfold write, count. rewrite M_bind_modify. eexists. by erewrite stats_under_ok by exact E. Qed.
Next Obligation. intros ? s out room Hw. destruct (snk_close _ _ _ Hw) as (h' & E & Hh'). eexists. split; [apply (stats_under_ok _ _ _ _ E)|done]. Qed.
End Stats.
End Stats.

(** ** The handles in use *)

#[local] Existing Instance Tee.handle.

(** A buffer does not change what is read: any sequence of reads, seeks and position
    queries on a buffered handle returns what the content of the handle gives, whatever
    the size of the buffer and however the reads fall on its boundaries. *)
Theorem buffered_reads_transparent {H : Type} `{SourceHandle H} (junk : nat -> byte) (h : H) c size os :
  readable h c None -> zlen c < 2 ^ 62 -> 0 < size < 2 ^ 62 -> Forall (op_ok c) os ->
  exists s s', Buffered.openForRead (Buffered.new junk h size false) = (Ok (zlen c), s) /\
    read_run (H0 := Buffered.handle) os s = (Ok (flat_run c os 0), s').
Proof.
  intros Hh Hc Hs Hos.
  destruct (src_open (SourceHandle := Buffered.source) (Buffered.new junk h size false) c) as (s & E & Hr).
  { split_and!; try done. split; cbn; [done|]. unfold zlen. rewrite length_allocate. lia. }
  destruct (read_run_ok (H1 := Buffered.source) c os s 0 Hr Hos) as (s' & E'). by exists s, s'.
Qed.

Lemma buffered_reads_transparent_witness : let junk := fun _ : nat => "000"%byte in
  exists s s', Buffered.openForRead (H0 := MemoryHandle.handle junk) (Buffered.new junk (MemoryHandle.over (str "abcdefg") true) 3 false) = (Ok 7, s) /\
    read_run (H0 := Buffered.handle (H0 := MemoryHandle.handle junk)) [Read 2; Read 4; Position; Seek 1; Read 9; Read 1] s =
      (Ok [Bytes 2 (str "ab"); Bytes 4 (str "cdef"); Offset 6; Offset 1; Bytes 6 (str "bcdefg"); Bytes 0 []], s').
Proof.
  intros junk. apply (buffered_reads_transparent (H1 := MemoryHandle.source junk) junk (MemoryHandle.over (str "abcdefg") true) (str "abcdefg") 3
    [Read 2; Read 4; Position; Seek 1; Read 9; Read 1]); [vm_compute; by split_and!|done|done|].
  repeat constructor; vm_compute; done.
Defined.

(** What is written through a buffered tee, in any number of pieces, is in each of the
    handles of the tee once it is closed, in order and complete. *)
Theorem buffered_tee_writes {H : Type} `{SinkHandle H} (junk : nat -> byte) (hs : list H) size (chunks : list (list byte)) room n :
  hs <> [] -> Forall (fun h => writable h false [] room) hs -> 0 < size < 2 ^ 62 -> 0 <= n <= Z.of_nat room -> (length (concat chunks) <= room)%nat ->
  exists s, (Buffered.openForWrite n ;; write_all (H0 := Buffered.handle (H0 := Tee.handle)) chunks ;; Buffered.close)
      (Buffered.new junk (mkTee hs) size false) = (Ok tt, s) /\
    length (tee_datahandles_ (b_handle s)) = length hs /\
    Forall (fun h => writable h false (concat chunks) (room - length (concat chunks))) (tee_datahandles_ (b_handle s)).
Proof.
  intros Hne Hf Hs Hn Hlen. set (k := pred (length hs)). set (s0 := Buffered.new junk (mkTee hs) size false).
  assert (H0' : writable (SinkHandle := Buffered.sink (SinkHandle0 := Tee.sink k)) s0 false [] room).
  { split; [split; cbn; [done|]; unfold zlen; rewrite length_allocate; lia|]. split; [|done]. cbn. by destruct hs. }
  destruct (snk_open _ n room Hn H0') as (s1 & E1 & W1). destruct (write_all_ok chunks s1 _ _ W1 Hlen) as (s2 & E2 & W2).
  destruct (snk_close _ _ _ W2) as (s3 & E3 & _ & Hl & Hw). exists s3. split; [|split; [|done]].
  - rewrite (M_bind_Ok _ _ _ _ _ E1), (M_bind_Ok _ _ _ _ _ E2). done.
  - rewrite Hl. unfold k. by destruct hs.
Qed.

Lemma buffered_tee_writes_witness : let junk := fun _ : nat => "000"%byte in
  exists s, (Buffered.openForWrite (H0 := Tee.handle (H0 := MemoryHandle.handle junk)) 11 ;;
      write_all (H0 := Buffered.handle (H0 := Tee.handle (H0 := MemoryHandle.handle junk))) [str "hello"; str " world"] ;;
      Buffered.close (H0 := Tee.handle (H0 := MemoryHandle.handle junk)))
      (Buffered.new junk (mkTee [MemoryHandle.owned junk 4 true; MemoryHandle.owned junk 0 true]) 3 false) = (Ok tt, s) /\
    length (tee_datahandles_ (b_handle s)) = 2%nat /\
    Forall (fun h => MemoryHandle.is_writable true h false (str "hello world") 0) (tee_datahandles_ (b_handle s)).
Proof.
  intros junk. apply (buffered_tee_writes (H1 := MemoryHandle.sink junk true) junk [MemoryHandle.owned junk 4 true; MemoryHandle.owned junk 0 true] 3
    [str "hello"; str " world"] 11 11); [done| |done|done|vm_compute; lia].
  do 2 (constructor; [vm_compute; by split_and!|]). constructor.
Defined.
