(* ===== verification/Transfer.v ===== *)
(** * Moving data between handles

    [io/DataHandle.cc]: [saveInto] (through one buffer, the default), [copyTo] and
    [compare], over any two handles of the interface.  The handles are closed by
    [AutoClose] objects when the scope is left, also by an exception.  The progress
    reports, the metrics and the watcher, which does nothing by default, are left out. *)
From S2P Require Import Prelude Stream StreamItems MemoryStream Handles Buffered.

(** The destructor of an [AutoClose] may throw; during the propagation of another
    exception this ends the program. *)
Definition auto_close {S A} (close : M S unit) (body : M S A) : M S A := fun s =>
  match body s with
  | (Ok a, s') => (close ;; mret a) s'
  | (Throw e, s') =>
      match close s' with
      | (Ok _, s'') => (Throw e, s'')
      | (NoFuel, s'') => (NoFuel, s'')
      | (_, s'') => (Undef, s'')
      end
  | (Undef, s') => (Undef, s')
  | (NoFuel, s') => (NoFuel, s')
  end.

Lemma auto_close_ok {S A} (close : M S unit) (body : M S A) s a s' s'' :
  body s = (Ok a, s') -> close s' = (Ok tt, s'') -> auto_close close body s = (Ok a, s'').
Proof. intros E1 E2. unfold auto_close. by rewrite E1, (M_bind_Ok _ _ _ _ _ E2). Qed.

Lemma auto_close_throw {S A} (close : M S unit) (body : M S A) s e s' s'' :
  body s = (Throw e, s') -> close s' = (Ok tt, s'') -> auto_close close body s = (Throw e, s'').
Proof. intros E1 E2. unfold auto_close. by rewrite E1, E2. Qed.

Section Transfer.
Context {H1 : Type} `{DataHandle H1} {H2 : Type} `{DataHandle H2}.

Definition on_this {A} (m : M H1 A) : M (H1 * H2) A := fun '(h1, h2) => let '(r, h1') := m h1 in (r, (h1', h2)).
Definition on_other {A} (m : M H2 A) : M (H1 * H2) A := fun '(h1, h2) => let '(r, h2') := m h2 in (r, (h1, h2')).

(** One buffer; [false] when there was nothing to read. *)
Definition move (bufsize : Z) : M (H1 * H2) (Z * bool) :=
  '(length, buffer) ← on_this (dh_read bufsize);
  if 0 <? length then
    n ← on_other (dh_write buffer);
    if negb (n =? length) then throwM WriteError else mret (length, true)
  else mret (length, false).

(** *** saveInto *)

Section SaveInto.
Variables (restartReadFrom : Z -> M H1 unit) (restartWriteFrom : Z -> M H2 unit).

(** A handle that asks for a restart is served from that offset on. *)
Fixpoint save_loop (fuel : nat) (bufsize total : Z) : M (H1 * H2) (Z * Z) :=
  match fuel with
  | O => liftM NoFuel
  | S f => fun s =>
      match move bufsize s with
      | (Ok (length, true), s') => save_loop f bufsize (total + length) s'
      | (Ok (length, false), s') => (Ok (total, length), s')
      | (Throw (RestartTransfer from), s') =>
          (on_this (restartReadFrom from) ;; on_other (restartWriteFrom from) ;; save_loop f bufsize from) s'
      | (Throw e, s') => (Throw e, s')
      | (Undef, s') => (Undef, s')
      | (NoFuel, s') => (NoFuel, s')
      end
  end.

Definition saveInto (fuel : nat) (bufsize : Z) : M (H1 * H2) Z :=
  _ ← on_this dh_estimate;
  estimate ← on_this dh_openForRead;
  auto_close (on_this dh_close)
    (on_other (dh_openForWrite estimate) ;;
     auto_close (on_other dh_close)
       ('(total, length) ← save_loop fuel bufsize 0;
        if length <? 0 then throwM ReadError
        else if negb (estimate =? 0) && negb (estimate =? total) then throwM ReadError
        else mret total)).
End SaveInto.

(** *** copyTo *)

(** [length] is what the last [read] returned. *)
Fixpoint copy_loop (fuel : nat) (bufsize toRead total length : Z) : M (H1 * H2) (Z * Z) :=
  match fuel with
  | O => liftM NoFuel
  | S f =>
      if (toRead <=? 0) || (total <? toRead) then
        '(length, more) ← move (if toRead <=? 0 then bufsize else Z.min bufsize (toRead - total));
        if (more : bool) then copy_loop f bufsize toRead (total + length) length else mret (total, length)
      else mret (total, length)
  end.

Definition copyTo (fuel : nat) (bufsize maxsize : Z) : M (H1 * H2) Z :=
  estimate ← on_this dh_openForRead;
  auto_close (on_this dh_close)
    (let toRead := if negb (maxsize =? -1) then Z.min estimate maxsize else estimate in
     on_other (dh_openForWrite toRead) ;;
     auto_close (on_other dh_close)
       ('(total, length) ← copy_loop fuel bufsize toRead 0 (-1);
        if length <? 0 then throwM ReadError
        else if negb (toRead =? 0) && negb (toRead =? total) then throwM ReadError
        else mret total)).

(** *** compare *)

Fixpoint compare_loop (fuel : nat) (bufsize : Z) : M (H1 * H2) bool :=
  match fuel with
  | O => liftM NoFuel
  | S f =>
      '(len1, buffer1) ← on_this (dh_read bufsize);
      '(len2, buffer2) ← on_other (dh_read bufsize);
      if negb (len1 =? len2) then mret false
      else if (len1 <=? 0) && (len2 <=? 0) then mret true
      else
        b1 ← liftM (memory buffer1 0 (Z.to_nat len1));
        b2 ← liftM (memory buffer2 0 (Z.to_nat len1));
        if decide (b1 <> b2) then mret false else compare_loop f bufsize
  end.

Definition compare (fuel : nat) (bufsize : Z) : M (H1 * H2) bool :=
  estimate1 ← on_this dh_openForRead;
  auto_close (on_this dh_close)
    (estimate2 ← on_other dh_openForRead;
     auto_close (on_other dh_close)
       (if negb (estimate1 =? estimate2) then mret false else compare_loop fuel bufsize)).

(** ** Correctness *)

Lemma this_ok {A} (m : M H1 A) h1 h2 a h1' : m h1 = (Ok a, h1') -> on_this m (h1, h2) = (Ok a, (h1', h2)).
Proof. intros E. unfold on_this. by rewrite E. Qed.
Lemma other_ok {A} (m : M H2 A) h1 h2 a h2' : m h2 = (Ok a, h2') -> on_other m (h1, h2) = (Ok a, (h1, h2')).
Proof. intros E. unfold on_other. by rewrite E. Qed.

Section Copy.
Context `{!SourceHandle H1, !SinkHandle H2}.

Lemma move_ok h1 h2 c p out room bufsize : readable h1 c (Some p) -> writable h2 true out room ->
  (Nat.min (Z.to_nat bufsize) (length c - p) <= room)%nat -> 0 < bufsize ->
  let got := take (Z.to_nat bufsize) (drop p c) in
  exists h1' h2', move bufsize (h1, h2) = (Ok (zlen got, bool_decide (got <> [])), (h1', h2')) /\
    readable h1' c (Some (p + length got)%nat) /\ writable h2' true (out ++ got) (room - length got).
Proof.
  intros Hr Hw Hroom Hb got. destruct (src_read _ _ _ bufsize Hr Hb) as (h1' & E1 & Hr'). fold got in E1, Hr'.
  assert (Hg : (length got <= room)%nat) by (unfold got; rewrite length_take, length_drop; lia).
  unfold move. rewrite (M_bind_Ok _ _ _ _ _ (this_ok _ _ h2 _ _ E1)). destruct (Z.ltb_spec 0 (zlen got)) as [Hpos|Hpos].
  - destruct (snk_write _ _ _ got Hw Hg) as (h2' & E2 & Hw'). rewrite (M_bind_Ok _ _ _ _ _ (other_ok _ h1' _ _ _ E2)), Z.eqb_refl.
    exists h1', h2'. rewrite bool_decide_eq_true_2 by (intros E; rewrite E in Hpos; done). done.
  - assert (E : got = []) by (destruct got; [done|unfold zlen in *; simpl in *; lia]). rewrite E in *. exists h1', h2.
    split; [done|]. rewrite app_nil_r, Nat.sub_0_r. done.
Qed.

(** What [move] has taken, and the rest. *)
Lemma moved_rest (c : list byte) p n : let got := take n (drop p c) in drop p c = got ++ drop (p + length got) c.
Proof.
  intros got. rewrite <- drop_drop. rewrite <- (take_drop n (drop p c)) at 1. fold got. f_equal.
  unfold got. rewrite length_take. destruct (Nat.le_ge_cases n (length (drop p c))); [by rewrite Nat.min_l|].
  rewrite !drop_ge; [done|..]; lia.
Qed.

Lemma save_loop_ok rr rw fuel : forall h1 h2 c p out room bufsize total, readable h1 c (Some p) -> writable h2 true out room ->
  (length c - p <= room)%nat -> 0 < bufsize -> (length c - p < fuel)%nat -> exists h1' h2',
  save_loop rr rw fuel bufsize total (h1, h2) = (Ok (total + zlen (drop p c), 0), (h1', h2')) /\
  readable h1' c (Some (length c)) /\ writable h2' true (out ++ drop p c) (room - (length c - p)).
Proof.
  induction fuel as [|fuel IH]; intros h1 h2 c p out room bufsize total Hr Hw Hroom Hb Hf; [lia|]. cbn [save_loop].
  destruct (move_ok _ _ _ _ _ _ bufsize Hr Hw ltac:(lia) Hb) as (h1' & h2' & E & Hr' & Hw').
  pose proof (moved_rest c p (Z.to_nat bufsize)) as Ed. set (got := take (Z.to_nat bufsize) (drop p c)) in *.
  rewrite E. pose proof (readable_bound _ _ _ Hr) as Hp.
  assert (Hlen : length got = Nat.min (Z.to_nat bufsize) (length c - p)) by (unfold got; rewrite length_take, length_drop; lia).
  case_bool_decide as Hgot.
  - assert (0 < length got)%nat by (destruct got; simpl; [done|lia]).
    destruct (IH h1' h2' c (p + length got)%nat (out ++ got) (room - length got)%nat bufsize (total + zlen got) Hr' Hw') as (a & b & E3 & Hr3 & Hw3); try lia.
    exists a, b. rewrite E3, Ed, zlen_app, Z.add_assoc. split; [done|]. split; [done|]. rewrite app_assoc.
    by replace (room - (length c - p))%nat with (room - length got - (length c - (p + length got)))%nat by lia.
  - rewrite Hgot in *. simpl in Hlen. assert (p = length c) as -> by lia.
    exists h1', h2'. rewrite drop_all, app_nil_r, Nat.sub_diag, Nat.sub_0_r in *. rewrite Nat.add_0_r in *.
    change (zlen []) with 0. rewrite Z.add_0_r. done.
Qed.

(** Up to a limit that the content has. *)
Lemma copy_limited_ok fuel : forall h1 h2 c p out room bufsize toRead len, readable h1 c (Some p) -> writable h2 true out room ->
  0 < toRead <= zlen c -> Z.of_nat p <= toRead -> (Z.to_nat toRead - p <= room)%nat -> 0 < bufsize -> (Z.to_nat toRead - p < fuel)%nat ->
  (p = 0%nat \/ 0 < len) -> exists len' h1' h2',
  copy_loop fuel bufsize toRead (Z.of_nat p) len (h1, h2) = (Ok (toRead, len'), (h1', h2')) /\ 0 < len' /\
  readable h1' c (Some (Z.to_nat toRead)) /\ writable h2' true (out ++ take (Z.to_nat toRead - p) (drop p c)) (room - (Z.to_nat toRead - p)).
Proof.
  induction fuel as [|fuel IH]; intros h1 h2 c p out room bufsize toRead len Hr Hw Ht Hp Hroom Hb Hf Hl; [lia|]. cbn [copy_loop].
  rewrite (proj2 (Z.leb_gt toRead 0)) by lia. cbn [orb]. destruct (Z.ltb_spec (Z.of_nat p) toRead) as [Hlt|Hge].
  - set (n := Z.min bufsize (toRead - Z.of_nat p)).
    destruct (move_ok _ _ _ _ _ _ n Hr Hw ltac:(lia) ltac:(lia)) as (h1' & h2' & E & Hr' & Hw').
    rewrite (M_bind_Ok _ _ _ _ _ E). set (got := take (Z.to_nat n) (drop p c)) in *.
    assert (Hlen : length got = Z.to_nat n) by (unfold got; rewrite length_take, length_drop; unfold zlen in *; lia).
    rewrite bool_decide_eq_true_2 by (intros Eg; rewrite Eg in Hlen; simpl in Hlen; lia).
    replace (Z.of_nat p + zlen got) with (Z.of_nat (p + length got)) by (unfold zlen; lia).
    destruct (IH h1' h2' c (p + length got)%nat (out ++ got) (room - length got)%nat bufsize toRead (zlen got) Hr' Hw')
      as (len' & a & b & E3 & Hl3 & Hr3 & Hw3); try (unfold zlen in *; lia).
    exists len', a, b. split_and!; try done.
    replace (take (Z.to_nat toRead - p) (drop p c)) with (got ++ take (Z.to_nat toRead - (p + length got)) (drop (p + length got) c)).
    + rewrite app_assoc. by replace (room - (Z.to_nat toRead - p))%nat with (room - length got - (Z.to_nat toRead - (p + length got)))%nat by lia.
    + unfold got at 1. rewrite Hlen, <- drop_drop, take_take_drop. f_equal. lia.
  - exists len, h1, h2. assert (toRead = Z.of_nat p) as -> by lia. rewrite Nat2Z.id, Nat.sub_diag, Nat.sub_0_r, take_0, app_nil_r.
    split_and!; try done. lia.
Qed.

(** Without a limit. *)
Lemma copy_all_ok fuel : forall h1 h2 c p out room bufsize toRead len, readable h1 c (Some p) -> writable h2 true out room ->
  toRead <= 0 -> (length c - p <= room)%nat -> 0 < bufsize -> (length c - p < fuel)%nat -> exists h1' h2',
  copy_loop fuel bufsize toRead (Z.of_nat p) len (h1, h2) = (Ok (zlen c, 0), (h1', h2')) /\
  readable h1' c (Some (length c)) /\ writable h2' true (out ++ drop p c) (room - (length c - p)).
Proof.
  induction fuel as [|fuel IH]; intros h1 h2 c p out room bufsize toRead len Hr Hw Ht Hroom Hb Hf; [lia|]. cbn [copy_loop].
  rewrite (proj2 (Z.leb_le toRead 0)) by lia. cbn [orb].
  destruct (move_ok _ _ _ _ _ _ bufsize Hr Hw ltac:(lia) Hb) as (h1' & h2' & E & Hr' & Hw').
  pose proof (moved_rest c p (Z.to_nat bufsize)) as Ed. set (got := take (Z.to_nat bufsize) (drop p c)) in *.
  rewrite (M_bind_Ok _ _ _ _ _ E). pose proof (readable_bound _ _ _ Hr) as Hp.
  assert (Hlen : length got = Nat.min (Z.to_nat bufsize) (length c - p)) by (unfold got; rewrite length_take, length_drop; lia).
  case_bool_decide as Hgot.
  - assert (0 < length got)%nat by (destruct got; simpl; [done|lia]).
    replace (Z.of_nat p + zlen got) with (Z.of_nat (p + length got)) by (unfold zlen; lia).
    destruct (IH h1' h2' c (p + length got)%nat (out ++ got) (room - length got)%nat bufsize toRead (zlen got) Hr' Hw') as (a & b & E3 & Hr3 & Hw3); try lia.
    exists a, b. rewrite E3, Ed. split; [done|]. split; [done|]. rewrite app_assoc.
    by replace (room - (length c - p))%nat with (room - length got - (length c - (p + length got)))%nat by lia.
  - rewrite Hgot in *. simpl in Hlen. assert (p = length c) as -> by lia.
    exists h1', h2'. rewrite drop_all, app_nil_r, Nat.sub_diag, Nat.sub_0_r in *. rewrite Nat.add_0_r in *. done.
Qed.

(** Both handles are opened, used and closed. *)
Lemma opened_and_closed {A} (body : Z -> M (H1 * H2) A) (toRead : Z -> Z) h1 h2 c room a p out room' :
  readable h1 c None -> writable h2 false [] room -> 0 <= toRead (zlen c) <= Z.of_nat room ->
  (forall h1 h2, readable h1 c (Some 0%nat) -> writable h2 true [] room -> exists h1' h2',
     body (zlen c) (h1, h2) = (Ok a, (h1', h2')) /\ readable h1' c (Some p) /\ writable h2' true out room') ->
  exists h1' h2', (estimate ← on_this dh_openForRead;
    auto_close (on_this dh_close) (on_other (dh_openForWrite (toRead estimate)) ;; auto_close (on_other dh_close) (body estimate))) (h1, h2) =
    (Ok a, (h1', h2')) /\ readable h1' c None /\ writable h2' false out room'.
Proof.
  intros Hr Hw Ht Hbody. destruct (src_open _ _ Hr) as (a1 & E1 & Hr1). destruct (snk_open _ _ _ Ht Hw) as (b1 & E2 & Hw1).
  destruct (Hbody a1 b1 Hr1 Hw1) as (a2 & b2 & E3 & Hr2 & Hw2). destruct (src_close _ _ _ Hr2) as (a3 & E4 & Hr3).
  destruct (snk_close _ _ _ Hw2) as (b3 & E5 & Hw3). exists a3, b3. split; [|done].
  rewrite (M_bind_Ok _ _ _ _ _ (this_ok _ _ h2 _ _ E1)). apply auto_close_ok with (a2, b3); [|by apply this_ok].
  rewrite (M_bind_Ok _ _ _ _ _ (other_ok _ a1 _ _ _ E2)). apply auto_close_ok with (a2, b2); [done|by apply other_ok].
Qed.
End Copy.

Section Compare.
Context `{!SourceHandle H1, !SourceHandle H2}.

(** Two contents of the same length, equal up to the offset. *)
Lemma compare_loop_ok fuel : forall h1 h2 c1 c2 p bufsize, readable h1 c1 (Some p) -> readable h2 c2 (Some p) ->
  length c1 = length c2 -> 0 < bufsize -> (length c1 - p < fuel)%nat -> exists h1' h2' p1 p2,
  compare_loop fuel bufsize (h1, h2) = (Ok (bool_decide (drop p c1 = drop p c2)), (h1', h2')) /\
  readable h1' c1 (Some p1) /\ readable h2' c2 (Some p2).
Proof.
  induction fuel as [|fuel IH]; intros h1 h2 c1 c2 p bufsize Hr1 Hr2 Hc Hb Hf; [lia|]. cbn [compare_loop].
  destruct (src_read _ _ _ bufsize Hr1 Hb) as (a & E1 & Ha). destruct (src_read _ _ _ bufsize Hr2 Hb) as (b & E2 & Hb2).
  pose proof (moved_rest c1 p (Z.to_nat bufsize)) as Ed1. pose proof (moved_rest c2 p (Z.to_nat bufsize)) as Ed2.
  set (g1 := take (Z.to_nat bufsize) (drop p c1)) in *. set (g2 := take (Z.to_nat bufsize) (drop p c2)) in *.
  assert (Hl1 : length g1 = Nat.min (Z.to_nat bufsize) (length c1 - p)) by (unfold g1; rewrite length_take, length_drop; lia).
  assert (Hl2 : length g2 = length g1) by (unfold g1, g2; rewrite !length_take, !length_drop; lia).
  rewrite (M_bind_Ok _ _ _ _ _ (this_ok _ _ h2 _ _ E1)), (M_bind_Ok _ _ _ _ _ (other_ok _ a _ _ _ E2)).
  unfold zlen. rewrite Hl2, Z.eqb_refl. cbn [negb]. rewrite andb_diag. destruct (Z.leb_spec (Z.of_nat (length g1)) 0) as [Hg0|Hg0].
  - pose proof (readable_bound _ _ _ Hr1). exists a, b, (p + length g1)%nat, (p + length g2)%nat. split; [|done].
    rewrite bool_decide_eq_true_2; [done|]. rewrite !drop_ge by lia. done.
  - rewrite Nat2Z.id, !memory_ok by lia. rewrite !M_bind_lift, !drop_0, (take_ge g1), (take_ge g2) by lia.
    destruct (decide (g1 <> g2)) as [Hne|Heq].
    + exists a, b, (p + length g1)%nat, (p + length g2)%nat. split; [|done]. rewrite bool_decide_eq_false_2; [done|].
      intros E. by unfold g1, g2 in Hne; rewrite E in Hne.
    + apply dec_stable in Heq. rewrite Hl2 in Hb2.
      destruct (IH a b c1 c2 (p + length g1)%nat bufsize Ha Hb2 Hc Hb ltac:(lia)) as (h1' & h2' & p1 & p2 & E & Hr).
      exists h1', h2', p1, p2. rewrite E. split; [|done]. do 2 f_equal. apply bool_decide_ext.
      rewrite Ed1, Ed2, Hl2, Heq. split; [by intros ->|apply app_inv_head].
Qed.
End Compare.
End Transfer.

(** *** Transfers as a whole

    A transfer of the content [c] needs a turn of the loop for each buffer, and one to
    see the end. *)

(** [saveInto] copies: it returns the length of the source, the target has received the
    source's bytes, and both handles are closed, whatever the size of the buffer. *)
Theorem save_into_copies {H1 H2 : Type} `{SourceHandle H1} `{SinkHandle H2} rr rw (h1 : H1) (h2 : H2) c room bufsize fuel :
  readable h1 c None -> writable h2 false [] room -> (length c <= room)%nat -> 0 < bufsize -> (length c < fuel)%nat ->
  exists h1' h2', saveInto rr rw fuel bufsize (h1, h2) = (Ok (zlen c), (h1', h2')) /\
    readable h1' c None /\ writable h2' false c (room - length c).
Proof.
  intros Hr Hw Hroom Hb Hf. unfold saveInto. rewrite (M_bind_Ok _ _ _ _ _ (this_ok _ _ h2 _ _ (src_estimate _ _ _ Hr))).
  apply (opened_and_closed _ (fun n => n)) with (room := room) (p := length c); try done; [unfold zlen; lia|].
  intros a b Ha Hb2. destruct (save_loop_ok rr rw fuel a b c 0 [] room bufsize 0 Ha Hb2) as (a' & b' & E & Hr' & Hw'); try lia.
  rewrite drop_0, Nat.sub_0_r, app_nil_l in *. exists a', b'. rewrite (M_bind_Ok _ _ _ _ _ E), Z.add_0_l, Z.eqb_refl, andb_false_r. done.
Qed.

Lemma save_into_copies_witness : let junk := fun _ : nat => "000"%byte in
  exists h1 h2, saveInto (H := MemoryHandle.handle junk) (H0 := MemoryHandle.handle junk) (fun _ => mret tt) (fun _ => mret tt) 12 4
      (MemoryHandle.over (str "hello world") true, MemoryHandle.owned junk 4 true) = (Ok 11, (h1, h2)) /\
    MemoryHandle.is_readable h1 (str "hello world") None /\ MemoryHandle.is_writable true h2 false (str "hello world") 0.
Proof.
  intros junk. apply (save_into_copies (H := MemoryHandle.source junk) (H4 := MemoryHandle.sink junk true) (fun _ => mret tt) (fun _ => mret tt)
    (MemoryHandle.over (str "hello world") true) (MemoryHandle.owned junk 4 true) (str "hello world") 11 4 12); vm_compute; try done; try lia.
  all: split_and!; try done.
Defined.

(** [copyTo] copies the source up to its limit: without one ([-1]), or with a limit of 0,
    everything; with a positive one, that many bytes or as many as there are.  It returns
    the number of bytes copied, and both handles are closed. *)
Theorem copy_to_copies {H1 H2 : Type} `{SourceHandle H1} `{SinkHandle H2} (h1 : H1) (h2 : H2) c room bufsize maxsize fuel :
  let part := if maxsize <=? 0 then c else take (Z.to_nat maxsize) c in
  readable h1 c None -> writable h2 false [] room -> (length part <= room)%nat -> 0 < bufsize -> -1 <= maxsize -> (length c < fuel)%nat ->
  exists h1' h2', copyTo fuel bufsize maxsize (h1, h2) = (Ok (zlen part), (h1', h2')) /\
    readable h1' c None /\ writable h2' false part (room - length part).
Proof.
  intros part Hr Hw Hroom Hb Hm Hf. unfold copyTo. set (limit n := if negb (maxsize =? -1) then Z.min n maxsize else n).
  assert (Hlim : limit (zlen c) = if maxsize =? 0 then 0 else zlen part).
  { unfold limit, part, zlen in *. destruct (Z.eqb_spec maxsize (-1)), (Z.eqb_spec maxsize 0), (Z.leb_spec maxsize 0); cbn [negb]; rewrite ?length_take; lia. }
  pose proof (zlen_nonneg part).
  apply (opened_and_closed (fun e => let toRead := limit e in '(total, length) ← copy_loop fuel bufsize toRead 0 (-1);
    if length <? 0 then throwM ReadError else if negb (toRead =? 0) && negb (toRead =? total) then throwM ReadError else mret total) limit)
    with (room := room) (p := length part); try done.
  { rewrite Hlim. unfold zlen in *. destruct (maxsize =? 0); lia. }
  intros a b Ha Hw1. cbv zeta. rewrite Hlim. destruct (decide (0 < (if maxsize =? 0 then 0 else zlen part))) as [Hpos|Hz].
  - destruct (Z.eqb_spec maxsize 0); [lia|].
    assert (Hle : (length part <= length c)%nat) by (unfold part; destruct (maxsize <=? 0); rewrite ?length_take; lia).
    destruct (copy_limited_ok fuel a b c 0 [] room bufsize (zlen part) (-1) Ha Hw1) as (len & a' & b' & E & Hl & Hr' & Hw'); try (unfold zlen in *; lia).
    exists a', b'. rewrite (M_bind_Ok _ _ _ _ _ E), Z.eqb_refl, andb_false_r, (proj2 (Z.ltb_ge len 0)) by lia. split; [done|].
    replace (Z.to_nat (zlen part) - 0)%nat with (length part) in Hw' by (unfold zlen; lia). unfold zlen in Hr'. rewrite Nat2Z.id in Hr'.
    rewrite drop_0, app_nil_l in Hw'. replace (take (length part) c) with part in Hw'; [done|].
    unfold part. destruct (maxsize <=? 0); [by rewrite take_ge|symmetry; apply MemoryHandle.take_length_of_take].
  - assert (Ez : (if maxsize =? 0 then 0 else zlen part) = 0) by (destruct (maxsize =? 0); lia). rewrite Ez.
    assert (Hpc : part = c).
    { unfold part in *. destruct (Z.leb_spec maxsize 0); [done|]. rewrite (proj2 (Z.eqb_neq maxsize 0)) in Hz by lia.
      unfold zlen in Hz. rewrite length_take in Hz. destruct c; [by rewrite take_nil|simpl in Hz; lia]. }
    rewrite Hpc in *. destruct (copy_all_ok fuel a b c 0 [] room bufsize 0 (-1) Ha Hw1) as (a' & b' & E & Hr' & Hw'); try lia.
    exists a', b'. rewrite (M_bind_Ok _ _ _ _ _ E). rewrite drop_0, Nat.sub_0_r, app_nil_l in Hw'. done.
Qed.

Lemma copy_to_copies_witness : let junk := fun _ : nat => "000"%byte in
  exists h1 h2, copyTo (H := MemoryHandle.handle junk) (H0 := MemoryHandle.handle junk) 12 4 6
      (MemoryHandle.over (str "hello world") true, MemoryHandle.owned junk 4 true) = (Ok 6, (h1, h2)) /\
    MemoryHandle.is_readable h1 (str "hello world") None /\ MemoryHandle.is_writable true h2 false (str "hello ") 5.
Proof.
  intros junk. apply (copy_to_copies (H := MemoryHandle.source junk) (H4 := MemoryHandle.sink junk true)
    (MemoryHandle.over (str "hello world") true) (MemoryHandle.owned junk 4 true) (str "hello world") 11 4 6 12); vm_compute; try done; try lia.
  all: split_and!; try done.
Defined.

(** [compare] says whether two handles have the same content, and closes both. *)
Theorem compare_decides_equality {H1 H2 : Type} `{SourceHandle H1} `{SourceHandle H2} (h1 : H1) (h2 : H2) c1 c2 bufsize fuel :
  readable h1 c1 None -> readable h2 c2 None -> 0 < bufsize -> (length c1 < fuel)%nat ->
  exists h1' h2', compare fuel bufsize (h1, h2) = (Ok (bool_decide (c1 = c2)), (h1', h2')) /\ readable h1' c1 None /\ readable h2' c2 None.
Proof.
  intros Hr1 Hr2 Hb Hf. destruct (src_open _ _ Hr1) as (a1 & E1 & Ha1). destruct (src_open _ _ Hr2) as (b1 & E2 & Hb1).
  assert (Hbody : exists a b p q, (if negb (zlen c1 =? zlen c2) then mret false else compare_loop fuel bufsize) (a1, b1) =
    (Ok (bool_decide (c1 = c2)), (a, b)) /\ readable a c1 (Some p) /\ readable b c2 (Some q)).
  { destruct (Z.eqb_spec (zlen c1) (zlen c2)) as [El|El]; cbn [negb].
    - destruct (compare_loop_ok fuel a1 b1 c1 c2 0 bufsize Ha1 Hb1) as (a & b & p & q & E & Hr); try (unfold zlen in *; lia).
      exists a, b, p, q. by rewrite E, !drop_0.
    - exists a1, b1, 0%nat, 0%nat. rewrite bool_decide_eq_false_2; [done|]. by intros ->. }
  destruct Hbody as (a & b & p & q & E & Ha & Hb2). destruct (src_close _ _ _ Ha) as (a' & E3 & Ha'). destruct (src_close _ _ _ Hb2) as (b' & E4 & Hb').
  exists a', b'. split; [|done]. unfold compare. rewrite (M_bind_Ok _ _ _ _ _ (this_ok _ _ h2 _ _ E1)). apply auto_close_ok with (a, b'); [|by apply this_ok].
  rewrite (M_bind_Ok _ _ _ _ _ (other_ok _ a1 _ _ _ E2)). apply auto_close_ok with (a, b); [done|by apply other_ok].
Qed.

Lemma compare_decides_equality_witness : let junk := fun _ : nat => "000"%byte in
  exists h1 h2, compare (H := MemoryHandle.handle junk) (H0 := MemoryHandle.handle junk) 12 4
      (MemoryHandle.over (str "hello world") true, MemoryHandle.over (str "hello earth") true) = (Ok false, (h1, h2)) /\
    MemoryHandle.is_readable h1 (str "hello world") None /\ MemoryHandle.is_readable h2 (str "hello earth") None.
Proof.
  intros junk. apply (compare_decides_equality (H := MemoryHandle.source junk) (H4 := MemoryHandle.source junk)
    (MemoryHandle.over (str "hello world") true) (MemoryHandle.over (str "hello earth") true) (str "hello world") (str "hello earth") 4 12); vm_compute; try done; try lia.
  all: split_and!; try done.
Defined.

