(* ===== verification/BitIO.v ===== *)
(** * Bits on a data handle

    [io/BitIO.cc]: numbers of a few bits written to and read from a data handle,
    most significant bit first, through a 64-bit buffer.  The handle is any
    implementation of the interface of [Handles]. *)
From S2P Require Import Prelude Stream StreamItems MemoryStream Handles.

(** ** Bit strings, most significant bit first *)

Fixpoint to_bits (n : nat) (z : Z) : list bool :=
  match n with O => [] | S m => Z.testbit z (Z.of_nat m) :: to_bits m z end.
Definition of_bits (l : list bool) : Z := foldl (fun a b => 2 * a + Z.b2z b) 0 l.
Definition bytes_bits (l : list byte) : list bool := l ≫= fun b => to_bits 8 (byte.unsigned b).

Arguments bytes_bits : simpl never.

Lemma bytes_bits_cons x l : bytes_bits (x :: l) = to_bits 8 (byte.unsigned x) ++ bytes_bits l.
Proof. done. Qed.

Lemma length_to_bits n z : length (to_bits n z) = n.
Proof. induction n; simpl; lia. Qed.

Lemma to_bits_ext n x y :
  (forall i, (i < n)%nat -> Z.testbit x (Z.of_nat i) = Z.testbit y (Z.of_nat i)) -> to_bits n x = to_bits n y.
Proof. induction n as [|n IH]; intros E; simpl; [done|]. f_equal; [apply E; lia|]. apply IH. intros. apply E. lia. Qed.

Lemma to_bits_app a b z : to_bits (a + b) z = to_bits a (Z.shiftr z (Z.of_nat b)) ++ to_bits b z.
Proof.
  induction a as [|a IH]; simpl; [done|]. rewrite IH. f_equal. rewrite Z.shiftr_spec by lia. f_equal. lia.
Qed.

(** Bits shifted in from the right. *)
Lemma to_bits_push a b x y :
  0 <= y < 2 ^ Z.of_nat b ->
  to_bits (a + b) (Z.lor (Z.shiftl x (Z.of_nat b)) y) = to_bits a x ++ to_bits b y.
Proof.
  intros Hy. rewrite to_bits_app. f_equal; apply to_bits_ext; intros i Hi.
  - rewrite Z.shiftr_spec, Z.lor_spec, Z.shiftl_spec by lia.
    rewrite (testbit_above y (Z.of_nat b)), Z.add_simpl_r by lia. apply orb_false_r.
  - rewrite Z.lor_spec, Z.shiftl_spec_low by lia. done.
Qed.

Lemma of_bits_acc l : forall a, foldl (fun a b => 2 * a + Z.b2z b) a l = a * 2 ^ zlen l + of_bits l.
Proof.
  unfold of_bits. induction l as [|b l IH]; intros a; cbn [foldl]; [rewrite zlen_nil; lia|].
  rewrite IH, (IH (2 * 0 + _)), zlen_cons, Z.pow_add_r by (try apply zlen_nonneg; lia). change (2 ^ 1) with 2. lia.
Qed.

Lemma of_bits_app l k : of_bits (l ++ k) = of_bits l * 2 ^ zlen k + of_bits k.
Proof. unfold of_bits at 1. rewrite foldl_app. apply of_bits_acc. Qed.

Lemma of_to_bits n z : of_bits (to_bits n z) = z mod 2 ^ Z.of_nat n.
Proof.
  induction n as [|n IH]; [by rewrite Z.mod_1_r|]. cbn [to_bits].
  change (Z.testbit z (Z.of_nat n) :: to_bits n z) with ([Z.testbit z (Z.of_nat n)] ++ to_bits n z).
  rewrite of_bits_app, IH. unfold zlen. rewrite length_to_bits.
  replace (of_bits [_]) with (Z.b2z (Z.testbit z (Z.of_nat n))) by by destruct (Z.testbit _ _).
  rewrite Z.testbit_spec' by lia. rewrite Nat2Z.inj_succ, Z.pow_succ_r, (Z.mul_comm 2), Z.rem_mul_r by lia. lia.
Qed.

Lemma of_bits_bound l : 0 <= of_bits l < 2 ^ zlen l.
Proof.
  induction l as [|b l IH]; [done|]. change (b :: l) with ([b] ++ l).
  rewrite of_bits_app, zlen_app, Z.pow_add_r by apply zlen_nonneg. change (2 ^ zlen [b]) with 2.
  change (of_bits [b]) with (2 * 0 + Z.b2z b). destruct b; simpl Z.b2z; lia.
Qed.

Lemma to_of_bits l : to_bits (length l) (of_bits l) = l.
Proof.
  induction l as [|b l IH] using rev_ind; [done|]. rewrite of_bits_app, length_app. cbn [length].
  change (2 ^ zlen [b]) with 2. change (of_bits [b]) with (2 * 0 + Z.b2z b).
  replace (of_bits l * 2 + (2 * 0 + Z.b2z b)) with (Z.lor (Z.shiftl (of_bits l) (Z.of_nat 1)) (Z.b2z b)).
  - rewrite to_bits_push by (destruct b; simpl; lia). rewrite IH. f_equal. by destruct b.
  - rewrite lor_shiftl by (destruct b; simpl; lia). destruct b; simpl; lia.
Qed.

Module BitIO.

Record t (H : Type) : Type := mk {
  handle_ : H;
  buffer_ : Z;
  used_ : nat;
  bits_ : Z;
  write_ : bool;
  eof_ : bool;
  padded_ : bool;
  opened_ : bool }.
Arguments mk {H}.
Arguments handle_ {H} _.
Arguments buffer_ {H} _.
Arguments used_ {H} _.
Arguments bits_ {H} _.
Arguments write_ {H} _.
Arguments eof_ {H} _.
Arguments padded_ {H} _.
Arguments opened_ {H} _.

Definition BITS : nat := 64.
Definition masks : list Z := [0x00; 0x01; 0x03; 0x07; 0x0F; 0x1F; 0x3F; 0x7F; 0xFF].

(** Shifts of 64-bit words by 64 or more are undefined. *)
Definition shr (x : Z) (n : nat) : outcome Z :=
  if decide (n < BITS)%nat then Ok (Z.shiftr x (Z.of_nat n)) else Undef.
Definition shl (x : Z) (n : nat) : outcome Z :=
  if decide (n < BITS)%nat then Ok (wrapU 64 (Z.shiftl x (Z.of_nat n))) else Undef.
Definition mask (s : nat) : Z := nth s masks 0.

Section BitIO.
Context {H : Type} `{DataHandle H}.
Implicit Types s : t H.

Definition new (handle : H) (padded : bool) : t H := mk handle 0 0 0 false false padded false.

Definition set_handle (h : H) s : t H :=
  mk h (buffer_ s) (used_ s) (bits_ s) (write_ s) (eof_ s) (padded_ s) (opened_ s).
Definition set_buffer (b : Z) (u : nat) (n : Z) s : t H :=
  mk (handle_ s) b u n (write_ s) (eof_ s) (padded_ s) (opened_ s).
Definition set_write s : t H :=
  mk (handle_ s) (buffer_ s) (used_ s) (bits_ s) true (eof_ s) (padded_ s) (opened_ s).
Definition set_eof s : t H :=
  mk (handle_ s) (buffer_ s) (used_ s) (bits_ s) (write_ s) true (padded_ s) (opened_ s).
Definition set_padded (b : bool) s : t H :=
  mk (handle_ s) (buffer_ s) (used_ s) (bits_ s) (write_ s) (eof_ s) b (opened_ s).
Definition set_opened s : t H :=
  mk (handle_ s) (buffer_ s) (used_ s) (bits_ s) (write_ s) (eof_ s) (padded_ s) true.

(** A call on the handle. *)
Definition on {A} (m : M H A) : M (t H) A := fun s =>
  let '(o, h) := m (handle_ s) in (o, set_handle h s).

Fixpoint flush_loop (fuel : nat) (nbits : nat) : M (t H) unit :=
  match fuel with
  | O => liftM NoFuel
  | S f =>
      if decide (nbits = 0%nat) then mret tt
      else
        s ← getM;
        let k := Nat.min nbits 8 in
        v ← liftM (shr (buffer_ s) (nbits - k));
        let c := wrapU 8 (Z.shiftl (Z.land v (mask k)) (Z.of_nat (8 - k))) in
        n ← on (dh_write [byte.of_Z c]);
        assertM (n =? 1) ;;
        flush_loop f (nbits - k)
  end.

Definition flush : M (t H) unit :=
  s ← getM;
  flush_loop (S (used_ s)) (used_ s) ;;
  modifyM (fun s => set_buffer 0 0 (bits_ s) s).

Definition flush_full : M (t H) unit :=
  s ← getM;
  if decide (used_ s = BITS) then
    flush ;;
    s ← getM;
    assertM (bool_decide (used_ s = 0%nat)) ;;
    assertM (buffer_ s =? 0)
  else mret tt.

Fixpoint write_loop (fuel : nat) (code : Z) (nbits : nat) : M (t H) unit :=
  match fuel with
  | O => liftM NoFuel
  | S f =>
      if decide (nbits = 0%nat) then mret tt
      else
        flush_full ;;
        s ← getM;
        let k := Nat.min (Nat.min nbits (BITS - used_ s)) 8 in
        b ← liftM (shl (buffer_ s) k);
        v ← liftM (shr code (nbits - k));
        putM (set_buffer (Z.lor b (Z.land v (mask k))) (used_ s + k) (wrapU 64 (bits_ s + Z.of_nat k)) s) ;;
        write_loop f code (nbits - k)
  end.

Definition write (code : Z) (nbits : nat) : M (t H) unit :=
  modifyM set_write ;;
  s ← getM;
  (if opened_ s then mret tt else on (dh_openForWrite 0) ;; modifyM set_opened) ;;
  write_loop (S nbits) code nbits.

(** Up to [i] bytes from the handle into the buffer. *)
Fixpoint fill (i : nat) : M (t H) unit :=
  match i with
  | O => mret tt
  | S i =>
      '(n, bytes) ← on (dh_read 1);
      if n <=? 0 then modifyM set_eof
      else
        match bytes with
        | [] => liftM Undef
        | c :: _ =>
            modifyM (fun s => set_buffer (Z.lor (wrapU 64 (Z.shiftl (buffer_ s) 8)) (byte.unsigned c))
                                (used_ s + 8) (wrapU 64 (bits_ s + 8)) s) ;;
            fill i
        end
  end.

(** An empty buffer is filled, and its bits moved to the top. *)
Definition refill : M (t H) unit :=
  s ← getM;
  if decide (used_ s = 0%nat) then
    (if eof_ s then mret tt else modifyM (fun s => set_buffer 0 (used_ s) (bits_ s) s) ;; fill 8) ;;
    s ← getM;
    if decide (used_ s = 0%nat) then mret tt
    else
      b ← liftM (shl (buffer_ s) (BITS - used_ s));
      putM (set_buffer b (used_ s) (bits_ s) s)
  else mret tt.

(** Up to 8 bits from the top of the buffer to the end of the result. *)
Definition consume (nbits : nat) (result : Z) : M (t H) (nat * Z) :=
  s ← getM;
  let k := Nat.min (Nat.min nbits (used_ s)) 8 in
  r ← liftM (shl result k);
  v ← liftM (shr (buffer_ s) (BITS - k));
  b ← liftM (shl (buffer_ s) k);
  putM (set_buffer b (used_ s - k) (bits_ s) s) ;;
  mret (k, Z.lor r (Z.land v (mask k))).

Fixpoint read_loop (fuel : nat) (nbits : nat) (EOF_MARKER : Z) (result : Z) (count asked : nat) : M (t H) Z :=
  match fuel with
  | O => liftM NoFuel
  | S f =>
      if decide (nbits = 0%nat) then mret result
      else
        refill ;;
        s ← getM;
        if decide (used_ s = 0%nat) then
          if padded_ s && bool_decide (0 < count)%nat then
            modifyM (set_padded false) ;; liftM (shl result (asked - count))
          else if EOF_MARKER =? 0 then throwM ReadError else mret EOF_MARKER
        else
          '(k, r) ← consume nbits result;
          read_loop f (nbits - k) EOF_MARKER r (count + k) asked
  end.

Definition read (nbits : nat) (EOF_MARKER : Z) : M (t H) Z :=
  s ← getM;
  (if opened_ s then mret tt else (_ ← on dh_openForRead; modifyM set_opened)) ;;
  read_loop (S nbits) nbits EOF_MARKER 0 0 nbits.

Definition bitCount s : Z := bits_ s.
Definition byteCount s : Z := wrapU 64 (bits_ s + 7) / 8.

(** The destructor. *)
Definition destroy : M (t H) unit :=
  s ← getM;
  (if write_ s then flush else mret tt) ;;
  s ← getM;
  if opened_ s then on dh_close else mret tt.

End BitIO.

(** ** Writing *)

Lemma mask_ones k : (k <= 8)%nat -> mask k = Z.ones (Z.of_nat k).
Proof. intros Hk. do 9 (destruct k as [|k]; [done|]). lia. Qed.

Lemma land_mask v k : (k <= 8)%nat -> Z.land v (mask k) = v mod 2 ^ Z.of_nat k.
Proof. intros. rewrite mask_ones by done. apply Z.land_ones. lia. Qed.

Lemma to_bits_mod n v : to_bits n (v mod 2 ^ Z.of_nat n) = to_bits n v.
Proof. apply to_bits_ext. intros i Hi. apply Z.mod_pow2_bits_low. lia. Qed.

Lemma to_bits_0 n : to_bits n 0 = replicate n false.
Proof. induction n as [|n IH]; simpl; [done|]. by rewrite IH, Z.bits_0. Qed.

Lemma shr_ok x n : (n < 64)%nat -> shr x n = Ok (Z.shiftr x (Z.of_nat n)).
Proof. intros. unfold shr. by rewrite decide_True. Qed.
Lemma shl_ok x n : (n < 64)%nat -> shl x n = Ok (wrapU 64 (Z.shiftl x (Z.of_nat n))).
Proof. intros. unfold shl. by rewrite decide_True. Qed.

(** The byte made of the top [k] bits that are left. *)
Lemma flush_byte_bits v k :
  (k <= 8)%nat ->
  bytes_bits [byte.of_Z (wrapU 8 (Z.shiftl (Z.land v (mask k)) (Z.of_nat (8 - k))))] =
  to_bits k v ++ replicate (8 - k) false.
Proof.
  intros Hk. unfold bytes_bits. cbn [mbind list_bind app]. rewrite app_nil_r, byte.unsigned_of_Z.
  unfold byte.wrap, wrapU. rewrite Z.mod_mod by lia. change (2 ^ 8) with (2 ^ Z.of_nat 8). rewrite to_bits_mod.
  rewrite land_mask by done. rewrite <- (Z.lor_0_r (Z.shiftl _ _)).
  replace 8%nat with (k + (8 - k))%nat at 1 by lia.
  rewrite to_bits_push, to_bits_mod, to_bits_0 by lia. done.
Qed.

Lemma bytes_bits_app l k : bytes_bits (l ++ k) = bytes_bits l ++ bytes_bits k.
Proof. apply bind_app. Qed.

Lemma length_bytes_bits l : length (bytes_bits l) = (8 * length l)%nat.
Proof.
  induction l as [|b l IH]; [done|]. change (b :: l) with ([b] ++ l).
  rewrite bytes_bits_app, !length_app, IH. unfold bytes_bits. cbn [mbind list_bind app].
  rewrite app_nil_r, length_to_bits. simpl. lia.
Qed.

Section Writer.
Context {H : Type} `{SinkHandle H}.
Implicit Types s : t H.

Lemma on_ok {A} (m : M H A) s a h : m (handle_ s) = (Ok a, h) -> on m s = (Ok a, set_handle h s).
Proof. unfold on. by intros ->. Qed.

Lemma flush_loop_ok fuel : forall nbits s out room,
  (nbits < fuel)%nat -> (nbits <= 64)%nat -> writable (handle_ s) true out room -> (nbits <= 8 * room)%nat ->
  exists h bs pad, flush_loop fuel nbits s = (Ok tt, set_handle h s) /\
    writable h true (out ++ bs) (room - length bs) /\
    bytes_bits bs = to_bits nbits (buffer_ s) ++ replicate pad false /\ (pad < 8)%nat /\ (length bs <= room)%nat.
Proof.
  induction fuel as [|fuel IH]; intros nbits s out room Hf H64 Hw Hr; [lia|]. cbn [flush_loop].
  destruct (decide (nbits = 0%nat)) as [->|Hn].
  { exists (handle_ s), [], 0%nat. simpl length. rewrite app_nil_r, Nat.sub_0_r. split_and!; [by destruct s|done..|lia|lia]. }
  rewrite M_bind_get. set (k := Nat.min nbits 8).
  rewrite shr_ok by lia. rewrite M_bind_lift.
  set (b := byte.of_Z _). destruct (snk_write _ _ _ [b] Hw ltac:(simpl; lia)) as (h1 & E1 & Hw1).
  rewrite (M_bind_Ok _ _ _ _ _ (on_ok _ _ _ _ E1)), (M_bind_Ok (assertM _) _ _ tt (set_handle h1 s)) by done.
  destruct (IH (nbits - k)%nat (set_handle h1 s) _ _ ltac:(lia) ltac:(lia) Hw1) as (h2 & bs & pad & E2 & Hw2 & Hb & Hp & Hl).
  { simpl. lia. }
  exists h2, (b :: bs), (if decide (nbits < 8)%nat then 8 - nbits else pad)%nat. rewrite E2.
  rewrite <- app_assoc in Hw2. simpl in Hl, Hw2. split_and!; [done| | | |simpl; lia].
  { by replace (room - length (b :: bs))%nat with (room - 1 - length bs)%nat by (simpl; lia). }
  2: { case_decide; lia. }
  change (b :: bs) with ([b] ++ bs). rewrite bytes_bits_app, Hb. unfold b. rewrite flush_byte_bits by lia.
  simpl buffer_. case_decide.
  - assert (pad = 0%nat) as ->.
    { apply (f_equal length) in Hb. rewrite length_bytes_bits, length_app, length_replicate, length_to_bits in Hb. lia. }
    replace k with nbits by lia. rewrite Nat.sub_diag. simpl. by rewrite Z.shiftr_0_r, !app_nil_r.
  - replace k with 8%nat by lia. simpl replicate. rewrite app_nil_r, app_assoc, <- to_bits_app. do 2 f_equal. lia.
Qed.

(** [l] has been written: whole bytes to the handle, the rest in the buffer. *)
Definition written s (l : list bool) (cap : nat) : Prop :=
  exists out, writable (handle_ s) (opened_ s) out (cap - length out) /\
    l = bytes_bits out ++ to_bits (used_ s) (buffer_ s) /\
    (used_ s <= 64)%nat /\ 0 <= buffer_ s < 2 ^ Z.of_nat (used_ s) /\ (length l <= 8 * cap)%nat /\
    bits_ s = wrapU 64 (zlen l) /\ opened_ s = write_ s /\ (opened_ s = false -> l = []).

Lemma written_new h padded cap : writable h false [] cap -> written (new h padded) [] cap.
Proof. intros Hw. exists []. simpl. rewrite Nat.sub_0_r. split_and!; try done; lia. Qed.

Lemma flush_ok s l cap :
  written s l cap -> opened_ s = true ->
  exists h out pad, flush s = (Ok tt, set_buffer 0 0 (bits_ s) (set_handle h s)) /\
    writable h true out (cap - length out) /\ (length out <= cap)%nat /\
    bytes_bits out = l ++ replicate pad false /\ (pad < 8)%nat.
Proof.
  intros (out & Hw & -> & Hu & Hb & Hl & _) Ho. rewrite Ho in Hw.
  rewrite length_app, length_bytes_bits, length_to_bits in Hl.
  destruct (flush_loop_ok (S (used_ s)) (used_ s) s out _ ltac:(lia) Hu Hw ltac:(lia))
    as (h & bs & pad & E & Hw' & Hbs & Hp & Hr).
  exists h, (out ++ bs), pad. unfold flush. rewrite M_bind_get.
  rewrite (M_bind_Ok _ _ _ _ _ E). rewrite length_app, bytes_bits_app, Hbs, app_assoc, Nat.sub_add_distr.
  split_and!; try done. lia.
Qed.

Lemma flush_full_ok s l cap :
  written s l cap -> opened_ s = true ->
  exists s', flush_full s = (Ok tt, s') /\ written s' l cap /\ opened_ s' = true /\ (used_ s' < 64)%nat.
Proof.
  intros Hw Ho. unfold flush_full. rewrite M_bind_get. case_decide as Hu.
  2: { exists s. split_and!; try done. destruct Hw as (? & ? & ? & Hu' & ?). unfold BITS in Hu. lia. }
  destruct (flush_ok s l cap Hw Ho) as (h & out & pad & E & Hw' & Hc & Hb & Hp).
  destruct Hw as (out0 & _ & Hl & _ & _ & Hlen & Hbits & Hopen & _).
  assert (pad = 0%nat) as ->.
  { apply (f_equal length) in Hb, Hl. rewrite length_app, length_replicate, length_bytes_bits in Hb.
    rewrite length_app, length_bytes_bits, length_to_bits, Hu in Hl. unfold BITS in Hl. lia. }
  rewrite (M_bind_Ok _ _ _ _ _ E). eexists. split; [done|]. split_and!; try done; [|simpl; lia].
  exists out. simpl. simpl in Hb. rewrite app_nil_r in Hb. rewrite Ho, app_nil_r, Hb.
  split_and!; try done; try lia; congruence.
Qed.

Lemma bits_write_loop_ok fuel : forall nbits code s l cap,
  (nbits < fuel)%nat -> (nbits <= 64)%nat -> written s l cap -> opened_ s = true -> (length l + nbits <= 8 * cap)%nat ->
  exists s', write_loop fuel code nbits s = (Ok tt, s') /\ written s' (l ++ to_bits nbits code) cap /\ opened_ s' = true.
Proof.
  induction fuel as [|fuel IH]; intros nbits code s l cap Hf H64 Hw Ho Hcap; [lia|]. cbn [write_loop].
  destruct (decide (nbits = 0%nat)) as [->|Hn]. { exists s. simpl. by rewrite app_nil_r. }
  destruct (flush_full_ok s l cap Hw Ho) as (s1 & E1 & Hw1 & Ho1 & Hu1).
  rewrite (M_bind_Ok _ _ _ _ _ E1), M_bind_get.
  unfold BITS. set (k := Nat.min (Nat.min nbits (64 - used_ s1)) 8).
  rewrite shl_ok, shr_ok by lia. rewrite !M_bind_lift, M_bind_put.
  destruct Hw1 as (out & Hw1 & Hl & Hu & Hb & Hlen & Hbits & Hopen & Hclosed).
  set (v := Z.shiftr code (Z.of_nat (nbits - k))). set (b' := Z.lor _ _).
  assert (Hsh : 0 <= buffer_ s1 * 2 ^ Z.of_nat k < 2 ^ Z.of_nat (used_ s1 + k)).
  { rewrite Nat2Z.inj_add, Z.pow_add_r by lia. nia. }
  pose proof (Z.pow_le_mono_r 2 (Z.of_nat (used_ s1 + k)) 64 ltac:(lia) ltac:(lia)) as H2.
  pose proof (Z.mod_pos_bound v (2 ^ Z.of_nat k) ltac:(lia)) as Hv.
  assert (Eb : b' = Z.lor (Z.shiftl (buffer_ s1) (Z.of_nat k)) (v mod 2 ^ Z.of_nat k)).
  { unfold b'. rewrite land_mask by lia. f_equal. apply Z.mod_small. rewrite Z.shiftl_mul_pow2; lia. }
  destruct (IH (nbits - k)%nat code (set_buffer b' (used_ s1 + k) (wrapU 64 (bits_ s1 + Z.of_nat k)) s1)
    (l ++ to_bits k v) cap) as (s2 & E2 & Hw2 & Ho2); try lia; try done.
  - exists out. simpl. rewrite Eb, to_bits_push, to_bits_mod, app_assoc, <- Hl by lia.
    split_and!; try done; try lia.
    + rewrite lor_shiftl by lia. lia.
    + rewrite lor_shiftl by lia. rewrite Nat2Z.inj_add, Z.pow_add_r by lia. nia.
    + rewrite length_app, length_to_bits. lia.
    + rewrite Hbits, zlen_app. unfold wrapU, zlen at 3. rewrite length_to_bits. by rewrite Z.add_mod_idemp_l.
    + congruence.
  - rewrite length_app, length_to_bits. lia.
  - exists s2. split_and!; try done. rewrite <- app_assoc in Hw2. unfold v in Hw2. rewrite <- to_bits_app in Hw2.
    by replace (k + (nbits - k))%nat with nbits in Hw2 by lia.
Qed.

Lemma write_ok code nbits s l cap :
  (nbits <= 64)%nat -> written s l cap -> (length l + nbits <= 8 * cap)%nat ->
  exists s', write code nbits s = (Ok tt, s') /\ written s' (l ++ to_bits nbits code) cap /\ opened_ s' = true.
Proof.
  intros H64 (out & Hw & Hl & Hu & Hb & Hlen & Hbits & Hopen & Hclosed) Hcap.
  unfold write. rewrite M_bind_modify, M_bind_get. simpl opened_.
  destruct (opened_ s) eqn:Eo.
  - rewrite M_bind_ret. apply bits_write_loop_ok; try lia; [|done].
    exists out. simpl. rewrite Eo. split_and!; try done; lia.
  - specialize (Hclosed eq_refl). rewrite Hclosed in Hl. symmetry in Hl. apply app_eq_nil in Hl as [Hout Hbuf]. subst l.
    apply (f_equal length) in Hout, Hbuf. rewrite length_bytes_bits in Hout. rewrite length_to_bits in Hbuf.
    simpl in Hout, Hbuf. destruct out; [|simpl in Hout; lia].
    destruct (snk_open (handle_ s) 0 _ ltac:(lia) Hw) as (h & E & Hw').
    rewrite (M_bind_Ok _ _ _ tt (set_opened (set_handle h (set_write s)))).
    2: { by rewrite (M_bind_Ok _ _ _ _ _ (on_ok _ (set_write s) _ _ E)). }
    apply bits_write_loop_ok; try lia; [|done]. exists []. simpl. rewrite Hbuf in *. split_and!; try done; lia.
Qed.

(** After the destructor the handle is closed and has the bits, padded with zeros
    to whole bytes. *)
Lemma destroy_written_ok s l cap :
  written s l cap ->
  exists s' out pad, destroy s = (Ok tt, s') /\ writable (handle_ s') false out (cap - length out) /\
    bytes_bits out = l ++ replicate pad false /\ (pad < 8)%nat /\ (length out <= cap)%nat.
Proof.
  intros Hw. destruct (opened_ s) eqn:Eo.
  - destruct (flush_ok s l cap Hw Eo) as (h & out & pad & E & Hw' & Hc & Hb & Hp).
    destruct (snk_close _ _ _ Hw') as (h' & E' & Hw''). destruct Hw as (_ & _ & _ & _ & _ & _ & _ & Hopen & _).
    unfold destroy. rewrite M_bind_get. rewrite <- Hopen, Eo, (M_bind_Ok _ _ _ _ _ E).
    rewrite M_bind_get. cbn [opened_ set_buffer set_handle]. rewrite Eo, (on_ok _ (set_buffer 0 0 (bits_ s) (set_handle h s)) _ _ E').
    eexists _, out, pad. by split_and!.
  - destruct Hw as (out & Hw & Hl & _ & _ & _ & _ & Hopen & Hclosed). rewrite Hclosed in * by done.
    symmetry in Hl. apply app_eq_nil in Hl as [Hout _]. apply (f_equal length) in Hout.
    rewrite length_bytes_bits in Hout. destruct out; [|simpl in Hout; lia].
    exists s, [], 0%nat. unfold destroy. rewrite M_bind_get. rewrite <- Hopen, Eo.
    rewrite M_bind_ret, M_bind_get. rewrite Eo in *. split_and!; try done; simpl; lia.
Qed.

Lemma byteCount_written s l cap :
  written s l cap -> zlen l + 7 < 2 ^ 64 -> byteCount s = (zlen l + 7) / 8.
Proof.
  intros (out & _ & _ & _ & _ & _ & Hbits & _) Hl. unfold byteCount. pose proof (zlen_nonneg l).
  rewrite Hbits. unfold wrapU. rewrite (Z.mod_small (zlen l)), Z.mod_small by lia. done.
Qed.
End Writer.

(** ** Reading *)

Section Reader.
Context {H : Type} `{SourceHandle H}.
Implicit Types s : t H.

Lemma on_source_ok {A} (m : M H A) s a h : m (handle_ s) = (Ok a, h) -> on m s = (Ok a, set_handle h s).
Proof. unfold on. by intros ->. Qed.

Lemma bits_fill_ok i : forall s c p,
  readable (handle_ s) c (Some p) -> eof_ s = false -> (used_ s + 8 * i <= 64)%nat ->
  0 <= buffer_ s < 2 ^ Z.of_nat (used_ s) ->
  let got := take i (drop p c) in
  exists s', fill i s = (Ok tt, s') /\ readable (handle_ s') c (Some (p + length got)%nat) /\
    used_ s' = (used_ s + 8 * length got)%nat /\
    to_bits (used_ s') (buffer_ s') = to_bits (used_ s) (buffer_ s) ++ bytes_bits got /\
    0 <= buffer_ s' < 2 ^ Z.of_nat (used_ s') /\
    (eof_ s' = true -> (p + length got)%nat = length c) /\
    opened_ s' = opened_ s /\ padded_ s' = padded_ s /\ write_ s' = write_ s.
Proof.
  induction i as [|i IH]; intros s c p Hr He Hu Hb got; cbn [fill].
  { exists s. unfold got. simpl. rewrite !Nat.add_0_r, app_nil_r. split_and!; try done; try lia. congruence. }
  pose proof (readable_bound _ _ _ Hr) as Hp.
  destruct (src_read _ c p 1 Hr ltac:(lia)) as (h & E & Hr'). change (Z.to_nat 1) with 1%nat in *.
  rewrite (M_bind_Ok _ _ _ _ _ (on_source_ok _ _ _ _ E)). subst got.
  destruct (drop p c) as [|x rest] eqn:Ed; simpl in E, Hr' |- *.
  { exists (set_eof (set_handle h s)). apply (f_equal length) in Ed. rewrite length_drop in Ed. simpl in Ed.
    change (zlen []) with 0. simpl. rewrite !Nat.add_0_r in *. rewrite app_nil_r. split_and!; try done; lia. }
  change (zlen [x]) with 1. simpl. rewrite M_bind_modify.
  set (s1 := set_buffer _ _ _ _). pose proof (byte.unsigned_range x) as Hx.
  assert (Eb : buffer_ s1 = Z.lor (Z.shiftl (buffer_ s) (Z.of_nat 8)) (byte.unsigned x)).
  { unfold s1. simpl. f_equal. apply Z.mod_small. rewrite Z.shiftl_mul_pow2 by lia.
    pose proof (Z.pow_le_mono_r 2 (Z.of_nat (used_ s) + 8) 64 ltac:(lia) ltac:(lia)). rewrite Z.pow_add_r in * by lia. lia. }
  assert (Hdrop : drop (p + 1) c = rest) by (by rewrite <- drop_drop, Ed).
  destruct (IH s1 c (p + 1)%nat) as (s2 & E2 & Hr2 & Hu2 & Hb2 & Hr3 & He2 & Ho2 & Hp2 & Hw2); try done.
  - simpl. lia.
  - rewrite Eb, lor_shiftl by lia. simpl. rewrite Nat2Z.inj_add, Z.pow_add_r by lia.
    change (2 ^ Z.of_nat 8) with 256 in *. lia.
  - rewrite Hdrop in *. exists s2. simpl in Hu2. rewrite <- Nat.add_assoc in Hr2, He2.
    simpl in Hr2, He2. rewrite <- plus_n_Sm in *. split_and!; try done; try lia.
    rewrite Hb2, Eb. unfold s1. simpl used_. rewrite to_bits_push by lia.
    by rewrite bytes_bits_cons, app_assoc.
Qed.

(** The bits that are still to be read: those at the top of the buffer, then the
    bytes that the handle has not given yet. *)
Definition remaining s (l : list bool) : Prop :=
  exists c p, readable (handle_ s) c (if opened_ s then Some p else None) /\
    (opened_ s = false -> p = 0%nat /\ used_ s = 0%nat /\ eof_ s = false) /\ write_ s = false /\
    (eof_ s = true -> p = length c) /\ (used_ s <= 64)%nat /\ 0 <= buffer_ s < 2 ^ 64 /\
    l = to_bits (used_ s) (Z.shiftr (buffer_ s) (Z.of_nat (64 - used_ s))) ++ bytes_bits (drop p c).

Lemma remaining_new h padded c : readable h c None -> remaining (new h padded) (bytes_bits c).
Proof. intros Hr. exists c, 0%nat. simpl. split_and!; try done; lia. Qed.

Lemma refill_ok s l :
  remaining s l -> opened_ s = true ->
  exists s', refill s = (Ok tt, s') /\ remaining s' l /\ opened_ s' = true /\ padded_ s' = padded_ s /\
    (used_ s' = 0%nat -> l = []).
Proof.
  intros Hrem Ho. unfold refill. rewrite M_bind_get. case_decide as Hu; [|by exists s].
  destruct Hrem as (c & p & Hr & _ & Hwr & He & _ & Hb & Hl). rewrite Ho in Hr. rewrite Hu in Hl. simpl in Hl.
  destruct (eof_ s) eqn:Eeof.
  { rewrite M_bind_ret, M_bind_get, decide_True by done. exists s. rewrite He in * by done.
    rewrite drop_all in Hl. split_and!; try done. exists c, (length c). rewrite Ho, Hu, Eeof, drop_all. split_and!; try done; lia. }
  set (s1 := set_buffer 0 (used_ s) (bits_ s) s).
  destruct (bits_fill_ok 8 s1 c p) as (s2 & E2 & Hr2 & Hu2 & Hb2 & Hbb & He2 & Ho2 & Hp2 & Hw2); try done.
  { simpl. lia. } { simpl. rewrite Hu. simpl. lia. }
  rewrite (M_bind_Ok _ _ _ tt s2) by (by rewrite M_bind_modify). rewrite M_bind_get.
  set (got := take 8 (drop p c)) in *. simpl in Hu2, Hb2. rewrite Hu in Hu2, Hb2. simpl in Hu2, Hb2.
  pose proof (firstn_le_length 8 (drop p c)) as Hg. change (firstn 8 (drop p c)) with got in Hg.
  assert (Hsplit : drop p c = got ++ drop (p + length got) c).
  { unfold got. rewrite <- drop_drop. rewrite length_take. rewrite <- (firstn_skipn 8 (drop p c)) at 1. f_equal.
    destruct (Nat.le_ge_cases 8 (length (drop p c))); [by rewrite Nat.min_l|].
    rewrite Nat.min_r, drop_all, drop_ge by done. done. }
  assert (Hl' : l = to_bits (used_ s2) (buffer_ s2) ++ bytes_bits (drop (p + length got) c)).
  { by rewrite Hb2, <- bytes_bits_app, <- Hsplit. }
  case_decide as Hu0.
  - assert (Eg : length got = 0%nat) by lia. apply nil_length_inv in Eg.
    assert (Hnil : l = []). { rewrite Hl. unfold got in Eg. by destruct (drop p c). }
    exists s2. split_and!; try done; [|by rewrite Ho2]. exists c, (p + length got)%nat. rewrite Ho2. simpl.
    rewrite Ho, Hu0. rewrite Hu0 in Hbb. simpl in Hbb. split_and!; try done; try lia; [by rewrite Hw2|]. rewrite Hl', Hu0. done.
  - unfold BITS. rewrite shl_ok by lia. rewrite M_bind_lift. eexists. split; [done|]. simpl.
    assert (Hs : 0 <= Z.shiftl (buffer_ s2) (Z.of_nat (64 - used_ s2)) < 2 ^ 64).
    { rewrite Z.shiftl_mul_pow2 by lia.
      replace (2 ^ 64) with (2 ^ Z.of_nat (used_ s2) * 2 ^ Z.of_nat (64 - used_ s2)) by (rewrite <- Z.pow_add_r by lia; f_equal; lia).
      nia. }
    split_and!; [|by rewrite Ho2|done|lia]. exists c, (p + length got)%nat. simpl. rewrite Ho2. simpl. rewrite Ho.
    split_and!; try done; try lia; try (apply Z.mod_pos_bound; lia); [by rewrite Hw2|]. rewrite Hl'. f_equal. f_equal.
    unfold wrapU. rewrite Z.mod_small, Z.shiftr_shiftl_l, Z.sub_diag by lia. done.
Qed.

(** Taking bits from the top of a word. *)
Lemma top_bits b u k :
  (k <= u <= 64)%nat -> 0 <= b < 2 ^ 64 ->
  to_bits u (Z.shiftr b (Z.of_nat (64 - u))) =
  to_bits k (Z.shiftr b (Z.of_nat (64 - k))) ++
  to_bits (u - k) (Z.shiftr (wrapU 64 (Z.shiftl b (Z.of_nat k))) (Z.of_nat (64 - (u - k)))).
Proof.
  intros Hk Hb. replace u with (k + (u - k))%nat at 1 by lia. rewrite to_bits_app. f_equal.
  - rewrite Z.shiftr_shiftr by lia. do 2 f_equal. lia.
  - apply to_bits_ext. intros i Hi. rewrite !Z.shiftr_spec by lia. unfold wrapU.
    rewrite Z.mod_pow2_bits_low, Z.shiftl_spec by lia. f_equal. lia.
Qed.

Lemma consume_ok s l nbits result count :
  remaining s l -> opened_ s = true -> used_ s <> 0%nat -> (0 < nbits)%nat -> (count + nbits <= 64)%nat ->
  0 <= result < 2 ^ Z.of_nat count ->
  exists k s', consume nbits result s = (Ok (k, result * 2 ^ Z.of_nat k + of_bits (take k l)), s') /\
    remaining s' (drop k l) /\ opened_ s' = true /\ padded_ s' = padded_ s /\
    (0 < k <= nbits)%nat /\ (k <= length l)%nat.
Proof.
  intros (c & p & Hr & _ & Hwr & He & Hu & Hb & Hl) Ho Hu0 Hn Hcount Hres. unfold consume. rewrite M_bind_get.
  set (k := Nat.min (Nat.min nbits (used_ s)) 8). unfold BITS. rewrite !shl_ok, shr_ok by lia. rewrite !M_bind_lift, M_bind_put.
  rewrite (top_bits (buffer_ s) (used_ s) k ltac:(lia) Hb), <- app_assoc in Hl.
  assert (Hres2 : 0 <= result * 2 ^ Z.of_nat k < 2 ^ 64).
  { pose proof (Z.pow_le_mono_r 2 (Z.of_nat count + Z.of_nat k) 64 ltac:(lia) ltac:(lia)) as H2.
    rewrite Z.pow_add_r in H2 by lia. nia. }
  assert (Eres : Z.lor (wrapU 64 (Z.shiftl result (Z.of_nat k))) (Z.land (Z.shiftr (buffer_ s) (Z.of_nat (64 - k))) (mask k)) =
                 result * 2 ^ Z.of_nat k + of_bits (take k l)).
  { rewrite Hl, take_app_length', of_to_bits, land_mask by (rewrite ?length_to_bits; lia).
    unfold wrapU. rewrite (Z.mod_small (Z.shiftl result _)) by (rewrite Z.shiftl_mul_pow2; lia).
    apply lor_shiftl; [lia|]. apply Z.mod_pos_bound. lia. }
  rewrite Eres. exists k. eexists. split; [done|].
  split_and!; try done; try lia; [|rewrite Hl, length_app, length_to_bits; lia].
  exists c, p. simpl. rewrite Ho in *. split_and!; try done; try lia; try (apply Z.mod_pos_bound; lia).
  rewrite Hl at 1. rewrite drop_app_length' by (by rewrite length_to_bits). done.
Qed.

(** What reading [nbits] bits gives, after [count] bits with value [result]. *)
Definition read_result (padded : bool) (EOF_MARKER : Z) (nbits : nat) (result : Z) (count : nat) (l : list bool) : outcome Z :=
  if decide (nbits <= length l)%nat then Ok (result * 2 ^ Z.of_nat nbits + of_bits (take nbits l))
  else if padded && bool_decide (0 < count + length l)%nat
       then Ok (result * 2 ^ Z.of_nat nbits + of_bits l * 2 ^ Z.of_nat (nbits - length l))
  else if EOF_MARKER =? 0 then Throw ReadError else Ok EOF_MARKER.

Lemma read_result_step padded eof nbits result count l k :
  (k <= nbits)%nat -> (k <= length l)%nat ->
  read_result padded eof (nbits - k) (result * 2 ^ Z.of_nat k + of_bits (take k l)) (count + k) (drop k l) =
  read_result padded eof nbits result count l.
Proof.
  intros Hk Hl. unfold read_result. rewrite length_drop.
  assert (E2 : 2 ^ Z.of_nat nbits = 2 ^ Z.of_nat k * 2 ^ Z.of_nat (nbits - k)).
  { rewrite <- Z.pow_add_r by lia. f_equal. lia. }
  destruct (decide (nbits - k <= length l - k)%nat), (decide (nbits <= length l)%nat); try lia.
  - f_equal. rewrite <- (take_drop k (take nbits l)), of_bits_app.
    rewrite take_take, Nat.min_l, skipn_firstn_comm by lia.
    unfold zlen. rewrite length_take, length_drop, Nat.min_l by lia. lia.
  - replace (count + k + (length l - k))%nat with (count + length l)%nat by lia.
    replace (nbits - k - (length l - k))%nat with (nbits - length l)%nat by lia.
    destruct (padded && _); [|done]. f_equal. replace (of_bits l) with (of_bits (take k l ++ drop k l)) by (by rewrite take_drop). rewrite of_bits_app.
    unfold zlen. rewrite length_drop. replace (2 ^ Z.of_nat (nbits - k)) with (2 ^ Z.of_nat (length l - k) * 2 ^ Z.of_nat (nbits - length l)) in *.
    + rewrite E2. lia.
    + rewrite <- Z.pow_add_r by lia. f_equal. lia.
Qed.

Lemma bits_read_loop_ok fuel : forall nbits eof result count asked s l,
  (nbits < fuel)%nat -> asked = (count + nbits)%nat -> (asked <= 64)%nat -> 0 <= result < 2 ^ Z.of_nat count ->
  remaining s l -> opened_ s = true ->
  exists s', read_loop fuel nbits eof result count asked s = (read_result (padded_ s) eof nbits result count l, s') /\
    remaining s' (drop nbits l) /\ opened_ s' = true /\ (padded_ s = false -> padded_ s' = false) /\
    ((nbits <= length l)%nat -> padded_ s' = padded_ s).
Proof.
  induction fuel as [|fuel IH]; intros nbits eof result count asked s l Hf Ha H64 Hres Hrem Ho; [lia|]. cbn [read_loop].
  destruct (decide (nbits = 0%nat)) as [->|Hn].
  { exists s. unfold read_result. rewrite decide_True by lia. simpl. rewrite Z.mul_1_r, Z.add_0_r. done. }
  destruct (refill_ok s l Hrem Ho) as (s1 & E1 & Hrem1 & Ho1 & Hp1 & Hz1).
  rewrite (M_bind_Ok _ _ _ _ _ E1), M_bind_get. rewrite <- Hp1. case_decide as Hu.
  - rewrite (Hz1 Hu) in *. unfold read_result. simpl length. rewrite drop_nil, Nat.add_0_r, decide_False, Nat.sub_0_r by lia.
    destruct (padded_ s1 && _) eqn:Epad.
    + rewrite M_bind_modify. apply andb_true_iff in Epad as [Ep Hc]. apply bool_decide_eq_true in Hc.
      rewrite shl_ok by lia. replace (asked - count)%nat with nbits by lia. exists (set_padded false s1). split_and!; try done.
      * unfold liftM. rewrite Z.shiftl_mul_pow2 by lia. do 2 f_equal. unfold wrapU. change (of_bits []) with 0. rewrite Z.add_0_r.
        apply Z.mod_small. pose proof (Z.pow_le_mono_r 2 (Z.of_nat count + Z.of_nat nbits) 64 ltac:(lia) ltac:(lia)) as H2.
        rewrite Z.pow_add_r in H2 by lia. nia.
      * simpl. lia.
    + exists s1. destruct (eof =? 0); split_and!; try done.
  - destruct (consume_ok s1 l nbits result count Hrem1 Ho1 Hu ltac:(lia) ltac:(lia) Hres)
      as (k & s2 & E2 & Hrem2 & Ho2 & Hp2 & Hk & Hkl).
    rewrite (M_bind_Ok _ _ _ _ _ E2).
    destruct (IH (nbits - k)%nat eof (result * 2 ^ Z.of_nat k + of_bits (take k l)) (count + k)%nat asked s2 (drop k l))
      as (s3 & E3 & Hrem3 & Ho3 & Hp3 & Hp4); try done; try lia.
    { pose proof (of_bits_bound (take k l)) as Hob. unfold zlen in Hob. rewrite length_take, Nat.min_l in Hob by lia.
      rewrite Nat2Z.inj_add, Z.pow_add_r by lia. nia. }
    exists s3. rewrite E3, Hp2, read_result_step by lia. rewrite drop_drop in Hrem3.
    replace (k + (nbits - k))%nat with nbits in Hrem3 by lia. rewrite length_drop in Hp4. rewrite Hp2 in Hp3, Hp4.
    split_and!; try done. intros. apply Hp4. lia.
Qed.

Lemma read_ok nbits eof s l :
  (nbits <= 64)%nat -> remaining s l ->
  exists s', read nbits eof s = (read_result (padded_ s) eof nbits 0 0 l, s') /\ remaining s' (drop nbits l) /\
    opened_ s' = true /\ (padded_ s = false -> padded_ s' = false).
Proof.
  intros Hn Hrem. unfold read. rewrite M_bind_get. destruct (opened_ s) eqn:Ho.
  - rewrite M_bind_ret. destruct (bits_read_loop_ok (S nbits) nbits eof 0 0 nbits s l) as (s' & E & Hr & Ho' & Hp & _); try done; try lia.
    by exists s'.
  - destruct Hrem as (c & p & Hr & Hc & Hwr & _ & _ & Hb & Hl). rewrite Ho in Hr. destruct (Hc Ho) as (-> & Hu & He).
    destruct (src_open _ _ Hr) as (h & E & Hr').
    rewrite (M_bind_Ok _ _ _ tt (set_opened (set_handle h s))) by (by rewrite (M_bind_Ok _ _ _ _ _ (on_source_ok _ _ _ _ E))).
    destruct (bits_read_loop_ok (S nbits) nbits eof 0 0 nbits (set_opened (set_handle h s)) l)
      as (s' & E' & Hrem' & Ho' & Hp & _); try done; try lia; [|by exists s'].
    exists c, 0%nat. simpl. rewrite Hu, He in *. split_and!; try done; lia.
Qed.

Lemma destroy_reader_ok s l : remaining s l -> exists s', destroy s = (Ok tt, s').
Proof.
  intros (c & p & Hr & _ & Hw & _). unfold destroy. rewrite M_bind_get, Hw, M_bind_ret, M_bind_get.
  destruct (opened_ s); [|by exists s]. destruct (src_close _ _ _ Hr) as (h & E & _).
  eexists. by rewrite (on_source_ok _ _ _ _ E).
Qed.
End Reader.
End BitIO.

(** ** Fields written and read back *)

Fixpoint write_fields {H} `{DataHandle H} (fields : list (Z * nat)) : M (BitIO.t H) unit :=
  match fields with
  | [] => BitIO.destroy
  | (code, nbits) :: fields => BitIO.write code nbits ;; write_fields fields
  end.

Fixpoint read_fields {H} `{DataHandle H} (widths : list nat) : M (BitIO.t H) (list Z) :=
  match widths with
  | [] => mret []
  | nbits :: widths => code ← BitIO.read nbits 0; codes ← read_fields widths; mret (code :: codes)
  end.

Definition fits (f : Z * nat) : Prop := (f.2 <= 64)%nat /\ 0 <= f.1 < 2 ^ Z.of_nat f.2.
Definition fields_bits (fields : list (Z * nat)) : list bool := fields ≫= fun f => to_bits f.2 f.1.

Lemma fields_bits_cons code n fields : fields_bits ((code, n) :: fields) = to_bits n code ++ fields_bits fields.
Proof. done. Qed.

Lemma write_fields_ok {H} `{SinkHandle H} fields : forall (s : BitIO.t H) l cap,
  Forall fits fields -> BitIO.written s l cap -> (length l + length (fields_bits fields) <= 8 * cap)%nat ->
  exists s' out pad, write_fields fields s = (Ok tt, s') /\
    writable (BitIO.handle_ s') false out (cap - length out) /\
    bytes_bits out = l ++ fields_bits fields ++ replicate pad false /\ (pad < 8)%nat.
Proof.
  induction fields as [|[code n] fields IH]; intros s l cap Hfit Hw Hlen.
  { destruct (BitIO.destroy_written_ok s l cap Hw) as (s' & out & pad & E & Hw' & Hb & Hp & _). by exists s', out, pad. }
  apply Forall_cons in Hfit as [[Hn Hc] Hfit]. simpl in Hn.
  rewrite fields_bits_cons, length_app, length_to_bits in Hlen.
  destruct (BitIO.write_ok code n s l cap Hn Hw ltac:(lia)) as (s1 & E1 & Hw1 & _).
  destruct (IH s1 _ cap Hfit Hw1) as (s' & out & pad & E & Hw' & Hb & Hp).
  { rewrite length_app, length_to_bits. lia. }
  exists s', out, pad. cbn [write_fields]. rewrite (M_bind_Ok _ _ _ _ _ E1), E. split_and!; try done.
  by rewrite Hb, fields_bits_cons, <- !app_assoc.
Qed.

Lemma read_fields_ok {H} `{SourceHandle H} fields : forall (s : BitIO.t H) rest,
  Forall fits fields -> BitIO.remaining s (fields_bits fields ++ rest) ->
  exists s', read_fields (snd <$> fields) s = (Ok (fst <$> fields), s') /\ BitIO.remaining s' rest.
Proof.
  induction fields as [|[code n] fields IH]; intros s rest Hfit Hr; [by exists s|].
  apply Forall_cons in Hfit as [[Hn Hc] Hfit]. simpl in Hn, Hc. rewrite fields_bits_cons, <- app_assoc in Hr.
  destruct (BitIO.read_ok n 0 s _ Hn Hr) as (s1 & E1 & Hr1 & _).
  rewrite drop_app_length' in Hr1 by (by rewrite length_to_bits).
  unfold BitIO.read_result in E1. rewrite decide_True in E1 by (rewrite length_app, length_to_bits; lia).
  rewrite take_app_length', of_to_bits, Z.mod_small in E1 by (rewrite ?length_to_bits; lia).
  destruct (IH s1 rest Hfit Hr1) as (s2 & E2 & Hr2). exists s2. split; [|done].
  cbn [fmap list_fmap read_fields fst snd]. rewrite (M_bind_Ok _ _ _ _ _ E1), (M_bind_Ok _ _ _ _ _ E2). done.
Qed.

(** Numbers written with their widths to any sink are read back, with the same
    widths, from any source that has what the sink received. *)
Theorem bitio_roundtrip {H1} `{SinkHandle H1} {H2} `{SourceHandle H2} (h1 : H1) (fields : list (Z * nat)) (cap : nat) :
  Forall fits fields -> writable h1 false [] cap -> (length (fields_bits fields) <= 8 * cap)%nat ->
  exists s out, write_fields fields (BitIO.new h1 false) = (Ok tt, s) /\
    writable (BitIO.handle_ s) false out (cap - length out) /\
    forall h2 : H2, readable h2 out None ->
      exists s', read_fields (snd <$> fields) (BitIO.new h2 false) = (Ok (fst <$> fields), s').
Proof.
  intros Hfit Hw Hlen.
  destruct (write_fields_ok fields _ [] cap Hfit (BitIO.written_new h1 false cap Hw) ltac:(simpl; lia))
    as (s & out & pad & E & Hw' & Hb & _).
  exists s, out. split_and!; try done. intros h2 Hr. apply (BitIO.remaining_new h2 false) in Hr. rewrite Hb in Hr.
  destruct (read_fields_ok fields _ _ Hfit Hr) as (s' & E' & _). by exists s'.
Qed.

Lemma bitio_roundtrip_witness :
  let junk := fun _ : nat => "000"%byte in
  exists s out, write_fields (H0 := MemoryHandle.handle junk) [(5, 3%nat); (1000, 10%nat); (77, 64%nat); (1, 1%nat)]
      (BitIO.new (MemoryHandle.owned junk 4 true) false) = (Ok tt, s) /\
    writable (SinkHandle := MemoryHandle.sink junk true) (BitIO.handle_ s) false out (10 - length out) /\
    forall h2, readable (SourceHandle := MemoryHandle.source junk) h2 out None ->
      exists s', read_fields (H0 := MemoryHandle.handle junk) [3; 10; 64; 1]%nat (BitIO.new h2 false) = (Ok [5; 1000; 77; 1], s').
Proof.
  apply (bitio_roundtrip (H1 := MemoryHandle) (H2 := MemoryHandle) _ [(5, 3%nat); (1000, 10%nat); (77, 64%nat); (1, 1%nat)] 10).
  - repeat constructor; simpl; lia.
  - vm_compute. split_and!; congruence.
  - vm_compute. lia.
Defined.
