(* ===== verification/Compress.v ===== *)
(** * LZW compression

    [io/Compress.cc]: the encoder and the decoder between two data handles, with
    codes of 9 to [maxBits_] bits written through [BitIO].  The encoder's table is
    a [std::set] of entries ordered by their characters (a map from the characters
    to the entry), the decoder's a [std::map] from codes. *)
From S2P Require Import Prelude Stream StreamItems MemoryStream Handles BitIO.

Module Compress.

(** [(1 << nbits) - 1] in [int]. *)
Definition MAX_CODE (nbits : nat) : outcome Z :=
  if decide (nbits < 31)%nat then Ok (Z.shiftl 1 (Z.of_nat nbits) - 1) else Undef.

Definition RESET_TABLE : Z := 256.
Definition END_MARKER : Z := 257.
Definition FIRST_CODE : Z := 258.
Definition MIN_BITS : nat := 9.

Record Entry : Type := mkEntry { chars_ : list byte; code_ : Z }.

Definition newEntry (code : Z) : Entry :=
  mkEntry (if code <? 256 then [byte.of_Z code] else []) code.
Definition plus (e : Entry) (c : byte) : Entry := mkEntry (chars_ e ++ [c]) (code_ e).
Definition assign (c : byte) : Entry := mkEntry [c] (byte.unsigned c).
Definition set_code (c : Z) (e : Entry) : Entry := mkEntry (chars_ e) c.
Definition firstChar (e : Entry) : outcome byte :=
  match chars_ e with [] => Throw AssertionFailed | c :: _ => Ok c end.

(** The variables of the two loops. *)
Record Enc : Type := mkEnc {
  code_table : gmap (list byte) Entry;
  nbits : nat;
  next_code : Z;
  max_code : Z;
  w : Entry }.

Record Dec : Type := mkDec {
  table : gmap Z Entry;
  nbits_d : nat;
  next_code_d : Z;
  max_code_d : Z;
  w_d : Entry }.

Definition codes256 : list Z := seqZ 0 256.
Definition init_set : gmap (list byte) Entry :=
  list_to_map ((fun c => (chars_ (newEntry c), newEntry c)) <$> codes256).
Definition init_map : gmap Z Entry := list_to_map ((fun c => (c, newEntry c)) <$> codes256).

Section Compress.
Context {Hin : Type} `{DataHandle Hin} {Hout : Type} `{DataHandle Hout}.
Variable maxBits_ : nat.

Definition io : Type := BitIO.t Hin * BitIO.t Hout.

Definition on_in {A} (m : M (BitIO.t Hin) A) : M io A := fun '(bin, bout) =>
  let '(r, bin) := m bin in (r, (bin, bout)).
Definition on_out {A} (m : M (BitIO.t Hout) A) : M io A := fun '(bin, bout) =>
  let '(r, bout) := m bout in (r, (bin, bout)).

(** [Entry::output]: the code of the entry, or its characters. *)
Definition output_code (e : Entry) (nbits : nat) : M io unit :=
  m ← liftM (MAX_CODE nbits);
  assertM (code_ e <=? m) ;;
  on_out (BitIO.write (code_ e) nbits).

Fixpoint output_chars (chars : list byte) : M io unit :=
  match chars with
  | [] => mret tt
  | c :: chars => on_out (BitIO.write (byte.unsigned c) 8) ;; output_chars chars
  end.
Definition output (e : Entry) : M io unit := output_chars (chars_ e).

Definition next_byte : M io Z := on_in (BitIO.read 8 END_MARKER).

(** *** Encoding *)

(** The code of a new table entry: the width grows, or the table is reset. *)
Definition after_insert (e : Enc) : M io Enc :=
  if max_code e <=? next_code e then
    if decide (nbits e = maxBits_) then
      output_code (newEntry RESET_TABLE) (nbits e) ;;
      m ← liftM (MAX_CODE MIN_BITS);
      mret (mkEnc init_set MIN_BITS FIRST_CODE m (w e))
    else
      m ← liftM (MAX_CODE (nbits e + 1));
      mret (mkEnc (code_table e) (nbits e + 1) (next_code e) m (w e))
  else mret e.

Definition encode_byte (k : Z) (e : Enc) : M io Enc :=
  let wk := plus (w e) (byte.of_Z k) in
  match code_table e !! chars_ wk with
  | Some j => mret (mkEnc (code_table e) (nbits e) (next_code e) (max_code e) j)
  | None =>
      output_code (w e) (nbits e) ;;
      let wk := set_code (next_code e) wk in
      after_insert (mkEnc (<[chars_ wk := wk]> (code_table e)) (nbits e) (next_code e + 1) (max_code e)
                      (assign (byte.of_Z k)))
  end.

Fixpoint encode_loop (fuel : nat) (e : Enc) : M io Enc :=
  match fuel with
  | O => liftM NoFuel
  | S f =>
      k ← next_byte;
      if k =? END_MARKER then mret e
      else e ← encode_byte k e; encode_loop f e
  end.

Definition encode_body (fuel : nat) : M io Z :=
  m ← liftM (MAX_CODE MIN_BITS);
  output_code (newEntry RESET_TABLE) MIN_BITS ;;
  e ← encode_loop fuel (mkEnc init_set MIN_BITS FIRST_CODE m (newEntry END_MARKER));
  (if decide (chars_ (w e) = []) then mret tt else output_code (w e) (nbits e)) ;;
  output_code (newEntry END_MARKER) (nbits e) ;;
  '(_, bout) ← getM;
  mret (BitIO.byteCount bout).

(** *** Decoding *)

(** The first character of the entry that was read extends the previous one. *)
Definition decode_code (k : Z) (d : Dec) : M io Dec :=
  e ← (match table d !! k with
       | Some e => mret e
       | None => assertM (k =? next_code_d d) ;; c ← liftM (firstChar (w_d d)); mret (plus (w_d d) c)
       end);
  output e ;;
  c ← liftM (firstChar e);
  let n := set_code (next_code_d d) (plus (w_d d) c) in
  mret (mkDec (<[next_code_d d := n]> (table d)) (nbits_d d) (next_code_d d + 1) (max_code_d d) e).

(** The width of the next code. *)
Definition widen (d : Dec) : outcome Dec :=
  if max_code_d d <=? next_code_d d then
    let n := Nat.min maxBits_ (nbits_d d + 1) in
    m ← MAX_CODE n;
    Ok (mkDec (table d) n (next_code_d d) (m - 1) (w_d d))
  else Ok d.

Fixpoint decode_loop (fuel : nat) (d : Dec) : M io unit :=
  match fuel with
  | O => liftM NoFuel
  | S f =>
      d ← liftM (widen d);
      k ← on_in (BitIO.read (nbits_d d) END_MARKER);
      if k =? END_MARKER then mret tt
      else if k =? RESET_TABLE then
        m ← liftM (MAX_CODE MIN_BITS);
        k ← on_in (BitIO.read MIN_BITS END_MARKER);
        if k =? END_MARKER then mret tt
        else
          let w := assign (byte.of_Z k) in
          output w ;;
          decode_loop f (mkDec init_map MIN_BITS FIRST_CODE (m - 1) w)
      else d ← decode_code k d; decode_loop f d
  end.

Definition decode_body (fuel : nat) : M io Z :=
  m ← liftM (MAX_CODE MIN_BITS);
  decode_loop fuel (mkDec init_map MIN_BITS FIRST_CODE (m - 1) (newEntry END_MARKER)) ;;
  '(_, bout) ← getM;
  mret (BitIO.byteCount bout).

(** The two [BitIO] objects live as long as the call; they are destroyed whether
    it returns or throws.  A destructor that throws ends the program. *)
Definition scoped {A} (body : M io A) : M (Hin * Hout) A := fun '(hin, hout) =>
  let '(r, (bin, bout)) := body (BitIO.new hin false, BitIO.new hout false) in
  let '(r1, bout) := BitIO.destroy bout in
  let '(r2, bin) := BitIO.destroy bin in
  (a ← r; r1 ;; r2 ;; Ok a, (BitIO.handle_ bin, BitIO.handle_ bout)).

Definition encode (fuel : nat) : M (Hin * Hout) Z := scoped (encode_body fuel).
Definition decode (fuel : nat) : M (Hin * Hout) Z := scoped (decode_body fuel).

End Compress.

(** ** The codes that are written

    The encoder without the handles: the codes, with their widths, that a byte and
    the end of the input add, and the variables afterwards. *)

Lemma MAX_CODE_ok n : (n < 31)%nat -> MAX_CODE n = Ok (2 ^ Z.of_nat n - 1).
Proof. intros. unfold MAX_CODE. rewrite decide_True by done. by rewrite Z.shiftl_1_l. Qed.

Definition set_w (e : Enc) (j : Entry) : Enc := mkEnc (code_table e) (nbits e) (next_code e) (max_code e) j.

Definition start (w : Entry) : Enc := mkEnc init_set MIN_BITS FIRST_CODE (2 ^ Z.of_nat MIN_BITS - 1) w.

(** The table with a new entry, at the same width. *)
Definition grow (c : byte) (e : Enc) : Enc :=
  let chars := chars_ (w e) ++ [c] in
  mkEnc (<[chars := mkEntry chars (next_code e)]> (code_table e)) (nbits e) (next_code e + 1) (max_code e) (assign c).

Section Codes.
Variable maxBits_ : nat.

Definition widened (e : Enc) : list (Z * nat) * Enc :=
  if max_code e <=? next_code e then
    if decide (nbits e = maxBits_) then ([(RESET_TABLE, nbits e)], start (w e))
    else ([], mkEnc (code_table e) (nbits e + 1) (next_code e) (2 ^ Z.of_nat (nbits e + 1) - 1) (w e))
  else ([], e).

Definition codes_byte (c : byte) (e : Enc) : list (Z * nat) * Enc :=
  match code_table e !! (chars_ (w e) ++ [c]) with
  | Some j => ([], set_w e j)
  | None => let '(l, e') := widened (grow c e) in ((code_ (w e), nbits e) :: l, e')
  end.

Definition codes_end (e : Enc) : list (Z * nat) :=
  (if decide (chars_ (w e) = []) then [] else [(code_ (w e), nbits e)]) ++ [(END_MARKER, nbits e)].

Fixpoint codes (data : list byte) (e : Enc) : list (Z * nat) :=
  match data with
  | [] => codes_end e
  | c :: data => let '(l, e') := codes_byte c e in l ++ codes data e'
  end.

(** The variables when all the input has been read. *)
Definition final (data : list byte) (e : Enc) : Enc := foldl (fun e c => (codes_byte c e).2) e data.

(** *** The invariant of the encoder *)

Record encoding (e : Enc) : Prop := {
  enc_width : (9 <= nbits e <= maxBits_)%nat;
  enc_max : max_code e = 2 ^ Z.of_nat (nbits e) - 1;
  enc_next : 258 <= next_code e < max_code e;
  enc_entry s j : code_table e !! s = Some j ->
    chars_ j = s /\ s <> [] /\ ((exists c, s = [c] /\ code_ j = byte.unsigned c) \/ 258 <= code_ j < next_code e);
  enc_single c : code_table e !! [c] = Some (assign c);
  enc_w : w e = newEntry END_MARKER \/ code_table e !! chars_ (w e) = Some (w e) }.

Lemma init_set_lookup s j : init_set !! s = Some j <-> exists c, s = [c] /\ j = assign c.
Proof.
  unfold init_set. split.
  - intros E. apply elem_of_list_to_map_2, list_elem_of_fmap in E as (z & [= -> ->] & Hz).
    apply elem_of_seqZ in Hz. exists (byte.of_Z z). unfold newEntry, assign. destruct (Z.ltb_spec z 256); [|lia]. simpl.
    rewrite byte.unsigned_of_Z. unfold byte.wrap. rewrite Z.mod_small by lia. done.
  - intros (c & -> & ->). apply elem_of_list_to_map_1'.
    + intros j Hj. apply list_elem_of_fmap in Hj as (z & [= E ->] & Hz). apply elem_of_seqZ in Hz. unfold newEntry, assign in *.
      destruct (Z.ltb_spec z 256); [|lia]. simpl in *. injection E as ->. f_equal.
      rewrite byte.unsigned_of_Z. unfold byte.wrap. rewrite Z.mod_small by lia. done.
    + apply list_elem_of_fmap. exists (byte.unsigned c). pose proof (byte.unsigned_range c). split.
      * unfold newEntry, assign. destruct (Z.ltb_spec (byte.unsigned c) 256); [|lia]. simpl. by rewrite byte.of_Z_unsigned.
      * apply elem_of_seqZ. lia.
Qed.

#[local] Opaque init_set init_map.

Lemma encoding_start wd : (9 <= maxBits_)%nat ->
  wd = newEntry END_MARKER \/ (exists c, wd = assign c) -> encoding (start wd).
Proof.
  intros Hm Hw. split; cbn [nbits max_code next_code code_table w start].
  - unfold MIN_BITS. lia.
  - done.
  - unfold FIRST_CODE, MIN_BITS. lia.
  - intros s j (c & -> & ->)%init_set_lookup. split_and!; try done. left. by exists c.
  - intros c. apply init_set_lookup. by exists c.
  - destruct Hw as [->|[c ->]]; [by left|right]. apply init_set_lookup. by exists c.
Qed.

(** Before the width is adjusted, the next code may have reached the maximum. *)
Record grown (e : Enc) : Prop := {
  grown_width : (9 <= nbits e <= maxBits_)%nat;
  grown_max : max_code e = 2 ^ Z.of_nat (nbits e) - 1;
  grown_next : 258 <= next_code e <= max_code e;
  grown_entry s j : code_table e !! s = Some j ->
    chars_ j = s /\ s <> [] /\ ((exists c, s = [c] /\ code_ j = byte.unsigned c) \/ 258 <= code_ j < next_code e);
  grown_single c : code_table e !! [c] = Some (assign c);
  grown_w : exists c, w e = assign c }.

Lemma grow_ok e c : encoding e -> code_table e !! (chars_ (w e) ++ [c]) = None -> grown (grow c e).
Proof.
  intros [Hw Hm Hn He Hs _] Hnone. split; simpl; try done; try lia; [| |by exists c].
  - intros s j [[<- <-]|[Hne Hj]]%lookup_insert_Some.
    + simpl. split_and!; [done|by destruct (chars_ (w e))|]. right. lia.
    + destruct (He s j Hj) as (? & ? & [?|?]); split_and!; try done; [by left|right; lia].
  - intros x. rewrite lookup_insert_ne; [by apply Hs|]. intros E. rewrite E, Hs in Hnone. done.
Qed.

Lemma widened_ok e : grown e -> encoding (widened e).2.
Proof.
  intros [Hw Hm Hn He Hs [c Hc]]. unfold widened. destruct (Z.leb_spec (max_code e) (next_code e)).
  - case_decide as Hmax; simpl.
    + apply encoding_start; [lia|]. right. by exists c.
    + split; simpl; try done; try lia; [|right; by rewrite Hc; apply Hs].
      replace (Z.of_nat (nbits e + 1)) with (Z.succ (Z.of_nat (nbits e))) by lia. rewrite Z.pow_succ_r by lia. lia.
  - split; simpl; try done; try lia. right. rewrite Hc. apply Hs.
Qed.

Lemma codes_byte_ok c e : encoding e -> encoding (codes_byte c e).2.
Proof.
  intros He. unfold codes_byte. destruct (code_table e !! _) as [j|] eqn:Ej; simpl.
  - destruct He as [Hw Hm Hn Hent Hs Hwe]. split; simpl; try done. right.
    destruct (Hent _ _ Ej) as (-> & _). done.
  - destruct (widened (grow c e)) as [l e'] eqn:Ew. simpl. change e' with ((l, e').2). rewrite <- Ew.
    apply widened_ok, grow_ok; done.
Qed.

(** Codes fit their widths. *)
Lemma w_code_fits e : encoding e -> chars_ (w e) <> [] -> (0 <= code_ (w e) < 256 \/ 258 <= code_ (w e) < next_code e).
Proof.
  intros [Hw Hm Hn He Hs [->|Hwe]] Hc; [done|]. destruct (He _ _ Hwe) as (_ & _ & [(c & _ & ->)|?]); [|by right].
  left. apply byte.unsigned_range.
Qed.
End Codes.

(** ** The encoder writes the codes *)

Lemma fields_bits_app l k : fields_bits (l ++ k) = fields_bits l ++ fields_bits k.
Proof. apply bind_app. Qed.

Lemma bytes_bits_inj l : forall k, bytes_bits l = bytes_bits k -> l = k.
Proof.
  induction l as [|x l IH]; intros [|y k] E; try done. rewrite !bytes_bits_cons in E.
  apply app_inj_1 in E as [E1 E2]; [|by rewrite !length_to_bits]. f_equal; [|by apply IH].
  apply (f_equal of_bits) in E1. rewrite !of_to_bits in E1.
  pose proof (byte.unsigned_range x). pose proof (byte.unsigned_range y).
  rewrite !Z.mod_small in E1 by (change (2 ^ Z.of_nat 8) with (2 ^ 8); lia).
  rewrite <- (byte.of_Z_unsigned x), E1. apply byte.of_Z_unsigned.
Qed.

Section Encoder.
Context {Hin : Type} `{SourceHandle Hin} {Hout : Type} `{SinkHandle Hout}.
Implicit Types (bin : BitIO.t Hin) (bout : BitIO.t Hout).

Lemma on_out_ok {A} (m : M (BitIO.t Hout) A) bin bout a b : m bout = (Ok a, b) -> on_out m (bin, bout) = (Ok a, (bin, b)).
Proof. unfold on_out. by intros ->. Qed.
Lemma on_in_ok {A} (m : M (BitIO.t Hin) A) bin bout a b : m bin = (Ok a, b) -> on_in m (bin, bout) = (Ok a, (b, bout)).
Proof. unfold on_in. by intros ->. Qed.

Lemma output_code_ok bin bout l cap j n :
  (n <= 30)%nat -> 0 <= code_ j < 2 ^ Z.of_nat n -> BitIO.written bout l cap -> (length l + n <= 8 * cap)%nat ->
  exists b, output_code j n (bin, bout) = (Ok tt, (bin, b)) /\ BitIO.written b (l ++ to_bits n (code_ j)) cap.
Proof.
  intros Hn Hc Hw Hl. unfold output_code. rewrite MAX_CODE_ok by lia. rewrite M_bind_lift.
  destruct (Z.leb_spec (code_ j) (2 ^ Z.of_nat n - 1)); [|lia].
  destruct (BitIO.write_ok (code_ j) n bout l cap ltac:(lia) Hw Hl) as (b & E & Hw' & _).
  exists b. unfold assertM. cbn [ASSERT]. rewrite M_bind_lift. by rewrite (on_out_ok _ _ _ _ _ E).
Qed.

Lemma next_byte_ok bin bout data :
  BitIO.remaining bin (bytes_bits data) -> BitIO.padded_ bin = false ->
  exists b, next_byte (bin, bout) = (Ok (match data with [] => END_MARKER | c :: _ => byte.unsigned c end), (b, bout)) /\
    BitIO.remaining b (bytes_bits (tail data)) /\ BitIO.padded_ b = false.
Proof.
  intros Hr Hp. unfold next_byte.
  destruct (BitIO.read_ok 8 END_MARKER bin _ ltac:(lia) Hr) as (b & E & Hr' & _ & Hp'). specialize (Hp' Hp).
  rewrite Hp in E. exists b. destruct data as [|c data].
  - by rewrite (on_in_ok _ _ _ _ _ E).
  - rewrite bytes_bits_cons in E, Hr'. unfold BitIO.read_result in E.
    rewrite decide_True in E by (rewrite length_app, length_to_bits; lia).
    rewrite take_app_length' in E by (by rewrite length_to_bits). rewrite of_to_bits in E.
    pose proof (byte.unsigned_range c). rewrite Z.mod_small in E by (change (2 ^ Z.of_nat 8) with (2 ^ 8); lia).
    rewrite drop_app_length' in Hr' by (by rewrite length_to_bits). by rewrite (on_in_ok _ _ _ _ _ E).
Qed.

Variable maxBits_ : nat.
Hypothesis max_int : (maxBits_ <= 30)%nat.
#[local] Set Default Proof Using "Type*".

Lemma after_insert_ok bin bout l cap e :
  grown maxBits_ e -> BitIO.written bout l cap -> (length l + length (fields_bits (widened maxBits_ e).1) <= 8 * cap)%nat ->
  exists b, after_insert maxBits_ e (bin, bout) = (Ok (widened maxBits_ e).2, (bin, b)) /\
    BitIO.written b (l ++ fields_bits (widened maxBits_ e).1) cap.
Proof.
  intros [Hw Hm Hn _ _ _] Hwr Hl. unfold after_insert, widened in *.
  destruct (max_code e <=? next_code e); [case_decide|]; simpl in Hl |- *.
  - rewrite app_nil_r in *. rewrite length_to_bits in Hl.
    destruct (output_code_ok bin bout l cap (newEntry RESET_TABLE) (nbits e)) as (b & E & Hwr'); try done; try lia.
    { change (code_ _) with 256. pose proof (Z.pow_le_mono_r 2 9 (Z.of_nat (nbits e)) ltac:(lia) ltac:(lia)). lia. }
    exists b. rewrite (M_bind_Ok _ _ _ _ _ E). rewrite MAX_CODE_ok by (unfold MIN_BITS; lia). done.
  - rewrite MAX_CODE_ok, M_bind_lift, app_nil_r by lia. by exists bout.
  - rewrite app_nil_r. by exists bout.
Qed.

Lemma encode_byte_ok bin bout l cap e c :
  encoding maxBits_ e -> BitIO.written bout l cap ->
  (length l + length (fields_bits (codes_byte maxBits_ c e).1) <= 8 * cap)%nat ->
  exists b, encode_byte maxBits_ (byte.unsigned c) e (bin, bout) = (Ok (codes_byte maxBits_ c e).2, (bin, b)) /\
    BitIO.written b (l ++ fields_bits (codes_byte maxBits_ c e).1) cap.
Proof.
  intros He Hwr Hl. unfold encode_byte, codes_byte, plus, set_code in *. rewrite byte.of_Z_unsigned. cbn [chars_ code_].
  destruct (code_table e !! (chars_ (w e) ++ [c])) as [j|] eqn:Ej; cbn [fst snd] in Hl |- *.
  { exists bout. by rewrite app_nil_r. }
  pose proof (grow_ok _ e c He Ej) as Hg. unfold grow in Hg.
  assert (Hne : chars_ (w e) <> []). { intros E. rewrite E in Ej. simpl in Ej. by rewrite (enc_single _ _ He) in Ej. }
  pose proof (w_code_fits _ e He Hne) as Hfit. destruct He as [Hw Hm Hn _ _ _].
  change (mkEnc _ _ _ _ _) with (grow c e) in *.
  destruct (widened maxBits_ (grow c e)) as [k e'] eqn:Ew. cbn [fst snd] in Hl |- *.
  rewrite fields_bits_cons, length_app, length_to_bits in Hl.
  destruct (output_code_ok bin bout l cap (w e) (nbits e)) as (b1 & E1 & Hw1); try done; try lia.
  rewrite (M_bind_Ok _ _ _ _ _ E1).
  destruct (after_insert_ok bin b1 _ cap (grow c e) Hg Hw1) as (b2 & E2 & Hw2).
  { rewrite Ew, length_app, length_to_bits. simpl. lia. }
  rewrite E2, Ew in *. exists b2. by rewrite fields_bits_cons, app_assoc.
Qed.

Lemma encode_loop_ok data : forall fuel e bin bout l cap,
  (length data < fuel)%nat -> encoding maxBits_ e -> BitIO.remaining bin (bytes_bits data) -> BitIO.padded_ bin = false ->
  BitIO.written bout l cap -> (length l + length (fields_bits (codes maxBits_ data e)) <= 8 * cap)%nat ->
  exists bin' bout' l', encode_loop maxBits_ fuel e (bin, bout) = (Ok (final maxBits_ data e), (bin', bout')) /\
    BitIO.remaining bin' [] /\ encoding maxBits_ (final maxBits_ data e) /\ BitIO.written bout' l' cap /\
    l' ++ fields_bits (codes_end (final maxBits_ data e)) = l ++ fields_bits (codes maxBits_ data e).
Proof.
  induction data as [|c data IH]; intros fuel e bin bout l cap Hf He Hr Hp Hw Hl; (destruct fuel as [|fuel]; [lia|]).
  - destruct (next_byte_ok bin bout [] Hr Hp) as (b & E & Hr' & _).
    exists b, bout, l. cbn [encode_loop]. rewrite (M_bind_Ok _ _ _ _ _ E). done.
  - destruct (next_byte_ok bin bout (c :: data) Hr Hp) as (bin1 & E & Hr' & Hp'). simpl in Hr', Hl |- *.
    pose proof (codes_byte_ok maxBits_ c e He) as He1.
    destruct (codes_byte maxBits_ c e) as [k e'] eqn:Ec. simpl in He1. rewrite fields_bits_app, length_app in Hl.
    destruct (encode_byte_ok bin1 bout l cap e c He Hw) as (b1 & E1 & Hw1); [rewrite Ec; simpl; lia|].
    rewrite Ec in E1, Hw1. simpl in E1, Hw1.
    rewrite (M_bind_Ok _ _ _ _ _ E). pose proof (byte.unsigned_range c).
    destruct (Z.eqb_spec (byte.unsigned c) END_MARKER) as [Eq|_]; [unfold END_MARKER in Eq; lia|].
    rewrite (M_bind_Ok _ _ _ _ _ E1).
    destruct (IH fuel e' bin1 b1 _ cap ltac:(simpl in Hf; lia) He1 Hr' Hp' Hw1) as (bin' & bout' & l' & E2 & Hr2 & He2 & Hw2 & Hb2).
    { rewrite length_app. lia. }
    exists bin', bout', l'. unfold final in *. cbn [foldl]. rewrite ?Ec. cbn [snd]. rewrite E2, Hb2, fields_bits_app, app_assoc. done.
Qed.

(** What is written for [data]. *)
Definition stream (data : list byte) : list (Z * nat) :=
  (RESET_TABLE, MIN_BITS) :: codes maxBits_ data (start (newEntry END_MARKER)).

Lemma codes_end_ok bin bout l cap e :
  encoding maxBits_ e -> BitIO.written bout l cap -> (length l + length (fields_bits (codes_end e)) <= 8 * cap)%nat ->
  exists b, ((if decide (chars_ (w e) = []) then mret tt else output_code (w e) (nbits e)) ;;
             output_code (newEntry END_MARKER) (nbits e)) (bin, bout) = (Ok tt, (bin, b)) /\
    BitIO.written b (l ++ fields_bits (codes_end e)) cap.
Proof.
  intros He Hw Hl. pose proof (w_code_fits _ e He) as Hfit. destruct He as [Hwd Hm Hn _ _ _].
  pose proof (Z.pow_le_mono_r 2 9 (Z.of_nat (nbits e)) ltac:(lia) ltac:(lia)) as Hpow.
  unfold codes_end in *. rewrite fields_bits_app, length_app in Hl. rewrite fields_bits_app, app_assoc.
  change (fields_bits [(END_MARKER, nbits e)]) with (to_bits (nbits e) END_MARKER ++ []) in *. rewrite app_nil_r in *.
  rewrite length_to_bits in Hl. case_decide as Hc.
  - rewrite M_bind_ret. change (l ++ fields_bits []) with (l ++ []). rewrite app_nil_r.
    apply (output_code_ok bin bout l cap (newEntry END_MARKER)); [lia|change (code_ _) with 257; lia|done|simpl in Hl; lia].
  - change (fields_bits [(code_ (w e), nbits e)]) with (to_bits (nbits e) (code_ (w e)) ++ []) in *. rewrite app_nil_r in *.
    rewrite length_to_bits in Hl. specialize (Hfit Hc).
    destruct (output_code_ok bin bout l cap (w e) (nbits e)) as (b1 & E1 & Hw1); try done; try lia.
    rewrite (M_bind_Ok _ _ _ _ _ E1).
    apply (output_code_ok bin b1 _ cap (newEntry END_MARKER)); [lia|change (code_ _) with 257; lia|done|].
    rewrite length_app, length_to_bits. lia.
Qed.

Lemma bind_assoc {S A B C} (m : M S A) (f : A -> M S B) (g : B -> M S C) s :
  (m ≫= fun a => f a ≫= g) s = ((m ≫= f) ≫= g) s.
Proof. unfold mbind, M_bind. by destruct (m s) as [[] ?]. Qed.

Lemma encode_body_ok fuel bin bout data cap :
  (9 <= maxBits_)%nat -> (length data < fuel)%nat -> BitIO.remaining bin (bytes_bits data) -> BitIO.padded_ bin = false ->
  BitIO.written bout [] cap -> (length (fields_bits (stream data)) <= 8 * cap)%nat ->
  exists bin' bout', encode_body maxBits_ fuel (bin, bout) = (Ok (BitIO.byteCount bout'), (bin', bout')) /\
    BitIO.remaining bin' [] /\ BitIO.written bout' (fields_bits (stream data)) cap.
Proof.
  intros Hm Hf Hr Hp Hw Hl. unfold encode_body, stream in *. rewrite fields_bits_cons, length_app, length_to_bits in Hl.
  rewrite MAX_CODE_ok by (unfold MIN_BITS; lia). rewrite M_bind_lift.
  destruct (output_code_ok bin bout [] cap (newEntry RESET_TABLE) MIN_BITS) as (b1 & E1 & Hw1);
    [unfold MIN_BITS; lia|by vm_compute|done|simpl; lia|].
  rewrite (M_bind_Ok _ _ _ _ _ E1). rewrite app_nil_l in Hw1.
  change (code_ (newEntry RESET_TABLE)) with RESET_TABLE in Hw1.
  destruct (encode_loop_ok data fuel (start (newEntry END_MARKER)) bin b1 (to_bits MIN_BITS RESET_TABLE) cap Hf) as (bin2 & b2 & l2 & E2 & Hr2 & He2 & Hw2 & Hb2);
    [by apply encoding_start; [|left]|done..|by rewrite length_to_bits|].
  change (mkEnc init_set MIN_BITS FIRST_CODE _ (newEntry END_MARKER)) with (start (newEntry END_MARKER)).
  rewrite (M_bind_Ok _ _ _ _ _ E2). set (e := final _ _ _) in *.
  destruct (codes_end_ok bin2 b2 l2 cap e He2 Hw2) as (b3 & E3 & Hw3).
  { apply (f_equal length) in Hb2. rewrite !length_app, length_to_bits in Hb2. lia. }
  rewrite bind_assoc, (M_bind_Ok _ _ _ _ _ E3), M_bind_get. exists bin2, b3. split_and!; [done..|].
  by rewrite fields_bits_cons, <- Hb2.
Qed.

Lemma compress_encode_ok fuel hin hout data cap :
  (9 <= maxBits_)%nat -> (length data < fuel)%nat -> readable hin data None -> writable hout false [] cap ->
  (length (fields_bits (stream data)) <= 8 * cap)%nat -> 8 * Z.of_nat cap + 7 < 2 ^ 64 ->
  exists hin' hout' out pad, encode maxBits_ fuel (hin, hout) = (Ok (zlen out), (hin', hout')) /\
    writable hout' false out (cap - length out) /\
    bytes_bits out = fields_bits (stream data) ++ replicate pad false /\ (pad < 8)%nat.
Proof.
  intros Hm Hf Hr Hw Hl Hcap. apply (BitIO.remaining_new hin false) in Hr. apply (BitIO.written_new hout false) in Hw.
  destruct (encode_body_ok fuel _ _ data cap Hm Hf Hr eq_refl Hw Hl) as (bin & bout & E & Hr' & Hw').
  destruct (BitIO.destroy_written_ok _ _ _ Hw') as (b2 & out & pad & E2 & Hw2 & Hb & Hp & _).
  destruct (BitIO.destroy_reader_ok _ _ Hr') as (b1 & E1).
  exists (BitIO.handle_ b1), (BitIO.handle_ b2), out, pad. unfold encode, scoped. rewrite E, E2, E1. split_and!; try done.
  f_equal. unfold mbind, outcome_mbind, outcome_bind. f_equal.
  rewrite (BitIO.byteCount_written _ _ _ Hw') by (unfold zlen; lia).
  apply (f_equal length) in Hb. rewrite BitIO.length_bytes_bits, length_app, length_replicate in Hb. unfold zlen.
  symmetry. apply (Z.div_unique_pos _ _ _ (7 - Z.of_nat pad)); lia.
Qed.
End Encoder.

(** ** The decoder follows the encoder

    The decoder adds each entry one code later than the encoder.  [next_sync]: it
    has read the codes written so far, and misses the last entry, whose last
    character is the first one of what the encoder has read since. *)

Section Sync.
Variable maxBits_ : nat.

Definition width (d : Dec) : nat :=
  if max_code_d d <=? next_code_d d then Nat.min maxBits_ (nbits_d d + 1) else nbits_d d.

Record next_sync (e : Enc) (d : Dec) : Prop := {
  ns_width : width d = nbits e;
  ns_max : max_code_d d = 2 ^ Z.of_nat (nbits_d d) - 2;
  ns_next : next_code_d d = next_code e - 1;
  ns_first : 258 <= next_code_d d;
  ns_w : chars_ (w e) <> [];
  ns_prev : chars_ (w_d d) <> [];
  ns_entry s j : code_table e !! s = Some j -> code_ j <> next_code_d d ->
    exists j', table d !! code_ j = Some j' /\ chars_ j' = s;
  ns_last s j : code_table e !! s = Some j -> code_ j = next_code_d d ->
    exists c k, chars_ (w e) = c :: k /\ s = chars_ (w_d d) ++ [c];
  ns_dom m : next_code_d d <= m -> table d !! m = None }.

(** The code of an entry, and [pre] the reset that is written before it. *)
Inductive sync (e : Enc) (d : Dec) : list (Z * nat) -> Prop :=
| sync_next : next_sync e d -> sync e d []
| sync_reset n : max_code_d d = 2 ^ Z.of_nat (nbits_d d) - 2 -> width d = n -> (9 <= n <= maxBits_)%nat -> e = start (w e) -> sync e d [(RESET_TABLE, n)].

(** The variables of the decoder once it has the width of the code, and after the
    entry [j] was read. *)
Definition at_width (d : Dec) : Dec :=
  mkDec (table d) (width d) (next_code_d d) (2 ^ Z.of_nat (width d) - 2) (w_d d).
Definition after_code (d : Dec) (c : byte) (j : Entry) : Dec :=
  mkDec (<[next_code_d d := mkEntry (chars_ (w_d d) ++ [c]) (next_code_d d)]> (table d)) (nbits_d d)
    (next_code_d d + 1) (max_code_d d) j.

Lemma widen_ok d :
  (maxBits_ <= 30)%nat -> max_code_d d = 2 ^ Z.of_nat (nbits_d d) - 2 -> widen maxBits_ d = Ok (at_width d).
Proof.
  intros Hm Hmax. unfold widen, at_width, width. destruct (max_code_d d <=? next_code_d d).
  - rewrite MAX_CODE_ok by lia. unfold mbind, outcome_mbind, outcome_bind. do 2 f_equal. lia.
  - destruct d. simpl in *. by rewrite Hmax.
Qed.

Lemma init_map_lookup c j : init_map !! c = Some j <-> 0 <= c < 256 /\ j = newEntry c.
Proof.
  unfold init_map. split.
  - intros E. apply elem_of_list_to_map_2, list_elem_of_fmap in E as (z & [= -> ->] & Hz). apply elem_of_seqZ in Hz. split; [lia|done].
  - intros [Hc ->]. apply elem_of_list_to_map_1'.
    + intros j Hj. by apply list_elem_of_fmap in Hj as (z & [= -> ->] & _).
    + apply list_elem_of_fmap. exists c. split; [done|]. apply elem_of_seqZ. lia.
Qed.

(** What the decoder finds for the code that the encoder writes. *)
Lemma found e d :
  encoding maxBits_ e -> next_sync e d ->
  (exists j, table d !! code_ (w e) = Some j /\ chars_ j = chars_ (w e)) \/
  (table d !! code_ (w e) = None /\ code_ (w e) = next_code_d d /\
   exists c k, chars_ (w_d d) = c :: k /\ chars_ (w e) = chars_ (w_d d) ++ [c]).
Proof.
  intros He [Hw Hm Hn Hf Hc Hp Hent Hlast Hdom]. destruct (enc_w _ _ He) as [E|E]; [by rewrite E in Hc|].
  destruct (decide (code_ (w e) = next_code_d d)) as [Ec|Ec]; [right|left; by eapply Hent].
  rewrite Ec. split_and!; try done; [apply Hdom; lia|]. destruct (Hlast _ _ E Ec) as (c & k & E1 & E2).
  destruct (chars_ (w_d d)) as [|x l] eqn:El; [done|]. exists x, l. split; [done|]. rewrite E1 in E2. injection E2 as -> ->.
  by rewrite E1.
Qed.

(** Both sides after a code, before the width is adjusted: the decoder has all the
    entries but the one that was just added. *)
Lemma sync_grown e d c x k j :
  encoding maxBits_ e -> next_sync e d -> chars_ (w e) = x :: k -> chars_ j = chars_ (w e) ->
  code_table e !! (chars_ (w e) ++ [c]) = None ->
  let d' := after_code (at_width d) x j in
  next_code_d d' = next_code (grow c e) - 1 /\ 258 <= next_code_d d' /\ chars_ (w_d d') <> [] /\
  (forall s i, code_table (grow c e) !! s = Some i -> code_ i <> next_code_d d' ->
     exists j', table d' !! code_ i = Some j' /\ chars_ j' = s) /\
  (forall s i, code_table (grow c e) !! s = Some i -> code_ i = next_code_d d' -> s = chars_ (w_d d') ++ [c]) /\
  (forall n, next_code_d d' <= n -> table d' !! n = None).
Proof.
  intros He [Hw Hm Hn Hf Hc Hp Hent Hlast Hdom] Ex Ej Hnone d'. unfold d'. simpl. rewrite Ej, Ex. split_and!; try done; try lia.
  - intros s i [[<- <-]|[Hne Hi]]%lookup_insert_Some Hcode; simpl in Hcode; [lia|].
    destruct (decide (code_ i = next_code_d d)) as [E|E].
    + destruct (Hlast s i Hi E) as (c' & k' & E1 & ->). rewrite E, lookup_insert_eq. rewrite E1 in Ex. injection Ex as -> ->.
      by eexists.
    + rewrite lookup_insert_ne by done. by apply Hent.
  - intros s i [[<- <-]|[Hne Hi]]%lookup_insert_Some Hcode; [done|].
    destruct (enc_entry _ _ He _ _ Hi) as (_ & _ & [(y & _ & E)|E]); [pose proof (byte.unsigned_range y)|]; lia.
  - intros n Hn'. rewrite lookup_insert_ne by lia. apply Hdom. lia.
Qed.

Lemma sync_after e d c x k j :
  encoding maxBits_ e -> next_sync e d -> chars_ (w e) = x :: k -> chars_ j = chars_ (w e) ->
  code_table e !! (chars_ (w e) ++ [c]) = None ->
  sync (widened maxBits_ (grow c e)).2 (after_code (at_width d) x j) (widened maxBits_ (grow c e)).1.
Proof.
  intros He Hs Ex Ej Hnone. pose proof (sync_grown e d c x k j He Hs Ex Ej Hnone) as (Hn & Hf & Hw & Hent & Hlast & Hdom).
  pose proof (ns_width _ _ Hs) as Hwd. pose proof (grow_ok _ e c He Hnone) as [Gw Gm Gn _ _ _].
  set (d' := after_code _ _ _) in *. assert (Ed : nbits_d d' = nbits e) by done.
  assert (Em : max_code_d d' = 2 ^ Z.of_nat (nbits e) - 2) by (by rewrite <- Ed).
  assert (En : next_code_d d' = next_code e) by (rewrite Hn; simpl; lia). simpl in Gw, Gm, Gn.
  assert (Hnext : forall e', code_table e' = code_table (grow c e) -> next_code e' = next_code (grow c e) ->
    w e' = assign c -> width d' = nbits e' -> next_sync e' d').
  { intros e' E1 E2 E3 E4. split; try done; rewrite ?E1, ?E2, ?E3; try done; intros s i Hi Hc.
    exists c, []. split; [done|]. by eapply Hlast. }
  unfold width in Hnext |- *. unfold widened. cbn [max_code next_code nbits w code_table grow] in *.
  destruct (Z.leb_spec (max_code e) (next_code e + 1)).
  - destruct (Z.leb_spec (max_code_d d') (next_code_d d')); [|lia].
    case_decide; simpl.
    + apply sync_reset; [done| |lia|done]. unfold width. destruct (Z.leb_spec (max_code_d d') (next_code_d d')); lia.
    + apply sync_next, Hnext; try done. simpl. lia.
  - destruct (Z.leb_spec (max_code_d d') (next_code_d d')); [lia|]. apply sync_next, Hnext; done.
Qed.

(** The first code after a reset. *)
Lemma sync_first e c x :
  encoding maxBits_ e -> e = start (w e) -> chars_ (w e) = [x] ->
  widened maxBits_ (grow c e) = ([], grow c e) /\
  next_sync (grow c e) (mkDec init_map MIN_BITS FIRST_CODE (2 ^ Z.of_nat MIN_BITS - 1 - 1) (assign x)).
Proof.
  intros He Es Ex. destruct e as [tab n nx mx we]. unfold start in Es. simpl in *. injection Es as -> -> -> ->.
  split; [reflexivity|]. split; cbn [w grow code_table table next_code_d w_d]; [reflexivity..|done|done|done| | |].
  - intros s j [[<- <-]|[Hne (y & -> & ->)%init_set_lookup]]%lookup_insert_Some Hc; [done|].
    pose proof (byte.unsigned_range y). exists (newEntry (byte.unsigned y)). split; [by apply init_map_lookup|].
    unfold newEntry. destruct (Z.ltb_spec (byte.unsigned y) 256); [|lia]. simpl. by rewrite byte.of_Z_unsigned.
  - intros s j [[<- <-]|[Hne (y & -> & ->)%init_set_lookup]]%lookup_insert_Some Hc.
    + exists c, []. by rewrite Ex.
    + simpl in Hc. pose proof (byte.unsigned_range y). unfold FIRST_CODE in Hc. lia.
  - intros m Hm. destruct (init_map !! m) eqn:E; [|done]. apply init_map_lookup in E as [? _]. unfold FIRST_CODE in Hm. lia.
Qed.
End Sync.

Section Decoder.
Context {Hin : Type} `{SourceHandle Hin} {Hout : Type} `{SinkHandle Hout}.
Implicit Types (bin : BitIO.t Hin) (bout : BitIO.t Hout).

Lemma read_code_ok bin bout n c rest :
  (n <= 64)%nat -> 0 <= c < 2 ^ Z.of_nat n -> BitIO.remaining bin (fields_bits [(c, n)] ++ rest) -> BitIO.padded_ bin = false ->
  exists b, on_in (BitIO.read n END_MARKER) (bin, bout) = (Ok c, (b, bout)) /\
    BitIO.remaining b rest /\ BitIO.padded_ b = false.
Proof.
  intros Hn Hc Hr Hp. rewrite fields_bits_cons, <- app_assoc in Hr.
  destruct (BitIO.read_ok n END_MARKER bin _ Hn Hr) as (b & E & Hr' & _ & Hp'). exists b.
  unfold BitIO.read_result in E. rewrite decide_True in E by (rewrite length_app, length_to_bits; lia).
  rewrite take_app_length', of_to_bits, Z.mod_small in E by (rewrite ?length_to_bits; lia).
  rewrite drop_app_length' in Hr' by (by rewrite length_to_bits). by rewrite (on_in_ok _ _ _ _ _ E), Hp'.
Qed.

Lemma output_ok bin chars : forall bout l cap,
  BitIO.written bout l cap -> (length l + 8 * length chars <= 8 * cap)%nat ->
  exists b, output_chars chars (bin, bout) = (Ok tt, (bin, b)) /\ BitIO.written b (l ++ bytes_bits chars) cap.
Proof.
  induction chars as [|c chars IH]; intros bout l cap Hw Hl; [exists bout; by rewrite app_nil_r|]. cbn [length] in Hl.
  destruct (BitIO.write_ok (byte.unsigned c) 8 bout l cap ltac:(lia) Hw ltac:(lia)) as (b1 & E1 & Hw1 & _).
  destruct (IH b1 _ cap Hw1) as (b2 & E2 & Hw2). { rewrite length_app, length_to_bits. lia. }
  exists b2. cbn [output_chars]. rewrite (M_bind_Ok _ _ _ _ _ (on_out_ok _ _ _ _ _ E1)), E2.
  by rewrite bytes_bits_cons, app_assoc.
Qed.

Variable maxBits_ : nat.
Hypothesis max_int : (9 <= maxBits_ <= 30)%nat.
#[local] Set Default Proof Using "Type*".

Lemma decode_code_ok bin bout l cap e d x k :
  encoding maxBits_ e -> next_sync maxBits_ e d -> chars_ (w e) = x :: k ->
  BitIO.written bout l cap -> (length l + 8 * length (chars_ (w e)) <= 8 * cap)%nat ->
  exists j b, chars_ j = chars_ (w e) /\
    decode_code (code_ (w e)) (at_width maxBits_ d) (bin, bout) = (Ok (after_code (at_width maxBits_ d) x j), (bin, b)) /\
    BitIO.written b (l ++ bytes_bits (chars_ (w e))) cap.
Proof.
  intros He Hs Ex Hw Hl. unfold decode_code. cbn [table at_width next_code_d w_d nbits_d max_code_d].
  assert (Hj : exists j, chars_ j = chars_ (w e) /\
    (match table d !! code_ (w e) with
     | Some j => mret j
     | None => assertM (code_ (w e) =? next_code_d d) ;; c ← liftM (firstChar (w_d d)); mret (plus (w_d d) c)
     end : M io Entry) (bin, bout) = (Ok j, (bin, bout))).
  { destruct (found maxBits_ e d He Hs) as [(j & -> & Ej)|(-> & -> & c & kk & Ec & Ew)]; [by exists j|].
    exists (plus (w_d d) c). split; [by rewrite Ew|]. rewrite Z.eqb_refl. unfold firstChar. by rewrite Ec. }
  destruct Hj as (j & Ej & E). rewrite (M_bind_Ok _ _ _ _ _ E).
  destruct (output_ok bin (chars_ j) bout l cap Hw ltac:(rewrite Ej; lia)) as (b & Eo & Hw'). exists j, b.
  unfold output. rewrite (M_bind_Ok _ _ _ _ _ Eo). unfold firstChar. rewrite Ej, Ex in *. done.
Qed.

(** One turn of the loop reads a code. *)
Lemma decode_step fuel bin bout l cap e d x k rest :
  encoding maxBits_ e -> next_sync maxBits_ e d -> chars_ (w e) = x :: k ->
  BitIO.remaining bin (fields_bits [(code_ (w e), nbits e)] ++ rest) -> BitIO.padded_ bin = false ->
  BitIO.written bout l cap -> (length l + 8 * length (chars_ (w e)) <= 8 * cap)%nat ->
  exists j bin' bout', chars_ j = chars_ (w e) /\ BitIO.remaining bin' rest /\ BitIO.padded_ bin' = false /\
    BitIO.written bout' (l ++ bytes_bits (chars_ (w e))) cap /\
    decode_loop maxBits_ (S fuel) d (bin, bout) = decode_loop maxBits_ fuel (after_code (at_width maxBits_ d) x j) (bin', bout').
Proof.
  intros He Hs Ex Hr Hp Hw Hl. pose proof (w_code_fits _ e He) as Hfit. rewrite Ex in Hfit. specialize (Hfit ltac:(done)).
  pose proof (enc_width _ _ He). pose proof (enc_max _ _ He). pose proof (enc_next _ _ He).
  destruct (read_code_ok bin bout (nbits e) (code_ (w e)) rest ltac:(lia) ltac:(lia) Hr Hp) as (b1 & E1 & Hr1 & Hp1).
  destruct (decode_code_ok b1 bout l cap e d x k He Hs Ex Hw Hl) as (j & b2 & Ej & E2 & Hw2).
  exists j, b1, b2. split_and!; try done. cbn [decode_loop]. rewrite widen_ok by (try apply Hs; lia). rewrite M_bind_lift.
  change (nbits_d (at_width maxBits_ d)) with (width maxBits_ d). rewrite (ns_width _ _ _ Hs), (M_bind_Ok _ _ _ _ _ E1).
  destruct (Z.eqb_spec (code_ (w e)) END_MARKER) as [Eq|_]; [unfold END_MARKER in Eq; lia|].
  destruct (Z.eqb_spec (code_ (w e)) RESET_TABLE) as [Eq|_]; [unfold RESET_TABLE in Eq; lia|].
  by rewrite (M_bind_Ok _ _ _ _ _ E2).
Qed.

(** A turn that reads a reset; the code that follows is read in the same turn. *)
Lemma decode_reset fuel bin bout d n rest :
  max_code_d d = 2 ^ Z.of_nat (nbits_d d) - 2 -> width maxBits_ d = n -> (9 <= n <= maxBits_)%nat ->
  BitIO.remaining bin (fields_bits [(RESET_TABLE, n)] ++ rest) -> BitIO.padded_ bin = false ->
  exists bin', BitIO.remaining bin' rest /\ BitIO.padded_ bin' = false /\
    decode_loop maxBits_ (S fuel) d (bin, bout) =
    (k ← on_in (BitIO.read MIN_BITS END_MARKER);
     if k =? END_MARKER then mret tt
     else let w := assign (byte.of_Z k) in
          output w ;; decode_loop maxBits_ fuel (mkDec init_map MIN_BITS FIRST_CODE (2 ^ Z.of_nat MIN_BITS - 1 - 1) w))
    (bin', bout).
Proof.
  intros Hm Hw Hn Hr Hp. pose proof (Z.pow_le_mono_r 2 9 (Z.of_nat n) ltac:(lia) ltac:(lia)) as Hpow.
  destruct (read_code_ok bin bout n RESET_TABLE rest ltac:(lia) ltac:(unfold RESET_TABLE; lia) Hr Hp) as (b & E & Hr' & Hp').
  exists b. split_and!; try done. cbn [decode_loop]. rewrite widen_ok by (done || lia). rewrite M_bind_lift.
  change (nbits_d (at_width maxBits_ d)) with (width maxBits_ d). rewrite Hw, (M_bind_Ok _ _ _ _ _ E).
  rewrite MAX_CODE_ok by (unfold MIN_BITS; lia). done.
Qed.

(** The first code after a reset is that of a character. *)
Lemma decode_first fuel bin bout l cap d n x rest :
  max_code_d d = 2 ^ Z.of_nat (nbits_d d) - 2 -> width maxBits_ d = n -> (9 <= n <= maxBits_)%nat ->
  BitIO.remaining bin (fields_bits [(RESET_TABLE, n)] ++ fields_bits [(byte.unsigned x, MIN_BITS)] ++ rest) ->
  BitIO.padded_ bin = false -> BitIO.written bout l cap -> (length l + 8 <= 8 * cap)%nat ->
  exists bin' bout', BitIO.remaining bin' rest /\ BitIO.padded_ bin' = false /\
    BitIO.written bout' (l ++ bytes_bits [x]) cap /\
    decode_loop maxBits_ (S fuel) d (bin, bout) =
    decode_loop maxBits_ fuel (mkDec init_map MIN_BITS FIRST_CODE (2 ^ Z.of_nat MIN_BITS - 1 - 1) (assign x)) (bin', bout').
Proof.
  intros Hm Hn H9 Hr Hp Hw Hl. pose proof (byte.unsigned_range x) as Hx.
  destruct (decode_reset fuel bin bout d n _ Hm Hn H9 Hr Hp) as (b1 & Hr1 & Hp1 & E1).
  destruct (read_code_ok b1 bout MIN_BITS (byte.unsigned x) rest) as (b2 & E2 & Hr2 & Hp2); try done;
    [unfold MIN_BITS; lia|change (2 ^ Z.of_nat MIN_BITS) with 512; lia|].
  destruct (output_ok b2 [x] bout l cap Hw ltac:(simpl length; lia)) as (b3 & E3 & Hw3).
  exists b2, b3. split_and!; try done. rewrite E1, (M_bind_Ok _ _ _ _ _ E2).
  destruct (Z.eqb_spec (byte.unsigned x) END_MARKER) as [Eq|_]; [unfold END_MARKER in Eq; lia|]. cbv zeta.
  rewrite byte.of_Z_unsigned. unfold output. cbn [chars_ assign]. by rewrite (M_bind_Ok _ _ _ _ _ E3).
Qed.

Lemma decode_stop fuel bin bout d n rest :
  max_code_d d = 2 ^ Z.of_nat (nbits_d d) - 2 -> width maxBits_ d = n -> (9 <= n <= maxBits_)%nat ->
  BitIO.remaining bin (fields_bits [(END_MARKER, n)] ++ rest) -> BitIO.padded_ bin = false ->
  exists bin', BitIO.remaining bin' rest /\ decode_loop maxBits_ (S fuel) d (bin, bout) = (Ok tt, (bin', bout)).
Proof.
  intros Hm Hw Hn Hr Hp. pose proof (Z.pow_le_mono_r 2 9 (Z.of_nat n) ltac:(lia) ltac:(lia)) as Hpow.
  destruct (read_code_ok bin bout n END_MARKER rest ltac:(lia) ltac:(unfold END_MARKER; lia) Hr Hp) as (b & E & Hr' & Hp').
  exists b. split; [done|]. cbn [decode_loop]. rewrite widen_ok by (done || lia). rewrite M_bind_lift.
  change (nbits_d (at_width maxBits_ d)) with (width maxBits_ d). by rewrite Hw, (M_bind_Ok _ _ _ _ _ E).
Qed.

Definition end_ok (e : Enc) : Prop := nbits e = maxBits_ \/ next_code e < 2 ^ Z.of_nat (nbits e) - 2.

Lemma sync_extend e d pre j c :
  sync maxBits_ e d pre -> chars_ j = chars_ (w e) ++ [c] -> sync maxBits_ (set_w e j) d pre.
Proof.
  intros [[Hw Hm Hn Hf Hc Hp Hent Hlast Hdom]|n Hm Hw Hn He] Ej.
  - apply sync_next. split; simpl; try done.
    + rewrite Ej. by destruct (chars_ (w e)).
    + intros s i Hi Hi'. destruct (Hlast s i Hi Hi') as (x & k & E1 & E2). exists x, (k ++ [c]). by rewrite Ej, E1.
  - apply sync_reset; try done. rewrite He. done.
Qed.

(** After a reset, what the encoder has read since is a character or nothing. *)
Lemma start_w e : encoding maxBits_ e -> e = start (w e) -> chars_ (w e) <> [] -> exists x, w e = assign x.
Proof.
  intros He Es Hc. destruct (enc_w _ _ He) as [E|E]; [by rewrite E in Hc|]. assert (Et : code_table e = init_set) by (by rewrite Es).
  rewrite Et in E. apply init_set_lookup in E as (x & _ & E). by exists x.
Qed.

Lemma widened_w e : w (widened maxBits_ e).2 = w e.
Proof. unfold widened. by repeat case_match. Qed.

Lemma decode_last fuel e d pre bin bout l cap pad :
  encoding maxBits_ e -> sync maxBits_ e d pre -> end_ok e -> (2 <= fuel)%nat ->
  BitIO.remaining bin (fields_bits (pre ++ codes_end e) ++ pad) -> BitIO.padded_ bin = false ->
  BitIO.written bout l cap -> (length l + 8 * length (chars_ (w e)) <= 8 * cap)%nat ->
  exists bin' bout', decode_loop maxBits_ fuel d (bin, bout) = (Ok tt, (bin', bout')) /\
    BitIO.remaining bin' pad /\ BitIO.written bout' (l ++ bytes_bits (chars_ (w e))) cap.
Proof.
  intros He Hs Hend Hf Hr Hp Hw Hl. destruct fuel as [|[|fuel]]; [lia|lia|]. pose proof (enc_width _ _ He) as Hwd.
  unfold codes_end in Hr. destruct Hs as [Hs|n Hm Hwn Hn Es].
  - rewrite decide_False in Hr by apply Hs. rewrite app_nil_l, fields_bits_app, <- app_assoc in Hr.
    destruct (chars_ (w e)) as [|x k] eqn:Ex; [by destruct (ns_w _ _ _ Hs)|]. rewrite <- Ex in *.
    destruct (decode_step (S fuel) bin bout l cap e d x k _ He Hs Ex Hr Hp Hw Hl) as (j & b1 & b2 & Ej & Hr1 & Hp1 & Hw1 & E1).
    set (d' := after_code _ _ _) in *. destruct (decode_stop fuel b1 b2 d' (nbits e) pad) as (b3 & Hr3 & E3); try done.
    + unfold width. simpl. rewrite (ns_width _ _ _ Hs), (ns_next _ _ _ Hs).
      destruct (Z.leb_spec (2 ^ Z.of_nat (nbits e) - 2) (next_code e - 1 + 1)); destruct Hend; lia.
    + exists b3, b2. by rewrite E1, E3.
  - rewrite fields_bits_app, <- app_assoc in Hr. assert (En : nbits e = MIN_BITS) by (by rewrite Es). case_decide as Hc.
    + destruct (decode_reset (S fuel) bin bout d n _ Hm Hwn Hn Hr Hp) as (b1 & Hr1 & Hp1 & E1).
      rewrite app_nil_l, En in Hr1.
      destruct (read_code_ok b1 bout MIN_BITS END_MARKER pad ltac:(unfold MIN_BITS; lia) ltac:(by vm_compute) Hr1 Hp1) as (b2 & E2 & Hr2 & _).
      exists b2, bout. rewrite E1, (M_bind_Ok _ _ _ _ _ E2), Hc, app_nil_r. done.
    + destruct (start_w e He Es Hc) as [x Ew]. rewrite En, Ew in Hr. rewrite Ew in Hl |- *. cbn [chars_ assign code_] in *.
      rewrite fields_bits_app, <- app_assoc in Hr. simpl length in Hl.
      destruct (decode_first (S fuel) bin bout l cap d n x _ Hm Hwn Hn Hr Hp Hw ltac:(lia)) as (b1 & b2 & Hr1 & Hp1 & Hw1 & E1).
      destruct (decode_stop fuel b1 b2 (mkDec init_map MIN_BITS FIRST_CODE (2 ^ Z.of_nat MIN_BITS - 1 - 1) (assign x)) MIN_BITS pad)
        as (b3 & Hr3 & E3); try done; [unfold MIN_BITS; lia|]. exists b3, b2. by rewrite E1, E3.
Qed.

(** A turn of the loop for a byte that is not in the table. *)
Lemma decode_turn fuel e d pre c bin bout l cap rest :
  encoding maxBits_ e -> sync maxBits_ e d pre -> code_table e !! (chars_ (w e) ++ [c]) = None ->
  let pre' := (widened maxBits_ (grow c e)).1 in
  let e' := (widened maxBits_ (grow c e)).2 in
  BitIO.remaining bin (fields_bits pre ++ fields_bits [(code_ (w e), nbits e)] ++ rest) -> BitIO.padded_ bin = false ->
  BitIO.written bout l cap -> (length l + 8 * length (chars_ (w e)) <= 8 * cap)%nat ->
  exists d' bin' bout', sync maxBits_ e' d' pre' /\ BitIO.remaining bin' rest /\ BitIO.padded_ bin' = false /\
    BitIO.written bout' (l ++ bytes_bits (chars_ (w e))) cap /\
    decode_loop maxBits_ (S fuel) d (bin, bout) = decode_loop maxBits_ fuel d' (bin', bout').
Proof.
  intros He Hs Hnone pre' e' Hr Hp Hw Hl.
  assert (Hne : chars_ (w e) <> []). { intros E. rewrite E in Hnone. simpl in Hnone. by rewrite (enc_single _ _ He) in Hnone. }
  destruct Hs as [Hs|n Hm Hwn Hn Es].
  - destruct (chars_ (w e)) as [|x k] eqn:Ex; [done|]. rewrite <- Ex in *. change (fields_bits []) with (@nil bool) in Hr.
    destruct (decode_step fuel bin bout l cap e d x k rest He Hs Ex Hr Hp Hw Hl) as (j & b1 & b2 & Hj & Hr1 & Hp1 & Hw1 & E1).
    exists (after_code (at_width maxBits_ d) x j), b1, b2. split_and!; try done. eapply sync_after; done.
  - destruct (start_w e He Es Hne) as [x Ex]. assert (En : nbits e = MIN_BITS) by (by rewrite Es).
    destruct (sync_first maxBits_ e c x He Es ltac:(by rewrite Ex)) as [E1 E2]. unfold pre', e'. rewrite E1.
    rewrite Ex, En in Hr. rewrite Ex in Hl |- *. simpl length in Hl.
    destruct (decode_first fuel bin bout l cap d n x rest Hm Hwn Hn Hr Hp Hw ltac:(lia)) as (b1 & b2 & Hr1 & Hp1 & Hw1 & E3).
    eexists _, b1, b2. split_and!; try done. by apply sync_next.
Qed.

Lemma decode_codes data : forall fuel e d pre bin bout l cap pad,
  encoding maxBits_ e -> sync maxBits_ e d pre -> end_ok (final maxBits_ data e) -> (length data + 2 <= fuel)%nat ->
  BitIO.remaining bin (fields_bits (pre ++ codes maxBits_ data e) ++ pad) -> BitIO.padded_ bin = false ->
  BitIO.written bout l cap -> (length l + 8 * (length (chars_ (w e)) + length data) <= 8 * cap)%nat ->
  exists bin' bout', decode_loop maxBits_ fuel d (bin, bout) = (Ok tt, (bin', bout')) /\
    BitIO.remaining bin' pad /\ BitIO.written bout' (l ++ bytes_bits (chars_ (w e) ++ data)) cap.
Proof.
  induction data as [|c data IH]; intros fuel e d pre bin bout l cap pad He Hs Hend Hf Hr Hp Hw Hl.
  { rewrite app_nil_r. apply (decode_last fuel e d pre); try done; simpl in *; lia. }
  unfold final in Hend. cbn [codes foldl length] in *. pose proof (codes_byte_ok maxBits_ c e He) as He'.
  unfold codes_byte in *. destruct (code_table e !! (chars_ (w e) ++ [c])) as [j|] eqn:Ej; cbn [snd] in *.
  { destruct (enc_entry _ _ He _ _ Ej) as (Hj & _). rewrite app_nil_l in Hr.
    destruct (IH fuel (set_w e j) d pre bin bout l cap pad) as (b1 & b2 & E & Hr' & Hw'); try done; try lia.
    - by eapply sync_extend.
    - simpl. rewrite Hj, length_app. simpl. lia.
    - exists b1, b2. simpl in Hw'. rewrite Hj, <- app_assoc in Hw'. done. }
  pose proof (widened_w (grow c e)) as Ew. change (w (grow c e)) with (assign c) in Ew. destruct fuel as [|fuel]; [lia|].
  pose proof (decode_turn fuel e d pre c bin bout l cap) as Hturn.
  destruct (widened maxBits_ (grow c e)) as [pre' e'] eqn:Ewd. cbn [fst snd] in *.
  destruct (Hturn (fields_bits (pre' ++ codes maxBits_ data e') ++ pad)) as (d' & bin1 & bout1 & Hs' & Hr1 & Hp1 & Hw1 & E1); try done; try lia.
  { rewrite fields_bits_app, <- app_assoc in Hr. rewrite fields_bits_cons, app_nil_r.
    by rewrite <- app_comm_cons, fields_bits_cons, <- app_assoc in Hr. }
  destruct (IH fuel e' d' pre' bin1 bout1 (l ++ bytes_bits (chars_ (w e))) cap pad) as (b1 & b2 & E & Hr' & Hw'); try done; try lia.
  - rewrite length_app, BitIO.length_bytes_bits, Ew. simpl. lia.
  - exists b1, b2. rewrite E1. split_and!; try done. rewrite Ew in Hw'. cbn [chars_ assign] in Hw'.
    by rewrite <- app_assoc, <- BitIO.bytes_bits_app in Hw'.
Qed.

Lemma decode_body_ok fuel bin bout data cap pad :
  end_ok (final maxBits_ data (start (newEntry END_MARKER))) -> (length data + 2 <= fuel)%nat ->
  BitIO.remaining bin (fields_bits (stream maxBits_ data) ++ pad) -> BitIO.padded_ bin = false ->
  BitIO.written bout [] cap -> (length data <= cap)%nat ->
  exists bin' bout', decode_body maxBits_ fuel (bin, bout) = (Ok (BitIO.byteCount bout'), (bin', bout')) /\
    BitIO.remaining bin' pad /\ BitIO.written bout' (bytes_bits data) cap.
Proof.
  intros Hend Hf Hr Hp Hw Hl. unfold decode_body. rewrite MAX_CODE_ok by (unfold MIN_BITS; lia). rewrite M_bind_lift.
  set (d := mkDec _ _ _ _ _). set (e := start (newEntry END_MARKER)) in *.
  assert (He : encoding maxBits_ e) by (apply encoding_start; [lia|by left]).
  assert (Hs : sync maxBits_ e d [(RESET_TABLE, MIN_BITS)]).
  { apply sync_reset; [reflexivity|reflexivity|unfold MIN_BITS; lia|reflexivity]. }
  destruct (decode_codes data fuel e d _ bin bout [] cap pad He Hs Hend Hf Hr Hp Hw) as (b1 & b2 & E & Hr' & Hw').
  - change (length (chars_ (w e))) with 0%nat. simpl. lia.
  - rewrite (M_bind_Ok _ _ _ _ _ E), M_bind_get. by exists b1, b2.
Qed.

Lemma decode_ok fuel hin hout data cap out pad :
  end_ok (final maxBits_ data (start (newEntry END_MARKER))) -> (length data + 2 <= fuel)%nat ->
  readable hin out None -> bytes_bits out = fields_bits (stream maxBits_ data) ++ pad ->
  writable hout false [] cap -> (length data <= cap)%nat -> 8 * zlen data + 7 < 2 ^ 64 ->
  exists hin' hout', decode maxBits_ fuel (hin, hout) = (Ok (zlen data), (hin', hout')) /\
    writable hout' false data (cap - length data).
Proof.
  intros Hend Hf Hr Ho Hw Hcap Hl. apply (BitIO.remaining_new hin false) in Hr. rewrite Ho in Hr.
  apply (BitIO.written_new hout false) in Hw.
  destruct (decode_body_ok fuel _ _ data cap pad Hend Hf Hr eq_refl Hw Hcap) as (b1 & b2 & E & Hr' & Hw').
  destruct (BitIO.destroy_written_ok _ _ _ Hw') as (b4 & out' & pad' & E4 & Hw4 & Hb & Hp & _).
  destruct (BitIO.destroy_reader_ok _ _ Hr') as (b3 & E3).
  assert (out' = data) as ->.
  { assert (pad' = 0%nat) as ->.
    { apply (f_equal length) in Hb. rewrite length_app, length_replicate, !BitIO.length_bytes_bits in Hb. lia. }
    simpl in Hb. rewrite app_nil_r in Hb. by apply bytes_bits_inj. }
  exists (BitIO.handle_ b3), (BitIO.handle_ b4). unfold decode, scoped. rewrite E, E4, E3. split; [|done].
  f_equal. unfold mbind, outcome_mbind, outcome_bind. f_equal.
  rewrite (BitIO.byteCount_written _ _ _ Hw'); unfold zlen in *; rewrite BitIO.length_bytes_bits; [|lia].
  symmetry. apply (Z.div_unique_pos _ _ _ 7); lia.
Qed.
End Decoder.

(** ** Size of the output *)

Section Bounds.
Variable maxBits_ : nat.

Lemma length_fields_bits l : Forall (fun f : Z * nat => (f.2 <= maxBits_)%nat) l -> (length (fields_bits l) <= maxBits_ * length l)%nat.
Proof.
  induction 1 as [|[c n] l Hn _ IH]; [simpl; lia|]. rewrite fields_bits_cons, length_app, length_to_bits. simpl in *. lia.
Qed.

Lemma codes_bound data : forall e, encoding maxBits_ e ->
  Forall (fun f : Z * nat => (f.2 <= maxBits_)%nat) (codes maxBits_ data e) /\ (length (codes maxBits_ data e) <= 2 * length data + 2)%nat.
Proof.
  induction data as [|c data IH]; intros e He; pose proof (enc_width _ _ He) as Hw; cbn [codes].
  - unfold codes_end. case_decide; simpl; split; try lia; repeat constructor; simpl; lia.
  - pose proof (codes_byte_ok maxBits_ c e He) as He'.
    assert (Hb : Forall (fun f : Z * nat => (f.2 <= maxBits_)%nat) (codes_byte maxBits_ c e).1 /\ (length (codes_byte maxBits_ c e).1 <= 2)%nat).
    { unfold codes_byte, widened. simpl. repeat case_match; simplify_eq/=; split; try lia; repeat constructor; simpl; lia. }
    destruct (codes_byte maxBits_ c e) as [l e'] eqn:E. cbn [fst snd] in *. destruct (IH e' He') as [H1 H2].
    rewrite length_app. split; [apply Forall_app_2; [apply Hb|done]|]. destruct Hb. simpl. lia.
Qed.

Lemma stream_bound data : (9 <= maxBits_)%nat ->
  (length (fields_bits (stream maxBits_ data)) <= maxBits_ * (2 * length data + 3))%nat.
Proof.
  intros Hm. destruct (codes_bound data (start (newEntry END_MARKER))) as [H1 H2]. { apply encoding_start; [done|by left]. }
  etransitivity; [apply length_fields_bits|]; unfold stream.
  - constructor; [simpl; unfold MIN_BITS; lia|done].
  - simpl length. nia.
Qed.

(** Fewer than 253 bytes never fill a table of 9-bit codes. *)
Lemma final_next data : forall e, 258 <= next_code e -> 258 <= next_code (final maxBits_ data e) <= next_code e + zlen data.
Proof.
  induction data as [|c data IH]; intros e He; [simpl; rewrite zlen_nil; lia|]. unfold final in *. cbn [foldl]. rewrite zlen_cons.
  assert (Hc : 258 <= next_code (codes_byte maxBits_ c e).2 <= next_code e + 1).
  { unfold codes_byte, widened. simpl. unfold FIRST_CODE. repeat case_match; simplify_eq/=; unfold FIRST_CODE; lia. }
  specialize (IH (codes_byte maxBits_ c e).2 ltac:(lia)). lia.
Qed.

Lemma short_end_ok data : (9 <= maxBits_)%nat -> (length data < 253)%nat ->
  end_ok maxBits_ (final maxBits_ data (start (newEntry END_MARKER))).
Proof.
  intros Hm Hl. right. set (e := final _ _ _).
  assert (He : encoding maxBits_ e).
  { unfold e, final. generalize (encoding_start maxBits_ (newEntry END_MARKER) Hm ltac:(by left)). generalize (start (newEntry END_MARKER)).
    clear. induction data as [|c data IH]; intros e He; [done|]. cbn [foldl]. apply IH. by apply codes_byte_ok. }
  pose proof (enc_width _ _ He). pose proof (Z.pow_le_mono_r 2 9 (Z.of_nat (nbits e)) ltac:(lia) ltac:(lia)).
  assert (next_code e <= 509); [|lia]. unfold e. destruct data as [|c data]; [vm_compute; congruence|].
  assert (E : final maxBits_ (c :: data) (start (newEntry END_MARKER)) = final maxBits_ data (start (assign c))).
  { unfold final. cbn [foldl]. f_equal. unfold codes_byte.
    replace (code_table (start (newEntry END_MARKER)) !! (chars_ (w (start (newEntry END_MARKER))) ++ [c]))
      with (Some (assign c)) by (symmetry; apply (init_set_lookup [c] (assign c)); by exists c). done. }
  rewrite E. pose proof (final_next data (start (assign c)) ltac:(simpl; unfold FIRST_CODE; lia)) as Hf.
  cbn [next_code start] in Hf. unfold FIRST_CODE, zlen in Hf. simpl in Hl. lia.
Qed.
End Bounds.
End Compress.

(** C8. Decoding what was encoded gives the data back, between any handles, unless
    the input ends when the table of the current width is about to be full
    ([end_ok]; with fewer than 253 bytes it never does).  Both calls return the
    number of bytes they wrote. *)
Theorem compress_roundtrip {H1 H2 H3 H4 : Type} `{S1 : SourceHandle H1} `{S2 : SinkHandle H2} `{S3 : SourceHandle H3} `{S4 : SinkHandle H4}
    (maxBits : nat) (data : list byte) (h1 : H1) (h2 : H2) (cap : nat) :
  (9 <= maxBits <= 30)%nat ->
  Compress.end_ok maxBits (Compress.final maxBits data (Compress.start (Compress.newEntry Compress.END_MARKER))) ->
  readable h1 data None -> writable h2 false [] cap ->
  (maxBits * (2 * length data + 3) <= 8 * cap)%nat -> 8 * Z.of_nat cap + 7 < 2 ^ 64 ->
  exists h1' h2' out,
    Compress.encode maxBits (length data + 1) (h1, h2) = (Ok (zlen out), (h1', h2')) /\
    writable h2' false out (cap - length out) /\
    forall (h3 : H3) (h4 : H4), readable h3 out None -> writable h4 false [] (length data) ->
      exists h3' h4', Compress.decode maxBits (length data + 2) (h3, h4) = (Ok (zlen data), (h3', h4')) /\
        writable h4' false data 0.
Proof.
  intros Hm Hend Hr Hw Hcap H64. pose proof (Compress.stream_bound maxBits data ltac:(lia)) as Hs.
  destruct (Compress.compress_encode_ok (Hin := H1) (Hout := H2) maxBits ltac:(lia) (length data + 1) h1 h2 data cap) as (h1' & h2' & out & pad & E & Hw' & Hb & Hp);
    try done; try lia.
  exists h1', h2', out. split_and!; try done. intros h3 h4 Hr3 Hw4.
  destruct (Compress.decode_ok (Hin := H3) (Hout := H4) maxBits Hm (length data + 2) h3 h4 data (length data) out (replicate pad false))
    as (h3' & h4' & E' & Hw4'); try done; try lia.
  { unfold zlen. nia. }
  exists h3', h4'. by rewrite Nat.sub_diag in Hw4'.
Qed.

Definition zeros : nat -> byte := fun _ => "000"%byte.
Definition banana : list byte := str "bananabanana".

Lemma compress_roundtrip_witness :
  exists h1' h2' out,
    Compress.encode (H := MemoryHandle.handle zeros) (H0 := MemoryHandle.handle zeros) 16 13
      (MemoryHandle.over banana true, MemoryHandle.over (replicate 64 "000"%byte) false) = (Ok (zlen out), (h1', h2')) /\
    writable (SinkHandle := MemoryHandle.sink zeros false) h2' false out (64 - length out) /\
    forall h3 h4, readable (SourceHandle := MemoryHandle.source zeros) h3 out None ->
      writable (SinkHandle := MemoryHandle.sink zeros false) h4 false [] 12 ->
      exists h3' h4', Compress.decode (H := MemoryHandle.handle zeros) (H0 := MemoryHandle.handle zeros) 16 14 (h3, h4) =
        (Ok 12, (h3', h4')) /\ writable (SinkHandle := MemoryHandle.sink zeros false) h4' false banana 0.
Proof.
  apply (compress_roundtrip (S1 := MemoryHandle.source zeros) (S2 := MemoryHandle.sink zeros false)
           (S3 := MemoryHandle.source zeros) (S4 := MemoryHandle.sink zeros false) 16 banana).
  - lia.
  - apply Compress.short_end_ok; [lia|vm_compute; lia].
  - vm_compute. split_and!; congruence.
  - vm_compute. split_and!; congruence.
  - vm_compute. lia.
  - lia.
Defined.

(** The bytes 0 to 252 are written as 253 codes of 9 bits, then the end marker of 9
    bits.  The decoder adds an entry after the last code, which the encoder does
    not: it reads the end marker on 10 bits, takes it for another code, and fails. *)
Definition all_different : list byte := byte.of_Z <$> seqZ 0 253.

Lemma compress_end_width_differs :
  exists h1 h2, Compress.encode (H := MemoryHandle.handle zeros) (H0 := MemoryHandle.handle zeros) 16 254
      (MemoryHandle.over all_different true, MemoryHandle.over (replicate 287 "000"%byte) false) = (Ok 287, (h1, h2)) /\
    (Compress.decode (H := MemoryHandle.handle zeros) (H0 := MemoryHandle.handle zeros) 16 255
       (MemoryHandle.over (address_ h2) true, MemoryHandle.over (replicate 253 "000"%byte) false)).1 = Throw AssertionFailed.
Proof. eexists _, _. split; [vm_compute; reflexivity|]. vm_compute. reflexivity. Qed.
