(* ===== verification/Algorithms.v ===== *)
(** * Standard algorithms used by the containers

    [std::lower_bound], as the containers of [container/] call it: a binary
    search for the first entry that is not below the key.  It is written as the
    halving loop and characterised on ranges that are partitioned by the test. *)
From S2P Require Import Prelude.
From stdpp Require Export sorting.

(** ** Keys: a decidable strict total order ([operator<] and [operator==]). *)
Class KeyOrder (K : Type) := {
  #[global] key_eq_dec :: EqDecision K;
  klt : K -> K -> Prop;
  #[global] klt_dec :: RelDecision klt;
  #[global] klt_so :: StrictOrder klt;
  klt_tri : forall x y, klt x y \/ x = y \/ klt y x;
}.

#[export] Instance Z_key_order : KeyOrder Z := {|
  klt := Z.lt;
  klt_tri := Z.lt_trichotomy;
|}.

Section LowerBound.
Context {A : Type}.
(** [below x]: the comparison [x < key] of the search. *)
Variable below : A -> bool.

(** [while (len > 0) { half = len / 2; mid = first + half; ... }] *)
Fixpoint lower_bound_loop (fuel : nat) (l : list A) (first len : nat) : nat :=
  match fuel with
  | O => first
  | S f =>
      match len with
      | O => first
      | _ =>
          let half := Nat.div2 len in
          match l !! (first + half)%nat with
          | Some x =>
              if below x then lower_bound_loop f l (first + half + 1) (len - half - 1)
              else lower_bound_loop f l first half
          | None => first
          end
      end
  end.

Definition lower_bound (l : list A) : nat := lower_bound_loop (length l) l 0 (length l).

(** The entries that satisfy the test come first. *)
Definition partitioned (l : list A) : Prop :=
  forall i j x y, (i < j)%nat -> l !! i = Some x -> l !! j = Some y ->
    below y = true -> below x = true.

Definition is_partition_point (l : list A) (n : nat) : Prop :=
  (n <= length l)%nat /\
  (forall i x, (i < n)%nat -> l !! i = Some x -> below x = true) /\
  (forall i x, (n <= i)%nat -> l !! i = Some x -> below x = false).

Lemma lower_bound_loop_spec fuel l first len :
  partitioned l -> (len <= fuel)%nat -> (first + len <= length l)%nat ->
  (forall i x, (i < first)%nat -> l !! i = Some x -> below x = true) ->
  (forall i x, (first + len <= i)%nat -> l !! i = Some x -> below x = false) ->
  is_partition_point l (lower_bound_loop fuel l first len).
Proof.
  intros Hp. revert first len. induction fuel as [|f IH]; intros first len Hf Hl Hlo Hhi; simpl.
  { assert (len = 0%nat) as -> by lia. rewrite Nat.add_0_r in *. by split. }
  destruct len as [|len]; [rewrite Nat.add_0_r in *; by split|].
  pose proof (Nat.lt_div2 (S len) ltac:(lia)) as Hh. set (half := Nat.div2 (S len)) in *.
  destruct (lookup_lt_is_Some_2 l (first + half)) as [x Hx]; [lia|]. rewrite Hx.
  destruct (below x) eqn:Hb.
  - apply IH; [lia|lia| |].
    + intros i y Hi Hy. destruct (decide (i = (first + half)%nat)) as [->|]; [congruence|].
      eapply Hp; [|exact Hy|exact Hx|done]. lia.
    + intros i y Hi Hy. eapply Hhi; [|exact Hy]. lia.
  - apply IH; [lia|lia|done|]. intros i y Hi Hy.
    destruct (decide (i = (first + half)%nat)) as [->|]; [congruence|].
    apply not_true_iff_false. intros Hby. apply not_true_iff_false in Hb. apply Hb.
    eapply Hp; [|exact Hx|exact Hy|done]. lia.
Qed.

Lemma lower_bound_spec l : partitioned l -> is_partition_point l (lower_bound l).
Proof.
  intros Hp. apply lower_bound_loop_spec; [done|lia|lia|lia|].
  intros i x Hi Hx. apply lookup_lt_Some in Hx. lia.
Qed.

(** The partition point splits the list. *)
Lemma lower_bound_split l :
  partitioned l ->
  Forall (fun x => below x = true) (take (lower_bound l) l) /\
  Forall (fun x => below x = false) (drop (lower_bound l) l).
Proof.
  intros Hp. destruct (lower_bound_spec l Hp) as (Hn & Hlo & Hhi).
  split; apply Forall_lookup; intros i x Hi.
  - apply lookup_take_Some in Hi as [Hi Hlt]. by eapply Hlo.
  - rewrite lookup_drop in Hi. eapply Hhi; [|exact Hi]. lia.
Qed.

Lemma partition_point_app l1 l2 n :
  Forall (fun x => below x = true) l1 -> Forall (fun x => below x = false) l2 ->
  is_partition_point (l1 ++ l2) n -> n = length l1.
Proof.
  intros H1 H2 (Hn & Hlo & Hhi). rewrite length_app in Hn.
  destruct (decide (n < length l1)%nat) as [Hlt|Hge].
  - destruct (lookup_lt_is_Some_2 l1 n Hlt) as [x Hx].
    pose proof (Forall_lookup_1 _ _ _ _ H1 Hx) as Hb. simpl in Hb.
    rewrite (Hhi n x) in Hb; [done|lia|]. by rewrite lookup_app_l.
  - destruct (decide (n = length l1)) as [|Hne]; [done|].
    destruct (lookup_lt_is_Some_2 l2 0) as [x Hx]; [lia|].
    pose proof (Forall_lookup_1 _ _ _ _ H2 Hx) as Hb. simpl in Hb.
    rewrite (Hlo (length l1) x) in Hb; [done|lia|].
    rewrite lookup_app_r, Nat.sub_diag by lia. done.
Qed.

Lemma lower_bound_app l1 l2 :
  partitioned (l1 ++ l2) ->
  Forall (fun x => below x = true) l1 -> Forall (fun x => below x = false) l2 ->
  lower_bound (l1 ++ l2) = length l1.
Proof. intros Hp H1 H2. eapply partition_point_app; eauto using lower_bound_spec. Qed.
End LowerBound.

(** ** Ranges sorted by key *)

Section Sorted.
Context {K X : Type} `{KeyOrder K}.
Implicit Types (es l : list (K * X)) (key : K).

Definition keysorted es : Prop := StronglySorted (fun a b => klt a.1 b.1) es.

(** [NodeEntry::operator<(const K&)] and [LeafEntry::operator<(const K&)] *)
Definition key_below key (e : K * X) : bool := bool_decide (klt e.1 key).

Lemma klt_irrefl k : ~ klt k k.
Proof. apply irreflexivity. apply _. Qed.

Lemma not_klt x y : ~ klt x y <-> x = y \/ klt y x.
Proof.
  destruct (klt_tri x y) as [Hl|[->|Hg]]; split; try tauto.
  - intros [->|Hg]; [by intros ?%klt_irrefl|]. intros _. by apply (klt_irrefl x); trans y.
  - intros _. apply klt_irrefl.
  - intros _ Hl. by apply (klt_irrefl x); trans y.
Qed.

Lemma keysorted_app l1 l2 :
  keysorted (l1 ++ l2) <->
  keysorted l1 /\ keysorted l2 /\ forall a b, a ∈ l1 -> b ∈ l2 -> klt a.1 b.1.
Proof.
  unfold keysorted. rewrite StronglySorted_app. tauto.
Qed.

Lemma keysorted_cons x l :
  keysorted (x :: l) <-> keysorted l /\ Forall (fun b => klt x.1 b.1) l.
Proof. unfold keysorted. rewrite StronglySorted_cons. tauto. Qed.

Lemma keysorted_partitioned key es : keysorted es -> partitioned (key_below key) es.
Proof.
  intros Hs i j x y Hij Hx Hy. unfold key_below. rewrite !bool_decide_eq_true. intros Hyk.
  rewrite <- (take_drop j es) in Hs. apply keysorted_app in Hs as (_ & _ & Hs).
  etrans; [|exact Hyk]. apply Hs.
  - apply list_elem_of_lookup. exists i. by rewrite lookup_take_lt.
  - apply list_elem_of_lookup. exists 0%nat. by rewrite lookup_drop, Nat.add_0_r.
Qed.

(** Where [std::lower_bound] lands in a sorted range. *)
Lemma lower_bound_cases key es :
  keysorted es ->
  exists l1 l2, es = l1 ++ l2 /\ lower_bound (key_below key) es = length l1 /\
    Forall (fun e => klt e.1 key) l1 /\
    ((exists x l3, l2 = (key, x) :: l3 /\ Forall (fun e => klt key e.1) l3) \/
     Forall (fun e => klt key e.1) l2).
Proof.
  intros Hs. pose proof (keysorted_partitioned key es Hs) as Hp.
  pose proof (lower_bound_split _ es Hp) as [H1 H2].
  destruct (lower_bound_spec _ es Hp) as (Hn & _).
  set (n := lower_bound _ es) in *. exists (take n es), (drop n es).
  split_and!; [by rewrite take_drop|rewrite length_take; lia| |].
  { eapply Forall_impl; [exact H1|]. intros e He. by apply bool_decide_eq_true in He. }
  rewrite <- (take_drop n es) in Hs. apply keysorted_app in Hs as (_ & Hs & _).
  destruct (drop n es) as [|[k x] l3]; [right; constructor|].
  apply keysorted_cons in Hs as [Hs Hk]. apply Forall_cons in H2 as [Hb _].
  apply bool_decide_eq_false, not_klt in Hb. simpl in *. destruct Hb as [->|Hb]; [left; by eauto|].
  right. constructor; [done|]. eapply Forall_impl; [exact Hk|]. intros e He. by trans k.
Qed.
End Sorted.
