(* ===== verification/BTree.v ===== *)
(** * The paged B+tree: model

    [container/BTree.h] and [container/BTree.cc].  A tree lives in a file of
    fixed-size pages; page 1 is the root, a node page has one more child than
    separators (the first child is [left_]), leaf pages are doubly linked through
    [left_]/[right_].  Pages are accessed through a write-back cache.

    The page layer (cache and file) and the tree algorithms are separated by the
    interface [PageStore]; [Cached] below is the layer of the source. *)
From S2P Require Import Prelude Algorithms.
#[local] Open Scope nat_scope.

(** ** Pages *)

Section Page.
Context {K V : Type}.

(** A page is reinterpreted as [NodePage] or [LeafPage] according to [node_];
    the live entries [0 .. count_ - 1] are a list. *)
Inductive entries : Type :=
| LeafPage (lentries_ : list (K * V))
| NodePage (nentries_ : list (K * nat)).

Record page : Type := mkPage {
  id_ : nat;
  left_ : nat;
  right_ : nat;
  body : entries;
}.

Definition node_ (p : page) : bool :=
  match body p with NodePage _ => true | LeafPage _ => false end.

Definition count_ (p : page) : nat :=
  match body p with NodePage es => length es | LeafPage es => length es end.

(** [zero(p)] followed by [p.id_ = id]. *)
Definition zeroPage (id : nat) : page := mkPage id 0 0 (LeafPage []).
End Page.
Arguments entries : clear implicits.
Arguments page : clear implicits.

(** ** The page layer *)

Class PageStore (K V St : Type) := {
  loadPage : nat -> M St (page K V);
  savePage : page K V -> M St unit;
  newPage : M St (page K V);
}.

(** What the tree algorithms rely on: a finite map of pages, of which
    [numPages] have been allocated, with ids [1 .. numPages]. *)
Class PageStoreLaws (K V St : Type) `{PageStore K V St} := {
  store_ok : St -> Prop;
  view : St -> gmap nat (page K V);
  numPages : St -> nat;
  view_ok : forall st i p, store_ok st -> view st !! i = Some p ->
    id_ p = i /\ (1 <= i <= numPages st)%nat;
  loadPage_ok : forall st i p, store_ok st -> view st !! i = Some p ->
    exists st', loadPage i st = (Ok p, st') /\ store_ok st' /\
      view st' = view st /\ numPages st' = numPages st;
  savePage_ok : forall st p, store_ok st -> (1 <= id_ p <= numPages st)%nat ->
    exists st', savePage p st = (Ok tt, st') /\ store_ok st' /\
      view st' = <[id_ p := p]> (view st) /\ numPages st' = numPages st;
  newPage_ok : forall st, store_ok st ->
    exists st', newPage st = (Ok (zeroPage (S (numPages st))), st') /\ store_ok st' /\
      view st' = <[S (numPages st) := zeroPage (S (numPages st))]> (view st) /\
      numPages st' = S (numPages st);
}.

(** [Cached]: [file_], [cache_] and the flags of [BTree]. *)
Module Cached.
Section Cached.
Context {K V : Type}.

Record pageInfo : Type := mkInfo {
  page_ : page K V;
  uses_ : nat;
  dirty_ : bool;
}.

Record t : Type := mk {
  file_ : list (page K V);
  cache_ : gmap nat pageInfo;
  readOnly_ : bool;
  cacheReads_ : bool;
  cacheWrites_ : bool;
}.

Definition set_file (f : list (page K V)) (s : t) : t :=
  mk f (cache_ s) (readOnly_ s) (cacheReads_ s) (cacheWrites_ s).
Definition set_cache (c : gmap nat pageInfo) (s : t) : t :=
  mk (file_ s) c (readOnly_ s) (cacheReads_ s) (cacheWrites_ s).

(** The file from [offset_] on is a sequence of page images: page [i] is
    at offset [sizeof(Page) * (i - 1)]. *)
Definition pageIndex (i : nat) : M t nat :=
  assertM (bool_decide (0 < i)%nat) ;; mret (i - 1)%nat.

(** A seek and a read of one page image; a short read fails the assertion
    on the length. *)
Definition _loadPage (i : nat) : M t (page K V) :=
  o ← pageIndex i;
  s ← getM;
  match file_ s !! o with
  | None => throwM AssertionFailed
  | Some p => assertM (bool_decide (i = id_ p)) ;; mret p
  end.

Definition loadPage (i : nat) : M t (page K V) :=
  s ← getM;
  match cache_ s !! i with
  | Some info => mret (page_ info)
  | None =>
      p ← _loadPage i;
      (if cacheReads_ s
       then modifyM (fun s => set_cache (<[id_ p := mkInfo p 0 false]> (cache_ s)) s)
       else mret tt) ;;
      mret p
  end.

(** Writing at index [o]: past the end the file grows, and the gap reads
    back as zeroed pages. *)
Definition file_write (o : nat) (p : page K V) (f : list (page K V)) : list (page K V) :=
  if decide (o < length f)%nat then <[o := p]> f
  else f ++ replicate (o - length f) (zeroPage 0) ++ [p].

Definition _savePage (p : page K V) : M t unit :=
  s ← getM;
  assertM (negb (readOnly_ s)) ;;
  o ← pageIndex (id_ p);
  modifyM (fun s => set_file (file_write o p (file_ s)) s).

Definition savePage (p : page K V) : M t unit :=
  s ← getM;
  match cache_ s !! id_ p with
  | Some info =>
      modifyM (fun s => set_cache (<[id_ p := mkInfo p (S (uses_ info)) true]> (cache_ s)) s)
  | None =>
      if cacheWrites_ s
      then modifyM (fun s => set_cache (<[id_ p := mkInfo p 1 true]> (cache_ s)) s)
      else _savePage p
  end.

Definition _newPage : M t (page K V) :=
  s ← getM;
  assertM (negb (readOnly_ s)) ;;
  let p := zeroPage (length (file_ s) + 1) in
  modifyM (fun s => set_file (file_ s ++ [p]) s) ;;
  mret p.

Definition newPage : M t (page K V) :=
  p ← _newPage;
  s ← getM;
  (if cacheReads_ s || cacheWrites_ s
   then modifyM (fun s => set_cache (<[id_ p := mkInfo p 0 false]> (cache_ s)) s)
   else mret tt) ;;
  mret p.

(** [flush]: write every dirty page and mark it clean.  The pages are
    distinct, so the order of the writes is not observable. *)
Fixpoint flush_loop (l : list (nat * pageInfo)) : M t unit :=
  match l with
  | [] => mret tt
  | (i, info) :: l =>
      (if dirty_ info
       then _savePage (page_ info) ;;
            modifyM (fun s =>
              set_cache (<[i := mkInfo (page_ info) (uses_ info) false]> (cache_ s)) s)
       else mret tt) ;;
      flush_loop l
  end.

Definition flush : M t unit :=
  s ← getM; flush_loop (map_to_list (cache_ s)).
End Cached.
Arguments pageInfo : clear implicits.
Arguments t : clear implicits.
End Cached.

#[export] Instance cached_store {K V} : PageStore K V (Cached.t K V) := {|
  loadPage := Cached.loadPage;
  savePage := Cached.savePage;
  newPage := Cached.newPage;
|}.

(** ** The tree algorithms *)

Section Tree.
Context {K V St : Type} `{KeyOrder K} `{PageStore K V St}.

(** Entries that fit in a page: [_LeafPage::SIZE] and [_NodePage::SIZE];
    the constructor asserts that both exceed 3. *)
Variables maxLeafEntries_ maxNodeEntries_ : nat.

(** The child of node page [p] that may hold [key]. *)
Definition next (key : K) (p : page K V) : outcome nat :=
  match body p with
  | LeafPage _ => Throw AssertionFailed
  | NodePage [] => Throw AssertionFailed
  | NodePage (((k0, _) :: _) as es) =>
      if decide (klt key k0) then Ok (left_ p)
      else
        let e := lower_bound (key_below key) es in
        let e := match es !! e with
                 | None => (e - 1)%nat
                 | Some (k, _) => if decide (klt key k) then (e - 1)%nat else e
                 end in
        match es !! e with
        | Some (_, c) => Ok c
        | None => Undef
        end
  end.

(** [memmove(e + 1, e, ...)] and the store of the new entry at [e]: the array
    holds [max] entries. *)
Definition insert_at {X} (max : nat) (e : nat) (x : X) (l : list X) : outcome (list X) :=
  if decide (length l < max)%nat then Ok (take e l ++ x :: drop e l) else Undef.

(** [e != end && e->key_ == key] *)
Definition holds_at {X} (key : K) (e : nat) (l : list (K * X)) : bool :=
  match l !! e with Some (k, _) => bool_decide (k = key) | None => false end.

(** Walk from [page] to the leaf for [key]; [path] gets the nodes visited. *)
Fixpoint descend (fuel : nat) (page : nat) (key : K) (path : list nat) :
    M St (Datatypes.prod (BTree.page K V) (list nat)) :=
  match fuel with
  | O => liftM NoFuel
  | S f =>
      p ← loadPage page;
      if node_ p
      then c ← liftM (next key p); descend f c key (page :: path)
      else mret (p, path)
  end.

Definition splitRoot : M St unit :=
  p ← loadPage 1;
  pleft ← newPage;
  pright ← newPage;
  let middle := Nat.div2 (count_ p) in
  match body p with
  | NodePage es =>
      match es !! middle with
      | None => liftM Undef
      | Some (key, c) =>
          savePage (mkPage (id_ pright) c 0 (NodePage (drop (middle + 1) es))) ;;
          savePage (mkPage (id_ pleft) (left_ p) 0 (NodePage (take middle es))) ;;
          savePage (mkPage 1 (id_ pleft) 0 (NodePage [(key, id_ pright)]))
      end
  | LeafPage es =>
      match es !! middle with
      | None => liftM Undef
      | Some (key, _) =>
          savePage (mkPage (id_ pright) (id_ pleft) 0 (LeafPage (drop middle es))) ;;
          savePage (mkPage (id_ pleft) 0 (id_ pright) (LeafPage (take middle es))) ;;
          savePage (mkPage 1 (id_ pleft) 0 (NodePage [(key, id_ pright)]))
      end
  end.

(** A full page of any kind. *)
Definition is_full (p : page K V) : bool :=
  if node_ p then bool_decide (count_ p = maxNodeEntries_)
  else bool_decide (count_ p = maxLeafEntries_).

(** Split the full page [p] (not the root): the upper half moves to a new
    page.  Returns the separator and the new page's id. *)
Definition splitPage (p : page K V) : M St (K * nat) :=
  let middle := Nat.div2 (count_ p) in
  n ← newPage;
  match body p with
  | NodePage es =>
      match es !! middle with
      | None => liftM Undef
      | Some (k, c) =>
          savePage (mkPage (id_ n) c (right_ n) (NodePage (drop (middle + 1) es))) ;;
          savePage (mkPage (id_ p) (left_ p) (right_ p) (NodePage (take middle es))) ;;
          mret (k, id_ n)
      end
  | LeafPage es =>
      match es !! middle with
      | None => liftM Undef
      | Some (k, _) =>
          (if decide (right_ p <> 0%nat)
           then r ← loadPage (right_ p);
                savePage (mkPage (id_ r) (id_ n) (right_ r) (body r))
           else mret tt) ;;
          savePage (mkPage (id_ n) (id_ p) (right_ p) (LeafPage (drop middle es))) ;;
          savePage (mkPage (id_ p) (left_ p) (id_ n) (LeafPage (take middle es))) ;;
          mret (k, id_ n)
      end
  end.

(** Insert separator [k] for child [c] into the node page [page]. *)
Definition insertSeparator (page : nat) (k : K) (c : nat) : M St (BTree.page K V) :=
  p ← loadPage page;
  match body p with
  | LeafPage _ => throwM AssertionFailed
  | NodePage es =>
      assertM (bool_decide (es <> [])) ;;
      let e := lower_bound (key_below k) es in
      assertM (negb (holds_at k e es)) ;;
      es' ← liftM (insert_at maxNodeEntries_ e (k, c) es);
      let p' := mkPage (id_ p) (left_ p) (right_ p) (NodePage es') in
      savePage p' ;;
      mret p'
  end.

(** The loop of [insert]: split upwards while the current page is full.
    [path] lists the ancestors, innermost first. *)
Fixpoint splitLoop (fuel : nat) (p : page K V) (path : list nat) : M St unit :=
  match fuel with
  | O => liftM NoFuel
  | S f =>
      if is_full p then
        if decide (id_ p = 1%nat) then splitRoot
        else
          kc ← splitPage p;
          match path with
          | [] => liftM Undef
          | parent :: path' =>
              p' ← insertSeparator parent kc.1 kc.2;
              splitLoop f p' path'
          end
      else mret tt
  end.

(** [insert] and [set]: [true] when the key was already there. *)
Definition insert (fuel : nat) (page : nat) (key : K) (value : V) : M St bool :=
  pp ← descend fuel page key [];
  let '(p, path) := pp in
  match body p with
  | NodePage _ => liftM Undef
  | LeafPage es =>
      let e := lower_bound (key_below key) es in
      if holds_at key e es then
        savePage (mkPage (id_ p) (left_ p) (right_ p) (LeafPage (<[e := (key, value)]> es))) ;;
        mret true
      else
        es' ← liftM (insert_at maxLeafEntries_ e (key, value) es);
        let p' := mkPage (id_ p) (left_ p) (right_ p) (LeafPage es') in
        savePage p' ;;
        splitLoop (S (length path)) p' path ;;
        mret false
  end.

(** [search(page, key, result)] and [get]. *)
Fixpoint search (fuel : nat) (page : nat) (key : K) : M St (option V) :=
  match fuel with
  | O => liftM NoFuel
  | S f =>
      p ← loadPage page;
      match body p with
      | NodePage _ => c ← liftM (next key p); search f c key
      | LeafPage es =>
          match es !! lower_bound (key_below key) es with
          | Some (k, v) => if decide (k = key) then mret (Some v) else mret None
          | None => mret None
          end
      end
  end.

(** The scan of [search(page, key1, key2, result)] along the leaves:
    [rest] is the part of the current leaf from [e] on, [right] its link. *)
Fixpoint scan (fuel : nat) (key2 : K) (rest : list (K * V)) (right : nat) (acc : list (K * V)) :
    M St (list (K * V)) :=
  match fuel with
  | O => liftM NoFuel
  | S f =>
      match rest with
      | [] => liftM Undef
      | (k, v) :: rest' =>
          if decide (klt key2 k) then mret acc
          else
            match rest' with
            | _ :: _ => scan f key2 rest' right (acc ++ [(k, v)])
            | [] =>
                if decide (right <> 0%nat) then
                  p ← loadPage right;
                  match body p with
                  | NodePage _ => throwM AssertionFailed
                  | LeafPage es => scan f key2 es (right_ p) (acc ++ [(k, v)])
                  end
                else mret (acc ++ [(k, v)])
            end
      end
  end.

Fixpoint rangeSearch (fuel sfuel : nat) (page : nat) (key1 key2 : K) : M St (list (K * V)) :=
  match fuel with
  | O => liftM NoFuel
  | S f =>
      p ← loadPage page;
      match body p with
      | NodePage _ => c ← liftM (next key1 p); rangeSearch f sfuel c key1 key2
      | LeafPage es =>
          match drop (lower_bound (key_below key1) es) es with
          | [] => mret []
          | rest => scan sfuel key2 rest (right_ p) []
          end
      end
  end.

(** The loop of [count(page)] over the children of a node. *)
Fixpoint count_children (count : nat -> M St nat) (l : list (K * nat)) (c : nat) : M St nat :=
  match l with
  | [] => mret c
  | (_, q) :: l => n ← count q; count_children count l (c + n)%nat
  end.

(** [count(page)]: entries of the leaves below [page]. *)
Fixpoint count (fuel : nat) (page : nat) : M St nat :=
  match fuel with
  | O => liftM NoFuel
  | S f =>
      p ← loadPage page;
      match body p with
      | LeafPage es => mret (length es)
      | NodePage es => c0 ← count f (left_ p); count_children (count f) es c0
      end
  end.
End Tree.

(** ** The public operations on a cached file *)

Section Ops.
Context {K V : Type} `{KeyOrder K}.
Variables maxLeafEntries_ maxNodeEntries_ : nat.

(** The constructor on a file with pages [f]: an empty file gets a root. *)
Definition BTree_open (readOnly : bool) (f : list (page K V)) : outcome unit * Cached.t K V :=
  let s := Cached.mk f ∅ readOnly true true in
  if decide (length f <= 0)%nat
  then (root ← newPage; assertM (bool_decide (id_ root = 1%nat))) s
  else (Ok tt, s).

(** The depth of the recursions is bounded by the number of pages. *)
Definition pages : M (Cached.t K V) nat := s ← getM; mret (length (Cached.file_ s)).

Definition set (key : K) (value : V) : M (Cached.t K V) bool :=
  n ← pages; insert maxLeafEntries_ maxNodeEntries_ n 1 key value.

Definition get (key : K) : M (Cached.t K V) (option V) :=
  n ← pages; search n 1 key.

Definition range (key1 key2 : K) : M (Cached.t K V) (list (K * V)) :=
  n ← pages; rangeSearch n (S (n * maxLeafEntries_)) 1 key1 key2.

Definition countAll : M (Cached.t K V) nat := n ← pages; count n 1.

Definition remove (key : K) : M (Cached.t K V) bool := throwM NotImplemented.

(** [preload]: follow the right links from the root page. *)
Fixpoint preload_loop (fuel : nat) (p : page K V) : M (Cached.t K V) unit :=
  match fuel with
  | O => liftM NoFuel
  | S f =>
      if decide (right_ p <> 0%nat) then q ← loadPage (right_ p); preload_loop f q
      else mret tt
  end.

Definition preload : M (Cached.t K V) unit :=
  n ← pages; p ← loadPage 1; preload_loop (S n) p.
End Ops.
