(* ===== verification/BTreeStore.v ===== *)
(** * The page cache implements the page store

    The layer [Cached] of [BTree] (the file, the write-back cache and the
    read-only flag) satisfies the interface that the tree algorithms are verified
    against, and [flush] makes the file agree with the cached contents. *)
From S2P Require Import Prelude Algorithms BTree.
#[local] Open Scope nat_scope.
#[local] Set Warnings "-clear-no-such-hyp".

Section Store.
Context {K V : Type}.
Implicit Types (s : Cached.t K V) (p : page K V).

(** Pages sit at the place their id says, only existing pages are cached, and
    a clean copy agrees with the file. *)
Record cached_ok s : Prop := {
  ok_writable : Cached.readOnly_ s = false;
  ok_file : forall i p, Cached.file_ s !! i = Some p -> id_ p = S i;
  ok_cache : forall i info, Cached.cache_ s !! i = Some info ->
    id_ (Cached.page_ info) = i /\ 1 <= i <= length (Cached.file_ s);
  ok_clean : forall i info, Cached.cache_ s !! i = Some info -> Cached.dirty_ info = false ->
    Cached.file_ s !! (i - 1) = Some (Cached.page_ info);
}.

(** The contents seen through the cache. *)
Definition cached_view s : gmap nat (page K V) :=
  (Cached.page_ <$> Cached.cache_ s) ∪ map_seq 1 (Cached.file_ s).

Lemma cached_view_lookup s i :
  cached_view s !! i =
    match Cached.cache_ s !! i with
    | Some info => Some (Cached.page_ info)
    | None => if decide (1 <= i) then Cached.file_ s !! (i - 1) else None
    end.
Proof.
  unfold cached_view. rewrite lookup_union, lookup_fmap.
  destruct (Cached.cache_ s !! i); simpl.
  - by destruct (_ !! i).
  - rewrite lookup_map_seq. case_decide.
    + rewrite option_guard_True by lia. by destruct (_ !! _).
    + by rewrite option_guard_False by lia.
Qed.

Lemma cached_view_ok s i p :
  cached_ok s -> cached_view s !! i = Some p ->
  id_ p = i /\ 1 <= i <= length (Cached.file_ s).
Proof.
  intros Hok. rewrite cached_view_lookup. destruct (Cached.cache_ s !! i) eqn:Hc.
  - intros [= <-]. by eapply ok_cache.
  - case_decide; [|done]. intros Hf. pose proof (ok_file _ Hok _ _ Hf).
    apply lookup_lt_Some in Hf. lia.
Qed.

(** Replacing the cache entry of a page replaces it in the view. *)
Lemma cached_view_insert s i info :
  cached_view (Cached.set_cache (<[i := info]> (Cached.cache_ s)) s)
    = <[i := Cached.page_ info]> (cached_view s).
Proof. unfold cached_view. simpl. by rewrite fmap_insert, insert_union_l. Qed.

Lemma cached_ok_insert s i info :
  cached_ok s -> id_ (Cached.page_ info) = i -> 1 <= i <= length (Cached.file_ s) ->
  (Cached.dirty_ info = false -> Cached.file_ s !! (i - 1) = Some (Cached.page_ info)) ->
  cached_ok (Cached.set_cache (<[i := info]> (Cached.cache_ s)) s).
Proof.
  intros [Hw Hf Hc Hcl] Hid Hi Hd. split; [done..| |]; simpl; intros j info' Hj;
    apply lookup_insert_Some in Hj as [[<- <-]|[_ Hj]]; eauto.
Qed.

Lemma cached_load s i p :
  cached_ok s -> cached_view s !! i = Some p ->
  exists s', Cached.loadPage i s = (Ok p, s') /\ cached_ok s' /\
    cached_view s' = cached_view s /\ length (Cached.file_ s') = length (Cached.file_ s).
Proof.
  intros Hok Hv. pose proof (cached_view_ok _ _ _ Hok Hv) as [Hid Hi]. subst i.
  pose proof Hv as Hv'. rewrite cached_view_lookup in Hv.
  unfold Cached.loadPage, Cached._loadPage, Cached.pageIndex, mbind, M_bind, getM, assertM, liftM, mret, M_ret, modifyM. simpl.
  destruct (Cached.cache_ s !! id_ p) as [info|] eqn:Hc; [simplify_eq; by eexists|].
  rewrite decide_True in Hv by lia. rewrite bool_decide_true by lia. simpl.
  rewrite Hv. rewrite bool_decide_true by done. simpl.
  destruct (Cached.cacheReads_ s); [|by eexists].
  eexists. split_and!; [done|by apply cached_ok_insert| |done].
  rewrite cached_view_insert. by apply insert_id.
Qed.

Lemma cached_save s p :
  cached_ok s -> 1 <= id_ p <= length (Cached.file_ s) ->
  exists s', Cached.savePage p s = (Ok tt, s') /\ cached_ok s' /\
    cached_view s' = <[id_ p := p]> (cached_view s) /\
    length (Cached.file_ s') = length (Cached.file_ s).
Proof.
  intros Hok Hi. unfold Cached.savePage, Cached._savePage, Cached.pageIndex, mbind, M_bind, getM, assertM, liftM, mret, M_ret, modifyM. simpl.
  destruct (Cached.cache_ s !! id_ p) as [info|] eqn:Hc.
  { eexists. split_and!; [done|by apply cached_ok_insert|by rewrite cached_view_insert|done]. }
  destruct (Cached.cacheWrites_ s).
  { eexists. split_and!; [done|by apply cached_ok_insert|by rewrite cached_view_insert|done]. }
  rewrite (ok_writable _ Hok). rewrite bool_decide_true by lia. simpl.
  unfold Cached.file_write. rewrite decide_True by lia.
  eexists. split; [done|]. simpl. rewrite length_insert. split_and!; [|apply map_eq|done].
  - destruct Hok as [Hw Hf Hcc Hcl]. split; simpl; [done| |by rewrite length_insert|].
    + intros i q Hq. apply list_lookup_insert_Some in Hq as [(<- & <- & ?)|[? Hq]]; [lia|by apply Hf].
    + intros i info Hinfo Hd. pose proof (Hcc _ _ Hinfo) as [_ ?].
      rewrite list_lookup_insert_ne; [by apply Hcl|]. intros Heq. assert (i = id_ p) by lia. congruence.
  - intros i. rewrite lookup_insert, !cached_view_lookup. simpl. destruct (decide (id_ p = i)) as [<-|Hne].
    + rewrite Hc, decide_True by lia. by rewrite list_lookup_insert_eq by lia.
    + destruct (Cached.cache_ s !! i); [done|]. case_decide; [|done].
      by rewrite list_lookup_insert_ne by lia.
Qed.

Lemma cached_new s :
  cached_ok s ->
  exists s', Cached.newPage s = (Ok (zeroPage (S (length (Cached.file_ s)))), s') /\ cached_ok s' /\
    cached_view s' =
      <[S (length (Cached.file_ s)) := zeroPage (S (length (Cached.file_ s)))]> (cached_view s) /\
    length (Cached.file_ s') = S (length (Cached.file_ s)).
Proof.
  intros Hok. set (n := length (Cached.file_ s)). set (z := zeroPage (S n) : page K V).
  set (s1 := Cached.set_file (Cached.file_ s ++ [z]) s).
  assert (Hn : Cached.cache_ s !! S n = None).
  { destruct (Cached.cache_ s !! S n) eqn:Hc; [|done]. apply (ok_cache _ Hok) in Hc. subst n; lia. }
  assert (Hok1 : cached_ok s1).
  { destruct Hok as [Hw Hf Hc Hcl]. split; simpl; [done| | |].
    - intros i p. rewrite lookup_snoc_Some. intros [[_ Hp]|[-> <-]]; [by apply Hf|done].
    - intros i info Hi. rewrite length_app. simpl. apply Hc in Hi. lia.
    - intros i info Hi Hd. apply lookup_app_l_Some. by apply Hcl. }
  assert (Hv1 : cached_view s1 = <[S n := z]> (cached_view s)).
  { apply map_eq. intros i. rewrite lookup_insert, !cached_view_lookup. simpl.
    destruct (decide (S n = i)) as [<-|Hne].
    - rewrite Hn. simpl. by rewrite Nat.sub_0_r, lookup_app_r, Nat.sub_diag by lia.
    - destruct (Cached.cache_ s !! i); [done|]. case_decide; [|done].
      destruct (decide (i - 1 < n)); [by rewrite lookup_app_l by done|].
      rewrite !lookup_ge_None_2; [done|subst n; lia|rewrite length_app; subst n; simpl; lia]. }
  assert (Hl1 : length (Cached.file_ s1) = S n) by (simpl; rewrite length_app; simpl; lia).
  assert (Hnew : Cached._newPage s = (Ok z, s1)).
  { unfold Cached._newPage, mbind, M_bind, getM, assertM, liftM, mret, M_ret, modifyM.
    rewrite (ok_writable _ Hok). simpl. by rewrite Nat.add_1_r. }
  unfold Cached.newPage. rewrite (M_bind_Ok _ _ _ _ _ Hnew).
  unfold mbind, M_bind, getM, modifyM, mret, M_ret.
  destruct (Cached.cacheReads_ s1 || Cached.cacheWrites_ s1); [|by eexists].
  eexists. split_and!; [done|apply cached_ok_insert; [done|done|simpl in *; lia|]| |done].
  { intros _. simpl. by rewrite Nat.sub_0_r, lookup_app_r, Nat.sub_diag by lia. }
  rewrite cached_view_insert, Hv1. simpl. by rewrite insert_insert_eq.
Qed.

#[export] Instance cached_laws : PageStoreLaws K V (Cached.t K V) := {|
  store_ok := cached_ok;
  view := cached_view;
  numPages s := length (Cached.file_ s);
  view_ok := cached_view_ok;
  loadPage_ok := cached_load;
  savePage_ok := cached_save;
  newPage_ok := cached_new;
|}.

(** ** Flushing *)

(** Writing a cached page to the file and marking it clean. *)
Lemma flush_page s i info :
  cached_ok s -> Cached.cache_ s !! i = Some info ->
  exists s', (Cached._savePage (Cached.page_ info) ;;
              modifyM (fun s => Cached.set_cache
                (<[i := Cached.mkInfo (Cached.page_ info) (Cached.uses_ info) false]> (Cached.cache_ s)) s)) s
             = (Ok tt, s') /\ cached_ok s' /\ cached_view s' = cached_view s /\
    Cached.cache_ s' = <[i := Cached.mkInfo (Cached.page_ info) (Cached.uses_ info) false]> (Cached.cache_ s) /\
    length (Cached.file_ s') = length (Cached.file_ s).
Proof.
  intros Hok Hi. destruct (ok_cache _ Hok _ _ Hi) as [Hid Hr].
  unfold Cached._savePage, Cached.pageIndex, mbind, M_bind, getM, assertM, liftM, mret, M_ret, modifyM. simpl.
  rewrite (ok_writable _ Hok), bool_decide_true by lia. simpl. unfold Cached.file_write. rewrite decide_True by lia.
  eexists. split; [done|]. simpl. rewrite length_insert, Hid. destruct Hok as [Hw Hf Hc Hcl]. split_and!; try done.
  - split; simpl; [done| | |].
    + intros j q Hq. apply list_lookup_insert_Some in Hq as [(<- & <- & ?)|[? Hq]]; [lia|by apply Hf].
    + rewrite length_insert. intros j info' Hj.
      apply lookup_insert_Some in Hj as [[<- <-]|[_ Hj]]; [by split|by apply Hc].
    + intros j info' Hj Hd. apply lookup_insert_Some in Hj as [[<- <-]|[Hne Hj]].
      * simpl. by rewrite list_lookup_insert_eq by lia.
      * pose proof (Hc _ _ Hj) as [_ ?]. rewrite list_lookup_insert_ne by lia. by apply Hcl.
  - apply map_eq. intros j. rewrite !cached_view_lookup. simpl. rewrite lookup_insert.
    destruct (decide (i = j)) as [<-|Hne]; [by rewrite Hi|].
    destruct (Cached.cache_ s !! j); [done|]. case_decide; [|done]. by rewrite list_lookup_insert_ne by lia.
Qed.

Lemma flush_loop_spec l : forall s,
  cached_ok s -> NoDup l.*1 -> (forall i info, (i, info) ∈ l -> Cached.cache_ s !! i = Some info) ->
  exists s', Cached.flush_loop l s = (Ok tt, s') /\ cached_ok s' /\ cached_view s' = cached_view s /\
    length (Cached.file_ s') = length (Cached.file_ s) /\
    (forall i info, Cached.cache_ s' !! i = Some info -> Cached.dirty_ info = true ->
       Cached.cache_ s !! i = Some info /\ i ∉ l.*1).
Proof.
  induction l as [|[i info] l IH]; intros s Hok Hnd Hl; cbn [Cached.flush_loop].
  { exists s. split_and!; try done. intros. split; [done|set_solver]. }
  apply NoDup_cons in Hnd as [Hni Hnd].
  assert (Hi : Cached.cache_ s !! i = Some info) by (apply Hl; set_solver).
  destruct (Cached.dirty_ info) eqn:Hd.
  - destruct (flush_page s i info Hok Hi) as (s1 & E1 & Hok1 & V1 & C1 & N1).
    rewrite (M_bind_Ok _ _ _ _ _ E1).
    destruct (IH s1 Hok1 Hnd) as (s2 & E2 & Hok2 & V2 & N2 & D2).
    { intros j inf Hj. rewrite C1, lookup_insert_ne; [apply Hl; set_solver|].
      intros <-. apply Hni. apply list_elem_of_fmap. by exists (i, inf). }
    exists s2. split_and!; [done|done|congruence|congruence|]. intros j inf Hj Hdj.
    destruct (D2 _ _ Hj Hdj) as [Hc Hnl]. rewrite C1 in Hc.
    apply lookup_insert_Some in Hc as [[<- <-]|[Hne Hc]]; [done|]. split; [done|set_solver].
  - rewrite (M_bind_Ok _ _ _ tt s) by done.
    destruct (IH s Hok Hnd) as (s2 & E2 & Hok2 & V2 & N2 & D2); [intros; apply Hl; set_solver|].
    exists s2. split_and!; [done..|]. intros j inf Hj Hdj. destruct (D2 _ _ Hj Hdj) as [Hc Hnl].
    split; [done|]. intros [->|?]%elem_of_cons; [simpl in Hc; congruence|done].
Qed.

(** After [flush] the file holds every page of the view. *)
Lemma flush_spec s :
  cached_ok s ->
  exists s', Cached.flush s = (Ok tt, s') /\ cached_ok s' /\ cached_view s' = cached_view s /\
    map_seq 1 (Cached.file_ s') = cached_view s.
Proof.
  intros Hok. destruct (flush_loop_spec (map_to_list (Cached.cache_ s)) s Hok) as (s' & E & Hok' & V' & N & D).
  { apply NoDup_fst_map_to_list. }
  { intros i info. apply elem_of_map_to_list. }
  exists s'. split_and!; [done..|]. rewrite <- V'. apply map_eq. intros i.
  rewrite cached_view_lookup, lookup_map_seq. destruct (Cached.cache_ s' !! i) as [info|] eqn:Hi.
  - destruct (ok_cache _ Hok' _ _ Hi) as [_ Hr]. rewrite option_guard_True by lia.
    apply (ok_clean _ Hok'); [done|]. destruct (Cached.dirty_ info) eqn:Hd; [|done].
    destruct (D _ _ Hi Hd) as [Hc Hnl]. exfalso. apply Hnl, list_elem_of_fmap.
    exists (i, info). split; [done|]. by apply elem_of_map_to_list.
  - case_decide; [by rewrite option_guard_True by lia|by rewrite option_guard_False by lia].
Qed.
End Store.
