(* ===== verification/BTreeInv.v ===== *)
(** * The B+tree: representation invariant

    When a map of pages represents a tree: separators bound the keys below
    them, pages are not shared, no page is full, the leaves are sorted and
    linked in order.  The tree is described through the list of its leaves; a
    path from the root is described by [ctx], the tree with one subtree
    removed. *)
From S2P Require Import Prelude Algorithms BTree.
#[local] Open Scope nat_scope.
#[local] Set Warnings "-clear-no-such-hyp".

Section Inv.
Context {K V : Type} `{KeyOrder K}.
Variables maxLeafEntries_ maxNodeEntries_ : nat.

(** The leaves of a subtree, in order, with their entries. *)
Abbreviation leaves := (list (nat * list (K * V))).
Abbreviation pages_t := (gmap nat (page K V)).

Implicit Types (v : pages_t) (p q : page K V) (lv : leaves) (F R : gset nat).

Definition contents lv : list (K * V) := lv ≫= snd.

(** Keys [k] with [lo <= k < hi], an absent bound being infinite. *)
Definition lo_le (lo : option K) (k : K) : Prop :=
  match lo with None => True | Some l => ~ klt k l end.
Definition lo_lt (lo : option K) (k : K) : Prop :=
  match lo with None => True | Some l => klt l k end.
Definition lt_hi (k : K) (hi : option K) : Prop :=
  match hi with None => True | Some h => klt k h end.
Definition in_bounds lo hi k : Prop := lo_le lo k /\ lt_hi k hi.

Definition capacity p : nat := if node_ p then maxNodeEntries_ else maxLeafEntries_.

(** The children [c, es] of a node, each satisfying [P] between its
    separators, on disjoint sets of pages. *)
Abbreviation tree_pred := (option K -> option K -> nat -> leaves -> gset nat -> Prop).

Fixpoint chain (P : tree_pred) lo hi c (es : list (K * nat)) lv F : Prop :=
  match es with
  | [] => P lo hi c lv F
  | (k, c') :: es' => exists lv1 lv2 F1 F2,
      P lo (Some k) c lv1 F1 /\ chain P (Some k) hi c' es' lv2 F2 /\
      lv = lv1 ++ lv2 /\ F = F1 ∪ F2 /\ (F1 ## F2) /\ lo_lt lo k /\ lt_hi k hi
  end.

(** Page [p] is the root of a subtree of height [h] with leaves [lv] on the
    set of pages [F]. *)
Fixpoint content v (h : nat) lo hi p lv F : Prop :=
  match h with
  | 0 => exists es, body p = LeafPage es /\ lv = [(id_ p, es)] /\ F = {[id_ p]} /\
           keysorted es /\ Forall (fun e => in_bounds lo hi e.1) es
  | S h' => exists es F', body p = NodePage es /\ es <> [] /\
           F = {[id_ p]} ∪ F' /\ (id_ p ∉ F') /\
           chain (fun lo hi c lv F => exists q, v !! c = Some q /\ id_ q = c /\
                    0 < count_ q < capacity q /\ content v h' lo hi q lv F)
                 lo hi (left_ p) es lv F'
  end.

(** A subtree below the root: its page is neither empty nor full. *)
Definition subtree v h : tree_pred := fun lo hi c lv F =>
  exists q, v !! c = Some q /\ id_ q = c /\ 0 < count_ q < capacity q /\ content v h lo hi q lv F.

Definition is_root v h lv F : Prop :=
  exists p, v !! 1 = Some p /\ id_ p = 1 /\ count_ p < capacity p /\ content v h None None p lv F.

Definition first_id lv : nat := match lv with [] => 0 | (j, _) :: _ => j end.

(** Neighbouring leaves are linked both ways; 0 ends the list. *)
Fixpoint linked_from v (prev : nat) lv : Prop :=
  match lv with
  | [] => True
  | (i, es) :: lv' =>
      (exists p, v !! i = Some p /\ body p = LeafPage es /\
                 left_ p = prev /\ right_ p = first_id lv') /\
      linked_from v i lv'
  end.

Definition linked v lv : Prop := linked_from v 0 lv /\ NoDup lv.*1.

(** ** Stability: the invariant does not see the links of leaves *)

Definition same_shape p q : Prop :=
  id_ p = id_ q /\ body p = body q /\ (node_ p = true -> left_ p = left_ q).

#[export] Instance same_shape_preorder : PreOrder same_shape.
Proof.
  split.
  - by intros p.
  - intros p q r (I1 & B1 & L1) (I2 & B2 & L2). split_and!; [congruence..|].
    intros Hn. rewrite L1 by done. apply L2. unfold node_ in *. by rewrite <- B1.
Qed.

Definition agree v v' F : Prop :=
  forall i p, i ∈ F -> v !! i = Some p -> exists q, v' !! i = Some q /\ same_shape p q.

Lemma agree_refl v F : agree v v F.
Proof. intros i p _ Hp. by exists p. Qed.

Lemma agree_trans v1 v2 v3 F : agree v1 v2 F -> agree v2 v3 F -> agree v1 v3 F.
Proof.
  intros H12 H23 i p Hi Hp. destruct (H12 i p Hi Hp) as (q & Hq & Hs).
  destruct (H23 i q Hi Hq) as (r & Hr & Hs'). exists r. split; [done|by trans q].
Qed.

Lemma agree_weaken v v' F F' : F' ⊆ F -> agree v v' F -> agree v v' F'.
Proof. intros Hsub Ha i p Hi. apply Ha. set_solver. Qed.

(** Writing a page outside the set, or a page of the same shape. *)
Lemma agree_insert v i p F : i ∉ F -> agree v (<[i := p]> v) F.
Proof. intros Hi j q Hj Hq. exists q. rewrite lookup_insert_ne by set_solver. by split. Qed.

Lemma agree_insert_same v p q F :
  v !! id_ p = Some q -> same_shape q p -> agree v (<[id_ p := p]> v) F.
Proof.
  intros Hq Hs j r Hj Hr. destruct (decide (id_ p = j)) as [<-|Hne].
  - rewrite lookup_insert_eq. exists p. simplify_eq. done.
  - exists r. by rewrite lookup_insert_ne.
Qed.

Lemma chain_impl (P Q : tree_pred) lo hi c es lv F :
  chain P lo hi c es lv F ->
  (forall lo hi c lv F', F' ⊆ F -> P lo hi c lv F' -> Q lo hi c lv F') ->
  chain Q lo hi c es lv F.
Proof.
  revert lo c lv F. induction es as [|[k c'] es IH]; simpl; intros lo c lv F Hc HPQ; [by apply HPQ|].
  destruct Hc as (lv1 & lv2 & F1 & F2 & HP & Hc & -> & -> & Hd & Hlo & Hhi).
  exists lv1, lv2, F1, F2. split_and!; try done; [apply HPQ; [set_solver|done]|].
  apply IH; [done|]. intros. apply HPQ; [set_solver|done].
Qed.

Lemma content_id v h lo hi p lv F : content v h lo hi p lv F -> id_ p ∈ F.
Proof. destruct h; simpl; [intros (? & _ & _ & -> & _)|intros (? & ? & _ & _ & -> & _)]; set_solver. Qed.

Lemma same_shape_count p q : same_shape p q -> count_ q = count_ p /\ capacity q = capacity p.
Proof. intros (_ & Hb & _). unfold count_, capacity, node_. by rewrite Hb. Qed.

Lemma content_agree h : forall v v' lo hi p p' lv F,
  content v h lo hi p lv F -> agree v v' F -> same_shape p p' -> content v' h lo hi p' lv F.
Proof.
  induction h as [|h IH]; intros v v' lo hi p p' lv F; simpl.
  - intros (es & Hb & -> & -> & Hs) _ (Hi & Hb' & _). exists es. rewrite <- Hi, <- Hb'. done.
  - intros (es & F' & Hb & Hne & -> & Hid & Hc) Ha (Hi & Hb' & Hl). exists es, F'.
    rewrite <- Hi, <- Hb'. split_and!; [done..|].
    rewrite <- Hl by (unfold node_; by rewrite Hb).
    eapply chain_impl; [exact Hc|]. intros lo' hi' c lv' F'' Hsub (q & Hq & Hqi & Hcnt & Hcon).
    destruct (Ha c q) as (q' & Hq' & Hs); [|done|].
    { apply content_id in Hcon. set_solver. }
    exists q'. pose proof (same_shape_count _ _ Hs) as [Ec Ek]. rewrite Ec, Ek.
    split_and!; [done|destruct Hs; congruence|by destruct Hcnt..|].
    eapply IH; [exact Hcon| |exact Hs]. eapply agree_weaken; [|exact Ha]. set_solver.
Qed.

Lemma subtree_agree v v' h lo hi c lv F :
  agree v v' F -> subtree v h lo hi c lv F -> subtree v' h lo hi c lv F.
Proof.
  intros Ha (q & Hq & Hi & Hcnt & Hcon).
  destruct (Ha c q) as (q' & Hq' & Hs); [apply content_id in Hcon; set_solver|done|].
  exists q'. pose proof (same_shape_count _ _ Hs) as [Ec Ek]. rewrite Ec, Ek.
  split_and!; [done|destruct Hs; congruence|by destruct Hcnt..|by eapply content_agree].
Qed.

(** ** Choosing a child *)

Fixpoint pick (key : K) (c : nat) (es : list (K * nat)) : nat :=
  match es with
  | [] => c
  | (k, c') :: es' => if decide (klt key k) then c else pick key c' es'
  end.

Lemma pick_above key c es : Forall (fun e => klt key e.1) es -> pick key c es = c.
Proof. destruct es as [|[k c'] es]; [done|]. intros [Hk _]%Forall_cons. simpl in *. by rewrite decide_True. Qed.

Lemma pick_skip key c es1 es2 :
  Forall (fun e => ~ klt key e.1) es1 ->
  pick key c (es1 ++ es2) = pick key (from_option snd c (last es1)) es2.
Proof.
  revert c. induction es1 as [|[k c'] es1 IH]; intros c; [done|].
  intros [Hk Hes]%Forall_cons. simpl in *. rewrite decide_False by done. rewrite IH by done.
  rewrite last_cons. by destruct (last es1).
Qed.

Lemma klt_asym (x y : K) : klt x y -> ~ klt y x.
Proof. intros Hxy Hyx. by apply (klt_irrefl x); trans y. Qed.

(** The binary search of [next] picks the child between its separators. *)
Lemma next_pick key p es :
  body p = NodePage es -> es <> [] -> keysorted es -> next key p = Ok (pick key (left_ p) es).
Proof.
  intros Hb Hne Hs. unfold next. rewrite Hb. destruct es as [|[k0 c0] es0]; [done|]. clear Hne Hb.
  set (es := (k0, c0) :: es0) in *.
  destruct (lower_bound_cases key es Hs) as (l1 & l2 & Hes & Hlb & H1 & H2). rewrite Hlb.
  assert (H1' : Forall (fun e => ~ klt key e.1) l1).
  { eapply Forall_impl; [exact H1|]. intros e He. by apply klt_asym. }
  case_decide as Hk0.
  { f_equal. rewrite pick_above; [done|]. apply keysorted_cons in Hs as [_ Hf].
    constructor; [done|]. eapply Forall_impl; [exact Hf|]. intros e He. by trans k0. }
  rewrite Hes.
  destruct H2 as [(x & l3 & -> & H3)|H2].
  - rewrite (list_lookup_middle l1 l3 (key, x) (length l1)) by done.
    rewrite decide_False by apply klt_irrefl. rewrite list_lookup_middle by done.
    rewrite pick_skip by done. simpl. rewrite decide_False by apply klt_irrefl. by rewrite pick_above.
  - destruct l1 as [|e1 l1 _] using rev_ind.
    { exfalso. simpl in Hes. rewrite <- Hes in H2. by apply Forall_cons in H2 as [? _]. }
    assert (He : (match (((l1 ++ [e1]) ++ l2) !! length (l1 ++ [e1])) with
                  | None => length (l1 ++ [e1]) - 1
                  | Some (k, _) => if decide (klt key k) then length (l1 ++ [e1]) - 1
                                   else length (l1 ++ [e1]) end) = length l1).
    { rewrite lookup_app_r, Nat.sub_diag by lia. rewrite length_app. simpl.
      destruct l2 as [|[k x] l2]; simpl; [lia|]. apply Forall_cons in H2 as [Hk _].
      rewrite decide_True by done. lia. }
    rewrite He. destruct e1 as [k1 c1].
    rewrite <- app_assoc. cbn [app]. rewrite list_lookup_middle by done.
    change ((k1, c1) :: l2) with ([(k1, c1)] ++ l2). rewrite app_assoc, pick_skip by done. rewrite last_snoc. simpl.
    by rewrite pick_above.
Qed.

Lemma chain_bounds (P : tree_pred) lo hi c es lv F :
  chain P lo hi c es lv F -> keysorted es /\ Forall (fun e => lo_lt lo e.1 /\ lt_hi e.1 hi) es.
Proof.
  revert lo c lv F. induction es as [|[k c'] es IH]; simpl; intros lo c lv F Hc.
  { split; constructor. }
  destruct Hc as (lv1 & lv2 & F1 & F2 & HP & Hc & _ & _ & _ & Hlo & Hhi).
  apply IH in Hc as [Hs Hf]. split.
  - apply keysorted_cons. split; [done|]. eapply Forall_impl; [exact Hf|]. by intros e [? _].
  - constructor; [done|]. eapply Forall_impl; [exact Hf|]. simpl. intros e [Hl ?]. split; [|done].
    destruct lo; simpl in *; [by trans k|done].
Qed.

(** ** A chain with one child removed *)

(** Child [cH], between [loH] and [hiH], is missing; [lvL] and [lvR] are the
    leaves on its two sides and [F] the pages of its siblings. *)
Fixpoint hole (P : tree_pred) lo hi c (es : list (K * nat)) loH hiH cH (lvL lvR : leaves) F : Prop :=
  match es with
  | [] => cH = c /\ loH = lo /\ hiH = hi /\ lvL = [] /\ lvR = [] /\ F = ∅
  | (k, c') :: es' =>
      lo_lt lo k /\ lt_hi k hi /\
      ((cH = c /\ loH = lo /\ hiH = Some k /\ lvL = [] /\ chain P (Some k) hi c' es' lvR F) \/
       (exists lv1 F1 F2 lvL',
          P lo (Some k) c lv1 F1 /\ hole P (Some k) hi c' es' loH hiH cH lvL' lvR F2 /\
          lvL = lv1 ++ lvL' /\ F = F1 ∪ F2 /\ (F1 ## F2)))
  end.

Lemma hole_impl (P Q : tree_pred) lo hi c es loH hiH cH lvL lvR F :
  hole P lo hi c es loH hiH cH lvL lvR F ->
  (forall lo hi c lv F', F' ⊆ F -> P lo hi c lv F' -> Q lo hi c lv F') ->
  hole Q lo hi c es loH hiH cH lvL lvR F.
Proof.
  revert lo c lvL F. induction es as [|[k c'] es IH]; simpl; intros lo c lvL F Hh HPQ; [done|].
  destruct Hh as (Hlo & Hhi & [(-> & -> & -> & -> & Hc)|(lv1 & F1 & F2 & lvL' & HP & Hh & -> & -> & Hd)]);
    split_and!; try done.
  - left. split_and!; try done. by eapply chain_impl.
  - right. exists lv1, F1, F2, lvL'. split_and!; try done; [apply HPQ; [set_solver|done]|].
    apply IH; [done|]. intros. apply HPQ; [set_solver|done].
Qed.

(** Opening a chain at the child that [pick] chooses. *)
Lemma chain_open (P : tree_pred) key lo hi c es lv F :
  chain P lo hi c es lv F -> in_bounds lo hi key ->
  exists loH hiH lvL lvH lvR FH FR,
    hole P lo hi c es loH hiH (pick key c es) lvL lvR FR /\
    P loH hiH (pick key c es) lvH FH /\
    lv = lvL ++ lvH ++ lvR /\ F = FH ∪ FR /\ FH ## FR /\ in_bounds loH hiH key.
Proof.
  revert lo c lv F. induction es as [|[k c'] es IH]; simpl; intros lo c lv F Hc [Hl Hh].
  { exists lo, hi, [], lv, [], F, ∅. rewrite app_nil_r. split_and!; try done; set_solver. }
  destruct Hc as (lv1 & lv2 & F1 & F2 & HP & Hc & -> & -> & Hd & Hlo & Hhi).
  case_decide as Hk.
  - exists lo, (Some k), [], lv1, lv2, F1, F2. split_and!; try done. left. done.
  - destruct (IH (Some k) c' lv2 F2 Hc) as (loH & hiH & lvL & lvH & lvR & FH & FR & Hh' & HP' & -> & -> & Hd' & Hb).
    { by split. }
    exists loH, hiH, (lv1 ++ lvL), lvH, lvR, FH, (F1 ∪ FR).
    split_and!; try done; [|by rewrite <- !app_assoc|set_solver..].
    right. exists lv1, F1, FR, lvL. split_and!; try done. set_solver.
Qed.

Lemma hole_fill (P : tree_pred) lo hi c es loH hiH cH lvL lvR FR lvH FH :
  hole P lo hi c es loH hiH cH lvL lvR FR -> P loH hiH cH lvH FH -> FH ## FR ->
  chain P lo hi c es (lvL ++ lvH ++ lvR) (FH ∪ FR).
Proof.
  revert lo c lvL FR. induction es as [|[k c'] es IH]; simpl; intros lo c lvL FR Hh HP Hd.
  { destruct Hh as (-> & -> & -> & -> & -> & ->). rewrite app_nil_r. by rewrite union_empty_r_L. }
  destruct Hh as (Hlo & Hhi & [(-> & -> & -> & -> & Hc)|(lv1 & F1 & F2 & lvL' & HP1 & Hh & -> & -> & Hd1)]).
  - by exists lvH, lvR, FH, FR.
  - exists lv1, (lvL' ++ lvH ++ lvR), F1, (FH ∪ F2).
    split_and!; try done; [apply IH; [done..|set_solver]|by rewrite <- !app_assoc|set_solver..].
Qed.

(** The lower bound of the hole is above that of the chain. *)
Lemma hole_lo (P : tree_pred) l hi c es loH hiH cH lvL lvR F k :
  hole P (Some l) hi c es loH hiH cH lvL lvR F -> lo_lt loH k -> klt l k.
Proof.
  revert l c lvL F. induction es as [|[k' c'] es IH]; simpl; intros l c lvL F Hh Hk.
  { by destruct Hh as (_ & -> & _). }
  destruct Hh as (Hlo & _ & [(_ & -> & _)|(lv1 & F1 & F2 & lvL' & _ & Hh & _)]); [done|].
  trans k'; [done|]. by eapply IH.
Qed.

(** Insertion of a separator in order. *)
Fixpoint insert_sep (k : K) (n : nat) (es : list (K * nat)) : list (K * nat) :=
  match es with
  | [] => [(k, n)]
  | (k', c') :: es' => if decide (klt k k') then (k, n) :: es else (k', c') :: insert_sep k n es'
  end.

(** The hole takes the two halves of a split child. *)
Lemma hole_split (P : tree_pred) lo hi c es loH hiH cH lvL lvR FR k n lv1 lv2 F1 F2 :
  hole P lo hi c es loH hiH cH lvL lvR FR ->
  lo_lt loH k -> lt_hi k hiH ->
  P loH (Some k) cH lv1 F1 -> P (Some k) hiH n lv2 F2 -> F1 ## F2 -> F1 ∪ F2 ## FR ->
  chain P lo hi c (insert_sep k n es) (lvL ++ (lv1 ++ lv2) ++ lvR) (F1 ∪ F2 ∪ FR).
Proof.
  revert lo c lvL FR. induction es as [|[k' c'] es IH]; simpl; intros lo c lvL FR Hh Hl Hu HP1 HP2 Hd12 Hd.
  { destruct Hh as (-> & -> & -> & -> & -> & ->). rewrite app_nil_r, union_empty_r_L.
    by exists lv1, lv2, F1, F2. }
  destruct Hh as (Hlo & Hhi & [(-> & -> & -> & -> & Hc)|(lv0 & F0 & F3 & lvL' & HP0 & Hh & -> & -> & Hd0)]).
  - simpl in Hu. rewrite decide_True by done. simpl.
    exists lv1, (lv2 ++ lvR), F1, (F2 ∪ FR). split_and!; try done.
    + exists lv2, lvR, F2, FR. split_and!; try done. set_solver.
    + by rewrite <- app_assoc.
    + set_solver.
    + set_solver.
    + destruct hi; simpl in *; [by trans k'|done].
  - rewrite decide_False by (apply klt_asym; by eapply hole_lo).
    exists lv0, (lvL' ++ (lv1 ++ lv2) ++ lvR), F0, (F1 ∪ F2 ∪ F3).
    split_and!; try done; [|by rewrite <- !app_assoc|set_solver..].
    apply IH; try done. set_solver.
Qed.

Lemma insert_sep_length k n es : length (insert_sep k n es) = S (length es).
Proof. induction es as [|[k' c'] es IH]; simpl; [done|]. case_decide; simpl; by rewrite ?IH. Qed.

Lemma hole_sorted (P : tree_pred) lo hi c es loH hiH cH lvL lvR F :
  hole P lo hi c es loH hiH cH lvL lvR F -> keysorted es.
Proof.
  intros Hh. apply (hole_impl _ (fun _ _ _ _ _ => True)) in Hh; [|done].
  eapply (hole_fill _ _ _ _ _ _ _ _ _ _ _ [] ∅) in Hh; [|done|set_solver].
  by eapply chain_bounds.
Qed.

(** A separator that fits in the hole is not there yet. *)
Lemma hole_fresh (P : tree_pred) lo hi c es loH hiH cH lvL lvR F k x :
  hole P lo hi c es loH hiH cH lvL lvR F -> lo_lt loH k -> lt_hi k hiH -> (k, x) ∉ es.
Proof.
  revert lo c lvL F. induction es as [|[k' c'] es IH]; intros lo c lvL F Hh Hl Hu; [set_solver|].
  simpl in Hh. intros [Heq|Hin]%elem_of_cons.
  - simplify_eq. destruct Hh as (_ & _ & [(_ & _ & -> & _)|(lv1 & F1 & F2 & lvL' & _ & Hh & _)]).
    + by apply klt_irrefl in Hu.
    + apply (hole_lo _ _ _ _ _ _ _ _ _ _ _ k') in Hh; [|done]. by apply klt_irrefl in Hh.
  - destruct Hh as (_ & _ & [(_ & _ & -> & _ & Hc)|(lv1 & F1 & F2 & lvL' & _ & Hh & _)]).
    + apply chain_bounds in Hc as [_ Hf]. rewrite Forall_forall in Hf.
      apply Hf in Hin as [Hk _]. simpl in *. apply (klt_irrefl k). by trans k'.
    + by eapply IH.
Qed.

(** Cutting a chain at a separator. *)
Lemma chain_cut (P : tree_pred) lo hi c es1 k c' es2 lv F :
  chain P lo hi c (es1 ++ (k, c') :: es2) lv F ->
  exists lv1 lv2 F1 F2, chain P lo (Some k) c es1 lv1 F1 /\ chain P (Some k) hi c' es2 lv2 F2 /\
    lv = lv1 ++ lv2 /\ F = F1 ∪ F2 /\ (F1 ## F2) /\ lo_lt lo k /\ lt_hi k hi.
Proof.
  revert lo c lv F. induction es1 as [|[k0 c0] es1 IH]; simpl; intros lo c lv F.
  { intros (lv1 & lv2 & F1 & F2 & H1 & H2 & -> & -> & Hd & Hlo & Hhi). by exists lv1, lv2, F1, F2. }
  intros (lv1 & lv2 & F1 & F2 & H1 & H2 & -> & -> & Hd & Hlo & Hhi).
  apply IH in H2 as (lv3 & lv4 & F3 & F4 & H3 & H4 & -> & -> & Hd' & Hlo' & Hhi').
  exists (lv1 ++ lv3), lv4, (F1 ∪ F3), F4. split_and!; try done.
  - exists lv1, lv3, F1, F3. split_and!; try done. set_solver.
  - by rewrite <- app_assoc.
  - set_solver.
  - set_solver.
  - destruct lo; simpl in *; [by trans k0|done].
Qed.

(** The binary search finds the place of a new separator. *)
Lemma insert_sep_lower_bound k n es :
  keysorted es -> (forall c, (k, c) ∉ es) ->
  let e := lower_bound (key_below k) es in
  take e es ++ (k, n) :: drop e es = insert_sep k n es /\ holds_at k e es = false.
Proof.
  intros Hs Hnot. destruct (lower_bound_cases k es Hs) as (l1 & l2 & Hes & Hlb & H1 & H2).
  simpl. rewrite Hlb. destruct H2 as [(x & l3 & -> & _)|H2].
  { exfalso. apply (Hnot x). rewrite Hes. set_solver. }
  split.
  - rewrite Hes, take_app_length, drop_app_length. clear -H1 H2.
    induction l1 as [|[k' c'] l1 IH]; simpl.
    + destruct l2 as [|[k' c'] l2]; [done|]. apply Forall_cons in H2 as [Hk _].
      simpl in *. by rewrite decide_True.
    + apply Forall_cons in H1 as [Hk H1]. simpl in *.
      rewrite decide_False by by apply klt_asym. by rewrite IH.
  - unfold holds_at. rewrite Hes, lookup_app_r, Nat.sub_diag by lia.
    destruct l2 as [|[k' c'] l2]; [done|]. apply Forall_cons in H2 as [Hk _]. simpl in *.
    apply bool_decide_eq_false. intros ->. by apply klt_irrefl in Hk.
Qed.

(** ** The path from a subtree to the root *)

(** [path] lists the ancestors of page [c] (height [h]), innermost first;
    [R] are the pages of the tree outside the subtree of [c]. *)
Fixpoint ctx v (h : nat) lo hi c (path : list nat) (lvL lvR : leaves) R : Prop :=
  match path with
  | [] => c = 1 /\ lo = None /\ hi = None /\ lvL = [] /\ lvR = [] /\ R = ∅
  | i :: path' => exists q es loP hiP l1 l2 FR lvL' lvR' R',
      v !! i = Some q /\ id_ q = i /\ body q = NodePage es /\ 0 < length es < maxNodeEntries_ /\
      hole (subtree v h) loP hiP (left_ q) es lo hi c l1 l2 FR /\
      ctx v (S h) loP hiP i path' lvL' lvR' R' /\
      lvL = lvL' ++ l1 /\ lvR = l2 ++ lvR' /\
      R = {[i]} ∪ FR ∪ R' /\ (i ∉ FR ∪ R') /\ (FR ## R')
  end.

Lemma ctx_agree v v' path : forall h lo hi c lvL lvR R,
  ctx v h lo hi c path lvL lvR R -> agree v v' R -> ctx v' h lo hi c path lvL lvR R.
Proof.
  induction path as [|i path IH]; simpl; [done|]. intros h lo hi c lvL lvR R.
  intros (q & es & loP & hiP & l1 & l2 & FR & lvL' & lvR' & R' & Hq & Hi & Hb & Hlen & Hh & Hc & -> & -> & -> & Hni & Hd) Ha.
  destruct (Ha i q) as (q' & Hq' & Hs); [set_solver|done|].
  exists q', es, loP, hiP, l1, l2, FR, lvL', lvR', R'. destruct Hs as (Hs1 & Hs2 & Hs3).
  rewrite <- Hs1, <- Hs2. rewrite <- Hs3 by (unfold node_; by rewrite Hb).
  split_and!; try done; [by destruct Hlen..| |].
  - eapply hole_impl; [exact Hh|]. intros. eapply subtree_agree; [|done].
    eapply agree_weaken; [|exact Ha]. set_solver.
  - apply IH; [done|]. eapply agree_weaken; [|exact Ha]. set_solver.
Qed.

Lemma ctx_root v path : forall h lo hi c lvL lvR R,
  ctx v h lo hi c path lvL lvR R -> (path = [] /\ c = 1) \/ (path <> [] /\ 1 ∈ R).
Proof.
  induction path as [|i path IH]; simpl; intros h lo hi c lvL lvR R; [intros (-> & _); by left|].
  intros (q & es & loP & hiP & l1 & l2 & FR & lvL' & lvR' & R' & _ & _ & _ & _ & _ & Hc & _ & _ & -> & _).
  right. split; [done|]. apply IH in Hc as [[_ ->]|[_ Hc]]; set_solver.
Qed.

(** Putting a subtree back in its place. *)
Lemma ctx_plug v path : forall h lo hi p lvL lvR R lv F,
  ctx v h lo hi (id_ p) path lvL lvR R ->
  v !! id_ p = Some p -> count_ p < capacity p -> (path <> [] -> 0 < count_ p) ->
  content v h lo hi p lv F -> F ## R ->
  exists h', is_root v h' (lvL ++ lv ++ lvR) (F ∪ R).
Proof.
  induction path as [|i path IH]; simpl; intros h lo hi p lvL lvR R lv F Hc Hp Hcap Hpos Hcon Hd.
  - destruct Hc as (Hid & -> & -> & -> & -> & ->). exists h. exists p.
    rewrite app_nil_r, union_empty_r_L. rewrite Hid in Hp. done.
  - destruct Hc as (q & es & loP & hiP & l1 & l2 & FR & lvL' & lvR' & R' & Hq & Hi & Hb & Hlen & Hh & Hc & -> & -> & -> & Hni & Hd').
    subst i. destruct (IH (S h) loP hiP q lvL' lvR' R' (l1 ++ lv ++ l2) ({[id_ q]} ∪ (F ∪ FR)))
      as [h' Hr]; [done|done| | | | |].
    + unfold count_, capacity, node_. rewrite Hb. lia.
    + unfold count_. rewrite Hb. lia.
    + exists es, (F ∪ FR). split_and!; try done; [by intros ->; simpl in Hlen; lia|set_solver|].
      eapply hole_fill; [exact Hh| |set_solver].
      exists p. split_and!; try done. by apply Hpos.
    + set_solver.
    + exists h'. by replace ((lvL' ++ l1) ++ lv ++ l2 ++ lvR') with (lvL' ++ (l1 ++ lv ++ l2) ++ lvR')
        by (rewrite <- !app_assoc; done);
      replace (F ∪ ({[id_ q]} ∪ FR ∪ R')) with ({[id_ q]} ∪ (F ∪ FR) ∪ R') by set_solver.
Qed.

(** ** The linked list of leaves *)

Lemma linked_from_agree v v' lv : forall prev,
  (forall i p, i ∈ lv.*1 -> v !! i = Some p -> v' !! i = Some p) ->
  linked_from v prev lv -> linked_from v' prev lv.
Proof.
  induction lv as [|[i es] lv IH]; simpl; intros prev Hv; [done|].
  intros [(p & Hp & Hl) Hr]. split.
  - exists p. split; [|done]. apply Hv; [set_solver|done].
  - apply IH; [|done]. intros j q Hj. apply Hv. set_solver.
Qed.

Lemma linked_from_app v prev lv1 i es lv2 :
  linked_from v prev (lv1 ++ (i, es) :: lv2) ->
  exists p, v !! i = Some p /\ body p = LeafPage es /\
    right_ p = first_id lv2 /\ linked_from v i lv2.
Proof.
  revert prev. induction lv1 as [|[j es'] lv1 IH]; intros prev; cbn [app linked_from].
  - intros [(p & Hp & Hb & Hl & Hr) Hf]. by exists p.
  - intros [_ Hf]. by apply (IH j).
Qed.

Lemma linked_from_dom v prev lv i : linked_from v prev lv -> i ∈ lv.*1 -> is_Some (v !! i).
Proof.
  revert prev. induction lv as [|[j es] lv IH]; simpl; intros prev; [set_solver|].
  intros [(p & Hp & _) Hf] [->|Hi]%elem_of_cons; [by eexists|by eapply IH].
Qed.

(** The list of leaves does not see node pages. *)
Lemma linked_nodes v v' lv :
  (forall i p, v !! i = Some p -> node_ p = false -> v' !! i = Some p) ->
  linked v lv -> linked v' lv.
Proof.
  intros Hv [Hl Hnd]. split; [|done]. clear Hnd. revert Hl. generalize 0.
  induction lv as [|[i es] lv IH]; simpl; intros prev; [done|].
  intros [(p & Hp & Hb & Hr) Hf]. split; [|by apply IH].
  exists p. split; [|done]. apply Hv; [done|]. unfold node_. by rewrite Hb.
Qed.

(** New contents for leaf [i]. *)
Lemma linked_from_update v i es es' p lv1 lv2 : forall prev,
  linked_from v prev (lv1 ++ (i, es) :: lv2) -> NoDup (lv1 ++ (i, es) :: lv2).*1 ->
  v !! i = Some p ->
  linked_from (<[i := mkPage (id_ p) (left_ p) (right_ p) (LeafPage es')]> v) prev (lv1 ++ (i, es') :: lv2).
Proof.
  induction lv1 as [|[j es0] lv1 IH]; intros prev Hl Hnd Hp.
  - simpl in *. destruct Hl as [(p0 & Hp0 & Hb & Hl0 & Hr0) Hf]. simplify_eq. apply NoDup_cons in Hnd as [Hi _].
    split; [eexists; split; [apply lookup_insert_eq|done]|].
    eapply linked_from_agree; [|exact Hf]. intros j q Hj Hq. rewrite lookup_insert_ne; [done|]. set_solver.
  - simpl in *. destruct Hl as [(q & Hq & Hb & Hlq & Hrq) Hf]. apply NoDup_cons in Hnd as [Hj Hnd]. split.
    + exists q. rewrite lookup_insert_ne by (intros ->; apply Hj; rewrite fmap_app; set_solver).
      split_and!; [done..|]. rewrite Hrq. by destruct lv1 as [|[]].
    + by apply IH.
Qed.

(** Leaf [i] is split in two, a new leaf [n] following it; its old neighbour
    is relinked. *)
Lemma linked_from_split v v' i n es es1 es2 lv2 p pi pn lv1 : forall prev,
  linked_from v prev (lv1 ++ (i, es) :: lv2) ->
  v !! i = Some p ->
  v' !! i = Some pi -> body pi = LeafPage es1 -> left_ pi = left_ p -> right_ pi = n ->
  v' !! n = Some pn -> body pn = LeafPage es2 -> left_ pn = i -> right_ pn = right_ p ->
  (forall r q, head lv2.*1 = Some r -> v !! r = Some q ->
     exists q', v' !! r = Some q' /\ body q' = body q /\ left_ q' = n /\ right_ q' = right_ q) ->
  (forall j q, j ∈ lv1.*1 ++ tail lv2.*1 -> v !! j = Some q -> v' !! j = Some q) ->
  linked_from v' prev (lv1 ++ (i, es1) :: (n, es2) :: lv2).
Proof.
  induction lv1 as [|[j es0] lv1 IH]; intros prev Hl Hp Hpi HBi HLi HRi Hpn HBn HLn HRn Hr Hv.
  - simpl in *. destruct Hl as [(p0 & Hp0 & Hb0 & Hl0 & Hr0) Hf]. simplify_eq. split_and!.
    + exists pi. split_and!; [done..|congruence|done].
    + exists pn. split_and!; [done..|congruence].
    + destruct lv2 as [|[r es3] lv2]; [done|]. simpl in *. destruct Hf as [(q & Hq & Hbq & Hlq & Hrq) Hf].
      destruct (Hr r q) as (q' & Hq' & Hbq' & Hlq' & Hrq'); [done..|]. split.
      * exists q'. split_and!; [done|congruence|done|congruence].
      * eapply linked_from_agree; [|exact Hf]. intros j q0 Hj. by apply Hv.
  - simpl in *. destruct Hl as [(q & Hq & Hbq & Hlq & Hrq) Hf]. split.
    + exists q. split_and!; [apply Hv; [set_solver|done]|done..|]. rewrite Hrq. by destruct lv1 as [|[]].
    + apply IH; try done. intros j' q0 Hj. apply Hv. set_solver.
Qed.

Lemma chain_leaves (P : tree_pred) lo hi c es lv F :
  (forall lo hi c lv F, P lo hi c lv F -> forall i es, (i, es) ∈ lv -> i ∈ F) ->
  chain P lo hi c es lv F -> forall i es, (i, es) ∈ lv -> i ∈ F.
Proof.
  intros HP. revert lo c lv F. induction es as [|[k c'] es IH]; simpl; intros lo c lv F; [apply HP|].
  intros (lv1 & lv2 & F1 & F2 & H1 & H2 & -> & -> & _) i es' [Hi|Hi]%elem_of_app;
    [apply (HP _ _ _ _ _ H1) in Hi|apply (IH _ _ _ _ H2) in Hi]; set_solver.
Qed.

Lemma content_leaves v h : forall lo hi p lv F i es,
  content v h lo hi p lv F -> (i, es) ∈ lv -> i ∈ F.
Proof.
  induction h as [|h IH]; intros lo hi p lv F i es; simpl.
  - intros (es' & _ & -> & -> & _). set_solver.
  - intros (es' & F' & _ & _ & -> & _ & Hc) Hi.
    eapply chain_leaves in Hc; [set_solver| |exact Hi].
    intros lo' hi' c lv' F'' (q & _ & _ & _ & Hq) j es'' Hj. by eapply IH.
Qed.

(** ** Order of the contents *)

Lemma contents_app lv1 lv2 : contents (lv1 ++ lv2) = contents lv1 ++ contents lv2.
Proof. apply bind_app. Qed.

Definition within lo hi (l : list (K * V)) : Prop := Forall (fun e => in_bounds lo hi e.1) l.

(** Subtrees hold sorted keys within their bounds. *)
Definition ordered (P : tree_pred) : Prop := forall lo hi c lv F,
  P lo hi c lv F -> keysorted (contents lv) /\ within lo hi (contents lv).

Lemma lo_le_trans lo k x : lo_lt lo k -> lo_le (Some k) x -> lo_le lo x.
Proof.
  destruct lo as [l|]; [|done]. simpl. intros Hl Hk Hx. apply Hk. by trans l.
Qed.

Lemma lt_hi_trans x k hi : klt x k -> lt_hi k hi -> lt_hi x hi.
Proof. destruct hi; [|done]. simpl. intros. by trans k. Qed.

Lemma klt_lo_le x k y : klt x k -> lo_le (Some k) y -> klt x y.
Proof. simpl. intros Hx [->|Hy]%not_klt; [done|by trans k]. Qed.

Lemma chain_ordered (P : tree_pred) : ordered P -> forall lo hi c es lv F,
  chain P lo hi c es lv F -> keysorted (contents lv) /\ within lo hi (contents lv).
Proof.
  intros HP lo hi c es. revert lo c. induction es as [|[k c'] es IH]; simpl; intros lo c lv F; [apply HP|].
  intros (lv1 & lv2 & F1 & F2 & H1 & H2 & -> & -> & _ & Hlo & Hhi).
  apply HP in H1 as [S1 W1]. apply IH in H2 as [S2 W2]. rewrite contents_app.
  unfold within in *. rewrite Forall_forall in W1, W2. split.
  - apply keysorted_app. split_and!; [done..|]. intros a b Ha Hb.
    apply W1 in Ha as [_ Ha]. apply W2 in Hb as [Hb _]. by eapply klt_lo_le.
  - apply Forall_app. split; apply Forall_forall; intros e He.
    + apply W1 in He as [? ?]. split; [done|by eapply lt_hi_trans].
    + apply W2 in He as [? ?]. split; [by eapply lo_le_trans|done].
Qed.

Lemma content_ordered v h : forall lo hi p lv F,
  content v h lo hi p lv F -> keysorted (contents lv) /\ within lo hi (contents lv).
Proof.
  induction h as [|h IH]; intros lo hi p lv F; simpl.
  - intros (es & _ & -> & _ & Hs & Hb). unfold contents. simpl. by rewrite app_nil_r.
  - intros (es & F' & _ & _ & _ & _ & Hc). eapply chain_ordered; [|exact Hc].
    intros lo' hi' c lv' F'' (q & _ & _ & _ & Hq). by eapply IH.
Qed.

Lemma subtree_ordered v h : ordered (subtree v h).
Proof. intros lo hi c lv F (q & _ & _ & _ & Hq). by eapply content_ordered. Qed.

(** Entries strictly to the left of a lower bound, at or right of an upper
    bound. *)
Definition left_of (lo : option K) (l : list (K * V)) : Prop :=
  Forall (fun e => match lo with None => False | Some b => klt e.1 b end) l.
Definition right_of (hi : option K) (l : list (K * V)) : Prop :=
  Forall (fun e => match hi with None => False | Some b => ~ klt e.1 b end) l.

Lemma left_of_not lo l key x : left_of lo l -> lo_le lo key -> (key, x) ∉ l.
Proof.
  unfold left_of. rewrite Forall_forall. intros Hl Hk Hin. apply Hl in Hin. simpl in Hin.
  by destruct lo.
Qed.
Lemma right_of_not hi l key x : right_of hi l -> lt_hi key hi -> (key, x) ∉ l.
Proof.
  unfold right_of. rewrite Forall_forall. intros Hl Hk Hin. apply Hl in Hin. simpl in Hin.
  by destruct hi.
Qed.

(** Monotonicity of the bounds along a hole, and the sides of the hole. *)
Lemma hole_sides (P : tree_pred) : ordered P -> forall lo hi c es loH hiH cH lvL lvR F,
  hole P lo hi c es loH hiH cH lvL lvR F ->
  left_of loH (contents lvL) /\ right_of hiH (contents lvR) /\
  (forall k, left_of lo k -> left_of loH k) /\ (forall k, right_of hi k -> right_of hiH k).
Proof.
  intros HP lo hi c es. revert lo c. induction es as [|[k c'] es IH]; simpl; intros lo c loH hiH cH lvL lvR F.
  { intros (_ & -> & -> & -> & -> & _). split_and!; [constructor|constructor|done..]. }
  intros (Hlo & Hhi & [(-> & -> & -> & -> & Hc)|(lv1 & F1 & F2 & lvL' & HP1 & Hh & -> & _)]).
  - apply (chain_ordered P HP) in Hc as [_ W]. split_and!; [constructor| |done|].
    + eapply Forall_impl; [exact W|]. by intros e [? _].
    + intros l Hl. eapply Forall_impl; [exact Hl|]. intros e He. simpl in *.
      destruct hi as [u|]; [|done]. simpl in Hhi. intros Hek. apply He. by trans k.
  - apply HP in HP1 as [_ W1]. apply IH in Hh as (HL & HR & ML & MR). split_and!; [|done| |done].
    + rewrite contents_app. apply Forall_app. split; [|done]. apply ML.
      eapply Forall_impl; [exact W1|]. by intros e [_ ?].
    + intros l Hl. apply ML. eapply Forall_impl; [exact Hl|]. simpl. intros e He.
      destruct lo as [b|]; [|done]. simpl in Hlo. by trans b.
Qed.

Lemma ctx_sides v path : forall h lo hi c lvL lvR R,
  ctx v h lo hi c path lvL lvR R -> left_of lo (contents lvL) /\ right_of hi (contents lvR).
Proof.
  induction path as [|i path IH]; simpl; intros h lo hi c lvL lvR R.
  { intros (_ & -> & -> & -> & -> & _). split; constructor. }
  intros (q & es & loP & hiP & l1 & l2 & FR & lvL' & lvR' & R' & Hq & Hi & Hb & Hlen & Hh & Hc & -> & -> & _).
  apply IH in Hc as [HL HR]. apply (hole_sides _ (subtree_ordered v h)) in Hh as (HL' & HR' & ML & MR).
  rewrite !contents_app. split; apply Forall_app; split; try done; [by apply ML|by apply MR].
Qed.

(** ** Heights *)

Lemma chain_height (P : tree_pred) n lo hi c es lv F :
  (forall lo hi c lv F, P lo hi c lv F -> n < size F) -> chain P lo hi c es lv F -> n < size F.
Proof.
  intros HP. destruct es as [|[k c'] es]; simpl; [apply HP|].
  intros (lv1 & lv2 & F1 & F2 & H1 & _ & _ & -> & _). apply HP in H1.
  eapply Nat.lt_le_trans; [exact H1|]. apply subseteq_size. set_solver.
Qed.

Lemma content_height v h : forall lo hi p lv F, content v h lo hi p lv F -> h < size F.
Proof.
  induction h as [|h IH]; intros lo hi p lv F; simpl.
  - intros (es & _ & _ & -> & _). rewrite size_singleton. lia.
  - intros (es & F' & _ & _ & -> & Hni & Hc). rewrite size_union by set_solver.
    rewrite size_singleton. eapply chain_height in Hc; [apply le_n_S, Hc|].
    intros lo' hi' c lv' F'' (q & _ & _ & _ & Hq). by eapply IH.
Qed.

Lemma chain_dom (P : tree_pred) (D : gset nat) lo hi c es lv F :
  (forall lo hi c lv F, P lo hi c lv F -> F ⊆ D) -> chain P lo hi c es lv F -> F ⊆ D.
Proof.
  intros HP. revert lo c lv F. induction es as [|[k c'] es IH]; simpl; intros lo c lv F; [apply HP|].
  intros (lv1 & lv2 & F1 & F2 & H1 & H2 & _ & -> & _). apply HP in H1. apply IH in H2. set_solver.
Qed.

Lemma content_dom v h : forall lo hi p lv F,
  content v h lo hi p lv F -> v !! id_ p = Some p -> F ⊆ dom v.
Proof.
  induction h as [|h IH]; intros lo hi p lv F; simpl.
  - intros (es & _ & _ & -> & _) Hp. apply singleton_subseteq_l, elem_of_dom. by eexists.
  - intros (es & F' & _ & _ & -> & Hni & Hc) Hp. apply union_subseteq. split.
    + apply singleton_subseteq_l, elem_of_dom. by eexists.
    + eapply chain_dom; [|exact Hc]. intros lo' hi' c lv' F'' (q & Hq & <- & _ & Hcon). by eapply IH.
Qed.

Lemma subtree_dom v h lo hi c lv F : subtree v h lo hi c lv F -> F ⊆ dom v.
Proof. intros (q & Hq & <- & _ & Hcon). by eapply content_dom. Qed.

Lemma hole_dom (P : tree_pred) (D : gset nat) lo hi c es loH hiH cH lvL lvR F :
  (forall lo hi c lv F, P lo hi c lv F -> F ⊆ D) ->
  hole P lo hi c es loH hiH cH lvL lvR F -> F ⊆ D.
Proof.
  intros HP. revert lo c lvL F. induction es as [|[k c'] es IH]; simpl; intros lo c lvL F.
  { intros (_ & _ & _ & _ & _ & ->). set_solver. }
  intros (_ & _ & [(_ & _ & _ & _ & Hc)|(lv1 & F1 & F2 & lvL' & HP1 & Hh & _ & -> & _)]).
  - by eapply chain_dom.
  - apply HP in HP1. apply IH in Hh. set_solver.
Qed.

Lemma ctx_dom v path : forall h lo hi c lvL lvR R, ctx v h lo hi c path lvL lvR R -> R ⊆ dom v.
Proof.
  induction path as [|i path IH]; simpl; intros h lo hi c lvL lvR R.
  { intros (_ & _ & _ & _ & _ & ->). set_solver. }
  intros (q & es & loP & hiP & l1 & l2 & FR & lvL' & lvR' & R' & Hq & _ & _ & _ & Hh & Hc & _ & _ & -> & _).
  apply IH in Hc. eapply hole_dom in Hh; [|intros *; apply subtree_dom].
  apply elem_of_dom_2 in Hq. set_solver.
Qed.
End Inv.
