(* ===== verification/BTreeOps.v ===== *)
(** * The B+tree: the operations preserve the invariant

    Specifications of [search], [descend], [splitPage], [splitRoot], the split
    loop and [insert] against any page store that satisfies [PageStoreLaws]. *)
From S2P Require Import Prelude Algorithms BTree BTreeInv.
#[local] Open Scope nat_scope.
#[local] Set Warnings "-clear-no-such-hyp".

Lemma half_bounds n : 3 < n -> 1 < Nat.div2 n /\ Nat.div2 n + 1 < n.
Proof.
  intros Hn. pose proof (Nat.div2_odd n) as Ho. destruct (Nat.odd n); simpl in Ho; lia.
Qed.

Section Found.
Context {K V : Type} `{KeyOrder K}.

(** [r] is the value that [l] holds for [key]. *)
Definition found (key : K) (r : option V) (l : list (K * V)) : Prop :=
  match r with Some x => (key, x) ∈ l | None => forall x, (key, x) ∉ l end.

Lemma leaf_found key es :
  keysorted es ->
  found key (match es !! lower_bound (key_below key) es with
             | Some (k, v) => if decide (k = key) then Some v else None
             | None => None
             end) es.
Proof.
  intros Hs. destruct (lower_bound_cases key es Hs) as (l1 & l2 & -> & -> & HA & HB).
  assert (N1 : forall x, (key, x) ∉ l1).
  { intros x Hx. rewrite Forall_forall in HA. apply HA in Hx. by apply klt_irrefl in Hx. }
  destruct HB as [(x & l3 & -> & H3)|HB].
  - rewrite list_lookup_middle by done. rewrite decide_True by done. simpl. set_solver.
  - assert (N2 : forall x, (key, x) ∉ l2).
    { intros x Hx. rewrite Forall_forall in HB. apply HB in Hx. by apply klt_irrefl in Hx. }
    rewrite lookup_app_r, Nat.sub_diag by lia. destruct l2 as [|[k v] l2]; simpl; [set_solver|].
    rewrite decide_False; [simpl; set_solver|]. intros ->. apply (N2 v). set_solver.
Qed.

Lemma found_app key r l1 l l2 :
  (forall x, (key, x) ∉ l1) -> (forall x, (key, x) ∉ l2) -> found key r l -> found key r (l1 ++ l ++ l2).
Proof. destruct r; simpl; set_solver. Qed.

(** Cutting a sorted leaf in the middle. *)
Lemma leaf_cut lo hi (es : list (K * V)) m k x :
  keysorted es -> Forall (fun e => in_bounds lo hi e.1) es -> 0 < m -> es !! m = Some (k, x) ->
  keysorted (take m es) /\ keysorted (drop m es) /\
  Forall (fun e => in_bounds lo (Some k) e.1) (take m es) /\
  Forall (fun e => in_bounds (Some k) hi e.1) (drop m es) /\
  lo_lt lo k /\ lt_hi k hi.
Proof.
  intros Hs Hb Hm Hx. pose proof Hs as Hs'. rewrite <- (take_drop m es) in Hs'.
  apply keysorted_app in Hs' as (HA & HB & Hab).
  assert (Hd : drop m es = (k, x) :: drop (S m) es) by by apply drop_S.
  pose proof (Forall_lookup_1 _ _ _ _ Hb Hx) as [Hkl Hkh]. simpl in *.
  rewrite Forall_forall in Hb.
  assert (Htk : forall e, e ∈ take m es -> klt e.1 k).
  { intros e He. apply (Hab e (k, x)); [done|]. rewrite Hd. set_solver. }
  assert (Hin : forall e, e ∈ take m es -> e ∈ es).
  { intros e He. rewrite <- (take_drop m es). set_solver. }
  split_and!; [done|done| | | |done].
  - apply Forall_forall. intros e He. split; [by apply Hb, Hin|by apply Htk].
  - apply Forall_forall. intros e He. split.
    + rewrite Hd in He, HB. apply keysorted_cons in HB as [_ HB]. rewrite Forall_forall in HB.
      apply elem_of_cons in He as [->|He]; simpl; [apply klt_irrefl|]. apply klt_asym. by apply HB.
    + apply Hb. rewrite <- (take_drop m es). set_solver.
  - destruct (lookup_lt_is_Some_2 es 0) as [e0 He0]; [apply lookup_lt_Some in Hx; lia|].
    destruct lo as [l|]; [|done]. simpl.
    assert (He : e0 ∈ take m es) by (apply list_elem_of_lookup; exists 0; by rewrite lookup_take_lt).
    destruct (Hb e0 (Hin e0 He)) as [[<-|Hl]%not_klt _]; [by apply Htk|]. trans e0.1; [done|by apply Htk].
Qed.

(** [l'] is [l] with [key] bound to [value]; [b] when [key] was there. *)
Definition upsert key value (b : bool) (l l' : list (K * V)) : Prop :=
  if b then exists l1 x l2, l = l1 ++ (key, x) :: l2 /\ l' = l1 ++ (key, value) :: l2
  else (forall x, (key, x) ∉ l) /\ exists l1 l2, l = l1 ++ l2 /\ l' = l1 ++ (key, value) :: l2.

Lemma upsert_app key value b l1 l l' l2 :
  (forall x, (key, x) ∉ l1) -> (forall x, (key, x) ∉ l2) ->
  upsert key value b l l' -> upsert key value b (l1 ++ l ++ l2) (l1 ++ l' ++ l2).
Proof.
  intros N1 N2. destruct b; simpl.
  - intros (l3 & x & l4 & -> & ->). exists (l1 ++ l3), x, (l4 ++ l2). by rewrite <- !app_assoc.
  - intros (N & l3 & l4 & -> & ->). split; [set_solver|]. exists (l1 ++ l3), (l4 ++ l2). by rewrite <- !app_assoc.
Qed.

Lemma upsert_elem key value b l l' e : upsert key value b l l' -> e ∈ l' -> e = (key, value) \/ e ∈ l.
Proof.
  destruct b; simpl; [intros (l1 & x & l2 & -> & ->)|intros (_ & l1 & l2 & -> & ->)]; set_solver.
Qed.

(** What [insert] does to a leaf. *)
Lemma leaf_upsert key value (es : list (K * V)) :
  keysorted es ->
  let e := lower_bound (key_below key) es in
  let es' := if holds_at key e es then <[e := (key, value)]> es
             else take e es ++ (key, value) :: drop e es in
  upsert key value (holds_at key e es) es es' /\ keysorted es'.
Proof.
  intros Hs. destruct (lower_bound_cases key es Hs) as (l1 & l2 & Hes & Hlb & HA & HB).
  simpl. rewrite Hlb. unfold holds_at. rewrite Hes in Hs |- *. rewrite take_app_length, drop_app_length.
  apply keysorted_app in Hs as (S1 & S2 & S12). rewrite Forall_forall in HA.
  destruct HB as [(x & l3 & -> & H3)|HB].
  - rewrite list_lookup_middle by done. rewrite bool_decide_true by done.
    rewrite <- (Nat.add_0_r (length l1)), insert_app_r. simpl.
    split; [by exists l1, x, l3|]. apply keysorted_app. apply keysorted_cons in S2 as [S2 S3].
    split_and!; [done|by apply keysorted_cons|]. intros a b Ha [->|Hb]%elem_of_cons; [by apply HA|].
    apply S12; set_solver.
  - assert (Hh : match (l1 ++ l2) !! length l1 with Some (k, _) => bool_decide (k = key) | None => false end = false).
    { rewrite lookup_app_r, Nat.sub_diag by lia. destruct l2 as [|[k y] l2]; [done|]. simpl.
      apply Forall_cons in HB as [Hk _]. apply bool_decide_eq_false. simpl in Hk. intros ->. by apply klt_irrefl in Hk. }
    rewrite Hh. split.
    + split; [|by exists l1, l2]. rewrite Forall_forall in HB.
      intros x [Hx|Hx]%elem_of_app; [apply HA in Hx|apply HB in Hx]; by apply klt_irrefl in Hx.
    + apply keysorted_app. split_and!; [done|by apply keysorted_cons|].
      intros a b Ha [->|Hb]%elem_of_cons; [by apply HA|]. by apply S12.
Qed.
End Found.

Section Ops.
#[local] Set Default Proof Using "All".
Context {K V St : Type} `{KeyOrder K} `{PageStoreLaws K V St}.
Variables maxLeafEntries_ maxNodeEntries_ : nat.
Hypothesis maxLeaf_gt : 3 < maxLeafEntries_.
Hypothesis maxNode_gt : 3 < maxNodeEntries_.

Abbreviation content := (content maxLeafEntries_ maxNodeEntries_).
Abbreviation subtree := (subtree maxLeafEntries_ maxNodeEntries_).
Abbreviation capacity := (capacity maxLeafEntries_ maxNodeEntries_).
Abbreviation ctx := (ctx maxLeafEntries_ maxNodeEntries_).
Abbreviation is_root := (is_root maxLeafEntries_ maxNodeEntries_).

Implicit Types (st : St) (p q : page K V).

(** A state with the same pages. *)
Definition same_pages st st' : Prop :=
  store_ok st' /\ view st' = view st /\ numPages st' = numPages st.

Lemma search_spec h : forall fuel st lo hi p lv F key,
  h < fuel -> store_ok st -> view st !! id_ p = Some p -> content (view st) h lo hi p lv F ->
  in_bounds lo hi key ->
  exists st' r, search fuel (id_ p) key st = (Ok r, st') /\ same_pages st st' /\ found key r (contents lv).
Proof.
  induction h as [|h IH]; intros [|fuel] st lo hi p lv F key Hf Hok Hp Hc Hk; try lia.
  all: destruct (loadPage_ok st _ p Hok Hp) as (st1 & E1 & Hok1 & V1 & N1).
  all: cbn [search]; rewrite (M_bind_Ok _ _ _ _ _ E1).
  - destruct Hc as (es & Hb & -> & -> & Hs & _). rewrite Hb.
    pose proof (leaf_found key es Hs) as Hfound.
    unfold contents. simpl. rewrite app_nil_r.
    destruct (es !! lower_bound (key_below key) es) as [[k v]|]; [case_decide|]; by eexists _, _.
  - destruct Hc as (es & F' & Hb & Hne & -> & Hni & Hc). rewrite Hb.
    rewrite (M_bind_Ok _ _ _ (pick key (left_ p) es) st1).
    2:{ unfold liftM. rewrite (next_pick key p es); [done..|]. by eapply chain_bounds. }
    destruct (chain_open _ key _ _ _ _ _ _ Hc Hk)
      as (loH & hiH & lvL & lvH & lvR & FH & FR & Hh & (q & Hq & Hqi & Hcnt & Hcon) & -> & -> & Hd & Hb').
    rewrite <- Hqi. rewrite <- V1 in Hq, Hcon. rewrite <- Hqi in Hq.
    destruct (IH fuel st1 loH hiH q lvH FH key) as (st2 & r & E2 & (Hok2 & V2 & N2) & Hr); [lia|done..|].
    exists st2, r. split; [done|]. split; [split_and!; [done|congruence|congruence]|].
    apply (hole_sides _ (subtree_ordered _ _ (view st) h)) in Hh as (HL & HR & _).
    rewrite !contents_app. destruct Hb' as [Hb1 Hb2].
    apply found_app; [|intros x; by eapply right_of_not|done]. intros x. by eapply left_of_not.
Qed.

(** ** Descent to a leaf *)

(** The tree, seen from page [p] at the end of [path]; [p] may be full. *)
Record focus v h lo hi p lv F path lvL lvR R : Prop := {
  fo_page : v !! id_ p = Some p;
  fo_count : path <> [] -> 0 < count_ p;
  fo_content : content v h lo hi p lv F;
  fo_ctx : ctx v h lo hi (id_ p) path lvL lvR R;
  fo_disj : F ## R;
  fo_linked : linked v (lvL ++ lv ++ lvR);
}.

Lemma descend_spec h : forall fuel st lo hi p lv F path lvL lvR R key,
  h < fuel -> store_ok st -> focus (view st) h lo hi p lv F path lvL lvR R ->
  count_ p < capacity p -> in_bounds lo hi key ->
  exists st' p' path' lo' hi' es lvL' lvR' R',
    descend fuel (id_ p) key path st = (Ok (p', path'), st') /\ same_pages st st' /\
    focus (view st) 0 lo' hi' p' [(id_ p', es)] {[id_ p']} path' lvL' lvR' R' /\
    body p' = LeafPage es /\ length es < maxLeafEntries_ /\ in_bounds lo' hi' key /\
    lvL ++ lv ++ lvR = lvL' ++ [(id_ p', es)] ++ lvR'.
Proof.
  induction h as [|h IH]; intros [|fuel] st lo hi p lv F path lvL lvR R key Hf Hok Hfo Hcap Hk; try lia.
  all: destruct Hfo as [Hp Hcnt Hc Hctx Hd Hl].
  all: destruct (loadPage_ok st _ p Hok Hp) as (st1 & E1 & Hok1 & V1 & N1).
  all: cbn [descend]; rewrite (M_bind_Ok _ _ _ _ _ E1).
  - pose proof Hc as (es & Hb & -> & -> & Hs & HB). unfold node_. rewrite Hb.
    exists st1, p, path, lo, hi, es, lvL, lvR, R. split_and!; try done.
    unfold capacity, BTreeInv.capacity, count_, node_ in Hcap. by rewrite Hb in Hcap.
  - pose proof Hc as (es & F' & Hb & Hne & -> & Hni & Hch).
    replace (node_ p) with true by (unfold node_; by rewrite Hb).
    rewrite (M_bind_Ok _ _ _ (pick key (left_ p) es) st1).
    2:{ unfold liftM. rewrite (next_pick key p es); [done..|]. by eapply chain_bounds. }
    destruct (chain_open _ key _ _ _ _ _ _ Hch Hk)
      as (loH & hiH & lvL' & lvH & lvR' & FH & FR & Hh & (q & Hq & Hqi & Hcq & Hcon) & -> & -> & Hd' & Hb').
    assert (Hlen : 0 < length es < maxNodeEntries_).
    { unfold BTreeInv.capacity, count_, node_ in Hcap. rewrite Hb in Hcap. destruct es; [done|]. simpl in *; lia. }
    rewrite <- Hqi. rewrite <- V1 in *. rewrite <- Hqi in Hq.
    destruct (IH fuel st1 loH hiH q lvH FH (id_ p :: path) (lvL ++ lvL') (lvR' ++ lvR)
                ({[id_ p]} ∪ FR ∪ R) key)
      as (st2 & p' & path' & lo' & hi' & es' & lvL2 & lvR2 & R2 & E2 & (Hok2 & V2 & N2) & Hfo2 & Hrest);
      [lia|done| |by destruct Hcq|done|].
    + split; [done|by destruct Hcq|done| |set_solver|].
      * rewrite Hqi. exists p, es, lo, hi, lvL', lvR', FR, lvL, lvR, R. split_and!; try done; first [lia|set_solver].
      * by rewrite <- !app_assoc in *.
    + exists st2, p', path', lo', hi', es', lvL2, lvR2, R2.
      split; [done|]. split; [split_and!; [done|congruence|congruence]|]. split; [done|].
      destruct Hrest as (? & ? & ? & <-). rewrite <- !app_assoc. done.
Qed.

(** ** Splitting a full page *)

(** The child [c] has been replaced by [c] and [n], separated by [k]. *)
Definition halves (v v' : gmap nat (page K V)) h lo hi c n k lv lvL lvR R : Prop :=
  exists lv1 lv2 F1 F2,
    subtree v' h lo (Some k) c lv1 F1 /\ subtree v' h (Some k) hi n lv2 F2 /\
    (F1 ## F2) /\ (F1 ∪ F2 ## R) /\ agree v v' R /\ linked v' (lvL ++ (lv1 ++ lv2) ++ lvR) /\
    contents (lv1 ++ lv2) = contents lv /\ lo_lt lo k /\ lt_hi k hi.

Lemma relink_spec st n (lv : list (nat * list (K * V))) prev :
  store_ok st -> linked_from (view st) prev lv ->
  exists st', (if decide (first_id lv <> 0)
               then r ← loadPage (first_id lv); savePage (mkPage (id_ r) n (right_ r) (body r))
               else mret tt) st = (Ok tt, st') /\
    store_ok st' /\ numPages st' = numPages st /\
    (forall j, head lv.*1 <> Some j -> view st' !! j = view st !! j) /\
    (forall r q, head lv.*1 = Some r -> view st !! r = Some q ->
       node_ q = false /\ view st' !! r = Some (mkPage (id_ q) n (right_ q) (body q))).
Proof.
  intros Hok HB. destruct lv as [|[r es] lv].
  { rewrite decide_False by (intros Hx; by apply Hx). exists st. done. }
  simpl in HB. destruct HB as [(q & Hq & Hb & _) _]. destruct (view_ok st r q Hok Hq) as [Hid Hr].
  change (first_id ((r, es) :: lv)) with r. rewrite decide_True by lia.
  destruct (loadPage_ok st r q Hok Hq) as (st1 & E1 & Hok1 & V1 & N1).
  rewrite (M_bind_Ok _ _ _ _ _ E1).
  destruct (savePage_ok st1 (mkPage (id_ q) n (right_ q) (body q)) Hok1)
    as (st2 & E2 & Hok2 & V2 & N2); [simpl; lia|].
  exists st2. split; [done|]. rewrite V2, V1. simpl. rewrite Hid. split_and!; [done|congruence| |].
  - intros j Hj. rewrite lookup_insert_ne by congruence. done.
  - intros r' q' [= <-] Hq'. rewrite lookup_insert_eq. simplify_eq. unfold node_. by rewrite Hb.
Qed.

(** A page above the allocated ones is not there yet. *)
Lemma fresh_page st : store_ok st -> view st !! S (numPages st) = None.
Proof.
  intros Hok. destruct (view st !! S (numPages st)) eqn:Hn; [|done]. apply view_ok in Hn; [lia|done].
Qed.

(** The pages after a leaf split. *)
Lemma halves_leaf (v v' : gmap nat (page K V)) lo hi p es m k n lvL lvR path R pp pn :
  focus v 0 lo hi p [(id_ p, es)] {[id_ p]} path lvL lvR R -> v !! n = None ->
  0 < m -> m < length es -> m < maxLeafEntries_ -> length es - m < maxLeafEntries_ ->
  keysorted (take m es) -> keysorted (drop m es) ->
  Forall (fun e => in_bounds lo (Some k) e.1) (take m es) ->
  Forall (fun e => in_bounds (Some k) hi e.1) (drop m es) ->
  lo_lt lo k -> lt_hi k hi ->
  pp = mkPage (id_ p) (left_ p) n (LeafPage (take m es)) ->
  pn = mkPage n (id_ p) (right_ p) (LeafPage (drop m es)) ->
  v' !! id_ p = Some pp -> v' !! n = Some pn ->
  (forall j, j <> n -> j <> id_ p -> head lvR.*1 <> Some j -> v' !! j = v !! j) ->
  (forall r q, head lvR.*1 = Some r -> v !! r = Some q ->
     node_ q = false /\ v' !! r = Some (mkPage (id_ q) n (right_ q) (body q))) ->
  halves v v' 0 lo hi (id_ p) n k [(id_ p, es)] lvL lvR R.
Proof.
  intros [Hp Hcnt Hc Hctx Hd [Hl Hnd]] Hfresh Hm0 Hm1 Hm2 Hm3 S1 S2 B1 B2 Hlk Hkh Epp Epn Vp Vn Vo Vr.
  assert (HnR : n ∉ R).
  { intros Hn. apply (ctx_dom _ _ _ _ _ _ _ _ _ _ _ Hctx) in Hn. apply elem_of_dom in Hn as [? ?]. congruence. }
  assert (Hnp : n <> id_ p) by congruence.
  assert (Hnl : n ∉ (lvL ++ [(id_ p, es)] ++ lvR).*1).
  { intros Hj. eapply linked_from_dom in Hl as [? Hx]; [|exact Hj]. congruence. }
  rewrite !fmap_app in Hnl, Hnd. simpl in Hnl, Hnd.
  apply NoDup_app in Hnd as (NL & Nx & NR). apply NoDup_cons in NR as [Np NR].
  exists [(id_ p, take m es)], [(n, drop m es)], {[id_ p]}, {[n]}. split_and!; try done.
  - exists pp. rewrite Epp. unfold count_, BTreeInv.capacity, node_. simpl. rewrite length_take.
    split_and!; [by rewrite <- Epp|done|lia|lia|]. by exists (take m es).
  - exists pn. rewrite Epn. unfold count_, BTreeInv.capacity, node_. simpl. rewrite length_drop.
    split_and!; [by rewrite <- Epn|done|lia|lia|]. by exists (drop m es).
  - set_solver.
  - set_solver.
  - intros i q Hi Hq. destruct (decide (head lvR.*1 = Some i)) as [Hh|Hh].
    + destruct (Vr i q Hh Hq) as [Hnq Hq']. eexists. split; [exact Hq'|]. split_and!; try done. by rewrite Hnq.
    + exists q. rewrite Vo; [done|set_solver..|done].
  - split.
    + eapply linked_from_split; [exact Hl|exact Hp|exact Vp| | | |exact Vn|..]; try (by rewrite ?Epp, ?Epn).
      * intros r q Hr Hq. destruct (Vr r q Hr Hq) as [_ Hq']. by eexists.
      * intros j q Hj Hq. rewrite Vo; [done|..].
        -- intros ->. apply Hnl. destruct lvR; set_solver.
        -- intros ->. destruct lvR; set_solver.
        -- intros Hh. destruct lvR as [|[r er] lvR]; [done|]. simpl in *. simplify_eq.
           apply NoDup_cons in NR as [NR _]. set_solver.
    + rewrite !fmap_app. simpl. apply NoDup_app. split_and!; [done|set_solver|].
      apply NoDup_cons. split; [set_solver|]. apply NoDup_cons. split; [set_solver|done].
  - unfold contents. simpl. by rewrite !app_nil_r, take_drop.
Qed.

Lemma splitPage_leaf st lo hi p es path lvL lvR R :
  store_ok st -> focus (view st) 0 lo hi p [(id_ p, es)] {[id_ p]} path lvL lvR R ->
  body p = LeafPage es -> length es = maxLeafEntries_ ->
  exists st' k n, splitPage p st = (Ok (k, n), st') /\ store_ok st' /\
    halves (view st) (view st') 0 lo hi (id_ p) n k [(id_ p, es)] lvL lvR R.
Proof.
  intros Hok Hfo Hb Hlen. unfold splitPage, count_. rewrite Hb, Hlen.
  pose proof Hfo as [Hp Hcnt Hc Hctx Hd [Hl Hnd]]. set (m := Nat.div2 maxLeafEntries_).
  assert (Hm : 1 < m /\ m < length es /\ m < maxLeafEntries_).
  { unfold m. rewrite Hlen. pose proof (half_bounds _ maxLeaf_gt). lia. }
  destruct (lookup_lt_is_Some_2 es m) as [[k x] Hk]; [lia|]. rewrite Hk.
  pose proof Hc as (es' & Hb' & [= <-] & _ & Hs & HB).
  destruct (leaf_cut lo hi es m k x Hs HB) as (S1 & S2 & B1 & B2 & Hlk & Hkh); [lia|done|].
  destruct (newPage_ok st Hok) as (st1 & E1 & Hok1 & V1 & N1).
  rewrite (M_bind_Ok _ _ _ _ _ E1).
  pose proof (fresh_page st Hok) as Hfresh. set (n := S (numPages st)) in *. simpl id_.
  assert (Hin : forall j, j ∈ (lvL ++ [(id_ p, es)] ++ lvR).*1 -> j <> n).
  { intros j Hj ->. eapply linked_from_dom in Hl as [? Hx]; [|exact Hj]. congruence. }
  destruct (linked_from_app _ _ _ _ _ _ Hl) as (p0 & Hp0 & _ & HR & HfR).
  assert (p0 = p) as -> by congruence. clear Hp0.
  rewrite !fmap_app in Hin, Hnd. simpl in Hin, Hnd.
  destruct (relink_spec st1 n lvR (id_ p)) as (st2 & E2 & Hok2 & N2 & U2 & R2); [done|..].
  { eapply linked_from_agree; [|exact HfR]. intros j q Hj Hq. rewrite V1, lookup_insert_ne; [done|].
    apply not_eq_sym, Hin. set_solver. }
  rewrite HR, (M_bind_Ok _ _ _ _ _ E2).
  destruct (view_ok _ _ _ Hok Hp) as [_ Hidp].
  set (pn := mkPage n (id_ p) (first_id lvR) (LeafPage (drop m es))).
  set (pp := mkPage (id_ p) (left_ p) n (LeafPage (take m es))).
  destruct (savePage_ok st2 pn Hok2) as (st3 & E3 & Hok3 & V3 & N3); [simpl; subst n; lia|].
  rewrite (M_bind_Ok _ _ _ _ _ E3).
  destruct (savePage_ok st3 pp Hok3) as (st4 & E4 & Hok4 & V4 & N4); [simpl; subst n; lia|].
  rewrite (M_bind_Ok _ _ _ _ _ E4). exists st4, k, n. split; [done|]. split; [done|].
  eapply (halves_leaf (view st) (view st4) lo hi p es m k n lvL lvR path R pp pn);
    try done; [lia..| | | | |].
  - unfold pn. by rewrite HR.
  - rewrite V4. apply lookup_insert_eq.
  - rewrite V4, V3, lookup_insert_ne, lookup_insert_eq; [done|]. simpl. apply Hin. set_solver.
  - intros j Hjn Hjp Hj. rewrite V4, V3, !lookup_insert_ne by done. rewrite U2 by done.
    by rewrite V1, lookup_insert_ne by done.
  - intros r q Hr Hq. assert (r ∈ lvR.*1) by (destruct lvR; simplify_eq/=; set_solver).
    apply NoDup_app in Hnd as (_ & _ & [Hpr _]%NoDup_cons).
    rewrite V4, V3, !lookup_insert_ne; simpl; [|apply not_eq_sym, Hin; set_solver|set_solver].
    apply R2; [done|]. rewrite V1, lookup_insert_ne; [done|]. apply not_eq_sym, Hin. set_solver.
Qed.

Lemma chain_agree (v v' : gmap nat (page K V)) h lo hi c es lv F :
  agree v v' F -> chain (subtree v h) lo hi c es lv F -> chain (subtree v' h) lo hi c es lv F.
Proof.
  intros Ha Hc. eapply chain_impl; [exact Hc|]. intros. eapply subtree_agree; [|done].
  by eapply agree_weaken.
Qed.

(** A node page over a chain of children. *)
Lemma subtree_node (v : gmap nat (page K V)) h lo hi p es lv F :
  v !! id_ p = Some p -> body p = NodePage es -> 0 < length es < maxNodeEntries_ -> id_ p ∉ F ->
  chain (subtree v h) lo hi (left_ p) es lv F -> subtree v (S h) lo hi (id_ p) lv ({[id_ p]} ∪ F).
Proof.
  intros Hp Hb Hlen Hni Hc. exists p. unfold count_, BTreeInv.capacity, node_. rewrite Hb.
  split_and!; [done|done|lia|lia|]. exists es, F. split_and!; try done. by intros ->; simpl in Hlen; lia.
Qed.

Lemma splitPage_node st h lo hi p es lv F path lvL lvR R :
  store_ok st -> focus (view st) (S h) lo hi p lv F path lvL lvR R ->
  body p = NodePage es -> length es = maxNodeEntries_ ->
  exists st' k n, splitPage p st = (Ok (k, n), st') /\ store_ok st' /\
    halves (view st) (view st') (S h) lo hi (id_ p) n k lv lvL lvR R.
Proof.
  intros Hok Hfo Hb Hlen. unfold splitPage, count_. rewrite Hb, Hlen.
  pose proof Hfo as [Hp Hcnt Hc Hctx Hd Hl]. set (m := Nat.div2 maxNodeEntries_).
  assert (Hm : 1 < m /\ m + 1 < length es /\ m < maxNodeEntries_).
  { unfold m. rewrite Hlen. pose proof (half_bounds _ maxNode_gt). lia. }
  destruct (lookup_lt_is_Some_2 es m) as [[k c] Hk]; [lia|]. rewrite Hk.
  destruct Hc as (es' & F' & Hb' & _ & HF & Hni & Hc). assert (es' = es) as -> by congruence.
  rewrite <- (take_drop_middle es m (k, c) Hk) in Hc.
  apply chain_cut in Hc as (lv1 & lv2 & F1 & F2 & C1 & C2 & -> & -> & Hd12 & Hlk & Hkh).
  destruct (newPage_ok st Hok) as (st1 & E1 & Hok1 & V1 & N1).
  rewrite (M_bind_Ok _ _ _ _ _ E1).
  pose proof (fresh_page st Hok) as Hfresh. set (n := S (numPages st)) in *.
  destruct (view_ok _ _ _ Hok Hp) as [_ Hidp].
  set (pn := mkPage n c 0 (NodePage (drop (m + 1) es)) : page K V).
  set (pp := mkPage (id_ p) (left_ p) (right_ p) (NodePage (take m es)) : page K V).
  destruct (savePage_ok st1 pn Hok1) as (st3 & E3 & Hok3 & V3 & N3); [simpl; subst n; lia|].
  rewrite (M_bind_Ok _ _ _ tt st3) by exact E3.
  destruct (savePage_ok st3 pp Hok3) as (st4 & E4 & Hok4 & V4 & N4); [simpl; subst n; lia|].
  rewrite (M_bind_Ok _ _ _ _ _ E4). exists st4, k, n. split; [done|]. split; [done|].
  assert (Hnp : n <> id_ p) by congruence.
  rewrite V3, V1, insert_insert_eq in V4. simpl in V4.
  assert (HnF : n ∉ {[id_ p]} ∪ (F1 ∪ F2) ∪ R).
  { intros Hn. assert (n ∈ dom (view st)) as [? ?]%elem_of_dom; [|congruence].
    apply elem_of_union in Hn as [Hn|Hn]; [|by eapply ctx_dom].
    rewrite <- HF in Hn. by eapply content_dom; [exact (fo_content _ _ _ _ _ _ _ _ _ _ _ Hfo)|..]. }
  assert (Ha : forall G, n ∉ G -> id_ p ∉ G -> agree (view st) (view st4) G).
  { intros G Hn Hi. rewrite V4. eapply agree_trans; apply agree_insert; done. }
  exists lv1, lv2, ({[id_ p]} ∪ F1), ({[n]} ∪ F2). split_and!; try done; [..|].
  - apply (subtree_node _ _ _ _ pp (take m es)); [rewrite V4; apply lookup_insert_eq|done| |set_solver|].
    + rewrite length_take. lia.
    + eapply chain_agree; [apply Ha|exact C1]; set_solver.
  - apply (subtree_node _ _ _ _ pn (drop (m + 1) es)); [|done| |set_solver|].
    + rewrite V4, lookup_insert_ne by done. apply lookup_insert_eq.
    + rewrite length_drop. lia.
    + rewrite Nat.add_1_r. eapply chain_agree; [apply Ha|exact C2]; set_solver.
  - set_solver.
  - set_solver.
  - apply Ha; set_solver.
  - eapply linked_nodes; [|exact Hl]. intros i q Hq Hnq. rewrite V4.
    rewrite !lookup_insert_ne; [done|congruence|].
    intros <-. assert (q = p) as -> by congruence. unfold node_ in Hnq. by rewrite Hb in Hnq.
Qed.

Lemma splitPage_spec st h lo hi p lv F path lvL lvR R :
  store_ok st -> focus (view st) h lo hi p lv F path lvL lvR R -> is_full maxLeafEntries_ maxNodeEntries_ p = true ->
  exists st' k n, splitPage p st = (Ok (k, n), st') /\ store_ok st' /\
    halves (view st) (view st') h lo hi (id_ p) n k lv lvL lvR R.
Proof.
  intros Hok Hfo Hfull. pose proof (fo_content _ _ _ _ _ _ _ _ _ _ _ Hfo) as Hc.
  unfold is_full, node_, count_ in Hfull. destruct h as [|h].
  - destruct Hc as (es & Hb & -> & -> & _). rewrite Hb in Hfull. apply bool_decide_eq_true in Hfull.
    by eapply splitPage_leaf.
  - destruct Hc as (es & F' & Hb & _). rewrite Hb in Hfull. apply bool_decide_eq_true in Hfull.
    by eapply splitPage_node.
Qed.

(** ** Inserting the separator in the parent *)

Lemma insertSeparator_spec st v h lo hi c n k lv i path lvL lvR R :
  store_ok st -> ctx v h lo hi c (i :: path) lvL lvR R ->
  halves v (view st) h lo hi c n k lv lvL lvR R ->
  exists st' p' loP hiP lv' F' lvL' lvR' R',
    insertSeparator maxNodeEntries_ i k n st = (Ok p', st') /\ store_ok st' /\
    focus (view st') (S h) loP hiP p' lv' F' path lvL' lvR' R' /\ count_ p' <= capacity p' /\
    contents (lvL' ++ lv' ++ lvR') = contents (lvL ++ lv ++ lvR).
Proof.
  intros Hok Hctx (lv1 & lv2 & F1 & F2 & T1 & T2 & Hd12 & HdR & Ha & Hl & Hcont & Hlk & Hkh).
  eapply ctx_agree in Hctx; [|exact Ha].
  destruct Hctx as (q & es & loP & hiP & l1 & l2 & FR & lvL' & lvR' & R' & Hq & Hi & Hb & Hlen & Hh & Hc & -> & -> & -> & Hni & Hd').
  unfold insertSeparator.
  destruct (loadPage_ok st i q Hok Hq) as (st1 & E1 & Hok1 & V1 & N1).
  rewrite (M_bind_Ok _ _ _ _ _ E1), Hb.
  assert (Hne : es <> []) by (intros ->; simpl in Hlen; lia).
  rewrite (M_bind_Ok _ _ _ tt st1) by by rewrite bool_decide_true.
  destruct (insert_sep_lower_bound k n es) as [Eins Eh].
  { by eapply hole_sorted. }
  { intros x. by eapply hole_fresh. }
  rewrite (M_bind_Ok _ _ _ tt st1) by by rewrite Eh.
  rewrite (M_bind_Ok _ _ _ (insert_sep k n es) st1).
  2:{ unfold liftM, insert_at. rewrite decide_True by lia. by rewrite Eins. }
  set (p' := mkPage (id_ q) (left_ q) (right_ q) (NodePage (insert_sep k n es)) : page K V).
  destruct (view_ok st i q Hok Hq) as [_ Hidq].
  destruct (savePage_ok st1 p' Hok1) as (st2 & E2 & Hok2 & V2 & N2); [simpl; lia|].
  rewrite (M_bind_Ok _ _ _ _ _ E2).
  exists st2, p', loP, hiP, (l1 ++ (lv1 ++ lv2) ++ l2), ({[i]} ∪ (F1 ∪ F2 ∪ FR)), lvL', lvR', R'.
  assert (Hag : forall G, i ∉ G -> agree (view st) (view st2) G).
  { intros G HG. rewrite V2, V1. apply agree_insert. simpl. by rewrite Hi. }
  split; [done|]. split; [done|]. split; [|split].
  - split.
    + rewrite V2. apply lookup_insert_eq.
    + intros _. unfold count_. simpl. rewrite insert_sep_length. lia.
    + exists (insert_sep k n es), (F1 ∪ F2 ∪ FR). simpl id_. rewrite Hi. split_and!; try done.
      * intros Hx. apply (f_equal length) in Hx. rewrite insert_sep_length in Hx. done.
      * set_solver.
      * apply (chain_agree (view st)); [apply Hag; set_solver|].
        eapply hole_split; try done. set_solver.
    + simpl. rewrite Hi. eapply ctx_agree; [exact Hc|]. apply Hag. set_solver.
    + set_solver.
    + eapply linked_nodes; [|by rewrite <- !app_assoc in *; exact Hl].
      intros j r Hr Hnr. rewrite V2, V1, lookup_insert_ne; [done|]. simpl. intros <-.
      rewrite Hi in Hr. assert (r = q) as -> by congruence. unfold node_ in Hnr. by rewrite Hb in Hnr.
  - unfold count_, BTreeInv.capacity, node_. simpl. rewrite insert_sep_length. lia.
  - rewrite !contents_app in *. rewrite <- Hcont, <- !app_assoc. done.
Qed.

(** ** Splitting the root *)

(** The pages represent a tree that holds the entries [l]. *)
Definition tree (v : gmap nat (page K V)) (l : list (K * V)) : Prop :=
  exists h lv F, is_root v h lv F /\ linked v lv /\ contents lv = l.

Lemma tree_two v h l r k lv1 lv2 F1 F2 :
  v !! 1 = Some (mkPage 1 l 0 (NodePage [(k, r)])) ->
  subtree v h None (Some k) l lv1 F1 -> subtree v h (Some k) None r lv2 F2 ->
  F1 ## F2 -> 1 ∉ F1 ∪ F2 -> linked v (lv1 ++ lv2) -> tree v (contents (lv1 ++ lv2)).
Proof.
  intros H1' T1 T2 Hd Hni Hl. exists (S h), (lv1 ++ lv2), ({[1]} ∪ (F1 ∪ F2)). split; [|done].
  eexists. split; [exact H1'|]. unfold count_, BTreeInv.capacity, node_. simpl. split_and!; [done|lia|].
  exists [(k, r)], (F1 ∪ F2). split_and!; try done. by exists lv1, lv2, F1, F2.
Qed.

Lemma save3 st a b c :
  store_ok st -> 1 <= id_ a <= numPages st -> 1 <= id_ b <= numPages st -> 1 <= id_ c <= numPages st ->
  exists st', (savePage a ;; savePage b ;; savePage c) st = (Ok tt, st') /\ store_ok st' /\
    view st' = <[id_ c := c]> (<[id_ b := b]> (<[id_ a := a]> (view st))).
Proof.
  intros Hok Ha Hb Hc. destruct (savePage_ok st a Hok Ha) as (st1 & E1 & Hok1 & V1 & N1).
  rewrite (M_bind_Ok _ _ _ _ _ E1).
  destruct (savePage_ok st1 b Hok1) as (st2 & E2 & Hok2 & V2 & N2); [lia|].
  rewrite (M_bind_Ok _ _ _ _ _ E2).
  destruct (savePage_ok st2 c Hok2) as (st3 & E3 & Hok3 & V3 & N3); [lia|].
  exists st3. split_and!; [done..|]. by rewrite V3, V2, V1.
Qed.

(** The pages after the root has been split: [l] and [r] are new. *)
Lemma root_leaf v v' p es m k x l r :
  body p = LeafPage es -> keysorted es -> es !! m = Some (k, x) -> 0 < m -> m < maxLeafEntries_ ->
  length es - m < maxLeafEntries_ -> l <> r -> 1 <> l -> 1 <> r ->
  v' = <[1 := mkPage 1 l 0 (NodePage [(k, r)])]> (<[l := mkPage l 0 r (LeafPage (take m es))]>
         (<[r := mkPage r l 0 (LeafPage (drop m es))]> v)) ->
  tree v' es.
Proof.
  intros Hb Hs Hk Hm0 Hm1 Hm2 Hlr H1l H1r ->. pose proof (lookup_lt_Some _ _ _ Hk) as Hlt.
  destruct (leaf_cut None None es m k x Hs) as (S1 & S2 & B1 & B2 & _); [by apply Forall_true|done..|].
  assert (E : es = contents ([(l, take m es)] ++ [(r, drop m es)])).
  { unfold contents. simpl. by rewrite app_nil_r, take_drop. }
  rewrite E at 3. eapply (tree_two _ 0 l r k _ _ {[l]} {[r]}).
  - apply lookup_insert_eq.
  - eexists. rewrite lookup_insert_ne, lookup_insert_eq by done. split; [done|].
    unfold count_, BTreeInv.capacity, node_. simpl. rewrite length_take. split_and!; [done|lia|lia|].
    by exists (take m es).
  - eexists. rewrite !lookup_insert_ne, lookup_insert_eq by done. split; [done|].
    unfold count_, BTreeInv.capacity, node_. simpl. rewrite length_drop. split_and!; [done|lia|lia|].
    by exists (drop m es).
  - set_solver.
  - set_solver.
  - split; simpl; [split_and!; [| |done]|].
    + eexists. by rewrite lookup_insert_ne, lookup_insert_eq by done.
    + eexists. by rewrite !lookup_insert_ne, lookup_insert_eq by done.
    + apply NoDup_cons. split; [set_solver|apply NoDup_singleton].
Qed.

Lemma root_node v v' h p es m k c lv F l r :
  v !! 1 = Some p -> id_ p = 1 -> v !! l = None -> v !! r = None ->
  content v (S h) None None p lv F -> linked v lv ->
  body p = NodePage es -> es !! m = Some (k, c) -> 0 < m -> m < maxNodeEntries_ ->
  m + 1 < length es -> length es - (m + 1) < maxNodeEntries_ -> l <> r ->
  v' = <[1 := mkPage 1 l 0 (NodePage [(k, r)])]> (<[l := mkPage l (left_ p) 0 (NodePage (take m es))]>
         (<[r := mkPage r c 0 (NodePage (drop (m + 1) es))]> v)) ->
  tree v' (contents lv).
Proof.
  intros Hp Hid Hl Hr Hc Hlk Hb Hk Hm0 Hm1 Hm2 Hm3 Hlr ->.
  pose proof (content_dom _ _ _ _ _ _ _ _ _ Hc ltac:(by rewrite Hid)) as Hdom.
  assert (HlF : l ∉ F) by (intros Hx; apply Hdom, elem_of_dom in Hx as [? ?]; congruence).
  assert (HrF : r ∉ F) by (intros Hx; apply Hdom, elem_of_dom in Hx as [? ?]; congruence).
  destruct Hc as (es' & F' & Hb' & _ & -> & Hni & Hc). assert (es' = es) as -> by congruence.
  rewrite <- (take_drop_middle es m (k, c) Hk), <- Nat.add_1_r in Hc.
  apply chain_cut in Hc as (lv1 & lv2 & F1 & F2 & C1 & C2 & -> & -> & Hd12 & _ & _).
  rewrite Hid in *.
  assert (Ha : forall v3 G, v3 = <[1 := mkPage 1 l 0 (NodePage [(k, r)])]> (<[l := mkPage l (left_ p) 0 (NodePage (take m es))]>
         (<[r := mkPage r c 0 (NodePage (drop (m + 1) es))]> v)) -> G ⊆ F1 ∪ F2 -> agree v v3 G).
  { intros v3 G -> HG. do 2 (eapply agree_trans; [|apply agree_insert; set_solver]). apply agree_insert. set_solver. }
  eapply (tree_two _ (S h) l r k _ _ ({[l]} ∪ F1) ({[r]} ∪ F2)).
  - apply lookup_insert_eq.
  - apply (subtree_node _ _ _ _ (mkPage l (left_ p) 0 (NodePage (take m es))) (take m es)); simpl.
    + rewrite lookup_insert_ne, lookup_insert_eq by congruence. done.
    + done.
    + rewrite length_take. lia.
    + set_solver.
    + eapply chain_agree; [|exact C1]. eapply Ha; [done|set_solver].
  - apply (subtree_node _ _ _ _ (mkPage r c 0 (NodePage (drop (m + 1) es))) (drop (m + 1) es)); simpl.
    + rewrite !lookup_insert_ne, lookup_insert_eq by congruence. done.
    + done.
    + rewrite length_drop. lia.
    + set_solver.
    + eapply chain_agree; [|exact C2]. eapply Ha; [done|set_solver].
  - set_solver.
  - assert (1 <> l) by congruence. assert (1 <> r) by congruence. set_solver.
  - eapply linked_nodes; [|exact Hlk]. intros i q Hq Hnq.
    rewrite !lookup_insert_ne; [done|congruence|congruence|].
    intros <-. assert (q = p) as -> by congruence. unfold node_ in Hnq. by rewrite Hb in Hnq.
Qed.

Lemma splitRoot_spec st h p lv F :
  store_ok st -> view st !! 1 = Some p -> id_ p = 1 -> content (view st) h None None p lv F ->
  linked (view st) lv -> is_full maxLeafEntries_ maxNodeEntries_ p = true ->
  exists st', splitRoot st = (Ok tt, st') /\ store_ok st' /\ tree (view st') (contents lv).
Proof.
  intros Hok Hp Hid Hc Hl Hfull. unfold splitRoot.
  destruct (loadPage_ok st 1 p Hok Hp) as (st0 & E0 & Hok0 & V0 & N0).
  rewrite (M_bind_Ok _ _ _ _ _ E0). rewrite <- V0 in *.
  destruct (newPage_ok st0 Hok0) as (st1 & E1 & Hok1 & V1 & N1). rewrite (M_bind_Ok _ _ _ _ _ E1).
  destruct (newPage_ok st1 Hok1) as (st2 & E2 & Hok2 & V2 & N2). rewrite (M_bind_Ok _ _ _ _ _ E2).
  pose proof (fresh_page st0 Hok0) as Hl0. pose proof (fresh_page st1 Hok1) as Hr0. simpl id_.
  rewrite N1 in *. set (l := S (numPages st0)) in *. set (r := S l) in *.
  assert (H1l : 1 <> l) by congruence. assert (Hr1 : view st0 !! r = None).
  { rewrite V1, lookup_insert_ne in Hr0; [done|lia]. }
  unfold is_full, count_, node_ in Hfull. unfold count_.
  destruct h as [|h].
  - destruct Hc as (es & Hb & -> & _ & Hs & _). rewrite Hb in *. apply bool_decide_eq_true in Hfull.
    pose proof (half_bounds _ maxLeaf_gt). rewrite Hfull.
    destruct (lookup_lt_is_Some_2 es (Nat.div2 maxLeafEntries_)) as [[k x] Hk]; [lia|]. rewrite Hk.
    match goal with |- context [(savePage ?a ;; savePage ?b ;; savePage ?c) st2] =>
      destruct (save3 st2 a b c) as (st3 & -> & Hok3 & V3); [done|simpl; lia..|] end.
    exists st3. split_and!; [done..|]. simpl in V3. unfold contents. simpl. rewrite app_nil_r.
    apply (root_leaf (view st2) _ p es (Nat.div2 maxLeafEntries_) k x l r); try done; lia.
  - pose proof Hc as (es & F' & Hb & _). rewrite Hb in *. apply bool_decide_eq_true in Hfull.
    pose proof (half_bounds _ maxNode_gt). rewrite Hfull.
    destruct (lookup_lt_is_Some_2 es (Nat.div2 maxNodeEntries_)) as [[k c] Hk]; [lia|]. rewrite Hk.
    match goal with |- context [(savePage ?a ;; savePage ?b ;; savePage ?c) st2] =>
      destruct (save3 st2 a b c) as (st3 & -> & Hok3 & V3); [done|simpl; lia..|] end.
    exists st3. split_and!; [done..|]. simpl in V3.
    eapply (root_node (view st0) _ h p es (Nat.div2 maxNodeEntries_) k c lv F l r); try done; try lia.
    rewrite V3, V2, V1, insert_insert_eq.
    rewrite (insert_insert_ne (view st0) r l) by lia. by rewrite insert_insert_eq.
Qed.

(** ** Insertion *)

Lemma height_pages st F : store_ok st -> F ⊆ dom (view st) -> size F <= numPages st.
Proof.
  intros Hok HF. etrans; [apply (subseteq_size F (set_seq 1 (numPages st)))|].
  - intros i Hi. apply HF, elem_of_dom in Hi as [p Hp]. apply elem_of_set_seq.
    apply view_ok in Hp as [_ ?]; [lia|done].
  - by rewrite size_set_seq.
Qed.

Lemma tree_of_focus v h lo hi p lv F path lvL lvR R :
  focus v h lo hi p lv F path lvL lvR R -> count_ p < capacity p -> tree v (contents (lvL ++ lv ++ lvR)).
Proof.
  intros [Hp Hcnt Hc Hctx Hd Hl] Hcap.
  destruct (ctx_plug _ _ _ _ _ _ _ _ _ _ _ lv F Hctx Hp) as [h' Hr]; [done..|].
  by exists h', (lvL ++ lv ++ lvR), (F ∪ R).
Qed.

Lemma splitLoop_spec path : forall st h lo hi p lv F lvL lvR R,
  store_ok st -> focus (view st) h lo hi p lv F path lvL lvR R -> count_ p <= capacity p ->
  exists st', splitLoop maxLeafEntries_ maxNodeEntries_ (S (length path)) p path st = (Ok tt, st') /\
    store_ok st' /\ tree (view st') (contents (lvL ++ lv ++ lvR)).
Proof.
  induction path as [|i path IH]; intros st h lo hi p lv F lvL lvR R Hok Hfo Hcap.
  all: cbn [splitLoop length]; destruct (is_full _ _ p) eqn:Hfull.
  2,4: exists st; split_and!; [done..|]; eapply tree_of_focus; [done|];
    unfold is_full, BTreeInv.capacity in *;
    destruct (node_ p); apply bool_decide_eq_false in Hfull; lia.
  - destruct Hfo as [Hp Hcnt Hc Hctx Hd Hl]. destruct Hctx as (Hid & -> & -> & -> & -> & ->).
    rewrite decide_True by done. simpl in *. rewrite app_nil_r in *. rewrite Hid in Hp.
    by eapply splitRoot_spec.
  - rewrite decide_False.
    2:{ intros Hid. destruct Hfo as [Hp Hcnt Hc Hctx Hd Hl].
        apply ctx_root in Hctx as [[? _]|[_ Hx]]; [done|]. apply content_id in Hc. rewrite Hid in Hc. set_solver. }
    destruct (splitPage_spec _ _ _ _ _ _ _ _ _ _ _ Hok Hfo Hfull) as (st1 & k & n & E1 & Hok1 & Hh).
    rewrite (M_bind_Ok _ _ _ _ _ E1).
    destruct (insertSeparator_spec _ _ _ _ _ _ _ _ _ _ _ _ _ _ Hok1 (fo_ctx _ _ _ _ _ _ _ _ _ _ _ Hfo) Hh)
      as (st2 & p' & loP & hiP & lv' & F' & lvL' & lvR' & R' & E2 & Hok2 & Hfo2 & Hcap2 & Ec).
    simpl fst. simpl snd. rewrite (M_bind_Ok _ _ _ _ _ E2). rewrite <- Ec. by eapply IH.
Qed.

Lemma focus_update v lo hi p es es' path lvL lvR R :
  focus v 0 lo hi p [(id_ p, es)] {[id_ p]} path lvL lvR R ->
  keysorted es' -> Forall (fun e => in_bounds lo hi e.1) es' -> 0 < length es' ->
  let p' := mkPage (id_ p) (left_ p) (right_ p) (LeafPage es') in
  focus (<[id_ p := p']> v) 0 lo hi p' [(id_ p', es')] {[id_ p']} path lvL lvR R.
Proof.
  intros [Hp Hcnt Hc Hctx Hd [Hl Hnd]] Hs HB Hlen p'. split; try done.
  - apply lookup_insert_eq.
  - by exists es'.
  - eapply ctx_agree; [exact Hctx|]. apply agree_insert. set_solver.
  - split; [by eapply linked_from_update|]. rewrite !fmap_app in *. exact Hnd.
Qed.

Lemma insert_spec st fuel key value l :
  store_ok st -> tree (view st) l -> numPages st <= fuel ->
  exists st' b l', insert maxLeafEntries_ maxNodeEntries_ fuel 1 key value st = (Ok b, st') /\
    store_ok st' /\ tree (view st') l' /\ upsert key value b l l'.
Proof.
  intros Hok (h & lv & F & (p & Hp & Hid & Hcap & Hc) & Hl & <-) Hfuel.
  assert (Hh : h < fuel).
  { pose proof (content_height _ _ _ _ _ _ _ _ _ Hc). pose proof (height_pages st F Hok) as Hn.
    eapply content_dom in Hc; [|by rewrite Hid]. specialize (Hn Hc). lia. }
  destruct (descend_spec h fuel st None None p lv F [] [] [] ∅ key)
    as (st1 & p' & path & lo & hi & es & lvL & lvR & R & E1 & (Hok1 & V1 & N1) & Hfo & Hb & Hlen & Hk & Elv);
    [done|done| |done|done|].
  { split; try done; [by rewrite Hid|]. by rewrite app_nil_r. }
  rewrite app_nil_r in Elv. simpl in Elv. rewrite Hid in E1. unfold insert. rewrite (M_bind_Ok _ _ _ _ _ E1), Hb.
  rewrite <- V1 in Hfo. pose proof (fo_content _ _ _ _ _ _ _ _ _ _ _ Hfo) as (es0 & _ & [= <-] & _ & Hs & HB).
  destruct (leaf_upsert key value es Hs) as [Hup Hs'].
  set (e := lower_bound (key_below key) es) in *.
  destruct (ctx_sides _ _ _ _ _ _ _ _ _ _ _ (fo_ctx _ _ _ _ _ _ _ _ _ _ _ Hfo)) as [HL HR].
  assert (NL : forall x, (key, x) ∉ contents lvL) by (intros x; eapply left_of_not; [done|by destruct Hk]).
  assert (NR : forall x, (key, x) ∉ contents lvR) by (intros x; eapply right_of_not; [done|by destruct Hk]).
  assert (HB' : forall es', upsert key value (holds_at key e es) es es' -> Forall (fun e => in_bounds lo hi e.1) es' /\ 0 < length es').
  { intros es' Hu. split.
    - apply Forall_forall. intros x Hx. rewrite Forall_forall in HB.
      destruct (upsert_elem _ _ _ _ _ _ Hu Hx) as [->|?]; [done|by apply HB].
    - clear -Hu. destruct (holds_at key e es); [destruct Hu as (? & ? & ? & _ & ->)|destruct Hu as (_ & ? & ? & _ & ->)];
        rewrite length_app; simpl; lia. }
  specialize (HB' _ Hup) as [HB' Hpos].
  pose proof (focus_update _ _ _ _ _ _ _ _ _ _ Hfo Hs' HB' Hpos) as Hfo'. simpl in Hfo'.
  destruct (view_ok st1 _ _ Hok1 (fo_page _ _ _ _ _ _ _ _ _ _ _ Hfo)) as [_ Hidp].
  rewrite Elv. destruct (holds_at key e es) eqn:Hh1.
  - set (q := mkPage _ _ _ _) in *. destruct (savePage_ok st1 q Hok1) as (st2 & E2 & Hok2 & V2 & N2); [done|].
    rewrite (M_bind_Ok _ _ _ _ _ E2).
    exists st2, true, (contents (lvL ++ [(id_ p', <[e := (key, value)]> es)] ++ lvR)).
    split_and!; [done..| |].
    + rewrite V2. eapply tree_of_focus; [exact Hfo'|]. unfold count_, BTreeInv.capacity, node_. simpl.
      by rewrite length_insert.
    + rewrite !contents_app. apply upsert_app; [done..|]. unfold contents. simpl. by rewrite !app_nil_r.
  - unfold insert_at. rewrite decide_True by done.
    set (es' := take e es ++ (key, value) :: drop e es) in *.
    rewrite (M_bind_Ok _ _ _ es' st1) by done.
    set (q := mkPage _ _ _ _) in *. destruct (savePage_ok st1 q Hok1) as (st2 & E2 & Hok2 & V2 & N2); [done|].
    rewrite (M_bind_Ok _ _ _ _ _ E2). change (id_ q) with (id_ p') in V2. rewrite <- V2 in Hfo'.
    destruct (splitLoop_spec _ _ _ _ _ _ _ _ _ _ _ Hok2 Hfo') as (st3 & E3 & Hok3 & Ht).
    { unfold count_, BTreeInv.capacity, node_. simpl.
      destruct Hup as (_ & l1 & l2 & Ees & ->). rewrite Ees in Hlen. rewrite length_app in *. simpl. lia. }
    rewrite (M_bind_Ok _ _ _ _ _ E3). eexists _, false, _. split_and!; [done|done|exact Ht|].
    rewrite !contents_app. apply upsert_app; [done..|]. unfold contents. simpl. by rewrite !app_nil_r.
Qed.
End Ops.
