(* ===== verification/BTreeQuery.v ===== *)
(** * The B+tree: counting and range queries

    Specifications of [count] and of the range search against any page store
    that satisfies [PageStoreLaws]. *)
From S2P Require Import Prelude Algorithms BTree BTreeInv BTreeOps.
#[local] Open Scope nat_scope.
#[local] Set Warnings "-clear-no-such-hyp".

Section Query.
Context {K V St : Type} `{KeyOrder K} `{PageStoreLaws K V St}.
Variables maxLeafEntries_ maxNodeEntries_ : nat.

Abbreviation content := (content maxLeafEntries_ maxNodeEntries_).
Abbreviation subtree := (subtree maxLeafEntries_ maxNodeEntries_).
Abbreviation capacity := (capacity maxLeafEntries_ maxNodeEntries_).
Abbreviation leaves := (list (nat * list (K * V))).

Implicit Types (st : St) (p q : page K V) (lv : leaves).

(** ** Counting *)

(** [f] returns a function of the leaves of any subtree of height [h] of the
    pages [v]. *)
Definition counts (v : gmap nat (page K V)) h (f : nat -> M St nat) : Prop :=
  forall st lo hi c lv F, store_ok st -> view st = v -> subtree v h lo hi c lv F ->
    exists st', f c st = (Ok (length (contents lv)), st') /\ same_pages st st'.

Lemma same_pages_trans st1 st2 st3 : same_pages st1 st2 -> same_pages st2 st3 -> same_pages st1 st3.
Proof. intros (? & ? & ?) (? & ? & ?). split_and!; [done|congruence..]. Qed.

Lemma count_chain v h f : counts v h f -> forall es st lo hi c lv F acc,
  store_ok st -> view st = v -> chain (subtree v h) lo hi c es lv F ->
  exists st', (n ← f c; count_children f es (acc + n)) st = (Ok (acc + length (contents lv)), st') /\
    same_pages st st'.
Proof.
  intros Hf. induction es as [|[k c'] es IH]; simpl; intros st lo hi c lv F acc Hok Hv Hc.
  - destruct (Hf _ _ _ _ _ _ Hok Hv Hc) as (st1 & E1 & Hsp). rewrite (M_bind_Ok _ _ _ _ _ E1). by exists st1.
  - destruct Hc as (lv1 & lv2 & F1 & F2 & HP & Hc & -> & -> & _).
    destruct (Hf _ _ _ _ _ _ Hok Hv HP) as (st1 & E1 & Hsp). rewrite (M_bind_Ok _ _ _ _ _ E1).
    pose proof Hsp as (Hok1 & V1 & N1).
    destruct (IH st1 _ _ _ _ _ (acc + length (contents lv1)) Hok1 ltac:(congruence) Hc) as (st2 & E2 & Hsp2).
    exists st2. split; [|by eapply same_pages_trans].
    rewrite contents_app, length_app, Nat.add_assoc. exact E2.
Qed.

Lemma count_spec h : forall fuel st lo hi p lv F,
  h < fuel -> store_ok st -> view st !! id_ p = Some p -> content (view st) h lo hi p lv F ->
  exists st', count fuel (id_ p) st = (Ok (length (contents lv)), st') /\ same_pages st st'.
Proof.
  induction h as [|h IH]; intros [|fuel] st lo hi p lv F Hf Hok Hp Hc; try lia.
  all: destruct (loadPage_ok st _ p Hok Hp) as (st1 & E1 & Hok1 & V1 & N1).
  all: cbn [count]; rewrite (M_bind_Ok _ _ _ _ _ E1).
  - destruct Hc as (es & Hb & -> & _). rewrite Hb. exists st1.
    unfold contents. simpl. by rewrite app_nil_r.
  - destruct Hc as (es & F' & Hb & _ & _ & _ & Hc). rewrite Hb.
    assert (Hcs : counts (view st) h (count fuel)).
    { intros st' lo' hi' c lv' F'' Hok' Hv (q & Hq & <- & _ & Hcon). rewrite <- Hv in *.
      eapply IH; try done. lia. }
    destruct (count_chain _ _ _ Hcs es st1 _ _ _ _ _ 0 Hok1 V1 Hc) as (st2 & E2 & Hsp).
    exists st2. split; [exact E2|]. eapply same_pages_trans; [|exact Hsp]. done.
Qed.

(** ** Leaves are not empty and not too many *)

Abbreviation nonempty := (Forall (fun x : nat * list (K * V) => x.2 <> [])).

Lemma chain_nonempty v h lo hi c es lv F :
  (forall lo hi q lv F, content v h lo hi q lv F -> 0 < count_ q -> nonempty lv) ->
  chain (subtree v h) lo hi c es lv F -> nonempty lv.
Proof.
  intros HP. revert lo c lv F. induction es as [|[k c'] es IH]; simpl; intros lo c lv F.
  - intros (q & _ & _ & [Hq _] & Hc). by eapply HP.
  - intros (lv1 & lv2 & F1 & F2 & (q & _ & _ & [Hq _] & Hc1) & Hc2 & -> & _).
    apply Forall_app. split; [by eapply HP|by eapply IH].
Qed.

Lemma content_nonempty v h : forall lo hi p lv F,
  content v h lo hi p lv F -> 0 < count_ p -> nonempty lv.
Proof.
  induction h as [|h IH]; intros lo hi p lv F Hc Hp.
  - destruct Hc as (es & Hb & -> & _). unfold count_ in Hp. rewrite Hb in Hp.
    constructor; [|constructor]. simpl. intros ->. simpl in Hp. lia.
  - destruct Hc as (es & F' & _ & _ & _ & _ & Hc). by eapply chain_nonempty.
Qed.

(** Leaves that follow a leaf are not empty, even below an empty root. *)
Lemma tail_nonempty v h lo hi p lv F lvL x lvR :
  content v h lo hi p lv F -> lv = lvL ++ [x] ++ lvR -> nonempty lvR.
Proof.
  intros Hc ->. destruct h as [|h].
  - destruct Hc as (es & _ & E & _). apply (f_equal length) in E. rewrite !length_app in E. simpl in E.
    destruct lvR; [constructor|simpl in E; lia].
  - assert (Hn : nonempty (lvL ++ [x] ++ lvR)).
    { eapply content_nonempty; [exact Hc|]. destruct Hc as (es & F' & Hb & Hne & _). unfold count_. rewrite Hb.
      destruct es; [done|simpl; lia]. }
    by apply Forall_app in Hn as [_ [_ Hn]%Forall_cons].
Qed.

Lemma chain_entries v h m lo hi c es lv F :
  (forall lo hi q lv F, content v h lo hi q lv F -> count_ q < capacity q -> length (contents lv) <= size F * m) ->
  chain (subtree v h) lo hi c es lv F -> length (contents lv) <= size F * m.
Proof.
  intros HP. revert lo c lv F. induction es as [|[k c'] es IH]; simpl; intros lo c lv F.
  - intros (q & _ & _ & [_ Hq] & Hc). by eapply HP.
  - intros (lv1 & lv2 & F1 & F2 & (q & _ & _ & [_ Hq] & Hc1) & Hc2 & -> & -> & Hd & _).
    rewrite contents_app, length_app, size_union, Nat.mul_add_distr_r by done.
    apply Nat.add_le_mono; [by eapply HP|by eapply IH].
Qed.

Lemma content_entries v h : forall lo hi p lv F,
  content v h lo hi p lv F -> count_ p < capacity p ->
  length (contents lv) <= size F * maxLeafEntries_.
Proof.
  induction h as [|h IH]; intros lo hi p lv F Hc Hp.
  - destruct Hc as (es & Hb & -> & -> & _). unfold count_, BTreeInv.capacity, node_ in Hp. rewrite Hb in Hp.
    rewrite size_singleton. unfold contents. simpl. rewrite app_nil_r. lia.
  - destruct Hc as (es & F' & _ & _ & -> & Hni & Hc). eapply chain_entries in Hc; [|exact IH].
    rewrite size_union by set_solver. lia.
Qed.

(** ** The scan along the leaves *)

Definition at_most (key2 : K) (e : K * V) : Prop := ~ klt key2 e.1.
#[export] Instance at_most_dec key2 e : Decision (at_most key2 e).
Proof. unfold at_most. apply _. Defined.

Lemma filter_above key2 k v (l : list (K * V)) :
  klt key2 k -> keysorted ((k, v) :: l) -> filter (at_most key2) ((k, v) :: l) = [].
Proof.
  intros Hk [_ Hs]%keysorted_cons. rewrite filter_cons_False by (intros Hx; by apply Hx).
  apply filter_none. eapply Forall_impl; [exact Hs|]. simpl.
  intros e He Hx. apply Hx. by trans k.
Qed.

Lemma scan_spec key2 fuel : forall st rest lv prev acc,
  store_ok st -> linked_from (view st) prev lv -> rest <> [] -> nonempty lv ->
  keysorted (rest ++ contents lv) -> length (rest ++ contents lv) < fuel ->
  exists st', scan fuel key2 rest (first_id lv) acc st
      = (Ok (acc ++ filter (at_most key2) (rest ++ contents lv)), st') /\ same_pages st st'.
Proof.
  induction fuel as [|fuel IH]; intros st rest lv prev acc Hok Hl Hne Hlv Hs Hf; [lia|].
  destruct rest as [|[k v] rest]; [done|]. cbn [scan]. case_decide as Hk.
  { exists st. cbn [app] in *. rewrite filter_above by done. by rewrite app_nil_r. }
  cbn [app] in *. pose proof Hs as [Hs' _]%keysorted_cons.
  rewrite filter_cons_True by done.
  destruct rest as [|e rest].
  - destruct lv as [|[j es] lv].
    + cbn [first_id]. rewrite decide_False by (intros Hx; by apply Hx). by exists st.
    + simpl in Hl. destruct Hl as [(q & Hq & Hb & _ & Hr) Hl]. destruct (view_ok _ _ _ Hok Hq) as [_ Hj].
      change (first_id ((j, es) :: lv)) with j. rewrite decide_True by lia.
      destruct (loadPage_ok st j q Hok Hq) as (st1 & E1 & Hok1 & V1 & N1).
      rewrite (M_bind_Ok _ _ _ _ _ E1), Hb, Hr. apply Forall_cons in Hlv as [Hes Hlv].
      rewrite <- V1 in Hl.
      destruct (IH st1 es lv j (acc ++ [(k, v)]) Hok1 Hl Hes Hlv) as (st2 & E2 & Hsp).
      * exact Hs'.
      * by apply Nat.succ_lt_mono in Hf.
      * exists st2. split; [|by eapply same_pages_trans]. rewrite E2. by rewrite <- app_assoc.
  - destruct (IH st (e :: rest) lv prev (acc ++ [(k, v)]) Hok Hl) as (st2 & E2 & Hsp); [done..|simpl in *; lia|].
    exists st2. split; [|done]. rewrite E2. by rewrite <- app_assoc.
Qed.

(** ** The range search *)

Definition in_range (key1 key2 : K) (e : K * V) : Prop := ~ klt e.1 key1 /\ at_most key2 e.
#[export] Instance in_range_dec key1 key2 e : Decision (in_range key1 key2 e).
Proof. unfold in_range. apply _. Defined.

Lemma filter_in_range key1 key2 l1 l2 :
  Forall (fun e => klt e.1 key1) l1 -> Forall (fun e => ~ klt e.1 key1) l2 ->
  filter (in_range key1 key2) (l1 ++ l2) = filter (at_most key2) l2.
Proof.
  intros HA HB. rewrite filter_app, (filter_none _ l1).
  2:{ eapply Forall_impl; [exact HA|]. intros e He [Hx _]. by apply Hx. }
  simpl. induction HB as [|e l2 He HB IH]; [done|].
  destruct (decide (at_most key2 e)).
  - rewrite !filter_cons_True by done. by f_equal.
  - by rewrite !filter_cons_False by (try done; by intros [_ ?]).
Qed.

Lemma rangeSearch_descend sfuel key1 key2 fuel : forall i path st p path' st',
  descend fuel i key1 path st = (Ok (p, path'), st') ->
  rangeSearch fuel sfuel i key1 key2 st =
    match body p with
    | NodePage _ => (Undef, st')
    | LeafPage es => match drop (lower_bound (key_below key1) es) es with
                     | [] => mret []
                     | rest => scan sfuel key2 rest (right_ p) []
                     end st'
    end.
Proof.
  induction fuel as [|fuel IH]; intros i path st p path' st'; cbn [descend rangeSearch]; [done|].
  unfold mbind, M_bind. destruct (loadPage i st) as [[q| | |] st1]; try done.
  unfold node_. destruct (body q) eqn:Hb.
  - intros [= -> -> ->]. by rewrite Hb.
  - destruct (liftM (next key1 q) st1) as [[c| | |] st2]; try done. apply IH.
Qed.

Lemma rangeSearch_spec st fuel sfuel key1 key2 l :
  3 < maxLeafEntries_ -> 3 < maxNodeEntries_ ->
  store_ok st -> tree maxLeafEntries_ maxNodeEntries_ (view st) l -> numPages st <= fuel ->
  numPages st * maxLeafEntries_ < sfuel ->
  exists st' r, rangeSearch fuel sfuel 1 key1 key2 st = (Ok r, st') /\ same_pages st st' /\
    (r = filter (in_range key1 key2) l \/ r = [] /\ forall x, (key1, x) ∉ l).
Proof.
  intros HmL HmN Hok (h & lv & F & (p & Hp & Hid & Hcap & Hc) & Hl & <-) Hfuel Hsf.
  pose proof (content_dom _ _ _ _ _ _ _ _ _ Hc ltac:(by rewrite Hid)) as Hdom.
  pose proof (height_pages _ _ HmL HmN st F Hok Hdom) as Hsz.
  pose proof (content_height _ _ _ _ _ _ _ _ _ Hc) as Hh.
  pose proof (content_entries _ _ _ _ _ _ _ Hc Hcap) as Hent.
  pose proof (content_ordered _ _ _ _ _ _ _ _ _ Hc) as [Hsort _].
  destruct (descend_spec _ _ HmL HmN h fuel st None None p lv F [] [] [] ∅ key1)
    as (st1 & p' & path & lo & hi & es & lvL & lvR & R & E1 & Hsp & Hfo & Hb & Hlen & Hk & Elv);
    [lia|done| |done|done|].
  { split; try done; [by rewrite Hid|]. by rewrite app_nil_r. }
  pose proof Hsp as (Hok1 & V1 & N1).
  rewrite app_nil_r, app_nil_l in Elv. rewrite Hid in E1.
  rewrite (rangeSearch_descend _ _ _ _ _ _ _ _ _ _ E1), Hb.
  pose proof (tail_nonempty _ _ _ _ _ _ _ _ _ _ Hc Elv) as HlvR.
  rewrite Elv in *. rewrite !contents_app in *.
  replace (contents [(id_ p', es)]) with es in * by (unfold contents; simpl; by rewrite app_nil_r).
  pose proof (fo_content _ _ _ _ _ _ _ _ _ _ _ _ _ Hfo) as (es0 & _ & [= <-] & _ & Hs & HB).
  destruct (ctx_sides _ _ _ _ _ _ _ _ _ _ _ (fo_ctx _ _ _ _ _ _ _ _ _ _ _ _ _ Hfo)) as [HL HR].
  destruct (lower_bound_cases key1 es Hs) as (l1 & l2 & -> & Elb & HA & HB2).
  rewrite Elb, drop_app_length.
  assert (HLk : Forall (fun e => klt e.1 key1) (contents lvL ++ l1)).
  { apply Forall_app. split; [|done]. eapply Forall_impl; [exact HL|]. simpl. intros e He.
    destruct lo as [b|]; [|done]. destruct Hk as [Hk _]. by eapply klt_lo_le. }
  assert (HRk : Forall (fun e => ~ klt e.1 key1 /\ e.1 <> key1) (contents lvR)).
  { eapply Forall_impl; [exact HR|]. simpl. intros e He. destruct hi as [b|]; [|done].
    destruct Hk as [_ Hk]. simpl in Hk. split; [intros Hx; apply He; by trans key1|intros Hx; apply He; by rewrite Hx]. }
  assert (HBk : Forall (fun e => ~ klt e.1 key1) l2).
  { destruct HB2 as [(x & l3 & -> & H3)|H3]; [constructor; [apply klt_irrefl|]|];
      (eapply Forall_impl; [exact H3|]; intros e He; by apply klt_asym). }
  destruct (linked_from_app _ _ _ _ _ _ (proj1 Hl)) as (p0 & Hp0 & _ & Hr & Hlf).
  assert (p0 = p') as -> by (pose proof (fo_page _ _ _ _ _ _ _ _ _ _ _ _ _ Hfo); congruence).
  destruct l2 as [|e l2].
  - exists st1, []. split_and!; [done..|]. right. split; [done|]. intros x Hx.
    assert (Hx' : (key1, x) ∈ (contents lvL ++ l1) ++ contents lvR) by set_solver.
    apply elem_of_app in Hx' as [Hx'|Hx']; [rewrite Forall_forall in HLk; apply HLk in Hx'; by apply klt_irrefl in Hx'|].
    rewrite Forall_forall in HRk. by apply HRk in Hx' as [_ Hx'].
  - rewrite Hr. rewrite <- V1 in Hlf.
    destruct (scan_spec key2 sfuel st1 (e :: l2) lvR _ [] Hok1 Hlf) as (st2 & E2 & Hsp2); [done|done| | |].
    { rewrite <- app_assoc, app_assoc in Hsort. by apply keysorted_app in Hsort as (_ & Hsort & _). }
    { rewrite !length_app in *. nia. }
    exists st2. eexists. split; [exact E2|]. split; [by eapply same_pages_trans|]. left.
    rewrite <- app_assoc, app_assoc, filter_in_range; [done..|].
    apply Forall_app. split; [done|]. eapply Forall_impl; [exact HRk|]. by intros ? [? _].
Qed.
End Query.
