(* ===== verification/BTreeSpec.v ===== *)
(** * The B+tree: refinement of a finite map

    The public operations of [BTree] on a cached file refine the operations of
    a finite map, across flushes and reopening of the file. *)
From S2P Require Import Prelude Algorithms BTree BTreeStore BTreeInv BTreeOps BTreeQuery.
#[local] Open Scope nat_scope.
#[local] Set Warnings "-clear-no-such-hyp".

(** ** Entry lists as maps *)

Section Maps.
Context {K V : Type} `{KeyOrder K} `{!Countable K}.
Implicit Types (l : list (K * V)).

Lemma keysorted_nodup l : keysorted l -> NoDup l.*1.
Proof.
  induction l as [|[k v] l IH]; intros Hs; [constructor|]. apply keysorted_cons in Hs as [Hs Hk].
  simpl. apply NoDup_cons. split; [|by apply IH]. intros ([k' v'] & Heq & Hin)%list_elem_of_fmap. simpl in Heq.
  subst k'. rewrite Forall_forall in Hk. apply Hk in Hin. by apply klt_irrefl in Hin.
Qed.

Lemma keysorted_filter (P : K * V -> Prop) `{forall x, Decision (P x)} l :
  keysorted l -> keysorted (filter P l).
Proof.
  induction l as [|e l IH]; [done|]. intros [Hs Hk]%keysorted_cons. rewrite filter_cons.
  case_decide; [|by apply IH]. apply keysorted_cons. split; [by apply IH|].
  apply Forall_forall. intros x [_ Hx]%list_elem_of_filter. rewrite Forall_forall in Hk. by apply Hk.
Qed.

Lemma NoDup_fst_filter (P : K * V -> Prop) `{forall x, Decision (P x)} l : NoDup l.*1 -> NoDup (filter P l).*1.
Proof.
  induction l as [|e l IH]; [done|]. intros [Hn Hd]%NoDup_cons. rewrite filter_cons.
  case_decide; [|by apply IH]. apply NoDup_cons. split; [|by apply IH].
  intros (x & Hx & [_ Hin]%list_elem_of_filter)%list_elem_of_fmap. apply Hn. rewrite Hx. by apply list_elem_of_fmap_2.
Qed.

Lemma found_lookup key r l :
  keysorted l -> found key r l -> r = (list_to_map l : gmap K V) !! key.
Proof.
  intros Hs%keysorted_nodup Hr. symmetry. destruct r as [x|]; simpl in Hr.
  - by apply elem_of_list_to_map_1.
  - apply not_elem_of_list_to_map_1. intros ([k x] & -> & Hin)%list_elem_of_fmap. by apply (Hr x).
Qed.

Lemma upsert_map key value b l l' :
  keysorted l -> upsert key value b l l' ->
  b = bool_decide (is_Some ((list_to_map l : gmap K V) !! key)) /\
  (list_to_map l' : gmap K V) = <[key := value]> (list_to_map l).
Proof.
  intros Hs%keysorted_nodup Hu. destruct b; simpl in Hu.
  - destruct Hu as (l1 & x & l2 & -> & ->). split.
    + symmetry. apply bool_decide_eq_true. exists x. apply elem_of_list_to_map_1; [done|]. set_solver.
    + rewrite fmap_app in Hs. simpl in Hs. apply NoDup_app in Hs as (_ & Hs & _).
      rewrite !list_to_map_app. simpl.
      rewrite <- !insert_union_r, insert_insert_eq; [done|..];
        apply not_elem_of_list_to_map_1; intros Hx; apply (Hs _ Hx); set_solver.
  - destruct Hu as (Hno & l1 & l2 & -> & ->). split.
    + symmetry. apply bool_decide_eq_false. intros [x Hx%elem_of_list_to_map_2]. by apply (Hno x).
    + rewrite !list_to_map_app. simpl. rewrite insert_union_r; [done|].
      apply not_elem_of_list_to_map_1. intros ([k x] & -> & Hin)%list_elem_of_fmap. apply (Hno x). set_solver.
Qed.
End Maps.

(** ** The representation relation *)

Section Refine.
Context {K V : Type} `{KeyOrder K} `{!Countable K}.
Variables maxLeafEntries_ maxNodeEntries_ : nat.

Abbreviation state := (Cached.t K V).
Implicit Types (s : state) (m : gmap K V).

(** The entries of the tree in [s], in key order. *)
Definition holds s (l : list (K * V)) : Prop :=
  cached_ok s /\ tree maxLeafEntries_ maxNodeEntries_ (cached_view s) l.

Definition represents s m : Prop := exists l, holds s l /\ keysorted l /\ m = list_to_map l.

Lemma tree_sorted v (l : list (K * V)) : tree maxLeafEntries_ maxNodeEntries_ v l -> keysorted l.
Proof. intros (h & lv & F & (p & _ & _ & _ & Hc) & _ & <-). by eapply content_ordered. Qed.

Lemma represents_intro s l : holds s l -> represents s (list_to_map l).
Proof. intros Hh. exists l. split_and!; [done| |done]. destruct Hh as [_ Ht]. by eapply tree_sorted. Qed.

Lemma holds_same s s' l : holds s l -> same_pages s s' -> holds s' l.
Proof. intros [_ Ht] (Hok & Hv & _). split; [done|]. simpl in Hv. by rewrite Hv. Qed.

Lemma represents_same s s' m : represents s m -> same_pages s s' -> represents s' m.
Proof. intros (l & Hh & Hs & ->) Hsp. exists l. split; [by eapply holds_same|done]. Qed.

Lemma open_represents :
  exists s, BTree_open false [] = (Ok tt, s) /\ (0 < maxLeafEntries_ -> represents s ∅).
Proof.
  destruct (cached_new (Cached.mk [] ∅ false true true : state)) as (s' & E & Hok & V1 & N1).
  { split; simpl; intros *; rewrite ?lookup_empty; done. }
  unfold BTree_open. rewrite decide_True by (simpl; lia).
  exists s'. split; [cbv zeta; rewrite (M_bind_Ok _ _ _ _ _ E); done|]. intros Hm.
  apply (represents_intro _ []). split; [done|]. rewrite V1. simpl.
  exists 0, [(1, [])], {[1]}. split; [|split; [|done]].
  - eexists. rewrite lookup_insert_eq. split_and!; [done|done|done|]. exists []. split_and!; try done; constructor.
  - split; [|apply NoDup_singleton]. simpl. split; [|done]. eexists. by rewrite lookup_insert_eq.
Qed.

Section Ops.
Hypothesis maxLeaf_gt : 3 < maxLeafEntries_.
Hypothesis maxNode_gt : 3 < maxNodeEntries_.
#[local] Set Default Proof Using "All".

Lemma set_represents s m key value :
  represents s m ->
  exists s', set maxLeafEntries_ maxNodeEntries_ key value s
      = (Ok (bool_decide (is_Some (m !! key))), s') /\
    represents s' (<[key := value]> m).
Proof.
  intros (l & [Hok Ht] & Hs & ->).
  destruct (insert_spec _ _ maxLeaf_gt maxNode_gt s (length (Cached.file_ s)) key value l)
    as (s' & b & l' & E & Hok' & Ht' & Hu); [done..|].
  destruct (upsert_map _ _ _ _ _ Hs Hu) as [-> <-]. exists s'. split; [exact E|]. by apply represents_intro.
Qed.

Lemma root_fuel s l : holds s l -> exists h lv F p,
  h < length (Cached.file_ s) /\ cached_view s !! 1 = Some p /\ id_ p = 1 /\
  content maxLeafEntries_ maxNodeEntries_ (cached_view s) h None None p lv F /\ contents lv = l.
Proof.
  intros [Hok (h & lv & F & (p & Hp & Hid & _ & Hc) & _ & <-)]. exists h, lv, F, p. split_and!; try done.
  pose proof (content_dom _ _ _ _ _ _ _ _ _ Hc ltac:(by rewrite Hid)) as Hdom.
  assert (size F <= numPages s) by by apply (height_pages _ _ maxLeaf_gt maxNode_gt).
  pose proof (content_height _ _ _ _ _ _ _ _ _ Hc). simpl in *. lia.
Qed.

Lemma get_represents s m key :
  represents s m -> exists s', get key s = (Ok (m !! key), s') /\ represents s' m.
Proof.
  intros (l & Hh & Hs & ->). destruct (root_fuel _ _ Hh) as (h & lv & F & p & Hf & Hp & Hid & Hc & <-).
  destruct (search_spec _ _ maxLeaf_gt maxNode_gt h (length (Cached.file_ s)) s None None p lv F key)
    as (s' & r & E & Hsp & Hr); [done|apply Hh|by rewrite Hid|done|done|].
  rewrite Hid in E. rewrite <- (found_lookup _ _ _ Hs Hr). exists s'. split; [exact E|].
  eapply represents_same; [by apply represents_intro|done].
Qed.

Lemma count_represents s m :
  represents s m -> exists s', countAll s = (Ok (size m), s') /\ represents s' m.
Proof.
  intros (l & Hh & Hs & ->). destruct (root_fuel _ _ Hh) as (h & lv & F & p & Hf & Hp & Hid & Hc & <-).
  destruct (count_spec maxLeafEntries_ maxNodeEntries_ h (length (Cached.file_ s)) s None None p lv F)
    as (s' & E & Hsp); [done|apply Hh|by rewrite Hid|done|].
  rewrite Hid in E. exists s'. split; [|eapply represents_same; [by apply represents_intro|done]].
  rewrite map_size_list_to_map by by apply keysorted_nodup. exact E.
Qed.

(** Closing flushes; opening the file again gives the same map. *)
Lemma reopen_represents s m :
  represents s m ->
  exists s', Cached.flush s = (Ok tt, s') /\ represents s' m /\
    exists s'', BTree_open false (Cached.file_ s') = (Ok tt, s'') /\ represents s'' m.
Proof.
  intros (l & [Hok Ht] & Hs & ->). destruct (flush_spec s Hok) as (s' & E & Hok' & V' & Hf).
  exists s'. split; [done|]. split; [apply represents_intro; split; [done|by rewrite V']|].
  assert (H1 : is_Some (cached_view s !! 1)) by (destruct Ht as (? & ? & ? & (? & Hp & _) & _); by eexists).
  unfold BTree_open. rewrite decide_False.
  2:{ intros N. assert (length (Cached.file_ s') = 0) as N'%nil_length_inv by lia.
      rewrite <- Hf, N' in H1. by destruct H1. }
  eexists. split; [done|]. apply represents_intro. split.
  - split; simpl; intros *; rewrite ?lookup_empty; [done|by apply (ok_file _ Hok')|done|done].
  - unfold cached_view. simpl. by rewrite fmap_empty, map_empty_union, Hf.
Qed.

Lemma range_represents s m key1 key2 :
  represents s m ->
  exists s' r, range maxLeafEntries_ key1 key2 s = (Ok r, s') /\ represents s' m /\
    keysorted r /\
    (r ≡ₚ map_to_list (filter (in_range key1 key2) m) \/ r = [] /\ m !! key1 = None).
Proof.
  intros (l & Hh & Hs & ->).
  destruct (rangeSearch_spec maxLeafEntries_ maxNodeEntries_ s (length (Cached.file_ s))
              (S (length (Cached.file_ s) * maxLeafEntries_)) key1 key2 l)
    as (s' & r & E & Hsp & Hr); [done|done|apply Hh|apply Hh|done|simpl; lia|].
  exists s', r. split; [exact E|]. split; [eapply represents_same; [by apply represents_intro|done]|].
  pose proof (keysorted_nodup _ Hs) as Hnd. destruct Hr as [->|[-> Hno]].
  - split; [by apply keysorted_filter|]. left. rewrite map_filter_alt, map_to_list_to_map.
    + by rewrite map_to_list_to_map.
    + apply NoDup_fst_filter, NoDup_fst_map_to_list.
  - split; [constructor|]. right. split; [done|]. apply not_elem_of_list_to_map_1.
    intros ([k x] & -> & Hin)%list_elem_of_fmap. by apply (Hno x).
Qed.
End Ops.
End Refine.

(** ** Sessions *)

Section Session.
Context {K V : Type} `{KeyOrder K} `{!Countable K}.
Variables maxLeafEntries_ maxNodeEntries_ : nat.

(** Calls of a client; [Reopen] destroys the object and opens the file again. *)
Inductive call : Type :=
| Set_ (key : K) (value : V)
| Get (key : K)
| Count
| Flush
| Reopen.

Inductive reply : Type :=
| Replaced (b : bool)
| Value (r : option V)
| Number (n : nat)
| Done.

(** [~BTree] and the constructor on the same file. *)
Definition reopen : M (Cached.t K V) unit :=
  Cached.flush ;; s ← getM;
  ((fun _ => BTree_open false (Cached.file_ s)) : M (Cached.t K V) unit).

Definition serve (c : call) : M (Cached.t K V) reply :=
  match c with
  | Set_ k v => b ← set maxLeafEntries_ maxNodeEntries_ k v; mret (Replaced b)
  | Get k => r ← get k; mret (Value r)
  | Count => n ← countAll; mret (Number n)
  | Flush => Cached.flush ;; mret Done
  | Reopen => reopen ;; mret Done
  end.

(** The same calls on a finite map. *)
Definition serve_map (c : call) (m : gmap K V) : reply * gmap K V :=
  match c with
  | Set_ k v => (Replaced (bool_decide (is_Some (m !! k))), <[k := v]> m)
  | Get k => (Value (m !! k), m)
  | Count => (Number (size m), m)
  | Flush | Reopen => (Done, m)
  end.

Fixpoint session (cs : list call) : M (Cached.t K V) (list reply) :=
  match cs with
  | [] => mret []
  | c :: cs => r ← serve c; rs ← session cs; mret (r :: rs)
  end.

Fixpoint session_map (cs : list call) (m : gmap K V) : list reply * gmap K V :=
  match cs with
  | [] => ([], m)
  | c :: cs => let '(r, m1) := serve_map c m in
               let '(rs, m2) := session_map cs m1 in (r :: rs, m2)
  end.

Hypothesis maxLeaf_gt : 3 < maxLeafEntries_.
Hypothesis maxNode_gt : 3 < maxNodeEntries_.
#[local] Set Default Proof Using "All".

Lemma serve_refines c s m :
  represents maxLeafEntries_ maxNodeEntries_ s m ->
  exists s', serve c s = (Ok (serve_map c m).1, s') /\
    represents maxLeafEntries_ maxNodeEntries_ s' (serve_map c m).2.
Proof.
  intros Hr. destruct c as [k v|k| | |]; simpl.
  - destruct (set_represents _ _ maxLeaf_gt maxNode_gt s m k v Hr) as (s' & E & Hr').
    exists s'. by rewrite (M_bind_Ok _ _ _ _ _ E).
  - destruct (get_represents _ _ maxLeaf_gt maxNode_gt s m k Hr) as (s' & E & Hr').
    exists s'. by rewrite (M_bind_Ok _ _ _ _ _ E).
  - destruct (count_represents _ _ maxLeaf_gt maxNode_gt s m Hr) as (s' & E & Hr').
    exists s'. by rewrite (M_bind_Ok _ _ _ _ _ E).
  - destruct (reopen_represents _ _ maxLeaf_gt maxNode_gt s m Hr) as (s' & E & Hr' & _).
    exists s'. by rewrite (M_bind_Ok _ _ _ _ _ E).
  - destruct (reopen_represents _ _ maxLeaf_gt maxNode_gt s m Hr) as (s' & E & _ & s'' & E' & Hr').
    exists s''. split; [|done]. unfold reopen.
    rewrite (M_bind_Ok _ _ _ tt s''); [done|]. by rewrite (M_bind_Ok _ _ _ _ _ E).
Qed.

Lemma session_refines cs : forall s m,
  represents maxLeafEntries_ maxNodeEntries_ s m ->
  exists s', session cs s = (Ok (session_map cs m).1, s') /\
    represents maxLeafEntries_ maxNodeEntries_ s' (session_map cs m).2.
Proof.
  induction cs as [|c cs IH]; intros s m Hr; cbn [session session_map]; [by exists s|].
  destruct (serve_refines c s m Hr) as (s1 & E1 & Hr1). rewrite (M_bind_Ok _ _ _ _ _ E1).
  destruct (serve_map c m) as [r m1]. simpl in *.
  destruct (IH s1 m1 Hr1) as (s2 & E2 & Hr2). rewrite (M_bind_Ok _ _ _ _ _ E2).
  destruct (session_map cs m1) as [rs m2]. simpl in *. by exists s2.
Qed.
End Session.
Arguments call : clear implicits.
Arguments reply : clear implicits.

(** ** Properties *)

(** C2. Any sequence of [set], [get], [count], [flush] and close-and-reopen
    calls on a new tree gives the replies of a finite map; in particular the
    calls terminate, throw nothing and never leave an array. *)
Theorem btree_refines_map {K V : Type} `{KeyOrder K, !Countable K} (maxLeafEntries_ maxNodeEntries_ : nat)
    (cs : list (call K V)) :
  3 < maxLeafEntries_ -> 3 < maxNodeEntries_ ->
  exists s0 s, BTree_open false [] = (Ok tt, s0) /\
    session maxLeafEntries_ maxNodeEntries_ cs s0 = (Ok (session_map cs ∅).1, s) /\
    represents maxLeafEntries_ maxNodeEntries_ s (session_map cs ∅).2.
Proof.
  intros HL HN. destruct (open_represents (V := V) maxLeafEntries_ maxNodeEntries_) as (s0 & E0 & Hr0).
  destruct (session_refines _ _ HL HN cs s0 ∅) as (s & E & Hr); [apply Hr0; lia|]. by exists s0, s.
Qed.

(** [set] on a tree that represents the map [m] binds the key, reports
    whether it was bound before, and leaves a tree that satisfies the invariant:
    sorted and linked leaves, separators that bound the subtrees, no shared and
    no full page. *)
Theorem btree_set_correct {K V : Type} `{KeyOrder K, !Countable K} (maxLeafEntries_ maxNodeEntries_ : nat)
    (s : Cached.t K V) (m : gmap K V) (key : K) (value : V) :
  3 < maxLeafEntries_ -> 3 < maxNodeEntries_ -> represents maxLeafEntries_ maxNodeEntries_ s m ->
  exists s', set maxLeafEntries_ maxNodeEntries_ key value s = (Ok (bool_decide (is_Some (m !! key))), s') /\
    represents maxLeafEntries_ maxNodeEntries_ s' (<[key := value]> m).
Proof. intros HL HN. by apply set_represents. Qed.

(** C28. [flush] makes the tree durable: a tree opened on the flushed file
    represents the same map. *)
Theorem btree_flush_durable {K V : Type} `{KeyOrder K, !Countable K} (maxLeafEntries_ maxNodeEntries_ : nat)
    (s : Cached.t K V) (m : gmap K V) :
  3 < maxLeafEntries_ -> 3 < maxNodeEntries_ -> represents maxLeafEntries_ maxNodeEntries_ s m ->
  exists s', Cached.flush s = (Ok tt, s') /\ represents maxLeafEntries_ maxNodeEntries_ s' m /\
    exists s'', BTree_open false (Cached.file_ s') = (Ok tt, s'') /\
      represents maxLeafEntries_ maxNodeEntries_ s'' m.
Proof. intros HL HN. by apply reopen_represents. Qed.

(** A range query returns entries in key order: exactly the bindings of
    the map between the two keys when the lower one is bound. *)
Theorem btree_range_from_bound_key {K V : Type} `{KeyOrder K, !Countable K} (maxLeafEntries_ maxNodeEntries_ : nat)
    (s : Cached.t K V) (m : gmap K V) (key1 key2 : K) :
  3 < maxLeafEntries_ -> 3 < maxNodeEntries_ -> represents maxLeafEntries_ maxNodeEntries_ s m ->
  is_Some (m !! key1) ->
  exists s' r, range maxLeafEntries_ key1 key2 s = (Ok r, s') /\
    represents maxLeafEntries_ maxNodeEntries_ s' m /\ keysorted r /\
    r ≡ₚ map_to_list (filter (in_range key1 key2) m).
Proof.
  intros HL HN Hr [x Hx]. destruct (range_represents _ _ HL HN s m key1 key2 Hr) as (s' & r & E & Hr' & Hs & Hc).
  exists s', r. split_and!; try done. destruct Hc as [Hc|[_ Hc]]; [done|congruence].
Qed.

(** Fifteen keys in small pages, with a leaf that ends before 8. *)
Definition range_example : Cached.t Z Z :=
  (session 4 4 ((fun k => Set_ k k) <$> [1; 3; 5; 7; 9; 11; 13; 15; 17; 19; 21; 23; 2; 4; 6]%Z)
     (BTree_open false []).2).2.

(** A range query whose lower key falls after the last entry of its leaf
    returns nothing, although later leaves hold entries of the range: the query
    8..15 is empty on a tree that holds 9. *)
Theorem btree_range_misses_entries :
  (range 4 8%Z 15%Z range_example).1 = Ok [] /\ (get 9%Z range_example).1 = Ok (Some 9%Z).
Proof. split; vm_compute; reflexivity. Qed.

(** ** Witnesses *)

Lemma example_represents :
  exists m, represents 4 4 range_example m /\ m !! 9%Z = Some 9%Z.
Proof.
  destruct (open_represents (K := Z) (V := Z) 4 4) as (s0 & E0 & Hr0).
  destruct (session_refines 4 4 ltac:(lia) ltac:(lia)
    ((fun k => Set_ k k) <$> [1; 3; 5; 7; 9; 11; 13; 15; 17; 19; 21; 23; 2; 4; 6]%Z) s0 ∅)
    as (s & E & Hr); [apply Hr0; lia|].
  eexists. split; [|shelve]. unfold range_example. rewrite E0. cbn [snd]. rewrite E. exact Hr.
  Unshelve. vm_compute. reflexivity.
Qed.

Lemma btree_refines_map_witness :
  exists s0 s, BTree_open false [] = (Ok tt, s0) /\
    session 4 4 [Set_ 1%Z 10%Z; Get 1%Z; Reopen; Get 1%Z; Count] s0
      = (Ok [Replaced false; Value (Some 10%Z); Done; Value (Some 10%Z); Number 1], s).
Proof.
  destruct (btree_refines_map 4 4 [Set_ 1%Z 10%Z; Get 1%Z; Reopen; Get 1%Z; Count]) as (s0 & s & E0 & E & _);
    [lia|lia|].
  exists s0, s. split; [exact E0|exact E].
Defined.

Lemma btree_set_correct_witness :
  exists m s', represents 4 4 range_example m /\ set 4 4 9%Z 0%Z range_example = (Ok true, s').
Proof.
  destruct example_represents as (m & Hr & H9).
  destruct (btree_set_correct 4 4 range_example m 9%Z 0%Z ltac:(lia) ltac:(lia) Hr) as (s' & E & _).
  exists m, s'. split; [exact Hr|]. rewrite E, H9. reflexivity.
Defined.

Lemma btree_flush_durable_witness :
  exists m s', represents 4 4 range_example m /\ Cached.flush range_example = (Ok tt, s').
Proof.
  destruct example_represents as (m & Hr & H9).
  destruct (btree_flush_durable 4 4 range_example m ltac:(lia) ltac:(lia) Hr) as (s' & E & _).
  exists m, s'. split; [exact Hr|exact E].
Defined.

Lemma btree_range_from_bound_key_witness :
  exists m s' r, represents 4 4 range_example m /\ range 4 9%Z 15%Z range_example = (Ok r, s').
Proof.
  destruct example_represents as (m & Hr & H9).
  destruct (btree_range_from_bound_key 4 4 range_example m 9%Z 15%Z ltac:(lia) ltac:(lia) Hr (mk_is_Some _ _ H9))
    as (s' & r & E & _).
  exists m, s', r. split; [exact Hr|exact E].
Defined.
