(* ===== verification/CacheLRU.v ===== *)
(** * The least-recently-used cache

    [container/CacheLRU.h] and [container/CacheLRU.cc].  Entries are kept in a
    doubly linked list, most recently used first, with a map from keys to list
    iterators.  A list iterator is the identity of a node: the model gives every
    node a number, so that moving a node keeps the iterators to it valid, and
    following an iterator to an erased node is undefined.

    The calls of the purge handler are recorded, in order. *)
From S2P Require Import Prelude.
#[local] Open Scope nat_scope.
#[local] Set Warnings "-clear-no-such-hyp".

Section LRU.
Context {K V : Type} `{Countable K}.

(** A node of the list: its identity and its [Entry]. *)
Record node : Type := mkNode { node_id : nat; key_ : K; value_ : V }.

Record CacheLRU : Type := mkLRU {
  storage_ : list node;
  map_ : gmap K nat;
  capacity_ : nat;
  purge_ : bool;              (* a purge handler is set *)
  purged : list (K * V);      (* calls of the handler, oldest first *)
  next_id : nat;              (* identity of the next node to be allocated *)
}.

Definition set_storage (l : list node) (c : CacheLRU) : CacheLRU :=
  mkLRU l (map_ c) (capacity_ c) (purge_ c) (purged c) (next_id c).
Definition set_map (m : gmap K nat) (c : CacheLRU) : CacheLRU :=
  mkLRU (storage_ c) m (capacity_ c) (purge_ c) (purged c) (next_id c).

Definition CacheLRU_new (capacity : nat) (handler : bool) : CacheLRU := mkLRU [] ∅ capacity handler [] 0.

(** Following an iterator. *)
Definition deref (itr : nat) (c : CacheLRU) : outcome node :=
  match List.find (fun n => node_id n =? itr) (storage_ c) with Some n => Ok n | None => Undef end.

(** [storage_.erase(itr)] on the list itself. *)
Definition list_erase (itr : nat) (l : list node) : list node := List.filter (fun n => negb (node_id n =? itr)) l.

Definition purge (key : K) (value : V) : M CacheLRU unit :=
  modifyM (fun c => if purge_ c
                    then mkLRU (storage_ c) (map_ c) (capacity_ c) (purge_ c) (purged c ++ [(key, value)]) (next_id c)
                    else c).

(** [erase(itr)]: [key] is the key of the map iterator, [itr] its list iterator. *)
Definition erase (key : K) (itr : nat) : M CacheLRU unit :=
  c ← getM;
  n ← liftM (deref itr c);
  putM (set_map (delete key (map_ c)) (set_storage (list_erase itr (storage_ c)) c)).

(** [while (map_.size() > capacity_)] *)
Fixpoint trim (fuel : nat) : M CacheLRU unit :=
  match fuel with
  | O => liftM NoFuel
  | S f =>
      c ← getM;
      if decide (capacity_ c < size (map_ c)) then
        match last (storage_ c) with
        | None => liftM Undef
        | Some entry =>
            purge (key_ entry) (value_ entry) ;;
            modifyM (fun c => set_map (delete (key_ entry) (map_ c)) c) ;;
            modifyM (fun c => set_storage (take (length (storage_ c) - 1) (storage_ c)) c) ;;
            trim f
        end
      else mret tt
  end.

Definition push_front (key : K) (value : V) : M CacheLRU unit :=
  modifyM (fun c => mkLRU (mkNode (next_id c) key value :: storage_ c) (<[key := next_id c]> (map_ c))
                      (capacity_ c) (purge_ c) (purged c) (S (next_id c))).

Definition insert (key : K) (value : V) : M CacheLRU bool :=
  c ← getM;
  existed ← match map_ c !! key with
            | Some itr => erase key itr ;; mret true
            | None => mret false
            end;
  push_front key value ;;
  c ← getM;
  trim (S (size (map_ c))) ;;
  mret existed.

(** [storage_.splice(storage_.begin(), storage_, itr)] *)
Definition moveToFront (itr : nat) : M CacheLRU unit :=
  c ← getM;
  n ← liftM (deref itr c);
  putM (set_storage (n :: list_erase itr (storage_ c)) c).

Definition access (key : K) : M CacheLRU V :=
  c ← getM;
  match storage_ c with
  | n :: _ =>
      if decide (key_ n = key) then mret (value_ n)
      else
        match map_ c !! key with
        | Some itr => moveToFront itr ;; c ← getM; n ← liftM (deref itr c); mret (value_ n)
        | None => throwM OutOfRange
        end
  | [] =>
      match map_ c !! key with
      | Some itr => moveToFront itr ;; c ← getM; n ← liftM (deref itr c); mret (value_ n)
      | None => throwM OutOfRange
      end
  end.

Definition extract (key : K) : M CacheLRU V :=
  c ← getM;
  match map_ c !! key with
  | None => throwM OutOfRange
  | Some itr => n ← liftM (deref itr c); erase key itr ;; mret (value_ n)
  end.

Definition remove (key : K) : M CacheLRU bool :=
  c ← getM;
  match map_ c !! key with
  | Some itr => n ← liftM (deref itr c); purge (key_ n) (value_ n) ;; erase key itr ;; mret true
  | None => mret false
  end.

Definition exists_ (key : K) : M CacheLRU bool := c ← getM; mret (bool_decide (is_Some (map_ c !! key))).

Fixpoint purge_all (l : list node) : M CacheLRU unit :=
  match l with [] => mret tt | n :: l => purge (key_ n) (value_ n) ;; purge_all l end.

Definition clear : M CacheLRU unit :=
  c ← getM;
  purge_all (storage_ c) ;;
  modifyM (fun c => set_map ∅ (set_storage [] c)).

Definition set_capacity (size' : nat) : M CacheLRU unit :=
  modifyM (fun c => mkLRU (storage_ c) (map_ c) size' (purge_ c) (purged c) (next_id c)) ;;
  c ← getM;
  trim (S (size (map_ c))).

(** ** Specification: a list of bindings, most recent first *)

Definition without (key : K) (l : list (K * V)) : list (K * V) := List.filter (fun e => negb (bool_decide (e.1 = key))) l.

Fixpoint assoc (key : K) (l : list (K * V)) : option V :=
  match l with [] => None | (k, v) :: l => if decide (k = key) then Some v else assoc key l end.

Record spec : Type := mkSpec { entries : list (K * V); cap : nat; handler : bool; calls : list (K * V) }.

(** Entries beyond the capacity are purged, the oldest first. *)
Definition spec_trim (s : spec) : spec :=
  mkSpec (take (cap s) (entries s)) (cap s) (handler s)
    (if handler s then calls s ++ rev (drop (cap s) (entries s)) else calls s).

Inductive op : Type :=
| Insert (k : K) (v : V) | Access (k : K) | Extract (k : K) | Remove (k : K) | Exists (k : K) | Clear | Resize (n : nat).

Inductive result : Type := RBool (b : bool) | RValue (v : V) | RUnit | RThrow (e : exn).

Definition spec_step (o : op) (s : spec) : result * spec :=
  let at_ l c := mkSpec l (cap s) (handler s) c in
  match o with
  | Insert k v =>
      (RBool (bool_decide (is_Some (assoc k (entries s)))), spec_trim (at_ ((k, v) :: without k (entries s)) (calls s)))
  | Access k =>
      match assoc k (entries s) with
      | Some v => (RValue v, at_ ((k, v) :: without k (entries s)) (calls s))
      | None => (RThrow OutOfRange, s)
      end
  | Extract k =>
      match assoc k (entries s) with
      | Some v => (RValue v, at_ (without k (entries s)) (calls s))
      | None => (RThrow OutOfRange, s)
      end
  | Remove k =>
      match assoc k (entries s) with
      | Some v => (RBool true, at_ (without k (entries s)) (if handler s then calls s ++ [(k, v)] else calls s))
      | None => (RBool false, s)
      end
  | Exists k => (RBool (bool_decide (is_Some (assoc k (entries s)))), s)
  | Clear => (RUnit, at_ [] (if handler s then calls s ++ entries s else calls s))
  | Resize n => (RUnit, spec_trim (mkSpec (entries s) n (handler s) (calls s)))
  end.

(** The same operations on the object; an exception is a result. *)
Definition catch {A} (m : M CacheLRU A) (f : A -> result) : M CacheLRU result := fun c =>
  match m c with
  | (Ok a, c') => (Ok (f a), c')
  | (Throw e, c') => (Ok (RThrow e), c')
  | (Undef, c') => (Undef, c')
  | (NoFuel, c') => (NoFuel, c')
  end.

Definition step (o : op) : M CacheLRU result :=
  match o with
  | Insert k v => catch (insert k v) RBool
  | Access k => catch (access k) RValue
  | Extract k => catch (extract k) RValue
  | Remove k => catch (remove k) RBool
  | Exists k => catch (exists_ k) RBool
  | Clear => catch clear (fun _ => RUnit)
  | Resize n => catch (set_capacity n) (fun _ => RUnit)
  end.

Fixpoint run (os : list op) : M CacheLRU (list result) :=
  match os with [] => mret [] | o :: os => r ← step o; rs ← run os; mret (r :: rs) end.

Fixpoint spec_run (os : list op) (s : spec) : list result * spec :=
  match os with
  | [] => ([], s)
  | o :: os => let '(r, s1) := spec_step o s in let '(rs, s2) := spec_run os s1 in (r :: rs, s2)
  end.

(** ** The representation invariant *)

Implicit Types (l : list node) (c : CacheLRU) (s : spec).

Definition ids l : list nat := node_id <$> l.
Definition keys l : list K := key_ <$> l.
Definition binding (n : node) : K * V := (key_ n, value_ n).
Definition binds l : list (K * V) := binding <$> l.
Definition index l : gmap K nat := list_to_map ((fun n => (key_ n, node_id n)) <$> l).

Record nodes_ok l (next : nat) : Prop := {
  ok_ids : NoDup (ids l);
  ok_keys : NoDup (keys l);
  ok_next : Forall (fun n => node_id n < next) l;
}.

(** The object [c] implements the list of bindings [s]. *)
Record implements c s : Prop := {
  im_nodes : nodes_ok (storage_ c) (next_id c);
  im_map : map_ c = index (storage_ c);
  im_entries : entries s = binds (storage_ c);
  im_cap : cap s = capacity_ c;
  im_handler : handler s = purge_ c;
  im_calls : calls s = purged c;
}.

Lemma index_keys l : ((fun n => (key_ n, node_id n)) <$> l).*1 = keys l.
Proof. unfold keys. rewrite <- list_fmap_compose. done. Qed.

Lemma index_size l next : nodes_ok l next -> size (index l) = length l.
Proof.
  intros Hok. unfold index. rewrite map_size_list_to_map by (rewrite index_keys; apply Hok). by rewrite length_fmap.
Qed.

Lemma index_split l next k id :
  nodes_ok l next -> index l !! k = Some id ->
  exists l1 v l2, l = l1 ++ mkNode id k v :: l2 /\ (k ∉ keys l1) /\ (k ∉ keys l2) /\ (id ∉ ids l1) /\ (id ∉ ids l2).
Proof.
  intros [Hi Hk _] Hl. apply elem_of_list_to_map_2 in Hl.
  apply list_elem_of_fmap in Hl as ([id' k' v] & [= -> ->] & Hin).
  apply list_elem_of_split in Hin as (l1 & l2 & ->). exists l1, v, l2. split; [done|].
  unfold ids, keys in *. rewrite fmap_app in Hi. rewrite fmap_app in Hk. simpl in Hi, Hk.
  apply NoDup_app in Hi as (_ & Hi & Hi2). apply NoDup_app in Hk as (_ & Hk & Hk2).
  apply NoDup_cons in Hi2 as [Hi2 _]. apply NoDup_cons in Hk2 as [Hk2 _].
  split_and!; [|done| |done]; intros Hx; [apply (Hk _ Hx)|apply (Hi _ Hx)]; set_solver.
Qed.

Lemma index_app l1 l2 : index (l1 ++ l2) = index l1 ∪ index l2.
Proof. unfold index. by rewrite fmap_app, list_to_map_app. Qed.

Lemma index_fresh l k : k ∉ keys l -> index l !! k = None.
Proof. intros Hk. apply not_elem_of_list_to_map_1. by rewrite index_keys. Qed.

Lemma index_delete l1 id k v l2 :
  k ∉ keys l1 -> k ∉ keys l2 -> delete k (index (l1 ++ mkNode id k v :: l2)) = index (l1 ++ l2).
Proof.
  intros H1 H2. rewrite !index_app. change (index (mkNode id k v :: l2)) with (<[k := id]> (index l2)).
  rewrite delete_union, delete_insert_eq, !delete_id by by apply index_fresh. done.
Qed.

Lemma find_node l1 id k v l2 :
  id ∉ ids l1 -> List.find (fun n => node_id n =? id) (l1 ++ mkNode id k v :: l2) = Some (mkNode id k v).
Proof.
  induction l1 as [|n l1 IH]; simpl; intros Hi; [by rewrite Nat.eqb_refl|].
  destruct (Nat.eqb_spec (node_id n) id); [set_solver|]. apply IH. set_solver.
Qed.

Lemma list_erase_id id l : id ∉ ids l -> list_erase id l = l.
Proof.
  induction l as [|n l IH]; simpl; intros Hi; [done|]. destruct (Nat.eqb_spec (node_id n) id); [set_solver|].
  simpl. rewrite IH; [done|set_solver].
Qed.

Lemma list_erase_node l1 id k v l2 :
  id ∉ ids l1 -> id ∉ ids l2 -> list_erase id (l1 ++ mkNode id k v :: l2) = l1 ++ l2.
Proof.
  intros H1 H2. unfold list_erase. rewrite List.filter_app. fold (list_erase id l1). simpl. rewrite Nat.eqb_refl. simpl.
  fold (list_erase id l2). by rewrite !list_erase_id.
Qed.

Lemma assoc_fresh k l : k ∉ keys l -> assoc k (binds l) = None /\ without k (binds l) = binds l.
Proof.
  induction l as [|n l IH]; simpl; intros Hk; [done|]. assert (key_ n <> k) by set_solver.
  rewrite decide_False by done. rewrite bool_decide_false by done. simpl.
  destruct IH as [E1 E2]; [set_solver|]. unfold binds in *. by rewrite E1, E2.
Qed.

Lemma assoc_node l1 id k v l2 :
  k ∉ keys l1 -> k ∉ keys l2 ->
  assoc k (binds (l1 ++ mkNode id k v :: l2)) = Some v /\
  without k (binds (l1 ++ mkNode id k v :: l2)) = binds (l1 ++ l2).
Proof.
  intros H1 H2. unfold binds. rewrite !fmap_app. fold (binds l1) (binds l2). simpl. split.
  - revert H1. clear. induction l1 as [|n l1 IH]; simpl; intros Hk; [by rewrite decide_True|].
    rewrite decide_False by set_solver. apply IH. set_solver.
  - unfold without. rewrite List.filter_app. simpl. rewrite bool_decide_true by done. simpl.
    fold (without k (binds l1)). f_equal; [by apply assoc_fresh|by apply (assoc_fresh k l2)].
Qed.

Lemma nodes_ok_remove l1 n l2 next : nodes_ok (l1 ++ n :: l2) next -> nodes_ok (l1 ++ l2) next.
Proof.
  intros [Hi Hk Hn]. split; unfold ids, keys in *.
  - rewrite fmap_app in *. simpl in Hi. apply NoDup_app in Hi as (? & Hi & ?%NoDup_cons). apply NoDup_app.
    split_and!; [done|set_solver|tauto].
  - rewrite fmap_app in *. simpl in Hk. apply NoDup_app in Hk as (? & Hk & ?%NoDup_cons). apply NoDup_app.
    split_and!; [done|set_solver|tauto].
  - apply Forall_app in Hn as [Hn1 Hn2]. apply Forall_cons in Hn2 as [_ Hn2]. by apply Forall_app.
Qed.

(** Finding a key through the map. *)
Lemma implements_lookup c s k :
  implements c s ->
  (map_ c !! k = None /\ assoc k (entries s) = None /\ without k (entries s) = entries s /\ (k ∉ keys (storage_ c))) \/
  (exists id v l1 l2, map_ c !! k = Some id /\ storage_ c = l1 ++ mkNode id k v :: l2 /\
     deref id c = Ok (mkNode id k v) /\ list_erase id (storage_ c) = l1 ++ l2 /\
     assoc k (entries s) = Some v /\ without k (entries s) = binds (l1 ++ l2) /\
     delete k (map_ c) = index (l1 ++ l2) /\ nodes_ok (l1 ++ l2) (next_id c) /\ (k ∉ keys (l1 ++ l2)) /\
     (id ∉ ids (l1 ++ l2)) /\ id < next_id c).
Proof.
  intros [Hn Hm He _ _ _]. destruct (map_ c !! k) as [id|] eqn:Hk.
  - right. rewrite Hm in Hk. destruct (index_split _ _ _ _ Hn Hk) as (l1 & v & l2 & E & K1 & K2 & I1 & I2).
    exists id, v, l1, l2. rewrite He, Hm. unfold deref. rewrite E in *.
    destruct (assoc_node l1 id k v l2 K1 K2) as [A1 A2]. rewrite find_node, list_erase_node, index_delete by done.
    split_and!; try done; [by eapply nodes_ok_remove|unfold keys; rewrite fmap_app; set_solver|unfold ids; rewrite fmap_app; set_solver|].
    pose proof (ok_next _ _ Hn) as Hx. apply Forall_app in Hx as [_ Hx]. by apply Forall_cons in Hx as [Hx _].
  - left. assert (Hx : k ∉ keys (storage_ c)).
    { intros Hx. rewrite Hm in Hk. apply not_elem_of_list_to_map_2 in Hk. by rewrite index_keys in Hk. }
    rewrite He. destruct (assoc_fresh k (storage_ c) Hx) as [-> ->]. done.
Qed.

Lemma index_last l n : key_ n ∉ keys l -> delete (key_ n) (index (l ++ [n])) = index l.
Proof. destruct n as [id k v]. intros Hk. rewrite index_delete, app_nil_r; [done|done|set_solver]. Qed.

Lemma spec_trim_short s : length (entries s) <= cap s -> spec_trim s = s.
Proof.
  intros Hl. unfold spec_trim. rewrite take_ge, drop_ge by lia. simpl. rewrite app_nil_r.
  destruct s as [? ? [|] ?]; done.
Qed.

Lemma trim_ok fuel : forall c s,
  implements c s -> length (storage_ c) < fuel ->
  exists c', trim fuel c = (Ok tt, c') /\ implements c' (spec_trim s).
Proof.
  induction fuel as [|fuel IH]; intros c s Him Hf; [lia|].
  pose proof Him as [Hn Hm He Hc Hh Hp]. cbn [trim]. rewrite (M_bind_Ok _ _ _ c c) by done.
  rewrite Hm, (index_size _ _ Hn). case_decide as Hlt.
  2:{ exists c. split; [done|]. rewrite spec_trim_short; [done|]. rewrite He, Hc. unfold binds. rewrite length_fmap. lia. }
  destruct (storage_ c) as [|n l _] eqn:Es using rev_ind; [simpl in Hlt; lia|].
  rewrite last_snoc. unfold purge.
  set (calls' := if purge_ c then purged c ++ [binding n] else purged c).
  assert (Hkn : key_ n ∉ keys l).
  { pose proof (ok_keys _ _ Hn) as Hk. unfold keys in Hk. rewrite fmap_app in Hk. apply NoDup_app in Hk as (_ & Hk & _).
    intros Hx. apply (Hk _ Hx). set_solver. }
  destruct (IH (mkLRU l (index l) (capacity_ c) (purge_ c) calls' (next_id c))
              (mkSpec (binds l) (cap s) (handler s) calls')) as (c' & E & Him').
  { split; simpl; try done. rewrite <- (app_nil_r l). by eapply nodes_ok_remove. }
  { rewrite length_app in Hf. simpl in *. lia. }
  exists c'. split.
  - rewrite <- E. unfold mbind, M_bind, modifyM, set_map, set_storage.
    assert (Et : take (length (l ++ [n]) - 1) (l ++ [n]) = l).
    { rewrite length_app. simpl. replace (length l + 1 - 1) with (length l) by lia. apply take_app_length. }
    unfold calls'. destruct (purge_ c) eqn:Hpc; simpl; rewrite Es, Hm, ?Hpc, Et, index_last by done; done.
  - replace (spec_trim s) with (spec_trim (mkSpec (binds l) (cap s) (handler s) calls')); [done|].
    unfold spec_trim. simpl. rewrite He. unfold binds. rewrite fmap_app. fold (binds l). simpl.
    assert (Hle : cap s <= length (binds l)).
    { unfold binds. rewrite length_fmap. rewrite length_app in Hlt. simpl in Hlt. lia. }
    rewrite take_app_le, drop_app_le, rev_app_distr by done. unfold calls'. rewrite Hh, Hp.
    destruct (purge_ c); [|done]. by rewrite <- app_assoc.
Qed.

(** A new node in front. *)
Lemma push_ok c s k v :
  implements c s -> k ∉ keys (storage_ c) ->
  exists c', push_front k v c = (Ok tt, c') /\
    implements c' (mkSpec ((k, v) :: entries s) (cap s) (handler s) (calls s)).
Proof.
  intros [Hn Hm He Hc Hh Hp] Hk. eexists. split; [done|]. destruct Hn as [Hi Hkk Hx].
  split; simpl; try done; [split|by rewrite Hm|by rewrite He].
  - unfold ids. simpl. apply NoDup_cons. split; [|done]. intros ([id k' v'] & E & Hin)%list_elem_of_fmap.
    rewrite Forall_forall in Hx. apply Hx in Hin. simpl in *. lia.
  - unfold keys. simpl. by apply NoDup_cons.
  - constructor; [simpl; lia|]. eapply Forall_impl; [exact Hx|]. simpl. lia.
Qed.

Lemma lru_insert_ok c s k v :
  implements c s ->
  exists c', insert k v c = (Ok (bool_decide (is_Some (assoc k (entries s)))), c') /\
    implements c' (spec_trim (mkSpec ((k, v) :: without k (entries s)) (cap s) (handler s) (calls s))).
Proof.
  intros Him. unfold insert. rewrite (M_bind_Ok _ _ _ c c) by done.
  assert (Hpre : exists c1, (match map_ c !! k with Some itr => erase k itr ;; mret true | None => mret false end) c
      = (Ok (bool_decide (is_Some (assoc k (entries s)))), c1) /\ (k ∉ keys (storage_ c1)) /\
      implements c1 (mkSpec (without k (entries s)) (cap s) (handler s) (calls s))).
  { destruct (implements_lookup c s k Him) as [(-> & -> & -> & Hk)|(id & x & l1 & l2 & -> & Es & Hd & Her & -> & -> & Hdel & Hok & Hk & _)].
    - exists c. split_and!; [done|done|]. by destruct Him, s.
    - rewrite bool_decide_true by by eexists. unfold erase.
      eexists. split; [unfold mbind, M_bind, getM, liftM, putM, mret, M_ret; rewrite Hd, Her, Hdel; reflexivity|].
      simpl. split; [done|]. destruct Him. by split. }
  destruct Hpre as (c1 & E1 & Hk & Him1). rewrite (M_bind_Ok _ _ _ _ _ E1).
  destruct (push_ok c1 _ k v Him1 Hk) as (c2 & E2 & Him2). rewrite (M_bind_Ok _ _ _ _ _ E2).
  rewrite (M_bind_Ok _ _ _ c2 c2) by done.
  destruct (trim_ok (S (size (map_ c2))) c2 _ Him2) as (c3 & E3 & Him3).
  { rewrite (im_map _ _ Him2), (index_size _ _ (im_nodes _ _ Him2)). lia. }
  rewrite (M_bind_Ok _ _ _ _ _ E3). by exists c3.
Qed.

Lemma moveToFront_ok c s k id v l1 l2 :
  implements c s -> storage_ c = l1 ++ mkNode id k v :: l2 -> deref id c = Ok (mkNode id k v) ->
  list_erase id (storage_ c) = l1 ++ l2 -> nodes_ok (l1 ++ l2) (next_id c) -> k ∉ keys (l1 ++ l2) ->
  id ∉ ids (l1 ++ l2) -> id < next_id c -> without k (entries s) = binds (l1 ++ l2) ->
  delete k (map_ c) = index (l1 ++ l2) -> map_ c !! k = Some id ->
  exists c', (moveToFront id ;; c ← getM; n ← liftM (deref id c); mret (value_ n)) c = (Ok v, c') /\
    implements c' (mkSpec ((k, v) :: without k (entries s)) (cap s) (handler s) (calls s)).
Proof.
  intros Him Es Hd Her [Oi Ok_ On] Hk Hid Hlt Hw Hdel Hm. eexists. split.
  { unfold moveToFront, mbind, M_bind, getM, liftM, putM, mret, M_ret. rewrite Hd. simpl. rewrite Her.
    unfold deref. simpl. rewrite Nat.eqb_refl. reflexivity. }
  destruct Him as [_ _ _ Hc Hh Hp]. split; simpl; try done.
  - split; [unfold ids; simpl; by apply NoDup_cons|unfold keys; simpl; by apply NoDup_cons|by constructor].
  - change (index (mkNode id k v :: l1 ++ l2)) with (<[k := id]> (index (l1 ++ l2))). rewrite <- Hdel.
    by rewrite insert_delete_id.
  - by rewrite Hw.
Qed.

Lemma purge_all_ok l : forall c,
  purge_all l c = (Ok tt, mkLRU (storage_ c) (map_ c) (capacity_ c) (purge_ c)
                            (if purge_ c then purged c ++ binds l else purged c) (next_id c)).
Proof.
  induction l as [|n l IH]; intros c; simpl.
  - destruct c as [? ? ? [] ? ?]; simpl; by rewrite ?app_nil_r.
  - unfold purge. unfold mbind, M_bind, modifyM. rewrite IH. destruct c as [? ? ? [] ? ?]; simpl; [|done].
    by rewrite <- app_assoc.
Qed.

Lemma spec_same s : mkSpec (entries s) (cap s) (handler s) (calls s) = s.
Proof. by destruct s. Qed.

Lemma access_ok c s k :
  implements c s ->
  exists c', step (Access k) c = (Ok (spec_step (Access k) s).1, c') /\ implements c' (spec_step (Access k) s).2.
Proof.
  intros Him. cbn [step spec_step]. unfold catch, access. rewrite (M_bind_Ok _ _ _ c c) by done.
  assert (Hmap : exists c',
    (match (match map_ c !! k with
            | Some itr => moveToFront itr ;; c ← getM; n ← liftM (deref itr c); mret (value_ n)
            | None => throwM OutOfRange end) c with
     | (Ok a, c') => (Ok (RValue a), c') | (Throw e, c') => (Ok (RThrow e), c')
     | (Undef, c') => (Undef, c') | (NoFuel, c') => (NoFuel, c') end)
    = (Ok (spec_step (Access k) s).1, c') /\ implements c' (spec_step (Access k) s).2).
  { cbn [spec_step]. destruct (implements_lookup c s k Him)
      as [(-> & -> & _)|(id & v & l1 & l2 & Em & Es & Hd & Her & -> & Hw & Hdel & Hok & Hk & Hid & Hlt)].
    - by exists c.
    - rewrite Em. destruct (moveToFront_ok c s k id v l1 l2) as (c' & E & Him'); try done.
      exists c'. rewrite E. by split. }
  destruct (storage_ c) as [|n l] eqn:Es; [exact Hmap|]. case_decide as Hkn; [|exact Hmap].
  exists c. destruct n as [id k' v]. simpl in Hkn. subst k'.
  pose proof (im_entries _ _ Him) as He. rewrite Es in He.
  assert (Hk : k ∉ keys l).
  { pose proof (ok_keys _ _ (im_nodes _ _ Him)) as Hkk. rewrite Es in Hkk. by apply NoDup_cons in Hkk as [Hkk _]. }
  destruct (assoc_node [] id k v l) as [Ea Ew]; [set_solver|done|]. simpl app in Ea, Ew. rewrite He, Ea, Ew.
  split; [done|]. cbn [snd]. change ((k, v) :: binds l) with (binds (mkNode id k v :: l)). rewrite <- He.
  by rewrite spec_same.
Qed.

Lemma lru_step_ok o c s :
  implements c s ->
  exists c', step o c = (Ok (spec_step o s).1, c') /\ implements c' (spec_step o s).2.
Proof.
  intros Him. destruct o as [k v|k|k|k|k| |n]; [|by apply access_ok|..]; cbn [step spec_step]; unfold catch.
  - destruct (lru_insert_ok c s k v Him) as (c' & -> & Him'). by exists c'.
  - unfold extract. rewrite (M_bind_Ok _ _ _ c c) by done. destruct (implements_lookup c s k Him)
      as [(-> & -> & _)|(id & v & l1 & l2 & -> & Es & Hd & Her & -> & -> & Hdel & Hok & _)]; [by exists c|].
    eexists. split; [unfold erase, mbind, M_bind, getM, liftM, putM, mret, M_ret; rewrite Hd, Her, Hdel; reflexivity|].
    destruct Him. by split.
  - unfold remove. rewrite (M_bind_Ok _ _ _ c c) by done. destruct (implements_lookup c s k Him)
      as [(-> & -> & _)|(id & v & l1 & l2 & -> & Es & Hd & Her & -> & -> & Hdel & Hok & _)]; [by exists c|].
    destruct Him as [_ _ _ Hc Hh Hp]. unfold deref in Hd.
    rewrite Hh. destruct (purge_ c) eqn:Hpc;
      (eexists; split; [unfold purge, erase, deref, mbind, M_bind, getM, liftM, putM, modifyM, mret, M_ret; rewrite Hd;
         simpl; rewrite Hpc; simpl; rewrite Hd, Her, Hdel; reflexivity|]);
      split; simpl; try done; by rewrite ?Hp.
  - unfold exists_. exists c. split; [|done]. destruct (implements_lookup c s k Him)
      as [(Em & Ea & _)|(id & v & l1 & l2 & Em & _ & _ & _ & Ea & _)];
      unfold mbind, M_bind, getM, mret, M_ret; rewrite Em, Ea; [done|].
    by rewrite !bool_decide_true by by eexists.
  - unfold clear. rewrite (M_bind_Ok _ _ _ c c) by done. rewrite (M_bind_Ok _ _ _ _ _ (purge_all_ok (storage_ c) c)).
    eexists. split; [done|]. destruct Him as [_ _ He Hc Hh Hp].
    split; simpl; try done; [by split; constructor|]. by rewrite Hh, Hp, He.
  - unfold set_capacity.
    set (c1 := mkLRU (storage_ c) (map_ c) n (purge_ c) (purged c) (next_id c)).
    rewrite (M_bind_Ok _ _ _ tt c1) by done. rewrite (M_bind_Ok _ _ _ c1 c1) by done.
    destruct (trim_ok (S (size (map_ c1))) c1 (mkSpec (entries s) n (handler s) (calls s))) as (c2 & -> & Him2).
    + destruct Him. by split.
    + simpl. rewrite (im_map _ _ Him), (index_size _ _ (im_nodes _ _ Him)). lia.
    + by exists c2.
Qed.

Lemma lru_run_ok os : forall c s,
  implements c s -> exists c', run os c = (Ok (spec_run os s).1, c') /\ implements c' (spec_run os s).2.
Proof.
  induction os as [|o os IH]; intros c s Him; cbn [run spec_run]; [by exists c|].
  destruct (lru_step_ok o c s Him) as (c1 & E1 & Him1). rewrite (M_bind_Ok _ _ _ _ _ E1).
  destruct (spec_step o s) as [r s1]. simpl in *. destruct (IH c1 s1 Him1) as (c2 & E2 & Him2).
  rewrite (M_bind_Ok _ _ _ _ _ E2). destruct (spec_run os s1) as [rs s2]. simpl in *. by exists c2.
Qed.

(** The specification never holds more than its capacity. *)
Lemma without_length k (l : list (K * V)) : length (without k l) <= length l.
Proof. unfold without. apply List.filter_length_le. Qed.

Lemma assoc_without k v (l : list (K * V)) : assoc k l = Some v -> S (length (without k l)) <= length l.
Proof.
  induction l as [|[k' v'] l IH]; simpl; [done|]. case_decide as Hk.
  - intros _. rewrite bool_decide_true by done. simpl. pose proof (without_length k l). unfold without in *. lia.
  - intros Ha. rewrite bool_decide_false by done. simpl. apply IH in Ha. unfold without in *. lia.
Qed.

Lemma spec_bounded o s : length (entries s) <= cap s -> length (entries (spec_step o s).2) <= cap (spec_step o s).2.
Proof.
  intros Hl. destruct o as [k v|k|k|k|k| |n]; simpl; try lia; [rewrite length_take; lia|..|rewrite length_take; lia];
    destruct (assoc k (entries s)) eqn:Ha; simpl; try done; apply assoc_without in Ha; lia.
Qed.

Lemma spec_run_bounded os : forall s, length (entries s) <= cap s -> length (entries (spec_run os s).2) <= cap (spec_run os s).2.
Proof.
  induction os as [|o os IH]; intros s Hl; cbn [spec_run]; [done|].
  pose proof (spec_bounded o s Hl) as Hb. destruct (spec_step o s) as [r s1]. simpl in Hb.
  specialize (IH s1 Hb). by destruct (spec_run os s1).
Qed.
End LRU.
Arguments op : clear implicits.
Arguments result : clear implicits.
Arguments spec : clear implicits.
Arguments CacheLRU : clear implicits.

(** C5. Any sequence of operations on a cache behaves like a list of bindings
    kept in order of use: the results, the exceptions, the entries and the calls
    of the purge handler agree, and iterators never dangle. *)
Theorem lru_refines_list {K V : Type} `{Countable K} (capacity : nat) (h : bool) (os : list (op K V)) :
  exists c, run os (CacheLRU_new capacity h) = (Ok (spec_run os (mkSpec [] capacity h [])).1, c) /\
    binding <$> storage_ c = entries (spec_run os (mkSpec [] capacity h [])).2 /\
    purged c = calls (spec_run os (mkSpec [] capacity h [])).2.
Proof.
  destruct (lru_run_ok os (CacheLRU_new capacity h) (mkSpec [] capacity h [])) as (c & E & Him).
  { split; simpl; try done. by split; constructor. }
  exists c. split; [done|]. by rewrite (im_entries _ _ Him), (im_calls _ _ Him).
Qed.

(** After any sequence of operations the cache holds at most as many entries
    as its capacity, with distinct keys, and its map finds each of them. *)
Theorem lru_bounded {K V : Type} `{Countable K} (capacity : nat) (h : bool) (os : list (op K V)) :
  exists rs c, run os (CacheLRU_new capacity h) = (Ok rs, c) /\
    length (storage_ c) <= capacity_ c /\ NoDup (key_ <$> storage_ c) /\
    forall n, n ∈ storage_ c -> map_ c !! key_ n = Some (node_id n).
Proof.
  destruct (lru_run_ok os (CacheLRU_new capacity h) (mkSpec [] capacity h [])) as (c & E & Him).
  { split; simpl; try done. by split; constructor. }
  eexists _, c. split; [exact E|]. destruct Him as [[Hi Hk Hn] Hm He Hc _ _]. split_and!; [|done|].
  - pose proof (spec_run_bounded os (mkSpec [] capacity h []) ltac:(simpl; lia)) as Hb.
    rewrite He, Hc in Hb. unfold binds in Hb. by rewrite length_fmap in Hb.
  - intros n Hin. rewrite Hm. apply elem_of_list_to_map_1; [by rewrite index_keys|].
    apply list_elem_of_fmap. by exists n.
Qed.
