(* ===== verification/Dense.v ===== *)
(** * Dense sets and maps

    [container/DenseSet.h] and [container/DenseMap.h]: values kept in a
    contiguous vector, sorted on demand, searched by bisection.  [std::sort] and
    [std::stable_sort] are an insertion sort: the order is total, so their result
    is determined. *)
From S2P Require Import Prelude Algorithms.
#[local] Open Scope nat_scope.
#[local] Set Warnings "-clear-no-such-hyp".

(** ** Sorting by key *)

Section Sort.
Context {A K : Type} `{KeyOrder K} (key : A -> K).
Implicit Types (l : list A).

Fixpoint sort_insert (x : A) l : list A :=
  match l with
  | [] => [x]
  | y :: l' => if decide (klt (key y) (key x)) then y :: sort_insert x l' else x :: l
  end.

Fixpoint stable_sort l : list A :=
  match l with [] => [] | x :: l => sort_insert x (stable_sort l) end.

(** [std::unique]: drop the elements equal to the last one kept. *)
Fixpoint unique_from (prev : A) l : list A :=
  match l with
  | [] => []
  | y :: l => if decide (key prev = key y) then unique_from prev l else y :: unique_from y l
  end.

Definition unique l : list A := match l with [] => [] | x :: l => x :: unique_from x l end.

Definition weakly_sorted l : Prop := StronglySorted (fun a b => ~ klt (key b) (key a)) l.
Definition strictly_sorted l : Prop := StronglySorted (fun a b => klt (key a) (key b)) l.

Lemma sort_insert_elem x l y : y ∈ sort_insert x l <-> y = x \/ y ∈ l.
Proof. induction l as [|z l IH]; simpl; [set_solver|]. case_decide; set_solver. Qed.

Lemma sort_insert_sorted x l : weakly_sorted l -> weakly_sorted (sort_insert x l).
Proof.
  induction l as [|y l IH]; intros Hs; simpl; [repeat constructor|].
  apply StronglySorted_cons in Hs as [Hy Hs]. case_decide as Hk.
  - constructor; [by apply IH|]. apply Forall_forall. intros z [->|Hz]%sort_insert_elem.
    + intros Hx. apply (klt_irrefl (key y)). by trans (key x).
    + rewrite Forall_forall in Hy. by apply Hy.
  - constructor; [by constructor|]. constructor; [done|]. eapply Forall_impl; [exact Hy|]. simpl. intros z Hz Hzx.
    apply not_klt in Hz as [Hz|Hz]; [by rewrite Hz in Hzx|]. apply Hk. by trans (key z).
Qed.

Lemma stable_sort_sorted l : weakly_sorted (stable_sort l).
Proof. induction l; simpl; [constructor|]. by apply sort_insert_sorted. Qed.

(** Elements with equal keys keep their order. *)
Lemma sort_insert_stable k x l :
  filter (fun e => key e = k) (sort_insert x l) = filter (fun e => key e = k) (x :: l).
Proof.
  induction l as [|y l IH]; [done|]. simpl sort_insert. case_decide as Hk; [|done].
  rewrite !filter_cons in *. destruct (decide (key y = k)) as [Hy|Hy].
  - rewrite IH. assert (key x <> k) by (intros <-; rewrite Hy in Hk; by apply klt_irrefl in Hk).
    by rewrite !decide_False.
  - exact IH.
Qed.

Lemma stable_sort_stable k l : filter (fun e => key e = k) (stable_sort l) = filter (fun e => key e = k) l.
Proof.
  induction l as [|x l IH]; [done|]. cbn [stable_sort]. rewrite sort_insert_stable, !filter_cons. by rewrite IH.
Qed.

(** [std::unique] over the reversed range keeps the last of each run. *)
Fixpoint keep_last l : list A :=
  match l with
  | [] => []
  | x :: l' => match l' with
               | y :: _ => if decide (key x = key y) then keep_last l' else x :: keep_last l'
               | [] => [x]
               end
  end.

Lemma unique_from_snoc l : forall p y x,
  key p = key y \/ True -> unique_from p (l ++ [y; x]) =
    (if decide (key y = key x) then unique_from p (l ++ [y]) else unique_from p (l ++ [y]) ++ [x]).
Proof.
  induction l as [|z l IH]; intros p y x _; simpl.
  - destruct (decide (key p = key y)) as [E|E].
    + rewrite E. by destruct (decide (key y = key x)).
    + by destruct (decide (key y = key x)).
  - destruct (decide (key p = key z)); [by apply IH; right|]. rewrite (IH z y x (or_intror I)).
    by destruct (decide (key y = key x)).
Qed.

Lemma unique_rev l : rev (unique (rev l)) = keep_last l.
Proof.
  induction l as [|x l IH]; [done|]. destruct l as [|y l]; [done|].
  cbn [keep_last rev] in *. rewrite <- app_assoc. simpl.
  destruct (rev l) as [|z r] eqn:Er.
  - simpl in *. destruct (decide (key y = key x)) as [E|E]; destruct (decide (key x = key y)) as [E'|E']; try congruence;
      simpl; by rewrite <- IH.
  - simpl in *. rewrite (unique_from_snoc r z y x (or_intror I)).
    destruct (decide (key y = key x)) as [E|E]; destruct (decide (key x = key y)) as [E'|E']; try congruence;
      rewrite <- IH; simpl; by rewrite ?rev_app_distr.
Qed.

Lemma keep_last_cons x y l :
  keep_last (x :: y :: l) = if decide (key x = key y) then keep_last (y :: l) else x :: keep_last (y :: l).
Proof. done. Qed.

Lemma keep_last_elem l y : y ∈ keep_last l -> y ∈ l.
Proof.
  induction l as [|x l IH]; [done|]. destruct l as [|z l]; [done|]. rewrite keep_last_cons. case_decide; set_solver.
Qed.

Lemma keep_last_sorted l : weakly_sorted l -> strictly_sorted (keep_last l).
Proof.
  induction l as [|x l IH]; intros Hs; [constructor|]. apply StronglySorted_cons in Hs as [Hx Hs].
  destruct l as [|y l]; [repeat constructor|]. rewrite keep_last_cons. case_decide as Hk; [by apply IH|].
  constructor; [by apply IH|]. apply Forall_forall. intros z Hz%keep_last_elem.
  apply Forall_cons in Hx as [Hxy _]. apply not_klt in Hxy as [E|Hxy]; [congruence|].
  apply elem_of_cons in Hz as [->|Hz]; [done|]. apply StronglySorted_cons in Hs as [Hy _].
  rewrite Forall_forall in Hy. apply Hy, not_klt in Hz as [E|Hz]; [by rewrite E|by trans (key y)].
Qed.

(** The last element with a given key survives. *)
Lemma keep_last_last k l : weakly_sorted l ->
  last (filter (fun e => key e = k) (keep_last l)) = last (filter (fun e => key e = k) l).
Proof.
  induction l as [|x l IH]; intros Hs; [done|]. apply StronglySorted_cons in Hs as [Hx Hs]. specialize (IH Hs).
  destruct l as [|y l]; [done|]. rewrite keep_last_cons. rewrite (filter_cons _ x). case_decide as Hk.
  - destruct (decide (key x = k)) as [E|E]; [|exact IH]. rewrite IH. rewrite Hk in E.
    rewrite filter_cons_True by done. by rewrite !last_cons_cons.
  - rewrite (filter_cons _ x (keep_last _)). destruct (decide (key x = k)) as [E|E]; [|exact IH].
    rewrite !last_cons, IH. done.
Qed.
End Sort.

(** ** DenseMap *)

Module DenseMap.
Section DenseMap.
Context {K V : Type} `{KeyOrder K} `{!Countable K}.

Record t : Type := mk { items_ : list (K * V); sorted_ : bool }.

Definition empty_map : t := mk [] true.

Definition insert (k : K) (v : V) : M t unit := modifyM (fun d => mk (items_ d ++ [(k, v)]) false).

(** [find]: the index of the item, or [None] for [end()]. *)
Definition find (k : K) : M t (option nat) :=
  d ← getM;
  match items_ d with
  | [] => mret None
  | _ =>
      assertM (sorted_ d) ;;
      let it := lower_bound (key_below k) (items_ d) in
      mret (match items_ d !! it with
            | Some (k', _) => if decide (k' = k) then Some it else None
            | None => None
            end)
  end.

Definition replace (k : K) (v : V) : M t unit :=
  it ← find k;
  match it with
  | Some i => modifyM (fun d => mk (alter (fun e => (e.1, v)) i (items_ d)) (sorted_ d))
  | None => insert k v
  end.

Definition clear : M t unit := modifyM (fun _ => mk [] true).

Definition size_ : M t nat := d ← getM; assertM (sorted_ d) ;; mret (length (items_ d)).

(** [std::stable_sort], then [std::unique] over the reversed range and the
    removal of the leading items. *)
Definition sort : M t unit :=
  d ← getM;
  if sorted_ d then mret tt
  else modifyM (fun d => mk (rev (unique fst (rev (stable_sort fst (items_ d))))) true).

Definition contains (k : K) : M t bool := it ← find k; mret (bool_decide (is_Some it)).

(** [get]: [find(k)->second] *)
Definition get (k : K) : M t V :=
  it ← find k;
  d ← getM;
  match it with
  | Some i => match items_ d !! i with Some (_, v) => mret v | None => liftM Undef end
  | None => liftM Undef
  end.

(** The value of a key is the last one inserted. *)
Definition value_of (l : list (K * V)) (k : K) : option V := snd <$> last (filter (fun e => e.1 = k) l).

(** [d] represents [m]: every key has its last value; when sorted, the keys
    are strictly increasing. *)
Definition represents (d : t) (m : gmap K V) : Prop :=
  (forall k, m !! k = value_of (items_ d) k) /\ (sorted_ d = true -> keysorted (items_ d)).

Lemma value_of_app l k v k' :
  value_of (l ++ [(k, v)]) k' = if decide (k = k') then Some v else value_of l k'.
Proof.
  unfold value_of. rewrite filter_app, filter_cons, filter_nil. simpl.
  destruct (decide (k = k')); [by rewrite last_snoc|by rewrite app_nil_r].
Qed.

Lemma map_insert_ok d m k v : represents d m ->
  exists d', insert k v d = (Ok tt, d') /\ represents d' (<[k := v]> m).
Proof.
  intros [Hm Hs]. eexists. split; [done|]. split; [|done]. simpl. intros k'.
  rewrite value_of_app, lookup_insert. by destruct (decide (k = k')).
Qed.

Lemma map_sort_ok d m : represents d m ->
  exists d', sort d = (Ok tt, d') /\ represents d' m /\ sorted_ d' = true.
Proof.
  intros Hr. pose proof Hr as [Hm Hs]. unfold sort. rewrite (M_bind_Ok _ _ _ d d) by done.
  destruct (sorted_ d) eqn:Hd; [by exists d|].
  eexists. split; [done|]. split; [|done]. simpl. rewrite unique_rev. split; simpl.
  - intros k. rewrite Hm. unfold value_of.
    rewrite (keep_last_last fst) by apply stable_sort_sorted. by rewrite (stable_sort_stable fst).
  - intros _. apply (keep_last_sorted fst), stable_sort_sorted.
Qed.

(** In a sorted list a key has one value. *)
Lemma value_of_sorted l k v : keysorted l -> (k, v) ∈ l -> value_of l k = Some v.
Proof.
  intros Hs Hin. apply list_elem_of_split in Hin as (l1 & l2 & ->). apply keysorted_app in Hs as (_ & Hs & H12).
  apply keysorted_cons in Hs as [_ H2]. unfold value_of.
  rewrite filter_app, (filter_none _ l1), filter_cons_True, (filter_none _ l2); [done| |done|].
  - eapply Forall_impl; [exact H2|]. simpl. intros e He <-. by apply klt_irrefl in He.
  - apply Forall_forall. intros e He <-. specialize (H12 e (e.1, v) He). simpl in H12.
    apply (klt_irrefl e.1), H12. set_solver.
Qed.

Lemma value_of_none l k : (forall v, (k, v) ∉ l) -> value_of l k = None.
Proof.
  intros Hno. unfold value_of. rewrite filter_none; [done|]. apply Forall_forall. intros [k' v] Hin Hk. simpl in Hk.
  subst k'. by apply (Hno v).
Qed.

Lemma map_find_ok d m k : represents d m -> (sorted_ d = true \/ items_ d = []) ->
  exists it, find k d = (Ok it, d) /\
    match it with
    | Some i => exists v, items_ d !! i = Some (k, v) /\ m !! k = Some v
    | None => m !! k = None
    end.
Proof.
  intros [Hm Hs] Hok. unfold find. rewrite (M_bind_Ok _ _ _ d d) by done.
  destruct (items_ d) as [|e l] eqn:Ei.
  { exists None. split; [done|]. by rewrite Hm. }
  destruct Hok as [Hd|Hd]; [|done]. rewrite <- Ei in *. rewrite (M_bind_Ok _ _ _ tt d) by by rewrite Hd.
  specialize (Hs Hd). eexists. split; [reflexivity|].
  destruct (lower_bound_cases k (items_ d) Hs) as (l1 & l2 & E & -> & HA & HB). rewrite E.
  rewrite Forall_forall in HA. destruct HB as [(x & l3 & -> & H3)|HB].
  - rewrite list_lookup_middle by done. rewrite decide_True by done. exists x.
    rewrite list_lookup_middle by done. split; [done|]. rewrite Hm, E. rewrite E in Hs. apply value_of_sorted; [done|set_solver].
  - rewrite lookup_app_r, Nat.sub_diag by lia. rewrite Forall_forall in HB.
    assert (Hno : m !! k = None).
    { rewrite Hm, E. apply value_of_none. intros v [Hv|Hv]%elem_of_app; [apply HA in Hv|apply HB in Hv]; by apply klt_irrefl in Hv. }
    destruct l2 as [|[k' v'] l2]; simpl; [done|]. rewrite decide_False; [done|]. intros ->.
    specialize (HB (k, v')). simpl in HB. apply (klt_irrefl k), HB. set_solver.
Qed.

(** ** Sessions *)

Inductive op : Type :=
| Insert (k : K) (v : V) | Replace (k : K) (v : V) | Sort | Clear | Contains (k : K) | Get (k : K) | Size.

Inductive result : Type := RUnit | RBool (b : bool) | RValue (v : V) | RSize (n : nat).

Definition step (o : op) : M t result :=
  match o with
  | Insert k v => insert k v ;; mret RUnit
  | Replace k v => replace k v ;; mret RUnit
  | Sort => sort ;; mret RUnit
  | Clear => clear ;; mret RUnit
  | Contains k => b ← contains k; mret (RBool b)
  | Get k => v ← get k; mret (RValue v)
  | Size => n ← size_; mret (RSize n)
  end.

(** A client goes on after an exception. *)
Fixpoint run (os : list op) (d : t) : list (outcome result) * t :=
  match os with
  | [] => ([], d)
  | o :: os => let '(r, d1) := step o d in let '(rs, d2) := run os d1 in (r :: rs, d2)
  end.

(** The same on a finite map and the flag; looking a value up in a map that
    is not sorted throws, reading an absent value is undefined. *)
Definition spec_step (o : op) (s : gmap K V * bool) : outcome result * (gmap K V * bool) :=
  let '(m, b) := s in
  let searchable := b || bool_decide (m = ∅) in
  match o with
  | Insert k v => (Ok RUnit, (<[k := v]> m, false))
  | Replace k v =>
      if searchable then (Ok RUnit, (<[k := v]> m, match m !! k with Some _ => b | None => false end))
      else (Throw AssertionFailed, s)
  | Sort => (Ok RUnit, (m, true))
  | Clear => (Ok RUnit, (∅, true))
  | Contains k =>
      (if searchable then Ok (RBool (bool_decide (is_Some (m !! k)))) else Throw AssertionFailed, s)
  | Get k =>
      (if searchable then match m !! k with Some v => Ok (RValue v) | None => Undef end
       else Throw AssertionFailed, s)
  | Size => (if b then Ok (RSize (size m)) else Throw AssertionFailed, s)
  end.

Fixpoint spec_run (os : list op) (s : gmap K V * bool) : list (outcome result) * (gmap K V * bool) :=
  match os with
  | [] => ([], s)
  | o :: os => let '(r, s1) := spec_step o s in let '(rs, s2) := spec_run os s1 in (r :: rs, s2)
  end.

Definition implements (d : t) (s : gmap K V * bool) : Prop := represents d s.1 /\ sorted_ d = s.2.

Lemma represents_empty d m : represents d m -> (m = ∅ <-> items_ d = []).
Proof.
  intros [Hm _]. split.
  - intros ->. destruct (items_ d) as [|[k v] l _] eqn:E using rev_ind; [done|].
    specialize (Hm k). rewrite value_of_app, decide_True in Hm by done. done.
  - intros E. apply map_eq. intros k. by rewrite Hm, E.
Qed.

Lemma searchable_spec d m b : implements d (m, b) ->
  b || bool_decide (m = ∅) = true <-> sorted_ d = true \/ items_ d = [].
Proof. intros [Hr Hs]. simpl in *. rewrite orb_true_iff, bool_decide_eq_true, (represents_empty d m Hr), Hs. done. Qed.

Lemma find_unsorted d m b k : implements d (m, b) -> b || bool_decide (m = ∅) = false ->
  find k d = (Throw AssertionFailed, d).
Proof.
  intros Him Hb. assert (Hn : ~ (sorted_ d = true \/ items_ d = [])).
  { rewrite <- (searchable_spec _ _ _ Him), Hb. done. }
  unfold find. rewrite (M_bind_Ok _ _ _ d d) by done. destruct (items_ d) eqn:E; [tauto|].
  destruct (sorted_ d); [tauto|]. done.
Qed.

Lemma alter_middle l1 (e : K * V) l2 v :
  alter (fun e => (e.1, v)) (length l1) (l1 ++ e :: l2) = l1 ++ (e.1, v) :: l2.
Proof. induction l1 as [|x l1 IH]; simpl; [done|]. by f_equal. Qed.

Lemma replace_at l1 k x v l2 k' :
  keysorted (l1 ++ (k, x) :: l2) ->
  keysorted (l1 ++ (k, v) :: l2) /\
  value_of (l1 ++ (k, v) :: l2) k' = if decide (k = k') then Some v else value_of (l1 ++ (k, x) :: l2) k'.
Proof.
  intros Hs. assert (Hs' : keysorted (l1 ++ (k, v) :: l2)).
  { apply keysorted_app in Hs as (S1 & S2 & H12). apply keysorted_cons in S2 as [S2 H2]. apply keysorted_app.
    split_and!; [done|by apply keysorted_cons|]. intros a b Ha [->|Hb]%elem_of_cons.
    - apply (H12 a (k, x)); [done|set_solver].
    - apply H12; [done|set_solver]. }
  split; [done|]. destruct (decide (k = k')) as [<-|Hne].
  - apply value_of_sorted; [done|set_solver].
  - unfold value_of. by rewrite !filter_app, !filter_cons_False by done.
Qed.

Lemma replace_ok d m b k v : implements d (m, b) -> b || bool_decide (m = ∅) = true ->
  exists d', replace k v d = (Ok tt, d') /\ implements d' (<[k := v]> m, match m !! k with Some _ => b | None => false end).
Proof.
  intros Him Hb. pose proof Him as [Hr Hs]. simpl in *. apply (searchable_spec _ _ _ Him) in Hb.
  destruct (map_find_ok d m k Hr Hb) as (it & E & Hit). unfold replace. rewrite (M_bind_Ok _ _ _ _ _ E).
  destruct it as [i|].
  - destruct Hit as (x & Hi & Hx). rewrite Hx. eexists. split; [done|]. split; [|done]. simpl.
    destruct Hb as [Hb|Hb]; [|by rewrite Hb in Hi]. destruct Hr as [Hm Hks]. specialize (Hks Hb).
    apply list_elem_of_split_length in Hi as (l1 & l2 & E' & ->). rewrite E' in *. split; simpl.
    + intros k'. rewrite alter_middle. cbn [fst]. rewrite (proj2 (replace_at l1 k x v l2 k' Hks)), lookup_insert.
      destruct (decide (k = k')); [done|]. apply Hm.
    + intros _. rewrite alter_middle. cbn [fst]. by apply (replace_at l1 k x v l2 k Hks).
  - rewrite Hit. destruct (map_insert_ok d m k v Hr) as (d' & E' & Hr'). exists d'. split; [done|].
    split; [done|]. simpl. unfold insert, modifyM in E'. by injection E' as <-.
Qed.

Lemma sorted_size d m : represents d m -> sorted_ d = true -> size m = length (items_ d).
Proof.
  intros [Hm Hs] Hb. specialize (Hs Hb). assert (Hnd : NoDup (items_ d).*1).
  { clear Hm. induction (items_ d) as [|[k v] l IH]; [constructor|]. apply keysorted_cons in Hs as [Hs Hk].
    simpl. apply NoDup_cons. split; [|by apply IH]. intros ([k' v'] & Heq & Hin)%list_elem_of_fmap. simpl in Heq.
    subst k'. rewrite Forall_forall in Hk. apply Hk in Hin. by apply klt_irrefl in Hin. }
  rewrite <- (map_size_list_to_map (M := gmap K) (items_ d)) by done. f_equal. apply map_eq. intros k. rewrite Hm.
  destruct ((list_to_map (items_ d) : gmap K V) !! k) as [v|] eqn:E.
  - apply elem_of_list_to_map_2 in E. by apply value_of_sorted.
  - apply not_elem_of_list_to_map_2 in E. apply value_of_none. intros v Hin. apply E, list_elem_of_fmap. by exists (k, v).
Qed.

Lemma map_step_ok o d s : implements d s ->
  exists d', step o d = ((spec_step o s).1, d') /\ implements d' (spec_step o s).2.
Proof.
  destruct s as [m b]. intros Him. pose proof Him as [Hr Hs]. simpl in Hs.
  destruct o as [k v|k v| | |k|k|]; cbn [step spec_step fst snd].
  - destruct (map_insert_ok d m k v Hr) as (d' & E & Hr'). exists d'. rewrite (M_bind_Ok _ _ _ _ _ E). split; [done|].
    split; [done|]. simpl. unfold insert, modifyM in E. by injection E as <-.
  - destruct (b || bool_decide (m = ∅)) eqn:Hb.
    + destruct (replace_ok d m b k v Him Hb) as (d' & E & Hr'). exists d'. by rewrite (M_bind_Ok _ _ _ _ _ E).
    + exists d. split; [|done]. unfold replace. apply M_bind_Throw, M_bind_Throw. by eapply find_unsorted.
  - destruct (map_sort_ok d m Hr) as (d' & E & Hr' & Hs'). exists d'. by rewrite (M_bind_Ok _ _ _ _ _ E).
  - eexists. split; [done|]. split; [|done]. split; simpl; [done|]. intros _. constructor.
  - exists d. split; [|done]. unfold contains. destruct (b || bool_decide (m = ∅)) eqn:Hb.
    + apply (searchable_spec _ _ _ Him) in Hb. destruct (map_find_ok d m k Hr Hb) as (it & E & Hit).
      rewrite (M_bind_Ok _ _ _ (bool_decide (is_Some it)) d) by by rewrite (M_bind_Ok _ _ _ _ _ E).
      destruct it as [i|]; [destruct Hit as (x & _ & ->)|rewrite Hit]; done.
    + apply M_bind_Throw, M_bind_Throw. by eapply find_unsorted.
  - exists d. split; [|done]. unfold get. destruct (b || bool_decide (m = ∅)) eqn:Hb.
    + apply (searchable_spec _ _ _ Him) in Hb. destruct (map_find_ok d m k Hr Hb) as (it & E & Hit).
      unfold mbind at 1, M_bind at 1. rewrite (M_bind_Ok _ _ _ _ _ E), (M_bind_Ok _ _ _ d d) by done.
      destruct it as [i|]; [destruct Hit as (x & -> & ->)|rewrite Hit]; done.
    + apply M_bind_Throw, M_bind_Throw. by eapply find_unsorted.
  - exists d. split; [|done]. unfold size_, mbind, M_bind, getM, assertM, liftM. rewrite Hs. destruct b; [|done].
    rewrite (sorted_size d m) by done. done.
Qed.

Lemma map_run_ok os : forall d s, implements d s ->
  exists d', run os d = ((spec_run os s).1, d') /\ implements d' (spec_run os s).2.
Proof.
  induction os as [|o os IH]; intros d s Him; cbn [run spec_run]; [by exists d|].
  destruct (map_step_ok o d s Him) as (d1 & -> & Him1). destruct (spec_step o s) as [r s1]. simpl in *.
  destruct (IH d1 s1 Him1) as (d2 & -> & Him2). destruct (spec_run os s1) as [rs s2]. simpl in *. by exists d2.
Qed.
End DenseMap.
Arguments t : clear implicits.
Arguments op : clear implicits.
Arguments result : clear implicits.
End DenseMap.

(** C12. Any sequence of operations on a dense map gives the replies of a finite
    map with a sorted flag: later insertions win, searching an unsorted map
    throws, and sorting makes every value found. *)
Theorem dense_map_refines {K V : Type} `{KeyOrder K, !Countable K} (os : list (DenseMap.op K V)) :
  (DenseMap.run os DenseMap.empty_map).1 = (DenseMap.spec_run os (∅, true)).1.
Proof.
  destruct (DenseMap.map_run_ok os DenseMap.empty_map (∅, true)) as (d & -> & _); [|done].
  split; [|done]. split; [done|]. intros _. constructor.
Qed.

(** ** DenseSet *)

Module DenseSet.
Section DenseSet.
Context {V : Type} `{KeyOrder V} `{!Countable V}.

Record t : Type := mk { values_ : list V; sorted_ : bool }.

Definition empty_set : t := mk [] true.

(** [!values_.empty() && v <= values_.back()] *)
Definition insert (v : V) : M t unit := modifyM (fun d =>
  mk (values_ d ++ [v])
     (match last (values_ d) with
      | Some b => if decide (klt b v) then sorted_ d else false
      | None => sorted_ d
      end)).

Definition clear : M t unit := modifyM (fun _ => mk [] true).

Definition sort : M t unit := modifyM (fun d =>
  if sorted_ d then d else mk (unique id (stable_sort id (values_ d))) true).

Definition find (v : V) : M t (option nat) :=
  d ← getM;
  match values_ d with
  | [] => mret None
  | _ =>
      assertM (sorted_ d) ;;
      let it := lower_bound (fun x => bool_decide (klt x v)) (values_ d) in
      mret (match values_ d !! it with
            | Some x => if decide (x = v) then Some it else None
            | None => None
            end)
  end.

Definition contains (v : V) : M t bool := it ← find v; mret (bool_decide (is_Some it)).

(** [while (j < other.values_.size())]: [values_] grows in place. *)
Fixpoint merge_loop (fuel i j : nat) (values other : list V) : outcome (list V) :=
  match fuel with
  | O => NoFuel
  | S f =>
      match other !! j with
      | None => Ok values
      | Some y =>
          match values !! i with
          | None => merge_loop f (S i) (S j) (take i values ++ y :: drop i values) other
          | Some x =>
              if decide (klt y x) then merge_loop f (S i) (S j) (take i values ++ y :: drop i values) other
              else if decide (x = y) then merge_loop f i (S j) values other
              else merge_loop f (S i) j values other
          end
      end
  end.

Definition merge (other : t) : M t unit :=
  d ← getM;
  match values_ other, values_ d with
  | [], _ => mret tt
  | _, [] => putM other
  | _, _ =>
      assertM (sorted_ d) ;;
      assertM (sorted_ other) ;;
      vs ← liftM (merge_loop (S (length (values_ d) + length (values_ other))) 0 0 (values_ d) (values_ other));
      putM (mk vs (sorted_ d))
  end.

(** ** Representation *)

Definition increasing (l : list V) : Prop := StronglySorted klt l.

Definition represents (d : t) (s : gset V) : Prop :=
  s = list_to_set (values_ d) /\ (sorted_ d = true -> increasing (values_ d)).

Lemma increasing_app l1 l2 :
  increasing (l1 ++ l2) <-> increasing l1 /\ increasing l2 /\ forall a b, a ∈ l1 -> b ∈ l2 -> klt a b.
Proof. unfold increasing. rewrite StronglySorted_app. tauto. Qed.

Lemma increasing_cons x l : increasing (x :: l) <-> increasing l /\ Forall (klt x) l.
Proof. unfold increasing. rewrite StronglySorted_cons. tauto. Qed.

(** Appending a larger value keeps the order. *)
Lemma set_insert_ok d s v : represents d s ->
  exists d', insert v d = (Ok tt, d') /\ represents d' ({[v]} ∪ s).
Proof.
  intros [-> Hs]. eexists. split; [done|]. split; simpl; [rewrite list_to_set_app_L; set_solver|].
  destruct (last (values_ d)) as [b|] eqn:Hb.
  - case_decide as Hk; [|done]. intros Hd. specialize (Hs Hd). apply last_Some in Hb as [l E]. rewrite E in *.
    apply increasing_app. split_and!; [done|repeat constructor|]. intros a c Ha Hc. apply list_elem_of_singleton in Hc as ->.
    apply elem_of_app in Ha as [Ha|Ha%list_elem_of_singleton]; [|by subst].
    apply increasing_app in Hs as (_ & _ & Hs). trans b; [|done]. apply Hs; [done|set_solver].
  - apply last_None in Hb. rewrite Hb. intros _. repeat constructor.
Qed.

Lemma unique_from_elem (p : V) l x : x ∈ p :: unique_from id p l <-> x ∈ p :: l.
Proof.
  revert p. induction l as [|y l IH]; intros p; simpl; [done|]. unfold id. case_decide as E.
  - subst y. specialize (IH p). set_solver.
  - specialize (IH y). set_solver.
Qed.

Lemma unique_elem (l : list V) x : x ∈ unique id l <-> x ∈ l.
Proof. destruct l as [|y l]; [done|]. apply unique_from_elem. Qed.

Lemma unique_from_sorted l : forall p : V, weakly_sorted id (p :: l) -> increasing (p :: unique_from id p l).
Proof.
  induction l as [|y l IH]; intros p Hs; simpl; [repeat constructor|].
  apply StronglySorted_cons in Hs as [Hp Hs]. pose proof Hs as [Hy Hsl]%StronglySorted_cons.
  apply Forall_cons in Hp as [Hpy Hp]. unfold id in *. case_decide as E.
  - subst y. apply IH. by constructor.
  - apply not_klt in Hpy as [Hpy|Hpy]; [congruence|]. specialize (IH y Hs). apply increasing_cons. split; [done|].
    apply increasing_cons in IH as [_ Hf]. constructor; [done|]. eapply Forall_impl; [exact Hf|]. simpl. intros z Hz. by trans y.
Qed.

Lemma stable_sort_elem (l : list V) x : x ∈ stable_sort id l <-> x ∈ l.
Proof. induction l as [|y l IH]; simpl; [done|]. rewrite sort_insert_elem, IH. set_solver. Qed.

Lemma set_sort_ok d s : represents d s ->
  exists d', sort d = (Ok tt, d') /\ represents d' s /\ sorted_ d' = true.
Proof.
  intros Hr. pose proof Hr as [E Hs]. unfold sort, modifyM. destruct (sorted_ d) eqn:Hd; [by exists d|].
  eexists. split; [done|]. split; [|done]. split; simpl.
  - rewrite E. apply set_eq. intros x. by rewrite !elem_of_list_to_set, unique_elem, stable_sort_elem.
  - intros _. pose proof (stable_sort_sorted id (values_ d)) as Hw. destruct (stable_sort id (values_ d)); [constructor|].
    by apply unique_from_sorted.
Qed.

Lemma set_find_ok d s v : represents d s -> sorted_ d = true -> contains v d = (Ok (bool_decide (v ∈ s)), d).
Proof.
  intros [-> Hs] Hd. specialize (Hs Hd). unfold contains.
  assert (E : exists it, find v d = (Ok it, d) /\ (is_Some it <-> v ∈ values_ d)).
  { unfold find. rewrite (M_bind_Ok _ _ _ d d) by done. destruct (values_ d) as [|x l] eqn:Ev.
    { exists None. split; [done|]. split; [by intros [? ?]|set_solver]. }
    rewrite <- Ev in *. rewrite (M_bind_Ok _ _ _ tt d) by by rewrite Hd. eexists. split; [reflexivity|].
    set (f := fun x => bool_decide (klt x v)).
    assert (Hp : partitioned f (values_ d)).
    { intros i j a b Hij Ha Hb. unfold f. rewrite !bool_decide_eq_true. intros Hbv. trans b; [|done].
      rewrite <- (take_drop j (values_ d)) in Hs. apply increasing_app in Hs as (_ & _ & Hs). apply Hs.
      - apply list_elem_of_lookup. exists i. by rewrite lookup_take_lt.
      - apply list_elem_of_lookup. exists 0. by rewrite lookup_drop, Nat.add_0_r. }
    destruct (lower_bound_spec f _ Hp) as (Hn & Hlo & Hhi). set (n := lower_bound f (values_ d)) in *. split.
    - intros [i Hi]. revert Hi. destruct (values_ d !! n) as [y|] eqn:Hy; [|discriminate].
      case_decide; [|discriminate]. intros _. subst y. by eapply list_elem_of_lookup_2.
    - intros [i Hi]%list_elem_of_lookup. destruct (decide (i < n)) as [Hlt|Hge].
      { specialize (Hlo i v Hlt Hi). unfold f in Hlo. apply bool_decide_eq_true in Hlo. by apply klt_irrefl in Hlo. }
      destruct (decide (i = n)) as [->|Hne]; [rewrite Hi, decide_True by done; by eexists|].
      destruct (lookup_lt_is_Some_2 (values_ d) n) as [y Hy]; [apply lookup_lt_Some in Hi; lia|].
      specialize (Hhi n y ltac:(lia) Hy). unfold f in Hhi. apply bool_decide_eq_false in Hhi. exfalso. apply Hhi.
      rewrite <- (take_drop i (values_ d)) in Hs. apply increasing_app in Hs as (_ & _ & Hs). apply Hs.
      + apply list_elem_of_lookup. exists n. by rewrite lookup_take_lt by lia.
      + apply list_elem_of_lookup. exists 0. by rewrite lookup_drop, Nat.add_0_r. }
  destruct E as (it & E & Hit). rewrite (M_bind_Ok _ _ _ _ _ E). unfold mret, M_ret.
  by rewrite (bool_decide_ext (is_Some it) (v ∈ (list_to_set (values_ d) : gset V))) by (by rewrite elem_of_list_to_set).
Qed.

(** The two-pointer merge keeps the values in order and adds those of the
    other set. *)
Lemma merge_loop_ok fuel : forall i j values other,
  increasing values -> increasing other -> i <= length values ->
  (forall x y, x ∈ take i values -> y ∈ drop j other -> klt x y) ->
  (length values - i) + (length other - j) < fuel ->
  exists r, merge_loop fuel i j values other = Ok r /\ increasing r /\
    forall x, x ∈ r <-> x ∈ values \/ x ∈ drop j other.
Proof.
  induction fuel as [|fuel IH]; intros i j values other Hv Ho Hi Hlt Hf; [lia|]. cbn [merge_loop].
  destruct (other !! j) as [y|] eqn:Hy.
  2:{ exists values. apply lookup_ge_None_1 in Hy. rewrite drop_ge by done. split_and!; [done..|]. set_solver. }
  pose proof (lookup_lt_Some _ _ _ Hy) as Hj. rewrite (drop_S _ _ _ Hy) in *.
  assert (Hyo : forall z, z ∈ drop (S j) other -> klt y z).
  { intros z Hz. rewrite <- (take_drop j other) in Ho. apply increasing_app in Ho as (_ & Ho & _).
    rewrite (drop_S _ _ _ Hy) in Ho. apply increasing_cons in Ho as [_ Ho]. rewrite Forall_forall in Ho. by apply Ho. }
  assert (Hins : (forall x, x ∈ drop i values -> klt y x) -> exists r,
    merge_loop fuel (S i) (S j) (take i values ++ y :: drop i values) other = Ok r /\ increasing r /\
    forall x, x ∈ r <-> x ∈ values \/ x ∈ y :: drop (S j) other).
  { intros Hd. set (values' := take i values ++ y :: drop i values).
    assert (El : take (S i) values' = take i values ++ [y]).
    { unfold values'. change (y :: drop i values) with ([y] ++ drop i values). rewrite app_assoc.
      apply take_app_length'. rewrite length_app, length_take. simpl. lia. }
    destruct (IH (S i) (S j) values' other) as (r & E & Hr & Hx); [|done| | | |].
    - pose proof Hv as Hv'. rewrite <- (take_drop i values) in Hv'. apply increasing_app in Hv' as (V1 & V2 & V12).
      apply increasing_app. split_and!; [done|apply increasing_cons; split; [done|by apply Forall_forall]|].
      intros a b Ha [->|Hb]%elem_of_cons; [apply Hlt; [done|set_solver]|by apply V12].
    - unfold values'. rewrite length_app, length_take. simpl. rewrite length_drop. lia.
    - rewrite El. intros a b [Ha|Ha%list_elem_of_singleton]%elem_of_app Hb; [apply Hlt; [done|set_solver]|subst a; by apply Hyo].
    - unfold values'. rewrite length_app, length_take. simpl. rewrite length_drop. lia.
    - exists r. split_and!; [done|done|]. intros x. rewrite Hx. unfold values'.
      rewrite <- (take_drop i values) at 3. set_solver. }
  destruct (values !! i) as [x|] eqn:Hx.
  2:{ apply Hins. apply lookup_ge_None_1 in Hx. rewrite drop_ge by done. set_solver. }
  assert (Hxv : forall z, z ∈ drop (S i) values -> klt x z).
  { intros z Hz. pose proof Hv as Hv'. rewrite <- (take_drop i values) in Hv'. apply increasing_app in Hv' as (_ & Hv' & _).
    rewrite (drop_S _ _ _ Hx) in Hv'. apply increasing_cons in Hv' as [_ Hv']. rewrite Forall_forall in Hv'. by apply Hv'. }
  pose proof (lookup_lt_Some _ _ _ Hx) as Hil.
  case_decide as Hyx.
  { apply Hins. intros z. rewrite (drop_S _ _ _ Hx). intros [->|Hz]%elem_of_cons; [done|]. trans x; [done|by apply Hxv]. }
  case_decide as Exy.
  - subst y. destruct (IH i (S j) values other) as (r & E & Hr & Hx'); [exact Hv|exact Ho|exact Hi| |lia|].
    { intros a b Ha Hb. apply Hlt; [done|set_solver]. }
    exists r. split_and!; [exact E|exact Hr|]. intros z. rewrite Hx'. apply list_elem_of_lookup_2 in Hx. set_solver.
  - assert (Hxy : klt x y) by (apply not_klt in Hyx as [?|?]; [congruence|done]).
    destruct (IH (S i) j values other) as (r & E & Hr & Hx'); [done|done|lia| |lia|].
    { rewrite (drop_S _ _ _ Hy). rewrite (take_S_r _ _ _ Hx). intros a b [Ha|Ha%list_elem_of_singleton]%elem_of_app Hb; [by apply Hlt|].
      subst a. apply elem_of_cons in Hb as [->|Hb]; [done|]. trans y; [done|by apply Hyo]. }
    exists r. rewrite (drop_S _ _ _ Hy) in Hx'. done.
Qed.

Lemma merge_ok d s other s' : represents d s -> represents other s' ->
  sorted_ d = true -> sorted_ other = true ->
  exists d', merge other d = (Ok tt, d') /\ represents d' (s ∪ s') /\ sorted_ d' = true.
Proof.
  intros [E Hs] [E' Hs'] Hd Ho. unfold merge. rewrite (M_bind_Ok _ _ _ d d) by done.
  destruct (values_ other) as [|o os] eqn:Eo.
  { exists d. split; [done|]. split; [|done]. split; [|done]. rewrite E, E'. set_solver. }
  destruct (values_ d) as [|x l] eqn:Ed.
  { exists other. split; [done|]. split; [|done]. split; [|by rewrite Eo]. rewrite E, E', Eo. set_solver. }
  rewrite <- Eo, <- Ed in *.
  rewrite (M_bind_Ok _ _ _ tt d) by by rewrite Hd. rewrite (M_bind_Ok _ _ _ tt d) by by rewrite Ho.
  destruct (merge_loop_ok (S (length (values_ d) + length (values_ other))) 0 0 (values_ d) (values_ other))
    as (r & Er & Hr & Hx); [by apply Hs|by apply Hs'|lia|set_solver|lia|].
  rewrite (M_bind_Ok _ _ _ r d) by (unfold liftM; by rewrite Er). eexists. split; [done|]. split; [|done].
  split; simpl; [|done].
  rewrite E, E'. apply set_eq. intros z. rewrite elem_of_union, !elem_of_list_to_set, Hx. by rewrite drop_0.
Qed.

(** A client that fills a set and sorts it. *)
Fixpoint fill (l : list V) : M t unit :=
  match l with [] => sort | v :: l => insert v ;; fill l end.

Lemma fill_ok l : forall d s, represents d s ->
  exists d', fill l d = (Ok tt, d') /\ represents d' (list_to_set l ∪ s) /\ sorted_ d' = true.
Proof.
  induction l as [|v l IH]; intros d s Hr; cbn [fill].
  { destruct (set_sort_ok d s Hr) as (d' & E & Hr' & Hs). exists d'. split_and!; [done| |done].
    by replace (list_to_set [] ∪ s) with s by set_solver. }
  destruct (set_insert_ok d s v Hr) as (d1 & E1 & Hr1). rewrite (M_bind_Ok _ _ _ _ _ E1).
  destruct (IH d1 _ Hr1) as (d2 & E2 & Hr2 & Hs2). exists d2. split_and!; [done| |done].
  by replace (list_to_set (v :: l) ∪ s) with (list_to_set l ∪ ({[v]} ∪ s)) by set_solver.
Qed.
End DenseSet.
Arguments t : clear implicits.
End DenseSet.

(** Two dense sets filled in any order and sorted: merging one into the other
    gives the union, without repetition and in increasing order, and [contains]
    decides membership. *)
Theorem dense_set_merge {V : Type} `{KeyOrder V, !Countable V} (l l' : list V) :
  exists d1 o1 d2, DenseSet.fill l DenseSet.empty_set = (Ok tt, d1) /\
    DenseSet.fill l' DenseSet.empty_set = (Ok tt, o1) /\ DenseSet.merge o1 d1 = (Ok tt, d2) /\
    StronglySorted klt (DenseSet.values_ d2) /\
    (forall v, v ∈ DenseSet.values_ d2 <-> v ∈ l \/ v ∈ l') /\
    (forall v, DenseSet.contains v d2 = (Ok (bool_decide (v ∈ l \/ v ∈ l')), d2)).
Proof.
  assert (H0 : DenseSet.represents (DenseSet.empty_set (V := V)) ∅) by (split; [done|]; intros _; constructor).
  destruct (DenseSet.fill_ok l _ _ H0) as (d1 & E1 & Hd1 & S1).
  destruct (DenseSet.fill_ok l' _ _ H0) as (o1 & E2 & Ho1 & S2).
  destruct (DenseSet.merge_ok d1 _ o1 _ Hd1 Ho1 S1 S2) as (d2 & E3 & Hd2 & S3).
  exists d1, o1, d2. split_and!; try done.
  - by apply Hd2.
  - intros v. destruct Hd2 as [Ev _]. rewrite <- (elem_of_list_to_set (C := gset V)), <- Ev. set_solver.
  - intros v. rewrite (DenseSet.set_find_ok d2 _ v Hd2 S3). repeat f_equal. apply bool_decide_ext. set_solver.
Qed.
