(* ===== verification/Queue.v ===== *)
(** * The threaded queue

    [container/Queue.h]: a bounded queue shared by threads.  Every method takes the
    mutex on entry and holds it until it returns, throws, or waits on the condition
    variable, which releases it.  A method is therefore run from the head of its
    waiting loop to the next of these points as one step ([exec]), and threads
    interleave between such steps.  Waiting threads are woken by [notify_all], or
    spuriously, and test their condition again. *)
From S2P Require Import Prelude.

Section Queue.
Context {ELEM : Type}.

Record Queue : Type := mkQueue {
  queue_ : list ELEM;
  max_ : nat;
  interrupt_ : option exn;
  closed_ : bool }.

Definition newQueue (max : nat) : outcome Queue :=
  ASSERT (bool_decide (0 < max)%nat) ;; Ok (mkQueue [] max None false).

(** The calls that a thread can make, with their arguments. *)
Inductive op : Type :=
| Resize (size : nat)
| Close
| Closed
| Empty
| Interrupt (e : exn)
| Pop
| PopMany (elems : list ELEM)
| Push (e : ELEM)
| Emplace (e : ELEM).

(** What they return; [pop] also stores into its argument. *)
Inductive value : Type :=
| VVoid
| VBool (b : bool)
| VSize (n : nat)
| VPop (n : Z) (e : option ELEM)
| VMany (n : Z) (elems : list ELEM).

(** A method waits, or finishes (and has notified the waiting threads or not). *)
Inductive effect : Type :=
| Waits
| Finishes (r : outcome value) (q : Queue) (notify : bool).

Implicit Types q : Queue.

Definition set_queue (l : list ELEM) q : Queue := mkQueue l (max_ q) (interrupt_ q) (closed_ q).

(** [while (checkInterrupt() && blocked) wait] *)
Definition wait_while q (blocked : bool) (e : effect) : effect :=
  match interrupt_ q with
  | Some x => Finishes (Throw x) q false
  | None => if blocked then Waits else e
  end.

Definition resize (size : nat) q : effect :=
  if decide (0 < size)%nat then
    wait_while q (bool_decide (size < length (queue_ q))%nat)
      (if closed_ q then Finishes (Throw AssertionFailed) q false
       else Finishes (Ok VVoid) (mkQueue (queue_ q) size (interrupt_ q) (closed_ q)) true)
  else Finishes (Throw AssertionFailed) q false.

Definition close q : effect :=
  Finishes (Ok VVoid) (mkQueue (queue_ q) (max_ q) (interrupt_ q) true) true.

Definition closed q : effect :=
  Finishes (Ok (VBool (closed_ q || bool_decide (is_Some (interrupt_ q))))) q false.

Definition empty q : effect := Finishes (Ok (VBool (bool_decide (queue_ q = [])))) q false.

Definition interrupt (e : exn) q : effect :=
  Finishes (Ok VVoid) (mkQueue (queue_ q) (max_ q) (Some e) (closed_ q)) true.

(** On a closed queue the loop returns [-1] instead of waiting. *)
Definition pop q : effect :=
  match queue_ q with
  | [] => wait_while q (negb (closed_ q)) (Finishes (Ok (VPop (-1) None)) q false)
  | e :: l => wait_while q false (Finishes (Ok (VPop (zlen l) (Some e))) (set_queue l q) true)
  end.

Definition popMany (elems : list ELEM) q : effect :=
  match queue_ q with
  | [] => wait_while q (negb (closed_ q)) (Finishes (Ok (VMany (-1) elems)) q false)
  | l =>
      let count := Nat.min (length elems) (length l) in
      wait_while q false
        (Finishes (Ok (VMany (Z.of_nat count) (take count l ++ drop count elems))) (set_queue (drop count l) q) true)
  end.

Definition push (e : ELEM) q : effect :=
  wait_while q (bool_decide (max_ q <= length (queue_ q))%nat)
    (if closed_ q then Finishes (Throw AssertionFailed) q false
     else Finishes (Ok (VSize (length (queue_ q) + 1))) (set_queue (queue_ q ++ [e]) q) true).

Definition exec (o : op) q : effect :=
  match o with
  | Resize n => resize n q
  | Close => close q
  | Closed => closed q
  | Empty => empty q
  | Interrupt e => interrupt e q
  | Pop => pop q
  | PopMany elems => popMany elems q
  | Push e | Emplace e => push e q
  end.

(** ** Threads *)

Inductive thread : Type :=
| Idle
| Ready (o : op)
| Waiting (o : op)
| Returned (r : outcome value).

Record config : Type := mkConfig { shared : Queue; threads : list thread }.

Definition wake (th : thread) : thread := match th with Waiting o => Ready o | _ => th end.

(** A step of the system, with the call that completed in it. *)
Inductive step (c : config) : option (op * outcome value) -> config -> Prop :=
| step_call t th o :
    threads c !! t = Some th -> (th = Idle \/ exists r, th = Returned r) ->
    step c None (mkConfig (shared c) (<[t := Ready o]> (threads c)))
| step_wait t o :
    threads c !! t = Some (Ready o) -> exec o (shared c) = Waits ->
    step c None (mkConfig (shared c) (<[t := Waiting o]> (threads c)))
| step_finish t o r q notify :
    threads c !! t = Some (Ready o) -> exec o (shared c) = Finishes r q notify ->
    step c (Some (o, r))
      (mkConfig q (let ts := <[t := Returned r]> (threads c) in if notify then wake <$> ts else ts))
| step_spurious t o :
    threads c !! t = Some (Waiting o) -> step c None (mkConfig (shared c) (<[t := Ready o]> (threads c))).

(** The completed calls, in the order in which they took effect. *)
Inductive steps : config -> list (op * outcome value) -> config -> Prop :=
| steps_nil c : steps c [] c
| steps_snoc c tr c1 l c2 : steps c tr c1 -> step c1 l c2 -> steps c (tr ++ option_list l) c2.

Definition initial (max n : nat) : config := mkConfig (mkQueue [] max None false) (replicate n Idle).

(** ** First in, first out *)

Definition pushed1 (x : op * outcome value) : list ELEM :=
  match x with (Push e, Ok _) | (Emplace e, Ok _) => [e] | _ => [] end.
Definition popped1 (x : op * outcome value) : list ELEM :=
  match x with
  | (Pop, Ok (VPop _ (Some e))) => [e]
  | (PopMany _, Ok (VMany n elems)) => take (Z.to_nat n) elems
  | _ => []
  end.
Definition pushed (tr : list (op * outcome value)) : list ELEM := tr ≫= pushed1.
Definition popped (tr : list (op * outcome value)) : list ELEM := tr ≫= popped1.

Definition bounded q : Prop := (0 < max_ q /\ length (queue_ q) <= max_ q)%nat.

(** Case analysis of a method. *)
Ltac cases :=
  repeat match goal with
         | H : context [match ?x with _ => _ end] |- _ => destruct x eqn:?; simplify_eq/=
         | H : bool_decide _ = true |- _ => apply bool_decide_eq_true in H
         | H : bool_decide _ = false |- _ => apply bool_decide_eq_false in H
         end; simplify_eq/=.
Ltac unfold_ops := unfold exec, resize, close, closed, empty, interrupt, pop, popMany, push, wait_while, set_queue, bounded in *.

Lemma exec_bounded o q r q' n : bounded q -> exec o q = Finishes r q' n -> bounded q'.
Proof.
  intros Hb E. destruct o; unfold_ops; cases; rewrite ?length_app, ?length_drop in *; simpl in *;
    try lia; rewrite Heql; simpl; lia.
Qed.

Lemma exec_fifo o q r q' n : exec o q = Finishes r q' n -> queue_ q ++ pushed1 (o, r) = popped1 (o, r) ++ queue_ q'.
Proof.
  intros E. destruct o; unfold_ops; cases; rewrite ?app_nil_r; try done.
  rewrite Nat2Z.id, take_app_le, take_take, Nat.min_id by (rewrite length_take; simpl; lia).
  symmetry. apply take_drop.
Qed.

Lemma bind_snoc {A B} (f : A -> list B) l (o : option A) : (l ++ option_list o) ≫= f = (l ≫= f) ++ from_option f [] o.
Proof. rewrite bind_app. destruct o; simpl; by rewrite ?app_nil_r. Qed.

(** ** Nobody sleeps who could proceed *)

Definition asleep_blocked (c : config) : Prop :=
  forall t o, threads c !! t = Some (Waiting o) -> exec o (shared c) = Waits.

(** A method that changes the queue notifies. *)
Lemma exec_notifies o q r q' : exec o q = Finishes r q' false -> q' = q.
Proof. intros E. destruct o; unfold_ops; cases; done. Qed.

Lemma waiting_insert (ts : list thread) t th t' o :
  <[t := th]> ts !! t' = Some (Waiting o) -> th = Waiting o \/ ts !! t' = Some (Waiting o).
Proof. intros [(_ & -> & _)|[_ ?]]%list_lookup_insert_Some; [by left|by right]. Qed.

Lemma step_asleep_blocked c l c' : asleep_blocked c -> step c l c' -> asleep_blocked c'.
Proof.
  intros Hc Hs. inversion Hs as [t th o Ht Hth|t o Ht E|t o r q notify Ht E|t o Ht]; subst; intros t' o' Ht'; simpl in *.
  - apply waiting_insert in Ht' as [?|?]; [done|by eapply Hc].
  - apply waiting_insert in Ht' as [?|?]; [by simplify_eq|by eapply Hc].
  - destruct notify.
    + rewrite list_lookup_fmap in Ht'. by destruct (<[t:=Returned r]> (threads c) !! t') as [[]|].
    + apply exec_notifies in E as ->. apply waiting_insert in Ht' as [?|?]; [done|by eapply Hc].
  - apply waiting_insert in Ht' as [?|?]; [done|by eapply Hc].
Qed.

Lemma steps_invariant (P : config -> Prop) :
  (forall c l c', P c -> step c l c' -> P c') -> forall c tr c', steps c tr c' -> P c -> P c'.
Proof. intros HP c tr c' Hs Hc. induction Hs; [done|]. eapply HP; [|done]. by apply IHHs. Qed.

Lemma initial_asleep max n : asleep_blocked (initial max n).
Proof. intros t o Ht. apply lookup_replicate_1 in Ht as [? _]. done. Qed.

Lemma step_bounded c l c' : bounded (shared c) -> step c l c' -> bounded (shared c').
Proof. intros Hb Hs. inversion Hs; subst; simpl; try done. by eapply exec_bounded. Qed.

(** What a waiting call waits for. *)
Lemma waits_push e q : exec (Push e) q = Waits -> (max_ q <= length (queue_ q))%nat.
Proof. intros E. unfold_ops. cases. done. Qed.
Lemma waits_pop q : exec Pop q = Waits -> queue_ q = [] /\ closed_ q = false /\ interrupt_ q = None.
Proof. intros E. unfold_ops. cases. by destruct (closed_ q). Qed.

(** ** Progress of producers and consumers *)

(** A pending call of a consumer or a producer, and one of the other methods. *)
Definition is_push (th : thread) : nat :=
  match th with Ready (Push _) | Ready (Emplace _) | Waiting (Push _) | Waiting (Emplace _) => 1 | _ => 0 end.
Definition is_pop (th : thread) : nat := match th with Ready Pop | Waiting Pop => 1 | _ => 0 end.
Definition simple (th : thread) : Prop :=
  match th with
  | Ready o | Waiting o => match o with Pop | Push _ | Emplace _ => True | _ => False end
  | Idle | Returned (Ok _) => True
  | Returned _ => False
  end.

Fixpoint total (f : thread -> nat) (ts : list thread) : nat :=
  match ts with [] => 0 | th :: ts => f th + total f ts end.

(** As many elements are to be taken as there are, in the queue or to come. *)
Definition balanced (c : config) : Prop :=
  closed_ (shared c) = false /\ interrupt_ (shared c) = None /\ bounded (shared c) /\ asleep_blocked c /\
  Forall simple (threads c) /\
  total is_pop (threads c) = (total is_push (threads c) + length (queue_ (shared c)))%nat.

(** Steps without new calls: [n] of them run a thread, [k] are spurious wake-ups. *)
Inductive run : nat -> nat -> config -> config -> Prop :=
| run_nil c : run 0 0 c c
| run_wait n k c c1 t o :
    run n k c c1 -> threads c1 !! t = Some (Ready o) -> exec o (shared c1) = Waits ->
    run (S n) k c (mkConfig (shared c1) (<[t := Waiting o]> (threads c1)))
| run_finish n k c c1 t o r q notify :
    run n k c c1 -> threads c1 !! t = Some (Ready o) -> exec o (shared c1) = Finishes r q notify ->
    run (S n) k c (mkConfig q (let ts := <[t := Returned r]> (threads c1) in if notify then wake <$> ts else ts))
| run_spurious n k c c1 t o :
    run n k c c1 -> threads c1 !! t = Some (Waiting o) ->
    run n (S k) c (mkConfig (shared c1) (<[t := Ready o]> (threads c1))).

Definition weight (n : nat) (th : thread) : nat :=
  match th with Ready _ => n + 2 | Waiting _ => n + 1 | _ => 0 end.
Definition work (c : config) : nat := total (weight (length (threads c))) (threads c).

Lemma total_insert f ts t th th' :
  ts !! t = Some th -> (total f (<[t := th']> ts) + f th = total f ts + f th')%nat.
Proof.
  revert t. induction ts as [|x ts IH]; intros [|t] Ht; simplify_eq/=; [lia|]. specialize (IH t Ht). lia.
Qed.

Lemma total_wake f ts : (forall th, f (wake th) = f th) -> total f (wake <$> ts) = total f ts.
Proof. intros Hf. induction ts as [|th ts IH]; [done|]. rewrite fmap_cons. cbn [total]. by rewrite Hf, IH. Qed.

Lemma total_wake_weight n ts : (total (weight n) (wake <$> ts) <= total (weight n) ts + length ts)%nat.
Proof. induction ts as [|th ts IH]; [done|]. rewrite fmap_cons. cbn [total length]. destruct th; simpl; lia. Qed.

Lemma total_zero f ts th t : ts !! t = Some th -> total f ts = 0%nat -> f th = 0%nat.
Proof. revert t. induction ts as [|x ts IH]; intros [|t] Ht E; simplify_eq/=; [lia|]. eapply IH; [done|lia]. Qed.

Lemma total_none f ts : Forall (fun th => f th = 0%nat) ts -> total f ts = 0%nat.
Proof. induction 1 as [|th ts Hth _ IH]; simpl; lia. Qed.

(** The calls that end, and how they change the counts. *)
Lemma simple_exec o q r q' notify :
  simple (Ready o) -> closed_ q = false -> interrupt_ q = None -> exec o q = Finishes r q' notify ->
  notify = true /\ simple (Returned r) /\ closed_ q' = false /\ interrupt_ q' = None /\
  (length (queue_ q) + is_push (Ready o) = length (queue_ q') + is_pop (Ready o))%nat.
Proof.
  intros Ho Hc Hi E. destruct o; try done; unfold_ops; rewrite Hc, Hi in E; cases; rewrite ?length_app; simpl; split_and!; try done; try lia.
Qed.

Lemma simple_insert ts t th th' :
  Forall simple ts -> ts !! t = Some th -> simple th' -> Forall simple (<[t := th']> ts).
Proof. intros Hs Ht Hth. by apply Forall_insert. Qed.

Lemma simple_wake ts : Forall simple ts -> Forall simple (wake <$> ts).
Proof. intros Hs. apply Forall_fmap. eapply Forall_impl; [done|]. by intros []. Qed.

Lemma finish_balanced c t o r q notify :
  balanced c -> threads c !! t = Some (Ready o) -> exec o (shared c) = Finishes r q notify ->
  let c' := mkConfig q (let ts := <[t := Returned r]> (threads c) in if notify then wake <$> ts else ts) in
  balanced c' /\ length (threads c') = length (threads c) /\ (1 + work c' <= work c)%nat.
Proof.
  intros (Hc & Hi & Hb & Ha & Hs & Hbal) Ht E c'. pose proof (Forall_lookup_1 _ _ _ _ Hs Ht) as Ho.
  destruct (simple_exec o _ r q notify Ho Hc Hi E) as (-> & Hr & Hc' & Hi' & Hcount).
  assert (Hlen : length (threads c') = length (threads c)) by (simpl; by rewrite length_fmap, length_insert).
  split; [split_and!; try done|].
  - by eapply exec_bounded.
  - eapply step_asleep_blocked; [done|]. by eapply (step_finish _ _ _ _ _ true).
  - by eapply simple_wake, simple_insert.
  - simpl. rewrite !total_wake by (by intros []).
    pose proof (total_insert is_pop _ _ _ (Returned r) Ht). pose proof (total_insert is_push _ _ _ (Returned r) Ht).
    simpl in *. lia.
  - split; [done|]. unfold work. rewrite Hlen. simpl.
    pose proof (total_wake_weight (length (threads c)) (<[t:=Returned r]> (threads c))) as Hw.
    rewrite length_insert in Hw. pose proof (total_insert (weight (length (threads c))) _ _ _ (Returned r) Ht). simpl in *. lia.
Qed.

Lemma turn_balanced c t th th' :
  balanced c -> threads c !! t = Some th -> simple th' -> is_pop th' = is_pop th -> is_push th' = is_push th ->
  asleep_blocked (mkConfig (shared c) (<[t := th']> (threads c))) ->
  balanced (mkConfig (shared c) (<[t := th']> (threads c))).
Proof.
  intros (Hc & Hi & Hb & Ha & Hs & Hbal) Ht Hth E1 E2 Ha'. split_and!; try done; [by eapply simple_insert|]. simpl.
  pose proof (total_insert is_pop _ _ _ th' Ht). pose proof (total_insert is_push _ _ _ th' Ht). lia.
Qed.

Lemma run_balanced n k c c' :
  run n k c c' -> balanced c ->
  balanced c' /\ length (threads c') = length (threads c) /\ (n + work c' <= work c + k)%nat.
Proof.
  induction 1 as [c|n k c c1 t o Hr IH Ht E|n k c c1 t o r q notify Hr IH Ht E|n k c c1 t o Hr IH Ht];
    intros Hb; [split_and!; try done; lia|destruct (IH Hb) as (Hb1 & Hl & Hw)..].
  - pose proof (Forall_lookup_1 _ _ _ _ (proj1 (proj2 (proj2 (proj2 (proj2 Hb1))))) Ht) as Ho. split_and!.
    + eapply turn_balanced; try done. eapply step_asleep_blocked; [apply Hb1|]. by eapply step_wait.
    + simpl. by rewrite length_insert.
    + unfold work in *. simpl. rewrite length_insert.
      pose proof (total_insert (weight (length (threads c1))) _ _ _ (Waiting o) Ht). simpl in *. lia.
  - destruct (finish_balanced c1 t o r q notify Hb1 Ht E) as (Hb2 & Hl2 & Hw2). split_and!; [done|by rewrite Hl2|lia].
  - pose proof (Forall_lookup_1 _ _ _ _ (proj1 (proj2 (proj2 (proj2 (proj2 Hb1))))) Ht) as Ho. split_and!.
    + eapply turn_balanced; try done. eapply step_asleep_blocked; [apply Hb1|]. by eapply step_spurious.
    + simpl. by rewrite length_insert.
    + unfold work in *. simpl. rewrite length_insert.
      pose proof (total_insert (weight (length (threads c1))) _ _ _ (Ready o) Ht). simpl in *. lia.
Qed.

(** Nobody waits when nobody can run. *)
Lemma stuck_balanced c :
  balanced c -> (forall t o, threads c !! t <> Some (Ready o)) -> forall t o, threads c !! t <> Some (Waiting o).
Proof.
  intros (Hc & Hi & [Hmax Hlen] & Ha & Hs & Hbal) Hstuck t o Ht. pose proof (Ha t o Ht) as Hw.
  pose proof (Forall_lookup_1 _ _ _ _ Hs Ht) as Ho.
  assert (Hpop : total is_pop (threads c) = 0%nat \/ queue_ (shared c) = []).
  { destruct (decide (Exists (fun th => is_pop th = 1%nat) (threads c))) as [Hex|Hno].
    - right. apply Exists_exists in Hex as (th & Hin & Hth). apply list_elem_of_lookup in Hin as [t' Ht'].
      destruct th as [|o'|o'|]; try done; [by destruct (Hstuck t' o')|]. destruct o'; try done.
      by apply (waits_pop _ (Ha t' _ Ht')).
    - left. apply total_none. apply not_Exists_Forall in Hno; [|apply _]. eapply Forall_impl; [done|].
      intros [|[]|[]|]; simpl; lia. }
  destruct o; try done.
  - apply waits_pop in Hw as (Hq & _). rewrite Hq in Hbal. simpl in Hbal.
    assert (Hpush : total is_push (threads c) = 0%nat).
    { apply total_none, Forall_lookup. intros t' th Ht'. destruct th as [|o|o|]; try done; [by destruct (Hstuck t' o)|].
      destruct o; try done; pose proof (waits_push e _ (Ha t' _ Ht')) as Hw; rewrite Hq in Hw; simpl in Hw; lia. }
    pose proof (total_zero is_pop _ _ _ Ht ltac:(lia)). done.
  - apply waits_push in Hw. destruct Hpop as [E|E]; [|rewrite E in Hw; simpl in Hw; lia]. lia.
  - apply (waits_push e) in Hw. destruct Hpop as [E|E]; [|rewrite E in Hw; simpl in Hw; lia]. lia.
Qed.

(** ** Schedules

    A scheduler's choices, played on a configuration. *)
Inductive move : Type := MCall (t : nat) (o : op) | MRun (t : nat) | MSpurious (t : nat).

Definition play1 (m : move) (c : config) : option (option (op * outcome value) * config) :=
  match m with
  | MCall t o =>
      match threads c !! t with
      | Some Idle | Some (Returned _) => Some (None, mkConfig (shared c) (<[t := Ready o]> (threads c)))
      | _ => None
      end
  | MRun t =>
      match threads c !! t with
      | Some (Ready o) =>
          match exec o (shared c) with
          | Waits => Some (None, mkConfig (shared c) (<[t := Waiting o]> (threads c)))
          | Finishes r q notify =>
              Some (Some (o, r), mkConfig q (let ts := <[t := Returned r]> (threads c) in if notify then wake <$> ts else ts))
          end
      | _ => None
      end
  | MSpurious t =>
      match threads c !! t with
      | Some (Waiting o) => Some (None, mkConfig (shared c) (<[t := Ready o]> (threads c)))
      | _ => None
      end
  end.

Fixpoint play (ms : list move) (tr : list (op * outcome value)) (c : config) : option (list (op * outcome value) * config) :=
  match ms with
  | [] => Some (tr, c)
  | m :: ms => '(l, c) ← play1 m c; play ms (tr ++ option_list l) c
  end.

Lemma play1_step m c l c' : play1 m c = Some (l, c') -> step c l c'.
Proof.
  destruct m as [t o|t|t]; simpl; intros E; repeat case_match; simplify_eq/=.
  - eapply step_call; [done|by left].
  - eapply step_call; [done|right; by eexists].
  - by apply step_wait.
  - by eapply (step_finish _ _ _ _ _ true).
  - by eapply (step_finish _ _ _ _ _ false).
  - by apply step_spurious.
Qed.

Lemma play_steps ms : forall tr0 c0 tr c tr' c',
  steps c0 tr0 c -> play ms tr0 c = Some (tr', c') -> tr = tr' -> steps c0 tr c'.
Proof.
  induction ms as [|m ms IH]; intros tr0 c0 tr c tr' c' Hs E ->; simplify_eq/=; [done|].
  destruct (play1 m c) as [[l c1]|] eqn:E1; simplify_eq/=. eapply IH; [|done|done]. eapply steps_snoc; [done|]. by eapply play1_step.
Qed.
End Queue.

(** C7. Whatever the threads do and however they are scheduled, the elements that
    were put into the queue are, in order, those that were taken from it followed
    by those it holds, and it never holds more than its maximum. *)
Theorem queue_fifo {ELEM : Type} (max n : nat) (tr : list (op * outcome value)) (c : config (ELEM := ELEM)) :
  (0 < max)%nat -> steps (initial max n) tr c ->
  pushed tr = popped tr ++ queue_ (shared c) /\ (length (queue_ (shared c)) <= max_ (shared c))%nat.
Proof.
  intros Hmax Hs. split.
  - remember (initial max n) as c0 eqn:E0. induction Hs as [c|c tr c1 l c2 Hs IH Hstep]; [by subst|].
    unfold pushed, popped in *. rewrite !bind_snoc, IH by done.
    inversion Hstep as [| |t o r q b Ht E|]; subst; simpl; rewrite ?app_nil_r; try done.
    by rewrite <- !app_assoc, (exec_fifo o _ r q b).
  - apply (steps_invariant (fun c => bounded (shared c)) step_bounded _ _ _ Hs). split; simpl; lia.
Qed.

Lemma queue_fifo_witness :
  let tr := [(Push 7, Ok (VSize 1)); (Pop, Ok (VPop 0 (Some 7))); (Push 8, Ok (VSize 1))] in
  pushed tr = popped tr ++ [8] /\ (length [8] <= 1)%nat.
Proof.
  apply (queue_fifo 1 2 [(Push 7, Ok (VSize 1)); (Pop, Ok (VPop 0 (Some 7))); (Push 8, Ok (VSize 1))]
           (mkConfig (mkQueue [8] 1 None false) [Returned (Ok (VPop 0 (Some 7))); Returned (Ok (VSize 1))])).
  - lia.
  - eapply (play_steps [MCall 0 Pop; MRun 0; MCall 1 (Push 7); MRun 1; MCall 1 (Push 8); MRun 1; MRun 0; MRun 1]);
      [apply steps_nil|vm_compute; reflexivity|reflexivity].
Defined.

(** A thread sleeps on the condition variable only while its call cannot
    proceed: no wake-up is lost.  In particular a producer and a consumer never
    both sleep. *)
Theorem queue_no_lost_wakeup {ELEM : Type} (max n t : nat) (o : op) (tr : list (op * outcome value)) (c : config (ELEM := ELEM)) :
  (0 < max)%nat -> steps (initial max n) tr c -> threads c !! t = Some (Waiting o) ->
  exec o (shared c) = Waits /\
  (o = Pop -> forall t' e, threads c !! t' <> Some (Waiting (Push e)) /\ threads c !! t' <> Some (Waiting (Emplace e))).
Proof.
  intros Hmax Hs Ht.
  pose proof (steps_invariant asleep_blocked step_asleep_blocked _ _ _ Hs (initial_asleep max n)) as Ha.
  assert (Hb : bounded (shared c)).
  { apply (steps_invariant (fun c => bounded (shared c)) step_bounded _ _ _ Hs). split; simpl; lia. }
  split; [by eapply Ha|]. intros -> t' e. destruct (waits_pop _ (Ha _ _ Ht)) as [Hq _]. destruct Hb as [Hm _].
  split; intros Ht'; pose proof (waits_push e _ (Ha _ _ Ht')) as Hw; rewrite Hq in Hw; simpl in Hw; lia.
Qed.

Lemma queue_no_lost_wakeup_witness :
  let ts := [Waiting Pop; Ready (Push 8)] in
  exec (ELEM := Z) Pop (mkQueue [] 1 None false) = Waits /\
  (Pop (ELEM := Z) = Pop -> forall t' e, ts !! t' <> Some (Waiting (Push e)) /\ ts !! t' <> Some (Waiting (Emplace e))).
Proof.
  apply (queue_no_lost_wakeup 1 2 0 Pop [] (mkConfig (mkQueue [] 1 None false) [Waiting Pop; Ready (Push 8)])).
  - lia.
  - eapply (play_steps [MCall 0 Pop; MCall 1 (Push 8); MRun 0]); [apply steps_nil|vm_compute; reflexivity|reflexivity].
  - reflexivity.
Defined.

(** C26. When the queue is open and as many elements are being taken as are in it or being
    put, every schedule that stops waking threads for nothing comes to an end, and when no
    thread can run any more all calls have returned normally. *)
Theorem queue_liveness {ELEM : Type} (n k : nat) (c c' : config (ELEM := ELEM)) :
  balanced c -> run n k c c' ->
  (n <= work c + k)%nat /\
  ((forall t o, threads c' !! t <> Some (Ready o)) ->
   Forall (fun th => th = Idle \/ exists v, th = Returned (Ok v)) (threads c')).
Proof.
  intros Hb Hr. destruct (run_balanced n k c c' Hr Hb) as (Hb' & _ & Hw). split; [lia|]. intros Hstuck.
  pose proof (stuck_balanced c' Hb' Hstuck) as Hnw. destruct Hb' as (_ & _ & _ & _ & Hs & _).
  apply Forall_lookup. intros t th Ht. pose proof (Forall_lookup_1 _ _ _ _ Hs Ht) as Hth.
  destruct th as [|o|o|[v|e| |]]; try done; [by left|by destruct (Hstuck t o)|by destruct (Hnw t o)|right; by exists v].
Qed.

Lemma queue_liveness_witness :
  let c := mkConfig (mkQueue [] 1 None false) [Ready Pop; Ready Pop; Ready (Push 1); Ready (Emplace 2)] in
  let c' := mkConfig (mkQueue [1] 1 None false) [Ready Pop; Ready Pop; Returned (Ok (VSize 1)); Ready (Emplace 2)] in
  (2 <= work c + 0)%nat /\
  ((forall t o, threads c' !! t <> Some (Ready o)) ->
   Forall (fun th => th = Idle \/ exists v, th = Returned (Ok v)) (threads c')).
Proof.
  intros c c'. apply (queue_liveness 2 0 c c').
  - split_and!; try done; [split; simpl; lia| |repeat constructor].
    intros t o Ht. do 4 (destruct t as [|t]; [done|]). done.
  - apply (run_finish 1 0 c (mkConfig (mkQueue [] 1 None false) [Waiting Pop; Ready Pop; Ready (Push 1); Ready (Emplace 2)]) 2
             (Push 1) (Ok (VSize 1)) (mkQueue [1] 1 None false) true); [|reflexivity|reflexivity].
    apply (run_wait 0 0 c c 0 Pop); [constructor|reflexivity|reflexivity].
Defined.
