(* ===== verification/ThreadPool.v ===== *)
(** * The thread pool

    [thread/ThreadPool.cc]: worker threads that take tasks from a shared list.  A method
    holds one of the three mutexes from its first statement, or from the head of its
    waiting loop, to its return or to the wait on the condition variable: such a section
    is one instruction of a thread ([exec]), a method is the list of its sections, and
    threads interleave between instructions.  [pthread_cond_signal] wakes one of the
    threads that sleep on the condition variable if there is one; a thread may also wake
    by itself.  What a task does when it is executed is not code of the pool: it calls
    the pool as it likes and returns or throws. *)
From S2P Require Import Prelude.
Open Scope Z_scope.

Section ThreadPool.
Context {Task : Type}.

(** [queue_] holds pointers: a null pointer tells a worker to stop. *)
Record ThreadPool : Type := mkPool {
  count_ : nat;
  stack_ : nat;
  running_ : Z;
  tasks_ : Z;
  errorMessage_ : list byte;
  name_ : list byte;
  queue_ : list (option Task);
  error_ : bool }.
Implicit Types p : ThreadPool.

(** The three condition variables. *)
Inductive cond : Type := ready_ | done_ | active_.
#[global] Instance cond_eq_dec : EqDecision cond.
Proof. solve_decision. Defined.

(** [User] is the code of a client of the pool and [Execute r] that of a task. *)
Inductive instr : Type :=
| NotifyStart | Next | Execute (r : Task) | Error (msg : list byte) | Delete (r : Task) | EndTask | NotifyEnd
| StartTask | Enqueue (r : option Task) | EnqueueAll (l : list (option Task))
| PushNulls (i : nat) | Join (ignore : bool) | Wait | Done | Resize (size : nat) | Shrunk | User.

(** The calls that clients and tasks make. *)
Inductive call : Type :=
| CPush (r : option Task)
| CPushList (l : list (option Task))
| CWait
| CDone
| CWaitForThreads
| CResize (size : nat)
| CDestroy.

(** What is observed of a run. *)
Inductive event : Type :=
| ECall (by_ : instr) (c : call)
| EStartTask
| EPush (r : Task)
| ETake (r : Task)
| EExecute (r : Task)
| EDelete (r : Task)
| EEndTask
| ENotifyStart
| ENotifyEnd
| EError (msg : list byte)
| EWaited
| EDone (b : bool)
| EJoined (ignored : bool) (thrown : option (list byte)).

(** An instruction waits, or runs: the new state, the code that follows it, the condition
    variable that it signals, the threads that it creates and what is observed. *)
Inductive effect : Type :=
| Waits
| Runs (p : ThreadPool) (k : list instr) (signal : option cond) (threads : list (list instr)) (ev : list event).

Definition set_running (n : Z) p : ThreadPool := mkPool (count_ p) (stack_ p) n (tasks_ p) (errorMessage_ p) (name_ p) (queue_ p) (error_ p).
Definition set_tasks (n : Z) p : ThreadPool := mkPool (count_ p) (stack_ p) (running_ p) n (errorMessage_ p) (name_ p) (queue_ p) (error_ p).
Definition set_pending (l : list (option Task)) p : ThreadPool := mkPool (count_ p) (stack_ p) (running_ p) (tasks_ p) (errorMessage_ p) (name_ p) l (error_ p).
Definition set_count (n : nat) p : ThreadPool := mkPool n (stack_ p) (running_ p) (tasks_ p) (errorMessage_ p) (name_ p) (queue_ p) (error_ p).
Definition set_error (m : list byte) (b : bool) p : ThreadPool := mkPool (count_ p) (stack_ p) (running_ p) (tasks_ p) m (name_ p) (queue_ p) b.

Definition notifyStart p : effect := Runs (set_running (wrapU 64 (running_ p + 1)) p) [] (Some done_) [] [ENotifyStart].
Definition notifyEnd p : effect := Runs (set_running (wrapU 64 (running_ p - 1)) p) [] (Some done_) [] [ENotifyEnd].
Definition startTask p : effect := Runs (set_tasks (wrapU 64 (tasks_ p + 1)) p) [] (Some active_) [] [EStartTask].
Definition endTask p : effect := Runs (set_tasks (wrapU 64 (tasks_ p - 1)) p) [] (Some active_) [] [EEndTask].

Definition error (msg : list byte) p : effect :=
  Runs (set_error ((if error_ p then errorMessage_ p ++ str " | " else errorMessage_ p) ++ msg) true p) [] None [] [EError msg].

(** The locked parts of the two [push] methods. *)
Definition enqueue (r : option Task) p : effect :=
  Runs (set_pending (queue_ p ++ [r]) p) [] (Some ready_) [] (EPush <$> option_list r).
Definition enqueue_all (l : list (option Task)) p : effect :=
  Runs (set_pending (queue_ p ++ l) p) [] (Some ready_) [] (EPush <$> omap id l).

Definition push (r : option Task) : list instr :=
  match r with Some _ => [StartTask; Enqueue r] | None => [Enqueue r] end.
Definition push_list (l : list (option Task)) : list instr := [EnqueueAll l].

(** One round of the loop of a worker, for the task that [next] returned. *)
Definition run_task (r : Task) : list instr := [Execute r; Delete r; EndTask; Next].
Definition next p : effect :=
  match queue_ p with
  | [] => Waits
  | r :: l =>
      Runs (set_pending l p) (match r with Some r => run_task r | None => [] end)
        (match l with [] => None | _ => Some ready_ end) [] (ETake <$> option_list r)
  end.
Definition run : list instr := [NotifyStart; Next; NotifyEnd].

(** [done()] reads the queue and the counter without a lock, which is a data race with the
    threads that change them; here it is one step. *)
Definition done p : bool := match queue_ p with [] => tasks_ p =? 0 | _ => false end.

Definition wait p : effect := if tasks_ p =? 0 then Runs p [] None [] [EWaited] else Waits.

(** [waitForThreads]: [count_] null pointers, then the loop on [running_].  The destructor
    catches the exception that [waitForThreads] throws. *)
Definition push_nulls (i : nat) p : effect :=
  Runs p (if Nat.ltb i (count_ p) then push None ++ [PushNulls (S i)] else []) None [] [].
Definition join (ignore : bool) p : effect :=
  if running_ p =? 0 then
    if error_ p then Runs (set_error (errorMessage_ p) false p) [] None [] [EJoined ignore (Some (str "ThreadPool::waitForThreads: " ++ errorMessage_ p))]
    else Runs p [] None [] [EJoined ignore None]
  else Waits.
Definition waitForThreads : list instr := [PushNulls 0; Join false].
Definition destroy : list instr := [PushNulls 0; Join true].

Definition resize_step (size : nat) p : effect :=
  if Nat.ltb size (count_ p) then Runs p (push None ++ [Shrunk; Resize size]) None [] []
  else if Nat.ltb (count_ p) size then Runs (set_count (S (count_ p)) p) [Resize size] None [run] []
  else Runs p [] None [] [].
Definition shrunk p : effect := Runs (set_count (pred (count_ p)) p) [] None [] [].
Definition resize (size : nat) : list instr := [Resize size].

(** The constructor, up to its call of [resize]. *)
Definition newThreadPool (name : list byte) (stack : nat) : ThreadPool := mkPool 0 stack 0 0 [] name [] false.

Definition exec (i : instr) p : effect :=
  match i with
  | NotifyStart => notifyStart p
  | Next => next p
  | Error msg => error msg p
  | EndTask => endTask p
  | NotifyEnd => notifyEnd p
  | StartTask => startTask p
  | Enqueue r => enqueue r p
  | EnqueueAll l => enqueue_all l p
  | PushNulls i => push_nulls i p
  | Join ignore => join ignore p
  | Wait => wait p
  | Done => Runs p [] None [] [EDone (done p)]
  | Resize n => resize_step n p
  | Shrunk => shrunk p
  | Execute _ | Delete _ | User => Waits
  end.

Definition body (c : call) : list instr :=
  match c with
  | CPush r => push r
  | CPushList l => push_list l
  | CWait => [Wait]
  | CDone => [Done]
  | CWaitForThreads => waitForThreads
  | CResize n => resize n
  | CDestroy => destroy
  end.

(** The code that is not of the pool. *)
Definition foreign (i : instr) : bool := match i with User | Execute _ => true | _ => false end.

(** The condition variable on which an instruction waits. *)
Definition waits_on (i : instr) : option cond :=
  match i with Next => Some ready_ | Wait => Some active_ | Join _ => Some done_ | _ => None end.

(** ** Threads *)

Record thread : Type := mkThread { code : list instr; asleep : bool }.
Record config : Type := mkConfig { pool : ThreadPool; threads : list thread }.
Implicit Types (c : config) (ts : list thread).

Definition sleeps_on (cv : cond) (th : thread) : bool :=
  asleep th && match code th with i :: _ => bool_decide (waits_on i = Some cv) | [] => false end.

Inductive signalled (ts : list thread) : option cond -> list thread -> Prop :=
| signalled_none : signalled ts None ts
| signalled_one cv t th :
    ts !! t = Some th -> sleeps_on cv th = true -> signalled ts (Some cv) (<[t := mkThread (code th) false]> ts)
| signalled_nobody cv : existsb (sleeps_on cv) ts = false -> signalled ts (Some cv) ts.

Inductive step (c : config) : list event -> config -> Prop :=
| step_run t i k p k' sg new ev ts :
    threads c !! t = Some (mkThread (i :: k) false) -> exec i (pool c) = Runs p k' sg new ev ->
    signalled (<[t := mkThread (k' ++ k) false]> (threads c)) sg ts ->
    step c ev (mkConfig p (ts ++ ((fun l => mkThread l false) <$> new)))
| step_wait t i k cv :
    threads c !! t = Some (mkThread (i :: k) false) -> exec i (pool c) = Waits -> waits_on i = Some cv ->
    step c [] (mkConfig (pool c) (<[t := mkThread (i :: k) true]> (threads c)))
| step_spurious t k :
    threads c !! t = Some (mkThread k true) ->
    step c [] (mkConfig (pool c) (<[t := mkThread k false]> (threads c)))
| step_call t i k cl :
    threads c !! t = Some (mkThread (i :: k) false) -> foreign i = true ->
    step c [ECall i cl] (mkConfig (pool c) (<[t := mkThread (body cl ++ i :: k) false]> (threads c)))
| step_execute t r k err :
    threads c !! t = Some (mkThread (Execute r :: k) false) ->
    step c [EExecute r] (mkConfig (pool c) (<[t := mkThread ((Error <$> option_list err) ++ k) false]> (threads c)))
| step_delete t r k err :
    threads c !! t = Some (mkThread (Delete r :: k) false) ->
    step c [EDelete r] (mkConfig (pool c) (<[t := mkThread ((Error <$> option_list err) ++ k) false]> (threads c))).

Inductive steps : config -> list event -> config -> Prop :=
| steps_nil c : steps c [] c
| steps_snoc c tr c1 ev c2 : steps c tr c1 -> step c1 ev c2 -> steps c (tr ++ ev) c2.

(** A pool is constructed by the first of [n] clients. *)
Definition initial (name : list byte) (stack count n : nat) : config :=
  mkConfig (newThreadPool name stack)
    (mkThread (resize count ++ [User]) false :: replicate (pred n) (mkThread [User] false)).

End ThreadPool.
#[global] Arguments ThreadPool : clear implicits.
#[global] Arguments instr : clear implicits.
#[global] Arguments call : clear implicits.
#[global] Arguments event : clear implicits.
#[global] Arguments thread : clear implicits.
#[global] Arguments config : clear implicits.
