(* ===== verification/ThreadPoolSpec.v ===== *)
(** * What the thread pool guarantees

    Tasks are taken in the order in which they are pushed, [wait] returns when all of
    them are executed and deleted, a queued task never waits for a sleeping worker that
    nobody wakes, and [waitForThreads] reports the errors of the tasks. *)
From S2P Require Import Prelude ThreadPool.
Open Scope Z_scope.

(** ** Sums over lists *)

Definition sumZ {A} (f : A -> Z) (l : list A) : Z := foldr (fun x n => f x + n) 0 l.

Lemma sumZ_cons {A} (f : A -> Z) x l : sumZ f (x :: l) = f x + sumZ f l.
Proof. done. Qed.
Lemma sumZ_app {A} (f : A -> Z) l k : sumZ f (l ++ k) = sumZ f l + sumZ f k.
Proof. induction l; simpl; lia. Qed.
#[global] Instance sumZ_perm {A} (f : A -> Z) : Proper ((≡ₚ) ==> (=)) (sumZ f).
Proof. intros l k. unfold sumZ. induction 1; simpl; lia. Qed.
Lemma sumZ_bind {A B} (f : B -> Z) (g : A -> list B) l : sumZ f (l ≫= g) = sumZ (fun x => sumZ f (g x)) l.
Proof. induction l as [|x l IH]; [done|]. rewrite bind_cons, sumZ_app, IH. done. Qed.
Lemma sumZ_nonneg {A} (f : A -> Z) l : Forall (fun x => 0 <= f x) l -> 0 <= sumZ f l.
Proof. induction 1; simpl; lia. Qed.
Lemma sumZ_le {A} (f g : A -> Z) l : Forall (fun x => f x <= g x) l -> sumZ f l <= sumZ g l.
Proof. induction 1; simpl; lia. Qed.
Lemma sumZ_length {A} (f : A -> Z) l : (forall x, f x <= 1) -> sumZ f l <= zlen l.
Proof. intros Hf. unfold zlen. induction l as [|x l IH]; simpl; [lia|]. specialize (Hf x). lia. Qed.

Definition ind (b : bool) : Z := if b then 1 else 0.

(** ** Codes in which an instruction is followed by its partner *)

Section Pairs.
Context {A : Type} (a b : A -> bool).

Fixpoint paired (l : list A) : bool :=
  match l with
  | [] => true
  | x :: k => (if a x then match k with y :: _ => b y | [] => false end else true) && paired k
  end.

Lemma paired_app l k : paired l = true -> paired k = true -> paired (l ++ k) = true.
Proof. induction l as [|x [|y l] IH]; simpl in *; [done| |]; destruct (a x); simpl; try done; destruct (b y); naive_solver. Qed.

Lemma paired_tail x l : paired (x :: l) = true -> paired l = true.
Proof. simpl. by intros [_ ?]%andb_true_iff. Qed.

Lemma paired_count l : (forall x, a x = true -> b x = false) -> paired l = true -> sumZ (fun x => ind (a x)) l + match l with x :: _ => ind (b x) | [] => 0 end <= sumZ (fun x => ind (b x)) l.
Proof.
  intros Hab. induction l as [|x l IH]; [done|]. intros Hp. specialize (IH (paired_tail _ _ Hp)). simpl in Hp |- *. specialize (Hab x).
  destruct (a x) eqn:Ea; simpl in *.
  - rewrite Hab by done. destruct l as [|y l]; [done|]. apply andb_true_iff in Hp as [Hy _]. simpl in *. rewrite Hy in *. unfold sumZ in *. simpl in *. lia.
  - assert (0 <= match l with y :: _ => ind (b y) | [] => 0 end) by (destruct l as [|y ?]; [lia|destruct (b y); simpl; lia]). lia.
Qed.
End Pairs.

Section Spec.
Context {Task : Type}.
Implicit Types (p : ThreadPool Task) (i : instr Task) (k : list (instr Task)) (c : config Task) (th : thread Task) (ts : list (thread Task))
  (ev tr : list (event Task)).

(** ** One instruction of some thread *)

Definition instrs c : list (instr Task) := threads c ≫= code.

Inductive fires p : instr Task -> list (event Task) -> ThreadPool Task -> list (instr Task) -> Prop :=
| fires_run i p' k sg new ev : exec i p = Runs p' k sg new ev -> fires p i ev p' (k ++ concat new)
| fires_call i cl : foreign i = true -> fires p i [ECall i cl] p (body cl ++ [i])
| fires_execute r err : fires p (Execute r) [EExecute r] p (Error <$> option_list err)
| fires_delete r err : fires p (Delete r) [EDelete r] p (Error <$> option_list err).

Lemma insert_codes ts t th th' : ts !! t = Some th ->
  exists R, ts ≫= code ≡ₚ code th ++ R /\ <[t := th']> ts ≫= code ≡ₚ code th' ++ R.
Proof.
  intros Ht. exists ((take t ts ++ drop (S t) ts) ≫= code). split.
  - rewrite <- (take_drop_middle ts t th Ht) at 1. rewrite !bind_app. simpl. solve_Permutation.
  - rewrite insert_take_drop by by eapply lookup_lt_Some. rewrite !bind_app. simpl. solve_Permutation.
Qed.

Lemma signalled_codes ts sg ts' : signalled ts sg ts' -> code <$> ts' = code <$> ts.
Proof. destruct 1 as [|cv t th Ht Hs|]; [done| |done]. rewrite list_fmap_insert. apply list_insert_id. by rewrite list_lookup_fmap, Ht. Qed.

Lemma bind_codes ts : ts ≫= code = concat (code <$> ts).
Proof. induction ts as [|th ts IH]; [done|]. by rewrite bind_cons, IH. Qed.

Lemma step_fires c ev c' : step c ev c' ->
  (ev = [] /\ pool c' = pool c /\ instrs c' ≡ₚ instrs c) \/
  exists i k R, fires (pool c) i ev (pool c') k /\ instrs c ≡ₚ i :: R /\ instrs c' ≡ₚ k ++ R.
Proof.
  unfold instrs. destruct 1 as [t i k p k' sg new ev ts Ht E Hs|t i k cv Ht E Hw|t k Ht|t i k cl Ht Hf|t r k err Ht|t r k err Ht];
    match goal with |- context [<[t := ?x]> _] => destruct (insert_codes _ _ _ x Ht) as (R & H1 & H2) | _ => idtac end; simpl in *.
  - destruct (insert_codes _ _ _ (mkThread (k' ++ k) false) Ht) as (R & H1 & H2). right. exists i, (k' ++ concat new), (k ++ R).
    split; [by econstructor|]. split; [done|]. simpl. rewrite bind_app, (bind_codes ts), (signalled_codes _ _ _ Hs), <- bind_codes, H2. simpl.
    rewrite bind_codes, <- list_fmap_compose. change (code ∘ _) with (@id (list (instr Task))). rewrite list_fmap_id. solve_Permutation.
  - left. split; [done|]. split; [done|]. by rewrite H2, H1.
  - left. split; [done|]. split; [done|]. by rewrite H2, H1.
  - right. exists i, (body cl ++ [i]), (k ++ R). split; [by constructor|]. split; [done|]. rewrite H2. solve_Permutation.
  - right. exists (Execute r), (Error <$> option_list err), (k ++ R). split; [by constructor|]. split; [done|]. rewrite H2. solve_Permutation.
  - right. exists (Delete r), (Error <$> option_list err), (k ++ R). split; [by constructor|]. split; [done|]. rewrite H2. solve_Permutation.
Qed.

(** ** Where each task is *)

Definition pushed tr : list Task := omap (fun e => match e with EPush r => Some r | _ => None end) tr.
Definition taken tr : list Task := omap (fun e => match e with ETake r => Some r | _ => None end) tr.
Definition executed tr : list Task := omap (fun e => match e with EExecute r => Some r | _ => None end) tr.
Definition deleted tr : list Task := omap (fun e => match e with EDelete r => Some r | _ => None end) tr.
Definition to_execute k : list Task := omap (fun i => match i with Execute r => Some r | _ => None end) k.
Definition to_delete k : list Task := omap (fun i => match i with Delete r => Some r | _ => None end) k.
Definition queued p : list Task := omap id (queue_ p).

(** Case analysis of an instruction. *)
Ltac cases :=
  repeat match goal with
         | H : context [match ?x with _ => _ end] |- _ => destruct x eqn:?; simplify_eq/=
         | H : context [if ?x then _ else _] |- _ => destruct x eqn:?; simplify_eq/=
         end; simplify_eq/=.
Ltac unfold_ops :=
  unfold exec, notifyStart, notifyEnd, startTask, endTask, error, enqueue, enqueue_all, next, wait, push_nulls, join, resize_step, shrunk,
    push, push_list, run_task, run in *.
(** The cases of [fires]. *)
Ltac firing H :=
  destruct H as [i p' k sg new ev H|i cl H|r err|r err];
  [destruct i; unfold_ops; cases|destruct cl as [[|]| | | | | |], i; try done|destruct err|destruct err].

Lemma omap_pushed (l : list (option Task)) : pushed (EPush <$> omap id l) = omap id l.
Proof. induction l as [|[r|] l IH]; simpl; [done|by f_equal|done]. Qed.
Lemma omap_other (l : list (option Task)) (f : event Task -> option Task) : (forall r, f (EPush r) = None) -> omap f (EPush <$> omap id l) = [].
Proof. intros Hf. induction l as [|[r|] l IH]; simpl; [done|by rewrite Hf|done]. Qed.

Lemma fires_queue p i ev p' k : fires p i ev p' k -> queued p ++ pushed ev = taken ev ++ queued p'.
Proof.
  unfold queued. intros H. firing H; rewrite ?app_nil_r; try done.
  - destruct o; simpl; by rewrite app_nil_r.
  - by destruct r; rewrite omap_app.
  - rewrite omap_app, omap_pushed. unfold taken. by rewrite omap_other.
Qed.

Lemma fires_execute_once p i ev p' k : fires p i ev p' k -> to_execute k ++ executed ev ≡ₚ taken ev ++ to_execute [i].
Proof.
  intros H. firing H; try done.
  - by destruct o.
  - by destruct r.
  - unfold executed, taken. by rewrite !omap_other.
Qed.

Lemma fires_delete_once p i ev p' k : fires p i ev p' k -> to_delete k ++ deleted ev ≡ₚ taken ev ++ to_delete [i].
Proof.
  intros H. firing H; try done.
  - by destruct o.
  - by destruct r.
  - unfold deleted, taken. by rewrite !omap_other.
Qed.

Lemma instrs_initial name stack count n : instrs (@initial Task name stack count n) = Resize count :: replicate (S (pred n)) User.
Proof. unfold instrs, initial. simpl. do 2 f_equal. induction (pred n); [done|]. simpl. by f_equal. Qed.

Lemma omap_users {B} (f : instr Task -> option B) m : f User = None -> omap f (replicate m User) = [].
Proof. intros Hf. induction m; simpl; by rewrite ?Hf. Qed.
Lemma sumZ_users (f : instr Task -> Z) m : f User = 0 -> sumZ f (replicate m User) = 0.
Proof. intros Hf. unfold sumZ. induction m as [|m IH]; simpl; [done|]. by rewrite Hf, IH. Qed.

Definition accounts tr c : Prop :=
  pushed tr = taken tr ++ queued (pool c) /\
  taken tr ≡ₚ executed tr ++ to_execute (instrs c) /\ taken tr ≡ₚ deleted tr ++ to_delete (instrs c).

Lemma perm_account (T X I R T' X' K : list Task) :
  T ≡ₚ X ++ I ++ R -> K ++ X' ≡ₚ T' ++ I -> T ++ T' ≡ₚ (X ++ X') ++ K ++ R.
Proof.
  intros -> H. transitivity (X ++ R ++ (T' ++ I)); [solve_Permutation|]. rewrite <- H. solve_Permutation.
Qed.

Lemma step_accounts tr c ev c' : accounts tr c -> step c ev c' -> accounts (tr ++ ev) c'.
Proof.
  intros (Hq & He & Hd) [(-> & Hp & Hi)|(i & k & R & Hf & Hi & Hi')]%step_fires.
  - unfold accounts, to_execute, to_delete. by rewrite app_nil_r, Hi, Hp.
  - pose proof (fires_queue _ _ _ _ _ Hf) as H1. pose proof (fires_execute_once _ _ _ _ _ Hf) as H2. pose proof (fires_delete_once _ _ _ _ _ Hf) as H3.
    unfold accounts, pushed, taken, executed, deleted, to_execute, to_delete in *. change (i :: R) with ([i] ++ R) in Hi.
    rewrite Hi' in *. rewrite Hi, omap_app in He, Hd. rewrite !omap_app. split_and!.
    + by rewrite Hq, <- !app_assoc; f_equal.
    + by eapply perm_account.
    + by eapply perm_account.
Qed.

Lemma steps_accounts name stack count n tr c : steps (initial name stack count n) tr c -> accounts tr c.
Proof.
  intros Hs. remember (initial name stack count n) as c0. induction Hs; subst; [|by eauto using step_accounts].
  unfold accounts. rewrite instrs_initial. unfold to_execute, to_delete. cbn [omap list_omap]. by rewrite !omap_users.
Qed.

(** ** The counters *)

(** A task that is announced, not yet ended, is in the hands of some thread or queued. *)
Definition task_weight i : Z :=
  match i with StartTask => -1 | Enqueue (Some _) | EndTask => 1 | EnqueueAll l => zlen (omap id l) | _ => 0 end.
Definition task_event (e : event Task) : Z := match e with EStartTask => 1 | EEndTask => -1 | _ => 0 end.
Definition run_weight i : Z := match i with NotifyStart => -1 | NotifyEnd => 1 | _ => 0 end.
Definition run_event (e : event Task) : Z := match e with ENotifyStart => 1 | ENotifyEnd => -1 | _ => 0 end.

(** Lists of tasks are not announced. *)
Definition counted (e : event Task) : Prop := match e with ECall _ (CPushList l) => omap id l = [] | _ => True end.

Lemma sumZ_pushes (f : event Task -> Z) l : (forall r, f (EPush r) = 0) -> sumZ f (EPush <$> l) = 0.
Proof. intros Hf. induction l as [|r l IH]; [done|]. by rewrite fmap_cons, sumZ_cons, Hf, IH. Qed.

Lemma fires_weight p i ev p' k : fires p i ev p' k -> Forall counted ev ->
  sumZ task_weight k + zlen (queued p') = task_weight i + zlen (queued p) + sumZ task_event ev.
Proof.
  unfold queued, sumZ, zlen. intros H Hc. firing H; rewrite ?Heql; simpl; try lia.
  - destruct o; simpl; lia.
  - destruct r; rewrite omap_app, length_app; simpl; lia.
  - rewrite omap_app, length_app. pose proof (sumZ_pushes task_event (omap id l)) as E. unfold sumZ in E. rewrite E by done. simpl. unfold zlen. lia.
  - apply Forall_cons_1 in Hc as [-> _]. unfold zlen. simpl. lia.
  - apply Forall_cons_1 in Hc as [-> _]. unfold zlen. simpl. lia.
Qed.

Lemma wrap_add N d : wrapU 64 (wrapU 64 N + d) = wrapU 64 (N + d).
Proof. unfold wrapU. by rewrite Zplus_mod_idemp_l. Qed.

Lemma fires_tasks p i ev p' k N : fires p i ev p' k -> tasks_ p = wrapU 64 N -> tasks_ p' = wrapU 64 (N + sumZ task_event ev).
Proof.
  intros H E. firing H; rewrite ?sumZ_pushes by done; unfold sumZ; simpl; rewrite ?E, ?Z.add_0_r; try done.
  - by destruct o; rewrite ?Z.add_0_r.
  - apply (wrap_add N (-1)).
  - apply wrap_add.
Qed.

Lemma fires_running p i ev p' k N : fires p i ev p' k -> running_ p = wrapU 64 N -> running_ p' = wrapU 64 (N + sumZ run_event ev).
Proof.
  intros H E. firing H; rewrite ?sumZ_pushes by done; unfold sumZ; simpl; rewrite ?E, ?Z.add_0_r; try done.
  - apply wrap_add.
  - by destruct o; rewrite ?Z.add_0_r.
  - apply (wrap_add N (-1)).
Qed.

Lemma fires_run_weight p i ev p' k : fires p i ev p' k -> sumZ run_weight k = run_weight i + sumZ run_event ev.
Proof.
  unfold sumZ. intros H. firing H; try done.
  - by destruct o.
  - by destruct r.
  - pose proof (sumZ_pushes run_event (omap id l)) as E. unfold sumZ in E. by rewrite E.
Qed.

Definition counters tr c : Prop :=
  tasks_ (pool c) = wrapU 64 (sumZ task_event tr) /\ running_ (pool c) = wrapU 64 (sumZ run_event tr) /\
  sumZ run_event tr = sumZ run_weight (instrs c) /\
  (Forall counted tr -> sumZ task_event tr = sumZ task_weight (instrs c) + zlen (queued (pool c))).

Lemma step_counters tr c ev c' : counters tr c -> step c ev c' -> counters (tr ++ ev) c'.
Proof.
  intros (Ht & Hr & Hw & Hc) [(-> & Hp & Hi)|(i & k & R & Hf & Hi & Hi')]%step_fires.
  - unfold counters. by rewrite app_nil_r, Hi, Hp.
  - unfold counters. rewrite !sumZ_app, Hi', !sumZ_app, Forall_app. rewrite Hi, sumZ_cons in Hw, Hc. split_and!.
    + by eapply fires_tasks.
    + by eapply fires_running.
    + rewrite (fires_run_weight _ _ _ _ _ Hf). lia.
    + intros [H1 H2]. pose proof (fires_weight _ _ _ _ _ Hf H2). specialize (Hc H1). lia.
Qed.

Lemma steps_counters name stack count n tr c : steps (initial name stack count n) tr c -> counters tr c.
Proof.
  intros Hs. remember (initial name stack count n) as c0. induction Hs; subst; [|by eauto using step_counters].
  unfold counters. rewrite instrs_initial, !sumZ_cons, !sumZ_users by done. done.
Qed.

(** ** The code of a thread *)

Definition is_start i : bool := match i with StartTask => true | _ => false end.
Definition is_enqueue i : bool := match i with Enqueue (Some _) => true | _ => false end.
Definition is_execute i : bool := match i with Execute _ => true | _ => false end.
Definition is_delete i : bool := match i with Delete _ => true | _ => false end.
Definition is_end i : bool := match i with EndTask => true | _ => false end.

(** The code of clients. *)
Definition client i : bool :=
  match i with NotifyStart | Next | Execute _ | Error _ | Delete _ | EndTask | NotifyEnd => false | _ => true end.

(** A task that is announced is queued next, one that is executed is deleted next, and
    then ended; the code of a worker ends with [NotifyEnd]. *)
Definition ok_code k : bool :=
  paired is_start is_enqueue k && paired is_execute is_delete k && paired is_delete is_end k &&
  (forallb client k || match last k with Some NotifyEnd => true | _ => false end).

Lemma ok_code_replace i k k' : ok_code (i :: k) = true ->
  paired is_start is_enqueue k' = true -> paired is_execute is_delete k' = true -> paired is_delete is_end k' = true ->
  (client i = true -> forallb client k' = true) -> (i = NotifyEnd -> k' = []) -> ok_code (k' ++ k) = true.
Proof.
  unfold ok_code. rewrite !andb_true_iff, !orb_true_iff. intros [[[H1 H2] H3] H4] K1 K2 K3 Hc He.
  split_and!; [apply paired_app; [done|]; by eapply paired_tail..|].
  destruct H4 as [H4|H4].
  - left. simpl in H4. apply andb_true_iff in H4 as [Hi Hk]. rewrite forallb_app. apply andb_true_iff. auto.
  - destruct k as [|j k]; [simpl in H4; destruct i; try done; rewrite He by done; by left|].
    right. rewrite last_app. change (last (i :: j :: k)) with (last (j :: k)) in H4. by destruct (last (j :: k)).
Qed.

Lemma ok_code_call cl i k : ok_code (i :: k) = true -> ok_code (body cl ++ i :: k) = true.
Proof.
  unfold ok_code. rewrite !andb_true_iff, !orb_true_iff. intros [[[H1 H2] H3] H4].
  split_and!; [apply paired_app; [by destruct cl as [[]| | | | | |]|done]..|].
  rewrite forallb_app. destruct H4 as [->|H4]; [left; by destruct cl as [[]| | | | | |]|right].
  rewrite last_app. by destruct (last (i :: k)).
Qed.

Definition codes_ok c : Prop := Forall (fun th => ok_code (code th) = true) (threads c).

Lemma exec_codes i p p' k sg new ev : exec i p = Runs p' k sg new ev ->
  paired is_start is_enqueue k = true /\ paired is_execute is_delete k = true /\ paired is_delete is_end k = true /\
  (client i = true -> forallb client k = true) /\ (i = NotifyEnd -> k = []) /\ Forall (fun k => ok_code k = true) new.
Proof. intros H. destruct i; unfold_ops; cases; split_and!; try done; repeat constructor; by destruct o. Qed.

Lemma signalled_ok ts sg ts' (P : list (instr Task) -> Prop) : signalled ts sg ts' -> Forall (fun th => P (code th)) ts -> Forall (fun th => P (code th)) ts'.
Proof. intros Hs. change (Forall (P ∘ code) ts -> Forall (P ∘ code) ts'). rewrite <- !Forall_fmap. by rewrite (signalled_codes _ _ _ Hs). Qed.

Lemma step_codes c ev c' : codes_ok c -> step c ev c' -> codes_ok c'.
Proof.
  unfold codes_ok. intros Hc Hs.
  destruct Hs as [t i k p k' sg new ev ts Ht E Hs|t i k cv Ht E Hw|t k Ht|t i k cl Ht Hf|t r k err Ht|t r k err Ht]; simpl;
    pose proof (Forall_lookup_1 _ _ _ _ Hc Ht) as Hk; simpl in Hk.
  - destruct (exec_codes _ _ _ _ _ _ _ E) as (H1 & H2 & H3 & H4 & H5 & H6). apply Forall_app. split.
    + apply (signalled_ok _ _ _ (fun k => ok_code k = true) Hs). apply Forall_insert; [done|]. by eapply ok_code_replace.
    + by apply Forall_fmap.
  - by apply Forall_insert.
  - by apply Forall_insert.
  - apply Forall_insert; [done|]. by apply ok_code_call.
  - apply Forall_insert; [done|]. apply (ok_code_replace (Execute r)); [done|..]; by destruct err.
  - apply Forall_insert; [done|]. apply (ok_code_replace (Delete r)); [done|..]; by destruct err.
Qed.

Lemma steps_codes name stack count n tr c : steps (initial name stack count n) tr c -> codes_ok c.
Proof.
  intros Hs. remember (initial name stack count n) as c0. induction Hs; subst; [|by eauto using step_codes].
  unfold codes_ok, initial. simpl. constructor; [done|]. by apply Forall_replicate.
Qed.

(** The weights bound what the threads have in hand. *)
Lemma ok_code_weight k : ok_code k = true ->
  0 <= sumZ (fun i => ind (is_execute i)) k <= sumZ (fun i => ind (is_delete i)) k /\
  sumZ (fun i => ind (is_delete i)) k <= sumZ (fun i => ind (is_end i)) k <= sumZ task_weight k.
Proof.
  unfold ok_code. rewrite !andb_true_iff. intros [[[H1 H2] H3] _].
  apply paired_count in H1; [|by intros []]. apply paired_count in H2; [|by intros []]. apply paired_count in H3; [|by intros []].
  assert (Hh : forall (b : instr Task -> bool), 0 <= match k with x :: _ => ind (b x) | [] => 0 end) by (intros b; destruct k as [|x ?]; [lia|destruct (b x); simpl; lia]).
  pose proof (Hh is_enqueue). pose proof (Hh is_delete). pose proof (Hh is_end).
  assert (sumZ (fun i => ind (is_end i)) k + sumZ (fun i => ind (is_enqueue i)) k - sumZ (fun i => ind (is_start i)) k <= sumZ task_weight k).
  { clear. induction k as [|i k IH]; [done|]. rewrite !sumZ_cons. destruct i as [| | | | | | | |[]| | | | | | | |]; simpl; unfold zlen; lia. }
  assert (0 <= sumZ (fun i => ind (is_execute i)) k) by (apply sumZ_nonneg, Forall_forall; intros i _; by destruct (is_execute i)).
  lia.
Qed.

(** ** Sleeping workers *)

Definition sleeper (cv : cond) ts : Prop := exists t th, ts !! t = Some th /\ sleeps_on cv th = true.
Definition awake_next th : bool := negb (asleep th) && match code th with Next :: _ => true | _ => false end.
Definition waker ts : Prop := exists t th, ts !! t = Some th /\ awake_next th = true.

Lemma existsb_sleeper cv ts : existsb (sleeps_on cv) ts = false -> ~ sleeper cv ts.
Proof.
  intros H (t & th & Ht & Hs). apply not_true_iff_false in H. apply H, existsb_exists. exists th. split; [|done].
  apply list_elem_of_In. by eapply list_elem_of_lookup_2.
Qed.

Lemma sleeper_insert cv ts t th : sleeps_on cv th = false -> sleeper cv (<[t := th]> ts) -> sleeper cv ts.
Proof. intros Hf (t' & th' & [(_ & <- & _)|[_ Ht]]%list_lookup_insert_Some & Hs); [congruence|by exists t', th']. Qed.

Lemma sleeper_insert_awake cv ts t k : sleeper cv (<[t := mkThread k false]> ts) -> sleeper cv ts.
Proof. by apply sleeper_insert. Qed.

Lemma waker_insert ts t th th' : ts !! t = Some th -> awake_next th = false -> waker ts -> waker (<[t := th']> ts).
Proof.
  intros Ht Hf (t' & th0 & Ht' & Hw). exists t', th0. split; [|done]. rewrite list_lookup_insert_ne; [done|]. intros ->. congruence.
Qed.

Lemma waker_app ts l : waker ts -> waker (ts ++ l).
Proof. intros (t & th & Ht & Hw). exists t, th. split; [|done]. by apply lookup_app_l_Some. Qed.

Lemma sleeper_app cv ts (l : list (list (instr Task))) : sleeper cv (ts ++ ((fun k => mkThread k false) <$> l)) -> sleeper cv ts.
Proof.
  intros (t & th & [Ht|[_ Ht]]%lookup_app_Some & Hs); [by exists t, th|].
  apply list_lookup_fmap_Some in Ht as (k & -> & _). done.
Qed.

Lemma sleeps_ready th : sleeps_on ready_ th = true -> exists k, th = mkThread (Next :: k) true.
Proof.
  destruct th as [k []]; [|done]. destruct k as [|i k]; unfold sleeps_on; simpl; [done|]. rewrite bool_decide_eq_true.
  destruct i; simpl; try done. by exists k.
Qed.

Lemma signalled_sleeper ts sg ts' cv : signalled ts sg ts' -> sleeper cv ts' -> sleeper cv ts.
Proof. destruct 1; [done| |done]. by apply sleeper_insert. Qed.

Lemma signalled_waker ts sg ts' : signalled ts sg ts' -> waker ts -> waker ts'.
Proof. destruct 1 as [|cv t th Ht Hs|]; [done| |done]. apply (waker_insert _ _ th); [done|]. unfold awake_next, sleeps_on in *. by destruct (asleep th). Qed.

(** After a signal on [ready_] a sleeping worker was woken, or none sleeps. *)
Lemma signalled_ready ts ts' : signalled ts (Some ready_) ts' -> sleeper ready_ ts' -> waker ts'.
Proof.
  inversion 1 as [|cv t th Ht Hs|cv Hn]; subst; intros Hsl.
  - apply sleeps_ready in Hs as [k ->]. exists t, (mkThread (Next :: k) false). split; [|done].
    apply list_lookup_insert_eq. by eapply lookup_lt_Some.
  - by apply existsb_sleeper in Hn.
Qed.

Definition served c : Prop := queue_ (pool c) <> [] -> sleeper ready_ (threads c) -> waker (threads c).

(** What is queued is signalled. *)
Lemma exec_signals i p p' k sg new ev : exec i p = Runs p' k sg new ev ->
  sg = Some ready_ \/ queue_ p' = [] \/ (queue_ p' = queue_ p /\ match i with Next => False | _ => True end).
Proof. intros H. destruct i; unfold_ops; cases; auto. destruct l; auto. Qed.

Lemma step_served c ev c' : served c -> step c ev c' -> served c'.
Proof.
  unfold served. intros Hc Hs.
  destruct Hs as [t i k p k' sg new ev ts Ht E Hs|t i k cv Ht E Hw|t k Ht|t i k cl Ht Hf|t r k err Ht|t r k err Ht]; simpl; intros Hq Hsl.
  - apply sleeper_app in Hsl. apply waker_app. destruct (exec_signals _ _ _ _ _ _ _ E) as [->|[|[Eq Hi]]]; [by eapply signalled_ready|done|].
    eapply signalled_waker; [done|]. rewrite Eq in Hq. apply (waker_insert _ _ _ _ Ht); [by destruct i|]. apply Hc; [done|].
    by eapply sleeper_insert_awake, signalled_sleeper.
  - assert (i <> Next) as Hi. { intros ->. simpl in E. unfold next in E. by destruct (queue_ (pool c)). }
    apply (waker_insert _ _ _ _ Ht); [by destruct i|]. apply Hc; [done|]. eapply sleeper_insert; [|done].
    apply bool_decide_eq_false. by destruct i.
  - destruct (awake_next (mkThread k false)) eqn:Ek.
    + exists t, (mkThread k false). split; [|done]. apply list_lookup_insert_eq. by eapply lookup_lt_Some.
    + apply (waker_insert _ _ _ _ Ht); [done|]. apply Hc; [done|]. by eapply sleeper_insert_awake.
  - apply (waker_insert _ _ _ _ Ht); [by destruct i|]. apply Hc; [done|]. by eapply sleeper_insert_awake.
  - apply (waker_insert _ _ _ _ Ht); [done|]. apply Hc; [done|]. by eapply sleeper_insert_awake.
  - apply (waker_insert _ _ _ _ Ht); [done|]. apply Hc; [done|]. by eapply sleeper_insert_awake.
Qed.

Lemma steps_served name stack count n tr c : steps (initial name stack count n) tr c -> served c.
Proof. intros Hs. remember (initial name stack count n) as c0. induction Hs; subst; [by intros []|by eauto using step_served]. Qed.

(** A signal can always be delivered. *)
Lemma signalled_total ts sg : exists ts', signalled ts sg ts'.
Proof.
  destruct sg as [cv|]; [|by eexists; constructor]. destruct (existsb (sleeps_on cv) ts) eqn:E; [|by eexists; constructor].
  apply existsb_exists in E as (th & Hin & Hs). apply list_elem_of_In, list_elem_of_lookup_1 in Hin as [t Ht].
  eexists. by econstructor.
Qed.

(** ** The errors *)

Definition joined (l : list (list byte)) : list byte :=
  match l with [] => [] | m :: l => m ++ concat ((fun x => str " | " ++ x) <$> l) end.

(** The text of the errors already reported, and the errors since. *)
Definition note (s : list byte * list (list byte)) (e : event Task) : list byte * list (list byte) :=
  match e with
  | EError m => (s.1, s.2 ++ [m])
  | EJoined _ _ => (s.1 ++ joined s.2, [])
  | _ => s
  end.
Definition errors tr : list byte * list (list byte) := foldl note ([], []) tr.
Definition noted tr c : Prop :=
  error_ (pool c) = negb (bool_decide ((errors tr).2 = [])) /\ errorMessage_ (pool c) = (errors tr).1 ++ joined (errors tr).2.

Lemma joined_snoc l m : joined (l ++ [m]) = (if bool_decide (l = []) then joined l else joined l ++ str " | ") ++ m.
Proof.
  destruct l as [|x l]; simpl; [by rewrite app_nil_r|]. rewrite fmap_app, concat_app. simpl. by rewrite app_nil_r, <- !app_assoc.
Qed.

Lemma errors_pushes s (l : list Task) : foldl note s (EPush <$> l) = s.
Proof. by induction l. Qed.

Lemma fires_noted p i ev p' k s : fires p i ev p' k ->
  error_ p = negb (bool_decide (s.2 = [])) -> errorMessage_ p = s.1 ++ joined s.2 ->
  error_ p' = negb (bool_decide ((foldl note s ev).2 = [])) /\ errorMessage_ p' = (foldl note s ev).1 ++ joined (foldl note s ev).2.
Proof.
  destruct s as [old l]. simpl. intros H He Hm. firing H; rewrite ?errors_pushes; simpl; try done.
  - by destruct o.
  - symmetry in He. apply negb_true_iff in He. rewrite joined_snoc, He, bool_decide_eq_false_2 by by destruct l. by rewrite Hm, <- !app_assoc.
  - symmetry in He. apply negb_false_iff in He. rewrite joined_snoc, He, bool_decide_eq_false_2 by by destruct l. by rewrite Hm, <- !app_assoc.
  - by rewrite app_nil_r.
  - rewrite app_nil_r. split; [|done]. by destruct (error_ p').
Qed.

Lemma steps_noted name stack count n tr c : steps (initial name stack count n) tr c -> noted tr c.
Proof.
  intros Hs. remember (initial name stack count n) as c0. induction Hs as [|c tr c1 ev c2 _ IH Hs]; subst; [done|]. specialize (IH eq_refl).
  unfold noted, errors in *. rewrite foldl_app. apply step_fires in Hs as [(-> & -> & _)|(i & k & R & Hf & _)]; [done|].
  destruct IH. by eapply fires_noted.
Qed.

(** ** When nothing is left to do *)

Lemma in_hand_sum (f : instr Task -> bool) ts : sumZ (fun i => ind (f i)) (ts ≫= code) = 0 -> Forall (fun i => f i = false) (ts ≫= code).
Proof.
  induction (ts ≫= code) as [|i k IH]; [constructor|]. rewrite sumZ_cons. intros H.
  assert (0 <= sumZ (fun i => ind (f i)) k) by (apply sumZ_nonneg, Forall_forall; intros j _; by destruct (f j)).
  destruct (f i) eqn:E; simpl in H; [lia|]. constructor; [done|]. apply IH. lia.
Qed.

Lemma nothing_to_execute k : Forall (fun i => is_execute i = false) k -> to_execute k = [].
Proof. induction 1 as [|[] k Hi Hk IH]; done. Qed.
Lemma nothing_to_delete k : Forall (fun i => is_delete i = false) k -> to_delete k = [].
Proof. induction 1 as [|[] k Hi Hk IH]; done. Qed.

Lemma instrs_weight c : codes_ok c ->
  0 <= sumZ (fun i => ind (is_execute i)) (instrs c) <= sumZ (fun i => ind (is_delete i)) (instrs c) /\
  sumZ (fun i => ind (is_delete i)) (instrs c) <= sumZ task_weight (instrs c).
Proof.
  unfold codes_ok, instrs. rewrite !sumZ_bind. intros H. induction H as [|th ts Hth _ IH]; [done|]. rewrite !sumZ_cons.
  pose proof (ok_code_weight _ Hth). lia.
Qed.

Lemma wrap_zero N : 0 <= N < 2 ^ 64 -> wrapU 64 N = 0 -> N = 0.
Proof. intros HN. unfold wrapU. by rewrite Z.mod_small. Qed.

(** The events of a wait that ends. *)
Lemma pushes_single (l : list Task) e : EPush <$> l = [e] -> exists r, e = EPush r.
Proof. destruct l as [|r []]; simpl; intros; simplify_eq. by exists r. Qed.
Lemma takes_single (l : list Task) e : ETake <$> l = [e] -> exists r, e = ETake r.
Proof. destruct l as [|r []]; simpl; intros; simplify_eq. by exists r. Qed.

Ltac ended Hf :=
  inversion Hf as [? ? ? ? ? ? E| | |]; subst;
  match goal with E : exec ?i _ = _ |- _ => destruct i; unfold_ops; cases end;
  try match goal with
      | H : EPush <$> _ = [_] |- _ => apply pushes_single in H as [? [=]]
      | H : ETake <$> _ = [_] |- _ => apply takes_single in H as [? [=]]
      end.

Lemma step_waited c c' : step c [EWaited] c' -> tasks_ (pool c) = 0.
Proof. intros [(? & _)|(i & k & R & Hf & _)]%step_fires; [done|]. ended Hf. lia. Qed.

Lemma step_joined c c' ignore o : step c [EJoined ignore o] c' ->
  running_ (pool c) = 0 /\ o = if error_ (pool c) then Some (str "ThreadPool::waitForThreads: " ++ errorMessage_ (pool c)) else None.
Proof. intros [(? & _)|(i & k & R & Hf & _)]%step_fires; [done|]. ended Hf; (split; [lia|done]). Qed.

(** C16. The tasks are taken in the order in which they were pushed, what is left is in the
    queue, and every task that was taken is executed once and deleted once, or is in the
    hands of one thread. *)
Theorem threadpool_fifo name stack count n tr c : steps (initial name stack count n) tr c ->
  pushed tr = taken tr ++ queued (pool c) /\
  taken tr ≡ₚ executed tr ++ to_execute (instrs c) /\ taken tr ≡ₚ deleted tr ++ to_delete (instrs c).
Proof. apply steps_accounts. Qed.

(** C14. When [wait] returns, every task that was pushed was taken in its turn, executed
    and deleted, if tasks were pushed one at a time and fewer than [2^64] things happened. *)
Theorem threadpool_wait_complete name stack count n tr c c' :
  steps (initial name stack count n) tr c -> step c [EWaited] c' -> Forall counted tr -> zlen tr < 2 ^ 64 ->
  taken tr = pushed tr /\ executed tr ≡ₚ pushed tr /\ deleted tr ≡ₚ pushed tr.
Proof.
  intros Hs Hw%step_waited Hc Hb. destruct (steps_accounts _ _ _ _ _ _ Hs) as (Hq & He & Hd).
  destruct (steps_counters _ _ _ _ _ _ Hs) as (Ht & _ & _ & Hn). specialize (Hn Hc).
  pose proof (instrs_weight _ (steps_codes _ _ _ _ _ _ Hs)) as [H1 H2]. pose proof (sumZ_length task_event tr ltac:(intros []; simpl; lia)) as H3.
  assert (0 <= zlen (queued (pool c))) as H4 by apply Nat2Z.is_nonneg.
  rewrite Hw in Ht. apply eq_sym, wrap_zero in Ht; [|lia].
  assert (queued (pool c) = []) as E by (apply nil_length_inv; unfold zlen in *; lia).
  rewrite E, app_nil_r in Hq. rewrite (nothing_to_execute (instrs c)), app_nil_r in He by (apply in_hand_sum; fold (instrs c); lia).
  rewrite (nothing_to_delete (instrs c)), app_nil_r in Hd by (apply in_hand_sum; fold (instrs c); lia). rewrite Hq. split_and!; by symmetry.
Qed.

(** C15. While a task is queued and a worker is in [next], a worker that is awake can take
    the front of the queue: the signals of [push] and of [next] are never lost. *)
Theorem threadpool_no_lost_wakeup name stack count n tr c r l t k b :
  steps (initial name stack count n) tr c -> queue_ (pool c) = Some r :: l -> threads c !! t = Some (mkThread (Next :: k) b) ->
  exists c', step c [ETake r] c' /\ queue_ (pool c') = l.
Proof.
  intros Hs Hq Ht. pose proof (steps_served _ _ _ _ _ _ Hs) as Hv.
  assert (waker (threads c)) as (t' & th & Ht' & Hw).
  { destruct b; [|by exists t, (mkThread (Next :: k) false)]. apply Hv; [by rewrite Hq|]. by exists t, (mkThread (Next :: k) true). }
  destruct th as [[|[] k'] []]; try done.
  destruct (signalled_total (<[t' := mkThread (run_task r ++ k') false]> (threads c)) (match l with [] => None | _ => Some ready_ end)) as [ts Hts].
  eexists. split; [eapply (step_run c t' Next); [done| |exact Hts]|].
  - simpl. unfold next. by rewrite Hq.
  - done.
Qed.

(** The workers that have started and not ended. *)
Lemma started_workers c : Forall (fun i => i <> NotifyStart) (instrs c) ->
  0 <= sumZ run_weight (instrs c) /\ (sumZ run_weight (instrs c) = 0 -> Forall (fun i => i <> NotifyEnd) (instrs c)).
Proof.
  induction (instrs c) as [|i k IH]; [by split|]. intros [Hi Hk]%Forall_cons. destruct (IH Hk) as [H1 H2]. rewrite sumZ_cons.
  destruct i; simpl; try done; (split; [lia|]); intros; (constructor; [done|apply H2; lia]) || lia.
Qed.

Lemma ended_codes c : codes_ok c -> Forall (fun i => i <> NotifyEnd) (instrs c) -> Forall (fun i => client i = true) (instrs c).
Proof.
  unfold codes_ok, instrs. induction 1 as [|th ts Hth _ IH]; [done|]. rewrite !bind_cons, !Forall_app. intros [Hk Hts]. split; [|by apply IH].
  unfold ok_code in Hth. rewrite !andb_true_iff, orb_true_iff in Hth. destruct Hth as [_ [Hc|Hc]].
  - rewrite Forall_forall. intros i Hi. rewrite forallb_forall in Hc. by apply Hc, list_elem_of_In.
  - destruct (last (code th)) as [[]|] eqn:E; try done. rewrite last_lookup in E. by destruct (Forall_lookup_1 _ _ _ _ Hk E).
Qed.

(** C17. [waitForThreads] returns, once every worker has started, when no thread has a task
    in hand, and it throws exactly when a task threw since the last report, with the
    messages of these errors in the order in which they came. *)
Theorem threadpool_join_reports name stack count n tr c c' ignore o :
  steps (initial name stack count n) tr c -> step c [EJoined ignore o] c' -> Forall (fun i => i <> NotifyStart) (instrs c) -> zlen tr < 2 ^ 64 ->
  Forall (fun i => client i = true) (instrs c) /\ executed tr ≡ₚ taken tr /\ deleted tr ≡ₚ taken tr /\
  o = match (errors tr).2 with [] => None | l => Some (str "ThreadPool::waitForThreads: " ++ (errors tr).1 ++ joined l) end.
Proof.
  intros Hs [Hr Ho]%step_joined Hst Hb. destruct (steps_accounts _ _ _ _ _ _ Hs) as (_ & He & Hd).
  destruct (steps_counters _ _ _ _ _ _ Hs) as (_ & Hn & Hw & _). destruct (started_workers c Hst) as [H1 H2].
  pose proof (sumZ_length run_event tr ltac:(intros []; simpl; lia)) as H3. rewrite Hr in Hn. apply eq_sym, wrap_zero in Hn; [|lia].
  assert (Forall (fun i => client i = true) (instrs c)) as Hc by (apply ended_codes; [by eapply steps_codes|apply H2; lia]).
  rewrite nothing_to_execute, app_nil_r in He by (eapply Forall_impl; [exact Hc|]; by intros []).
  rewrite nothing_to_delete, app_nil_r in Hd by (eapply Forall_impl; [exact Hc|]; by intros []).
  destruct (steps_noted _ _ _ _ _ _ Hs) as [E1 E2]. rewrite E1, E2 in Ho. split_and!; [done|by symmetry..|].
  by destruct (errors tr).2.
Qed.

(** ** Schedules

    A run that is chosen step by step, to be evaluated. *)
Inductive choice : Type :=
| Go (t : nat) (wake : option nat)
| Calls (t : nat) (cl : call Task)
| Returns (t : nat) (err : option (list byte)).

(** Deliver a signal to the given thread. *)
Definition deliver ts (sg : option cond) (wake : option nat) : option (list (thread Task)) :=
  match sg, wake with
  | None, None => Some ts
  | Some cv, Some t => th ← ts !! t; if sleeps_on cv th then Some (<[t := mkThread (code th) false]> ts) else None
  | Some cv, None => if existsb (sleeps_on cv) ts then None else Some ts
  | _, _ => None
  end.

Definition perform c (ch : choice) : option (list (event Task) * config Task) :=
  match ch with
  | Go t wake =>
      th ← threads c !! t;
      match th with
      | mkThread (i :: k) false =>
          match exec i (pool c) with
          | Runs p k' sg new ev =>
              ts ← deliver (<[t := mkThread (k' ++ k) false]> (threads c)) sg wake;
              Some (ev, mkConfig p (ts ++ ((fun l => mkThread l false) <$> new)))
          | Waits => _ ← waits_on i; Some ([], mkConfig (pool c) (<[t := mkThread (i :: k) true]> (threads c)))
          end
      | _ => None
      end
  | Calls t cl =>
      th ← threads c !! t;
      match th with
      | mkThread (i :: k) false =>
          if foreign i then Some ([ECall i cl], mkConfig (pool c) (<[t := mkThread (body cl ++ i :: k) false]> (threads c))) else None
      | _ => None
      end
  | Returns t err =>
      th ← threads c !! t;
      match th with
      | mkThread (Execute r :: k) false => Some ([EExecute r], mkConfig (pool c) (<[t := mkThread ((Error <$> option_list err) ++ k) false]> (threads c)))
      | mkThread (Delete r :: k) false => Some ([EDelete r], mkConfig (pool c) (<[t := mkThread ((Error <$> option_list err) ++ k) false]> (threads c)))
      | _ => None
      end
  end.

Fixpoint schedule c (l : list choice) : option (list (event Task) * config Task) :=
  match l with
  | [] => Some ([], c)
  | ch :: l => '(ev, c1) ← perform c ch; '(tr, c2) ← schedule c1 l; Some (ev ++ tr, c2)
  end.

Lemma deliver_signalled ts sg wake ts' : deliver ts sg wake = Some ts' -> signalled ts sg ts'.
Proof.
  unfold deliver. destruct sg as [cv|], wake as [t|]; intros H; simplify_eq; try by constructor.
  - destruct (ts !! t) as [th|] eqn:E; simplify_eq/=. destruct (sleeps_on cv th) eqn:Es; simplify_eq. by econstructor.
  - destruct (existsb (sleeps_on cv) ts) eqn:E; simplify_eq. by constructor.
Qed.

Lemma perform_step c ch ev c' : perform c ch = Some (ev, c') -> step c ev c'.
Proof.
  destruct ch as [t wake|t cl|t err]; simpl; destruct (threads c !! t) as [[[|i k] []]|] eqn:Et; simpl; try done.
  - destruct (exec i (pool c)) eqn:E.
    + destruct (waits_on i) eqn:Ew; intros; simplify_eq/=. by eapply step_wait.
    + destruct (deliver _ _ _) as [ts|] eqn:Ed; intros; simplify_eq/=. apply deliver_signalled in Ed. by eapply step_run.
  - destruct (foreign i) eqn:Ef; intros; simplify_eq. by apply step_call.
  - by destruct i.
  - destruct i; intros; simplify_eq; [by apply step_execute|by apply step_delete].
Qed.

Lemma steps_cons c ev c1 tr c2 : step c ev c1 -> steps c1 tr c2 -> steps c (ev ++ tr) c2.
Proof.
  intros H Hs. revert H. induction Hs as [c1|c1 tr c3 ev' c2 _ IH Hs]; intros H.
  - rewrite app_nil_r. by apply (steps_snoc c [] c ev); [constructor|].
  - rewrite app_assoc. eapply steps_snoc; [by apply IH|done].
Qed.

Lemma schedule_steps c l tr c' : schedule c l = Some (tr, c') -> steps c tr c'.
Proof.
  revert c tr. induction l as [|ch l IH]; intros c tr; simpl; [intros [= <- <-]; constructor|].
  destruct (perform c ch) as [[ev c1]|] eqn:E; simpl; [|done]. destruct (schedule c1 l) as [[tr' c2]|] eqn:E'; simpl; [|done].
  intros [= <- <-]. eapply steps_cons; [by eapply perform_step|by apply IH].
Qed.

End Spec.

(** ** Runs *)

(** Evaluate a schedule; [H] is the run. *)
Ltac play c0 L H :=
  let r := eval vm_compute in (schedule c0 L) in
  lazymatch r with
  | Some (?tr, ?c) => assert (H : steps c0 tr c) by (apply (schedule_steps _ L); vm_compute; reflexivity)
  end.

(** The first client constructs a pool of one worker, which starts. *)
Definition opening : list (@choice nat) := [Go 0 None; Go 0 None; Go 1 None].
(** A task is pushed, taken, executed and deleted. *)
Definition one_task (r : nat) (err : option (list byte)) : list (@choice nat) :=
  [Calls 0 (CPush (Some r)); Go 0 None; Go 0 None; Go 1 None; Returns 1 err] ++ (match err with Some _ => [Go 1 None] | None => [] end) ++ [Returns 1 None; Go 1 None].

Lemma threadpool_fifo_witness : exists tr c, steps (@initial nat [] 0 1 1) tr c /\ pushed tr = [5; 7]%nat /\ taken tr = [5%nat] /\ executed tr ≡ₚ [5%nat].
Proof.
  play (@initial nat [] 0 1 1) (opening ++ one_task 5 None ++ [Calls 0 (CPush (Some 7%nat)); Go 0 None; Go 0 None]) Hs.
  destruct (threadpool_fifo _ _ _ _ _ _ Hs) as (Hq & He & _). eexists _, _. split; [exact Hs|]. split_and!; [exact Hq|done|]. symmetry. exact He.
Defined.

Lemma threadpool_wait_complete_witness : exists tr c c', steps (@initial nat [] 0 1 1) tr c /\ step c [EWaited] c' /\ executed tr ≡ₚ [5; 7]%nat.
Proof.
  play (@initial nat [] 0 1 1) (opening ++ one_task 5 None ++ one_task 7 None ++ [Calls 0 CWait]) Hs.
  match type of Hs with steps _ _ ?c => assert (exists c', step c [EWaited] c') as [c' Hw] by (eexists; apply (perform_step _ (Go 0 None)); vm_compute; reflexivity) end.
  destruct (threadpool_wait_complete _ _ _ _ _ _ _ Hs Hw) as (_ & He & _); [repeat constructor|done|].
  eexists _, _, c'. split; [exact Hs|]. split; [exact Hw|exact He].
Defined.

Lemma threadpool_no_lost_wakeup_witness : exists tr c c', steps (@initial nat [] 0 1 1) tr c /\ step c [ETake 5%nat] c' /\ queue_ (pool c') = [].
Proof.
  play (@initial nat [] 0 1 1) (opening ++ [Go 1 None; Calls 0 (CPush (Some 5%nat)); Go 0 None; Go 0 (Some 1%nat)]) Hs.
  destruct (threadpool_no_lost_wakeup _ _ _ _ _ _ 5%nat [] 1 [NotifyEnd] false Hs) as (c' & Hc & Hq); [done|done|].
  eexists _, _, c'. split; [exact Hs|]. by split.
Defined.

Lemma threadpool_join_reports_witness : exists tr c c', steps (@initial nat [] 0 1 1) tr c /\
  step c [EJoined false (Some (str "ThreadPool::waitForThreads: no disk | no memory"))] c' /\ executed tr ≡ₚ [5; 7]%nat.
Proof.
  play (@initial nat [] 0 1 1) (opening ++ one_task 5 (Some (str "no disk")) ++ one_task 7 (Some (str "no memory")) ++
    [Calls 0 CWaitForThreads; Go 0 None; Go 0 None; Go 0 None; Go 1 None; Go 1 None]) Hs.
  match type of Hs with steps _ _ ?c => assert (exists c' o, step c [EJoined false o] c') as (c' & o & Hw) by (eexists _, _; apply (perform_step _ (Go 0 None)); vm_compute; reflexivity) end.
  destruct (threadpool_join_reports _ _ _ _ _ _ _ _ _ Hs Hw) as (_ & He & _ & Ho); [repeat constructor; done|done|].
  vm_compute in Ho. subst o. eexists _, _, c'. split; [exact Hs|]. split; [exact Hw|exact He].
Defined.

(** ** Runs that go wrong *)

(** Tasks that are pushed as a list are not announced: their end takes the counter below
    zero, and [wait] then sleeps although nothing is left to do. *)
Lemma threadpool_push_list_blocks_wait : exists tr c, steps (@initial nat [] 0 1 1) tr c /\
  executed tr = [5%nat] /\ queue_ (pool c) = [] /\ tasks_ (pool c) = 2 ^ 64 - 1 /\ sleeper active_ (threads c).
Proof.
  play (@initial nat [] 0 1 1) (opening ++ [Calls 0 (CPushList [Some 5%nat]); Go 0 None; Go 1 None; Returns 1 None; Returns 1 None; Go 1 None; Calls 0 CWait; Go 0 None]) Hs.
  eexists _, _. split; [exact Hs|]. split_and!; [done..|]. by exists 0%nat, (mkThread [Wait; User] true).
Qed.

(** [waitForThreads] returns before a worker that has not yet started has run anything. *)
Lemma threadpool_join_before_start : exists tr c c', steps (@initial nat [] 0 1 1) tr c /\ step c [EJoined true None] c' /\
  pushed tr = [5%nat] /\ executed tr = [] /\ threads c !! 1%nat = Some (mkThread run false).
Proof.
  play (@initial nat [] 0 1 1) [Go 0 None; Go 0 None; Calls 0 (CPush (Some 5%nat)); Go 0 None; Go 0 None; Calls 0 CDestroy; Go 0 None; Go 0 None; Go 0 None] Hs.
  match type of Hs with steps _ _ ?c => assert (exists c', step c [EJoined true None] c') as (c' & Hw) by (eexists; apply (perform_step _ (Go 0 None)); vm_compute; reflexivity) end.
  eexists _, _, c'. split; [exact Hs|]. by split.
Qed.

(** With two clients in [wait], the end of the last task wakes one of them only. *)
Lemma threadpool_second_waiter_sleeps : exists tr c, steps (@initial nat [] 0 1 2) tr c /\
  tasks_ (pool c) = 0 /\ queue_ (pool c) = [] /\ threads c = [mkThread [User] false; mkThread [Wait; User] true; mkThread [Next; NotifyEnd] true].
Proof.
  play (@initial nat [] 0 1 2) [Go 0 None; Go 0 None; Go 2 None; Calls 0 (CPush (Some 5%nat)); Go 0 None; Go 0 None; Calls 0 CWait; Go 0 None; Calls 1 CWait; Go 1 None;
    Go 2 None; Returns 2 None; Returns 2 None; Go 2 (Some 0%nat); Go 0 None; Go 2 None] Hs.
  eexists _, _. split; [exact Hs|]. done.
Qed.
