(* ===== verification/DblBuffer.v ===== *)
(** * Double buffering

    [io/DblBuffer.cc]: a transfer in which the calling thread reads into a ring of buffers
    while another thread writes them out.  Every buffer has a mutex with a condition
    variable and a flag that says whether it is full; an error of either thread is
    recorded under a mutex of its own, and stops the other one.

    A thread is at one of its program points; between two points it does one thing that
    the other thread can see.  [pthread_cond_signal] wakes the other thread if it sleeps on
    the buffer; a thread may also wake by itself.  The handles are not code of this file:
    the results of [in.read] are given, and [out.write] returns whatever it likes. *)
From S2P Require Import Prelude.

(** ** The state *)

Inductive who := Reader | Writer.
#[export] Instance who_eq_dec : EqDecision who.
Proof. solve_decision. Defined.

(** [lock_]: the thread that holds the mutex of the buffer *)
Record OneBuffer := mkBuffer { full_ : bool; length_ : Z; buffer_ : list byte; lock_ : option who }.
Definition new_buffer : OneBuffer := mkBuffer false 0 [] None.

(** An exception: any, or [RestartTransfer] *)
Inductive failure := Fails (why : list byte) | Restarts (from : Z).
(** [in.read]: the bytes read, none at the end, an exception, or a negative number without
    one; [out.write]: the number returned, or an exception after some bytes were taken *)
Inductive read_result := Chunk (b : list byte) | ReadFails (f : failure) | Negative (n : positive).
Inductive write_result := Wrote (n : Z) | WriteFails (taken : nat) (f : failure).

Record DblBuffer := mkDbl { count_ : nat; error_ : bool; why_ : list byte; restart_ : bool; restartFrom_ : Z; inBytes_ : Z; outBytes_ : Z }.

(** Where a thread is; [i] is its buffer.  [RThrown]: [ASSERT(error())] threw, and the
    exception has left [copy]. *)
Inductive rpc :=
| RHead (i : nat) | RLock (i : nat) | RTest (i : nat) | RAsleep (i : nat) | RCheck (i : nat)
| RRead (i : nat) | RError (i : nat) (f : failure) | RFull (i : nat) | RDone | RThrown.
Inductive wpc :=
| WHead (i : nat) | WLock (i : nat) | WTest (i : nat) | WAsleep (i : nat) | WCheck (i : nat)
| WWrite (i : nat) | WError (i : nat) (f : failure) | WEmpty (i : nat) (failed : bool) | WDone.

(** [input]: what [in.read] will return, then the end; [output]: what [out.write] took *)
Record state := mkState { owner : DblBuffer; buffers : list OneBuffer; reader : rpc; writer : wpc; input : list read_result; output : list byte }.
Implicit Types (s : state) (d : DblBuffer).

Definition set_owner d s : state := mkState d (buffers s) (reader s) (writer s) (input s) (output s).
Definition set_buffers (l : list OneBuffer) s : state := mkState (owner s) l (reader s) (writer s) (input s) (output s).
Definition set_reader (r : rpc) s : state := mkState (owner s) (buffers s) r (writer s) (input s) (output s).
Definition set_writer (w : wpc) s : state := mkState (owner s) (buffers s) (reader s) w (input s) (output s).
Definition set_input (l : list read_result) s : state := mkState (owner s) (buffers s) (reader s) (writer s) l (output s).
Definition set_output (l : list byte) s : state := mkState (owner s) (buffers s) (reader s) (writer s) (input s) l.
Definition set_buffer (i : nat) (b : OneBuffer) s : state := set_buffers (<[i := b]> (buffers s)) s.

Definition set_lock (w : option who) (b : OneBuffer) : OneBuffer := mkBuffer (full_ b) (length_ b) (buffer_ b) w.
Definition set_full (f : bool) (b : OneBuffer) : OneBuffer := mkBuffer f (length_ b) (buffer_ b) (lock_ b).
Definition set_content (n : Z) (c : list byte) (b : OneBuffer) : OneBuffer := mkBuffer (full_ b) n c (lock_ b).

(** [DblBuffer::error(why)] and [DblBuffer::restart] *)
Definition fail (f : failure) d : DblBuffer :=
  match f with
  | Fails why => mkDbl (count_ d) true why (restart_ d) (restartFrom_ d) (inBytes_ d) (outBytes_ d)
  | Restarts from => mkDbl (count_ d) true (why_ d) true from (inBytes_ d) (outBytes_ d)
  end.
Definition add_in (n : Z) d : DblBuffer := mkDbl (count_ d) (error_ d) (why_ d) (restart_ d) (restartFrom_ d) (inBytes_ d + n) (outBytes_ d).
Definition add_out (n : Z) d : DblBuffer := mkDbl (count_ d) (error_ d) (why_ d) (restart_ d) (restartFrom_ d) (inBytes_ d) (outBytes_ d + n).
Definition next_index (i : nat) d : nat := (S i `mod` count_ d)%nat.

(** [cond_.signal()] of buffer [i] *)
Definition signal_writer (i : nat) s : state :=
  match writer s with WAsleep j => if bool_decide (i = j) then set_writer (WLock i) s else s | _ => s end.
Definition signal_reader (i : nat) s : state :=
  match reader s with RAsleep j => if bool_decide (i = j) then set_reader (RLock i) s else s | _ => s end.

(** ** The reader: the loop of [DblBuffer::copy] *)

Definition reader_step s : option state :=
  let d := owner s in
  match reader s with
  | RHead i => Some (set_reader (if error_ d then RDone else RLock i) s)
  | RLock i =>
      b ← buffers s !! i;
      match lock_ b with None => Some (set_reader (RTest i) (set_buffer i (set_lock (Some Reader) b) s)) | Some _ => None end
  | RTest i =>
      b ← buffers s !! i;
      if full_ b then Some (set_reader (RAsleep i) (set_buffer i (set_lock None b) s)) else Some (set_reader (RCheck i) s)
  | RAsleep _ => None
  | RCheck i =>
      b ← buffers s !! i;
      if error_ d then Some (set_reader RDone (set_buffer i (set_lock None b) s)) else Some (set_reader (RRead i) s)
  | RRead i =>
      b ← buffers s !! i;
      match input s with
      | [] => Some (set_reader (RFull i) (set_buffer i (set_content 0 [] b) s))
      | Chunk c :: l => Some (set_reader (RFull i) (set_input l (set_buffer i (set_content (zlen c) c b) s)))
      | Negative n :: l => Some (set_reader (RFull i) (set_input l (set_buffer i (set_content (Z.neg n) (buffer_ b) b) s)))
      | ReadFails f :: l => Some (set_reader (RError i f) (set_input l (set_buffer i (set_content (-1) (buffer_ b) b) s)))
      end
  | RError i f => Some (set_reader (RFull i) (set_owner (fail f d) s))
  | RFull i =>
      b ← buffers s !! i;
      let s := set_buffer i (set_lock None (set_full true b)) s in
      if (length_ b <? 0) && negb (error_ d) then Some (set_reader RThrown s) else
      let s := signal_writer i s in
      if length_ b <=? 0 then Some (set_reader RDone s)
      else Some (set_reader (RHead (next_index i d)) (set_owner (add_in (length_ b) d) s))
  | RDone | RThrown => None
  end.

(** ** The writer: [DblBufferTask::run] *)

Definition writer_step (r : write_result) s : option state :=
  let d := owner s in
  match writer s with
  | WHead i => Some (set_writer (if error_ d then WDone else WLock i) s)
  | WLock i =>
      b ← buffers s !! i;
      match lock_ b with None => Some (set_writer (WTest i) (set_buffer i (set_lock (Some Writer) b) s)) | Some _ => None end
  | WTest i =>
      b ← buffers s !! i;
      if full_ b then Some (set_writer (WCheck i) s) else Some (set_writer (WAsleep i) (set_buffer i (set_lock None b) s))
  | WAsleep _ => None
  | WCheck i =>
      b ← buffers s !! i;
      if error_ d || (length_ b =? 0) then Some (set_writer WDone (set_buffer i (set_lock None b) s)) else Some (set_writer (WWrite i) s)
  | WWrite i =>
      b ← buffers s !! i;
      match r with
      | Wrote n =>
          let s := set_output (output s ++ take (Z.to_nat n) (buffer_ b)) s in
          Some (set_writer (if n =? length_ b then WEmpty i false else WError i (Fails (str "Assertion failed: length == buffers_[i].length_"))) s)
      | WriteFails n f => Some (set_writer (WError i f) (set_output (output s ++ take n (buffer_ b)) s))
      end
  | WError i f => Some (set_writer (WEmpty i true) (set_owner (fail f d) s))
  | WEmpty i failed =>
      b ← buffers s !! i;
      let s := signal_reader i (set_buffer i (set_lock None (set_full false b)) s) in
      if (failed : bool) then Some (set_writer WDone s)
      else Some (set_writer (WHead (next_index i d)) (set_owner (add_out (length_ b) d) s))
  | WDone => None
  end.

(** ** Runs *)

(** When an exception has left [copy], the memory of the buffers and the owner are gone: what
    a writer that is still there does with them is not defined, and a run stops. *)
Definition thrown s : bool := match reader s with RThrown => true | _ => false end.
Inductive step s : state -> Prop :=
| step_reader s' : reader_step s = Some s' -> step s s'
| step_writer r s' : thrown s = false -> writer_step r s = Some s' -> step s s'.
(** A thread that wakes without a signal. *)
Inductive wakes s : state -> Prop :=
| wakes_reader i : reader s = RAsleep i -> wakes s (set_reader (RLock i) s)
| wakes_writer i : thrown s = false -> writer s = WAsleep i -> wakes s (set_writer (WLock i) s).

(** [DblBuffer::copy(in, out, estimate)] before the loops: [restart_] is as it was. *)
Definition start d (l : list read_result) : state :=
  mkState (mkDbl (count_ d) false (why_ d) (restart_ d) (restartFrom_ d) 0 0) (replicate (count_ d) new_buffer) (RHead 0) (WHead 0) l [].
Definition reachable d l s : Prop := rtc (fun s s' => step s s' \/ wakes s s') (start d l) s.

(** After [thread.wait()], where a [PANIC] ends the process; or the exception that left
    [copy], without a word to the writer. *)
Definition result s : option (outcome Z) :=
  match reader s, writer s with
  | RThrown, _ => Some (Throw AssertionFailed)
  | RDone, WDone =>
      let d := owner s in
      Some (if error_ d then if restart_ d then Throw (RestartTransfer (restartFrom_ d)) else Throw DblBufferError
            else if inBytes_ d =? outBytes_ d then Ok (inBytes_ d) else Undef)
  | _, _ => None
  end.

(** [DblBuffer::copy(in, out)]: the loop over the results of the transfers *)
Fixpoint copy_attempts (maxRetries : Z) (total estimate : Z) (attempts : list (outcome Z)) : outcome Z :=
  match attempts with
  | [] => NoFuel
  | Ok copied :: _ => if negb (estimate =? 0) && negb (copied =? estimate) then Throw SeriousBug else Ok copied
  | Throw (RestartTransfer from) :: attempts =>
      if maxRetries <=? 0 then Throw DblBufferError else copy_attempts (maxRetries - 1) total (total - from) attempts
  | r :: _ => r
  end.
Definition copy (total : Z) (attempts : list (outcome Z)) : outcome Z := copy_attempts 5 total total attempts.

(** The bytes that the reads give before the end or the first failure. *)
Fixpoint stream (l : list read_result) : list byte :=
  match l with
  | Chunk c :: l => if bool_decide (c = []) then [] else c ++ stream l
  | _ => []
  end.

(** They end, without a failure. *)
Fixpoint ends (l : list read_result) : bool :=
  match l with
  | [] => true
  | Chunk c :: l => bool_decide (c = []) || ends l
  | ReadFails _ :: _ | Negative _ :: _ => false
  end.
Definition is_negative (r : read_result) : bool := match r with Negative _ => true | _ => false end.

(** [write] takes the whole buffer. *)
Definition whole s : write_result :=
  match writer s with WWrite i => match buffers s !! i with Some b => Wrote (length_ b) | None => Wrote 0 end | _ => Wrote 0 end.
Inductive whole_step s : state -> Prop :=
| whole_reader s' : reader_step s = Some s' -> whole_step s s'
| whole_writer s' : thrown s = false -> writer_step (whole s) s = Some s' -> whole_step s s'.

(** A schedule: the reader as long as it can. *)
Fixpoint drive (fuel : nat) s : state :=
  match fuel with
  | O => s
  | S fuel =>
      match reader_step s with
      | Some s => drive fuel s
      | None => if thrown s then s else match writer_step (whole s) s with Some s => drive fuel s | None => s end
      end
  end.
