(* ===== verification/DblBufferSpec.v ===== *)
(** * What double buffering guarantees

    The bytes come out in the order in which they went in, all of them unless a handle
    failed; no thread waits for ever, unless a read is negative without an exception; a
    failure is reported. *)
From S2P Require Import Prelude DblBuffer.
#[local] Set Warnings "-clear-no-such-hyp".
#[local] Open Scope nat_scope.

(** ** The ring *)

(** What a full buffer holds: the bytes of a read, or nothing after a failure. *)
Abbreviation item := (option (list byte)).
Definition holds_item (it : item) (b : OneBuffer) : Prop :=
  match it with Some c => length_ b = zlen c /\ buffer_ b = c | None => (length_ b < 0)%Z end.
Definition terminal (it : item) : bool := match it with Some (_ :: _) => false | _ => true end.
Definition bytes_of (q : list item) : list byte := q ≫= default [].

(** The buffers from [w] on hold the items of [q], and the others are free. *)
Record ring (bs : list OneBuffer) (c w : nat) (q : list item) : Prop := {
  ring_length : length bs = c;
  ring_size : length q <= c;
  ring_full k it : q !! k = Some it -> exists b, bs !! ((w + k) `mod` c) = Some b /\ full_ b = true /\ holds_item it b;
  ring_free k : length q <= k < c -> exists b, bs !! ((w + k) `mod` c) = Some b /\ full_ b = false;
}.

Lemma slot_inj c w j k : j < c -> k < c -> (w + j) `mod` c = (w + k) `mod` c -> j = k.
Proof.
  intros Hj Hk E. pose proof (Nat.div_mod_eq (w + j) c) as H1. pose proof (Nat.div_mod_eq (w + k) c) as H2. rewrite E in H1.
  assert ((w + j) / c = (w + k) / c) by nia. nia.
Qed.

Lemma next_slot c w k : 0 < c -> S ((w + k) `mod` c) `mod` c = (w + S k) `mod` c.
Proof. intros Hc. rewrite <- Nat.add_1_r, Nat.Div0.add_mod_idemp_l. f_equal. lia. Qed.

Lemma slot_wrap c w : (w + c) `mod` c = w `mod` c.
Proof. rewrite <- (Nat.Div0.mod_add w 1 c). f_equal. lia. Qed.

(** Changes of a buffer that leave the flag and the content alone. *)
Lemma ring_same bs c w q i b b' : ring bs c w q -> bs !! i = Some b -> full_ b' = full_ b -> length_ b' = length_ b -> buffer_ b' = buffer_ b -> ring (<[i := b']> bs) c w q.
Proof.
  intros [Hl Hs Hf He] Ei E1 E2 E3. assert (Hb : forall j x, bs !! j = Some x -> exists y, <[i := b']> bs !! j = Some y /\ full_ y = full_ x /\ length_ y = length_ x /\ buffer_ y = buffer_ x).
  { intros j x Ej. destruct (decide (i = j)) as [<-|Hne].
    - exists b'. rewrite list_lookup_insert_eq by (by eapply lookup_lt_Some). rewrite Ei in Ej. injection Ej as <-. done.
    - exists x. by rewrite list_lookup_insert_ne. }
  split; [by rewrite length_insert|done|..].
  - intros k it Hk. destruct (Hf k it Hk) as (x & Ex & H1 & H2). destruct (Hb _ _ Ex) as (y & Ey & F1 & F2 & F3). exists y. split; [done|]. split; [congruence|].
    unfold holds_item in *. by rewrite F2, F3.
  - intros k Hk. destruct (He k Hk) as (x & Ex & H1). destruct (Hb _ _ Ex) as (y & Ey & F1 & _). exists y. split; [done|congruence].
Qed.

(** The free buffer that the reader fills. *)
Lemma ring_fill bs c w q b' : ring bs c w q -> length q < c -> full_ b' = false -> ring (<[(w + length q) `mod` c := b']> bs) c w q.
Proof.
  intros [Hl Hs Hf He] Hc E. destruct (He (length q)) as (x & Ex & Hx); [lia|]. split; [by rewrite length_insert|done|..].
  - intros k it Hk. pose proof (lookup_lt_Some _ _ _ Hk). rewrite list_lookup_insert_ne; [by apply Hf|]. intros Eq. apply slot_inj in Eq; lia.
  - intros k Hk. destruct (decide (k = length q)) as [->|Hne].
    + exists b'. rewrite list_lookup_insert_eq by (by eapply lookup_lt_Some). done.
    + rewrite list_lookup_insert_ne; [by apply He|]. intros Eq. apply slot_inj in Eq; lia.
Qed.

Lemma ring_push bs c w q b' it : ring bs c w q -> length q < c -> full_ b' = true -> holds_item it b' -> ring (<[(w + length q) `mod` c := b']> bs) c w (q ++ [it]).
Proof.
  intros [Hl Hs Hf He] Hc E Hit. destruct (He (length q)) as (x & Ex & Hx); [lia|]. split; [by rewrite length_insert|rewrite length_app; simpl; lia|..].
  - intros k i Hk. apply lookup_app_Some in Hk as [Hk|[Hge Hk]].
    + pose proof (lookup_lt_Some _ _ _ Hk). rewrite list_lookup_insert_ne; [by apply Hf|]. intros Eq. apply slot_inj in Eq; lia.
    + destruct (k - length q) as [|n] eqn:En; [|done]. simpl in Hk. injection Hk as <-. assert (k = length q) as -> by lia.
      exists b'. rewrite list_lookup_insert_eq by (by eapply lookup_lt_Some). done.
  - intros k Hk. rewrite length_app in Hk. simpl in Hk. rewrite list_lookup_insert_ne; [apply He; lia|]. intros Eq. apply slot_inj in Eq; lia.
Qed.

Lemma ring_pop bs c w it q b' : ring bs c w (it :: q) -> full_ b' = false -> ring (<[w `mod` c := b']> bs) c (S w) q.
Proof.
  intros [Hl Hs Hf He] E. simpl in *. destruct (Hf 0 it eq_refl) as (x & Ex & _). rewrite Nat.add_0_r in Ex. split; [by rewrite length_insert|lia|..].
  - intros k i Hk. pose proof (lookup_lt_Some _ _ _ Hk). rewrite list_lookup_insert_ne.
    + destruct (Hf (S k) i Hk) as (b & Eb & H'). exists b. by rewrite Nat.add_succ_comm.
    + rewrite <- (Nat.add_0_r w) at 1. rewrite Nat.add_succ_comm. intros Eq. apply slot_inj in Eq; lia.
  - intros k Hk. rewrite Nat.add_succ_comm. destruct (decide (S k = c)) as [Hc|Hc].
    + exists b'. rewrite Hc, slot_wrap. rewrite list_lookup_insert_eq by (by eapply lookup_lt_Some). done.
    + destruct (He (S k)) as (b & Eb & H'); [lia|]. exists b. rewrite list_lookup_insert_ne; [done|]. rewrite <- (Nat.add_0_r w) at 1. intros Eq. apply slot_inj in Eq; lia.
Qed.

Lemma ring_head bs c w it q : ring bs c w (it :: q) -> exists b, bs !! (w `mod` c) = Some b /\ full_ b = true /\ holds_item it b.
Proof. intros H. pose proof (ring_full _ _ _ _ H 0 it eq_refl) as (b & Eb & H'). rewrite Nat.add_0_r in Eb. by exists b. Qed.

Lemma ring_next bs c w q : ring bs c w q -> 0 < c -> exists b, bs !! ((w + length q) `mod` c) = Some b /\ (full_ b = true <-> length q = c).
Proof.
  intros H Hc. destruct (decide (length q = c)) as [E|E].
  - destruct q as [|it q]; [simpl in E; lia|]. destruct (ring_head _ _ _ _ _ H) as (b & Eb & Hf & _). exists b. by rewrite E, slot_wrap.
  - pose proof (ring_size _ _ _ _ H). destruct (ring_free _ _ _ _ H (length q)) as (b & Eb & Hf); [lia|]. exists b. split; [done|]. rewrite Hf. by split.
Qed.

Lemma ring_first bs c w q : ring bs c w q -> 0 < c -> exists b, bs !! (w `mod` c) = Some b /\ (full_ b = true <-> q <> []).
Proof.
  intros H Hc. destruct q as [|it q].
  - destruct (ring_free _ _ _ _ H 0) as (b & Eb & Hf); [simpl; lia|]. rewrite Nat.add_0_r in Eb. exists b. split; [done|]. rewrite Hf. by split.
  - destruct (ring_head _ _ _ _ _ H) as (b & Eb & Hf & _). exists b. by split.
Qed.

(** ** The invariant *)

Definition r_index (r : rpc) : option nat :=
  match r with RHead i | RLock i | RTest i | RAsleep i | RCheck i | RRead i | RError i _ | RFull i => Some i | RDone | RThrown => None end.
Definition r_holds (r : rpc) : option nat := match r with RTest i | RCheck i | RRead i | RError i _ | RFull i => Some i | _ => None end.
Definition w_index (w : wpc) : option nat :=
  match w with WHead i | WLock i | WTest i | WAsleep i | WCheck i | WWrite i | WError i _ | WEmpty i _ => Some i | WDone => None end.
Definition w_holds (w : wpc) : option nat := match w with WTest i | WCheck i | WWrite i | WError i _ | WEmpty i _ => Some i | _ => None end.

(** The mutex of a buffer is held by the thread that is inside. *)
Definition expected (r w : option nat) (i : nat) : option who :=
  if decide (r = Some i) then Some Reader else if decide (w = Some i) then Some Writer else None.
Definition locks (bs : list OneBuffer) (r w : option nat) : Prop :=
  (forall i b, bs !! i = Some b -> lock_ b = expected r w i) /\ forall i, r = Some i -> w <> Some i.

Definition pushing (r : rpc) : nat := match r with RRead _ | RError _ _ | RFull _ => 1 | _ => 0 end.
(** The reader is done, or about to be after a failure. *)
Definition stopping (bs : list OneBuffer) (r : rpc) : Prop :=
  match r with RDone => True | RFull i => exists b, bs !! i = Some b /\ (length_ b < 0)%Z | _ => False end.
Definition w_stopped (w : wpc) : bool := match w with WEmpty _ true | WDone => true | _ => false end.
(** The writer has not failed. *)
Definition clean s : bool :=
  match writer s with WError _ _ | WEmpty _ true => false | WDone => negb (error_ (owner s)) | _ => true end.
(** The first buffer is written, but not yet free. *)
Definition written (w : wpc) : bool := match w with WEmpty _ false => true | _ => false end.
Definition left_ (w : wpc) (q : list item) : list item := if written w then tail q else q.

Definition item_of (b : OneBuffer) : item := if (length_ b <? 0)%Z then None else Some (buffer_ b).
Definition feed (l : list read_result) : list byte * bool := (stream l, ends l).
Definition after (it : item) (p : list byte * bool) : list byte * bool := if terminal it then ([], bool_decide (it <> None)) else (default [] it ++ p.1, p.2).

(** What the buffer of the reader holds, and what is still to be put into the ring. *)
Definition pending (bs : list OneBuffer) (r : rpc) (err : bool) : Prop :=
  match r with
  | RFull i => exists b, bs !! i = Some b /\ holds_item (item_of b) b /\ ((length_ b < 0)%Z -> err = true)
  | RError i _ => exists b, bs !! i = Some b /\ (length_ b < 0)%Z
  | _ => True
  end.
Definition remaining (bs : list OneBuffer) (r : rpc) (inp : list read_result) (err : bool) (rest : list byte * bool) : Prop :=
  match r with
  | RFull i => forall b, bs !! i = Some b -> rest = after (item_of b) (feed inp)
  | RError _ _ => rest = ([], false)
  | RDone => err = false -> rest = ([], true)
  | _ => rest = feed inp
  end.

Record inv (l0 : list read_result) s (w : nat) (q : list item) : Prop := {
  v_count : 0 < count_ (owner s);
  v_ring : ring (buffers s) (count_ (owner s)) w q;
  v_rindex i : r_index (reader s) = Some i -> i = (w + length q) `mod` count_ (owner s);
  v_windex i : w_index (writer s) = Some i -> i = w `mod` count_ (owner s);
  v_locks : locks (buffers s) (r_holds (reader s)) (w_holds (writer s));
  v_rq : match reader s with RAsleep _ => length q = count_ (owner s) | RCheck _ | RRead _ | RError _ _ | RFull _ => length q < count_ (owner s) | _ => True end;
  v_wq : match writer s with
         | WAsleep _ => q = []
         | WCheck _ => q <> []
         | WWrite _ | WError _ _ | WEmpty _ _ => exists x c q', q = Some (x :: c) :: q'
         | _ => True
         end;
  v_pending : pending (buffers s) (reader s) (error_ (owner s) || existsb is_negative l0);
  v_input : existsb is_negative (input s) = true -> existsb is_negative l0 = true;
  v_inside : thrown s = false;
  v_items k it : q !! k = Some it -> terminal it = true -> S k = length q /\ reader s = RDone;
  v_failed : None ∈ q -> error_ (owner s) = true;
  v_error : error_ (owner s) = true -> stopping (buffers s) (reader s) \/ w_stopped (writer s) = true;
  v_wfail i : writer s = WEmpty i true -> error_ (owner s) = true;
  v_rdone : reader s = RDone -> (exists it, last q = Some it /\ terminal it = true) \/ error_ (owner s) = true /\ w_stopped (writer s) = true;
  v_wdone : writer s = WDone -> error_ (owner s) = false /\ reader s = RDone /\ q = [Some []] \/
                                error_ (owner s) = true /\ (stopping (buffers s) (reader s) \/ length q + pushing (reader s) < count_ (owner s));
  v_bytes : clean s = true -> inBytes_ (owner s) = (outBytes_ (owner s) + zlen (bytes_of q))%Z /\
              zlen (output s) = (outBytes_ (owner s) + if written (writer s) then zlen (bytes_of (take 1 q)) else 0)%Z;
  v_data : clean s = true -> exists rest, (output s ++ bytes_of (left_ (writer s) q) ++ rest.1, rest.2) = feed l0 /\ remaining (buffers s) (reader s) (input s) (error_ (owner s)) rest;
  v_prefix : output s `prefix_of` stream l0;
}.

(** ** Locks *)

Lemma locks_insert bs r w r' w' i b b' : locks bs r w -> bs !! i = Some b -> lock_ b' = expected r' w' i -> (forall j, j <> i -> expected r' w' j = expected r w j) ->
  (forall j, r' = Some j -> w' <> Some j) -> locks (<[i := b']> bs) r' w'.
Proof.
  intros [H1 _] Ei Hb Ho Hd. split; [|done]. intros j x Ex. destruct (decide (i = j)) as [<-|Hne].
  - rewrite list_lookup_insert_eq in Ex by (by eapply lookup_lt_Some). by injection Ex as <-.
  - rewrite list_lookup_insert_ne in Ex by done. rewrite Ho by done. by apply H1.
Qed.

Lemma expected_reader w i : expected (Some i) w i = Some Reader.
Proof. unfold expected. by rewrite decide_True. Qed.
Lemma expected_other r w i : r <> Some i -> w <> Some i -> expected r w i = None.
Proof. intros. unfold expected. by rewrite !decide_False. Qed.

(** The reader enters, changes or leaves its buffer; and the same for the writer. *)
Lemma locks_reader bs r w r' i b b' : locks bs r w -> bs !! i = Some b -> (r = None \/ r = Some i) -> (r' = None \/ r' = Some i) -> (r = Some i \/ lock_ b = None) ->
  lock_ b' = (if decide (r' = Some i) then Some Reader else None) -> locks (<[i := b']> bs) r' w.
Proof.
  intros HL Ei Hr Hr' Hfree Hb. pose proof (proj1 HL i b Ei) as Hlb. assert (Hw : w <> Some i).
  { destruct Hfree as [->|Hl]; [by apply (proj2 HL)|]. rewrite Hl in Hlb. unfold expected in Hlb. by repeat case_decide. }
  eapply locks_insert; [done..| | |].
  - rewrite Hb. unfold expected. by rewrite (decide_False (P := w = Some i)).
  - intros j Hj. unfold expected. destruct Hr as [->| ->], Hr' as [->| ->]; repeat case_decide; congruence.
  - intros j. destruct Hr' as [->| ->]; [done|]. by intros [= <-].
Qed.

Lemma locks_writer bs r w w' i b b' : locks bs r w -> bs !! i = Some b -> (w = None \/ w = Some i) -> (w' = None \/ w' = Some i) -> (w = Some i \/ lock_ b = None) ->
  lock_ b' = (if decide (w' = Some i) then Some Writer else None) -> locks (<[i := b']> bs) r w' /\ r <> Some i.
Proof.
  intros HL Ei Hw Hw' Hfree Hb. pose proof (proj1 HL i b Ei) as Hlb. assert (Hr : r <> Some i).
  { destruct Hfree as [->|Hl]; [intros E; by apply (proj2 HL i E)|]. rewrite Hl in Hlb. unfold expected in Hlb. by repeat case_decide. }
  split; [|done]. eapply locks_insert; [done..| | |].
  - rewrite Hb. unfold expected. by rewrite (decide_False (P := r = Some i)).
  - intros j Hj. unfold expected. destruct Hw as [->| ->], Hw' as [->| ->]; repeat case_decide; congruence.
  - intros j Ej. destruct Hw' as [->| ->]; [done|]. congruence.
Qed.

(** ** The reader *)

Definition plain (r : rpc) : bool := match r with RError _ _ | RFull _ | RDone | RThrown => false | _ => true end.
Definition r_room (r : rpc) (q : list item) (c : nat) : Prop :=
  match r with RAsleep _ => length q = c | RCheck _ | RRead _ | RError _ _ | RFull _ => length q < c | _ => True end.

Lemma plain_stopping bs r : plain r = true -> ~ stopping bs r.
Proof. destruct r; simpl; (done || tauto). Qed.
Lemma plain_done r : plain r = true -> r <> RDone.
Proof. by destruct r. Qed.
Lemma plain_thrown r s : plain r = true -> thrown (set_reader r s) = false.
Proof. by destruct r. Qed.
Lemma plain_pending bs r err : plain r = true -> pending bs r err.
Proof. by destruct r. Qed.
Lemma plain_remaining bs r inp err rest : plain r = true -> remaining bs r inp err rest <-> rest = feed inp.
Proof. by destruct r. Qed.

(** The program point and the mutex of the buffer change, and nothing else. *)
Lemma reader_moves l0 s w q r' i b b' : inv l0 s w q -> buffers s !! i = Some b -> full_ b' = full_ b -> length_ b' = length_ b -> buffer_ b' = buffer_ b ->
  locks (<[i := b']> (buffers s)) (r_holds r') (w_holds (writer s)) -> r_index r' = r_index (reader s) -> r_room r' q (count_ (owner s)) ->
  plain (reader s) = true -> plain r' = true -> (error_ (owner s) = true -> pushing r' <= pushing (reader s)) ->
  inv l0 (set_reader r' (set_buffer i b' s)) w q.
Proof.
  intros I Ei E1 E2 E3 HL Hi Hq Hp Hp' He. split; simpl; try apply I.
  - by eapply ring_same; [apply I|..].
  - rewrite Hi. apply I.
  - done.
  - exact Hq.
  - by apply plain_pending.
  - by apply plain_thrown.
  - intros k it Hk Ht. destruct (v_items _ _ _ _ I k it Hk Ht) as [_ H]. by apply plain_done in H.
  - intros E. destruct (v_error _ _ _ _ I E) as [H|H]; [by apply plain_stopping in H|by right].
  - intros E. by apply plain_done in E.
  - intros Ew. destruct (v_wdone _ _ _ _ I Ew) as [(_ & H & _)|(E & [H|H])]; [by apply plain_done in H|by apply plain_stopping in H|].
    right. split; [done|]. right. specialize (He E). lia.
  - intros Hc. destruct (v_data _ _ _ _ I Hc) as (rest & Hd & Hr). exists rest. split; [done|]. rewrite plain_remaining in * by done. done.
Qed.

(** The reader sees an error. *)
Lemma reader_gives_up l0 s w q bs' : inv l0 s w q -> error_ (owner s) = true -> plain (reader s) = true -> ring bs' (count_ (owner s)) w q ->
  locks bs' None (w_holds (writer s)) -> inv l0 (set_reader RDone (set_buffers bs' s)) w q.
Proof.
  intros I E Hp HR HL. assert (Hw : w_stopped (writer s) = true) by (destruct (v_error _ _ _ _ I E) as [H|H]; [by apply plain_stopping in H|done]).
  split; simpl; try apply I; try done.
  - intros k it Hk Ht. destruct (v_items _ _ _ _ I k it Hk Ht) as [_ H]. by apply plain_done in H.
  - by left.
  - by right.
  - intros _. right. split; [done|by left].
  - unfold clean. simpl. destruct (writer s) as [| | | | | | |? []|]; try done. by rewrite E.
Qed.

Lemma set_buffer_id s i b : buffers s !! i = Some b -> set_buffer i b s = s.
Proof. intros E. unfold set_buffer, set_buffers. rewrite list_insert_id by done. by destruct s. Qed.

Lemma reader_buffer l0 s w q i : inv l0 s w q -> r_index (reader s) = Some i -> exists b, buffers s !! i = Some b /\ (full_ b = true <-> length q = count_ (owner s)).
Proof. intros I Hi. rewrite (v_rindex _ _ _ _ I i Hi). apply ring_next; apply I. Qed.

(** The steps up to the read. *)
Lemma reader_prepares l0 s w q s' : inv l0 s w q -> reader_step s = Some s' -> plain (reader s) = true -> (forall i, reader s <> RRead i) -> inv l0 s' w q.
Proof.
  intros I E Hp Hr. unfold reader_step in E. destruct (reader s) as [i|i|i|i|i|i|i f|i| |] eqn:Er; try done; [| | | |by destruct (Hr i)];
    destruct (reader_buffer l0 s w q i I ltac:(by rewrite Er)) as (b & Eb & Hf); simpl in E; rewrite ?Eb in E; simpl in E.
  - injection E as <-. destruct (error_ (owner s)) eqn:Ee.
    + pose proof (reader_gives_up l0 s w q (buffers s) I Ee ltac:(by rewrite Er) ltac:(apply I)) as H. apply H. pose proof (v_locks _ _ _ _ I) as HL. by rewrite Er in HL.
    + rewrite <- (set_buffer_id s i b Eb) at 1. eapply reader_moves; rewrite ?Er; try done. rewrite list_insert_id by done. pose proof (v_locks _ _ _ _ I) as HL. by rewrite Er in HL.
  - destruct (lock_ b) eqn:El; [done|]. injection E as <-. eapply reader_moves; rewrite ?Er; try done. simpl.
    pose proof (v_locks _ _ _ _ I) as HL. rewrite Er in HL. eapply (locks_reader _ None _ (Some i)); first [done|by left|by right|by rewrite decide_True].
  - pose proof (v_locks _ _ _ _ I) as HL. rewrite Er in HL. destruct (full_ b) eqn:Ef; injection E as <-.
    + eapply reader_moves; rewrite ?Er; try done; [|by apply Hf]. eapply (locks_reader _ (Some i) _ None); first [done|by left|by right].
    + rewrite <- (set_buffer_id s i b Eb) at 1. eapply reader_moves; rewrite ?Er; try done; [by rewrite list_insert_id|]. simpl. pose proof (ring_size _ _ _ _ (v_ring _ _ _ _ I)).
      assert (length q <> count_ (owner s)) by (intros H0; by apply Hf in H0). lia.
  - pose proof (v_locks _ _ _ _ I) as HL. rewrite Er in HL. destruct (error_ (owner s)) eqn:Ee; injection E as <-.
    + apply reader_gives_up; rewrite ?Er; try done; [by eapply ring_same; [apply I|..]|]. eapply (locks_reader _ (Some i) _ None); first [done|by left|by right].
    + rewrite <- (set_buffer_id s i b Eb) at 1. pose proof (v_rq _ _ _ _ I) as Hq. rewrite Er in Hq. eapply reader_moves; rewrite ?Er, ?Ee; try done. by rewrite list_insert_id.
Qed.

(** The read: its result is in the buffer of the reader, which is not full yet. *)
Lemma reader_stores l0 s w q i b b' r' inp : inv l0 s w q -> reader s = RRead i -> buffers s !! i = Some b -> full_ b' = full_ b -> lock_ b' = lock_ b ->
  (r' = RFull i /\ holds_item (item_of b') b' /\ ((length_ b' < 0)%Z -> existsb is_negative (input s) = true) /\ feed (input s) = after (item_of b') (feed inp)) \/
  (exists f, r' = RError i f /\ (length_ b' < 0)%Z /\ feed (input s) = ([], false)) -> (existsb is_negative inp = true -> existsb is_negative (input s) = true) ->
  inv l0 (set_reader r' (set_input inp (set_buffer i b' s))) w q.
Proof.
  intros I Er Eb Ef El Hr Hin. assert (Hplain : plain (reader s) = true) by (by rewrite Er). pose proof (v_rq _ _ _ _ I) as Hq. rewrite Er in Hq.
  assert (Hlt : i < length (buffers s)) by (by eapply lookup_lt_Some). pose proof (v_rindex _ _ _ _ I i ltac:(by rewrite Er)) as Hi.
  assert (Hr1 : r_index r' = Some i /\ r_holds r' = Some i /\ pushing r' = 1 /\ r_room r' q (count_ (owner s)) /\ r' <> RDone) by (by destruct Hr as [(-> & _)|(f & -> & _)]).
  destruct Hr1 as (R1 & R2 & R3 & R4 & R5). pose proof (v_locks _ _ _ _ I) as HL. split; simpl; try apply I; try done.
  - rewrite Hi. apply ring_fill; [apply I|done|]. rewrite Ef. destruct (reader_buffer l0 s w q i I ltac:(by rewrite Er)) as (b2 & Eb2 & Hf). rewrite Eb in Eb2. injection Eb2 as <-.
    destruct (full_ b); [|done]. assert (length q = count_ (owner s)) by (by apply Hf). lia.
  - rewrite R1. by intros j [= <-].
  - rewrite Er in HL. rewrite R2. eapply (locks_reader _ (Some i)); try done; [by right|by right|by left|]. rewrite El, (proj1 HL i b Eb), decide_True by done. apply expected_reader.
  - destruct Hr as [(-> & Hh & Hn & _)|(f & -> & Hn & _)]; simpl; exists b'; rewrite list_lookup_insert_eq by done; split_and!; try done. intros H%Hn. apply orb_true_iff. right. by apply (v_input _ _ _ _ I).
  - intros H. by apply (v_input _ _ _ _ I), Hin.
  - by destruct Hr as [(-> & _)|(f & -> & _)].
  - intros k it Hk Ht. destruct (v_items _ _ _ _ I k it Hk Ht) as [_ H]. by apply plain_done in H.
  - intros E. destruct (v_error _ _ _ _ I E) as [H|H]; [by apply plain_stopping in H|by right].
  - intros Ew. destruct (v_wdone _ _ _ _ I Ew) as [(_ & H & _)|(E & [H|H])]; [by apply plain_done in H|by apply plain_stopping in H|].
    right. split; [done|]. right. rewrite Er in H. simpl in H. lia.
  - intros Hc. destruct (v_data _ _ _ _ I Hc) as (rest & Hd & Hrest). exists rest. split; [done|]. rewrite plain_remaining in Hrest by done.
    destruct Hr as [(-> & _ & _ & Hst)|(f & -> & _ & Hst)]; simpl; [|congruence]. intros b0. rewrite list_lookup_insert_eq by done. intros [= <-]. congruence.
Qed.

Lemma item_of_chunk c b : item_of (set_content (zlen c) c b) = Some c.
Proof. unfold item_of. simpl. destruct (Z.ltb_spec (zlen c) 0); [unfold zlen in *; lia|done]. Qed.
Lemma item_of_failed b : (length_ b < 0)%Z -> item_of b = None.
Proof. intros H. unfold item_of. by destruct (Z.ltb_spec (length_ b) 0); [|lia]. Qed.

Lemma reader_reads l0 s w q s' i : inv l0 s w q -> reader s = RRead i -> reader_step s = Some s' -> inv l0 s' w q.
Proof.
  intros I Er E. unfold reader_step in E. rewrite Er in E. destruct (reader_buffer l0 s w q i I ltac:(by rewrite Er)) as (b & Eb & _). rewrite Eb in E. simpl in E.
  assert (Hc : forall c, ~ (length_ (set_content (zlen c) c b) < 0)%Z) by (intros c; simpl; unfold zlen; lia).
  destruct (input s) as [|[c|f|n] l] eqn:Ei; injection E as <-.
  - change (inv l0 (set_reader (RFull i) (set_input (input s) (set_buffer i (set_content (zlen ([] : list byte)) [] b) s))) w q).
    eapply reader_stores; try done. left. split_and!; [done|by rewrite item_of_chunk|by intros ?%Hc|]. by rewrite item_of_chunk, Ei.
  - eapply reader_stores; try done; [|by rewrite Ei]. left. split_and!; [done|by rewrite item_of_chunk|by intros ?%Hc|]. rewrite item_of_chunk, Ei. by destruct c.
  - eapply reader_stores; try done; [|by rewrite Ei]. right. exists f. by rewrite Ei.
  - eapply reader_stores; try done; [|by rewrite Ei]. left. rewrite item_of_failed by done. by rewrite Ei.
Qed.

Lemma fail_error f d : error_ (fail f d) = true /\ count_ (fail f d) = count_ d /\ inBytes_ (fail f d) = inBytes_ d /\ outBytes_ (fail f d) = outBytes_ d.
Proof. by destruct f. Qed.
Lemma clean_fail f r s : clean (set_reader r (set_owner (fail f (owner s)) s)) = true -> clean s = true.
Proof. unfold clean. simpl. destruct (fail_error f (owner s)) as [-> _]. by destruct (writer s). Qed.

Lemma reader_fails l0 s w q s' i f : inv l0 s w q -> reader s = RError i f -> reader_step s = Some s' -> inv l0 s' w q.
Proof.
  intros I Er E. unfold reader_step in E. rewrite Er in E. injection E as <-. destruct (fail_error f (owner s)) as (Ee & Ec & Ein & Eout). pose proof (v_pending _ _ _ _ I) as Hpe. rewrite Er in Hpe. destruct Hpe as (b & Eb & Hb).
  assert (Hst : stopping (buffers s) (RFull i)) by (by exists b). pose proof (v_locks _ _ _ _ I) as HL. pose proof (v_rq _ _ _ _ I) as Hq. rewrite Er in HL, Hq.
  split; simpl; rewrite ?Ec, ?Ee, ?Ein, ?Eout; try apply I; try done.
  - intros j Hj. apply (v_rindex _ _ _ _ I). by rewrite Er.
  - exists b. split; [done|]. split; [|done]. by rewrite item_of_failed.
  - intros k it Hk Ht. destruct (v_items _ _ _ _ I k it Hk Ht) as [_ H]. congruence.
  - by left.
  - intros _. right. split; [done|by left].
  - intros Hcl. by apply (v_bytes _ _ _ _ I), (clean_fail f (RFull i)).
  - intros Hcl%clean_fail. destruct (v_data _ _ _ _ I Hcl) as (rest & Hd & Hr). exists rest. split; [done|].
    rewrite Er in Hr. simpl in Hr. subst. simpl. intros b0 Eb0. rewrite Eb in Eb0. injection Eb0 as <-. by rewrite item_of_failed.
Qed.

(** *** The buffer of the reader becomes full *)

Definition w_woken (i : nat) (w : wpc) : wpc := match w with WAsleep j => if bool_decide (i = j) then WLock i else w | _ => w end.
Lemma signal_writer_eq i s : signal_writer i s = set_writer (w_woken i (writer s)) s.
Proof. unfold signal_writer, w_woken. destruct (writer s) eqn:E; try (rewrite <- E; by destruct s). case_bool_decide; [done|]. rewrite <- E. by destruct s. Qed.

Lemma w_woken_cases i w : w_woken i w = w /\ w <> WAsleep i \/ w = WAsleep i /\ w_woken i w = WLock i.
Proof. destruct w; try (by left); simpl. case_bool_decide as H; [subst; by right|left]. split; [done|congruence]. Qed.

Lemma holds_length b : holds_item (item_of b) b -> (length_ b <=? 0)%Z = terminal (item_of b) /\ length_ b = if terminal (item_of b) then length_ b else zlen (default [] (item_of b)).
Proof.
  unfold item_of. destruct (Z.ltb_spec (length_ b) 0) as [E|E]; simpl; [intros _; split; [|done]; apply Z.leb_le; lia|]. intros [Hl _]. destruct (buffer_ b) as [|x c]; simpl in *; unfold zlen in *; simpl in *.
  - by rewrite Hl.
  - split; [|done]. destruct (Z.leb_spec (length_ b) 0); [lia|done].
Qed.

Lemma bytes_of_app q1 q2 : bytes_of (q1 ++ q2) = bytes_of q1 ++ bytes_of q2.
Proof. unfold bytes_of. by rewrite bind_app. Qed.
Lemma bytes_of_one it : bytes_of [it] = default [] it.
Proof. unfold bytes_of. simpl. by rewrite app_nil_r. Qed.
Lemma terminal_bytes it : terminal it = true -> default [] it = [].
Proof. by destruct it as [[|? ?]|]. Qed.
Lemma left_app w q it : (written w = true -> q <> []) -> left_ w (q ++ [it]) = left_ w q ++ [it].
Proof. unfold left_. destruct (written w); [|done]. destruct q; [naive_solver|done]. Qed.

Section Push.
Context l0 s w q i b (I : inv l0 s w q) (Er : reader s = RFull i) (Eb : buffers s !! i = Some b) (Hgo : (length_ b <? 0)%Z && negb (error_ (owner s)) = false).
Let it := item_of b.
Let r' : rpc := if terminal it then RDone else RHead (next_index i (owner s)).
Let d' : DblBuffer := if terminal it then owner s else add_in (length_ b) (owner s).
Let wp := w_woken i (writer s).
Let s' : state := mkState d' (<[i := set_lock None (set_full true b)]> (buffers s)) r' wp (input s) (output s).

Lemma push_facts : length q < count_ (owner s) /\ i = (w + length q) `mod` count_ (owner s) /\ holds_item it b /\ (it = None -> error_ (owner s) = true) /\
  (forall j, wp <> WAsleep j) /\ (wp = writer s \/ wp = WLock i /\ writer s = WAsleep i).
Proof using I Er Eb Hgo.
  pose proof (v_rq _ _ _ _ I) as Hq. rewrite Er in Hq. pose proof (v_rindex _ _ _ _ I i ltac:(by rewrite Er)) as Hi. pose proof (v_pending _ _ _ _ I) as Hp. rewrite Er in Hp.
  destruct Hp as (b0 & Eb0 & Hh & Hn). rewrite Eb in Eb0. injection Eb0 as <-. split_and!; [done..| | |].
  - unfold it, item_of. destruct (length_ b <? 0)%Z; [|done]. by destruct (error_ (owner s)).
  - intros j E. unfold wp in E. destruct (w_woken_cases i (writer s)) as [[Hw Hne]|[Hw Hne]]; [|congruence]. rewrite Hw in E. pose proof (v_wq _ _ _ _ I) as Hwq. rewrite E in Hwq. subst q.
    pose proof (v_windex _ _ _ _ I j ltac:(by rewrite E)) as Hj. rewrite Nat.add_0_r in Hi. congruence.
  - destruct (w_woken_cases i (writer s)) as [[Hw _]|[Hw Hne]]; [by left|by right].
Qed.

Lemma push_clean : clean s' = true -> clean s = true.
Proof using I Er Eb Hgo.
  destruct push_facts as (_ & _ & _ & _ & _ & Hw). unfold clean. simpl. destruct Hw as [->|[-> ->]]; [|done]. destruct (writer s); try done. unfold d'. by destruct (terminal it).
Qed.

Lemma push_inv : inv l0 s' w (q ++ [it]).
Proof using I Er Eb Hgo.
  destruct push_facts as (Hq & Hi & Hh & Hn & Hns & Hw). destruct (holds_length b Hh) as [_ Hlen]. fold it in Hlen.
  assert (Hd : count_ d' = count_ (owner s) /\ error_ d' = error_ (owner s) /\ outBytes_ d' = outBytes_ (owner s)) by (unfold d'; by destruct (terminal it)). destruct Hd as (Dc & De & Do).
  assert (Hws : w_index wp = w_index (writer s) /\ w_holds wp = w_holds (writer s) /\ w_stopped wp = w_stopped (writer s) /\ written wp = written (writer s)) by (by destruct Hw as [->|[-> ->]]).
  destruct Hws as (W1 & W2 & W3 & W4). pose proof (v_locks _ _ _ _ I) as HL. rewrite Er in HL.
  assert (Hst : error_ (owner s) = true -> stopping (buffers s) (RFull i) -> r' = RDone).
  { intros _ (b0 & Eb0 & Hb0). rewrite Eb in Eb0. injection Eb0 as <-. unfold r', it. by rewrite item_of_failed. }
  split; simpl; rewrite ?Dc, ?De, ?Do, ?W1, ?W2, ?W3, ?W4; try apply I.
  - rewrite Hi. by apply ring_push; [apply I|..].
  - unfold r'. destruct (terminal it); [done|]. simpl. intros j [= <-]. rewrite Hi. unfold next_index. rewrite length_app. simpl. rewrite next_slot by apply I. f_equal. lia.
  - eapply (locks_reader _ (Some i) _ (r_holds r')); try done; [by right|unfold r'; destruct (terminal it); by left|by left|]. unfold r'. by destruct (terminal it).
  - unfold r'. by destruct (terminal it).
  - destruct Hw as [E|[E _]]; rewrite E; [|done]. pose proof (v_wq _ _ _ _ I) as Hwq. destruct (writer s) as [| | |j| | | | |] eqn:Ew; try done; try (by destruct q); try (destruct Hwq as (x & c & q' & ->); by exists x, c, (q' ++ [it])). by destruct (Hns j).
  - unfold r'. by destruct (terminal it).
  - unfold thrown, s', r'. simpl. by destruct (terminal it).
  - intros k x Hk Ht. apply lookup_app_Some in Hk as [Hk|[Hge Hk]]; [destruct (v_items _ _ _ _ I k x Hk Ht); congruence|]. destruct (k - length q) as [|n] eqn:En; [|done]. injection Hk as <-.
    rewrite length_app. simpl. split; [lia|]. unfold r'. by rewrite Ht.
  - rewrite elem_of_app, list_elem_of_singleton. intros [H|H]; [by apply (v_failed _ _ _ _ I)|by apply Hn].
  - intros E. destruct (v_error _ _ _ _ I E) as [H|H]; [|by right]. left. rewrite Er in H. by rewrite (Hst E H).
  - intros j E. destruct Hw as [Ew|[Ew _]]; rewrite Ew in E; [|done]. by eapply (v_wfail _ _ _ _ I).
  - intros E. left. exists it. rewrite last_snoc. split; [done|]. unfold r' in E. by destruct (terminal it).
  - intros E. assert (Ew : writer s = WDone) by (destruct Hw as [H|[H _]]; congruence). right. destruct (v_wdone _ _ _ _ I Ew) as [(_ & H & _)|(E' & H)]; [congruence|]. split; [done|].
    rewrite Er in H. destruct H as [H|H]; [left; by rewrite (Hst E' H)|]. unfold r'. destruct (terminal it); [by left|]. right. rewrite length_app. simpl in *. lia.
  - intros Hcl. destruct (v_bytes _ _ _ _ I (push_clean Hcl)) as [H1 H2]. rewrite bytes_of_app, bytes_of_one. unfold zlen in *. rewrite length_app. unfold d'. split.
    + destruct (terminal it) eqn:Et; simpl; [rewrite (terminal_bytes it Et); simpl; lia|]. lia.
    + rewrite H2. destruct (written (writer s)) eqn:Ewr; [|done]. destruct q as [|x q0]; [|done]. pose proof (v_wq _ _ _ _ I) as Hwq. destruct (writer s) as [| | | | | | |? []|]; try done. by destruct Hwq as (? & ? & ? & ?).
  - intros Hcl. destruct (v_data _ _ _ _ I (push_clean Hcl)) as (rest & Hdat & Hr). rewrite Er in Hr. simpl in Hr. specialize (Hr b Eb). fold it in Hr.
    assert (El : left_ wp (q ++ [it]) = left_ (writer s) q ++ [it]).
    { unfold left_. rewrite W4. apply left_app. intros E. pose proof (v_wq _ _ _ _ I) as Hwq. destruct (writer s) as [| | | | | | |? []|]; try done. by destruct Hwq as (? & ? & ? & ->). }
    rewrite El, bytes_of_app, bytes_of_one. unfold after in Hr. unfold r'. destruct (terminal it) eqn:Et.
    + exists rest. rewrite (terminal_bytes it Et), app_nil_r. split; [done|]. simpl. intros E. rewrite Hr. f_equal. apply bool_decide_eq_true. intros Hnone. by rewrite (Hn Hnone) in E.
    + exists (feed (input s)). split; [|done]. subst rest. rewrite <- Hdat. simpl. by rewrite <- !app_assoc.
Qed.
End Push.

(** [ASSERT(error())] fails. *)
Definition abandons s : bool := match reader s with RFull i => match buffers s !! i with Some b => (length_ b <? 0)%Z && negb (error_ (owner s)) | None => false end | _ => false end.

Lemma reader_pushes l0 s w q s' i : inv l0 s w q -> reader s = RFull i -> reader_step s = Some s' -> abandons s = false -> exists it, inv l0 s' w (q ++ [it]).
Proof.
  intros I Er E Ha. unfold reader_step in E. unfold abandons in Ha. rewrite Er in E, Ha. destruct (reader_buffer l0 s w q i I ltac:(by rewrite Er)) as (b & Eb & _). rewrite Eb in E, Ha. simpl in E. rewrite Ha in E.
  exists (item_of b). pose proof (push_inv l0 s w q i b I Er Eb Ha) as H. rewrite signal_writer_eq in E. pose proof (v_pending _ _ _ _ I) as Hp. rewrite Er in Hp. destruct Hp as (b0 & Eb0 & Hh & _).
  rewrite Eb in Eb0. injection Eb0 as <-. destruct (holds_length b Hh) as [Hl _]. rewrite Hl in E. destruct (terminal (item_of b)); by injection E as <-.
Qed.

(** ** The writer *)

Section Others.
Context (bs : list OneBuffer) (j : nat) (b' : OneBuffer) (r : rpc) (Hr : r_holds r <> Some j).

Lemma stopping_insert : stopping (<[j := b']> bs) r <-> stopping bs r.
Proof using Hr. destruct r; try done. simpl in *. rewrite list_lookup_insert_ne by congruence. done. Qed.
Lemma pending_insert err : pending (<[j := b']> bs) r err <-> pending bs r err.
Proof using Hr. destruct r; try done; simpl in *; rewrite list_lookup_insert_ne by congruence; done. Qed.
Lemma remaining_insert inp err rest : remaining (<[j := b']> bs) r inp err rest <-> remaining bs r inp err rest.
Proof using Hr. destruct r; try done. simpl in *. rewrite list_lookup_insert_ne by congruence. done. Qed.
End Others.

Definition w_room (w : wpc) (q : list item) : Prop :=
  match w with
  | WAsleep _ => q = []
  | WCheck _ => q <> []
  | WWrite _ | WError _ _ | WEmpty _ _ => exists x c q', q = Some (x :: c) :: q'
  | _ => True
  end.
(** Before the write. *)
Definition w_plain (w : wpc) : bool := match w with WError _ _ | WEmpty _ _ | WDone => false | _ => true end.

Lemma w_plain_facts w : w_plain w = true -> w_stopped w = false /\ written w = false /\ w <> WDone /\ forall s, writer s = w -> clean s = true.
Proof. intros H. split_and!; [by destruct w..|]. intros s E. unfold clean. rewrite E. by destruct w. Qed.

Lemma writer_moves l0 s w q w' i b b' : inv l0 s w q -> buffers s !! i = Some b -> full_ b' = full_ b -> length_ b' = length_ b -> buffer_ b' = buffer_ b ->
  locks (<[i := b']> (buffers s)) (r_holds (reader s)) (w_holds w') -> r_holds (reader s) <> Some i \/ b' = b -> w_index w' = w_index (writer s) -> w_room w' q ->
  w_plain (writer s) = true -> w_plain w' = true -> inv l0 (set_writer w' (set_buffer i b' s)) w q.
Proof.
  intros I Ei E1 E2 E3 HL Hr Hi Hq Hp Hp'. destruct (w_plain_facts _ Hp) as (P1 & P2 & P3 & P4). destruct (w_plain_facts _ Hp') as (Q1 & Q2 & Q3 & Q4). specialize (P4 s eq_refl).
  assert (HS : stopping (<[i := b']> (buffers s)) (reader s) <-> stopping (buffers s) (reader s)) by (destruct Hr as [Hr| ->]; [by apply stopping_insert|by rewrite list_insert_id]).
  assert (HP : forall err, pending (<[i := b']> (buffers s)) (reader s) err <-> pending (buffers s) (reader s) err) by (intros err; destruct Hr as [Hr| ->]; [by apply pending_insert|by rewrite list_insert_id]).
  assert (HR : forall inp err rest, remaining (<[i := b']> (buffers s)) (reader s) inp err rest <-> remaining (buffers s) (reader s) inp err rest)
    by (intros inp err rest; destruct Hr as [Hr| ->]; [by apply remaining_insert|by rewrite list_insert_id]).
  split; simpl; rewrite ?HS, ?HP, ?Q1, ?Q2; try apply I.
  - by eapply ring_same; [apply I|..].
  - rewrite Hi. apply I.
  - done.
  - exact Hq.
  - intros E. rewrite <- P1. by apply (v_error _ _ _ _ I).
  - intros j ->. done.
  - intros E. destruct (v_rdone _ _ _ _ I E) as [H|[_ H]]; [by left|congruence].
  - intros ->. done.
  - intros _. pose proof (v_bytes _ _ _ _ I P4) as H. by rewrite P2 in H.
  - intros _. destruct (v_data _ _ _ _ I P4) as (rest & Hd & Hrest). exists rest. rewrite HR. unfold left_ in *. by rewrite P2 in Hd; rewrite Q2.
Qed.

Lemma writer_buffer l0 s w q i : inv l0 s w q -> w_index (writer s) = Some i -> exists b, buffers s !! i = Some b /\ (full_ b = true <-> q <> []).
Proof. intros I Hi. rewrite (v_windex _ _ _ _ I i Hi). apply ring_first; apply I. Qed.

(** The writer sees an error, or the end. *)
Lemma writer_gives_up l0 s w q bs' : inv l0 s w q -> w_plain (writer s) = true -> ring bs' (count_ (owner s)) w q -> locks bs' (r_holds (reader s)) None ->
  (forall err, pending (buffers s) (reader s) err -> pending bs' (reader s) err) -> (stopping (buffers s) (reader s) -> stopping bs' (reader s)) ->
  error_ (owner s) = true \/ error_ (owner s) = false /\ reader s = RDone /\ q = [Some []] -> inv l0 (set_writer WDone (set_buffers bs' s)) w q.
Proof.
  intros I Hp HR HL HP HS He. destruct (w_plain_facts _ Hp) as (P1 & P2 & P3 & P4). specialize (P4 s eq_refl).
  split; simpl; try apply I; try done.
  - apply HP, I.
  - intros E. by right.
  - intros E. destruct (v_rdone _ _ _ _ I E) as [H|[_ H]]; [by left|congruence].
  - intros _. destruct He as [E|He]; [|by left]. right. split; [done|]. left. destruct (v_error _ _ _ _ I E) as [H|H]; [by apply HS|congruence].
  - intros _. pose proof (v_bytes _ _ _ _ I P4) as H. by rewrite P2 in H.
  - unfold clean. simpl. intros Hc. destruct He as [E|(E & Erd & ->)]; [by rewrite E in Hc|]. destruct (v_data _ _ _ _ I P4) as (rest & Hd & Hrest). exists rest. rewrite Erd in *. unfold left_ in *. by rewrite P2 in Hd.
Qed.

(** The buffer of the writer is not the one that the reader holds. *)
Lemma writer_apart l0 s w q i : inv l0 s w q -> w_holds (writer s) = Some i -> r_holds (reader s) <> Some i.
Proof. intros I Hw Hr. by apply (proj2 (v_locks _ _ _ _ I) i Hr). Qed.

Lemma head_item l0 s w it q b i : inv l0 s w (it :: q) -> w_index (writer s) = Some i -> buffers s !! i = Some b -> holds_item it b.
Proof.
  intros I Hi Eb. rewrite (v_windex _ _ _ _ I i Hi) in Eb. destruct (ring_head _ _ _ _ _ (v_ring _ _ _ _ I)) as (b0 & Eb0 & _ & H). rewrite Eb in Eb0. by injection Eb0 as <-.
Qed.

(** The writer checks the buffer, which is full. *)
Lemma writer_checks l0 s w q s' i r : inv l0 s w q -> writer s = WCheck i -> writer_step r s = Some s' -> inv l0 s' w q.
Proof.
  intros I Ew E. unfold writer_step in E. rewrite Ew in E. destruct (writer_buffer l0 s w q i I ltac:(by rewrite Ew)) as (b & Eb & _). rewrite Eb in E. simpl in E.
  pose proof (writer_apart l0 s w q i I ltac:(by rewrite Ew)) as Hap. pose proof (v_wq _ _ _ _ I) as Hq. rewrite Ew in Hq. destruct q as [|it q]; [done|]. clear Hq.
  pose proof (head_item l0 s w it q b i I ltac:(by rewrite Ew) Eb) as Hit. pose proof (v_locks _ _ _ _ I) as HL. rewrite Ew in HL.
  destruct (error_ (owner s) || (length_ b =? 0)%Z) eqn:Eg; injection E as <-.
  - apply writer_gives_up; rewrite ?Ew; try done.
    + by eapply ring_same; [apply I|..].
    + eapply (locks_writer _ _ (Some i) None); first [done|by left|by right].
    + intros err. by rewrite pending_insert.
    + by rewrite stopping_insert.
    + destruct (error_ (owner s)) eqn:Ee; [by left|right]. simpl in Eg. apply Z.eqb_eq in Eg. destruct it as [[|x c]|]; simpl in Hit; [|unfold zlen in Hit; simpl in Hit; lia|lia].
      destruct (v_items _ _ _ _ I 0 (Some []) eq_refl eq_refl) as [Hlen Hrd]. by destruct q.
  - apply orb_false_iff in Eg as [Ee Eg%Z.eqb_neq]. rewrite <- (set_buffer_id s i b Eb) at 1. eapply writer_moves; rewrite ?Ew; try done; [by rewrite list_insert_id|by right|].
    destruct it as [[|x c]|]; [|by exists x, c, q|].
    + destruct Hit as [Hl _]. rewrite Hl in Eg. done.
    + pose proof (v_failed _ _ _ _ I ltac:(by left)). congruence.
Qed.

Lemma writer_prepares l0 s w q s' r : inv l0 s w q -> writer_step r s = Some s' -> w_plain (writer s) = true -> (forall i, writer s <> WWrite i) -> inv l0 s' w q.
Proof.
  intros I E Hp Hr. pose proof E as E'. unfold writer_step in E. destruct (writer s) as [i|i|i|i|i|i|i f|i fl|] eqn:Ew; try done; [..|by eapply writer_checks|by destruct (Hr i)];
    destruct (writer_buffer l0 s w q i I ltac:(by rewrite Ew)) as (b & Eb & Hf); simpl in E; rewrite ?Eb in E; simpl in E; pose proof (v_locks _ _ _ _ I) as HL; rewrite Ew in HL.
  - injection E as <-. destruct (error_ (owner s)) eqn:Ee.
    + apply (writer_gives_up l0 s w q (buffers s) I); rewrite ?Ew; try done; [apply I|by left].
    + rewrite <- (set_buffer_id s i b Eb) at 1. eapply writer_moves; rewrite ?Ew; try done; [by rewrite list_insert_id|by right].
  - destruct (lock_ b) eqn:El; [done|]. injection E as <-.
    destruct (locks_writer (buffers s) (r_holds (reader s)) None (Some i) i b (set_lock (Some Writer) b) HL Eb) as [HL' Hap]; try first [done|by left|by right|by rewrite decide_True].
    eapply writer_moves; rewrite ?Ew; try done. by left.
  - destruct (full_ b) eqn:Ef; injection E as <-.
    + rewrite <- (set_buffer_id s i b Eb) at 1. eapply writer_moves; rewrite ?Ew; try done; [by rewrite list_insert_id|by right|by apply Hf].
    + destruct (locks_writer (buffers s) (r_holds (reader s)) (Some i) None i b (set_lock None b) HL Eb) as [HL' Hap]; try first [done|by left|by right].
      eapply writer_moves; rewrite ?Ew; try done; [by left|]. simpl. destruct q; [done|]. exfalso. assert (false = true) by (by apply Hf). done.
Qed.

(** The write. *)
Lemma writer_writes l0 s w q s' i r : inv l0 s w q -> writer s = WWrite i -> writer_step r s = Some s' -> inv l0 s' w q.
Proof.
  intros I Ew E. unfold writer_step in E. rewrite Ew in E. destruct (writer_buffer l0 s w q i I ltac:(by rewrite Ew)) as (b & Eb & _). rewrite Eb in E. simpl in E.
  pose proof (v_wq _ _ _ _ I) as Hq. rewrite Ew in Hq. destruct Hq as (x & c & q' & ->). destruct (head_item l0 s w _ q' b i I ltac:(by rewrite Ew) Eb) as [Hl Hb].
  assert (Hcl : clean s = true) by (unfold clean; by rewrite Ew). destruct (v_data _ _ _ _ I Hcl) as (rest & Hd & Hrest). destruct (v_bytes _ _ _ _ I Hcl) as [Hin Hout]. rewrite Ew in Hd, Hout. simpl in Hd, Hout. injection Hd as Hd He.
  assert (Hpre : forall n, output s ++ take n (buffer_ b) `prefix_of` stream l0).
  { intros n. rewrite <- Hd, Hb. etransitivity; [apply prefix_app, (prefix_take _ n)|]. exists (bytes_of q' ++ rest.1). unfold bytes_of, left_. simpl. by rewrite <- !app_assoc. }
  assert (Hgen : forall w' n, (w' = WEmpty i false /\ n = length (buffer_ b)) \/ (exists f, w' = WError i f) -> inv l0 (set_writer w' (set_output (output s ++ take n (buffer_ b)) s)) w (Some (x :: c) :: q')).
  { intros w' n Hw'. pose proof (v_locks _ _ _ _ I) as HL. pose proof (v_windex _ _ _ _ I) as Hwi. pose proof (v_error _ _ _ _ I) as Her. pose proof (v_rdone _ _ _ _ I) as Hrd. rewrite Ew in HL, Hwi, Her, Hrd.
    split; simpl; try apply I; try apply Hpre; destruct Hw' as [[-> ->]|[f ->]]; simpl; try done; try (by exists x, c, q'); try (intros E1; destruct (Her E1) as [H|H]; [by left|done]);
      try (intros E1; destruct (Hrd E1) as [H|[_ H]]; [by left|done]).
    - intros _. split; [done|]. rewrite firstn_all, Hb. unfold zlen in *. rewrite length_app. unfold bytes_of. simpl. rewrite !length_app. simpl. lia.
    - intros _. exists rest. split; [|done]. rewrite firstn_all, Hb. unfold feed. rewrite <- Hd, He. unfold bytes_of, left_. simpl. by rewrite <- !app_assoc. }
  destruct r as [n|n f]; injection E as <-; apply Hgen; [|by right; exists f]. destruct (Z.eqb_spec n (length_ b)) as [->|]; [|right; by eexists]. left. split; [done|]. rewrite Hl, Hb. unfold zlen. lia.
Qed.

Lemma writer_fails l0 s w q s' i f r : inv l0 s w q -> writer s = WError i f -> writer_step r s = Some s' -> inv l0 s' w q.
Proof.
  intros I Ew E. unfold writer_step in E. rewrite Ew in E. injection E as <-. destruct (fail_error f (owner s)) as (Ee & Ec & _). pose proof (v_wq _ _ _ _ I) as Hq. pose proof (v_locks _ _ _ _ I) as HL.
  pose proof (v_windex _ _ _ _ I) as Hwi. pose proof (v_rdone _ _ _ _ I) as Hrd. pose proof (v_pending _ _ _ _ I) as Hpe. rewrite Ew in Hq, HL, Hwi, Hrd.
  split; simpl; rewrite ?Ec, ?Ee; try apply I; try done.
  - destruct (reader s); try done. destruct Hpe as (b & Eb & Hh & _). by exists b.
  - by right.
  - by right.
Qed.

(** *** The buffer of the writer becomes free *)

Definition r_woken (i : nat) (r : rpc) : rpc := match r with RAsleep j => if bool_decide (i = j) then RLock i else r | _ => r end.
Lemma signal_reader_eq i s : signal_reader i s = set_reader (r_woken i (reader s)) s.
Proof. unfold signal_reader, r_woken. destruct (reader s) eqn:E; try (rewrite <- E; by destruct s). case_bool_decide; [done|]. rewrite <- E. by destruct s. Qed.
Lemma r_woken_cases i r : r_woken i r = r /\ r <> RAsleep i \/ r = RAsleep i /\ r_woken i r = RLock i.
Proof. destruct r; try (by left); simpl. case_bool_decide as H; [subst; by right|left]. split; [done|congruence]. Qed.

Section Pop.
Context l0 s w x c q i failed b (I : inv l0 s w (Some (x :: c) :: q)) (Ew : writer s = WEmpty i failed) (Eb : buffers s !! i = Some b).
Let w' : wpc := if failed : bool then WDone else WHead (next_index i (owner s)).
Let d' : DblBuffer := if failed then owner s else add_out (length_ b) (owner s).
Let r' := r_woken i (reader s).
Let bs' := <[i := set_lock None (set_full false b)]> (buffers s).
Let s' : state := mkState d' bs' r' w' (input s) (output s).

Lemma pop_facts : i = w `mod` count_ (owner s) /\ length_ b = zlen (x :: c) /\ r_holds (reader s) <> Some i /\
  (forall j, r' <> RAsleep j) /\ (r' = reader s \/ r' = RLock i /\ reader s = RAsleep i).
Proof using I Ew Eb.
  pose proof (v_windex _ _ _ _ I i ltac:(by rewrite Ew)) as Hi. split; [done|]. split; [by destruct (head_item l0 s w _ q b i I ltac:(by rewrite Ew) Eb)|].
  split; [eapply writer_apart; [exact I|by rewrite Ew]|]. split.
  - intros j E. unfold r' in E. destruct (r_woken_cases i (reader s)) as [[Hw Hne]|[Hw Hne]]; [|congruence]. rewrite Hw in E. pose proof (v_rq _ _ _ _ I) as Hq. rewrite E in Hq.
    pose proof (v_rindex _ _ _ _ I j ltac:(by rewrite E)) as Hj. rewrite Hq, slot_wrap in Hj. congruence.
  - destruct (r_woken_cases i (reader s)) as [[Hw _]|[Hw Hne]]; [by left|by right].
Qed.

Lemma pop_clean : clean s' = true -> failed = false /\ clean s = true.
Proof using I Ew. unfold clean. rewrite Ew. simpl. unfold w', d'. destruct failed; [|done]. rewrite (v_wfail _ _ _ _ I i Ew). done. Qed.

Lemma pop_inv : inv l0 s' (S w) q.
Proof using I Ew Eb.
  destruct pop_facts as (Hi & Hlen & Hap & Hns & Hr). pose proof (v_ring _ _ _ _ I) as HR. pose proof (ring_size _ _ _ _ HR) as Hsz. simpl in Hsz.
  assert (Hd : count_ d' = count_ (owner s) /\ error_ d' = error_ (owner s) /\ inBytes_ d' = inBytes_ (owner s)) by (unfold d'; by destruct failed). destruct Hd as (Dc & De & Di).
  assert (Hrs : r_index r' = r_index (reader s) /\ r_holds r' = r_holds (reader s) /\ pushing r' = pushing (reader s) /\ (r' = RDone <-> reader s = RDone)) by (by destruct Hr as [->|[-> ->]]).
  destruct Hrs as (R1 & R2 & R3 & R4). pose proof (v_locks _ _ _ _ I) as HL. rewrite Ew in HL.
  assert (HS : stopping bs' r' <-> stopping (buffers s) (reader s)) by (unfold bs'; rewrite stopping_insert by (by rewrite R2); by destruct Hr as [->|[-> ->]]).
  split; simpl; rewrite ?Dc, ?De, ?Di, ?R1, ?R2, ?R3, ?R4, ?HS; try apply I.
  - unfold bs'. rewrite Hi. by eapply ring_pop.
  - intros j Hj. rewrite (v_rindex _ _ _ _ I j Hj). simpl. f_equal. lia.
  - unfold w'. destruct failed; [done|]. simpl. intros j [= <-]. rewrite Hi. unfold next_index. rewrite <- (Nat.add_0_r w) at 1. rewrite next_slot by apply I. f_equal. lia.
  - unfold bs'. eapply (locks_writer _ _ (Some i) (w_holds w')); try done; [by right|unfold w'; destruct failed; by left|by left|]. unfold w'. by destruct failed.
  - pose proof (v_rq _ _ _ _ I) as Hq. destruct Hr as [E|[E _]]; rewrite E; [|done]. simpl in Hq. destruct (reader s) as [| | |j| | | | | |] eqn:Er; try done; try lia. by destruct (Hns j).
  - unfold w'. by destruct failed.
  - pose proof (v_pending _ _ _ _ I) as Hp. unfold bs'. rewrite pending_insert by (by rewrite R2). destruct Hr as [E|[E _]]; rewrite E; [done|constructor].
  - pose proof (v_inside _ _ _ _ I) as Hin. unfold thrown, s' in *. simpl. by destruct Hr as [->|[-> _]].
  - intros k it Hk Ht. destruct (v_items _ _ _ _ I (S k) it Hk Ht) as [H1 H2]. simpl in H1. split; [lia|by apply R4].
  - intros Hn. apply (v_failed _ _ _ _ I). by right.
  - intros E. destruct (v_error _ _ _ _ I E) as [H|H]; [by left|]. right. rewrite Ew in H. unfold w'. by destruct failed.
  - intros j E. unfold w' in E. by destruct failed.
  - intros E. destruct failed eqn:Ef.
    + right. split; [by apply (v_wfail _ _ _ _ I i)|done].
    + left. destruct (v_rdone _ _ _ _ I E) as [(it & Hit & Ht)|[_ H]]; [|by rewrite Ew in H]. exists it. split; [|done]. destruct q as [|it' q']; [simpl in Hit; by injection Hit as <-|done].
  - intros E. right. unfold w' in E. destruct failed eqn:Ef; [|done]. split; [by apply (v_wfail _ _ _ _ I i)|]. right. pose proof (v_rq _ _ _ _ I) as Hq. simpl in Hq. destruct (reader s); simpl in *; lia.
  - intros [Ef Hcl]%pop_clean. destruct (v_bytes _ _ _ _ I Hcl) as [H1 H2]. rewrite Ew in H2. unfold w', d'. rewrite Ef in *. simpl in *. unfold bytes_of, zlen in *. simpl in *. rewrite !length_app in *. simpl in *. lia.
  - intros [Ef Hcl]%pop_clean. destruct (v_data _ _ _ _ I Hcl) as (rest & Hdat & Hrest). exists rest. rewrite Ew in Hdat. unfold w'. rewrite Ef in *. split; [exact Hdat|].
    unfold bs'. rewrite remaining_insert by (by rewrite R2). destruct Hr as [->|[-> Er]]; [done|]. by rewrite Er in Hrest.
Qed.
End Pop.

Lemma writer_pops l0 s w q s' i failed r : inv l0 s w q -> writer s = WEmpty i failed -> writer_step r s = Some s' -> exists it q', q = it :: q' /\ inv l0 s' (S w) q'.
Proof.
  intros I Ew E. unfold writer_step in E. rewrite Ew in E. destruct (writer_buffer l0 s w q i I ltac:(by rewrite Ew)) as (b & Eb & _). rewrite Eb in E. simpl in E.
  pose proof (v_wq _ _ _ _ I) as Hq. rewrite Ew in Hq. destruct Hq as (x & c & q' & ->). exists (Some (x :: c)), q'. split; [done|]. pose proof (pop_inv l0 s w x c q' i failed b I Ew Eb) as H.
  rewrite signal_reader_eq in E. destruct failed; by injection E as <-.
Qed.

(** ** Reachable states *)

Lemma start_inv d l : 0 < count_ d -> inv l (start d l) 0 [].
Proof.
  intros Hc. split; simpl; try done.
  - split; [by rewrite length_replicate|simpl; lia|done|]. intros k Hk. exists new_buffer. split; [|done]. rewrite lookup_replicate. split; [done|]. simpl. apply Nat.mod_upper_bound. lia.
  - intros i [= <-]. by rewrite Nat.Div0.mod_0_l.
  - intros i [= <-]. by rewrite Nat.Div0.mod_0_l.
  - split; [|done]. intros i b Hb. apply lookup_replicate in Hb as [-> _]. done.
  - by intros H%not_elem_of_nil.
  - exists (feed l). done.
  - apply prefix_nil.
Qed.

Lemma step_reader_inv l0 s w q s' : inv l0 s w q -> abandons s = false -> reader_step s = Some s' -> exists w' q', inv l0 s' w' q'.
Proof.
  intros I Ha E. destruct (plain (reader s)) eqn:Hp.
  - destruct (reader s) as [i|i|i|i|i|i|i f|i| |] eqn:Er; try done; try (exists w, q; eapply reader_prepares; [done..|by rewrite Er|by rewrite Er]). exists w, q. by eapply reader_reads.
  - destruct (reader s) as [i|i|i|i|i|i|i f|i| |] eqn:Er; try done; try (unfold reader_step in E; by rewrite Er in E).
    + exists w, q. by eapply reader_fails.
    + destruct (reader_pushes _ _ _ _ _ _ I Er E Ha) as [it H]. eauto.
Qed.

Lemma step_writer_inv l0 s w q r s' : inv l0 s w q -> writer_step r s = Some s' -> exists w' q', inv l0 s' w' q'.
Proof.
  intros I E. destruct (w_plain (writer s)) eqn:Hp.
  - destruct (writer s) as [i|i|i|i|i|i|i f|i fl|] eqn:Ew; try done; try (exists w, q; eapply writer_prepares; [done..|by rewrite Ew|by rewrite Ew]). exists w, q. by eapply writer_writes.
  - destruct (writer s) as [i|i|i|i|i|i|i f|i fl|] eqn:Ew; try done.
    + exists w, q. by eapply writer_fails.
    + destruct (writer_pops _ _ _ _ _ _ _ _ I Ew E) as (it & q' & _ & H). eauto.
    + unfold writer_step in E. by rewrite Ew in E.
Qed.

(** The exception has left [copy]: a read was negative, and no error was recorded. *)
Definition left_copy (l0 : list read_result) s : Prop :=
  thrown s = true /\ existsb is_negative l0 = true /\ error_ (owner s) = false /\ output s `prefix_of` stream l0.

Lemma reader_leaves l0 s w q s' : inv l0 s w q -> abandons s = true -> reader_step s = Some s' -> left_copy l0 s'.
Proof.
  intros I Ha E. pose proof (v_pending _ _ _ _ I) as Hp. unfold abandons in Ha. unfold reader_step in E. destruct (reader s) as [| | | | | | |i| |] eqn:Er; try done.
  destruct Hp as (b & Eb & _ & Hn). rewrite Eb in Ha, E. simpl in E. rewrite Ha in E. injection E as <-. apply andb_true_iff in Ha as [Hlt%Z.ltb_lt He%negb_true_iff].
  specialize (Hn Hlt). rewrite He in Hn. split_and!; try done. apply I.
Qed.

Lemma step_inv l0 s w q s' : inv l0 s w q -> step s s' -> (exists w' q', inv l0 s' w' q') \/ left_copy l0 s'.
Proof.
  intros I [s1 E|r s1 _ E]; [|left; by eapply step_writer_inv]. destruct (abandons s) eqn:Ha; [right; by eapply reader_leaves|left; by eapply step_reader_inv].
Qed.

Lemma wakes_inv l0 s w q s' : inv l0 s w q -> wakes s s' -> inv l0 s' w q.
Proof.
  intros I [i Er|i _ Ew].
  - destruct (reader_buffer l0 s w q i I ltac:(by rewrite Er)) as (b & Eb & _). rewrite <- (set_buffer_id s i b Eb) at 1. pose proof (v_locks _ _ _ _ I) as HL. rewrite Er in HL.
    eapply reader_moves; rewrite ?Er; try done. by rewrite list_insert_id.
  - destruct (writer_buffer l0 s w q i I ltac:(by rewrite Ew)) as (b & Eb & _). rewrite <- (set_buffer_id s i b Eb) at 1. pose proof (v_locks _ _ _ _ I) as HL. rewrite Ew in HL.
    eapply writer_moves; rewrite ?Ew; try done; [by rewrite list_insert_id|by right].
Qed.

Lemma thrown_stops s s' : thrown s = true -> step s s' \/ wakes s s' -> False.
Proof. unfold thrown. destruct (reader s) eqn:Er; try done. intros _ [[s1 E|r s1 Ht E]|[i E|i Ht E]]; try (unfold thrown in Ht; by rewrite Er in Ht); [|congruence]. unfold reader_step in E. by rewrite Er in E. Qed.

Lemma reachable_inv d l s : 0 < count_ d -> reachable d l s -> (exists w q, inv l s w q) \/ left_copy l s.
Proof.
  intros Hc. unfold reachable. apply (rtc_ind_r (fun s => (exists w q, inv l s w q) \/ left_copy l s)); [left; exists 0, []; by apply start_inv|].
  intros s1 s2 _ Hst [(w & q & I)|[Ht _]]; [|by destruct (thrown_stops _ _ Ht Hst)]. destruct Hst as [H|H]; [by eapply step_inv|]. left. exists w, q. by eapply wakes_inv.
Qed.

(** ** Progress *)

Lemma progress l0 s w q r : inv l0 s w q -> result s = None -> exists s', step s s' /\ (reader_step s = Some s' \/ writer_step r s = Some s').
Proof.
  intros I Hres. assert (Hgoal : is_Some (reader_step s) \/ is_Some (writer_step r s)).
  { pose proof (v_locks _ _ _ _ I) as [HL _]. pose proof (v_count _ _ _ _ I) as Hc.
    assert (Hrb : forall i, r_index (reader s) = Some i -> exists b, buffers s !! i = Some b) by (intros i Hi; destruct (reader_buffer l0 s w q i I Hi) as (b & Eb & _); eauto).
    assert (Hwb : forall i, w_index (writer s) = Some i -> exists b, buffers s !! i = Some b) by (intros i Hi; destruct (writer_buffer l0 s w q i I Hi) as (b & Eb & _); eauto).
    assert (Hwriter : r_holds (reader s) = None -> is_Some (writer_step r s) \/ (exists j, writer s = WAsleep j) \/ writer s = WDone).
    { intros Hr. unfold writer_step. destruct (writer s) as [i|i|i|i|i|i|i f|i fl|] eqn:Ew; try (by left); try (by right; eauto); try (destruct (Hwb i) as [b Eb]; [done|]; rewrite Eb; left; simpl).
      - rewrite (HL i b Eb), expected_other by (by rewrite ?Hr). eauto.
      - destruct (full_ b); eauto.
      - destruct (_ || _); eauto.
      - destruct r; eauto.
      - destruct fl; eauto. }
    unfold reader_step. destruct (reader s) as [i|i|i|i|i|i|i f|i| |] eqn:Er; try (by left); try (destruct (Hrb i) as [b Eb]; [done|]; rewrite Eb; simpl).
    - destruct (lock_ b) eqn:El; [|eauto]. right. destruct Hwriter as [H|[[j Ew]|Ew]]; [done..| |]; exfalso; rewrite (HL i b Eb), Ew, expected_other in El; done.
    - destruct (full_ b); eauto.
    - right. pose proof (v_rq _ _ _ _ I) as Hq. rewrite Er in Hq. destruct Hwriter as [H|[[j Ew]|Ew]]; [done..| |]; exfalso.
      + pose proof (v_wq _ _ _ _ I) as Hwq. rewrite Ew in Hwq. subst. simpl in Hq. lia.
      + destruct (v_wdone _ _ _ _ I Ew) as [(_ & H & _)|(_ & [H|H])]; rewrite Er in H; simpl in H; [done..|lia].
    - destruct (error_ (owner s)); eauto.
    - destruct (input s) as [|[c|f|n] inp]; eauto.
    - destruct (_ && _); [eauto|]. destruct (_ <=? _)%Z; eauto.
    - right. destruct Hwriter as [H|[[j Ew]|Ew]]; [done..| |]; exfalso.
      + pose proof (v_wq _ _ _ _ I) as Hwq. rewrite Ew in Hwq. subst. destruct (v_rdone _ _ _ _ I Er) as [(it & H & _)|[_ H]]; [done|by rewrite Ew in H].
      + unfold result in Hres. by rewrite Er, Ew in Hres.
    - unfold result in Hres. by rewrite Er in Hres. }
  pose proof (v_inside _ _ _ _ I). destruct Hgoal as [[s' E]|[s' E]]; exists s'; (split; [|auto]); by econstructor.
Qed.

(** ** Termination *)

Definition count_full (bs : list OneBuffer) : nat := foldr (fun b n => (if full_ b then 1 else 0) + n) 0 bs.
Definition r_rank s : nat :=
  let n := 40 * (length (input s) + 2) in
  match reader s with
  | RHead _ => n + 7 | RLock _ => n + 6 | RTest _ => n + 5 | RCheck _ => n + 4 | RRead _ => n + 3 | RAsleep _ => n
  | RError _ _ => 40
  | RFull i => match buffers s !! i with Some b => if (length_ b <=? 0)%Z then 30 else n + 39 | None => 0 end
  | RDone | RThrown => 0
  end.
Definition w_rank (w : wpc) : nat :=
  match w with WHead _ => 7 | WLock _ => 6 | WTest _ => 5 | WCheck _ => 4 | WWrite _ => 3 | WError _ _ => 2 | WEmpty _ _ => 1 | WAsleep _ | WDone => 0 end.
(** The reads that are left, the buffers that are full, and where the threads are. *)
Definition measure s : nat := r_rank s + w_rank (writer s) + 20 * count_full (buffers s).

Lemma count_full_insert bs i b b' : bs !! i = Some b -> count_full (<[i := b']> bs) + (if full_ b then 1 else 0) = count_full bs + (if full_ b' then 1 else 0).
Proof. revert i. induction bs as [|x bs IH]; intros [|i] E; simpl in *; try done; [injection E as ->; lia|]. specialize (IH i E). change (list_insert i b' bs) with (<[i := b']> bs). lia. Qed.

Lemma reader_decreases l0 s w q s' : inv l0 s w q -> reader_step s = Some s' -> measure s' < measure s.
Proof.
  intros I. pose proof (v_pending _ _ _ _ I) as Hp. unfold reader_step. intros E. destruct (reader s) as [i|i|i|i|i|i|i f|i| |] eqn:Er; try done; try (destruct (buffers s !! i) as [b|] eqn:Eb; [|done]; simpl in E).
  - injection E as <-. unfold measure, r_rank. simpl. rewrite Er. destruct (error_ (owner s)); lia.
  - destruct (lock_ b); [done|]. injection E as <-. pose proof (count_full_insert _ _ _ (set_lock (Some Reader) b) Eb) as H. unfold measure, r_rank. simpl in *. rewrite Er. lia.
  - destruct (full_ b) eqn:Ef; injection E as <-; [pose proof (count_full_insert _ _ _ (set_lock None b) Eb) as H|]; unfold measure, r_rank; simpl in *; rewrite Er; lia.
  - destruct (error_ (owner s)); injection E as <-; [pose proof (count_full_insert _ _ _ (set_lock None b) Eb) as H|]; unfold measure, r_rank; simpl in *; rewrite Er; lia.
  - assert (Hi : i < length (buffers s)) by (by eapply lookup_lt_Some). destruct (input s) as [|[c|f|n] inp] eqn:Ei; injection E as <-;
      (match goal with |- context [<[i := ?b']> _] => pose proof (count_full_insert _ _ _ b' Eb) as H | |- context [set_buffer i ?b' _] => pose proof (count_full_insert _ _ _ b' Eb) as H end);
      unfold measure, r_rank; simpl in *; rewrite Er, ?Ei, ?list_lookup_insert_eq by done; simpl; try (destruct (_ <=? _)%Z); simpl; lia.
  - injection E as <-. destruct Hp as (b & Eb & Hb). unfold measure, r_rank. simpl. rewrite Er, Eb. destruct (Z.leb_spec (length_ b) 0); lia.
  - pose proof (count_full_insert _ _ _ (set_lock None (set_full true b)) Eb) as H. simpl in H. destruct (_ && _) eqn:Ea.
    { injection E as <-. apply andb_true_iff in Ea as [Hlt%Z.ltb_lt _]. unfold measure, r_rank. simpl. rewrite Er, Eb. destruct (Z.leb_spec (length_ b) 0); [|lia]. destruct (full_ b); lia. }
    rewrite signal_writer_eq in E.
    assert (Hw : w_rank (w_woken i (writer s)) <= w_rank (writer s) + 6) by (destruct (w_woken_cases i (writer s)) as [[-> _]|[-> ->]]; simpl; lia).
    destruct (length_ b <=? 0)%Z eqn:El; injection E as <-; unfold measure, r_rank; simpl; rewrite Er, Eb, El; destruct (full_ b); lia.
Qed.

Lemma r_rank_insert s k b b' : buffers s !! k = Some b -> length_ b' = length_ b -> r_rank (set_buffer k b' s) = r_rank s.
Proof.
  intros Ek El. unfold r_rank. simpl. destruct (reader s) as [| | | | | | |j| |]; try done. destruct (decide (k = j)) as [<-|Hne].
  - rewrite list_lookup_insert_eq by (by eapply lookup_lt_Some). by rewrite Ek, El.
  - by rewrite list_lookup_insert_ne.
Qed.
Lemma r_rank_woken i s : r_rank (set_reader (r_woken i (reader s)) s) <= r_rank s + 6.
Proof. unfold r_rank. simpl. destruct (r_woken_cases i (reader s)) as [[-> _]|[-> ->]]; simpl; lia. Qed.
Lemma r_rank_writer wp s : r_rank (set_writer wp s) = r_rank s.
Proof. done. Qed.
Lemma r_rank_output l s : r_rank (set_output l s) = r_rank s.
Proof. done. Qed.
Lemma r_rank_owner d s : r_rank (set_owner d s) = r_rank s.
Proof. done. Qed.

Lemma writer_decreases l0 s w q r s' : inv l0 s w q -> writer_step r s = Some s' -> measure s' < measure s.
Proof.
  intros I E. unfold writer_step in E. unfold measure. destruct (writer s) as [i|i|i|i|i|i|i f|i fl|] eqn:Ew; try done; try (destruct (buffers s !! i) as [b|] eqn:Eb; [|done]; simpl in E).
  - injection E as <-. rewrite ?r_rank_writer, ?r_rank_output, ?r_rank_owner. simpl. destruct (error_ (owner s)); simpl; lia.
  - destruct (lock_ b); [done|]. injection E as <-. pose proof (count_full_insert _ _ _ (set_lock (Some Writer) b) Eb) as H. pose proof (r_rank_insert s i b (set_lock (Some Writer) b) Eb eq_refl) as Hr.
    rewrite r_rank_writer, Hr. simpl in *. lia.
  - destruct (full_ b) eqn:Ef; injection E as <-; [rewrite ?r_rank_writer, ?r_rank_output, ?r_rank_owner; simpl; lia|]. pose proof (count_full_insert _ _ _ (set_lock None b) Eb) as H. pose proof (r_rank_insert s i b (set_lock None b) Eb eq_refl) as Hr.
    rewrite r_rank_writer, Hr. simpl in *. lia.
  - destruct (_ || _); injection E as <-; [|rewrite ?r_rank_writer, ?r_rank_output, ?r_rank_owner; simpl; lia]. pose proof (count_full_insert _ _ _ (set_lock None b) Eb) as H. pose proof (r_rank_insert s i b (set_lock None b) Eb eq_refl) as Hr.
    rewrite r_rank_writer, Hr. simpl in *. lia.
  - destruct r as [n|n f]; injection E as <-; rewrite ?r_rank_writer, ?r_rank_output, ?r_rank_owner; simpl; [destruct (n =? length_ b)%Z|]; simpl; lia.
  - injection E as <-. rewrite ?r_rank_writer, ?r_rank_output, ?r_rank_owner. simpl. lia.
  - rewrite signal_reader_eq in E. set (b' := set_lock None (set_full false b)) in *. pose proof (count_full_insert _ _ _ b' Eb) as H. pose proof (r_rank_insert s i b b' Eb eq_refl) as Hr.
    pose proof (r_rank_woken i (set_buffer i b' s)) as Hw. rewrite Hr in Hw. destruct (writer_buffer l0 s w q i I ltac:(by rewrite Ew)) as (b0 & Eb0 & Hf). rewrite Eb in Eb0. injection Eb0 as <-.
    assert (Hfull : full_ b = true). { apply Hf. pose proof (v_wq _ _ _ _ I) as Hq. rewrite Ew in Hq. by destruct Hq as (? & ? & ? & ->). }
    rewrite Hfull in H. simpl in H. destruct fl; injection E as <-; rewrite ?r_rank_writer, ?r_rank_owner; simpl in *; lia.
Qed.

(** ** Properties *)

Lemma whole_is_step s s' : whole_step s s' -> step s s'.
Proof. intros [s1 E|s1 Ht E]; by econstructor. Qed.

Lemma drive_runs n : forall s, rtc whole_step s (drive n s).
Proof.
  induction n as [|n IH]; intros s; [constructor|]. simpl. destruct (reader_step s) as [s1|] eqn:E1; [eapply rtc_l; [by apply whole_reader|apply IH]|].
  destruct (thrown s) eqn:Et; [constructor|]. destruct (writer_step (whole s) s) as [s1|] eqn:E2; [eapply rtc_l; [by apply whole_writer|apply IH]|constructor].
Qed.

Lemma whole_reachable d l s : rtc whole_step (start d l) s -> reachable d l s.
Proof. apply (rtc_congruence id). intros x y H. left. by apply whole_is_step. Qed.

(** What [copy] returns while the threads are in their loops or done. *)
Lemma result_inv l s w q r : inv l s w q -> result s = Some r -> match r with
  | Ok n => ends l = true /\ output s = stream l /\ n = zlen (stream l)
  | Throw e => error_ (owner s) = true \/ e = AssertionFailed /\ thrown s = true /\ existsb is_negative l = true
  | _ => False
  end.
Proof.
  intros I E. pose proof (v_inside _ _ _ _ I) as Hin. unfold thrown in Hin. unfold result in E. destruct (reader s) eqn:Er; try done. destruct (writer s) eqn:Ew; try done. injection E as <-.
  destruct (error_ (owner s)) eqn:Ee; [destruct (restart_ (owner s)); by left|].
  assert (Hcl : clean s = true) by (unfold clean; by rewrite Ew, Ee). destruct (v_wdone _ _ _ _ I Ew) as [(_ & _ & ->)|[H _]]; [|congruence].
  destruct (v_bytes _ _ _ _ I Hcl) as [H1 H2]. destruct (v_data _ _ _ _ I Hcl) as (rest & Hd & Hrest). rewrite Er in Hrest. rewrite (Hrest Ee) in Hd. rewrite Ew in Hd, H2. injection Hd as Hd He.
  unfold bytes_of, left_ in Hd. simpl in Hd. rewrite app_nil_r in Hd. assert (E1 : inBytes_ (owner s) = zlen (output s)) by (rewrite H1, H2; done).
  assert (E2 : outBytes_ (owner s) = zlen (output s)) by (rewrite H2; simpl; lia). rewrite E1, E2, Z.eqb_refl, Hd. by split_and!.
Qed.

(** Neither handle has failed. *)
Definition unfailed s : Prop := error_ (owner s) = false /\ (forall i f, writer s <> WError i f) /\ thrown s = false.

Lemma signals_keep i s : (owner (signal_writer i s) = owner s /\ (forall j f, writer (signal_writer i s) = WError j f -> writer s = WError j f)) /\
  owner (signal_reader i s) = owner s /\ writer (signal_reader i s) = writer s.
Proof.
  rewrite signal_writer_eq, signal_reader_eq. simpl. split_and!; try done. intros j f. by destruct (w_woken_cases i (writer s)) as [[-> _]|[_ ->]].
Qed.

Lemma signals_thrown i s : thrown (signal_reader i s) = thrown s.
Proof. rewrite signal_reader_eq. unfold thrown. simpl. by destruct (r_woken_cases i (reader s)) as [[-> _]|[-> ->]]. Qed.

Lemma whole_unfailed l s w q s' : inv l s w q -> ends l = true -> unfailed s -> whole_step s s' -> unfailed s'.
Proof.
  intros I Hl (He & Hw & Ht) Hstep. assert (Hcl : clean s = true).
  { unfold clean. destruct (writer s) as [| | | | | |i f|i []|] eqn:Ew; try done; [by destruct (Hw i f)| |by rewrite He]. by rewrite (v_wfail _ _ _ _ I i Ew) in He. }
  destruct (v_data _ _ _ _ I Hcl) as (rest & Hd & Hr). injection Hd as _ Hend. rewrite Hl in Hend. unfold unfailed.
  destruct Hstep as [s1 E|s1 _ E].
  - unfold reader_step in E. destruct (reader s) as [i|i|i|i|i|i|i f|i| |] eqn:Er; try done; try (destruct (buffers s !! i) as [b|] eqn:Eb; [|done]; simpl in E).
    + rewrite He in E. by injection E as <-.
    + destruct (lock_ b); [done|]. by injection E as <-.
    + destruct (full_ b); by injection E as <-.
    + rewrite He in E. by injection E as <-.
    + destruct (input s) as [|[c|f|n] inp]; by injection E as <-.
    + simpl in Hr. by rewrite Hr in Hend.
    + destruct (Z.ltb_spec (length_ b) 0) as [Hlt|_]; [simpl in Hr; rewrite (Hr b Eb), item_of_failed in Hend by done; done|]. simpl in E.
      destruct (signals_keep i (set_buffer i (set_lock None (set_full true b)) s)) as [[H1 H2] _]. simpl in H1, H2.
      destruct (length_ b <=? 0)%Z; injection E as <-; (split_and!; simpl; [by rewrite ?H1| |done]); intros j f Hj; apply H2 in Hj; by destruct (Hw j f).
  - unfold writer_step, whole in E. destruct (writer s) as [i|i|i|i|i|i|i f|i fl|] eqn:Ew; try done; try (destruct (buffers s !! i) as [b|]; [|done]; simpl in E).
    + injection E as <-. simpl. by rewrite He.
    + destruct (lock_ b); [done|]. by injection E as <-.
    + destruct (full_ b); by injection E as <-.
    + destruct (_ || _); by injection E as <-.
    + rewrite Z.eqb_refl in E. by injection E as <-.
    + by destruct (Hw i f).
    + destruct (signals_keep i (set_buffer i (set_lock None (set_full false b)) s)) as (_ & H1 & H2). simpl in H1, H2.
      assert (Hst : forall w' s2, thrown (set_writer w' s2) = thrown s2) by done. assert (Hso : forall d' s2, thrown (set_owner d' s2) = thrown s2) by done.
      destruct fl; injection E as <-; rewrite ?Hst, ?Hso, signals_thrown; (split_and!; simpl; [by rewrite ?H1|done|done]).
Qed.

(** C38. However the two threads are scheduled, what was written at any time is the beginning
    of what the reads gave, in order.  When [copy] is over, it returns the number of bytes
    and all of them were written, or it throws: because of an error that one of the
    threads has recorded, or, with a failed assertion, because a read was negative without
    an exception.  The process is never ended by the check of the counts.  It returns when
    the reads end without a failure and every write takes its buffer. *)
Theorem dblbuffer_copies d l s : 0 < count_ d -> reachable d l s ->
  output s `prefix_of` stream l /\
  (forall r, result s = Some r -> match r with
     | Ok n => ends l = true /\ output s = stream l /\ n = zlen (stream l)
     | Throw e => error_ (owner s) = true \/ e = AssertionFailed /\ thrown s = true /\ existsb is_negative l = true
     | _ => False
     end) /\
  (ends l = true -> rtc whole_step (start d l) s -> forall r, result s = Some r -> r = Ok (zlen (stream l))).
Proof.
  intros Hc Hr. split; [by destruct (reachable_inv d l s Hc Hr) as [(w & q & I)|(_ & _ & _ & H)]; [apply I|]|].
  assert (Hres : forall r, result s = Some r -> match r with Ok n => ends l = true /\ output s = stream l /\ n = zlen (stream l)
    | Throw e => error_ (owner s) = true \/ e = AssertionFailed /\ thrown s = true /\ existsb is_negative l = true | _ => False end).
  { destruct (reachable_inv d l s Hc Hr) as [(w & q & I)|(Ht & Hn & _)]; [intros r; by apply (result_inv _ _ w q)|].
    intros r E. unfold result in E. pose proof Ht as Ht'. unfold thrown in Ht'. destruct (reader s); try done. injection E as <-. by right. }
  split; [exact Hres|]. intros Hl Hw r E. assert (Hun : unfailed s).
  { clear E Hres Hr. revert Hw. apply (rtc_ind_r (fun s => unfailed s)); [done|]. intros s1 s2 Hs1 Hs2 Hu.
    destruct (reachable_inv d l s1 Hc (whole_reachable _ _ _ Hs1)) as [(w1 & q1 & I1)|[Ht _]]; [by eapply whole_unfailed|]. destruct Hu as (_ & _ & Hu). congruence. }
  destruct Hun as (He & _ & Ht). specialize (Hres r E). destruct r as [n|e| |]; try done; [destruct Hres as (_ & _ & ->); done|]. destruct Hres as [H|(_ & H & _)]; congruence.
Qed.

(** C39. No thread waits for ever: as long as [copy] is not over, one of the threads can go
    on, whatever [write] returns; and every step, apart from wake-ups without a signal,
    brings it nearer to its end, so that every run of it ends, with a result.  Both threads
    have ended then, unless a read was negative without an exception. *)
Theorem dblbuffer_terminates d l s : 0 < count_ d -> reachable d l s ->
  (result s = None -> forall r, exists s', reader_step s = Some s' \/ writer_step r s = Some s') /\
  (forall s', step s s' -> measure s' < measure s) /\
  exists s', rtc step s s' /\ is_Some (result s') /\ (existsb is_negative l = false -> reader s' = RDone /\ writer s' = WDone).
Proof.
  intros Hc Hr. assert (Hdec : forall s s', reachable d l s -> step s s' -> measure s' < measure s).
  { intros s0 s' H0 Hst. destruct (reachable_inv d l s0 Hc H0) as [(w & q & I)|[Ht _]]; [|by destruct (thrown_stops s0 s' Ht); left]. destruct Hst; [by eapply reader_decreases|by eapply writer_decreases]. }
  assert (Hprog : forall s r, reachable d l s -> result s = None -> exists s', step s s' /\ (reader_step s = Some s' \/ writer_step r s = Some s')).
  { intros s0 r H0 Hres. destruct (reachable_inv d l s0 Hc H0) as [(w & q & I)|[Ht _]]; [by eapply progress|]. unfold result in Hres. unfold thrown in Ht. by destruct (reader s0). }
  split; [|split; [intros s'; by apply Hdec|]].
  - intros Hres r. destruct (Hprog s r Hr Hres) as (s' & _ & H). eauto.
  - remember (measure s) as m eqn:Em. revert s Hr Em. induction m as [m IH] using lt_wf_ind. intros s Hr ->. destruct (result s) as [r|] eqn:E.
    + exists s. split; [constructor|]. split; [by rewrite E|]. intros Hn. assert (Ht : thrown s = false) by (destruct (reachable_inv d l s Hc Hr) as [(w & q & I)|(_ & H & _)]; [apply I|congruence]).
      unfold result in E. unfold thrown in Ht. destruct (reader s); try done. by destruct (writer s).
    + destruct (Hprog s (Wrote 0) Hr E) as (s' & Hst & _). destruct (IH (measure s') (Hdec _ _ Hr Hst) s') as (s2 & H2 & H3); [eapply rtc_r; [exact Hr|by left]|done|]. exists s2. split; [by eapply rtc_l|done].
Qed.

Definition two_buffers : DblBuffer := mkDbl 2 false [] false 0 0 0.
Definition three_reads : list read_result := [Chunk (str "abc"); Chunk (str "de"); Chunk (str "fgh")].

Lemma dblbuffer_copies_witness : exists s, reachable two_buffers three_reads s /\ result s = Some (Ok 8%Z) /\ output s = str "abcdefgh".
Proof.
  exists (drive 100 (start two_buffers three_reads)). split; [apply whole_reachable, drive_runs|].
  assert (E : result (drive 100 (start two_buffers three_reads)) = Some (Ok 8%Z)) by (by vm_compute). split; [exact E|].
  destruct (dblbuffer_copies two_buffers three_reads (drive 100 (start two_buffers three_reads))) as (_ & H & _); [simpl; lia|apply whole_reachable, drive_runs|].
  destruct (H _ E) as (_ & Ho & _). rewrite Ho. by vm_compute.
Defined.

Lemma dblbuffer_terminates_witness : exists s', rtc step (start two_buffers three_reads) s' /\ is_Some (result s') /\ reader s' = RDone /\ writer s' = WDone.
Proof.
  destruct (dblbuffer_terminates two_buffers three_reads (start two_buffers three_reads)) as (_ & _ & s' & H1 & H2 & H3); [simpl; lia|constructor|].
  exists s'. split_and!; [exact H1|exact H2|apply H3; reflexivity..].
Defined.

(** ** Negative reads *)

(** A read returns a negative number while the writer sleeps: the assertion throws, nobody
    wakes the writer, whose buffer is full, and [copy] is over. *)
Example abandoned_writer : exists s, reachable two_buffers [Negative 1] s /\
  result s = Some (Throw AssertionFailed) /\ writer s = WAsleep 0 /\ (full_ <$> buffers s !! 0) = Some true /\ error_ (owner s) = false.
Proof.
  eexists. split.
  - do 3 (eapply rtc_l; [left; apply (step_writer _ (Wrote 0)); reflexivity|]). do 6 (eapply rtc_l; [left; apply step_reader; vm_compute; reflexivity|]). constructor.
  - by vm_compute.
Qed.

(** ** Restarts *)

(** [restart_] is not reset: after a transfer that asked for a restart, another error is
    reported as a restart, from the old place. *)
Example stale_restart :
  let s := drive 100 (start two_buffers [ReadFails (Restarts 100)]) in
  result s = Some (Throw (RestartTransfer 100)) /\
  result (drive 100 (start (owner s) [ReadFails (Fails (str "disk error"))])) = Some (Throw (RestartTransfer 100)).
Proof. split; vm_compute; reflexivity. Qed.

(** A transfer that was restarted returns the bytes of its last attempt; and when the length
    was not known, it fails. *)
Example restarted_length : copy 100 [Throw (RestartTransfer 10); Ok 90%Z] = Ok 90%Z /\ copy 0 [Throw (RestartTransfer 10); Ok 90%Z] = Throw SeriousBug.
Proof. split; reflexivity. Qed.
