(* ===== verification/Text.v ===== *)
(** * Text

    The character and number functions of the C and C++ standard libraries that
    the program uses, in the "C" locale, on byte strings. *)
From S2P Require Import Prelude.
#[local] Ltac Zify.zify_post_hook ::= Z.to_euclidean_division_equations.

(** A [std::string]. *)
Abbreviation text := (list byte).

Definition isdigit (c : byte) : bool := (48 <=? byte.unsigned c) && (byte.unsigned c <=? 57).
Definition isspace (c : byte) : bool :=
  (byte.unsigned c =? 32) || (9 <=? byte.unsigned c) && (byte.unsigned c <=? 13).

Fixpoint digits_value (acc : Z) (s : text) : Z :=
  match s with
  | c :: s => if isdigit c then digits_value (acc * 10 + (byte.unsigned c - 48)) s else acc
  | [] => acc
  end.

(** [atol]: white space, a sign, digits up to the first other character. *)
Fixpoint atol (s : text) : Z :=
  match s with
  | [] => 0
  | c :: s' =>
      if isspace c then atol s'
      else if decide (c = "-"%byte) then - digits_value 0 s'
      else if decide (c = "+"%byte) then digits_value 0 s'
      else digits_value 0 s
  end.

(** Decimal digits, most significant first. *)
Fixpoint decimal (fuel : nat) (n : Z) : text :=
  match fuel with
  | O => []
  | S f => (if n <? 10 then [] else decimal f (n / 10)) ++ [byte.of_Z (48 + n mod 10)]
  end.

(** A number as a stream prints it. *)
Definition print_long (n : Z) : text :=
  if n <? 0 then "-"%byte :: decimal 20 (- n) else decimal 20 n.
(** ** Digits *)

Definition all_digits (t : text) : Prop := Forall (fun c => isdigit c = true) t.

Lemma digit_byte k : 0 <= k <= 9 -> byte.unsigned (byte.of_Z (48 + k)) = 48 + k /\ isdigit (byte.of_Z (48 + k)) = true.
Proof.
  intros Hk. assert (E : byte.unsigned (byte.of_Z (48 + k)) = 48 + k).
  { rewrite byte.unsigned_of_Z. unfold byte.wrap. apply Z.mod_small. lia. }
  split; [done|]. unfold isdigit. rewrite E. lia.
Qed.

Lemma digits_value_snoc l : forall acc k, all_digits l -> 0 <= k <= 9 ->
  digits_value acc (l ++ [byte.of_Z (48 + k)]) = digits_value acc l * 10 + k.
Proof.
  induction l as [|c l IH]; intros acc k Hl Hk; simpl.
  - destruct (digit_byte k Hk) as [E ->]. rewrite E. lia.
  - apply Forall_cons in Hl as [-> Hl]. by apply IH.
Qed.

Lemma decimal_ok f : forall n, 0 <= n < 10 ^ Z.of_nat f -> all_digits (decimal f n) /\ digits_value 0 (decimal f n) = n.
Proof.
  induction f as [|f IH]; intros n Hn; [simpl in *; split; [constructor|lia]|].
  cbn [decimal]. rewrite Nat2Z.inj_succ, Z.pow_succ_r in Hn by lia.
  assert (Hm : 0 <= n mod 10 <= 9) by lia.
  assert (Hp : all_digits (if n <? 10 then [] else decimal f (n / 10)) /\
    digits_value 0 (if n <? 10 then [] else decimal f (n / 10)) = n / 10).
  { destruct (Z.ltb_spec n 10); [split; [constructor|simpl; lia]|]. apply IH.
    set (P := 10 ^ Z.of_nat f) in *. clearbody P. lia. }
  destruct Hp as [Hp Ep]. split.
  - apply Forall_app. split; [done|]. constructor; [|constructor]. by apply digit_byte.
  - rewrite digits_value_snoc, Ep by done. lia.
Qed.

Lemma decimal_length f : forall n k, 10 ^ (Z.of_nat k) <= n < 10 ^ (Z.of_nat (S k)) -> (k < f)%nat -> length (decimal f n) = S k.
Proof.
  induction f as [|f IH]; intros n k Hn Hk; [lia|]. cbn [decimal]. rewrite length_app. simpl.
  rewrite Nat2Z.inj_succ, Z.pow_succ_r in Hn by lia. destruct k as [|k].
  - change (10 ^ Z.of_nat 0) with 1 in Hn. rewrite (proj2 (Z.ltb_lt n 10)) by lia. done.
  - rewrite Nat2Z.inj_succ, Z.pow_succ_r in Hn by lia.
    assert (Hpos : 1 <= 10 ^ Z.of_nat k) by (apply (Z.pow_le_mono_r 10 0); lia).
    rewrite (proj2 (Z.ltb_ge n 10)) by lia. rewrite (IH (n / 10) k); [lia| |lia].
    rewrite Nat2Z.inj_succ, Z.pow_succ_r by lia. set (P := 10 ^ Z.of_nat k) in *. clearbody P. lia.
Qed.

Lemma atol_digits t : all_digits t -> atol t = digits_value 0 t.
Proof.
  destruct t as [|c t]; [done|]. intros [Hc _]%Forall_cons. cbn [atol].
  assert (isspace c = false) as -> by (unfold isspace, isdigit in *; lia).
  rewrite !decide_False; [done|intros ->; discriminate..].
Qed.
