(* ===== verification/Strings.v ===== *)
(** * Strings: tokenizer and string tools

    [utils/Tokenizer.cc], [utils/Tokenizer.h], [utils/StringTools.cc] and
    [utils/StringTools.h].  A [std::string] is a list of bytes. *)
From S2P Require Import Prelude Text.
#[local] Open Scope nat_scope.
#[local] Set Warnings "-clear-no-such-hyp".

(** ** Tokenizer *)

(** [tokenizeInsert]: [token] is the token being built. *)
Fixpoint tokenize_loop (separator : gset byte) (keepEmpty : bool) (raw : text) (token : text) : list text :=
  match raw with
  | [] => if decide (token <> []) then [token] else if keepEmpty then [token] else []
  | c :: raw =>
      if decide (c ∈ separator) then
        (if decide (token <> []) then [token] else if keepEmpty then [token] else [])
          ++ tokenize_loop separator keepEmpty raw []
      else tokenize_loop separator keepEmpty raw (token ++ [c])
  end.

Record Tokenizer : Type := mkTokenizer { separator_ : gset byte; keepEmpty_ : bool }.

Definition Tokenizer_string (separators : text) (keepEmpty : bool) : Tokenizer :=
  mkTokenizer (list_to_set separators) keepEmpty.

Definition tokenize (t : Tokenizer) (raw : text) : list text :=
  tokenize_loop (separator_ t) (keepEmpty_ t) raw [].

(** [split_at]: the two sides of the first separator. *)
Fixpoint find_first_of (c : byte) (s : text) : option nat :=
  match s with
  | [] => None
  | x :: s => if decide (x = c) then Some 0 else S <$> find_first_of c s
  end.

Definition split_at (s : text) (separator : byte) : list text :=
  match find_first_of separator s with
  | Some found => [take found s; drop (found + 1) s]
  | None => [s]
  end.

(** ** StringTools *)

Definition lbrace : byte := "{"%byte.
Definition rbrace : byte := "}"%byte.

(** The loop of [substitute]: [var] inside braces, [word] the name read so far. *)
Fixpoint substitute_loop (m : gmap text text) (s : text) (var : bool) (word result : text) : outcome text :=
  match s with
  | [] => if var then Throw UserError else Ok result
  | c :: s =>
      if decide (c = lbrace) then
        if var then Throw UserError else substitute_loop m s true [] result
      else if decide (c = rbrace) then
        if var then
          match m !! word with
          | None => Throw UserError
          | Some v => substitute_loop m s false word (result ++ v)
          end
        else Throw UserError
      else if var then substitute_loop m s var (word ++ [c]) result
      else substitute_loop m s var word (result ++ [c])
  end.

Definition substitute (s : text) (m : gmap text text) : outcome text := substitute_loop m s false [] [].

Fixpoint listVariables_loop (s : text) (var : bool) (word : text) (result : list text) : outcome (list text) :=
  match s with
  | [] => if var then Throw UserError else Ok result
  | c :: s =>
      if decide (c = lbrace) then
        if var then Throw UserError else listVariables_loop s true [] result
      else if decide (c = rbrace) then
        if var then listVariables_loop s false word (result ++ [word]) else Throw UserError
      else if var then listVariables_loop s var (word ++ [c]) result
      else listVariables_loop s var word result
  end.

Definition listVariables (s : text) : outcome (list text) := listVariables_loop s false [] [].

(** [std::transform] with [toupper]/[tolower] of the C locale. *)
Definition toupper (c : byte) : byte :=
  if decide (97 <= byte.unsigned c <= 122)%Z then byte.of_Z (byte.unsigned c - 32) else c.
Definition tolower (c : byte) : byte :=
  if decide (65 <= byte.unsigned c <= 90)%Z then byte.of_Z (byte.unsigned c + 32) else c.
Definition upper (v : text) : text := toupper <$> v.
Definition lower (v : text) : text := tolower <$> v.

(** [find_first_not_of] and [find_last_not_of]; [npos] is [None]. *)
Fixpoint find_first_not_of (chars s : text) : option nat :=
  match s with
  | [] => None
  | c :: s => if decide (c ∈ chars) then S <$> find_first_not_of chars s else Some 0
  end.

Definition find_last_not_of (chars s : text) : option nat :=
  (fun i => length s - 1 - i) <$> find_first_not_of chars (rev s).

Definition substr (s : text) (pos len : nat) : text := take len (drop pos s).

Definition trim (s chars : text) : text :=
  match find_first_not_of chars s, find_last_not_of chars s with
  | Some startpos, Some endpos => substr s startpos (endpos - startpos + 1)
  | _, _ => []
  end.

Definition front_trim (s chars : text) : text :=
  match find_first_not_of chars s with Some startpos => drop startpos s | None => [] end.

Definition back_trim (s chars : text) : text :=
  match find_last_not_of chars s with Some endpos => substr s 0 (endpos + 1) | None => [] end.

Definition split (delim t : text) : list text := tokenize (Tokenizer_string delim false) t.

Fixpoint join_loop (delimiter : text) (words : list text) (r : text) : text :=
  match words with [] => r | w :: ws => join_loop delimiter ws (r ++ delimiter ++ w) end.

Definition join (delimiter : text) (words : list text) : text :=
  match words with [] => [] | w :: ws => join_loop delimiter ws w end.

(** The loop of [startsWith], after the test on the sizes. *)
Fixpoint starts_loop (substr s : text) : bool :=
  match substr, s with
  | [], _ => true
  | a :: substr, b :: s => if decide (a = b) then starts_loop substr s else false
  | _ :: _, [] => false
  end.

Definition startsWith (s substr : text) : bool :=
  if decide (substr = [] \/ length s < length substr) then false else starts_loop substr s.

Definition endsWith (s substr : text) : bool :=
  if decide (substr = [] \/ length s < length substr) then false else starts_loop (rev substr) (rev s).

Definition isQuoted (value : text) : bool :=
  (1 <? length value) &&
  (bool_decide (head value = Some x22 /\ last value = Some x22) ||
   bool_decide (head value = Some x27 /\ last value = Some x27)).

Definition unQuote (value : text) : text :=
  if isQuoted value then substr value 1 (length value - 2) else value.

(** Comparison of [std::string]: by bytes, as [unsigned char]. *)
Fixpoint text_lt (a b : text) : bool :=
  match a, b with
  | _, [] => false
  | [], _ :: _ => true
  | x :: a, y :: b => (byte.unsigned x <? byte.unsigned y)%Z || (byte.unsigned x =? byte.unsigned y)%Z && text_lt a b
  end.

Lemma text_lt_asym a : forall b, text_lt a b = true -> text_lt b a = false.
Proof.
  induction a as [|x a IH]; intros [|y b]; simpl; try done. rewrite orb_true_iff, andb_true_iff, orb_false_iff, andb_false_iff, !Z.ltb_lt, Z.ltb_ge, Z.eqb_eq, Z.eqb_neq.
  intros [H|[E H]]; [lia|]. split; [lia|right]. by apply IH.
Qed.

Lemma text_ge_trans a : forall b c, text_lt b a = false -> text_lt c b = false -> text_lt c a = false.
Proof.
  induction a as [|x a IH]; intros [|y b] [|z c]; simpl; try done. rewrite !orb_false_iff, !andb_false_iff, !Z.ltb_ge, !Z.eqb_neq.
  intros [H1 H2] [H3 H4]. split; [lia|]. destruct (Z.eq_dec (byte.unsigned z) (byte.unsigned x)) as [E|]; [right|by left].
  destruct H2 as [|H2]; [lia|]. destruct H4 as [|H4]; [lia|]. by eapply IH.
Qed.

Lemma text_ge_antisym a : forall b, text_lt b a = false -> text_lt a b = false -> a = b.
Proof.
  induction a as [|x a IH]; intros [|y b]; simpl; try done. rewrite !orb_false_iff, !andb_false_iff, !Z.ltb_ge, !Z.eqb_neq.
  intros [H1 H2] [H3 H4]. assert (byte.unsigned x = byte.unsigned y) as E by lia.
  destruct H2 as [|H2]; [lia|]. destruct H4 as [|H4]; [lia|]. f_equal; [|by apply IH].
  rewrite <- (byte.of_Z_unsigned x), <- (byte.of_Z_unsigned y). by f_equal.
Qed.

(** ** Tokenizing *)

Section Tokens.
Variable sep : gset byte.

(** Characters that are no separator. *)
Definition plain (t : text) : Prop := Forall (fun c => c ∉ sep) t.

Lemma tokenize_plain keep t raw token :
  plain t -> tokenize_loop sep keep (t ++ raw) token = tokenize_loop sep keep raw (token ++ t).
Proof.
  intros Ht. revert token. induction Ht as [|c t Hc Ht IH]; intros token; simpl; [by rewrite app_nil_r|].
  rewrite decide_False by done. by rewrite IH, <- app_assoc.
Qed.

Lemma join_loop_app d ws r : join_loop d ws r = r ++ (ws ≫= fun w => d ++ w).
Proof.
  revert r. induction ws as [|w ws IH]; intros r; simpl; [by rewrite app_nil_r|]. by rewrite IH, <- !app_assoc.
Qed.

Lemma join_cons d w w' ws : join d (w :: w' :: ws) = w ++ d ++ join d (w' :: ws).
Proof. unfold join. cbn [join_loop]. rewrite !join_loop_app. by rewrite <- !app_assoc. Qed.

(** Joined words come back from the tokenizer. *)
Lemma tokenize_join keep c ws :
  c ∈ sep -> Forall (fun w => plain w /\ (keep = true \/ w <> [])) ws -> ws <> [] ->
  tokenize_loop sep keep (join [c] ws) [] = ws.
Proof.
  intros Hc. induction 1 as [|w ws [Hw Hk] Hws IH]; intros Hne; [done|].
  assert (E : (if decide (w <> []) then [w] else if keep then [w] else []) = [w]).
  { case_decide as Hd; [done|]. destruct Hk as [->|Hk]; [done|tauto]. }
  destruct ws as [|w' ws].
  - simpl. rewrite <- (app_nil_r w) at 1. rewrite tokenize_plain by done. simpl. exact E.
  - rewrite join_cons, tokenize_plain by done. cbn [app tokenize_loop]. rewrite decide_True by done.
    rewrite E, IH by done. done.
Qed.

(** With a single separator, and empty tokens kept, joining is the inverse. *)
Lemma join_tokenize c raw : forall token,
  sep = {[c]} -> exists w ws, tokenize_loop sep true raw token = w :: ws /\ join [c] (w :: ws) = token ++ raw.
Proof.
  induction raw as [|x raw IH]; intros token Hs.
  { exists token, []. simpl. split; [by case_decide|by rewrite app_nil_r]. }
  cbn [tokenize_loop]. destruct (decide (x ∈ sep)) as [Hx|Hx].
  - destruct (IH [] Hs) as (w & ws & E & Ej). exists token, (w :: ws). rewrite E. split; [by case_decide|].
    rewrite join_cons, Ej. rewrite Hs in Hx. by apply elem_of_singleton in Hx as ->.
  - destruct (IH (token ++ [x]) Hs) as (w & ws & E & Ej). exists w, ws. split; [done|]. by rewrite Ej, <- app_assoc.
Qed.
End Tokens.

(** ** Templates *)

(** A template is a sequence of literal texts and variables. *)
Inductive segment : Type := Lit (t : text) | Var (name : text).

Definition no_brace (t : text) : Prop := Forall (fun c => c <> lbrace /\ c <> rbrace) t.

Definition segment_ok (g : segment) : Prop :=
  match g with Lit t => no_brace t | Var n => no_brace n end.

Definition render_segment (g : segment) : text :=
  match g with Lit t => t | Var n => lbrace :: n ++ [rbrace] end.

Definition render (gs : list segment) : text := gs ≫= render_segment.

Definition variables (gs : list segment) : list text :=
  gs ≫= fun g => match g with Lit _ => [] | Var n => [n] end.

(** The text with the variables replaced, if they all have a value. *)
Fixpoint expand (m : gmap text text) (gs : list segment) : option text :=
  match gs with
  | [] => Some []
  | Lit t :: gs => app t <$> expand m gs
  | Var n :: gs => v ← m !! n; app v <$> expand m gs
  end.

Lemma substitute_word m t s word result :
  no_brace t -> substitute_loop m (t ++ s) true word result = substitute_loop m s true (word ++ t) result.
Proof.
  intros Ht. revert word. induction Ht as [|c t [Hl Hr] Ht IH]; intros word; simpl; [by rewrite app_nil_r|].
  rewrite !decide_False by done. by rewrite IH, <- app_assoc.
Qed.

Lemma substitute_lit m t s word result :
  no_brace t -> substitute_loop m (t ++ s) false word result = substitute_loop m s false word (result ++ t).
Proof.
  intros Ht. revert result. induction Ht as [|c t [Hl Hr] Ht IH]; intros result; simpl; [by rewrite app_nil_r|].
  rewrite !decide_False by done. by rewrite IH, <- app_assoc.
Qed.

Lemma list_word t s word result :
  no_brace t -> listVariables_loop (t ++ s) true word result = listVariables_loop s true (word ++ t) result.
Proof.
  intros Ht. revert word. induction Ht as [|c t [Hl Hr] Ht IH]; intros word; simpl; [by rewrite app_nil_r|].
  rewrite !decide_False by done. by rewrite IH, <- app_assoc.
Qed.

Lemma list_lit t s word result :
  no_brace t -> listVariables_loop (t ++ s) false word result = listVariables_loop s false word result.
Proof.
  intros Ht. induction Ht as [|c t [Hl Hr] Ht IH]; simpl; [done|]. by rewrite !decide_False.
Qed.

(** A variable in braces. *)
Lemma substitute_var m n s word result :
  no_brace n -> substitute_loop m (render_segment (Var n) ++ s) false word result =
    match m !! n with None => Throw UserError | Some v => substitute_loop m s false n (result ++ v) end.
Proof.
  intros Hn. cbn [render_segment app substitute_loop]. rewrite decide_True by done.
  rewrite <- app_assoc, substitute_word by done. cbn [app substitute_loop].
  rewrite decide_False, decide_True by done. done.
Qed.

Lemma list_var n s word result :
  no_brace n -> listVariables_loop (render_segment (Var n) ++ s) false word result =
    listVariables_loop s false n (result ++ [n]).
Proof.
  intros Hn. cbn [render_segment app listVariables_loop]. rewrite decide_True by done.
  rewrite <- app_assoc, list_word by done. cbn [app listVariables_loop].
  rewrite decide_False, decide_True by done. done.
Qed.

Lemma substitute_render m gs : forall word result,
  Forall segment_ok gs ->
  substitute_loop m (render gs) false word result =
    match expand m gs with Some t => Ok (result ++ t) | None => Throw UserError end.
Proof.
  induction gs as [|g gs IH]; intros word result Hok; [simpl; by rewrite app_nil_r|].
  apply Forall_cons in Hok as [Hg Hok]. change (render (g :: gs)) with (render_segment g ++ render gs).
  destruct g as [t|n].
  - simpl in Hg. cbn [render_segment expand]. rewrite substitute_lit, IH by done.
    destruct (expand m gs); simpl; [by rewrite app_assoc|done].
  - rewrite substitute_var by done. cbn [expand]. destruct (m !! n) as [v|]; [|done]. rewrite IH by done.
    cbn [mbind option_bind]. destruct (expand m gs); simpl; [by rewrite app_assoc|done].
Qed.

Lemma list_render gs : forall word result,
  Forall segment_ok gs -> listVariables_loop (render gs) false word result = Ok (result ++ variables gs).
Proof.
  induction gs as [|g gs IH]; intros word result Hok; [simpl; by rewrite app_nil_r|].
  apply Forall_cons in Hok as [Hg Hok]. change (render (g :: gs)) with (render_segment g ++ render gs).
  destruct g as [t|n].
  - simpl in Hg. cbn [render_segment]. by rewrite list_lit, IH.
  - rewrite list_var, IH by done. by rewrite <- app_assoc.
Qed.

(** A text whose variables can be listed is a template. *)
Lemma list_parses s : forall var word result vs,
  no_brace word -> listVariables_loop s var word result = Ok vs ->
  exists gs, Forall segment_ok gs /\ (if var then lbrace :: word ++ s else s) = render gs.
Proof.
  induction s as [|c s IH]; intros var word result vs Hw; simpl.
  { destruct var; [done|]. intros _. by exists []. }
  destruct (decide (c = lbrace)) as [->|Hl]; [|destruct (decide (c = rbrace)) as [->|Hr]].
  - destruct var; [done|]. intros Hv. apply IH in Hv; [done|constructor].
  - destruct var; [|done]. intros Hv. apply IH in Hv as (gs & Hok & E); [|done].
    exists (Var word :: gs). split; [by constructor|].
    change (render (Var word :: gs)) with (render_segment (Var word) ++ render gs). simpl. rewrite <- E.
    by rewrite <- app_assoc.
  - destruct var; intros Hv.
    + apply IH in Hv as (gs & Hok & E); [|by apply Forall_app; split; [|constructor]].
      exists gs. split; [done|]. rewrite <- E. by rewrite <- app_assoc.
    + apply IH in Hv as (gs & Hok & E); [|done]. exists (Lit [c] :: gs).
      split; [constructor; [|done]; simpl; by constructor|].
      change (render (Lit [c] :: gs)) with ([c] ++ render gs). by rewrite <- E.
Qed.

Lemma list_fails s : forall var word result,
  (exists vs, listVariables_loop s var word result = Ok vs) \/
  (listVariables_loop s var word result = Throw UserError /\
   forall m w r, substitute_loop m s var w r = Throw UserError).
Proof.
  induction s as [|c s IH]; intros var word result; simpl.
  { destruct var; [by right|left; by eexists]. }
  destruct (decide (c = lbrace)); [|destruct (decide (c = rbrace))]; destruct var; try (by right).
  - destruct (IH true [] result) as [Hs|[Hs Hf]]; [by left|]. right. split; [done|]. intros. apply Hf.
  - destruct (IH false word (result ++ [word])) as [Hs|[Hs Hf]]; [by left|]. right. split; [done|].
    intros m w r. destruct (m !! w); [apply Hf|done].
  - destruct (IH true (word ++ [c]) result) as [Hs|[Hs Hf]]; [by left|]. right. split; [done|]. intros. apply Hf.
  - destruct (IH false word result) as [Hs|[Hs Hf]]; [by left|]. right. split; [done|]. intros. apply Hf.
Qed.

(** ** Trimming *)

Lemma find_first_not_of_spec chars s :
  match find_first_not_of chars s with
  | Some i => exists pre c post, s = pre ++ c :: post /\ length pre = i /\ Forall (fun c => c ∈ chars) pre /\ c ∉ chars
  | None => Forall (fun c => c ∈ chars) s
  end.
Proof.
  induction s as [|c s IH]; simpl; [constructor|]. case_decide as Hc.
  - destruct (find_first_not_of chars s) as [i|]; simpl; [|by constructor].
    destruct IH as (pre & c' & post & -> & <- & Hpre & Hc'). exists (c :: pre), c', post.
    split_and!; [done|done|by constructor|done].
  - exists [], c, s. by split_and!.
Qed.

Lemma find_last_not_of_spec chars s :
  match find_last_not_of chars s with
  | Some i => exists pre c post, s = pre ++ c :: post /\ length pre = i /\ Forall (fun c => c ∈ chars) post /\ c ∉ chars
  | None => Forall (fun c => c ∈ chars) s
  end.
Proof.
  unfold find_last_not_of. pose proof (find_first_not_of_spec chars (rev s)) as Hs.
  destruct (find_first_not_of chars (rev s)) as [i|]; simpl.
  - destruct Hs as (pre & c & post & E & <- & Hpre & Hc). apply (f_equal (@rev byte)) in E.
    rewrite rev_involutive, rev_app_distr in E. simpl in E. rewrite <- app_assoc in E. simpl in E. subst s.
    exists (rev post), c, (rev pre). rewrite !length_app. simpl. rewrite !length_rev.
    split_and!; [done|lia| |done]. by apply Forall_rev.
  - apply Forall_rev in Hs. by rewrite rev_involutive in Hs.
Qed.

(** ** Properties *)

(** Tokenizing the words of a list joined with a separator gives the list
    back, when no word contains a separator and no word is empty unless empty
    tokens are kept; and joining the tokens of any text, empty ones kept, with
    its only separator gives the text back. *)
Theorem tokenizer_join_inverse (t : Tokenizer) (c : byte) :
  c ∈ separator_ t ->
  (forall ws, ws <> [] -> Forall (fun w => plain (separator_ t) w /\ (keepEmpty_ t = true \/ w <> [])) ws ->
     tokenize t (join [c] ws) = ws) /\
  (separator_ t = {[c]} -> keepEmpty_ t = true -> forall raw, join [c] (tokenize t raw) = raw).
Proof.
  intros Hc. split.
  - intros ws Hne Hws. by apply tokenize_join.
  - intros Hs Hk raw. unfold tokenize. rewrite Hk.
    destruct (join_tokenize (separator_ t) c raw [] Hs) as (w & ws & -> & ->). done.
Qed.

Lemma tokenizer_join_inverse_witness :
  tokenize (Tokenizer_string (str "/-") false) (join (str "-") [str "ab"; str "c"; str "d"]) = [str "ab"; str "c"; str "d"] /\
  join (str ",") (tokenize (mkTokenizer {["," %byte]} true) (str "a,,b,")) = str "a,,b,".
Proof.
  split.
  - apply (tokenizer_join_inverse (Tokenizer_string (str "/-") false) "-"%byte).
    + simpl. set_solver.
    + discriminate.
    + repeat constructor; try discriminate; try (right; discriminate); simpl; set_solver.
  - apply (tokenizer_join_inverse (mkTokenizer {["," %byte]} true) ","%byte); [simpl; set_solver|reflexivity..].
Defined.

(** [substitute] replaces the variables of a template by their values and
    throws exactly when a variable has no value or the text is no template;
    [listVariables] lists the variables of a template in order and throws on
    every other text. *)
Theorem substitute_correct (s : text) :
  (forall gs, Forall segment_ok gs -> s = render gs ->
     listVariables s = Ok (variables gs) /\
     forall m, substitute s m = match expand m gs with Some t => Ok t | None => Throw UserError end) /\
  ((~ exists gs, Forall segment_ok gs /\ s = render gs) ->
     listVariables s = Throw UserError /\ forall m, substitute s m = Throw UserError).
Proof.
  split.
  - intros gs Hok ->. split; [apply (list_render gs [] []); done|]. intros m. by apply (substitute_render m gs [] []).
  - intros Hno. destruct (list_fails s false [] []) as [[vs Hs]|[Hs Hf]]; [|split; [done|intros m; apply Hf]].
    exfalso. apply Hno. apply list_parses in Hs as (gs & Hok & ->); [by exists gs|constructor].
Qed.

(** [trim] removes characters of the given set from both ends and nothing
    else: the text is the trimmed text between two runs of such characters, and
    the trimmed text neither starts nor ends with one. *)
Theorem trim_correct (s chars : text) :
  exists pre post, s = pre ++ trim s chars ++ post /\
    Forall (fun c => c ∈ chars) pre /\ Forall (fun c => c ∈ chars) post /\
    (forall c, head (trim s chars) = Some c -> c ∉ chars) /\
    (forall c, last (trim s chars) = Some c -> c ∉ chars).
Proof.
  unfold trim. pose proof (find_first_not_of_spec chars s) as Hf. pose proof (find_last_not_of_spec chars s) as Hl.
  destruct (find_first_not_of chars s) as [i|]; [|exists s, []; by rewrite app_nil_r].
  destruct (find_last_not_of chars s) as [j|]; [|exists s, []; by rewrite app_nil_r].
  destruct Hf as (pre & c & post & Es & <- & Hpre & Hc). destruct Hl as (pre' & c' & post' & Es' & <- & Hpost & Hc').
  assert (Hle : length pre <= length pre').
  { destruct (decide (length pre <= length pre')) as [|Hgt]; [done|]. exfalso. apply Hc'.
    rewrite Forall_lookup in Hpre. apply (Hpre (length pre')).
    rewrite <- (lookup_app_l pre (c :: post)), <- Es, Es' by lia. by apply list_lookup_middle. }
  set (n := length pre' - length pre + 1).
  assert (Ed : drop (length pre) s = c :: post) by (rewrite Es; apply drop_app_length).
  assert (Et : take (length pre' + 1) s = pre' ++ [c']).
  { rewrite Es'. change (c' :: post') with ([c'] ++ post'). rewrite app_assoc.
    replace (length pre' + 1) with (length (pre' ++ [c'])) by (rewrite length_app; simpl; lia).
    apply take_app_length. }
  assert (E : substr s (length pre) n = drop (length pre) (pre' ++ [c'])).
  { unfold substr. rewrite <- Et. rewrite take_drop_commute. f_equal. f_equal. unfold n. lia. }
  exists pre, post'. unfold n in *. split_and!; [|done|done| |].
  - assert (Ep : pre = take (length pre) (pre' ++ [c'])).
    { rewrite <- (take_app_length pre (c :: post)) at 1. rewrite <- Es, Es'.
      change (c' :: post') with ([c'] ++ post'). rewrite app_assoc. apply take_app_le. rewrite length_app. simpl. lia. }
    rewrite E, app_assoc. rewrite Ep at 1. rewrite take_drop, <- app_assoc. exact Es'.
  - intros x Hx. unfold substr in Hx. rewrite Ed in Hx. rewrite Nat.add_1_r in Hx. simpl in Hx. by injection Hx as <-.
  - intros x Hx. rewrite E, drop_app_le in Hx by lia. rewrite last_snoc in Hx. by injection Hx as <-.
Qed.
