(* ===== verification/Translator.v ===== *)
(** * Translator

    [utils/Translator.cc]: conversions between strings and values.  Integers are
    read with [strtol] and its relatives, followed by an optional unit of memory
    size (kB, MiB, ...); products are computed on 64-bit unsigned words and
    converted to the result type.  [TranslatorDouble] reads [double]; [float] is not modelled. *)
From S2P Require Import Prelude Text Strings.
#[local] Set Warnings "-clear-no-such-hyp".

(** ** The C library *)

(** [s.c_str()]: up to the first null character. *)
Fixpoint c_str (s : text) : text :=
  match s with
  | [] => []
  | c :: s => if decide (c = "000"%byte) then [] else c :: c_str s
  end.

Fixpoint skip_space (s : text) : text :=
  match s with
  | c :: s' => if isspace c then skip_space s' else s
  | [] => []
  end.

Fixpoint skip_digits (s : text) : text :=
  match s with
  | c :: s' => if isdigit c then skip_digits s' else s
  | [] => []
  end.

Definition starts_digit (s : text) : bool := match s with c :: _ => isdigit c | [] => false end.

(** The number at the start of a text, and what follows it; nothing is consumed
    when there is no number. *)
Definition scan_number (s : text) : Z * text :=
  let t := skip_space s in
  let '(neg, d) :=
    match t with
    | c :: t' => if decide (c = "-"%byte) then (true, t') else if decide (c = "+"%byte) then (false, t') else (false, t)
    | [] => (false, [])
    end in
  if starts_digit d then ((if neg then - digits_value 0 d else digits_value 0 d), skip_digits d) else (0, s).

(** [strtol] and [strtoll] saturate; [strtoul] and [strtoull] negate modulo [2^64]. *)
Definition strtol (s : text) : Z * text :=
  let '(n, more) := scan_number s in (Z.max (- 2 ^ 63) (Z.min n (2 ^ 63 - 1)), more).
Definition strtoul (s : text) : Z * text :=
  let '(n, more) := scan_number s in (if 2 ^ 64 <=? Z.abs n then 2 ^ 64 - 1 else wrapU 64 n, more).
Definition atoi (s : text) : Z := wrapS 32 (fst (strtol s)).

(** ** Conversions *)

(** The [i]-th character of a null-terminated text, in lower case. *)
Definition lower_at (s : text) (i : nat) : byte := match s !! i with Some c => tolower c | None => "000"%byte end.

Definition multiplier (p : text) : Z :=
  let p := skip_space p in
  if decide (1 < length p)%nat then
    if decide (lower_at p 1 = "b"%byte \/ (lower_at p 1 = "i"%byte /\ lower_at p 2 = "b"%byte)) then
      match lower_at p 0 with
      | "k"%byte => 2 ^ 10
      | "m"%byte => 2 ^ 20
      | "g"%byte => 2 ^ 30
      | "t"%byte => 2 ^ 40
      | "p"%byte => 2 ^ 50
      | "e"%byte => 2 ^ 60
      | _ => 1
      end
    else 1
  else 1.

Definition bool_to_string (value : bool) : text := if value then ["1"%byte] else ["0"%byte].

Definition string_to_bool (s : text) : bool :=
  let s := lower s in
  if decide (s ∈ [str "no"; str "off"; str "false"; str "0"]) then false
  else if decide (s ∈ [str "yes"; str "on"; str "true"; str "1"]) then true
  else negb (atoi (c_str s) =? 0).

Definition string_to_int (s : text) : Z :=
  if decide (s ∈ [str "no"; str "off"; str "false"]) then 0
  else if decide (s ∈ [str "yes"; str "on"; str "true"]) then 1
  else
    let '(result, more) := strtol (c_str s) in
    wrapS 32 (wrapU 64 (wrapU 64 (wrapS 32 result) * multiplier more)).

Definition string_to_unsigned_int (s : text) : Z :=
  if decide (s ∈ [str "no"; str "off"; str "false"]) then 0
  else if decide (s ∈ [str "yes"; str "on"; str "true"]) then 1
  else
    let '(result, more) := strtoul (c_str s) in
    wrapU 32 (wrapU 64 (wrapU 32 result * multiplier more)).

(** [long] and [long long] are the same type here. *)
Definition string_to_long (s : text) : Z :=
  let '(result, more) := strtol (c_str s) in wrapS 64 (wrapU 64 (wrapU 64 result * multiplier more)).
Definition string_to_long_long (s : text) : Z :=
  let '(result, more) := strtol (c_str s) in wrapS 64 (wrapU 64 (wrapU 64 result * multiplier more)).

Definition string_to_unsigned_long (s : text) : Z :=
  let '(result, more) := strtoul (c_str s) in wrapU 64 (result * multiplier more).
Definition string_to_unsigned_long_long (s : text) : Z :=
  let '(result, more) := strtoul (c_str s) in wrapU 64 (result * multiplier more).

Definition string_to_short (s : text) : outcome Z :=
  let '(result, more) := strtol (c_str s) in
  let result := wrapS 64 (wrapU 64 (wrapU 64 result * multiplier more)) in
  ASSERT (wrapS 16 result =? result) ;; Ok result.

Definition string_to_unsigned_char (s : text) : outcome Z :=
  let '(result, more) := strtol (c_str s) in
  let result := wrapS 64 (wrapU 64 (wrapU 64 result * multiplier more)) in
  ASSERT (wrapU 8 result =? result) ;; Ok result.

(** Integers are printed in decimal; an [unsigned char] is a character. *)
Definition int_to_string (value : Z) : text := print_long value.
Definition long_to_string (value : Z) : text := print_long value.
Definition long_long_to_string (value : Z) : text := print_long value.
Definition unsigned_char_to_string (value : byte) : text := [value].
Definition signed_char_to_string (value : Z) : text := int_to_string value.
Definition char_to_string (c : byte) : text := [c].
Definition string_to_char (s : text) : outcome byte :=
  match s with [c] => Ok c | _ => Throw AssertionFailed end.

Definition list_tokenizer : Tokenizer := Tokenizer_string (str ", " ++ ["009"%byte]) false.

Definition string_to_strings (s : text) : list text := tokenize list_tokenizer s.
Definition string_to_longs (s : text) : list Z := string_to_long <$> tokenize list_tokenizer s.
Definition string_to_string_set (s : text) : gset text := list_to_set (tokenize list_tokenizer s).

Fixpoint concat_from (sep : text) (i : nat) (v : list text) (result : text) : text :=
  match v with
  | [] => result
  | x :: v => concat_from sep (S i) v ((if decide (i = 0%nat) then result else result ++ sep) ++ x)
  end.
Definition longs_to_string (v : list Z) : text := concat_from (str " ") 0 (long_to_string <$> v) [].
Definition strings_to_string (v : list text) : text := concat_from (str ",") 0 v [].

(** ** Lemmas *)

Lemma concat_from_S sep v : forall i r, concat_from sep (S i) v r = join_loop sep v r.
Proof. induction v as [|x v IH]; intros i r; [done|]. cbn [concat_from join_loop]. rewrite decide_False by lia. by rewrite IH, app_assoc. Qed.

Lemma concat_from_join sep v : concat_from sep 0 v [] = join sep v.
Proof. destruct v as [|x v]; [done|]. cbn [concat_from]. rewrite decide_True by done. by rewrite concat_from_S. Qed.

Lemma skip_digits_all t : all_digits t -> skip_digits t = [].
Proof. induction 1 as [|c t Hc _ IH]; simpl; [done|]. by rewrite Hc. Qed.

Lemma c_str_id t : Forall (fun c => c <> "000"%byte) t -> c_str t = t.
Proof. induction 1 as [|c t Hc _ IH]; simpl; [done|]. by rewrite decide_False, IH. Qed.

Lemma decimal_nonempty f n : decimal (S f) n <> [].
Proof. simpl. by destruct (if n <? 10 then _ else _). Qed.

(** The printed form of a number: a sign and digits. *)
Lemma print_long_shape n : - 2 ^ 63 <= n < 2 ^ 64 ->
  exists d, all_digits d /\ d <> [] /\ digits_value 0 d = Z.abs n /\
    print_long n = (if n <? 0 then ["-"%byte] else []) ++ d.
Proof.
  intros Hn. exists (decimal 20 (Z.abs n)). destruct (decimal_ok 20 (Z.abs n)) as [H1 H2].
  { change (10 ^ Z.of_nat 20) with 100000000000000000000. lia. }
  split_and!; [done|apply decimal_nonempty|done|]. unfold print_long.
  destruct (Z.ltb_spec n 0); [by rewrite Z.abs_neq by lia|by rewrite Z.abs_eq by lia].
Qed.

Lemma digit_facts c : isdigit c = true -> c <> "-"%byte /\ c <> "+"%byte /\ isspace c = false /\ c <> "000"%byte.
Proof. intros Hc. split_and!; [intros ->; done|intros ->; done| |intros ->; done]. unfold isspace, isdigit in *. lia. Qed.

Lemma scan_print n more : - 2 ^ 63 <= n < 2 ^ 64 -> starts_digit more = false -> scan_number (print_long n ++ more) = (n, more).
Proof.
  intros Hn Hm. destruct (print_long_shape n Hn) as (d & Hd & Hne & Hv & E).
  assert (Hdv : forall l acc, all_digits l -> digits_value acc (l ++ more) = digits_value acc l /\ skip_digits (l ++ more) = more).
  { clear -Hm. induction l as [|x l IH]; intros acc Hl; simpl.
    - destruct more as [|y more]; [done|]. simpl in *. by rewrite Hm.
    - apply Forall_cons in Hl as [-> Hl]. by apply IH. }
  destruct d as [|c d]; [done|]. pose proof Hd as [Hc _]%Forall_cons. destruct (digit_facts c Hc) as (? & ? & Hs & _).
  destruct (Hdv (c :: d) 0 Hd) as [E1 E2]. unfold scan_number. rewrite E. destruct (Z.ltb_spec n 0).
  - cbn [app skip_space]. change (isspace "-"%byte) with false. cbn iota. rewrite decide_True by done.
    change (c :: d ++ more) with ((c :: d) ++ more). rewrite E1, E2, Hv. simpl. rewrite Hc. f_equal. lia.
  - cbn [app skip_space]. rewrite Hs. cbn iota. rewrite !decide_False by done.
    change (c :: d ++ more) with ((c :: d) ++ more). rewrite E1, E2, Hv. simpl. rewrite Hc. f_equal. lia.
Qed.

Lemma print_long_chars n : - 2 ^ 63 <= n < 2 ^ 64 ->
  print_long n <> [] /\ Forall (fun c => c = "-"%byte \/ isdigit c = true) (print_long n).
Proof.
  intros Hn. destruct (print_long_shape n Hn) as (d & Hd & Hne & _ & ->). split.
  - destruct (n <? 0); [done|]. by destruct d.
  - apply Forall_app. split; [destruct (n <? 0); repeat constructor|].
    eapply Forall_impl; [exact Hd|]. intros c Hc. by right.
Qed.

Lemma string_to_long_print n : in_S 64 n = true -> string_to_long (long_to_string n) = n.
Proof.
  intros Hn. pose proof Hn as Hr%in_S_spec. change (2 ^ (64 - 1)) with (2 ^ 63) in Hr.
  unfold string_to_long, long_to_string. rewrite c_str_id.
  - unfold strtol. rewrite <- (app_nil_r (print_long n)), scan_print by (done || lia).
    change (multiplier []) with 1. rewrite Z.mul_1_r. replace (Z.max _ _) with n by lia.
    unfold wrapS, wrapU. rewrite !Z.mod_mod by lia. by apply (wrapS_id 64).
  - destruct (print_long_chars n ltac:(lia)) as [_ Hc]. eapply Forall_impl; [exact Hc|].
    intros c [->|?]; [done|by apply digit_facts].
Qed.

(** A vector of integers is read back from its string; so is each integer. *)
Theorem translator_longs_roundtrip (v : list Z) :
  v <> [] -> Forall (fun n => in_S 64 n = true) v -> string_to_longs (longs_to_string v) = v.
Proof.
  intros Hne Hv. unfold longs_to_string, string_to_longs. rewrite concat_from_join.
  assert (E : tokenize list_tokenizer (join (str " ") (long_to_string <$> v)) = long_to_string <$> v).
  { apply (tokenize_join (separator_ list_tokenizer) false " "%byte).
    - simpl. set_solver.
    - apply Forall_fmap. eapply Forall_impl; [exact Hv|]. intros n Hn%in_S_spec. change (2 ^ (64 - 1)) with (2 ^ 63) in Hn.
      destruct (print_long_chars n ltac:(lia)) as [H1 H2]. split; [|by right]. eapply Forall_impl; [exact H2|].
      intros c Hc Hin. simpl in Hin. set_unfold in Hin. destruct Hc as [->|Hc]; naive_solver.
    - by destruct v. }
  rewrite E, <- list_fmap_compose. transitivity (id <$> v); [|by rewrite list_fmap_id].
  apply list_fmap_ext. intros i n Hi. apply string_to_long_print. by eapply Forall_lookup_1 in Hv.
Qed.

Lemma translator_longs_roundtrip_witness :
  string_to_longs (longs_to_string [-9223372036854775808; 0; 42]) = [-9223372036854775808; 0; 42].
Proof. apply (translator_longs_roundtrip [-9223372036854775808; 0; 42]); [discriminate|repeat constructor]. Defined.

(** A size with a unit. *)
Lemma string_to_long_unit n u k :
  0 <= n -> In (u, k) [(str "kB", 10); (str "MiB", 20); (str " gb", 30); (str "TB", 40)] -> n * 2 ^ k < 2 ^ 63 ->
  string_to_long (long_to_string n ++ u) = n * 2 ^ k.
Proof.
  intros Hn Hu Hb. assert (Hk : 1 <= 2 ^ k) by (simpl in Hu; destruct_or?; simplify_eq; lia).
  assert (Hn63 : n < 2 ^ 63) by nia. unfold string_to_long, long_to_string. rewrite c_str_id.
  - unfold strtol. rewrite scan_print; [|lia|simpl in Hu; destruct_or?; by simplify_eq].
    replace (multiplier u) with (2 ^ k) by (simpl in Hu; destruct_or?; by simplify_eq).
    assert (0 <= n * 2 ^ k) by nia. replace (Z.max _ _) with n by lia. unfold wrapS, wrapU. rewrite !(Z.mod_small n) by lia. rewrite !(Z.mod_small (n * 2 ^ k)) by lia.
    unfold to_signed. destruct (Z.ltb_spec (n * 2 ^ k) (2 ^ (64 - 1))); [done|]. change (2 ^ (64 - 1)) with (2 ^ 63) in *. lia.
  - destruct (print_long_chars n ltac:(lia)) as [_ Hc]. apply Forall_app. split.
    + eapply Forall_impl; [exact Hc|]. intros c [->|?]; [done|by apply digit_facts].
    + simpl in Hu; destruct_or?; simplify_eq; repeat constructor; done.
Qed.
