(* ===== verification/LocalPathName.v ===== *)
(** * Path names

    [filesystem/LocalPathName.cc], [filesystem/LocalPathName.h]: the operations on path
    names as texts: normalisation ([tidy]), the directory, base name and extension of a
    path, and the path of one directory relative to another.  The table of paths, the
    registered libraries and the home directories that the expansion of a tilde uses are
    parameters. *)
From S2P Require Import Prelude Text Strings Translator.
#[local] Set Warnings "-clear-no-such-hyp".

Record surroundings : Type := mkSurroundings {
  pathsTable : list (text * text);
  library : text -> option (text -> text);
  pw_dir : option text;
  home : text }.

Module LocalPathName.

Definition slash : byte := "/"%byte.
Definition dot : text := str ".".
Definition dotdot : text := str "..".

(** *** Tilde *)

(** The longest prefix of the table that matches. *)
Fixpoint best_match (path : text) (table : list (text * text)) (match_ : nat) (best : text) : nat * text :=
  match table with
  | [] => (match_, best)
  | (prefix, value) :: table =>
      let m := length prefix in
      if bool_decide (take m path = prefix) && Nat.ltb match_ m then best_match path table m value
      else best_match path table match_ best
  end.

Fixpoint upto_slash (s : text) : text :=
  match s with [] => [] | c :: s => if decide (c = slash) then [] else c :: upto_slash s end.

Definition expandTilde (w : surroundings) (path : text) (tildeIsUserHome : bool) : outcome text :=
  match path with
  | "~"%byte :: rest =>
      if bool_decide (rest <> []) && negb (bool_decide (head rest = Some slash)) then
        if tildeIsUserHome then Throw NotImplemented
        else
          let s := upto_slash rest in
          let '(m, best) := best_match path (pathsTable w) 0 [] in
          if Nat.ltb 0 m then Ok (best ++ str "/" ++ drop m path)
          else match library w s with
               | Some expandPath => Ok (expandPath path)
               | None => Throw SeriousBug
               end
      else if tildeIsUserHome then
        match pw_dir w with
        | Some d => Ok (d ++ str "/" ++ rest)
        | None => Throw AssertionFailed
        end
      else Ok (home w ++ str "/" ++ rest)
  | _ => Ok path
  end.

(** *** Normalisation *)

(** One token, pushed on the path so far. *)
Definition tidy_token (absolute : bool) (path : list text) (s : text) : list text :=
  if bool_decide (s = []) || bool_decide (s = dot) then path
  else if bool_decide (s = dotdot) then
    match last path with
    | Some back =>
        if bool_decide (back = dotdot) then path ++ [s]
        else if bool_decide (back = []) then path
        else if bool_decide (back = dot) then removelast path ++ [s]
        else removelast path
    | None => if absolute then path else path ++ [s]
    end
  else path ++ [s].
Definition tidy_path_tokens (v : list text) : list text :=
  match v with
  | [] => []
  | v0 :: r => let absolute := bool_decide (v0 = []) in foldl (tidy_token absolute) [v0] r
  end.

Definition rebuild_path (v : list text) (trail : bool) : text :=
  if bool_decide (v = [[]]) then str "/" else join [slash] v ++ (if trail then [slash] else []).

Definition tok : Tokenizer := mkTokenizer {[slash]} true.
Definition tidy (w : surroundings) (path : text) (tildeIsUserHome skipTildeExpansion : bool) : outcome text :=
  if decide (path = []) then Ok path
  else
    path ← (if skipTildeExpansion then Ok path else expandTilde w path tildeIsUserHome);
    match last path with
    | None => Undef
    | Some c => Ok (rebuild_path (tidy_path_tokens (tokenize tok path)) (bool_decide (c = slash)))
    end.

(** *** Constructors and parts *)

Definition parsePath (p : text) : text := if bool_decide (take 8 p = str "local://") then drop 8 p else p.
Definition new (w : surroundings) (p : text) (tildeIsUserHome skipTildeExpansion : bool) : outcome text :=
  if skipTildeExpansion then Ok (parsePath p) else tidy w (parsePath p) tildeIsUserHome skipTildeExpansion.

(** The position of the last slash. *)
Fixpoint last_slash (q : text) (i n : Z) : Z :=
  match q with [] => n | c :: q => last_slash q (i + 1) (if decide (c = slash) then i else n) end.
Fixpoint upto_dot (s : text) : text :=
  match s with [] => [] | c :: s => if decide (c = "."%byte) then [] else c :: upto_dot s end.

Definition baseName (w : surroundings) (path : text) (ext : bool) : outcome text :=
  let q := c_str path in
  let s := drop (Z.to_nat (last_slash q 0 (-1) + 1)) q in
  new w (if ext then s else upto_dot s) false true.

Fixpoint from_last_dot (s : text) : option text :=
  match s with
  | [] => None
  | c :: r => match from_last_dot r with Some e => Some e | None => if decide (c = "."%byte) then Some s else None end
  end.
Definition extension (w : surroundings) (path : text) : outcome text :=
  base ← baseName w path true;
  Ok (default [] (from_last_dot base)).

Definition dirName (w : surroundings) (path : text) : outcome text :=
  let n := last_slash (c_str path) 0 (-1) in
  if n =? -1 then new w (str ".") false false
  else if n =? 0 then new w (str "/") false false
  else new w (take (Z.to_nat n) path) false false.

Definition divided (w : surroundings) (p1 p2 : text) : outcome text := new w (p1 ++ str "/" ++ p2) false true.

Fixpoint strip_common (s1 s2 : list text) : list text * list text :=
  match s1, s2 with
  | x :: r1, y :: r2 => if decide (x = y) then strip_common r1 r2 else (s1, s2)
  | _, _ => (s1, s2)
  end.
Definition relativePath (w : surroundings) (path other : text) : outcome text :=
  ASSERT (bool_decide (head path = Some slash)) ;;
  ASSERT (bool_decide (head other = Some slash)) ;;
  let tokens := tokenize (Tokenizer_string (str "/") false) in
  let '(i, j) := strip_common (tokens path) (tokens other) in
  let result := join [slash] (replicate (length j) dotdot ++ i) in
  new w (if decide (result = []) then dot else result) false false.

End LocalPathName.
Import LocalPathName.

(** ** Where a path leads

    A directory is the list of the names on the way from the root; links are not
    considered. *)
Definition walk1 (dir : list text) (s : text) : list text :=
  if bool_decide (s = []) || bool_decide (s = dot) then dir
  else if bool_decide (s = dotdot) then removelast dir else dir ++ [s].
Definition walk (dir v : list text) : list text := foldl walk1 dir v.
Definition absolute (p : text) : bool := bool_decide (head p = Some slash).
Definition destination (cwd : list text) (p : text) : list text := walk (if absolute p then [] else cwd) (tokenize tok p).

(** The tokens that normalisation gives: nothing is empty or "." except the first, and ".."
    comes after "..". *)
Definition follows (a b : text) : bool :=
  negb (bool_decide (b = [])) && negb (bool_decide (b = dot)) && (negb (bool_decide (b = dotdot)) || bool_decide (a = dotdot)).
Fixpoint chain (a : text) (l : list text) : bool :=
  match l with [] => true | b :: l => follows a b && chain b l end.
Definition canonical (v : list text) : bool := match v with [] => true | a :: l => chain a l end.

Lemma chain_app a l b r : chain a (l ++ b :: r) = chain a l && follows (default a (last l)) b && chain b r.
Proof.
  revert a. induction l as [|x l IH]; intros a; simpl; [done|]. rewrite IH. rewrite <- !andb_assoc. f_equal. f_equal. f_equal.
  destruct l as [|y l]; [done|]. change (last (x :: y :: l)) with (last (y :: l)). by destruct (last (y :: l)) eqn:E; [|apply last_None in E].
Qed.

Lemma canonical_snoc v b : canonical (v ++ [b]) = canonical v && match last v with Some a => follows a b | None => true end.
Proof.
  destruct v as [|a l]; [done|]. cbn [canonical app]. rewrite chain_app, andb_true_r. f_equal.
  destruct l as [|x l]; [done|]. change (last (a :: x :: l)) with (last (x :: l)). by destruct (last (x :: l)) eqn:E; [|apply last_None in E].
Qed.

(** ** Normalisation keeps the destination *)

(** The path so far: canonical, and with an empty first token exactly if it is absolute. *)
Definition progress (abs : bool) (P : list text) : Prop :=
  canonical P = true /\ (head P = Some [] <-> abs = true).

Lemma removelast_snoc {A} (l : list A) x : removelast (l ++ [x]) = l.
Proof. apply removelast_last. Qed.

Lemma walk_snoc dir v s : walk dir (v ++ [s]) = walk1 (walk dir v) s.
Proof. unfold walk. by rewrite foldl_app. Qed.

(** The last token of a path of more than one is a name or "..". *)
Lemma progress_last abs P b : progress abs (P ++ [b]) -> P <> [] -> b <> [] /\ b <> dot.
Proof.
  intros [Hc _] Hn. rewrite canonical_snoc in Hc. apply andb_true_iff in Hc as [_ Hc]. destruct (last P) as [a|] eqn:E; [|by apply last_None in E].
  unfold follows in Hc. rewrite !andb_true_iff, !negb_true_iff, !bool_decide_eq_false in Hc. naive_solver.
Qed.

Lemma progress_prefix abs P b : progress abs (P ++ [b]) -> (P = [] -> b <> []) -> progress abs P.
Proof.
  intros [Hc Hh] Hb. rewrite canonical_snoc in Hc. apply andb_true_iff in Hc as [Hc _]. split; [done|].
  destruct P as [|a P]; [|done]. simpl in *. rewrite <- Hh. split; [done|]. intros [= ->]. by destruct (Hb eq_refl).
Qed.

Lemma tidy_token_ok abs P s dir : progress abs P -> (abs = true -> dir = []) ->
  progress abs (tidy_token abs P s) /\ walk dir (tidy_token abs P s) = walk1 (walk dir P) s.
Proof.
  intros HP Hd. unfold tidy_token. case_bool_decide as E1; simpl; [subst s; by split|]. case_bool_decide as E2; simpl; [subst s; by split|].
  case_bool_decide as E3.
  - subst s. destruct P as [|b P _] using rev_ind.
    + simpl. destruct abs; [destruct HP as [_ [_ H]]; by specialize (H eq_refl)|]. split; [|done]. split; [done|]. simpl. split; [by intros [= ?]|done].
    + rewrite last_snoc. case_bool_decide as B1; [subst b|].
      { split; [|by rewrite walk_snoc]. destruct HP as [Hc Hh]. split; [|by destruct P].
        rewrite canonical_snoc, Hc, last_snoc. done. }
      case_bool_decide as B2; [subst b|].
      { split; [done|]. destruct P as [|a P]; [|by destruct (progress_last _ _ _ HP)]. simpl in *.
        rewrite Hd by by apply HP. done. }
      case_bool_decide as B3; [subst b|].
      { destruct P as [|a P]; [|by destruct (progress_last _ _ _ HP)]. simpl. split; [|done]. split; [done|]. simpl. split; [by intros [= ?]|].
        intros Ha. by apply HP in Ha. }
      rewrite removelast_snoc. split; [by apply (progress_prefix _ _ b)|].
      rewrite walk_snoc. unfold walk1 at 2. rewrite !bool_decide_false by done. simpl.
      change (walk1 ?x dotdot) with (removelast x). by rewrite removelast_snoc.
  - rewrite walk_snoc. split; [|done]. destruct HP as [Hc Hh]. split.
    + rewrite canonical_snoc, Hc. destruct (last P) as [a|]; [|done]. unfold follows. by repeat case_bool_decide.
    + destruct P as [|a P]; [|done]. simpl in *. split; [by intros [= ?]|]. by intros ?%Hh.
Qed.

Lemma tidy_tokens_fold abs r : forall P dir, progress abs P -> (abs = true -> dir = []) ->
  progress abs (foldl (tidy_token abs) P r) /\ walk dir (foldl (tidy_token abs) P r) = walk (walk dir P) r.
Proof.
  induction r as [|s r IH]; intros P dir HP Hd; [by split|]. simpl. destruct (tidy_token_ok abs P s dir HP Hd) as [H1 H2].
  destruct (IH _ dir H1 Hd) as [H3 H4]. split; [done|]. by rewrite H4, H2.
Qed.

Lemma tidy_tokens_ok v0 r dir : (v0 = [] -> dir = []) ->
  progress (bool_decide (v0 = [])) (tidy_path_tokens (v0 :: r)) /\ walk dir (tidy_path_tokens (v0 :: r)) = walk dir (v0 :: r).
Proof.
  intros Hd. cbn [tidy_path_tokens]. destruct (tidy_tokens_fold (bool_decide (v0 = [])) r [v0] dir) as [H1 H2].
  - split; [done|]. rewrite bool_decide_eq_true. simpl. split; [by intros [= ->]|by intros ->].
  - intros ?%bool_decide_eq_true. auto.
  - split; [done|]. by rewrite H2.
Qed.

(** Canonical tokens are not changed. *)
Lemma tidy_canonical_fold abs r : forall P, P <> [] -> canonical (P ++ r) = true -> foldl (tidy_token abs) P r = P ++ r.
Proof.
  induction r as [|s r IH]; intros P HP Hc; [by rewrite app_nil_r|]. simpl. rewrite cons_middle, app_assoc in Hc |- *.
  assert (tidy_token abs P s = P ++ [s]) as ->.
  { destruct P as [|a P]; [done|]. simpl in Hc. rewrite <- app_assoc in Hc. simpl in Hc. rewrite chain_app, !andb_true_iff in Hc. destruct Hc as [[_ Hf] _].
    unfold follows in Hf. rewrite !andb_true_iff, orb_true_iff, !negb_true_iff, !bool_decide_eq_false, bool_decide_eq_true in Hf. destruct Hf as [[H1 H2] H3].
    unfold tidy_token. rewrite !bool_decide_false by done. cbn [orb]. case_bool_decide as E; [|done]. destruct H3 as [?|H3]; [done|].
    replace (last (a :: P)) with (Some dotdot); [done|]. rewrite <- H3. destruct P as [|b P]; [done|].
    change (last (a :: b :: P)) with (last (b :: P)). by destruct (last (b :: P)) eqn:E'; [|apply last_None in E']. }
  apply IH; [by destruct P|done].
Qed.

Lemma tidy_canonical v : canonical v = true -> tidy_path_tokens v = v.
Proof. destruct v as [|v0 r]; [done|]. intros Hc. apply (tidy_canonical_fold _ r [v0]); done. Qed.

Lemma tidy_trailing v : v <> [] -> tidy_path_tokens (v ++ [[]]) = tidy_path_tokens v.
Proof. destruct v as [|v0 r]; [done|]. intros _. simpl. by rewrite foldl_app. Qed.

(** ** Tokens and texts *)

Definition no_slash (t : text) : Prop := plain {[slash]} t.

Lemma tokens_no_slash raw : forall token, no_slash token -> Forall no_slash (tokenize_loop {[slash]} true raw token).
Proof.
  induction raw as [|c raw IH]; intros token Ht; simpl.
  - destruct (decide (token <> [])); by repeat constructor.
  - destruct (decide (c ∈ _)) as [Hc|Hc].
    + apply Forall_app. split; [destruct (decide (token <> [])); by repeat constructor|apply IH; constructor].
    + apply IH. apply Forall_app. by repeat constructor.
Qed.

Lemma tidy_token_no_slash abs P s : Forall no_slash P -> no_slash s -> Forall no_slash (tidy_token abs P s).
Proof.
  intros HP Hs. assert (Forall no_slash (removelast P)) as Hr.
  { destruct P as [|b P _] using rev_ind; [done|]. rewrite removelast_snoc. by apply Forall_app in HP as [? _]. }
  unfold tidy_token. repeat case_match; rewrite ?Forall_app; repeat split; by repeat constructor.
Qed.

Lemma tidy_tokens_no_slash v : Forall no_slash v -> Forall no_slash (tidy_path_tokens v).
Proof.
  destruct v as [|v0 r]; [done|]. intros [H0 Hr]%Forall_cons. simpl. assert (Forall no_slash [v0]) as HP by by repeat constructor. revert HP.
  generalize [v0] as P. induction Hr as [|s r Hs Hr IH]; intros P HP; [done|]. simpl. apply IH. by apply tidy_token_no_slash.
Qed.

Lemma tokens_join v : Forall no_slash v -> v <> [] -> tokenize tok (join [slash] v) = v.
Proof.
  intros Hv Hne. unfold tokenize. cbn [separator_ keepEmpty_ tok]. apply tokenize_join; [by apply elem_of_singleton| |done].
  eapply Forall_impl; [exact Hv|]. intros t Ht. split; [done|by left].
Qed.

Lemma join_tokens p : exists v0 r, tokenize tok p = v0 :: r /\ join [slash] (v0 :: r) = p /\ Forall no_slash (v0 :: r).
Proof.
  unfold tokenize. cbn [separator_ keepEmpty_ tok]. destruct (join_tokenize {[slash]} slash p []) as (w & ws & E & Ej); [done|].
  exists w, ws. split; [done|]. split; [done|]. rewrite <- E. apply tokens_no_slash. constructor.
Qed.

Lemma join_app v b : v <> [] -> join [slash] (v ++ [b]) = join [slash] v ++ slash :: b.
Proof.
  destruct v as [|w v]; [done|]. intros _. unfold join. simpl. rewrite !join_loop_app, bind_app. simpl. by rewrite app_nil_r, <- !app_assoc.
Qed.

(** A path is absolute if its first token is empty and not the only one. *)
Lemma absolute_join v0 r t : no_slash v0 -> absolute (join [slash] (v0 :: r) ++ t) =
  bool_decide (v0 = []) && (bool_decide (r <> []) || absolute t).
Proof.
  intros H0. unfold absolute. destruct v0 as [|c v0].
  - destruct r as [|v1 r]; [done|]. by rewrite join_cons.
  - rewrite (bool_decide_false (c :: v0 = [])) by done. cbn [andb]. apply bool_decide_eq_false. apply Forall_cons in H0 as [Hc _]. intros E. apply Hc, elem_of_singleton.
    destruct r as [|v1 r]; [by injection E|]. rewrite join_cons in E. by injection E.
Qed.

Lemma path_first p v0 r : p <> [] -> tokenize tok p = v0 :: r -> bool_decide (v0 = []) = absolute p.
Proof.
  intros Hp E. destruct (join_tokens p) as (w & ws & E' & Ej & Hs). rewrite E in E'. injection E' as <- <-.
  apply Forall_cons in Hs as [H0 _]. rewrite <- Ej, <- (app_nil_r (join _ _)), absolute_join by done.
  change (absolute []) with false. rewrite orb_false_r. destruct (bool_decide_reflect (v0 = [])) as [->|]; [|done].
  simpl. symmetry. apply bool_decide_eq_true. intros ->. simpl in Ej. done.
Qed.

(** The last character of a path without a trailing slash. *)
Lemma last_join abs T : progress abs T -> Forall no_slash T -> T <> [] -> T <> [[]] -> exists c, last (join [slash] T) = Some c /\ c <> slash.
Proof.
  intros HT Hs Hn Hr. destruct T as [|b P _] using rev_ind; [done|]. apply Forall_app in Hs as [_ [Hb _]%Forall_cons].
  assert (b <> []) as Hbn. { destruct P as [|a P]; [intros ->; by apply Hr|]. by apply (progress_last abs (a :: P)). }
  assert (exists X, join [slash] (P ++ [b]) = X ++ b) as [X ->].
  { destruct P as [|a P]; [by exists []|]. rewrite join_app by done. eexists. rewrite cons_middle, app_assoc. done. }
  rewrite last_app. destruct (last b) as [c|] eqn:E; [|by apply last_None in E]. exists c. split; [done|]. intros ->.
  rewrite last_lookup in E. pose proof (Forall_lookup_1 _ _ _ _ Hb E) as H. by apply H, elem_of_singleton.
Qed.

Lemma tidy_skip w p c : last p = Some c -> tidy w p false true = Ok (rebuild_path (tidy_path_tokens (tokenize tok p)) (bool_decide (c = slash))).
Proof. intros E. unfold tidy. rewrite decide_False by by intros ->. unfold mbind, outcome_mbind. cbn [outcome_bind]. by rewrite E. Qed.

(** What is rebuilt from canonical tokens is normal, and leads where the tokens lead. *)
Lemma rebuild_ok w abs T trail : progress abs T -> Forall no_slash T -> T <> [] ->
  tidy w (rebuild_path T trail) false true = Ok (rebuild_path T trail) /\
  absolute (rebuild_path T trail) = abs /\ forall dir, walk dir (tokenize tok (rebuild_path T trail)) = walk dir T.
Proof.
  intros HT Hs Hn. unfold rebuild_path. case_bool_decide as ET.
  - subst T. split; [by destruct trail|]. split; [|done]. destruct HT as [_ HT]. simpl in HT. symmetry. by apply HT.
  - destruct T as [|t0 tr] eqn:E0; [done|]. rewrite <- E0 in *. assert (T <> []) as Hn' by by rewrite E0.
    destruct (last_join abs T HT Hs Hn' ET) as (c & Ec & Hc).
    assert (tokenize tok (join [slash] T ++ (if trail then [slash] else [])) = T ++ (if trail then [[]] else [])) as Etok.
    { destruct trail; [|rewrite !app_nil_r; by apply tokens_join]. rewrite <- (join_app T []) by done. apply tokens_join; [|by destruct T].
      apply Forall_app. split; [done|]. repeat constructor. }
    split_and!.
    + rewrite (tidy_skip _ _ (if trail then slash else c)).
      * rewrite Etok. replace (tidy_path_tokens (T ++ _)) with T; [unfold rebuild_path; rewrite bool_decide_false by done; destruct trail; [done|by rewrite (bool_decide_false (c = slash))]|].
        destruct trail; rewrite ?app_nil_r, ?tidy_trailing by done; symmetry; by apply tidy_canonical, HT.
      * destruct trail; [by rewrite last_snoc|by rewrite app_nil_r].
    + rewrite E0, absolute_join by (rewrite E0 in Hs; by apply Forall_cons in Hs as [? _]). destruct HT as [_ HT]. rewrite E0 in HT, ET. simpl in HT.
      destruct (bool_decide_reflect (t0 = [])) as [->|Hne]; simpl; [|destruct abs; [|done]; by destruct HT as [_ HT]; specialize (HT eq_refl); simplify_eq].
      rewrite (proj1 HT) by done. destruct tr; [done|]. by rewrite bool_decide_true.
    + intros dir. rewrite Etok. destruct trail; [|by rewrite app_nil_r]. unfold walk. by rewrite foldl_app.
Qed.

(** C25. Normalising a path that is not empty, without the expansion of [~], gives a normal
    path: its tokens are in canonical form, it is its own normal form, and from every
    directory it leads where the path leads, unless the path is relative and became the
    root. *)
Theorem path_tidy_destination w p : p <> [] ->
  exists q v trail, tidy w p false true = Ok q /\ q = rebuild_path v trail /\ canonical v = true /\ tidy w q false true = Ok q /\
    ((q = str "/" -> absolute p = true) -> forall cwd, destination cwd q = destination cwd p).
Proof.
  intros Hp. destruct (last p) as [c|] eqn:Ec; [|by apply last_None in Ec]. destruct (join_tokens p) as (v0 & r & Ev & _ & Hs).
  set (T := tidy_path_tokens (v0 :: r)). set (trail := bool_decide (c = slash)).
  assert (forall dir, (v0 = [] -> dir = []) -> progress (bool_decide (v0 = [])) T /\ walk dir T = walk dir (v0 :: r)) as HT by (intros dir; apply tidy_tokens_ok).
  destruct (HT []) as [HP _]; [done|]. pose proof (tidy_tokens_no_slash _ Hs : Forall no_slash T) as HsT. pose proof (path_first p v0 r Hp Ev) as Ha.
  exists (rebuild_path T trail), T, trail. split; [by rewrite (tidy_skip _ _ c Ec), Ev|]. split; [done|]. split; [apply HP|].
  assert (forall cwd, destination cwd p = walk (if absolute p then [] else cwd) T) as Hd.
  { intros cwd. unfold destination. rewrite Ev. symmetry. apply HT. intros ->. by rewrite <- Ha. }
  destruct (decide (T = [])) as [ET|ET].
  - assert (absolute p = false) as Ea. { rewrite <- Ha. destruct HP as [_ HP]. rewrite ET in HP. apply not_true_iff_false. by intros ?%HP. }
    rewrite ET in *. destruct trail; [split; [done|]; intros Hr; specialize (Hr eq_refl); congruence|].
    split; [done|]. intros _ cwd. rewrite Hd, Ea. done.
  - destruct (rebuild_ok w _ T trail HP HsT ET) as (H1 & H2 & H3). split; [done|]. intros _ cwd. rewrite Hd. unfold destination. rewrite H2, H3, Ha. done.
Qed.

Definition nowhere : surroundings := mkSurroundings [] (fun _ => None) None (str "/home").

Lemma path_tidy_destination_witness : tidy nowhere (str "/a/./b//../c/") false true = Ok (str "/a/c/") /\
  forall cwd, destination cwd (str "/a/c/") = destination cwd (str "/a/./b//../c/").
Proof.
  destruct (path_tidy_destination nowhere (str "/a/./b//../c/")) as (q & v & trail & E & _ & _ & _ & Hd); [done|].
  assert (q = str "/a/c/") as -> by (vm_compute in E; vm_compute; congruence). split; [exact E|]. intros cwd. by apply Hd.
Defined.

(** A relative path that leads back to where it starts becomes empty, and the root when it
    ends with a slash. *)
Lemma path_tidy_to_root : tidy nowhere (str "a/..") false true = Ok [] /\ tidy nowhere (str "a/../") false true = Ok (str "/").
Proof. by vm_compute. Qed.

(** ** Relative paths *)

(** The name of a file or directory. *)
Definition name (s : text) : Prop := s <> [] /\ s <> dot /\ s <> dotdot /\ no_slash s.
Definition path_of (dir : list text) : text := slash :: join [slash] dir.

Lemma tokens_path dir : Forall name dir -> tokenize (Tokenizer_string (str "/") false) (path_of dir) = dir.
Proof.
  intros Hd. unfold tokenize, path_of. cbn [separator_ keepEmpty_ Tokenizer_string tokenize_loop]. rewrite decide_True by (unfold slash; set_solver).
  destruct dir as [|d dir]; [done|]. rewrite decide_False by naive_solver. cbn [app]. apply tokenize_join; [unfold slash; set_solver| |done].
  eapply Forall_impl; [exact Hd|]. intros s (H1 & _ & _ & H4). split; [|by right].
  eapply Forall_impl; [exact H4|]. unfold slash. set_solver.
Qed.

Lemma strip_common_ok s1 s2 : exists c, s1 = c ++ (strip_common s1 s2).1 /\ s2 = c ++ (strip_common s1 s2).2.
Proof.
  revert s2. induction s1 as [|x s1 IH]; intros [|y s2]; simpl; try (by exists []). destruct (decide (x = y)) as [->|]; [|by exists []].
  destruct (IH s2) as (c & E1 & E2). exists (y :: c). simpl. by rewrite <- E1, <- E2.
Qed.

Lemma walk_up dir j : walk (dir ++ j) (replicate (length j) dotdot) = dir.
Proof.
  induction j as [|x j IH] using rev_ind; [by rewrite app_nil_r|]. rewrite length_app, Nat.add_comm. simpl.
  change (walk1 ?d dotdot) with (removelast d). rewrite app_assoc, removelast_snoc. exact IH.
Qed.
Lemma walk_down i : forall dir, Forall name i -> walk dir i = dir ++ i.
Proof.
  induction i as [|s i IH]; intros dir Hi; [by rewrite app_nil_r|]. apply Forall_cons in Hi as [(H1 & H2 & H3 & _) Hi].
  cbn [walk foldl]. unfold walk1 at 2. rewrite !bool_decide_false by done. cbn [orb]. change (foldl walk1 ?d i) with (walk d i). by rewrite IH, <- app_assoc.
Qed.

(** Steps up followed by names are canonical. *)
Lemma chain_names i : forall a, Forall name i -> chain a i = true.
Proof.
  induction i as [|s i IH]; intros a Hi; [done|]. apply Forall_cons in Hi as [(H1 & H2 & H3 & _) Hi]. simpl. unfold follows.
  rewrite !(bool_decide_false (s = _)) by done. simpl. by apply IH.
Qed.
Lemma canonical_up n i : Forall name i -> canonical (replicate n dotdot ++ i) = true.
Proof.
  intros Hi. destruct n as [|n]; [destruct i as [|a i]; [done|]; apply chain_names; by apply Forall_cons in Hi as [_ ?]|].
  simpl. induction n as [|n IH]; [by apply chain_names|]. simpl. exact IH.
Qed.

Lemma expand_plain w c q b : c <> "~"%byte -> expandTilde w (c :: q) b = Ok (c :: q).
Proof. intros Hc. by destruct c. Qed.

(** A path that is made of canonical, non-empty tokens is not changed by the constructor. *)
Lemma new_normal w t0 R : Forall (fun s => s <> [] /\ no_slash s) (t0 :: R) -> canonical (t0 :: R) = true -> head t0 <> Some "~"%byte ->
  new w (join [slash] (t0 :: R)) false false = Ok (join [slash] (t0 :: R)) /\
  absolute (join [slash] (t0 :: R)) = false /\ forall dir, destination dir (join [slash] (t0 :: R)) = walk dir (t0 :: R).
Proof.
  intros HR Hc H0. set (T := t0 :: R) in *.
  assert (Forall no_slash T) as Hs by (eapply Forall_impl; [exact HR|]; by intros s [_ ?]).
  assert (t0 <> []) as Ht by by apply Forall_cons in HR as [[? _] _].
  assert (progress false T) as HT by (split; [done|]; simpl; split; [by intros [= ?]|done]).
  destruct (last_join false T HT Hs) as (c & Ec & Hcs); [done|by intros [= ?]|].
  pose proof (tokens_join T Hs ltac:(done)) as Etok.
  assert (absolute (join [slash] T) = false) as Ea.
  { rewrite <- (app_nil_r (join _ _)). unfold T. rewrite absolute_join by by apply Forall_cons in Hs as [? _]. by rewrite bool_decide_false. }
  assert (exists c0 q, join [slash] T = c0 :: q /\ c0 <> "~"%byte) as (c0 & q & Ej & Hc0).
  { unfold T, join. rewrite join_loop_app. destruct t0 as [|c0 t0]; [done|]. eexists c0, _. split; [done|]. intros ->. by apply H0. }
  split; [|split; [done|intros dir; unfold destination; by rewrite Ea, Etok]].
  unfold new. assert (parsePath (join [slash] T) = join [slash] T) as ->.
  { unfold parsePath. rewrite bool_decide_false; [done|]. intros E8. rewrite <- (take_drop 8 (join [slash] T)), E8 in Etok.
    assert (tokenize tok (str "local://" ++ drop 8 (join [slash] T)) = str "local:" :: [] :: tokenize tok (drop 8 (join [slash] T))) as E by reflexivity.
    rewrite E in Etok. rewrite <- Etok in HR. by apply Forall_cons in HR as [_ [[? _] _]%Forall_cons]. }
  unfold tidy. rewrite decide_False by by rewrite Ej. unfold mbind, outcome_mbind. rewrite Ej at 1. rewrite expand_plain by done. rewrite <- Ej. cbn [outcome_bind].
  rewrite Ec, Etok, tidy_canonical by done. rewrite (bool_decide_false (c = slash)) by done. unfold rebuild_path. rewrite bool_decide_false by (by intros [= ?]). by rewrite app_nil_r.
Qed.

(** The relative path of one directory from another leads there from it, for absolute
    paths made of names. *)
Theorem path_relative_leads w s1 s2 : Forall name s1 -> Forall name s2 -> Forall (fun s => head s <> Some "~"%byte) s1 ->
  exists r, relativePath w (path_of s1) (path_of s2) = Ok r /\ absolute r = false /\ destination s2 r = s1.
Proof.
  intros H1 H2 Ht. unfold relativePath. rewrite !bool_decide_true by done. unfold mbind, outcome_mbind. cbn [ASSERT outcome_bind].
  rewrite !tokens_path by done. destruct (strip_common_ok s1 s2) as (c & E1 & E2). destruct (strip_common s1 s2) as [i j]. cbn [fst snd] in *.
  assert (Forall name i) as Hi by (rewrite E1 in H1; by apply Forall_app in H1 as [_ ?]).
  assert (Forall (fun s => s <> [] /\ no_slash s) (replicate (length j) dotdot ++ i)) as HR.
  { apply Forall_app. split; [apply Forall_replicate; split; [done|]; repeat constructor; unfold slash; set_solver|].
    eapply Forall_impl; [exact Hi|]. by intros s (? & _ & _ & ?). }
  pose proof (canonical_up (length j) i Hi) as HC.
  assert (walk s2 (replicate (length j) dotdot ++ i) = s1) as HW. { unfold walk. rewrite foldl_app. change (foldl walk1 ?d ?v) with (walk d v). by rewrite E2 at 1; rewrite walk_up, walk_down. }
  destruct (replicate (length j) dotdot ++ i) as [|t0 R] eqn:ER.
  - exists dot. split; [done|]. split; [done|]. exact HW.
  - assert (head t0 <> Some "~"%byte) as Hh.
    { destruct j as [|j0 j]; [|injection ER as <- _; done]. simpl in ER. rewrite E1, Forall_app in Ht. rewrite ER in Ht. by destruct Ht as [_ [? _]%Forall_cons]. }
    destruct (new_normal w t0 R HR HC Hh) as (N1 & N2 & N3). exists (join [slash] (t0 :: R)).
    rewrite decide_False; [|unfold join; rewrite join_loop_app; by apply Forall_cons in HR as [[? _] _]; destruct t0]. split; [done|]. split; [done|]. by rewrite N3.
Qed.

Lemma path_relative_leads_witness : exists r, relativePath nowhere (str "/a/b/c") (str "/a/x/y") = Ok r /\ r = str "../../b/c" /\
  destination [str "a"; str "x"; str "y"] r = [str "a"; str "b"; str "c"].
Proof.
  destruct (path_relative_leads nowhere [str "a"; str "b"; str "c"] [str "a"; str "x"; str "y"]) as (r & E & _ & Hd).
  - repeat constructor; try done; unfold slash; set_solver.
  - repeat constructor; try done; unfold slash; set_solver.
  - repeat constructor; done.
  - exists r. split; [exact E|]. split; [|exact Hd]. vm_compute in E. vm_compute. congruence.
Defined.
