(* ===== verification/Json.v ===== *)
(** * JSON output

    [log/JSON.cc]: the writer, which keeps a stack of separators and of the kinds of
    the open objects and lists, and the [json] methods of the contents of a [Value]
    ([value/]).  The [print_double] parameter is the output of a [double] on a
    stream. *)
From S2P Require Import Prelude Text.
#[local] Set Warnings "-register-all".

(** ** Values

    The contents a [Value] can have in a JSON document.  An ordered map keeps the
    keys in the order in which they were added. *)
Inductive Value (double : Type) : Type :=
| VNil
| VBool (b : bool)
| VNumber (n : Z)
| VDouble (d : double)
| VString (s : text)
| VList (l : list (Value double))
| VOrderedMap (m : list (text * Value double)).
Arguments VNil {double}.
Arguments VBool {double} b.
Arguments VNumber {double} n.
Arguments VDouble {double} d.
Arguments VString {double} s.
Arguments VList {double} l.
Arguments VOrderedMap {double} m.

Section ValueInd.
Context {double : Type} (P : Value double -> Prop).
Hypotheses (Hnil : P VNil) (Hbool : forall b, P (VBool b)) (Hnum : forall n, P (VNumber n))
  (Hdouble : forall d, P (VDouble d)) (Hstr : forall s, P (VString s))
  (Hlist : forall l, Forall P l -> P (VList l))
  (Hmap : forall m, Forall (fun kv => P kv.2) m -> P (VOrderedMap m)).

(** Induction over the nested values. *)
Fixpoint Value_nested_ind (v : Value double) : P v :=
  match v with
  | VNil => Hnil
  | VBool b => Hbool b
  | VNumber n => Hnum n
  | VDouble d => Hdouble d
  | VString s => Hstr s
  | VList l => Hlist l ((fix go l := match l return Forall P l with
                                     | [] => Forall_nil_2 _
                                     | x :: l => Forall_cons_2 _ _ _ (Value_nested_ind x) (go l)
                                     end) l)
  | VOrderedMap m => Hmap m ((fix go m := match m return Forall (fun kv => P kv.2) m with
                                          | [] => Forall_nil_2 _
                                          | x :: m => Forall_cons_2 _ x _ (Value_nested_ind x.2) (go m)
                                          end) m)
  end.
End ValueInd.

(** ** The writer *)

Definition COMPACT : Z := 0.
Definition INDENT_DICT : Z := Z.shiftl 1 1.
Definition INDENT_LIST : Z := Z.shiftl 1 2.

Record Formatting : Type := mkFormatting { flags : Z; indentation : Z }.

Definition compact : Formatting := mkFormatting COMPACT 2.
Definition indent (n : Z) : Formatting := mkFormatting INDENT_DICT n.

Definition check (formatting : Formatting) (flag : Z) : bool :=
  if flag =? COMPACT then flags formatting =? COMPACT else Z.land (flags formatting) flag =? flag.

Definition print_indent (n : Z) : text := "010"%byte :: replicate (Z.to_nat (Z.max 0 n)) " "%byte.

(** The last element of the two stacks comes first. *)
Record JSON : Type := mkJSON {
  out_ : text;
  sep_ : list text;
  state_ : list bool;
  null_ : bool;
  indentation_ : Z;
  formatting_ : Formatting }.

Definition newJSON (null : bool) (formatting : Formatting) : JSON := mkJSON [] [[]] [true] null 0 formatting.

Definition put (t : text) : M JSON unit := modifyM (fun j =>
  mkJSON (out_ j ++ t) (sep_ j) (state_ j) (null_ j) (indentation_ j) (formatting_ j)).
Definition set_null (b : bool) : M JSON unit := modifyM (fun j =>
  mkJSON (out_ j) (sep_ j) (state_ j) b (indentation_ j) (formatting_ j)).
Definition set_sep (l : list text) : M JSON unit := modifyM (fun j =>
  mkJSON (out_ j) l (state_ j) (null_ j) (indentation_ j) (formatting_ j)).

(** [push_back] and [pop_back] on both stacks. *)
Definition push (dict : bool) : M JSON unit := modifyM (fun j =>
  mkJSON (out_ j) ([] :: sep_ j) (dict :: state_ j) (null_ j) (indentation_ j) (formatting_ j)).
Definition pop : M JSON unit :=
  j ← getM;
  match sep_ j, state_ j with
  | _ :: l, _ :: s => putM (mkJSON (out_ j) l s (null_ j) (indentation_ j) (formatting_ j))
  | _, _ => liftM Undef
  end.

(** A new line at the indentation, changed by [n]. *)
Definition new_line (n : Z) : M JSON unit :=
  modifyM (fun j => mkJSON (out_ j) (sep_ j) (state_ j) (null_ j) (indentation_ j + n) (formatting_ j)) ;;
  j ← getM;
  put (print_indent (indentation_ j)).

Definition colon (f : Formatting) : text := if check f COMPACT then [":"%byte] else str " : ".

Definition sep : M JSON unit :=
  set_null false ;;
  j ← getM;
  match sep_ j, state_ j with
  | back :: l, dict :: _ =>
      put back ;;
      (if decide (back = [","%byte]) then
         if check (formatting_ j) INDENT_DICT && dict || check (formatting_ j) INDENT_LIST && negb dict
         then new_line 0 else mret tt
       else mret tt) ;;
      set_sep ((if dict && bool_decide (back <> colon (formatting_ j)) then colon (formatting_ j) else [","%byte]) :: l)
  | _, _ => liftM Undef
  end.

(** [encode], on the characters up to the terminating null. *)
Fixpoint encode_chars (p : text) : text :=
  match p with
  | [] => []
  | c :: p =>
      match c with
      | "000"%byte => []
      | "\"%byte => str "\\" ++ encode_chars p
      | "010"%byte => str "\n" ++ encode_chars p
      | "009"%byte => str "\t" ++ encode_chars p
      | "008"%byte => str "\b" ++ encode_chars p
      | "012"%byte => str "\f" ++ encode_chars p
      | "013"%byte => str "\r" ++ encode_chars p
      | "034"%byte => ["\"%byte; "034"%byte] ++ encode_chars p
      | _ => c :: encode_chars p
      end
  end.
Definition encode (p : text) : text := "034"%byte :: encode_chars p ++ ["034"%byte].

Definition startObject : M JSON unit :=
  set_null false ;; sep ;; push true ;; put (str "{") ;;
  j ← getM;
  if check (formatting_ j) INDENT_DICT then new_line (indentation (formatting_ j)) else mret tt.

Definition startList : M JSON unit :=
  set_null false ;; sep ;; push false ;; put (str "[") ;;
  j ← getM;
  if check (formatting_ j) INDENT_LIST then new_line (indentation (formatting_ j)) else mret tt.

Definition endObject : M JSON unit :=
  pop ;;
  j ← getM;
  (if check (formatting_ j) INDENT_DICT then new_line (- indentation (formatting_ j)) else mret tt) ;;
  put (str "}").

Definition endList : M JSON unit :=
  pop ;;
  j ← getM;
  (if check (formatting_ j) INDENT_LIST then new_line (- indentation (formatting_ j)) else mret tt) ;;
  put (str "]").

(** [null()] and the output operators for scalars. *)
Definition scalar (t : text) : M JSON unit := set_null false ;; sep ;; put t.
Definition null : M JSON unit := scalar (str "null").
Definition put_bool (b : bool) : M JSON unit := scalar (if b then str "true" else str "false").
Definition put_long_long (n : Z) : M JSON unit := scalar (print_long n).
Definition put_string (s : text) : M JSON unit := scalar (encode s).


(** A [char] is written between quotes as it is. *)
Definition put_char (c : byte) : M JSON unit := scalar ["034"%byte; c; "034"%byte].
Definition raw (buffer : text) : M JSON unit := put buffer.

(** The output of a [std::vector], a [std::set] (its elements in order) and a
    [std::map], given the output of an element. *)
Section Containers.
Context {T : Type} (put_T : T -> M JSON unit).

Fixpoint put_elements (v : list T) : M JSON unit :=
  match v with [] => mret tt | x :: v => put_T x ;; put_elements v end.
Definition put_vector (v : list T) : M JSON unit := startList ;; put_elements v ;; endList.

Fixpoint put_entries (m : list (text * T)) : M JSON unit :=
  match m with [] => mret tt | (k, x) :: m => put_string k ;; put_T x ;; put_entries m end.
Definition put_map (m : list (text * T)) : M JSON unit := startObject ;; put_entries m ;; endObject.
End Containers.

(** The destructor. *)
Definition destroy : M JSON unit := j ← getM; if null_ j then put (str "null") else mret tt.

Section Values.
Context {double : Type} (print_double : double -> text).
Abbreviation Value := (Value double).

Definition put_double (d : double) : M JSON unit := scalar (print_double d).

Fixpoint json (v : Value) : M JSON unit :=
  match v with
  | VNil => null
  | VBool b => put_bool b
  | VNumber n => put_long_long n
  | VDouble d => put_double d
  | VString s => put_string s
  | VList l =>
      startList ;;
      (fix go l := match l with [] => mret tt | x :: l => json x ;; go l end) l ;;
      endList
  | VOrderedMap m =>
      startObject ;;
      (fix go m := match m with [] => mret tt | (k, x) :: m => put_string k ;; json x ;; go m end) m ;;
      endObject
  end.

(** A value written by a [JSON] object of its own. *)
Definition to_json (formatting : Formatting) (v : Value) : outcome text * JSON :=
  (json v ;; destroy ;; j ← getM; mret (out_ j)) (newJSON true formatting).

(** ** The text of a value *)

Section Render.
Variable f : Formatting.

Definition line (flag : Z) (ind : Z) : text := if check f flag then print_indent ind else [].
Definition deeper (flag : Z) (ind : Z) : Z := if check f flag then ind + indentation f else ind.

Fixpoint render (ind : Z) (v : Value) : text :=
  match v with
  | VNil => str "null"
  | VBool b => if b then str "true" else str "false"
  | VNumber n => print_long n
  | VDouble d => print_double d
  | VString s => encode s
  | VList l =>
      let ind' := deeper INDENT_LIST ind in
      str "[" ++ line INDENT_LIST ind' ++
      (fix go (first : bool) l := match l with
         | [] => []
         | x :: l => (if first then [] else str "," ++ line INDENT_LIST ind') ++ render ind' x ++ go false l
         end) true l ++
      line INDENT_LIST ind ++ str "]"
  | VOrderedMap m =>
      let ind' := deeper INDENT_DICT ind in
      str "{" ++ line INDENT_DICT ind' ++
      (fix go (first : bool) m := match m with
         | [] => []
         | (k, x) :: m => (if first then [] else str "," ++ line INDENT_DICT ind') ++ encode k ++ colon f ++ render ind' x ++ go false m
         end) true m ++
      line INDENT_DICT ind ++ str "}"
  end.

(** What [sep] writes, and what it leaves to write the next time. *)
Definition sep_text (dict : bool) (back : text) (ind : Z) : text :=
  back ++ (if decide (back = [","%byte]) then line (if dict then INDENT_DICT else INDENT_LIST) ind else []).
Definition next_sep (dict : bool) (back : text) : text :=
  if dict && bool_decide (back <> colon f) then colon f else [","%byte].

Lemma colon_not_comma : colon f <> [","%byte].
Proof. unfold colon. by destruct (check f COMPACT). Qed.
Lemma colon_not_nil : colon f <> [].
Proof. unfold colon. by destruct (check f COMPACT). Qed.

Lemma sep_ok o back ss dict bs nl ind :
  sep (mkJSON o (back :: ss) (dict :: bs) nl ind f) =
  (Ok tt, mkJSON (o ++ sep_text dict back ind) (next_sep dict back :: ss) (dict :: bs) false ind f).
Proof.
  unfold sep, sep_text, next_sep, set_null, put, new_line, set_sep, line. rewrite M_bind_modify, M_bind_get.
  cbn [sep_ state_ formatting_ null_ indentation_ out_]. rewrite M_bind_modify.
  case_decide as Hb; [|rewrite M_bind_ret, app_nil_r; done].
  destruct dict; rewrite ?andb_true_r, ?andb_false_r, ?orb_false_r, ?orb_false_l; simpl;
    (destruct (check f _); [|by rewrite app_nil_r]); unfold mbind, M_bind, modifyM, getM, put; simpl; by rewrite Z.add_0_r, <- app_assoc.
Qed.

Lemma scalar_ok t o back ss dict bs nl ind :
  scalar t (mkJSON o (back :: ss) (dict :: bs) nl ind f) =
  (Ok tt, mkJSON (o ++ sep_text dict back ind ++ t) (next_sep dict back :: ss) (dict :: bs) false ind f).
Proof.
  unfold scalar, set_null. rewrite M_bind_modify. cbn [out_ sep_ state_ indentation_ formatting_].
  rewrite (M_bind_Ok _ _ _ _ _ (sep_ok _ _ _ _ _ _ _)). unfold put, modifyM. simpl. by rewrite app_assoc.
Qed.

(** Opening and closing an object or a list. *)
Definition flag_of (dict : bool) : Z := if dict then INDENT_DICT else INDENT_LIST.

Lemma line_ok flag n o ss bs nl ind :
  (if check f flag then new_line n else mret tt) (mkJSON o ss bs nl ind f) =
  (Ok tt, mkJSON (o ++ line flag (if check f flag then ind + n else ind)) ss bs nl (if check f flag then ind + n else ind) f).
Proof. unfold line. destruct (check f flag); [done|]. by rewrite app_nil_r. Qed.

Lemma start_ok (kind : bool) o back ss dict bs nl ind :
  (if kind then startObject else startList) (mkJSON o (back :: ss) (dict :: bs) nl ind f) =
  (Ok tt, mkJSON (o ++ sep_text dict back ind ++ (if kind then str "{" else str "[") ++ line (flag_of kind) (deeper (flag_of kind) ind))
            ([] :: next_sep dict back :: ss) (kind :: dict :: bs) false (deeper (flag_of kind) ind) f).
Proof.
  unfold startObject, startList, set_null, push, put, deeper.
  destruct kind; rewrite M_bind_modify; cbn [out_ sep_ state_ indentation_ formatting_];
    rewrite (M_bind_Ok _ _ _ _ _ (sep_ok _ _ _ _ _ _ _)), !M_bind_modify, M_bind_get;
    cbn [out_ sep_ state_ indentation_ formatting_ null_]; rewrite line_ok; by rewrite <- !app_assoc.
Qed.

Lemma end_ok (kind : bool) o back ss dict bs nl ind :
  (if kind then endObject else endList) (mkJSON o (back :: ss) (dict :: bs) nl (deeper (flag_of kind) ind) f) =
  (Ok tt, mkJSON (o ++ line (flag_of kind) ind ++ (if kind then str "}" else str "]")) ss bs nl ind f).
Proof.
  assert (E : (if check f (flag_of kind) then deeper (flag_of kind) ind + - indentation f else deeper (flag_of kind) ind) = ind).
  { unfold deeper. destruct (check f (flag_of kind)); lia. }
  unfold endObject, endList, pop, put. destruct kind; unfold mbind at 1, M_bind at 1; simpl.
  all: rewrite M_bind_get; cbn [formatting_]; unfold flag_of in *; erewrite M_bind_Ok by apply line_ok.
  all: rewrite E; unfold modifyM; cbn [out_ sep_ state_ null_ indentation_ formatting_]; by rewrite <- app_assoc.
Qed.

(** The elements of a list and the entries of a map, as [render] and [json] walk them. *)
Definition render_items (ind : Z) : bool -> list Value -> text :=
  fix go first l := match l with
    | [] => []
    | x :: l => (if first then [] else str "," ++ line INDENT_LIST ind) ++ render ind x ++ go false l
    end.
Definition render_entries (ind : Z) : bool -> list (text * Value) -> text :=
  fix go first m := match m with
    | [] => []
    | (k, x) :: m => (if first then [] else str "," ++ line INDENT_DICT ind) ++ encode k ++ colon f ++ render ind x ++ go false m
    end.
Definition json_items : list Value -> M JSON unit :=
  fix go l := match l with [] => mret tt | x :: l => json x ;; go l end.
Definition json_entries : list (text * Value) -> M JSON unit :=
  fix go m := match m with [] => mret tt | (k, x) :: m => put_string k ;; json x ;; go m end.

Definition writes (v : Value) : Prop := forall o back ss dict bs nl ind,
  json v (mkJSON o (back :: ss) (dict :: bs) nl ind f) =
  (Ok tt, mkJSON (o ++ sep_text dict back ind ++ render ind v) (next_sep dict back :: ss) (dict :: bs) false ind f).

Lemma json_items_ok l : Forall writes l -> forall (first : bool) o ss bs ind,
  exists back', json_items l (mkJSON o ((if first then [] else [","%byte]) :: ss) (false :: bs) false ind f) =
  (Ok tt, mkJSON (o ++ render_items ind first l) (back' :: ss) (false :: bs) false ind f).
Proof.
  induction 1 as [|x l Hx _ IH]; intros first o ss bs ind; [eexists; by rewrite app_nil_r|].
  cbn [json_items render_items]. rewrite (M_bind_Ok _ _ _ _ _ (Hx _ _ _ _ _ _ _)).
  change (next_sep false _) with [","%byte].
  destruct (IH false (o ++ sep_text false (if first then [] else [","%byte]) ind ++ render ind x) ss bs ind) as (b & E).
  exists b. rewrite E. rewrite <- !app_assoc. destruct first; done.
Qed.

Lemma json_entries_ok m : Forall (fun kv => writes kv.2) m -> forall (first : bool) o ss bs ind,
  exists back', json_entries m (mkJSON o ((if first then [] else [","%byte]) :: ss) (true :: bs) false ind f) =
  (Ok tt, mkJSON (o ++ render_entries ind first m) (back' :: ss) (true :: bs) false ind f).
Proof.
  induction 1 as [|[k x] m Hx _ IH]; intros first o ss bs ind; [eexists; by rewrite app_nil_r|].
  cbn [json_entries render_entries]. unfold put_string. rewrite (M_bind_Ok _ _ _ _ _ (scalar_ok _ _ _ _ _ _ _ _)).
  assert (E1 : next_sep true (if first then [] else [","%byte]) = colon f).
  { unfold next_sep. rewrite bool_decide_eq_true_2; [done|]. pose proof colon_not_comma. pose proof colon_not_nil. by destruct first. }
  rewrite E1. simpl in Hx. rewrite (M_bind_Ok _ _ _ _ _ (Hx _ _ _ _ _ _ _)).
  assert (E2 : next_sep true (colon f) = [","%byte]) by (unfold next_sep; by rewrite bool_decide_eq_false_2 by tauto).
  assert (E3 : sep_text true (colon f) ind = colon f).
  { unfold sep_text. rewrite decide_False by apply colon_not_comma. apply app_nil_r. }
  rewrite E2, E3. destruct (IH false ((o ++ sep_text true (if first then [] else [","%byte]) ind ++ encode k) ++ colon f ++ render ind x) ss bs ind) as (b & E).
  exists b. rewrite E. rewrite <- !app_assoc. destruct first; done.
Qed.

Lemma json_ok v : writes v.
Proof.
  induction v as [|b|n|d|s|l IH|m IH] using Value_nested_ind; intros o back ss dict bs nl ind; try apply scalar_ok.
  - change (json (VList l)) with (startList ;; json_items l ;; endList). rewrite (M_bind_Ok _ _ _ _ _ (start_ok false _ _ _ _ _ _ _)).
    destruct (json_items_ok l IH true (o ++ sep_text dict back ind ++ str "[" ++ line INDENT_LIST (deeper INDENT_LIST ind))
      (next_sep dict back :: ss) (dict :: bs) (deeper INDENT_LIST ind)) as (b & E).
    simpl flag_of. rewrite (M_bind_Ok _ _ _ _ _ E). rewrite (end_ok false).
    f_equal. f_equal. rewrite <- !app_assoc. done.
  - change (json (VOrderedMap m)) with (startObject ;; json_entries m ;; endObject). rewrite (M_bind_Ok _ _ _ _ _ (start_ok true _ _ _ _ _ _ _)).
    destruct (json_entries_ok m IH true (o ++ sep_text dict back ind ++ str "{" ++ line INDENT_DICT (deeper INDENT_DICT ind))
      (next_sep dict back :: ss) (dict :: bs) (deeper INDENT_DICT ind)) as (b & E).
    simpl flag_of. rewrite (M_bind_Ok _ _ _ _ _ E). rewrite (end_ok true).
    f_equal. f_equal. rewrite <- !app_assoc. done.
Qed.
End Render.

Lemma to_json_render f v : (to_json f v).1 = Ok (render f 0 v).
Proof.
  unfold to_json, newJSON. rewrite (M_bind_Ok _ _ _ _ _ (json_ok f v _ _ _ _ _ _ _)). done.
Qed.
End Values.

Example to_json_compact :
  (to_json (fun d : Z => print_long d) compact
     (VOrderedMap [(str "a", VList [VNumber 1; VBool true; VNil]); (str "b", VString (str "x y")); (str "c", VList [])])).1 =
  Ok (str "{" ++ encode (str "a") ++ str ":[1,true,null]," ++ encode (str "b") ++ str ":" ++ encode (str "x y") ++ str "," ++ encode (str "c") ++ str ":[]}").
Proof. reflexivity. Qed.

(** Vectors and maps are written as the values with the same elements. *)
Lemma put_vector_json {double} (print_double : double -> text) (l : list (Value double)) :
  put_vector (json print_double) l = json print_double (VList l).
Proof. unfold put_vector. cbn [json]. f_equal. Qed.

Example put_char_unescaped :
  (put_char "034"%byte (newJSON true compact)).2.(out_) = ["034"%byte; "034"%byte; "034"%byte].
Proof. reflexivity. Qed.
