(* ===== verification/JsonParser.v ===== *)
(** * JSON input

    [parser/StreamParser.cc] (characters from a [std::istream], white space and
    comments skipped), [parser/ObjectParser.cc] (the grammar) and
    [parser/JSONParser.cc].  A stream is the characters that are left and its
    [eof] bit.  Conversion to [double] and of the digits of a [\u] escape to UTF-8
    are parameters. *)
From S2P Require Import Prelude Text Strings Translator Json.
#[local] Set Warnings "-clear-no-such-hyp".

Record StreamParser : Type := mkSP {
  in_ : text;
  eof_ : bool;
  line_ : Z;
  pos_ : Z;
  comments_ : bool;
  comment_ : list byte;
  yaml_ : bool }.

Implicit Types p : StreamParser.

Definition set_in (l : text) (e : bool) p : StreamParser :=
  mkSP l e (line_ p) (pos_ p) (comments_ p) (comment_ p) (yaml_ p).
Definition set_position (l n : Z) p : StreamParser :=
  mkSP (in_ p) (eof_ p) l n (comments_ p) (comment_ p) (yaml_ p).
Definition set_comments (b : bool) p : StreamParser :=
  mkSP (in_ p) (eof_ p) (line_ p) (pos_ p) b (comment_ p) (yaml_ p).

(** ** The stream *)

(** [in.get(c)] with [c] zero before, and [in.peek()]. *)
Definition stream_get : M StreamParser byte := fun p =>
  match eof_ p, in_ p with
  | false, c :: l => (Ok c, set_in l false p)
  | _, l => (Ok "000"%byte, set_in l true p)
  end.
Definition stream_peek : M StreamParser (option byte) := fun p =>
  match eof_ p, in_ p with
  | false, c :: l => (Ok (Some c), p)
  | _, l => (Ok None, set_in l true p)
  end.

Definition _get : M StreamParser byte :=
  c ← stream_get;
  modifyM (fun p => set_position (line_ p) (pos_ p + 1) p) ;;
  if decide (c = "010"%byte \/ c = "013"%byte) then
    modifyM (fun p => set_position (line_ p + 1) 0 p) ;;
    if decide (c = "013"%byte) then
      n ← stream_peek;
      if decide (n = Some "010"%byte) then stream_get else mret c
    else mret c
  else mret c.

Definition _peek : M StreamParser byte :=
  n ← stream_peek;
  mret (match n with
        | None => "255"%byte
        | Some c => if decide (c = "013"%byte) then "010"%byte else c
        end).

Definition _eof : M StreamParser bool := p ← getM; mret (eof_ p).

Definition is_comment (c : byte) p : bool := comments_ p && bool_decide (c ∈ comment_ p).

Fixpoint skip_comment (fuel : nat) : M StreamParser unit :=
  match fuel with
  | O => liftM NoFuel
  | S f =>
      c ← _peek;
      e ← _eof;
      if decide (c <> "010"%byte /\ e = false) then _ ← _get; skip_comment f else mret tt
  end.

Fixpoint peek_loop (fuel : nat) (spaces : bool) : M StreamParser byte :=
  match fuel with
  | O => liftM NoFuel
  | S f =>
      c ← _peek;
      e ← _eof;
      if (e : bool) then mret "000"%byte
      else
        p ← getM;
        if is_comment c p then
          skip_comment (S (length (in_ p))) ;;
          e ← _eof;
          if (e : bool) then mret "000"%byte else peek_loop f spaces
        else if spaces || negb (isspace c) then mret c
        else _ ← _get; peek_loop f spaces
  end.
Definition peek (spaces : bool) : M StreamParser byte := p ← getM; peek_loop (S (length (in_ p))) spaces.

Fixpoint next_loop (fuel : nat) (spaces : bool) : M StreamParser byte :=
  match fuel with
  | O => liftM NoFuel
  | S f =>
      c ← _get;
      e ← _eof;
      if (e : bool) then throwM ParserError
      else
        p ← getM;
        if is_comment c p then
          skip_comment (S (length (in_ p))) ;;
          e ← _eof;
          if (e : bool) then throwM ParserError else next_loop f spaces
        else if spaces || negb (isspace c) then mret c
        else next_loop f spaces
  end.
Definition next (spaces : bool) : M StreamParser byte := p ← getM; next_loop (S (length (in_ p))) spaces.

Definition consume (c : byte) : M StreamParser unit :=
  n ← next false; if decide (c = n) then mret tt else throwM ParserError.

Fixpoint consume_all (l : text) : M StreamParser unit :=
  match l with [] => mret tt | c :: l => consume c ;; consume_all l end.

(** ** The grammar *)

Section Parser.
Context {double : Type}.
(** [Translator<std::string, double>], the build option for Unicode, and the UTF-8
    text of a code given by its hexadecimal digits. *)
Variables (string_to_double : text -> outcome double) (HAVE_UNICODE : bool) (utf8 : text -> outcome text).
Abbreviation Value := (Value double).
Abbreviation quote := "034"%byte.

Definition parseTrue : M StreamParser Value := consume_all (str "true") ;; mret (VBool true).
Definition parseFalse : M StreamParser Value := consume_all (str "false") ;; mret (VBool false).
Definition parseNull : M StreamParser Value := consume_all (str "null") ;; mret VNil.

(** [while (isdigit(peek())) s += next()] *)
Fixpoint digits (fuel : nat) (s : text) : M StreamParser text :=
  match fuel with
  | O => liftM NoFuel
  | S f =>
      c ← peek false;
      if isdigit c then c ← next false; digits f (s ++ [c]) else mret s
  end.
Definition more_digits (s : text) : M StreamParser text := p ← getM; digits (S (length (in_ p))) s.

Definition integer_part (s : text) (c : byte) : M StreamParser text :=
  if decide (c = "0"%byte) then mret (s ++ [c])
  else if isdigit c then more_digits (s ++ [c])
  else throwM ParserError.

(** A digit and the digits that follow. *)
Definition some_digits (s : text) (c : byte) : M StreamParser text :=
  if isdigit c then more_digits (s ++ [c]) else throwM ParserError.

Definition fraction (s : text) : M StreamParser (bool * text) :=
  c ← peek false;
  if decide (c = "."%byte) then
    c ← next false;
    d ← next false;
    s ← some_digits (s ++ [c]) d;
    mret (true, s)
  else mret (false, s).

Definition exponent (s : text) : M StreamParser (bool * text) :=
  c ← peek false;
  if decide (c = "e"%byte \/ c = "E"%byte) then
    e ← next false;
    c ← next false;
    '(s, c) ← (if decide (c = "-"%byte \/ c = "+"%byte) then d ← next false; mret (s ++ [e; c], d) else mret (s ++ [e], c));
    s ← some_digits s c;
    mret (true, s)
  else mret (false, s).

Definition parseNumber : M StreamParser Value :=
  c ← next false;
  '(s, c) ← (if decide (c = "-"%byte) then d ← next false; mret ([c], d) else mret ([], c));
  s ← integer_part s c;
  '(real1, s) ← fraction s;
  '(real2, s) ← exponent s;
  if real1 || real2 then d ← liftM (string_to_double s); mret (VDouble d)
  else mret (VNumber (string_to_long_long s)).

Definition is_hex (c : byte) : bool :=
  isdigit c || (97 <=? byte.unsigned c) && (byte.unsigned c <=? 102) || (65 <=? byte.unsigned c) && (byte.unsigned c <=? 70).

Fixpoint hex_digits (fuel : nat) (tmp : text) : M StreamParser text :=
  match fuel with
  | O => liftM NoFuel
  | S f =>
      c ← peek false;
      if is_hex c then consume c ;; hex_digits f (tmp ++ [c]) else mret tmp
  end.
Definition unicode : M StreamParser text :=
  p ← getM; tmp ← hex_digits (S (length (in_ p))) []; liftM (utf8 tmp).

Definition escape (q : byte) (save : bool) (c : byte) : M StreamParser text :=
  match c with
  | "\"%byte => mret ["\"%byte]
  | "/"%byte => mret ["/"%byte]
  | "b"%byte => mret ["008"%byte]
  | "f"%byte => mret ["012"%byte]
  | "n"%byte => mret ["010"%byte]
  | "r"%byte => mret ["013"%byte]
  | "t"%byte => mret ["009"%byte]
  | _ =>
      if decide (HAVE_UNICODE = true /\ c = "u"%byte) then unicode
      else if decide (c = q) then mret [c]
      else modifyM (set_comments save) ;; throwM ParserError
  end.

Fixpoint string_loop (fuel : nat) (q : byte) (save : bool) (s : text) : M StreamParser text :=
  match fuel with
  | O => liftM NoFuel
  | S f =>
      c ← next true;
      if decide (c = "\"%byte) then
        c ← next true;
        e ← escape q save c;
        string_loop f q save (s ++ e)
      else if decide (c = q) then
        p ← getM;
        more ← (if decide (yaml_ p = true /\ q = "'"%byte) then n ← peek false; mret (bool_decide (n = "'"%byte)) else mret false);
        if (more : bool) then consume "'"%byte ;; string_loop f q save (s ++ [c])
        else modifyM (set_comments save) ;; mret s
      else string_loop f q save (s ++ [c])
  end.

Definition parseString (q : byte) : M StreamParser text :=
  p ← getM;
  let save := comments_ p in
  modifyM (set_comments false) ;;
  consume q ;;
  p ← getM;
  string_loop (S (length (in_ p))) q save [].

(** [set_]: a new key goes to the end, an old one gets the new value. *)
Fixpoint set_ (m : list (text * Value)) (k : text) (v : Value) : list (text * Value) :=
  match m with
  | [] => [(k, v)]
  | (k', v') :: m => if decide (k' = k) then (k', v) :: m else (k', v') :: set_ m k v
  end.

Section Compound.
Variable parseValue : M StreamParser Value.

Definition parseKeyValue (m : list (text * Value)) : M StreamParser (list (text * Value)) :=
  k ← parseString quote;
  consume ":"%byte ;;
  v ← parseValue;
  mret (set_ m k v).

Fixpoint object_loop (fuel : nat) (m : list (text * Value)) : M StreamParser Value :=
  match fuel with
  | O => liftM NoFuel
  | S f =>
      m ← parseKeyValue m;
      c ← peek false;
      if decide (c = "}"%byte) then consume c ;; mret (VOrderedMap m)
      else consume ","%byte ;; object_loop f m
  end.

Definition parseObject : M StreamParser Value :=
  consume "{"%byte ;;
  c ← peek false;
  if decide (c = "}"%byte) then consume c ;; mret (VOrderedMap [])
  else p ← getM; object_loop (S (length (in_ p))) [].

Fixpoint array_loop (fuel : nat) (l : list Value) : M StreamParser Value :=
  match fuel with
  | O => liftM NoFuel
  | S f =>
      v ← parseValue;
      let l := l ++ [v] in
      c ← peek false;
      if decide (c = "]"%byte) then consume c ;; mret (VList l)
      else consume ","%byte ;; array_loop f l
  end.

Definition parseArray : M StreamParser Value :=
  consume "["%byte ;;
  c ← peek false;
  if decide (c = "]"%byte) then consume c ;; mret (VList [])
  else p ← getM; array_loop (S (length (in_ p))) [].

Definition parseJSON : M StreamParser Value :=
  c ← peek false;
  match c with
  | "t"%byte => parseTrue
  | "f"%byte => parseFalse
  | "n"%byte => parseNull
  | "{"%byte => parseObject
  | "["%byte => parseArray
  | "034"%byte => s ← parseString quote; mret (VString s)
  | "-"%byte => parseNumber
  | _ => if isdigit c then parseNumber else throwM ParserError
  end.
End Compound.

(** [JSONParser::parseValue] is [parseJSON]; the fuel bounds the nesting. *)
Fixpoint parseValue (fuel : nat) : M StreamParser Value :=
  match fuel with O => liftM NoFuel | S f => parseJSON (parseValue f) end.

Definition parse (fuel : nat) : M StreamParser Value :=
  v ← parseValue fuel;
  c ← peek false;
  if decide (c = "000"%byte) then mret v else throwM ParserError.

Definition newJSONParser (s : text) : StreamParser := mkSP s false 0 0 false [ "#"%byte ] false.

Definition decodeString (s : text) : outcome Value := (parse (S (length s)) (newJSONParser s)).1.
End Parser.

Example decode_sample :
  decodeString (fun _ => Ok 0) true (fun _ => Ok [])
    (str " [1, -20 ,true , null,{ " ++ encode (str "a") ++ str " : " ++ encode (str "x") ++ str "," ++ encode (str "a") ++ str ":[] }] ") =
  Ok (VList [VNumber 1; VNumber (-20); VBool true; VNil; VOrderedMap [(str "a", VList [])]]).
Proof. vm_compute. reflexivity. Qed.

(** White space between the digits of a number is skipped. *)
Example decode_space_in_number :
  decodeString (fun _ => Ok 0) true (fun _ => Ok []) (str "[1 2, - 3]") = Ok (VList [VNumber 12; VNumber (-3)]).
Proof. vm_compute. reflexivity. Qed.

(** ** Termination

    [runs n k m]: on fewer than [n] characters, and without comments, [m] does not
    run out of fuel, and takes at least [k] characters when it returns. *)
Definition runs {A} (n k : nat) (m : M StreamParser A) : Prop := forall p,
  comments_ p = false -> (length (in_ p) < n)%nat ->
  match m p with
  | (Ok _, p') => comments_ p' = false /\ (length (in_ p') + k <= length (in_ p))%nat
  | (NoFuel, _) => False
  | _ => True
  end.

Lemma runs_bind {A B} n k k' (m : M StreamParser A) (f : A -> M StreamParser B) :
  runs n k m -> (forall a, runs (n - k) k' (f a)) -> runs n (k + k') (m ≫= f).
Proof.
  intros Hm Hf p Hc Hl. specialize (Hm p Hc Hl). unfold mbind, M_bind. destruct (m p) as [[a|e| |] p']; try done.
  destruct Hm as [Hc' Hl']. specialize (Hf a p' Hc' ltac:(lia)). destruct (f a p') as [[b|e| |] p'']; try done.
  destruct Hf. split; [done|lia].
Qed.

Lemma runs_weaken {A} n k n' k' (m : M StreamParser A) : runs n k m -> (n' <= n)%nat -> (k' <= k)%nat -> runs n' k' m.
Proof.
  intros Hm Hn Hk p Hc Hl. specialize (Hm p Hc ltac:(lia)). destruct (m p) as [[a|e| |] p']; try done. destruct Hm. split; [done|lia].
Qed.

Lemma runs_ret {A} n (a : A) : runs n 0 (mret a).
Proof. intros p Hc _. simpl. split; [done|lia]. Qed.
Lemma runs_throw {A} n k e : runs (A := A) n k (throwM e).
Proof. done. Qed.
Lemma runs_lift {A} n (o : outcome A) : o <> NoFuel -> runs n 0 (liftM o).
Proof. intros Ho p Hc _. simpl. destruct o; try done. split; [done|lia]. Qed.
Lemma runs_if {A} n k (b : bool) (m1 m2 : M StreamParser A) : runs n k m1 -> runs n k m2 -> runs n k (if b then m1 else m2).
Proof. by destruct b. Qed.
Lemma runs_decide {A} n k P `{Decision P} (m1 m2 : M StreamParser A) : runs n k m1 -> runs n k m2 -> runs n k (if decide P then m1 else m2).
Proof. by destruct (decide P). Qed.

(** A loop whose fuel exceeds the characters that are left when it starts. *)
Lemma runs_fuel {A} n k (m : nat -> M StreamParser A) :
  (forall fuel, runs fuel k (m fuel)) -> runs n k (p ← getM; m (S (length (in_ p)))).
Proof. intros Hm p Hc Hl. rewrite M_bind_get. apply (Hm (S (length (in_ p))) p Hc). lia. Qed.

(** What [_get] and [_peek] do to the input. *)
Lemma get_length p : (_get p).1 <> NoFuel /\ comments_ (_get p).2 = comments_ p /\
  (length (in_ (_get p).2) <= length (in_ p))%nat /\
  (eof_ p = false -> in_ p <> [] -> length (in_ (_get p).2) < length (in_ p))%nat /\
  (eof_ p = true \/ in_ p = [] -> eof_ (_get p).2 = true).
Proof.
  unfold _get, stream_get, stream_peek, mbind, M_bind, modifyM, mret, M_ret. destruct p as [l e ln ps c cm y]. simpl.
  destruct e, l as [|x l]; simpl; repeat case_decide; simpl; split_and!; try done; try lia; try naive_solver.
  all: destruct l as [|z l]; simpl; repeat case_decide; simpl; try done; try lia; naive_solver lia.
Qed.

Lemma peek_length p : exists c, _peek p = (Ok c, set_in (in_ p) (eof_ p || bool_decide (in_ p = [])) p).
Proof.
  unfold _peek, stream_peek, mbind, M_bind, mret, M_ret. destruct p as [[|x l] [] ln ps c cm y]; simpl; by eexists.
Qed.

Lemma next_loop_runs fuel b : runs fuel 1 (next_loop fuel b).
Proof.
  induction fuel as [|fuel IH]; intros p Hc Hl; [lia|]. cbn [next_loop].
  destruct (get_length p) as (Hn & Hc' & _ & Hlen & Heof). unfold mbind at 1, M_bind at 1.
  destruct (_get p) as [[c|e| |] p']; try done. simpl in Hc', Hlen, Heof. unfold _eof. unfold mbind at 1, M_bind at 1. rewrite M_bind_get.
  unfold mret, M_ret. destruct (eof_ p') eqn:Ee; [done|].
  assert (Hlen' : (length (in_ p') < length (in_ p))%nat).
  { apply Hlen; [destruct (eof_ p); naive_solver|naive_solver]. }
  rewrite M_bind_get. unfold is_comment. rewrite Hc', Hc. simpl. destruct (b || negb (isspace c)); [split; [congruence|lia]|].
  specialize (IH p' ltac:(congruence) ltac:(lia)). destruct (next_loop fuel b p') as [[d|e| |] p'']; try done.
  destruct IH. split; [done|lia].
Qed.

Lemma next_runs n b : runs n 1 (next b).
Proof. unfold next. apply (runs_fuel n 1 (fun fuel => next_loop fuel b)). intros. apply next_loop_runs. Qed.

Lemma peek_loop_runs fuel b : runs fuel 0 (peek_loop fuel b).
Proof.
  induction fuel as [|fuel IH]; intros p Hc Hl; [lia|]. cbn [peek_loop]. destruct (peek_length p) as [c E].
  rewrite (M_bind_Ok _ _ _ _ _ E). unfold _eof. unfold mbind at 1, M_bind at 1. rewrite M_bind_get. unfold mret at 1, M_ret at 1.
  set (p1 := set_in _ _ p) in *. destruct (eof_ p1) eqn:Ee; [simpl; split; [done|lia]|]. rewrite M_bind_get.
  unfold is_comment. change (comments_ p1) with (comments_ p). rewrite Hc. simpl.
  destruct (b || negb (isspace c)); [simpl; split; [done|lia]|].
  destruct (get_length p1) as (Hn & Hc' & _ & Hlen & _). unfold mbind, M_bind. destruct (_get p1) as [[d|e| |] p2]; try done.
  simpl in Hc', Hlen, Ee. apply orb_false_iff in Ee as [Ee Ei]. apply bool_decide_eq_false in Ei.
  rewrite Ee, bool_decide_eq_false_2 in Hlen by done. specialize (Hlen eq_refl Ei).
  specialize (IH p2 ltac:(congruence) ltac:(lia)). destruct (peek_loop fuel b p2) as [[x|e| |] p3]; try done. destruct IH. split; [done|lia].
Qed.

Lemma peek_runs n b : runs n 0 (peek b).
Proof. unfold peek. apply (runs_fuel n 0 (fun fuel => peek_loop fuel b)). intros. apply peek_loop_runs. Qed.

Lemma runs_first {A B} n k (m : M StreamParser A) (f : A -> M StreamParser B) :
  runs n k m -> (forall a, runs n 0 (f a)) -> runs n k (m ≫= f).
Proof.
  intros Hm Hf. rewrite <- (Nat.add_0_r k). apply runs_bind; [done|]. intros a. eapply runs_weaken; [apply Hf|lia|lia].
Qed.
Lemma runs_0 {A} n k (m : M StreamParser A) : runs n k m -> runs n 0 m.
Proof. intros. eapply runs_weaken; [done|lia|lia]. Qed.

Lemma consume_runs n c : runs n 1 (consume c).
Proof. apply runs_first; [apply next_runs|]. intros a. apply runs_decide; [apply runs_ret|apply runs_throw]. Qed.

(** Straight-line code that begins with a call that takes a character. *)
Ltac runs_go :=
  repeat first
    [ apply runs_ret | apply runs_throw | apply runs_lift | apply next_runs | apply consume_runs | apply peek_runs | assumption
    | apply runs_if | apply runs_decide
    | match goal with |- runs _ 0 (next _) => eapply runs_0, next_runs
                    | |- runs _ 0 (consume _) => eapply runs_0, consume_runs
                    | |- runs _ _ (match ?x with _ => _ end) => destruct x
                    | |- runs _ _ (_ ≫= _) => apply runs_first; [|intros ?] end ].

Lemma consume_all_runs n c l : runs n 1 (consume_all (c :: l)).
Proof. apply runs_first; [apply consume_runs|]. intros _. induction l as [|x l IH]; cbn [consume_all]; runs_go. Qed.

Section ParserRuns.
Context {double : Type} (string_to_double : text -> outcome double) (HAVE_UNICODE : bool) (utf8 : text -> outcome text).
Hypothesis double_fuel : forall s, string_to_double s <> NoFuel.
Hypothesis utf8_fuel : forall s, utf8 s <> NoFuel.
#[local] Set Default Proof Using "Type*".

Lemma digits_runs fuel : forall s, runs fuel 0 (digits fuel s).
Proof.
  induction fuel as [|fuel IH]; intros s; [intros p _ ?; lia|]. cbn [digits]. apply runs_first; [apply peek_runs|]. intros c.
  apply runs_if; [|apply runs_ret]. eapply runs_0, (runs_bind _ 1 0); [apply next_runs|]. intros d. rewrite Nat.sub_succ, Nat.sub_0_r. apply IH.
Qed.

Lemma more_digits_runs n s : runs n 0 (more_digits s).
Proof. unfold more_digits. apply (runs_fuel n 0 (fun fuel => digits fuel s)). intros. apply digits_runs. Qed.

Lemma parseNumber_runs n : runs n 1 (parseNumber string_to_double).
Proof.
  unfold parseNumber, integer_part, fraction, exponent, some_digits.
  runs_go; apply more_digits_runs || apply double_fuel.
Qed.

Lemma hex_digits_runs fuel : forall s, runs fuel 0 (hex_digits fuel s).
Proof.
  induction fuel as [|fuel IH]; intros s; [intros p _ ?; lia|]. cbn [hex_digits]. apply runs_first; [apply peek_runs|]. intros c.
  apply runs_if; [|apply runs_ret]. eapply runs_0, (runs_bind _ 1 0); [apply consume_runs|]. intros d.
  rewrite Nat.sub_succ, Nat.sub_0_r. apply IH.
Qed.

Lemma unicode_runs n : runs n 0 (unicode utf8).
Proof.
  unfold unicode. apply (runs_fuel n 0 (fun fuel => tmp ← hex_digits fuel []; liftM (utf8 tmp))). intros fuel.
  apply runs_first; [apply hex_digits_runs|]. intros tmp. apply runs_lift, utf8_fuel.
Qed.

Lemma escape_runs n q b c : runs n 0 (escape HAVE_UNICODE utf8 q b c).
Proof. unfold escape. destruct c; try apply runs_ret; repeat apply runs_decide; apply runs_ret || apply unicode_runs || done. Qed.

Lemma restore_runs n (s : text) : runs n 0 (modifyM (set_comments false) ;; mret s).
Proof. intros p Hc Hl. rewrite M_bind_modify. simpl. split; [done|lia]. Qed.

Lemma string_loop_runs fuel q : forall s, runs fuel 1 (string_loop HAVE_UNICODE utf8 fuel q false s).
Proof.
  induction fuel as [|fuel IH]; intros s; [intros p _ ?; lia|]. cbn [string_loop].
  assert (IH0 : forall t, runs fuel 0 (string_loop HAVE_UNICODE utf8 fuel q false t)) by (intros; eapply runs_0, IH).
  apply (runs_bind _ 1 0); [apply next_runs|]. intros c. rewrite Nat.sub_succ, Nat.sub_0_r.
  apply runs_decide; [|apply runs_decide; [|apply IH0]].
  - apply runs_first; [eapply runs_0, next_runs|]. intros d. apply runs_first; [apply escape_runs|]. intros e. apply IH0.
  - intros p Hc Hl. rewrite M_bind_get. revert p Hc Hl.
    assert (Hm : forall y : bool, runs fuel 0
      (more ← (if y then n ← peek false; mret (bool_decide (n = "'"%byte)) else mret false);
       if (more : bool) then consume "'"%byte ;; string_loop HAVE_UNICODE utf8 fuel q false (s ++ [c])
       else modifyM (set_comments false) ;; mret s)).
    { intros y. apply runs_first; [runs_go|]. intros [|]; [|apply restore_runs]. apply runs_first; [eapply runs_0, consume_runs|]. intros _. apply IH0. }
    intros p Hc Hl. case_decide; [apply (Hm true p Hc Hl)|apply (Hm false p Hc Hl)].
Qed.

Lemma parseString_runs n q : runs n 1 (parseString HAVE_UNICODE utf8 q).
Proof.
  intros p Hc Hl. unfold parseString. rewrite M_bind_get, M_bind_modify, Hc. set (p1 := set_comments false p).
  refine (runs_first n 1 _ _ (consume_runs n q) _ p1 eq_refl Hl). intros _.
  apply (runs_fuel n 0 (fun fuel => string_loop HAVE_UNICODE utf8 fuel q false [])). intros. eapply runs_0, string_loop_runs.
Qed.

Section CompoundRuns.
Variables (n : nat) (parseValue : M StreamParser (Value double)).
Hypothesis value_runs : runs n 1 parseValue.

Lemma parseKeyValue_runs m : runs n 1 (parseKeyValue HAVE_UNICODE utf8 parseValue m).
Proof.
  unfold parseKeyValue. apply runs_first; [apply parseString_runs|]. intros k. apply runs_first; [eapply runs_0, consume_runs|]. intros _.
  apply runs_first; [by eapply runs_0|]. intros v. apply runs_ret.
Qed.

Lemma object_loop_runs fuel : forall m, (fuel <= n)%nat -> runs fuel 1 (object_loop HAVE_UNICODE utf8 parseValue fuel m).
Proof.
  induction fuel as [|fuel IH]; intros m Hn; [intros p _ ?; lia|]. cbn [object_loop].
  apply (runs_bind _ 1 0); [eapply runs_weaken; [apply parseKeyValue_runs|lia|lia]|]. intros m'. rewrite Nat.sub_succ, Nat.sub_0_r.
  apply runs_first; [apply peek_runs|]. intros c. apply runs_decide; (apply runs_first; [eapply runs_0, consume_runs|]); intros _.
  - apply runs_ret.
  - eapply runs_0, IH. lia.
Qed.

Lemma array_loop_runs fuel : forall l, (fuel <= n)%nat -> runs fuel 1 (array_loop parseValue fuel l).
Proof.
  induction fuel as [|fuel IH]; intros l Hn; [intros p _ ?; lia|]. cbn [array_loop].
  apply (runs_bind _ 1 0); [eapply runs_weaken; [apply value_runs|lia|lia]|]. intros v. rewrite Nat.sub_succ, Nat.sub_0_r.
  apply runs_first; [apply peek_runs|]. intros c. apply runs_decide; (apply runs_first; [eapply runs_0, consume_runs|]); intros _.
  - apply runs_ret.
  - eapply runs_0, IH. lia.
Qed.

(** A loop started with less than the fuel of the values. *)
Lemma loop_runs {A} k (m : nat -> M StreamParser A) :
  (forall fuel, (fuel <= n)%nat -> runs fuel k (m fuel)) -> runs n k (p ← getM; m (S (length (in_ p)))).
Proof. intros Hm p Hc Hl. rewrite M_bind_get. apply (Hm (S (length (in_ p))) ltac:(lia) p Hc). lia. Qed.

(** Values inside an object or a list are parsed after its first character. *)
Lemma parseJSON_runs : runs (S n) 1 (parseJSON string_to_double HAVE_UNICODE utf8 parseValue).
Proof.
  assert (Ho : runs (S n) 1 (parseObject HAVE_UNICODE utf8 parseValue)).
  { unfold parseObject. apply (runs_bind (S n) 1 0); [apply consume_runs|]. intros _. rewrite Nat.sub_succ, Nat.sub_0_r.
    apply runs_first; [apply peek_runs|]. intros c. apply runs_decide.
    - apply runs_first; [eapply runs_0, consume_runs|]. intros _. apply runs_ret.
    - eapply runs_0, (loop_runs 1 (fun fuel => object_loop HAVE_UNICODE utf8 parseValue fuel [])). intros. by apply object_loop_runs. }
  assert (Ha : runs (S n) 1 (parseArray parseValue)).
  { unfold parseArray. apply (runs_bind (S n) 1 0); [apply consume_runs|]. intros _. rewrite Nat.sub_succ, Nat.sub_0_r.
    apply runs_first; [apply peek_runs|]. intros c. apply runs_decide.
    - apply runs_first; [eapply runs_0, consume_runs|]. intros _. apply runs_ret.
    - eapply runs_0, (loop_runs 1 (fun fuel => array_loop parseValue fuel [])). intros. by apply array_loop_runs. }
  unfold parseJSON. change 1%nat with (0 + 1)%nat. apply (runs_bind (S n) 0 1); [apply peek_runs|]. intros c. rewrite Nat.sub_0_r.
  assert (Hs : runs (S n) 1 (s ← parseString HAVE_UNICODE utf8 "034"%byte; mret (VString (double := double) s))).
  { apply runs_first; [apply parseString_runs|]. intros s. apply runs_ret. }
  assert (Ht : forall x l (v : Value double), runs (S n) 1 (consume_all (x :: l) ;; mret v)).
  { intros x l v. apply runs_first; [apply consume_all_runs|]. intros _. apply runs_ret. }
  pose proof (parseNumber_runs (S n)) as Hn.
  destruct c; first [apply Ht|assumption|apply runs_if; [assumption|apply runs_throw]].
Qed.
End CompoundRuns.

Lemma parseValue_runs fuel : runs fuel 1 (parseValue string_to_double HAVE_UNICODE utf8 fuel).
Proof. induction fuel as [|fuel IH]; [intros p _ ?; lia|]. cbn [parseValue]. by apply parseJSON_runs. Qed.

Lemma decode_total s : decodeString string_to_double HAVE_UNICODE utf8 s <> NoFuel.
Proof.
  assert (H : runs (S (length s)) 1 (parse string_to_double HAVE_UNICODE utf8 (S (length s)))).
  { apply runs_first; [by apply parseValue_runs|]. intros v. apply runs_first; [apply peek_runs|]. intros c. apply runs_decide; [apply runs_ret|apply runs_throw]. }
  specialize (H (newJSONParser s) eq_refl ltac:(simpl; lia)). unfold decodeString. by destruct (parse _ _ _ _ _) as [[a|e| |] p'].
Qed.

(** C27. Parsing terminates: on any text, [JSONParser::decodeString] returns a value or
    throws, as every loop and every nested value takes a character of the input. *)
Theorem json_parse_terminates (s : text) : decodeString string_to_double HAVE_UNICODE utf8 s <> NoFuel.
Proof. apply decode_total. Qed.
End ParserRuns.

Lemma json_parse_terminates_witness :
  decodeString (fun _ => Ok 0) true (fun _ => Ok []) (str "[[[[{") <> NoFuel.
Proof. by apply (json_parse_terminates (fun _ => Ok 0) true (fun _ => Ok [])). Defined.
