(* ===== verification/JsonRoundtrip.v ===== *)
(** * JSON: what the writer writes is read back

    The parser of [JsonParser.v] on the text of [Json.v]: each routine of the grammar
    on the text of the value it parses, whatever white space the formatting puts
    between the parts. *)
From S2P Require Import Prelude Text Strings Translator Json JsonParser.
#[local] Set Warnings "-clear-no-such-hyp".

Implicit Types p : StreamParser.

(** ** Parsing what the writer writes

    [gives Q m p]: [m] returns a value and a state that satisfy [Q], unless it runs
    out of fuel. *)
Definition gives {A} (Q : A -> StreamParser -> Prop) (m : M StreamParser A) p : Prop :=
  match m p with (Ok a, p') => Q a p' | (NoFuel, _) => True | _ => False end.

Lemma gives_bind {A B} Q (m : M StreamParser A) (f : A -> M StreamParser B) p :
  gives (fun a p' => gives Q (f a) p') m p -> gives Q (m ≫= f) p.
Proof. unfold gives, mbind, M_bind. by destruct (m p) as [[a|e| |] p']. Qed.

Lemma gives_ret {A} Q (a : A) p : Q a p -> gives Q (mret a) p.
Proof. done. Qed.

Lemma gives_mono {A} (Q Q' : A -> StreamParser -> Prop) m p :
  gives Q m p -> (forall a p', Q a p' -> Q' a p') -> gives Q' m p.
Proof. unfold gives. intros Hm HQ. destruct (m p) as [[a|e| |] p']; try done. by apply HQ. Qed.

(** A call whose result is known, followed by the rest. *)
Lemma gives_then {A B} Q Q' (m : M StreamParser A) (f : A -> M StreamParser B) p :
  gives Q' m p -> (forall a p', Q' a p' -> gives Q (f a) p') -> gives Q (m ≫= f) p.
Proof. intros Hm Hf. apply gives_bind. by eapply gives_mono. Qed.

Lemma gives_get {B} Q (f : StreamParser -> M StreamParser B) p : gives Q (f p) p -> gives Q (getM ≫= f) p.
Proof. done. Qed.

Lemma gives_modify {B} Q (g : StreamParser -> StreamParser) (f : unit -> M StreamParser B) p : gives Q (f tt) (g p) -> gives Q (modifyM g ≫= f) p.
Proof. done. Qed.

Definition white (w : text) : Prop := Forall (fun c => isspace c = true /\ c <> "013"%byte) w.

Lemma white_nil : white [].
Proof. constructor. Qed.
#[local] Hint Resolve white_nil : core.

(** The input is exactly [r]; or [r] without some of the white space it starts with. *)
Definition exact (r : text) p : Prop := in_ p = r /\ eof_ p = false /\ comments_ p = false.
Definition rem (r : text) p : Prop :=
  exists w, white w /\ r = w ++ in_ p /\ comments_ p = false /\ (eof_ p = true -> in_ p = []).

Lemma exact_rem r p : exact r p -> rem r p.
Proof. intros (E & He & Hc). exists []. split_and!; [constructor|done|done|congruence]. Qed.

(** At the next character that is not white space. *)
Lemma rem_char w c r p : white w -> isspace c = false -> rem (w ++ c :: r) p ->
  exists w', white w' /\ exact (w' ++ c :: r) p.
Proof.
  intros Hw Hc (w0 & Hw0 & E & Hcm & He).
  assert (Hin : exists w', white w' /\ in_ p = w' ++ c :: r).
  { clear He Hcm. revert w Hw E. induction Hw0 as [|x w0 [Hx _] Hw0 IH]; intros w Hw E; [by exists w|].
    destruct Hw as [|y w Hy Hw]; simplify_eq/=; [congruence|]. by apply (IH w). }
  destruct Hin as (w' & Hw' & Ein). exists w'. split; [done|]. split_and!; [done| |done].
  destruct (eof_ p); [|done]. specialize (He eq_refl). rewrite He in Ein. by destruct w'.
Qed.

Lemma rem_white w r p : white w -> rem r p -> rem (w ++ r) p.
Proof. intros Hw (w0 & Hw0 & -> & ? & ?). exists (w ++ w0). split_and!; try done; [by apply Forall_app|by rewrite app_assoc]. Qed.

Lemma get_exact c r p : exact (c :: r) p -> c <> "013"%byte -> exists p', _get p = (Ok c, p') /\ exact r p'.
Proof.
  intros (E & He & Hc) Hne. unfold _get, stream_get, mbind, M_bind, modifyM. rewrite E, He.
  destruct (decide (c = "010"%byte \/ c = "013"%byte)); [rewrite decide_False by done|]; eexists; split; done.
Qed.

Lemma next_loop_gives fuel w c r (spaces : bool) p :
  exact (w ++ c :: r) p -> white w -> c <> "013"%byte -> (if spaces then w = [] else isspace c = false) ->
  gives (fun a p' => a = c /\ exact r p') (next_loop fuel spaces) p.
Proof.
  revert w p. induction fuel as [|fuel IH]; intros w p Hp Hw Hne Hs; [done|]. cbn [next_loop].
  destruct w as [|x w].
  - destruct (get_exact c r p Hp Hne) as (p1 & E & Hp1). apply gives_bind. unfold gives at 1. rewrite E.
    destruct Hp1 as (Hi & He & Hcm). apply gives_bind. unfold gives at 1. simpl. rewrite He. apply gives_get.
    unfold is_comment. rewrite Hcm. simpl. destruct spaces; [done|]. by rewrite Hs.
  - destruct spaces; [done|]. apply Forall_cons in Hw as [[Hx Hx'] Hw].
    destruct (get_exact x (w ++ c :: r) p Hp Hx') as (p1 & E & Hp1). apply gives_bind. unfold gives at 1. rewrite E.
    pose proof Hp1 as (Hi & He & Hcm). apply gives_bind. unfold gives at 1. simpl. rewrite He. apply gives_get.
    unfold is_comment. rewrite Hcm, Hx. simpl. by apply (IH w).
Qed.

Lemma next_gives w c r p :
  rem (w ++ c :: r) p -> white w -> isspace c = false -> gives (fun a p' => a = c /\ exact r p') (next false) p.
Proof.
  intros Hp Hw Hc. destruct (rem_char w c r p Hw Hc Hp) as (w' & Hw' & Hp'). apply gives_get.
  apply (next_loop_gives _ w'); try done. intros ->. done.
Qed.

Lemma next_raw c r p : exact (c :: r) p -> c <> "013"%byte -> gives (fun a p' => a = c /\ exact r p') (next true) p.
Proof. intros Hp Hc. apply gives_get. apply (next_loop_gives _ []); (done || constructor). Qed.

Lemma peek_exact c r p : exact (c :: r) p -> c <> "013"%byte -> _peek p = (Ok c, p).
Proof. intros (E & He & _) Hc. unfold _peek, stream_peek, mbind, M_bind. rewrite E, He. by rewrite decide_False. Qed.

Lemma peek_loop_gives fuel w c r p :
  exact (w ++ c :: r) p -> white w -> isspace c = false ->
  gives (fun a p' => a = c /\ exact (c :: r) p') (peek_loop fuel false) p.
Proof.
  revert w p. induction fuel as [|fuel IH]; intros w p Hp Hw Hs; [done|]. cbn [peek_loop]. apply gives_bind. unfold gives at 1.
  destruct w as [|x w].
  - rewrite (peek_exact c r p Hp) by (intros ->; done). pose proof Hp as (Hi & He & Hcm). apply gives_bind. unfold gives at 1. simpl. rewrite He.
    apply gives_get. unfold is_comment. rewrite Hcm, Hs. done.
  - apply Forall_cons in Hw as [[Hx Hx'] Hw]. rewrite (peek_exact x (w ++ c :: r) p Hp Hx'). pose proof Hp as (Hi & He & Hcm).
    apply gives_bind. unfold gives at 1. simpl. rewrite He. apply gives_get. unfold is_comment. rewrite Hcm, Hx. simpl.
    destruct (get_exact x _ p Hp Hx') as (p1 & E & Hp1). apply gives_bind. unfold gives at 1. rewrite E. by apply (IH w).
Qed.

Lemma peek_gives w c r p :
  rem (w ++ c :: r) p -> white w -> isspace c = false -> gives (fun a p' => a = c /\ exact (c :: r) p') (peek false) p.
Proof.
  intros Hp Hw Hc. destruct (rem_char w c r p Hw Hc Hp) as (w' & Hw' & Hp'). apply gives_get. by apply (peek_loop_gives _ w').
Qed.

(** At the end of the input. *)
Lemma peek_loop_end fuel p :
  white (in_ p) -> comments_ p = false -> (eof_ p = true -> in_ p = []) ->
  gives (fun a p' => a = "000"%byte /\ rem [] p') (peek_loop fuel false) p.
Proof.
  revert p. induction fuel as [|fuel IH]; intros p Hw Hc He; [done|]. cbn [peek_loop]. apply gives_bind. unfold gives at 1.
  destruct (in_ p) as [|x w] eqn:Ei.
  - unfold _peek, stream_peek, mbind, M_bind. rewrite Ei.
    assert (Hq : rem [] (set_in [] true p)) by (exists []; split_and!; try done; constructor).
    by destruct (eof_ p).
  - destruct (eof_ p) eqn:Ee; [by specialize (He eq_refl)|]. apply Forall_cons in Hw as [[Hx Hx'] Hw].
    assert (Hp : exact (x :: w) p) by done. rewrite (peek_exact x w p Hp Hx'). apply gives_bind. unfold gives at 1. simpl. rewrite Ee.
    apply gives_get. unfold is_comment. rewrite Hc, Hx. simpl.
    destruct (get_exact x _ p Hp Hx') as (p1 & E & Hi1 & He1 & Hc1). apply gives_bind. unfold gives at 1. rewrite E. apply IH; try congruence. by rewrite Hi1.
Qed.

(** After a value: the end of the input, or white space and a delimiter. *)
Definition ends (r : text) : Prop :=
  white r \/ exists w c r', r = w ++ c :: r' /\ white w /\ c ∈ [","%byte; "]"%byte; "}"%byte].

Lemma peek_ends r p : ends r -> rem r p -> gives (fun (a : byte) p' => a ∈ ["000"%byte; ","%byte; "]"%byte; "}"%byte] /\ rem r p') (peek false) p.
Proof.
  intros [Hr|(w & c & r' & -> & Hw & Hc)] Hp.
  - destruct Hp as (w0 & Hw0 & -> & Hc & He). apply Forall_app in Hr as [_ Hin]. apply gives_get.
    eapply gives_mono; [by apply peek_loop_end|]. intros a p' [-> (w1 & Hw1 & E & ? & ?)]. split; [left|].
    symmetry in E. apply app_eq_nil in E as [-> E]. exists (w0 ++ in_ p). rewrite E, app_nil_r.
    split_and!; try done. by apply Forall_app.
  - eapply gives_mono; [eapply (peek_gives w c r'); [done|done|]|].
    + apply list_elem_of_In in Hc. simpl in Hc. by destruct_or?; subst.
    + intros a p' [-> Hp']. split; [by right|]. apply rem_white; [done|]. by apply exact_rem.
Qed.

Lemma consume_gives w c r p :
  rem (w ++ c :: r) p -> white w -> isspace c = false -> gives (fun _ p' => exact r p') (consume c) p.
Proof. intros Hp Hw Hc. eapply gives_then; [by eapply next_gives|]. intros a p' [-> Hp']. by rewrite decide_True. Qed.

Lemma consume_all_gives c l r w p :
  rem (w ++ (c :: l) ++ r) p -> white w -> Forall (fun x => isspace x = false) (c :: l) ->
  gives (fun _ p' => exact r p') (consume_all (c :: l)) p.
Proof.
  revert c w p. induction l as [|d l IH]; intros c w p Hp Hw [Hc Hl]%Forall_cons; simpl in Hp.
  - eapply gives_then; [by eapply consume_gives|]. intros ? p' Hp'. done.
  - eapply gives_then; [by eapply consume_gives|]. intros ? p' Hp'. apply (IH d []); [by apply exact_rem|constructor|done].
Qed.

(** ** Strings *)

Section Strings.
Variables (HAVE_UNICODE : bool) (utf8 : text -> outcome text).

(** A character is written as it is, or as an escape that [escape] undoes. *)
Lemma encode_char c s : c <> "000"%byte ->
  (encode_chars (c :: s) = c :: encode_chars s /\ c <> "\"%byte /\ c <> "034"%byte /\ c <> "013"%byte) \/
  (exists e, encode_chars (c :: s) = "\"%byte :: e :: encode_chars s /\ e <> "013"%byte /\
     escape HAVE_UNICODE utf8 "034"%byte false e = mret [c]).
Proof.
  intros Hc. destruct c; try done; first [left; split_and!; done|right; eexists; split_and!; [reflexivity|done|]].
  all: unfold escape; rewrite ?(decide_False (P := _ /\ _)) by (intros [_ ?]; done); done.
Qed.

Lemma string_loop_gives fuel : forall s acc r p,
  Forall (fun c => c <> "000"%byte) s -> exact (encode_chars s ++ "034"%byte :: r) p ->
  gives (fun a p' => a = acc ++ s /\ exact r p') (string_loop HAVE_UNICODE utf8 fuel "034"%byte false acc) p.
Proof.
  induction fuel as [|fuel IH]; intros s acc r p Hs Hp; [done|]. cbn [string_loop]. destruct s as [|c s].
  - eapply gives_then; [apply (next_raw _ r p Hp); done|]. intros a p' [-> (Hi & He & Hc)]. rewrite decide_False, decide_True by done.
    apply gives_get. rewrite decide_False by naive_solver. rewrite app_nil_r. split; done.
  - apply Forall_cons in Hs as [Hc Hs]. destruct (encode_char c s Hc) as [(E & H1 & H2 & H3)|(e & E & H1 & H2)]; rewrite E in Hp.
    + eapply gives_then; [eapply next_raw; [eassumption|done]|]. intros a p' [-> Hp']. rewrite !decide_False by done.
      eapply gives_mono; [by apply (IH s)|]. intros a p'' [-> ?]. by rewrite <- app_assoc.
    + eapply gives_then; [eapply next_raw; [eassumption|done]|]. intros a p' [-> Hp']. rewrite decide_True by done.
      eapply gives_then; [eapply next_raw; [eassumption|done]|]. intros a p'' [-> Hp'']. rewrite H2. apply gives_bind, gives_ret.
      eapply gives_mono; [by apply (IH s)|]. intros a p3 [-> ?]. by rewrite <- app_assoc.
Qed.

Lemma parseString_gives w s r p :
  Forall (fun c => c <> "000"%byte) s -> white w -> rem (w ++ encode s ++ r) p ->
  gives (fun a p' => a = s /\ exact r p') (parseString HAVE_UNICODE utf8 "034"%byte) p.
Proof.
  intros Hs Hw Hp. unfold parseString. apply gives_get. assert (Hc : comments_ p = false) by (by destruct Hp as (? & ? & ? & ? & ?)).
  rewrite Hc. apply gives_modify.
  assert (Hp' : rem (w ++ encode s ++ r) (set_comments false p)) by (destruct Hp as (w0 & ? & ? & ? & ?); by exists w0).
  unfold encode in Hp'. simpl in Hp'. rewrite <- app_assoc in Hp'. eapply gives_then; [by eapply consume_gives|].
  intros ? p' Hq. apply gives_get. by apply (string_loop_gives _ s []).
Qed.
End Strings.

(** ** Numbers *)

Lemma decimal_lead f : forall n, 1 <= n < 10 ^ Z.of_nat f -> exists c d, decimal f n = c :: d /\ c <> "0"%byte.
Proof.
  induction f as [|f IH]; intros n Hn; [simpl in Hn; lia|]. cbn [decimal]. rewrite Nat2Z.inj_succ, Z.pow_succ_r in Hn by lia.
  destruct (Z.ltb_spec n 10) as [H|H].
  - destruct (digit_byte (n mod 10)) as [E _]; [pose proof (Z.mod_pos_bound n 10); lia|]. eexists _, _. split; [done|].
    intros E0. rewrite E0 in E. rewrite Z.mod_small in E by lia. change (byte.unsigned "0"%byte) with 48 in E. lia.
  - destruct (IH (n / 10)) as (c & d & -> & Hc); [|by eexists _, _].
    set (P := 10 ^ Z.of_nat f) in *. clearbody P. Z.to_euclidean_division_equations. lia.
Qed.

(** The digits of a number do not start with a zero, unless it is zero. *)
Lemma print_long_digits n : - 2 ^ 63 <= n < 2 ^ 64 ->
  exists c d, print_long n = (if n <? 0 then ["-"%byte] else []) ++ c :: d /\
    isdigit c = true /\ all_digits d /\ (c = "0"%byte -> d = []).
Proof.
  intros Hn. destruct (decimal_ok 20 (Z.abs n)) as [Hd _]; [change (10 ^ Z.of_nat 20) with 100000000000000000000; lia|].
  assert (E : print_long n = (if n <? 0 then ["-"%byte] else []) ++ decimal 20 (Z.abs n)).
  { unfold print_long. destruct (Z.ltb_spec n 0); [by rewrite Z.abs_neq by lia|by rewrite Z.abs_eq by lia]. }
  rewrite E. destruct (decide (n = 0)) as [->|Hnz]; [by exists "0"%byte, []; split_and!; try done; constructor|].
  destruct (decimal_lead 20 (Z.abs n)) as (c & d & E' & Hc); [change (10 ^ Z.of_nat 20) with 100000000000000000000; lia|].
  rewrite E' in Hd |- *. apply Forall_cons in Hd as [Hc1 Hd]. by exists c, d.
Qed.

(** What follows a value is no part of a number. *)
Lemma end_char a : a ∈ ["000"%byte; ","%byte; "]"%byte; "}"%byte] ->
  isdigit a = false /\ a <> "."%byte /\ ~ (a = "e"%byte \/ a = "E"%byte).
Proof. intros Ha%list_elem_of_In. simpl in Ha. destruct_or?; subst; split_and!; try done; intros [|]; done. Qed.

Lemma digits_gives fuel : forall d acc r p, all_digits d -> ends r -> rem (d ++ r) p ->
  gives (fun a p' => a = acc ++ d /\ rem r p') (digits fuel acc) p.
Proof.
  induction fuel as [|fuel IH]; intros d acc r p Hd Hr Hp; [done|]. cbn [digits]. destruct d as [|c d].
  - eapply gives_then; [by eapply peek_ends|]. intros a p' [Ha Hp']. destruct (end_char a Ha) as [-> _]. by rewrite app_nil_r.
  - apply Forall_cons in Hd as [Hc Hd]. destruct (digit_facts c Hc) as (_ & _ & Hs & _).
    eapply gives_then; [by apply (peek_gives [] c (d ++ r))|]. intros a p' [-> Hp']. rewrite Hc.
    eapply gives_then; [by apply (next_gives [] c (d ++ r)); [apply exact_rem| |]|]. intros a p'' [-> Hp''].
    eapply gives_mono; [by apply (IH d); [| |apply exact_rem]|]. intros a p3 [-> ?]. by rewrite <- app_assoc.
Qed.

Section Numbers.
Context {double : Type} (string_to_double : text -> outcome double).

Lemma integer_part_gives acc c d r p : isdigit c = true -> all_digits d -> (c = "0"%byte -> d = []) -> ends r -> exact (d ++ r) p ->
  gives (fun a p' => a = acc ++ c :: d /\ rem r p') (integer_part acc c) p.
Proof.
  intros Hc Hd Hz Hr Hp%exact_rem. unfold integer_part. case_decide as Ec.
  - rewrite (Hz Ec) in *. done.
  - rewrite Hc. apply gives_get. eapply gives_mono; [by apply (digits_gives _ d)|]. intros a p' [-> ?]. by rewrite <- app_assoc.
Qed.

Lemma no_fraction s r p : ends r -> rem r p -> gives (fun a p' => a = (false, s) /\ rem r p') (fraction s) p.
Proof.
  intros Hr Hp. unfold fraction. eapply gives_then; [by eapply peek_ends|]. intros a p' [Ha Hp'].
  destruct (end_char a Ha) as (_ & Hd & _). by rewrite decide_False.
Qed.
Lemma no_exponent s r p : ends r -> rem r p -> gives (fun a p' => a = (false, s) /\ rem r p') (exponent s) p.
Proof.
  intros Hr Hp. unfold exponent. eapply gives_then; [by eapply peek_ends|]. intros a p' [Ha Hp'].
  destruct (end_char a Ha) as (_ & _ & Hd). by rewrite decide_False.
Qed.

Lemma parseNumber_gives w n r p : in_S 64 n = true -> white w -> ends r -> rem (w ++ print_long n ++ r) p ->
  gives (fun v p' => v = VNumber n /\ rem r p') (parseNumber string_to_double) p.
Proof.
  intros Hn Hw Hr Hp. pose proof (string_to_long_print n Hn) as Hval. apply in_S_spec in Hn. change (2 ^ (64 - 1)) with (2 ^ 63) in Hn.
  destruct (print_long_digits n ltac:(lia)) as (c & d & E & Hc & Hd & Hz). rewrite E in Hp.
  destruct (digit_facts c Hc) as (Hm & _ & Hs & _). unfold parseNumber.
  set (sign := if n <? 0 then ["-"%byte] else []) in *.
  eapply (gives_then _ (fun a p' => gives (fun sc p'' => sc = (sign, c) /\ exact (d ++ r) p'')
    (if decide (a = "-"%byte) then d ← next false; mret ([a], d) else mret ([], a)) p')).
  - subst sign. destruct (n <? 0); simpl in Hp.
    + eapply gives_mono; [by eapply next_gives|]. intros a p' [-> Hp']. rewrite decide_True by done.
      eapply gives_then; [apply (next_gives [] c (d ++ r)); [by apply exact_rem| |]; done|]. by intros a p'' [-> Hp''].
    + eapply gives_mono; [by eapply next_gives|]. intros a p' [-> Hp']. rewrite decide_False by done. done.
  - intros a p' Ha. eapply gives_then; [exact Ha|]. intros ? p2 [-> Hp2].
    eapply gives_then; [by apply (integer_part_gives sign c d r)|]. intros ? p3 [-> Hp3].
    eapply gives_then; [by apply (no_fraction _ r)|]. intros ? p4 [-> Hp4].
    eapply gives_then; [by apply (no_exponent _ r)|]. intros ? p5 [-> Hp5]. apply gives_ret. split; [|done].
    rewrite <- E. f_equal. exact Hval.
Qed.
End Numbers.

(** ** Values *)

Definition clean (s : text) : bool := forallb (fun c => bool_decide (c <> "000"%byte)) s.

Lemma forallb_Forall {A} (b : A -> bool) (P : A -> Prop) l : (forall x, b x = true -> P x) -> forallb b l = true -> Forall P l.
Proof. intros Hb Hl%Is_true_true. apply forallb_True in Hl. eapply Forall_impl; [exact Hl|]. intros x Hx. by apply Hb, Is_true_true. Qed.

Lemma clean_spec s : clean s = true -> Forall (fun c => c <> "000"%byte) s.
Proof. apply forallb_Forall. intros c. apply bool_decide_eq_true. Qed.

Section Values.
Context {double : Type} (string_to_double : text -> outcome double) (HAVE_UNICODE : bool) (utf8 : text -> outcome text).
Context (print_double : double -> text) (f : Formatting).
Abbreviation Value := (Value double).
Abbreviation render := (render print_double f).
Abbreviation parseValue := (parseValue string_to_double HAVE_UNICODE utf8).
Abbreviation parseJSON := (parseJSON string_to_double HAVE_UNICODE utf8).
Abbreviation items := (render_items print_double f).
Abbreviation entries := (render_entries print_double f).

(** Values whose text the parser reads back: no [double]s, integers of 64 bits, strings
    without a null character, and keys that differ. *)
Fixpoint jsonable (v : Value) : bool :=
  match v with
  | VNil | VBool _ => true
  | VNumber n => in_S 64 n
  | VDouble _ => false
  | VString s => clean s
  | VList l => forallb jsonable l
  | VOrderedMap m => bool_decide (NoDup (m.*1)) && forallb (fun kv => clean kv.1 && jsonable kv.2) m
  end.

Lemma line_white flag ind : white (line f flag ind).
Proof.
  unfold line, print_indent. destruct (Json.check f flag); [|constructor]. constructor; [done|].
  apply Forall_replicate. done.
Qed.

Lemma colon_white : exists w1 w2, colon f = w1 ++ ":"%byte :: w2 /\ white w1 /\ white w2.
Proof.
  unfold colon. destruct (Json.check f COMPACT); [exists [], []|exists [" "%byte], [" "%byte]]; split_and!; try done; repeat constructor; done.
Qed.

(** The first character of a value. *)
Definition head_of (v : Value) (c : byte) : Prop :=
  match v with
  | VNil => c = "n"%byte
  | VBool b => c = if b then "t"%byte else "f"%byte
  | VNumber _ => c = "-"%byte \/ isdigit c = true
  | VDouble _ => False
  | VString _ => c = "034"%byte
  | VList _ => c = "["%byte
  | VOrderedMap _ => c = "{"%byte
  end.

Lemma render_head ind v : jsonable v = true -> exists c t, render ind v = c :: t /\ head_of v c.
Proof.
  destruct v as [|[]|n|d|s|l|m]; intros Hv; try done; try (by eexists _, _).
  apply in_S_spec in Hv. change (2 ^ (64 - 1)) with (2 ^ 63) in Hv. destruct (print_long_chars n ltac:(lia)) as [Hne Hch].
  cbn [Json.render]. destruct (print_long n) as [|c t]; [done|]. eexists _, _. split; [done|]. by apply Forall_cons in Hch as [? _].
Qed.

Lemma head_facts v c : head_of v c -> isspace c = false /\ c <> "]"%byte /\ c <> "}"%byte.
Proof.
  destruct v as [|[]|n|d|s|l|m]; simpl; intros Hc; try (by subst c); [|done].
  destruct Hc as [->|Hc]; [done|]. destruct (digit_facts c Hc) as (_ & _ & Hs & _). split_and!; [done|by intros ->|by intros ->].
Qed.

(** What [parseJSON] does next, knowing the first character. *)
Definition parse_as (pv : M StreamParser Value) (v : Value) : M StreamParser Value :=
  match v with
  | VNil => parseNull
  | VBool b => if b then parseTrue else parseFalse
  | VNumber _ | VDouble _ => parseNumber string_to_double
  | VString _ => s ← parseString HAVE_UNICODE utf8 "034"%byte; mret (VString s)
  | VList _ => parseArray pv
  | VOrderedMap _ => parseObject HAVE_UNICODE utf8 pv
  end.

Lemma parseJSON_gives Q pv v c w r p :
  white w -> head_of v c -> rem (w ++ c :: r) p -> (forall p', exact (c :: r) p' -> gives Q (parse_as pv v) p') ->
  gives Q (parseJSON pv) p.
Proof.
  intros Hw Hc Hp HQ. destruct (head_facts v c Hc) as (Hs & _). unfold JsonParser.parseJSON.
  eapply gives_then; [by apply (peek_gives w c r)|]. intros a p' [-> Hp']. specialize (HQ p' Hp').
  destruct v as [|[]|n|d|s|l|m]; simpl in Hc; try (subst c; exact HQ); [|done].
  destruct Hc as [->|Hc]; [exact HQ|]. clear - HQ Hc. destruct c; try discriminate Hc; exact HQ.
Qed.

(** [pv] reads [v] at any indentation, after white space and before an end. *)
Definition reads (pv : M StreamParser Value) (v : Value) : Prop := forall w r p ind,
  white w -> ends r -> rem (w ++ render ind v ++ r) p -> gives (fun a p' => a = v /\ rem r p') pv p.

Section Compound.
Variable pv : M StreamParser Value.

Lemma ends_items ind (l : list Value) w r : white w -> ends (items ind false l ++ w ++ "]"%byte :: r).
Proof.
  intros Hw. right. destruct l as [|x l]; simpl.
  - exists w, "]"%byte, r. split_and!; [done|done|repeat constructor].
  - eexists [], ","%byte, _. split_and!; [done|done|repeat constructor].
Qed.
Lemma ends_entries ind (m : list (text * Value)) w r : white w -> ends (entries ind false m ++ w ++ "}"%byte :: r).
Proof.
  intros Hw. right. destruct m as [|[k x] m]; simpl.
  - exists w, "}"%byte, r. split_and!; [done|done|repeat constructor].
  - eexists [], ","%byte, _. split_and!; [done|done|repeat constructor].
Qed.

(** The closing character. *)
Lemma close_gives {A} Q w c r p (m2 k : M StreamParser A) :
  white w -> isspace c = false -> rem (w ++ c :: r) p -> (forall p', exact r p' -> gives Q k p') ->
  gives Q (a ← peek false; if decide (a = c) then consume a ;; k else m2) p.
Proof.
  intros Hw Hc Hp HQ. eapply gives_then; [by apply (peek_gives w c r)|]. intros a p' [-> Hp']. rewrite decide_True by done.
  eapply gives_then; [apply (consume_gives [] c r); [by apply exact_rem|done|done]|]. intros ? p'' Hp''. by apply HQ.
Qed.

(** A comma and what follows it. *)
Lemma comma_gives {A} Q c w r p (m1 : byte -> M StreamParser A) (k : M StreamParser A) :
  c <> ","%byte -> white w -> rem (","%byte :: w ++ r) p -> (forall p', exact (w ++ r) p' -> gives Q k p') ->
  gives Q (a ← peek false; if decide (a = c) then m1 a else consume ","%byte ;; k) p.
Proof.
  intros Hc Hw Hp HQ. eapply gives_then; [by apply (peek_gives [] ","%byte (w ++ r))|]. intros a p' [-> Hp']. rewrite decide_False by done.
  eapply gives_then; [apply (consume_gives [] ","%byte (w ++ r)); [by apply exact_rem|done|done]|]. intros ? p'' Hp''. by apply HQ.
Qed.

Lemma array_loop_gives fuel ind w2 : white w2 -> forall l x acc w r p, Forall (reads pv) (x :: l) -> white w ->
  rem (w ++ render ind x ++ items ind false l ++ w2 ++ "]"%byte :: r) p ->
  gives (fun v p' => v = VList (acc ++ x :: l) /\ rem r p') (array_loop pv fuel acc) p.
Proof.
  intros Hw2. induction fuel as [|fuel IH]; intros l x acc w r p Hl Hw Hp; [done|]. cbn [array_loop].
  apply Forall_cons in Hl as [Hx Hl].
  eapply gives_then; [apply (Hx w (items ind false l ++ w2 ++ "]"%byte :: r) p ind); [done|by apply ends_items|exact Hp]|]. intros a p' [-> Hp'].
  destruct l as [|y l]; cbn [render_items] in Hp'; simpl in Hp'.
  - eapply close_gives; [exact Hw2|done|exact Hp'|]. intros p'' Hp''. split; [done|by apply exact_rem].
  - rewrite <- !app_assoc in Hp'. eapply (comma_gives _ _ (line f INDENT_LIST ind)); [done|apply line_white|exact Hp'|]. intros p'' Hp''%exact_rem.
    eapply gives_mono; [by eapply (IH l y); [|apply line_white|]|]. intros v p3 [-> ?]. by rewrite <- app_assoc.
Qed.

Lemma parseArray_gives l r p ind : Forall (reads pv) l -> Forall (fun v => jsonable v = true) l ->
  exact (render ind (VList l) ++ r) p -> gives (fun v p' => v = VList l /\ rem r p') (parseArray pv) p.
Proof.
  intros Hl Hj Hp%exact_rem. unfold parseArray. set (ind' := deeper f INDENT_LIST ind).
  change (render ind (VList l)) with ("["%byte :: line f INDENT_LIST ind' ++ items ind' true l ++ line f INDENT_LIST ind ++ ["]"%byte]) in Hp.
  simpl in Hp. rewrite <- !app_assoc in Hp. eapply gives_then; [eapply (consume_gives []); [exact Hp|done|done]|]. intros ? p' Hp'%exact_rem.
  destruct l as [|x l].
  - simpl in Hp'. rewrite app_assoc in Hp'. eapply close_gives; [|done|exact Hp'|].
    + apply Forall_app. split; apply line_white.
    + intros p'' Hp''. split; [done|by apply exact_rem].
  - apply Forall_cons in Hj as [Hj _]. destruct (render_head ind' x Hj) as (c & t & E & Hc). destruct (head_facts x c Hc) as (Hs & Hb & _).
    simpl in Hp'. rewrite E, <- !app_assoc in Hp'. eapply gives_then; [by eapply peek_gives; [exact Hp'|apply line_white|]|].
    intros b p'' [-> Hp'']. rewrite decide_False by done. apply gives_get.
    eapply (array_loop_gives _ ind' _ (line_white _ _) l x [] []); [done|done|]. apply exact_rem. by rewrite E.
Qed.

(** ** Objects *)

Lemma set_fresh (m : list (text * Value)) k v : k ∉ m.*1 -> set_ m k v = m ++ [(k, v)].
Proof.
  induction m as [|[k' v'] m IH]; intros Hk; [done|]. csimpl in Hk. apply not_elem_of_cons in Hk as [Hne Hk].
  cbn [set_]. rewrite decide_False by congruence. by rewrite IH.
Qed.

Lemma parseKeyValue_gives ind acc k x w r p : clean k = true -> k ∉ acc.*1 -> reads pv x -> white w -> ends r ->
  rem (w ++ encode k ++ colon f ++ render ind x ++ r) p ->
  gives (fun m p' => m = acc ++ [(k, x)] /\ rem r p') (parseKeyValue HAVE_UNICODE utf8 pv acc) p.
Proof.
  intros Hk%clean_spec Hfresh Hx Hw Hr Hp. unfold parseKeyValue.
  eapply gives_then; [by eapply (parseString_gives _ _ w k)|]. intros a p1 [-> Hp1%exact_rem].
  destruct colon_white as (w1 & w2 & E & Hw1 & Hw2). rewrite E, <- app_assoc in Hp1. simpl in Hp1.
  eapply gives_then; [by eapply (consume_gives w1)|]. intros ? p2 Hp2%exact_rem.
  eapply gives_then; [by eapply (Hx w2)|]. intros b p3 [-> Hp3]. apply gives_ret. by rewrite set_fresh.
Qed.

Definition entry_ok (kv : text * Value) : Prop := clean kv.1 = true /\ reads pv kv.2.

Lemma object_loop_gives fuel ind w2 : white w2 -> forall m k x acc w r p,
  Forall entry_ok ((k, x) :: m) -> NoDup ((acc ++ (k, x) :: m).*1) -> white w ->
  rem (w ++ encode k ++ colon f ++ render ind x ++ entries ind false m ++ w2 ++ "}"%byte :: r) p ->
  gives (fun v p' => v = VOrderedMap (acc ++ (k, x) :: m) /\ rem r p') (object_loop HAVE_UNICODE utf8 pv fuel acc) p.
Proof.
  intros Hw2. induction fuel as [|fuel IH]; intros m k x acc w r p Hm Hdup Hw Hp; [done|]. cbn [object_loop].
  apply Forall_cons in Hm as [[Hk Hx] Hm]. simpl in Hk, Hx.
  assert (Hfresh : k ∉ acc.*1).
  { rewrite fmap_app in Hdup. apply NoDup_app in Hdup as (_ & Hd & _). intros Hin. apply (Hd k Hin). by left. }
  eapply gives_then.
  { apply (parseKeyValue_gives ind acc k x w (entries ind false m ++ w2 ++ "}"%byte :: r)); try done. by apply ends_entries. }
  intros a p' [-> Hp']. destruct m as [|[k' y] m]; cbn [render_entries app] in Hp'.
  - eapply close_gives; [exact Hw2|done|exact Hp'|]. intros p'' Hp''. split; [done|by apply exact_rem].
  - change (str ",") with [","%byte] in Hp'. rewrite <- !app_assoc in Hp'. eapply (comma_gives _ _ (line f INDENT_DICT ind)); [done|apply line_white|exact Hp'|]. intros p'' Hp''%exact_rem.
    eapply gives_mono; [apply (IH m k' y (acc ++ [(k, x)]) (line f INDENT_DICT ind) r)|].
    + done.
    + by rewrite <- app_assoc.
    + apply line_white.
    + exact Hp''.
    + intros v p3 [-> ?]. by rewrite <- app_assoc.
Qed.

Lemma parseObject_gives m r p ind : Forall entry_ok m -> NoDup (m.*1) ->
  exact (render ind (VOrderedMap m) ++ r) p -> gives (fun v p' => v = VOrderedMap m /\ rem r p') (parseObject HAVE_UNICODE utf8 pv) p.
Proof.
  intros Hm Hdup Hp%exact_rem. unfold parseObject. set (ind' := deeper f INDENT_DICT ind).
  change (render ind (VOrderedMap m)) with ("{"%byte :: line f INDENT_DICT ind' ++ entries ind' true m ++ line f INDENT_DICT ind ++ ["}"%byte]) in Hp.
  simpl in Hp. rewrite <- !app_assoc in Hp. eapply gives_then; [eapply (consume_gives []); [exact Hp|done|done]|]. intros ? p' Hp'%exact_rem.
  destruct m as [|[k x] m].
  - simpl in Hp'. rewrite app_assoc in Hp'. eapply close_gives; [|done|exact Hp'|].
    + apply Forall_app. split; apply line_white.
    + intros p'' Hp''. split; [done|by apply exact_rem].
  - simpl in Hp'. rewrite <- !app_assoc in Hp'. eapply gives_then; [by eapply (peek_gives _ "034"%byte); [exact Hp'|apply line_white|]|].
    intros b p'' [-> Hp'']. rewrite decide_False by done. apply gives_get.
    eapply (object_loop_gives _ ind' _ (line_white _ _) m k x [] []); [done|done|done|]. apply exact_rem.
    unfold encode. simpl. rewrite <- !app_assoc. exact Hp''.
Qed.
End Compound.

Lemma parseValue_gives fuel : forall v, jsonable v = true -> reads (parseValue fuel) v.
Proof.
  induction fuel as [|fuel IH]; intros v Hv w r p ind Hw Hr Hp; [done|]. cbn [JsonParser.parseValue].
  destruct (render_head ind v Hv) as (c & t & E & Hc). rewrite E in Hp. simpl in Hp.
  eapply (parseJSON_gives _ _ v c w (t ++ r)); [done|done|done|]. intros p' Hp'.
  assert (Hq : exact (render ind v ++ r) p') by (by rewrite E). clear p E Hp Hp' c t Hc Hw w.
  destruct v as [|b|n|d|s|l|m]; simpl in Hv; cbn [parse_as].
  - eapply gives_then; [apply (consume_all_gives _ _ r []); [by apply exact_rem|done|repeat constructor]|].
    intros ? p'' Hp''. split; [done|by apply exact_rem].
  - destruct b; (eapply gives_then; [apply (consume_all_gives _ _ r []); [by apply exact_rem|done|repeat constructor]|]);
      intros ? p'' Hp''; (split; [done|by apply exact_rem]).
  - apply (parseNumber_gives string_to_double [] n r); try done. by apply exact_rem.
  - done.
  - eapply gives_then; [by apply (parseString_gives _ _ [] s r); [apply clean_spec| |apply exact_rem]|].
    intros ? p'' [-> Hp'']. split; [done|by apply exact_rem].
  - apply (parseArray_gives (parseValue fuel) l r p' ind); [|by eapply forallb_Forall; [|exact Hv]|done].
    eapply forallb_Forall; [|exact Hv]. apply IH.
  - apply andb_true_iff in Hv as [Hd%bool_decide_eq_true Hv]. apply (parseObject_gives (parseValue fuel) m r p' ind); [|done|done].
    eapply forallb_Forall; [|exact Hv]. intros [k x] [? ?]%andb_true_iff. split; [done|by apply IH].
Qed.

Lemma parse_gives fuel v p : jsonable v = true -> exact (render 0 v) p ->
  gives (fun a _ => a = v) (parse string_to_double HAVE_UNICODE utf8 fuel) p.
Proof.
  intros Hv Hp. unfold parse. assert (Hr : ends []) by (left; constructor).
  eapply gives_then; [apply (parseValue_gives fuel v Hv [] [] p 0); [done|done|]; simpl; rewrite app_nil_r; by apply exact_rem|].
  intros a p1 [-> (w & Hw & E & Hc & He)]. symmetry in E. apply app_eq_nil in E as [-> E].
  eapply gives_then; [apply gives_get, peek_loop_end; [by rewrite E|done|done]|]. intros a p2 [-> _]. by rewrite decide_True.
Qed.

Section Total.
Hypothesis double_fuel : forall s, string_to_double s <> NoFuel.
Hypothesis utf8_fuel : forall s, utf8 s <> NoFuel.
#[local] Set Default Proof Using "Type*".

(** C6. A document that the writer produces, in any formatting, is parsed to the value
    it was written from: values without [double]s, with 64-bit integers, strings
    without null characters and different keys. *)
Theorem json_roundtrip (v : Value) : jsonable v = true ->
  exists doc, (to_json print_double f v).1 = Ok doc /\ decodeString string_to_double HAVE_UNICODE utf8 doc = Ok v.
Proof.
  intros Hv. exists (render 0 v). split; [apply to_json_render|].
  pose proof (decode_total string_to_double HAVE_UNICODE utf8 double_fuel utf8_fuel (render 0 v)) as Ht. unfold decodeString in *.
  pose proof (parse_gives (S (length (render 0 v))) v (newJSONParser (render 0 v)) Hv ltac:(done)) as H.
  unfold gives in H. destruct (parse _ _ _ _ _) as [[a|e| |] p']; try done. simpl in *. by subst.
Qed.
End Total.
End Values.

Lemma json_roundtrip_witness :
  exists doc, (to_json print_long (indent 4) (VOrderedMap [(str "a", VList [VNumber (-7); VNil; VBool true]); (["010"%byte], VString (str "x\"))])).1 = Ok doc /\
    decodeString (fun _ => Ok 0) true (fun _ => Ok []) doc =
      Ok (VOrderedMap [(str "a", VList [VNumber (-7); VNil; VBool true]); (["010"%byte], VString (str "x\"))]).
Proof. by apply (json_roundtrip (fun _ => Ok 0) true (fun _ => Ok []) print_long (indent 4)). Defined.
