(* ===== verification/Date.v ===== *)
(** * Calendar dates

    [types/Date.cc] and [types/Date.h].  A date is a julian day number; dates
    are given and shown as decimal numbers yyyymmdd in the Gregorian calendar.

    Divisions are those of C++ (truncating).  A constructor that overflows the 64 bits of a
    [long] is undefined ([Undef]); the accessors are those of a date whose fields
    fit, as they do for every date up to the year [2^49] ([julianToDate_fits]).  The
    system clock behind [today()] is a parameter. *)
From S2P Require Import Prelude Text Strings.

Section Date.
(** [today()]: the current day, from the system clock. *)
Variable today : Z.

(** A julian number from a yyyymmdd date. *)
Definition dateToJulian (ddate : Z) : Z :=
  if ddate <=? 0 then today + ddate
  else
    let year := Z.quot ddate 10000 in
    let ddate := Z.rem ddate 10000 in
    let month := Z.quot ddate 100 in
    let day := Z.rem ddate 100 in
    let year := if year <? 100 then year + 1900 else year in
    let '(m1, y1) := if month >? 2 then (month - 3, year) else (month + 9, year - 1) in
    let a := Z.quot (146097 * Z.quot y1 100) 4 in
    let d := Z.rem y1 100 in
    let b := Z.quot (1461 * d) 4 in
    let c := Z.quot (153 * m1 + 2) 5 + day + 1721119 in
    a + b + c.

(** The result of an operation on [long]. *)
Definition as_long (v : Z) : outcome Z := if in_S 64 v then Ok v else Undef.

(** A yyyymmdd date from a julian number: year, month and day, and the number. *)
Definition julian_fields (jdate : Z) : Z * Z * Z :=
  let x := 4 * jdate - 6884477 in
  let y := Z.quot x 146097 * 100 in
  let e := Z.rem x 146097 in
  let d := Z.quot e 4 in
  let x := 4 * d + 3 in
  let y := Z.quot x 1461 + y in
  let e := Z.rem x 1461 in
  let d := Z.quot e 4 + 1 in
  let x := 5 * d - 3 in
  let m := Z.quot x 153 + 1 in
  let e := Z.rem x 153 in
  let d := Z.quot e 5 + 1 in
  let month := if m <? 11 then m + 2 else m - 10 in
  let day := d in
  let year := y + Z.quot m 11 in
  (year, month, day).
Definition julianToDate (jdate : Z) : Z :=
  let '(year, month, day) := julian_fields jdate in year * 10000 + month * 100 + day.

(** The same, with the operations that can overflow. *)
Definition julianToDate_long (jdate : Z) : outcome Z :=
  x ← as_long (4 * jdate);
  _ ← as_long (x - 6884477);
  let '(year, month, day) := julian_fields jdate in
  y ← as_long (year * 10000);
  as_long (y + month * 100 + day).

(** The object: its only member is the julian day number. *)
Record Date : Type := mkDate { julian_ : Z }.

Definition yyyymmdd (d : Date) : Z := julianToDate (julian_ d).
Definition year (d : Date) : Z := Z.quot (julianToDate (julian_ d)) 10000.
Definition month (d : Date) : Z := Z.quot (Z.rem (julianToDate (julian_ d)) 10000) 100.
Definition day (d : Date) : Z := Z.rem (julianToDate (julian_ d)) 100.

(** [check]: the date must read back as it was given. *)
Definition check (date : Date) (value : Z) : outcome unit :=
  let value := if value <=? 999999 then value + 19000000 else value in
  shown ← julianToDate_long (julian_ date);
  if value =? shown then Ok tt else Throw BadDate.

(** [Date(long)] *)
Definition Date_long (date : Z) : outcome Date :=
  let d := mkDate (dateToJulian date) in
  if 0 <? date then check d date ;; Ok d else Ok d.

(** [year * 10000 + month * 100 + day] *)
Definition ymd_number (year month day : Z) : outcome Z :=
  y ← as_long (year * 10000); m ← as_long (month * 100); ym ← as_long (y + m); as_long (ym + day).

(** [Date(year, month, day)] *)
Definition Date_ymd (year month day : Z) : outcome Date :=
  value ← ymd_number year month day;
  let d := mkDate (dateToJulian value) in
  check d value ;; Ok d.

(** [Date(year, dayOfYear)] *)
Definition Date_yd (y dayOfYear : Z) : outcome Date :=
  v ← as_long (y * 10000); v ← as_long (v + 101);
  k ← as_long (dayOfYear - 1);
  j ← as_long (dateToJulian v + k);
  shown ← julianToDate_long j;
  ASSERT (Z.quot shown 10000 =? y) ;; Ok (mkDate j).

Definition Date_add (d : Date) (n : Z) : Date := mkDate (julian_ d + n).
Definition Date_sub (d1 d2 : Date) : Z := julian_ d1 - julian_ d2.
Definition Date_lt (d1 d2 : Date) : bool := julian_ d1 <? julian_ d2.
Definition dayOfWeek (d : Date) : Z := Z.rem (julian_ d) 7.

(** [operator+(const Date&, long)]: the sum is converted to yyyymmdd and goes
    through [Date(long)] again. *)
Definition Date_plus (d : Date) (n : Z) : outcome Date := Date_long (julianToDate (julian_ d + n)).

(** ** Strings *)

Definition months : list text :=
  str <$> ["jan"; "feb"; "mar"; "apr"; "may"; "jun"; "jul"; "aug"; "sep"; "oct"; "nov"; "dec"]%string.

Fixpoint month_index (s : text) (l : list text) (i : Z) : option Z :=
  match l with
  | [] => None
  | m :: l => if decide (s = m) then Some i else month_index s l (i + 1)
  end.

(** [Date::parse] *)
Definition parse (s : text) : outcome Z :=
  value ← match tokenize (Tokenizer_string (str "-") false) s with
          | [_] =>
              if decide (length s = 3%nat) then
                match month_index s months 0 with
                | Some i => Ok (1900 * 10000 + (i + 1) * 100 + 1)
                | None => Throw BadDate
                end
              else if decide (length s = 6%nat \/ length s = 8%nat) then Ok (atol s)
              else Throw BadDate
          | [r0; r1] =>
              if decide (length r0 = 2%nat /\ length r1 = 2%nat) then
                date ← Date_ymd 2004 (atol r0) (atol r1);
                julianToDate_long (julian_ date)
              else
                date ← Date_ymd (atol r0) 1 1;
                k ← as_long (atol r1 - 1); j ← as_long (julian_ date + k);
                value ← julianToDate_long j;
                if decide ((length r0 = 2%nat \/ length r0 = 4%nat) /\ length r1 = 3%nat)
                then Ok value else Throw BadDate
          | [r0; r1; r2] =>
              value ← ymd_number (atol r0) (atol r1) (atol r2);
              if decide ((length r0 = 2%nat \/ length r0 = 4%nat) /\ length r1 = 2%nat /\ length r2 = 2%nat)
              then Ok value
              else Throw BadDate
          | _ => Throw BadDate
          end;
  Ok (if Z.rem value 100 =? 0 then value + 1 else value).

(** [Date(const std::string&)] *)
Definition Date_string (s : text) : outcome Date :=
  value ← parse s;
  let d := mkDate (dateToJulian value) in
  check d value ;; Ok d.

(** A number padded to two places with zeros. *)
Definition print_two (n : Z) : text :=
  let t := print_long n in replicate (2 - length t) "0"%byte ++ t.

(** [Date::print] *)
Definition print (d : Date) : text :=
  let ddate := julianToDate (julian_ d) in
  let year := Z.quot ddate 10000 in
  let ddate := Z.rem ddate 10000 in
  let month := Z.quot ddate 100 in
  let day := Z.rem ddate 100 in
  print_long year ++ ["-"%byte] ++ print_two month ++ ["-"%byte] ++ print_two day.

Definition monthName (d : Date) : outcome text :=
  let n := Z.quot (Z.rem (julianToDate (julian_ d)) 10000) 100 in
  ASSERT ((1 <=? n) && (n <=? 12)) ;;
  match months !! Z.to_nat (n - 1) with Some m => Ok m | None => Undef end.
End Date.
Arguments mkDate julian_ : clear implicits.

(** ** The Gregorian calendar *)

Definition leap (y : Z) : bool := ((y mod 4 =? 0) && negb (y mod 100 =? 0)) || (y mod 400 =? 0).

Definition days_in_month (y m : Z) : Z :=
  if m =? 2 then (if leap y then 29 else 28)
  else if (m =? 4) || (m =? 6) || (m =? 9) || (m =? 11) then 30 else 31.

Definition valid (y m d : Z) : Prop := 1 <= m <= 12 /\ 1 <= d <= days_in_month y m.

(** The day after. *)
Definition next_day (y m d : Z) : Z * Z * Z :=
  if d <? days_in_month y m then (y, m, d + 1)
  else if m <? 12 then (y, m + 1, 1) else (y + 1, 1, 1).

#[local] Ltac Zify.zify_post_hook ::= Z.to_euclidean_division_equations.

(** ** Years that start in March *)

(** Month [m1] (0 is March) of the year [y1] that starts in March. *)
Definition march_julian (y1 m1 d : Z) : Z :=
  146097 * (y1 / 100) / 4 + 1461 * (y1 mod 100) / 4 + (153 * m1 + 2) / 5 + d + 1721119.

Definition march_ddate (y1 m1 d : Z) : Z :=
  (y1 + (m1 + 1) / 11) * 10000 + (if m1 + 1 <? 11 then m1 + 3 else m1 - 9) * 100 + d.

(** The length of the months, in terms of the remainder that the division by 5
    leaves, and of the year that ends in February. *)
Definition march_days (y1 m1 : Z) : Z :=
  if m1 =? 11 then (if leap (y1 + 1) then 29 else 28)
  else if (153 * m1 + 2) mod 5 <? 2 then 30 else 31.

Ltac to_div :=
  repeat match goal with
  | |- context [Z.quot ?a ?b] => rewrite (Z.quot_div_nonneg a b) by lia
  | |- context [Z.rem ?a ?b] => rewrite (Z.rem_mod_nonneg a b) by lia
  end.

Lemma leap_spec y : leap y = true <-> y mod 4 = 0 /\ (y mod 100 <> 0 \/ y mod 400 = 0).
Proof.
  unfold leap. rewrite orb_true_iff, andb_true_iff, negb_true_iff, Z.eqb_neq, !Z.eqb_eq.
  split; [|tauto]. intros [?|?]; [tauto|]. split; [|tauto]. lia.
Qed.

(** The last digits of a century: 36524 days, or 36525 when the century ends in
    a leap year. *)
Lemma march_century y1 D :
  0 <= y1 -> 0 <= D <= 365 -> (D = 365 -> leap (y1 + 1) = true) ->
  let x := 4 * (146097 * (y1 / 100) / 4 + 1461 * (y1 mod 100) / 4 + D) + 3 in
  x / 146097 = y1 / 100 /\ (x mod 146097) / 4 = 1461 * (y1 mod 100) / 4 + D.
Proof.
  intros Hy HD Hl. rewrite leap_spec in Hl. cbv zeta.
  set (c := y1 / 100). set (d := y1 mod 100).
  assert (Ey : y1 = 100 * c + d) by (apply Z.div_mod; lia).
  assert (Hd : 0 <= d < 100) by (apply Z.mod_pos_bound; lia). clearbody c d. subst y1.
  set (a := 146097 * c / 4). assert (Ea : 4 * a = 146097 * c - c mod 4) by (unfold a; lia).
  set (b := 1461 * d / 4). assert (Eb : 4 * b = 1461 * d - d mod 4) by (unfold b; lia). clearbody a b.
  set (r := 4 * (b + D) + 3 - c mod 4).
  assert (Hr : 0 <= r < 146097).
  { unfold r. split; [lia|]. destruct (Z.eq_dec D 365) as [E|E]; [|lia].
    destruct (Z.eq_dec d 99) as [E9|E9]; [|lia]. destruct (Hl E) as [_ [H1|H1]]; [lia|].
    assert (c mod 4 = 3) by lia. lia. }
  replace (4 * (a + b + D) + 3) with (r + c * 146097) by (unfold r; lia).
  rewrite Z.div_add, Z.mod_add, Z.div_small, Z.mod_small by lia. split; [lia|]. unfold r. lia.
Qed.

Lemma march_year d D :
  0 <= d < 100 -> 0 <= D <= 365 -> (D = 365 -> (d + 1) mod 4 = 0) ->
  let x := 4 * (1461 * d / 4 + D) + 3 in
  x / 1461 = d /\ (x mod 1461) / 4 = D.
Proof.
  intros Hd HD Hl. cbv zeta.
  set (b := 1461 * d / 4). assert (Eb : 4 * b = 1461 * d - d mod 4) by (unfold b; lia). clearbody b.
  set (r := 4 * D + 3 - d mod 4). assert (Hr : 0 <= r < 1461).
  { unfold r. split; [lia|]. destruct (Z.eq_dec D 365) as [E|E]; [specialize (Hl E)|]; lia. }
  replace (4 * (b + D) + 3) with (r + d * 1461) by (unfold r; lia).
  rewrite Z.div_add, Z.mod_add, Z.div_small, Z.mod_small by lia. split; [lia|]. unfold r. lia.
Qed.

Lemma march_month m1 d :
  0 <= m1 <= 11 -> 1 <= d <= (if (153 * m1 + 2) mod 5 <? 2 then 30 else 31) ->
  let x := 5 * ((153 * m1 + 2) / 5 + d) - 3 in
  x / 153 = m1 /\ (x mod 153) / 5 + 1 = d.
Proof.
  intros Hm Hd. cbv zeta. set (q := (153 * m1 + 2) / 5).
  assert (Eq : 5 * q = 153 * m1 + 2 - (153 * m1 + 2) mod 5) by (unfold q; lia).
  assert (Hr : 0 <= (153 * m1 + 2) mod 5 < 5) by (apply Z.mod_pos_bound; lia).
  set (r5 := (153 * m1 + 2) mod 5) in *. clearbody q r5.
  set (r := 5 * d - 1 - r5). assert (0 <= r < 153).
  { unfold r. destruct (Z.ltb_spec r5 2); lia. }
  replace (5 * (q + d) - 3) with (r + m1 * 153) by (unfold r; lia).
  rewrite Z.div_add, Z.mod_add, Z.div_small, Z.mod_small by lia. split; [lia|]. unfold r. lia.
Qed.

(** [julianToDate] inverts the day count. *)
Lemma julian_fields_march y1 m1 d :
  0 <= y1 -> 0 <= m1 <= 11 -> 1 <= d <= march_days y1 m1 ->
  julian_fields (march_julian y1 m1 d) = (y1 + (m1 + 1) / 11, if m1 + 1 <? 11 then m1 + 3 else m1 - 9, d).
Proof.
  intros Hy Hm Hd. set (D := (153 * m1 + 2) / 5 + d - 1).
  assert (Hd' : 1 <= d <= (if (153 * m1 + 2) mod 5 <? 2 then 30 else 31)).
  { unfold march_days in Hd. destruct (Z.eqb_spec m1 11) as [->|]; [|done]. simpl.
    destruct (leap (y1 + 1)); simpl in *; lia. }
  assert (HD : 0 <= D <= 365 /\ (D = 365 -> leap (y1 + 1) = true)).
  { unfold D, march_days in *. destruct (Z.eqb_spec m1 11) as [->|Hne].
    - change ((153 * 11 + 2) / 5) with 337. destruct (leap (y1 + 1)); lia.
    - assert ((153 * m1 + 2) / 5 <= 306) by lia. destruct (_ <? 2); lia. }
  destruct HD as [HD Hl].
  destruct (march_century y1 D Hy HD Hl) as [C1 C2].
  assert (Hy100 : 0 <= y1 mod 100 < 100) by (apply Z.mod_pos_bound; lia).
  destruct (march_year (y1 mod 100) D Hy100 HD) as [Y1 Y2].
  { intros E. specialize (Hl E). apply leap_spec in Hl. lia. }
  destruct (march_month m1 d Hm Hd') as [M1 M2].
  unfold julian_fields, march_julian.
  assert (0 <= 146097 * (y1 / 100) / 4) by (apply Z.div_pos; [|lia]; pose proof (Z.div_pos y1 100); lia).
  assert (0 <= 1461 * (y1 mod 100) / 4) by (apply Z.div_pos; lia).
  replace (4 * _ - 6884477) with (4 * (146097 * (y1 / 100) / 4 + 1461 * (y1 mod 100) / 4 + D) + 3) by (unfold D; lia).
  set (X := 4 * (_ + _ + D) + 3) in *.
  rewrite (Z.quot_div_nonneg X), (Z.rem_mod_nonneg X) by (unfold X; lia).
  rewrite (Z.quot_div_nonneg (X mod 146097)) by (try lia; apply Z.mod_pos_bound; lia). rewrite C1, C2.
  set (X2 := 4 * (1461 * (y1 mod 100) / 4 + D) + 3) in *.
  rewrite (Z.quot_div_nonneg X2), (Z.rem_mod_nonneg X2) by (unfold X2; lia).
  rewrite (Z.quot_div_nonneg (X2 mod 1461)) by (try lia; apply Z.mod_pos_bound; lia). rewrite Y1, Y2.
  replace (5 * (D + 1) - 3) with (5 * ((153 * m1 + 2) / 5 + d) - 3) by (unfold D; lia).
  set (X3 := 5 * _ - 3) in *. assert (0 <= X3) by (unfold X3; assert (0 <= (153 * m1 + 2) / 5) by (apply Z.div_pos; lia); lia).
  rewrite (Z.quot_div_nonneg X3), (Z.rem_mod_nonneg X3) by lia.
  rewrite (Z.quot_div_nonneg (X3 mod 153)) by (try lia; apply Z.mod_pos_bound; lia). rewrite M1, M2.
  rewrite Z.quot_div_nonneg by lia. pose proof (Z.div_mod y1 100 ltac:(lia)). f_equal. f_equal; [lia|]. destruct (m1 + 1 <? 11); lia.
Qed.

Lemma julianToDate_march y1 m1 d :
  0 <= y1 -> 0 <= m1 <= 11 -> 1 <= d <= march_days y1 m1 ->
  julianToDate (march_julian y1 m1 d) = march_ddate y1 m1 d.
Proof. intros. unfold julianToDate. by rewrite julian_fields_march. Qed.

(** Every day from 1 March of year 0 on is the day of some month. *)
Lemma march_surjective j :
  1721120 <= j -> exists y1 m1 d, 0 <= y1 /\ 0 <= m1 <= 11 /\ 1 <= d <= march_days y1 m1 /\ j = march_julian y1 m1 d.
Proof.
  intros Hj. set (D0 := j - 1721120).
  set (c := (4 * D0 + 3) / 146097). set (e := (4 * D0 + 3) mod 146097).
  assert (Ec : 4 * D0 + 3 = 146097 * c + e) by (apply Z.div_mod; lia).
  assert (He : 0 <= e < 146097) by (apply Z.mod_pos_bound; lia).
  assert (Hc : 0 <= c) by (apply Z.div_pos; unfold D0; lia). clearbody c e.
  set (a := 146097 * c / 4). assert (Ea : 4 * a = 146097 * c - c mod 4) by (unfold a; lia).
  set (dd := D0 - a). assert (Edd : e = 4 * dd + 3 - c mod 4) by lia.
  assert (Hdd : 0 <= dd <= 36524) by lia.
  set (d' := (4 * dd + 3) / 1461). set (e2 := (4 * dd + 3) mod 1461).
  assert (Ed' : 4 * dd + 3 = 1461 * d' + e2) by (apply Z.div_mod; lia).
  assert (He2 : 0 <= e2 < 1461) by (apply Z.mod_pos_bound; lia). clearbody d' e2.
  assert (Hd' : 0 <= d' <= 99) by lia.
  set (b := 1461 * d' / 4). assert (Eb : 4 * b = 1461 * d' - d' mod 4) by (unfold b; lia).
  set (D := dd - b). assert (ED : e2 = 4 * D + 3 - d' mod 4) by lia. assert (HD : 0 <= D <= 365) by lia.
  set (m1 := (5 * D + 2) / 153). set (r := (5 * D + 2) mod 153).
  assert (Em : 5 * D + 2 = 153 * m1 + r) by (apply Z.div_mod; lia).
  assert (Hr : 0 <= r < 153) by (apply Z.mod_pos_bound; lia). clearbody m1 r.
  assert (Hm1 : 0 <= m1 <= 11) by lia.
  set (q := (153 * m1 + 2) / 5). assert (Eq : 5 * q = 153 * m1 + 2 - (153 * m1 + 2) mod 5) by (unfold q; lia).
  assert (Hr5 : 0 <= (153 * m1 + 2) mod 5 < 5) by (apply Z.mod_pos_bound; lia).
  assert (Er : r = 5 * (D - q) + 4 - (153 * m1 + 2) mod 5) by lia.
  exists (100 * c + d'), m1, (D - q + 1). split; [lia|]. split; [done|].
  assert (E1 : (100 * c + d') / 100 = c) by lia. assert (E2 : (100 * c + d') mod 100 = d') by lia.
  split; [|unfold march_julian; rewrite E1, E2; fold a b q; unfold D, dd, D0; lia].
  split; [lia|]. unfold march_days. destruct (Z.eqb_spec m1 11) as [->|Hne].
  - change q with 337. destruct (leap (100 * c + d' + 1)) eqn:Hl; [lia|].
    destruct (Z.eq_dec D 365) as [E|E]; [|lia]. exfalso. apply not_true_iff_false in Hl. apply Hl, leap_spec.
    assert (d' mod 4 = 3) by lia. split; [lia|]. destruct (Z.eq_dec d' 99) as [->|]; [|left; lia].
    right. assert (dd = 36524) by lia. assert (c mod 4 = 3) by lia. lia.
  - destruct (Z.ltb_spec ((153 * m1 + 2) mod 5) 2); lia.
Qed.

(** *** Numbers that fit *)

Lemma as_long_ok v : - 2 ^ 63 <= v < 2 ^ 63 -> as_long v = Ok v.
Proof. intros Hv. unfold as_long. by rewrite (proj2 (in_S_spec 64 v) Hv). Qed.

Lemma march_julian_lower y1 m1 d : 0 <= y1 -> 0 <= m1 -> 0 <= d -> 36524 * (y1 / 100) <= march_julian y1 m1 d.
Proof.
  intros Hy Hm Hd. unfold march_julian. assert (0 <= (153 * m1 + 2) / 5) by (apply Z.div_pos; lia).
  assert (0 <= 1461 * (y1 mod 100) / 4) by (apply Z.div_pos; lia). pose proof (Z.div_pos y1 100). lia.
Qed.
Lemma march_julian_upper y1 m1 d : 0 <= y1 -> 0 <= m1 <= 108 -> d <= 99 -> march_julian y1 m1 d <= 36525 * (y1 / 100) + 2000000.
Proof.
  intros Hy Hm Hd. unfold march_julian. assert ((153 * m1 + 2) / 5 <= 3306) by (apply Z.div_le_upper_bound; lia).
  assert (1461 * (y1 mod 100) / 4 <= 36160) by (apply Z.div_le_upper_bound; lia).
  assert (146097 * (y1 / 100) / 4 <= 36525 * (y1 / 100)) by (apply Z.div_le_upper_bound; [lia|]; pose proof (Z.div_pos y1 100); lia). lia.
Qed.

Lemma julianToDate_fits j : 1721120 <= j <= 2 ^ 58 -> julianToDate_long j = Ok (julianToDate j).
Proof.
  intros Hj. unfold julianToDate_long, julianToDate. rewrite !as_long_ok by lia. cbn [mbind outcome_mbind outcome_bind]. rewrite as_long_ok by lia. cbn [mbind outcome_mbind outcome_bind].
  destruct (march_surjective j) as (y1 & m1 & d & Hy & Hm & Hd & E); [lia|]. rewrite E, julian_fields_march by done.
  pose proof (march_julian_lower y1 m1 d ltac:(lia) ltac:(lia) ltac:(lia)) as Hlow. rewrite <- E in Hlow.
  assert (Hd31 : d <= 31) by (unfold march_days in Hd; repeat case_match; lia).
  assert (Hmon : 1 <= (if m1 + 1 <? 11 then m1 + 3 else m1 - 9) <= 12) by (destruct (Z.ltb_spec (m1 + 1) 11); lia).
  set (mon := if _ <? 11 then _ else _) in *. clearbody mon. assert (Hyear : 0 <= y1 + (m1 + 1) / 11 <= 800000000000000) by lia.
  rewrite as_long_ok by lia. cbn [mbind outcome_mbind outcome_bind]. rewrite as_long_ok by lia. done.
Qed.

(** ** Calendar dates *)

Definition ddate (y m d : Z) : Z := y * 10000 + m * 100 + d.

Lemma fields_ddate y m d : 0 <= y -> 0 <= m < 100 -> 0 <= d < 100 ->
  Z.quot (ddate y m d) 10000 = y /\ Z.quot (Z.rem (ddate y m d) 10000) 100 = m /\
  Z.rem (Z.rem (ddate y m d) 10000) 100 = d /\ Z.rem (ddate y m d) 100 = d.
Proof. unfold ddate. intros. to_div. lia. Qed.

(** From a calendar month to a month counted from March. *)
Definition y1_of (y m : Z) : Z := if m >? 2 then y else y - 1.
Definition m1_of (m : Z) : Z := if m >? 2 then m - 3 else m + 9.

Lemma march_days_month y m : 1 <= m <= 12 -> march_days (y1_of y m) (m1_of m) = days_in_month y m.
Proof.
  intros Hm. assert (m = 1 \/ m = 2 \/ m = 3 \/ m = 4 \/ m = 5 \/ m = 6 \/ m = 7 \/ m = 8 \/ m = 9 \/ m = 10 \/ m = 11 \/ m = 12) as Hc by lia.
  unfold march_days, days_in_month, y1_of, m1_of.
  repeat destruct Hc as [->|Hc]; [..|subst m]; simpl; try reflexivity.
  by replace (y - 1 + 1) with y by lia.
Qed.

Lemma march_ddate_month y m d : 1 <= m <= 12 -> march_ddate (y1_of y m) (m1_of m) d = ddate y m d.
Proof.
  intros Hm. unfold march_ddate, ddate, y1_of, m1_of.
  rewrite Z.gtb_ltb. destruct (Z.ltb_spec 2 m).
  - destruct (Z.ltb_spec (m - 3 + 1) 11); lia.
  - destruct (Z.ltb_spec (m + 9 + 1) 11); lia.
Qed.

Lemma dateToJulian_ddate today y m d :
  100 <= y -> 0 <= m < 100 -> 0 <= d < 100 ->
  dateToJulian today (ddate y m d) = march_julian (y1_of y m) (m1_of m) d.
Proof.
  intros Hy Hm Hd. destruct (fields_ddate y m d) as (E1 & E2 & E3 & _); [lia..|].
  unfold dateToJulian. destruct (Z.leb_spec (ddate y m d) 0); [unfold ddate in *; lia|].
  rewrite E1, E2, E3. rewrite (proj2 (Z.ltb_ge y 100)) by lia.
  unfold march_julian, y1_of, m1_of. destruct (m >? 2) eqn:Hg; rewrite Z.gtb_ltb in Hg; [apply Z.ltb_lt in Hg|apply Z.ltb_ge in Hg];
    to_div; try lia; pose proof (Z.div_pos y 100); pose proof (Z.div_pos (y - 1) 100); lia.
Qed.

(** What [julianToDate] shows is a date of the calendar. *)
Lemma julianToDate_valid j :
  1721120 <= j -> exists y m d, 0 <= y /\ valid y m d /\ julianToDate j = ddate y m d.
Proof.
  intros Hj. destruct (march_surjective j Hj) as (y1 & m1 & d & Hy & Hm & Hd & ->).
  rewrite julianToDate_march by done.
  set (m := if m1 + 1 <? 11 then m1 + 3 else m1 - 9). set (y := y1 + (m1 + 1) / 11).
  assert (Hmm : 1 <= m <= 12 /\ y1_of y m = y1 /\ m1_of m = m1).
  { unfold y, m, y1_of, m1_of. destruct (Z.ltb_spec (m1 + 1) 11); rewrite Z.gtb_ltb.
    - rewrite (proj2 (Z.ltb_lt 2 _)) by lia. lia.
    - rewrite (proj2 (Z.ltb_ge 2 _)) by lia. lia. }
  destruct Hmm as (Hm12 & E1 & E2). exists y, m, d. split; [unfold y; lia|]. split.
  - split; [done|]. rewrite <- march_days_month, E1, E2 by done. done.
  - rewrite <- march_ddate_month, E1, E2 by done. done.
Qed.

Lemma march_julian_large y m d : 100 <= y -> 0 <= m < 100 -> 0 <= d -> 1721120 <= march_julian (y1_of y m) (m1_of m) d.
Proof.
  intros Hy Hm Hd. unfold march_julian.
  assert (Hy1 : 99 <= y1_of y m) by (unfold y1_of; destruct (m >? 2); lia).
  assert (Hm1 : 0 <= m1_of m).
  { unfold m1_of. rewrite Z.gtb_ltb. destruct (Z.ltb_spec 2 m); lia. }
  set (y1 := y1_of y m) in *. set (m1 := m1_of m) in *. clearbody y1 m1.
  assert (0 <= (153 * m1 + 2) / 5) by (apply Z.div_pos; lia).
  assert (y1 / 100 = 0 /\ y1 mod 100 = 99 \/ 1 <= y1 / 100) by lia.
  assert (0 <= 1461 * (y1 mod 100) / 4) by (apply Z.div_pos; lia).
  destruct H0 as [[-> ->]|?]; [change (1461 * 99 / 4) with 36159 in *; lia|].
  assert (146097 * 1 / 4 <= 146097 * (y1 / 100) / 4) by (apply Z.div_le_mono; lia). lia.
Qed.

Lemma days_in_month_bounds y m : 28 <= days_in_month y m <= 31.
Proof. unfold days_in_month. repeat case_match; lia. Qed.

(** The day after, as a julian number. *)
Lemma march_next y m d :
  100 <= y -> valid y m d ->
  let '(y', m', d') := next_day y m d in
  valid y' m' d' /\ 100 <= y' /\ march_julian (y1_of y' m') (m1_of m') d' = march_julian (y1_of y m) (m1_of m) d + 1.
Proof.
  intros Hy [Hm Hd]. unfold next_day. destruct (Z.ltb_spec d (days_in_month y m)) as [Hlt|Hge].
  { split; [split; [done|lia]|]. split; [done|]. unfold march_julian. lia. }
  assert (d = days_in_month y m) as -> by lia.
  destruct (Z.ltb_spec m 12).
  - split; [split; [lia|]; pose proof (days_in_month_bounds y (m + 1)); lia|]. split; [done|].
    assert (m = 1 \/ m = 2 \/ m = 3 \/ m = 4 \/ m = 5 \/ m = 6 \/ m = 7 \/ m = 8 \/ m = 9 \/ m = 10 \/ m = 11) as Hc by lia.
    unfold march_julian, days_in_month, y1_of, m1_of.
    repeat destruct Hc as [->|Hc]; [..|subst m]; simpl; try lia.
    destruct (leap y) eqn:Hl.
    + apply leap_spec in Hl. lia.
    + apply not_true_iff_false in Hl. rewrite leap_spec in Hl. lia.
  - assert (m = 12) as -> by lia. split; [split; [lia|]; pose proof (days_in_month_bounds (y + 1) 1); lia|].
    split; [lia|]. unfold march_julian, days_in_month, y1_of, m1_of. simpl. replace (y + 1 - 1) with y by lia. lia.
Qed.

(** ** Printing and parsing *)

(** A text of digits, as the tokenizer and [atol] see it. *)
Lemma digits_plain t : all_digits t -> plain (separator_ (Tokenizer_string (str "-") false)) t.
Proof.
  intros Ht. eapply Forall_impl; [exact Ht|]. intros c Hc Hin. simpl in Hin.
  apply elem_of_union in Hin as [Hin%elem_of_singleton|Hin]; [|set_solver]. subst c. discriminate.
Qed.

Lemma digits_word t n : all_digits t -> length t = S n ->
  plain (separator_ (Tokenizer_string (str "-") false)) t /\ (false = true \/ t <> []).
Proof. intros Ht Hl. split; [by apply digits_plain|]. right. by intros ->. Qed.



Lemma print_long_ok n : 0 <= n < 10 ^ 20 -> all_digits (print_long n) /\ atol (print_long n) = n.
Proof.
  intros Hn. unfold print_long. rewrite (proj2 (Z.ltb_ge n 0)) by lia. destruct (decimal_ok 20 n Hn) as [Hd Hv].
  split; [done|]. by rewrite atol_digits.
Qed.

Lemma print_two_ok n : 0 <= n <= 99 -> all_digits (print_two n) /\ atol (print_two n) = n /\ length (print_two n) = 2%nat.
Proof.
  intros Hn. destruct (print_long_ok n ltac:(lia)) as [Hd Hv]. unfold print_two.
  destruct (Z.ltb_spec n 10).
  - assert (Hl : length (print_long n) = 1%nat).
    { unfold print_long. rewrite (proj2 (Z.ltb_ge n 0)) by lia. cbn [decimal].
      by rewrite (proj2 (Z.ltb_lt n 10)) by lia. }
    rewrite Hl. simpl. split; [by constructor|]. split; [|by rewrite Hl].
    rewrite atol_digits in Hv by done. rewrite <- Hv at 2. apply (atol_digits ("0"%byte :: print_long n)). by constructor.
  - assert (Hl : length (print_long n) = 2%nat).
    { unfold print_long. rewrite (proj2 (Z.ltb_ge n 0)) by lia. apply decimal_length; [|lia]. simpl. lia. }
    rewrite Hl. simpl. done.
Qed.

(** ** Properties *)

(** The constructor, for years below [2^49] and fields of two digits; a year of two digits is
    one of the twentieth century. *)
Definition full_year (y : Z) : Z := if y <? 100 then y + 1900 else y.

Lemma ymd_number_ok y m d : 0 <= y < 2 ^ 49 -> 0 <= m <= 99 -> 0 <= d <= 99 -> ymd_number y m d = Ok (ddate y m d).
Proof. intros Hy Hm Hd. unfold ymd_number, ddate. repeat (rewrite as_long_ok by lia; cbn [mbind outcome_mbind outcome_bind]). done. Qed.

Lemma dateToJulian_year today y m d : 0 <= y -> 0 <= m < 100 -> 0 <= d < 100 -> 0 < ddate y m d ->
  dateToJulian today (ddate y m d) = dateToJulian today (ddate (full_year y) m d).
Proof.
  intros Hy Hm Hd Hpos. unfold full_year. destruct (Z.ltb_spec y 100) as [Hlt|]; [|done].
  destruct (fields_ddate y m d) as (E1 & E2 & E3 & _); [lia..|]. destruct (fields_ddate (y + 1900) m d) as (F1 & F2 & F3 & _); [lia..|].
  unfold dateToJulian. rewrite (proj2 (Z.leb_gt (ddate y m d) 0)), (proj2 (Z.leb_gt (ddate (y + 1900) m d) 0)) by (unfold ddate in *; lia).
  rewrite E1, E2, E3, F1, F2, F3, (proj2 (Z.ltb_lt y 100)), (proj2 (Z.ltb_ge (y + 1900) 100)) by lia. done.
Qed.

Lemma ymd_eq today y m d : 0 <= y < 2 ^ 49 -> 0 <= m <= 99 -> 0 <= d <= 99 -> 0 < ddate y m d ->
  let dt := mkDate (march_julian (y1_of (full_year y) m) (m1_of m) d) in
  Date_ymd today y m d = if ddate (full_year y) m d =? yyyymmdd dt then Ok dt else Throw BadDate.
Proof.
  intros Hy Hm Hd Hpos. cbv zeta. assert (HY : 100 <= full_year y < 2 ^ 49 + 1900) by (unfold full_year; destruct (Z.ltb_spec y 100); lia).
  unfold Date_ymd. rewrite ymd_number_ok by lia. cbn [mbind outcome_mbind outcome_bind]. rewrite dateToJulian_year, dateToJulian_ddate by lia.
  unfold check. replace (if ddate y m d <=? 999999 then ddate y m d + 19000000 else ddate y m d) with (ddate (full_year y) m d)
    by (unfold full_year, ddate in *; destruct (Z.ltb_spec y 100), (Z.leb_spec (y * 10000 + m * 100 + d) 999999); lia).
  assert (Hy1 : 0 <= y1_of (full_year y) m < 2 ^ 49 + 1900) by (unfold y1_of; destruct (m >? 2); lia).
  assert (Hm1 : 0 <= m1_of m <= 108) by (unfold m1_of; rewrite Z.gtb_ltb; destruct (Z.ltb_spec 2 m); lia).
  pose proof (march_julian_upper (y1_of (full_year y) m) (m1_of m) d ltac:(lia) Hm1 ltac:(lia)).
  cbn [julian_]. rewrite julianToDate_fits; [|split; [apply march_julian_large; lia|lia]]. cbn [mbind outcome_mbind outcome_bind]. unfold yyyymmdd. cbn [julian_].
  by destruct (ddate (full_year y) m d =? _).
Qed.

Lemma shown_valid y m d : 100 <= y -> valid y m d -> yyyymmdd (mkDate (march_julian (y1_of y m) (m1_of m) d)) = ddate y m d.
Proof.
  intros Hy [Hm Hd]. unfold yyyymmdd. simpl. rewrite julianToDate_march, march_ddate_month; [done|done| | |].
  - unfold y1_of. destruct (m >? 2); lia.
  - unfold m1_of. rewrite Z.gtb_ltb. destruct (Z.ltb_spec 2 m); lia.
  - by rewrite march_days_month.
Qed.

Lemma full_year_id y : 100 <= y -> full_year y = y.
Proof. intros H. unfold full_year. by rewrite (proj2 (Z.ltb_ge y 100)). Qed.

Lemma ymd_valid today y m d : 100 <= y < 2 ^ 49 -> valid y m d ->
  Date_ymd today y m d = Ok (mkDate (march_julian (y1_of y m) (m1_of m) d)) /\
  yyyymmdd (mkDate (march_julian (y1_of y m) (m1_of m) d)) = ddate y m d.
Proof.
  intros Hy Hv. pose proof Hv as [Hm Hd]. pose proof (days_in_month_bounds y m). pose proof (shown_valid y m d ltac:(lia) Hv) as E. split; [|done].
  rewrite ymd_eq by (unfold ddate; lia). rewrite full_year_id by lia. by rewrite E, Z.eqb_refl.
Qed.

Lemma date_fields dt y m d : yyyymmdd dt = ddate y m d -> 100 <= y -> valid y m d ->
  year dt = y /\ month dt = m /\ day dt = d.
Proof.
  intros E Hy [Hm Hd]. pose proof (days_in_month_bounds y m).
  destruct (fields_ddate y m d) as (E1 & E2 & _ & E4); [lia..|]. unfold year, month, day. unfold yyyymmdd in E. by rewrite E.
Qed.

(** C11. A year below [2^49], a month and a day of at most two digits, not all zero, are
    accepted exactly when they name a day of the Gregorian calendar, where a year below 100
    is one of the years from 1900; the date then shows the year, month and day.
    Everything else throws [BadDate], and nothing overflows. *)
Theorem date_accepts_calendar (today y m d : Z) :
  0 <= y < 2 ^ 49 -> 0 <= m <= 99 -> 0 <= d <= 99 -> 0 < ddate y m d ->
  (valid (full_year y) m d -> exists dt, Date_ymd today y m d = Ok dt /\ year dt = full_year y /\ month dt = m /\ day dt = d) /\
  (~ valid (full_year y) m d -> Date_ymd today y m d = Throw BadDate).
Proof.
  intros Hy Hm Hd Hpos. rewrite ymd_eq by done. assert (HY : 100 <= full_year y) by (unfold full_year; destruct (Z.ltb_spec y 100); lia).
  set (Y := full_year y) in *. clearbody Y. split.
  - intros Hv. pose proof (shown_valid Y m d HY Hv) as E. rewrite E, Z.eqb_refl. eexists. split; [done|]. by apply date_fields.
  - intros Hv. destruct (Z.eqb_spec (ddate Y m d) (yyyymmdd (mkDate (march_julian (y1_of Y m) (m1_of m) d)))) as [E|]; [|done].
    exfalso. unfold yyyymmdd in E. simpl in E.
    destruct (julianToDate_valid (march_julian (y1_of Y m) (m1_of m) d)) as (y' & m' & d' & Hy' & Hv' & E').
    { apply march_julian_large; lia. }
    rewrite E' in E. pose proof Hv' as [Hm' Hd']. pose proof (days_in_month_bounds y' m').
    assert (Y = y' /\ m = m' /\ d = d') as (-> & -> & ->) by (unfold ddate in E; lia). done.
Qed.

Lemma date_accepts_calendar_witness :
  (exists dt, Date_ymd 0 2024 2 29 = Ok dt /\ year dt = 2024 /\ month dt = 2 /\ day dt = 29) /\
  (exists dt, Date_ymd 0 96 2 29 = Ok dt /\ year dt = 1996 /\ month dt = 2 /\ day dt = 29) /\
  Date_ymd 0 2023 2 29 = Throw BadDate.
Proof.
  split_and!.
  - apply (date_accepts_calendar 0 2024 2 29); [lia..|reflexivity|]. split; [lia|]. vm_compute. split; discriminate.
  - apply (date_accepts_calendar 0 96 2 29); [lia..|reflexivity|]. split; [lia|]. vm_compute. split; discriminate.
  - apply (date_accepts_calendar 0 2023 2 29); [lia..|reflexivity|]. intros [_ H]. vm_compute in H. destruct H as [_ H]. by apply H.
Defined.

(** Only the number is checked: fields that are out of range are accepted when their sum is a
    date; and a large year overflows. *)
Example date_fields_carry : Date_ymd 0 2023 0 101 = Date_ymd 0 2023 1 1 /\ (exists dt, Date_ymd 0 2023 0 101 = Ok dt) /\
  Date_ymd 0 (2 ^ 53) 1 1 = Undef.
Proof. split_and!; [by vm_compute|eexists; by vm_compute|by vm_compute]. Qed.

(** Adding one day to a date gives the next day of the calendar, over the
    ends of months, years and centuries. *)
Theorem date_next_day (today y m d : Z) :
  100 <= y < 2 ^ 49 - 1 -> valid y m d ->
  exists dt, Date_ymd today y m d = Ok dt /\
    (year (Date_add dt 1), month (Date_add dt 1), day (Date_add dt 1)) = next_day y m d.
Proof.
  intros Hy Hv. destruct (ymd_valid today y m d ltac:(lia) Hv) as [E _]. eexists. split; [exact E|].
  pose proof (march_next y m d ltac:(lia) Hv) as Hn. destruct (next_day y m d) as [[y' m'] d'].
  destruct Hn as (Hv' & Hy' & Hj). unfold Date_add. simpl. rewrite <- Hj.
  pose proof (shown_valid y' m' d' Hy' Hv') as E'.
  destruct (date_fields _ _ _ _ E' Hy' Hv') as (-> & -> & ->). done.
Qed.

Lemma date_next_day_witness :
  exists dt, Date_ymd 0 1900 2 28 = Ok dt /\
    (year (Date_add dt 1), month (Date_add dt 1), day (Date_add dt 1)) = (1900, 3, 1).
Proof.
  apply (date_next_day 0 1900 2 28); [lia|]. split; [lia|]. vm_compute. split; discriminate.
Defined.

(** A date between the years 1000 and 9999 is read back from its printed
    form yyyy-mm-dd. *)
Theorem date_print_parse (today y m d : Z) :
  1000 <= y <= 9999 -> valid y m d ->
  exists dt, Date_ymd today y m d = Ok dt /\ Date_string today (print dt) = Ok dt.
Proof.
  intros Hy Hv. destruct (ymd_valid today y m d ltac:(lia) Hv) as [E E']. eexists. split; [exact E|].
  set (dt := mkDate _) in *. pose proof Hv as [Hm Hd]. pose proof (days_in_month_bounds y m).
  destruct (fields_ddate y m d) as (E1 & E2 & E3 & E4); [lia..|].
  destruct (print_long_ok y ltac:(lia)) as [DY VY]. destruct (print_two_ok m ltac:(lia)) as (DM & VM & LM).
  destruct (print_two_ok d ltac:(lia)) as (DD & VD & LD).
  assert (LY : length (print_long y) = 4%nat).
  { unfold print_long. rewrite (proj2 (Z.ltb_ge y 0)) by lia. apply decimal_length; [simpl; lia|lia]. }
  assert (Ep : print dt = join (str "-") [print_long y; print_two m; print_two d]).
  { unfold print. unfold yyyymmdd in E'. rewrite E', E1, E2, E3. unfold join. rewrite join_loop_app. simpl.
    by rewrite app_nil_r. }
  assert (Et : tokenize (Tokenizer_string (str "-") false) (print dt) = [print_long y; print_two m; print_two d]).
  { rewrite Ep. apply tokenize_join; [simpl; set_solver| |done].
    constructor; [by eapply digits_word|]. constructor; [by eapply digits_word|].
    constructor; [by eapply digits_word|]. constructor. }
  unfold Date_ymd in E. rewrite ymd_number_ok in E by lia. cbn [mbind outcome_mbind outcome_bind] in E.
  unfold Date_string, parse. rewrite Et, VY, VM, VD, ymd_number_ok by lia. cbn [mbind outcome_mbind outcome_bind].
  rewrite decide_True by tauto. cbn [mbind outcome_mbind outcome_bind]. rewrite E4. rewrite (proj2 (Z.eqb_neq d 0)) by lia. exact E.
Qed.

Lemma date_print_parse_witness :
  exists dt, Date_ymd 0 2000 2 29 = Ok dt /\ Date_string 0 (print dt) = Ok dt.
Proof. apply (date_print_parse 0 2000 2 29); [lia|]. split; [lia|]. vm_compute. split; discriminate. Defined.
