(* ===== verification/Time.v ===== *)
(** * Times of day and steps

    [types/Time.cc]: recognition of the written forms of a time (digits,
    [hh:mm:ss], units as in [1d2h], decimal hours), the constructors with their
    checks, and printing.  [seconds_] is a [double] in the code; the constructors
    modelled here only store whole numbers of seconds, which it holds exactly, so
    it is an integer.  The decimal form goes through [stod] and [lround]: the
    number of seconds they give is a parameter. *)
From S2P Require Import Prelude Text Strings Date.
#[local] Ltac Zify.zify_post_hook ::= Z.to_euclidean_division_equations.

Inductive TimeFormat : Type := INVALID | UNITS | COLON | DIGITS | DECIMAL.

Record tokenized_time : Type := mkTokenized { type_ : TimeFormat; minus : bool; integers : list text }.

(** The variables of the scanning loop. *)
Record scan : Type := mkScan {
  sc_type : TimeFormat;
  hasDecimal : bool;
  hasColon : bool;
  hasUnits : bool;
  tokenId : nat;
  tokenStart : nat;
  sc_integers : list text }.

(** Cases 'd', 'h', 'm' and 's', for token [k]; [None] is [return] with [INVALID]. *)
Definition scan_unit (time : text) (i k : nat) (s : scan) : option scan :=
  if hasColon s || hasDecimal s || bool_decide (k < tokenId s)%nat then None
  else Some (mkScan UNITS (hasDecimal s) (hasColon s) true (S k) (S i)
               (<[k := substr time (tokenStart s) (i - tokenStart s)]> (sc_integers s))).

Definition scan_point (time : text) (i : nat) (s : scan) : option scan :=
  if hasDecimal s || hasColon s || hasUnits s || bool_decide (i = length time - 1)%nat then None
  else Some (mkScan (sc_type s) true (hasColon s) (hasUnits s) (tokenId s) (tokenStart s) (sc_integers s)).

Definition scan_colon (time : text) (i : nat) (s : scan) : option scan :=
  let s := if hasColon s then s
           else mkScan COLON (hasDecimal s) true (hasUnits s) 1 (tokenStart s) (sc_integers s) in
  if bool_decide (2 < tokenId s)%nat || bool_decide (i <= tokenStart s)%nat then None
  else Some (mkScan (sc_type s) (hasDecimal s) (hasColon s) (hasUnits s) (S (tokenId s)) (S i)
               (<[tokenId s := substr time (tokenStart s) (i - tokenStart s)]> (sc_integers s))).

Definition scan_char (time : text) (i : nat) (c : byte) (s : scan) : option scan :=
  let l := tolower c in
  if decide (l = "d"%byte) then scan_unit time i 0 s
  else if decide (l = "h"%byte) then scan_unit time i 1 s
  else if decide (l = "m"%byte) then scan_unit time i 2 s
  else if decide (l = "s"%byte) then scan_unit time i 3 s
  else if decide (l = "."%byte) then scan_point time i s
  else if decide (l = ":"%byte) then scan_colon time i s
  else if isdigit c then Some s
  else None.

(** The loop over the characters left, from position [i]. *)
Fixpoint scan_loop (time r : text) (i : nat) (s : scan) : option scan :=
  match r with
  | [] => Some s
  | c :: r => s ← scan_char time i c s; scan_loop time r (S i) s
  end.

Definition checkTimeFormat (time : text) : outcome tokenized_time :=
  match time with
  | [] => Undef   (* [time[0]] of an empty view *)
  | c0 :: _ =>
      let minus := bool_decide (c0 = "-"%byte) in
      let start := if minus then 1%nat else 0%nat in
      match scan_loop time (drop start time) start (mkScan INVALID false false false 0 start [[]; []; []; []]) with
      | None => Ok (mkTokenized INVALID minus [[]; []; []; []])
      | Some s =>
          if hasColon s then
            Ok (mkTokenized (sc_type s) minus
              (if decide (tokenStart s < length time)%nat
               then <[tokenId s := substr time (tokenStart s) (length time - tokenStart s)]> (sc_integers s)
               else sc_integers s))
          else if hasUnits s then Ok (mkTokenized (sc_type s) minus (sc_integers s))
          else Ok (mkTokenized (if hasDecimal s then DECIMAL else DIGITS) minus
                     (<[1%nat := drop (tokenStart s) time]> (sc_integers s)))
      end
  end.

(** [std::stol] on a token, which starts with a digit or a point. *)
Definition s2l (s : text) : outcome Z :=
  match s with
  | [] => Ok 0
  | c :: _ =>
      if isdigit c then
        let v := digits_value 0 s in if in_S 64 v then Ok v else Throw StdOutOfRange
      else Throw StdInvalidArgument
  end.

(** The value of an expression of type [long]; overflow is undefined. *)
Definition long (z : Z) : outcome Z := if in_S 64 z then Ok z else Undef.

Definition printTime (n : Z) : text := (if n <? 10 then ["0"%byte] else []) ++ print_long n.

Record Time : Type := mkTime { seconds_ : Z }.

Section Time.
(** [std::lround((minus ? -1 : 1) * s2d(token) * 3600)] *)
Variable lround_hours : bool -> text -> Z.

(** [Time(long seconds, bool extended)] *)
Definition Time_seconds (seconds : Z) (extended : bool) : outcome Time :=
  if (86400 <=? seconds) && negb extended || (seconds <? 0) then Throw BadTime else Ok (mkTime seconds).

Definition Time_hms (hh mm ss : Z) (extended : bool) : outcome Time :=
  value ← long (hh * 3600 + mm * 60 + ss);
  if (60 <=? mm) || (60 <=? ss) || negb extended && ((24 <=? hh) || (hh <? 0) || (mm <? 0) || (ss <? 0))
  then Throw BadTime else Ok (mkTime value).

(** Days, hours, minutes and seconds of a tokenised time; the text is [n] long. *)
Definition fields (tt : tokenized_time) (n : nat) (extended : bool) : outcome (Z * Z * Z * Z) :=
  let tok k := default [] (integers tt !! k) in
  match type_ tt with
  | DIGITS =>
      v ← s2l (tok 1%nat);
      let t := (if minus tt then -1 else 1) * v in
      let sign := if minus tt then 1%nat else 0%nat in
      Ok (if extended || bool_decide (n <= 2 + sign)%nat then (0, t, 0, 0)
          else if bool_decide (n <= 4 + sign)%nat then (0, Z.quot t 100, Z.rem t 100, 0)
          else (0, Z.quot t 10000, Z.rem (Z.quot t 100) 100, Z.rem t 100))
  | DECIMAL =>
      let sec := lround_hours (minus tt) (tok 1%nat) in
      let hh := Z.quot sec 3600 in
      let sec := sec - hh * 3600 in
      let mm := Z.quot sec 60 in
      Ok (0, hh, mm, sec - mm * 60)
  | COLON =>
      hh ← s2l (tok 1%nat); mm ← s2l (tok 2%nat); ss ← s2l (tok 3%nat);
      Ok (0, hh, mm, ss)
  | UNITS =>
      dd ← s2l (tok 0%nat); hh ← s2l (tok 1%nat); mm ← s2l (tok 2%nat); ss ← s2l (tok 3%nat);
      ss ← long (ss + 60 * (mm + 60 * (hh + 24 * dd)));
      let ss := if minus tt then - ss else ss in
      Ok (Z.quot ss 86400, Z.rem (Z.quot ss 3600) 24, Z.rem (Z.quot ss 60) 60, Z.rem ss 60)
  | INVALID => Throw BadTime
  end.

(** [Time(const std::string&, bool extended)] *)
Definition Time_string (s : text) (extended : bool) : outcome Time :=
  tt ← checkTimeFormat s;
  '(dd, hh, mm, ss) ← fields tt (length s) extended;
  if (60 <=? mm) || (60 <=? ss) ||
     negb extended && ((24 <=? hh) || (0 <? dd) || (hh <? 0) || (mm <? 0) || (ss <? 0))
  then Throw BadTime
  else seconds ← long (dd * 86400 + hh * 3600 + mm * 60 + ss); Ok (mkTime seconds).
End Time.

Definition hours (t : Time) : Z := Z.quot (seconds_ t) 3600.
Definition minutes (t : Time) : Z := Z.quot (Z.rem (seconds_ t) 3600) 60.
Definition seconds (t : Time) : Z := Z.rem (seconds_ t) 60.
Definition hhmmss (t : Time) : Z := hours t * 10000 + minutes t * 100 + seconds t.

Definition print_time (t : Time) : text :=
  printTime (hours t) ++ [":"%byte] ++ printTime (minutes t) ++ [":"%byte] ++ printTime (seconds t).

Definition no_decimal (_ : bool) (_ : text) : Z := 0.
Example time_ex1 : Time_string no_decimal (str "12:30:05") false = Ok (mkTime 45005).
Proof. vm_compute. reflexivity. Qed.
Example time_ex2 : Time_string no_decimal (str "-1h30m") true = Ok (mkTime (-5400)).
Proof. vm_compute. reflexivity. Qed.
Example time_ex3 : Time_string no_decimal (str "-1:30") true = Ok (mkTime 5400).
Proof. vm_compute. reflexivity. Qed.
Example time_ex4 : Time_string no_decimal (str "1h30") false = Ok (mkTime 3600).
Proof. vm_compute. reflexivity. Qed.
Example time_ex5 : Time_string no_decimal (str "123456") false = Ok (mkTime 45296).
Proof. vm_compute. reflexivity. Qed.
Example time_ex6 : Time_string no_decimal (str "1.5:30") false = Ok (mkTime 5400).
Proof. vm_compute. reflexivity. Qed.

(** ** Digits *)

Lemma scan_digit time i c s : isdigit c = true -> scan_char time i c s = Some s.
Proof. intros Hc. by destruct c. Qed.

Lemma scan_colon_char time i s : scan_char time i ":"%byte s = scan_colon time i s.
Proof. done. Qed.

(** A number below 100, printed in two characters. *)
Definition two_digits (n : Z) (a b : byte) : Prop :=
  isdigit a = true /\ isdigit b = true /\ n = (byte.unsigned a - 48) * 10 + (byte.unsigned b - 48).

Lemma printTime_two n : 0 <= n <= 99 -> exists a b, printTime n = [a; b] /\ print_two n = [a; b] /\ two_digits n a b.
Proof.
  intros Hn. assert (Hp : printTime n = print_two n).
  { unfold printTime, print_two, print_long. rewrite (proj2 (Z.ltb_ge n 0)) by lia.
    destruct (Z.ltb_spec n 10).
    - cbn [decimal]. by rewrite (proj2 (Z.ltb_lt n 10)) by lia.
    - rewrite (decimal_length 20 n 1); [done| |lia]. simpl. lia. }
  destruct (print_two_ok n Hn) as (Hd & Hv & Hl). rewrite Hp.
  destruct (print_two n) as [|a [|b [|]]]; try done. exists a, b. split_and!; [done|done|].
  rewrite atol_digits in Hv by done. apply Forall_cons in Hd as [Ha [Hb _]%Forall_cons].
  cbn [digits_value] in Hv. rewrite Ha, Hb in Hv. split_and!; done || lia.
Qed.

Lemma digit_range c : isdigit c = true -> 0 <= byte.unsigned c - 48 <= 9.
Proof. unfold isdigit. rewrite andb_true_iff, !Z.leb_le. lia. Qed.

Lemma s2l_two n a b : two_digits n a b -> s2l [a; b] = Ok n.
Proof.
  intros (Ha & Hb & ->). unfold s2l. rewrite Ha. cbn [digits_value]. rewrite Ha, Hb.
  pose proof (digit_range a Ha). pose proof (digit_range b Hb).
  rewrite (proj2 (in_S_spec 64 _)) by lia. done.
Qed.

Lemma digit_not_minus c : isdigit c = true -> c <> "-"%byte.
Proof. by intros Hc ->. Qed.

(** The scan of [hh:mm:ss] from position [start]. *)
Lemma scan_hms pre h1 h2 m1 m2 s1 s2 :
  let time := pre ++ [h1; h2; ":"; m1; m2; ":"; s1; s2]%byte in
  let start := length pre in
  isdigit h1 = true -> isdigit h2 = true -> isdigit m1 = true -> isdigit m2 = true ->
  isdigit s1 = true -> isdigit s2 = true ->
  scan_loop time (drop start time) start (mkScan INVALID false false false 0 start [[]; []; []; []]) =
    Some (mkScan COLON false true false 3 (start + 6) [[]; [h1; h2]; [m1; m2]; []]) /\
  substr time (start + 6) (length time - (start + 6)) = [s1; s2].
Proof.
  intros time start H1 H2 H3 H4 H5 H6.
  assert (Hsub : forall k n, substr time (start + k) n = take n (drop k [h1; h2; ":"; m1; m2; ":"; s1; s2]%byte)).
  { intros k n. unfold substr, time, start. by rewrite <- drop_drop, drop_app_length. }
  assert (Hd : drop start time = [h1; h2; ":"; m1; m2; ":"; s1; s2]%byte) by apply drop_app_length.
  assert (Hl : length time = (start + 8)%nat) by (unfold time, start; by rewrite length_app).
  split; [|rewrite Hl, Hsub; by replace (start + 8 - (start + 6))%nat with 2%nat by lia].
  rewrite Hd. cbn [scan_loop]. unfold mbind, option_bind.
  rewrite !scan_digit by done. rewrite scan_colon_char. unfold scan_colon at 1.
  cbn [hasColon tokenId tokenStart sc_type hasDecimal hasUnits sc_integers].
  rewrite !bool_decide_false by lia. cbn [orb].
  rewrite !scan_digit by done. rewrite scan_colon_char. unfold scan_colon.
  cbn [hasColon tokenId tokenStart sc_type hasDecimal hasUnits sc_integers].
  rewrite !bool_decide_false by lia. cbn [orb].
  rewrite !scan_digit by done. f_equal. f_equal; [lia|].
  replace (S (S (S start))) with (start + 3)%nat by lia.
  replace (S (S (start + 3)) - (start + 3))%nat with 2%nat by lia.
  replace (S (S start) - start)%nat with 2%nat by lia. rewrite Hsub.
  replace (substr time start 2) with (substr time (start + 0) 2) by (f_equal; lia). rewrite Hsub. done.
Qed.

(** The fields shown for a time of day. *)
Lemma day_fields t : 0 <= seconds_ t < 86400 ->
  0 <= hours t < 24 /\ 0 <= minutes t < 60 /\ 0 <= seconds t < 60 /\
  hours t * 3600 + minutes t * 60 + seconds t = seconds_ t.
Proof. unfold hours, minutes, seconds. lia. Qed.

Lemma long_small z : - 2 ^ 63 <= z < 2 ^ 63 -> long z = Ok z.
Proof. intros Hz. unfold long. by rewrite (proj2 (in_S_spec 64 z)). Qed.

Lemma fields_colon lr mn o x y z n extended h m sec :
  s2l x = Ok h -> s2l y = Ok m -> s2l z = Ok sec ->
  fields lr (mkTokenized COLON mn [o; x; y; z]) n extended = Ok (0, h, m, sec).
Proof.
  intros Eh Em Es.
  change (fields _ _ _ _) with (hh ← s2l x; mm ← s2l y; ss ← s2l z; Ok (0, hh, mm, ss)).
  by rewrite Eh, Em, Es.
Qed.

(** The check of the fields. *)
Lemma fields_accepted h m sec extended :
  0 <= h < 24 -> 0 <= m < 60 -> 0 <= sec < 60 ->
  (60 <=? m) || (60 <=? sec) || negb extended && ((24 <=? h) || (0 <? 0) || (h <? 0) || (m <? 0) || (sec <? 0)) = false.
Proof. intros. destruct extended; lia. Qed.

(** The text [hh:mm:ss], after a sign or not. *)
Lemma parse_hms lr pre t extended :
  0 <= seconds_ t < 86400 -> pre = [] \/ pre = ["-"%byte] ->
  Time_string lr (pre ++ print_time t) extended = Ok t.
Proof.
  intros Ht Hpre. destruct (day_fields t Ht) as (Hh & Hm & Hs & E).
  destruct (printTime_two (hours t)) as (h1 & h2 & Eh & _ & Dh); [lia|].
  destruct (printTime_two (minutes t)) as (m1 & m2 & Em & _ & Dm); [lia|].
  destruct (printTime_two (seconds t)) as (s1 & s2 & Es & _ & Ds); [lia|].
  pose proof Dh as (Hh1 & Hh2 & _). pose proof Dm as (Hm1 & Hm2 & _). pose proof Ds as (Hs1 & Hs2 & _).
  unfold print_time. rewrite Eh, Em, Es. cbn [app].
  destruct (scan_hms pre h1 h2 m1 m2 s1 s2 Hh1 Hh2 Hm1 Hm2 Hs1 Hs2) as [Hscan Hlast].
  unfold Time_string. set (time := pre ++ _) in *.
  assert (Hc : exists mn, checkTimeFormat time = Ok (mkTokenized COLON mn [[]; [h1; h2]; [m1; m2]; [s1; s2]])).
  { assert (Htime : exists c0 r, time = c0 :: r /\ (if bool_decide (c0 = "-"%byte) then 1%nat else 0%nat) = length pre).
    { destruct Hpre as [-> | ->]; eexists _, _; (split; [done|]); [|done].
      rewrite bool_decide_false by (by apply digit_not_minus). done. }
    destruct Htime as (c0 & r & Etime & Estart). unfold checkTimeFormat. rewrite Etime. rewrite <- Etime, Estart, Hscan.
    cbn [hasColon sc_type tokenStart tokenId sc_integers]. rewrite decide_True, Hlast; [by eexists|].
    unfold time. rewrite length_app. simpl. lia. }
  destruct Hc as [mn ->]. unfold mbind, outcome_mbind. cbn [outcome_bind].
  rewrite (fields_colon _ _ _ _ _ _ _ _ _ _ _ (s2l_two _ _ _ Dh) (s2l_two _ _ _ Dm) (s2l_two _ _ _ Ds)).
  cbn [outcome_bind]. rewrite fields_accepted, long_small by lia. destruct t. simpl in *. do 2 f_equal. lia.
Qed.

(** A printed time of day parses back to itself. *)
Theorem time_print_parse (lr : bool -> text -> Z) (t : Time) (extended : bool) :
  0 <= seconds_ t < 86400 -> Time_string lr (print_time t) extended = Ok t.
Proof. intros Ht. apply (parse_hms lr [] t extended Ht). by left. Qed.

Lemma time_print_parse_witness : Time_string no_decimal (str "23:05:09") false = Ok (mkTime 83109).
Proof. apply (time_print_parse no_decimal (mkTime 83109) false). simpl. lia. Defined.

(** The sign of a time written with colons is dropped: "-hh:mm:ss" is read as
    "hh:mm:ss", with and without extended times. *)
Theorem time_colon_sign_dropped (lr : bool -> text -> Z) (t : Time) (extended : bool) :
  0 <= seconds_ t < 86400 -> Time_string lr ("-"%byte :: print_time t) extended = Ok t.
Proof. intros Ht. apply (parse_hms lr ["-"%byte] t extended Ht). by right. Qed.

Lemma time_colon_sign_dropped_witness : Time_string no_decimal (str "-01:30:00") true = Ok (mkTime 5400).
Proof. apply (time_colon_sign_dropped no_decimal (mkTime 5400) true). simpl. lia. Defined.

(** ** Digits only *)

Lemma scan_digits time s : forall r i, all_digits r -> scan_loop time r i s = Some s.
Proof.
  induction r as [|c r IH]; intros i Hr; [done|]. apply Forall_cons in Hr as [Hc Hr].
  cbn [scan_loop]. unfold mbind, option_bind. rewrite scan_digit by done. by apply IH.
Qed.

Lemma digits_format time : all_digits time -> time <> [] ->
  checkTimeFormat time = Ok (mkTokenized DIGITS false [[]; time; []; []]).
Proof.
  intros Hd Hne. destruct time as [|c r]; [done|]. pose proof Hd as [Hc _]%Forall_cons.
  unfold checkTimeFormat. rewrite bool_decide_false by (by apply digit_not_minus).
  rewrite drop_0, scan_digits by done. done.
Qed.

(** A time of six digits is hours, minutes and seconds: it is accepted exactly
    when they are a time of day, and otherwise throws [BadTime]. *)
Theorem time_six_digits (lr : bool -> text -> Z) (hh mm ss : Z) :
  0 <= hh <= 99 -> 0 <= mm <= 99 -> 0 <= ss <= 99 ->
  Time_string lr (print_two hh ++ print_two mm ++ print_two ss) false =
    if (hh <? 24) && (mm <? 60) && (ss <? 60) then Ok (mkTime (hh * 3600 + mm * 60 + ss)) else Throw BadTime.
Proof.
  intros Hh Hm Hs.
  destruct (printTime_two hh Hh) as (h1 & h2 & _ & -> & Hh1 & Hh2 & Eh).
  destruct (printTime_two mm Hm) as (m1 & m2 & _ & -> & Hm1 & Hm2 & Em).
  destruct (printTime_two ss Hs) as (s1 & s2 & _ & -> & Hs1 & Hs2 & Es). cbn [app].
  unfold Time_string. rewrite digits_format by (done || by repeat constructor).
  assert (Ev : s2l [h1; h2; m1; m2; s1; s2] = Ok (hh * 10000 + mm * 100 + ss)).
  { unfold s2l. rewrite Hh1. cbn [digits_value]. rewrite Hh1, Hh2, Hm1, Hm2, Hs1, Hs2.
    rewrite (proj2 (in_S_spec 64 _)) by lia. f_equal. lia. }
  unfold mbind, outcome_mbind, fields. cbn [outcome_bind type_ minus].
  change (default [] (integers _ !! 1%nat)) with [h1; h2; m1; m2; s1; s2].
  unfold mbind, outcome_mbind. rewrite Ev. cbn [outcome_bind orb length].
  rewrite !bool_decide_false by lia. rewrite Z.mul_1_l.
  replace (Z.quot (hh * 10000 + mm * 100 + ss) 10000) with hh by lia.
  replace (Z.rem (Z.quot (hh * 10000 + mm * 100 + ss) 100) 100) with mm by lia.
  replace (Z.rem (hh * 10000 + mm * 100 + ss) 100) with ss by lia.
  destruct (Z.ltb_spec hh 24), (Z.ltb_spec mm 60), (Z.ltb_spec ss 60); cbn [andb];
    [rewrite (fields_accepted hh mm ss false) by lia; by rewrite long_small by lia|..];
    (replace (_ || _ || _) with true by lia; done).
Qed.

Lemma time_six_digits_witness :
  Time_string no_decimal (str "235959") false = Ok (mkTime 86399) /\
  Time_string no_decimal (str "236000") false = Throw BadTime.
Proof. split; [apply (time_six_digits no_decimal 23 59 59)|apply (time_six_digits no_decimal 23 60 0)]; lia. Defined.
