(* ===== verification/DateTime.v ===== *)
(** * Dates with times

    [types/DateTime.cc] on [Date.v] and [Time.v]: the two together, read and printed,
    compared, and moved by a number of seconds.  As in [Time.v], seconds are whole numbers,
    which the [double] of the code holds exactly (below [2^53]). *)
From S2P Require Import Prelude Text Strings Date Time.
#[local] Set Warnings "-clear-no-such-hyp".
#[local] Ltac Zify.zify_post_hook ::= Z.to_euclidean_division_equations.

Record DateTime := mkDateTime { date_ : Date; time_ : Time }.

Section DateTime.
(** The current date, for years of two digits, and the seconds of a decimal time *)
Context (today : Z) (lround_hours : bool -> text -> Z).
Implicit Types dt : DateTime.

(** [DateTime(const std::string&)] *)
Definition DateTime_string (s : text) : outcome DateTime :=
  let result := tokenize (Tokenizer_string (str " ") false) s in
  ASSERT (bool_decide (length result = 2%nat)) ;;
  match result with
  | [d; t] => d ← Date_string today d; t ← Time_string lround_hours t false; Ok (mkDateTime d t)
  | _ => Undef
  end.

Definition print_datetime dt : text := print (date_ dt) ++ str " " ++ print_time (time_ dt).
Definition iso (UTC : bool) dt : text := print (date_ dt) ++ str "T" ++ print_time (time_ dt) ++ if UTC then str "Z" else [].

Definition datetime_lt dt other : bool :=
  if julian_ (date_ dt) =? julian_ (date_ other) then seconds_ (time_ dt) <? seconds_ (time_ other) else Date_lt (date_ dt) (date_ other).
Definition datetime_eq dt other : bool :=
  (julian_ (date_ dt) =? julian_ (date_ other)) && (seconds_ (time_ dt) =? seconds_ (time_ other)).

(** [operator-(const DateTime&)] *)
Definition difference dt other : Z := Date_sub (date_ dt) (date_ other) * 86400 + (seconds_ (time_ dt) - seconds_ (time_ other)).

(** [operator+(const Second&)] *)
Definition plus dt (s : Z) : outcome DateTime :=
  let days := Z.quot s 86400 in
  let d := Date_add (date_ dt) days in
  let t := seconds_ (time_ dt) + (s - days * 86400) in
  let '(d, t) := if 86400 <=? t then (Date_add d 1, t - 86400) else (d, t) in
  t ← Time_seconds t false; Ok (mkDateTime d t).

(** [round(const Second&)]: down to a multiple *)
Definition round_down dt (rnd : Z) : outcome DateTime :=
  let seconds := julian_ (date_ dt) * 24 * 3600 + seconds_ (time_ dt) in
  if rnd =? 0 then Undef
  else
    let seconds := Z.quot seconds rnd * rnd in
    t ← Time_seconds (Z.rem seconds 86400) false;
    Ok (mkDateTime (mkDate (Z.quot seconds 86400)) t).

(** ** The number of seconds *)

Definition total dt : Z := julian_ (date_ dt) * 86400 + seconds_ (time_ dt).
Definition of_day dt : Prop := 0 <= seconds_ (time_ dt) < 86400.

Lemma time_of_day t : 0 <= t < 86400 -> Time_seconds t false = Ok (mkTime t).
Proof. intros Ht. unfold Time_seconds. destruct (Z.leb_spec 86400 t); [lia|]. by destruct (Z.ltb_spec t 0); [lia|]. Qed.

Lemma difference_total dt other : difference dt other = total dt - total other.
Proof. unfold difference, total, Date_sub. lia. Qed.

(** Seconds are added across days; the difference of two times gives them back; the order is
    that of the seconds; and a time is rounded down to a multiple of any number of seconds. *)
Theorem datetime_arithmetic dt s : of_day dt -> 0 <= s ->
  (exists dt', plus dt s = Ok dt' /\ of_day dt' /\ total dt' = total dt + s /\ difference dt' dt = s) /\
  (forall other, of_day other -> datetime_lt dt other = (total dt <? total other) /\ (datetime_eq dt other = true <-> dt = other)) /\
  (forall rnd, 0 < rnd -> 0 <= julian_ (date_ dt) -> exists r, round_down dt rnd = Ok r /\ of_day r /\ total r = total dt / rnd * rnd).
Proof.
  intros Hd Hs. unfold of_day in Hd. split_and!.
  - unfold plus. cbv zeta. rewrite Z.quot_div_nonneg by lia. set (t := seconds_ (time_ dt) + (s - s / 86400 * 86400)).
    assert (Ht : 0 <= t < 2 * 86400) by (unfold t; pose proof (Z.mod_pos_bound s 86400 ltac:(lia)); pose proof (Z.div_mod s 86400 ltac:(lia)); lia).
    destruct (Z.leb_spec 86400 t); (rewrite time_of_day by lia); eexists; (split; [reflexivity|]); rewrite difference_total; unfold of_day, total; simpl; unfold t; lia.
  - intros other Ho. unfold of_day in Ho. unfold datetime_lt, datetime_eq, Date_lt, total. split.
    + apply Bool.eq_iff_eq_true. destruct (Z.eqb_spec (julian_ (date_ dt)) (julian_ (date_ other))); rewrite !Z.ltb_lt; lia.
    + rewrite andb_true_iff, !Z.eqb_eq. split; [|by intros ->]. destruct dt as [[j] [t]], other as [[j'] [t']]. simpl. by intros [-> ->].
  - intros rnd Hr Hj. unfold round_down. destruct (Z.eqb_spec rnd 0); [lia|]. cbv zeta.
    replace (julian_ (date_ dt) * 24 * 3600 + seconds_ (time_ dt)) with (total dt) by (unfold total; lia).
    assert (Ht : 0 <= total dt) by (unfold total; lia). rewrite (Z.quot_div_nonneg (total dt) rnd) by lia.
    set (k := total dt / rnd * rnd). assert (Hk : 0 <= k) by (unfold k; pose proof (Z.div_pos (total dt) rnd Ht Hr); nia).
    rewrite Z.rem_mod_nonneg, Z.quot_div_nonneg by lia. rewrite time_of_day by (apply Z.mod_pos_bound; lia). simpl.
    eexists. split; [reflexivity|]. unfold of_day, total at 1. simpl. pose proof (Z.mod_pos_bound k 86400 ltac:(lia)). pose proof (Z.div_mod k 86400 ltac:(lia)). lia.
Qed.
(** ** Texts *)

Definition blank_free (t : text) : Prop := plain (separator_ (Tokenizer_string (str " ") false)) t.

Lemma digits_blank_free t : all_digits t -> blank_free t.
Proof. intros Ht. eapply Forall_impl; [exact Ht|]. intros c Hc Hin. assert (c = " "%byte) as -> by set_solver. done. Qed.

Lemma blank_free_char c : c <> " "%byte -> blank_free [c].
Proof. intros Hc. apply Forall_singleton. set_solver. Qed.

Lemma print_blank_free y m d (dt : Date) : 1000 <= y <= 9999 -> valid y m d -> yyyymmdd dt = ddate y m d -> blank_free (print dt).
Proof.
  intros Hy Hv E. pose proof Hv as [Hm Hd]. pose proof (days_in_month_bounds y m). destruct (fields_ddate y m d) as (E1 & E2 & E3 & _); [lia..|].
  unfold print. unfold yyyymmdd in E. cbv zeta. rewrite E, E1, E2, E3. destruct (print_long_ok y ltac:(lia)) as [DY _].
  destruct (print_two_ok m ltac:(lia)) as (DM & _), (print_two_ok d ltac:(lia)) as (DD & _).
  apply Forall_app; split; [by apply digits_blank_free|]. apply Forall_app; split; [apply blank_free_char; done|]. apply Forall_app; split; [by apply digits_blank_free|].
  apply Forall_app; split; [apply blank_free_char; done|by apply digits_blank_free].
Qed.

Lemma print_time_blank_free t : 0 <= seconds_ t < 86400 -> blank_free (print_time t) /\ print_time t <> [].
Proof.
  intros Ht. destruct (day_fields t Ht) as (Hh & Hm & Hs & _). unfold print_time.
  destruct (printTime_two (hours t) ltac:(lia)) as (a & b & -> & _ & H1 & H2 & _), (printTime_two (minutes t) ltac:(lia)) as (a' & b' & -> & _ & H3 & H4 & _),
    (printTime_two (seconds t) ltac:(lia)) as (a'' & b'' & -> & _ & H5 & H6 & _).
  split; [|done]. assert (Hc : forall c l, isdigit c = true \/ c = ":"%byte -> blank_free l -> blank_free (c :: l)).
  { intros c l Hc Hl. apply (Forall_app_2 _ [c] l); [|done]. apply blank_free_char. intros ->. by destruct Hc. }
  simpl. repeat (apply Hc; [by auto|]). constructor.
Qed.

(** A date between the years 1000 and 9999 with a time of the day is read back from its text. *)
Theorem datetime_print_parse y m d t : 1000 <= y <= 9999 -> valid y m d -> 0 <= seconds_ t < 86400 ->
  exists dt : Date, Date_ymd today y m d = Ok dt /\ DateTime_string (print_datetime (mkDateTime dt t)) = Ok (mkDateTime dt t).
Proof.
  intros Hy Hv Ht. destruct (date_print_parse today y m d Hy Hv) as (dt & E & Ep). exists dt. split; [done|].
  destruct (ymd_valid today y m d ltac:(lia) Hv) as [E1 E2]. rewrite E1 in E. injection E as <-. set (x := mkDate _) in *.
  destruct (print_time_blank_free t Ht) as [Hb Hn]. pose proof (print_blank_free y m d _ Hy Hv E2) as Hb'.
  assert (Hn' : print x <> []) by (unfold print; destruct (print_long _); done).
  unfold DateTime_string, print_datetime. cbn [date_ time_].
  match goal with |- context [tokenize _ (?a ++ str " " ++ ?b)] => assert (Et : tokenize (Tokenizer_string (str " ") false) (a ++ str " " ++ b) = [a; b]) end.
  { pose proof (tokenize_join (separator_ (Tokenizer_string (str " ") false)) false " "%byte [print x; print_time t]) as H.
    rewrite join_cons in H. apply H; [set_solver| |done]. repeat (apply Forall_cons; split); [by split; [|right]..|constructor]. }
  rewrite Et. cbn [length bool_decide decide ASSERT mbind outcome_mbind outcome_bind]. rewrite bool_decide_eq_true_2 by done.
  cbn [ASSERT mbind outcome_mbind outcome_bind]. rewrite Ep. cbn [outcome_bind]. by rewrite time_print_parse.
Qed.
End DateTime.

(** A second before midnight cannot be reached from midnight. *)
Example datetime_minus_second : plus (mkDateTime (mkDate 2451545) (mkTime 0)) (-1) = Throw BadTime.
Proof. reflexivity. Qed.
