(* ===== verification/SemanticVersion.v ===== *)
(** * Semantic versions

    [types/SemanticVersion.cc]: versions "x.y.z", their order, printing and parsing. *)
From S2P Require Import Prelude Text Strings Translator.
#[local] Ltac Zify.zify_post_hook ::= Z.to_euclidean_division_equations.

Record SemanticVersion : Type := mkVersion { major_ : Z; minor_ : Z; patch_ : Z }.

Module SemanticVersion.

Definition ULONG_MAX : Z := 2 ^ 64 - 1.

(** [strtoul] with base 0, on digits: octal after a leading zero. *)
Fixpoint base_value (base acc : Z) (s : text) : Z :=
  match s with
  | c :: s => let d := byte.unsigned c - 48 in if isdigit c && (d <? base) then base_value base (acc * base + d) s else acc
  | [] => acc
  end.
Definition strtoul0 (s : text) : Z :=
  let base := match s with c :: _ => if decide (c = "0"%byte) then 8 else 10 | [] => 10 end in
  Z.min ULONG_MAX (base_value base 0 s).

Definition s2int (s : text) : outcome Z :=
  if forallb isdigit s then
    let r := strtoul0 s in if negb (r =? ULONG_MAX) then Ok r else Throw OutOfRange
  else Throw BadValue.

Definition of_string (v : text) : outcome SemanticVersion :=
  match tokenize (mkTokenizer {["."%byte]} true) v with
  | [x; y; z] => major ← s2int x; minor ← s2int y; patch ← s2int z; Ok (mkVersion major minor patch)
  | _ => Throw BadValue
  end.

Definition to_string (v : SemanticVersion) : text :=
  print_long (major_ v) ++ str "." ++ print_long (minor_ v) ++ str "." ++ print_long (patch_ v).

Definition less (v o : SemanticVersion) : bool :=
  if major_ v =? major_ o then
    if minor_ v =? minor_ o then patch_ v <? patch_ o else minor_ v <? minor_ o
  else major_ v <? major_ o.
Definition equal (v o : SemanticVersion) : bool := (patch_ v =? patch_ o) && (minor_ v =? minor_ o) && (major_ v =? major_ o).
Definition less_equal (v o : SemanticVersion) : bool := less v o || equal v o.
Definition greater (v o : SemanticVersion) : bool := negb (less_equal v o).
Definition greater_equal (v o : SemanticVersion) : bool := greater v o || equal v o.

End SemanticVersion.
Import SemanticVersion.

Lemma base_value_decimal t : forall acc, all_digits t -> base_value 10 acc t = digits_value acc t.
Proof.
  induction t as [|c t IH]; intros acc Ht; [done|]. apply Forall_cons in Ht as [Hc Ht]. simpl. rewrite Hc. simpl.
  rewrite (proj2 (Z.ltb_lt _ _)) by (unfold isdigit in Hc; lia). by apply IH.
Qed.

(** A positive number is printed without a leading zero. *)
Lemma decimal_head f : forall n, 0 < n < 10 ^ Z.of_nat f -> exists c t, decimal f n = c :: t /\ c <> "0"%byte.
Proof.
  induction f as [|f IH]; intros n Hn; [simpl in Hn; lia|]. cbn [decimal]. rewrite Nat2Z.inj_succ, Z.pow_succ_r in Hn by lia.
  destruct (Z.ltb_spec n 10) as [Hl|Hl].
  - eexists _, []. split; [done|]. intros E. destruct (digit_byte (n mod 10)) as [E' _]; [lia|]. rewrite E in E'. change (byte.unsigned "0") with 48 in E'. lia.
  - destruct (IH (n / 10)) as (c & t & -> & Hc); [set (P := 10 ^ Z.of_nat f) in *; clearbody P; lia|]. by exists c, (t ++ [byte.of_Z (48 + n mod 10)]).
Qed.

Lemma s2int_print n : 0 <= n < ULONG_MAX -> s2int (print_long n) = Ok n.
Proof.
  unfold ULONG_MAX. intros Hn. unfold s2int, print_long. rewrite (proj2 (Z.ltb_ge n 0)) by lia.
  assert (0 <= n < 10 ^ Z.of_nat 20) as Hb by (change (10 ^ Z.of_nat 20) with 100000000000000000000; lia).
  destruct (decimal_ok 20 n Hb) as [Hd Hv].
  assert (forallb isdigit (decimal 20 n) = true) as -> by (apply forallb_forall; intros c Hc; by apply (proj1 (Forall_forall _ _) Hd), list_elem_of_In).
  assert (strtoul0 (decimal 20 n) = n) as ->.
  { unfold strtoul0, ULONG_MAX. destruct (Z.eq_dec n 0) as [->|Hz]; [done|].
    destruct (decimal_head 20 n) as (c & t & E & Hc); [lia|]. rewrite E, decide_False, <- E by done. rewrite base_value_decimal, Hv by done. lia. }
  unfold ULONG_MAX. by rewrite (proj2 (Z.eqb_neq _ _)) by lia.
Qed.

(** A version whose numbers are below the greatest [unsigned long] is read back from
    its printed form, and the order is a total one in which versions with different printed
    forms differ. *)
Theorem version_print_parse v w : let ok v := 0 <= major_ v < ULONG_MAX /\ 0 <= minor_ v < ULONG_MAX /\ 0 <= patch_ v < ULONG_MAX in
  ok v -> ok w ->
  of_string (to_string v) = Ok v /\ (equal v w = true <-> to_string v = to_string w) /\ equal v w = less_equal v w && less_equal w v /\
  greater v w = less w v.
Proof.
  intros ok Hv Hw.
  assert (forall v, ok v -> of_string (to_string v) = Ok v) as Hp.
  { clear. intros [x y z] (Hx & Hy & Hz). simpl in *. unfold of_string, to_string. cbn [major_ minor_ patch_].
    replace (print_long x ++ _) with (join ["."%byte] [print_long x; print_long y; print_long z]) by (unfold join, join_loop; by rewrite <- !app_assoc).
    unfold tokenize. cbn [separator_ keepEmpty_]. rewrite tokenize_join; [|by apply elem_of_singleton| |done].
    - by rewrite !s2int_print.
    - assert (forall n, 0 <= n < ULONG_MAX -> plain {["."%byte]} (print_long n)) as Hpl.
      { unfold ULONG_MAX. intros n Hn. destruct (print_long_shape n) as (d & Hd & _ & _ & ->); [lia|]. rewrite (proj2 (Z.ltb_ge n 0)) by lia. simpl.
        eapply Forall_impl; [exact Hd|]. intros c Hc ->%elem_of_singleton. done. }
      repeat constructor; auto. }
  split_and!; [by apply Hp| | |].
  - unfold equal. rewrite !andb_true_iff, !Z.eqb_eq. split; [destruct v, w; simpl; by intros [[-> ->] ->]|].
    intros E. pose proof (Hp v Hv) as E1. rewrite E, Hp in E1 by done. by injection E1 as ->.
  - unfold equal, less_equal, equal, less. repeat case_match; lia.
  - unfold greater, less_equal, equal, less. repeat case_match; lia.
Qed.

Lemma version_print_parse_witness : of_string (str "10.0.2") = Ok (mkVersion 10 0 2) /\ greater (mkVersion 10 0 2) (mkVersion 9 5 1) = true.
Proof.
  destruct (version_print_parse (mkVersion 10 0 2) (mkVersion 9 5 1)) as (E & _ & _ & G); [unfold ULONG_MAX; simpl; lia..|]. split; [exact E|by rewrite G].
Defined.

(** A number with a leading zero is read as octal, and an empty one as zero. *)
Lemma version_octal : of_string (str "1.010.0") = Ok (mkVersion 1 8 0) /\ of_string (str "1.08.0") = Ok (mkVersion 1 0 0) /\ of_string (str "1..2") = Ok (mkVersion 1 0 2).
Proof. by vm_compute. Qed.
