(* ===== verification/RendezvousHash.v ===== *)
(** * Rendezvous hashing

    [utils/RendezvousHash.cc]: for a key the nodes are ordered by the hash of the key with
    the name of the node.  The methods hold the mutex, so each is one step on the list of
    nodes.  The hash function is an argument of the class, and [std::sort] a parameter. *)
From S2P Require Import Prelude Text Strings.
From stdpp Require Import sorting.

(** A [std::map], in the order of its keys. *)
Abbreviation Key := (list (text * text)).

Record RendezvousHash : Type := mkRendezvous { nodes_ : list text }.

Module Rendezvous.
Section Rendezvous.
Context (hash_ : text -> text) (std_sort : (nat -> nat -> bool) -> list nat -> list nat).

Definition flatten (key : Key) : text := key ≫= fun kv => str "/" ++ kv.1 ++ str ":" ++ kv.2.

Definition hashes (key : Key) (nodes : list text) : list text :=
  let skey := flatten key in (fun node => hash_ (skey ++ str "+" ++ node)) <$> nodes.

Definition hashOrderInternal (key : Key) (h : RendezvousHash) : outcome (list nat) :=
  match nodes_ h with
  | [] => Throw BadParameter
  | nodes =>
      let hs := hashes key nodes in
      Ok (std_sort (fun lhs rhs => text_lt (default [] (hs !! lhs)) (default [] (hs !! rhs))) (seq 0 (length nodes)))
  end.

Definition hashOrder_indices (key : Key) (h : RendezvousHash) : outcome (list nat) := hashOrderInternal key h.

Fixpoint select (indexes : list nat) (nodes : list text) : outcome (list text) :=
  match indexes with
  | [] => Ok []
  | idx :: indexes =>
      match nodes !! idx with
      | Some n => l ← select indexes nodes; Ok (n :: l)
      | None => Undef
      end
  end.
Definition hashOrder (key : Key) (h : RendezvousHash) : outcome (list text) :=
  indexes ← hashOrder_indices key h;
  ASSERT (Nat.eqb (length indexes) (length (nodes_ h))) ;;
  select indexes (nodes_ h).

Definition addNode (node : text) (h : RendezvousHash) : bool * RendezvousHash :=
  if bool_decide (node ∈ nodes_ h) then (false, h) else (true, mkRendezvous (nodes_ h ++ [node])).

(** [erase] of the first element that [std::find] finds. *)
Fixpoint erase (node : text) (l : list text) : list text :=
  match l with [] => [] | x :: l => if decide (x = node) then l else x :: erase node l end.
Definition removeNode (node : text) (h : RendezvousHash) : bool * RendezvousHash :=
  if bool_decide (node ∈ nodes_ h) then (true, mkRendezvous (erase node (nodes_ h))) else (false, h).
End Rendezvous.
End Rendezvous.
Import Rendezvous.

(** ** The order of the nodes *)

(** What [std::sort] asks of its comparison, and what it does. *)
Definition strict_weak (lt : nat -> nat -> bool) : Prop :=
  (forall a b, lt a b = true -> lt b a = false) /\ (forall a b c, lt b a = false -> lt c b = false -> lt c a = false).
Definition sorts (std_sort : (nat -> nat -> bool) -> list nat -> list nat) : Prop := forall lt l, strict_weak lt ->
  std_sort lt l ≡ₚ l /\ StronglySorted (fun a b => lt b a = false) (std_sort lt l).

Lemma filter_absent (node : text) (l : list text) : node ∉ l -> filter (fun x => x <> node) l = l.
Proof.
  induction l as [|x l IH]; [done|]. intros [Hx Hl]%not_elem_of_cons. rewrite filter_cons, decide_True by congruence. by rewrite IH.
Qed.

Lemma erase_filter node l : NoDup l -> erase node l = filter (fun x => x <> node) l.
Proof.
  induction 1 as [|x l Hx Hl IH]; [done|]. simpl. rewrite filter_cons. destruct (decide (x = node)) as [->|Hne].
  - rewrite decide_False by naive_solver. by rewrite filter_absent.
  - rewrite decide_True by done. by rewrite IH.
Qed.

Lemma filter_out (node : text) (l : list text) : NoDup l -> node ∈ l -> l ≡ₚ filter (fun x => x <> node) l ++ [node].
Proof.
  induction 1 as [|x l Hx Hl IH]; [by intros ?%elem_of_nil|]. rewrite filter_cons. intros [->|Hin]%elem_of_cons.
  - rewrite decide_False by naive_solver. rewrite filter_absent by done. apply Permutation_cons_append.
  - rewrite decide_True by (intros ->; done). simpl. constructor. by apply IH.
Qed.

Section Order.
Context (hash_ : text -> text) (std_sort : (nat -> nat -> bool) -> list nat -> list nat) (Hsort : sorts std_sort) (key : Key).

(** The hash of the key with a node, and the order that it gives. *)
Definition rank (node : text) : text := hash_ (flatten key ++ str "+" ++ node).
Definition before (a b : text) : Prop := text_lt (rank b) (rank a) = false.

(** The order of the given nodes. *)
Definition ranking (order nodes : list text) : Prop := order ≡ₚ nodes /\ StronglySorted before order.

Lemma select_ok indexes nodes : Forall (fun i => (i < length nodes)%nat) indexes ->
  select indexes nodes = Ok (omap (fun i => nodes !! i) indexes).
Proof.
  induction 1 as [|i l Hi _ IH]; [done|]. simpl. destruct (lookup_lt_is_Some_2 _ _ Hi) as [n ->]. unfold mbind, outcome_mbind. by rewrite IH.
Qed.

Lemma list_omap_fmap_fun {A B C} (f : B -> option C) (g : A -> B) (l : list A) : omap f (g <$> l) = omap (fun x => f (g x)) l.
Proof. induction l as [|x l IH]; [done|]. simpl. unfold omap, fmap in *. destruct (f (g x)); by rewrite IH. Qed.

Lemma omap_lookup_seq (nodes : list text) : omap (fun i => nodes !! i) (seq 0 (length nodes)) = nodes.
Proof.
  induction nodes as [|n nodes IH]; [done|]. simpl. f_equal. rewrite <- IH at 2. rewrite <- fmap_S_seq, list_omap_fmap_fun. done.
Qed.

Lemma omap_sorted (nodes : list text) indexes :
  StronglySorted (fun a b => text_lt (default [] (hashes hash_ key nodes !! b)) (default [] (hashes hash_ key nodes !! a)) = false) indexes ->
  StronglySorted before (omap (fun i => nodes !! i) indexes).
Proof.
  assert (forall i n, nodes !! i = Some n -> default [] (hashes hash_ key nodes !! i) = rank n) as Hr.
  { intros i n Hi. unfold hashes. by rewrite list_lookup_fmap, Hi. }
  induction 1 as [|i l Hl IH Hi]; [constructor|]. simpl. destruct (nodes !! i) as [n|] eqn:En; [|done]. constructor; [done|].
  apply Forall_forall. intros m (j & Hj & Em)%list_elem_of_omap. unfold before. rewrite <- (Hr _ _ En), <- (Hr _ _ Em). exact (proj1 (Forall_forall _ _) Hi j Hj).
Qed.

Lemma hashOrder_ranking nodes : nodes <> [] -> exists order, hashOrder hash_ std_sort key (mkRendezvous nodes) = Ok order /\ ranking order nodes.
Proof using Hsort.
  intros Hn. unfold hashOrder, hashOrder_indices, hashOrderInternal. cbn [nodes_].
  set (lt := fun lhs rhs => text_lt (default [] (hashes hash_ key nodes !! lhs)) (default [] (hashes hash_ key nodes !! rhs))).
  destruct (Hsort lt (seq 0 (length nodes))) as [Hp Hs].
  { split; [intros a b; apply text_lt_asym|intros a b c; apply text_ge_trans]. }
  destruct nodes as [|n0 nodes0]; [done|]. set (nodes := n0 :: nodes0) in *. exists (omap (fun i => nodes !! i) (std_sort lt (seq 0 (length nodes)))).
  unfold mbind, outcome_mbind. cbn [outcome_bind]. fold lt. rewrite (Permutation_length Hp), length_seq, Nat.eqb_refl. cbn [ASSERT outcome_bind]. split.
  - apply select_ok. rewrite Hp. apply Forall_forall. intros i. rewrite elem_of_seq. lia.
  - split; [rewrite Hp; by rewrite omap_lookup_seq|]. by apply omap_sorted.
Qed.

Lemma ranking_unique order1 order2 nodes : (forall a b, a ∈ nodes -> b ∈ nodes -> rank a = rank b -> a = b) ->
  ranking order1 nodes -> ranking order2 nodes -> order1 = order2.
Proof.
  intros Hi [P1 S1] [P2 S2]. apply (StronglySorted_unique_strong before); [|done|done|by rewrite P1, P2].
  intros a b Ha Hb H1 H2. apply Hi; [by rewrite <- P1|by rewrite <- P2|]. by apply text_ge_antisym.
Qed.

Lemma ranking_filter order nodes node : ranking order nodes -> ranking (filter (fun x => x <> node) order) (filter (fun x => x <> node) nodes).
Proof.
  intros [P S]. split; [by rewrite P|]. clear P. induction S as [|x l Hl IH Hx]; [constructor|]. rewrite filter_cons.
  destruct (decide (x <> node)); [|done]. constructor; [done|]. apply Forall_forall. intros y [_ Hy]%list_elem_of_filter. exact (proj1 (Forall_forall _ _) Hx y Hy).
Qed.
End Order.

(** C23. For every key with which the hashes of the nodes differ, the nodes are ordered by their hashes with the key, and when a node is
    removed, or added, the other nodes keep their order: a key changes its first node only
    if that node goes away or the new one comes first. *)
Theorem rendezvous_stable hash_ std_sort key nodes node :
  sorts std_sort -> NoDup nodes -> (forall a b, a ∈ nodes -> b ∈ nodes -> rank hash_ key a = rank hash_ key b -> a = b) ->
  node ∈ nodes -> nodes <> [node] ->
  exists order order', hashOrder hash_ std_sort key (mkRendezvous nodes) = Ok order /\
    removeNode node (mkRendezvous nodes) = (true, mkRendezvous (erase node nodes)) /\
    hashOrder hash_ std_sort key (mkRendezvous (erase node nodes)) = Ok order' /\
    ranking hash_ key order nodes /\ order' = filter (fun x => x <> node) order /\
    addNode node (mkRendezvous (erase node nodes)) = (true, mkRendezvous (erase node nodes ++ [node])) /\
    hashOrder hash_ std_sort key (mkRendezvous (erase node nodes ++ [node])) = Ok order.
Proof.
  intros Hsort Hnd Hi Hin Hne. rewrite (erase_filter node nodes Hnd). set (rest := filter (fun x => x <> node) nodes).
  assert (node ∉ rest) as Hout by (intros [? _]%list_elem_of_filter; done).
  assert (nodes ≡ₚ rest ++ [node]) as Hp by by apply filter_out.
  assert (rest <> []) as Hr. { intros E. rewrite E in Hp. simpl in Hp. symmetry in Hp. by apply Permutation_singleton_l in Hp. }
  destruct (hashOrder_ranking hash_ std_sort Hsort key nodes) as (order & E & Ho); [by intros ->; inversion Hin|].
  destruct (hashOrder_ranking hash_ std_sort Hsort key rest Hr) as (order' & E' & Ho').
  destruct (hashOrder_ranking hash_ std_sort Hsort key (rest ++ [node])) as (order2 & E2 & Ho2); [by destruct rest|].
  exists order, order'. split; [done|]. split; [unfold removeNode; simpl; by rewrite bool_decide_true, erase_filter|]. split; [done|]. split; [done|]. split_and!.
  - apply (ranking_unique hash_ key _ _ rest); [|done|by apply ranking_filter].
    intros a b [_ Ha]%list_elem_of_filter [_ Hb]%list_elem_of_filter. by apply Hi.
  - unfold addNode. simpl. by rewrite bool_decide_false.
  - rewrite E2. f_equal. apply (ranking_unique hash_ key _ _ nodes Hi); [|done]. destruct Ho2 as [P2 S2]. split; [by rewrite P2, Hp|done].
Qed.

Definition sort_by (lt : nat -> nat -> bool) : list nat -> list nat :=
  @merge_sort nat (fun a b => lt b a = false) (fun a b => bool_eq_dec (lt b a) false).
Lemma sort_by_sorts : sorts sort_by.
Proof.
  intros lt l [Ha Ht]. split; [apply merge_sort_Permutation|]. apply StronglySorted_merge_sort.
  - intros a b c. apply Ht.
  - intros a b. destruct (lt b a) eqn:E; [right; by apply Ha|by left].
Qed.

Lemma rendezvous_stable_witness : let nodes := [str "red"; str "green"; str "blue"] in
  exists order order', hashOrder (fun s => s) sort_by [(str "k", str "v")] (mkRendezvous nodes) = Ok order /\
    hashOrder (fun s => s) sort_by [(str "k", str "v")] (mkRendezvous (erase (str "green") nodes)) = Ok order' /\ order' = [str "blue"; str "red"].
Proof.
  intros nodes. destruct (rendezvous_stable (fun s => s) sort_by [(str "k", str "v")] nodes (str "green") sort_by_sorts) as (o & o' & E & _ & E' & _).
  - apply (bool_decide_unpack _). by vm_compute.
  - intros a b _ _ H. vm_compute in H. congruence.
  - apply (bool_decide_unpack _). by vm_compute.
  - done.
  - exists o, o'. split; [exact E|]. split; [exact E'|]. revert E'. vm_compute. congruence.
Defined.
