(* ===== verification/RLE.v ===== *)
(** * Run-length and difference encoding

    [utils/RLE.cc].  The encoder looks for the longest repetition in a range,
    encodes it as a repeat count followed by the (encoded) repeated part, and
    recurses on what is left on both sides.  Counts are written as negative
    numbers, so the values must not be negative.

    The range is [first, last) of an array [arr], the memory that can be read: the
    search for repetitions compares elements with elements that may lie beyond
    [last], and beyond the end of the array this is not defined ([Undef]).  The
    clock is an oracle: the [i]-th call to [now()] finds the deadline passed or not. *)
From S2P Require Import Prelude.
#[local] Open Scope nat_scope.

Section Encode.
Variable arr : list Z.
(** [*it] *)
Definition read_at (i : nat) : outcome Z := match arr !! i with Some v => Ok v | None => Undef end.
Variable maxLoop : nat.
Variable deadline : option (nat -> bool).

(** [deadline && EncodingClock::now() > deadline.value()]; the state counts
    the calls to [now()]. *)
Definition expired : M nat bool := fun c =>
  match deadline with
  | None => (Ok false, c)
  | Some f => (Ok (f c), S c)
  end.

(** [while (from != last && *from == *other)], [left] elements before [last]. *)
Fixpoint match_length (left from other : nat) : outcome nat :=
  match left with
  | O => Ok 0
  | S l =>
      v ← read_at from; w ← read_at other;
      if decide (v = w) then a ← match_length l (S from) (S other); Ok (S a) else Ok 0
  end.

(** The longest repetition so far: length [m], period [x], start [j]. *)
Record best : Type := mkBest { best_m : nat; best_x : nat; best_j : nat }.

(** The loop over [i]; returns [true] when it jumps to [stop]. *)
Fixpoint search_starts (fuel first last n i enough : nat) (maxDepth : option nat) (b : best) :
    M nat (bool * best) :=
  match fuel with
  | O => liftM NoFuel
  | S f =>
      if decide (i < last - first - n) then
        a ← liftM (match_length (last - (first + i)) (first + i) (first + i + n));
        if decide (best_m b < a) then
          let b := mkBest a n i in
          if decide (enough < a) then mret (true, b)
          else if decide (maxDepth = Some 0) then mret (true, b)
          else
            late ← expired;
            if (late : bool) then mret (true, b)
            else search_starts f first last n (i + n) enough maxDepth b
        else search_starts f first last n (i + n) enough maxDepth b
      else mret (false, b)
  end.

(** The loop over the period [n]. *)
Fixpoint search_periods (fuel first last n enough : nat) (maxDepth : option nat) (b : best) : M nat best :=
  match fuel with
  | O => liftM NoFuel
  | S f =>
      if decide (n < (last - first + 2) / 2) then
        sb ← search_starts (S (last - first)) first last n 0 enough maxDepth b;
        if (sb.1 : bool) then mret sb.2
        else if decide (maxDepth = Some 0) then mret sb.2
        else
          late ← expired;
          if (late : bool) then mret sb.2
          else search_periods f first last (S n) enough maxDepth sb.2
      else mret b
  end.

(** [equal(from, from + x, other)] *)
Fixpoint equal_range (x from other : nat) : outcome bool :=
  match x with
  | O => Ok true
  | S x => v ← read_at from; w ← read_at other; if decide (v = w) then equal_range x (S from) (S other) else Ok false
  end.

(** [while ((other + x <= last) && equal(from, from + x, other))] *)
Fixpoint count_repeats (fuel from x other last : nat) : outcome nat :=
  match fuel with
  | O => NoFuel
  | S f =>
      if decide (other + x <= last) then
        e ← equal_range x from other;
        if (e : bool)
        then k ← count_repeats f from x (other + x) last; Ok (S k)
        else Ok 0
      else Ok 0
  end.

(** The values of the range, and [std::copy], which reads them. *)
Definition subrange (first last : nat) : list Z := take (last - first) (drop first arr).
Definition copy_range (first last : nat) : outcome (list Z) := if decide (last <= length arr) then Ok (subrange first last) else Undef.

(** Returns the count the code returns and the values appended to [output].
    The count of the trial run is narrowed to [int]. *)
Fixpoint RLEencode2timeout (fuel first last : nat) (maxDepth : option nat) : M nat (Z * list Z) :=
  match fuel with
  | O => liftM NoFuel
  | S f =>
      if decide (last - first <= 0) then mret (0%Z, [])
      else
        let size2 := (last - first + 2) / 2 in
        let enough := size2 `min` maxLoop in
        b ← search_periods (S size2) first last 1 enough maxDepth (mkBest 0 0 0);
        if decide (best_m b = 0 \/ maxDepth = Some 0)
        then o ← liftM (copy_range first last); mret (Z.of_nat (last - first), o)
        else
          let x := best_x b in
          let from := first + best_j b in
          k ← liftM (count_repeats (S (last - from)) from x from last);
          let maxDepth := pred <$> maxDepth in
          l ← RLEencode2timeout f first from maxDepth;
          h ← (if decide (1 < k) then
                 t ← RLEencode2timeout f from (from + x) maxDepth;
                 let m := wrapS 32 t.1 in
                 mret (if (1 <? m)%Z then [- Z.of_nat k; - m]%Z else [- Z.of_nat k]%Z)
               else mret []);
          g ← RLEencode2timeout f from (from + x) maxDepth;
          r ← RLEencode2timeout f (from + k * x) last maxDepth;
          mret (l.1 + Z.of_nat (length h) + g.1 + r.1, l.2 ++ h ++ g.2 ++ r.2)%Z
  end.
End Encode.

(** [RLEencode2] without a deadline; the depth is bounded by the size. *)
Definition RLEencode2 (arr : list Z) (first last maxLoop : nat) : outcome (Z * list Z) :=
  (RLEencode2timeout arr maxLoop None (S (last - first)) first last None 0).1.

(** [RLEencode2] with a deadline and a depth limit. *)
Definition RLEencode2_timed (arr : list Z) (first last maxLoop : nat) (late : nat -> bool) (maxDepth : nat) :
    outcome (Z * list Z) :=
  (RLEencode2timeout arr maxLoop (Some late) (S (last - first)) first last (Some maxDepth) 0).1.

(** [RLEdecode2]: a part that runs over the end of its range leaves the array. *)
Fixpoint RLEdecode2_loop (fuel : nat) (l : list Z) : outcome (list Z) :=
  match fuel, l with
  | _, [] => Ok []
  | O, _ => NoFuel
  | S f, v :: l =>
      if (v <? 0)%Z then
        let repeat := Z.to_nat (- v) in
        match l with
        | [] => Undef
        | w :: l' =>
            if (w <? 0)%Z then
              let length' := Z.to_nat (- w) in
              if decide (length' <= length l') then
                o ← RLEdecode2_loop f (take length' l');
                o' ← RLEdecode2_loop f (drop length' l');
                Ok (concat (replicate repeat o) ++ o')
              else Undef
            else
              o' ← RLEdecode2_loop f l';
              Ok (replicate repeat w ++ o')
        end
      else
        o' ← RLEdecode2_loop f l;
        Ok (v :: o')
  end.

Definition RLEdecode2 (l : list Z) : outcome (list Z) := RLEdecode2_loop (length l) l.

(** ** Differences *)

Fixpoint DIFFencode_loop (prev : Z) (l : list Z) : bool * list Z :=
  match l with
  | [] => (true, [])
  | v :: l => if (v <? prev)%Z then (false, [])
              else let '(ok, o) := DIFFencode_loop v l in (ok, (v - prev)%Z :: o)
  end.

Definition DIFFencode (l : list Z) : bool * list Z :=
  match l with
  | [] => (true, [])
  | v :: l => let '(ok, o) := DIFFencode_loop v l in (ok, v :: o)
  end.

Fixpoint DIFFdecode_loop (value : Z) (l : list Z) : list Z :=
  match l with
  | [] => []
  | d :: l => (d + value)%Z :: DIFFdecode_loop (d + value)%Z l
  end.

Definition DIFFdecode (l : list Z) : list Z :=
  match l with [] => [] | v :: l => v :: DIFFdecode_loop v l end.

(** What [RLEDIFFwrite] sends: the flag and the vector.  [beyond]: what can be read behind
    the elements of the vector. *)
Definition RLEDIFFwrite (l beyond : list Z) (maxLoop : nat) : outcome (bool * list Z) :=
  let '(diff, tmp) := DIFFencode l in
  if (diff : bool)
  then o ← RLEencode2 (tmp ++ beyond) 0 (length tmp) maxLoop; Ok (true, o.2)
  else Ok (false, l).

Definition RLEDIFFread (d : bool * list Z) : outcome (list Z) :=
  if d.1 then o ← RLEdecode2 d.2; Ok (DIFFdecode o) else Ok d.2.

(** ** Decoding *)

Lemma decode_fuel f : forall f' l, length l <= f -> length l <= f' -> RLEdecode2_loop f l = RLEdecode2_loop f' l.
Proof.
  induction f as [|f IH]; intros [|f'] [|v l] Hf Hf'; simpl in *; try lia; try done.
  destruct (v <? 0)%Z; [|by rewrite (IH f') by lia].
  destruct l as [|w l]; [done|]. simpl in *. destruct (w <? 0)%Z; [|by rewrite (IH f') by lia].
  case_decide; [|done].
  rewrite (IH f' (take _ _)) by (rewrite length_take; lia).
  by rewrite (IH f' (drop _ _)) by (rewrite length_drop; lia).
Qed.

(** One step of the decoder. *)
Lemma decode_value v l : (0 <= v)%Z -> RLEdecode2 (v :: l) = (o' ← RLEdecode2 l; Ok (v :: o')).
Proof. intros Hv. unfold RLEdecode2. cbn [length RLEdecode2_loop]. by rewrite (proj2 (Z.ltb_ge v 0)). Qed.

Lemma decode_repeat v w l :
  (v < 0)%Z -> (0 <= w)%Z ->
  RLEdecode2 (v :: w :: l) = (o' ← RLEdecode2 l; Ok (replicate (Z.to_nat (- v)) w ++ o')).
Proof.
  intros Hv Hw. unfold RLEdecode2. rewrite (decode_fuel (length l) (S (length l)) l) by lia.
  remember (S (length l)) as f eqn:Ef. change (length (v :: w :: l)) with (S (S (length l))). rewrite <- Ef.
  cbn [RLEdecode2_loop]. by rewrite (proj2 (Z.ltb_lt v 0)), (proj2 (Z.ltb_ge w 0)) by done.
Qed.

Lemma decode_repeat_group v w l :
  (v < 0)%Z -> (w < 0)%Z -> Z.to_nat (- w) <= length l ->
  RLEdecode2 (v :: w :: l) =
    (o ← RLEdecode2 (take (Z.to_nat (- w)) l); o' ← RLEdecode2 (drop (Z.to_nat (- w)) l);
     Ok (concat (replicate (Z.to_nat (- v)) o) ++ o')).
Proof.
  intros Hv Hw Hl. unfold RLEdecode2.
  rewrite (decode_fuel _ (S (length l)) (take _ _)) by (rewrite length_take; lia).
  rewrite (decode_fuel _ (S (length l)) (drop _ _)) by (rewrite length_drop; lia).
  remember (S (length l)) as f eqn:Ef. change (length (v :: w :: l)) with (S (S (length l))). rewrite <- Ef.
  cbn [RLEdecode2_loop]. by rewrite (proj2 (Z.ltb_lt v 0)), (proj2 (Z.ltb_lt w 0)), decide_True by done.
Qed.

(** The output [o] decodes to [v] wherever it stands. *)
Definition decodes (o v : list Z) : Prop :=
  forall rest, RLEdecode2 (o ++ rest) = (o' ← RLEdecode2 rest; Ok (v ++ o')).

Lemma outcome_bind_Ok {A B} (a : A) (f : A -> outcome B) : (Ok a ≫= f) = f a.
Proof. done. Qed.

Lemma decodes_nil : decodes [] [].
Proof. intros rest. simpl. by destruct (RLEdecode2 rest). Qed.

Lemma decodes_app o1 v1 o2 v2 : decodes o1 v1 -> decodes o2 v2 -> decodes (o1 ++ o2) (v1 ++ v2).
Proof.
  intros H1 H2 rest. rewrite <- app_assoc, H1, H2. destruct (RLEdecode2 rest); simpl; try done.
  by rewrite app_assoc.
Qed.

Lemma decodes_all o v : decodes o v -> RLEdecode2 o = Ok v.
Proof. intros Hd. specialize (Hd []). rewrite app_nil_r in Hd. rewrite Hd. simpl. by rewrite app_nil_r. Qed.

Lemma decodes_copy l : Forall (fun v => 0 <= v)%Z l -> decodes l l.
Proof.
  induction 1 as [|v l Hv Hl IH]; [apply decodes_nil|]. intros rest. cbn [app].
  rewrite decode_value, IH by done. by destruct (RLEdecode2 rest).
Qed.

Lemma decodes_repeat_one k w : 0 < k -> (0 <= w)%Z -> decodes [- Z.of_nat k; w]%Z (replicate k w).
Proof.
  intros Hk Hw rest. cbn [app]. rewrite decode_repeat by lia. by rewrite Z.opp_involutive, Nat2Z.id.
Qed.

Lemma decodes_repeat k o v :
  0 < k -> 0 < length o -> decodes o v ->
  decodes (- Z.of_nat k :: - Z.of_nat (length o) :: o)%Z (concat (replicate k v)).
Proof.
  intros Hk Ho Hd rest. cbn [app]. rewrite decode_repeat_group; [|lia|lia|rewrite length_app; lia].
  rewrite !Z.opp_involutive, !Nat2Z.id, take_app_length, drop_app_length. by rewrite (decodes_all _ _ Hd).
Qed.

(** The encoding of a single value. *)
Lemma decodes_single o v : decodes o v -> v <> [] -> length o <= 1 -> exists w, o = [w] /\ v = [w] /\ (0 <= w)%Z.
Proof.
  intros Hd%decodes_all Hv Hl. destruct o as [|w [|? ?]]; simpl in Hl; [|  |lia].
  - unfold RLEdecode2 in Hd. simpl in Hd. congruence.
  - unfold RLEdecode2 in Hd. simpl in Hd. destruct (Z.ltb_spec w 0); [done|]. simpl in Hd. injection Hd as <-.
    by exists w.
Qed.

(** ** The search *)

(** The result of a search or of an encoding without a deadline: [Q] holds of it, or memory
    beyond the array was read, which [beyond] allows. *)
Definition result_ok {A} (m : M nat A) (beyond : Prop) (Q : A -> Prop) : Prop :=
  (exists r, (forall c, m c = (Ok r, c)) /\ Q r) \/ (forall c, m c = (Undef, c)) /\ beyond.

Lemma result_ok_ret {A} (a : A) P (Q : A -> Prop) : Q a -> result_ok (mret a) P Q.
Proof. intros H. left. by exists a. Qed.

Lemma result_ok_bind {A B} (m : M nat A) (f : A -> M nat B) (P P' : Prop) (Q : A -> Prop) (R : B -> Prop) :
  result_ok m P Q -> (P -> P') -> (forall a, Q a -> result_ok (f a) P' R) -> result_ok (m ≫= f) P' R.
Proof.
  intros [(a & E & Ha)|[E HP]] HPP Hf.
  - destruct (Hf a Ha) as [(b & E' & Hb)|[E' Hb]]; [left; exists b|right]; (split; [|auto]); intros c; rewrite (M_bind_Ok _ _ _ _ _ (E c)); apply E'.
  - right. split; [|auto]. intros c. unfold mbind, M_bind. by rewrite E.
Qed.

Lemma result_ok_lift {A} (o : outcome A) (P : Prop) (Q : A -> Prop) : (exists a, o = Ok a /\ Q a) \/ o = Undef /\ P -> result_ok (liftM o) P Q.
Proof. intros [(a & -> & H)|[-> H]]; [by apply result_ok_ret|]. right. by split. Qed.

Lemma result_ok_weaken {A} (m : M nat A) (P P' : Prop) (Q Q' : A -> Prop) : result_ok m P Q -> (P -> P') -> (forall a, Q a -> Q' a) -> result_ok m P' Q'.
Proof. intros [(a & E & Ha)|[E HP]] H1 H2; [left; exists a|right]; auto. Qed.

Section Search.
Variable arr : list Z.

Lemma read_at_in i : i < length arr -> exists v, arr !! i = Some v /\ read_at arr i = Ok v.
Proof. intros Hi. destruct (lookup_lt_is_Some_2 arr i Hi) as [v Hv]. exists v. unfold read_at. by rewrite Hv. Qed.

(** The comparison reads up to [left] elements from [other] on. *)
Lemma match_length_ok left : forall from other, from + left <= length arr ->
  (exists a, match_length arr left from other = Ok a /\ True) \/ match_length arr left from other = Undef /\ length arr < other + left.
Proof.
  induction left as [|l IH]; intros from other Hl; simpl; [left; by exists 0|].
  destruct (read_at_in from) as (v & _ & ->); [lia|]. simpl. destruct (decide (other < length arr)) as [Ho|Ho].
  - destruct (read_at_in other Ho) as (w & _ & ->). simpl. case_decide; [|left; by exists 0].
    destruct (IH (S from) (S other)) as [(a & -> & _)|[-> H']]; [lia|left; by exists (S a)|right]. split; [done|lia].
  - right. split; [|lia]. unfold read_at. by rewrite lookup_ge_None_2 by lia.
Qed.

(** A repetition of period [x] starts at [j] inside the range. *)
Definition best_ok (first last : nat) (b : best) : Prop :=
  best_m b <> 0 -> 0 < best_x b /\ best_j b + best_x b < last - first.

Lemma search_starts_ok fuel : forall first last n i enough maxDepth b,
  last - first - i < fuel -> 0 < n -> last <= length arr -> best_ok first last b ->
  result_ok (search_starts arr None fuel first last n i enough maxDepth b) (length arr < last + n) (fun r => best_ok first last r.2).
Proof.
  induction fuel as [|fuel IH]; intros first last n i enough maxDepth b Hf Hn Hl Hb.
  { lia. }
  cbn [search_starts]. case_decide as Hi; [|by apply result_ok_ret].
  eapply result_ok_bind; [apply result_ok_lift, (match_length_ok (last - (first + i))); lia|lia|]. intros a _.
  case_decide as Ha; [|apply IH; [lia|done..]].
  assert (Hb' : best_ok first last (mkBest a n i)) by (intros _; simpl; lia).
  do 2 (case_decide; [by apply result_ok_ret|]).
  apply (result_ok_bind _ _ False _ (eq false)); [by apply result_ok_ret|done|]. intros ? <-. apply IH; [lia|done..].
Qed.

(** The longest period. *)
Lemma half_bound n : (n + 2) / 2 = S (n / 2).
Proof. rewrite <- (Nat.mul_1_l 2) at 1. rewrite Nat.div_add by done. lia. Qed.

Lemma search_periods_ok fuel : forall first last n enough maxDepth b,
  (last - first + 2) / 2 - n < fuel -> 0 < n -> last <= length arr -> best_ok first last b ->
  result_ok (search_periods arr None fuel first last n enough maxDepth b) (length arr < last + (last - first) / 2) (best_ok first last).
Proof.
  induction fuel as [|fuel IH]; intros first last n enough maxDepth b Hf Hn Hl Hb; [lia|].
  cbn [search_periods]. case_decide as Hi; [|by apply result_ok_ret].
  eapply result_ok_bind; [apply (search_starts_ok (S (last - first))); [lia|done..]|rewrite half_bound in Hi; lia|]. intros [stop b'] Hb'. cbn [fst snd] in *.
  destruct stop; [by apply result_ok_ret|]. case_decide; [by apply result_ok_ret|].
  apply (result_ok_bind _ _ False _ (eq false)); [by apply result_ok_ret|done|]. intros ? <-. apply IH; [lia|lia|done..].
Qed.

Lemma range_app first mid last : first <= mid <= last -> subrange arr first last = subrange arr first mid ++ subrange arr mid last.
Proof.
  intros Hm. unfold subrange. replace (last - first) with ((mid - first) + (last - mid)) by lia. rewrite <- take_take_drop, drop_drop. by replace (first + (mid - first)) with mid by lia.
Qed.
Lemma range_cons i n v : arr !! i = Some v -> subrange arr i (i + S n) = v :: subrange arr (S i) (S i + n).
Proof.
  intros Hv. unfold subrange. replace (i + S n - i) with (S n) by lia. replace (S i + n - S i) with n by lia. by rewrite (drop_S _ _ _ Hv).
Qed.
Lemma range_nil i : subrange arr i (i + 0) = [].
Proof. unfold subrange. by replace (i + 0 - i) with 0 by lia. Qed.

Lemma equal_range_ok x : forall from other, from + x <= length arr -> other + x <= length arr ->
  exists e, equal_range arr x from other = Ok e /\ (e = true -> subrange arr other (other + x) = subrange arr from (from + x)) /\ (from = other -> e = true).
Proof.
  induction x as [|x IH]; intros from other Hf Ho; simpl; [exists true; by rewrite !range_nil|].
  destruct (read_at_in from) as (v & Ev & ->); [lia|]. destruct (read_at_in other) as (w & Ew & ->); [lia|]. simpl. case_decide as Hvw.
  - destruct (IH (S from) (S other)) as (e & E & H1 & H2); [lia..|]. exists e. split; [done|]. split; [|naive_solver].
    intros He. rewrite (range_cons other x w), (range_cons from x v), (H1 He) by done. congruence.
  - exists false. split; [done|]. split; [done|]. intros ->. congruence.
Qed.

(** The loop counts whole copies of the first period. *)
Lemma count_repeats_ok fuel : forall from x other last,
  0 < x -> last - other < fuel -> from + x <= last -> last <= length arr ->
  exists k, count_repeats arr fuel from x other last = Ok k /\
    (0 < k -> other + k * x <= last) /\ (from = other -> 0 < k) /\
    subrange arr other (other + k * x) = concat (replicate k (subrange arr from (from + x))).
Proof.
  induction fuel as [|fuel IH]; intros from x other last Hx Hf Hfl Hlast; [lia|].
  assert (Hz : subrange arr other (other + 0 * x) = []) by apply range_nil.
  cbn [count_repeats]. case_decide as Hl; [|exists 0; split; [done|split_and!; [lia|intros ->; lia|exact Hz]]].
  destruct (equal_range_ok x from other) as (e & -> & He & Hself); [lia..|]. simpl.
  destruct e; [|exists 0; split; [done|split_and!; [lia|by intros ?%Hself|exact Hz]]].
  destruct (IH from x (other + x) last) as (k & E & Hk & _ & Hc); [lia..|]. rewrite E. exists (S k). split; [done|].
  split_and!; [destruct k; lia|lia|]. simpl. rewrite <- Hc, <- (He eq_refl).
  rewrite (range_app other (other + x)) by lia. f_equal. f_equal. lia.
Qed.
End Search.

(** ** The encoder *)

Section Roundtrip.
Variable arr : list Z.
Variable maxLoop : nat.

(** What a run of the encoder on [first, last) must give. *)
Definition encodes (first last : nat) (r : Z * list Z) : Prop :=
  r.1 = Z.of_nat (length r.2) /\ length r.2 <= last - first /\ decodes r.2 (subrange arr first last).

Lemma range_length first last : last <= length arr -> length (subrange arr first last) = last - first.
Proof. intros H. unfold subrange. rewrite length_take, length_drop. lia. Qed.

(** A repeat count, the length of the repeated part, and the part. *)
Lemma encodes_group from x k g :
  0 < x -> 0 < k -> from + x <= length arr -> (Z.of_nat x < 2 ^ 31)%Z -> encodes from (from + x) g ->
  let h := if decide (1 < k) then if (1 <? wrapS 32 g.1)%Z then [- Z.of_nat k; - wrapS 32 g.1]%Z else [- Z.of_nat k]%Z else [] in
  decodes (h ++ g.2) (concat (replicate k (subrange arr from (from + x)))) /\
  length (h ++ g.2) <= k * x.
Proof.
  intros Hx Hk Hin Hx31 (E1 & Hlen & Hd). replace (from + x - from) with x in Hlen by lia. rewrite E1, wrapS_id.
  2: lia. 2: apply in_S_spec; lia.
  assert (Hne : subrange arr from (from + x) <> []).
  { intros Hn. apply (f_equal length) in Hn. rewrite range_length in Hn by done. simpl in Hn. lia. }
  simpl. case_decide as Hk1.
  - destruct (Z.ltb_spec 1 (Z.of_nat (length g.2))).
    + split; [apply decodes_repeat; [lia|lia|done]|]. simpl. nia.
    + destruct (decodes_single _ _ Hd Hne) as (w & -> & -> & Hw); [lia|]. simpl. split; [|nia].
      replace (concat (replicate k [w])) with (replicate k w) by (clear; induction k; simpl; congruence).
      by apply decodes_repeat_one.
  - assert (k = 1) as -> by lia. simpl. rewrite app_nil_r. split; [done|lia].
Qed.

(** The values of a range of the array. *)
Definition natural (first last : nat) : Prop := Forall (fun v => 0 <= v)%Z (subrange arr first last).
Lemma natural_sub first last f l : natural first last -> first <= f -> l <= last -> natural f l.
Proof.
  intros H Hf Hl. destruct (decide (f <= l)) as [Hfl|Hfl]; [|unfold natural, subrange; replace (l - f) with 0 by lia; constructor].
  unfold natural in *. rewrite (range_app arr first f), (range_app arr f l) in H by lia. apply Forall_app in H as [_ H]. by apply Forall_app in H as [H _].
Qed.

Lemma encode_ok fuel : forall first last maxDepth,
  last - first < fuel -> last <= length arr -> (Z.of_nat (last - first) < 2 ^ 31)%Z -> natural first last ->
  result_ok (RLEencode2timeout arr maxLoop None fuel first last maxDepth) (length arr < last + (last - first) / 2) (encodes first last).
Proof.
  induction fuel as [|fuel IH]; intros first last maxDepth Hf Harr H31 Hpos; [lia|].
  cbn [RLEencode2timeout]. case_decide as Hs.
  { apply result_ok_ret. split_and!; simpl; [done|lia|]. unfold subrange. replace (last - first) with 0 by lia. apply decodes_nil. }
  set (enough := _ `min` maxLoop).
  eapply result_ok_bind; [apply (search_periods_ok arr (S ((last - first + 2) / 2))); [lia|lia|done|by intros Hx]|lia|]. intros b Hb.
  case_decide as Hstop.
  { unfold copy_range. rewrite decide_True by done. apply (result_ok_bind _ _ False _ (eq (subrange arr first last))); [by apply result_ok_ret|done|].
    intros ? <-. apply result_ok_ret. split_and!; simpl; rewrite ?range_length by done; [done..|]. by apply decodes_copy. }
  destruct Hb as [Hx Hj]; [tauto|].
  set (x := best_x b) in *. set (from := first + best_j b) in *.
  destruct (count_repeats_ok arr (S (last - from)) from x from last) as (k & Ek & Hkl & Hkp & Hkc); [lia..|]. specialize (Hkp eq_refl). specialize (Hkl Hkp).
  apply (result_ok_bind _ _ False _ (eq k)); [rewrite Ek; by apply result_ok_ret|done|]. intros ? <-.
  set (md := pred <$> maxDepth). cbv zeta.
  assert (Hsub : forall f l, first <= f -> l <= last -> l - f < fuel -> result_ok (RLEencode2timeout arr maxLoop None fuel f l md) (length arr < last + (last - first) / 2) (encodes f l)).
  { intros f l Hf' Hl' Hlt. eapply result_ok_weaken; [apply IH; [done|lia|lia|by eapply natural_sub]| |done]. intros H.
    assert ((l - f) / 2 <= (last - first) / 2) by (apply Nat.Div0.div_le_mono; lia). lia. }
  eapply result_ok_bind; [apply Hsub; lia|done|]. intros l (L1 & L2 & L3).
  pose proof (Hsub from (from + x) ltac:(lia) ltac:(lia) ltac:(lia)) as Hg.
  eapply (result_ok_bind _ _ _ _ (fun h => (forall g, RLEencode2timeout arr maxLoop None fuel from (from + x) md 0 = (Ok g, 0) ->
    h = if decide (1 < k) then if (1 <? wrapS 32 g.1)%Z then [- Z.of_nat k; - wrapS 32 g.1]%Z else [- Z.of_nat k]%Z else []))); [|exact id|].
  { case_decide; [|by apply result_ok_ret]. eapply result_ok_bind; [|exact id|].
    - destruct Hg as [(g & Eg & _)|Hg]; [left; exists g; split; [exact Eg|exact (Eg 0)]|right; exact Hg].
    - intros t Ht. apply result_ok_ret. intros g Hg'. cbv beta in Ht. rewrite Ht in Hg'. by injection Hg' as ->. }
  intros h Hh. eapply (result_ok_bind _ _ _ _ (fun g => encodes from (from + x) g /\ RLEencode2timeout arr maxLoop None fuel from (from + x) md 0 = (Ok g, 0))); [|exact id|].
  { destruct Hg as [(g & Eg & He)|Hg]; [left; exists g; split; [exact Eg|split; [exact He|exact (Eg 0)]]|right; exact Hg]. }
  intros g [He Eg]. specialize (Hh g Eg).
  destruct (encodes_group from x k g) as [Hd Hdl]; [lia|lia|lia|lia|done|]. rewrite <- Hh in Hd, Hdl. clear Hh.
  eapply result_ok_bind; [apply (Hsub (from + k * x) last); nia|exact id|]. intros r (R1 & R2 & R3). apply result_ok_ret.
  destruct He as (G1 & _ & _). split_and!; simpl.
  - rewrite !length_app. lia.
  - rewrite !length_app in *. lia.
  - rewrite (range_app arr first from), (range_app arr from (from + k * x)), Hkc by lia.
    apply decodes_app; [done|]. rewrite app_assoc. by apply decodes_app.
Qed.
End Roundtrip.

Lemma diff_roundtrip_loop l : forall prev ok o,
  DIFFencode_loop prev l = (ok, o) -> ok = true -> DIFFdecode_loop prev o = l /\ Forall (fun d => 0 <= d)%Z o /\ length o = length l.
Proof.
  induction l as [|v l IH]; intros prev ok o; simpl.
  { intros [= <- <-] _. by repeat constructor. }
  destruct (Z.ltb_spec v prev); [by intros [= <- <-]|].
  destruct (DIFFencode_loop v l) as [ok' o'] eqn:E. intros [= <- <-] ->. simpl.
  destruct (IH v true o' E eq_refl) as (Hd & Hp & Hl). replace (v - prev + prev)%Z with v by lia.
  split_and!; [by rewrite Hd|constructor; [lia|done]|by rewrite Hl].
Qed.

(** C9. Run-length encoding, without a deadline and with any bounds on the search, of fewer
    than [2^31] values none of which is negative: it terminates, and reports the number of
    values written, writes no more than it reads, and what it writes decodes to the values;
    or it has read elements beyond the end of the array, which is not defined.  This
    cannot happen when the array goes on behind the range for half its length. *)
Theorem rle_roundtrip (arr : list Z) (first last maxLoop : nat) (maxDepth : option nat) :
  (Z.of_nat (last - first) < 2 ^ 31)%Z -> last <= length arr -> Forall (fun v => 0 <= v)%Z (subrange arr first last) ->
  let r := (RLEencode2timeout arr maxLoop None (S (last - first)) first last maxDepth 0).1 in
  (r = Undef \/ exists n o, r = Ok (n, o) /\ n = Z.of_nat (length o) /\ length o <= last - first /\ RLEdecode2 o = Ok (subrange arr first last)) /\
  (last + (last - first) / 2 <= length arr -> r <> Undef).
Proof.
  intros H31 Harr Hpos. destruct (encode_ok arr maxLoop (S (last - first)) first last maxDepth) as [([n o] & E & E1 & Hl & Hd)|[E Hb]]; [lia|done..| |]; rewrite E; cbn [fst].
  - split; [|done]. right. exists n, o. split_and!; [done..|by apply decodes_all].
  - split; [by left|]. lia.
Qed.

Lemma rle_roundtrip_witness :
  exists n o, (RLEencode2timeout [1; 1; 2; 1; 1; 2; 5; 5; 5]%Z 5000 None 7 0 6 (Some 3) 0).1 = Ok (n, o) /\
    RLEdecode2 o = Ok [1; 1; 2; 1; 1; 2]%Z.
Proof.
  destruct (rle_roundtrip [1; 1; 2; 1; 1; 2; 5; 5; 5]%Z 0 6 5000 (Some 3)) as [[E|(n & o & E & _ & _ & Hd)] Hu].
  - reflexivity.
  - simpl. lia.
  - repeat constructor; vm_compute; discriminate.
  - destruct (Hu ltac:(simpl; lia)). exact E.
  - exists n, o. split; [exact E|exact Hd].
Defined.

(** A repetition that reaches the end of the array: the element behind the end is read. *)
Example rle_reads_beyond : RLEencode2 [1; 1]%Z 0 2 5000 = Undef /\ exists n o, RLEencode2 [1; 1; 7]%Z 0 2 5000 = Ok (n, o).
Proof. split; [by vm_compute|]. eexists _, _. by vm_compute. Qed.

(** With a deadline that passes between the trial run and the real run on a
    repeated part, the length written in front of the part is wrong and the
    stream decodes to other values. *)
Theorem rle_deadline_corrupts :
  let l := [1; 2; 1; 2; 1; 2; 3; 1; 2; 1; 2; 1; 2; 3]%Z in
  exists n o v, RLEencode2_timed (l ++ replicate 7 0%Z) 0 (length l) 5000 (fun i => 10 <=? i) 1000 = Ok (n, o) /\
    RLEdecode2 o = Ok v /\ v <> l.
Proof. eexists _, _, _. split; [vm_compute; reflexivity|]. split; [vm_compute; reflexivity|discriminate]. Qed.

(** Difference and run-length encoding together give back any list whose first value is not
    negative and whose length fits an [int], when memory can be read behind it for half
    its length. *)
Theorem rlediff_roundtrip (l beyond : list Z) (maxLoop : nat) :
  (zlen l < 2 ^ 31)%Z -> (forall v, head l = Some v -> 0 <= v)%Z -> length l / 2 <= length beyond ->
  exists d, RLEDIFFwrite l beyond maxLoop = Ok d /\ RLEDIFFread d = Ok l.
Proof.
  intros H31 Hpos Hbeyond. unfold RLEDIFFwrite. destruct (DIFFencode l) as [diff tmp] eqn:E.
  destruct diff; [|by exists (false, l)].
  assert (Hd : DIFFdecode tmp = l /\ Forall (fun d => 0 <= d)%Z tmp /\ length tmp = length l).
  { destruct l as [|v l]; simpl in E; [injection E as <-; by repeat constructor|].
    destruct (DIFFencode_loop v l) as [ok o] eqn:E'. injection E as -> <-.
    destruct (diff_roundtrip_loop l v true o E' eq_refl) as (Hd & Hp & Hl). simpl.
    split_and!; [by rewrite Hd|constructor; [by apply Hpos|done]|by rewrite Hl]. }
  destruct Hd as (Hd & Hp & Hl).
  assert (Hr : subrange (tmp ++ beyond) 0 (length tmp) = tmp) by (unfold subrange; by rewrite drop_0, Nat.sub_0_r, take_app_length).
  destruct (encode_ok (tmp ++ beyond) maxLoop (S (length tmp - 0)) 0 (length tmp) None) as [([n o] & Eo & _ & _ & Hdec)|[_ Hb]].
  - lia.
  - rewrite length_app. lia.
  - unfold zlen in H31. lia.
  - unfold natural. by rewrite Hr.
  - unfold RLEencode2. rewrite Eo. cbn [fst]. eexists. split; [reflexivity|]. unfold RLEDIFFread. cbn [fst snd].
    simpl in Hdec. rewrite Hr in Hdec. rewrite (decodes_all _ _ Hdec). simpl. by rewrite Hd.
  - rewrite length_app, Nat.sub_0_r, Hl in Hb. lia.
Qed.

Lemma rlediff_roundtrip_witness :
  exists d, RLEDIFFwrite [3; 5; 7; 9; 9]%Z [4; 4]%Z 100 = Ok d /\ RLEDIFFread d = Ok [3; 5; 7; 9; 9]%Z.
Proof.
  apply (rlediff_roundtrip [3; 5; 7; 9; 9]%Z [4; 4]%Z 100); [reflexivity| |simpl; lia].
  intros v [= <-]. discriminate.
Defined.
