(* ===== verification/Base64.v ===== *)
(** * Base64

    [codec/detail/Base64.cc]: three bytes are written as four characters, the
    last group padded with one or two '='.  Both functions fill a string of a
    size computed in advance; a store or a load outside is undefined behaviour. *)
From Stdlib Require Import ZifyNat.
From S2P Require Import Prelude.
#[local] Open Scope nat_scope.
#[local] Ltac Zify.zify_post_hook ::= Z.to_euclidean_division_equations.

Definition b64_encode_table : list Z :=
  byte.unsigned <$> str "ABCDEFGHIJKLMNOPQRSTUVWXYZabcdefghijklmnopqrstuvwxyz0123456789+/".

Definition b64_decode_table : list Z :=
  [64; 64; 64; 64; 64; 64; 64; 64; 64; 64; 64; 64; 64; 64; 64; 64; 64; 64; 64; 64; 64; 64; 64; 64; 64; 64; 64; 64; 64; 64; 64; 64;
   64; 64; 64; 64; 64; 64; 64; 64; 64; 64; 64; 62; 64; 64; 64; 63; 52; 53; 54; 55; 56; 57; 58; 59; 60; 61; 64; 64; 64; 64; 64; 64;
   64; 0; 1; 2; 3; 4; 5; 6; 7; 8; 9; 10; 11; 12; 13; 14; 15; 16; 17; 18; 19; 20; 21; 22; 23; 24; 25; 64; 64; 64; 64; 64;
   64; 26; 27; 28; 29; 30; 31; 32; 33; 34; 35; 36; 37; 38; 39; 40; 41; 42; 43; 44; 45; 46; 47; 48; 49; 50; 51; 64; 64; 64; 64; 64;
   64; 64; 64; 64; 64; 64; 64; 64; 64; 64; 64; 64; 64; 64; 64; 64; 64; 64; 64; 64; 64; 64; 64; 64; 64; 64; 64; 64; 64; 64; 64; 64;
   64; 64; 64; 64; 64; 64; 64; 64; 64; 64; 64; 64; 64; 64; 64; 64; 64; 64; 64; 64; 64; 64; 64; 64; 64; 64; 64; 64; 64; 64; 64; 64;
   64; 64; 64; 64; 64; 64; 64; 64; 64; 64; 64; 64; 64; 64; 64; 64; 64; 64; 64; 64; 64; 64; 64; 64; 64; 64; 64; 64; 64; 64; 64; 64;
   64; 64; 64; 64; 64; 64; 64; 64; 64; 64; 64; 64; 64; 64; 64; 64; 64; 64; 64; 64; 64; 64; 64; 64; 64; 64; 64; 64; 64; 64; 64; 64]%Z.

(** [table[x]]; the entries of the encoding table that have no initialiser are 0. *)
Definition enc (x : Z) : byte := byte.of_Z (default 0%Z (b64_encode_table !! Z.to_nat x)).
Definition dec (c : byte) : Z := default 64%Z (b64_decode_table !! Z.to_nat (byte.unsigned c)).

(** [*pos++ = v] for each value, in a string that must be large enough. *)
Fixpoint puts (s : list byte) (pos : nat) (vs : list byte) : outcome (list byte) :=
  match vs with
  | [] => Ok s
  | v :: vs => if decide (pos < length s) then puts (<[pos := v]> s) (S pos) vs else Undef
  end.

Definition u := byte.unsigned.

Definition equals_sign : byte := "="%byte.

(** The characters of a full group, and those of the last group. *)
Definition group3 (a b c : byte) : list byte :=
  [enc (Z.shiftr (u a) 2);
   enc (Z.lor (Z.shiftl (Z.land (u a) 0x03) 4) (Z.shiftr (u b) 4));
   enc (Z.lor (Z.shiftl (Z.land (u b) 0x0f) 2) (Z.shiftr (u c) 6));
   enc (Z.land (u c) 0x3f)].

Definition tail1 (a : byte) : list byte :=
  [enc (Z.shiftr (u a) 2); enc (Z.shiftl (Z.land (u a) 0x03) 4); equals_sign; equals_sign].

Definition tail2 (a b : byte) : list byte :=
  [enc (Z.shiftr (u a) 2);
   enc (Z.lor (Z.shiftl (Z.land (u a) 0x03) 4) (Z.shiftr (u b) 4));
   enc (Z.shiftl (Z.land (u b) 0x0f) 2);
   equals_sign].

Fixpoint encode_loop (l : list byte) (s : list byte) (pos : nat) : outcome (list byte) :=
  match l with
  | a :: b :: c :: l => puts s pos (group3 a b c) ≫= fun s => encode_loop l s (pos + 4)
  | [a; b] => puts s pos (tail2 a b)
  | [a] => puts s pos (tail1 a)
  | [] => Ok s
  end.

Definition encode (data : list byte) : outcome (list byte) :=
  let out_len := wrapU 64 (4 * (wrapU 64 (zlen data + 2) / 3)) in
  if (out_len <? zlen data)%Z then Ok []
  else encode_loop data (replicate (Z.to_nat out_len) "000"%byte) 0.

(** [p[i]] *)
Definition at_ (p : list byte) (i : nat) : outcome byte :=
  match p !! i with Some c => Ok c | None => Undef end.

(** Conversion of an [int] to [char]. *)
Definition to_char (n : Z) : byte := byte.of_Z n.

Fixpoint decode_loop (fuel : nat) (p : list byte) (L i j : nat) (s : list byte) : outcome (list byte) :=
  match fuel with
  | O => NoFuel
  | S f =>
      if decide (i < L) then
        a ← at_ p i; b ← at_ p (i + 1); c ← at_ p (i + 2); d ← at_ p (i + 3);
        let n := Z.lor (Z.lor (Z.lor (Z.shiftl (dec a) 18) (Z.shiftl (dec b) 12)) (Z.shiftl (dec c) 6)) (dec d) in
        s ← puts s j [to_char (Z.shiftr n 16); to_char (Z.land (Z.shiftr n 8) 0xff); to_char (Z.land n 0xff)];
        decode_loop f p L (i + 4) (j + 3) s
      else Ok s
  end.

Definition decode (p : list byte) : outcome (list byte) :=
  let len := length p in
  let pad := if bool_decide (0 < len) &&
                (negb (len mod 4 =? 0) || bool_decide (p !! (len - 1) = Some equals_sign)) then 1 else 0 in
  let L := ((len + 3) / 4 - pad) * 4 in
  s ← decode_loop (S len) p L 0 0 (replicate (L / 4 * 3 + pad) "000"%byte);
  if pad =? 0 then Ok s
  else
    a ← at_ p L; b ← at_ p (L + 1);
    let n := Z.lor (Z.shiftl (dec a) 18) (Z.shiftl (dec b) 12) in
    s ← puts s (length s - 1) [to_char (Z.shiftr n 16)];
    if decide (L + 2 < len) then
      c ← at_ p (L + 2);
      if decide (c = equals_sign) then Ok s
      else Ok (s ++ [to_char (Z.land (Z.shiftr (Z.lor n (Z.shiftl (dec c) 6)) 8) 0xff)])
    else Ok s.

Example encode_ex : encode (str "Many hands") = Ok (str "TWFueSBoYW5kcw==").
Proof. vm_compute. reflexivity. Qed.
Example decode_ex : decode (str "TWFueSBoYW5kcw") = Ok (str "Many hands").
Proof. vm_compute. reflexivity. Qed.
Example decode_ex2 : decode (str "YWI=") = Ok (str "ab").
Proof. vm_compute. reflexivity. Qed.

(** ** Characters and sextets *)

(** The characters written for a list of bytes. *)
Fixpoint chars (l : list byte) : list byte :=
  match l with
  | a :: b :: c :: l => group3 a b c ++ chars l
  | [a; b] => tail2 a b
  | [a] => tail1 a
  | [] => []
  end.

Lemma list_ind3 {A} (P : list A -> Prop) :
  P [] -> (forall a, P [a]) -> (forall a b, P [a; b]) ->
  (forall a b c l, P l -> P (a :: b :: c :: l)) -> forall l, P l.
Proof.
  intros H0 H1 H2 H3. fix IH 1. intros [|a [|b [|c l]]]; [done|done|done|]. apply H3, IH.
Qed.

Lemma length_chars l : length (chars l) = 4 * ((length l + 2) / 3).
Proof.
  induction l as [| | |a b c l IH] using list_ind3; try done. cbn [chars].
  rewrite length_app, IH. cbn [length group3]. lia.
Qed.

Lemma insert_middle {A} (d : list A) x y r : <[length d := y]> (d ++ x :: r) = d ++ y :: r.
Proof. induction d as [|z d IH]; simpl; [done|]. by rewrite IH. Qed.

Lemma puts_spec vs : forall d k,
  puts (d ++ replicate (length vs + k) "000"%byte) (length d) vs = Ok (d ++ vs ++ replicate k "000"%byte).
Proof.
  induction vs as [|v vs IH]; intros d k; [done|]. simpl.
  rewrite decide_True by (rewrite length_app; simpl; lia). rewrite insert_middle.
  specialize (IH (d ++ [v]) k). rewrite length_app, <- !app_assoc in IH. simpl in IH.
  by rewrite Nat.add_1_r in IH.
Qed.

Lemma encode_loop_spec l : forall d,
  encode_loop l (d ++ replicate (length (chars l)) "000"%byte) (length d) = Ok (d ++ chars l).
Proof.
  induction l as [|a|a b|a b c l IH] using list_ind3; intros d.
  - by rewrite !app_nil_r.
  - cbn [encode_loop chars]. pose proof (puts_spec (tail1 a) d 0) as E.
    rewrite Nat.add_0_r in E. rewrite E. by rewrite app_nil_r.
  - cbn [encode_loop chars]. pose proof (puts_spec (tail2 a b) d 0) as E.
    rewrite Nat.add_0_r in E. rewrite E. by rewrite app_nil_r.
  - cbn [encode_loop chars]. rewrite length_app, puts_spec. cbn [mbind outcome_mbind outcome_bind].
    specialize (IH (d ++ group3 a b c)). rewrite length_app, <- !app_assoc in IH. apply IH.
Qed.

Lemma encode_spec l : (zlen l < 2 ^ 62)%Z -> encode l = Ok (chars l).
Proof.
  intros Hl. unfold encode, zlen in *.
  assert (E : (4 * ((Z.of_nat (length l) + 2) / 3))%Z = Z.of_nat (length (chars l))).
  { rewrite length_chars. lia. }
  assert (length l <= length (chars l)) by (rewrite length_chars; lia).
  assert (length (chars l) <= 4 * length l + 4) by (rewrite length_chars; lia).
  unfold wrapU. rewrite (Z.mod_small (_ + 2)) by lia. rewrite E, Z.mod_small by lia.
  destruct (Z.ltb_spec (Z.of_nat (length (chars l))) (Z.of_nat (length l))); [lia|].
  rewrite Nat2Z.id. apply (encode_loop_spec l []).
Qed.

Open Scope Z_scope.

Lemma sextets_ok :
  Forall (fun n => dec (enc (Z.of_nat n)) = Z.of_nat n /\ enc (Z.of_nat n) <> equals_sign) (seq 0 64).
Proof. by repeat constructor. Qed.

Lemma dec_enc x : 0 <= x < 64 -> dec (enc x) = x /\ enc x <> equals_sign.
Proof.
  intros Hx. pose proof sextets_ok as H. rewrite Forall_forall in H.
  specialize (H (Z.to_nat x)). rewrite Z2Nat.id in H by lia. apply H, elem_of_seq. lia.
Qed.

Lemma dec_enc_id x : 0 <= x < 64 -> dec (enc x) = x.
Proof. intros. by apply dec_enc. Qed.

Lemma join4 s1 s2 s3 s4 :
  0 <= s1 < 64 -> 0 <= s2 < 64 -> 0 <= s3 < 64 -> 0 <= s4 < 64 ->
  Z.lor (Z.lor (Z.lor (Z.shiftl s1 18) (Z.shiftl s2 12)) (Z.shiftl s3 6)) s4 =
    s1 * 2 ^ 18 + s2 * 2 ^ 12 + s3 * 2 ^ 6 + s4.
Proof.
  intros. rewrite (lor_shiftl s1 _ 18) by (rewrite ?Z.shiftl_mul_pow2 by lia; lia).
  replace (s1 * 2 ^ 18 + Z.shiftl s2 12) with (Z.shiftl (s1 * 2 ^ 6 + s2) 12)
    by (rewrite !Z.shiftl_mul_pow2 by lia; lia).
  rewrite lor_shiftl by (rewrite ?Z.shiftl_mul_pow2 by lia; lia).
  replace ((s1 * 2 ^ 6 + s2) * 2 ^ 12 + Z.shiftl s3 6) with (Z.shiftl ((s1 * 2 ^ 6 + s2) * 2 ^ 6 + s3) 6)
    by (rewrite !Z.shiftl_mul_pow2 by lia; lia).
  rewrite lor_shiftl by lia. lia.
Qed.

(** The sextets of a group of three bytes. *)
Lemma hi_sextet a : Z.shiftr (u a) 2 = u a / 4 /\ 0 <= u a / 4 < 64.
Proof. pose proof (byte.unsigned_range a). rewrite Z.shiftr_div_pow2 by lia. unfold u. lia. Qed.

Lemma mid_sextet a b :
  Z.lor (Z.shiftl (Z.land (u a) 0x03) 4) (Z.shiftr (u b) 4) = u a mod 4 * 16 + u b / 16.
Proof.
  pose proof (byte.unsigned_range b). change 0x03 with (Z.ones 2).
  rewrite Z.land_ones, Z.shiftr_div_pow2 by lia. rewrite lor_shiftl by (unfold u; lia). lia.
Qed.

Lemma low_sextet b c :
  Z.lor (Z.shiftl (Z.land (u b) 0x0f) 2) (Z.shiftr (u c) 6) = u b mod 16 * 4 + u c / 64.
Proof.
  pose proof (byte.unsigned_range c). change 0x0f with (Z.ones 4).
  rewrite Z.land_ones, Z.shiftr_div_pow2 by lia. rewrite lor_shiftl by (unfold u; lia). lia.
Qed.

Lemma last_sextet c : Z.land (u c) 0x3f = u c mod 64.
Proof. change 0x3f with (Z.ones 6). by rewrite Z.land_ones by lia. Qed.

Lemma mid_tail a : Z.shiftl (Z.land (u a) 0x03) 4 = u a mod 4 * 16.
Proof. change 0x03 with (Z.ones 2). by rewrite Z.land_ones, Z.shiftl_mul_pow2 by lia. Qed.

Lemma low_tail b : Z.shiftl (Z.land (u b) 0x0f) 2 = u b mod 16 * 4.
Proof. change 0x0f with (Z.ones 4). by rewrite Z.land_ones, Z.shiftl_mul_pow2 by lia. Qed.

Lemma to_char_of x a : 0 <= x -> x mod 256 = u a -> to_char x = a.
Proof.
  intros Hx E. unfold to_char. rewrite <- (byte.of_Z_unsigned a). unfold u in E. rewrite <- E.
  rewrite <- (byte.of_Z_unsigned (byte.of_Z x)), byte.unsigned_of_Z. done.
Qed.

Lemma land_ff x : Z.land x 0xff = x mod 256.
Proof. change 0xff with (Z.ones 8). by rewrite Z.land_ones by lia. Qed.

(** The bytes rebuilt from the 24 bits of a group. *)
Lemma bytes_of_group n a b c :
  n = u a * 65536 + u b * 256 + u c ->
  to_char (Z.shiftr n 16) = a /\ to_char (Z.land (Z.shiftr n 8) 0xff) = b /\ to_char (Z.land n 0xff) = c.
Proof.
  intros ->. pose proof (byte.unsigned_range a). pose proof (byte.unsigned_range b).
  pose proof (byte.unsigned_range c). rewrite !land_ff, !Z.shiftr_div_pow2 by lia. unfold u in *.
  split_and!; apply to_char_of; unfold u; lia.
Qed.

Open Scope nat_scope.

(** Loads from the encoded text. *)
Lemma at_app (pre r : list byte) k : at_ (pre ++ r) (length pre + k) = at_ r k.
Proof. unfold at_. rewrite lookup_app_r by lia. by rewrite Nat.add_sub_swap, Nat.sub_diag by lia. Qed.

Lemma at_app_0 (pre r : list byte) : at_ (pre ++ r) (length pre) = at_ r 0.
Proof. rewrite <- (at_app pre r 0). by rewrite Nat.add_0_r. Qed.

(** A full group is decoded to its bytes. *)
Lemma decode_group a b c s1 s2 s3 s4 :
  group3 a b c = [s1; s2; s3; s4] ->
  (Z.lor (Z.lor (Z.lor (Z.shiftl (dec s1) 18) (Z.shiftl (dec s2) 12)) (Z.shiftl (dec s3) 6)) (dec s4) =
    u a * 65536 + u b * 256 + u c)%Z.
Proof.
  unfold group3. rewrite mid_sextet, low_sextet, last_sextet. destruct (hi_sextet a) as [-> Ha]. intros E. simplify_eq.
  pose proof (byte.unsigned_range a). pose proof (byte.unsigned_range b).
  pose proof (byte.unsigned_range c). unfold u in *.
  rewrite !dec_enc_id by lia. rewrite join4 by lia. lia.
Qed.

Lemma decode_loop_spec l : forall pre d k f L,
  L = length pre + 4 * (length l / 3) -> length l / 3 < f ->
  decode_loop f (pre ++ chars l) L (length pre) (length d)
    (d ++ replicate (3 * (length l / 3) + k) "000"%byte) =
  Ok (d ++ take (3 * (length l / 3)) l ++ replicate k "000"%byte).
Proof.
  induction l as [|a|a b|a b c l IH] using list_ind3; intros pre d k f L HL Hf;
    (destruct f as [|f]; [lia|]); cbn [decode_loop length] in *.
  1-3: rewrite decide_False by (change (0 / 3) with 0 in *; change (1 / 3) with 0 in *; change (2 / 3) with 0 in *; lia); done.
  assert (E3 : S (S (S (length l))) / 3 = S (length l / 3)).
  { replace (S (S (S (length l)))) with (length l + 1 * 3) by lia. rewrite Nat.div_add by lia. lia. }
  rewrite E3 in *. rewrite decide_True by lia. cbn [chars].
  destruct (group3 a b c) as [|s1 [|s2 [|s3 [|s4 [|]]]]] eqn:Eg; try done.
  pose proof (decode_group _ _ _ _ _ _ _ Eg) as Hn.
  destruct (bytes_of_group _ _ _ _ Hn) as (H1 & H2 & H3).
  rewrite !at_app, at_app_0.
  cbn [mbind outcome_mbind outcome_bind app at_ lookup list_lookup]. rewrite H1, H2, H3.
  replace (3 * S (length l / 3) + k) with (3 + (3 * (length l / 3) + k)) by lia.
  pose proof (puts_spec [a; b; c] d (3 * (length l / 3) + k)) as Hp. cbn [length] in Hp. rewrite Hp.
  cbn [outcome_bind].
  specialize (IH (pre ++ [s1; s2; s3; s4]) (d ++ [a; b; c]) k f L).
  rewrite !length_app, <- !app_assoc in IH. cbn [length app] in IH.
  etransitivity; [apply IH; lia|].
  replace (3 * S (length l / 3)) with (3 + 3 * (length l / 3)) by lia. done.
Qed.

(** ** The whole text *)

Lemma chars_app n : forall full tail, length full = 3 * n -> chars (full ++ tail) = chars full ++ chars tail.
Proof.
  induction n as [|n IH]; intros full tail Hl.
  - by apply nil_length_inv in Hl as ->.
  - destruct full as [|a [|b [|c full]]]; simpl in Hl; try lia.
    cbn [chars app]. rewrite IH, app_assoc by lia. done.
Qed.

Lemma chars_no_equals n : forall full, length full = 3 * n -> Forall (fun c => c <> equals_sign) (chars full).
Proof.
  induction n as [|n IH]; intros full Hl.
  - apply nil_length_inv in Hl as ->. constructor.
  - destruct full as [|a [|b [|c full]]]; simpl in Hl; try lia. cbn [chars].
    apply Forall_app. split; [|apply IH; lia]. unfold group3.
    rewrite mid_sextet, low_sextet, last_sextet. destruct (hi_sextet a) as [-> Ha].
    pose proof (byte.unsigned_range a). pose proof (byte.unsigned_range b).
    pose proof (byte.unsigned_range c). unfold u in *.
    repeat constructor; apply dec_enc; lia.
Qed.

(** The first byte of the last group, and the second one. *)
Lemma decode_tail a x s1 s2 :
  s1 = enc (Z.shiftr (u a) 2) -> s2 = enc (u a mod 4 * 16 + x) -> (0 <= x < 16)%Z ->
  (Z.lor (Z.shiftl (dec s1) 18) (Z.shiftl (dec s2) 12) = u a * 65536 + x * 4096)%Z /\
  to_char (Z.shiftr (Z.lor (Z.shiftl (dec s1) 18) (Z.shiftl (dec s2) 12)) 16) = a.
Proof.
  intros -> -> Hx. destruct (hi_sextet a) as [-> Ha]. pose proof (byte.unsigned_range a). unfold u in *.
  rewrite !dec_enc_id by lia. rewrite lor_shiftl by (rewrite ?Z.shiftl_mul_pow2 by lia; lia).
  rewrite Z.shiftl_mul_pow2 by lia. split; [lia|].
  rewrite Z.shiftr_div_pow2 by lia. apply to_char_of; unfold u; lia.
Qed.

Lemma decode_tail2 a b s3 :
  s3 = enc (u b mod 16 * 4) ->
  to_char (Z.land (Z.shiftr (Z.lor (u a * 65536 + u b / 16 * 4096) (Z.shiftl (dec s3) 6)) 8) 0xff) = b.
Proof.
  intros ->. pose proof (byte.unsigned_range a). pose proof (byte.unsigned_range b). unfold u in *.
  rewrite dec_enc_id by lia.
  replace (byte.unsigned a * 65536 + byte.unsigned b / 16 * 4096)%Z
    with (Z.shiftl (byte.unsigned a * 16 + byte.unsigned b / 16) 12)
    by (rewrite Z.shiftl_mul_pow2 by lia; lia).
  rewrite lor_shiftl by (rewrite ?Z.shiftl_mul_pow2 by lia; lia).
  rewrite Z.shiftl_mul_pow2, land_ff, Z.shiftr_div_pow2 by lia. apply to_char_of; unfold u; lia.
Qed.

(** The decoder on the text of a whole number of groups followed by [tail]. *)
Lemma decode_loop_chars full tail n pad :
  length full = 3 * n -> length tail < 3 ->
  decode_loop (S (length (chars (full ++ tail)))) (chars (full ++ tail)) (4 * n) 0 0
    (replicate (4 * n / 4 * 3 + pad) "000"%byte) = Ok (full ++ replicate pad "000"%byte).
Proof.
  intros Hf Ht. assert (E : length (full ++ tail) / 3 = n).
  { rewrite length_app, Hf, Nat.mul_comm, Nat.div_add_l, Nat.div_small by lia. lia. }
  pose proof (decode_loop_spec (full ++ tail) [] [] pad (S (length (chars (full ++ tail)))) (4 * n)) as H.
  rewrite E in H. cbn [app length] in H.
  rewrite (Nat.mul_comm 4 n), Nat.div_mul, <- (Nat.mul_comm 4 n), (Nat.mul_comm n 3) by lia.
  rewrite H; [by rewrite <- Hf, take_app_length|lia|].
  rewrite length_chars, length_app. lia.
Qed.

(** The decoder on a text whose last group is padded. *)
Lemma decode_padded full tail n s1 s2 s3 a :
  length full = 3 * n -> length tail < 3 -> chars tail = [s1; s2; s3; equals_sign] ->
  to_char (Z.shiftr (Z.lor (Z.shiftl (dec s1) 18) (Z.shiftl (dec s2) 12)) 16) = a ->
  decode (chars (full ++ tail)) =
    if decide (s3 = equals_sign) then Ok (full ++ [a])
    else Ok ((full ++ [a]) ++ [to_char (Z.land (Z.shiftr (Z.lor (Z.lor (Z.shiftl (dec s1) 18)
                (Z.shiftl (dec s2) 12)) (Z.shiftl (dec s3) 6)) 8) 0xff)]).
Proof.
  intros Hf Ht Htail Ha. pose proof (decode_loop_chars full tail n 1 Hf Ht) as Hloop.
  assert (Hc : length (chars full) = 4 * n) by (rewrite length_chars, Hf; lia).
  unfold decode. rewrite (chars_app n), Htail in * by done.
  assert (Hlen : length (chars full ++ [s1; s2; s3; equals_sign]) = 4 * n + 4) by (by rewrite length_app, Hc).
  rewrite Hlen in *. replace (bool_decide (0 < 4 * n + 4) && _) with true.
  2:{ symmetry. rewrite bool_decide_true by lia. apply orb_true_intro. right.
      apply bool_decide_true. rewrite lookup_app_r, Hc by lia. by replace (4 * n + 4 - 1 - 4 * n) with 3 by lia. }
  replace (((4 * n + 4 + 3) / 4 - 1) * 4) with (4 * n) by lia. rewrite Hloop.
  cbn [mbind outcome_mbind outcome_bind Nat.eqb]. rewrite <- Hc, at_app_0, !at_app.
  cbn [at_ lookup list_lookup]. unfold mbind, outcome_mbind. cbn [outcome_bind]. rewrite Ha.
  rewrite length_app. cbn [length replicate puts]. rewrite Nat.add_sub.
  rewrite decide_True by (rewrite length_app; simpl; lia). rewrite insert_middle. cbn [outcome_bind].
  by rewrite decide_True by lia.
Qed.

Lemma decode_unpadded full n : length full = 3 * n -> decode (chars full) = Ok full.
Proof.
  intros Hf. pose proof (decode_loop_chars full [] n 0 Hf ltac:(simpl; lia)) as Hloop.
  rewrite !app_nil_r in Hloop.
  assert (Hc : length (chars full) = 4 * n) by (rewrite length_chars, Hf; lia).
  unfold decode. rewrite Hc in *. replace (bool_decide (0 < 4 * n) && _) with false.
  - replace ((4 * n + 3) / 4 - 0) with n by lia. rewrite (Nat.mul_comm n 4). by rewrite Hloop.
  - symmetry. apply andb_false_iff. destruct n as [|n]; [by left|right].
    replace (4 * S n mod 4) with 0 by lia. apply bool_decide_false. intros E%list_elem_of_lookup_2.
    pose proof (chars_no_equals (S n) full Hf) as Hne. rewrite Forall_forall in Hne. by apply Hne in E.
Qed.

Lemma decode_chars l : decode (chars l) = Ok l.
Proof.
  set (n := length l / 3). rewrite <- (take_drop (3 * n) l).
  pose proof (Nat.div_mod_eq (length l) 3). pose proof (Nat.mod_upper_bound (length l) 3 ltac:(lia)).
  assert (Hf : length (take (3 * n) l) = 3 * n) by (rewrite length_take; lia).
  assert (Ht : length (drop (3 * n) l) < 3) by (rewrite length_drop; lia).
  destruct (drop (3 * n) l) as [|a [|b [|? ?]]]; [| | |simpl in Ht; lia].
  - rewrite app_nil_r. by apply (decode_unpadded _ n).
  - destruct (decode_tail a 0 _ _ eq_refl eq_refl ltac:(lia)) as [_ E]. rewrite Z.add_0_r, <- mid_tail in E.
    rewrite (decode_padded _ _ _ _ _ _ _ Hf Ht eq_refl E). done.
  - pose proof (byte.unsigned_range b).
    destruct (decode_tail a (u b / 16) _ _ eq_refl eq_refl) as [En E]; [unfold u; lia|].
    rewrite <- mid_sextet in E, En.
    rewrite (decode_padded _ _ _ _ _ _ _ Hf Ht eq_refl E), En, low_tail.
    rewrite decide_False by (apply dec_enc; unfold u; lia).
    rewrite decode_tail2 by done. by rewrite <- app_assoc.
Qed.

(** C13. Encoding succeeds, gives four characters for every three bytes,
    and decoding the text gives the bytes back. *)
Theorem base64_roundtrip (data : list byte) :
  (zlen data < 2 ^ 62)%Z ->
  exists text, encode data = Ok text /\ decode text = Ok data /\
    length text = 4 * ((length data + 2) / 3).
Proof.
  intros Hl. exists (chars data). split_and!; [by apply encode_spec|apply decode_chars|apply length_chars].
Qed.

Lemma base64_roundtrip_witness :
  exists text, encode (str "hello") = Ok text /\ decode text = Ok (str "hello") /\ length text = 8.
Proof. apply (base64_roundtrip (str "hello")). vm_compute. done. Defined.

(** Every load of the decoding loop is inside the text. *)
Lemma decode_loop_total f p L : forall i j s,
  L <= length p -> i mod 4 = 0 -> L mod 4 = 0 -> L - i < 4 * f -> j + 3 * ((L - i) / 4) <= length s ->
  exists s', decode_loop f p L i j s = Ok s' /\ length s' = length s.
Proof.
  induction f as [|f IH]; intros i j s HL Hi Hm Hf Hs; [lia|]. cbn [decode_loop].
  case_decide as Hd; [|by eexists].
  assert (Hat : forall k, k < length p -> exists c, at_ p k = Ok c).
  { intros k Hk. unfold at_. destruct (lookup_lt_is_Some_2 p k Hk) as [c ->]. by eexists. }
  destruct (Hat i ltac:(lia)) as [a ->]. destruct (Hat (i + 1) ltac:(lia)) as [b ->].
  destruct (Hat (i + 2) ltac:(lia)) as [c ->]. destruct (Hat (i + 3) ltac:(lia)) as [d ->].
  unfold mbind, outcome_mbind. cbn [outcome_bind puts].
  rewrite !length_insert, !decide_True by lia. cbn [outcome_bind].
  edestruct (IH (i + 4) (j + 3)) as (s' & E & Hs'); [done|lia|done|lia| |].
  2:{ exists s'. split; [exact E|]. by rewrite Hs', !length_insert. }
  rewrite !length_insert. lia.
Qed.

(** The decoder is defined on every text except those whose length is one
    more than a multiple of four, where it reads past the end; characters
    outside the alphabet are accepted. *)
Theorem base64_decode_bounds (text : list byte) :
  match decode text with
  | Ok _ => length text mod 4 <> 1
  | Undef => length text mod 4 = 1
  | _ => False
  end.
Proof.
  unfold decode. set (t := _ && _). set (len := length text).
  assert (Hpad : t = true -> 0 < len). { intros [H _]%andb_true_iff. by apply bool_decide_eq_true in H. }
  assert (Hnopad : t = false -> len mod 4 = 0).
  { intros [H|H]%andb_false_iff.
    - apply bool_decide_eq_false in H. by replace len with 0 by lia.
    - apply orb_false_iff in H as [H _]. apply negb_false_iff in H. by apply Nat.eqb_eq in H. }
  set (pad := if t then 1 else 0). set (L := ((len + 3) / 4 - pad) * 4).
  assert (HL : L <= len /\ (t = true -> L < len)). { subst L pad. destruct t; lia. }
  destruct (decode_loop_total (S len) text L 0 0 (replicate (L / 4 * 3 + pad) "000"%byte))
    as (s & -> & Hs); [lia|done|subst L; lia|lia|rewrite length_replicate, Nat.sub_0_r; lia|].
  rewrite length_replicate in Hs. unfold mbind, outcome_mbind. cbn [outcome_bind].
  destruct t; subst pad; cbn [Nat.eqb]; [|rewrite Hnopad; done].
  unfold at_. destruct (lookup_lt_is_Some_2 text L) as [a ->]; [fold len; lia|]. cbn [outcome_bind].
  destruct (text !! (L + 1)) as [b|] eqn:Eb; cbn [outcome_bind].
  - apply lookup_lt_Some in Eb. fold len in Eb. cbn [puts]. rewrite decide_True by lia. cbn [outcome_bind].
    case_decide as Hd; [|lia]. destruct (lookup_lt_is_Some_2 text (L + 2)) as [c ->]; [fold len; lia|].
    cbn [outcome_bind]. case_decide; lia.
  - apply lookup_ge_None in Eb. fold len in Eb. lia.
Qed.
