(* ===== verification/MD5.v ===== *)
(** * MD5

    [utils/MD5.cc]: the digest context (chaining state, bit count, 64-byte
    buffer), its incremental update and finalisation, and the [MD5] object that
    caches the hexadecimal digest. *)
From Stdlib Require Import ZifyNat.
From S2P Require Import Prelude.
#[local] Ltac Zify.zify_post_hook ::= Z.to_euclidean_division_equations.

(** ** 32-bit words *)

Definition word (z : Z) : Z := wrapU 32 z.
Definition add (x y : Z) : Z := word (x + y).
Definition not (x : Z) : Z := word (Z.lnot x).

Definition F (x y z : Z) : Z := Z.lor (Z.land x y) (Z.land (not x) z).
Definition G (x y z : Z) : Z := Z.lor (Z.land x z) (Z.land y (not z)).
Definition H (x y z : Z) : Z := Z.lxor (Z.lxor x y) z.
Definition I (x y z : Z) : Z := Z.lxor y (Z.lor x (not z)).

Definition ROTATE_LEFT (x n : Z) : Z := Z.lor (word (Z.shiftl x n)) (Z.shiftr x (32 - n)).

(** Four 32-bit variables: the chaining state, and [a], [b], [c], [d] of
    [Transform]. *)
Record state4 : Type := mkState { st_a : Z; st_b : Z; st_c : Z; st_d : Z }.
#[export] Instance state4_eq_dec : EqDecision state4.
Proof. solve_decision. Defined.

Inductive var : Type := va | vb | vc | vd.

Definition get (r : var) (v : state4) : Z :=
  match r with va => st_a v | vb => st_b v | vc => st_c v | vd => st_d v end.

Definition set (r : var) (z : Z) (v : state4) : state4 :=
  match r with
  | va => mkState z (st_b v) (st_c v) (st_d v)
  | vb => mkState (st_a v) z (st_c v) (st_d v)
  | vc => mkState (st_a v) (st_b v) z (st_d v)
  | vd => mkState (st_a v) (st_b v) (st_c v) z
  end.

(** A statement of [Transform] reads the decoded block and updates a variable. *)
Definition stmt : Type := (nat -> Z) -> state4 -> state4.

Definition FF (a b c d : var) (k : nat) (s ac : Z) : stmt := fun x v =>
  set a (add (ROTATE_LEFT (add (get a v) (add (add (F (get b v) (get c v) (get d v)) (x k)) ac)) s) (get b v)) v.
Definition GG (a b c d : var) (k : nat) (s ac : Z) : stmt := fun x v =>
  set a (add (ROTATE_LEFT (add (get a v) (add (add (G (get b v) (get c v) (get d v)) (x k)) ac)) s) (get b v)) v.
Definition HH (a b c d : var) (k : nat) (s ac : Z) : stmt := fun x v =>
  set a (add (ROTATE_LEFT (add (get a v) (add (add (H (get b v) (get c v) (get d v)) (x k)) ac)) s) (get b v)) v.
Definition II (a b c d : var) (k : nat) (s ac : Z) : stmt := fun x v =>
  set a (add (ROTATE_LEFT (add (get a v) (add (add (I (get b v) (get c v) (get d v)) (x k)) ac)) s) (get b v)) v.

Definition S11 : Z := 7.
Definition S12 : Z := 12.
Definition S13 : Z := 17.
Definition S14 : Z := 22.
Definition S21 : Z := 5.
Definition S22 : Z := 9.
Definition S23 : Z := 14.
Definition S24 : Z := 20.
Definition S31 : Z := 4.
Definition S32 : Z := 11.
Definition S33 : Z := 16.
Definition S34 : Z := 23.
Definition S41 : Z := 6.
Definition S42 : Z := 10.
Definition S43 : Z := 15.
Definition S44 : Z := 21.

Definition PADDING : list byte := "128"%byte :: replicate 63 "000"%byte.

(** [Decode] of a block: little-endian words. *)
Definition Decode (block : list byte) (i : nat) : Z :=
  let input j := byte.unsigned (nth j block "000"%byte) in
  let j := (4 * i)%nat in
  Z.lor (Z.lor (Z.lor (input j) (Z.shiftl (input (j + 1)%nat) 8)) (Z.shiftl (input (j + 2)%nat) 16))
        (Z.shiftl (input (j + 3)%nat) 24).

(** [Encode] of words. *)
Definition Encode_word (w : Z) : list byte :=
  [byte.of_Z (Z.land w 0xff); byte.of_Z (Z.land (Z.shiftr w 8) 0xff);
   byte.of_Z (Z.land (Z.shiftr w 16) 0xff); byte.of_Z (Z.land (Z.shiftr w 24) 0xff)].
Definition Encode (ws : list Z) : list byte := ws ≫= Encode_word.

Definition rounds : list stmt :=
  [(* Round 1 *)
   FF va vb vc vd 0 S11 0xd76aa478;
   FF vd va vb vc 1 S12 0xe8c7b756;
   FF vc vd va vb 2 S13 0x242070db;
   FF vb vc vd va 3 S14 0xc1bdceee;
   FF va vb vc vd 4 S11 0xf57c0faf;
   FF vd va vb vc 5 S12 0x4787c62a;
   FF vc vd va vb 6 S13 0xa8304613;
   FF vb vc vd va 7 S14 0xfd469501;
   FF va vb vc vd 8 S11 0x698098d8;
   FF vd va vb vc 9 S12 0x8b44f7af;
   FF vc vd va vb 10 S13 0xffff5bb1;
   FF vb vc vd va 11 S14 0x895cd7be;
   FF va vb vc vd 12 S11 0x6b901122;
   FF vd va vb vc 13 S12 0xfd987193;
   FF vc vd va vb 14 S13 0xa679438e;
   FF vb vc vd va 15 S14 0x49b40821;
   (* Round 2 *)
   GG va vb vc vd 1 S21 0xf61e2562;
   GG vd va vb vc 6 S22 0xc040b340;
   GG vc vd va vb 11 S23 0x265e5a51;
   GG vb vc vd va 0 S24 0xe9b6c7aa;
   GG va vb vc vd 5 S21 0xd62f105d;
   GG vd va vb vc 10 S22 0x2441453;
   GG vc vd va vb 15 S23 0xd8a1e681;
   GG vb vc vd va 4 S24 0xe7d3fbc8;
   GG va vb vc vd 9 S21 0x21e1cde6;
   GG vd va vb vc 14 S22 0xc33707d6;
   GG vc vd va vb 3 S23 0xf4d50d87;
   GG vb vc vd va 8 S24 0x455a14ed;
   GG va vb vc vd 13 S21 0xa9e3e905;
   GG vd va vb vc 2 S22 0xfcefa3f8;
   GG vc vd va vb 7 S23 0x676f02d9;
   GG vb vc vd va 12 S24 0x8d2a4c8a;
   (* Round 3 *)
   HH va vb vc vd 5 S31 0xfffa3942;
   HH vd va vb vc 8 S32 0x8771f681;
   HH vc vd va vb 11 S33 0x6d9d6122;
   HH vb vc vd va 14 S34 0xfde5380c;
   HH va vb vc vd 1 S31 0xa4beea44;
   HH vd va vb vc 4 S32 0x4bdecfa9;
   HH vc vd va vb 7 S33 0xf6bb4b60;
   HH vb vc vd va 10 S34 0xbebfbc70;
   HH va vb vc vd 13 S31 0x289b7ec6;
   HH vd va vb vc 0 S32 0xeaa127fa;
   HH vc vd va vb 3 S33 0xd4ef3085;
   HH vb vc vd va 6 S34 0x4881d05;
   HH va vb vc vd 9 S31 0xd9d4d039;
   HH vd va vb vc 12 S32 0xe6db99e5;
   HH vc vd va vb 15 S33 0x1fa27cf8;
   HH vb vc vd va 2 S34 0xc4ac5665;
   (* Round 4 *)
   II va vb vc vd 0 S41 0xf4292244;
   II vd va vb vc 7 S42 0x432aff97;
   II vc vd va vb 14 S43 0xab9423a7;
   II vb vc vd va 5 S44 0xfc93a039;
   II va vb vc vd 12 S41 0x655b59c3;
   II vd va vb vc 3 S42 0x8f0ccc92;
   II vc vd va vb 10 S43 0xffeff47d;
   II vb vc vd va 1 S44 0x85845dd1;
   II va vb vc vd 8 S41 0x6fa87e4f;
   II vd va vb vc 15 S42 0xfe2ce6e0;
   II vc vd va vb 6 S43 0xa3014314;
   II vb vc vd va 13 S44 0x4e0811a1;
   II va vb vc vd 4 S41 0xf7537e82;
   II vd va vb vc 11 S42 0xbd3af235;
   II vc vd va vb 2 S43 0x2ad7d2bb;
   II vb vc vd va 9 S44 0xeb86d391].

Definition execute (x : nat -> Z) (l : list stmt) (v : state4) : state4 := fold_left (fun v s => s x v) l v.

Definition Transform (state : state4) (block : list byte) : state4 :=
  let x := Decode block in
  let v := execute x rounds state in
  mkState (add (st_a state) (st_a v)) (add (st_b state) (st_b v))
          (add (st_c state) (st_c v)) (add (st_d state) (st_d v)).

(** ** The context *)

Record MD5_CTX : Type := mkCtx { state : state4; count0 : Z; count1 : Z; buffer : list byte }.

Definition init_state : state4 := mkState 0x67452301 0xefcdab89 0x98badcfe 0x10325476.

(** The buffer keeps what it held. *)
Definition Init (context : MD5_CTX) : MD5_CTX := mkCtx init_state 0 0 (buffer context).

(** [for (i = partLen; i + 63 < inputLen; i += 64)]: [i] is an [unsigned int]. *)
Fixpoint Update_loop (fuel : nat) (input : list byte) (inputLen i : Z) (st : state4) : outcome (Z * state4) :=
  match fuel with
  | O => NoFuel
  | S f =>
      if word (i + 63) <? inputLen then
        block ← memory input (Z.to_nat i) 64;
        Update_loop f input inputLen (word (i + 64)) (Transform st block)
      else Ok (i, st)
  end.

(** [input] is the memory at the pointer, [inputLen] the length argument. *)
Definition Update (context : MD5_CTX) (input : list byte) (inputLen : Z) : outcome MD5_CTX :=
  let index := Z.land (Z.shiftr (count0 context) 3) 0x3f in
  let bits := word (Z.shiftl inputLen 3) in
  let c0 := word (count0 context + bits) in
  let c1 := if c0 <? bits then word (count1 context + 1) else count1 context in
  let c1 := word (c1 + Z.shiftr inputLen 29) in
  let partLen := 64 - index in
  '(index, i, st, b) ←
    (if partLen <=? inputLen then
       bytes ← memory input 0 (Z.to_nat partLen);
       b ← memcpy (buffer context) (Z.to_nat index) bytes;
       '(i, st) ← Update_loop (S (Z.to_nat inputLen)) input inputLen partLen (Transform (state context) b);
       Ok (0, i, st, b)
     else Ok (index, 0, state context, buffer context));
  rest ← memory input (Z.to_nat i) (Z.to_nat (word (inputLen - i)));
  b ← memcpy b (Z.to_nat index) rest;
  Ok (mkCtx st c0 c1 b).

Definition words (st : state4) : list Z := [st_a st; st_b st; st_c st; st_d st].

(** The digest, and the zeroised context. *)
Definition Final (context : MD5_CTX) : outcome (list byte * MD5_CTX) :=
  let bits := Encode [count0 context; count1 context] in
  let index := Z.land (Z.shiftr (count0 context) 3) 0x3f in
  let padLen := if index <? 56 then 56 - index else 120 - index in
  context ← Update context PADDING padLen;
  context ← Update context bits 8;
  Ok (Encode (words (state context)), mkCtx (mkState 0 0 0 0) 0 0 (replicate 64 "000"%byte)).

Definition hex : list byte := str "0123456789abcdef".

Definition toString (digest : list byte) : list byte :=
  digest ≫= fun c =>
    [nth (Z.to_nat (Z.shiftr (Z.land (byte.unsigned c) 0xf0) 4)) hex "000"%byte;
     nth (Z.to_nat (Z.land (byte.unsigned c) 0xf)) hex "000"%byte].

(** ** The object *)

Record MD5 : Type := mkMD5 { digest_ : list byte; s_ : MD5_CTX }.

(** A context on uninitialised memory. *)
Definition raw_ctx (junk : nat -> byte) : MD5_CTX := mkCtx (mkState 0 0 0 0) 0 0 (junk <$> seq 0 64).

Definition MD5_new (junk : nat -> byte) : MD5 := mkMD5 [] (Init (raw_ctx junk)).

Definition reset : M MD5 unit := modifyM (fun o => mkMD5 (digest_ o) (Init (s_ o))).

Definition compute (junk : nat -> byte) (buffer : list byte) (size : Z) : outcome (list byte) :=
  s ← Update (Init (raw_ctx junk)) buffer (word size);
  '(digest, _) ← Final s;
  Ok (toString digest).

Definition update (buffer : list byte) (length : Z) : M MD5 unit :=
  if 2 ^ 32 - 1 <? length then throwM BadParameter
  else if 0 <? length then
    o ← getM;
    s ← liftM (Update (s_ o) buffer length);
    putM (mkMD5 [] s)  (* the cached digest is dropped *)
  else mret tt.

Definition digest : M MD5 (list byte) :=
  o ← getM;
  match digest_ o with
  | [] =>
      '(d, s) ← liftM (Final (s_ o));
      putM (mkMD5 (toString d) s) ;;
      mret (toString d)
  | d => mret d
  end.

Definition numericalDigest : M MD5 (list byte) :=
  o ← getM;
  '(d, s) ← liftM (Final (s_ o));
  putM (mkMD5 (digest_ o) s) ;;
  mret d.

(** [add(const std::string&)] *)
Definition add_string (x : list byte) : M MD5 unit := update x (zlen x).

Fixpoint add_all (xs : list (list byte)) : M MD5 unit :=
  match xs with [] => mret tt | x :: xs => add_string x ;; add_all xs end.

(** ** Reference definition

    RFC 1321: the padded message is cut in blocks of 64 bytes; each block is
    mixed into the state by 64 steps given by tables. *)

(** The integer part of [2^32 * abs(sin(i + 1))]. *)
Definition sines : list Z :=
  [0xd76aa478; 0xe8c7b756; 0x242070db; 0xc1bdceee; 0xf57c0faf; 0x4787c62a; 0xa8304613; 0xfd469501;
   0x698098d8; 0x8b44f7af; 0xffff5bb1; 0x895cd7be; 0x6b901122; 0xfd987193; 0xa679438e; 0x49b40821;
   0xf61e2562; 0xc040b340; 0x265e5a51; 0xe9b6c7aa; 0xd62f105d; 0x2441453; 0xd8a1e681; 0xe7d3fbc8;
   0x21e1cde6; 0xc33707d6; 0xf4d50d87; 0x455a14ed; 0xa9e3e905; 0xfcefa3f8; 0x676f02d9; 0x8d2a4c8a;
   0xfffa3942; 0x8771f681; 0x6d9d6122; 0xfde5380c; 0xa4beea44; 0x4bdecfa9; 0xf6bb4b60; 0xbebfbc70;
   0x289b7ec6; 0xeaa127fa; 0xd4ef3085; 0x4881d05; 0xd9d4d039; 0xe6db99e5; 0x1fa27cf8; 0xc4ac5665;
   0xf4292244; 0x432aff97; 0xab9423a7; 0xfc93a039; 0x655b59c3; 0x8f0ccc92; 0xffeff47d; 0x85845dd1;
   0x6fa87e4f; 0xfe2ce6e0; 0xa3014314; 0x4e0811a1; 0xf7537e82; 0xbd3af235; 0x2ad7d2bb; 0xeb86d391].

Definition shifts : list (list Z) := [[7; 12; 17; 22]; [5; 9; 14; 20]; [4; 11; 16; 23]; [6; 10; 15; 21]].

Definition rfc_shift (i : nat) : Z := nth (i mod 4) (nth (i / 16) shifts []) 0.

Definition rfc_word (i : nat) : nat :=
  match (i / 16)%nat with
  | 0 => i
  | 1 => (5 * i + 1) mod 16
  | 2 => (3 * i + 5) mod 16
  | _ => (7 * i) mod 16
  end%nat.

Definition rfc_function (i : nat) : Z -> Z -> Z -> Z :=
  match (i / 16)%nat with 0%nat => F | 1%nat => G | 2%nat => H | _ => I end.

Definition rfc_step (x : nat -> Z) (i : nat) (v : Z * Z * Z * Z) : Z * Z * Z * Z :=
  let '(a, b, c, d) := v in
  (d, add (ROTATE_LEFT (add a (add (add (rfc_function i b c d) (x (rfc_word i))) (nth i sines 0))) (rfc_shift i)) b, b, c).

Fixpoint rfc_steps (n i : nat) (x : nat -> Z) (v : Z * Z * Z * Z) : Z * Z * Z * Z :=
  match n with O => v | S n => rfc_steps n (S i) x (rfc_step x i v) end.

Definition rfc_block (st : state4) (block : list byte) : state4 :=
  let x i := le_combine (take 4 (drop (4 * i) block)) in
  let '(a, b, c, d) := rfc_steps 64 0 x (st_a st, st_b st, st_c st, st_d st) in
  mkState (add (st_a st) a) (add (st_b st) b) (add (st_c st) c) (add (st_d st) d).

(** A byte 128, zeros up to 8 bytes before a multiple of 64, and the length in
    bits modulo [2^64], low byte first. *)
Definition rfc_pad (m : list byte) : list byte :=
  m ++ "128"%byte :: replicate (Z.to_nat ((55 - zlen m) mod 64)) "000"%byte ++ le_split 8 (8 * zlen m).

Fixpoint rfc_blocks (n : nat) (st : state4) (m : list byte) : state4 :=
  match n with O => st | S n => rfc_blocks n (rfc_block st (take 64 m)) (drop 64 m) end.

Definition rfc_md5 (m : list byte) : list byte :=
  let st := rfc_blocks (length (rfc_pad m) / 64) init_state (rfc_pad m) in
  words st ≫= le_split 4.

Example rfc_abc : toString (rfc_md5 (str "abc")) = str "900150983cd24fb0d6963f7d28e17f72".
Proof. vm_compute. reflexivity. Qed.
Example code_abc : compute (fun _ => "000"%byte) (str "abc") 3 = Ok (str "900150983cd24fb0d6963f7d28e17f72").
Proof. vm_compute. reflexivity. Qed.

(** ** The unrolled rounds are the table of the RFC *)

Lemma rfc_steps_S n i x a b c d :
  rfc_steps (S n) i x (a, b, c, d) =
  rfc_steps n (S i) x (d, add (ROTATE_LEFT (add a (add (add (rfc_function i b c d) (x (rfc_word i)))
                            (nth i sines 0))) (rfc_shift i)) b, b, c).
Proof. done. Qed.

Lemma execute_cons x s l v : execute x (s :: l) v = execute x l (s x v).
Proof. done. Qed.

(** One step on both sides: the new value is the same, and is abstracted. *)
#[local] Ltac md5_step :=
  rewrite execute_cons, rfc_steps_S;
  match goal with
  | |- execute ?x ?l (?s ?x ?v) = match rfc_steps _ _ ?x (_, ?T, _, _) with _ => _ end =>
      let v' := eval cbv [FF GG HH II set get st_a st_b st_c st_d S11 S12 S13 S14 S21 S22 S23 S24
                          S31 S32 S33 S34 S41 S42 S43 S44] in (s x v) in
      let T' := eval cbv [rfc_function rfc_word rfc_shift sines shifts nth Nat.div Nat.divmod
                          Nat.modulo fst snd Nat.mul Nat.add Nat.sub] in T in
      change (s x v) with v'; change T with T'; generalize T'; intros ?
  end.

Lemma execute_rounds x p q r s :
  execute x rounds (mkState p q r s) =
    let '(p, q, r, s) := rfc_steps 64 0 x (p, q, r, s) in mkState p q r s.
Proof. unfold rounds. do 64 md5_step. reflexivity. Qed.

Lemma Decode_word (blk : list byte) i :
  (4 * i + 4 <= length blk)%nat -> Decode blk i = le_combine (take 4 (drop (4 * i) blk)).
Proof.
  intros Hi. rewrite <- (List.map_seq_nth_slice_le blk "000"%byte) by done.
  unfold Decode. cbn [seq map]. cbv [le_combine]. rewrite Z.shiftl_0_l, Z.lor_0_r, !Z.shiftl_lor, !Z.shiftl_shiftl by lia.
  rewrite !Z.lor_assoc. simpl. repeat f_equal; lia.
Qed.

Lemma rfc_steps_ext x y n : forall i v,
  (forall j, (j < 16)%nat -> x j = y j) -> (i + n <= 64)%nat -> rfc_steps n i x v = rfc_steps n i y v.
Proof.
  induction n as [|n IH]; intros i v Hxy Hi; [done|]. cbn [rfc_steps]. rewrite IH by (done || lia).
  f_equal. destruct v as [[[p q] r] s]. unfold rfc_step. rewrite Hxy; [done|].
  unfold rfc_word. destruct (i / 16)%nat as [|[|[|?]]] eqn:E; lia.
Qed.

Lemma Transform_rfc st blk : length blk = 64%nat -> Transform st blk = rfc_block st blk.
Proof.
  intros Hl. unfold Transform, rfc_block. destruct st as [p q r s]. rewrite execute_rounds. cbn [st_a st_b st_c st_d].
  rewrite (rfc_steps_ext _ (fun i => le_combine (take 4 (drop (4 * i) blk)))) by (done || (intros; apply Decode_word; lia)).
  by destruct (rfc_steps 64 0 _ _) as [[[? ?] ?] ?].
Qed.

(** ** Bytes of words *)

Lemma of_Z_congr x y : x mod 256 = y mod 256 -> byte.of_Z x = byte.of_Z y.
Proof.
  intros E. rewrite <- (byte.of_Z_unsigned (byte.of_Z x)), <- (byte.of_Z_unsigned (byte.of_Z y)).
  rewrite !byte.unsigned_of_Z. unfold byte.wrap. change (2 ^ 8) with 256. by rewrite E.
Qed.

Lemma of_Z_land_ff x : byte.of_Z (Z.land x 0xff) = byte.of_Z x.
Proof. apply of_Z_congr. change 0xff with (Z.ones 8). rewrite Z.land_ones by lia. by rewrite Z.mod_mod. Qed.

Lemma Encode_word_split w : Encode_word w = le_split 4 w.
Proof. unfold Encode_word. rewrite !of_Z_land_ff. cbv [le_split]. by rewrite !Z.shiftr_shiftr by lia. Qed.

Lemma Encode_words ws : Encode ws = ws ≫= le_split 4.
Proof. unfold Encode. apply list_bind_ext; [|done]. intros. apply Encode_word_split. Qed.

(** The two halves of the bit count, as the 8 bytes of the 64-bit count. *)
Lemma Encode_count c0 c1 n :
  0 <= c0 < 2 ^ 32 -> c1 * 2 ^ 32 + c0 = n mod 2 ^ 64 -> Encode [c0; c1] = le_split 8 n.
Proof.
  intros H0 Hn. rewrite Encode_words. cbn [mbind list_bind]. rewrite app_nil_r.
  rewrite (le_split_mod n). change (2 ^ (Z.of_nat 8 * 8)) with (2 ^ 64). rewrite <- Hn.
  cbv [le_split]. rewrite !Z.shiftr_shiftr by lia. simpl Z.add. rewrite !Z.shiftr_div_pow2 by lia.
  cbv [app]. clear Hn. repeat (apply (f_equal2 cons); [apply of_Z_congr; lia|]). done.
Qed.

Lemma absorb_app n k : forall st m, rfc_blocks (n + k) st m = rfc_blocks k (rfc_blocks n st m) (drop (64 * n) m).
Proof.
  induction n as [|n IH]; intros st m; [by rewrite drop_0|]. cbn [rfc_blocks Nat.add]. rewrite IH, drop_drop.
  do 2 f_equal. lia.
Qed.

Lemma absorb_prefix n : forall st m m', (64 * n <= length m)%nat -> rfc_blocks n st (m ++ m') = rfc_blocks n st m.
Proof.
  induction n as [|n IH]; intros st m m' Hn; [done|]. cbn [rfc_blocks].
  rewrite take_app_le, drop_app_le by lia. apply IH. rewrite length_drop. lia.
Qed.

(** ** The context represents the bytes it was given *)

Record represents (ctx : MD5_CTX) (m : list byte) : Prop := {
  rep_count0 : 0 <= count0 ctx < 2 ^ 32;
  rep_count : count1 ctx * 2 ^ 32 + count0 ctx = (8 * zlen m) mod 2 ^ 64;
  rep_state : state ctx = rfc_blocks (length m / 64) init_state m;
  rep_buffer : length (buffer ctx) = 64%nat;
  rep_rest : take (length m mod 64) (buffer ctx) = drop (64 * (length m / 64)) m }.

Lemma word_small z : 0 <= z < 2 ^ 32 -> word z = z.
Proof. apply Z.mod_small. Qed.

Lemma Update_loop_ok input len k : forall f i st,
  len < 2 ^ 32 - 64 -> len <= zlen input -> 0 <= i <= len -> Z.of_nat k = (len - i) / 64 -> (k < f)%nat ->
  Update_loop f input len i st = Ok (i + 64 * Z.of_nat k, rfc_blocks k st (drop (Z.to_nat i) input)).
Proof.
  unfold zlen. induction k as [|k IH]; intros f i st Hlen Hin Hi Hk Hf; (destruct f as [|f]; [lia|]);
    cbn [Update_loop]; rewrite word_small by lia.
  - destruct (Z.ltb_spec (i + 63) len); [lia|]. by rewrite Z.mul_0_r, Z.add_0_r.
  - destruct (Z.ltb_spec (i + 63) len); [|lia]. rewrite memory_ok by lia.
    unfold mbind, outcome_mbind. cbn [outcome_bind]. rewrite word_small, IH by lia. f_equal. f_equal; [lia|].
    cbn [rfc_blocks]. rewrite Transform_rfc by (rewrite length_take, length_drop; lia).
    rewrite drop_drop. do 2 f_equal. lia.
Qed.

Lemma index_ok ctx m : represents ctx m -> Z.land (Z.shiftr (count0 ctx) 3) 0x3f = zlen m mod 64.
Proof.
  intros [H0 H1 _ _ _]. change 0x3f with (Z.ones 6). rewrite Z.land_ones, Z.shiftr_div_pow2 by lia. lia.
Qed.

(** The bit count is a 64-bit number in two halves. *)
Lemma count_ok c0 c1 n m :
  0 <= c0 < 2 ^ 32 -> c1 * 2 ^ 32 + c0 = (8 * m) mod 2 ^ 64 -> 0 <= n < 2 ^ 32 ->
  let bits := word (Z.shiftl n 3) in
  let c0' := word (c0 + bits) in
  let c1' := if c0' <? bits then word (c1 + 1) else c1 in
  0 <= c0' < 2 ^ 32 /\ word (c1' + Z.shiftr n 29) * 2 ^ 32 + c0' = (8 * (m + n)) mod 2 ^ 64.
Proof.
  intros H0 H1 Hn. cbv zeta. rewrite Z.shiftr_div_pow2, Z.shiftl_mul_pow2 by lia. unfold word, wrapU.
  destruct (Z.ltb_spec ((c0 + n * 2 ^ 3 mod 2 ^ 32) mod 2 ^ 32) (n * 2 ^ 3 mod 2 ^ 32)); lia.
Qed.

(** Completing the buffered bytes to a block. *)
Lemma fill_block (m data b : list byte) st :
  let q := (length m / 64)%nat in let r := (length m mod 64)%nat in
  length b = 64%nat -> take r b = drop (64 * q) m -> (64 - r <= length data)%nat ->
  st = rfc_blocks q init_state m ->
  let b1 := memcpy_at b r (take (64 - r) data) in
  length b1 = 64%nat /\ Transform st b1 = rfc_blocks (q + 1) init_state (m ++ data).
Proof.
  intros q r Hb Hr Hd -> b1. assert (Hm : length m = (64 * q + r)%nat) by lia.
  assert (r < 64)%nat by lia.
  assert (E : b1 = take 64 (drop (64 * q) (m ++ data))).
  { unfold b1, memcpy_at. rewrite Hr, (drop_ge b), app_nil_r by (rewrite length_take; lia).
    rewrite drop_app_le, take_app by lia. rewrite length_drop. f_equal.
    - symmetry. apply take_ge. rewrite length_drop. lia.
    - f_equal. lia. }
  split. { unfold b1. rewrite length_memcpy_at; [done|]. rewrite length_take. lia. }
  rewrite absorb_app. cbn [rfc_blocks]. rewrite absorb_prefix, <- E by lia. apply Transform_rfc.
  rewrite E, length_take, length_drop, length_app. lia.
Qed.

(** The remaining full blocks. *)
Lemma more_blocks (m data : list byte) k :
  let q := (length m / 64)%nat in let r := (length m mod 64)%nat in
  k = ((length data - (64 - r)) / 64)%nat -> (64 - r <= length data)%nat ->
  rfc_blocks k (rfc_blocks (q + 1) init_state (m ++ data)) (drop (64 - r) data) =
    rfc_blocks (length (m ++ data) / 64) init_state (m ++ data) /\
  (length (m ++ data) mod 64 = length data - (64 - r) - 64 * k)%nat /\
  drop (64 * (length (m ++ data) / 64)) (m ++ data) = drop (64 - r + 64 * k) data.
Proof.
  intros q r Hk Hd. assert (Hm : length m = (64 * q + r)%nat) by lia. assert (r < 64)%nat by lia.
  assert (E : (length (m ++ data) / 64 = q + 1 + k)%nat) by (rewrite length_app; lia).
  rewrite E. split_and!.
  - rewrite (absorb_app (q + 1) k). f_equal. rewrite drop_app_ge by lia. f_equal. lia.
  - rewrite length_app. lia.
  - rewrite drop_app_ge by lia. f_equal. lia.
Qed.

Lemma Update_full ctx m input data n :
  represents ctx m -> n = length data -> data = take n input -> (n <= length input)%nat ->
  Z.of_nat n < 2 ^ 32 - 64 -> (64 - length m mod 64 <= n)%nat ->
  exists ctx', Update ctx input (Z.of_nat n) = Ok ctx' /\ represents ctx' (m ++ data).
Proof.
  intros Hrep Hn Hdata Hin Hbig Hfull. pose proof (index_ok _ _ Hrep) as Hidx. unfold Update. rewrite Hidx.
  destruct Hrep as [H0 H1 Hst Hb Hr].
  destruct (count_ok (count0 ctx) (count1 ctx) (Z.of_nat n) (zlen m) H0 H1 ltac:(lia)) as [Hc0 Hc1].
  set (r := (length m mod 64)%nat) in *. set (q := (length m / 64)%nat) in *.
  assert (Ez : zlen m mod 64 = Z.of_nat r) by (unfold zlen; lia). rewrite Ez.
  assert (Hr64 : (r < 64)%nat) by lia.
  destruct (fill_block m data (buffer ctx) (state ctx) Hb Hr ltac:(lia) Hst) as [Hl1 Hs1].
  fold r q in Hl1, Hs1. set (b1 := memcpy_at (buffer ctx) r (take (64 - r) data)) in *. set (k := ((n - (64 - r)) / 64)%nat).
  destruct (more_blocks m data k ltac:(lia) ltac:(lia)) as (Hs2 & Hm2 & Hd2). fold r q in Hs2, Hm2, Hd2.
  assert (Hk : (64 - r + 64 * k <= n)%nat) by lia. assert (HkZ : Z.of_nat k = (Z.of_nat n - (64 - Z.of_nat r)) / 64) by lia.
  assert (Hmm : (length (m ++ data) mod 64 < 64)%nat) by lia. rewrite <- Hn in Hm2. clearbody k r q.
  destruct (Z.leb_spec (64 - Z.of_nat r) (Z.of_nat n)); [|lia].
  replace (Z.to_nat (64 - Z.of_nat r)) with (64 - r)%nat by lia.
  rewrite Nat2Z.id, memory_ok, drop_0 by lia. unfold mbind, outcome_mbind. cbn [outcome_bind].
  assert (Et : take (64 - r) input = take (64 - r) data).
  { rewrite Hdata, take_take. f_equal. lia. }
  rewrite Et, memcpy_ok by (rewrite Hb, length_take; lia). cbn [outcome_bind]. rewrite Nat2Z.id. fold b1.
  rewrite (Update_loop_ok input (Z.of_nat n) k) by (unfold zlen; lia). cbn [outcome_bind].
  replace (64 - Z.of_nat r + 64 * Z.of_nat k) with (Z.of_nat (64 - r + 64 * k)) by lia.
  rewrite (word_small (Z.of_nat n - Z.of_nat _)) by lia. rewrite memory_ok by lia. cbn [outcome_bind].
  assert (Erest : take (Z.to_nat (Z.of_nat n - Z.of_nat (64 - r + 64 * k)))
                    (drop (Z.to_nat (Z.of_nat (64 - r + 64 * k))) input) = drop (64 - r + 64 * k) data).
  { rewrite Nat2Z.id, Hdata, skipn_firstn_comm. f_equal. lia. }
  rewrite Erest. set (rest := drop (64 - r + 64 * k) data) in *.
  assert (Hrest : length rest = (length (m ++ data) mod 64)%nat) by (unfold rest; rewrite length_drop; lia).
  rewrite memcpy_ok by lia. eexists. split; [done|].
  split; cbn [count0 count1 state buffer].
  - exact Hc0.
  - rewrite zlen_app. replace (zlen data) with (Z.of_nat n) by (unfold zlen; lia). exact Hc1.
  - rewrite <- Hs2, <- Hs1. replace (Z.to_nat (64 - Z.of_nat r)) with (64 - r)%nat by lia.
    rewrite <- (take_drop n input) at 1. rewrite <- Hdata, drop_app_le by lia.
    apply absorb_prefix. rewrite length_drop. lia.
  - rewrite length_memcpy_at; [done|]. rewrite Hl1, Hrest. lia.
  - rewrite Hd2, <- Hrest. pose proof (take_memcpy_at b1 0 rest ltac:(lia)) as E. exact E.
Qed.

Lemma Update_partial ctx m input data n :
  represents ctx m -> n = length data -> data = take n input -> (n <= length input)%nat ->
  (n < 64 - length m mod 64)%nat ->
  exists ctx', Update ctx input (Z.of_nat n) = Ok ctx' /\ represents ctx' (m ++ data).
Proof.
  intros Hrep Hn Hdata Hin Hpart. pose proof (index_ok _ _ Hrep) as Hidx. unfold Update. rewrite Hidx.
  destruct Hrep as [H0 H1 Hst Hb Hr].
  destruct (count_ok (count0 ctx) (count1 ctx) (Z.of_nat n) (zlen m) H0 H1 ltac:(lia)) as [Hc0 Hc1].
  assert (Ez : zlen m mod 64 = Z.of_nat (length m mod 64)) by (unfold zlen; lia). rewrite Ez.
  assert (Ed : (length (m ++ data) / 64 = length m / 64)%nat) by (rewrite length_app; lia).
  assert (Em : (length (m ++ data) mod 64 = length m mod 64 + length data)%nat) by (rewrite length_app; lia).
  destruct (Z.leb_spec (64 - Z.of_nat (length m mod 64)) (Z.of_nat n)); [lia|].
  unfold mbind, outcome_mbind. cbn [outcome_bind]. rewrite Z.sub_0_r, (word_small (Z.of_nat n)) by lia. rewrite memory_ok by lia.
  cbn [outcome_bind]. rewrite !Nat2Z.id, drop_0, <- Hdata, memcpy_ok by lia.
  eexists. split; [done|]. split; cbn [count0 count1 state buffer].
  - exact Hc0.
  - rewrite zlen_app. replace (zlen data) with (Z.of_nat n) by (unfold zlen; lia). exact Hc1.
  - rewrite Hst, Ed, absorb_prefix by lia. done.
  - by rewrite length_memcpy_at by lia.
  - rewrite Ed, Em, take_memcpy_at, Hr, drop_app_le by lia. done.
Qed.

Lemma Update_ok ctx m input n :
  represents ctx m -> (n <= length input)%nat -> Z.of_nat n < 2 ^ 32 - 64 ->
  exists ctx', Update ctx input (Z.of_nat n) = Ok ctx' /\ represents ctx' (m ++ take n input).
Proof.
  intros Hrep Hn Hbig. assert (n = length (take n input)) by (rewrite length_take; lia).
  destruct (decide (64 - length m mod 64 <= n)%nat); [by apply Update_full|apply Update_partial; (done || lia)].
Qed.

Definition zero_ctx : MD5_CTX := mkCtx (mkState 0 0 0 0) 0 0 (replicate 64 "000"%byte).

(** The padding of [Final] is the padding of the RFC. *)
Lemma padding_ok (m : list byte) padLen :
  padLen = (if zlen m mod 64 <? 56 then 56 - zlen m mod 64 else 120 - zlen m mod 64) ->
  0 <= padLen <= 64 /\
  (m ++ take (Z.to_nat padLen) PADDING) ++ take 8 (le_split 8 (8 * zlen m)) = rfc_pad m.
Proof.
  intros Hp. assert (Hr : 0 < padLen <= 64 /\ padLen - 1 = (55 - zlen m) mod 64).
  { subst padLen. destruct (Z.ltb_spec (zlen m mod 64) 56); lia. }
  destruct Hr as [Hr Er]. split; [lia|]. unfold rfc_pad, PADDING. rewrite <- Er.
  replace (Z.to_nat padLen) with (S (Z.to_nat (padLen - 1))) by lia. cbn [take firstn].
  rewrite <- app_assoc. do 2 f_equal. cbn [app]. f_equal. rewrite take_replicate.
  rewrite (take_ge (le_split _ _)) by (by rewrite length_le_split). do 2 f_equal. lia.
Qed.

Lemma Final_ok ctx m : represents ctx m -> Final ctx = Ok (rfc_md5 m, zero_ctx).
Proof.
  intros Hrep. unfold Final. rewrite (index_ok _ _ Hrep).
  rewrite (Encode_count _ _ (8 * zlen m)) by apply Hrep.
  destruct (padding_ok m _ eq_refl) as [Hp Epad]. set (padLen := if _ <? 56 then _ else _) in *.
  destruct (Update_ok ctx m PADDING (Z.to_nat padLen) Hrep) as (c1 & E1 & H1);
    [change (length PADDING) with 64%nat; lia|lia|].
  rewrite Z2Nat.id in E1 by lia. unfold mbind, outcome_mbind. rewrite E1. cbn [outcome_bind].
  destruct (Update_ok c1 _ (le_split 8 (8 * zlen m)) 8 H1) as (c2 & E2 & H2); [by rewrite length_le_split|lia|].
  change (Z.of_nat 8) with 8 in E2. rewrite E2. cbn [outcome_bind]. rewrite Epad in H2.
  f_equal. f_equal. rewrite Encode_words. unfold rfc_md5. by rewrite (rep_state _ _ H2).
Qed.

Lemma Init_represents ctx : length (buffer ctx) = 64%nat -> represents (Init ctx) [].
Proof. intros Hb. by split. Qed.

Lemma length_raw junk : length (buffer (raw_ctx junk)) = 64%nat.
Proof. done. Qed.

(** Chunks short enough for the [unsigned int] arithmetic of [Update]. *)
Definition chunk_ok (x : list byte) : Prop := zlen x < 2 ^ 32 - 64.

Lemma add_string_ok x o m :
  represents (s_ o) m -> digest_ o = [] -> chunk_ok x ->
  exists o', add_string x o = (Ok tt, o') /\ represents (s_ o') (m ++ x) /\ digest_ o' = [].
Proof.
  intros Hrep Hd Hx. unfold add_string, update, chunk_ok, zlen in *.
  destruct (Z.ltb_spec (2 ^ 32 - 1) (Z.of_nat (length x))); [lia|].
  destruct (Z.ltb_spec 0 (Z.of_nat (length x))).
  - destruct (Update_ok (s_ o) m x (length x) Hrep) as (c & E & Hc); [lia|done|].
    rewrite firstn_all in Hc. rewrite (M_bind_Ok _ _ _ o o) by done.
    rewrite (M_bind_Ok (liftM _) _ _ c o) by (unfold liftM; by rewrite E). by eexists.
  - destruct x; [|simpl in *; lia]. exists o. by rewrite app_nil_r.
Qed.

Lemma add_all_ok xs : forall o m,
  represents (s_ o) m -> digest_ o = [] -> Forall chunk_ok xs ->
  exists o', add_all xs o = (Ok tt, o') /\ represents (s_ o') (m ++ concat xs) /\ digest_ o' = [].
Proof.
  induction xs as [|x xs IH]; intros o m Hrep Hd Hxs; [exists o; by rewrite app_nil_r|].
  inversion Hxs as [|?? Hx Hxs']; subst. destruct (add_string_ok x o m Hrep Hd Hx) as (o1 & E1 & H1 & Hd1).
  destruct (IH o1 _ H1 Hd1 Hxs') as (o2 & E2 & H2 & Hd2). exists o2.
  cbn [add_all concat]. rewrite (M_bind_Ok _ _ _ _ _ E1). by rewrite app_assoc.
Qed.

Lemma toString_nonempty m : toString (rfc_md5 m) <> [].
Proof.
  intros E%(f_equal length). revert E. unfold rfc_md5, words. cbn [mbind list_bind]. rewrite app_nil_r.
  cbv [le_split]. done.
Qed.

Lemma digest_ok o m :
  represents (s_ o) m -> digest_ o = [] ->
  digest o = (Ok (toString (rfc_md5 m)), mkMD5 (toString (rfc_md5 m)) zero_ctx).
Proof.
  intros Hrep Hd. unfold digest. rewrite (M_bind_Ok _ _ _ o o) by done. rewrite Hd.
  rewrite (M_bind_Ok (liftM _) _ _ _ _ (f_equal2 pair (Final_ok _ _ Hrep) eq_refl)). done.
Qed.

Lemma digest_cached o d : digest_ o = d -> d <> [] -> digest o = (Ok d, o).
Proof. intros <- Hne. unfold digest. rewrite (M_bind_Ok _ _ _ o o) by done. by destruct (digest_ o). Qed.

Lemma new_md5_represents junk : represents (s_ (MD5_new junk)) [].
Proof. apply Init_represents, length_raw. Qed.

(** C4. Incremental hashing is the MD5 of RFC 1321: however the data is cut in
    chunks (each short of 4 GiB), the digest is that of their concatenation,
    independent of the initial content of the buffer, and asking for it again
    returns the same. *)
Theorem md5_incremental (junk : nat -> byte) (chunks : list (list byte)) :
  Forall chunk_ok chunks ->
  exists o, (add_all chunks ;; digest) (MD5_new junk) = (Ok (toString (rfc_md5 (concat chunks))), o) /\
    digest o = (Ok (toString (rfc_md5 (concat chunks))), o).
Proof.
  intros Hc. destruct (add_all_ok chunks _ [] (new_md5_represents junk) eq_refl Hc) as (o & E & Hr & Hd).
  eexists. rewrite (M_bind_Ok _ _ _ _ _ E), (digest_ok _ _ Hr Hd). split; [done|].
  apply digest_cached; [done|apply toString_nonempty].
Qed.

Lemma md5_incremental_witness :
  exists o, (add_all [str "message "; []; str "digest"] ;; digest) (MD5_new (fun _ => "255"%byte)) =
      (Ok (str "f96b697d7cb7938d525a2f31aaf161d0"), o) /\
    digest o = (Ok (str "f96b697d7cb7938d525a2f31aaf161d0"), o).
Proof.
  apply (md5_incremental (fun _ => "255"%byte) [str "message "; []; str "digest"]).
  repeat constructor; vm_compute; done.
Defined.

(** A digest taken from an object stays: after [reset] the object still
    returns it although no data was added, and data added after it is hashed from
    the zeroised context, so the next digest is not that of the data. *)
Theorem md5_reuse_after_digest (junk : nat -> byte) (chunks : list (list byte)) :
  Forall chunk_ok chunks ->
  (exists o, (add_all chunks ;; digest ;; reset ;; digest) (MD5_new junk) =
     (Ok (toString (rfc_md5 (concat chunks))), o)) /\
  (exists d o, (add_string (str "a") ;; digest ;; add_string (str "b") ;; digest) (MD5_new (fun _ => "000"%byte)) =
     (Ok d, o) /\ d <> toString (rfc_md5 (str "ab")) /\ d <> toString (rfc_md5 (str "b"))).
Proof.
  intros Hc. destruct (add_all_ok chunks _ [] (new_md5_represents junk) eq_refl Hc) as (o & E & Hr & Hd). split.
  - eexists. rewrite (M_bind_Ok _ _ _ _ _ E), (M_bind_Ok _ _ _ _ _ (digest_ok _ _ Hr Hd)).
    rewrite (M_bind_Ok reset _ _ _ _ eq_refl). apply digest_cached; [done|apply toString_nonempty].
  - eexists _, _. split; [vm_compute; reflexivity|]. split; vm_compute; discriminate.
Qed.

Lemma md5_reuse_after_digest_witness :
  (exists o, (add_all [str "abc"] ;; digest ;; reset ;; digest) (MD5_new (fun _ => "000"%byte)) =
     (Ok (str "900150983cd24fb0d6963f7d28e17f72"), o)) /\
  toString (rfc_md5 []) = str "d41d8cd98f00b204e9800998ecf8427e".
Proof.
  split; [|vm_compute; reflexivity].
  apply (md5_reuse_after_digest (fun _ => "000"%byte) [str "abc"]). repeat constructor; vm_compute; done.
Defined.
