(* ===== verification/BloomFilter.v ===== *)
(** * Bloom filter

    [container/BloomFilter.cc], for strings: a set that may answer that it contains what
    was not inserted, and never the other way round.  The place of a string comes from its
    MD5 digest, which is that of [MD5.v].  Undefined: a filter of no bits. *)
From S2P Require Import Prelude MD5.

Record BloomFilter := mkBloom { size_ : Z; entries_ : Z; data_ : list Z }.

(** [sizeof(data_type)]: the number of bytes of a word is used as that of its bits. *)
Definition data_size : Z := 8.

Definition elementCount (nbits : Z) : Z := if nbits =? 0 then 0 else (nbits - 1) / data_size + 1.

Definition BloomFilter_new (size : Z) : BloomFilter := mkBloom size 0 (replicate (Z.to_nat (elementCount size)) 0).

Definition empty (f : BloomFilter) : bool := entries_ f =? 0.

(** The loop of [index] *)
Fixpoint reduce_digest (size idx : Z) (md5_buf : list byte) : Z :=
  match md5_buf with
  | [] => idx
  | b :: md5_buf => reduce_digest size (wrapU 64 (idx * 256 + byte.unsigned b) mod size) md5_buf
  end.

Definition index (junk : nat -> byte) (value : list byte) (f : BloomFilter) : outcome Z :=
  md5_buf ← fst ((add_string value ;; numericalDigest) (MD5_new junk));
  if size_ f =? 0 then Undef else Ok (reduce_digest (size_ f) 0 md5_buf).

Definition insert (junk : nat -> byte) (value : list byte) (f : BloomFilter) : outcome BloomFilter :=
  bit_index ← index junk value f;
  let elem := Z.to_nat (bit_index / data_size) in
  let offset := bit_index mod data_size in
  match data_ f !! elem with
  | Some w => Ok (mkBloom (size_ f) (wrapU 64 (entries_ f + 1)) (<[elem := Z.lor w (Z.shiftl 1 offset)]> (data_ f)))
  | None => Undef
  end.

Definition contains (junk : nat -> byte) (value : list byte) (f : BloomFilter) : outcome bool :=
  bit_index ← index junk value f;
  let elem := Z.to_nat (bit_index / data_size) in
  let offset := bit_index mod data_size in
  match data_ f !! elem with
  | Some w => Ok (negb (Z.land w (Z.shiftl 1 offset) =? 0))
  | None => Undef
  end.

(** ** The place of a string *)

#[local] Opaque rfc_md5.

Definition place (size : Z) (value : list byte) : Z := reduce_digest size 0 (rfc_md5 value).

Lemma bloom_index_ok junk value f : chunk_ok value -> size_ f <> 0 -> index junk value f = Ok (place (size_ f) value).
Proof.
  intros Hv Hs. unfold index. destruct (add_string_ok value (MD5_new junk) [] (new_md5_represents junk) eq_refl Hv) as (o & E & Hr & _).
  rewrite (M_bind_Ok _ _ _ _ _ E). unfold numericalDigest. rewrite (M_bind_Ok _ _ _ o o) by done.
  rewrite (M_bind_Ok (liftM _) _ _ _ _ (f_equal2 pair (Final_ok _ _ Hr) eq_refl)).
  cbv [mbind outcome_mbind outcome_bind M_bind putM mret M_ret fst]. rewrite (proj2 (Z.eqb_neq _ _) Hs). unfold place. by rewrite app_nil_l.
Qed.

Lemma be_combine_cons b l : be_combine (b :: l) = byte.unsigned b * 2 ^ (8 * zlen l) + be_combine l.
Proof.
  pose proof (be_combine_bound l) as Hb. unfold be_combine, zlen in *. simpl. rewrite le_combine_app, le_combine_1, length_rev, Z.lor_comm.
  rewrite lor_shiftl; replace (Z.of_nat (length l) * 8) with (8 * Z.of_nat (length l)) by lia; try done; lia.
Qed.

Lemma reduce_range size l : forall idx, 0 < size -> 0 <= idx < size -> 0 <= reduce_digest size idx l < size.
Proof. induction l as [|b l IH]; intros idx Hs Hi; [done|]. simpl. apply IH; [done|]. by apply Z.mod_pos_bound. Qed.

(** The digest as a number with the most significant byte first, modulo the size *)
Lemma reduce_number size l : forall idx, 0 < size <= 2 ^ 56 -> 0 <= idx < size ->
  reduce_digest size idx l = (idx * 2 ^ (8 * zlen l) + be_combine l) mod size.
Proof.
  induction l as [|b l IH]; intros idx Hs Hi.
  - simpl. rewrite Z.mul_1_r. change (be_combine []) with 0. by rewrite Z.add_0_r, Z.mod_small.
  - cbn [reduce_digest]. pose proof (byte.unsigned_range b) as Hb. rewrite wrapU_id by (apply in_U_spec; lia).
    rewrite IH by (done || apply Z.mod_pos_bound; lia). rewrite be_combine_cons, zlen_cons.
    rewrite <- Z.add_mod_idemp_l, Z.mul_mod_idemp_l, Z.add_mod_idemp_l by lia. f_equal.
    replace (8 * (1 + zlen l)) with (8 + 8 * zlen l) by lia. pose proof (zlen_nonneg l). rewrite Z.pow_add_r by lia. change (2 ^ 8) with 256. ring.
Qed.

(** ** What the filter contains *)

(** The bit of a place *)
Definition bit (p : Z) (f : BloomFilter) : bool :=
  match data_ f !! Z.to_nat (p / data_size) with Some w => Z.testbit w (p mod data_size) | None => false end.

Record sized (f : BloomFilter) : Prop := {
  sized_pos : 0 < size_ f;
  sized_data : zlen (data_ f) = elementCount (size_ f);
}.

Lemma place_word f p : sized f -> 0 <= p < size_ f -> exists w, data_ f !! Z.to_nat (p / data_size) = Some w.
Proof.
  intros [Hp Hd] Hr. apply lookup_lt_is_Some. unfold elementCount in Hd. destruct (Z.eqb_spec (size_ f) 0); [lia|]. unfold zlen in Hd.
  assert (p / data_size <= (size_ f - 1) / data_size) by (apply Z.div_le_mono; unfold data_size; lia).
  assert (0 <= p / data_size) by (apply Z.div_pos; unfold data_size; lia). lia.
Qed.

Lemma land_bit w o : 0 <= o -> negb (Z.land w (Z.shiftl 1 o) =? 0) = Z.testbit w o.
Proof.
  intros Ho. rewrite Z.shiftl_1_l. destruct (Z.testbit w o) eqn:E.
  - destruct (Z.eqb_spec (Z.land w (2 ^ o)) 0) as [H|]; [|done]. exfalso.
    apply (f_equal (fun z => Z.testbit z o)) in H. rewrite Z.land_spec, E, Z.pow2_bits_true, Z.bits_0 in H by done. done.
  - replace (Z.land w (2 ^ o)) with 0; [done|]. symmetry. apply Z.bits_inj'. intros i Hi. rewrite Z.land_spec, Z.bits_0.
    destruct (decide (o = i)) as [<-|]; [by rewrite E|]. by rewrite Z.pow2_bits_false, andb_false_r.
Qed.

Lemma place_range f value : sized f -> 0 <= place (size_ f) value < size_ f.
Proof. intros [Hp _]. apply reduce_range; lia. Qed.

Lemma contains_bit junk value f : sized f -> chunk_ok value -> contains junk value f = Ok (bit (place (size_ f) value) f).
Proof.
  intros Hf Hv. unfold contains. rewrite bloom_index_ok by (done || destruct Hf; lia). simpl. unfold bit.
  destruct (place_word f (place (size_ f) value) Hf (place_range f value Hf)) as [w E]. unfold data_size in *. rewrite E.
  rewrite land_bit; [done|]. apply Z.mod_pos_bound. lia.
Qed.

Lemma insert_bit junk value f : sized f -> chunk_ok value -> exists f', insert junk value f = Ok f' /\ sized f' /\ size_ f' = size_ f /\
  entries_ f' = wrapU 64 (entries_ f + 1) /\ forall p, 0 <= p -> bit p f' = bit p f || bool_decide (p = place (size_ f) value).
Proof.
  intros Hf Hv. unfold insert. rewrite bloom_index_ok by (done || destruct Hf; lia). simpl. set (q := place (size_ f) value).
  destruct (place_word f q Hf (place_range f value Hf)) as [w E]. rewrite E. eexists. split; [done|]. pose proof (place_range f value Hf) as Hq. fold q in Hq.
  split; [destruct Hf; split; [done|]; simpl; unfold zlen in *; by rewrite length_insert|]. split_and!; [done..|].
  intros p Hp. unfold bit. simpl. assert (Hd : forall p, 0 <= p -> p = data_size * (p / data_size) + p mod data_size /\ 0 <= p / data_size /\ 0 <= p mod data_size < data_size).
  { intros x Hx. split_and!; [apply Z.div_mod; done|apply Z.div_pos; unfold data_size; lia|apply Z.mod_pos_bound; done..]. }
  destruct (Hd p Hp) as (E1 & H1 & H1'), (Hd q ltac:(lia)) as (E2 & H2 & H2').
  destruct (decide (Z.to_nat (q / data_size) = Z.to_nat (p / data_size))) as [Ee|Hne].
  - rewrite <- Ee, list_lookup_insert_eq by (by eapply lookup_lt_Some). rewrite E, Z.lor_spec, Z.shiftl_1_l. f_equal.
    destruct (decide (p = q)) as [->|Hpq]; [by rewrite Z.pow2_bits_true, bool_decide_eq_true_2 by (done || lia)|].
    rewrite bool_decide_eq_false_2 by done. apply Z.pow2_bits_false. intros Em. apply Hpq. lia.
  - rewrite list_lookup_insert_ne by done. rewrite bool_decide_eq_false_2 by (intros ->; done). by rewrite orb_false_r.
Qed.

Fixpoint insert_all (junk : nat -> byte) (values : list (list byte)) (f : BloomFilter) : outcome BloomFilter :=
  match values with [] => Ok f | v :: values => f ← insert junk v f; insert_all junk values f end.

Lemma insert_all_bits junk values : forall f, sized f -> Forall chunk_ok values -> exists f', insert_all junk values f = Ok f' /\ sized f' /\ size_ f' = size_ f /\
  entries_ f' mod 2 ^ 64 = (entries_ f + zlen values) mod 2 ^ 64 /\ forall p, 0 <= p -> bit p f' = bit p f || bool_decide (p ∈ place (size_ f) <$> values).
Proof.
  induction values as [|v values IH]; intros f Hf HF; simpl.
  - exists f. split_and!; try done; [by rewrite Z.add_0_r|]. intros p _. by rewrite orb_false_r.
  - apply Forall_cons in HF as [Hv HF]. destruct (insert_bit junk v f Hf Hv) as (f1 & -> & Hf1 & Hs1 & He1 & Hb1). simpl.
    destruct (IH f1 Hf1 HF) as (f2 & -> & Hf2 & Hs2 & He2 & Hb2). exists f2. split_and!; [done|done|congruence| |].
    + rewrite He2, He1, zlen_cons. unfold wrapU. rewrite Z.add_mod_idemp_l by done. f_equal. lia.
    + intros p Hp. rewrite Hb2, Hb1, Hs1, <- orb_assoc by done. f_equal. apply Bool.eq_iff_eq_true. rewrite orb_true_iff, !bool_decide_eq_true, elem_of_cons. done.
Qed.

(** A filter of any size above 0 accepts every string (short of 4 GiB) and, whatever was
    inserted, contains exactly the strings that have the place of one of those: there are
    no false negatives, and what is inserted later takes nothing away.  The place is the
    digest, as a number, modulo the size. *)
Theorem bloom_filter_exact (junk : nat -> byte) (size : Z) (values : list (list byte)) : 0 < size < 2 ^ 64 -> Forall chunk_ok values ->
  exists f, insert_all junk values (BloomFilter_new size) = Ok f /\
    (forall v, chunk_ok v -> contains junk v f = Ok (bool_decide (place size v ∈ place size <$> values))) /\
    (zlen values < 2 ^ 64 -> size_ f = size /\ entries_ f mod 2 ^ 64 = zlen values) /\
    (size <= 2 ^ 56 -> forall v, place size v = be_combine (rfc_md5 v) mod size).
Proof.
  intros Hs HF. assert (Hn : sized (BloomFilter_new size)).
  { split; [simpl; lia|]. simpl. unfold zlen. rewrite length_replicate. unfold elementCount. destruct (Z.eqb_spec size 0); [lia|].
    rewrite Z2Nat.id; [done|]. assert (0 <= (size - 1) / data_size) by (apply Z.div_pos; unfold data_size; lia). lia. }
  destruct (insert_all_bits junk values _ Hn HF) as (f & E & Hf & Hsz & He & Hb). simpl in Hsz, Hb, He. exists f. split_and!; [done| | |].
  - intros v Hv. rewrite contains_bit by done. rewrite Hb, Hsz by apply (place_range f v Hf). f_equal.
    replace (bit (place size v) (BloomFilter_new size)) with false; [done|]. unfold bit. simpl. destruct (replicate _ 0 !! _) eqn:El; [|done].
    apply lookup_replicate in El as [-> _]. by rewrite Z.bits_0.
  - intros Hl. split; [done|]. rewrite He, Z.mod_small; [done|]. pose proof (zlen_nonneg values). lia.
  - intros Hle v. unfold place. rewrite reduce_number by lia. by rewrite Z.mul_0_l.
Qed.

(** Eight bits of every word are used. *)
Example bloom_words : zlen (data_ (BloomFilter_new 64)) = 8.
Proof. reflexivity. Qed.
