(* ===== verification/MachineInt.v ===== *)
(** * Signed machine arithmetic

    Expressions on a signed integer type of [w] bits: an operation whose result
    does not fit has undefined behaviour, so an expression has an [outcome].
    Values are used where expressions are expected. *)
From S2P Require Import Prelude.

Definition val (z : Z) : outcome Z := Ok z.
Coercion val : Z >-> outcome.

Definition fit (w z : Z) : outcome Z := if in_S w z then Ok z else Undef.

Definition op2 (w : Z) (f : Z -> Z -> Z) (x y : outcome Z) : outcome Z := outcome_bind (fun a => outcome_bind (fun b => fit w (f a b)) y) x.

(** A left shift of a negative number, or by a negative number or by the width or
    more, is undefined; a right shift of a negative number keeps the sign. *)
Definition shl (w : Z) (x y : outcome Z) : outcome Z :=
  a ← x; n ← y; if (0 <=? a) && (0 <=? n) && (n <? w) then fit w (Z.shiftl a n) else Undef.
Definition shr (w : Z) (x y : outcome Z) : outcome Z :=
  a ← x; n ← y; if (0 <=? n) && (n <? w) then Ok (Z.shiftr a n) else Undef.

(** Division truncates towards zero. *)
Definition quot (w : Z) (x y : outcome Z) : outcome Z :=
  a ← x; b ← y; if b =? 0 then Undef else fit w (Z.quot a b).
Definition neg (w : Z) (x : outcome Z) : outcome Z := a ← x; fit w (- a).
Definition abs (w : Z) (x : outcome Z) : outcome Z := a ← x; fit w (Z.abs a).

Declare Scope int_scope.
Delimit Scope int_scope with int.
Declare Scope llong_scope.
Delimit Scope llong_scope with llong.

(** [int] *)
Notation "a + b" := (op2 32 Z.add a b) : int_scope.
Notation "a - b" := (op2 32 Z.sub a b) : int_scope.
Notation "a * b" := (op2 32 Z.mul a b) : int_scope.
Notation "a / b" := (quot 32 a b) : int_scope.
Notation "a << b" := (shl 32 a b) (at level 54, left associativity) : int_scope.
Notation "a >> b" := (shr 32 a b) (at level 54, left associativity) : int_scope.


(** A variable of the type, set to the value of an expression. *)
Notation "'int32' x ':=' e 'in' k" := (outcome_bind (fun x : Z => k) e%int) (at level 10, x name, k at level 200).
Notation "'int64' x ':=' e 'in' k" := (outcome_bind (fun x : Z => k) e%llong) (at level 10, x name, k at level 200).

(** [long long] *)
Notation "a + b" := (op2 64 Z.add a b) : llong_scope.
Notation "a - b" := (op2 64 Z.sub a b) : llong_scope.
Notation "a * b" := (op2 64 Z.mul a b) : llong_scope.
Notation "a / b" := (quot 64 a b) : llong_scope.
Notation "- a" := (neg 64 a) : llong_scope.

Lemma val_bind {A} z (f : Z -> outcome A) : outcome_bind f (val z) = f z.
Proof. done. Qed.

Lemma fit_ok w z : - 2 ^ (w - 1) <= z < 2 ^ (w - 1) -> fit w z = val z.
Proof. intros Hz. unfold fit. by rewrite (proj2 (in_S_spec w z)). Qed.

Lemma op2_ok w f a b : - 2 ^ (w - 1) <= f a b < 2 ^ (w - 1) -> op2 w f (val a) (val b) = val (f a b).
Proof. apply fit_ok. Qed.

Lemma int_shr_ok w a n : 0 <= n < w -> shr w (val a) (val n) = val (Z.shiftr a n).
Proof. intros Hn. unfold shr, mbind, outcome_mbind. rewrite !val_bind. by replace ((0 <=? n) && (n <? w)) with true by lia. Qed.

Lemma int_shl_ok w a n : 0 <= n < w -> 0 <= a -> Z.shiftl a n < 2 ^ (w - 1) -> shl w (val a) (val n) = val (Z.shiftl a n).
Proof.
  intros Hn Ha Hs. unfold shl, mbind, outcome_mbind. rewrite !val_bind. replace ((0 <=? a) && (0 <=? n) && (n <? w)) with true by lia.
  apply fit_ok. pose proof (proj2 (Z.shiftl_nonneg a n) Ha). pose proof (Z.pow_pos_nonneg 2 (w - 1)). lia.
Qed.

Lemma quot_ok w a b : b <> 0 -> - 2 ^ (w - 1) <= Z.quot a b < 2 ^ (w - 1) -> quot w (val a) (val b) = val (Z.quot a b).
Proof. intros Hb Hq. unfold quot, mbind, outcome_mbind. rewrite !val_bind. destruct (Z.eqb_spec b 0); [done|]. by apply fit_ok. Qed.

Lemma neg_ok w a : - 2 ^ (w - 1) <= - a < 2 ^ (w - 1) -> neg w (val a) = val (- a).
Proof. apply fit_ok. Qed.

Lemma abs_ok w a : - 2 ^ (w - 1) < a < 2 ^ (w - 1) -> abs w (val a) = val (Z.abs a).
Proof. intros Ha. apply fit_ok. lia. Qed.
