(* ===== verification/HyperCube.v ===== *)
(** * Multi-dimensional indices

    [utils/HyperCube.h], [utils/HyperCube.cc]: the index of a cell of an array of several
    dimensions, the cell of an index, and the renumbering of the cells when labels are
    inserted in one dimension.  [Ordinal] is [unsigned long]. *)
From S2P Require Import Prelude MachineInt.
Open Scope Z_scope.

Record HyperCube : Type := mkHyperCube { dimensions_ : list Z }.

Module HyperCube.

(** The initial value [1] of [std::accumulate] is an [int]: the product is converted to
    [int] after each factor, and the result to [unsigned long]. *)
Definition count (h : HyperCube) : Z :=
  wrapU 64 (foldl (fun acc d => wrapS 32 (wrapU 64 (wrapU 64 acc * d))) 1 (dimensions_ h)).

(** The loop of [index], on the pairs of a coordinate and its dimension from the last. *)
Fixpoint index_loop (l : list (Z * Z)) (n a : Z) : outcome Z :=
  match l with
  | [] => Ok a
  | (x, d) :: l =>
      ASSERT (x <? d) ;;
      index_loop l (wrapU 64 (n * d)) (wrapU 64 (a + wrapU 64 (x * n)))
  end.
Definition index (h : HyperCube) (coord : list Z) : outcome Z :=
  ASSERT (Nat.eqb (length coord) (length (dimensions_ h))) ;;
  index_loop (reverse (zip coord (dimensions_ h))) 1 0.

(** The loop of [coordinates], on the dimensions from the last; the elements of [result]
    from the current one on are [acc]. *)
Fixpoint coordinates_loop (l : list Z) (index : Z) (acc : list Z) : outcome (list Z * Z) :=
  match l with
  | [] => Ok (acc, index)
  | d :: l => if d =? 0 then Undef else coordinates_loop l (index / d) (index mod d :: acc)
  end.
Definition coordinates (h : HyperCube) (index : Z) (result : list Z) : outcome (list Z) :=
  ASSERT (Nat.eqb (length result) (length (dimensions_ h))) ;;
  '(result, index) ← coordinates_loop (reverse (dimensions_ h)) index [];
  ASSERT (index =? 0) ;;
  Ok result.

(** The loop of [addLoop] on one dimension: [k] is an [int]. *)
Fixpoint add_labels (body : Z -> list Z -> list Z -> outcome (list Z * list Z)) (here : bool) (where_ count : Z)
    (todo : nat) (i k : Z) (coord remap : list Z) : outcome (list Z * list Z) :=
  match todo with
  | O => Ok (coord, remap)
  | S todo =>
      let k := if here && (i =? where_) then wrapS 32 (k + count) else k in
      '(coord, remap) ← body (wrapU 64 k) coord remap;
      k1 ← fit 32 (k + 1);
      add_labels body here where_ count todo (i + 1) k1 coord remap
  end.
Fixpoint addLoop (dims : list Z) (d which : nat) (where_ count : Z) (target : HyperCube) (coord remap : list Z) : outcome (list Z * list Z) :=
  match dims with
  | [] => i ← index target coord; Ok (coord, remap ++ [i])
  | n :: dims =>
      add_labels (fun k coord remap => addLoop dims (S d) which where_ count target (<[d := k]> coord) remap)
        (Nat.eqb which d) where_ count (Z.to_nat n) 0 0 coord remap
  end.

(** The greatest size of a vector of [Ordinal]. *)
Definition max_size : Z := 2 ^ 60 - 1.
Definition addToDimension (h : HyperCube) (which : nat) (where_ howMuch : Z) : outcome (HyperCube * list Z) :=
  if max_size <? count h then Throw StdLengthError
  else match dimensions_ h !! which with
       | None => Undef
       | Some n =>
           let target := mkHyperCube (<[which := wrapU 64 (n + howMuch)]> (dimensions_ h)) in
           '(_, remap) ← addLoop (dimensions_ h) 0 which where_ howMuch target (replicate (length (dimensions_ h)) 0) [];
           Ok (target, remap)
       end.

Fixpoint combine_loop (map1 map2 : list Z) : outcome (list Z) :=
  match map1 with
  | [] => Ok []
  | i :: map1 =>
      ASSERT (i <? zlen map2) ;;
      match map2 !! Z.to_nat i with
      | Some j => l ← combine_loop map1 map2; Ok (j :: l)
      | None => Undef
      end
  end.
Definition combine (map1 map2 : list Z) : outcome (list Z) :=
  match map1 with [] => Ok map2 | _ => combine_loop map1 map2 end.

End HyperCube.
Import HyperCube.

(** ** The numbering of the cells *)

Definition prod (dims : list Z) : Z := foldr Z.mul 1 dims.
Fixpoint lin (dims x : list Z) : Z :=
  match dims, x with d :: dims, i :: x => i * prod dims + lin dims x | _, _ => 0 end.
(** [x] is a cell. *)
Definition cell (dims x : list Z) : Prop := Forall2 (fun i d => 0 <= i < d) x dims.
(** The cells in their order. *)
Fixpoint cells (dims : list Z) : list (list Z) :=
  match dims with [] => [[]] | d :: dims => seqZ 0 d ≫= fun i => cons i <$> cells dims end.

Lemma prod_app a b : prod (a ++ b) = prod a * prod b.
Proof. unfold prod. induction a as [|d a IH]; simpl; [lia|]. rewrite IH. lia. Qed.

Lemma prod_nonneg dims : Forall (Z.lt 0) dims -> 0 <= prod dims.
Proof. unfold prod. induction 1; simpl; lia. Qed.

Lemma lin_app a b x y : length x = length a -> lin (a ++ b) (x ++ y) = lin a x * prod b + lin b y.
Proof. revert x. induction a as [|d a IH]; intros [|i x]; simpl; intros H; try done. rewrite IH, prod_app by lia. lia. Qed.

Lemma cell_bound dims x : cell dims x -> 0 <= lin dims x < prod dims.
Proof. unfold prod. induction 1 as [|i d x dims Hi Hx IH]; simpl; [lia|]. fold (prod dims) in *. nia. Qed.

Lemma cell_prod_pos dims x : cell dims x -> 0 < prod dims.
Proof. intros H. apply cell_bound in H. lia. Qed.

Lemma cell_length dims x : cell dims x -> length x = length dims.
Proof. apply Forall2_length. Qed.

Lemma cell_snoc a d x : cell (a ++ [d]) x -> exists x0 i, x = x0 ++ [i] /\ cell a x0 /\ 0 <= i < d.
Proof.
  intros (x0 & y & Hx & Hy & ->)%Forall2_app_inv_r. apply Forall2_cons_inv_r in Hy as (i & y' & Hi & Hy & ->).
  apply Forall2_nil_inv_r in Hy as ->. by exists x0, i.
Qed.

Lemma wrap_small N : 0 <= N < 2 ^ 64 -> wrapU 64 N = N.
Proof. apply Z.mod_small. Qed.

(** The loop has read the last coordinates [y] of the dimensions [b]. *)
Lemma index_loop_ok a : forall x b y, cell a x -> cell b y -> prod (a ++ b) < 2 ^ 64 ->
  index_loop (reverse (zip x a)) (prod b) (lin b y) = Ok (lin (a ++ b) (x ++ y)).
Proof.
  induction a as [|d a IH] using rev_ind; intros x b y Hx Hy Hb.
  - apply Forall2_nil_inv_r in Hx as ->. done.
  - apply cell_snoc in Hx as (x0 & i & -> & Hx & Hi). rewrite zip_with_app, reverse_app by by apply cell_length.
    rewrite <- !app_assoc in *. simpl in *. rewrite (proj2 (Z.ltb_lt i d)) by lia. unfold mbind, outcome_mbind. cbn [ASSERT outcome_bind].
    assert (cell (d :: b) (i :: y)) as Hc by by constructor.
    pose proof (cell_bound _ _ Hc) as H1. pose proof (cell_bound _ _ Hy) as H2. pose proof (cell_prod_pos _ _ Hx) as H3. rewrite prod_app in Hb.
    specialize (IH x0 (d :: b) (i :: y) Hx Hc ltac:(rewrite prod_app; lia)). cbn [lin prod foldr] in *. fold (prod b) in *.
    assert (d * prod b < 2 ^ 64) by nia. rewrite (wrap_small (prod b * d)), (wrap_small (i * prod b)), (wrap_small (lin b y + _)) by nia.
    by rewrite (Z.mul_comm (prod b)), (Z.add_comm (lin b y)).
Qed.

Lemma cube_index_ok dims x : cell dims x -> prod dims < 2 ^ 64 -> index (mkHyperCube dims) x = Ok (lin dims x).
Proof.
  intros Hx Hb. unfold index. simpl. rewrite (cell_length _ _ Hx), Nat.eqb_refl. unfold mbind, outcome_mbind. cbn [ASSERT outcome_bind].
  pose proof (index_loop_ok dims x [] [] Hx) as H. rewrite !app_nil_r in H. by apply H; [constructor|].
Qed.

Lemma coordinates_loop_ok a : forall x acc, cell a x -> coordinates_loop (reverse a) (lin a x) acc = Ok (x ++ acc, 0).
Proof.
  induction a as [|d a IH] using rev_ind; intros x acc Hx.
  - apply Forall2_nil_inv_r in Hx as ->. done.
  - apply cell_snoc in Hx as (x0 & i & -> & Hx & Hi). rewrite reverse_app, lin_app by by apply cell_length. simpl.
    rewrite (proj2 (Z.eqb_neq d 0)) by lia. replace (lin a x0 * (d * 1) + (i * 1 + 0)) with (i + lin a x0 * d) by lia.
    rewrite Z.div_add, Z.mod_add, Z.div_small, Z.mod_small by lia. rewrite Z.add_0_l. fold (reverse a). rewrite IH by done. by rewrite <- app_assoc.
Qed.

Lemma cell_at dims j : Forall (Z.lt 0) dims -> 0 <= j < prod dims -> exists x, cell dims x /\ lin dims x = j.
Proof.
  intros Hd. revert j. induction Hd as [|d dims Hd Hds IH]; simpl; intros j Hj; [exists []; split; [constructor|simpl; lia]|].
  fold (prod dims) in *. assert (0 < prod dims) as Hp by nia. destruct (IH (j mod prod dims)) as (x & Hx & El); [by apply Z.mod_pos_bound|].
  exists (j / prod dims :: x). split.
  - constructor; [|done]. split; [by apply Z.div_pos; lia|]. apply Z.div_lt_upper_bound; lia.
  - simpl. rewrite El. pose proof (Z.div_mod j (prod dims)). lia.
Qed.

(** ** The number of cells *)

Lemma cube_count_ok dims : Forall (Z.lt 0) dims -> prod dims < 2 ^ 31 -> count (mkHyperCube dims) = prod dims.
Proof.
  intros Hd Hb. unfold count. simpl.
  assert (forall n, 0 < n -> n * prod dims < 2 ^ 31 -> foldl (fun acc d => wrapS 32 (wrapU 64 (wrapU 64 acc * d))) n dims = n * prod dims) as H.
  { clear Hb. induction Hd as [|d dims Hd Hds IH]; intros n Hn Hb; simpl in *; [lia|]. fold (prod dims) in *.
    assert (0 < prod dims) as Hp by (clear - Hds; unfold prod; induction Hds; simpl; [lia|nia]).
    assert (0 < n * d < 2 ^ 31) as Hnd by nia. rewrite (wrap_small n), (wrap_small (n * d)), wrapS_id; [|lia|apply in_S_spec; lia|lia|nia].
    rewrite IH by (rewrite <- ?Z.mul_assoc; lia). lia. }
  rewrite H, Z.mul_1_l by lia. apply wrap_small. split; [|lia].
  by apply prod_nonneg.
Qed.

(** ** The numbering as a bijection *)

(** Below the range of [unsigned long], [index] and [coordinates] are inverse to each
    other: every cell has an index below the number of cells, from which its coordinates
    are computed back, and every such index is the index of its coordinates. *)
Theorem hypercube_index_bijection dims : Forall (Z.lt 0) dims -> prod dims < 2 ^ 64 ->
  (forall x y, cell dims x -> length y = length dims ->
     exists j, index (mkHyperCube dims) x = Ok j /\ 0 <= j < prod dims /\ coordinates (mkHyperCube dims) j y = Ok x) /\
  (forall j y, 0 <= j < prod dims -> length y = length dims ->
     exists x, coordinates (mkHyperCube dims) j y = Ok x /\ cell dims x /\ index (mkHyperCube dims) x = Ok j).
Proof.
  intros Hd Hb.
  assert (forall x y, cell dims x -> length y = length dims -> coordinates (mkHyperCube dims) (lin dims x) y = Ok x) as Hc.
  { intros x y Hx Hy. unfold coordinates. simpl. rewrite Hy, Nat.eqb_refl. unfold mbind, outcome_mbind. cbn [ASSERT outcome_bind].
    rewrite coordinates_loop_ok by done. simpl. by rewrite app_nil_r. }
  split.
  - intros x y Hx Hy. exists (lin dims x). split; [by apply cube_index_ok|]. split; [by apply cell_bound|by apply Hc].
  - intros j y Hj Hy. destruct (cell_at dims j Hd Hj) as (x & Hx & <-). exists x. split; [by apply Hc|]. split; [done|by apply cube_index_ok].
Qed.

Lemma hypercube_index_bijection_witness : exists j, index (mkHyperCube [3; 4; 5]) [2; 1; 3] = Ok j /\ 0 <= j < 60 /\ coordinates (mkHyperCube [3; 4; 5]) j [0; 0; 0] = Ok [2; 1; 3].
Proof.
  destruct (hypercube_index_bijection [3; 4; 5]) as [H _]; [by repeat constructor|done|].
  apply (H [2; 1; 3] [0; 0; 0]); [repeat constructor; lia|done].
Defined.

(** ** Inserting labels *)

Section Insert.
Context (which : nat) (where_ howMuch : Z).

(** The new label of label [i] of dimension [d], and the new coordinates of a cell. *)
Definition label (d : nat) (i : Z) : Z := if Nat.eqb which d && (where_ <=? i) then i + howMuch else i.
Fixpoint moved (d : nat) (x : list Z) : list Z := match x with [] => [] | i :: x => label d i :: moved (S d) x end.
Definition longer (d : nat) (n : Z) : Z := if Nat.eqb which d then n + howMuch else n.
Fixpoint grown (d : nat) (dims : list Z) : list Z := match dims with [] => [] | n :: dims => longer d n :: grown (S d) dims end.

Lemma grown_after dims : forall d, (which < d)%nat -> grown d dims = dims.
Proof.
  induction dims as [|n dims IH]; intros d Hd; [done|]. simpl. unfold longer. destruct (Nat.eqb_spec which d); [lia|]. f_equal. apply IH. lia.
Qed.

Lemma grown_insert dims n : forall d, (d <= which)%nat -> dims !! (which - d)%nat = Some n -> grown d dims = <[(which - d)%nat := n + howMuch]> dims.
Proof.
  induction dims as [|m dims IH]; intros d Hd; [done|]. simpl. unfold longer. destruct (Nat.eqb_spec which d) as [->|Hne].
  - rewrite Nat.sub_diag. intros [= ->]. simpl. by rewrite grown_after by lia.
  - replace (which - d)%nat with (S (which - S d)) by lia. simpl. intros Hn. f_equal. apply IH; [lia|done].
Qed.

Lemma moved_cell dims x : 0 <= howMuch -> cell dims x -> forall d, cell (grown d dims) (moved d x).
Proof.
  intros Hh. induction 1 as [|i n x dims Hi Hx IH]; intros d; simpl; constructor; [|apply IH].
  unfold label, longer. destruct (Nat.eqb which d), (where_ <=? i); simpl; lia.
Qed.

(** The loop on the labels of one dimension, when its body appends [R i] for label [i] and
    keeps the property [P] of the coordinates. *)
Lemma add_labels_ok (P : list Z -> Prop) (R : Z -> list Z) body here n :
  0 <= howMuch -> n + howMuch < 2 ^ 31 ->
  (forall i coord remap, 0 <= i < n -> P coord ->
     exists coord', P coord' /\ body (if here && (where_ <=? i) then i + howMuch else i) coord remap = Ok (coord', remap ++ R i)) ->
  forall todo i coord remap, 0 <= i -> i + Z.of_nat todo = n -> P coord ->
  exists coord', P coord' /\
    add_labels body here where_ howMuch todo i (if here && (where_ <? i) then i + howMuch else i) coord remap = Ok (coord', remap ++ (seqZ i (Z.of_nat todo) ≫= R)).
Proof.
  intros Hh Hn Hbody. induction todo as [|todo IH]; intros i coord remap Hi Et Hc.
  - exists coord. split; [done|]. simpl. by rewrite app_nil_r.
  - destruct (Hbody i coord remap) as (c1 & Hc1 & E1); [lia|done|]. destruct (IH (i + 1) c1 (remap ++ R i)) as (c2 & Hc2 & E2); [lia..|done|].
    exists c2. split; [done|]. cbn [add_labels].
    set (k := if here && (where_ <=? i) then i + howMuch else i) in *.
    replace (if here && (i =? where_) then wrapS 32 _ else _) with k.
    2: { subst k. destruct here; simpl; [|done]. destruct (Z.leb_spec where_ i), (Z.ltb_spec where_ i), (Z.eqb_spec i where_); try lia.
         rewrite wrapS_id; [done|lia|apply in_S_spec; lia]. }
    assert (0 <= k < 2 ^ 31 - 1) as Hk by (subst k; destruct (here && _); lia).
    rewrite wrap_small by lia. unfold mbind, outcome_mbind. rewrite E1. cbn [outcome_bind]. rewrite fit_ok by lia. cbn [outcome_bind val].
    replace (k + 1) with (if here && (where_ <? i + 1) then i + 1 + howMuch else i + 1).
    2: { subst k. destruct here; simpl; [|done]. destruct (Z.leb_spec where_ i), (Z.ltb_spec where_ (i + 1)); lia. }
    rewrite E2, <- app_assoc, (seqZ_cons i) by lia. do 3 f_equal. rewrite bind_cons. do 2 f_equal. f_equal; lia.
Qed.

Lemma fmap_bind_cells {A B C} (f : B -> C) (g : A -> list B) l : f <$> (l ≫= g) = l ≫= fun x => f <$> g x.
Proof. induction l as [|x l IH]; [done|]. by rewrite !bind_cons, fmap_app, IH. Qed.
Lemma list_bind_ext_eq {A B} (f g : A -> list B) l : (forall x, f x = g x) -> l ≫= f = l ≫= g.
Proof. intros H. induction l as [|x l IH]; [done|]. by rewrite !bind_cons, H, IH. Qed.

(** The loops from dimension [length pre] on; [pre] are the new coordinates so far. *)
Lemma addLoop_ok dims : forall pd pre rest remap, 0 <= where_ -> 0 <= howMuch -> Forall (fun n => 0 < n) dims -> Forall (fun n => n + howMuch < 2 ^ 31) dims ->
  cell pd pre -> length rest = length dims -> prod (pd ++ grown (length pre) dims) < 2 ^ 64 ->
  exists rest', length rest' = length dims /\
    addLoop dims (length pre) which where_ howMuch (mkHyperCube (pd ++ grown (length pre) dims)) (pre ++ rest) remap =
    Ok (pre ++ rest', remap ++ ((fun x => lin (pd ++ grown (length pre) dims) (pre ++ moved (length pre) x)) <$> cells dims)).
Proof.
  induction dims as [|n dims IH]; intros pd pre rest remap Hw Hh Hp Hs Hc Hr Hb.
  - exists []. split; [done|]. destruct rest; [|done]. simpl. rewrite !app_nil_r in *. unfold mbind, outcome_mbind. by rewrite cube_index_ok.
  - apply Forall_cons_1 in Hp as [Hp Hps]. apply Forall_cons_1 in Hs as [Hs Hss]. set (d := length pre) in *.
    cbn [addLoop grown] in *. set (target := pd ++ longer d n :: grown (S d) dims) in *.
    destruct (add_labels_ok (fun coord => exists rest, coord = pre ++ rest /\ length rest = S (length dims))
                (fun i => (fun x => lin target (pre ++ label d i :: moved (S d) x)) <$> cells dims)
                (fun k coord remap => addLoop dims (S d) which where_ howMuch (mkHyperCube target) (<[d := k]> coord) remap)
                (Nat.eqb which d) n Hh Hs) with (todo := Z.to_nat n) (i := 0) (coord := pre ++ rest) (remap := remap) as (coord' & (rest' & -> & Hl) & E).
    + intros i coord rm Hi (r & -> & Hlr). destruct r as [|r0 r]; [done|]. fold (label d i).
      assert (<[d := label d i]> (pre ++ r0 :: r) = (pre ++ [label d i]) ++ r) as ->.
      { subst d. rewrite insert_app_r_alt, Nat.sub_diag by lia. simpl. by rewrite <- app_assoc. }
      assert (S d = length (pre ++ [label d i])) as Ed by (rewrite length_app; simpl; subst d; lia).
      assert (target = (pd ++ [longer d n]) ++ grown (S d) dims) as Et by (subst target; by rewrite <- app_assoc).
      destruct (IH (pd ++ [longer d n]) (pre ++ [label d i]) r rm Hw Hh Hps Hss) as (r' & Hlr' & E).
      * apply Forall2_app; [done|]. constructor; [|constructor]. unfold label, longer. destruct (Nat.eqb which d), (where_ <=? i); simpl; lia.
      * simpl in Hlr. lia.
      * rewrite <- Ed, <- Et. done.
      * exists ((pre ++ [label d i]) ++ r'). split; [exists (label d i :: r'); rewrite <- app_assoc; simpl; by rewrite Hlr'|].
        rewrite <- Ed, <- Et in E. rewrite E. do 3 f_equal. apply list_fmap_ext. intros j x _. by rewrite <- app_assoc.
    + lia.
    + lia.
    + by exists rest.
    + exists rest'. split; [done|]. replace (if Nat.eqb which d && (where_ <? 0) then 0 + howMuch else 0) with 0 in E by (by rewrite (proj2 (Z.ltb_ge where_ 0) Hw), andb_false_r).
      rewrite E, Z2Nat.id by lia. do 3 f_equal. cbn [cells]. rewrite fmap_bind_cells. apply list_bind_ext_eq. intros i.
      rewrite <- list_fmap_compose. done.
Qed.

Lemma cells_length dims : Forall (Z.lt 0) dims -> zlen (cells dims) = prod dims.
Proof.
  induction 1 as [|n dims Hn Hd IH]; [done|]. cbn [cells prod foldr]. fold (prod dims). rewrite <- IH. unfold zlen in *.
  clear - Hn. replace n with (Z.of_nat (Z.to_nat n)) by lia. generalize 0 as a. induction (Z.to_nat n) as [|m IHm]; intros a; [done|].
  rewrite seqZ_cons, bind_cons, length_app, length_fmap by lia. replace (Z.pred (Z.of_nat (S m))) with (Z.of_nat m) by lia.
  specialize (IHm (Z.succ a)). lia.
Qed.

(** Blocks of equal length. *)
Lemma lookup_blocks {A} (f : Z -> list A) m n a i j : (forall k, length (f k) = m) -> (i < n)%nat -> (j < m)%nat ->
  (seqZ a (Z.of_nat n) ≫= f) !! (i * m + j)%nat = f (a + Z.of_nat i) !! j.
Proof.
  intros Hf. revert n a. induction i as [|i IH]; intros [|n] a Hi Hj; try lia; rewrite seqZ_cons, bind_cons by lia; simpl.
  - rewrite lookup_app_l by (rewrite Hf; lia). by rewrite Z.add_0_r.
  - rewrite lookup_app_r, Hf by (rewrite Hf; lia). replace (m + i * m + j - m)%nat with (i * m + j)%nat by lia.
    replace (Z.pred (Z.of_nat (S n))) with (Z.of_nat n) by lia. rewrite IH by lia. do 2 f_equal. lia.
Qed.

Lemma cells_lookup dims x : Forall (Z.lt 0) dims -> cell dims x -> cells dims !! Z.to_nat (lin dims x) = Some x.
Proof.
  intros Hd Hx. induction Hx as [|i n x dims Hi Hx IH]; [done|]. apply Forall_cons_1 in Hd as [Hn Hd]. specialize (IH Hd). cbn [cells lin].
  pose proof (cells_length dims Hd) as Hl. pose proof (cell_bound _ _ Hx) as Hb. unfold zlen in Hl.
  replace (Z.to_nat (i * prod dims + lin dims x)) with (Z.to_nat i * length (cells dims) + Z.to_nat (lin dims x))%nat by (rewrite <- Hl, Z2Nat.inj_add, Z2Nat.inj_mul, Nat2Z.id by nia; lia).
  replace n with (Z.of_nat (Z.to_nat n)) by lia. rewrite lookup_blocks; [|intros; apply length_fmap|lia|lia].
  rewrite list_lookup_fmap, IH. simpl. do 2 f_equal. lia.
Qed.

(** C22. Inserting [howMuch] labels at position [where] of one dimension gives the cube with
    that dimension enlarged and a table in which the entry of every cell of the old cube is
    the index, in the new one, of the cell with its label moved past the new labels, as long
    as the new cube has fewer than [2^31] cells. *)
Theorem hypercube_insert_remaps dims n : Forall (Z.lt 0) dims -> dims !! which = Some n -> 0 <= where_ -> 0 <= howMuch ->
  Forall (fun m => m + howMuch < 2 ^ 31) dims -> prod (<[which := n + howMuch]> dims) < 2 ^ 31 ->
  exists remap, let target := mkHyperCube (<[which := n + howMuch]> dims) in
    addToDimension (mkHyperCube dims) which where_ howMuch = Ok (target, remap) /\ zlen remap = prod dims /\
    forall x, cell dims x -> exists j k, index (mkHyperCube dims) x = Ok j /\ index target (moved 0 x) = Ok k /\ remap !! Z.to_nat j = Some k.
Proof.
  intros Hd Hn Hw Hh Hs Hb. set (target := <[which := n + howMuch]> dims) in *.
  assert (grown 0 dims = target) as Eg by (rewrite (grown_insert dims n) by (rewrite ?Nat.sub_0_r; lia || done); by rewrite Nat.sub_0_r).
  assert (0 < n) as Hn0 by by apply (Forall_lookup_1 _ _ _ _ Hd Hn).
  assert (n + howMuch < 2 ^ 31) as Hn1 by by apply (Forall_lookup_1 _ _ _ _ Hs Hn).
  assert (prod dims <= prod target) as Hle.
  { subst target. rewrite <- (take_drop_middle dims which n Hn) at 1. rewrite insert_take_drop, !prod_app by by eapply lookup_lt_Some. simpl.
    apply Z.mul_le_mono_nonneg_l; [by apply prod_nonneg, Forall_take|]. apply Z.mul_le_mono_nonneg_r; [by apply prod_nonneg, Forall_drop|lia]. }
  destruct (addLoop_ok dims [] [] (replicate (length dims) 0) [] Hw Hh Hd Hs) as (r & _ & E); [constructor|apply length_replicate|simpl; rewrite Eg; lia|].
  simpl in E. rewrite Eg in E. exists ((fun x => lin target (moved 0 x)) <$> cells dims). split_and!.
  - unfold addToDimension. rewrite cube_count_ok by (done || lia). rewrite (proj2 (Z.ltb_ge _ _)) by (unfold max_size; lia). simpl. rewrite Hn.
    rewrite wrap_small by lia. fold target. unfold mbind, outcome_mbind. by rewrite E.
  - rewrite <- cells_length by done. unfold zlen. by rewrite length_fmap.
  - intros x Hx. exists (lin dims x), (lin target (moved 0 x)). split; [apply cube_index_ok; [done|lia]|]. split.
    + apply cube_index_ok; [|lia]. rewrite <- Eg. by apply moved_cell.
    + by rewrite list_lookup_fmap, cells_lookup.
Qed.
End Insert.

Lemma hypercube_insert_remaps_witness : exists remap, addToDimension (mkHyperCube [2; 3]) 1 1 2 = Ok (mkHyperCube [2; 5], remap) /\ remap = [0; 3; 4; 5; 8; 9].
Proof.
  destruct (hypercube_insert_remaps 1 1 2 [2; 3] 3) as (remap & E & _); [by repeat constructor|done|lia|lia|by repeat constructor|done|].
  exists remap. split; [exact E|]. vm_compute in E. congruence.
Defined.

(** The number of cells is computed in [int]: it is wrong from [2^31] cells on. *)
Lemma hypercube_count_truncates : count (mkHyperCube [65536; 65536]) = 0 /\ count (mkHyperCube [50000; 50000]) = 2 ^ 64 - 1794967296.
Proof. by vm_compute. Qed.
