(* ===== verification/URI.v ===== *)
(** * Uniform resource identifiers

    [filesystem/URI.cc]: parsing of "scheme://user@host:port/path?query#fragment", its
    parts, percent-encoding of the values of a query, and the text of an identifier.  The
    managers that are registered for a scheme are a parameter: a manager says whether its
    identifiers have an authority, a query and a fragment. *)
From stdpp Require Import sorting.
From S2P Require Import Prelude Text Strings Translator MachineInt.

#[local] Set Warnings "-clear-no-such-hyp".

(** A [std::map], in the order of its keys. *)
Abbreviation smap := (list (text * text)).
Fixpoint map_set (k v : text) (l : smap) : smap :=
  match l with
  | [] => [(k, v)]
  | (k', v') :: r => if text_lt k k' then (k, v) :: l else if text_lt k' k then (k', v') :: map_set k v r else (k', v) :: r
  end.
Fixpoint map_find (k : text) (l : smap) : option text :=
  match l with [] => None | (k', v) :: r => if decide (k' = k) then Some v else map_find k r end.
Fixpoint map_erase (k : text) (l : smap) : smap :=
  match l with [] => [] | (k', v) :: r => if decide (k' = k) then r else (k', v) :: map_erase k r end.

Record URI : Type := mkURI {
  name_ : text;
  scheme_ : text;
  user_ : text;
  host_ : text;
  port_ : Z;
  fragment_ : text;
  queryValues_ : smap }.

Record manager : Type := mkManager { has_authority : bool; has_query : bool; has_fragment : bool }.

Module URI.

Definition empty : URI := mkURI [] [] [] [] (-1) [] [].

Definition set_name (n : text) (u : URI) : URI := mkURI n (scheme_ u) (user_ u) (host_ u) (port_ u) (fragment_ u) (queryValues_ u).
Definition set_scheme (s : text) (u : URI) : URI := mkURI (name_ u) s (user_ u) (host_ u) (port_ u) (fragment_ u) (queryValues_ u).
Definition set_user (s : text) (u : URI) : URI := mkURI (name_ u) (scheme_ u) s (host_ u) (port_ u) (fragment_ u) (queryValues_ u).
Definition set_hostport (h : text) (p : Z) (u : URI) : URI := mkURI (name_ u) (scheme_ u) (user_ u) h p (fragment_ u) (queryValues_ u).
Definition set_fragment (f : text) (u : URI) : URI := mkURI (name_ u) (scheme_ u) (user_ u) (host_ u) (port_ u) f (queryValues_ u).
Definition set_values (q : smap) (u : URI) : URI := mkURI (name_ u) (scheme_ u) (user_ u) (host_ u) (port_ u) (fragment_ u) q.

(** *** Percent-encoding *)

Definition isalnum (c : byte) : bool :=
  let n := byte.unsigned c in ((48 <=? n) && (n <=? 57) || (65 <=? n) && (n <=? 90) || (97 <=? n) && (n <=? 122))%Z.
Definition kept (c : byte) : bool := isalnum c || bool_decide (c ∈ str "-_.~").

Definition hex (n : Z) : byte := byte.of_Z (if (n <? 10)%Z then 48 + n else 55 + n).
Fixpoint encode (value : text) : text :=
  match value with
  | [] => []
  | c :: value =>
      (if kept c then [c] else ["%"%byte; hex (byte.unsigned c / 16); hex (byte.unsigned c mod 16)]) ++ encode value
  end.

(** [std::stoul(s, nullptr, 16)]: white space, a sign, a prefix, hexadecimal digits. *)
Definition hex_value (c : byte) : option Z :=
  let n := byte.unsigned c in
  if ((48 <=? n) && (n <=? 57))%Z then Some (n - 48)%Z
  else if ((65 <=? n) && (n <=? 70))%Z then Some (n - 55)%Z
  else if ((97 <=? n) && (n <=? 102))%Z then Some (n - 87)%Z else None.
Fixpoint hex_number (s : text) (acc : option Z) : option Z :=
  match s with
  | c :: s => match hex_value c with Some d => hex_number s (Some (default 0 acc * 16 + d))%Z | None => acc end
  | [] => acc
  end.
Definition stoul16 (s : text) : outcome Z :=
  let s := skip_space s in
  let '(minus, s) := match s with "-"%byte :: s => (true, s) | "+"%byte :: s => (false, s) | _ => (false, s) end in
  let s' := match s with "0"%byte :: x :: d :: _ => if decide (tolower x = "x"%byte) then match hex_value d with Some _ => drop 2 s | None => s end else s | _ => s end in
  match hex_number s' None with
  | Some n => if (n <? 2 ^ 64)%Z then Ok (wrapU 64 (if minus : bool then - n else n)) else Throw StdOutOfRange
  | None => Throw StdInvalidArgument
  end.

(** The loop, at the rest of the string; [i += 2] may pass its end. *)
Fixpoint decode_loop (fuel : nat) (value : text) : outcome text :=
  match fuel, value with
  | _, [] => Ok []
  | O, _ => NoFuel
  | S f, c :: rest =>
      if decide (c = "%"%byte) then
        x ← stoul16 (take 2 rest);
        out ← decode_loop f (drop 2 rest);
        Ok (byte.of_Z x :: out)
      else out ← decode_loop f rest; Ok (c :: out)
  end.
Definition decode (value : text) : outcome text := decode_loop (length value) value.

(** *** Parsing *)

(** [s.find(c, first)] and [s.find_last_of(c, last)] *)
Definition find (c : byte) (s : text) (first : nat) : option nat := (fun i => first + i)%nat <$> find_first_of c (drop first s).
Fixpoint find_last (c : byte) (s : text) : option nat :=
  match s with
  | [] => None
  | x :: s => match find_last c s with Some i => Some (S i) | None => if decide (x = c) then Some O else None end
  end.
Definition find_last_of (c : byte) (s : text) (last : nat) : option nat := find_last c (take (S last) s).

(** [s.substr(first, last - first)]: a length below zero wraps around. *)
Definition between (s : text) (first last : nat) : text :=
  if Nat.leb first last then substr s first (last - first) else drop first s.

Definition acceptable : text := str "abcdefghijklmnopqrstuvwxyz0123456789+-.".
Definition unix : text := str "unix".

Definition parseScheme (uri : text) : text * nat :=
  match find ":"%byte uri 0 with
  | Some schemeEnd =>
      match find_first_not_of acceptable (lower (take schemeEnd uri)) with
      | None => (if Nat.eqb schemeEnd 0 then unix else take schemeEnd uri, S schemeEnd)
      | Some _ => (unix, O)
      end
  | None => (unix, O)
  end.

Definition parse_value (u : outcome smap) (attributeValue : text) : outcome smap :=
  q ← u;
  match tokenize (Tokenizer_string (str "=") false) attributeValue with
  | [k; v] => d ← decode v; Ok (map_set k (encode d) q)
  | _ => Ok q
  end.
Definition parseQueryValues (query : text) (q : smap) : outcome smap :=
  foldl parse_value (Ok q) (tokenize (Tokenizer_string (str "&") false) query).

(** The digits of the port, from position [i]. *)
Fixpoint parse_port (todo : nat) (s : text) (port : Z) (i : nat) : outcome (Z * nat) :=
  match todo, s with
  | S todo, c :: s =>
      if isdigit c then
        p ← (val port * 10 + (byte.unsigned c - 48)%Z)%int;
        parse_port todo s p (S i)
      else Ok (port, i)
  | _, _ => Ok (port, i)
  end.

(** The parts of [parse] on the authority: the new [first] is returned. *)
Definition parse_user (s : text) (first last : nat) (u : URI) : URI * nat :=
  match find_last_of "@"%byte s last with
  | Some userEnd => if Nat.ltb first userEnd then (set_user (substr s first (userEnd - first)) u, S userEnd) else (u, first)
  | None => (u, first)
  end.
Definition parse_host (s : text) (first last : nat) (u : URI) : outcome (URI * nat) :=
  let without_port :=
    let hostEnd := default last (find "/"%byte s first) in
    Ok (set_hostport (between s first hostEnd) (-1) u, hostEnd) in
  match find ":"%byte s first with
  | Some portStart =>
      if Nat.ltb portStart last then
        '(port, i) ← parse_port (last - S portStart) (drop (S portStart) s) 0 (S portStart);
        Ok (set_hostport (substr s first (portStart - first)) port u, i)
      else without_port
  | None => without_port
  end.
Definition parse_authority (s : text) (first last : nat) (u : URI) : outcome (URI * nat) :=
  if bool_decide (1 < last)%nat && bool_decide (s !! first = Some "/"%byte) && bool_decide (s !! S first = Some "/"%byte) then
    let '(u, first) := parse_user s (first + 2)%nat last u in parse_host s first last u
  else Ok (u, first).

(** The parts on the fragment and on the query: the new [last] is returned. *)
Definition parse_fragment (s : text) (u : URI) : URI * nat :=
  match find_last_of "#"%byte s (length s) with
  | Some fragmentStart => (set_fragment (drop (S fragmentStart) s) u, fragmentStart)
  | None => (u, length s)
  end.
Definition parse_query (s : text) (last : nat) (u : URI) : outcome (URI * nat) :=
  match find_last_of "?"%byte s last with
  | Some queryStart =>
      let q := substr s (S queryStart) (last - queryStart - 1) in
      values ← (if decide (q = []) then Ok (queryValues_ u) else parseQueryValues q (queryValues_ u));
      Ok (set_values values u, queryStart)
  | None => Ok (u, last)
  end.

Definition parse (s : text) (first : nat) (authority query fragment : bool) (u : URI) : outcome URI :=
  let '(u, last) := if fragment then parse_fragment s u else (u, length s) in
  '(u, last) ← (if query then parse_query s last u else Ok (u, last));
  '(u, first) ← (if authority then parse_authority s first last u else Ok (u, first));
  Ok (set_name (between s first last) u).

Section Managers.
Context (registered : text -> option manager).

Definition of_string (uri : text) : outcome URI :=
  match uri with
  | [] => Ok empty
  | _ =>
      let '(scheme, first) := parseScheme uri in
      match registered scheme with
      | Some um => parse uri first (has_authority um) (has_query um) (has_fragment um) (set_scheme scheme empty)
      | None => Ok (set_name uri (set_scheme unix empty))
      end
  end.
End Managers.

(** *** Parts *)

Definition hostport (u : URI) : text :=
  if bool_decide (host_ u = []) || (port_ u <? 0)%Z then host_ u
  else if (port_ u =? 0)%Z then host_ u ++ str ":"
  else host_ u ++ str ":" ++ print_long (port_ u).
Definition authority (u : URI) : text :=
  let host := hostport u in
  if bool_decide (host = []) || bool_decide (user_ u = []) then host else user_ u ++ str "@" ++ host.

Definition set_query (attribute value : text) (u : URI) : URI :=
  if decide (value = []) then set_values (map_erase attribute (queryValues_ u)) u
  else set_values (map_set attribute (encode value) (queryValues_ u)) u.
Definition get_query (attribute : text) (u : URI) : outcome text :=
  match map_find attribute (queryValues_ u) with Some v => decode v | None => Ok [] end.
Fixpoint query_loop (l : smap) (query : text) : text :=
  match l with
  | [] => query
  | (k, v) :: l => query_loop l ((if decide (query = []) then query else query ++ str "&") ++ k ++ str "=" ++ v)
  end.
Definition query (u : URI) : text := query_loop (queryValues_ u) [].


End URI.
Import URI.

(** ** Percent-encoding *)







(** ** Searching *)

Definition lacks (c : byte) (s : text) : Prop := Forall (fun x => x <> c) s.


Lemma find_first_of_none c a : lacks c a -> find_first_of c a = None.
Proof. induction 1 as [|x a Hx Ha IH]; simpl; [done|]. by rewrite decide_False, IH. Qed.






(** ** Queries *)










(** ** Printing and parsing *)




























(** *** Texts that are misread *)

Definition all_parts : text -> option manager := fun _ => Some (mkManager true true true).


(** A "@" or a ":" in the path is taken for the end of the user or of the host, and a "/" in
    a query for the end of the host. *)
Lemma uri_separators_in_path :
  of_string all_parts (str "http://host/p@th") = Ok (mkURI [] (str "http") (str "host/p") (str "th") (-1) [] []) /\
  of_string all_parts (str "http://host/a:b") = Ok (mkURI (str "b") (str "http") [] (str "host/a") 0 [] []) /\
  of_string all_parts (str "http://host?x=a/b") = Ok (mkURI (str "/b") (str "http") [] (str "host?x=a") (-1) [] [(str "x", str "a%2Fb")]).
Proof. split_and!; vm_compute; reflexivity. Qed.
