(* ===== verification/Url.v ===== *)
(** * Addresses of the web server

    [web/Url.cc] and the encoding of [web/Html.cc]: the path and the parameters of a request,
    read from its text and printed, with special characters written as [%] and two digits.
    The headers and the content of a request are not modelled. *)
From Stdlib Require Import Sorting.Sorted.
From S2P Require Import Prelude Text Strings.
#[local] Set Warnings "-clear-no-such-hyp".

(** ** The encoding *)

Definition isalnum (c : byte) : bool :=
  let z := byte.unsigned c in (48 <=? z) && (z <=? 57) || (65 <=? z) && (z <=? 90) || (97 <=? z) && (z <=? 122).
(** The characters with a meaning in an address *)
Definition special (c : byte) : bool := bool_decide (c ∈ ["+"; "&"; "/"; "="; "?"]%byte).

Definition hex_char (h : Z) : byte := byte.of_Z (if 10 <=? h then h - 10 + 65 else h + 48).
Definition add_hex_char (c : byte) : text :=
  if special c || isalnum c then [c]
  else ["%"%byte; hex_char (byte.unsigned c / 16); hex_char (byte.unsigned c mod 16)].
Definition addHex (s : text) : text := s ≫= add_hex_char.

(** [char] is signed. *)
Definition hex_value (c : byte) : Z := let h := wrapS 8 (byte.unsigned c) in if 65 <=? h then h - 65 + 10 else h - 48.

(** [s[index + 2]] past the zero at the end is not defined. *)
Fixpoint removeHex (s : text) : outcome text :=
  match s with
  | [] => Ok []
  | c :: s =>
      if decide (c = "+"%byte) then t ← removeHex s; Ok (" "%byte :: t)
      else if decide (c = "%"%byte) then
        match s with
        | [] => Undef
        | [h] => Ok [byte.of_Z (hex_value h * 16 + hex_value "000"%byte)]
        | h :: l :: s => t ← removeHex s; Ok (byte.of_Z (hex_value h * 16 + hex_value l) :: t)
        end
      else t ← removeHex s; Ok (c :: t)
  end.

(** ** The address *)

(** [dict_] is sorted by its keys. *)
Record Url := mkUrl { dict_ : list (text * text); url_ : list text }.

Fixpoint dict_set (k v : text) (l : list (text * text)) : list (text * text) :=
  match l with
  | [] => [(k, v)]
  | e :: l => if decide (e.1 = k) then (k, v) :: l else if text_lt e.1 k then e :: dict_set k v l else (k, v) :: e :: l
  end.
Definition dict_get (k : text) (l : list (text * text)) : option text := (fun x => x.2.2) <$> list_find (fun e => e.1 = k) l.

(** [if (s != "") url_.push_back(Html::removeHex(s));] *)
Definition push (s : text) (u : Url) : outcome Url :=
  if decide (s = []) then Ok u else t ← removeHex s; Ok (mkUrl (dict_ u) (url_ u ++ [t])).
Definition set_param (p s : text) (u : Url) : outcome Url :=
  k ← removeHex p; v ← removeHex s; Ok (mkUrl (dict_set k v (dict_ u)) (url_ u)).

(** [parse(url, param)], with the variables [s] and [p] *)
Fixpoint parse_loop (url : text) (param : bool) (s p : text) (u : Url) : outcome Url :=
  match url with
  | [] => if param then if decide (p = []) then Ok u else set_param p s u else push s u
  | c :: url =>
      if decide (c = "?"%byte) then u ← push s u; parse_loop url true [] p u
      else if decide (c = "="%byte) then if param then parse_loop url param [] s u else parse_loop url param (s ++ [c]) p u
      else if decide (c = "&"%byte) then if param then u ← set_param p s u; parse_loop url param [] [] u else parse_loop url param (s ++ [c]) p u
      else if decide (c = "/"%byte) then if param then parse_loop url param (s ++ [c]) p u else u ← push s u; parse_loop url param [] p u
      else parse_loop url param (s ++ [c]) p u
  end.
Definition parse (url : text) (param : bool) (u : Url) : outcome Url := parse_loop url param [] [] u.
Definition Url_string (url : text) : outcome Url := parse url false (mkUrl [] []).

(** [name()], [print] *)
Definition name (u : Url) : text := url_ u ≫= fun s => "/"%byte :: s.
Fixpoint print_params (c : byte) (l : list (text * text)) : text :=
  match l with [] => [] | e :: l => c :: e.1 ++ "="%byte :: e.2 ++ print_params "&"%byte l end.
Definition print (u : Url) : text := name u ++ print_params "?"%byte (dict_ u).

(** [set], [get], [erase]; [get] inserts an empty value when there is none. *)
Definition set (p s : text) (u : Url) : Url := mkUrl (dict_set p s (dict_ u)) (url_ u).
Definition get (s : text) (u : Url) : text * Url :=
  match dict_get s (dict_ u) with Some v => (v, u) | None => ([], set s [] u) end.
Definition erase (s : text) (u : Url) : Url := mkUrl (filter (fun e => e.1 <> s) (dict_ u)) (url_ u).
(** [operator[](int)] *)
Definition component (n : Z) (u : Url) : outcome text :=
  if n <? 0 then Undef else match url_ u !! Z.to_nat n with Some s => Ok s | None => Undef end.

(** ** The encoding is read back *)

Lemma removeHex_char c t : c <> "+"%byte -> removeHex (add_hex_char c ++ t) = (r ← removeHex t; Ok (c :: r)).
Proof. intros Hc. destruct c; try reflexivity. done. Qed.

Lemma removeHex_addHex s : Forall (fun c => c <> "+"%byte) s -> removeHex (addHex s) = Ok s.
Proof.
  induction 1 as [|c s Hc Hs IH]; [done|]. unfold addHex. cbn [mbind list_bind]. fold (addHex s). rewrite removeHex_char by done.
  change (removeHex (list_bind _ _ add_hex_char s)) with (removeHex (addHex s)). by rewrite IH.
Qed.

Lemma addHex_app s t : addHex (s ++ t) = addHex s ++ addHex t.
Proof. apply bind_app. Qed.
Lemma addHex_cons c s : addHex (c :: s) = add_hex_char c ++ addHex s.
Proof. done. Qed.

(** ** An address is read back *)

Definition ordinary (t : text) : Prop := Forall (fun c => special c = false) t.

Lemma ordinary_no_plus t : ordinary t -> Forall (fun c => c <> "+"%byte) t.
Proof. intros Ht. eapply Forall_impl; [exact Ht|]. intros c Hc ->. done. Qed.
Lemma ordinary_addHex t : ordinary t -> ordinary (addHex t).
Proof.
  induction 1 as [|c t Hc Ht IH]; [constructor|]. rewrite addHex_cons. apply Forall_app. split; [|done]. clear -Hc.
  destruct c; try discriminate Hc; repeat constructor.
Qed.
Lemma addHex_nil t : t <> [] -> addHex t <> [].
Proof. destruct t as [|c t]; [done|]. rewrite addHex_cons. unfold add_hex_char. by destruct (special c || isalnum c). Qed.

Lemma parse_ordinary x rest param p u : ordinary x -> forall s, parse_loop (x ++ rest) param s p u = parse_loop rest param (s ++ x) p u.
Proof.
  induction 1 as [|c x Hc Hx IH]; intros s; [by rewrite app_nil_r|]. cbn [app parse_loop].
  apply bool_decide_eq_false in Hc. rewrite !decide_False by (intros ->; apply Hc; set_solver). rewrite IH. by rewrite <- app_assoc.
Qed.

Lemma push_addHex t u : ordinary t -> t <> [] -> push (addHex t) u = Ok (mkUrl (dict_ u) (url_ u ++ [t])).
Proof. intros Ht Hn. unfold push. rewrite decide_False by by apply addHex_nil. by rewrite removeHex_addHex by by apply ordinary_no_plus. Qed.

Lemma set_param_addHex k v u : ordinary k -> ordinary v -> set_param (addHex k) (addHex v) u = Ok (mkUrl (dict_set k v (dict_ u)) (url_ u)).
Proof. intros Hk Hv. unfold set_param. by rewrite !removeHex_addHex by by apply ordinary_no_plus. Qed.

(** The path, up to the end or to the parameters *)
Lemma parse_path l u0 : Forall (fun t => ordinary t /\ t <> []) l -> forall s u rest, push s u = Ok u0 ->
  exists u1, u1 = mkUrl (dict_ u0) (url_ u0 ++ l) /\
  parse_loop (addHex (l ≫= fun s => "/"%byte :: s) ++ "?"%byte :: rest) false s [] u = parse_loop rest true [] [] u1 /\
  parse_loop (addHex (l ≫= fun s => "/"%byte :: s)) false s [] u = Ok u1.
Proof.
  intros Hl. revert u0. induction Hl as [|t l [Ht Hn] Hl IH]; intros u0 s u rest Hp.
  - exists (mkUrl (dict_ u0) (url_ u0 ++ [])). split; [done|]. rewrite app_nil_r. cbn. rewrite Hp. by destruct u0.
  - destruct (IH (mkUrl (dict_ u0) (url_ u0 ++ [t])) (addHex t) u0 rest (push_addHex t u0 Ht Hn)) as (u1 & -> & E1 & E2). eexists. split; [reflexivity|].
    cbn [mbind list_bind]. change (list_bind _ _ (fun s : text => "/"%byte :: s) l) with (l ≫= fun s : text => "/"%byte :: s).
    rewrite addHex_app, addHex_cons. change (add_hex_char "/"%byte) with ["/"%byte]. cbn [app]. simpl dict_ in *. simpl url_ in *. rewrite <- app_assoc in E1, E2.
    split; cbn [parse_loop]; rewrite (decide_False (P := "/"%byte = "?"%byte)), (decide_False (P := "/"%byte = "="%byte)), (decide_False (P := "/"%byte = "&"%byte)), (decide_True (P := "/"%byte = "/"%byte)) by done;
      rewrite Hp; cbn [mbind outcome_mbind outcome_bind]; rewrite <- ?app_assoc; rewrite parse_ordinary by (by apply ordinary_addHex); [exact E1|exact E2].
Qed.

(** The parameters, after the sign that begins them *)
Definition params_ok (l : list (text * text)) : Prop := Forall (fun e => ordinary e.1 /\ ordinary e.2 /\ e.1 <> []) l.

Lemma drop_special c x : special c = true -> drop 1 (addHex (c :: x)) = addHex x.
Proof. intros Hc. rewrite addHex_cons. unfold add_hex_char. by rewrite Hc. Qed.

Lemma parse_params l : forall c e u, special c = true -> params_ok (e :: l) ->
  parse_loop (drop 1 (addHex (print_params c (e :: l)))) true [] [] u = Ok (mkUrl (foldl (fun d x => dict_set x.1 x.2 d) (dict_ u) (e :: l)) (url_ u)).
Proof.
  induction l as [|e' l IH]; intros c e u Ec [(Hk & Hv & Hn) Hl]%Forall_cons.
  all: cbn [print_params]; rewrite drop_special by done; rewrite addHex_app, parse_ordinary by (by apply ordinary_addHex).
  all: rewrite addHex_cons; change (add_hex_char "="%byte) with ["="%byte]; cbn [app parse_loop].
  all: rewrite (decide_False (P := "="%byte = "?"%byte)), (decide_True (P := "="%byte = "="%byte)) by done.
  all: rewrite addHex_app, parse_ordinary by (by apply ordinary_addHex); cbn [app].
  - cbn [print_params addHex mbind list_bind parse_loop]. rewrite decide_False by by apply addHex_nil. by rewrite set_param_addHex.
  - specialize (IH "&"%byte e' (mkUrl (dict_set e.1 e.2 (dict_ u)) (url_ u)) eq_refl Hl). simpl dict_ in IH. simpl url_ in IH.
    assert (Ed : addHex (print_params "&"%byte (e' :: l)) = "&"%byte :: drop 1 (addHex (print_params "&"%byte (e' :: l)))) by done.
    change ("&"%byte :: e'.1 ++ "="%byte :: e'.2 ++ print_params "&"%byte l) with (print_params "&"%byte (e' :: l)). rewrite Ed. cbn [parse_loop]. rewrite (decide_False (P := "&"%byte = "?"%byte)), (decide_False (P := "&"%byte = "="%byte)), (decide_True (P := "&"%byte = "&"%byte)) by done.
    rewrite set_param_addHex by done. cbn [mbind outcome_mbind outcome_bind]. exact IH.
Qed.

Lemma text_lt_irrefl t : text_lt t t = false.
Proof. induction t as [|c t IH]; [done|]. simpl. rewrite Z.ltb_irrefl, IH. by rewrite andb_false_r. Qed.

Lemma dict_set_last k v l : Forall (fun e => text_lt e.1 k = true) l -> dict_set k v l = l ++ [(k, v)].
Proof.
  induction 1 as [|e l He Hl IH]; [done|]. simpl. rewrite decide_False by (intros E; rewrite E, text_lt_irrefl in He; done). by rewrite He, IH.
Qed.

Lemma dict_rebuilt l : StronglySorted (fun a b => text_lt a.1 b.1 = true) l -> foldl (fun d x => dict_set x.1 x.2 d) [] l = l.
Proof.
  intros Hs. assert (H : forall d, Forall (fun a => Forall (fun b => text_lt a.1 b.1 = true) l) d -> foldl (fun d x => dict_set x.1 x.2 d) d l = d ++ l).
  { induction Hs as [|e l Hs IH He]; intros d Hd; simpl; [by rewrite app_nil_r|]. rewrite dict_set_last.
    - rewrite IH; [by rewrite <- app_assoc; destruct e|]. apply Forall_app. split; [eapply Forall_impl; [exact Hd|]; intros a Ha; by apply Forall_cons in Ha as [_ ?]|]. by apply Forall_singleton.
    - eapply Forall_impl; [exact Hd|]. intros a Ha. by apply Forall_cons in Ha as [? _]. }
  apply (H []). constructor.
Qed.

(** An address whose components, names and values are free of the characters with a meaning,
    with components and names that are not empty, is read back from its encoded text. *)
Theorem url_roundtrip u : Forall (fun t => ordinary t /\ t <> []) (url_ u) -> params_ok (dict_ u) -> StronglySorted (fun a b => text_lt a.1 b.1 = true) (dict_ u) ->
  Url_string (addHex (print u)) = Ok u.
Proof.
  intros Hl Hp Hs. destruct u as [d l]. simpl in *. unfold Url_string, parse, print, name. simpl. rewrite addHex_app.
  destruct (parse_path l (mkUrl [] []) Hl [] (mkUrl [] []) (drop 1 (addHex (print_params "?"%byte d))) eq_refl) as (u1 & -> & E1 & E2). simpl in E1, E2.
  destruct d as [|e d]; [cbn [print_params addHex mbind list_bind]; rewrite app_nil_r; exact E2|].
  assert (Ed : addHex (print_params "?"%byte (e :: d)) = "?"%byte :: drop 1 (addHex (print_params "?"%byte (e :: d)))) by done.
  rewrite Ed, E1, parse_params by done. simpl dict_. simpl url_. by rewrite dict_rebuilt.
Qed.

(** A plus is not encoded, and read as a space; digits in lower case are read wrongly. *)
Example url_plus : removeHex (addHex (str "a+b")) = Ok (str "a b").
Proof. by vm_compute. Qed.
Example url_lower_hex : removeHex (str "%2f") = Ok (str "O") /\ removeHex (str "%2F") = Ok (str "/") /\ removeHex (str "100%") = Undef.
Proof. split_and!; by vm_compute. Qed.
