(* ===== verification/HEALPix.v ===== *)
(** * HEALPix numbering

    [geo/order/HEALPix.cc]: the two numberings of the pixels of a HEALPix grid, by
    rings of latitude and by nested squares, and [geo/grid/reduced/HEALPix.cc]: the
    sizes of the rings.  Arithmetic is that of [int]; the square root and the
    logarithm, taken in [double] on small integers, are exact. *)
From S2P Require Import Prelude Text MachineInt.

(** ** Bits *)

Module CodecFijNest.
Definition MASKS : list Z :=
  [0x00000000ffffffff; 0x0000ffff0000ffff; 0x00ff00ff00ff00ff; 0x0f0f0f0f0f0f0f0f; 0x3333333333333333; 0x5555555555555555].
Definition masked (i : nat) (b : Z) : Z := Z.land b (nth i MASKS 0).

Definition nest_encode_bits (n : Z) : Z :=
  let b := masked 0 (wrapU 64 n) in
  let b := masked 1 (Z.lxor b (wrapU 64 (Z.shiftl b 16))) in
  let b := masked 2 (Z.lxor b (wrapU 64 (Z.shiftl b 8))) in
  let b := masked 3 (Z.lxor b (wrapU 64 (Z.shiftl b 4))) in
  let b := masked 4 (Z.lxor b (wrapU 64 (Z.shiftl b 2))) in
  let b := masked 5 (Z.lxor b (wrapU 64 (Z.shiftl b 1))) in
  wrapS 32 b.

Definition nest_decode_bits (n : Z) : Z :=
  let b := masked 5 (wrapU 64 n) in
  let b := masked 4 (Z.lxor b (Z.shiftr b 1)) in
  let b := masked 3 (Z.lxor b (Z.shiftr b 2)) in
  let b := masked 2 (Z.lxor b (Z.shiftr b 4)) in
  let b := masked 1 (Z.lxor b (Z.shiftr b 8)) in
  let b := masked 0 (Z.lxor b (Z.shiftr b 16)) in
  wrapS 32 b.

Definition nest_to_fij (n k : Z) : outcome (Z * Z * Z) :=
  ASSERT (0 <=? n) ;;
  int32 f := n >> (2 * k) in
  int32 m := (1 << (2 * k)) - 1 in
  let n := Z.land n m in
  let i := nest_decode_bits n in
  int32 h := n >> 1 in
  let j := nest_decode_bits h in
  Ok (f, i, j).

Definition fij_to_nest (f i j k : Z) : outcome Z :=
  ((f << (2 * k)) + nest_encode_bits i + (nest_encode_bits j << 1))%int.
End CodecFijNest.

(** ** Numbers *)

(** [static_cast<int>(std::sqrt(n + 0.5))], which is the integer square root. *)
Definition sqrt (n : Z) : Z := Z.sqrt n.

Definition div_03 (a b : Z) : outcome Z :=
  int32 b2 := b << 1 in
  let t := if b2 <=? a then 1 else 0 in
  int32 a := a - t * (b << 1) in
  ((t << 1) + (if b <=? a then 1 else 0))%int.

Definition is_power_of_2 (n : Z) : bool :=
  zlen (filter (fun i => Z.testbit (wrapU 32 n) i = true) (seqZ 0 32)) =? 1.

Definition pll_ : list Z := [1; 3; 5; 7; 0; 2; 4; 6; 1; 3; 5; 7].
Definition pll (f : Z) : outcome Z :=
  if f <? 0 then Undef else match pll_ !! Z.to_nat f with Some x => Ok x | None => Undef end.

(** [grid::reduced::HEALPix::size_from_nside] *)
Definition size_from_nside (Nside : Z) : Z := wrapU 64 (12 * Nside * Nside).

(** [grid::reduced::HEALPix]: the number of rings, the pixels of a ring (one call for
    a ring of the south cap, through its mirror image), and the inverse of the size. *)
Definition ny (Nside : Z) : Z := wrapU 64 (4 * Nside - 1).
Fixpoint nx (fuel : nat) (Nside j : Z) : outcome Z :=
  match fuel with
  | O => NoFuel
  | S fuel =>
      ASSERT (j <? ny Nside) ;;
      if j <? Nside then Ok (wrapU 64 (4 * (j + 1)))
      else if j <? wrapU 64 (3 * Nside) then Ok (wrapU 64 (4 * Nside))
      else nx fuel Nside (wrapU 64 (ny Nside - 1 - j))
  end.
Definition nside_from_size (size : Z) : outcome Z :=
  let Nside := Z.sqrt (size / 12) in
  if size =? size_from_nside Nside then Ok Nside else Throw GridError.

(** ** The two numberings *)

Record Renumber : Type := mkRenumber { Nside_ : Z; Npix_ : Z; Ncap_ : Z; k_ : Z }.

Definition newRenumber (Nside : Z) : outcome Renumber :=
  let Npix := wrapS 32 (size_from_nside (wrapU 64 Nside)) in
  int32 Ncap := (Nside * (Nside - 1)) << 1 in
  int32 k := if 0 <? Nside then Ok (Z.log2 Nside) else Undef in
  ASSERT (is_power_of_2 Nside) ;;
  ASSERT (0 <=? k) ;;
  Ok (mkRenumber Nside Npix Ncap k).

Section Renumber.
Variable R : Renumber.

Definition to_nest (f ring Nring phi shift : Z) : outcome Z :=
  int32 r := ((2 + (f >> 2)) << k_ R) - ring - 1 in
  int32 pl := pll f in
  int32 p := 2 * phi - pl * Nring - shift - 1 in
  int32 n2 := 2 * Nside_ R in
  int32 p := if n2 <=? p then p - 8 * Nside_ R else Ok p in
  int32 i := (r + p) >> 1 in
  int32 j := (r - p) >> 1 in
  ASSERT ((f <? 12) && (i <? Nside_ R) && (j <? Nside_ R)) ;;
  CodecFijNest.fij_to_nest f i j (k_ R).

Definition ring_to_nest (_r : Z) : outcome Z :=
  if Nside_ R =? 1 then Ok _r
  else
    int32 south := Npix_ R - Ncap_ R in
    if _r <? Ncap_ R then
      int32 q := 2 * _r + 1 in
      int32 Nring := (1 + sqrt q) >> 1 in
      int32 phi := 1 + _r - 2 * Nring * (Nring - 1) in
      let r := Nring in
      int32 a := phi - 1 in
      int32 f := div_03 a Nring in
      to_nest f r Nring phi 0
    else if south <=? _r then
      int32 q := 2 * Npix_ R - 2 * _r - 1 in
      int32 Nring := (1 + sqrt q) >> 1 in
      int32 phi := 1 + _r + 2 * Nring * (Nring - 1) + 4 * Nring - Npix_ R in
      int32 ring := 4 * Nside_ R - Nring in
      int32 a := phi - 1 in
      int32 d := div_03 a Nring in
      int32 f := d + 8 in
      to_nest f ring Nring phi 0
    else
      int32 ip := _r - Ncap_ R in
      int32 k2 := k_ R + 2 in
      int32 tmp := ip >> k2 in
      let Nring := Nside_ R in
      int32 phi := ip - tmp * 4 * Nside_ R + 1 in
      int32 ring := tmp + Nside_ R in
      int32 ifm := 1 + ((phi - 1 - ((1 + tmp) >> 1)) >> k_ R) in
      int32 ifp := 1 + ((phi - 1 - ((1 - tmp + 2 * Nside_ R) >> 1)) >> k_ R) in
      int32 f := if ifp =? ifm then Ok (Z.lor ifp 4) else if ifp <? ifm then Ok ifp else ifm + 8 in
      to_nest f ring Nring phi (Z.land ring 1).

Definition to_ring_local (f i j Nring shift : Z) : outcome Z :=
  int32 Nring := Nring >> 2 in
  int32 pl := pll f in
  int32 r := (pl * Nring + i - j + 1 + shift) / 2 - 1 in
  int32 n4 := 4 * Nring in
  ASSERT (r <? n4) ;;
  if r <? 0 then (r + 4 * Nside_ R)%int else Ok r.

Definition nest_to_ring (n : Z) : outcome Z :=
  '(f, i, j) ← CodecFijNest.nest_to_fij n (k_ R);
  ASSERT ((f <? 12) && (i <? Nside_ R) && (j <? Nside_ R)) ;;
  int32 ring := ((f >> 2) + 2) * Nside_ R - i - j - 1 in
  int32 n3 := 3 * Nside_ R in
  if ring <? Nside_ R then
    int32 Nring := 4 * ring in
    int32 r0 := 2 * ring * (ring - 1) in
    (r0 + to_ring_local f i j Nring 0)%int
  else if ring <? n3 then
    int32 Nring := 4 * Nside_ R in
    int32 r0 := Ncap_ R + (ring - Nside_ R) * Nring in
    int32 d := ring - Nside_ R in
    let shift := Z.land d 1 in
    (r0 + to_ring_local f i j Nring shift)%int
  else
    int32 N := 4 * Nside_ R - ring in
    int32 Nring := 4 * N in
    int32 r0 := Npix_ R - 2 * N * (N + 1) in
    (r0 + to_ring_local f i j Nring 0)%int.
End Renumber.

(** [reorder], from the order of the object to another one. *)
Definition RING : text := str "ring".
Definition NESTED : text := str "nested".

Definition newHEALPix (order : text) : outcome text :=
  if decide (order <> RING /\ order <> NESTED) then Throw OrderError else Ok order.

Fixpoint renumber_all (f : Z -> outcome Z) (l : list Z) : outcome (list Z) :=
  match l with
  | [] => Ok []
  | i :: l => r ← f i; rs ← renumber_all f l; Ok (wrapU 64 r :: rs)
  end.

Definition reorder (order_ to : text) (Nside : Z) : outcome (list Z) :=
  ASSERT (bool_decide (to = NESTED \/ to = RING)) ;;
  let size := wrapS 32 (size_from_nside Nside) in
  if size <? 0 then Throw StdLengthError
  else if decide (order_ = to) then Ok (seqZ 0 size)
  else
    R ← newRenumber (wrapS 32 Nside);
    renumber_all (if decide (order_ = NESTED) then nest_to_ring R else ring_to_nest R) (seqZ 0 size).

(** ** Interleaved bits

    [spread k i] has the [k] low bits of [i] at the even places. *)
Fixpoint spread (k : nat) (i : Z) : Z :=
  match k with O => 0 | S k => i mod 2 + 4 * spread k (i / 2) end.

(** The masks of the even bits. *)
Fixpoint evens (k : nat) : Z := match k with O => 0 | S k => 1 + 4 * evens k end.

#[local] Ltac Zify.zify_post_hook ::= Z.to_euclidean_division_equations.

Lemma spread_bounds k : forall i, 0 <= spread k i /\ 3 * spread k i < 4 ^ Z.of_nat k.
Proof.
  induction k as [|k IH]; intros i; [simpl; lia|]. cbn [spread]. destruct (IH (i / 2)).
  rewrite Nat2Z.inj_succ, Z.pow_succ_r by lia. lia.
Qed.

Lemma spread_more k k' : forall i, 0 <= i < 2 ^ Z.of_nat k -> (k <= k')%nat -> spread k' i = spread k i.
Proof.
  revert k'. induction k as [|k IH]; intros k' i Hi Hk.
  - assert (i = 0) as -> by (simpl in Hi; lia). clear. induction k' as [|k' IH]; [done|]. cbn [spread]. change (0 / 2) with 0. rewrite IH. done.
  - destruct k' as [|k']; [lia|]. cbn [spread]. rewrite Nat2Z.inj_succ, Z.pow_succ_r in Hi by lia. rewrite (IH k'); [done|lia|lia].
Qed.

Lemma land_step a b c d : Z.land (2 * a + Z.b2z b) (2 * c + Z.b2z d) = 2 * Z.land a c + Z.b2z (b && d).
Proof.
  apply Z.bits_inj'. intros n Hn. rewrite Z.land_spec. destruct (Z.eq_dec n 0) as [->|].
  - by rewrite !Z.testbit_0_r.
  - replace n with (Z.succ (n - 1)) by lia. rewrite !Z.testbit_succ_r by lia. by rewrite Z.land_spec.
Qed.

Lemma land_even_bits k n : (k <= n)%nat -> forall i j, Z.land (spread k i + 2 * spread k j) (evens n) = spread k i.
Proof.
  revert n. induction k as [|k IH]; intros n Hn i j; [done|]. destruct n as [|n]; [lia|]. cbn [spread evens].
  assert (Hb : forall x, exists b, x mod 2 = Z.b2z b).
  { intros x. exists (Z.odd x). by rewrite Zmod_odd; destruct (Z.odd x). }
  destruct (Hb i) as (bi & ->), (Hb j) as (bj & ->).
  replace (Z.b2z bi + 4 * spread k (i / 2) + 2 * (Z.b2z bj + 4 * spread k (j / 2)))
    with (2 * (2 * (spread k (i / 2) + 2 * spread k (j / 2)) + Z.b2z bj) + Z.b2z bi) by lia.
  replace (1 + 4 * evens n) with (2 * (2 * evens n + Z.b2z false) + Z.b2z true) by (simpl; lia).
  rewrite !land_step, IH by lia. rewrite andb_false_r, andb_true_r. simpl. lia.
Qed.

(** Every number of [2 k] bits is made of two numbers of [k] bits. *)
Lemma unspread k : forall m, 0 <= m < 4 ^ Z.of_nat k -> exists i j,
  0 <= i < 2 ^ Z.of_nat k /\ 0 <= j < 2 ^ Z.of_nat k /\ m = spread k i + 2 * spread k j.
Proof.
  induction k as [|k IH]; intros m Hm; [exists 0, 0; simpl in *; lia|].
  rewrite Nat2Z.inj_succ, Z.pow_succ_r in Hm by lia. destruct (IH (m / 4)) as (i & j & Hi & Hj & E).
  { set (P := 4 ^ Z.of_nat k) in *. clearbody P. lia. }
  exists (2 * i + m mod 2), (2 * j + (m / 2) mod 2). rewrite Nat2Z.inj_succ, Z.pow_succ_r by lia. cbn [spread].
  replace ((2 * i + m mod 2) / 2) with i by lia. replace ((2 * j + (m / 2) mod 2) / 2) with j by lia.
  split_and!; lia.
Qed.

Module Codec.
Import CodecFijNest.

(** The code on the numbers of 13 bits. *)
Lemma encode_spread i : 0 <= i < 8192 -> nest_encode_bits i = spread 13 i.
Proof.
  intros Hi. assert (H : forallb (fun i => nest_encode_bits i =? spread 13 i) (seqZ 0 8192) = true) by (vm_compute; reflexivity).
  apply Z.eqb_eq. rewrite forallb_forall in H. apply H. apply list_elem_of_In, elem_of_seqZ. lia.
Qed.

Lemma decode_spread i : 0 <= i < 8192 -> nest_decode_bits (spread 13 i) = i.
Proof.
  intros Hi. assert (H : forallb (fun i => nest_decode_bits (spread 13 i) =? i) (seqZ 0 8192) = true) by (vm_compute; reflexivity).
  apply Z.eqb_eq. rewrite forallb_forall in H. apply H. apply list_elem_of_In, elem_of_seqZ. lia.
Qed.

Lemma decode_masked n : 0 <= n < 2 ^ 64 -> nest_decode_bits n = nest_decode_bits (Z.land n (evens 32)).
Proof.
  intros Hn. unfold nest_decode_bits, masked. cbn [nth MASKS]. change (0x5555555555555555) with (evens 32).
  assert (Hl : wrapU 64 (Z.land n (evens 32)) = Z.land n (evens 32)).
  { unfold wrapU. rewrite <- Z.land_ones, <- Z.land_assoc by lia. done. }
  rewrite Hl; unfold wrapU; rewrite (Z.mod_small n) by lia. by rewrite <- Z.land_assoc, Z.land_diag.
Qed.

Lemma decode_interleaved i j : 0 <= i < 8192 -> nest_decode_bits (spread 13 i + 2 * spread 13 j) = i.
Proof.
  intros Hi. rewrite decode_masked.
  - rewrite land_even_bits by lia. by apply decode_spread.
  - destruct (spread_bounds 13 i), (spread_bounds 13 j). change (4 ^ Z.of_nat 13) with 67108864 in *. lia.
Qed.

Section Codec.
Variable k : Z.
Hypothesis Hk : 0 <= k <= 13.

Lemma pow_facts : 1 <= 2 ^ k <= 8192 /\ 2 ^ (2 * k) = 2 ^ k * 2 ^ k.
Proof using Hk.
  split; [|rewrite <- Z.pow_add_r by lia; f_equal; lia]. split; [apply (Z.pow_le_mono_r 2 0 k); lia|].
  change 8192 with (2 ^ 13). apply Z.pow_le_mono_r; lia.
Qed.

(** The nested number of a pixel. *)
Definition nested (f i j : Z) : Z := f * 2 ^ (2 * k) + spread 13 i + 2 * spread 13 j.

Lemma spread_k i : 0 <= i < 2 ^ k -> 3 * spread 13 i < 2 ^ (2 * k).
Proof using Hk.
  intros Hi. rewrite (spread_more (Z.to_nat k) 13 i); [|by rewrite Z2Nat.id by lia|lia].
  destruct (spread_bounds (Z.to_nat k) i) as [_ H]. rewrite Z2Nat.id in H by lia. by rewrite Z.pow_mul_r by lia.
Qed.

Lemma nested_surj n : 0 <= n < 12 * 2 ^ (2 * k) -> exists f i j,
  0 <= f < 12 /\ 0 <= i < 2 ^ k /\ 0 <= j < 2 ^ k /\ n = nested f i j.
Proof using Hk.
  intros Hn. assert (HP : 0 < 2 ^ (2 * k)) by (apply Z.pow_pos_nonneg; lia).
  destruct (unspread (Z.to_nat k) (n mod 2 ^ (2 * k))) as (i & j & Hi & Hj & E); rewrite Z2Nat.id in * by lia.
  { change 4 with (2 ^ 2); rewrite <- Z.pow_mul_r by lia. by apply Z.mod_pos_bound. }
  exists (n / 2 ^ (2 * k)), i, j. split_and!; try lia.
  - apply Z.div_pos; lia.
  - apply Z.div_lt_upper_bound; lia.
  - unfold nested. rewrite !(spread_more (Z.to_nat k) 13) by (rewrite ?Z2Nat.id by lia; lia).
    rewrite (Z.div_mod n (2 ^ (2 * k))) at 1 by lia. lia.
Qed.

Lemma fij_to_nest_ok f i j : 0 <= f < 12 -> 0 <= i < 2 ^ k -> 0 <= j < 2 ^ k -> fij_to_nest f i j k = Ok (nested f i j).
Proof using Hk.
  intros Hf Hi Hj. destruct pow_facts as [HN HP]. pose proof (spread_k i Hi). pose proof (spread_k j Hj).
  destruct (spread_bounds 13 i) as [? _], (spread_bounds 13 j) as [? _].
  unfold fij_to_nest. rewrite !encode_spread by lia. assert (HP' : 2 ^ (2 * k) <= 67108864) by nia.
  assert (Es : Z.shiftl f (2 * k) = f * 2 ^ (2 * k)) by (apply Z.shiftl_mul_pow2; lia).
  assert (Ej : Z.shiftl (spread 13 j) 1 = 2 * spread 13 j) by (rewrite Z.shiftl_mul_pow2 by lia; lia).
  rewrite (op2_ok 32 Z.mul 2 k) by (change (2 ^ (32 - 1)) with 2147483648; lia).
  assert (HfP : f * 2 ^ (2 * k) <= 11 * 67108864) by nia.
  rewrite !int_shl_ok by (rewrite ?Es, ?Ej; change (2 ^ (32 - 1)) with 2147483648; lia). rewrite Es, Ej.
  rewrite !op2_ok by (change (2 ^ (32 - 1)) with 2147483648; lia). done.
Qed.

Lemma nest_to_fij_ok f i j : 0 <= f < 12 -> 0 <= i < 2 ^ k -> 0 <= j < 2 ^ k -> nest_to_fij (nested f i j) k = Ok (f, i, j).
Proof using Hk.
  intros Hf Hi Hj. destruct pow_facts as [HN HP]. pose proof (spread_k i Hi). pose proof (spread_k j Hj).
  destruct (spread_bounds 13 i) as [? _], (spread_bounds 13 j) as [? _].
  set (m := spread 13 i + 2 * spread 13 j). assert (Hm : 0 <= m < 2 ^ (2 * k)) by lia.
  assert (En : nested f i j = f * 2 ^ (2 * k) + m) by (unfold nested; lia).
  assert (Ef : Z.shiftr (nested f i j) (2 * k) = f).
  { rewrite Z.shiftr_div_pow2 by lia. symmetry. apply Z.div_unique with m; lia. }
  assert (Em : Z.land (nested f i j) (2 ^ (2 * k) - 1) = m).
  { replace (2 ^ (2 * k) - 1) with (Z.ones (2 * k)) by (rewrite Z.ones_equiv; lia). rewrite Z.land_ones by lia. symmetry. apply Z.mod_unique with f; lia. }
  unfold nest_to_fij. rewrite (proj2 (Z.leb_le 0 _)) by lia. cbn [ASSERT]. unfold mbind, outcome_mbind. cbn [outcome_bind].
  rewrite (op2_ok 32 Z.mul 2 k) by (change (2 ^ (32 - 1)) with 2147483648; lia). rewrite int_shr_ok, val_bind, Ef by lia.
  rewrite int_shl_ok by (rewrite ?Z.shiftl_1_l; change (2 ^ (32 - 1)) with 2147483648; nia). rewrite Z.shiftl_1_l.
  rewrite op2_ok, val_bind, Em by (change (2 ^ (32 - 1)) with 2147483648; nia).
  rewrite int_shr_ok, val_bind by lia. subst m. rewrite decode_interleaved by lia.
  replace (Z.shiftr (spread 13 i + 2 * spread 13 j) 1) with (spread 13 j + 2 * spread 13 (i / 2)).
  - by rewrite decode_interleaved by lia.
  - rewrite Z.shiftr_div_pow2 by lia. change (2 ^ 1) with 2.
    change (spread 13 i) with (i mod 2 + 4 * spread 12 (i / 2)). rewrite (spread_more 12 13 (i / 2)); [lia|change (2 ^ Z.of_nat 12) with 4096; lia|lia].
Qed.
End Codec.
End Codec.
