(* ===== verification/HEALPixRings.v ===== *)
(** * HEALPix numbering: the rings

    The ring number of each pixel, and that [ring_to_nest] and [nest_to_ring] are
    inverse to each other on every grid with a power of two up to 8192 of pixels
    along the side of a face, without overflow. *)
From S2P Require Import Prelude Text MachineInt HEALPix.
#[local] Ltac Zify.zify_post_hook ::= Z.to_euclidean_division_equations.

Lemma pll_ok d : 0 <= d < 4 -> pll d = Ok (2 * d + 1) /\ pll (d + 4) = Ok (2 * d) /\ pll (d + 8) = Ok (2 * d + 1).
Proof. intros Hd. assert (d = 0 \/ d = 1 \/ d = 2 \/ d = 3) as Hc by lia. destruct_or! Hc; subst d; done. Qed.

(** The ring of a pixel of a cap. *)
Lemma ring_root x q : 1 <= x <= 8192 -> (2 * x - 1) * (2 * x - 1) <= q < (2 * x + 1) * (2 * x + 1) ->
  ((1 + sqrt q) >> 1)%int = val x.
Proof.
  intros Hx Hq. unfold sqrt. pose proof (Z.sqrt_spec q ltac:(nia)) as [H1 H2]. pose proof (Z.sqrt_nonneg q).
  assert (2 * x - 1 <= Z.sqrt q < 2 * x + 1) by nia. set (y := Z.sqrt q) in *. clearbody y. clear H1 H2 Hq.
  rewrite op2_ok by (change (2 ^ (32 - 1)) with 2147483648; lia). rewrite int_shr_ok by lia. f_equal.
  rewrite Z.shiftr_div_pow2 by lia. change (2 ^ 1) with 2. lia.
Qed.

Lemma half_ok a : shr 32 (val a) (val 1) = val (a / 2).
Proof. rewrite int_shr_ok by lia. by rewrite Z.shiftr_div_pow2 by lia. Qed.

Section Rings.
Variables k N : Z.
Hypothesis Hk : 1 <= k <= 13.
Hypothesis HN : N = 2 ^ k.
#[local] Set Default Proof Using "Type*".

Definition R_ : Renumber := mkRenumber N (12 * N * N) (2 * N * (N - 1)) k.

Lemma N_facts : 2 <= N <= 8192 /\ N mod 2 = 0 /\ 4 <= N * N <= 67108864 /\ 2 ^ (2 * k) = N * N.
Proof.
  rewrite HN. destruct (Codec.pow_facts k ltac:(lia)) as [H1 H2]. assert (E : 2 ^ k = 2 * 2 ^ (k - 1)).
  { rewrite <- Z.pow_succ_r by lia. f_equal. lia. }
  assert (1 <= 2 ^ (k - 1)) by (apply (Z.pow_le_mono_r 2 0); lia). split_and!; try lia; try nia.
Qed.

#[local] Ltac bound := change (2 ^ (32 - 1)) with 2147483648; lia.
#[local] Ltac eval_expr := repeat first [rewrite op2_ok by bound | rewrite int_shr_ok by lia]; reflexivity.
(** Run the statements whose expressions are known not to overflow. *)
#[local] Ltac ints := repeat match goal with
  | |- outcome_bind ?f ?e = _ =>
      let H := fresh in eassert (H : e = val _) by eval_expr;
      refine (eq_trans (f_equal (outcome_bind f) H) _); clear H; rewrite val_bind; cbv beta
  end.

Lemma shift_k x : Z.shiftr x k = x / N.
Proof. rewrite Z.shiftr_div_pow2 by lia. by rewrite HN. Qed.

Lemma to_nest_ok f ring Nring phi shift pl i j :
  0 <= f < 12 -> 0 <= i < N -> 0 <= j < N -> pll f = Ok pl -> 0 <= pl <= 7 -> 0 <= Nring <= N -> 1 <= phi <= 4 * N ->
  0 <= shift <= 1 -> ring = (2 + f / 4) * N - i - j - 1 ->
  (let p := 2 * phi - pl * Nring - shift - 1 in p = i - j \/ p = i - j + 8 * N) ->
  to_nest R_ f ring Nring phi shift = Ok (Codec.nested k f i j).
Proof.
  intros Hf Hi Hj Hpl Hpl7 HNr Hphi Hsh Hring Hp. destruct N_facts as (HN2 & _ & HNN & _). unfold to_nest. cbn [k_ Nside_ R_].
  assert (E2 : Z.shiftr f 2 = f / 4) by (rewrite Z.shiftr_div_pow2 by lia; done).
  assert (Es : Z.shiftl (2 + f / 4) k = (2 + f / 4) * N) by (rewrite HN; apply Z.shiftl_mul_pow2; lia).
  assert (Hq : 0 <= f / 4 <= 2) by lia. assert (HsN : 0 <= (2 + f / 4) * N <= 4 * N) by (set (q := f / 4) in *; clearbody q; nia).
  rewrite int_shr_ok, E2, (op2_ok 32 Z.add 2 (f / 4)) by (lia || bound). rewrite int_shl_ok by (rewrite ?Es; lia || bound). rewrite Es. set (A := (2 + f / 4) * N) in *. clearbody A.
  assert (HpN : 0 <= pl * Nring <= 7 * N) by nia.
  ints. rewrite Hpl. cbn [outcome_bind]. ints.
  assert (Hpp : (if 2 * N <=? 2 * phi - pl * Nring - shift - 1 then op2 32 Z.sub (2 * phi - pl * Nring - shift - 1) (op2 32 Z.mul 8 N)
    else Ok (2 * phi - pl * Nring - shift - 1)) = val (i - j)).
  { destruct (Z.leb_spec (2 * N) (2 * phi - pl * Nring - shift - 1)); rewrite ?op2_ok by bound; unfold val; f_equal; simpl in Hp; lia. }
  rewrite Hpp. ints.
  replace (Z.shiftr (A - ring - 1 + (i - j)) 1) with i by (rewrite Z.shiftr_div_pow2 by lia; change (2 ^ 1) with 2; lia).
  replace (Z.shiftr (A - ring - 1 - (i - j)) 1) with j by (rewrite Z.shiftr_div_pow2 by lia; change (2 ^ 1) with 2; lia).
  replace ((f <? 12) && (i <? N) && (j <? N)) with true by lia. unfold mbind, outcome_mbind. cbn [ASSERT outcome_bind].
  apply Codec.fij_to_nest_ok; lia.
Qed.

Lemma div_03_ok d b c : 0 <= d < 4 -> 0 <= c < b -> b <= N -> div_03 (d * b + c) b = Ok d.
Proof.
  intros Hd Hc Hb. destruct N_facts as (HN2 & _). unfold div_03.
  assert (Es : Z.shiftl b 1 = 2 * b) by (rewrite Z.shiftl_mul_pow2 by lia; lia).
  rewrite !int_shl_ok by (rewrite ?Es; lia || bound). rewrite Es. ints.
  assert (d = 0 \/ d = 1 \/ d = 2 \/ d = 3) as Hcase by lia.
  destruct (Z.leb_spec (2 * b) (d * b + c)); destruct_or! Hcase; subst d; try lia; ints;
    rewrite ?int_shl_ok by (simpl; lia || bound); simpl Z.shiftl; case_test; try lia; rewrite ?op2_ok by bound; done.
Qed.


(** *** From the ring number *)

Lemma ring_to_nest_north ring d c : 1 <= ring < N -> 0 <= d < 4 -> 0 <= c < ring ->
  ring_to_nest R_ (2 * ring * (ring - 1) + d * ring + c) = Ok (Codec.nested k d (N - ring + c) (N - 1 - c)).
Proof.
  intros Hr Hd Hc. destruct N_facts as (HN2 & _ & HNN & _). unfold ring_to_nest. cbn [Nside_ Npix_ Ncap_ k_ R_].
  rewrite (proj2 (Z.eqb_neq N 1)) by lia. assert (Hdr : 0 <= d * ring <= 3 * ring) by nia.
  assert (Hrr : ring <= ring * ring /\ ring * ring + ring <= N * N - N) by nia.
  set (x := 2 * ring * (ring - 1) + d * ring + c). assert (Hx : 0 <= x < 2 * N * (N - 1)) by lia. ints.
  rewrite (proj2 (Z.ltb_lt _ _)) by lia. ints.
  rewrite (ring_root ring (2 * x + 1)) by lia. ints.
  replace (1 + x - 2 * ring * (ring - 1)) with (1 + (d * ring + c)) by lia. ints.
  replace (1 + (d * ring + c) - 1) with (d * ring + c) by lia. rewrite div_03_ok by lia. cbn [outcome_bind].
  destruct (pll_ok d Hd) as (Hp & _).
  apply (to_nest_ok d ring ring _ 0 (2 * d + 1)); first [done|lia].
Qed.

Lemma ring_to_nest_south s d c : 1 <= s < N -> 0 <= d < 4 -> 0 <= c < s ->
  ring_to_nest R_ (12 * N * N - 2 * s * (s + 1) + d * s + c) = Ok (Codec.nested k (d + 8) c (s - 1 - c)).
Proof.
  intros Hs Hd Hc. destruct N_facts as (HN2 & _ & HNN & _). unfold ring_to_nest. cbn [Nside_ Npix_ Ncap_ k_ R_].
  rewrite (proj2 (Z.eqb_neq N 1)) by lia. assert (Hds : 0 <= d * s <= 3 * s) by nia.
  assert (Hss : s <= s * s /\ s * s + s <= N * N - N) by nia.
  set (x := 12 * N * N - 2 * s * (s + 1) + d * s + c). assert (Hx : 12 * N * N - 2 * N * (N - 1) <= x < 12 * N * N) by lia. ints.
  rewrite (proj2 (Z.ltb_ge _ _)), (proj2 (Z.leb_le _ _)) by lia. ints.
  rewrite (ring_root s (2 * (12 * N * N) - 2 * x - 1)) by lia. ints.
  replace (1 + x + 2 * s * (s - 1) + 4 * s - 12 * N * N) with (1 + (d * s + c)) by lia. ints.
  replace (1 + (d * s + c) - 1) with (d * s + c) by lia. rewrite div_03_ok by lia. cbn [outcome_bind]. ints.
  destruct (pll_ok d Hd) as (_ & _ & Hp). assert (E : (d + 8) / 4 = 2) by lia.
  apply (to_nest_ok (d + 8) (4 * N - s) s _ 0 (2 * d + 1)); rewrite ?E; first [done|lia].
Qed.

Lemma shr_k_ok a : shr 32 (val a) (val k) = val (a / N).
Proof. rewrite int_shr_ok by lia. by rewrite shift_k. Qed.

Lemma div_N x q m : x = q * N + m -> 0 <= m < N -> x / N = q.
Proof. intros -> Hm. rewrite Z.div_add_l by lia. rewrite Z.div_small; lia. Qed.

(** [row] is the row of faces, and [D] the column, or 4 for the part of the first face
    of the middle row that is west of its meridian. *)
Lemma ring_to_nest_equator row D i j t r :
  0 <= row <= 2 -> 0 <= D <= (if row =? 1 then 4 else 3) -> 0 <= i < N -> 0 <= j < N ->
  t = (row + 1) * N - i - j - 1 -> 0 <= t <= 2 * N -> 0 <= r < 4 * N ->
  2 * r + 2 = (2 * D + (if row =? 1 then 0 else 1)) * N + i - j + 1 + t mod 2 ->
  ring_to_nest R_ (2 * N * (N - 1) + t * (4 * N) + r) = Ok (Codec.nested k (4 * row + D mod 4) i j).
Proof.
  intros Hrow HD Hi Hj Ht Ht2 Hr Er. destruct N_facts as (HN2 & HNe & HNN & _). unfold ring_to_nest. cbn [Nside_ Npix_ Ncap_ k_ R_].
  rewrite (proj2 (Z.eqb_neq N 1)) by lia. assert (HtN : 0 <= t * N <= 2 * (N * N)) by nia.
  set (x := 2 * N * (N - 1) + t * (4 * N) + r).
  assert (Hx : 2 * N * (N - 1) <= x < 12 * N * N - 2 * N * (N - 1)) by lia. ints.
  rewrite (proj2 (Z.ltb_ge _ _)), (proj2 (Z.leb_gt _ _)) by lia. ints.
  assert (Et : Z.shiftr (x - 2 * N * (N - 1)) (k + 2) = t).
  { rewrite Z.shiftr_div_pow2, Z.pow_add_r by lia. rewrite <- HN. symmetry. apply Z.div_unique with r; lia. }
  assert (row = 0 \/ row = 1 \/ row = 2) as Hrows by lia.
  assert (Hb : - N <= (1 + t) / 2 <= 2 * N /\ - N <= (1 - t + 2 * N) / 2 <= 2 * N) by lia.
  assert (Em : (r + 1 - 1 - (1 + t) / 2) / N = (if row =? 0 then D else D - 1)).
  { apply div_N with i; [|lia]. clear HtN Hx Et x. destruct_or! Hrows; subst row; simpl in *; lia. }
  assert (Ep : (r + 1 - 1 - (1 - t + 2 * N) / 2) / N = (if row =? 2 then D else D - 1)).
  { apply div_N with (N - 1 - j); [|lia]. clear HtN Hx Et x. destruct_or! Hrows; subst row; simpl in *; lia. }
  rewrite Et. ints. replace (x - 2 * N * (N - 1) - t * 4 * N + 1) with (r + 1) by lia.
  clear HtN Hx Et x.
  assert (Hm : (1 + ((r + 1)%Z - 1 - ((1 + t) >> 1) >> k))%int = val (1 + (if row =? 0 then D else D - 1))).
  { rewrite (op2_ok 32 Z.add 1 t), half_ok, !op2_ok, shr_k_ok, Em, op2_ok; try bound; try done; destruct_or! Hrows; subst row; simpl in *; bound. }
  assert (Hp : (1 + ((r + 1)%Z - 1 - ((1 - t + 2 * N) >> 1) >> k))%int = val (1 + (if row =? 2 then D else D - 1))).
  { rewrite (op2_ok 32 Z.sub 1 t), (op2_ok 32 Z.mul 2 N), (op2_ok 32 Z.add (1 - t) (2 * N)), half_ok, !op2_ok, shr_k_ok, Ep, op2_ok; try bound; try done;
      destruct_or! Hrows; subst row; simpl in *; bound. }
  rewrite Hm, Hp, !val_bind. clear Hm Hp Em Ep Hb.
  assert (Esh : Z.land (t + N) 1 = t mod 2) by (change 1 with (Z.ones 1); rewrite Z.land_ones by lia; change (2 ^ 1) with 2; lia).
  rewrite Esh.
  assert (HDmod : D mod 4 = if D =? 4 then 0 else D) by (destruct (Z.eqb_spec D 4); [by subst|apply Z.mod_small]; destruct_or! Hrows; subst row; simpl in HD; lia).
  set (f := 4 * row + D mod 4). assert (Hf4 : f / 4 = row) by lia.
  transitivity (to_nest R_ f (t + N) N (r + 1) (t mod 2)).
  - destruct_or! Hrows; subst row; cbn [Z.eqb Pos.eqb] in *.
    + rewrite (proj2 (Z.eqb_neq _ _)), (proj2 (Z.ltb_lt _ _)) by lia. cbn [outcome_bind]. f_equal. subst f. rewrite Z.mod_small; lia.
    + rewrite (proj2 (Z.eqb_eq _ _)) by lia. cbn [outcome_bind]. f_equal. subst f. rewrite HDmod.
      assert (D = 0 \/ D = 1 \/ D = 2 \/ D = 3 \/ D = 4) as HDc by lia. clear -HDc. destruct_or! HDc; subst D; done.
    + rewrite (proj2 (Z.eqb_neq _ _)), (proj2 (Z.ltb_ge _ _)) by lia. rewrite op2_ok, val_bind by bound. f_equal. subst f. rewrite Z.mod_small; lia.
  - destruct (pll_ok (D mod 4) ltac:(lia)) as (P0 & P1 & P2).
    apply (to_nest_ok f (t + N) N (r + 1) (t mod 2) (2 * (D mod 4) + if row =? 1 then 0 else 1)); rewrite ?Hf4; try lia.
    + destruct_or! Hrows; subst row f; simpl in *; rewrite ?Z.add_0_r; [done|by rewrite Z.add_comm|by rewrite Z.add_comm].
    + destruct (row =? 1); lia.
    + rewrite HDmod in *. clear Hf4. destruct (Z.eqb_spec D 4) as [->|HD4].
      * right. destruct_or! Hrows; subst row; simpl in *; lia.
      * left. destruct_or! Hrows; subst row; simpl in *; lia.
Qed.

(** *** From the nested number *)

Lemma to_ring_local_ok f i j Nq shift pl x :
  pll f = Ok pl -> 0 <= pl <= 7 -> 1 <= Nq <= N -> 0 <= i < N -> 0 <= j < N -> 0 <= shift <= 1 ->
  2 * (x + 1) = pl * Nq + i - j + 1 + shift -> x < 4 * Nq ->
  to_ring_local R_ f i j (4 * Nq) shift = Ok (if x <? 0 then x + 4 * N else x).
Proof.
  intros Hpl Hpl7 HNq Hi Hj Hsh Hx Hlt. destruct N_facts as (HN2 & _). unfold to_ring_local. cbn [Nside_ R_].
  assert (HplN : 0 <= pl * Nq <= 7 * N) by nia. ints.
  replace (Z.shiftr (4 * Nq) 2) with Nq by (rewrite Z.shiftr_div_pow2 by lia; change (2 ^ 2) with 4; lia).
  rewrite Hpl. cbn [outcome_bind]. rewrite !op2_ok by bound.
  rewrite <- Hx. rewrite quot_ok by (lia || (rewrite Z.mul_comm, Z.quot_mul by lia; bound)).
  rewrite (Z.mul_comm 2), Z.quot_mul by lia. ints.
  replace (x + 1 - 1) with x by lia. rewrite (proj2 (Z.ltb_lt x (4 * Nq))) by lia.
  unfold mbind, outcome_mbind. cbn [ASSERT outcome_bind]. case_test; [|done]. by rewrite !op2_ok by bound.
Qed.

(** The place of a pixel in its ring, and its number. *)
Definition face_x (row d i j t : Z) : Z := ((2 * d + (if row =? 1 then 0 else 1)) * N + i - j + 1 + t mod 2) / 2 - 1.
Definition ring_index (row d i j : Z) : Z :=
  let ring := (row + 2) * N - i - j - 1 in
  if ring <? N then 2 * ring * (ring - 1) + (d * ring + (N - 1 - j))
  else if ring <? 3 * N then
    let x := face_x row d i j (ring - N) in
    2 * N * (N - 1) + (ring - N) * (4 * N) + (if x <? 0 then x + 4 * N else x)
  else let s := 4 * N - ring in 12 * N * N - 2 * s * (s + 1) + (d * s + i).

Lemma face_x_ok row d i j t : 0 <= row <= 2 -> 0 <= d < 4 -> 0 <= i < N -> 0 <= j < N -> t = (row + 1) * N - i - j - 1 -> 0 <= t <= 2 * N ->
  let x := face_x row d i j t in
  2 * (x + 1) = (2 * d + (if row =? 1 then 0 else 1)) * N + i - j + 1 + t mod 2 /\ - N < x < 4 * N /\ (x < 0 -> row = 1 /\ d = 0).
Proof.
  intros Hrow Hd Hi Hj Ht Ht2 x. destruct N_facts as (HN2 & HNe & _).
  assert (row = 0 \/ row = 1 \/ row = 2) as Hrows by lia. assert (d = 0 \/ d = 1 \/ d = 2 \/ d = 3) as Hds by lia.
  subst x. unfold face_x. destruct_or! Hrows; destruct_or! Hds; subst row d; cbn [Z.eqb Pos.eqb]; lia.
Qed.

Lemma nest_to_ring_ok row d i j : 0 <= row <= 2 -> 0 <= d < 4 -> 0 <= i < N -> 0 <= j < N ->
  nest_to_ring R_ (Codec.nested k (4 * row + d) i j) = Ok (ring_index row d i j).
Proof.
  intros Hrow Hd Hi Hj. destruct N_facts as (HN2 & HNe & HNN & _). destruct (pll_ok d Hd) as (P0 & P1 & P2).
  unfold nest_to_ring, ring_index. cbn [k_ Nside_ Npix_ Ncap_ R_]. rewrite Codec.nest_to_fij_ok by lia.
  unfold mbind, outcome_mbind. cbn [outcome_bind].
  replace ((4 * row + d <? 12) && (i <? N) && (j <? N)) with true by lia. cbn [ASSERT outcome_bind].
  assert (row = 0 \/ row = 1 \/ row = 2) as Hrows by lia.
  assert (E2 : Z.shiftr (4 * row + d) 2 = row) by (rewrite Z.shiftr_div_pow2 by lia; change (2 ^ 2) with 4; lia).
  set (ring := (row + 2) * N - i - j - 1).
  assert (Hring : 0 < ring < 4 * N) by (subst ring; destruct_or! Hrows; subst row; lia).
  assert (Ering : (((4 * row + d)%Z >> 2) + 2)%int = val (row + 2)) by (rewrite int_shr_ok, E2, op2_ok by (lia || bound); done).
  assert (HrN : 0 <= row * N <= 2 * N) by (destruct_or! Hrows; subst row; lia).
  assert (Hrr : ring <= ring * ring) by nia.
  rewrite Ering. ints. fold ring.
  destruct (Z.ltb_spec ring N) as [Hn|Hn]; [|destruct (Z.ltb_spec ring (3 * N)) as [He|He]].
  - assert (row = 0) as -> by lia. assert (Hdr : 0 <= d * ring <= 3 * ring) by nia. assert (Hrr2 : ring * ring + ring <= N * N - N) by nia.
    ints. rewrite (to_ring_local_ok _ i j ring 0 (2 * d + 1) (d * ring + (N - 1 - j))); try done; try lia.
    rewrite (proj2 (Z.ltb_ge _ _)) by lia. fold (val (d * ring + (N - 1 - j))). by rewrite op2_ok by bound.
  - set (t := ring - N). assert (HtN : 0 <= t * N <= 2 * (N * N)) by nia.
    destruct (face_x_ok row d i j t Hrow Hd Hi Hj ltac:(lia) ltac:(lia)) as (Ex & Hx & _).
    ints. fold t. assert (Esh : Z.land t 1 = t mod 2) by (change 1 with (Z.ones 1); rewrite Z.land_ones by lia; done).
    rewrite Esh. rewrite (to_ring_local_ok _ i j N (t mod 2) (2 * d + (if row =? 1 then 0 else 1)) (face_x row d i j t)); try lia.
    + set (y := if face_x row d i j t <? 0 then _ else _). assert (Hy : 0 <= y < 4 * N) by (subst y; case_test; lia).
      fold (val y). rewrite op2_ok by bound. done.
    + destruct_or! Hrows; subst row; cbn [Z.eqb Pos.eqb]; rewrite ?Z.add_0_r; [done|by rewrite Z.add_comm|by rewrite Z.add_comm].
    + destruct (row =? 1); lia.
  - assert (row = 2) as -> by lia. set (s := 4 * N - ring). assert (Hs : 1 <= s <= N) by lia. assert (Hds : 0 <= d * s <= 3 * s) by nia.
    assert (Hss : s <= s * s /\ s * s <= N * N) by nia. ints. fold s.
    rewrite (to_ring_local_ok _ i j s 0 (2 * d + 1) (d * s + i)); try lia.
    + rewrite (proj2 (Z.ltb_ge _ _)) by lia. fold (val (d * s + i)). by rewrite op2_ok by bound.
    + by rewrite Z.add_comm.
Qed.

Lemma ring_index_inverse row d i j : 0 <= row <= 2 -> 0 <= d < 4 -> 0 <= i < N -> 0 <= j < N ->
  0 <= ring_index row d i j < 12 * N * N /\
  ring_to_nest R_ (ring_index row d i j) = Ok (Codec.nested k (4 * row + d) i j).
Proof.
  intros Hrow Hd Hi Hj. destruct N_facts as (HN2 & HNe & HNN & _). unfold ring_index. assert (HNN2 : 2 * N <= N * N) by nia.
  assert (row = 0 \/ row = 1 \/ row = 2) as Hrows by lia.
  set (ring := (row + 2) * N - i - j - 1). assert (HrN : 0 <= row * N <= 2 * N) by (destruct_or! Hrows; subst row; lia).
  assert (Hring : 0 < ring < 4 * N) by (subst ring; destruct_or! Hrows; subst row; lia).
  destruct (Z.ltb_spec ring N) as [Hn|Hn]; [|destruct (Z.ltb_spec ring (3 * N)) as [He|He]].
  - assert (row = 0) as -> by lia. assert (Hdr : 0 <= d * ring <= 3 * ring) by nia. assert (Hrr : 0 <= ring * ring - ring /\ ring * ring + ring <= N * N - N) by nia.
    split; [lia|]. rewrite Z.add_assoc, ring_to_nest_north by lia. do 2 f_equal; lia.
  - set (t := ring - N). assert (HtN : 0 <= t * N <= (2 * N - 1) * N) by nia.
    destruct (face_x_ok row d i j t Hrow Hd Hi Hj ltac:(lia) ltac:(lia)) as (Ex & Hx & Hneg). set (x := face_x row d i j t) in *.
    split; [case_test; lia|]. destruct (Z.ltb_spec x 0).
    + destruct Hneg as [-> ->]; [lia|]. apply (ring_to_nest_equator 1 4); simpl in *; lia.
    + rewrite (ring_to_nest_equator row d i j); try lia.
      * do 2 f_equal. rewrite Z.mod_small; lia.
      * destruct (row =? 1); lia.
  - assert (row = 2) as -> by lia. set (s := 4 * N - ring). assert (Hs : 1 <= s <= N) by lia. assert (Hds : 0 <= d * s <= 3 * s) by nia.
    assert (Hss : s <= s * s /\ s * s + s <= N * N + N) by nia. split; [lia|].
    destruct (decide (s = N)) as [EsN|].
    + replace (12 * N * N - 2 * s * (s + 1) + (d * s + i)) with (2 * N * (N - 1) + (2 * N) * (4 * N) + (d * N + i)) by (rewrite EsN; lia).
      assert (Eev : (2 * N) mod 2 = 0) by (rewrite Z.mul_comm; apply Z_mod_mult). rewrite EsN in Hds.
      rewrite (ring_to_nest_equator 2 d i j (2 * N) (d * N + i)); cbn [Z.eqb Pos.eqb]; rewrite ?Eev; try lia.
      do 2 f_equal. rewrite Z.mod_small; lia.
    + rewrite Z.add_assoc, ring_to_nest_south by lia. do 2 f_equal; lia.
Qed.
End Rings.

(** ** The permutations *)

Lemma renumber_all_ok (f : Z -> outcome Z) l :
  (forall i, i ∈ l -> exists r, f i = Ok r /\ 0 <= r < 2 ^ 64) ->
  exists rs, renumber_all f l = Ok rs /\ length rs = length l /\
    forall n i, l !! n = Some i -> exists r, rs !! n = Some r /\ f i = Ok r.
Proof.
  induction l as [|i l IH]; intros Hf; [by exists []|]. destruct (Hf i) as (r & Er & Hr); [by left|].
  destruct IH as (rs & Ers & Hlen & Hrs); [intros x Hx; apply Hf; by right|].
  exists (r :: rs). cbn [renumber_all]. rewrite Er. unfold mbind, outcome_mbind. cbn [outcome_bind]. rewrite Ers. cbn [outcome_bind].
  unfold wrapU. rewrite Z.mod_small by done. split_and!; [done|simpl; lia|]. intros [|n] x Hx; simpl in *; simplify_eq; [by exists r|by apply Hrs].
Qed.

(** A list that takes each value of a range of its length at most once. *)
Lemma injective_permutation (l : list Z) P : length l = Z.to_nat P ->
  (forall n x, l !! n = Some x -> 0 <= x < P) -> (forall n m x, l !! n = Some x -> l !! m = Some x -> n = m) -> l ≡ₚ seqZ 0 P.
Proof.
  intros Hl Hr Hinj. apply submseteq_length_Permutation; [|by rewrite length_seqZ, Hl].
  apply NoDup_submseteq; [by apply NoDup_alt|]. intros x (n & Hn)%list_elem_of_lookup_1. apply elem_of_seqZ. apply Hr in Hn. lia.
Qed.

Section Bijection.
Variables (k N : Z).
Hypothesis (Hk : 0 <= k <= 13) (HN : N = 2 ^ k).
#[local] Set Default Proof Using "Type*".

Lemma N_size : 1 <= N <= 8192 /\ 12 * N * N <= 805306368.
Proof. rewrite HN. destruct (Codec.pow_facts k Hk) as [H _]. split; [done|]. set (P := 2 ^ k) in *. clearbody P. nia. Qed.

Lemma k_cases (P : Z -> Prop) : Forall P (seqZ 0 14) -> P k.
Proof. rewrite Forall_forall. intros H. apply H, elem_of_seqZ. lia. Qed.

Lemma newRenumber_ok : newRenumber N = Ok (R_ k N).
Proof. rewrite HN. apply (k_cases (fun k => newRenumber (2 ^ k) = Ok (R_ k (2 ^ k)))). repeat constructor. Qed.

Lemma nest_ring_nest n : 0 <= n < 12 * N * N -> exists r,
  nest_to_ring (R_ k N) n = Ok r /\ 0 <= r < 12 * N * N /\ ring_to_nest (R_ k N) r = Ok n.
Proof.
  intros Hn. destruct (decide (k = 0)) as [Hk0|Hk0].
  - rewrite Hk0 in HN. rewrite Hk0, HN in *. exists n. assert (Hc : n ∈ seqZ 0 12) by (apply elem_of_seqZ; change (2 ^ 0) with 1 in Hn; lia).
    split_and!; [|lia..|done]. revert n Hn Hc. assert (H : Forall (fun n => nest_to_ring (R_ 0 1) n = Ok n) (seqZ 0 12)) by (repeat constructor).
    intros n _ Hc. by rewrite Forall_forall in H; apply H.
  - destruct (Codec.nested_surj k Hk n) as (f & i & j & Hf & Hi & Hj & ->).
    { destruct (Codec.pow_facts k Hk) as [_ ->]. rewrite <- HN. lia. }
    rewrite <- HN in *. replace f with (4 * (f / 4) + f mod 4) by lia.
    destruct (ring_index_inverse k N ltac:(lia) HN (f / 4) (f mod 4) i j) as [H1 H2]; try lia.
    exists (ring_index N (f / 4) (f mod 4) i j). split_and!; try lia; [|done]. apply nest_to_ring_ok; lia.
Qed.

Definition P_ : Z := 12 * N * N.

Lemma size_ok : wrapS 32 (size_from_nside N) = P_.
Proof.
  destruct N_size as [H1 H2]. unfold size_from_nside, wrapU, P_. rewrite Z.mod_small by lia. apply wrapS_id; [lia|].
  apply in_S_spec. change (2 ^ (32 - 1)) with 2147483648. lia.
Qed.

Lemma wrapS_N : wrapS 32 N = N.
Proof. destruct N_size as [H1 H2]. apply wrapS_id; [lia|]. apply in_S_spec. change (2 ^ (32 - 1)) with 2147483648. lia. Qed.

(** Both conversions as lists, the second undoing the first. *)
Lemma conversions : exists to_ring to_nest,
  renumber_all (nest_to_ring (R_ k N)) (seqZ 0 P_) = Ok to_ring /\ to_ring ≡ₚ seqZ 0 P_ /\
  renumber_all (ring_to_nest (R_ k N)) (seqZ 0 P_) = Ok to_nest /\ to_nest ≡ₚ seqZ 0 P_ /\
  forall n r, to_ring !! n = Some r -> to_nest !! Z.to_nat r = Some (Z.of_nat n).
Proof.
  destruct N_size as [H1 H2]. pose proof nest_ring_nest as Hrt. fold P_ in *.
  destruct (renumber_all_ok (nest_to_ring (R_ k N)) (seqZ 0 P_)) as (a & Ea & La & Ha).
  { intros n Hn%elem_of_seqZ. destruct (Hrt n) as (r & E & Hr & _); [lia|]. exists r. unfold P_ in *. split; [done|lia]. }
  rewrite length_seqZ in La.
  assert (Hget : forall n r, a !! n = Some r -> 0 <= r < P_ /\ ring_to_nest (R_ k N) r = Ok (Z.of_nat n)).
  { intros n r Hn. pose proof (lookup_lt_Some _ _ _ Hn). destruct (Ha n (Z.of_nat n)) as (r' & Er & E); [apply lookup_seqZ; lia|].
    destruct (Hrt (Z.of_nat n)) as (r2 & E2 & Hr & E3); [lia|]. assert (r2 = r) as <- by congruence. done. }
  assert (Hperm : a ≡ₚ seqZ 0 P_).
  { apply injective_permutation; [done|by intros n r [? _]%Hget|]. intros n m r [_ E1]%Hget [_ E2]%Hget. rewrite E1 in E2. by simplify_eq. }
  assert (Hall : forall r, 0 <= r < P_ -> exists n, a !! n = Some r).
  { intros r Hr. apply list_elem_of_lookup_1. rewrite Hperm. apply elem_of_seqZ. lia. }
  destruct (renumber_all_ok (ring_to_nest (R_ k N)) (seqZ 0 P_)) as (b & Eb & Lb & Hb).
  { intros r Hr%elem_of_seqZ. destruct (Hall r) as (n & Hn); [lia|]. destruct (Hget n r Hn) as [_ E]. exists (Z.of_nat n).
    split; [done|]. apply lookup_lt_Some in Hn. unfold P_ in *. lia. }
  rewrite length_seqZ in Lb.
  assert (Hab : forall n r, a !! n = Some r -> b !! Z.to_nat r = Some (Z.of_nat n)).
  { intros n r Hn. destruct (Hget n r Hn) as [Hr E]. destruct (Hb (Z.to_nat r) r) as (x & Hx & Ex); [apply lookup_seqZ; lia|]. congruence. }
  assert (Hba : forall m x, b !! m = Some x -> exists n, x = Z.of_nat n /\ a !! n = Some (Z.of_nat m)).
  { intros m x Hm. pose proof (lookup_lt_Some _ _ _ Hm). destruct (Hall (Z.of_nat m)) as (n & Hn); [lia|]. exists n.
    pose proof (Hab n _ Hn) as Hx. rewrite Nat2Z.id in Hx. split; [congruence|done]. }
  exists a, b. split_and!; try done. apply injective_permutation; [done|..].
  - intros m x (n & -> & Hn)%Hba. apply lookup_lt_Some in Hn. lia.
  - intros m m' x (n & -> & Hn)%Hba (n' & E & Hn')%Hba. assert (n' = n) as -> by lia. rewrite Hn in Hn'. simplify_eq. lia.
Qed.

(** For every grid whose side is a power of two up to 8192, the orders "nested" and
    "ring" are converted without overflow or failed assertion; both conversions are
    permutations of the pixels, and they undo each other. *)
Theorem healpix_reorder_inverse : exists to_ring to_nest,
  reorder NESTED RING N = Ok to_ring /\ reorder RING NESTED N = Ok to_nest /\
  to_ring ≡ₚ seqZ 0 (12 * N * N) /\ to_nest ≡ₚ seqZ 0 (12 * N * N) /\
  (forall n r, to_ring !! n = Some r -> to_nest !! Z.to_nat r = Some (Z.of_nat n)) /\
  (forall r n, to_nest !! r = Some n -> to_ring !! Z.to_nat n = Some (Z.of_nat r)).
Proof.
  destruct conversions as (a & b & Ea & Pa & Eb & Pb & Hab). exists a, b.
  assert (Hr : forall o t f, bool_decide (t = NESTED \/ t = RING) = true -> o <> t ->
    f = (if decide (o = NESTED) then nest_to_ring (R_ k N) else ring_to_nest (R_ k N)) -> reorder o t N = renumber_all f (seqZ 0 P_)).
  { intros o t f Ht Hne ->. unfold reorder. rewrite Ht, size_ok. cbn [ASSERT]. unfold mbind, outcome_mbind. cbn [outcome_bind].
    pose proof N_size. rewrite (proj2 (Z.ltb_ge _ _)) by (unfold P_; lia). rewrite decide_False by done. by rewrite wrapS_N, newRenumber_ok. }
  split_and!; try done.
  - by rewrite (Hr NESTED RING (nest_to_ring (R_ k N))).
  - by rewrite (Hr RING NESTED (ring_to_nest (R_ k N))).
  - intros r n Hn. assert (Hin : Z.of_nat r ∈ a).
    { rewrite Pa. apply elem_of_seqZ. apply lookup_lt_Some in Hn. rewrite Pb, length_seqZ in Hn. lia. }
    apply list_elem_of_lookup_1 in Hin as (m & Hm). pose proof (Hab _ _ Hm) as Hx. rewrite Nat2Z.id in Hx. simplify_eq. by rewrite Nat2Z.id.
Qed.
End Bijection.

Lemma healpix_reorder_inverse_witness : exists to_ring to_nest,
  reorder NESTED RING 8 = Ok to_ring /\ reorder RING NESTED 8 = Ok to_nest /\
  to_ring ≡ₚ seqZ 0 (12 * 8 * 8) /\ to_nest ≡ₚ seqZ 0 (12 * 8 * 8) /\
  (forall n r, to_ring !! n = Some r -> to_nest !! Z.to_nat r = Some (Z.of_nat n)) /\
  (forall r n, to_nest !! r = Some n -> to_ring !! Z.to_nat n = Some (Z.of_nat r)).
Proof. apply (healpix_reorder_inverse 3 8); [lia|reflexivity]. Defined.

(** ** The sizes of the rings *)

(** The pixels of the first [m] rings. *)
Definition before (N m : Z) : Z :=
  if m <=? N then 2 * m * (m + 1)
  else if m <=? 3 * N then 2 * N * (N + 1) + 4 * N * (m - N)
  else 12 * N * N - 2 * (4 * N - 1 - m) * (4 * N - m).

Lemma nx_ok N j : 1 <= N < 2 ^ 60 -> 0 <= j < 4 * N - 1 -> nx 2 N j = Ok (before N (j + 1) - before N j).
Proof.
  intros HN Hj. assert (Hw : forall z, 0 <= z < 2 ^ 63 -> wrapU 64 z = z) by (intros; apply Z.mod_small; lia).
  cbn [nx]. unfold ny. rewrite (Hw (4 * N - 1)), (Hw (3 * N)) by lia.
  unfold mbind, outcome_mbind. rewrite (proj2 (Z.ltb_lt j (4 * N - 1))) by lia. cbn [ASSERT outcome_bind]. unfold before.
  destruct (Z.ltb_spec j N); [|destruct (Z.ltb_spec j (3 * N))].
  - rewrite Hw by lia. repeat case_test; try lia; f_equal; lia.
  - rewrite Hw by lia. repeat case_test; try lia; f_equal; try lia; assert (j = N) by lia; subst; lia.
  - rewrite (Hw (4 * N - 1 - 1 - j)) by lia. rewrite (proj2 (Z.ltb_lt _ (4 * N - 1))), (proj2 (Z.ltb_lt _ N)) by lia. cbn [ASSERT outcome_bind].
    rewrite Hw by lia. repeat case_test; try lia; f_equal; try lia; assert (j = 3 * N) by lia; subst; lia.
Qed.

Lemma foldr_add l a : foldr Z.add a l = foldr Z.add 0 l + a.
Proof. induction l as [|y l IH]; simpl; [done|]. rewrite IH. lia. Qed.

(** The rings of the grid add up to its size: the first pixel of each ring is where
    the rings before it end, for any side below [2^29]; and the size determines the side. *)
Theorem healpix_ring_sizes N : 1 <= N < 2 ^ 29 ->
  (forall m, (Z.of_nat m <= ny N) -> exists ns, Forall2 (fun j n => nx 2 N j = Ok n) (seqZ 0 (Z.of_nat m)) ns /\ foldr Z.add 0 ns = before N (Z.of_nat m)) /\
  before N (ny N) = size_from_nside N /\ nside_from_size (size_from_nside N) = Ok N.
Proof.
  intros HN. change (2 ^ 29) with 536870912 in HN. assert (HNN : N <= N * N < 536870912 * 536870912) by nia.
  assert (Eny : ny N = 4 * N - 1) by (unfold ny, wrapU; apply Z.mod_small; lia).
  assert (Es : size_from_nside N = 12 * N * N) by (unfold size_from_nside, wrapU; apply Z.mod_small; lia).
  rewrite Eny, Es. split_and!.
  - induction m as [|m IH]; intros Hm.
    + exists []. split; [constructor|]. unfold before. rewrite (proj2 (Z.leb_le _ _)) by lia. done.
    + destruct IH as (ns & Hns & Hsum); [lia|]. exists (ns ++ [before N (Z.of_nat m + 1) - before N (Z.of_nat m)]). split.
      * rewrite seqZ_S. apply Forall2_app; [done|]. constructor; [|constructor]. rewrite Z.add_0_l. apply nx_ok; lia.
      * rewrite foldr_app. simpl. rewrite Z.add_0_r.
        rewrite foldr_add, Hsum. replace (Z.of_nat (S m)) with (Z.of_nat m + 1) by lia. lia.
  - unfold before. repeat case_test; try lia; assert (N = 1) as -> by lia; lia.
  - unfold nside_from_size. replace (12 * N * N / 12) with (N * N) by (replace (12 * N * N) with (N * N * 12) by lia; by rewrite Z.div_mul by lia).
    rewrite Z.sqrt_square, Es, Z.eqb_refl by lia. done.
Qed.

Lemma healpix_ring_sizes_witness :
  (forall m, (Z.of_nat m <= ny 4) -> exists ns, Forall2 (fun j n => nx 2 4 j = Ok n) (seqZ 0 (Z.of_nat m)) ns /\ foldr Z.add 0 ns = before 4 (Z.of_nat m)) /\
  before 4 (ny 4) = size_from_nside 4 /\ nside_from_size (size_from_nside 4) = Ok 4.
Proof. apply (healpix_ring_sizes 4). lia. Defined.
