(* ===== verification/Double.v ===== *)
(** * Floating point numbers

    The type [double] of the program: IEEE 754 binary64 with rounding to nearest, as the
    specification of floating point arithmetic of the standard library defines it, and
    its conversions from and to integers and decimal numbers.  The lemmas say when an
    operation is exact, and that every result of a rounding is again a binary64 number. *)
From Stdlib Require Import Floats.SpecFloat.
From S2P Require Import Prelude Text MachineInt.

Abbreviation double := spec_float.
Abbreviation rounded_to := (binary_round_aux 53 1024).
Abbreviation fexp64 := (fexp 53 1024).
Abbreviation emin64 := (-1074).

Definition dadd : double -> double -> double := SFadd 53 1024.
Definition dsub : double -> double -> double := SFsub 53 1024.
Definition dmul : double -> double -> double := SFmul 53 1024.
Definition ddiv : double -> double -> double := SFdiv 53 1024.
Definition dsqrt : double -> double := SFsqrt 53 1024.
Definition isnan (x : double) : bool := match x with S754_nan => true | _ => false end.

(** An integer as a [double], rounded to nearest. *)
Definition of_Z (z : Z) : double := binary_normalize 53 1024 z 0 false.

(** The integer part; a conversion to an integer type that cannot hold it is undefined. *)
Definition truncate (x : double) : outcome Z :=
  match x with
  | S754_zero _ => Ok 0
  | S754_finite s m e => Ok (cond_Zopp s (if 0 <=? e then Zpos m * 2 ^ e else Zpos m / 2 ^ (- e)))
  | _ => Undef
  end.
Definition to_long_long (x : double) : outcome Z := z ← truncate x; fit 64 z.

(** The number [m * 10 ^ e], rounded to nearest. *)
Definition of_decimal (s : bool) (m e : Z) : double :=
  match m with
  | Zpos p =>
      if 0 <=? e then binary_round 53 1024 s (Z.to_pos (m * 10 ^ e)) 0
      else let '(q, e', l) := SFdiv_core_binary 53 1024 m 0 (10 ^ (- e)) 0 in rounded_to s q e' l
  | _ => S754_zero s
  end.

(** [std::numeric_limits<double>::epsilon()] *)
Definition epsilon : double := S754_finite false (2 ^ 52) (-104).

Definition nonneg (x : double) : Prop :=
  match x with S754_zero _ | S754_infinity false | S754_finite false _ _ => True | _ => False end.
Definition valid (x : double) : Prop := valid_binary 53 1024 x = true.

(** ** Digits and shifts *)

Lemma digits2_log2 p : Zpos (digits2_pos p) = Z.log2 (Zpos p) + 1.
Proof.
  induction p as [p IH|p IH|]; [..|done]; simpl digits2_pos; rewrite Pos2Z.inj_succ, IH.
  - rewrite (Pos2Z.inj_xI p), Z.log2_succ_double by lia. lia.
  - rewrite (Pos2Z.inj_xO p), Z.log2_double by lia. lia.
Qed.

Lemma digits_spec m : 0 < m -> 2 ^ (Zdigits2 m - 1) <= m < 2 ^ Zdigits2 m.
Proof.
  intros Hm. destruct m as [|p|p]; try lia. cbn [Zdigits2]. rewrite digits2_log2.
  replace (Z.log2 (Zpos p) + 1 - 1) with (Z.log2 (Zpos p)) by lia. apply (Z.log2_spec (Zpos p) Hm).
Qed.

Lemma digits_unique m d : 0 < d -> 2 ^ (d - 1) <= m < 2 ^ d -> Zdigits2 m = d.
Proof.
  intros Hd Hm. pose proof (Z.pow_pos_nonneg 2 (d - 1) ltac:(lia) ltac:(lia)). destruct m as [|p|p]; try lia. cbn [Zdigits2]. rewrite digits2_log2.
  rewrite (Z.log2_unique (Zpos p) (d - 1)) by (replace (Z.succ (d - 1)) with d by lia; lia). lia.
Qed.

Lemma digits_nonneg m : 0 <= Zdigits2 m.
Proof. by destruct m. Qed.

Lemma digits_shift m k : 0 < m -> 0 <= k -> Zdigits2 (m * 2 ^ k) = Zdigits2 m + k.
Proof.
  intros Hm Hk. pose proof (digits_spec m Hm). assert (0 < Zdigits2 m) by (destruct m; simpl; lia).
  apply digits_unique; [lia|]. rewrite Z.pow_add_r by lia. replace (Zdigits2 m + k - 1) with (Zdigits2 m - 1 + k) by lia.
  rewrite Z.pow_add_r by lia. pose proof (Z.pow_pos_nonneg 2 k ltac:(lia) ltac:(lia)). nia.
Qed.

Lemma iter_pos_nat {A} (f : A -> A) p : forall x, SpecFloat.iter_pos f p x = Nat.iter (Pos.to_nat p) f x.
Proof.
  induction p as [p IH|p IH|]; intros x; cbn [SpecFloat.iter_pos]; rewrite ?IH; [| |done].
  - rewrite Pos2Nat.inj_xI, <- Nat.iter_add. replace (S (2 * Pos.to_nat p)) with ((Pos.to_nat p + Pos.to_nat p) + 1)%nat by lia.
    by rewrite (Nat.iter_add (Pos.to_nat p + Pos.to_nat p) 1).
  - rewrite Pos2Nat.inj_xO, <- Nat.iter_add. f_equal. lia.
Qed.

(** [k] steps to the right drop [k] bits of a positive mantissa. *)
Lemma shr_1_m mrs : 0 <= shr_m mrs -> shr_m (shr_1 mrs) = shr_m mrs / 2.
Proof.
  destruct mrs as [m r s]. cbn [shr_m]. intros Hm. destruct m as [|[p|p|]|p]; cbn [shr_1 shr_m]; try done; try lia.
  - rewrite (Pos2Z.inj_xI p). rewrite <- (Z.div_unique (2 * Zpos p + 1) 2 (Zpos p) 1); lia.
  - rewrite (Pos2Z.inj_xO p), Z.mul_comm, Z.div_mul; lia.
Qed.

Lemma shr_iter_m k mrs : 0 <= shr_m mrs -> shr_m (Nat.iter k shr_1 mrs) = shr_m mrs / 2 ^ Z.of_nat k.
Proof.
  intros Hm. induction k as [|k IH]; [by rewrite Z.div_1_r|]. change (Nat.iter (S k) shr_1 mrs) with (shr_1 (Nat.iter k shr_1 mrs)).
  rewrite shr_1_m; rewrite IH; [|apply Z.div_pos; lia]. rewrite Z.div_div, Nat2Z.inj_succ, Z.pow_succ_r by lia. f_equal. lia.
Qed.

(** Dropping zeros is exact. *)
Lemma shr_iter_exact k : forall m, 0 <= m -> Nat.iter k shr_1 (Build_shr_record (m * 2 ^ Z.of_nat k) false false) = Build_shr_record m false false.
Proof.
  induction k as [|k IH]; intros m Hm; [cbn; f_equal; lia|]. rewrite Nat.iter_succ_r.
  rewrite Nat2Z.inj_succ, Z.pow_succ_r by lia. replace (m * (2 * 2 ^ Z.of_nat k)) with (2 * (m * 2 ^ Z.of_nat k)) by lia.
  replace (shr_1 _) with (Build_shr_record (m * 2 ^ Z.of_nat k) false false); [by apply IH|].
  pose proof (Z.pow_pos_nonneg 2 (Z.of_nat k)). by destruct (m * 2 ^ Z.of_nat k) as [|p|p] eqn:E.
Qed.

Lemma shr_spec mrs e n : 0 <= shr_m mrs -> 0 <= n -> shr_m (fst (SpecFloat.shr mrs e n)) = shr_m mrs / 2 ^ n /\ snd (SpecFloat.shr mrs e n) = e + n.
Proof.
  intros Hm Hn. destruct n as [|p|p]; [|..|lia]; cbn [SpecFloat.shr fst snd]; [split; [by rewrite Z.div_1_r|lia]|].
  rewrite iter_pos_nat, shr_iter_m by done. split; [|done]. by rewrite positive_nat_Z.
Qed.

Lemma shr_exact m e n : 0 <= m -> 0 <= n ->
  SpecFloat.shr (Build_shr_record (m * 2 ^ n) false false) e n = (Build_shr_record m false false, e + n).
Proof.
  intros Hm Hn. destruct n as [|p|p]; [|..|lia]; cbn [SpecFloat.shr]; [by rewrite Z.mul_1_r, Z.add_0_r|].
  rewrite iter_pos_nat, <- (positive_nat_Z p). by rewrite shr_iter_exact.
Qed.

Lemma shr_none mrs e n : n <= 0 -> SpecFloat.shr mrs e n = (mrs, e).
Proof. intros Hn. by destruct n. Qed.

Lemma shr_record_m m l : shr_m (shr_record_of_loc m l) = m.
Proof. by destruct l as [|[]]. Qed.

Lemma round_even_cases m l : round_nearest_even m l = m \/ round_nearest_even m l = m + 1.
Proof. destruct l as [|[]]; cbn; try (by left); try (by right). destruct (Z.even m); [by left|by right]. Qed.

Lemma fexp_spec e : fexp64 e = Z.max (e - 53) emin64.
Proof. done. Qed.

(** *** Rounding gives a number of the format *)

(** The mantissa after the first shift: at most 53 bits, aligned on its exponent. *)
Lemma first_shift m e : 0 <= m -> e <= fexp64 (Zdigits2 m + e) ->
  let n := fexp64 (Zdigits2 m + e) - e in let m1 := m / 2 ^ n in let e1 := e + n in
  0 <= m1 /\ (m1 = 0 -> e1 = emin64) /\ (0 < m1 -> fexp64 (Zdigits2 m1 + e1) = e1) /\ emin64 <= e1.
Proof.
  intros Hm He n m1 e1. pose proof (eq_refl : n = Z.max (Zdigits2 m + e - 53) emin64 - e) as En. pose proof (eq_refl : e1 = e + n) as Ee.
  rewrite fexp_spec in He. clearbody n e1. pose proof (digits_nonneg m) as Hd. pose proof (Z.pow_pos_nonneg 2 n ltac:(lia) ltac:(lia)).
  assert (0 <= m1) by (apply Z.div_pos; lia). destruct (Z.eq_dec m 0) as [->|Hm0].
  { cbn [Zdigits2] in *. assert (m1 = 0) by (apply Z.div_0_l; lia). split_and!; lia. }
  pose proof (digits_spec m ltac:(lia)) as Hds. destruct (Z.le_gt_cases (Zdigits2 m) n) as [Hle|Hgt].
  - assert (m1 = 0). { apply Z.div_small. pose proof (Z.pow_le_mono_r 2 (Zdigits2 m) n ltac:(lia) Hle). lia. }
    split_and!; try lia.
  - assert (Hdm : Zdigits2 m1 = Zdigits2 m - n).
    { assert (E1 : 2 ^ Zdigits2 m = 2 ^ n * 2 ^ (Zdigits2 m - n)) by (rewrite <- Z.pow_add_r by lia; f_equal; lia).
      assert (E2 : 2 ^ (Zdigits2 m - 1) = 2 ^ n * 2 ^ (Zdigits2 m - n - 1)) by (rewrite <- Z.pow_add_r by lia; f_equal; lia).
      apply digits_unique; [lia|]. split; [apply Z.div_le_lower_bound; lia|apply Z.div_lt_upper_bound; lia]. }
    assert (0 < m1) by (destruct (Z.eq_dec m1 0) as [E|]; [rewrite E in Hdm; simpl in Hdm; lia|lia]).
    rewrite fexp_spec, Hdm. split_and!; lia.
Qed.

Lemma digits_succ m : 0 <= m -> Zdigits2 (m + 1) = Zdigits2 m \/ Zdigits2 (m + 1) = Zdigits2 m + 1 /\ m + 1 = 2 ^ Zdigits2 m.
Proof.
  intros Hm. destruct (Z.eq_dec m 0) as [->|Hm0]; [by right|]. pose proof (digits_spec m ltac:(lia)) as Hd.
  assert (0 < Zdigits2 m) by (destruct m; simpl; lia). destruct (Z.eq_dec (m + 1) (2 ^ Zdigits2 m)) as [E|E].
  - right. split; [|done]. apply digits_unique; [lia|]. rewrite Z.pow_add_r by lia. replace (Zdigits2 m + 1 - 1) with (Zdigits2 m) by lia. lia.
  - left. apply digits_unique; lia.
Qed.

(** The second shift repairs a mantissa that the rounding has made one bit longer. *)
Lemma second_shift m1 m2 e1 : 0 <= m1 -> (m1 = 0 -> e1 = emin64) -> (0 < m1 -> fexp64 (Zdigits2 m1 + e1) = e1) -> emin64 <= e1 ->
  m2 = m1 \/ m2 = m1 + 1 ->
  let '(mrs, e2) := shr_fexp 53 1024 m2 e1 loc_Exact in
  match shr_m mrs with Z0 => True | Zpos m => fexp64 (Zdigits2 (Zpos m) + e2) = e2 | Zneg _ => False end.
Proof.
  intros Hm1 H0 Hc He Hm2. unfold shr_fexp. cbn [shr_record_of_loc].
  assert (Hcase : fexp64 (Zdigits2 m2 + e1) <= e1 \/
    m2 = 2 ^ Zdigits2 m1 /\ 0 < m1 /\ fexp64 (Zdigits2 m2 + e1) = e1 + 1 /\ Zdigits2 m2 = Zdigits2 m1 + 1).
  { rewrite !fexp_spec in *. pose proof (digits_nonneg m1). destruct Hm2 as [->| ->].
    - left. destruct (Z.eq_dec m1 0) as [->|]; [cbn [Zdigits2]; lia|lia].
    - destruct (digits_succ m1 Hm1) as [E|[E Ep]]; rewrite E; destruct (Z.eq_dec m1 0) as [Ez|]; try (left; subst; simpl in *; lia).
      destruct (Z.le_gt_cases (Z.max (Zdigits2 m1 + 1 + e1 - 53) emin64) e1); [by left|right; lia]. }
  destruct Hcase as [Hle|(Ep & Hpos & Ef & Ed)].
  - rewrite shr_none by lia. cbn [shr_m]. destruct m2 as [|p|p] eqn:Em; [done| |lia]. rewrite <- Em in *.
    destruct (Z.eq_dec m1 0) as [Ez|Hnz].
    + rewrite (H0 Ez) in *. rewrite fexp_spec in *. assert (m2 = 1) as -> by lia. done.
    + specialize (Hc ltac:(lia)). rewrite fexp_spec in *. pose proof (digits_succ m1 Hm1). destruct Hm2 as [->| ->]; lia.
  - rewrite Ef. replace (e1 + 1 - e1) with 1 by lia. destruct (shr_spec (Build_shr_record m2 false false) e1 1) as [Es Ee]; [cbn [shr_m]; lia|lia|].
    destruct (SpecFloat.shr _ e1 1) as [mrs e2]. cbn [fst snd shr_m] in *. pose proof (digits_spec m1 Hpos).
    assert (Hp : 0 < Zdigits2 m1) by (destruct m1; simpl; lia).
    assert (E3 : shr_m mrs = 2 ^ (Zdigits2 m1 - 1)).
    { rewrite Es, Ep. replace (Zdigits2 m1) with (Zdigits2 m1 - 1 + 1) at 1 by lia. change (2 ^ 1) with 2. rewrite Z.pow_add_r by lia. apply Z.div_mul. lia. }
    assert (Hd3 : Zdigits2 (shr_m mrs) = Zdigits2 m1).
    { apply digits_unique; [lia|]. rewrite E3. split; [lia|]. apply Z.pow_lt_mono_r; lia. }
    pose proof (Z.pow_pos_nonneg 2 (Zdigits2 m1 - 1) ltac:(lia) ltac:(lia)).
    destruct (shr_m mrs) as [|p|p] eqn:Em; [lia| |lia]. rewrite Hd3, Ee. rewrite Ed in Ef. rewrite <- Ef at 2. f_equal. lia.
Qed.

Lemma rounded_valid s m e l : 0 <= m -> e <= fexp64 (Zdigits2 m + e) ->
  valid (rounded_to s m e l) /\ (s = false -> nonneg (rounded_to s m e l)).
Proof.
  intros Hm He. set (P := fun x => valid x /\ (s = false -> nonneg x)). change (P (rounded_to s m e l)).
  unfold binary_round_aux. unfold shr_fexp at 1.
  destruct (first_shift m e Hm He) as (Hm1 & H0 & Hc & Hmin).
  destruct (shr_spec (shr_record_of_loc m l) e (fexp64 (Zdigits2 m + e) - e)) as [Es Ee]; [by rewrite shr_record_m|lia|].
  rewrite shr_record_m in Es. destruct (SpecFloat.shr _ e _) as [mrs e1]. cbn [fst snd] in *. rewrite <- Es, <- Ee in *.
  pose proof (second_shift (shr_m mrs) (round_nearest_even (shr_m mrs) (loc_of_shr_record mrs)) e1 Hm1 H0 Hc Hmin (round_even_cases _ _)) as H2.
  destruct (shr_fexp 53 1024 _ e1 loc_Exact) as [mrs2 e2]. destruct (shr_m mrs2) as [|p|p]; [by split|..|done].
  destruct (Z.leb_spec e2 (1024 - 53)) as [Hle|]; [|by split; [|intros ->]].
  subst P. split; [|by intros ->]. unfold valid. cbn [valid_binary]. unfold bounded, canonical_mantissa.
  cbn [Zdigits2] in H2. rewrite H2, Z.eqb_refl. cbn [andb]. apply Z.leb_le. lia.
Qed.

Lemma iter_xO d m : Zpos (Pos.iter xO m d) = Zpos m * 2 ^ Zpos d.
Proof.
  induction d as [|d IH] using Pos.peano_ind; [cbn [Pos.iter]; lia|].
  rewrite Pos.iter_succ, Pos2Z.inj_xO, IH, Pos2Z.inj_succ, Z.pow_succ_r by lia. lia.
Qed.

Lemma shl_align_spec m e e' : let '(m', e'') := shl_align m e e' in Zpos m' = Zpos m * 2 ^ (e - e'') /\ e'' = Z.min e e'.
Proof.
  unfold shl_align. destruct (e' - e) as [|d|d] eqn:E; [split; [rewrite Z.sub_diag|]; lia..|].
  rewrite iter_xO. split; [do 2 f_equal|]; lia.
Qed.

Lemma binary_round_valid s m e : valid (binary_round 53 1024 s m e) /\ (s = false -> nonneg (binary_round 53 1024 s m e)).
Proof.
  unfold binary_round. pose proof (shl_align_spec m e (fexp64 (Zpos (digits2_pos m) + e))) as Ha.
  destruct (shl_align _ _ _) as [mz ez]. destruct Ha as [Em Ee]. apply rounded_valid; [lia|].
  rewrite Em, digits_shift by lia. cbn [Zdigits2]. replace (Zpos (digits2_pos m) + (e - ez) + ez) with (Zpos (digits2_pos m) + e) by lia. lia.
Qed.

Lemma normalize_valid m e : valid (binary_normalize 53 1024 m e false) /\ (0 <= m -> nonneg (binary_normalize 53 1024 m e false)).
Proof.
  destruct m as [|p|p]; cbn [binary_normalize]; [by split|..]; (split; [apply binary_round_valid|]).
  - intros _. by apply binary_round_valid.
  - lia.
Qed.

Lemma valid_dsub x y : valid x -> valid y -> valid (dsub x y).
Proof. intros Hx Hy. destruct x as [sx|sx| |sx mx ex], y as [sy|sy| |sy my ey]; try done; try (by destruct sx, sy). apply normalize_valid. Qed.

Lemma valid_dadd x y : valid x -> valid y -> valid (dadd x y).
Proof. intros Hx Hy. destruct x as [sx|sx| |sx mx ex], y as [sy|sy| |sy my ey]; try done; try (by destruct sx, sy). apply normalize_valid. Qed.

Lemma valid_spec s m e : valid (S754_finite s m e) -> fexp64 (Zdigits2 (Zpos m) + e) = e /\ e <= 971.
Proof. unfold valid. cbn [valid_binary]. unfold bounded, canonical_mantissa. intros [Hc%Z.eqb_eq Hb%Z.leb_le]%andb_prop. split; [done|lia]. Qed.

Lemma valid_dmul x y : valid x -> valid y -> valid (dmul x y).
Proof.
  intros Hx Hy. destruct x as [sx|sx| |sx mx ex], y as [sy|sy| |sy my ey]; try done; try (by destruct sx, sy). apply rounded_valid; [lia|].
  apply valid_spec in Hx as [Hx _], Hy as [Hy _]. rewrite fexp_spec in *.
  assert (Hd : Zdigits2 (Zpos mx) + Zdigits2 (Zpos my) - 1 <= Zdigits2 (Zpos (mx * my))).
  { pose proof (digits_spec (Zpos mx) ltac:(lia)) as H1. pose proof (digits_spec (Zpos my) ltac:(lia)) as H2.
    pose proof (digits_spec (Zpos (mx * my)) ltac:(lia)) as H3. pose proof (digits_nonneg (Zpos (mx * my))).
    assert (0 < Zdigits2 (Zpos mx) /\ 0 < Zdigits2 (Zpos my)) by (split; simpl; lia).
    destruct (Z.le_gt_cases (Zdigits2 (Zpos mx) + Zdigits2 (Zpos my) - 1) (Zdigits2 (Zpos (mx * my)))) as [|Hlt]; [done|].
    pose proof (Z.pow_le_mono_r 2 (Zdigits2 (Zpos (mx * my))) (Zdigits2 (Zpos mx) - 1 + (Zdigits2 (Zpos my) - 1)) ltac:(lia) ltac:(lia)) as Hp.
    rewrite Z.pow_add_r in Hp by lia. pose proof (Z.pow_pos_nonneg 2 (Zdigits2 (Zpos my) - 1) ltac:(lia) ltac:(lia)). nia. }
  assert (0 < Zdigits2 (Zpos mx) /\ 0 < Zdigits2 (Zpos my)) by (split; simpl; lia). lia.
Qed.

Lemma valid_of_Z z : valid (of_Z z).
Proof. apply normalize_valid. Qed.

Lemma valid_abs x : valid x -> valid (SFabs x) /\ (isnan x = false -> nonneg (SFabs x)).
Proof. intros Hx. by destruct x. Qed.

(** The quotient has enough bits to be rounded. *)
Lemma div_core_ok m1 e1 m2 e2 : 0 < m1 -> 0 < m2 -> let '(q, e, _) := SFdiv_core_binary 53 1024 m1 e1 m2 e2 in 0 <= q /\ e <= fexp64 (Zdigits2 q + e).
Proof.
  intros H1 H2. unfold SFdiv_core_binary. set (K := Zdigits2 m1 + e1 - (Zdigits2 m2 + e2)). set (e' := Z.min (fexp64 K) (e1 - e2)).
  set (s := e1 - e2 - e'). assert (Hs : 0 <= s) by lia.
  assert (Em : (match s with 0 => m1 | Zpos _ => Z.shiftl m1 s | Zneg _ => 0 end) = m1 * 2 ^ s).
  { destruct s as [|p|p]; [lia| |lia]. apply Z.shiftl_mul_pow2. lia. }
  rewrite Em. pose proof (Z_div_mod (m1 * 2 ^ s) m2 ltac:(lia)) as Hq. destruct (Z.div_eucl _ m2) as [q r]. destruct Hq as [Hq Hr].
  pose proof (digits_spec m1 H1) as Hd1. pose proof (digits_spec m2 H2) as Hd2. pose proof (Z.pow_pos_nonneg 2 s ltac:(lia) Hs) as Hp.
  assert (Hq0 : 0 <= q) by nia. split; [done|].
  set (D := Zdigits2 m1 + s - Zdigits2 m2). assert (HDK : D + e' = K) by lia. rewrite fexp_spec.
  assert (Hle : e' <= Z.max (K - 53) emin64) by (rewrite <- (fexp_spec K); lia).
  destruct (Z.le_gt_cases D 0) as [HD|HD]; [pose proof (digits_nonneg q); lia|].
  enough (D <= Zdigits2 q) by lia.
  assert (Hdig : 0 < Zdigits2 m1 /\ 0 < Zdigits2 m2) by (destruct m1, m2; simpl; lia).
  assert (Hlow : 2 ^ (D - 1) <= q).
  { assert (E : 2 ^ (Zdigits2 m1 - 1) * 2 ^ s = 2 ^ Zdigits2 m2 * 2 ^ (D - 1)) by (rewrite <- !Z.pow_add_r by lia; f_equal; lia).
    pose proof (Z.pow_pos_nonneg 2 (D - 1) ltac:(lia) ltac:(lia)). nia. }
  destruct (Z.le_gt_cases D (Zdigits2 q)) as [|Hlt]; [done|].
  pose proof (Z.pow_pos_nonneg 2 (D - 1) ltac:(lia) ltac:(lia)). pose proof (digits_spec q ltac:(lia)).
  pose proof (Z.pow_le_mono_r 2 (Zdigits2 q) (D - 1) ltac:(lia) ltac:(lia)). lia.
Qed.

Lemma ddiv_ok x y : valid (ddiv x y) /\ (nonneg x -> nonneg y -> ddiv x y <> S754_nan -> nonneg (ddiv x y) \/ exists s, ddiv x y = S754_infinity s).
Proof.
  unfold ddiv. destruct x as [sx|sx| |sx mx ex], y as [sy|sy| |sy my ey]; cbn [SFdiv];
    try (by (split; [done|intros Hx Hy Hn; try destruct sx; try destruct sy; try done; (by left) || (by right; eexists)])).
  pose proof (div_core_ok (Zpos mx) ex (Zpos my) ey ltac:(lia) ltac:(lia)) as Hc.
  destruct (SFdiv_core_binary _ _ _ _ _ _) as [[q e] l]. destruct Hc as [Hq He]. split; [by apply rounded_valid|].
  intros Hx Hy _. left. destruct sx, sy; try done. by apply rounded_valid.
Qed.

(** *** Exact operations *)

Lemma rounded_exact s m e : fexp64 (Zpos (digits2_pos m) + e) = e -> e <= 971 -> rounded_to s (Zpos m) e loc_Exact = S754_finite s m e.
Proof.
  intros Hf He. unfold binary_round_aux, shr_fexp. cbn [Zdigits2 shr_record_of_loc]. rewrite Hf, Z.sub_diag.
  cbn [SpecFloat.shr shr_m loc_of_shr_record round_nearest_even Zdigits2 shr_record_of_loc]. rewrite Hf, Z.sub_diag. cbn [SpecFloat.shr shr_m].
  by rewrite (proj2 (Z.leb_le e _)) by lia.
Qed.

(** An integer of at most 53 bits is represented as it is. *)
Lemma digits_bound q : 0 < q < 2 ^ 53 -> 0 < Zdigits2 q <= 53.
Proof.
  intros Hq. pose proof (digits_spec q ltac:(lia)) as Hd. split; [destruct q; simpl; lia|].
  destruct (Z.le_gt_cases (Zdigits2 q) 53); [done|]. pose proof (Z.pow_le_mono_r 2 53 (Zdigits2 q - 1) ltac:(lia) ltac:(lia)). lia.
Qed.

Lemma binary_round_small s p : let q := Zpos p in q < 2 ^ 53 ->
  binary_round 53 1024 s p 0 = S754_finite s (Z.to_pos (q * 2 ^ (53 - Zdigits2 q))) (Zdigits2 q - 53).
Proof.
  intros q Hq. pose proof (digits_bound q ltac:(lia)) as Hd. unfold binary_round.
  change (Zpos (digits2_pos p)) with (Zdigits2 q). rewrite Z.add_0_r.
  pose proof (shl_align_spec p 0 (fexp64 (Zdigits2 q))) as Ha. destruct (shl_align _ _ _) as [mz ez]. destruct Ha as [Em Ee].
  rewrite fexp_spec in Ee. assert (ez = Zdigits2 q - 53) as -> by lia. change (Zpos p) with q in Em.
  replace (0 - (Zdigits2 q - 53)) with (53 - Zdigits2 q) in Em by lia. rewrite <- Em. rewrite rounded_exact; [done| |lia].
  change (Zpos (digits2_pos mz)) with (Zdigits2 (Zpos mz)). rewrite Em, digits_shift, fexp_spec by lia. lia.
Qed.

Lemma of_Z_small q : 0 < q < 2 ^ 53 ->
  of_Z q = S754_finite false (Z.to_pos (q * 2 ^ (53 - Zdigits2 q))) (Zdigits2 q - 53).
Proof. intros Hq. destruct q as [|p|p]; try lia. apply (binary_round_small false). lia. Qed.

(** So is one that is a mantissa and a positive exponent. *)
Lemma of_Z_large m e : valid (S754_finite false m e) -> 0 <= e -> of_Z (Zpos m * 2 ^ e) = S754_finite false m e.
Proof.
  unfold valid. cbn [valid_binary]. unfold bounded, canonical_mantissa. intros [Hc%Z.eqb_eq Hb%Z.leb_le]%andb_prop He.
  pose proof (Z.pow_pos_nonneg 2 e ltac:(lia) He). unfold of_Z. destruct (Zpos m * 2 ^ e) as [|p|p] eqn:Ep; try lia. cbn [binary_normalize].
  assert (Hd : Zpos (digits2_pos p) = Zpos (digits2_pos m) + e).
  { change (Zpos (digits2_pos p)) with (Zdigits2 (Zpos p)). rewrite <- Ep. by rewrite digits_shift by lia. }
  unfold binary_round. rewrite Hd, Z.add_0_r, Hc. assert (Es : shl_align p 0 e = (p, 0)) by (unfold shl_align; rewrite Z.sub_0_r; by destruct e).
  rewrite Es. unfold binary_round_aux. unfold shr_fexp at 1. cbn [Zdigits2 shr_record_of_loc]. rewrite Hd, Z.add_0_r, Hc, Z.sub_0_r, <- Ep.
  rewrite shr_exact by lia. cbn [shr_m loc_of_shr_record round_nearest_even]. rewrite Z.add_0_l. unfold shr_fexp. cbn [Zdigits2 shr_record_of_loc].
  rewrite Hc, Z.sub_diag. cbn [SpecFloat.shr shr_m]. by rewrite (proj2 (Z.leb_le e _)) by lia.
Qed.

Lemma truncate_of_Z n : 0 <= n < 2 ^ 53 -> truncate (of_Z n) = Ok n.
Proof.
  intros Hn. destruct (Z.eq_dec n 0) as [->|Hn0]; [done|]. rewrite of_Z_small by lia. cbn [truncate]. f_equal.
  pose proof (digits_bound n ltac:(lia)) as Hd.
  pose proof (Z.pow_pos_nonneg 2 (53 - Zdigits2 n) ltac:(lia) ltac:(lia)). rewrite Z2Pos.id by nia. cbn [cond_Zopp].
  destruct (Z.leb_spec 0 (Zdigits2 n - 53)) as [Hle|Hgt].
  - replace (Zdigits2 n) with 53 by lia. cbn. lia.
  - replace (- (Zdigits2 n - 53)) with (53 - Zdigits2 n) by lia. apply Z.div_mul. lia.
Qed.

Lemma dsub_self x : valid x -> nonneg x -> x <> S754_infinity false -> dsub x x = S754_zero false.
Proof.
  intros _ Hx Hi. destruct x as [s|s| |s m e]; try done; [by destruct s|by destruct s|]. unfold dsub. cbn [SFsub]. by rewrite Z.sub_diag.
Qed.

(** What is left of a number when its integer part is taken away is not negative. *)
Lemma fractional_part_nonneg x a : valid x -> nonneg x -> truncate x = Ok a -> 0 <= a /\ nonneg (dsub x (of_Z a)).
Proof.
  intros Hv Hx Ht. destruct x as [s|s| |s m e]; try done; [by injection Ht as <-; destruct s|]. destruct s; [done|].
  cbn [truncate cond_Zopp] in Ht. injection Ht as Ha. destruct (Z.leb_spec 0 e) as [He|He].
  - pose proof (Z.pow_pos_nonneg 2 e ltac:(lia) He). split; [lia|]. rewrite <- Ha, of_Z_large, dsub_self by done. done.
  - pose proof (Z.pow_pos_nonneg 2 (- e) ltac:(lia) ltac:(lia)) as Hp. assert (Ha0 : 0 <= a) by (rewrite <- Ha; apply Z.div_pos; lia).
    split; [done|]. destruct (Z.eq_dec a 0) as [->|Hnz]; [done|].
    assert (Hdm : a * 2 ^ (- e) <= Zpos m) by (rewrite <- Ha, Z.mul_comm; apply Z.mul_div_le; lia).
    assert (Hm53 : Zpos m < 2 ^ 53).
    { unfold valid in Hv. cbn [valid_binary] in Hv. unfold bounded, canonical_mantissa in Hv. apply andb_prop in Hv as [Hc%Z.eqb_eq _].
      rewrite fexp_spec in Hc. pose proof (digits_spec (Zpos m) ltac:(lia)) as [_ Hlt]. cbn [Zdigits2] in Hlt.
      pose proof (Z.pow_le_mono_r 2 (Zpos (digits2_pos m)) 53 ltac:(lia) ltac:(lia)). lia. }
    assert (Ha53 : 0 < a < 2 ^ 53) by nia. rewrite of_Z_small by done. unfold dsub. cbn [SFsub cond_Zopp].
    set (d := Zdigits2 a - 53). set (ez := Z.min e d).
    pose proof (shl_align_spec m e ez) as H1. pose proof (shl_align_spec (Z.to_pos (a * 2 ^ (53 - Zdigits2 a))) d ez) as H2.
    destruct (shl_align m e ez) as [m1 e1], (shl_align _ d ez) as [m2 e2]. destruct H1 as [E1 E1'], H2 as [E2 E2'].
    cbn [fst]. apply normalize_valid. rewrite E1, E2. assert (e1 = ez) as -> by lia. assert (e2 = ez) as -> by lia.
    pose proof (digits_bound a Ha53) as Hd53.
    pose proof (Z.pow_pos_nonneg 2 (53 - Zdigits2 a) ltac:(lia) ltac:(lia)). rewrite Z2Pos.id by nia.
    assert (Ee : a * 2 ^ (53 - Zdigits2 a) * 2 ^ (d - ez) = a * 2 ^ (- e) * 2 ^ (e - ez)).
    { rewrite <- !Z.mul_assoc, <- !Z.pow_add_r by lia. do 2 f_equal. lia. }
    rewrite Ee. pose proof (Z.pow_pos_nonneg 2 (e - ez) ltac:(lia) ltac:(lia)). nia.
Qed.

(** Decimal integers. *)
Lemma of_decimal_small s n : 0 <= n < 2 ^ 53 ->
  of_decimal s n 0 = if s then SFopp (of_Z n) else of_Z n.
Proof.
  intros Hn. destruct n as [|p|p]; [by destruct s| |lia]. unfold of_decimal. cbn [Z.leb Z.compare].
  change (10 ^ 0) with 1. rewrite Z.mul_1_r. cbn [Z.to_pos]. rewrite binary_round_small by lia. rewrite of_Z_small by lia. by destruct s.
Qed.

Lemma valid_of_decimal s m e : valid (of_decimal s m e).
Proof.
  unfold of_decimal. destruct m as [|p|p]; try done. destruct (Z.leb_spec 0 e); [apply binary_round_valid|].
  pose proof (Z.pow_pos_nonneg 10 (- e) ltac:(lia) ltac:(lia)). pose proof (div_core_ok (Zpos p) 0 (10 ^ (- e)) 0 ltac:(lia) ltac:(lia)) as Hc.
  destruct (SFdiv_core_binary _ _ _ _ _ _) as [[q e'] l]. destruct Hc. by apply rounded_valid.
Qed.

(** ** The bits of a [double] *)

Definition of_bits (b : Z) : double :=
  let s := Z.testbit b 63 in
  let e := Z.land (Z.shiftr b 52) 2047 in
  let m := Z.land b (2 ^ 52 - 1) in
  if e =? 0 then match m with Zpos p => S754_finite s p (-1074) | _ => S754_zero s end
  else if e =? 2047 then if m =? 0 then S754_infinity s else S754_nan
  else S754_finite s (Z.to_pos (m + 2 ^ 52)) (e - 1075).

Definition to_bits (x : double) : Z :=
  let sign (s : bool) := if s then 2 ^ 63 else 0 in
  match x with
  | S754_zero s => sign s
  | S754_infinity s => sign s + 2047 * 2 ^ 52
  | S754_nan => 2047 * 2 ^ 52 + 2 ^ 51
  | S754_finite s m e =>
      if Zpos m <? 2 ^ 52 then sign s + Zpos m else sign s + (e + 1075) * 2 ^ 52 + (Zpos m - 2 ^ 52)
  end.
