(* ===== verification/TranslatorDouble.v ===== *)
(** * Translator: floating point

    [Translator<std::string, double>] of [utils/Translator.cc], with [strtod] of the C
    library: decimal and hexadecimal numbers, infinities and NaN, correctly rounded, and
    the range error on overflow and on an inexact subnormal result. *)
From Stdlib Require Import Floats.SpecFloat.
From S2P Require Import Prelude Text Strings Translator MachineInt Double.

(** ** [strtod] *)

Definition dec_digit (c : byte) : option Z := if isdigit c then Some (byte.unsigned c - 48) else None.
Definition hex_digit (c : byte) : option Z :=
  let l := byte.unsigned (tolower c) in
  if isdigit c then Some (byte.unsigned c - 48) else if (97 <=? l) && (l <=? 102) then Some (l - 87) else None.

(** Digits with at most one point: the mantissa, the number of digits after the point,
    the number of digits, and what follows. *)
Fixpoint mantissa (digit : byte -> option Z) (base : Z) (s : text) (point : bool) (m places count : Z) : Z * Z * Z * text :=
  match s with
  | [] => (m, places, count, [])
  | c :: s' =>
      match digit c with
      | Some d => mantissa digit base s' point (m * base + d) (if point then places + 1 else places) (count + 1)
      | None => if decide (c = "."%byte) then if point then (m, places, count, s) else mantissa digit base s' true m places count
                else (m, places, count, s)
      end
  end.

Definition sign (s : text) : bool * text :=
  match s with
  | c :: s' => if decide (c = "-"%byte) then (true, s') else if decide (c = "+"%byte) then (false, s') else (false, s)
  | [] => (false, [])
  end.

(** An exponent must have a digit. *)
Definition exponent_part (mark : byte) (s : text) : Z * text :=
  match s with
  | c :: s' =>
      if decide (tolower c = mark) then
        let '(neg, d) := sign s' in
        if starts_digit d then ((if neg then - digits_value 0 d else digits_value 0 d), skip_digits d) else (0, s)
      else (0, s)
  | [] => (0, [])
  end.

Definition starts_with (word s : text) : bool := bool_decide (lower (take (length word) s) = word).

Fixpoint skip_alnum (s : text) : text :=
  match s with
  | c :: s' =>
      let l := byte.unsigned (tolower c) in
      if isdigit c || (97 <=? l) && (l <=? 122) || bool_decide (c = "_"%byte) then skip_alnum s' else s
  | [] => []
  end.

(** Whether [r] is the number [num / den], and whether it has lost bits below the range. *)
Definition is_exactly (r : double) (num den : Z) : bool :=
  match r with
  | S754_finite _ p e => if 0 <=? e then Zpos p * 2 ^ e * den =? num else Zpos p * den =? num * 2 ^ (- e)
  | S754_zero _ => num =? 0
  | _ => false
  end.
Definition range_error (r : double) (num den : Z) : bool :=
  match r with
  | S754_infinity _ => true
  | S754_finite _ p _ => (Zpos (digits2_pos p) <? 53) && negb (is_exactly r num den)
  | S754_zero _ => negb (num =? 0)
  | S754_nan => false
  end.

(** The result, what follows the number, and whether [errno] is set; nothing is consumed
    when there is no number. *)
Definition strtod (s : text) : double * text * bool :=
  let '(neg, t) := sign (skip_space s) in
  if starts_with (str "infinity") t then (S754_infinity neg, drop 8 t, false)
  else if starts_with (str "inf") t then (S754_infinity neg, drop 3 t, false)
  else if starts_with (str "nan") t then
    let u := drop 3 t in
    match u with
    | "("%byte :: v => match skip_alnum v with ")"%byte :: w => (S754_nan, w, false) | _ => (S754_nan, u, false) end
    | _ => (S754_nan, u, false)
    end
  else
    let '(m, places, count, u) := mantissa hex_digit 16 (drop 2 t) false 0 0 0 in
    if starts_with (str "0x") t && (0 <? count) then
      let '(e, w) := exponent_part "p"%byte u in
      let x := e - 4 * places in
      let r := match m with Zpos p => binary_round 53 1024 neg p x | _ => S754_zero neg end in
      (r, w, range_error r (m * 2 ^ Z.max 0 x) (2 ^ Z.max 0 (- x)))
    else
      let '(m, places, count, u) := mantissa dec_digit 10 t false 0 0 0 in
      if 0 <? count then
        let '(e, w) := exponent_part "e"%byte u in
        let x := e - places in
        let r := of_decimal neg m x in
        (r, w, range_error r (m * 10 ^ Z.max 0 x) (10 ^ Z.max 0 (- x)))
      else (S754_zero false, s, false).

(** ** The conversion *)

Definition string_to_double (s : text) : outcome double :=
  let p := c_str s in
  let '(d, pend, errno) := strtod p in
  if bool_decide (s = []) || bool_decide (head s = Some " "%byte) || negb (Nat.eqb (length p - length pend) (length s)) || errno
  then Throw BadParameter else Ok d.

(** ** Integers *)

Lemma mantissa_digits t : forall m count, all_digits t -> mantissa dec_digit 10 t false m 0 count = (digits_value m t, 0, count + zlen t, []).
Proof.
  induction t as [|c t IH]; intros m count Ht; [cbn; unfold zlen; by rewrite Z.add_0_r|]. apply Forall_cons in Ht as [Hc Ht].
  cbn [mantissa digits_value]. unfold dec_digit at 1. rewrite Hc, IH by done. f_equal. f_equal. unfold zlen. simpl. lia.
Qed.

Lemma digits_value_nonneg t : forall acc, 0 <= acc -> 0 <= digits_value acc t.
Proof.
  induction t as [|c t IH]; intros acc Ha; [done|]. cbn [digits_value]. destruct (isdigit c) eqn:Hc; [|done]. apply IH. unfold isdigit in Hc. lia.
Qed.

Lemma starts_with_digits word t : all_digits t -> forallb isdigit word = false -> starts_with word t = false.
Proof.
  intros Ht Hw. unfold starts_with. rewrite bool_decide_eq_false_2; [done|]. intros E.
  assert (El : lower (take (length word) t) = take (length word) t).
  { clear E. apply (Forall_take _ (length word)) in Ht. induction Ht as [|c l Hc _ IH]; [done|]. cbn. unfold tolower at 1.
    unfold isdigit in Hc. rewrite decide_False by lia. f_equal. exact IH. }
  rewrite El in E. apply (Forall_take _ (length word)) in Ht. rewrite E in Ht. clear -Ht Hw. induction Ht as [|c l Hc _ IH]; [done|].
  cbn [forallb] in Hw. rewrite Hc in Hw. by apply IH.
Qed.

(** Digits are read as the number they stand for. *)
Lemma strtod_digits neg t : all_digits t -> t <> [] -> digits_value 0 t < 2 ^ 53 ->
  strtod ((if neg : bool then ["-"%byte] else []) ++ t) = (of_decimal neg (digits_value 0 t) 0, [], false).
Proof.
  intros Ht Hne Hv. assert (Hsign : sign (skip_space ((if neg then ["-"%byte] else []) ++ t)) = (neg, t)).
  { destruct t as [|c t]; [done|]. apply Forall_cons in Ht as [Hc _]. destruct (digit_facts c Hc) as (H1 & H2 & H3 & _). destruct neg; [done|].
    cbn [app skip_space]. rewrite H3. cbn. by rewrite !decide_False. }
  unfold strtod. rewrite Hsign. rewrite !starts_with_digits by done. destruct (mantissa hex_digit _ _ _ _ _ _) as [[[m places] count] u].
  cbn [andb]. rewrite mantissa_digits by done. assert (Hl : 0 < zlen t) by (destruct t; [done|unfold zlen; simpl; lia]).
  rewrite (proj2 (Z.ltb_lt 0 (0 + zlen t))) by lia. cbn [exponent_part]. change (0 - 0) with 0. f_equal.
  change (10 ^ Z.max 0 0) with 1. change (10 ^ Z.max 0 (- 0)) with 1. rewrite Z.mul_1_r.
  pose proof (digits_value_nonneg t 0 ltac:(lia)) as Hnn. unfold of_decimal. destruct (digits_value 0 t) as [|p|p]; [done| |lia].
  cbn [Z.leb Z.compare]. change (10 ^ 0) with 1. rewrite Z.mul_1_r. cbn [Z.to_pos]. rewrite binary_round_small by lia.
  pose proof (digits_bound (Zpos p) ltac:(lia)) as Hd. cbn [range_error].
  pose proof (Z.pow_pos_nonneg 2 (53 - Zdigits2 (Zpos p)) ltac:(lia) ltac:(lia)).
  change (Zpos (digits2_pos (Z.to_pos (Zpos p * 2 ^ (53 - Zdigits2 (Zpos p)))))) with (Zdigits2 (Zpos (Z.to_pos (Zpos p * 2 ^ (53 - Zdigits2 (Zpos p)))))).
  rewrite Z2Pos.id, digits_shift by lia. by replace (Zdigits2 (Zpos p) + (53 - Zdigits2 (Zpos p))) with 53 by lia.
Qed.

Lemma string_to_double_print n : Z.abs n < 2 ^ 53 -> string_to_double (print_long n) = Ok (if n <? 0 then SFopp (of_Z (- n)) else of_Z n).
Proof.
  intros Hn. destruct (print_long_shape n ltac:(lia)) as (d & Hd & Hne & Hv & E). unfold string_to_double. rewrite E.
  assert (Hc : c_str ((if n <? 0 then ["-"%byte] else []) ++ d) = (if n <? 0 then ["-"%byte] else []) ++ d).
  { apply c_str_id. apply Forall_app. split; [destruct (n <? 0); by repeat constructor|]. eapply Forall_impl; [exact Hd|]. intros c Hc ->. done. }
  rewrite Hc, strtod_digits by (done || lia). rewrite Hv, of_decimal_small by lia. rewrite Nat.sub_0_r, Nat.eqb_refl. cbn [negb orb].
  rewrite bool_decide_eq_false_2 by (destruct (n <? 0), d; done). rewrite bool_decide_eq_false_2.
  - cbn [orb]. destruct (Z.ltb_spec n 0); [by rewrite Z.abs_neq by lia|by rewrite Z.abs_eq by lia].
  - destruct (n <? 0); [done|]. destruct d as [|c d]; [done|]. apply Forall_cons in Hd as [Hc0 _]. intros [= ->]. done.
Qed.

(** Every result is a number of the format. *)
Lemma valid_strtod s : valid (fst (fst (strtod s))).
Proof.
  unfold strtod. destruct (sign _) as [neg t]. repeat (case_match; try done); simplify_eq/=; try apply binary_round_valid; try apply valid_of_decimal.
Qed.

Lemma valid_string_to_double s d : string_to_double s = Ok d -> valid d.
Proof. unfold string_to_double. pose proof (valid_strtod (c_str s)). destruct (strtod _) as [[x pend] errno]. destruct (_ || errno); [done|]. by intros [= ->]. Qed.
