(* ===== verification/Specs.v ===== *)
(** * Specifications

    [spec/Custom.cc], [spec/Layered.cc] and [spec/Spec.cc]: dictionaries of values of many
    types with names that are compared without case, read with conversions, and stacks of
    such dictionaries that hide names and override each other.  A nested dictionary is a
    value; the pointers to it that may be shared are not modelled. *)
From Stdlib Require Import Floats.SpecFloat.
From S2P Require Import Prelude Text Strings Translator Double.
#[local] Set Warnings "-clear-no-such-hyp -register-all".

(** ** Values *)

(** The type [float]: IEEE 754 binary32. *)
Definition float_of_Z (z : Z) : double := binary_normalize 24 128 z 0 false.
(** A number of one format in another one *)
Definition renormalize (prec emax : Z) (x : double) : double :=
  match x with S754_finite s m e => binary_round prec emax s m e | _ => x end.
Definition float_to_double (x : double) : double := renormalize 53 1024 x.
Definition double_to_float (x : double) : double := renormalize 24 128 x.

(** [Custom::value_type]; texts of C are made strings by the constructors. *)
Inductive value_type :=
| VString (s : text) | VBool (b : bool) | VInt (z : Z) | VLong (z : Z) | VLongLong (z : Z) | VSize (z : Z) | VFloat (x : double) | VDouble (x : double)
| VInts (l : list Z) | VLongs (l : list Z) | VLongLongs (l : list Z) | VSizes (l : list Z) | VFloats (l : list double) | VDoubles (l : list double)
| VStrings (l : list text) | VCustom (c : gmap text value_type).

(** The types that can be asked for *)
Inductive vtype :=
| TString | TBool | TInt | TLong | TLongLong | TSize | TFloat | TDouble
| TInts | TLongs | TLongLongs | TSizes | TFloats | TDoubles | TStrings.

Abbreviation Custom := (gmap text value_type).

(** ** Conversions *)

(** [std::to_string(double)]: six decimals, rounded to nearest, ties to even *)
Definition round_div (n d : Z) : Z :=
  let q := n / d in
  match 2 * (n mod d) ?= d with Lt => q | Gt => q + 1 | Eq => if Z.even q then q else q + 1 end.
Definition six_decimals (n : Z) : text :=
  print_long (n / 10 ^ 6) ++ str "." ++ drop 1 (print_long (10 ^ 6 + n mod 10 ^ 6)).
Definition to_string (x : double) : text :=
  match x with
  | S754_zero s => (if s then str "-" else []) ++ str "0.000000"
  | S754_infinity s => (if s then str "-" else []) ++ str "inf"
  | S754_nan => str "nan"
  | S754_finite s m e =>
      (if s then str "-" else []) ++
      six_decimals (if 0 <=? e then Zpos m * 2 ^ e * 10 ^ 6 else round_div (Zpos m * 10 ^ 6) (2 ^ (- e)))
  end.

Definition integral (v : value_type) : option Z :=
  match v with VInt z | VLong z | VLongLong z | VSize z => Some z | _ => None end.
Definition integrals (v : value_type) : option (list Z) :=
  match v with VInts l | VLongs l | VLongLongs l | VSizes l => Some l | _ => None end.

(** [get_t_s], [get_t_v] from integers *)
Definition cast_integer (t : vtype) (z : Z) : option value_type :=
  match t with
  | TInt => Some (VInt (wrapS 32 z)) | TLong => Some (VLong (wrapS 64 z)) | TLongLong => Some (VLongLong (wrapS 64 z)) | TSize => Some (VSize (wrapU 64 z))
  | TFloat => Some (VFloat (float_of_Z z)) | TDouble => Some (VDouble (of_Z z)) | TString => Some (VString (print_long z)) | _ => None
  end.
Definition cast_integers (t : vtype) (l : list Z) : option value_type :=
  match t with
  | TInts => Some (VInts (wrapS 32 <$> l)) | TLongs => Some (VLongs (wrapS 64 <$> l)) | TLongLongs => Some (VLongLongs (wrapS 64 <$> l)) | TSizes => Some (VSizes (wrapU 64 <$> l))
  | TFloats => Some (VFloats (float_of_Z <$> l)) | TDoubles => Some (VDoubles (of_Z <$> l)) | _ => None
  end.

(** [get_t_s], [get_t_v] from real numbers *)
Definition cast_real (t : vtype) (v : value_type) : option value_type :=
  match t, v with
  | TFloat, VFloat x => Some (VFloat x) | TDouble, VFloat x => Some (VDouble (float_to_double x)) | TString, VFloat x => Some (VString (to_string (float_to_double x)))
  | TFloat, VDouble x => Some (VFloat (double_to_float x)) | TDouble, VDouble x => Some (VDouble x) | TString, VDouble x => Some (VString (to_string x))
  | _, _ => None
  end.
Definition cast_reals (t : vtype) (v : value_type) : option value_type :=
  match t, v with
  | TFloats, VFloats l => Some (VFloats l) | TDoubles, VFloats l => Some (VDoubles (float_to_double <$> l))
  | TFloats, VDoubles l => Some (VFloats (double_to_float <$> l)) | TDoubles, VDoubles l => Some (VDoubles l)
  | _, _ => None
  end.

(** ** [Custom] *)

Section Custom.
Implicit Types (c : Custom) (name : text).

(** [key_type]: names are compared in lower case. *)
Definition key_of name : text := lower name.

Definition get_t_s_integral (t : vtype) name c : option value_type :=
  v ← c !! key_of name; z ← integral v; cast_integer t z.
Definition get_t_s_real (t : vtype) name c : option value_type :=
  match get_t_s_integral t name c with
  | Some v => Some v
  | None => v ← c !! key_of name; cast_real t v
  end.
Definition get_t_v_integral (t : vtype) name c : option value_type :=
  v ← c !! key_of name; l ← integrals v; cast_integers t l.
Definition get_t_v_real (t : vtype) name c : option value_type :=
  match get_t_v_integral t name c with
  | Some v => Some v
  | None => v ← c !! key_of name; cast_reals t v
  end.

(** [bool get(name, T& value)] *)
Definition get (t : vtype) name c : option value_type :=
  match t with
  | TString => match c !! key_of name with Some (VString s) => Some (VString s) | Some _ => get_t_s_real TString name c | None => None end
  | TBool =>
      match c !! key_of name with
      | Some (VBool b) => Some (VBool b)
      | Some _ => match get_t_s_integral TInt name c with Some (VInt i) => Some (VBool (negb (i =? 0))) | _ => None end
      | None => None
      end
  | TInt | TLong | TLongLong | TSize => get_t_s_integral t name c
  | TFloat | TDouble => get_t_s_real t name c
  | TInts | TLongs | TLongLongs | TSizes => get_t_v_integral t name c
  | TFloats | TDoubles => get_t_v_real t name c
  | TStrings => match c !! key_of name with Some (VStrings l) => Some (VStrings l) | _ => None end
  end.

Definition has name c : bool := bool_decide (is_Some (c !! key_of name)).
Definition has_custom name c : bool := match c !! key_of name with Some (VCustom _) => true | _ => false end.
Definition custom name c : outcome Custom := match c !! key_of name with Some (VCustom m) => Ok m | _ => Throw SpecError end.
Definition only name c : bool := bool_decide (size c = 1%nat) && has name c.

Definition set name (v : value_type) c : Custom := <[key_of name := v]> c.
(** [set(const Custom& from)]: what is there is kept. *)
Definition set_from (from c : Custom) : Custom := c ∪ from.
Definition erase name c : Z * Custom := (if has name c then 1 else 0, delete (key_of name) c).
Definition empty c : bool := bool_decide (c = ∅).

(** [operator==]: every value of the first is there in the second, and equal in one of six
    types *)
Definition same (a b : value_type) : bool :=
  match a, b with
  | VLong x, VLong y => x =? y
  | VLongs x, VLongs y => bool_decide (x = y)
  | VDouble x, VDouble y => SFeqb x y
  | VDoubles x, VDoubles y => (length x =? length y)%nat && forallb (fun p => SFeqb p.1 p.2) (zip x y)
  | VString x, VString y => bool_decide (x = y)
  | VStrings x, VStrings y => bool_decide (x = y)
  | _, _ => false
  end.
Definition custom_value_equal (ca cb : Custom) name (t : vtype) : bool :=
  match get t name ca, get t name cb with Some a, Some b => same a b | _, _ => false end.
Definition custom_equal (c other : Custom) : bool :=
  forallb (fun e : text * value_type => bool_decide (is_Some (other !! e.1)) &&
    existsb (custom_value_equal c other e.1) [TLong; TLongs; TDouble; TDoubles; TString; TStrings]) (map_to_list c).
End Custom.

(** ** [Layered] *)

(** [Spec]: a dictionary, or one with layers in front of it and behind it *)
Inductive spec := ACustom (c : Custom) | ALayered (hide_ : gset text) (spec_ : spec) (front_ back_ : list spec).

(** [std::any_of] with a function that stores what it finds, from the front and from the back *)
Definition first_of {A B} (f : A -> option B) : list A -> option B :=
  fix go l := match l with [] => None | x :: l => match f x with Some v => Some v | None => go l end end.
Definition last_of {A B} (f : A -> option B) : list A -> option B :=
  fix go l := match l with [] => None | x :: l => match go l with Some v => Some v | None => f x end end.

Fixpoint spec_has (name : text) (s : spec) : bool :=
  match s with
  | ACustom c => has name c
  | ALayered hide base front back =>
      negb (bool_decide (name ∈ hide)) && (existsb (spec_has name) front || spec_has name base || existsb (spec_has name) back)
  end.

(** [get_t] *)
Fixpoint spec_get (t : vtype) (name : text) (s : spec) : option value_type :=
  match s with
  | ACustom c => get t name c
  | ALayered hide base front back =>
      if bool_decide (name ∈ hide) then None
      else
        match last_of (spec_get t name) front with
        | Some v => Some v
        | None => match spec_get t name base with Some v => Some v | None => first_of (spec_get t name) back end
        end
  end.

Fixpoint spec_only (name : text) (s : spec) : bool :=
  match s with
  | ACustom c => only name c
  | ALayered _ base front back =>
      let count l := foldr (fun s n => if spec_only name s then S n else n) O l in
      ((if spec_only name base then 1 else 0) + count front + count back =? 1)%nat
  end.

(** [spec(name)]: a nested specification.  The one of the class [Spec], which [Layered] calls
    for a name that it has, throws. *)
Fixpoint spec_spec (name : text) (s : spec) : outcome spec :=
  match s with
  | ACustom c =>
      match c !! key_of name with
      | Some (VCustom m) => Ok (ACustom m)
      | Some _ => Throw AssertionFailed
      | None => Throw SpecError
      end
  | ALayered _ _ front back =>
      let from := first_of (fun s => if spec_has name s then Some (spec_spec name s) else None) in
      match from front with
      | Some r => r
      | None =>
          if spec_has name s then Throw SpecError
          else match from back with Some r => r | None => Throw SpecError end
      end
  end.

(** [_get_t], [_get_d]: [get_string(name)], [get_int(name, default)], ... *)
Definition get_or_throw (t : vtype) (name : text) (s : spec) : outcome value_type :=
  match spec_get t name s with Some v => Ok v | None => Throw SpecError end.
Definition get_or_default (t : vtype) (name : text) (dflt : value_type) (s : spec) : value_type := default dflt (spec_get t name s).

(** The operations of [Layered] *)
Inductive layering := Hide (name : text) | Unhide (name : text) | PushBack (s : spec) | PushFront (s : spec).
Definition Layered_new (base : spec) : spec := ALayered ∅ base [] [].
Definition layer (o : layering) (s : spec) : spec :=
  match s with
  | ACustom c => ACustom c
  | ALayered hide base front back =>
      match o with
      | Hide name => ALayered ({[name]} ∪ hide) base front back
      | Unhide name => ALayered (hide ∖ {[name]}) base front back
      | PushBack s => ALayered hide base front (back ++ [s])
      | PushFront s => ALayered hide base (front ++ [s]) back
      end
  end.

(** ** What is set is read *)

Definition type_of (v : value_type) : option vtype :=
  match v with
  | VString _ => Some TString | VBool _ => Some TBool | VInt _ => Some TInt | VLong _ => Some TLong | VLongLong _ => Some TLongLong | VSize _ => Some TSize
  | VFloat _ => Some TFloat | VDouble _ => Some TDouble | VInts _ => Some TInts | VLongs _ => Some TLongs | VLongLongs _ => Some TLongLongs | VSizes _ => Some TSizes
  | VFloats _ => Some TFloats | VDoubles _ => Some TDoubles | VStrings _ => Some TStrings | VCustom _ => None
  end.
(** The integers are of their types. *)
Definition in_range (v : value_type) : Prop :=
  match v with
  | VInt z => in_S 32 z = true | VLong z | VLongLong z => in_S 64 z = true | VSize z => in_U 64 z = true
  | VInts l => Forall (fun z => in_S 32 z = true) l | VLongs l | VLongLongs l => Forall (fun z => in_S 64 z = true) l | VSizes l => Forall (fun z => in_U 64 z = true) l
  | _ => True
  end.

Lemma map_in_range (f : Z -> Z) (P : Z -> Prop) l : (forall z, P z -> f z = z) -> Forall P l -> f <$> l = l.
Proof. intros Hf. induction 1 as [|z l Hz Hl IH]; [done|]. by rewrite fmap_cons, IH, Hf. Qed.

Lemma get_own t v name c : type_of v = Some t -> in_range v -> c !! key_of name = Some v -> get t name c = Some v.
Proof.
  intros Ht Hr Hc. unfold get, get_t_s_real, get_t_v_real, get_t_s_integral, get_t_v_integral.
  destruct v; simpl in Ht; try done; injection Ht as <-; rewrite Hc; simpl in *; try done.
  all: f_equal; f_equal; try (by apply wrapS_id); try (by apply wrapU_id).
  all: eapply map_in_range; [|exact Hr]; intros z Hz; first [by apply wrapS_id|by apply wrapU_id].
Qed.

Lemma get_ext t name name' c c' : c !! key_of name = c' !! key_of name' -> get t name c = get t name' c'.
Proof. intros E. unfold get, get_t_s_real, get_t_v_real, get_t_s_integral, get_t_v_integral. by rewrite E. Qed.

Lemma lower_lower s : lower (lower s) = lower s.
Proof.
  unfold lower. rewrite <- list_fmap_compose. apply list_fmap_ext. intros _ c _. simpl.
  assert (H : forall x, tolower (tolower x) = tolower x) by (intros x; destruct x; reflexivity). apply H.
Qed.

(** A value that was set is read back in its type, whatever the case of the name, and other
    names keep what they had; an integer is read as any integer type that can hold it, as a
    text and as a truth value. *)
Theorem custom_set_get name v t c : type_of v = Some t -> in_range v ->
  (forall name', lower name' = lower name -> get t name' (set name v c) = Some v /\ has name' (set name v c) = true) /\
  (forall name' t', lower name' <> lower name -> get t' name' (set name v c) = get t' name' c) /\
  (forall z, integral v = Some z ->
     (in_S 32 z = true -> get TInt name (set name v c) = Some (VInt z)) /\ (in_S 64 z = true -> get TLong name (set name v c) = Some (VLong z)) /\
     (in_U 64 z = true -> get TSize name (set name v c) = Some (VSize z)) /\
     get TString name (set name v c) = Some (VString (print_long z)) /\ get TDouble name (set name v c) = Some (VDouble (of_Z z))).
Proof.
  intros Ht Hr. assert (Hl : forall name', lower name' = lower name -> set name v c !! key_of name' = Some v).
  { intros name' E. unfold set, key_of. rewrite E. apply lookup_insert_eq. }
  split_and!.
  - intros name' E. split; [by apply get_own; [| |apply Hl]|]. unfold has. rewrite Hl by done. by apply bool_decide_eq_true_2.
  - intros name' t' Hne. apply get_ext. unfold set, key_of. by rewrite lookup_insert_ne.
  - intros z Hz. unfold get, get_t_s_real, get_t_s_integral. rewrite !(Hl name eq_refl).
    destruct v; simpl in Hz; try done; injection Hz as ->; simpl; split_and!; try done; intros; by rewrite ?wrapS_id, ?wrapU_id.
Qed.

(** ** Comparison *)

Definition comparable (v : value_type) : bool :=
  match v with
  | VBool _ | VCustom _ => false
  | VFloat x => negb (isnan (float_to_double x)) | VDouble x => negb (isnan x)
  | VFloats l => forallb (fun x => negb (isnan (float_to_double x))) l | VDoubles l => forallb (fun x => negb (isnan x)) l
  | _ => true
  end.

Lemma SFeqb_self x : isnan x = false -> SFeqb x x = true.
Proof. unfold SFeqb. destruct x as [[]|[]| |[] m e]; simpl; try done; intros _; by rewrite Z.compare_refl, Pos.compare_cont_refl. Qed.

Lemma same_doubles l : forallb (fun x => negb (isnan x)) l = true -> same (VDoubles l) (VDoubles l) = true.
Proof.
  intros H. simpl. rewrite Nat.eqb_refl. simpl. induction l as [|x l IH]; [done|]. simpl in *. apply andb_prop in H as [Hx Hl].
  rewrite SFeqb_self by (by destruct (isnan x)). by apply IH.
Qed.

(** A value is equal to itself in one of the types of the comparison. *)
Lemma comparable_equal v name a b : comparable v = true -> a !! key_of name = Some v -> b !! key_of name = Some v ->
  existsb (custom_value_equal a b name) [TLong; TLongs; TDouble; TDoubles; TString; TStrings] = true.
Proof.
  intros Hv Ha Hb. apply existsb_exists. unfold custom_value_equal, get, get_t_s_real, get_t_v_real, get_t_s_integral, get_t_v_integral.
  destruct v; simpl in Hv; try done.
  1: exists TString. 2-5: exists TLong. 6, 7: exists TDouble. 8-11: exists TLongs. 12, 13: exists TDoubles. 14: exists TStrings.
  all: split; [simpl; tauto|]; rewrite Ha, Hb; simpl.
  all: try (by apply bool_decide_eq_true); try apply Z.eqb_refl; try (by apply SFeqb_self; apply negb_true_iff in Hv).
  - apply same_doubles. clear Ha Hb. induction l as [|x l IH]; [done|]. simpl in *. apply andb_prop in Hv as [Hx Hl]. rewrite Hx. by apply IH.
  - by apply same_doubles.
Qed.

(** Every dictionary is equal to those that have all of its values, itself included, unless
    it holds a truth value, a nested dictionary or a NaN. *)
Theorem custom_equal_subset (c other : Custom) : (forall k v, c !! k = Some v -> lower k = k /\ comparable v = true) -> c ⊆ other -> custom_equal c other = true.
Proof.
  intros Hc Hs. unfold custom_equal. apply forallb_forall. intros [k v] Hin. apply list_elem_of_In, elem_of_map_to_list in Hin.
  destruct (Hc k v Hin) as [Hk Hv]. pose proof (lookup_weaken _ _ _ _ Hin Hs) as Ho. simpl. rewrite bool_decide_eq_true_2 by eauto. simpl.
  apply (comparable_equal v); unfold key_of; by rewrite ?Hk.
Qed.

(** ** Layers *)

Definition fronts (os : list layering) : list spec := omap (fun o => match o with PushFront s => Some s | _ => None end) os.
Definition backs (os : list layering) : list spec := omap (fun o => match o with PushBack s => Some s | _ => None end) os.
Definition hidden (os : list layering) (name : text) : bool :=
  foldl (fun b o => match o with Hide n => b || bool_decide (n = name) | Unhide n => b && negb (bool_decide (n = name)) | _ => b end) false os.
Definition layered (base : spec) (os : list layering) : spec := foldl (fun s o => layer o s) (Layered_new base) os.

Lemma layered_fields base os : exists hide, layered base os = ALayered hide base (fronts os) (backs os) /\ forall name, bool_decide (name ∈ hide) = hidden os name.
Proof.
  induction os as [|o os IH] using rev_ind; [by exists ∅|]. destruct IH as (hide & E & Hh). unfold layered, hidden, fronts, backs in *. rewrite !foldl_app. setoid_rewrite foldl_app.
  rewrite !omap_app, E. destruct o as [n|n|s|s]; simpl; rewrite ?app_nil_r; eexists; (split; [done|]); intros name; rewrite <- ?Hh; try done.
  - apply Bool.eq_iff_eq_true. rewrite orb_true_iff, !bool_decide_eq_true. set_solver.
  - apply Bool.eq_iff_eq_true. rewrite andb_true_iff, negb_true_iff, bool_decide_eq_false, !bool_decide_eq_true. set_solver.
Qed.

Lemma first_of_app {A B} (f : A -> option B) l k : first_of f (l ++ k) = match first_of f l with Some v => Some v | None => first_of f k end.
Proof. induction l as [|x l IH]; simpl; [done|]. by destruct (f x). Qed.
Lemma last_of_rev {A B} (f : A -> option B) l : last_of f l = first_of f (rev l).
Proof. induction l as [|x l IH]; [done|]. simpl. rewrite IH, first_of_app. simpl. by destruct (first_of f (rev l)), (f x). Qed.

Lemma existsb_reversed {A} (f : A -> bool) l : existsb f (rev l) = existsb f l.
Proof. induction l as [|x l IH]; [done|]. simpl. rewrite existsb_app, IH. simpl. by rewrite orb_false_r, orb_comm. Qed.

(** A stack of dictionaries is read from its last front layer to its first one, then its
    base, then its back layers in the order in which they were added: the first that has a
    value of the type gives it.  A name that is hidden has no value, until it is unhidden. *)
Theorem layered_resolves base os t name :
  spec_get t name (layered base os) = (if hidden os name then None else first_of (spec_get t name) (rev (fronts os) ++ base :: backs os)) /\
  spec_has name (layered base os) = (negb (hidden os name) && existsb (spec_has name) (rev (fronts os) ++ base :: backs os)).
Proof.
  destruct (layered_fields base os) as (hide & -> & Hh). simpl. rewrite Hh. split.
  - destruct (hidden os name); [done|]. rewrite first_of_app, last_of_rev. done.
  - f_equal. rewrite existsb_app, existsb_reversed. simpl. by rewrite orb_assoc.
Qed.

(** ** Examples *)

Definition dict (l : list (text * value_type)) : Custom := list_to_map l.

Example spec_to_string : to_string (of_decimal false 15 (-1)) = str "1.500000" /\ to_string (of_decimal true 1234567 (-7)) = str "-0.123457" /\ to_string (of_Z 10) = str "10.000000".
Proof. split_and!; by vm_compute. Qed.

(** A dictionary with a truth value is not equal to itself. *)
Example custom_bool_unequal : let c := dict [(str "b", VBool true)] in custom_equal c c = false.
Proof. by vm_compute. Qed.

(** A nested dictionary of the base is not found through a layer, although the layer has it;
    one that is hidden is found behind the base. *)
Example layered_spec_throws : let c := ACustom (dict [(str "n", VCustom ∅)]) in
  spec_has (str "n") (Layered_new c) = true /\ spec_spec (str "n") c = Ok (ACustom ∅) /\ spec_spec (str "n") (Layered_new c) = Throw SpecError.
Proof. split_and!; by vm_compute. Qed.
Example layered_spec_hidden : let c := ACustom (dict [(str "n", VCustom ∅)]) in
  let l := layered (ACustom ∅) [PushBack c] in let h := layer (Hide (str "n")) l in
  spec_has (str "n") l = true /\ spec_spec (str "n") l = Throw SpecError /\ spec_has (str "n") h = false /\ spec_spec (str "n") h = Ok (ACustom ∅).
Proof. split_and!; by vm_compute. Qed.

(** Names are hidden with their case, and looked up without. *)
Example layered_hide_case : let l := layered (ACustom (dict [(str "grid", VInt 1)])) [Hide (str "grid")] in
  spec_get TInt (str "grid") l = None /\ spec_get TInt (str "Grid") l = Some (VInt 1).
Proof. split_and!; by vm_compute. Qed.
