(* ===== verification/Trie.v ===== *)
(** * Trie

    [container/Trie.cc]: a map from strings to values as a tree with one level for every
    character.  A node keeps its children in a vector that starts at the character [from_]
    and is widened when a character outside of it is inserted; nodes that are of no more
    use are deleted by [remove].  A finite map is the specification. *)
From S2P Require Import Prelude Text Strings Translator.
#[local] Open Scope Z_scope.
#[local] Set Warnings "-register-all".

Section Trie.
Context {T : Type}.
(** [value_] of a new node is not initialised. *)
Context (junk : T).

(** ** The node *)

Inductive trie := Trie { from_ : Z; set_ : bool; kids_ : list (option trie); value_ : T }.

Definition new_trie : trie := Trie 0 false [] junk.
Definition set_kids (f : Z) (l : list (option trie)) (t : trie) : trie := Trie f (set_ t) l (value_ t).
Definition set_value (v : T) (t : trie) : trie := Trie (from_ t) true (kids_ t) v.
Definition unset (t : trie) : trie := Trie (from_ t) false (kids_ t) (value_ t).

Definition empty (t : trie) : bool := bool_decide (kids_ t = []) && negb (set_ t).

(** [kids_[pos]], when [pos] is in range and the child is there *)
Definition kid (pos : Z) (t : trie) : option trie :=
  if (0 <=? pos) && (pos <? zlen (kids_ t)) then mjoin (kids_ t !! Z.to_nat pos) else None.

(** ** Search *)

(** [find(key, false)] *)
Fixpoint find_node (key : list byte) (t : trie) : option trie :=
  match key with
  | [] => Some t
  | c :: key => k ← kid (byte.unsigned c - from_ t) t; find_node key k
  end.

Definition find (key : list byte) (t : trie) : option T :=
  match find_node (c_str key) t with
  | Some x => if set_ x then Some (value_ x) else None
  | None => None
  end.
Definition contains (key : list byte) (t : trie) : bool := bool_decide (is_Some (find key t)).

(** ** Insertion *)

(** The vector of the children, widened so that [c] has a place. *)
Definition expand (c : Z) (t : trie) : trie :=
  let pos := c - from_ t in
  if (pos <? 0) || (zlen (kids_ t) <=? pos) then
    if bool_decide (kids_ t = []) then set_kids c [None] t
    else if pos <? 0 then set_kids c (replicate (Z.to_nat (- pos)) None ++ kids_ t) t
    else set_kids (from_ t) (kids_ t ++ replicate (Z.to_nat (pos + 1 - zlen (kids_ t))) None) t
  else t.

(** [find(key, true)], and what is done to the node that it returns *)
Fixpoint make_node (key : list byte) (f : trie -> trie) (t : trie) : outcome trie :=
  match key with
  | [] => Ok (f t)
  | c :: key =>
      let pos := byte.unsigned c - from_ t in
      match kid pos t with
      | Some k => k ← make_node key f k; Ok (set_kids (from_ t) (<[Z.to_nat pos := Some k]> (kids_ t)) t)
      | None =>
          let t := expand (byte.unsigned c) t in
          let pos := byte.unsigned c - from_ t in
          match kids_ t !! Z.to_nat pos with
          | None => Undef
          | Some k =>
              ASSERT (bool_decide (k = None)) ;;
              k ← make_node key f new_trie;
              Ok (set_kids (from_ t) (<[Z.to_nat pos := Some k]> (kids_ t)) t)
          end
      end
  end.
Definition insert (key : list byte) (value : T) (t : trie) : outcome trie := make_node (c_str key) (set_value value) t.

(** ** Removal *)

(** [remove(key)]: whether the node is to be deleted, and the node as it is left *)
Fixpoint remove_node (key : list byte) (t : trie) : bool * trie :=
  match key with
  | [] => (bool_decide (kids_ t = []), unset t)
  | c :: key =>
      let pos := byte.unsigned c - from_ t in
      match kid pos t with
      | Some k =>
          let '(b, k) := remove_node key k in
          let kids := <[Z.to_nat pos := if b then None else Some k]> (kids_ t) in
          if b then
            if existsb (fun k => bool_decide (is_Some k)) kids then (false, set_kids (from_ t) kids t)
            else (negb (set_ t), set_kids (from_ t) [] t)
          else (false, set_kids (from_ t) kids t)
      | None => (false, t)
      end
  end.
Definition remove (key : list byte) (t : trie) : trie := (remove_node (c_str key) t).2.

(** ** The contents of a node *)

Definition node_value (t : trie) : option T := if set_ t then Some (value_ t) else None.
Definition get (key : list byte) (t : trie) : option T := find_node key t ≫= node_value.

Lemma find_get key t : find key t = get (c_str key) t.
Proof. unfold find, get. by destruct (find_node (c_str key) t). Qed.

Lemma kid_range pos t k : kid pos t = Some k -> 0 <= pos < zlen (kids_ t) /\ kids_ t !! Z.to_nat pos = Some (Some k).
Proof.
  unfold kid. destruct (0 <=? pos) eqn:H1, (pos <? zlen (kids_ t)) eqn:H2; simpl; try done. intros E. split; [lia|].
  destruct (kids_ t !! Z.to_nat pos) as [[]|]; simpl in E; congruence.
Qed.

(** A child is replaced, the others are as they were. *)
Lemma kid_update c c' o t : 0 <= byte.unsigned c - from_ t < zlen (kids_ t) ->
  kid (byte.unsigned c' - from_ t) (set_kids (from_ t) (<[Z.to_nat (byte.unsigned c - from_ t) := o]> (kids_ t)) t) =
  if decide (c = c') then o else kid (byte.unsigned c' - from_ t) t.
Proof.
  intros Hr. unfold kid. simpl. unfold zlen in *. rewrite length_insert.
  destruct (decide (c = c')) as [<-|Hc].
  - rewrite (proj2 (Z.leb_le _ _)), (proj2 (Z.ltb_lt _ _)) by lia. simpl. by rewrite list_lookup_insert_eq by lia.
  - destruct (0 <=? byte.unsigned c' - from_ t) eqn:H1, (byte.unsigned c' - from_ t <? Z.of_nat (length (kids_ t))) eqn:H2; simpl; try done.
    rewrite list_lookup_insert_ne; [done|]. intros E. apply Hc, byte.unsigned_inj. lia.
Qed.

Lemma kid_none pos t : Forall (eq None) (kids_ t) -> kid pos t = None.
Proof.
  intros H. unfold kid. destruct (_ && _); [|done]. destruct (kids_ t !! Z.to_nat pos) eqn:E; [|done].
  by rewrite Forall_lookup in H; rewrite <- (H _ _ E).
Qed.

(** Widening the vector adds a place for the character and changes nothing else. *)
Lemma kid_expand c c' t : kid (c' - from_ (expand c t)) (expand c t) = kid (c' - from_ t) t.
Proof.
  unfold expand. destruct ((c - from_ t <? 0) || (zlen (kids_ t) <=? c - from_ t)) eqn:H; [|done].
  case_bool_decide as He.
  - rewrite !kid_none; [done|by rewrite He|by repeat constructor].
  - destruct (c - from_ t <? 0) eqn:Hn; unfold kid; simpl; unfold zlen; rewrite length_app, length_replicate.
    + destruct (0 <=? c' - from_ t) eqn:H3.
      * replace (0 <=? c' - c) with true by lia. simpl. replace (c' - c <? Z.of_nat (Z.to_nat (- (c - from_ t)) + length (kids_ t))) with (c' - from_ t <? Z.of_nat (length (kids_ t)))
          by (apply Bool.eq_iff_eq_true; rewrite !Z.ltb_lt; lia).
        rewrite lookup_app_r by (rewrite length_replicate; lia). rewrite length_replicate. by replace (Z.to_nat (c' - c) - Z.to_nat (- (c - from_ t)))%nat with (Z.to_nat (c' - from_ t)) by lia.
      * simpl. destruct (0 <=? c' - c) eqn:H1; [|done]. simpl. destruct (c' - c <? _) eqn:H2; [|done].
        rewrite lookup_app_l by (rewrite length_replicate; lia). by rewrite lookup_replicate_2 by lia.
    + simpl in H. unfold zlen in H. destruct (0 <=? c' - from_ t) eqn:H3; [|done]. simpl. destruct (c' - from_ t <? Z.of_nat (length (kids_ t))) eqn:H4; simpl.
      * destruct (c' - from_ t <? Z.of_nat (_ + _)) eqn:H2; [by rewrite lookup_app_l by lia|].
        apply Z.ltb_ge in H2. apply Z.ltb_lt in H4. lia.
      * destruct (c' - from_ t <? Z.of_nat (_ + _)) eqn:H2; [|done]. apply Z.ltb_lt in H2. apply Z.ltb_ge in H4. apply Z.leb_le in H, H3.
        rewrite lookup_app_r by lia. by rewrite lookup_replicate_2 by lia.
Qed.

Lemma expand_range c t : 0 <= c - from_ (expand c t) < zlen (kids_ (expand c t)).
Proof.
  unfold expand. destruct ((c - from_ t <? 0) || (zlen (kids_ t) <=? c - from_ t)) eqn:H; [|lia].
  case_bool_decide as He; [simpl; unfold zlen; simpl; lia|].
  destruct (c - from_ t <? 0) eqn:Hn; simpl; unfold zlen in *; rewrite length_app, length_replicate; [|lia].
  destruct (kids_ t); [done|simpl]. lia.
Qed.

Lemma kid_free c t : kid (c - from_ t) t = None -> kids_ (expand c t) !! Z.to_nat (c - from_ (expand c t)) = Some None.
Proof.
  intros H. pose proof (expand_range c t) as Hr. rewrite <- (kid_expand c c t) in H. unfold kid in H.
  rewrite (proj2 (Z.leb_le _ _)), (proj2 (Z.ltb_lt _ _)) in H by lia. simpl in H.
  destruct (lookup_lt_is_Some_2 (kids_ (expand c t)) (Z.to_nat (c - from_ (expand c t)))) as [o E]; [unfold zlen in Hr; lia|].
  rewrite E in *. by destruct o.
Qed.

Lemma expand_value c t : node_value (expand c t) = node_value t.
Proof. unfold expand. destruct (_ || _); [|done]. case_bool_decide; [done|]. by destruct (_ <? 0). Qed.

Lemma get_cons c key t : get (c :: key) t = kid (byte.unsigned c - from_ t) t ≫= get key.
Proof. unfold get. simpl. by destruct (kid _ _). Qed.

Lemma get_new key : get key new_trie = None.
Proof. destruct key as [|c key]; [done|]. by rewrite get_cons, kid_none by done. Qed.

(** The contents of a node with a child replaced *)
Lemma get_update c key key' t o (x : option T) : 0 <= byte.unsigned c - from_ t < zlen (kids_ t) ->
  (forall key', (o ≫= get key') = if decide (key = key') then x else kid (byte.unsigned c - from_ t) t ≫= get key') ->
  get key' (set_kids (from_ t) (<[Z.to_nat (byte.unsigned c - from_ t) := o]> (kids_ t)) t) =
  if decide (c :: key = key') then x else get key' t.
Proof.
  intros Hr Ho. destruct key' as [|c' key']; [by rewrite decide_False by done|]. rewrite !get_cons.
  change (from_ (set_kids (from_ t) ?l t)) with (from_ t). rewrite kid_update by done.
  destruct (decide (c = c')) as [<-|Hc]; [|by rewrite decide_False by congruence]. rewrite Ho.
  by destruct (decide (key = key')) as [<-|Hk]; [rewrite decide_True|rewrite decide_False by congruence].
Qed.

(** ** Insertion and removal change one key *)

Lemma make_node_get key v : forall t, exists t', make_node key (set_value v) t = Ok t' /\
  forall key', get key' t' = if decide (key = key') then Some v else get key' t.
Proof.
  induction key as [|c key IH]; intros t; simpl.
  - eexists. split; [done|]. intros [|c' key']; [done|]. by rewrite decide_False, !get_cons by done.
  - destruct (kid (byte.unsigned c - from_ t) t) as [k|] eqn:Ek.
    + destruct (IH k) as (k' & -> & Hk). eexists. split; [done|]. intros key'. apply get_update; [by apply kid_range in Ek as [? _]|]. by rewrite Ek.
    + rewrite (kid_free _ _ Ek). simpl. destruct (IH new_trie) as (k' & -> & Hk). eexists. split; [done|]. intros key'. pose proof (expand_range (byte.unsigned c) t) as Hr.
      rewrite (get_update c key key' _ _ (Some v) Hr).
      * destruct (decide (c :: key = key')); [done|]. destruct key' as [|c' key']; [apply expand_value|]. by rewrite !get_cons, kid_expand.
      * intros key1. rewrite kid_expand, Ek. simpl. by rewrite Hk, get_new.
Qed.

Lemma remove_node_empty key : forall t, (remove_node key t).1 = true -> empty (remove_node key t).2 = true.
Proof.
  induction key as [|c key IH]; intros t; simpl; [unfold empty; simpl; by intros ->|].
  destruct (kid _ t) as [k|]; [|done]. destruct (remove_node key k) as [[] k']; [|done].
  destruct (existsb _ _); [done|]. by destruct t as [? []].
Qed.

Lemma get_empty key t : empty t = true -> get key t = None.
Proof.
  unfold empty. rewrite andb_true_iff, bool_decide_eq_true, negb_true_iff. intros [Hk Hs].
  destruct key as [|c key]; [unfold get, node_value; simpl; by rewrite Hs|]. by rewrite get_cons, kid_none by by rewrite Hk.
Qed.

Lemma get_no_kids key f f' l l' t : Forall (eq None) l -> Forall (eq None) l' -> get key (set_kids f l t) = get key (set_kids f' l' t).
Proof. intros H H'. destruct key as [|c key]; [done|]. by rewrite !get_cons, !kid_none. Qed.

Lemma no_kid (l : list (option trie)) : existsb (fun k => bool_decide (is_Some k)) l = false -> Forall (eq None) l.
Proof.
  intros H. apply Forall_forall. intros [k|] Hk; [|done]. exfalso. apply not_true_iff_false in H. apply H, existsb_exists.
  exists (Some k). split; [by apply list_elem_of_In|by apply bool_decide_eq_true].
Qed.

Lemma remove_node_get key : forall t key', get key' (remove_node key t).2 = if decide (key = key') then None else get key' t.
Proof.
  induction key as [|c key IH]; intros t key'; simpl.
  - destruct key' as [|c' key']; [done|]. by rewrite decide_False, !get_cons by done.
  - destruct (kid _ t) as [k|] eqn:Ek; simpl.
    2: { destruct (decide (c :: key = key')) as [<-|]; [|done]. by rewrite get_cons, Ek. }
    pose proof (IH k) as Hk. pose proof (remove_node_empty key k) as He. destruct (remove_node key k) as [b k']. simpl in *.
    assert (Hu : get key' (set_kids (from_ t) (<[Z.to_nat (byte.unsigned c - from_ t) := if b then None else Some k']> (kids_ t)) t) =
                 if decide (c :: key = key') then None else get key' t).
    { apply get_update; [by apply kid_range in Ek as [? _]|]. intros key1. rewrite Ek. simpl. rewrite <- Hk.
      destruct b; [by rewrite get_empty by auto|done]. }
    destruct b; [|done]. destruct (existsb _ _) eqn:Ex; simpl; [done|]. rewrite <- Hu. apply get_no_kids; [done|by apply no_kid].
Qed.

(** ** No node is kept in vain *)

(** The characters of the children are bytes, and every node below the root is needed. *)
Inductive tidy : trie -> Prop :=
| Tidy t : 0 <= from_ t -> from_ t + zlen (kids_ t) <= 256 ->
    (kids_ t <> [] -> exists k, Some k ∈ kids_ t) ->
    (forall k, Some k ∈ kids_ t -> empty k = false) ->
    (forall k, Some k ∈ kids_ t -> tidy k) -> tidy t.

Lemma tidy_new : tidy new_trie.
Proof. apply Tidy; [simpl; lia|unfold zlen; simpl; lia|done|intros k Hk; inversion Hk..]. Qed.

Lemma elem_of_update {A} (i : nat) (x y : A) (l : list A) : y ∈ <[i := x]> l -> y = x \/ y ∈ l.
Proof.
  intros [j Hj]%list_elem_of_lookup. destruct (decide (i = j)) as [<-|Hi].
  - destruct (decide (i < length l)%nat); [rewrite list_lookup_insert_eq in Hj by done; left; congruence|].
    rewrite list_insert_ge in Hj by lia. right. by eapply list_elem_of_lookup_2.
  - rewrite list_lookup_insert_ne in Hj by done. right. by eapply list_elem_of_lookup_2.
Qed.

Lemma tidy_update i k t : 0 <= from_ t -> from_ t + zlen (kids_ t) <= 256 -> (i < length (kids_ t))%nat ->
  (forall k, Some k ∈ kids_ t -> empty k = false) -> (forall k, Some k ∈ kids_ t -> tidy k) -> tidy k -> empty k = false ->
  tidy (set_kids (from_ t) (<[i := Some k]> (kids_ t)) t) /\ empty (set_kids (from_ t) (<[i := Some k]> (kids_ t)) t) = false.
Proof.
  intros H0 H1 Hi He Ht Hk Hek. assert (Hin : Some k ∈ <[i := Some k]> (kids_ t)) by (eapply list_elem_of_lookup_2, list_lookup_insert_eq; done). split.
  - apply Tidy; simpl; [done|unfold zlen in *; by rewrite length_insert|eauto| |];
      intros k' [E|E]%elem_of_update; (by injection E as ->) || eauto.
  - unfold empty. simpl. rewrite bool_decide_eq_false_2; [done|]. intros E. rewrite E in Hin. inversion Hin.
Qed.

Lemma expand_kids c k t : Some k ∈ kids_ (expand c t) -> Some k ∈ kids_ t.
Proof.
  unfold expand. destruct (_ || _); [|done]. case_bool_decide; simpl.
  - intros Hk%list_elem_of_singleton. done.
  - destruct (_ <? 0); simpl; rewrite elem_of_app, elem_of_replicate; intros [Hk|Hk]; try done; by destruct Hk.
Qed.

Lemma expand_bounds c t : 0 <= c < 256 -> 0 <= from_ t -> from_ t + zlen (kids_ t) <= 256 -> 0 <= from_ (expand c t) /\ from_ (expand c t) + zlen (kids_ (expand c t)) <= 256.
Proof.
  intros Hc H0 H1. unfold expand. destruct (_ || _) eqn:E; [|done]. case_bool_decide; [simpl; unfold zlen; simpl; lia|].
  destruct (c - from_ t <? 0) eqn:E1; simpl; unfold zlen in *; rewrite length_app, length_replicate; [apply Z.ltb_lt in E1|apply Z.ltb_ge in E1; simpl in E; apply Z.leb_le in E]; lia.
Qed.
Lemma make_node_tidy key v : forall t t', tidy t -> make_node key (set_value v) t = Ok t' -> tidy t' /\ empty t' = false.
Proof.
  induction key as [|c key IH]; intros t t' Ht; simpl.
  - intros [= <-]. split; [|unfold empty; simpl; by rewrite andb_false_r]. by destruct Ht; apply Tidy.
  - destruct Ht as [t H0 H1 H2 H3 H4]. destruct (kid (byte.unsigned c - from_ t) t) as [k|] eqn:Ek.
    + apply kid_range in Ek as [Hr Hk]. apply list_elem_of_lookup_2 in Hk as Hin. destruct (make_node key _ k) as [k'| | |] eqn:Em; [|discriminate..].
      intros [= <-]. destruct (IH _ _ (H4 _ Hin) Em). apply tidy_update; [exact H0|exact H1|unfold zlen in Hr; lia|exact H3|exact H4|assumption..].
    + rewrite (kid_free _ _ Ek). simpl. destruct (make_node key _ new_trie) as [k'| | |] eqn:Em; [|discriminate..]. intros [= <-].
      destruct (IH _ _ tidy_new Em). destruct (expand_bounds (byte.unsigned c) t) as [Hb0 Hb1]; [apply byte.unsigned_range|done..|].
      pose proof (expand_range (byte.unsigned c) t) as Hr. apply tidy_update; [exact Hb0|exact Hb1|unfold zlen in Hr; lia|intros x Hx%expand_kids; auto..|assumption|assumption].
Qed.

Lemma remove_node_tidy key : forall t, tidy t -> tidy (remove_node key t).2 /\
  ((remove_node key t).1 = false -> empty t = false -> empty (remove_node key t).2 = false).
Proof.
  induction key as [|c key IH]; intros t Ht; simpl.
  - split; [by destruct Ht; apply Tidy|]. unfold empty. simpl. by intros ->.
  - destruct Ht as [t H0 H1 H2 H3 H4]. assert (Ht : tidy t) by by apply Tidy. destruct (kid _ t) as [k|] eqn:Ek; [|done].
    apply kid_range in Ek as [Hr Hk]. apply list_elem_of_lookup_2 in Hk as Hin. destruct (IH k (H4 _ Hin)) as [Hk1 Hk2].
    pose proof (remove_node_empty key k) as He. destruct (remove_node key k) as [b k']. simpl in *. destruct b.
    + destruct (existsb _ _) eqn:Ex.
      * apply existsb_exists in Ex as ([x|] & Hx & Hs); [|by apply bool_decide_eq_true, is_Some_None in Hs]. apply list_elem_of_In in Hx. split.
        -- apply Tidy; simpl; [done|unfold zlen in *; by rewrite length_insert|eauto|intros y [|]%elem_of_update; eauto; done..].
        -- intros _ _. unfold empty. simpl. rewrite bool_decide_eq_false_2; [done|]. intros E. rewrite E in Hx. inversion Hx.
      * split; [apply Tidy; simpl; [done|pose proof (zlen_nonneg (kids_ t)); rewrite zlen_nil; lia|done|intros x Hx; inversion Hx..]|].
        unfold empty. simpl. intros ->. done.
    + unfold zlen in Hr. destruct (tidy_update (Z.to_nat (byte.unsigned c - from_ t)) k' t) as [? ?]; [exact H0|exact H1|lia|exact H3|exact H4|exact Hk1|by auto|by split].
Qed.

(** A node that is not empty leads to a value. *)
Lemma tidy_reaches t : tidy t -> empty t = false -> exists key, is_Some (get key t).
Proof.
  induction 1 as [t H0 H1 H2 H3 H4 IH]. intros He. destruct (set_ t) eqn:Es; [exists []; unfold get, node_value; simpl; by rewrite Es|].
  destruct H2 as [k Hk]; [unfold empty in He; rewrite Es, andb_true_r in He; by apply bool_decide_eq_false in He|].
  destruct (IH k Hk (H3 k Hk)) as [key Hkey]. apply list_elem_of_lookup in Hk as [i Hi]. pose proof (lookup_lt_Some _ _ _ Hi) as Hl. unfold zlen in H1.
  exists (byte.of_Z (from_ t + Z.of_nat i) :: key). rewrite get_cons, byte.unsigned_of_Z. unfold byte.wrap. rewrite Z.mod_small by lia.
  replace (from_ t + Z.of_nat i - from_ t) with (Z.of_nat i) by lia. unfold kid, zlen.
  rewrite (proj2 (Z.leb_le _ _)), (proj2 (Z.ltb_lt _ _)) by lia. simpl. by rewrite Nat2Z.id, Hi.
Qed.

(** ** Refinement *)

Inductive op := Insert (key : list byte) (v : T) | Remove (key : list byte) | Find (key : list byte) | Contains (key : list byte) | Empty.
Inductive answer := Done | Value (o : option T) | Truth (b : bool).

Definition run_op (o : op) (t : trie) : outcome (answer * trie) :=
  match o with
  | Insert key v => t ← insert key v t; Ok (Done, t)
  | Remove key => Ok (Done, remove key t)
  | Find key => Ok (Value (find key t), t)
  | Contains key => Ok (Truth (contains key t), t)
  | Empty => Ok (Truth (empty t), t)
  end.
Fixpoint run (os : list op) (t : trie) : outcome (list answer * trie) :=
  match os with
  | [] => Ok ([], t)
  | o :: os => '(a, t) ← run_op o t; '(l, t) ← run os t; Ok (a :: l, t)
  end.

(** The map has the keys as C strings. *)
Definition map_op (o : op) (m : gmap (list byte) T) : answer * gmap (list byte) T :=
  match o with
  | Insert key v => (Done, <[c_str key := v]> m)
  | Remove key => (Done, delete (c_str key) m)
  | Find key => (Value (m !! c_str key), m)
  | Contains key => (Truth (bool_decide (is_Some (m !! c_str key))), m)
  | Empty => (Truth (bool_decide (m = ∅)), m)
  end.
Fixpoint map_run (os : list op) (m : gmap (list byte) T) : list answer * gmap (list byte) T :=
  match os with
  | [] => ([], m)
  | o :: os => let '(a, m) := map_op o m in let '(l, m) := map_run os m in (a :: l, m)
  end.

Definition represents (t : trie) (m : gmap (list byte) T) : Prop := tidy t /\ forall key, get key t = m !! key.

Lemma represents_new : represents new_trie ∅.
Proof. split; [apply tidy_new|]. intros key. by rewrite get_new, lookup_empty. Qed.

Lemma trie_represents_empty t m : represents t m -> empty t = bool_decide (m = ∅).
Proof.
  intros [Ht Hm]. destruct (empty t) eqn:E; symmetry.
  - apply bool_decide_eq_true, map_empty. intros key. by rewrite <- Hm, get_empty.
  - apply bool_decide_eq_false. intros ->. destruct (tidy_reaches t Ht E) as [key [v H]]. by rewrite Hm, lookup_empty in H.
Qed.

Lemma represents_insert key v t m : represents t m -> exists t', insert key v t = Ok t' /\ represents t' (<[c_str key := v]> m).
Proof.
  intros [Ht Hm]. destruct (make_node_get (c_str key) v t) as (t' & E & Hg). exists t'. split; [done|]. split; [by eapply make_node_tidy|].
  intros key'. rewrite Hg, lookup_insert, Hm. done.
Qed.

Lemma represents_remove key t m : represents t m -> represents (remove key t) (delete (c_str key) m).
Proof.
  intros [Ht Hm]. split; [by apply remove_node_tidy|]. intros key'. unfold remove. rewrite remove_node_get, lookup_delete, Hm. done.
Qed.

Lemma run_op_refines o t m : represents t m -> exists t', run_op o t = Ok ((map_op o m).1, t') /\ represents t' (map_op o m).2.
Proof.
  intros H. pose proof H as [Ht Hm]. destruct o as [key v|key|key|key|]; simpl.
  - destruct (represents_insert key v t m H) as (t' & -> & H'). by exists t'.
  - eexists. split; [done|by apply represents_remove].
  - exists t. by rewrite find_get, Hm.
  - exists t. unfold contains. by rewrite find_get, Hm.
  - exists t. by rewrite (trie_represents_empty t m H).
Qed.

Lemma trie_run_refines os : forall t m, represents t m -> exists t', run os t = Ok ((map_run os m).1, t') /\ represents t' (map_run os m).2.
Proof.
  induction os as [|o os IH]; intros t m H; simpl; [by exists t|].
  destruct (run_op_refines o t m H) as (t1 & -> & H1). destruct (map_op o m) as [a m1]. simpl in *.
  destruct (IH t1 m1 H1) as (t2 & -> & H2). destruct (map_run os m1) as [l m2]. by exists t2.
Qed.

(** C33. A trie behaves as a map: any sequence of insertions, removals and queries, on a new
    trie, succeeds (the assertion of [find] never fails, no vector is read out of range) and
    gives the answers that a finite map gives, where the keys are the strings up to their
    first zero; at the end the trie has the values of the map, [empty] tells whether there
    is none, and no node is left that leads to no value. *)
Theorem trie_refines_map os : exists t, run os new_trie = Ok ((map_run os ∅).1, t) /\
  tidy t /\ empty t = bool_decide ((map_run os ∅).2 = ∅) /\ forall key, find key t = (map_run os ∅).2 !! c_str key.
Proof.
  destruct (trie_run_refines os new_trie ∅ represents_new) as (t & E & H). exists t. split_and!; [done|apply H|by apply trie_represents_empty|].
  intros key. rewrite find_get. apply H.
Qed.
End Trie.

(** Two strings that differ after a zero are the same key. *)
Example trie_key_with_zero : forall (v w : Z),
  (run 0 [Insert ["a"; "000"; "b"]%byte v; Insert ["a"; "000"; "c"]%byte w; Find ["a"; "000"; "b"]%byte; Remove ["a"]%byte; Empty] (new_trie 0)) =
  Ok ([Done; Done; Value (Some w); Done; Truth true], Trie 97 false [] 0).
Proof. done. Qed.
