(* ===== verification/DoubleOrder.v ===== *)
(** * The order of floating point numbers

    The comparisons [<] and [<=] of [double] on numbers that are not NaN are a total
    preorder (the two zeros are equivalent).  Code that compares with NaN gets false. *)
From Stdlib Require Import Floats.SpecFloat.
From S2P Require Import Prelude Double.

Definition dlt : double -> double -> bool := SFltb.
Definition dle : double -> double -> bool := SFleb.

(** [std::numeric_limits<double>::max()] *)
Definition dmax : double := S754_finite false (2 ^ 53 - 1) 971.

(** The place of a number in the order: sign and size, then exponent, then mantissa. *)
Definition drank (x : double) : Z * Z * Z :=
  match x with
  | S754_nan => (3, 0, 0)
  | S754_infinity s => (if s then -2 else 2, 0, 0)
  | S754_zero _ => (0, 0, 0)
  | S754_finite s m e => if s then (-1, - e, Z.neg m) else (1, e, Z.pos m)
  end.

Definition rank_lt (a b : Z * Z * Z) : Prop :=
  let '(a1, a2, a3) := a in let '(b1, b2, b3) := b in
  a1 < b1 \/ a1 = b1 /\ (a2 < b2 \/ a2 = b2 /\ a3 < b3).

(** ** Comparisons as an order of ranks *)

Lemma dcompare_spec x y : isnan x = false -> isnan y = false ->
  exists c, SFcompare x y = Some c /\
    match c with Lt => rank_lt (drank x) (drank y) | Gt => rank_lt (drank y) (drank x) | Eq => drank x = drank y end.
Proof.
  intros Hx Hy. destruct x as [sx|[]| |[] mx ex], y as [sy|[]| |[] my ey]; try done; cbn [SFcompare drank];
    try (eexists; split; [reflexivity|]; simpl; first [done | lia]).
  - destruct (Z.compare_spec ex ey) as [->|H|H]; eexists; (split; [reflexivity|]); simpl.
    + change (Pos.compare_cont Eq mx my) with (Pos.compare mx my). destruct (Pos.compare_spec mx my) as [->|H|H]; simpl; [done|lia|lia].
    + lia.
    + lia.
  - destruct (Z.compare_spec ex ey) as [->|H|H]; eexists; (split; [reflexivity|]); simpl.
    + change (Pos.compare_cont Eq mx my) with (Pos.compare mx my). destruct (Pos.compare_spec mx my) as [->|H|H]; simpl; [done|lia|lia].
    + lia.
    + lia.
Qed.

Lemma dlt_rank x y : isnan x = false -> isnan y = false -> dlt x y = true <-> rank_lt (drank x) (drank y).
Proof.
  intros Hx Hy. destruct (dcompare_spec x y Hx Hy) as (c & E & Hc). unfold dlt, SFltb. rewrite E.
  destruct (drank x) as [[??]?], (drank y) as [[??]?], c; simpl in *; simplify_eq; split; intros; first [done | lia].
Qed.

Lemma dle_rank x y : isnan x = false -> isnan y = false -> dle x y = true <-> ~ rank_lt (drank y) (drank x).
Proof.
  intros Hx Hy. destruct (dcompare_spec x y Hx Hy) as (c & E & Hc). unfold dle, SFleb. rewrite E.
  destruct (drank x) as [[??]?], (drank y) as [[??]?], c; simpl in *; simplify_eq; split; intros; first [done | lia].
Qed.

(** Comparisons with NaN are false. *)
Lemma dlt_nan x y : dlt x y = true -> isnan x = false /\ isnan y = false.
Proof. destruct x, y; done. Qed.
Lemma dle_nan x y : dle x y = true -> isnan x = false /\ isnan y = false.
Proof. destruct x, y; done. Qed.

(** ** The preorder *)

Ltac drank_solve :=
  repeat match goal with
  | H : dlt ?x ?y = true |- _ => pose proof (dlt_nan x y H) as [? ?]; apply dlt_rank in H; [|done..]
  | H : dle ?x ?y = true |- _ => pose proof (dle_nan x y H) as [? ?]; apply dle_rank in H; [|done..]
  end;
  repeat match goal with
  | H : context [drank ?x] |- _ => let a := fresh in let b := fresh in let c := fresh in destruct (drank x) as [[a b] c]
  | |- context [drank ?x] => let a := fresh in let b := fresh in let c := fresh in destruct (drank x) as [[a b] c]
  end; simpl in *; lia.

Lemma dle_refl x : isnan x = false -> dle x x = true.
Proof. intros. apply dle_rank; [done..|]. drank_solve. Qed.
Lemma dlt_irrefl x : dlt x x = true -> False.
Proof. intros. drank_solve. Qed.
Lemma dle_trans x y z : dle x y = true -> dle y z = true -> dle x z = true.
Proof. intros H1 H2. destruct (dle_nan _ _ H1), (dle_nan _ _ H2). apply dle_rank; [done..|]. drank_solve. Qed.
Lemma dlt_le_trans x y z : dlt x y = true -> dle y z = true -> dlt x z = true.
Proof. intros H1 H2. destruct (dlt_nan _ _ H1), (dle_nan _ _ H2). apply dlt_rank; [done..|]. drank_solve. Qed.
Lemma dle_lt_trans x y z : dle x y = true -> dlt y z = true -> dlt x z = true.
Proof. intros H1 H2. destruct (dle_nan _ _ H1), (dlt_nan _ _ H2). apply dlt_rank; [done..|]. drank_solve. Qed.
Lemma dlt_le x y : dlt x y = true -> dle x y = true.
Proof. intros H1. destruct (dlt_nan _ _ H1). apply dle_rank; [done..|]. drank_solve. Qed.
Lemma dlt_trans x y z : dlt x y = true -> dlt y z = true -> dlt x z = true.
Proof. intros H1 H2. eapply dlt_le_trans; [done|by apply dlt_le]. Qed.

Lemma dlt_false x y : isnan x = false -> isnan y = false -> dlt x y = false <-> dle y x = true.
Proof.
  intros Hx Hy. rewrite <- not_true_iff_false, dlt_rank, dle_rank by done. done.
Qed.
Lemma dle_false x y : isnan x = false -> isnan y = false -> dle x y = false <-> dlt y x = true.
Proof.
  intros Hx Hy. rewrite <- not_true_iff_false, dlt_rank, dle_rank by done.
  destruct (drank x) as [[??]?], (drank y) as [[??]?]; simpl. lia.
Qed.
Lemma dlt_dle_false x y : dlt x y = true -> dle y x = true -> False.
Proof. intros. drank_solve. Qed.
