(* ===== verification/DoubleFixed.v ===== *)
(** * Fixed point numbers as doubles

    The numbers [z * 2 ^ s] for a fixed scale [s]: as long as they have at most 53 bits,
    differences, sums and products of [double] are exact and comparisons are those of the
    integers, and a square root is not below a number whose square is not above. *)
From Stdlib Require Import Floats.SpecFloat.
From S2P Require Import Prelude Double DoubleOrder.

Definition fixed (s z : Z) : double := binary_normalize 53 1024 z s false.
Definition scale_ok (s : Z) : Prop := -900 <= s <= 900.
Definition short (z : Z) : Prop := Z.abs z < 2 ^ 53.

(** The canonical form: a mantissa of 53 bits. *)
Definition canon (sign : bool) (s q : Z) : double :=
  S754_finite sign (Z.to_pos (q * 2 ^ (53 - Zdigits2 q))) (Zdigits2 q - 53 + s).

Lemma rounded_to_exact sign m e j : 0 <= j -> fexp64 (Zpos (digits2_pos m) + (e + j)) = e + j -> e + j <= 971 ->
  rounded_to sign (Zpos m * 2 ^ j) e loc_Exact = S754_finite sign m (e + j).
Proof.
  intros Hj Hf He. pose proof (Z.pow_pos_nonneg 2 j ltac:(lia) Hj).
  unfold binary_round_aux. unfold shr_fexp at 1. cbn [shr_record_of_loc]. rewrite digits_shift by lia.
  replace (Zdigits2 (Zpos m) + j + e) with (Zpos (digits2_pos m) + (e + j)) by (cbn [Zdigits2]; lia). rewrite Hf.
  replace (e + j - e) with j by lia. rewrite shr_exact by lia. cbn [shr_m loc_of_shr_record round_nearest_even].
  unfold shr_fexp. cbn [Zdigits2 shr_record_of_loc]. rewrite Hf, Z.sub_diag. cbn [SpecFloat.shr shr_m].
  by rewrite (proj2 (Z.leb_le _ _)) by lia.
Qed.

Lemma canon_mantissa q : 0 < q < 2 ^ 53 ->
  Zpos (Z.to_pos (q * 2 ^ (53 - Zdigits2 q))) = q * 2 ^ (53 - Zdigits2 q) /\ Zdigits2 (q * 2 ^ (53 - Zdigits2 q)) = 53.
Proof.
  intros Hq. pose proof (digits_bound q Hq) as Hd. pose proof (Z.pow_pos_nonneg 2 (53 - Zdigits2 q) ltac:(lia) ltac:(lia)).
  split; [apply Z2Pos.id; nia|]. rewrite digits_shift by lia. lia.
Qed.

(** However its mantissa is shifted, a short number is rounded to its canonical form. *)
Lemma rounded_to_canon sign s q k : 0 < q < 2 ^ 53 -> scale_ok s -> 53 - Zdigits2 q <= k ->
  rounded_to sign (q * 2 ^ k) (s - k) loc_Exact = canon sign s q.
Proof.
  intros Hq Hs Hk. pose proof (digits_bound q Hq) as Hd. destruct (canon_mantissa q Hq) as [Em Ed]. unfold canon, scale_ok in *.
  replace (q * 2 ^ k) with (Zpos (Z.to_pos (q * 2 ^ (53 - Zdigits2 q))) * 2 ^ (k - (53 - Zdigits2 q))).
  - rewrite rounded_to_exact; [f_equal; lia|lia| |lia].
    change (Zpos (digits2_pos ?m)) with (Zdigits2 (Zpos m)). rewrite Em, Ed, fexp_spec. lia.
  - rewrite Em, <- Z.mul_assoc, <- Z.pow_add_r by lia. do 2 f_equal. lia.
Qed.

Lemma round_canon sign s q k p : 0 < q < 2 ^ 53 -> scale_ok s -> 0 <= k -> Zpos p = q * 2 ^ k ->
  binary_round 53 1024 sign p (s - k) = canon sign s q.
Proof.
  intros Hq Hs Hk Ep. pose proof (digits_bound q Hq) as Hd. unfold binary_round, scale_ok in *.
  assert (Edp : Zpos (digits2_pos p) = Zdigits2 q + k).
  { change (Zpos (digits2_pos p)) with (Zdigits2 (Zpos p)). rewrite Ep. apply digits_shift; lia. }
  pose proof (shl_align_spec p (s - k) (fexp64 (Zpos (digits2_pos p) + (s - k)))) as Ha. destruct (shl_align _ _ _) as [mz ez]. destruct Ha as [Em Ee].
  rewrite Edp, fexp_spec in Ee. rewrite Em, Ep, <- Z.mul_assoc, <- Z.pow_add_r by lia.
  replace ez with (s - (k + (s - k - ez))) at 2 by lia. apply rounded_to_canon; [done|unfold scale_ok; lia|lia].
Qed.

Lemma fixed_canon s z : short z -> scale_ok s ->
  fixed s z = match z with Z0 => S754_zero false | Zpos p => canon false s (Zpos p) | Zneg p => canon true s (Zpos p) end.
Proof.
  intros Hz Hs. unfold short in *. destruct z as [|p|p]; cbn [fixed binary_normalize]; [done|..]; unfold fixed; cbn [binary_normalize];
    rewrite <- (Z.sub_0_r s) at 1; (apply round_canon; [lia|done|lia|rewrite Z.pow_0_r; lia]).
Qed.

Lemma normalize_fixed s z k : short z -> scale_ok s -> 0 <= k -> binary_normalize 53 1024 (z * 2 ^ k) (s - k) false = fixed s z.
Proof.
  intros Hz Hs Hk. rewrite fixed_canon by done. pose proof (Z.pow_pos_nonneg 2 k ltac:(lia) Hk). unfold short in *.
  destruct z as [|p|p]; [done|..].
  - destruct (Zpos p * 2 ^ k) as [|r|r] eqn:E; [lia| |lia]. cbn [binary_normalize]. apply round_canon; [lia|done|done|lia].
  - destruct (Zneg p * 2 ^ k) as [|r|r] eqn:E; [lia|lia|]. cbn [binary_normalize]. apply round_canon; [lia|done|done|lia].
Qed.

Lemma fixed_of_Z z : fixed 0 z = of_Z z.
Proof. done. Qed.

(** ** Exact arithmetic *)

Lemma fixed_finite s a : a <> 0 -> short a -> scale_ok s -> exists sign m e, fixed s a = S754_finite sign m e /\ e <= s /\
  forall ez, ez <= e -> cond_Zopp sign (Zpos (fst (shl_align m e ez))) = a * 2 ^ (s - ez).
Proof.
  intros Ha Hs Hok. rewrite fixed_canon by done. unfold short in *.
  assert (H : forall sign q, 0 < q < 2 ^ 53 -> exists m e, canon sign s q = S754_finite sign m e /\ e <= s /\
                forall ez, ez <= e -> Zpos (fst (shl_align m e ez)) = q * 2 ^ (s - ez)).
  { intros sign q Hq. pose proof (digits_bound q Hq). destruct (canon_mantissa q Hq) as [Em _]. eexists _, _; split; [done|]. split; [lia|].
    intros ez Hez. match goal with |- context [shl_align ?m ?e ?ez] => pose proof (shl_align_spec m e ez) as Hal; destruct (shl_align m e ez) as [m' e''] end.
    destruct Hal as [E1 E2]. cbn [fst]. rewrite E1, Em, <- Z.mul_assoc, <- Z.pow_add_r by lia. do 2 f_equal. lia. }
  destruct a as [|p|p]; [done|..].
  - destruct (H false (Zpos p)) as (m & e & E & He & Hal); [lia|]. exists false, m, e. by split_and!.
  - destruct (H true (Zpos p)) as (m & e & E & He & Hal); [lia|]. exists true, m, e. split_and!; [done..|]. intros ez Hez. cbn [cond_Zopp]. rewrite (Hal ez Hez). lia.
Qed.

Lemma fixed_0 s : fixed s 0 = S754_zero false.
Proof. done. Qed.

Lemma fixed_opp s a : a <> 0 -> short a -> scale_ok s -> fixed s (- a) = SFopp (fixed s a).
Proof. intros Ha Hs Hok. rewrite !fixed_canon by (unfold short in *; done || lia). by destruct a. Qed.

Lemma fixed_abs s a : short a -> scale_ok s -> SFabs (fixed s a) = fixed s (Z.abs a).
Proof. intros Hs Hok. rewrite !fixed_canon by (unfold short in *; done || lia). by destruct a. Qed.

Lemma fixed_sub s a b : short a -> short b -> short (a - b) -> scale_ok s -> dsub (fixed s a) (fixed s b) = fixed s (a - b).
Proof.
  intros Ha Hb Hab Hs. destruct (Z.eq_dec a 0) as [->|Ha0], (Z.eq_dec b 0) as [->|Hb0].
  - done.
  - rewrite fixed_0. change (0 - b) with (- b). rewrite fixed_opp by done. destruct (fixed_finite s b) as (sb & mb & eb & -> & _); done.
  - rewrite fixed_0, Z.sub_0_r. destruct (fixed_finite s a) as (sa & ma & ea & -> & _); done.
  - destruct (fixed_finite s a) as (sa & ma & ea & -> & Hea & Hala); [done..|]. destruct (fixed_finite s b) as (sb & mb & eb & -> & Heb & Halb); [done..|].
    unfold dsub. cbn [SFsub]. rewrite Hala, Halb by lia. rewrite <- Z.mul_sub_distr_r.
    replace (Z.min ea eb) with (s - (s - Z.min ea eb)) at 2 by lia. apply normalize_fixed; [done..|lia].
Qed.

Lemma fixed_add s a b : short a -> short b -> short (a + b) -> scale_ok s -> dadd (fixed s a) (fixed s b) = fixed s (a + b).
Proof.
  intros Ha Hb Hab Hs. destruct (Z.eq_dec a 0) as [->|Ha0], (Z.eq_dec b 0) as [->|Hb0].
  - done.
  - rewrite fixed_0. change (0 + b) with b. destruct (fixed_finite s b) as (sb & mb & eb & -> & _); done.
  - rewrite fixed_0, Z.add_0_r. destruct (fixed_finite s a) as (sa & ma & ea & -> & _); done.
  - destruct (fixed_finite s a) as (sa & ma & ea & -> & Hea & Hala); [done..|]. destruct (fixed_finite s b) as (sb & mb & eb & -> & Heb & Halb); [done..|].
    unfold dadd. cbn [SFadd]. rewrite Hala, Halb by lia. rewrite <- Z.mul_add_distr_r.
    replace (Z.min ea eb) with (s - (s - Z.min ea eb)) at 2 by lia. apply normalize_fixed; [done..|lia].
Qed.

Lemma digits_mul a b : 0 < a -> 0 < b -> Zdigits2 a + Zdigits2 b - 1 <= Zdigits2 (a * b).
Proof.
  intros Ha Hb. pose proof (digits_spec a Ha). pose proof (digits_spec b Hb). pose proof (digits_spec (a * b) ltac:(nia)) as [_ H2].
  pose proof (digits_nonneg a). pose proof (digits_nonneg b). pose proof (digits_nonneg (a * b)).
  destruct (Z.le_gt_cases (Zdigits2 a + Zdigits2 b - 1) (Zdigits2 (a * b))); [done|]. exfalso.
  assert (0 < Zdigits2 a) by (destruct a; simpl; lia). assert (0 < Zdigits2 b) by (destruct b; simpl; lia).
  assert (2 ^ (Zdigits2 a - 1) * 2 ^ (Zdigits2 b - 1) <= a * b) by (apply Z.mul_le_mono_nonneg; lia).
  rewrite <- Z.pow_add_r in * by lia. pose proof (Z.pow_le_mono_r 2 (Zdigits2 (a * b)) (Zdigits2 a - 1 + (Zdigits2 b - 1)) ltac:(lia) ltac:(lia)). lia.
Qed.

(** The square of a difference. *)
Lemma fixed_square s a : short a -> short (a * a) -> scale_ok s -> scale_ok (2 * s) -> dmul (fixed s a) (fixed s a) = fixed (2 * s) (a * a).
Proof.
  intros Ha Haa Hs H2s. destruct (Z.eq_dec a 0) as [->|Ha0]; [done|]. set (q := Z.abs a). unfold short in *.
  assert (Hq : 0 < q < 2 ^ 53) by lia. assert (Hqq : a * a = q * q) by (unfold q; lia).
  assert (E : exists sign, fixed s a = canon sign s q) by (rewrite fixed_canon by done; destruct a; [done|by exists false|by exists true]).
  destruct E as [sign ->]. rewrite Hqq in *. rewrite fixed_canon by (unfold short; done).
  destruct (q * q) as [|p|p] eqn:Ep; [lia| |lia]. unfold dmul, canon. cbn [SFmul]. rewrite xorb_nilpotent.
  rewrite Pos2Z.inj_mul. destruct (canon_mantissa q Hq) as [-> _]. pose proof (digits_bound q Hq). pose proof (digits_mul q q ltac:(lia) ltac:(lia)) as Hd.
  replace (q * 2 ^ (53 - Zdigits2 q) * (q * 2 ^ (53 - Zdigits2 q))) with (Zpos p * 2 ^ (2 * (53 - Zdigits2 q))).
  - replace (Zdigits2 q - 53 + s + (Zdigits2 q - 53 + s)) with (2 * s - 2 * (53 - Zdigits2 q)) by lia.
    apply rounded_to_canon; [lia|done|]. rewrite Ep in Hd. lia.
  - rewrite <- Ep. replace (2 * (53 - Zdigits2 q)) with ((53 - Zdigits2 q) + (53 - Zdigits2 q)) by lia. rewrite Z.pow_add_r by lia. lia.
Qed.

(** ** Comparisons *)

Lemma fixed_number s z : short z -> scale_ok s -> isnan (fixed s z) = false.
Proof. intros Hz Hs. rewrite fixed_canon by done. by destruct z. Qed.

Lemma digits_mono a b : 0 < a -> a <= b -> Zdigits2 a <= Zdigits2 b.
Proof.
  intros Ha Hab. pose proof (digits_spec a Ha). pose proof (digits_spec b ltac:(lia)).
  destruct (Z.le_gt_cases (Zdigits2 a) (Zdigits2 b)); [done|].
  pose proof (Z.pow_le_mono_r 2 (Zdigits2 b) (Zdigits2 a - 1) ltac:(lia) ltac:(lia)). lia.
Qed.

Lemma canon_lt a b : 0 < a < b -> b < 2 ^ 53 ->
  Zdigits2 a < Zdigits2 b \/ Zdigits2 a = Zdigits2 b /\ Zpos (Z.to_pos (a * 2 ^ (53 - Zdigits2 a))) < Zpos (Z.to_pos (b * 2 ^ (53 - Zdigits2 b))).
Proof.
  intros Hab Hb. pose proof (digits_mono a b ltac:(lia) ltac:(lia)). destruct (Z.eq_dec (Zdigits2 a) (Zdigits2 b)) as [E|]; [right|left; lia].
  split; [done|]. destruct (canon_mantissa a) as [-> _]; [lia|]. destruct (canon_mantissa b) as [-> _]; [lia|]. rewrite E.
  pose proof (digits_bound b ltac:(lia)). apply Z.mul_lt_mono_pos_r; [|lia]. apply Z.pow_pos_nonneg; lia.
Qed.

Lemma fixed_rank s a b : short a -> short b -> scale_ok s -> a < b -> rank_lt (drank (fixed s a)) (drank (fixed s b)).
Proof.
  intros Ha Hb Hs Hab. rewrite !fixed_canon by done. unfold short in *.
  destruct a as [|p|p], b as [|q|q]; try lia; unfold canon; cbn [drank rank_lt]; try lia.
  - destruct (canon_lt (Zpos p) (Zpos q)); lia.
  - destruct (canon_lt (Zpos q) (Zpos p)); lia.
Qed.

Lemma fixed_lt s a b : short a -> short b -> scale_ok s -> dlt (fixed s a) (fixed s b) = (a <? b).
Proof.
  intros Ha Hb Hs. apply eq_true_iff_eq. rewrite dlt_rank by (by apply fixed_number). rewrite Z.ltb_lt.
  split; [|by apply fixed_rank]. intros Hr. destruct (Z.lt_trichotomy a b) as [|[->|H]]; [done|..].
  - destruct (drank (fixed s b)) as [[??]?]. simpl in Hr. lia.
  - apply (fixed_rank s) in H; [|done..]. destruct (drank (fixed s a)) as [[??]?], (drank (fixed s b)) as [[??]?]. simpl in *. lia.
Qed.

Lemma fixed_le s a b : short a -> short b -> scale_ok s -> dle (fixed s a) (fixed s b) = (a <=? b).
Proof.
  intros Ha Hb Hs. apply eq_true_iff_eq. rewrite Z.leb_le. rewrite <- dlt_false by (by apply fixed_number).
  rewrite fixed_lt by done. rewrite Z.ltb_ge. lia.
Qed.

(** ** Rounding and square roots *)

(** What is rounded is at least every short number that it is not below. *)
Lemma rounded_above s d q e l : 0 < d < 2 ^ 53 -> scale_ok s -> e <= s -> d * 2 ^ (s - e) <= q -> 53 <= Zdigits2 q -> -1000 <= e ->
  dle (fixed s d) (rounded_to false q e l) = true.
Proof.
  intros Hd Hs He Hq Hdig Hmin. pose proof (Z.pow_pos_nonneg 2 (s - e) ltac:(lia) ltac:(lia)). assert (Hq0 : 0 < q) by nia.
  set (D := Zdigits2 q) in *. pose proof (digits_spec q Hq0) as Hqd. fold D in Hqd.
  unfold binary_round_aux. unfold shr_fexp at 1. fold D. rewrite fexp_spec. replace (Z.max (D + e - 53) emin64 - e) with (D - 53) by lia.
  destruct (shr_spec (shr_record_of_loc q l) e (D - 53)) as [Es Ee]; [rewrite shr_record_m; lia|lia|]. rewrite shr_record_m in Es.
  destruct (SpecFloat.shr _ e _) as [mrs e1]. cbn [fst snd] in *. set (m1 := shr_m mrs) in *.
  assert (Hm1 : 2 ^ 52 <= m1 < 2 ^ 53).
  { rewrite Es. split; [apply Z.div_le_lower_bound|apply Z.div_lt_upper_bound]; try (apply Z.pow_pos_nonneg; lia);
      rewrite <- Z.pow_add_r by lia; [replace (D - 53 + 52) with (D - 1) by lia|replace (D - 53 + 53) with D by lia]; lia. }
  assert (Hlow : rank_lt (1, e1, m1) (1, Zdigits2 d - 53 + s, d * 2 ^ (53 - Zdigits2 d)) -> False).
  { pose proof (digits_bound d Hd) as Hdd. pose proof (digits_spec d ltac:(lia)) as Hds. destruct (canon_mantissa d Hd) as [_ Ec].
    assert (Hc : 2 ^ 52 <= d * 2 ^ (53 - Zdigits2 d) < 2 ^ 53).
    { pose proof (digits_spec (d * 2 ^ (53 - Zdigits2 d))) as Hx. rewrite Ec in Hx. apply Hx. pose proof (Z.pow_pos_nonneg 2 (53 - Zdigits2 d)). nia. }
    set (c := d * 2 ^ (53 - Zdigits2 d)) in *. set (eg := Zdigits2 d - 53 + s). simpl. intros Hlt.
    assert (Hq1 : q < (m1 + 1) * 2 ^ (D - 53)).
    { rewrite Es. pose proof (Z.mul_succ_div_gt q (2 ^ (D - 53)) ltac:(apply Z.pow_pos_nonneg; lia)). lia. }
    assert (Hgv : c * 2 ^ (eg - e) <= q).
    { unfold c, eg. rewrite <- Z.mul_assoc. destruct (Z.le_gt_cases e (Zdigits2 d - 53 + s)) as [Hle|Hgt].
      - rewrite <- Z.pow_add_r by lia. replace (53 - Zdigits2 d + (Zdigits2 d - 53 + s - e)) with (s - e) by lia. done.
      - lia. }
    assert (Hge : D - 53 <= eg - e) by lia.
    assert (Hp : 2 ^ (eg - e) = 2 ^ (eg - e - (D - 53)) * 2 ^ (D - 53)) by (rewrite <- Z.pow_add_r by lia; f_equal; lia).
    pose proof (Z.pow_pos_nonneg 2 (D - 53) ltac:(lia) ltac:(lia)).
    assert (Hcm : c * 2 ^ (eg - e - (D - 53)) < m1 + 1) by nia.
    destruct Hlt as [Hlt|[_ [Hlt|[Heq Hlt]]]]; [lia| |].
    - assert (2 <= 2 ^ (eg - e - (D - 53))) by (change 2 with (2 ^ 1) at 1; apply Z.pow_le_mono_r; lia). nia.
    - replace (eg - e - (D - 53)) with 0 in Hcm by lia. lia. }
  assert (Hr : forall r, isnan r = false -> (rank_lt (drank r) (1, e1, m1) -> False) -> dle (fixed s d) r = true).
  { intros r Hn Hr. apply dle_rank; [apply fixed_number; [unfold short; lia|done]|done|]. intros Hlt. apply Hlow.
    rewrite fixed_canon in Hlt by (unfold short; lia || done). destruct d as [|p|p]; [lia| |lia]. unfold canon in Hlt. cbn [drank] in Hlt.
    destruct (canon_mantissa (Zpos p) Hd) as [Em _]. rewrite Em in Hlt. destruct (drank r) as [[r1 r2] r3]. simpl in *. lia. }
  clear Hlow. pose proof (round_even_cases m1 (loc_of_shr_record mrs)) as Hcase. set (m2 := round_nearest_even m1 _) in *.
  destruct (Z.eq_dec m2 (2 ^ 53)) as [E53|N53].
  - rewrite E53. unfold shr_fexp. cbn [shr_record_of_loc]. change (Zdigits2 (2 ^ 53)) with 54. rewrite fexp_spec.
    replace (Z.max (54 + e1 - 53) emin64 - e1) with 1 by lia. change (2 ^ 53) with (2 ^ 52 * 2 ^ 1). rewrite shr_exact by lia. cbn [shr_m].
    change (2 ^ 52) with (Zpos (2 ^ 52)). cbv iota. destruct (e1 + 1 <=? 1024 - 53); apply Hr; try done; cbn [drank]; simpl; lia.
  - assert (E2 : Zdigits2 m2 = 53) by (apply digits_unique; lia). unfold shr_fexp. rewrite E2, fexp_spec. replace (Z.max (53 + e1 - 53) emin64 - e1) with 0 by lia.
    cbn [SpecFloat.shr]. rewrite shr_record_m. destruct m2 as [|p|p]; [lia| |lia]. destruct (e1 <=? 1024 - 53); apply Hr; try done; cbn [drank]; simpl; lia.
Qed.

Lemma fixed_sqrt s d n : 0 <= d -> d * d <= n -> n < 2 ^ 53 -> scale_ok s -> scale_ok (2 * s) -> dle (fixed s d) (dsqrt (fixed (2 * s) n)) = true.
Proof.
  intros Hd Hdn Hn Hs H2s. destruct (Z.eq_dec n 0) as [->|Hn0]; [assert (d = 0) as -> by nia; done|].
  rewrite (fixed_canon (2 * s) n) by (unfold short; done || lia). destruct n as [|p|p]; [done| |lia]. set (n := Zpos p) in *.
  unfold dsqrt, canon. cbn [SFsqrt]. unfold SFsqrt_core_binary. pose proof (digits_bound n ltac:(lia)) as Hb. destruct (canon_mantissa n ltac:(lia)) as [-> Ec].
  rewrite Ec. set (m := n * 2 ^ (53 - Zdigits2 n)) in *. set (e := Zdigits2 n - 53 + 2 * s).
  set (e' := Z.min (fexp64 (Z.div2 (53 + e + 1))) (Z.div2 e)). unfold scale_ok in *.
  assert (He' : e' <= s - 26 /\ 52 <= e - 2 * e' /\ -1000 <= e').
  { unfold e'. rewrite fexp_spec, !Z.div2_div. unfold e. Z.to_euclidean_division_equations. lia. }
  destruct He' as (He1 & He2 & He3). set (k := e - 2 * e') in *.
  replace (match k with Z0 => m | Zpos _ => Z.shiftl m k | Zneg _ => 0 end) with (m * 2 ^ k) by (destruct k; [lia|by rewrite Z.shiftl_mul_pow2 by lia|lia]).
  assert (Hm : 2 ^ 52 <= m) by (pose proof (digits_spec m) as Hx; rewrite Ec in Hx; apply Hx; unfold m; pose proof (Z.pow_pos_nonneg 2 (53 - Zdigits2 n)); nia).
  pose proof (Z.pow_le_mono_r 2 52 k ltac:(lia) ltac:(lia)) as Hk.
  pose proof (Z.sqrtrem_spec (m * 2 ^ k) ltac:(nia)) as Hsq. destruct (Z.sqrtrem (m * 2 ^ k)) as [q r]. destruct Hsq as [Hqr Hr].
  assert (Hq52 : 2 ^ 52 <= q) by nia. assert (Hq0 : 0 <= q) by lia.
  assert (Hdig : 53 <= Zdigits2 q) by (change 53 with (Zdigits2 (2 ^ 52)); apply digits_mono; lia).
  destruct (Z.eq_dec d 0) as [->|Hd0].
  - rewrite fixed_0. match goal with |- dle _ ?r = _ => assert (Hnn : nonneg r) by (apply rounded_valid; [done|rewrite fexp_spec; lia|done]); set (res := r) in * end.
    destruct res as [[]|[]| |[] ? ?]; done.
  - apply rounded_above; [nia|done|lia| |done|lia]. set (w := s - e').
    assert (Hw : d * 2 ^ w * (d * 2 ^ w) <= m * 2 ^ k).
    { replace (m * 2 ^ k) with (n * (2 ^ w * 2 ^ w)); [pose proof (Z.pow_pos_nonneg 2 w); nia|].
      unfold m. rewrite <- Z.mul_assoc, <- !Z.pow_add_r by (unfold w; lia). do 2 f_equal. unfold w, k, e. lia. }
    pose proof (Z.pow_pos_nonneg 2 w ltac:(lia) ltac:(unfold w; lia)). nia.
Qed.
