(* ===== verification/Fraction.v ===== *)
(** * Fractions

    [types/Fraction.cc] and [types/Fraction.h]: rational numbers as a numerator and a
    denominator of 64 bits in lowest terms.  Arithmetic is exact as long as its products
    fit; otherwise it is done on [double]s, and the result is turned into a fraction by
    continued fractions.  An operation on [long long] that overflows is undefined. *)
From Stdlib Require Import Floats.SpecFloat QArith.
From S2P Require Import Prelude Text Strings Translator MachineInt Double TranslatorDouble.
#[local] Open Scope Z_scope.
#[local] Open Scope bool_scope.

Record Fraction : Type := mkFraction { top_ : Z; bottom_ : Z }.

#[export] Instance Fraction_eq_dec : EqDecision Fraction.
Proof. solve_decision. Defined.

Module Fraction.

Definition VALUE_TYPE_MAX : Z := 2 ^ 63 - 1.
Definition VALUE_TYPE_MIN : Z := - 2 ^ 63.

(** [std::sqrt] of the integer converted to [double], and truncated. *)
Definition max_denominator : outcome Z := to_long_long (dsqrt (of_Z VALUE_TYPE_MAX)).
Definition MAX_DENOM : Z := Eval vm_compute in match max_denominator with Ok n => n | _ => 0 end.

Definition zero : Fraction := mkFraction 0 1.
Definition of_long_long (n : Z) : Fraction := mkFraction n 1.

(** [Fraction(top, bottom)] *)
Definition new (top bottom : Z) : outcome Fraction :=
  ASSERT (negb (bottom =? 0)) ;;
  int64 abs_top := abs 64 top in
  int64 abs_bottom := abs 64 bottom in
  let sgn := if Bool.eqb (top <? 0) (bottom <? 0) then 1 else -1 in
  let g := Z.gcd abs_top abs_bottom in
  int64 t := abs_top / g * sgn in
  int64 b := abs_bottom / g in
  Ok (mkFraction t b).

(** ** From a [double] *)

(** The continued fraction: convergents up to [MAX_DENOM]. *)
Fixpoint converge (fuel : nat) (eps x : double) (a t2 m00 m10 m01 m11 cnt : Z) : outcome (Z * Z) :=
  match fuel with
  | O => NoFuel
  | S f =>
      if t2 <=? MAX_DENOM then
        int64 t1 := m00 * a + m01 in
        let m01 := m00 in
        let m00 := t1 in
        let m11 := m10 in
        let m10 := t2 in
        let dx := dsub x (of_Z a) in
        if SFltb (SFabs dx) eps then Ok (m00, m10)
        else
          let x := ddiv (of_Z 1) dx in
          if SFltb (of_Z VALUE_TYPE_MAX) x then Ok (m00, m10)
          else
            a ← to_long_long x;
            int64 t2 := m10 * a + m11 in
            if 10000 <? cnt then Throw BadValue
            else converge f eps x a t2 m00 m10 m01 m11 (cnt + 1)
      else Ok (m00, m10)
  end.

Fixpoint halve (fuel : nat) (m00 m10 : Z) : outcome (Z * Z) :=
  match fuel with
  | O => NoFuel
  | S f =>
      if (MAX_DENOM <=? m10) || (MAX_DENOM <=? m00) then halve f (Z.shiftr m00 1) (Z.shiftr m10 1)
      else Ok (m00, m10)
  end.

Definition ITERATIONS : nat := Z.to_nat 10003.

(** One tolerance; [None] when the denominator was lost. *)
Definition attempt (value eps : double) : outcome (option Fraction) :=
  let x := SFabs value in
  a ← to_long_long x;
  int64 t2 := 0 * a + 1 in
  '(m00, m10) ← converge ITERATIONS eps x a t2 1 0 0 1 0;
  '(m00, m10) ← halve 64 m00 m10;
  if negb (m10 =? 0) then
    let sgn := if SFltb value (of_Z 0) then -1 else 1 in
    let g := Z.gcd m00 m10 in
    int64 t := m00 / g * sgn in
    int64 b := m10 / g in
    Ok (Some (mkFraction t b))
  else Ok None.

Fixpoint attempts (value : double) (l : list double) : outcome Fraction :=
  match l with
  | [] => Throw BadValue
  | eps :: l => r ← attempt value eps; match r with Some f => Ok f | None => attempts value l end
  end.

Definition tolerances : list double :=
  Eval vm_compute in [epsilon; of_decimal false 1 (-9); of_decimal false 1 (-8); of_decimal false 1 (-7); of_decimal false 1 (-6)].

Definition of_double (value : double) : outcome Fraction :=
  ASSERT (negb (isnan value)) ;; attempts value tolerances.

(** ** Conversions *)

Definition to_double (f : Fraction) : double := ddiv (of_Z (top_ f)) (of_Z (bottom_ f)).

Definition slash : Tokenizer := Tokenizer_string (str "/") false.
Definition of_string (s : text) : outcome Fraction :=
  let v := tokenize slash s in
  if (1 <? length v)%nat then
    ASSERT (length v =? 2)%nat ;;
    match v with
    | [a; b] => new (string_to_long_long a) (string_to_long_long b)
    | _ => Undef
    end
  else d ← string_to_double s; of_double d.

Definition to_string (f : Fraction) : text :=
  if bottom_ f =? 1 then print_long (top_ f) else print_long (top_ f) ++ str "/" ++ print_long (bottom_ f).

Definition to_long (f : Fraction) : outcome Z := if bottom_ f =? 1 then Ok (top_ f) else Throw SeriousBug.

(** [fromString]: shifting the decimal point. *)
Fixpoint scan_decimal (s : text) (first : bool) (numerator denominator sgn : Z) (err : nat) (decimal : bool) : outcome (Z * Z * Z * nat) :=
  match s with
  | [] => Ok (numerator, denominator, sgn, err)
  | c :: s =>
      if decide (c = "-"%byte) then scan_decimal s false numerator denominator (-1) (if first then err else S err) decimal
      else if decide (c = "."%byte) then scan_decimal s false numerator denominator sgn (if decimal then S err else err) true
      else if isdigit c then
        int64 n := numerator * 10 + (byte.unsigned c - 48)%Z in
        int64 d := (if decimal then denominator * 10 else denominator)%llong in
        scan_decimal s false n d sgn err decimal
      else scan_decimal s false numerator denominator sgn err decimal
  end.

Definition fromString (s : text) : outcome Fraction :=
  r ← scan_decimal s true 0 1 1 0 false;
  let '(numerator, denominator, sgn, err) := (r : Z * Z * Z * nat) in
  if decide (err <> 0%nat) then Throw UserError
  else int64 t := sgn * numerator in new t denominator.

(** ** Arithmetic *)

Definition mul (overflow : bool) (a b : Z) : outcome (bool * Z) :=
  overflow ← (if overflow then Ok true
              else if b =? 0 then Ok false
              else int64 x := abs 64 a in int64 y := abs 64 b in int64 q := VALUE_TYPE_MAX / y in Ok (q <? x));
  if (overflow : bool) then Ok (true, 0) else int64 p := a * b in Ok (false, p).

Definition add (overflow : bool) (a b : Z) : outcome (bool * Z) :=
  overflow ← (if overflow then Ok true
              else if 0 <? b then int64 m := VALUE_TYPE_MAX - b in Ok (m <? a)
              else int64 m := VALUE_TYPE_MIN - b in Ok (a <? m));
  if (overflow : bool) then Ok (true, 0) else int64 s := a + b in Ok (false, s).

Definition sub (overflow : bool) (a b : Z) : outcome (bool * Z) := int64 m := - b in add overflow a m.

Definition plus_with (sum : bool -> Z -> Z -> outcome (bool * Z)) (dsum : double -> double -> double) (f g : Fraction) : outcome Fraction :=
  '(overflow, a) ← mul false (top_ f) (bottom_ g);
  '(overflow, b) ← mul overflow (bottom_ f) (top_ g);
  '(overflow, top) ← sum overflow a b;
  '(overflow, bottom) ← mul overflow (bottom_ f) (bottom_ g);
  if (negb overflow : bool) then new top bottom
  else of_double (dsum (to_double f) (to_double g)).

Definition plus : Fraction -> Fraction -> outcome Fraction := plus_with add dadd.
Definition minus : Fraction -> Fraction -> outcome Fraction := plus_with sub dsub.

Definition divide (f g : Fraction) : outcome Fraction :=
  '(overflow, top) ← mul false (top_ f) (bottom_ g);
  '(overflow, bottom) ← mul overflow (bottom_ f) (top_ g);
  if (negb overflow : bool) then new top bottom else of_double (ddiv (to_double f) (to_double g)).

Definition times (f g : Fraction) : outcome Fraction :=
  '(overflow, top) ← mul false (top_ f) (top_ g);
  '(overflow, bottom) ← mul overflow (bottom_ f) (bottom_ g);
  if (negb overflow : bool) then new top bottom else of_double (dmul (to_double f) (to_double g)).

Definition opposite (f : Fraction) : outcome Fraction := int64 t := - top_ f in new t (bottom_ f).
Definition absolute (f : Fraction) : outcome Fraction :=
  int64 t := (if top_ f <? 0 then - top_ f else top_ f)%llong in new t (bottom_ f).
Definition inverse (f : Fraction) : outcome Fraction := if negb (top_ f =? 0) then new (bottom_ f) (top_ f) else Throw BadValue.
Definition integralPart (f : Fraction) : outcome Z := quot 64 (top_ f) (bottom_ f).
Definition decimalPart (f : Fraction) : outcome Fraction := n ← integralPart f; minus f (of_long_long n).

(** ** Comparisons *)

Definition equal (f g : Fraction) : bool := (top_ f =? top_ g) && (bottom_ f =? bottom_ g).

Definition compare_with (cmp : Z -> Z -> bool) (dcmp : double -> double -> bool) (f g : Fraction) : outcome bool :=
  '(overflow, a) ← mul false (top_ f) (bottom_ g);
  '(overflow, b) ← mul overflow (top_ g) (bottom_ f);
  Ok (if (negb overflow : bool) then cmp a b else dcmp (to_double f) (to_double g)).

Definition less : Fraction -> Fraction -> outcome bool := compare_with Z.ltb SFltb.
Definition less_equal : Fraction -> Fraction -> outcome bool := compare_with Z.leb SFleb.
Definition greater : Fraction -> Fraction -> outcome bool := compare_with (fun a b => b <? a) (fun x y => SFltb y x).
Definition greater_equal : Fraction -> Fraction -> outcome bool := compare_with (fun a b => b <=? a) (fun x y => SFleb y x).

(** ** Stable version *)

Fixpoint stable_loop (fuel : nat) (x y : Fraction) (n max : Z) : outcome Fraction :=
  if equal x y then Ok x
  else
    match fuel with
    | O => NoFuel
    | S f => if max <=? n + 1 then Throw SeriousBug else y' ← of_double (to_double y); stable_loop f y y' (n + 1) max
    end.
Definition stableVersion (f : Fraction) (max : Z) : outcome Fraction :=
  y ← of_double (to_double f); stable_loop (S (Z.to_nat max)) f y 0 max.

(** ** Canonical form *)

Record canonical (f : Fraction) : Prop := {
  can_top : - 2 ^ 63 <= top_ f < 2 ^ 63;
  can_bottom : 0 < bottom_ f < 2 ^ 63;
  can_gcd : Z.gcd (top_ f) (bottom_ f) = 1 }.

(** The rational number. *)
Definition toQ (f : Fraction) : Q := top_ f # Z.to_pos (bottom_ f).

(** What a call may do: return a fraction in canonical form, throw, or overflow; it does
    not loop. *)
Definition sound (o : outcome Fraction) : Prop := match o with Ok f => canonical f | NoFuel => False | _ => True end.

Lemma sound_bind {A} (o : outcome A) (k : A -> outcome Fraction) : o <> NoFuel -> (forall a, o = Ok a -> sound (k a)) -> sound (outcome_bind k o).
Proof. intros Hn Hk. destruct o; try done. by apply Hk. Qed.

Lemma fit_cases w z : fit w z = Ok z /\ - 2 ^ (w - 1) <= z < 2 ^ (w - 1) \/ fit w z = Undef.
Proof. unfold fit. destruct (in_S w z) eqn:E; [left; by apply in_S_spec in E|by right]. Qed.

Lemma op2_cases w f a b : op2 w f (val a) (val b) = Ok (f a b) /\ - 2 ^ (w - 1) <= f a b < 2 ^ (w - 1) \/ op2 w f (val a) (val b) = Undef.
Proof. apply fit_cases. Qed.

(** Dividing both by the greatest common divisor. *)
Lemma reduced a b s : 0 <= a -> 0 < b -> s = 1 \/ s = -1 ->
  let g := Z.gcd a b in 0 < g /\ Z.gcd (Z.quot a g * s) (Z.quot b g) = 1 /\ 0 < Z.quot b g <= b /\ 0 <= Z.quot a g <= a /\
  a = g * Z.quot a g /\ b = g * Z.quot b g.
Proof.
  intros Ha Hb Hs g. assert (Hg : 0 < g). { pose proof (Z.gcd_nonneg a b). destruct (Z.eq_dec g 0) as [E|]; [|lia]. apply Z.gcd_eq_0_r in E. lia. }
  destruct (Z.gcd_divide_l a b) as [qa Ea], (Z.gcd_divide_r a b) as [qb Eb]. fold g in Ea, Eb.
  assert (Qa : Z.quot a g = qa) by (rewrite Ea at 1; apply Z.quot_mul; lia). assert (Qb : Z.quot b g = qb) by (rewrite Eb at 1; apply Z.quot_mul; lia).
  rewrite Qa, Qb. assert (0 < qb) by nia. assert (0 <= qa) by nia.
  assert (E1 : Z.gcd qa qb = 1). { apply (Z.mul_reg_l _ _ g); [lia|]. rewrite <- Z.gcd_mul_mono_l_nonneg by lia.
    rewrite Z.mul_1_r, (Z.mul_comm g qa), (Z.mul_comm g qb), <- Ea, <- Eb. done. }
  split_and!; try lia; try nia. destruct Hs as [-> | ->]; [by rewrite Z.mul_1_r|]. replace (qa * -1) with (- qa) by lia. by rewrite Z.gcd_opp_l.
Qed.

Lemma new_ok top bottom : Z.abs top < 2 ^ 63 -> Z.abs bottom < 2 ^ 63 -> bottom <> 0 ->
  exists f, new top bottom = Ok f /\ canonical f /\ top_ f * bottom = top * bottom_ f.
Proof.
  intros Ht Hb Hnz. unfold new. rewrite (proj2 (Z.eqb_neq bottom 0) Hnz). cbn [negb ASSERT]. unfold mbind, outcome_mbind. cbn [outcome_bind].
  rewrite !abs_ok, !val_bind by lia.
  set (s := if Bool.eqb (top <? 0) (bottom <? 0) then 1 else -1).
  destruct (reduced (Z.abs top) (Z.abs bottom) s ltac:(lia) ltac:(lia)) as (Hg & Hgcd & Hqb & Hqa & Ea & Eb).
  { unfold s. destruct (Bool.eqb _ _); lia. }
  set (g := Z.gcd (Z.abs top) (Z.abs bottom)) in *. set (qa := Z.quot (Z.abs top) g) in *. set (qb := Z.quot (Z.abs bottom) g) in *.
  assert (Hs : s = 1 \/ s = -1) by (unfold s; destruct (Bool.eqb _ _); lia).
  rewrite (quot_ok 64 (Z.abs top)), (quot_ok 64 (Z.abs bottom)) by (fold qa qb; lia). fold qa qb. rewrite op2_ok by nia. rewrite !val_bind.
  eexists. split; [done|]. split; [split; cbn [top_ bottom_]; [nia|lia|done]|]. cbn [top_ bottom_].
  assert (E : s * Z.abs top * bottom = top * Z.abs bottom).
  { unfold s. destruct (Z.ltb_spec top 0), (Z.ltb_spec bottom 0); cbn [Bool.eqb]; lia. }
  apply (Z.mul_reg_l _ _ g); [lia|]. replace (g * (qa * s * bottom)) with (s * (g * qa) * bottom) by lia.
  replace (g * (top * qb)) with (top * (g * qb)) by lia. by rewrite <- Ea, <- Eb.
Qed.

Lemma new_sound top bottom : sound (new top bottom).
Proof.
  destruct (Z.eq_dec bottom 0) as [->|Hb]; [done|].
  destruct (Z.lt_ge_cases (Z.abs top) (2 ^ 63)) as [Ht|Ht], (Z.lt_ge_cases (Z.abs bottom) (2 ^ 63)) as [Hbb|Hbb];
    [destruct (new_ok top bottom Ht Hbb Hb) as (f & -> & Hf & _); done|..].
  all: unfold new; rewrite (proj2 (Z.eqb_neq bottom 0) Hb); cbn [negb ASSERT]; unfold mbind, outcome_mbind, abs; cbn [outcome_bind val].
  all: unfold mbind, outcome_mbind; cbn [outcome_bind val]; unfold fit.
  all: destruct (in_S 64 (Z.abs top)) eqn:E1; [apply in_S_spec in E1|done]; cbn [outcome_bind].
  all: try (exfalso; change (2 ^ (64 - 1)) with (2 ^ 63) in *; lia).
  all: destruct (in_S 64 (Z.abs bottom)) eqn:E2; [apply in_S_spec in E2|done]; exfalso; change (2 ^ (64 - 1)) with (2 ^ 63) in *; lia.
Qed.

(** ** From a [double] *)

Lemma to_long_long_cases x : (exists a, to_long_long x = Ok a /\ truncate x = Ok a /\ a < 2 ^ 63) \/ to_long_long x = Undef.
Proof.
  unfold to_long_long. destruct (truncate x) as [z| | |] eqn:E; cbn; try (by right); [|by destruct x|by destruct x].
  destruct (fit_cases 64 z) as [[-> Hz]| ->]; [left|by right]. exists z. split_and!; try done. change (2 ^ (64 - 1)) with (2 ^ 63) in Hz. lia.
Qed.

(** The state of the continued fraction. *)
Record converging (x : double) (a t2 m00 m10 m01 m11 : Z) : Prop := {
  cv_x : valid x /\ nonneg x /\ truncate x = Ok a;
  cv_t2 : 0 <= t2;
  cv_m : 0 <= m00 < 2 ^ 63 /\ 0 <= m10 < 2 ^ 63 /\ 0 <= m01 /\ 0 <= m11 }.

Definition convergent (o : outcome (Z * Z)) : Prop :=
  match o with Ok (m00, m10) => 0 <= m00 < 2 ^ 63 /\ 0 <= m10 < 2 ^ 63 | NoFuel => False | _ => True end.

(** The next number of the expansion. *)
Lemma next_term x a : valid x -> nonneg x -> truncate x = Ok a -> let y := ddiv (of_Z 1) (dsub x (of_Z a)) in
  valid y /\ (forall b, truncate y = Ok b -> nonneg y /\ 0 <= b).
Proof.
  intros Hv Hn Ht y. destruct (fractional_part_nonneg x a Hv Hn Ht) as [Ha Hd]. destruct (ddiv_ok (of_Z 1) (dsub x (of_Z a))) as [Hy Hs].
  split; [done|]. intros b Hb. fold y in Hs. assert (Hny : nonneg y).
  { destruct Hs as [|[s E]]; [done|done|intros E; by rewrite E in Hb|done|by rewrite E in Hb]. }
  split; [done|]. by destruct (fractional_part_nonneg y b Hy Hny Hb).
Qed.

Lemma converge_sound fuel eps : forall x a t2 m00 m10 m01 m11 cnt, converging x a t2 m00 m10 m01 m11 ->
  0 <= cnt <= 10001 -> 10002 - cnt <= Z.of_nat fuel -> convergent (converge fuel eps x a t2 m00 m10 m01 m11 cnt).
Proof.
  induction fuel as [|fuel IH]; intros x a t2 m00 m10 m01 m11 cnt [(Hv & Hn & Ht) Ht2 (H00 & H10 & H01 & H11)] Hc Hf; [lia|]. cbn [converge].
  destruct (Z.leb_spec t2 MAX_DENOM) as [Hle|]; [|done]. destruct (fractional_part_nonneg x a Hv Hn Ht) as [Ha _].
  unfold MAX_DENOM in Hle.
  destruct (op2_cases 64 Z.mul m00 a) as [[-> Hb]| ->]; [|done]. change (Ok (m00 * a)) with (val (m00 * a)).
  destruct (op2_cases 64 Z.add (m00 * a) m01) as [[-> Ht1]| ->]; [|done]. cbn [outcome_bind]. change (2 ^ (64 - 1)) with (2 ^ 63) in *.
  set (t1 := m00 * a + m01) in *. assert (0 <= t1) by nia. destruct (SFltb _ eps); [by split; lia|]. destruct (SFltb _ _); [by split; lia|].
  destruct (next_term x a Hv Hn Ht) as [Hy Hb2]. set (y := ddiv _ _) in *. unfold mbind, outcome_mbind.
  destruct (to_long_long_cases y) as [(b & -> & Eb & Hbb)| ->]; [|done]. cbn [outcome_bind]. destruct (Hb2 b Eb) as [Hny Hb0].
  destruct (op2_cases 64 Z.mul t2 b) as [[-> Hb3]| ->]; [|done]. change (Ok (t2 * b)) with (val (t2 * b)).
  destruct (op2_cases 64 Z.add (t2 * b) m10) as [[-> Ht3]| ->]; [|done]. cbn [outcome_bind].
  destruct (Z.ltb_spec 10000 cnt); [done|]. apply IH; [split; [done|nia|lia]|lia|lia].
Qed.

Lemma halve_sound fuel : forall k m00 m10, 0 <= m00 < 2 ^ (31 + Z.of_nat k) -> 0 <= m10 < 2 ^ (31 + Z.of_nat k) -> (k < fuel)%nat ->
  exists a b, halve fuel m00 m10 = Ok (a, b) /\ 0 <= a < 2 ^ 63 /\ 0 <= b < 2 ^ 63.
Proof.
  assert (Hstep : forall m, 0 <= m -> Z.shiftr m 1 = m / 2) by (intros; by rewrite Z.shiftr_div_pow2 by lia).
  induction fuel as [|fuel IH]; intros k m00 m10 H0 H1 Hk; [lia|]. cbn [halve]. unfold MAX_DENOM.
  destruct (_ || _) eqn:E; [|exists m00, m10; split; [done|lia]].
  rewrite !Hstep by lia. destruct k as [|k]; [change (2 ^ (31 + Z.of_nat 0)) with 2147483648 in *; lia|].
  replace (31 + Z.of_nat (S k)) with (Z.succ (31 + Z.of_nat k)) in * by lia. rewrite Z.pow_succ_r in * by lia.
  apply IH with k; [..|lia]; (split; [apply Z.div_pos; lia|apply Z.div_lt_upper_bound; lia]).
Qed.

Lemma attempt_sound value eps : valid value -> isnan value = false ->
  match attempt value eps with Ok (Some f) => canonical f | NoFuel => False | _ => True end.
Proof.
  intros Hv Hn. destruct (valid_abs value Hv) as [Hva Hna]. specialize (Hna Hn). unfold attempt, mbind, outcome_mbind. set (x := SFabs value) in *.
  destruct (to_long_long_cases x) as [(a & -> & Et & Ha)| ->]; [|done]. cbn [outcome_bind].
  rewrite (op2_ok 64 Z.mul 0 a), (op2_ok 64 Z.add (0 * a) 1) by lia. rewrite val_bind.
  assert (Hc : convergent (converge ITERATIONS eps x a (0 * a + 1) 1 0 0 1 0)).
  { apply converge_sound; [split; [done|lia|lia]|lia|]. unfold ITERATIONS. lia. }
  destruct (converge _ _ _ _ _ _ _ _ _ _) as [[m00 m10]| | |]; cbn [outcome_bind convergent] in *; try done. destruct Hc as [H0 H1].
  destruct (halve_sound 64 32 m00 m10) as (p & q & -> & Hp & Hq); [done|done|lia|]. cbn [outcome_bind].
  destruct (Z.eqb_spec q 0) as [|Hq0]; [done|]. cbn [negb]. set (s := if SFltb value (of_Z 0) then -1 else 1).
  assert (Hs : s = 1 \/ s = -1) by (unfold s; destruct (SFltb _ _); lia).
  destruct (reduced p q s ltac:(lia) ltac:(lia) Hs) as (Hg & Hgcd & Hqb & Hqa & _ & _).
  set (g := Z.gcd p q) in *. set (a' := Z.quot p g) in *. set (b' := Z.quot q g) in *.
  rewrite (quot_ok 64 p), (quot_ok 64 q) by (fold a' b'; lia). fold a' b'. rewrite op2_ok by nia. rewrite !val_bind.
  split; cbn [top_ bottom_]; [nia|lia|done].
Qed.

Lemma of_double_sound value : valid value -> sound (of_double value).
Proof.
  intros Hv. unfold of_double. destruct (isnan value) eqn:Hn; [done|]. cbn [negb ASSERT]. unfold mbind, outcome_mbind. cbn [outcome_bind].
  induction tolerances as [|eps l IH]; [done|]. cbn [attempts]. unfold mbind, outcome_mbind. pose proof (attempt_sound value eps Hv Hn) as Ha.
  by destruct (attempt value eps) as [[f|]| | |].
Qed.

Lemma valid_to_double f : valid (to_double f).
Proof. apply ddiv_ok. Qed.

(** ** Operations *)

(** A product is exact, or flagged. *)
Lemma mul_ok a b : Z.abs a < 2 ^ 63 -> Z.abs b < 2 ^ 63 ->
  mul false a b = Ok (if Z.abs (a * b) <? 2 ^ 63 then (false, a * b) else (true, 0)).
Proof.
  intros Ha Hb. unfold mul. destruct (Z.eqb_spec b 0) as [->|Hnz].
  { rewrite Z.mul_0_r. unfold mbind, outcome_mbind. cbn [outcome_bind]. rewrite op2_ok by lia. rewrite val_bind. by rewrite Z.mul_0_r. }
  rewrite !abs_ok, !val_bind by lia. unfold VALUE_TYPE_MAX. set (q := Z.quot (2 ^ 63 - 1) (Z.abs b)).
  assert (Hq : q = (2 ^ 63 - 1) / Z.abs b) by (apply Z.quot_div_nonneg; lia).
  assert (Hq0 : 0 <= q <= 2 ^ 63 - 1). { rewrite Hq. split; [apply Z.div_pos; lia|apply Z.div_le_upper_bound; nia]. }
  rewrite quot_ok by (fold q; lia). fold q. rewrite val_bind. unfold mbind, outcome_mbind. cbn [outcome_bind].
  pose proof (Z.mul_div_le (2 ^ 63 - 1) (Z.abs b) ltac:(lia)) as H1. pose proof (Z.mul_succ_div_gt (2 ^ 63 - 1) (Z.abs b) ltac:(lia)) as H2.
  rewrite <- Hq in H1, H2. rewrite Z.abs_mul. destruct (Z.ltb_spec q (Z.abs a)) as [Hlt|Hge].
  - by rewrite (proj2 (Z.ltb_ge (Z.abs a * Z.abs b) (2 ^ 63))) by nia.
  - rewrite (proj2 (Z.ltb_lt (Z.abs a * Z.abs b) (2 ^ 63))) by nia. assert (Hab : Z.abs (a * b) < 2 ^ 63) by (rewrite Z.abs_mul; nia).
    rewrite op2_ok by lia. by rewrite val_bind.
Qed.

Lemma add_ok a b : Z.abs a < 2 ^ 63 -> Z.abs b < 2 ^ 63 ->
  add false a b = Ok (if bool_decide (- 2 ^ 63 <= a + b < 2 ^ 63) then (false, a + b) else (true, 0)).
Proof.
  intros Ha Hb. unfold add, VALUE_TYPE_MAX, VALUE_TYPE_MIN, mbind, outcome_mbind. destruct (Z.ltb_spec 0 b).
  - rewrite (op2_ok 64 Z.sub) by lia. rewrite val_bind. cbn [outcome_bind]. destruct (Z.ltb_spec (2 ^ 63 - 1 - b) a).
    + by rewrite bool_decide_eq_false_2 by lia.
    + rewrite bool_decide_eq_true_2, op2_ok by lia. by rewrite val_bind.
  - rewrite (op2_ok 64 Z.sub) by lia. rewrite val_bind. cbn [outcome_bind]. destruct (Z.ltb_spec a (- 2 ^ 63 - b)).
    + by rewrite bool_decide_eq_false_2 by lia.
    + rewrite bool_decide_eq_true_2, op2_ok by lia. by rewrite val_bind.
Qed.

Lemma sub_ok a b : Z.abs a < 2 ^ 63 -> Z.abs b < 2 ^ 63 ->
  sub false a b = Ok (if bool_decide (- 2 ^ 63 <= a - b < 2 ^ 63) then (false, a - b) else (true, 0)).
Proof. intros Ha Hb. unfold sub. rewrite neg_ok by lia. rewrite val_bind. by apply add_ok; [|lia]. Qed.

Lemma llong_total o : (exists z, o = Ok z) \/ o = Undef -> forall {A} (k : Z -> outcome A), (forall z, k z <> NoFuel) -> outcome_bind k o <> NoFuel.
Proof. intros [[z ->]| ->] A k Hk; [apply Hk|done]. Qed.

Lemma fit_total w z : (exists y, fit w z = Ok y) \/ fit w z = Undef.
Proof. destruct (fit_cases w z) as [[-> _]| ->]; [left; by eexists|by right]. Qed.

Lemma mul_total o a b : mul o a b <> NoFuel.
Proof.
  unfold mul, mbind, outcome_mbind. assert (Hp : forall c : bool, (if c then Ok (true, 0) else int64 p := a * b in Ok (false, p)) <> NoFuel).
  { intros []; [done|]. apply llong_total; [apply fit_total|done]. }
  destruct o; [apply (Hp true)|]. destruct (b =? 0); [apply (Hp false)|]. unfold abs, quot, mbind, outcome_mbind. cbn [outcome_bind val].
  destruct (fit_total 64 (Z.abs a)) as [[x ->]| ->], (fit_total 64 (Z.abs b)) as [[y ->]| ->]; cbn [outcome_bind]; try done.
  destruct (y =? 0); [done|]. destruct (fit_total 64 (Z.quot VALUE_TYPE_MAX y)) as [[z ->]| ->]; cbn [outcome_bind]; [apply Hp|done].
Qed.

Lemma add_total o a b : add o a b <> NoFuel.
Proof.
  unfold add, mbind, outcome_mbind. assert (Hp : forall c : bool, (if c then Ok (true, 0) else int64 p := a + b in Ok (false, p)) <> NoFuel).
  { intros []; [done|]. apply llong_total; [apply fit_total|done]. }
  destruct o; [apply (Hp true)|]. destruct (0 <? b);
    [destruct (op2_cases 64 Z.sub VALUE_TYPE_MAX b) as [[-> _]| ->]|destruct (op2_cases 64 Z.sub VALUE_TYPE_MIN b) as [[-> _]| ->]]; cbn [outcome_bind]; try done; apply Hp.
Qed.

Lemma sub_total o a b : sub o a b <> NoFuel.
Proof. unfold sub. apply llong_total; [apply fit_total|]. intros. apply add_total. Qed.

Create HintDb fraction discriminated.
#[local] Hint Constants Opaque : fraction.
#[local] Hint Resolve mul_total add_total sub_total new_sound of_double_sound valid_to_double valid_dadd valid_dsub valid_dmul : fraction.
#[local] Hint Extern 1 (valid (ddiv _ _)) => apply ddiv_ok : fraction.

(** Steps that may overflow, then a constructor. *)
#[local] Ltac sound_steps :=
  unfold mbind, outcome_mbind;
  repeat (apply sound_bind; [solve [auto with fraction]|intros [] _]); case_match; auto with fraction.

Lemma plus_sound f g : sound (plus f g).
Proof. unfold plus, plus_with. sound_steps. Qed.
Lemma minus_sound f g : sound (minus f g).
Proof. unfold minus, plus_with. sound_steps. Qed.
Lemma times_sound f g : sound (times f g).
Proof. unfold times. sound_steps. Qed.
Lemma divide_sound f g : sound (divide f g).
Proof. unfold divide. sound_steps. Qed.

Lemma opposite_sound f : sound (opposite f).
Proof. unfold opposite. apply sound_bind; [destruct (fit_total 64 (- top_ f)) as [[z E]|E]; cbn; by rewrite E|auto with fraction]. Qed.

Lemma absolute_sound f : sound (absolute f).
Proof.
  unfold absolute. apply sound_bind; [|auto with fraction]. destruct (top_ f <? 0); [|done].
  destruct (fit_total 64 (- top_ f)) as [[z E]|E]; cbn; by rewrite E.
Qed.

Lemma inverse_sound f : sound (inverse f).
Proof. unfold inverse. case_match; auto with fraction. done. Qed.

Lemma decimalPart_sound f : sound (decimalPart f).
Proof.
  unfold decimalPart, mbind, outcome_mbind. apply sound_bind; [|intros n _; apply minus_sound].
  unfold integralPart, quot, mbind, outcome_mbind. cbn [outcome_bind val]. case_match; [done|]. by destruct (fit_total 64 (Z.quot (top_ f) (bottom_ f))) as [[z ->]| ->].
Qed.

Lemma of_string_sound s : sound (of_string s).
Proof.
  unfold of_string. set (v := tokenize slash s). case_match.
  - unfold mbind, outcome_mbind. apply sound_bind; [by destruct (length v =? 2)%nat|]. intros [] _. repeat (case_match; try done). auto with fraction.
  - unfold mbind, outcome_mbind. destruct (string_to_double s) as [d| | |] eqn:E; try done.
    + cbn [outcome_bind]. apply of_double_sound. by apply valid_string_to_double in E.
    + exfalso. revert E. unfold string_to_double. destruct (strtod _) as [[? ?] ?]. by case_match.
Qed.

Lemma scan_decimal_total s : forall first n d sgn err dec, scan_decimal s first n d sgn err dec <> NoFuel.
Proof.
  induction s as [|c s IH]; intros first n d sgn err dec; [done|]. cbn [scan_decimal]. case_match; [apply IH|]. case_match; [apply IH|]. case_match; [|apply IH].
  destruct (op2_cases 64 Z.mul n 10) as [[-> _]| ->]; [|done]. change (Ok (n * 10)) with (val (n * 10)).
  destruct (op2_cases 64 Z.add (n * 10) (byte.unsigned c - 48)) as [[-> _]| ->]; [|done]. cbn [outcome_bind].
  destruct dec; [|apply IH]. destruct (op2_cases 64 Z.mul d 10) as [[-> _]| ->]; [apply IH|done].
Qed.

Lemma fromString_sound s : sound (fromString s).
Proof.
  unfold fromString, mbind, outcome_mbind. apply sound_bind; [apply scan_decimal_total|]. intros [[[n d] sgn] err] _. case_match; [done|].
  destruct (op2_cases 64 Z.mul sgn n) as [[-> _]| ->]; [|done]. cbn [outcome_bind]. apply new_sound.
Qed.

Lemma stable_loop_sound fuel : forall x y n max, canonical x -> canonical y -> n <= max -> max - n < Z.of_nat fuel -> sound (stable_loop fuel x y n max).
Proof.
  induction fuel as [|fuel IH]; intros x y n max Hx Hy Hn Hf; cbn [stable_loop]; (destruct (equal x y); [done|]).
  - lia.
  - destruct (Z.leb_spec max (n + 1)); [done|]. unfold mbind, outcome_mbind. pose proof (of_double_sound (to_double y) (valid_to_double y)) as Hd.
    apply sound_bind; [by intros E; rewrite E in Hd|]. intros y' Ey. rewrite Ey in Hd. apply IH; try done; lia.
Qed.

Lemma stableVersion_sound f max : canonical f -> 0 <= max -> sound (stableVersion f max).
Proof.
  intros Hf Hm. unfold stableVersion, mbind, outcome_mbind. pose proof (of_double_sound (to_double f) (valid_to_double f)) as Hd.
  apply sound_bind; [by intros E; rewrite E in Hd|]. intros y Ey. rewrite Ey in Hd. apply stable_loop_sound; try done; lia.
Qed.

(** ** Expressions *)

(** Any use of the class that makes a fraction. *)
Inductive expr : Type :=
| EZero
| ELongLong (n : Z)
| ETopBottom (top bottom : Z)
| EDouble (d : double)
| EString (s : text)
| EFromString (s : text)
| EOpposite (e : expr)
| EAbs (e : expr)
| EInverse (e : expr)
| EDecimalPart (e : expr)
| EStable (e : expr) (max : Z)
| EPlus (e1 e2 : expr)
| EMinus (e1 e2 : expr)
| ETimes (e1 e2 : expr)
| EDivide (e1 e2 : expr).

Fixpoint eval (e : expr) : outcome Fraction :=
  let unary (op : Fraction -> outcome Fraction) e := f ← eval e; op f in
  let binary (op : Fraction -> Fraction -> outcome Fraction) e1 e2 := f ← eval e1; g ← eval e2; op f g in
  match e with
  | EZero => Ok zero
  | ELongLong n => Ok (of_long_long n)
  | ETopBottom top bottom => new top bottom
  | EDouble d => of_double d
  | EString s => of_string s
  | EFromString s => fromString s
  | EOpposite e => unary opposite e
  | EAbs e => unary absolute e
  | EInverse e => unary inverse e
  | EDecimalPart e => unary decimalPart e
  | EStable e max => unary (fun f => stableVersion f max) e
  | EPlus e1 e2 => binary plus e1 e2
  | EMinus e1 e2 => binary minus e1 e2
  | ETimes e1 e2 => binary times e1 e2
  | EDivide e1 e2 => binary divide e1 e2
  end.

(** The arguments are values of their C++ types. *)
Fixpoint typed (e : expr) : Prop :=
  match e with
  | EZero | EString _ | EFromString _ => True
  | ELongLong n => in_S 64 n = true
  | ETopBottom top bottom => in_S 64 top = true /\ in_S 64 bottom = true
  | EDouble d => valid d
  | EOpposite e | EAbs e | EInverse e | EDecimalPart e => typed e
  | EStable e max => typed e /\ 0 <= max
  | EPlus e1 e2 | EMinus e1 e2 | ETimes e1 e2 | EDivide e1 e2 => typed e1 /\ typed e2
  end.

Lemma unary_sound op e : (forall f, canonical f -> sound (op f)) -> sound (eval e) -> sound (f ← eval e; op f).
Proof. intros Hop He. unfold mbind, outcome_mbind. destruct (eval e); try done. by apply Hop. Qed.

Lemma binary_sound op e1 e2 : (forall f g, sound (op f g)) -> sound (eval e1) -> sound (eval e2) -> sound (f ← eval e1; g ← eval e2; op f g).
Proof. intros Hop H1 H2. unfold mbind, outcome_mbind. destruct (eval e1); try done. cbn [outcome_bind]. destruct (eval e2); try done. by apply Hop. Qed.

#[local] Hint Resolve opposite_sound absolute_sound inverse_sound decimalPart_sound stableVersion_sound plus_sound minus_sound times_sound divide_sound
  of_string_sound fromString_sound : fraction.

Lemma eval_sound e : typed e -> sound (eval e).
Proof.
  induction e; cbn [typed eval]; intros Ht; destruct_and?; auto with fraction;
    try (lazymatch goal with
         | |- sound (eval _ ≫= (fun _ => eval _ ≫= _)) => apply binary_sound
         | |- sound (eval _ ≫= _) => apply unary_sound
         end; auto with fraction; fail).
  - split; cbn; try done; lia.
  - apply in_S_spec in Ht. split; cbn; [change (2 ^ (64 - 1)) with (2 ^ 63) in Ht; lia|lia|]. by rewrite Z.gcd_1_r.
Qed.

(** ** Exactness *)

Definition exact (o : outcome Fraction) (q : Q) : Prop := exists h, o = Ok h /\ canonical h /\ (toQ h == q)%Q.

Lemma toQ_eq f q : 0 < bottom_ f -> top_ f * Zpos (Qden q) = Qnum q * bottom_ f -> (toQ f == q)%Q.
Proof. intros Hb E. unfold Qeq, toQ. cbn [Qnum Qden]. by rewrite Z2Pos.id. Qed.

Lemma new_exact top bottom q : Z.abs top < 2 ^ 63 -> Z.abs bottom < 2 ^ 63 -> bottom <> 0 -> top * Zpos (Qden q) = Qnum q * bottom -> exact (new top bottom) q.
Proof.
  intros Ht Hb Hnz E. destruct (new_ok top bottom Ht Hb Hnz) as (h & -> & Hc & Eh). exists h. split_and!; [done|done|].
  apply toQ_eq; [apply Hc|]. apply (Z.mul_reg_r _ _ bottom); [done|]. transitivity (top * bottom_ h * Zpos (Qden q)); [rewrite <- Eh; lia|].
  transitivity (Qnum q * bottom * bottom_ h); [rewrite <- E|]; lia.
Qed.

(** Canonical fractions with the same value are the same. *)
Lemma canonical_unique f g : canonical f -> canonical g -> top_ f * bottom_ g = top_ g * bottom_ f -> f = g.
Proof.
  intros [_ Hf1 Hf2] [_ Hg1 Hg2] E.
  assert (D1 : (bottom_ f | bottom_ g)). { apply (Z.gauss _ (top_ f)); [exists (top_ g); lia|by rewrite Z.gcd_comm]. }
  assert (D2 : (bottom_ g | bottom_ f)). { apply (Z.gauss _ (top_ g)); [exists (top_ f); lia|by rewrite Z.gcd_comm]. }
  assert (Eb : bottom_ f = bottom_ g) by (apply Z.divide_antisym_nonneg; lia || done).
  destruct f as [a b], g as [c d]. cbn in *. subst d. f_equal. nia.
Qed.

Lemma bounded_ok z : Z.abs z < 2 ^ 63 -> (Z.abs z <? 2 ^ 63) = true.
Proof. apply Z.ltb_lt. Qed.

Section Exact.
Variables f g : Fraction.
Hypotheses (Hf : canonical f) (Hg : canonical g) (Htf : Z.abs (top_ f) < 2 ^ 63) (Htg : Z.abs (top_ g) < 2 ^ 63).
#[local] Set Default Proof Using "Type*".

Lemma bottoms : Z.abs (bottom_ f) < 2 ^ 63 /\ Z.abs (bottom_ g) < 2 ^ 63 /\ bottom_ f <> 0 /\ bottom_ g <> 0.
Proof. destruct Hf, Hg. lia. Qed.

#[local] Ltac Q_arith := destruct Hf as [_ ? _], Hg as [_ ? _]; unfold toQ, Qminus, Qplus, Qopp, Qmult; cbn [Qnum Qden]; rewrite ?Pos2Z.inj_mul, ?Z2Pos.id by lia; nia.

(** The two sums share their steps. *)
Lemma sum_exact s ds (op : Z -> Z -> Z) q :
  (forall a b, Z.abs a < 2 ^ 63 -> Z.abs b < 2 ^ 63 -> s false a b = Ok (if bool_decide (- 2 ^ 63 <= op a b < 2 ^ 63) then (false, op a b) else (true, 0))) ->
  (forall a b, Z.abs (op a b) <= Z.abs a + Z.abs b) ->
  op (top_ f * bottom_ g) (bottom_ f * top_ g) * Zpos (Qden q) = Qnum q * (bottom_ f * bottom_ g) ->
  Z.abs (top_ f * bottom_ g) + Z.abs (bottom_ f * top_ g) < 2 ^ 63 -> bottom_ f * bottom_ g < 2 ^ 63 -> exact (plus_with s ds f g) q.
Proof.
  intros Hs Hop Hq Hsum Hbot. destruct bottoms as (B1 & B2 & N1 & N2). destruct Hf as [_ P1 _], Hg as [_ P2 _].
  pose proof (Hop (top_ f * bottom_ g) (bottom_ f * top_ g)) as Hle.
  unfold plus_with, mbind, outcome_mbind. rewrite !mul_ok by done. rewrite !bounded_ok by lia. cbn [outcome_bind]. rewrite mul_ok by done.
  rewrite bounded_ok by lia. cbn [outcome_bind].
  rewrite Hs by lia. rewrite bool_decide_eq_true_2 by lia. cbn [outcome_bind]. rewrite mul_ok by done. rewrite bounded_ok by lia. cbn [outcome_bind negb].
  apply new_exact; lia || nia || done.
Qed.

Lemma plus_exact : Z.abs (top_ f * bottom_ g) + Z.abs (bottom_ f * top_ g) < 2 ^ 63 -> bottom_ f * bottom_ g < 2 ^ 63 -> exact (plus f g) (toQ f + toQ g).
Proof. apply sum_exact with Z.add; [intros; by apply add_ok|lia|Q_arith]. Qed.

Lemma minus_exact : Z.abs (top_ f * bottom_ g) + Z.abs (bottom_ f * top_ g) < 2 ^ 63 -> bottom_ f * bottom_ g < 2 ^ 63 -> exact (minus f g) (toQ f - toQ g).
Proof. apply sum_exact with Z.sub; [intros; by apply sub_ok|lia|Q_arith]. Qed.

Lemma times_exact : Z.abs (top_ f * top_ g) < 2 ^ 63 -> bottom_ f * bottom_ g < 2 ^ 63 -> exact (times f g) (toQ f * toQ g).
Proof.
  intros H1 H2. destruct bottoms as (B1 & B2 & N1 & N2). destruct Hf as [_ P1 _], Hg as [_ P2 _].
  unfold times, mbind, outcome_mbind. rewrite !mul_ok by done. rewrite bounded_ok by lia. cbn [outcome_bind]. rewrite mul_ok by done.
  rewrite bounded_ok by lia. cbn [outcome_bind negb]. apply new_exact; [done|lia|nia|Q_arith].
Qed.

Lemma divide_exact : Z.abs (top_ f * bottom_ g) < 2 ^ 63 -> Z.abs (bottom_ f * top_ g) < 2 ^ 63 ->
  if top_ g =? 0 then divide f g = Throw AssertionFailed else exact (divide f g) (toQ f / toQ g).
Proof.
  intros H1 H2. destruct bottoms as (B1 & B2 & N1 & N2). destruct Hf as [_ P1 _], Hg as [_ P2 _].
  unfold divide, mbind, outcome_mbind. rewrite !mul_ok by done. rewrite bounded_ok by lia. cbn [outcome_bind]. rewrite mul_ok by done.
  rewrite bounded_ok by lia. cbn [outcome_bind negb]. destruct (Z.eqb_spec (top_ g) 0) as [E|E]; [by rewrite E, Z.mul_0_r|].
  apply new_exact; [done|done|nia|]. unfold toQ, Qdiv, Qmult, Qinv. cbn [Qnum Qden].
  destruct (top_ g) as [|p|p] eqn:Ep; [done|..]; cbn [Qnum Qden]; rewrite ?Pos2Z.inj_mul, <- ?Pos2Z.opp_pos, ?Z2Pos.id by lia; ring.
Qed.

(** The comparisons are those of the rational numbers. *)
Lemma comparison_exact cmp dcmp : Z.abs (top_ f * bottom_ g) < 2 ^ 63 -> Z.abs (top_ g * bottom_ f) < 2 ^ 63 ->
  compare_with cmp dcmp f g = Ok (cmp (top_ f * bottom_ g) (top_ g * bottom_ f)).
Proof.
  intros H1 H2. destruct bottoms as (B1 & B2 & N1 & N2).
  unfold compare_with, mbind, outcome_mbind. rewrite !mul_ok by done. rewrite bounded_ok by lia. cbn [outcome_bind]. rewrite mul_ok by done.
  rewrite bounded_ok by lia. done.
Qed.

Lemma equal_spec : equal f g = Qeq_bool (toQ f) (toQ g).
Proof.
  apply eq_bool_prop_intro. unfold equal. rewrite andb_True, !Is_true_true, !Z.eqb_eq, Qeq_bool_iff. unfold Qeq, toQ. cbn [Qnum Qden].
  destruct Hf as [_ P1 _], Hg as [_ P2 _]. rewrite !Z2Pos.id by lia. split; [intros [-> ->]; lia|].
  intros E. by rewrite (canonical_unique f g Hf Hg E).
Qed.
End Exact.
End Fraction.

(** ** Printing and reading *)

(** A small integer is turned into itself. *)
Lemma of_double_integer n : Z.abs n < Fraction.MAX_DENOM ->
  Fraction.of_double (if n <? 0 then SFopp (of_Z (- n)) else of_Z n) = Ok (mkFraction n 1).
Proof.
  intros Hn. unfold Fraction.MAX_DENOM in Hn. set (v := if n <? 0 then _ else _). set (a := Z.abs n).
  assert (Hv : isnan v = false /\ SFabs v = of_Z a /\ SFltb v (of_Z 0) = (n <? 0)).
  { unfold v, a. destruct (Z.ltb_spec n 0).
    - rewrite Z.abs_neq by lia. rewrite of_Z_small by lia. done.
    - rewrite Z.abs_eq by lia. destruct (Z.eq_dec n 0) as [->|]; [done|]. rewrite of_Z_small by lia. done. }
  destruct Hv as (Hnan & Habs & Hlt). assert (Ha : a = Z.abs n) by done. clearbody a v. unfold Fraction.of_double. rewrite Hnan. cbn [negb ASSERT]. unfold mbind, outcome_mbind. cbn [outcome_bind].
  change Fraction.tolerances with (epsilon :: tail Fraction.tolerances). cbn [Fraction.attempts]. unfold Fraction.attempt, mbind, outcome_mbind. rewrite Habs, Hlt.
  unfold to_long_long. rewrite truncate_of_Z by lia. unfold mbind, outcome_mbind. cbn [outcome_bind]. rewrite fit_ok, val_bind by lia.
  rewrite (op2_ok 64 Z.mul 0 a), (op2_ok 64 Z.add (0 * a) 1), val_bind by lia. rewrite Z.mul_0_l, Z.add_0_l.
  change Fraction.ITERATIONS with (S (pred Fraction.ITERATIONS)). cbn [Fraction.converge]. change (1 <=? Fraction.MAX_DENOM) with true. cbn iota.
  rewrite (op2_ok 64 Z.mul 1 a), (op2_ok 64 Z.add (1 * a) 0), val_bind by lia. rewrite Z.mul_1_l, Z.add_0_r.
  rewrite dsub_self; [|apply valid_of_Z|by apply normalize_valid; lia|].
  2: { destruct (Z.eq_dec a 0) as [->|]; [done|]. by rewrite of_Z_small by lia. }
  change (SFltb (SFabs (S754_zero false)) epsilon) with true. cbn [outcome_bind Fraction.halve]. unfold Fraction.MAX_DENOM at 2.
  rewrite (proj2 (Z.leb_gt 3037000499 a)) by lia. cbn [orb Z.leb Z.compare Pos.compare Pos.compare_cont Fraction.MAX_DENOM outcome_bind Z.eqb negb].
  rewrite Z.gcd_1_r. rewrite !(quot_ok 64) by (rewrite ?Z.quot_1_r; lia). rewrite !Z.quot_1_r. rewrite op2_ok by (destruct (n <? 0); lia). rewrite !val_bind.
  cbn [outcome_bind]. do 2 f_equal. destruct (Z.ltb_spec n 0); lia.
Qed.

Lemma string_to_long_long_print n : in_S 64 n = true -> string_to_long_long (print_long n) = n.
Proof. exact (string_to_long_print n). Qed.

Lemma print_plain n : - 2 ^ 63 <= n < 2 ^ 63 -> plain (list_to_set (str "/")) (print_long n) /\ print_long n <> [].
Proof.
  intros Hn. destruct (print_long_chars n ltac:(lia)) as [Hne Hc]. split; [|done]. eapply Forall_impl; [exact Hc|].
  intros c Hc' Hin. apply elem_of_list_to_set in Hin. apply list_elem_of_singleton in Hin. subst c. by destruct Hc'.
Qed.

(** A fraction is read back from the text that it prints: the exact value from a
    quotient, and an integer, which is read as a [double], as long as it is below the
    largest denominator. *)
Theorem fraction_print_parse f : Fraction.canonical f -> Z.abs (top_ f) < 2 ^ 63 -> (bottom_ f = 1 -> Z.abs (top_ f) < Fraction.MAX_DENOM) ->
  Fraction.of_string (Fraction.to_string f) = Ok f.
Proof.
  intros Hc Ht Hi. pose proof Hc as [_ Hb _]. destruct (print_plain (top_ f) ltac:(lia)) as [Hp1 Hn1]. destruct (print_plain (bottom_ f) ltac:(lia)) as [Hp2 Hn2].
  unfold Fraction.of_string, Fraction.to_string. destruct (Z.eqb_spec (bottom_ f) 1) as [E1|E1].
  - assert (Et : tokenize Fraction.slash (print_long (top_ f)) = [print_long (top_ f)]).
    { apply (tokenize_join (list_to_set (str "/")) false "/"%byte [print_long (top_ f)]); [set_solver| |done]. constructor; [by auto|constructor]. }
    rewrite Et. cbn [length Nat.ltb Nat.leb]. specialize (Hi E1). rewrite string_to_double_print by (unfold Fraction.MAX_DENOM in Hi; lia).
    unfold mbind, outcome_mbind. cbn [outcome_bind]. rewrite of_double_integer by done. destruct f. cbn in *. by rewrite E1.
  - assert (Et : tokenize Fraction.slash (print_long (top_ f) ++ str "/" ++ print_long (bottom_ f)) = [print_long (top_ f); print_long (bottom_ f)]).
    { rewrite <- (tokenize_join (list_to_set (str "/")) false "/"%byte [print_long (top_ f); print_long (bottom_ f)]); [done|set_solver| |done].
      constructor; [by auto|constructor; [by auto|constructor]]. }
    rewrite Et. cbn [length Nat.ltb Nat.leb Nat.eqb ASSERT]. unfold mbind, outcome_mbind. cbn [outcome_bind].
    rewrite !string_to_long_long_print by (apply in_S_spec; change (2 ^ (64 - 1)) with (2 ^ 63); lia).
    destruct (Fraction.new_ok (top_ f) (bottom_ f)) as (h & -> & Hh & E); [lia..|]. f_equal. by apply Fraction.canonical_unique.
Qed.

Lemma fraction_print_parse_witness : Fraction.of_string (Fraction.to_string (mkFraction (-7) 12)) = Ok (mkFraction (-7) 12).
Proof. apply fraction_print_parse; [split; cbn; done || lia|cbn; lia|done]. Defined.

(** ** The class as a whole *)

(** C18. Whatever fractions are built from, and through whatever operations, overflow to
    floating point included, a fraction that results is in canonical form: a positive
    denominator, no common divisor, both in 64 bits.  No loop of the class runs for ever. *)
Theorem fraction_canonical_form (e : Fraction.expr) : Fraction.typed e ->
  match Fraction.eval e with
  | Ok f => - 2 ^ 63 <= top_ f < 2 ^ 63 /\ 0 < bottom_ f < 2 ^ 63 /\ Z.gcd (top_ f) (bottom_ f) = 1
  | Throw _ | Undef => True
  | NoFuel => False
  end.
Proof. intros He. pose proof (Fraction.eval_sound e He) as Hs. destruct (Fraction.eval e); try done. by destruct Hs. Qed.

Lemma fraction_canonical_form_witness :
  let e := Fraction.ETimes (Fraction.ETopBottom (2 ^ 62) 3) (Fraction.EPlus (Fraction.EDouble (of_decimal false 25 (-2))) (Fraction.ETopBottom 5 (-3))) in
  Fraction.eval e = Throw BadValue /\
  match Fraction.eval (Fraction.EInverse (Fraction.EPlus (Fraction.EDouble (of_decimal false 25 (-2))) (Fraction.EString (str "10/-6")))) with
  | Ok f => - 2 ^ 63 <= top_ f < 2 ^ 63 /\ 0 < bottom_ f < 2 ^ 63 /\ Z.gcd (top_ f) (bottom_ f) = 1
  | Throw _ | Undef => True
  | NoFuel => False
  end.
Proof. split; [vm_compute; reflexivity|]. apply fraction_canonical_form. split; [apply valid_of_decimal|done]. Defined.

(** C19. Arithmetic is exact: sums, differences, products and quotients of canonical fractions
    whose intermediate products fit 64 bits are the fractions of the rational results, in
    canonical form; a division by zero fails an assertion. *)
Theorem fraction_arithmetic_exact (f g : Fraction) :
  let a := top_ f in let b := bottom_ f in let c := top_ g in let d := bottom_ g in
  Fraction.canonical f -> Fraction.canonical g -> Z.abs a < 2 ^ 63 -> Z.abs c < 2 ^ 63 ->
  (Z.abs (a * d) + Z.abs (b * c) < 2 ^ 63 -> b * d < 2 ^ 63 ->
     Fraction.exact (Fraction.plus f g) (Fraction.toQ f + Fraction.toQ g) /\ Fraction.exact (Fraction.minus f g) (Fraction.toQ f - Fraction.toQ g)) /\
  (Z.abs (a * c) < 2 ^ 63 -> b * d < 2 ^ 63 -> Fraction.exact (Fraction.times f g) (Fraction.toQ f * Fraction.toQ g)) /\
  (Z.abs (a * d) < 2 ^ 63 -> Z.abs (b * c) < 2 ^ 63 ->
     if c =? 0 then Fraction.divide f g = Throw AssertionFailed else Fraction.exact (Fraction.divide f g) (Fraction.toQ f / Fraction.toQ g)).
Proof.
  intros a b c d Hf Hg Ha Hc. split_and!.
  - intros H1 H2. split; [by apply Fraction.plus_exact|by apply Fraction.minus_exact].
  - by apply Fraction.times_exact.
  - by apply Fraction.divide_exact.
Qed.

Lemma fraction_arithmetic_exact_witness :
  Fraction.exact (Fraction.plus (mkFraction 1 6) (mkFraction (-2) 3)) ((1 # 6) + (-2 # 3)) /\
  Fraction.exact (Fraction.divide (mkFraction 1 6) (mkFraction (-2) 3)) ((1 # 6) / (-2 # 3)).
Proof.
  destruct (fraction_arithmetic_exact (mkFraction 1 6) (mkFraction (-2) 3)) as (H1 & _ & H3); [split; cbn; done || lia..|cbn; lia|cbn; lia|].
  split; [apply H1; cbn; lia|apply H3; cbn; lia].
Defined.

(** Comparisons: equality of canonical fractions is equality of rational numbers, and the
    order is that of the rational numbers whenever the cross products fit 64 bits. *)
Theorem fraction_order_exact (f g : Fraction) :
  Fraction.canonical f -> Fraction.canonical g -> Z.abs (top_ f) < 2 ^ 63 -> Z.abs (top_ g) < 2 ^ 63 ->
  Fraction.equal f g = Qeq_bool (Fraction.toQ f) (Fraction.toQ g) /\
  (Z.abs (top_ f * bottom_ g) < 2 ^ 63 -> Z.abs (top_ g * bottom_ f) < 2 ^ 63 ->
   Fraction.less f g = Ok (negb (Qle_bool (Fraction.toQ g) (Fraction.toQ f))) /\
   Fraction.less_equal f g = Ok (Qle_bool (Fraction.toQ f) (Fraction.toQ g)) /\
   Fraction.greater f g = Ok (negb (Qle_bool (Fraction.toQ f) (Fraction.toQ g))) /\
   Fraction.greater_equal f g = Ok (Qle_bool (Fraction.toQ g) (Fraction.toQ f))).
Proof.
  intros Hf Hg Htf Htg. split; [by apply Fraction.equal_spec|]. intros H1 H2.
  unfold Fraction.less, Fraction.less_equal, Fraction.greater, Fraction.greater_equal. rewrite !Fraction.comparison_exact by done.
  unfold Qle_bool, Fraction.toQ. cbn [Qnum Qden]. destruct Hf as [_ P1 _], Hg as [_ P2 _]. rewrite !Z2Pos.id by lia. by rewrite <- !Z.ltb_antisym.
Qed.

Lemma fraction_order_exact_witness : Fraction.less (mkFraction 1 3) (mkFraction 1 2) = Ok true.
Proof. apply (fraction_order_exact (mkFraction 1 3) (mkFraction 1 2)); try (split; cbn; done || lia); cbn; lia. Defined.

(** A fraction is the sum of its integral part, rounded towards zero, and its decimal
    part, which is less than one in absolute value; its opposite, its absolute value and
    its inverse are exact, and zero has no inverse. *)
Theorem fraction_parts_exact (f : Fraction) : Fraction.canonical f -> Z.abs (top_ f) < 2 ^ 63 ->
  (exists n d, Fraction.integralPart f = Ok n /\ Fraction.decimalPart f = Ok d /\ Fraction.canonical d /\
     (Fraction.toQ f == inject_Z n + Fraction.toQ d)%Q /\ Z.abs (top_ d) < bottom_ d) /\
  Fraction.exact (Fraction.opposite f) (- Fraction.toQ f) /\
  Fraction.exact (Fraction.absolute f) (Z.abs (top_ f) # Z.to_pos (bottom_ f)) /\
  (if top_ f =? 0 then Fraction.inverse f = Throw BadValue else Fraction.exact (Fraction.inverse f) (/ Fraction.toQ f)).
Proof.
  intros Hf Ht. pose proof Hf as [_ Hb _]. split_and!.
  - set (n := Z.quot (top_ f) (bottom_ f)). pose proof (Z.quot_rem (top_ f) (bottom_ f) ltac:(lia)) as Hq. fold n in Hq.
    pose proof (Z.rem_bound_abs (top_ f) (bottom_ f) ltac:(lia)) as Hr.
    assert (Hn : Z.abs (bottom_ f * n) <= Z.abs (top_ f)). { pose proof (Z.mul_quot_le (Z.abs (top_ f)) (bottom_ f)). unfold n.
      rewrite Z.abs_mul, <- Z.quot_abs, (Z.abs_eq (bottom_ f)) by lia. apply Z.mul_quot_le; lia. }
    assert (Hn63 : Z.abs n <= Z.abs (top_ f)) by nia.
    assert (Hi : Fraction.integralPart f = Ok n) by (apply quot_ok; fold n; lia).
    assert (Hg : Fraction.canonical (Fraction.of_long_long n)) by (split; cbn; [lia|lia|apply Z.gcd_1_r]).
    unfold Fraction.decimalPart. rewrite Hi. unfold mbind, outcome_mbind. cbn [outcome_bind].
    assert (Hd : exists d, Fraction.minus f (Fraction.of_long_long n) = Ok d /\ Fraction.canonical d /\ top_ d * bottom_ f = (top_ f - bottom_ f * n) * bottom_ d).
    { unfold Fraction.minus, Fraction.plus_with, mbind, outcome_mbind. cbn [Fraction.of_long_long top_ bottom_].
      rewrite !Fraction.mul_ok by lia. rewrite !Z.mul_1_r, !Fraction.bounded_ok by lia. cbn [outcome_bind]. rewrite Fraction.mul_ok, Fraction.bounded_ok by lia.
      cbn [outcome_bind]. rewrite Fraction.sub_ok, bool_decide_eq_true_2 by lia. cbn [outcome_bind]. rewrite Fraction.mul_ok, Z.mul_1_r, Fraction.bounded_ok by lia.
      cbn [outcome_bind negb]. apply Fraction.new_ok; lia. }
    destruct Hd as (d & -> & Hd & Ed). exists n, d. pose proof Hd as [_ Hdb _]. split_and!; try done.
    + unfold Qeq, Fraction.toQ, Qplus, inject_Z. cbn [Qnum Qden]. rewrite Pos2Z.inj_mul, !Z2Pos.id by lia. nia.
    + rewrite <- (Z.abs_eq (bottom_ d)) at 1 by lia. nia.
  - unfold Fraction.opposite. rewrite neg_ok by lia. rewrite val_bind. apply Fraction.new_exact; [lia..|]. unfold Fraction.toQ, Qopp. cbn [Qnum Qden]. rewrite Z2Pos.id by lia. lia.
  - unfold Fraction.absolute. replace (if top_ f <? 0 then _ else _) with (val (Z.abs (top_ f))).
    + rewrite val_bind. apply Fraction.new_exact; [lia..|]. cbn [Qnum Qden]. rewrite Z2Pos.id by lia. lia.
    + destruct (Z.ltb_spec (top_ f) 0); [rewrite neg_ok by lia|]; f_equal; lia.
  - unfold Fraction.inverse. destruct (Z.eqb_spec (top_ f) 0) as [|Hnz]; [done|]. cbn [negb]. apply Fraction.new_exact; [lia..|].
    unfold Fraction.toQ, Qinv. cbn [Qnum Qden]. destruct (top_ f) as [|p|p] eqn:Ep; [done|..]; cbn [Qnum Qden]; rewrite <- ?Pos2Z.opp_pos, ?Z2Pos.id by lia; lia.
Qed.

Lemma fraction_parts_exact_witness : exists n d, Fraction.integralPart (mkFraction (-7) 2) = Ok n /\ Fraction.decimalPart (mkFraction (-7) 2) = Ok d /\
  Fraction.canonical d /\ (Fraction.toQ (mkFraction (-7) 2) == inject_Z n + Fraction.toQ d)%Q /\ Z.abs (top_ d) < bottom_ d.
Proof. apply (fraction_parts_exact (mkFraction (-7) 2)); [split; cbn; done || lia|cbn; lia]. Defined.

(** An integer from the largest denominator on is not read back from a [double], nor from
    its own text. *)
Lemma fraction_large_integer : Fraction.of_double (of_Z 4000000000) = Throw BadValue /\
  Fraction.of_string (Fraction.to_string (Fraction.of_long_long 4000000000)) = Throw BadValue.
Proof. split; vm_compute; reflexivity. Qed.

(** The sum that is the least [long long] passes the overflow tests, and its absolute value
    overflows in the constructor. *)
Lemma fraction_least_sum : Fraction.plus (mkFraction (- 2 ^ 62) 1) (mkFraction (- 2 ^ 62) 1) = Undef.
Proof. vm_compute. reflexivity. Qed.

(** Characters that are not part of a number are skipped. *)
Lemma fraction_from_string_skips : Fraction.fromString (str "3/4") = Ok (mkFraction 34 1) /\ Fraction.fromString (str "1e3") = Ok (mkFraction 13 1).
Proof. split; vm_compute; reflexivity. Qed.
