(* ===== verification/SparseMatrix.v ===== *)
(** * Sparse matrices

    [linalg/SparseMatrix.cc], [linalg/SparseMatrix.h] and [linalg/Triplet.h]: matrices in
    compressed row storage, built from triplets, transposed, reduced to some rows, pruned
    and iterated; the products with a vector and with a dense matrix of
    [linalg/sparse/LinearAlgebraGeneric.cc].  A scalar is the 64 bits of a [double]; the
    contents of freshly allocated arrays are parameters.  Column indices are 32-bit signed,
    row starts 32-bit unsigned integers. *)
From Stdlib Require Import Floats.SpecFloat Sorted.
From stdpp Require Import sorting.
From S2P Require Import Prelude Double.
#[local] Open Scope nat_scope.

(** ** Scalars and triplets *)

Definition nonzero (v : Z) : bool := negb (SFeqb (of_bits v) (of_Z 0)).

Record Triplet : Type := mkTriplet { row : nat; col : nat; value : Z }.
Definition nonZero (t : Triplet) : bool := nonzero (value t).

(** [operator<] *)
Definition triplet_lt (a b : Triplet) : bool := if row a =? row b then col a <? col b else row a <? row b.

(** ** The matrix *)

Record SparseMatrix : Type := mkSparse {
  data_ : list Z;
  outer_ : list Z;
  inner_ : list Z;
  size_ : nat;
  rows_ : nat;
  cols_ : nat }.

(** Access to an array. *)
Definition fetch {A} (l : list A) (i : nat) : outcome A := match l !! i with Some v => Ok v | None => Undef end.
Definition store {A} (l : list A) (i : nat) (v : A) : outcome (list A) := if decide (i < length l) then Ok (<[i := v]> l) else Undef.

Module Sparse.
Section Sparse.
Variables (junk_data junk_outer junk_inner : nat -> Z).
Variable std_sort : list Triplet -> list Triplet.

(** [SparseMatrix()], with the standard allocator. *)
Definition empty_matrix : SparseMatrix := mkSparse [] [junk_outer 0] [] 0 0 0.

(** Nothing is changed when an assertion fails. *)
Definition reserve (rows cols nnz : nat) : outcome SparseMatrix :=
  ASSERT (0 <? nnz) ;;
  ASSERT (Z.of_nat nnz <=? wrapU 64 (Z.of_nat rows * Z.of_nat cols))%Z ;;
  ASSERT ((0 <? rows) && (0 <? cols)) ;;
  Ok (mkSparse (junk_data <$> seq 0 nnz) (junk_outer <$> seq 0 (rows + 1)) (junk_inner <$> seq 0 nnz) nnz rows cols).

(** The arrays being filled. *)
Record building : Type := mkBuilding { b_outer : list Z; b_inner : list Z; b_data : list Z; b_pos : nat; b_row : nat }.

(** [k] new rows start at the current position. *)
Fixpoint start_rows (k : nat) (b : building) : outcome building :=
  match k with
  | O => Ok b
  | S k =>
      outer ← store (b_outer b) (S (b_row b)) (wrapU 32 (Z.of_nat (b_pos b)));
      start_rows k (mkBuilding outer (b_inner b) (b_data b) (b_pos b) (S (b_row b)))
  end.

Definition place (rows cols : nat) (t : Triplet) (b : building) : outcome building :=
  if nonZero t then
    ASSERT (b_row b <=? row t) ;;
    ASSERT (row t <? rows) ;;
    ASSERT (col t <? cols) ;;
    b ← start_rows (row t - b_row b) b;
    inner ← store (b_inner b) (b_pos b) (wrapS 32 (Z.of_nat (col t)));
    data ← store (b_data b) (b_pos b) (value t);
    Ok (mkBuilding (b_outer b) inner data (S (b_pos b)) (b_row b))
  else Ok b.

Fixpoint place_all (rows cols : nat) (ts : list Triplet) (b : building) : outcome building :=
  match ts with
  | [] => Ok b
  | t :: ts => b ← place rows cols t b; place_all rows cols ts b
  end.

(** [SparseMatrix(rows, cols, triplets)] *)
Definition from_triplets (rows cols : nat) (triplets : list Triplet) : outcome SparseMatrix :=
  let nnz := length (base.filter (fun t => nonZero t = true) triplets) in
  if (2 ^ 32 - 1 <? Z.of_nat nnz)%Z then Throw OutOfRange
  else
    m ← reserve rows cols nnz;
    outer ← store (outer_ m) 0 0%Z;
    b ← place_all rows cols triplets (mkBuilding outer (inner_ m) (data_ m) 0 0);
    b ← start_rows (rows - b_row b) b;
    last ← fetch (b_outer b) rows;
    ASSERT (last =? Z.of_nat nnz)%Z ;;
    Ok (mkSparse (b_data b) (b_outer b) (b_inner b) nnz rows cols).

(** *** Transposition *)

(** The entries of a row, as triplets of the transposed matrix. *)
Fixpoint swapped_entries (k c r : nat) (m : SparseMatrix) : outcome (list Triplet) :=
  match k with
  | O => Ok []
  | S k =>
      i ← fetch (inner_ m) c;
      ASSERT (0 <=? i)%Z ;;
      v ← fetch (data_ m) c;
      ts ← swapped_entries k (S c) r m;
      Ok (mkTriplet (Z.to_nat i) r v :: ts)
  end.

Fixpoint swapped_rows (k r : nat) (m : SparseMatrix) : outcome (list Triplet) :=
  match k with
  | O => Ok []
  | S k =>
      start ← fetch (outer_ m) r;
      stop ← fetch (outer_ m) (S r);
      ts ← swapped_entries (Z.to_nat (stop - start)) (Z.to_nat start) r m;
      more ← swapped_rows k (S r) m;
      Ok (ts ++ more)
  end.

Definition transpose (m : SparseMatrix) : outcome SparseMatrix :=
  ts ← swapped_rows (rows_ m) 0 m;
  from_triplets (cols_ m) (rows_ m) (std_sort ts).

(** *** Iterators *)

Record iterator : Type := mkIterator { index_ : nat; it_row : nat }.

(** [const_iterator(matrix, row)] *)
Definition at_row (m : SparseMatrix) (r : nat) : outcome iterator :=
  let r := if rows_ m <? r then rows_ m else r in
  i ← fetch (outer_ m) r; Ok (mkIterator (Z.to_nat i) r).
Definition begin_row (m : SparseMatrix) (r : nat) : outcome iterator := at_row m r.
Definition end_row (m : SparseMatrix) (r : nat) : outcome iterator := at_row m (r + 1).

(** [const_iterator(matrix)]: the first row that is not empty. *)
Fixpoint first_row (fuel : nat) (m : SparseMatrix) (r : nat) : outcome iterator :=
  match fuel with
  | O => NoFuel
  | S f => o ← fetch (outer_ m) (r + 1); if (o =? 0)%Z then first_row f m (r + 1) else Ok (mkIterator 0 r)
  end.
Definition begin (m : SparseMatrix) : outcome iterator := first_row (S (length (outer_ m))) m 0.
Definition the_end (m : SparseMatrix) : outcome iterator := at_row m (rows_ m).

Definition it_col (m : SparseMatrix) (it : iterator) : outcome nat :=
  ASSERT (index_ it <? size_ m) ;;
  i ← fetch (inner_ m) (index_ it); Ok (Z.to_nat (wrapU 64 i)).
Definition deref (m : SparseMatrix) (it : iterator) : outcome Z := fetch (data_ m) (index_ it).
Definition next (m : SparseMatrix) (it : iterator) : outcome iterator :=
  o ← fetch (outer_ m) (it_row it + 1);
  Ok (mkIterator (index_ it + 1) (if (Z.of_nat (index_ it) + 1 =? o)%Z then it_row it + 1 else it_row it)).

(** A loop from one iterator to another: the row, the column and the value at each step. *)
Fixpoint iterate (fuel : nat) (m : SparseMatrix) (it iend : iterator) : outcome (list Triplet) :=
  if index_ it =? index_ iend then Ok []
  else
    match fuel with
    | O => NoFuel
    | S f =>
        c ← it_col m it;
        v ← deref m it;
        it' ← next m it;
        ts ← iterate f m it' iend;
        Ok (mkTriplet (it_row it) c v :: ts)
    end.

(** *** Row reduction *)

Definition with_row (r : nat) (t : Triplet) : Triplet := mkTriplet r (col t) (value t).
Fixpoint reduced_rows (newrow : nat) (p : list nat) (m : SparseMatrix) : outcome (list Triplet) :=
  match p with
  | [] => Ok []
  | r :: p =>
      it ← begin_row m r;
      iend ← end_row m r;
      ts ← iterate (S (size_ m)) m it iend;
      more ← reduced_rows (S newrow) p m;
      Ok ((with_row newrow <$> ts) ++ more)
  end.
Definition rowReduction (m : SparseMatrix) (p : list nat) : outcome SparseMatrix :=
  ASSERT (length p <=? rows_ m) ;;
  ts ← reduced_rows 0 p m;
  from_triplets (length p) (cols_ m) ts.

(** *** Pruning *)

Definition set_outer (o : list Z) (m : SparseMatrix) : SparseMatrix := mkSparse (data_ m) o (inner_ m) (size_ m) (rows_ m) (cols_ m).

(** The entries of a row that are not [val]. *)
Fixpoint kept (k c : nat) (val : Z) (m : SparseMatrix) : outcome (list (Z * Z)) :=
  match k with
  | O => Ok []
  | S k =>
      v ← fetch (data_ m) c;
      if negb (SFeqb (of_bits v) (of_bits val)) then
        i ← fetch (inner_ m) c;
        l ← kept k (S c) val m;
        Ok ((i, v) :: l)
      else kept k (S c) val m
  end.

(** The row starts are overwritten on the way. *)
Fixpoint prune_rows (k r nnz : nat) (val : Z) : M SparseMatrix (list (Z * Z)) :=
  match k with
  | O => mret []
  | S k =>
      m ← getM;
      start ← liftM (fetch (outer_ m) r);
      o ← liftM (store (outer_ m) r (wrapU 32 (Z.of_nat nnz)));
      modifyM (set_outer o) ;;
      m ← getM;
      stop ← liftM (fetch (outer_ m) (S r));
      l ← liftM (kept (Z.to_nat (stop - start)) (Z.to_nat start) val m);
      more ← prune_rows k (S r) (nnz + length l) val;
      mret (l ++ more)
  end.

Definition prune (val : Z) : M SparseMatrix unit :=
  m ← getM;
  l ← prune_rows (rows_ m) 0 0 val;
  m ← getM;
  o ← liftM (store (outer_ m) (rows_ m) (wrapU 32 (Z.of_nat (length l))));
  modifyM (set_outer o) ;;
  tmp ← liftM (reserve (rows_ m) (cols_ m) (length l));
  modifyM (fun m => mkSparse (snd <$> l) (outer_ m) (fst <$> l) (size_ tmp) (rows_ tmp) (cols_ tmp)).

(** *** Identity *)

Definition one : Z := to_bits (of_Z 1).
Definition setIdentity (rows cols : nat) : outcome SparseMatrix :=
  ASSERT ((0 <? rows) && (0 <? cols)) ;;
  let nnz := Nat.min rows cols in
  m ← reserve rows cols nnz;
  Ok (mkSparse (replicate nnz one) (((fun i => wrapU 32 (Z.of_nat i)) <$> seq 0 nnz) ++ replicate (rows + 1 - nnz) (wrapU 32 (Z.of_nat nnz)))
        ((fun i => wrapS 32 (Z.of_nat i)) <$> seq 0 nnz) (size_ m) (rows_ m) (cols_ m)).

(** *** Products *)

(** [sum += val[c] * x[inner[c]]] *)
Fixpoint dot (k c : nat) (m : SparseMatrix) (x : list Z) (sum : double) : outcome double :=
  match k with
  | O => Ok sum
  | S k =>
      v ← fetch (data_ m) c;
      i ← fetch (inner_ m) c;
      y ← fetch x (Z.to_nat (wrapU 64 i));
      dot k (S c) m x (dadd sum (dmul (of_bits v) (of_bits y)))
  end.
Fixpoint spmv_rows (k r : nat) (m : SparseMatrix) (x : list Z) : outcome (list Z) :=
  match k with
  | O => Ok []
  | S k =>
      start ← fetch (outer_ m) r;
      stop ← fetch (outer_ m) (S r);
      s ← dot (Z.to_nat (stop - start)) (Z.to_nat start) m x (of_Z 0);
      more ← spmv_rows k (S r) m x;
      Ok (to_bits s :: more)
  end.

(** The product; the result keeps what it had when the matrix is empty. *)
Definition spmv (m : SparseMatrix) (x y : list Z) : outcome (list Z) :=
  ASSERT (length y =? rows_ m) ;;
  ASSERT (length x =? cols_ m) ;;
  if size_ m =? 0 then Ok y
  else
    o ← fetch (outer_ m) 0;
    ASSERT (o =? 0)%Z ;;
    spmv_rows (rows_ m) 0 m x.
End Sparse.
End Sparse.

(** ** Rows of entries

    The abstract matrix: for each row, its entries as columns and values, in the order of
    the arrays. *)

Abbreviation entry := (nat * Z)%type.
Abbreviation rows_t := (list (list entry)).

Fixpoint offsets (acc : nat) (R : rows_t) : list nat :=
  acc :: match R with [] => [] | r :: R => offsets (acc + length r) R end.

(** The matrix that stores the rows. *)
Definition csr (cols : nat) (R : rows_t) : SparseMatrix :=
  mkSparse (snd <$> concat R) (Z.of_nat <$> offsets 0 R) ((fun e => Z.of_nat e.1) <$> concat R) (length (concat R)) (length R) cols.

(** What the arrays can hold. *)
Record storable (cols : nat) (R : rows_t) : Prop := {
  st_entries : (0 < Z.of_nat (length (concat R)) < 2 ^ 32)%Z;
  st_cols : 0 < cols;
  st_index : (Z.of_nat cols <= 2 ^ 31)%Z;
  st_columns : Forall (fun e => e.1 < cols) (concat R) }.

Lemma offsets_lookup R : forall acc r, r <= length R -> offsets acc R !! r = Some (acc + length (concat (take r R))).
Proof.
  induction R as [|x R IH]; intros acc [|r] Hr; cbn [offsets length concat take] in *; try lia; try (f_equal/=; lia).
  rewrite lookup_cons, IH by lia. f_equal. rewrite length_app. lia.
Qed.

Lemma length_offsets R : forall acc, length (offsets acc R) = S (length R).
Proof. induction R as [|x R IH]; intros acc; cbn [offsets length]; [done|by rewrite IH]. Qed.

Lemma fetch_outer cols R r : r <= length R -> fetch (outer_ (csr cols R)) r = Ok (Z.of_nat (length (concat (take r R)))).
Proof. intros Hr. unfold fetch, csr. cbn [outer_]. rewrite list_lookup_fmap, offsets_lookup by done. done. Qed.

Lemma fetch_ok {A} (l : list A) i v : l !! i = Some v -> fetch l i = Ok v.
Proof. intros E. unfold fetch. by rewrite E. Qed.

Lemma store_ok {A} (l k : list A) i x v : length l = i -> store (l ++ x :: k) i v = Ok (l ++ v :: k).
Proof.
  intros <-. unfold store. rewrite decide_True by (rewrite length_app; simpl; lia). rewrite <- (Nat.add_0_r (length l)), insert_app_r. done.
Qed.

(** The entries of a row lie between its start and the next. *)
Lemma concat_split {A} (L : list (list A)) r x : L !! r = Some x ->
  concat L = concat (take r L) ++ x ++ concat (drop (S r) L) /\ length (concat (take (S r) L)) = length (concat (take r L)) + length x.
Proof.
  intros E. pose proof (take_S_r _ _ _ E) as Et. split.
  - rewrite <- (take_drop (S r) L) at 1. rewrite Et, !concat_app. cbn. by rewrite app_nil_r, <- app_assoc.
  - rewrite Et, concat_app, length_app. cbn. by rewrite app_nil_r.
Qed.

Lemma elem_of_concat {A} (L : list (list A)) i x e : L !! i = Some x -> e ∈ x -> e ∈ concat L.
Proof. intros Hx He. rewrite list_elem_of_In, in_concat. exists x. rewrite <- !list_elem_of_In. split; [|done]. by apply list_elem_of_lookup_2 in Hx. Qed.

(** ** Building from triplets *)

Definition cell (t : Triplet) : entry := (col t, value t).
Abbreviation nonzeros := (base.filter (fun t => nonZero t = true)).
Definition grouped (ts : list Triplet) (r : nat) : list entry := cell <$> base.filter (fun t => row t = r) ts.

(** The rows that triplets describe. *)
Definition rows_of (rows : nat) (ts : list Triplet) : rows_t := grouped (nonzeros ts) <$> seq 0 rows.

Definition by_row (ts : list Triplet) : Prop := StronglySorted (fun a b => row a <= row b) ts.

Lemma grouped_app ts1 ts2 r : grouped (ts1 ++ ts2) r = grouped ts1 r ++ grouped ts2 r.
Proof. unfold grouped. by rewrite filter_app, fmap_app. Qed.

Lemma filter_all {A} (P : A -> Prop) `{forall x, Decision (P x)} l : Forall P l -> base.filter P l = l.
Proof. induction 1 as [|x l Hx _ IH]; [done|]. by rewrite filter_cons_True, IH. Qed.

Lemma grouped_none ts r : Forall (fun t => row t <> r) ts -> grouped ts r = [].
Proof. intros H. unfold grouped. by rewrite filter_none. Qed.

(** Triplets in the order of their rows are the concatenation of the rows. *)
Lemma concat_grouped ts : by_row ts -> forall a n, Forall (fun t => a <= row t < a + n) ts -> concat (grouped ts <$> seq a n) = cell <$> ts.
Proof.
  intros Hs a n. revert a ts Hs. induction n as [|n IH]; intros a ts Hs Hb.
  { destruct ts as [|t ts]; [done|]. apply Forall_cons in Hb as [Ht _]. lia. }
  cbn [seq fmap list_fmap concat].
  assert (Hsplit : exists ts1 ts2, ts = ts1 ++ ts2 /\ Forall (fun t => row t = a) ts1 /\ Forall (fun t => S a <= row t < S a + n) ts2 /\ by_row ts2).
  { clear IH. induction Hs as [|t ts Hs IHs Ht]; [exists [], []; split_and!; done || constructor|]. apply Forall_cons in Hb as [Hta Hb]. destruct (decide (row t = a)) as [E|E].
    - destruct IHs as (ts1 & ts2 & -> & H1 & H2 & H3); [done|]. exists (t :: ts1), ts2. split_and!; try done. by constructor.
    - exists [], (t :: ts). split_and!; try done; [|by constructor]. constructor; [lia|].
      apply Forall_forall. intros u Hu. rewrite Forall_forall in Ht, Hb. specialize (Ht u Hu). specialize (Hb u Hu). simpl in *. lia. }
  destruct Hsplit as (ts1 & ts2 & -> & H1 & H2 & H3). rewrite grouped_app, (grouped_none ts2).
  2: { eapply Forall_impl; [exact H2|]. simpl. lia. }
  rewrite app_nil_r. assert (E1 : grouped ts1 a = cell <$> ts1) by (unfold grouped; f_equal; by apply filter_all).
  rewrite E1, fmap_app. f_equal. rewrite <- (IH (S a) ts2 H3 H2). f_equal. apply list_fmap_ext. intros i r Hr. rewrite grouped_app, grouped_none; [done|].
  eapply Forall_impl; [exact H1|]. intros t ->. apply lookup_seq in Hr. lia.
Qed.

Lemma offsets_snoc R r : forall acc, offsets acc (R ++ [r]) = offsets acc R ++ [acc + length (concat (R ++ [r]))].
Proof.
  induction R as [|x R IH]; intros acc; cbn [offsets app concat]; [by rewrite app_nil_r|].
  rewrite IH. cbn [app]. do 3 f_equal. rewrite length_app. lia.
Qed.

Section Build.
Variables rows cols nnz : nat.
Hypotheses (Hnnz : (Z.of_nat nnz < 2 ^ 32)%Z) (Hcols : (Z.of_nat cols <= 2 ^ 31)%Z).
#[local] Set Default Proof Using "All".

(** After the triplets [pfx]. *)
Record built (pfx : list Triplet) (b : Sparse.building) : Prop := {
  bt_row : Sparse.b_row b <= rows;
  bt_below : Forall (fun t => row t <= Sparse.b_row b) pfx;
  bt_sorted : by_row pfx;
  bt_pos : Sparse.b_pos b = length pfx;
  bt_room : length pfx <= nnz;
  bt_outer : exists j, Sparse.b_outer b = (Z.of_nat <$> offsets 0 (grouped pfx <$> seq 0 (Sparse.b_row b))) ++ j /\ length j = rows - Sparse.b_row b;
  bt_inner : exists j, Sparse.b_inner b = ((fun t => Z.of_nat (col t)) <$> pfx) ++ j /\ length j = nnz - length pfx;
  bt_data : exists j, Sparse.b_data b = (value <$> pfx) ++ j /\ length j = nnz - length pfx }.

Lemma wrap_pos n : n <= nnz -> wrapU 32 (Z.of_nat n) = Z.of_nat n.
Proof. intros Hn. apply Z.mod_small. lia. Qed.

Lemma start_rows_ok pfx k : forall b, built pfx b -> Sparse.b_row b + k <= rows ->
  exists b', Sparse.start_rows k b = Ok b' /\ built pfx b' /\ Sparse.b_row b' = Sparse.b_row b + k.
Proof.
  induction k as [|k IH]; intros b Hb Hk; [exists b; by rewrite Nat.add_0_r|]. cbn [Sparse.start_rows].
  pose proof Hb as [H1 H2 H3 H4 H5 (j & Ej & Hj) H7 H8]. destruct j as [|x j]; [simpl in Hj; lia|]. rewrite Ej.
  unfold mbind, outcome_mbind. rewrite store_ok by (rewrite length_fmap, length_offsets, length_fmap, length_seq; done). cbn [outcome_bind].
  rewrite H4, wrap_pos by done. set (b1 := Sparse.mkBuilding _ _ _ _ _).
  destruct (IH b1) as (b' & E & Hb' & Er); [|unfold b1; cbn [Sparse.b_row]; lia|].
  - unfold b1. split; cbn [Sparse.b_row Sparse.b_outer Sparse.b_inner Sparse.b_data Sparse.b_pos]; try done; try lia.
    + eapply Forall_impl; [exact H2|]. simpl. lia.
    + exists j. split; [|simpl in Hj; lia].
      assert (El : length (concat (grouped pfx <$> seq 0 (S (Sparse.b_row b)))) = length pfx).
      { rewrite concat_grouped, length_fmap; [done|done|]. eapply Forall_impl; [exact H2|]. simpl. lia. }
      rewrite seq_S, fmap_app in *. cbn [fmap list_fmap] in *. by rewrite offsets_snoc, El, fmap_app, <- app_assoc.
  - exists b'. split_and!; [done|done|]. rewrite Er. cbn. lia.
Qed.

Lemma place_ok pfx b t : built pfx b -> nonZero t = true -> Sparse.b_row b <= row t < rows -> col t < cols -> length pfx < nnz ->
  exists b', Sparse.place rows cols t b = Ok b' /\ built (pfx ++ [t]) b' /\ Sparse.b_row b' = row t.
Proof.
  intros Hb Hnz Hr Hc Hl. unfold Sparse.place. rewrite Hnz. rewrite (proj2 (Nat.leb_le _ _)), (proj2 (Nat.ltb_lt (row t) _)), (proj2 (Nat.ltb_lt (col t) _)) by lia.
  unfold mbind, outcome_mbind. cbn [ASSERT outcome_bind].
  destruct (start_rows_ok pfx (row t - Sparse.b_row b) b Hb) as (b1 & -> & Hb1 & Er); [lia|]. cbn [outcome_bind]. replace (Sparse.b_row b + _) with (row t) in Er by lia.
  pose proof Hb1 as [H1 H2 H3 H4 H5 (jo & Eo & Ho) (ji & Ei & Hi) (jd & Ed & Hd)]. rewrite Ei, Ed, H4.
  destruct ji as [|xi ji]; [simpl in Hi; lia|]. destruct jd as [|xd jd]; [simpl in Hd; lia|].
  rewrite !store_ok by (by rewrite length_fmap). cbn [outcome_bind].
  assert (Hw : wrapS 32 (Z.of_nat (col t)) = Z.of_nat (col t)) by (apply wrapS_id; [lia|]; apply in_S_spec; lia).
  rewrite Hw. eexists. split; [done|]. split; [|done].
  split; cbn; rewrite ?length_app; cbn; try lia; try done.
  - apply Forall_app. split; [done|]. constructor; [lia|done].
  - apply StronglySorted_app_2; [|done|repeat constructor]. intros x y Hx ->%list_elem_of_singleton. rewrite Forall_forall in H2. specialize (H2 x Hx). lia.
  - exists jo. split; [|done]. rewrite Eo. do 3 f_equal. apply list_fmap_ext. intros i r Hri. apply lookup_seq in Hri.
    rewrite grouped_app, (grouped_none [t]), app_nil_r; [done|]. constructor; [lia|done].
  - exists ji. split; [|simpl in Hi; lia]. by rewrite fmap_app, <- app_assoc.
  - exists jd. split; [|simpl in Hd; lia]. by rewrite fmap_app, <- app_assoc.
Qed.

Lemma place_all_ok ts : forall pfx b, built pfx b -> by_row (nonzeros ts) -> Forall (fun t => Sparse.b_row b <= row t) (nonzeros ts) ->
  Forall (fun t => row t < rows /\ col t < cols) (nonzeros ts) -> length pfx + length (nonzeros ts) <= nnz ->
  exists b', Sparse.place_all rows cols ts b = Ok b' /\ built (pfx ++ nonzeros ts) b'.
Proof.
  induction ts as [|t ts IH]; intros pfx b Hb Hs Hge Hin Hl; [exists b; by rewrite app_nil_r|]. cbn [Sparse.place_all].
  unfold mbind, outcome_mbind. destruct (nonZero t) eqn:Hnz.
  - rewrite filter_cons_True in * by done. apply Forall_cons in Hge as [Hg1 Hge], Hin as [[Hr Hc] Hin]. cbn [length] in Hl. inversion Hs as [|? ? Hs' Ht]; subst.
    destruct (place_ok pfx b t Hb Hnz) as (b1 & -> & Hb1 & Er); [lia..|]. cbn [outcome_bind].
    destruct (IH (pfx ++ [t]) b1 Hb1) as (b' & E & Hb'); try done; [by rewrite Er|rewrite length_app; simpl; lia|].
    exists b'. rewrite E. by rewrite <- app_assoc in Hb'.
  - rewrite filter_cons_False in * by congruence. unfold Sparse.place. rewrite Hnz. cbn [outcome_bind]. by apply IH.
Qed.
End Build.

(** Triplets in the order of their rows give the matrix of these rows. *)
Lemma from_triplets_ok jd jo ji rows cols ts : let nz := nonzeros ts in
  by_row nz -> Forall (fun t => row t < rows /\ col t < cols) nz -> storable cols (rows_of rows ts) ->
  (Z.of_nat (length nz) <= Z.of_nat rows * Z.of_nat cols < 2 ^ 64)%Z ->
  Sparse.from_triplets jd jo ji rows cols ts = Ok (csr cols (rows_of rows ts)) /\ concat (rows_of rows ts) = cell <$> nz.
Proof.
  intros nz Hs Hin [Hsz Hc Hi _] Hbig.
  assert (Hcat : concat (rows_of rows ts) = cell <$> nz).
  { apply concat_grouped; [done|]. eapply Forall_impl; [exact Hin|]. simpl. lia. }
  split; [|done]. rewrite Hcat, length_fmap in Hsz. unfold Sparse.from_triplets. fold nz. rewrite (proj2 (Z.ltb_ge _ _)) by lia.
  assert (Hrows : 0 < rows) by nia. unfold Sparse.reserve. rewrite (proj2 (Nat.ltb_lt 0 (length nz))), (proj2 (Nat.ltb_lt 0 rows)), (proj2 (Nat.ltb_lt 0 cols)) by lia.
  unfold wrapU. rewrite Z.mod_small, (proj2 (Z.leb_le _ _)) by lia. unfold mbind, outcome_mbind. cbn [andb ASSERT outcome_bind outer_ inner_ data_].
  replace (rows + 1) with (S rows) by lia. cbn [seq fmap list_fmap]. cbn [store outcome_bind]. unfold store at 1. rewrite decide_True by (simpl; lia). cbn [outcome_bind insert list_insert].
  set (b0 := Sparse.mkBuilding _ _ _ _ _).
  assert (Hb0 : built rows (length nz) [] b0).
  { split; cbn; try lia; try done; try constructor.
    - exists (jo <$> seq 1 rows). split; [done|]. rewrite length_fmap, length_seq. lia.
    - exists (ji <$> seq 0 (length nz)). split; [done|]. rewrite length_fmap, length_seq. lia.
    - exists (jd <$> seq 0 (length nz)). split; [done|]. rewrite length_fmap, length_seq. lia. }
  destruct (place_all_ok rows cols (length nz) ltac:(lia) Hi ts [] b0 Hb0) as (b1 & -> & Hb1); try done; try (apply Forall_forall; cbn; lia).
  cbn [outcome_bind]. rewrite app_nil_l in Hb1. fold nz in Hb1. pose proof Hb1 as [Hr1 _ _ _ _ _ _ _].
  destruct (start_rows_ok rows cols (length nz) ltac:(lia) Hi nz (rows - Sparse.b_row b1) b1 Hb1) as (b2 & -> & Hb2 & Er); [lia|].
  replace (Sparse.b_row b1 + _) with rows in Er by lia. cbn [outcome_bind]. pose proof Hb2 as [_ _ _ _ _ (j1 & Eo & L1) (j2 & Ei & L2) (j3 & Ed & L3)].
  rewrite Er in *. rewrite Nat.sub_diag in *. destruct j1, j2, j3; try done. rewrite !app_nil_r in *. rewrite Eo, Ei, Ed.
  change (grouped nz <$> seq 0 rows) with (rows_of rows ts). rewrite (fetch_ok _ _ (Z.of_nat (length nz))).
  - cbn [outcome_bind]. rewrite Z.eqb_refl. cbn [ASSERT outcome_bind]. f_equal. unfold csr. rewrite Hcat, length_fmap.
    assert (Hl : length (rows_of rows ts) = rows) by (unfold rows_of; by rewrite length_fmap, length_seq).
    rewrite Hl. f_equal; by rewrite <- list_fmap_compose.
  - assert (Hl : length (rows_of rows ts) = rows) by (unfold rows_of; by rewrite length_fmap, length_seq).
    rewrite list_lookup_fmap, offsets_lookup by lia. rewrite take_ge, Hcat, length_fmap by lia. done.
Qed.

(** ** Reading the rows *)

Section Read.
Variables (cols : nat) (R : rows_t).
Abbreviation m := (csr cols R).

(** An entry of the arrays. *)
Lemma fetch_entry l1 e l2 : concat R = l1 ++ e :: l2 ->
  fetch (inner_ m) (length l1) = Ok (Z.of_nat e.1) /\ fetch (data_ m) (length l1) = Ok e.2.
Proof.
  intros E. unfold csr. cbn [inner_ data_]. rewrite E. split; apply fetch_ok; by rewrite list_lookup_fmap, list_lookup_middle.
Qed.

(** A row of the matrix, and what comes before. *)
Lemma row_bounds r x : R !! r = Some x -> exists l1 l2, concat R = l1 ++ x ++ l2 /\
  fetch (outer_ m) r = Ok (Z.of_nat (length l1)) /\ fetch (outer_ m) (S r) = Ok (Z.of_nat (length l1 + length x)).
Proof.
  intros E. pose proof (lookup_lt_Some _ _ _ E). destruct (concat_split R r x E) as [Ec El]. exists (concat (take r R)), (concat (drop (S r) R)).
  split_and!; [done|apply fetch_outer; lia|]. rewrite fetch_outer by lia. by rewrite El.
Qed.

Lemma row_width (x l1 : list entry) : Z.to_nat (Z.of_nat (length l1 + length x) - Z.of_nat (length l1)) = length x.
Proof. lia. Qed.

(** *** Transposition *)

Definition swap_entry (r : nat) (e : entry) : Triplet := mkTriplet e.1 r e.2.

Lemma swapped_entries_ok r x : forall l1 l2, concat R = l1 ++ x ++ l2 ->
  Sparse.swapped_entries (length x) (length l1) r m = Ok (swap_entry r <$> x).
Proof.
  induction x as [|e x IH]; intros l1 l2 E; [done|]. cbn [Sparse.swapped_entries length]. destruct (fetch_entry l1 e (x ++ l2) E) as [-> ->].
  unfold mbind, outcome_mbind. cbn [outcome_bind]. rewrite (proj2 (Z.leb_le 0 (Z.of_nat e.1))) by lia. cbn [ASSERT outcome_bind].
  specialize (IH (l1 ++ [e]) l2). rewrite length_app, <- app_assoc in IH. replace (length l1 + length [e]) with (S (length l1)) in IH by (simpl; lia).
  rewrite IH by done. cbn [outcome_bind]. by rewrite Nat2Z.id.
Qed.

Lemma swapped_rows_ok k : forall r, r + k = length R ->
  Sparse.swapped_rows k r m = Ok (concat (imap (fun i x => swap_entry (r + i) <$> x) (drop r R))).
Proof.
  induction k as [|k IH]; intros r Hr; [by rewrite drop_ge by lia|]. cbn [Sparse.swapped_rows].
  destruct (lookup_lt_is_Some_2 R r ltac:(lia)) as [x Hx]. destruct (row_bounds r x Hx) as (l1 & l2 & E & -> & ->).
  unfold mbind, outcome_mbind. cbn [outcome_bind]. rewrite row_width, Nat2Z.id, (swapped_entries_ok r x l1 l2 E). cbn [outcome_bind].
  rewrite IH by lia. cbn [outcome_bind]. f_equal. rewrite (drop_S R x r Hx). cbn [imap concat]. rewrite Nat.add_0_r. do 2 f_equal.
  apply imap_ext. intros i y _. cbn. f_equal. f_equal. lia.
Qed.

(** *** Products *)

Definition weight (x : list Z) (s : double) (e : entry) : double := dadd s (dmul (of_bits e.2) (of_bits (default 0%Z (x !! e.1)))).

Lemma dot_ok xs x : length xs = cols -> (Z.of_nat cols <= 2 ^ 31)%Z -> Forall (fun e => e.1 < cols) x -> forall l1 l2 s, concat R = l1 ++ x ++ l2 ->
  Sparse.dot (length x) (length l1) m xs s = Ok (foldl (weight xs) s x).
Proof.
  intros Hl Hb. induction 1 as [|e x He Hx IH]; intros l1 l2 s E; [done|]. cbn [Sparse.dot length]. destruct (fetch_entry l1 e (x ++ l2) E) as [-> ->].
  unfold mbind, outcome_mbind. cbn [outcome_bind]. destruct (lookup_lt_is_Some_2 xs e.1 ltac:(lia)) as [v Hv].
  assert (Hw : wrapU 64 (Z.of_nat e.1) = Z.of_nat e.1) by (apply Z.mod_small; lia). rewrite Hw, Nat2Z.id, (fetch_ok _ _ _ Hv). cbn [outcome_bind].
  specialize (IH (l1 ++ [e]) l2). rewrite length_app, <- app_assoc in IH. replace (length l1 + length [e]) with (S (length l1)) in IH by (simpl; lia).
  rewrite IH by done. cbn [foldl]. unfold weight at 3. by rewrite Hv.
Qed.

Lemma spmv_rows_ok xs k : length xs = cols -> storable cols R -> forall r, r + k = length R ->
  Sparse.spmv_rows k r m xs = Ok ((fun x => to_bits (foldl (weight xs) (of_Z 0) x)) <$> drop r R).
Proof.
  intros Hl [_ _ Hi Hc]. induction k as [|k IH]; intros r Hr; [by rewrite drop_ge by lia|]. cbn [Sparse.spmv_rows].
  destruct (lookup_lt_is_Some_2 R r ltac:(lia)) as [x Hx]. destruct (row_bounds r x Hx) as (l1 & l2 & E & -> & ->).
  unfold mbind, outcome_mbind. cbn [outcome_bind]. assert (Hxc : Forall (fun e => e.1 < cols) x).
  { rewrite E in Hc. apply Forall_app in Hc as [_ Hc]. by apply Forall_app in Hc as [Hc _]. }
  rewrite row_width, Nat2Z.id, (dot_ok xs x Hl Hi Hxc l1 l2 _ E). cbn [outcome_bind].
  rewrite IH by lia. cbn [outcome_bind]. by rewrite (drop_S R x r Hx).
Qed.
End Read.

(** ** Transposition of the rows *)

Definition swapped (R : rows_t) : list Triplet := concat (imap (fun r x => swap_entry r <$> x) R).
Definition transposed (cols : nat) (R : rows_t) : rows_t := rows_of cols (swapped R).

(** An entry of the rows. *)
Definition has_entry (R : rows_t) (r c : nat) (v : Z) : Prop := exists x, R !! r = Some x /\ (c, v) ∈ x.

(** Columns in strictly increasing order, no zero stored. *)
Definition ordered (R : rows_t) : Prop := Forall (StronglySorted (fun a b : entry => a.1 < b.1)) R.
Definition no_zero (R : rows_t) : Prop := Forall (fun e : entry => nonzero e.2 = true) (concat R).

Lemma elem_of_swapped R t : t ∈ swapped R <-> has_entry R (col t) (row t) (value t).
Proof.
  unfold swapped, has_entry. rewrite list_elem_of_In, in_concat. split.
  - intros (l & Hl%list_elem_of_In & Ht%list_elem_of_In). apply list_elem_of_lookup_1 in Hl as [i Hi]. rewrite list_lookup_imap in Hi.
    destruct (R !! i) as [x|] eqn:Ex; [|done]. injection Hi as <-. apply list_elem_of_fmap in Ht as ([c v] & -> & Hin). by exists x.
  - intros (x & Hx & Hin). exists (swap_entry (col t) <$> x). rewrite <- !list_elem_of_In. split.
    + apply list_elem_of_lookup. exists (col t). by rewrite list_lookup_imap, Hx.
    + apply list_elem_of_fmap. exists (row t, value t). split; [|done]. by destruct t.
Qed.

Lemma elem_of_grouped ts r c v : (c, v) ∈ grouped ts r <-> mkTriplet r c v ∈ ts.
Proof.
  unfold grouped. rewrite list_elem_of_fmap. split.
  - intros ([r' c' v'] & [= -> ->] & [Er Hin]%list_elem_of_filter). simpl in Er. by subst.
  - intros Hin. exists (mkTriplet r c v). split; [done|]. by apply list_elem_of_filter.
Qed.

Lemma has_entry_rows_of rows ts r c v : has_entry (rows_of rows ts) r c v <-> r < rows /\ mkTriplet r c v ∈ ts /\ nonzero v = true.
Proof.
  unfold has_entry, rows_of. split.
  - intros (x & Hx & Hin). rewrite list_lookup_fmap in Hx. destruct (seq 0 rows !! r) as [i|] eqn:Ei; [|done]. apply lookup_seq in Ei as [-> Hr].
    injection Hx as <-. apply elem_of_grouped, list_elem_of_filter in Hin as [Hnz Hin]. done.
  - intros (Hr & Hin & Hnz). exists (grouped (nonzeros ts) r). rewrite list_lookup_fmap, lookup_seq_lt by done. split; [done|].
    apply elem_of_grouped, list_elem_of_filter. done.
Qed.

(** The transposed rows have the entries at the swapped places. *)
Lemma transposed_entries cols R r c v : no_zero R -> Forall (fun e => e.1 < cols) (concat R) ->
  has_entry (transposed cols R) c r v <-> has_entry R r c v.
Proof.
  intros Hz Hc. unfold transposed. rewrite has_entry_rows_of, elem_of_swapped. cbn [row col value]. split; [by intros (_ & ? & _)|].
  intros (x & Hx & Hin). pose proof (elem_of_concat _ _ _ _ Hx Hin) as He.
  unfold no_zero in Hz. rewrite Forall_forall in Hz, Hc. specialize (Hz _ He). specialize (Hc _ He). split_and!; try done. by exists x.
Qed.

(** An entry is at one place of its row. *)
Lemma ordered_unique R r c v v' : ordered R -> has_entry R r c v -> has_entry R r c v' -> v = v'.
Proof.
  intros Ho (x & Hx & H1) (y & Hy & H2). rewrite Hx in Hy. injection Hy as <-. unfold ordered in Ho. rewrite Forall_lookup in Ho. specialize (Ho r x Hx). clear Hx.
  induction Ho as [|e x Hs IH He]; [by apply not_elem_of_nil in H1|]. rewrite Forall_forall in He. apply elem_of_cons in H1 as [<-|H1], H2 as [E|H2].
  - by injection E.
  - specialize (He _ H2). simpl in He. lia.
  - subst e. specialize (He _ H1). simpl in He. lia.
  - by apply IH.
Qed.

(** The triplets of the transposed matrix come in the order of their columns. *)
Lemma swapped_sorted R : forall k, StronglySorted (fun a b => col a <= col b) (concat (imap (fun r x => swap_entry (k + r) <$> x) R)) /\
  Forall (fun t => k <= col t) (concat (imap (fun r x => swap_entry (k + r) <$> x) R)).
Proof.
  induction R as [|x R IH]; intros k; cbn [imap concat]; [by split; constructor|]. rewrite Nat.add_0_r.
  assert (E : concat (imap ((fun r y => swap_entry (k + r) <$> y) ∘ S) R) = concat (imap (fun r y => swap_entry (S k + r) <$> y) R)).
  { f_equal. apply imap_ext. intros i y _. cbn. f_equal. f_equal. lia. }
  rewrite E. destruct (IH (S k)) as [H1 H2]. assert (Hx : Forall (fun t => col t = k) (swap_entry k <$> x)) by (apply Forall_fmap, Forall_true; done).
  split.
  - apply StronglySorted_app_2; [| |done].
    + intros a b Ha Hb. rewrite Forall_forall in Hx, H2. rewrite (Hx a Ha). specialize (H2 b Hb). lia.
    + clear. induction x as [|e x IH]; [constructor|]. cbn [fmap list_fmap]. constructor; [exact IH|]. apply Forall_fmap, Forall_true. intros y. cbn. lia.
  - apply Forall_app. split; [eapply Forall_impl; [exact Hx|]; simpl; lia|]. eapply Forall_impl; [exact H2|]. simpl. lia.
Qed.

Lemma sorted_filter {A} (Rel : A -> A -> Prop) (P : A -> Prop) `{forall x, Decision (P x)} l : StronglySorted Rel l -> StronglySorted Rel (base.filter P l).
Proof.
  induction 1 as [|x l Hs IH Hx]; [constructor|]. rewrite filter_cons. case_decide; [|done]. constructor; [done|].
  apply Forall_forall. intros y [_ Hy]%list_elem_of_filter. rewrite Forall_forall in Hx. by apply Hx.
Qed.

Lemma sorted_weaken {A} (R1 R2 : A -> A -> Prop) l : (forall a b, a ∈ l -> b ∈ l -> R1 a b -> R2 a b) -> StronglySorted R1 l -> StronglySorted R2 l.
Proof.
  intros Hw. induction 1 as [|x l Hs IH Hx]; [constructor|]. constructor.
  - apply IH. intros a b Ha Hb. apply Hw; by right.
  - apply Forall_forall. intros y Hy. rewrite Forall_forall in Hx. apply Hw; [left|by right|by apply Hx].
Qed.

Lemma sorted_fmap {A B} (f : A -> B) (Rel : B -> B -> Prop) l : StronglySorted (fun a b => Rel (f a) (f b)) l -> StronglySorted Rel (f <$> l).
Proof. induction 1 as [|x l Hs IH Hx]; cbn; constructor; [done|]. by apply Forall_fmap. Qed.

Lemma sorted_NoDup {A} (Rel : A -> A -> Prop) l : (forall a, ~ Rel a a) -> StronglySorted Rel l -> NoDup l.
Proof. intros Hi. induction 1 as [|x l Hs IH Hx]; constructor; [|done]. intros Hin. rewrite Forall_forall in Hx. by apply (Hi x), Hx. Qed.

(** Two triplets of the same row of the transposed matrix have different columns. *)
Lemma swapped_strict R : ordered R -> forall k, StronglySorted (fun a b => row a = row b -> col a < col b) (concat (imap (fun r x => swap_entry (k + r) <$> x) R)).
Proof.
  induction 1 as [|x R Hx Ho IH]; intros k; cbn [imap concat]; [constructor|]. rewrite Nat.add_0_r.
  assert (E : concat (imap ((fun r y => swap_entry (k + r) <$> y) ∘ S) R) = concat (imap (fun r y => swap_entry (S k + r) <$> y) R)).
  { f_equal. apply imap_ext. intros i y _. cbn. f_equal. f_equal. lia. }
  rewrite E. apply StronglySorted_app_2; [| |apply IH].
  - intros a b (e & -> & _)%list_elem_of_fmap Hb _. destruct (swapped_sorted R (S k)) as [_ H2]. rewrite Forall_forall in H2. specialize (H2 b Hb). simpl in *. lia.
  - apply sorted_fmap. eapply sorted_weaken; [|exact Hx]. simpl. lia.
Qed.

Lemma grouped_strict R c : ordered R -> StronglySorted (fun a b : entry => a.1 < b.1) (grouped (nonzeros (swapped R)) c).
Proof.
  intros Ho. apply sorted_fmap. eapply sorted_weaken; [|apply sorted_filter, sorted_filter, (swapped_strict R Ho 0)].
  intros a b [Ea _]%list_elem_of_filter [Eb _]%list_elem_of_filter H. apply H. congruence.
Qed.

Lemma transposed_ordered cols R : ordered R -> ordered (transposed cols R).
Proof. intros Ho. apply Forall_fmap, Forall_true. intros c. by apply grouped_strict. Qed.

Section Transpose.
Variable std_sort : list Triplet -> list Triplet.
Hypothesis sort_permutes : forall l, std_sort l ≡ₚ l.
Hypothesis sort_sorts : forall l, StronglySorted (fun a b => triplet_lt b a = false) (std_sort l).
#[local] Set Default Proof Using "All".

Lemma triplet_order a b : triplet_lt b a = false -> row a <= row b /\ (row a = row b -> col a <= col b).
Proof. unfold triplet_lt. destruct (Nat.eqb_spec (row b) (row a)); intros H%Nat.ltb_ge; lia. Qed.

Lemma sort_by_row l : by_row (nonzeros (std_sort l)).
Proof. apply sorted_filter. eapply sorted_weaken; [|apply sort_sorts]. intros a b _ _ H. by apply triplet_order. Qed.

(** Sorting does not change the rows of the transposed matrix: each place has one entry. *)
Lemma sorted_groups R c : ordered R -> grouped (nonzeros (std_sort (swapped R))) c = grouped (nonzeros (swapped R)) c.
Proof.
  intros Ho. unfold grouped. f_equal. apply (StronglySorted_unique_strong (fun a b => col a <= col b)).
  - intros [ra ca va] [rb cb vb] [Ea [_ Ha]%list_elem_of_filter]%list_elem_of_filter [Eb [_ Hb]%list_elem_of_filter]%list_elem_of_filter H1 H2.
    rewrite sort_permutes in Ha. rewrite elem_of_swapped in Ha, Hb. cbn [row col value] in *. assert (ca = cb) as -> by lia. subst ra rb.
    by rewrite (ordered_unique R cb c va vb).
  - eapply sorted_weaken; [|apply sorted_filter, sorted_filter, sort_sorts]. intros a b [Ea _]%list_elem_of_filter [Eb _]%list_elem_of_filter H.
    apply triplet_order in H as [_ H]. apply H. congruence.
  - apply sorted_filter, sorted_filter. apply (swapped_sorted R 0).
  - by rewrite sort_permutes.
Qed.

Lemma length_swapped R : length (swapped R) = length (concat R).
Proof.
  assert (H : forall f : nat -> entry -> Triplet, length (concat (imap (fun r x => f r <$> x) R)) = length (concat R)); [|apply H].
  induction R as [|x R' IH]; intros f; [done|]. cbn [imap concat]. rewrite !length_app, length_fmap. f_equal. apply (IH (fun r => f (S r))).
Qed.

Lemma swapped_nonzero R : no_zero R -> nonzeros (swapped R) = swapped R.
Proof.
  intros Hz. apply filter_all. apply Forall_forall. intros t (x & Hx & Hin)%elem_of_swapped. unfold no_zero in Hz. rewrite Forall_forall in Hz.
  by apply (Hz (row t, value t)), (elem_of_concat _ _ _ _ Hx).
Qed.

(** The rows that the transposed matrix can hold. *)
Lemma transposed_storable cols R : storable cols R -> no_zero R -> ordered R -> (Z.of_nat (length R) <= 2 ^ 31)%Z ->
  storable (length R) (transposed cols R) /\ concat (transposed cols R) = cell <$> nonzeros (std_sort (swapped R)) /\
  rows_of cols (std_sort (swapped R)) = transposed cols R /\ length (nonzeros (std_sort (swapped R))) = length (concat R) /\
  Forall (fun t => row t < cols /\ col t < length R) (nonzeros (std_sort (swapped R))).
Proof.
  intros [Hs Hc Hi Hcols] Hz Ho Hr.
  assert (E : rows_of cols (std_sort (swapped R)) = transposed cols R).
  { apply list_fmap_ext. intros i c _. by apply sorted_groups. }
  assert (Hb : Forall (fun t => row t < cols /\ col t < length R) (nonzeros (std_sort (swapped R)))).
  { apply Forall_forall. intros t [_ Ht]%list_elem_of_filter. rewrite sort_permutes in Ht. apply elem_of_swapped in Ht as (x & Hx & Hin). split; [|by apply lookup_lt_Some in Hx].
    rewrite Forall_forall in Hcols. by apply (Hcols (row t, value t)), (elem_of_concat _ _ _ _ Hx). }
  assert (Hl : length (nonzeros (std_sort (swapped R))) = length (concat R)).
  { assert (Hp : nonzeros (std_sort (swapped R)) ≡ₚ nonzeros (swapped R)) by (by rewrite sort_permutes). rewrite Hp, swapped_nonzero by done. apply length_swapped. }
  assert (Hcat : concat (transposed cols R) = cell <$> nonzeros (std_sort (swapped R))).
  { rewrite <- E. apply concat_grouped; [apply sort_by_row|]. eapply Forall_impl; [exact Hb|]. simpl. lia. }
  split_and!; try done. split; [by rewrite Hcat, length_fmap, Hl| |done|].
  - destruct R; [simpl in Hs; lia|simpl; lia].
  - rewrite Hcat. apply Forall_fmap. eapply Forall_impl; [exact Hb|]. intros t [_ Ht]. exact Ht.
Qed.

Lemma transpose_ok jd jo ji cols R : storable cols R -> no_zero R -> ordered R -> (Z.of_nat (length R) <= 2 ^ 31)%Z ->
  (Z.of_nat (length (concat R)) <= Z.of_nat cols * Z.of_nat (length R))%Z ->
  Sparse.transpose jd jo ji std_sort (csr cols R) = Ok (csr (length R) (transposed cols R)).
Proof.
  intros Hst Hz Ho Hr Hbig. destruct (transposed_storable cols R Hst Hz Ho Hr) as (Hst' & _ & E & Hl & Hb). pose proof Hst as [_ Hc Hi _].
  unfold Sparse.transpose. cbn [rows_ cols_ csr]. rewrite (swapped_rows_ok cols R (length R) 0) by lia. unfold mbind, outcome_mbind. cbn [outcome_bind].
  change (concat (imap (fun i x => swap_entry (0 + i) <$> x) (drop 0 R))) with (swapped R).
  destruct (from_triplets_ok jd jo ji cols (length R) (std_sort (swapped R))) as [-> _]; [apply sort_by_row|done|by rewrite E| |by rewrite E].
  rewrite Hl. nia.
Qed.

(** Transposing the rows twice gives them back. *)
Lemma transposed_twice cols R : storable cols R -> no_zero R -> ordered R -> transposed (length R) (transposed cols R) = R.
Proof.
  intros [_ _ _ Hc] Hz Ho. apply list_eq. intros r. unfold transposed at 1, rows_of at 1. rewrite list_lookup_fmap.
  destruct (lt_dec r (length R)) as [Hr|Hr].
  2: { rewrite lookup_seq_ge by lia. symmetry. apply lookup_ge_None. lia. }
  rewrite lookup_seq_lt by done. cbn [fmap option_fmap option_map Nat.add]. destruct (lookup_lt_is_Some_2 R r Hr) as [x Hx]. rewrite Hx. f_equal.
  pose proof (transposed_ordered cols R Ho) as Ho'. pose proof (grouped_strict (transposed cols R) r Ho') as Hs.
  pose proof (Forall_lookup_1 _ _ _ _ Ho Hx) as Hxs. apply (StronglySorted_unique_strong (fun a b : entry => a.1 < b.1)); [lia|done|done|].
  apply NoDup_Permutation; [by eapply sorted_NoDup; [|exact Hs]; simpl; lia|by eapply sorted_NoDup; [|exact Hxs]; simpl; lia|].
  intros [c v]. rewrite elem_of_grouped, list_elem_of_filter, elem_of_swapped. cbn [row col value]. rewrite transposed_entries by done.
  unfold nonZero. cbn [value]. split.
  - intros [_ (y & Hy & Hin)]. rewrite Hx in Hy. by injection Hy as ->.
  - intros Hin. split; [|by exists x]. unfold no_zero in Hz. rewrite Forall_forall in Hz. by apply (Hz (c, v)), (elem_of_concat _ _ _ _ Hx).
Qed.
End Transpose.

(** ** Entries in the arrays *)

(** The value [v] is stored at row [r] and column [c]. *)
Definition entry_at (m : SparseMatrix) (r c : nat) (v : Z) : Prop := exists start stop k,
  outer_ m !! r = Some start /\ outer_ m !! S r = Some stop /\ (start <= Z.of_nat k < stop)%Z /\
  inner_ m !! k = Some (Z.of_nat c) /\ data_ m !! k = Some v.

Lemma entry_at_csr cols R r c v : entry_at (csr cols R) r c v <-> has_entry R r c v.
Proof.
  unfold entry_at, has_entry, csr. cbn [outer_ inner_ data_]. setoid_rewrite list_lookup_fmap. split.
  - intros (start & stop & k & H1 & H2 & Hk & Hi & Hd). destruct (offsets 0 R !! r) as [o1|] eqn:E1; [|done]. destruct (offsets 0 R !! S r) as [o2|] eqn:E2; [|done].
    injection H1 as <-. injection H2 as <-. pose proof (lookup_lt_Some _ _ _ E2) as Hr. rewrite length_offsets in Hr.
    rewrite offsets_lookup in E1, E2 by lia. injection E1 as <-. injection E2 as <-. destruct (lookup_lt_is_Some_2 R r ltac:(lia)) as [x Hx]. exists x. split; [done|].
    destruct (concat_split R r x Hx) as [Ec El]. rewrite El in Hk. rewrite Ec in Hi, Hd.
    assert (Hkx : (concat (take r R) ++ x ++ concat (drop (S r) R)) !! k = x !! (k - length (concat (take r R)))).
    { rewrite lookup_app_r by lia. apply lookup_app_l. lia. }
    rewrite Hkx in Hi, Hd. destruct (x !! _) as [[c' v']|] eqn:Ee; [|done]. injection Hi as Hi%Nat2Z.inj. injection Hd as ->. subst c'. by apply list_elem_of_lookup_2 in Ee.
  - intros (x & Hx & [i Hi]%list_elem_of_lookup_1). pose proof (lookup_lt_Some _ _ _ Hx). pose proof (lookup_lt_Some _ _ _ Hi). destruct (concat_split R r x Hx) as [Ec El].
    exists (Z.of_nat (length (concat (take r R)))), (Z.of_nat (length (concat (take (S r) R)))), (length (concat (take r R)) + i).
    rewrite !offsets_lookup by lia. cbn [fmap option_fmap option_map Nat.add].
    assert (Hk : concat R !! (length (concat (take r R)) + i) = Some (c, v)).
    { rewrite Ec, lookup_app_r by lia. replace (_ + i - _) with i by lia. by rewrite lookup_app_l. }
    rewrite Hk. split_and!; try done; lia.
Qed.

Lemma ordered_size cols R : ordered R -> Forall (fun e => e.1 < cols) (concat R) -> length (concat R) <= cols * length R.
Proof.
  induction 1 as [|x R Hx Ho IH]; intros Hc; cbn [concat length] in *; [lia|]. apply Forall_app in Hc as [Hcx Hc]. specialize (IH Hc). rewrite length_app.
  enough (length x <= cols) by lia. rewrite <- (length_fmap fst x), <- (length_seq cols 0). apply submseteq_length, NoDup_submseteq.
  - apply (sorted_NoDup lt); [lia|]. apply sorted_fmap. exact Hx.
  - intros c (e & -> & He)%list_elem_of_fmap. rewrite Forall_forall in Hcx. apply elem_of_seq. specialize (Hcx e He). simpl in *. lia.
Qed.
