(* ===== verification/SparseOps.v ===== *)
(** * Sparse matrices: operations

    The theorems on [linalg/SparseMatrix.cc]: what is built, transposed, pruned, reduced
    and iterated, in terms of the rows of entries that a matrix stores. *)
From Stdlib Require Import Floats.SpecFloat Sorted.
From stdpp Require Import sorting.
From S2P Require Import Prelude Double SparseMatrix.
#[local] Open Scope nat_scope.

(** ** Pruning *)

Definition differs (val v : Z) : bool := negb (SFeqb (of_bits v) (of_bits val)).
Definition pruned (val : Z) (R : rows_t) : rows_t := (fun x => base.filter (fun e : entry => differs val e.2 = true) x) <$> R.
Definition stored_pair (e : entry) : Z * Z := (Z.of_nat e.1, e.2).

Section Prune.
Variables (cols : nat) (R : rows_t) (val : Z).
Abbreviation K := (pruned val R).
Abbreviation old := (Z.of_nat <$> offsets 0 R).
Abbreviation new := (Z.of_nat <$> offsets 0 K).

Lemma length_pruned : length K = length R.
Proof. unfold pruned. apply length_fmap. Qed.

Lemma pruned_concat L : concat (pruned val L) = base.filter (fun e : entry => differs val e.2 = true) (concat L).
Proof. induction L as [|x L IH]; [done|]. unfold pruned in *. cbn [fmap list_fmap concat]. by rewrite filter_app, IH. Qed.

Lemma kept_ok o x : forall l1 l2, concat R = l1 ++ x ++ l2 ->
  Sparse.kept (length x) (length l1) val (Sparse.set_outer o (csr cols R)) = Ok (stored_pair <$> base.filter (fun e : entry => differs val e.2 = true) x).
Proof.
  induction x as [|e x IH]; intros l1 l2 E; [done|]. cbn [Sparse.kept length]. destruct (fetch_entry cols R l1 e (x ++ l2) E) as [Ei Ed].
  change (data_ (Sparse.set_outer o (csr cols R))) with (data_ (csr cols R)). change (inner_ (Sparse.set_outer o (csr cols R))) with (inner_ (csr cols R)).
  rewrite Ei, Ed. unfold mbind, outcome_mbind. cbn [outcome_bind]. specialize (IH (l1 ++ [e]) l2). rewrite length_app, <- app_assoc in IH.
  replace (length l1 + length [e]) with (S (length l1)) in IH by (simpl; lia). rewrite IH by done. cbn [outcome_bind].
  rewrite filter_cons. fold (differs val e.2). destruct (differs val e.2) eqn:Hd; [by rewrite decide_True|by rewrite decide_False].
Qed.

(** The row starts when the first [r] rows have been pruned. *)
Definition midway (r : nat) : list Z := take r new ++ drop r old.

Lemma midway_old r j : r <= j <= length R -> midway r !! j = Some (Z.of_nat (length (concat (take j R)))).
Proof.
  intros Hj. assert (Hl : length (take r new) = r) by (rewrite length_take, length_fmap, length_offsets, length_pruned; lia).
  unfold midway. rewrite lookup_app_r by lia. rewrite Hl, lookup_drop. replace (r + (j - r)) with j by lia. by rewrite list_lookup_fmap, offsets_lookup by lia.
Qed.

Lemma midway_store r : r <= length R -> (Z.of_nat (length (concat R)) < 2 ^ 32)%Z ->
  store (midway r) r (wrapU 32 (Z.of_nat (length (concat (take r K))))) = Ok (midway (S r)).
Proof.
  intros Hr Hs. assert (Hw : wrapU 32 (Z.of_nat (length (concat (take r K)))) = Z.of_nat (length (concat (take r K)))).
  { apply Z.mod_small. assert (length (concat (take r K)) <= length (concat R)); [|lia].
    replace (take r K) with (pruned val (take r R)) by (unfold pruned; by rewrite fmap_take). rewrite pruned_concat.
    etransitivity; [apply length_filter|]. rewrite <- (take_drop r R) at 2. rewrite concat_app, length_app. lia. }
  rewrite Hw. unfold midway. assert (Hd : exists x, drop r old = x :: drop (S r) old).
  { destruct (lookup_lt_is_Some_2 old r) as [x Hx]; [rewrite length_fmap, length_offsets; lia|]. exists x. by apply drop_S. }
  destruct Hd as [x ->]. rewrite store_ok by (rewrite length_take, length_fmap, length_offsets, length_pruned; lia).
  rewrite (take_S_r new r (Z.of_nat (length (concat (take r K))))), <- app_assoc; [done|].
  rewrite list_lookup_fmap, offsets_lookup; [done|]. rewrite length_pruned. lia.
Qed.

Lemma prune_rows_ok k : forall r, r + k = length R -> (Z.of_nat (length (concat R)) < 2 ^ 32)%Z ->
  Sparse.prune_rows k r (length (concat (take r K))) val (Sparse.set_outer (midway r) (csr cols R)) =
  (Ok (stored_pair <$> concat (drop r K)), Sparse.set_outer (midway (length R)) (csr cols R)).
Proof.
  induction k as [|k IH]; intros r Hr Hs.
  { assert (r = length R) as -> by lia. rewrite drop_ge by (rewrite length_pruned; lia). done. }
  cbn [Sparse.prune_rows]. rewrite M_bind_get. cbn [outer_ Sparse.set_outer].
  rewrite (fetch_ok _ _ _ (midway_old r r ltac:(lia))), M_bind_lift, midway_store by (done || lia). rewrite M_bind_lift, M_bind_modify, M_bind_get.
  cbn [outer_ Sparse.set_outer]. rewrite (fetch_ok _ _ _ (midway_old (S r) (S r) ltac:(lia))), M_bind_lift.
  destruct (lookup_lt_is_Some_2 R r ltac:(lia)) as [x Hx]. destruct (concat_split R r x Hx) as [Ec El].
  rewrite El, row_width, Nat2Z.id. change (Sparse.set_outer (midway (S r)) (Sparse.set_outer (midway r) (csr cols R))) with (Sparse.set_outer (midway (S r)) (csr cols R)).
  rewrite (kept_ok _ x _ _ Ec), M_bind_lift. set (y := base.filter _ x).
  assert (Hy : K !! r = Some y) by (unfold pruned; by rewrite list_lookup_fmap, Hx).
  destruct (concat_split K r y Hy) as [_ Ey]. rewrite length_fmap, <- Ey. rewrite (M_bind_Ok _ _ _ _ _ (IH (S r) ltac:(lia) Hs)).
  rewrite (drop_S K y r Hy). cbn [concat]. by rewrite fmap_app.
Qed.
End Prune.

Lemma set_outer_id m : Sparse.set_outer (outer_ m) m = m.
Proof. by destruct m. Qed.

(** Pruning removes the entries equal to a value, and nothing else: the rows that
    remain are the rows without them, in the same order. *)
Theorem sparse_prune_removes jd jo ji cols R val : storable cols R -> ordered R -> (Z.of_nat cols * Z.of_nat (length R) < 2 ^ 64)%Z ->
  concat (pruned val R) <> [] ->
  Sparse.prune jd jo ji val (csr cols R) = (Ok tt, csr cols (pruned val R)).
Proof.
  intros [Hs Hc _ Hcols] Ho Hbig Hne. unfold Sparse.prune. rewrite M_bind_get.
  pose proof (prune_rows_ok cols R val (length R) 0 ltac:(lia) ltac:(lia)) as Hp. cbn [take concat length drop] in Hp.
  change (Sparse.set_outer (midway R val 0) (csr cols R)) with (Sparse.set_outer (outer_ (csr cols R)) (csr cols R)) in Hp. rewrite set_outer_id, drop_0 in Hp.
  rewrite (M_bind_Ok _ _ _ _ _ Hp), M_bind_get. cbn [rows_ cols_ csr Sparse.set_outer outer_]. rewrite length_fmap.
  assert (Est : store (midway R val (length R)) (length R) (wrapU 32 (Z.of_nat (length (concat (pruned val R))))) = Ok (Z.of_nat <$> offsets 0 (pruned val R))).
  { rewrite <- (take_ge (pruned val R) (length R)) at 1 by (rewrite length_pruned; lia). rewrite midway_store by lia. f_equal. unfold midway.
    rewrite take_ge, drop_ge, app_nil_r; [done|..]; rewrite length_fmap, length_offsets, ?length_pruned; lia. }
  rewrite Est, M_bind_lift, M_bind_modify.
  assert (Hle : length (concat (pruned val R)) <= length (concat R)) by (rewrite pruned_concat; apply length_filter).
  pose proof (ordered_size cols R Ho Hcols). assert (Hlen : 0 < length (concat (pruned val R))) by (destruct (concat (pruned val R)); [done|simpl; lia]).
  assert (Er : exists tmp, Sparse.reserve jd jo ji (length R) cols (length (concat (pruned val R))) = Ok tmp /\
    size_ tmp = length (concat (pruned val R)) /\ rows_ tmp = length R /\ cols_ tmp = cols).
  { unfold Sparse.reserve, wrapU. rewrite (proj2 (Nat.ltb_lt 0 (length (concat (pruned val R))))) by lia. rewrite Z.mod_small, (proj2 (Z.leb_le _ _)) by lia.
    rewrite (proj2 (Nat.ltb_lt 0 (length R))), (proj2 (Nat.ltb_lt 0 cols)) by (done || (destruct R; simpl in *; lia)). by eexists. }
  destruct Er as (tmp & -> & E1 & E2 & E3). rewrite M_bind_lift. unfold modifyM, csr. rewrite E1, E2, E3, length_pruned.
  cbn [outer_ Sparse.set_outer csr]. f_equal. f_equal; by rewrite <- list_fmap_compose.
Qed.

Lemma sparse_prune_removes_witness : let R := [[(0, 5%Z); (2, 7%Z)]; []; [(1, 5%Z)]] in
  Sparse.prune (fun _ => 0%Z) (fun _ => 0%Z) (fun _ => 0%Z) 5 (csr 3 R) = (Ok tt, csr 3 [[(2, 7%Z)]; []; []]).
Proof.
  intros R. apply (sparse_prune_removes (fun _ => 0%Z) (fun _ => 0%Z) (fun _ => 0%Z) 3 R 5).
  - split; cbn; try lia. repeat constructor.
  - repeat constructor.
  - cbn. lia.
  - vm_compute. done.
Defined.

(** When nothing remains the allocation fails, and the matrix is left with the new row
    starts and the old size. *)
Lemma sparse_prune_all_corrupts : let '(r, m) := Sparse.prune (fun _ => 0%Z) (fun _ => 0%Z) (fun _ => 0%Z) 5 (csr 2 [[(0, 5%Z)]; [(1, 5%Z)]]) in
  r = Throw AssertionFailed /\ size_ m = 2 /\ outer_ m = [0; 0; 0]%Z.
Proof. vm_compute. done. Qed.

(** ** Iterators *)

Definition at_place (r : nat) (e : entry) : Triplet := mkTriplet r e.1 e.2.

Section Iterate.
Variables (cols : nat) (R : rows_t).
Hypothesis Hst : storable cols R.
Abbreviation m := (csr cols R).
#[local] Set Default Proof Using "All".

Lemma at_row_ok r : Sparse.at_row m r = Ok (Sparse.mkIterator (length (concat (take r R))) (Nat.min r (length R))).
Proof.
  unfold Sparse.at_row. cbn [rows_ csr]. destruct (Nat.ltb_spec (length R) r).
  - rewrite (fetch_outer cols R (length R)) by lia. unfold mbind, outcome_mbind. cbn [outcome_bind]. rewrite Nat2Z.id, !take_ge, Nat.min_r by lia. done.
  - rewrite (fetch_outer cols R r) by lia. unfold mbind, outcome_mbind. cbn [outcome_bind]. by rewrite Nat2Z.id, Nat.min_l by lia.
Qed.

(** One step inside a row; the row changes at its last entry. *)
Lemma iterate_step r l1 e x l2 f iend : concat R = l1 ++ e :: x ++ l2 -> R !! r <> None -> length (concat (take (S r) R)) = length l1 + S (length x) ->
  length l1 <> Sparse.index_ iend ->
  Sparse.iterate (S f) m (Sparse.mkIterator (length l1) r) iend =
  (ts ← Sparse.iterate f m (Sparse.mkIterator (length (l1 ++ [e])) (if decide (x = []) then r + 1 else r)) iend; Ok (at_place r e :: ts)).
Proof.
  intros E Hr Hend Hne. cbn [Sparse.iterate Sparse.index_ Sparse.it_row]. rewrite (proj2 (Nat.eqb_neq _ _)) by done.
  destruct (fetch_entry cols R l1 e (x ++ l2) E) as [Ei Ed]. unfold Sparse.it_col, Sparse.deref, Sparse.next. cbn [Sparse.index_ Sparse.it_row size_ csr].
  assert (Hl : length l1 < length (concat R)) by (rewrite E, length_app; simpl; lia). rewrite (proj2 (Nat.ltb_lt _ _)) by done.
  unfold mbind, outcome_mbind. cbn [ASSERT outcome_bind]. change (inner_ (mkSparse _ _ _ _ _ _)) with (inner_ m). change (data_ (mkSparse _ _ _ _ _ _)) with (data_ m).
  change (outer_ (mkSparse _ _ _ _ _ _)) with (outer_ m). rewrite Ei, Ed. cbn [outcome_bind].
  destruct (R !! r) as [y|] eqn:Hy; [|done]. pose proof (lookup_lt_Some _ _ _ Hy). rewrite (fetch_outer cols R (r + 1)) by lia. cbn [outcome_bind].
  replace (r + 1) with (S r) by lia. rewrite Hend. destruct Hst as [_ _ Hi Hc]. rewrite E in Hc. apply Forall_app in Hc as [_ [He _]%Forall_cons].
  assert (Hw : wrapU 64 (Z.of_nat e.1) = Z.of_nat e.1) by (apply Z.mod_small; lia). rewrite Hw, Nat2Z.id, length_app. cbn [length].
  assert (Hrow : (if (Z.of_nat (length l1) + 1 =? Z.of_nat (length l1 + S (length x)))%Z then S r else r) = (if decide (x = []) then S r else r)).
  { destruct x; simpl; [rewrite (proj2 (Z.eqb_eq _ _)) by lia; done|]. by rewrite (proj2 (Z.eqb_neq _ _)) by lia. }
  rewrite Hrow. done.
Qed.

(** A whole row, and what follows. *)
Lemma iterate_row r x : R !! r = Some x -> forall y, x <> [] -> forall pre f iend, x = pre ++ y -> y <> [] -> length y <= f ->
  length (concat (take (S r) R)) <= Sparse.index_ iend ->
  Sparse.iterate f m (Sparse.mkIterator (length (concat (take r R)) + length pre) r) iend =
  (ts ← Sparse.iterate (f - length y) m (Sparse.mkIterator (length (concat (take (S r) R))) (r + 1)) iend; Ok ((at_place r <$> y) ++ ts)).
Proof.
  intros Hx y Hxne. destruct (concat_split R r x Hx) as [Ec El]. induction y as [|e y IH]; intros pre f iend Exy Hne Hf Hend; [done|].
  destruct f as [|f]; [simpl in Hf; lia|]. rewrite <- length_app.
  rewrite (iterate_step r _ e y (concat (drop (S r) R))).
  - destruct (decide (y = [])) as [->|Hy].
    + cbn [length app fmap list_fmap]. rewrite Nat.sub_succ, Nat.sub_0_r. rewrite El, Exy. by rewrite !length_app, Nat.add_assoc.
    + specialize (IH (pre ++ [e]) f iend). rewrite <- app_assoc in IH. specialize (IH Exy Hy ltac:(simpl in Hf; lia) Hend).
      replace (length ((concat (take r R) ++ pre) ++ [e])) with (length (concat (take r R)) + length (pre ++ [e])) by (rewrite !length_app; lia).
      rewrite IH. cbn [length]. rewrite Nat.sub_succ. unfold mbind, outcome_mbind. destruct (Sparse.iterate (f - length y) _ _ _) as [ts| | |]; reflexivity.
  - rewrite Ec, Exy, <- !app_assoc. done.
  - by rewrite Hx.
  - rewrite El, Exy, !length_app. simpl. lia.
  - rewrite El, Exy, !length_app in Hend. rewrite length_app. simpl in Hend. lia.
Qed.

Lemma iterate_same f it iend : Sparse.index_ it = Sparse.index_ iend -> Sparse.iterate f m it iend = Ok [].
Proof. intros E. destruct f; cbn [Sparse.iterate]; by rewrite E, Nat.eqb_refl. Qed.
End Iterate.

(** ** Row reduction *)

Definition row_at (R : rows_t) (r : nat) : list entry := default [] (R !! r).
Definition placed (k : nat) (L : rows_t) : list Triplet := concat (imap (fun i x => at_place (k + i) <$> x) L).

Lemma placed_cons k x L : placed k (x :: L) = (at_place k <$> x) ++ placed (S k) L.
Proof. unfold placed. cbn [imap concat]. rewrite Nat.add_0_r. do 2 f_equal. apply imap_ext. intros i y _. cbn. do 2 f_equal. lia. Qed.

Lemma cell_at_place k (x : list entry) : cell <$> (at_place k <$> x) = x.
Proof. rewrite <- list_fmap_compose. transitivity (id <$> x); [|apply list_fmap_id]. apply list_fmap_ext. by intros i [] _. Qed.

(** The rows of placed triplets are the rows they were placed from. *)
Lemma grouped_placed L : forall k r, grouped (placed k L) (k + r) = row_at L r.
Proof.
  unfold row_at. induction L as [|x L IH]; intros k r; [by destruct r|]. rewrite placed_cons, grouped_app.
  destruct r as [|r]; cbn [lookup list_lookup default].
  - rewrite Nat.add_0_r. assert (Hn : grouped (placed (S k) L) k = []).
    { apply grouped_none. clear. generalize (Nat.lt_succ_diag_r k). generalize (S k) as j. induction L as [|y L IH]; intros j Hj; [constructor|].
      rewrite placed_cons. apply Forall_app. split; [apply Forall_fmap, Forall_true; intros e; simpl; lia|]. apply IH. lia. }
    rewrite Hn, app_nil_r. unfold grouped. rewrite filter_all by (apply Forall_fmap, Forall_true; done). by rewrite cell_at_place.
  - rewrite (grouped_none (at_place k <$> x)) by (apply Forall_fmap, Forall_true; intros e; simpl; lia). rewrite app_nil_l.
    replace (k + S r) with (S k + r) by lia. apply IH.
Qed.

Definition without_zeros (L : rows_t) : rows_t := (fun x => base.filter (fun e : entry => nonzero e.2 = true) x) <$> L.

Lemma nonzeros_placed L : forall k, nonzeros (placed k L) = placed k (without_zeros L).
Proof.
  induction L as [|x L IH]; intros k; [done|]. unfold without_zeros in *. cbn [fmap list_fmap]. rewrite !placed_cons, filter_app, IH. f_equal.
  clear. induction x as [|e x IH]; [done|]. cbn [fmap list_fmap]. destruct (nonzero e.2) eqn:E.
  - rewrite !filter_cons_True by done. cbn [fmap list_fmap]. f_equal. exact IH.
  - rewrite !filter_cons_False by (unfold nonZero; cbn; congruence). exact IH.
Qed.

Lemma rows_of_placed L : rows_of (length L) (placed 0 L) = without_zeros L.
Proof.
  apply list_eq. intros r. unfold rows_of. rewrite list_lookup_fmap, nonzeros_placed. destruct (lt_dec r (length L)) as [Hr|Hr].
  - rewrite lookup_seq_lt by done. cbn [fmap option_fmap option_map]. rewrite grouped_placed. unfold row_at, without_zeros.
    rewrite list_lookup_fmap. by destruct (lookup_lt_is_Some_2 L r Hr) as [x ->].
  - rewrite lookup_seq_ge by lia. symmetry. apply lookup_ge_None. unfold without_zeros. rewrite length_fmap. lia.
Qed.

Lemma placed_by_row L : forall k, by_row (placed k L) /\ Forall (fun t => k <= row t) (placed k L) /\ Forall (fun t => row t < k + length L) (placed k L).
Proof.
  induction L as [|x L IH]; intros k; [by split_and!; constructor|]. rewrite placed_cons. destruct (IH (S k)) as (H1 & H2 & H3).
  assert (Hx : Forall (fun t => row t = k) (at_place k <$> x)) by (apply Forall_fmap, Forall_true; done). split_and!.
  - apply StronglySorted_app_2; [|apply sorted_fmap; clear; induction x; constructor; [done|apply Forall_true; done]|done].
    intros a b Ha Hb. rewrite Forall_forall in Hx, H2. rewrite (Hx a Ha). specialize (H2 b Hb). lia.
  - apply Forall_app. split; [eapply Forall_impl; [exact Hx|]|eapply Forall_impl; [exact H2|]]; simpl; lia.
  - apply Forall_app. split; [eapply Forall_impl; [exact Hx|]|eapply Forall_impl; [exact H3|]]; simpl; lia.
Qed.

Section Reduce.
Variables (cols : nat) (R : rows_t).
Hypothesis Hst : storable cols R.
#[local] Set Default Proof Using "All".

Lemma iterate_one_row r : (it ← Sparse.begin_row (csr cols R) r; iend ← Sparse.end_row (csr cols R) r; Sparse.iterate (S (size_ (csr cols R))) (csr cols R) it iend) =
  Ok (at_place r <$> row_at R r).
Proof.
  unfold Sparse.begin_row, Sparse.end_row. rewrite !at_row_ok by done. unfold mbind, outcome_mbind. cbn [outcome_bind]. replace (r + 1) with (S r) by lia.
  destruct (R !! r) as [x|] eqn:Hx; unfold row_at; rewrite Hx; cbn [default].
  - destruct (concat_split R r x Hx) as [Ec El]. destruct (decide (x = [])) as [->|Hne].
    + rewrite El. cbn [length]. rewrite Nat.add_0_r. by apply iterate_same.
    + pose proof (lookup_lt_Some _ _ _ Hx). rewrite (Nat.min_l r) by lia.
      pose proof (iterate_row cols R Hst r x Hx x Hne [] (S (size_ (csr cols R))) (Sparse.mkIterator (length (concat (take (S r) R))) (Nat.min (S r) (length R))) eq_refl Hne) as Hit.
      cbn [length] in Hit. rewrite Nat.add_0_r in Hit. rewrite Hit.
      * rewrite iterate_same by done. unfold mbind, outcome_mbind. cbn [outcome_bind]. by rewrite app_nil_r.
      * cbn [size_ csr]. rewrite Ec, !length_app. lia.
      * cbn. lia.
  - apply lookup_ge_None in Hx. rewrite !take_ge by lia. by apply iterate_same.
Qed.

Lemma reduced_rows_ok p : forall k, Sparse.reduced_rows k p (csr cols R) = Ok (placed k (row_at R <$> p)).
Proof.
  induction p as [|r p IH]; intros k; [done|]. cbn [Sparse.reduced_rows]. pose proof (iterate_one_row r) as Hr. revert Hr. unfold mbind, outcome_mbind.
  destruct (Sparse.begin_row _ r) as [it| | |]; [|done..]. cbn [outcome_bind]. destruct (Sparse.end_row _ r) as [iend| | |]; [|done..]. cbn [outcome_bind].
  intros ->. cbn [outcome_bind]. rewrite IH. cbn [outcome_bind]. f_equal. cbn [fmap list_fmap]. rewrite placed_cons. f_equal. by rewrite <- list_fmap_compose.
Qed.
End Reduce.

Lemma ordered_lookup R r : ordered R -> StronglySorted (fun a b : entry => a.1 < b.1) (row_at R r).
Proof. intros Ho. unfold row_at. destruct (R !! r) as [x|] eqn:Hx; [|constructor]. by apply (Forall_lookup_1 _ _ _ _ Ho Hx). Qed.

(** A row reduction has the chosen rows, in the order chosen, without the zeros that
    were stored; an index past the last row gives an empty row. *)
Theorem sparse_row_reduction jd jo ji cols R (p : list nat) : let L := without_zeros (row_at R <$> p) in
  storable cols R -> ordered R -> length p <= length R -> (Z.of_nat cols * Z.of_nat (length R) < 2 ^ 64)%Z ->
  concat L <> [] -> (Z.of_nat (length (concat L)) < 2 ^ 32)%Z ->
  Sparse.rowReduction jd jo ji (csr cols R) p = Ok (csr cols L).
Proof.
  intros L Hst Ho Hp Hbig Hne Hlen. unfold Sparse.rowReduction. cbn [rows_ cols_ csr]. rewrite (proj2 (Nat.leb_le _ _)) by done. unfold mbind, outcome_mbind. cbn [ASSERT outcome_bind].
  change (mkSparse _ _ _ _ _ _) with (csr cols R). rewrite reduced_rows_ok by done. cbn [outcome_bind]. set (Q := row_at R <$> p) in *.
  assert (Hl : length Q = length p) by (unfold Q; apply length_fmap). rewrite <- Hl. destruct (placed_by_row Q 0) as (H1 & H2 & H3).
  assert (Hc : Forall (fun e => e.1 < cols) (concat L)).
  { apply Forall_forall. intros e He. apply list_elem_of_In, in_concat in He as (x & Hx%list_elem_of_In & Hin%list_elem_of_In). unfold L, without_zeros, Q in Hx.
    apply list_elem_of_fmap in Hx as (y & -> & (r & -> & _)%list_elem_of_fmap). apply list_elem_of_filter in Hin as [_ Hin]. unfold row_at in Hin.
    destruct (R !! r) as [x|] eqn:Hr; [|by apply not_elem_of_nil in Hin]. destruct Hst as [_ _ _ Hcols]. rewrite Forall_forall in Hcols. by apply Hcols, (elem_of_concat _ _ _ _ Hr). }
  assert (HoL : ordered L). { apply Forall_fmap, Forall_fmap, Forall_true. intros r. apply sorted_filter. by apply ordered_lookup. }
  assert (Hpos : 0 < length (concat L)) by (destruct (concat L); [done|simpl; lia]). pose proof Hst as [_ Hcp Hi _].
  assert (HstL : storable cols L) by (split; [lia|done|done|done]).
  assert (Hcat : concat L = cell <$> nonzeros (placed 0 Q)).
  { rewrite nonzeros_placed. fold L. clear. unfold placed. generalize 0. induction L as [|x L IH]; intros k; [done|]. cbn [concat imap]. rewrite fmap_app. f_equal.
    - by rewrite cell_at_place.
    - rewrite (IH (S k)). do 2 f_equal. apply imap_ext. intros i y _. cbn. do 2 f_equal. lia. }
  pose proof (ordered_size cols L HoL Hc) as Hsize. assert (HlL : length L = length p) by (unfold L, without_zeros; by rewrite length_fmap).
  destruct (from_triplets_ok jd jo ji (length Q) cols (placed 0 Q)) as [-> _]; [by apply sorted_filter| |by rewrite rows_of_placed| |by rewrite rows_of_placed].
  - apply Forall_forall. intros t Ht. split.
    + apply list_elem_of_filter in Ht as [_ Ht]. rewrite Forall_forall in H3. by apply H3.
    + rewrite Hcat in Hc. apply Forall_fmap in Hc. rewrite Forall_forall in Hc. exact (Hc t Ht).
  - rewrite Hcat, length_fmap in Hsize. nia.
Qed.

Lemma sparse_row_reduction_witness : let R := [[(0, 5%Z); (2, 7%Z)]; []; [(1, 9%Z)]] in
  Sparse.rowReduction (fun _ => 0%Z) (fun _ => 0%Z) (fun _ => 0%Z) (csr 3 R) [2; 0] = Ok (csr 3 [[(1, 9%Z)]; [(0, 5%Z); (2, 7%Z)]]).
Proof.
  intros R. apply (sparse_row_reduction (fun _ => 0%Z) (fun _ => 0%Z) (fun _ => 0%Z) 3 R [2; 0]).
  - split; cbn; try lia. repeat constructor.
  - repeat constructor.
  - cbn. lia.
  - cbn. lia.
  - vm_compute. done.
  - vm_compute. done.
Defined.

(** ** Iterating over the matrix *)

Section Whole.
Variables (cols : nat) (R : rows_t).
Hypothesis Hst : storable cols R.
#[local] Set Default Proof Using "All".

Lemma iterate_rows n : forall r f iend, r + n = length R -> Forall (fun x => x <> []) (drop r R) -> length (concat (drop r R)) <= f ->
  Sparse.index_ iend = length (concat R) ->
  Sparse.iterate f (csr cols R) (Sparse.mkIterator (length (concat (take r R))) r) iend = Ok (placed r (drop r R)).
Proof.
  induction n as [|n IH]; intros r f iend Hr Hne Hf Hend.
  - rewrite drop_ge by lia. apply iterate_same; [done|]. cbn [Sparse.index_]. by rewrite Hend, take_ge by lia.
  - destruct (lookup_lt_is_Some_2 R r ltac:(lia)) as [x Hx]. destruct (concat_split R r x Hx) as [Ec El]. rewrite (drop_S R x r Hx) in *.
    apply Forall_cons in Hne as [Hxne Hne]. cbn [concat] in Hf. rewrite length_app in Hf.
    pose proof (iterate_row cols R Hst r x Hx x Hxne [] f iend eq_refl Hxne ltac:(lia)) as Hit. cbn [length] in Hit. rewrite Nat.add_0_r in Hit. rewrite Hit.
    + replace (r + 1) with (S r) by lia. rewrite IH by (done || lia). unfold mbind, outcome_mbind. cbn [outcome_bind]. by rewrite placed_cons.
    + rewrite Hend. rewrite <- (take_drop (S r) R) at 2. rewrite concat_app, length_app. lia.
Qed.

(** The empty rows at the start are passed. *)
Lemma first_row_ok k L f r : R = replicate k [] ++ L -> (exists x L', L = x :: L' /\ x <> []) -> r <= k -> k - r < f ->
  Sparse.first_row f (csr cols R) r = Ok (Sparse.mkIterator 0 k).
Proof.
  intros ER (x & L' & EL & Hx). assert (Hz : forall j, concat (take j (replicate k ([] : list entry))) = []).
  { intros j. rewrite take_replicate. generalize (Nat.min j k). intros i. induction i; [done|]. done. }
  revert r. induction f as [|f IH]; intros r Hr Hf; [lia|]. cbn [Sparse.first_row]. rewrite fetch_outer by (rewrite ER, EL, length_app, length_replicate; simpl; lia).
  unfold mbind, outcome_mbind. cbn [outcome_bind]. destruct (decide (r = k)) as [->|Hne].
  - rewrite ER, EL, take_app_ge, concat_app, length_replicate by (rewrite length_replicate; lia). replace (k + 1 - k) with 1 by lia. cbn [take concat]. rewrite app_nil_r, length_app.
    rewrite (proj2 (Z.eqb_neq _ _)); [done|]. destruct x; [done|]. simpl. lia.
  - replace (concat (take (r + 1) R)) with ([] : list entry) by (rewrite ER, take_app_le, Hz by (rewrite length_replicate; lia); done).
    replace (r + 1) with (S r) by lia. apply IH; lia.
Qed.
End Whole.

(** When only the first rows are empty, the iterators of a matrix go through its
    entries in the order of the rows, each with its row, column and value. *)
Theorem sparse_iteration_complete cols (k : nat) (L : rows_t) : let R := replicate k [] ++ L in
  storable cols R -> Forall (fun x => x <> []) L ->
  (it ← Sparse.begin (csr cols R); iend ← Sparse.the_end (csr cols R); Sparse.iterate (size_ (csr cols R)) (csr cols R) it iend) = Ok (placed k L).
Proof.
  intros R Hst Hne. assert (HL : exists x L', L = x :: L' /\ x <> []).
  { destruct L as [|x L]; [|apply Forall_cons in Hne as [Hx _]; by exists x, L]. destruct Hst as [Hs _ _ _]. unfold R in Hs. rewrite app_nil_r in Hs.
    assert (E : concat (replicate k ([] : list entry)) = []) by (clear; induction k; done). rewrite E in Hs. simpl in Hs. lia. }
  unfold Sparse.begin, Sparse.the_end. rewrite (first_row_ok cols R Hst k L) by (done || lia || (cbn [outer_ csr]; rewrite length_fmap, length_offsets; unfold R; rewrite length_app, length_replicate; lia)).
  rewrite at_row_ok by done. unfold mbind, outcome_mbind. cbn [outcome_bind rows_ csr]. rewrite take_ge by lia.
  assert (E : placed k L = placed k (drop k R)) by (unfold R; by rewrite drop_app_length' by (by rewrite length_replicate)). rewrite E.
  assert (E0 : 0 = length (concat (take k R))).
  { unfold R. rewrite take_app_length' by (by rewrite length_replicate). clear. induction k; [done|]. done. }
  rewrite E0 at 1. apply (iterate_rows cols R Hst (length L)).
  - unfold R. by rewrite length_app, length_replicate.
  - unfold R. by rewrite drop_app_length' by (by rewrite length_replicate).
  - assert (Hh : length (concat R) = length (concat (take k R)) + length (concat (drop k R))) by (by rewrite <- length_app, <- concat_app, take_drop).
    change (length (concat (drop k R)) <= length (concat R)). lia.
  - done.
Qed.

Lemma sparse_iteration_complete_witness : let R := [[]; [(0, 5%Z); (2, 7%Z)]; [(1, 9%Z)]] in
  (it ← Sparse.begin (csr 3 R); iend ← Sparse.the_end (csr 3 R); Sparse.iterate (size_ (csr 3 R)) (csr 3 R) it iend) =
  Ok [mkTriplet 1 0 5; mkTriplet 1 2 7; mkTriplet 2 1 9].
Proof.
  intros R. apply (sparse_iteration_complete 3 1 [[(0, 5%Z); (2, 7%Z)]; [(1, 9%Z)]]).
  - split; cbn; try lia. repeat constructor.
  - repeat constructor; done.
Defined.

(** After an empty row in the middle, the rows that the iterator reports are wrong: the
    increment moves by one row only. *)
Lemma sparse_iterator_wrong_row : let R := [[(0, 5%Z)]; []; [(1, 9%Z)]] in
  (it ← Sparse.begin (csr 3 R); iend ← Sparse.the_end (csr 3 R); Sparse.iterate (size_ (csr 3 R)) (csr 3 R) it iend) =
  Ok [mkTriplet 0 0 5; mkTriplet 1 1 9].
Proof. vm_compute. reflexivity. Qed.

(** ** Construction, transposition and product *)

(** A matrix built from triplets in the order of their rows stores the triplets that
    are not zero, at their places and in their order, with the starts of the rows. *)
Theorem sparse_from_triplets jd jo ji rows cols ts : let nz := nonzeros ts in
  by_row nz -> Forall (fun t => row t < rows /\ col t < cols) nz -> nz <> [] -> (Z.of_nat (length nz) < 2 ^ 32)%Z -> (Z.of_nat cols <= 2 ^ 31)%Z ->
  (Z.of_nat (length nz) <= Z.of_nat rows * Z.of_nat cols < 2 ^ 64)%Z ->
  exists m, Sparse.from_triplets jd jo ji rows cols ts = Ok m /\ rows_ m = rows /\ cols_ m = cols /\ size_ m = length nz /\
    data_ m = value <$> nz /\ inner_ m = (fun t => Z.of_nat (col t)) <$> nz /\
    forall r c v, entry_at m r c v <-> mkTriplet r c v ∈ nz.
Proof.
  intros nz Hs Hin Hne Hlen Hc Hbig. assert (Hcat : concat (rows_of rows ts) = cell <$> nz).
  { apply concat_grouped; [done|]. eapply Forall_impl; [exact Hin|]. simpl. lia. }
  assert (Hpos : 0 < length nz) by (destruct nz; [done|simpl; lia]).
  destruct (from_triplets_ok jd jo ji rows cols ts) as [-> _]; [done|done| |done|].
  { split; [rewrite Hcat, length_fmap; fold nz; lia|nia|done|]. rewrite Hcat. apply Forall_fmap. eapply Forall_impl; [exact Hin|]. by intros t [_ Ht]. }
  eexists. split; [done|]. split_and!; try done.
  - cbn. unfold rows_of. by rewrite length_fmap, length_seq.
  - cbn [size_ csr]. by rewrite Hcat, length_fmap.
  - cbn [data_ csr]. by rewrite Hcat, <- list_fmap_compose.
  - cbn [inner_ csr]. by rewrite Hcat, <- list_fmap_compose.
  - intros r c v. unfold nz. rewrite entry_at_csr, has_entry_rows_of, list_elem_of_filter. unfold nonZero. cbn [value].
    split; [by intros (? & ? & ?)|]. intros [Hz Hi]. split_and!; try done. rewrite Forall_forall in Hin. apply (Hin (mkTriplet r c v)). by apply list_elem_of_filter.
Qed.

Lemma sparse_from_triplets_witness : let ts := [mkTriplet 0 2 7; mkTriplet 0 1 0; mkTriplet 2 0 9] in
  exists m, Sparse.from_triplets (fun _ => 0%Z) (fun _ => 0%Z) (fun _ => 0%Z) 3 3 ts = Ok m /\ rows_ m = 3 /\ cols_ m = 3 /\ size_ m = 2 /\
    data_ m = [7; 9]%Z /\ inner_ m = [2; 0]%Z /\ forall r c v, entry_at m r c v <-> mkTriplet r c v ∈ [mkTriplet 0 2 7; mkTriplet 2 0 9].
Proof.
  intros ts. apply (sparse_from_triplets (fun _ => 0%Z) (fun _ => 0%Z) (fun _ => 0%Z) 3 3 ts).
  - change (nonzeros ts) with [mkTriplet 0 2 7; mkTriplet 2 0 9]. repeat constructor.
  - change (nonzeros ts) with [mkTriplet 0 2 7; mkTriplet 2 0 9]. repeat constructor.
  - vm_compute. done.
  - vm_compute. done.
  - lia.
  - vm_compute. done.
Defined.

(** C20. Transposing a matrix whose rows have their columns in strictly increasing order and
    store no zeros, with sizes within 31 bits, swaps the rows and the columns of its entries,
    whatever algorithm [std::sort] uses, and transposing twice gives the matrix back, array
    for array. *)
Theorem sparse_transpose_involutive (std_sort : list Triplet -> list Triplet) jd jo ji cols R :
  (forall l, std_sort l ≡ₚ l) -> (forall l, StronglySorted (fun a b => triplet_lt b a = false) (std_sort l)) ->
  storable cols R -> ordered R -> no_zero R -> (Z.of_nat (length R) <= 2 ^ 31)%Z ->
  exists m, Sparse.transpose jd jo ji std_sort (csr cols R) = Ok m /\ rows_ m = cols /\ cols_ m = length R /\
    (forall r c v, entry_at m c r v <-> entry_at (csr cols R) r c v) /\
    Sparse.transpose jd jo ji std_sort m = Ok (csr cols R).
Proof.
  intros Hp Hsrt Hst Ho Hz Hr. pose proof Hst as [_ _ Hi Hc]. pose proof (ordered_size cols R Ho Hc) as Hsz.
  destruct (transposed_storable std_sort Hp Hsrt cols R Hst Hz Ho Hr) as (Hst' & Hcat & _ & Hl & _).
  assert (HlT : length (transposed cols R) = cols) by (unfold transposed, rows_of; by rewrite length_fmap, length_seq).
  assert (HzT : no_zero (transposed cols R)).
  { unfold no_zero. rewrite Hcat. apply Forall_fmap, Forall_forall. intros t [Ht _]%list_elem_of_filter. exact Ht. }
  pose proof (transposed_ordered cols R Ho) as HoT. eexists. split; [apply transpose_ok; done || lia|]. split_and!; try done.
  - intros r c v. rewrite !entry_at_csr. by apply transposed_entries.
  - rewrite (transpose_ok std_sort Hp Hsrt jd jo ji (length R) (transposed cols R)) by (done || (rewrite HlT; done) || (rewrite HlT, Hcat, length_fmap, Hl; lia)).
    rewrite (transposed_twice std_sort Hp Hsrt cols R Hst Hz Ho), HlT. done.
Qed.

Definition triplet_le (a b : Triplet) : Prop := triplet_lt b a = false.
#[local] Instance triplet_le_dec a b : Decision (triplet_le a b).
Proof. unfold triplet_le. solve_decision. Defined.
#[local] Instance triplet_le_total : Total triplet_le.
Proof. intros a b. unfold triplet_le, triplet_lt. destruct (Nat.eqb_spec (row b) (row a)), (Nat.eqb_spec (row a) (row b)); try congruence; rewrite !Nat.ltb_ge; lia. Qed.
#[local] Instance triplet_le_trans : Transitive triplet_le.
Proof.
  intros a b c. unfold triplet_le, triplet_lt. destruct (Nat.eqb_spec (row b) (row a)), (Nat.eqb_spec (row c) (row b)), (Nat.eqb_spec (row c) (row a)); rewrite !Nat.ltb_ge; lia.
Qed.

Lemma sparse_transpose_involutive_witness : let R := [[(0, 5%Z); (2, 7%Z)]; [(2, 9%Z)]] in let junk := fun _ => 0%Z in let sort := merge_sort triplet_le in
  exists m, Sparse.transpose junk junk junk sort (csr 3 R) = Ok m /\ rows_ m = 3 /\ cols_ m = 2 /\
    (forall r c v, entry_at m c r v <-> entry_at (csr 3 R) r c v) /\ Sparse.transpose junk junk junk sort m = Ok (csr 3 R).
Proof.
  intros R junk sort. apply (sparse_transpose_involutive sort junk junk junk 3 R).
  - intros l. apply merge_sort_Permutation.
  - intros l. apply StronglySorted_merge_sort; apply _.
  - split; cbn; try lia. repeat constructor.
  - repeat constructor.
  - repeat constructor.
  - cbn. lia.
Defined.

(** C21. The product with a vector has for each row the sum, from the left, of the products
    of its values with the elements that its columns select. *)
Theorem sparse_product cols R xs ys : storable cols R -> length xs = cols -> length ys = length R ->
  Sparse.spmv (csr cols R) xs ys = Ok ((fun x => to_bits (foldl (fun s e => dadd s (dmul (of_bits e.2) (of_bits (default 0%Z (xs !! e.1))))) (of_Z 0) x)) <$> R).
Proof.
  intros Hst Hx Hy. pose proof Hst as [Hs _ _ _]. unfold Sparse.spmv. cbn [rows_ cols_ size_ csr]. rewrite Hx, Hy, !Nat.eqb_refl.
  unfold mbind, outcome_mbind. cbn [ASSERT outcome_bind]. rewrite (proj2 (Nat.eqb_neq _ _)) by lia.
  change (mkSparse _ _ _ _ _ _) with (csr cols R). rewrite (fetch_outer cols R 0) by lia. cbn [outcome_bind ASSERT take concat length Z.of_nat Z.eqb].
  by rewrite (spmv_rows_ok cols R xs (length R) Hx Hst 0) by lia.
Qed.

Lemma sparse_product_witness : let b := fun n => to_bits (of_Z n) in let R := [[(0, b 2%Z); (2, b 3%Z)]; []; [(1, b 5%Z)]] in
  Sparse.spmv (csr 3 R) [b 1%Z; b 10%Z; b 100%Z] [0%Z; 0%Z; 0%Z] = Ok [b 302%Z; b 0%Z; b 50%Z].
Proof.
  intros b R. rewrite (sparse_product 3 R); [vm_compute; reflexivity| |done|done].
  split; cbn; try lia. repeat constructor.
Defined.
