(* ===== verification/SharedValue.v ===== *)
(** * Values that share their content

    [Value] of [value/Value.cc] is a counted pointer to a [Content] ([memory/Counted.h]).
    Copies share the content; a method that changes a value first makes the content its
    own ([update]: it is cloned when it is shared).  The contents are [Nil], [Bool],
    [Number], [Double] and [String], the lists of [ListContent], and the maps of
    [MapContent] and [OrderedMapContent], whose elements are values again.  Keys are numbers
    or strings.

    The model has the heap of contents with their counts, and slots (variables, elements)
    that hold addresses. *)
From Stdlib Require Import Floats.SpecFloat.
From S2P Require Import Prelude Text Strings Translator Double.

(** ** Contents *)

Inductive atom := ANil | ABool (b : bool) | ANumber (n : Z) | ADouble (d : double) | AString (s : text).
Inductive shape := SAtom (a : atom) | SList | SMap | SOrderedMap.
Inductive key := KNumber (n : Z) | KString (s : text).
#[export] Instance key_eq_dec : EqDecision key.
Proof. solve_decision. Defined.

(** A content: its class and its elements.  The elements of a list have the key 0; those
    of a map are in the order of the keys, those of an ordered map in that of [keys_]. *)
Record cell := Cell { shape_ : shape; entries : list (key * Z) }.
Definition children (c : cell) : list Z := (entries c).*2.

Record heap := { store : gmap Z (Z * cell); next : Z }.
Definition set_store (s : gmap Z (Z * cell)) (h : heap) : heap := {| store := s; next := next h |}.

(** The address of the only [Nil] that [Value()] uses; it is attached once by its class. *)
Definition nil : Z := 0.

(** An address that was deleted must not be used. *)
Definition get (l : Z) : M heap (Z * cell) := fun h =>
  match store h !! l with Some e => (Ok e, h) | None => (Undef, h) end.
Definition put (l : Z) (e : Z * cell) : M heap unit := modifyM (fun h => set_store (<[l := e]> (store h)) h).

(** [new XxxContent(...)]: the count is 0 until a value attaches. *)
Definition new_content (c : cell) : M heap Z := fun h =>
  (Ok (next h), {| store := <[next h := (0, c)]> (store h); next := next h + 1 |}).

Definition attach (l : Z) : M heap unit := e ← get l; put l (e.1 + 1, e.2).

(** [Counted::detach]: the last one deletes the content, and its elements detach. *)
Fixpoint detach (fuel : nat) (l : Z) : M heap unit :=
  match fuel with
  | O => liftM NoFuel
  | S fuel =>
      e ← get l;
      if e.1 - 1 =? 0
      then modifyM (fun h => set_store (delete l (store h)) h) ;;
           (fix go ls := match ls with [] => mret tt | x :: ls => detach fuel x ;; go ls end) (children e.2)
      else put l (e.1 - 1, e.2)
  end.

(** [Content::clone]: the elements are cloned. *)
Fixpoint clone (fuel : nat) (l : Z) : M heap Z :=
  match fuel with
  | O => liftM NoFuel
  | S fuel =>
      e ← get l;
      es ← (fix go (es : list (key * Z)) : M heap (list (key * Z)) :=
              match es with
              | [] => mret []
              | (k, x) :: es => x' ← clone fuel x; attach x' ;; rest ← go es; mret ((k, x') :: rest)
              end) (entries e.2);
      new_content (Cell (shape_ e.2) es)
  end.

(** ** Slots: the [content_] of a value *)

Definition slot_heap {A} (m : M heap A) : M (heap * Z) A := fun s => let '(o, h) := m s.1 in (o, (h, s.2)).

Definition at_slot {A} (f : Z -> M heap A) : M (heap * Z) A := fun s => slot_heap (f s.2) s.

(** [Value::operator=] *)
Definition assign (fuel : nat) (y : Z) : M (heap * Z) unit := fun s =>
  let '(o, h) := (attach y ;; detach fuel s.2) s.1 in (o, (h, y)).

(** [Value::update] *)
Definition update (fuel : nat) : M (heap * Z) unit := fun s =>
  match (e ← get s.2; if 1 <? e.1 then c ← clone fuel s.2; attach c ;; detach fuel s.2 ;; mret c else mret s.2) s.1 with
  | (Ok l, h) => (Ok tt, (h, l))
  | (Throw e, h) => (Throw e, (h, s.2))
  | (Undef, h) => (Undef, (h, s.2))
  | (NoFuel, h) => (NoFuel, (h, s.2))
  end.

(** ** Elements *)

Definition same_kind (a b : key) : bool :=
  match a, b with KNumber _, KNumber _ | KString _, KString _ => true | _, _ => false end.
Definition key_lt (a b : key) : bool :=
  match a, b with KNumber x, KNumber y => x <? y | KString x, KString y => text_lt x y | _, _ => false end.

Section Entries.
Context {A : Type}.
Implicit Types es : list (key * A).

(** A search compares the key with those of the map, which fails for keys of another class. *)
Definition comparable (k : key) es : bool := forallb (fun e => same_kind k e.1) es.
Fixpoint find_key (k : key) es : option nat :=
  match es with [] => None | e :: es => if decide (e.1 = k) then Some 0%nat else S <$> find_key k es end.
Definition map_position (k : key) es : nat := length (filter (fun e => key_lt e.1 k = true) es).
Definition insert_entry (i : nat) (e : key * A) es : list (key * A) := take i es ++ e :: drop i es.
Definition set_entry (i : nat) (a : A) es : list (key * A) := alter (fun e => (e.1, a)) i es.
Definition list_index (k : key) : Z := match k with KNumber n => n | KString s => string_to_long_long s end.

(** What [element(k)] does to the elements: the place of the element, and the elements
    with a new one, [new], where a map has none for the key. *)
Definition element_of (sh : shape) (k : key) (new : A) es : outcome (nat * option (list (key * A))) :=
  match sh with
  | SAtom _ => Throw BadOperator
  | SList =>
      let n := list_index k in
      if (0 <=? n) && (n <? zlen es) then Ok (Z.to_nat n, None) else Throw AssertionFailed
  | SMap =>
      if comparable k es then
        match find_key k es with Some i => Ok (i, None) | None => let i := map_position k es in Ok (i, Some (insert_entry i (k, new) es)) end
      else Throw BadComparison
  | SOrderedMap =>
      if comparable k es then
        match find_key k es with Some i => Ok (i, None) | None => Ok (length es, Some (insert_entry (length es) (k, new) es)) end
      else Throw BadComparison
  end.

(** [contains(k)] *)
Definition contains_of (sh : shape) (k : key) es : outcome bool :=
  match sh with
  | SAtom ANil => Ok false
  | SAtom _ => Throw BadOperator
  | SList => let n := list_index k in Ok ((0 <=? n) && (n <? zlen es))
  | SMap | SOrderedMap => if comparable k es then Ok (bool_decide (is_Some (find_key k es))) else Throw BadComparison
  end.
End Entries.

(** [Content::element(key)] on the content at [l]: the place of the element. *)
Definition element (l : Z) (k : key) : M heap nat :=
  e ← get l;
  '(i, es) ← liftM (element_of (shape_ e.2) k nil (entries e.2));
  match es with
  | None => mret i
  | Some es => attach nil ;; e ← get l; put l (e.1, Cell (shape_ e.2) es) ;; mret i
  end.

(** [Value::contains], [Value::shared] *)
Definition contains (l : Z) (k : key) : M heap bool := e ← get l; liftM (contains_of (shape_ e.2) k (entries e.2)).
Definition shared (l : Z) : M heap bool := e ← get l; mret (1 <? e.1).

(** The element at place [i] of the content at [l], as a slot. *)
Definition in_element {A} (l : Z) (i : nat) (m : M (heap * Z) A) : M heap A := fun h =>
  match store h !! l with
  | Some (_, c) =>
      match entries c !! i with
      | Some (_, x) =>
          let '(o, (h, x')) := m (h, x) in
          match store h !! l with
          | Some (n, c) => (o, set_store (<[l := (n, Cell (shape_ c) (set_entry i x' (entries c)))]> (store h)) h)
          | None => (Undef, h)
          end
      | None => (Undef, h)
      end
  | None => (Undef, h)
  end.

(** [v[k1][k2]... = y]: every [operator[]] makes the content of its value its own first. *)
Fixpoint assign_path (fuel : nat) (path : list key) (y : Z) : M (heap * Z) unit :=
  match path with
  | [] => assign fuel y
  | k :: path =>
      update fuel ;;
      at_slot (fun l => i ← element l k; in_element l i (assign_path fuel path y))
  end.

(** [Value::append] *)
Definition append (fuel : nat) (y : Z) : M (heap * Z) unit :=
  update fuel ;;
  at_slot (fun l =>
    e ← get l;
    match shape_ e.2 with
    | SList => attach y ;; e ← get l; put l (e.1, Cell SList (entries e.2 ++ [(KNumber 0, y)]))
    | _ => throwM BadOperator
    end).

(** [Value::remove]; the value returned is dropped.  A key that is missing is inserted and
    removed again. *)
Definition remove_entry (fuel : nat) (l : Z) (k : key) : M heap unit :=
  e ← get l;
  let es := entries e.2 in
  if comparable k es then
    match find_key k es with
    | None => mret tt
    | Some i =>
        match es !! i with
        | None => mret tt
        | Some (_, x) =>
            attach x ;; e ← get l; put l (e.1, Cell (shape_ e.2) (delete i (entries e.2))) ;; detach fuel x ;; detach fuel x
        end
    end
  else throwM BadComparison.
Definition remove (fuel : nat) (k : key) : M (heap * Z) unit :=
  update fuel ;;
  at_slot (fun l =>
    e ← get l;
    match shape_ e.2 with SMap | SOrderedMap => remove_entry fuel l k | _ => throwM BadOperator end).

(** [x = v[k]] for a [v] that is constant: the content of [v] is not cloned. *)
Definition get_element (fuel : nat) (v : Z) (k : key) : M (heap * Z) unit :=
  x ← slot_heap (i ← element v k; in_element v i (fun s => (Ok s.2, s)));
  slot_heap (attach x) ;; assign fuel x ;; slot_heap (detach fuel x).

(** [x = Value(...)]: a scalar, or an empty list or map *)
Definition construct (fuel : nat) (sh : shape) : M (heap * Z) unit :=
  l ← slot_heap (new_content (Cell sh [])); slot_heap (attach l) ;; assign fuel l ;; slot_heap (detach fuel l).

(** ** Programs *)

(** Variables are values; [x = y], [x.append(y)] and the others act on them. *)
Inductive op :=
| Construct (x : nat) (sh : shape)
| Copy (x y : nat)
| Append (x y : nat)
| Assign (x : nat) (path : list key) (y : nat)
| Remove (x : nat) (k : key)
| Get (x y : nat) (k : key).

Definition on_var (x : nat) (m : M (heap * Z) unit) : M (heap * list Z) unit := fun s =>
  match s.2 !! x with
  | Some l => let '(o, (h, l')) := m (s.1, l) in (o, (h, <[x := l']> s.2))
  | None => (Undef, s)
  end.
Definition with_var (y : nat) (m : Z -> M (heap * list Z) unit) : M (heap * list Z) unit := fun s =>
  match s.2 !! y with Some l => m l s | None => (Undef, s) end.

Definition step (fuel : nat) (o : op) : M (heap * list Z) unit :=
  match o with
  | Construct x sh => on_var x (construct fuel sh)
  | Copy x y => with_var y (fun l => on_var x (assign fuel l))
  | Append x y => with_var y (fun l => on_var x (append fuel l))
  | Assign x path y => with_var y (fun l => on_var x (assign_path fuel path l))
  | Remove x k => on_var x (remove fuel k)
  | Get x y k => with_var y (fun l => on_var x (get_element fuel l k))
  end.

(** A sequence of statements, each of which may throw. *)
Fixpoint run (fuel : nat) (os : list op) (s : heap * list Z) : list (outcome unit) * (heap * list Z) :=
  match os with
  | [] => ([], s)
  | o :: os => let '(r, s) := step fuel o s in let '(rs, s) := run fuel os s in (r :: rs, s)
  end.

Definition start (n : nat) : heap * list Z :=
  ({| store := {[nil := (1 + Z.of_nat n, Cell (SAtom ANil) [])]}; next := 1 |}, replicate n nil).

(** ** Values without sharing *)

(** What a program means when every variable has a value of its own. *)
Inductive value := V (sh : shape) (es : list (key * value)).
Definition vshape (v : value) : shape := let 'V sh _ := v in sh.
Definition ventries (v : value) : list (key * value) := let 'V _ es := v in es.
Definition vnil : value := V (SAtom ANil) [].

(** A change of the element of a key, which is nil when a map has none. *)
Definition pelement (k : key) (m : M value unit) : M value unit := fun v =>
  match element_of (vshape v) k vnil (ventries v) with
  | Ok (i, es') =>
      let es := default (ventries v) es' in
      match es !! i with
      | Some (_, x) => let '(o, x') := m x in (o, V (vshape v) (set_entry i x' es))
      | None => (Undef, v)
      end
  | Throw e => (Throw e, v)
  | Undef => (Undef, v)
  | NoFuel => (NoFuel, v)
  end.
Fixpoint passign (path : list key) (y : value) : M value unit :=
  match path with [] => fun _ => (Ok tt, y) | k :: path => pelement k (passign path y) end.
Definition pcontains (k : key) : M value bool := fun v => (contains_of (vshape v) k (ventries v), v).

Definition pappend (y : value) : M value unit := fun v =>
  match vshape v with
  | SList => (Ok tt, V SList (ventries v ++ [(KNumber 0, y)]))
  | _ => (Throw BadOperator, v)
  end.

Definition premove (k : key) : M value unit := fun v =>
  match vshape v with
  | SMap | SOrderedMap =>
      if comparable k (ventries v) then
        match find_key k (ventries v) with
        | Some i => (Ok tt, V (vshape v) (delete i (ventries v)))
        | None => (Ok tt, v)
        end
      else (Throw BadComparison, v)
  | _ => (Throw BadOperator, v)
  end.

(** A key that is not there is an error here. *)
Definition pget (v : value) (k : key) : outcome value :=
  match element_of (vshape v) k vnil (ventries v) with
  | Ok (i, None) => match ventries v !! i with Some (_, x) => Ok x | None => Undef end
  | Ok (_, Some _) => Undef
  | Throw e => Throw e
  | Undef => Undef
  | NoFuel => NoFuel
  end.

Definition on_pvar (x : nat) (m : M value unit) : M (list value) unit := fun vs =>
  match vs !! x with
  | Some v => let '(o, v') := m v in (o, <[x := v']> vs)
  | None => (Undef, vs)
  end.
Definition with_pvar (y : nat) (m : value -> M (list value) unit) : M (list value) unit := fun vs =>
  match vs !! y with Some v => m v vs | None => (Undef, vs) end.

Definition pstep (o : op) : M (list value) unit :=
  match o with
  | Construct x sh => on_pvar x (fun _ => (Ok tt, V sh []))
  | Copy x y => with_pvar y (fun v => on_pvar x (fun _ => (Ok tt, v)))
  | Append x y => with_pvar y (fun v => on_pvar x (pappend v))
  | Assign x path y => with_pvar y (fun v => on_pvar x (passign path v))
  | Remove x k => on_pvar x (premove k)
  | Get x y k => with_pvar y (fun v => on_pvar x (fun w => match pget v k with Ok e => (Ok tt, e) | Throw e => (Throw e, w) | Undef => (Undef, w) | NoFuel => (NoFuel, w) end))
  end.

Fixpoint prun (os : list op) (vs : list value) : list (outcome unit) * list value :=
  match os with
  | [] => ([], vs)
  | o :: os => let '(r, vs) := pstep o vs in let '(rs, vs) := prun os vs in (r :: rs, vs)
  end.

(** A value is not put into itself, and a constant map is asked only for keys that it has. *)
Definition proper (o : op) (vs : list value) : Prop :=
  match o with
  | Construct x _ | Remove x _ => (x < length vs)%nat
  | Copy x y => (x < length vs)%nat /\ (y < length vs)%nat
  | Append x y | Assign x _ y => (x < length vs)%nat /\ (y < length vs)%nat /\ x <> y
  | Get x y k => (x < length vs)%nat /\ exists v, vs !! y = Some v /\ pget v k <> Undef
  end.
Fixpoint proper_run (os : list op) (vs : list value) : Prop :=
  match os with [] => True | o :: os => proper o vs /\ proper_run os (pstep o vs).2 end.

(** Lists and maps, whose elements are at most as deep as the fuel. *)
Fixpoint vheight (v : value) : nat := let 'V _ es := v in S (max_list ((fun e => vheight e.2) <$> es)).

Section ValueInd.
Context (Q : value -> Prop) (H : forall sh es, Forall (fun e => Q e.2) es -> Q (V sh es)).
Fixpoint value_ind' (v : value) : Q v :=
  match v with
  | V sh es => H sh es ((fix go es : Forall (fun e => Q e.2) es :=
      match es with [] => Forall_nil_2 _ | e :: es => Forall_cons_2 _ _ _ (value_ind' e.2) (go es) end) es)
  end.
End ValueInd.

(** ** The representation *)

Abbreviation heap_map := (gmap Z (Z * cell)).
Implicit Types (L F : heap_map) (R : list Z) (C : gmap Z cell).

Definition contents L : list Z := map_to_list L ≫= fun e => children e.2.2.
Definition occ (l : Z) (ls : list Z) : Z := Z.of_nat (length (filter (fun x => x = l) ls)).

(** [R]: the references to [L] that are held outside of it. *)
Record inv L R : Prop := {
  inv_count l n c : L !! l = Some (n, c) -> n = occ l (R ++ contents L) /\ 0 < n;
  inv_live l : l ∈ R ++ contents L -> is_Some (L !! l);
}.

(** The value at an address. *)
Inductive den C : Z -> value -> Prop :=
| Den l sh es vs : C !! l = Some (Cell sh es) -> Forall2 (fun e w => e.1 = w.1 /\ den C e.2 w.2) es vs -> den C l (V sh vs).
Definition cells L : gmap Z cell := snd <$> L.

Section DenInd.
Context C (Q : Z -> value -> Prop).
Context (HQ : forall l sh es vs, C !! l = Some (Cell sh es) -> Forall2 (fun e w => e.1 = w.1 /\ den C e.2 w.2 /\ Q e.2 w.2) es vs -> Q l (V sh vs)).
Fixpoint den_ind' l v (d : den C l v) : Q l v :=
  match d with
  | Den _ l sh es vs E Hf => HQ l sh es vs E
      ((fix go es vs (Hf : Forall2 (fun e w => e.1 = w.1 /\ den C e.2 w.2) es vs) : Forall2 (fun e w => e.1 = w.1 /\ den C e.2 w.2 /\ Q e.2 w.2) es vs :=
          match Hf with
          | List.Forall2_nil _ => List.Forall2_nil _
          | @List.Forall2_cons _ _ _ x y es' vs' (conj H1 H2) H3 =>
              @List.Forall2_cons _ _ (fun e w => e.1 = w.1 /\ den C e.2 w.2 /\ Q e.2 w.2) x y es' vs' (conj H1 (conj H2 (den_ind' _ _ H2))) (go es' vs' H3)
          end) es vs Hf)
  end.
End DenInd.
