(* ===== verification/SharedValueSpec.v ===== *)
(** * Copy on write

    The counts of [SharedValue] are those of the references, so a content with count 1
    belongs to one value, and a change of it is seen by no other: a program on shared
    values has the outcome that it has on values without sharing. *)
From S2P Require Import Prelude Text SharedValue.
Implicit Types (L F : heap_map) (R : list Z) (C : gmap Z cell).

(** ** References *)

Lemma occ_app l a b : occ l (a ++ b) = occ l a + occ l b.
Proof. unfold occ. rewrite filter_app, length_app. lia. Qed.
Lemma occ_cons l x a : occ l (x :: a) = (if decide (x = l) then 1 else 0) + occ l a.
Proof. unfold occ. rewrite filter_cons. case_decide; simpl; lia. Qed.
Lemma occ_nonneg l a : 0 <= occ l a.
Proof. unfold occ. lia. Qed.
Lemma occ_perm l a b : a ≡ₚ b -> occ l a = occ l b.
Proof. intros E. unfold occ. by rewrite E. Qed.
Lemma occ_pos l a : 0 < occ l a <-> l ∈ a.
Proof.
  induction a as [|x a IH]; [split; [unfold occ; simpl; lia|by intros []%not_elem_of_nil]|].
  rewrite occ_cons, elem_of_cons. pose proof (occ_nonneg l a). case_decide as E; [subst; split; [by left|lia]|].
  rewrite <- IH. split; [right; lia|intros [->|]; [done|lia]].
Qed.
Lemma occ_zero l a : l ∉ a -> occ l a = 0.
Proof. intros Hl. pose proof (occ_nonneg l a). destruct (Z.eq_dec (occ l a) 0); [done|]. exfalso. apply Hl, occ_pos. lia. Qed.

Lemma contents_insert L l n c : L !! l = None -> contents (<[l := (n, c)]> L) ≡ₚ children c ++ contents L.
Proof. intros E. unfold contents. rewrite (map_to_list_insert L l (n, c) E). done. Qed.
Lemma contents_delete L l n c : L !! l = Some (n, c) -> contents L ≡ₚ children c ++ contents (delete l L).
Proof. intros E. unfold contents. rewrite <- (map_to_list_delete L l (n, c) E). done. Qed.
Lemma contents_recount L l n m c : L !! l = Some (n, c) -> contents (<[l := (m, c)]> L) ≡ₚ contents L.
Proof.
  intros E. rewrite <- (insert_delete_eq L l (m, c)), (contents_delete L l n c E). by rewrite contents_insert by apply lookup_delete_eq.
Qed.

Lemma cells_recount L l n m c : L !! l = Some (n, c) -> cells (<[l := (m, c)]> L) = cells L.
Proof. intros E. unfold cells. rewrite fmap_insert. apply insert_id. by rewrite lookup_fmap, E. Qed.

(** ** The invariant *)

Lemma inv_perm L R R' : R ≡ₚ R' -> inv L R -> inv L R'.
Proof.
  intros E [Hc Hl]. split.
  - intros l n c H. rewrite <- (occ_perm l (R ++ contents L)) by (by rewrite E). by apply (Hc l n c).
  - intros l Hin. apply Hl. by rewrite E.
Qed.

Lemma inv_attach L R l n c : inv L R -> L !! l = Some (n, c) -> inv (<[l := (n + 1, c)]> L) (l :: R).
Proof.
  intros [Hc Hl] E. pose proof (contents_recount L l n (n + 1) c E) as Hp. split.
  - intros k m d. rewrite (occ_perm k _ (l :: R ++ contents L)) by (simpl; by rewrite Hp). rewrite occ_cons.
    destruct (decide (l = k)) as [->|Hne]; [rewrite lookup_insert_eq; intros [= <- <-]; destruct (Hc k n c E); lia|].
    rewrite lookup_insert_ne by done. intros H. destruct (Hc k m d H). lia.
  - intros k Hk. destruct (decide (l = k)) as [->|Hne]; [by rewrite lookup_insert_eq|]. rewrite lookup_insert_ne by done.
    apply Hl. simpl in Hk. rewrite Hp in Hk. apply elem_of_cons in Hk as [->|Hk]; done.
Qed.

Lemma inv_detach L R l n c : inv L (l :: R) -> L !! l = Some (n, c) -> n <> 1 -> inv (<[l := (n - 1, c)]> L) R.
Proof.
  intros [Hc Hl] E Hn. pose proof (contents_recount L l n (n - 1) c E) as Hp. split.
  - intros k m d. rewrite (occ_perm k _ (R ++ contents L)) by (by rewrite Hp).
    destruct (decide (l = k)) as [->|Hne].
    + rewrite lookup_insert_eq; intros [= <- <-]. destruct (Hc k n c E) as [Hn1 Hn2]. simpl in Hn1. rewrite occ_cons, decide_True in Hn1 by done. lia.
    + rewrite lookup_insert_ne by done. intros H. destruct (Hc k m d H) as [Hn1 Hn2]. simpl in Hn1. rewrite occ_cons, decide_False in Hn1 by done. lia.
  - intros k Hk. destruct (decide (l = k)) as [->|Hne]; [by rewrite lookup_insert_eq|]. rewrite lookup_insert_ne by done.
    apply Hl. rewrite Hp in Hk. simpl. by right.
Qed.

(** A content with count 1 is referred to once; its elements are then held by its holder. *)
Lemma inv_open L R l c : inv L (l :: R) -> L !! l = Some (1, c) -> inv (delete l L) (children c ++ R) /\ (l ∉ R) /\ (l ∉ contents L).
Proof.
  intros [Hc Hl] E. pose proof (contents_delete L l 1 c E) as Hp. destruct (Hc l 1 c E) as [Hone _]. simpl in Hone.
  rewrite occ_cons, decide_True, occ_app in Hone by done. pose proof (occ_nonneg l R). pose proof (occ_nonneg l (contents L)).
  assert (HR : l ∉ R) by (rewrite <- occ_pos; lia). assert (HL : l ∉ contents L) by (rewrite <- occ_pos; lia). split; [|done].
  assert (Hq : forall k, occ k ((children c ++ R) ++ contents (delete l L)) = occ k (R ++ contents L)).
  { intros k. apply occ_perm. rewrite Hp. rewrite (Permutation_app_comm (children c) R), <- app_assoc. done. }
  split.
  - intros k m d. rewrite Hq. intros [Hne Hk]%lookup_delete_Some. destruct (Hc k m d Hk) as [Hn1 Hn2]. simpl in Hn1. rewrite occ_cons, decide_False in Hn1 by done. lia.
  - intros k Hk. assert (Hk' : k ∈ R ++ contents L) by (apply occ_pos; rewrite <- Hq; by apply occ_pos).
    rewrite lookup_delete_ne; [apply Hl; simpl; by right|]. intros ->. apply elem_of_app in Hk' as [|]; done.
Qed.

Lemma inv_close L R l c : inv L (children c ++ R) -> L !! l = None -> inv (<[l := (1, c)]> L) (l :: R).
Proof.
  intros [Hc Hl] E. pose proof (contents_insert L l 1 c E) as Hp.
  assert (Hl0 : l ∉ (children c ++ R) ++ contents L) by (intros Hin; apply Hl in Hin; rewrite E in Hin; by destruct Hin).
  assert (Hq : forall k, occ k (R ++ contents (<[l := (1, c)]> L)) = occ k ((children c ++ R) ++ contents L)).
  { intros k. apply occ_perm. rewrite Hp. rewrite (Permutation_app_comm (children c) R), <- app_assoc. done. }
  split.
  - intros k m d. simpl. rewrite occ_cons, Hq. destruct (decide (l = k)) as [->|Hne].
    + rewrite lookup_insert_eq. intros [= <- <-]. by rewrite (occ_zero k) by done.
    + rewrite lookup_insert_ne by done. intros H. by destruct (Hc k m d H).
  - intros k Hk. destruct (decide (l = k)) as [->|Hne]; [by rewrite lookup_insert_eq|]. rewrite lookup_insert_ne by done. apply Hl.
    simpl in Hk. apply elem_of_cons in Hk as [->|Hk]; [done|]. apply occ_pos. rewrite <- Hq. by apply occ_pos.
Qed.

(** ** Values at addresses *)

(** The value does not depend on a content that no content refers to. *)
Lemma den_frame C C' l v m : den C l v -> l <> m -> (forall k c, C !! k = Some c -> m ∉ children c) ->
  (forall k, k <> m -> C' !! k = C !! k) -> den C' l v.
Proof.
  intros Hd. induction Hd as [l sh es vs E IH] using den_ind'. intros Hl Hm HC. econstructor; [by rewrite HC|].
  assert (Hes : forall e, e ∈ es -> e.2 <> m) by (intros e He Heq; apply (Hm _ _ E); rewrite <- Heq; by apply list_elem_of_fmap_2).
  clear E. induction IH as [|e w es vs (H1 & _ & H2) _ IH']; constructor.
  - split; [done|]. apply H2; [apply Hes; by left|done..].
  - apply IH'. intros e' He'. apply Hes. by right.
Qed.

Lemma den_mono C C' l v : C ⊆ C' -> den C l v -> den C' l v.
Proof.
  intros Hsub Hd. induction Hd as [l sh es vs E IH] using den_ind'. econstructor; [by eapply lookup_weaken|].
  eapply Forall2_impl; [exact IH|]. intros e w (H1 & _ & H2). done.
Qed.

Lemma den_inv C l sh vs : den C l (V sh vs) -> exists es, C !! l = Some (Cell sh es) /\ Forall2 (fun e w => e.1 = w.1 /\ den C e.2 w.2) es vs.
Proof. inversion 1; subst. eauto. Qed.

Lemma not_in_contents L m k c : m ∉ contents L -> cells L !! k = Some c -> m ∉ children c.
Proof.
  intros Hm Hk Hin. unfold cells in Hk. rewrite lookup_fmap in Hk. destruct (L !! k) as [[n d]|] eqn:E; [|done]. simpl in Hk. simplify_eq.
  apply Hm. rewrite (contents_delete L k n c E). apply elem_of_app. by left.
Qed.

Lemma den_delete L l v m : den (cells L) l v -> l <> m -> m ∉ contents L -> den (cells (delete m L)) l v.
Proof.
  intros Hd Hl Hm. eapply den_frame; [exact Hd|exact Hl| |].
  - intros k c Hk. by eapply not_in_contents.
  - intros k Hk. unfold cells. by rewrite !lookup_fmap, lookup_delete_ne.
Qed.

(** A content with its elements elsewhere is put back. *)
Lemma den_insert L l n sh es vs : L !! l = None -> Forall2 (fun e w => e.1 = w.1 /\ den (cells L) e.2 w.2) es vs -> den (cells (<[l := (n, Cell sh es)]> L)) l (V sh vs).
Proof.
  intros E Hf. assert (Hsub : cells L ⊆ cells (<[l := (n, Cell sh es)]> L)).
  { unfold cells. rewrite fmap_insert. apply insert_subseteq. by rewrite lookup_fmap, E. }
  econstructor; [unfold cells; by rewrite lookup_fmap, lookup_insert_eq|]. eapply Forall2_impl; [exact Hf|]. intros e w [H1 H2]. split; [done|]. by eapply den_mono.
Qed.

Lemma cells_insert_subseteq L l n c : L !! l = None -> cells L ⊆ cells (<[l := (n, c)]> L).
Proof. intros E. unfold cells. rewrite fmap_insert. apply insert_subseteq. by rewrite lookup_fmap, E. Qed.

(** ** Parts of the heap *)

(** The heap is [L], which is described, and [F], which is not touched. *)
Definition split (h : heap) L F : Prop :=
  store h = L ∪ F /\ L ##ₘ F /\ forall l, is_Some (store h !! l) -> l < next h.

Lemma split_lookup h L F l e : split h L F -> L !! l = Some e -> store h !! l = Some e.
Proof. intros (-> & Hd & _) E. by apply lookup_union_Some_l. Qed.
Lemma split_frame h L F l e : split h L F -> L !! l = Some e -> F !! l = None.
Proof. intros (_ & Hd & _) E. by eapply map_disjoint_Some_l. Qed.

Lemma split_put h L F l e0 e : split h L F -> L !! l = Some e0 -> split (set_store (<[l := e]> (store h)) h) (<[l := e]> L) F.
Proof.
  intros Hs E. pose proof (split_frame _ _ _ _ _ Hs E) as HF. destruct Hs as (Hs & Hd & Hn). split_and!; simpl.
  - by rewrite Hs, insert_union_l.
  - by apply map_disjoint_insert_l.
  - intros k [Hk Hk2]. apply Hn. destruct (decide (l = k)) as [->|]; [rewrite Hs; exists e0; by apply lookup_union_Some_l|]. by rewrite lookup_insert_ne in Hk2.
Qed.

Lemma split_delete h L F l e : split h L F -> L !! l = Some e -> split (set_store (delete l (store h)) h) (delete l L) F.
Proof.
  intros Hs E. pose proof (split_frame _ _ _ _ _ Hs E) as HF. destruct Hs as (Hs & Hd & Hn). split_and!; simpl.
  - by rewrite Hs, delete_union, (delete_id F).
  - by apply map_disjoint_delete_l.
  - intros k [x Hk]. apply lookup_delete_Some in Hk as [_ Hk]. by apply Hn.
Qed.

Lemma split_new h L F e : split h L F -> L !! next h = None /\ split {| store := <[next h := e]> (store h); next := next h + 1 |} (<[next h := e]> L) F.
Proof.
  intros (Hs & Hd & Hn). assert (E : store h !! next h = None).
  { destruct (store h !! next h) eqn:E; [|done]. specialize (Hn (next h) ltac:(by rewrite E)). lia. }
  rewrite Hs in E. apply lookup_union_None in E as [EL EF]. split; [done|]. split_and!; simpl.
  - by rewrite Hs, insert_union_l.
  - by apply map_disjoint_insert_l.
  - intros k Hk. destruct (decide (next h = k)) as [->|Hne]; [lia|]. rewrite lookup_insert_ne in Hk by done. apply Hn in Hk. lia.
Qed.

(** A content is set aside, and comes back changed. *)
Lemma split_open h L F l e : split h L F -> L !! l = Some e -> split h (delete l L) (<[l := e]> F).
Proof.
  intros Hs E. pose proof (split_frame _ _ _ _ _ Hs E) as HF. destruct Hs as (Hs & Hd & Hn). split_and!; [|..|done].
  - rewrite Hs, <- insert_union_r by apply lookup_delete_eq. by rewrite insert_union_l, insert_delete_id.
  - apply map_disjoint_insert_r. split; [apply lookup_delete_eq|by apply map_disjoint_delete_l].
Qed.

Lemma split_close h L F l e e' : split h L (<[l := e]> F) -> F !! l = None ->
  store h !! l = Some e /\ L !! l = None /\ split (set_store (<[l := e']> (store h)) h) (<[l := e']> L) F.
Proof.
  intros (Hs & Hd & Hn) HF. apply map_disjoint_insert_r in Hd as [HL Hd].
  assert (E : store h !! l = Some e) by (rewrite Hs, lookup_union_r by done; by rewrite lookup_insert_eq).
  split_and!; [done..|]. split_and!; simpl.
  - rewrite Hs, insert_union_r by done. rewrite insert_insert_eq, <- insert_union_r by done. by rewrite insert_union_l.
  - by apply map_disjoint_insert_l.
  - intros k Hk. apply Hn. destruct (decide (l = k)) as [->|]; [by rewrite E|]. by rewrite lookup_insert_ne in Hk.
Qed.

(** ** Counting *)

Lemma get_ok h L F l e : split h L F -> L !! l = Some e -> get l h = (Ok e, h).
Proof. intros Hs E. unfold get. by rewrite (split_lookup _ _ _ _ _ Hs E). Qed.

Lemma live_lookup L R l : inv L R -> l ∈ R -> exists n c, L !! l = Some (n, c) /\ 0 < n.
Proof.
  intros Hi Hl. destruct (inv_live _ _ Hi l) as [[n c] E]; [apply elem_of_app; by left|]. exists n, c. split; [done|]. by eapply inv_count.
Qed.

Lemma attach_live h L F R l n c : split h L F -> inv L R -> L !! l = Some (n, c) ->
  exists h' L', attach l h = (Ok tt, h') /\ split h' L' F /\ inv L' (l :: R) /\ cells L' = cells L /\ (forall k, k <> l -> L' !! k = L !! k).
Proof.
  intros Hs Hi E. eexists _, (<[l := (n + 1, c)]> L).
  unfold attach. rewrite (M_bind_Ok _ _ _ _ _ (get_ok _ _ _ _ _ Hs E)). unfold put, modifyM. split; [done|]. split; [by eapply split_put|].
  split; [by apply inv_attach|]. split; [by eapply cells_recount|]. intros k Hk. by apply lookup_insert_ne.
Qed.

Lemma attach_spec h L F R l : split h L F -> inv L R -> l ∈ R ->
  exists h' L', attach l h = (Ok tt, h') /\ split h' L' F /\ inv L' (l :: R) /\ cells L' = cells L /\ (forall k, k <> l -> L' !! k = L !! k).
Proof. intros Hs Hi Hl. destruct (live_lookup _ _ _ Hi Hl) as (n & c & E & _). by eapply attach_live. Qed.

(** The values of the references that are still held are kept. *)
Definition keeps L L' R : Prop := forall l v, l ∈ R -> den (cells L) l v -> den (cells L') l v.

Lemma keeps_trans L1 L2 L3 R : keeps L1 L2 R -> keeps L2 L3 R -> keeps L1 L3 R.
Proof. intros H1 H2 l v Hl Hd. by apply H2, H1. Qed.
Lemma keeps_cells L L' R : cells L' = cells L -> keeps L L' R.
Proof. intros E l v _ Hd. by rewrite E. Qed.
Lemma keeps_weaken L L' R R' : keeps L L' R -> (forall l, l ∈ R' -> l ∈ R) -> keeps L L' R'.
Proof. intros H Hin l v Hl. by apply H, Hin. Qed.
Lemma keeps_mono L L' R : cells L ⊆ cells L' -> keeps L L' R.
Proof. intros H l v _. by apply den_mono. Qed.

Lemma vheight_child sh es n : (vheight (V sh es) <= S n)%nat <-> Forall (fun w => (vheight w.2 <= n)%nat) es.
Proof.
  simpl. induction es as [|w es IH]; simpl; [split; [constructor|lia]|]. change (list_fmap _ _ ?f es) with (f <$> es). rewrite Forall_cons, <- IH. lia.
Qed.

(** The values of several references. *)
Definition dens L (xs : list Z) (ws : list value) : Prop := Forall2 (den (cells L)) xs ws.

Lemma dens_keeps L L' R xs ws : keeps L L' R -> (forall x, x ∈ xs -> x ∈ R) -> dens L xs ws -> dens L' xs ws.
Proof.
  intros Hk Hin HF. induction HF as [|x w xs ws Hd _ IH]; constructor.
  - apply Hk; [apply Hin; by left|done].
  - apply IH. intros y Hy. apply Hin. by right.
Qed.

Lemma den_children L l sh vs : den (cells L) l (V sh vs) <->
  exists es, cells L !! l = Some (Cell sh es) /\ es.*1 = vs.*1 /\ dens L es.*2 vs.*2.
Proof.
  split.
  - intros (es & E & HF)%den_inv. exists es. split; [done|]. clear E. induction HF as [|e w es vs [H1 H2] _ [IH1 IH2]]; [split; [done|exact (List.Forall2_nil _)]|]. simpl.
    split; [by f_equal|by constructor].
  - intros (es & E & H1 & H2). econstructor; [exact E|]. clear E. revert vs H1 H2. induction es as [|e es IH]; intros [|w vs] H1 H2; simpl in *; try done.
    inversion H2; subst. injection H1 as ??. constructor; [done|]. by apply IH.
Qed.

Lemma heap_cells_lookup L l n c : L !! l = Some (n, c) -> cells L !! l = Some c.
Proof. intros E. unfold cells. by rewrite lookup_fmap, E. Qed.

(** What [detach] has to achieve with some fuel. *)
Definition detaches (fuel : nat) : Prop := forall h L F R l v, split h L F -> inv L (l :: R) -> den (cells L) l v -> (vheight v <= fuel)%nat ->
  exists h' L', detach fuel l h = (Ok tt, h') /\ split h' L' F /\ inv L' R /\ keeps L L' R /\ cells L' ⊆ cells L.

Lemma detach_all fuel xs : detaches fuel -> forall ws h L F R, split h L F -> inv L (xs ++ R) -> dens L xs ws -> Forall (fun w => (vheight w <= fuel)%nat) ws ->
  exists h' L', (fix go ls := match ls with [] => mret tt | x :: ls => detach fuel x ;; go ls end) xs h = (Ok tt, h') /\ split h' L' F /\ inv L' R /\ keeps L L' R /\ cells L' ⊆ cells L.
Proof.
  intros Hdet. induction xs as [|x xs IH]; intros ws h L F R Hs Hi HF Hh.
  - exists h, L. split_and!; [done..| |done]. by intros ??.
  - inversion HF as [|? w ? ws' Hd HF']; subst. apply Forall_cons in Hh as [Hh1 Hh].
    destruct (Hdet h L F (xs ++ R) x w Hs Hi Hd Hh1) as (h1 & L1 & E1 & Hs1 & Hi1 & Hk1 & Hsub1).
    destruct (IH ws' h1 L1 F R Hs1 Hi1) as (h2 & L2 & E2 & Hs2 & Hi2 & Hk2 & Hsub2); [|done|].
    { eapply dens_keeps; [exact Hk1| |done]. intros y Hy. apply elem_of_app. by left. }
    exists h2, L2. split; [by rewrite (M_bind_Ok _ _ _ _ _ E1)|]. split_and!; [done..| |by etransitivity]. eapply keeps_trans; [|exact Hk2].
    eapply keeps_weaken; [exact Hk1|]. intros y Hy. apply elem_of_app. by right.
Qed.

(** A content that is referred to once is taken out: its elements keep their values. *)
Lemma open_keeps L R l sh es vs : inv L (l :: R) -> L !! l = Some (1, Cell sh es) -> den (cells L) l (V sh vs) ->
  inv (delete l L) (es.*2 ++ R) /\ keeps L (delete l L) (es.*2 ++ R) /\ es.*1 = vs.*1 /\ dens (delete l L) es.*2 vs.*2.
Proof.
  intros Hi E Hd. destruct (inv_open _ _ _ _ Hi E) as (Hi' & HR & HL). pose proof (heap_cells_lookup _ _ _ _ E) as Ec.
  apply den_children in Hd as (es' & Ec' & H1 & H2). rewrite Ec in Ec'. injection Ec' as <-.
  assert (Hk : keeps L (delete l L) (es.*2 ++ R)).
  { intros k w Hk Hd. apply den_delete; [done| |done]. intros ->. apply elem_of_app in Hk as [Hk|Hk]; [|done]. by eapply (not_in_contents L l). }
  split_and!; [done..|]. eapply dens_keeps; [exact Hk| |done]. intros x Hx. apply elem_of_app. by left.
Qed.

Lemma detach_spec fuel : detaches fuel.
Proof.
  induction fuel as [|fuel IH]; intros h L F R l v Hs Hi Hd Hf; [destruct v; simpl in Hf; lia|].
  destruct (live_lookup _ _ l Hi ltac:(by left)) as (n & [sh es] & E & Hn). cbn [detach]. rewrite (M_bind_Ok _ _ _ _ _ (get_ok _ _ _ _ _ Hs E)). cbn [fst snd].
  destruct (Z.eqb_spec (n - 1) 0) as [E1|E1].
  - assert (n = 1) as -> by lia. rewrite M_bind_modify. destruct v as [sh' vs].
    assert (sh' = sh) as -> by (apply den_inv in Hd as (? & Ec & _); rewrite (heap_cells_lookup _ _ _ _ E) in Ec; congruence).
    destruct (open_keeps _ _ _ _ _ _ Hi E Hd) as (Hi' & Hk & _ & Hcs). apply vheight_child in Hf.
    destruct (detach_all fuel es.*2 IH vs.*2 _ (delete l L) F R (split_delete _ _ _ _ _ Hs E) Hi' Hcs) as (h' & L' & E' & Hs2 & Hi2 & Hk2 & Hsub); [by apply Forall_fmap|].
    exists h', L'. split_and!; [done..| |etransitivity; [exact Hsub|unfold cells; rewrite fmap_delete; apply delete_subseteq]].
    eapply keeps_trans; [|exact Hk2]. eapply keeps_weaken; [exact Hk|]. intros y Hy. apply elem_of_app. by right.
  - eexists _, (<[l := (n - 1, Cell sh es)]> L). unfold put, modifyM. split; [done|]. split; [by eapply split_put|].
    split; [by apply inv_detach; [| |lia]|]. assert (Ec : cells (<[l := (n - 1, Cell sh es)]> L) = cells L) by (by eapply cells_recount).
    split; [by apply keeps_cells|by rewrite Ec].
Qed.

(** A new content takes the references of its elements. *)
Lemma new_spec h L F R sh es vs : split h L F -> inv L (es.*2 ++ R) -> es.*1 = vs.*1 -> dens L es.*2 vs.*2 ->
  exists l h0 h' L', new_content (Cell sh es) h = (Ok l, h0) /\ attach l h0 = (Ok tt, h') /\ split h' L' F /\ inv L' (l :: R) /\
    L' !! l = Some (1, Cell sh es) /\ cells L ⊆ cells L' /\ den (cells L') l (V sh vs).
Proof.
  intros Hs Hi H1 H2. destruct (split_new h L F (0, Cell sh es) Hs) as [E Hs1]. exists (next h).
  set (h1 := {| store := <[next h := (0, Cell sh es)]> (store h); next := next h + 1 |}) in *.
  assert (En : new_content (Cell sh es) h = (Ok (next h), h1)) by done.
  assert (Eg : attach (next h) h1 = (Ok tt, set_store (<[next h := (1, Cell sh es)]> (store h1)) h1)).
  { unfold attach. rewrite (M_bind_Ok _ _ _ _ _ (get_ok _ _ _ _ _ Hs1 (lookup_insert_eq _ _ _))). done. }
  pose proof (split_put h1 _ F (next h) (0, Cell sh es) (1, Cell sh es) Hs1 (lookup_insert_eq _ _ _)) as Hs2. rewrite insert_insert_eq in Hs2.
  eexists _, _, (<[next h := (1, Cell sh es)]> L). split; [exact En|]. split; [exact Eg|]. split; [exact Hs2|]. split; [by apply inv_close|].
  split; [apply lookup_insert_eq|]. split; [by apply cells_insert_subseteq|]. apply den_children. exists es.
  split; [by rewrite (heap_cells_lookup _ _ 1 (Cell sh es)) by apply lookup_insert_eq|]. split; [done|].
  eapply dens_keeps; [by apply keeps_mono, cells_insert_subseteq| |done]. intros x Hx. exact Hx.
Qed.

(** What [clone], followed by [attach], has to achieve with some fuel. *)
Definition clones (fuel : nat) : Prop := forall h L F R l v, split h L F -> inv L R -> den (cells L) l v -> (vheight v <= fuel)%nat ->
  exists l' h0 h' L' c, clone fuel l h = (Ok l', h0) /\ attach l' h0 = (Ok tt, h') /\ split h' L' F /\ inv L' (l' :: R) /\
    L' !! l' = Some (1, c) /\ cells L ⊆ cells L' /\ den (cells L') l' v.

Lemma dens_mono L L' xs ws : cells L ⊆ cells L' -> dens L xs ws -> dens L' xs ws.
Proof. intros Hsub. apply (dens_keeps L L' xs); [by apply keeps_mono|done]. Qed.

Lemma clone_all fuel (es : list (key * Z)) : clones fuel -> forall ws h L F R, split h L F -> inv L R -> dens L es.*2 ws -> Forall (fun w => (vheight w <= fuel)%nat) ws ->
  exists es' h' L', (fix go (es : list (key * Z)) : M heap (list (key * Z)) :=
              match es with
              | [] => mret []
              | (k, x) :: es => x' ← clone fuel x; attach x' ;; rest ← go es; mret ((k, x') :: rest)
              end) es h = (Ok es', h') /\ split h' L' F /\ inv L' (es'.*2 ++ R) /\ es'.*1 = es.*1 /\ dens L' es'.*2 ws /\ cells L ⊆ cells L'.
Proof.
  intros Hcl. induction es as [|[k x] es IH]; intros ws h L F R Hs Hi HF Hh.
  - exists [], h, L. inversion HF; subst. by split_and!.
  - simpl in HF. inversion HF as [|? w ? ws' Hd HF']; subst. apply Forall_cons in Hh as [Hh1 Hh].
    destruct (Hcl h L F R x w Hs Hi Hd Hh1) as (x' & h0 & h1 & L1 & c & E0 & E1 & Hs1 & Hi1 & _ & Hsub1 & Hd1).
    destruct (IH ws' h1 L1 F (x' :: R) Hs1 Hi1) as (es' & h2 & L2 & E2 & Hs2 & Hi2 & Hk & HF2 & Hsub2); [by eapply dens_mono|done|].
    exists ((k, x') :: es'), h2, L2. split; [by rewrite (M_bind_Ok _ _ _ _ _ E0), (M_bind_Ok _ _ _ _ _ E1), (M_bind_Ok _ _ _ _ _ E2)|].
    split; [done|]. split; [simpl; eapply inv_perm; [|exact Hi2]; by rewrite Permutation_middle|]. split; [simpl; by f_equal|].
    split; [constructor; [by eapply den_mono|done]|]. by etransitivity.
Qed.

Lemma clone_spec fuel : clones fuel.
Proof.
  induction fuel as [|fuel IH]; intros h L F R l v Hs Hi Hd Hf; [destruct v; simpl in Hf; lia|]. destruct v as [sh vs].
  apply den_children in Hd as (es & Ec & H1 & H2). unfold cells in Ec. rewrite lookup_fmap in Ec. destruct (L !! l) as [[n c]|] eqn:E; [|done].
  injection Ec as ->. apply vheight_child in Hf. cbn [clone]. rewrite (M_bind_Ok _ _ _ _ _ (get_ok _ _ _ _ _ Hs E)). cbn [fst snd entries shape_].
  destruct (clone_all fuel es IH vs.*2 h L F R Hs Hi H2) as (es' & h1 & L1 & E1 & Hs1 & Hi1 & Hk & HF1 & Hsub1); [by apply Forall_fmap|].
  rewrite (M_bind_Ok _ _ _ _ _ E1). rewrite H1 in Hk. destruct (new_spec h1 L1 F R sh es' vs Hs1 Hi1 Hk HF1) as (l' & h2 & h3 & L2 & E2 & E3 & Hs3 & Hi3 & El & Hsub2 & Hd).
  exists l', h2, h3, L2, (Cell sh es'). split_and!; try done. by etransitivity.
Qed.

Lemma elem_of_contents L x : x ∈ contents L <-> exists l c, cells L !! l = Some c /\ x ∈ children c.
Proof.
  unfold contents, cells. rewrite list_elem_of_bind. split.
  - intros ([l [n c]] & Hx & He%elem_of_map_to_list). exists l, c. by rewrite lookup_fmap, He.
  - intros (l & c & Hl & Hx). rewrite lookup_fmap in Hl. destruct (L !! l) as [[n d]|] eqn:E; [|done]. injection Hl as ->.
    exists (l, (n, c)). split; [done|]. by apply elem_of_map_to_list.
Qed.

Lemma contents_subseteq L L' x : cells L' ⊆ cells L -> x ∈ contents L' -> x ∈ contents L.
Proof. rewrite !elem_of_contents. intros Hsub (l & c & Hl & Hx). exists l, c. split; [by eapply lookup_weaken|done]. Qed.

Lemma count_one L L' R R' l c : inv L (l :: R) -> L !! l = Some (1, c) -> inv L' (l :: R') -> cells L' ⊆ cells L -> (forall y, y ∈ R' -> y ∈ R) -> exists c', L' !! l = Some (1, c').
Proof.
  intros Hi E Hi' Hsub HR. destruct (inv_open _ _ _ _ Hi E) as (_ & H1 & H2). destruct (live_lookup _ _ l Hi' ltac:(by left)) as (n & c' & E' & _).
  exists c'. rewrite E'. destruct (inv_count _ _ Hi' l n c' E') as [-> _]. simpl. rewrite occ_cons, decide_True, occ_zero by first [done|
    rewrite elem_of_app; intros [Hy|Hy]; [by apply H1, HR|by apply H2, (contents_subseteq L L')]]. done.
Qed.

(** [update]: the content is not shared, and the values are the same. *)
Lemma update_spec fuel h L F R l v : split h L F -> inv L (l :: R) -> den (cells L) l v -> (vheight v <= fuel)%nat ->
  exists l' h' L' c, update fuel (h, l) = (Ok tt, (h', l')) /\ split h' L' F /\ inv L' (l' :: R) /\ L' !! l' = Some (1, c) /\ den (cells L') l' v /\ keeps L L' R.
Proof.
  intros Hs Hi Hd Hf. destruct (live_lookup _ _ l Hi ltac:(by left)) as (n & c & E & Hn). unfold update. cbn [fst snd].
  rewrite (M_bind_Ok _ _ _ _ _ (get_ok _ _ _ _ _ Hs E)). cbn [fst]. destruct (Z.ltb_spec 1 n) as [H1|H1].
  - destruct (clone_spec fuel h L F (l :: R) l v Hs Hi Hd Hf) as (l' & h0 & h1 & L1 & c1 & E0 & E1 & Hs1 & Hi1 & El & Hsub & Hd1).
    assert (Hi1' : inv L1 (l :: l' :: R)) by (eapply inv_perm; [apply perm_swap|exact Hi1]).
    destruct (detach_spec fuel h1 L1 F (l' :: R) l v Hs1 Hi1' (den_mono _ _ _ _ Hsub Hd) Hf) as (h2 & L2 & E2 & Hs2 & Hi2 & Hk2 & Hsub2).
    rewrite (M_bind_Ok _ _ _ _ _ E0), (M_bind_Ok _ _ _ _ _ E1), (M_bind_Ok _ _ _ _ _ E2). cbn [mret M_ret].
    destruct (count_one L1 L2 (l :: R) R l' c1 Hi1 El Hi2 Hsub2) as [c2 El2]; [intros y Hy; by right|]. exists l', h2, L2, c2. split_and!; try done.
    + apply Hk2; [by left|done].
    + eapply keeps_trans; [by apply keeps_mono|]. eapply keeps_weaken; [exact Hk2|]. intros y Hy. by right.
  - assert (n = 1) as -> by lia. exists l, h, L, c. split_and!; try done. by intros ??.
Qed.

(** ** Assignment *)

Lemma assign_spec fuel h L F R l v y : split h L F -> inv L (l :: R) -> y ∈ l :: R -> den (cells L) l v -> (vheight v <= fuel)%nat ->
  exists h' L', assign fuel y (h, l) = (Ok tt, (h', y)) /\ split h' L' F /\ inv L' (y :: R) /\ keeps L L' (y :: R).
Proof.
  intros Hs Hi Hy Hd Hf. destruct (attach_spec _ _ _ _ _ Hs Hi Hy) as (h1 & L1 & E1 & Hs1 & Hi1 & Ec & _).
  assert (Hi1' : inv L1 (l :: y :: R)) by (eapply inv_perm; [apply perm_swap|exact Hi1]). rewrite <- Ec in Hd.
  destruct (detach_spec fuel h1 L1 F (y :: R) l v Hs1 Hi1' Hd Hf) as (h2 & L2 & E2 & Hs2 & Hi2 & Hk & _). exists h2, L2.
  split; [unfold assign; cbn [fst snd]; by rewrite (M_bind_Ok _ _ _ _ _ E1), E2|]. split_and!; [done..|]. eapply keeps_trans; [by apply keeps_cells|done].
Qed.

(** The only reference to a content changes its elements. *)
Lemma rewrite_cell h L F R0 R1 l sh es es' vs' : split h L F -> inv L (l :: R0) -> L !! l = Some (1, Cell sh es) -> es.*2 ++ R0 ≡ₚ es'.*2 ++ R1 ->
  es'.*1 = vs'.*1 -> dens L es'.*2 vs'.*2 ->
  exists L', put l (1, Cell sh es') h = (Ok tt, set_store (<[l := (1, Cell sh es')]> (store h)) h) /\ split (set_store (<[l := (1, Cell sh es')]> (store h)) h) L' F /\ inv L' (l :: R1) /\ L' !! l = Some (1, Cell sh es') /\ den (cells L') l (V sh vs') /\ keeps L L' R0.
Proof.
  intros Hs Hi E Hp Hk HF. destruct (inv_open _ _ _ _ Hi E) as (Hi' & HR & HL). exists (<[l := (1, Cell sh es')]> L). split; [done|].
  split; [by eapply split_put|]. unfold children in Hi'. simpl in Hi'.
  assert (Hin : inv (<[l := (1, Cell sh es')]> L) (l :: R1)).
  { rewrite <- insert_delete_eq. apply inv_close; [|apply lookup_delete_eq]. by eapply inv_perm. }
  assert (Hfr : forall k w, k <> l -> den (cells L) k w -> den (cells (<[l := (1, Cell sh es')]> L)) k w).
  { intros k w Hk' Hd. eapply (den_frame _ _ _ _ l); [exact Hd|done| |].
    - intros j c Hj. by eapply not_in_contents.
    - intros j Hj. unfold cells. by rewrite !lookup_fmap, lookup_insert_ne. }
  split; [done|]. split; [apply lookup_insert_eq|]. split.
  - apply den_children. exists es'. split; [unfold cells; by rewrite lookup_fmap, lookup_insert_eq|]. split; [done|].
    apply (dens_keeps L _ es'.*2); [|done|done]. intros k w Hk' Hd. apply Hfr; [|done]. intros ->.
    assert (Hll : l ∈ es.*2 ++ R0) by (rewrite Hp; apply elem_of_app; by left). apply elem_of_app in Hll as [Hll|Hll]; [|done].
    apply HL, elem_of_contents. exists l, (Cell sh es). split; [by eapply heap_cells_lookup|done].
  - intros k w Hk' Hd. apply Hfr; [|done]. by intros ->.
Qed.

(** ** Elements *)

Section Keys.
Context {A B : Type}.
Implicit Types (es : list (key * A)) (vs : list (key * B)).

Lemma comparable_keys k es vs : es.*1 = vs.*1 -> comparable k es = comparable k vs.
Proof.
  unfold comparable. revert vs. induction es as [|e es IH]; intros [|w vs] E; simpl in *; try done. injection E as H1 H2. rewrite H1. f_equal. by apply IH.
Qed.
Lemma find_key_keys k es : forall vs, es.*1 = vs.*1 -> find_key k es = find_key k vs.
Proof.
  induction es as [|e es IH]; intros [|w vs] E; simpl in *; try done. injection E as H1 H2. rewrite H1. case_decide; [done|]. f_equal. by apply IH.
Qed.
Lemma map_position_keys k es : forall vs, es.*1 = vs.*1 -> map_position k es = map_position k vs.
Proof.
  unfold map_position. induction es as [|e es IH]; intros [|w vs] E; simpl in *; try done. injection E as H1 H2. rewrite !filter_cons, H1. specialize (IH vs H2).
  case_decide; simpl; by rewrite IH.
Qed.
Lemma zlen_keys es vs : es.*1 = vs.*1 -> zlen es = zlen vs.
Proof. intros E. unfold zlen. f_equal. rewrite <- (length_fmap fst es), E. by rewrite length_fmap. Qed.
Lemma find_key_bound k es i : find_key k es = Some i -> (i < length es)%nat.
Proof.
  revert i. induction es as [|e es IH]; intros i E; simpl in *; [done|]. case_decide; [injection E as <-; lia|].
  destruct (find_key k es) as [j|]; [|done]. injection E as <-. specialize (IH j eq_refl). lia.
Qed.

(** [element] finds or makes the same place in contents with the same keys. *)
Lemma element_of_keys sh k a b es vs : es.*1 = vs.*1 ->
  match element_of sh k a es, element_of sh k b vs with
  | Ok (i, None), Ok (j, None) => i = j /\ (i < length es)%nat
  | Ok (i, Some es'), Ok (j, Some vs') => i = j /\ (i <= length es)%nat /\ es' = insert_entry i (k, a) es /\ vs' = insert_entry i (k, b) vs
  | Throw e, Throw e' => e = e'
  | _, _ => False
  end.
Proof.
  intros E. pose proof (zlen_keys _ _ E) as Hz. unfold element_of. rewrite (comparable_keys k _ _ E), (find_key_keys k _ _ E), (map_position_keys k _ _ E), Hz. destruct sh as [at'| | |].
  - done.
  - destruct ((0 <=? list_index k) && (list_index k <? zlen vs)) eqn:Eb; [|done]. apply andb_prop in Eb as [H1%Z.leb_le H2%Z.ltb_lt]. split; [done|]. unfold zlen in *. lia.
  - destruct (comparable k vs); [|done]. destruct (find_key k vs) as [i|] eqn:Ef; [split; [done|]|].
    + rewrite <- (find_key_keys k _ _ E) in Ef. by apply find_key_bound in Ef.
    + split_and!; try done. rewrite <- (map_position_keys k _ _ E). unfold map_position. apply length_filter.
  - destruct (comparable k vs); [|done]. destruct (find_key k vs) as [i|] eqn:Ef; [split; [done|]|].
    + rewrite <- (find_key_keys k _ _ E) in Ef. by apply find_key_bound in Ef.
    + assert (length es = length vs) as -> by (unfold zlen in Hz; lia). by split_and!.
Qed.
End Keys.

Lemma insert_entry_perm {A} i (e : key * A) es : insert_entry i e es ≡ₚ e :: es.
Proof. unfold insert_entry. rewrite <- Permutation_middle. by rewrite take_drop. Qed.
Lemma insert_entry_keys {A B} i k (a : A) (b : B) es vs : es.*1 = vs.*1 -> (insert_entry i (k, a) es).*1 = (insert_entry i (k, b) vs).*1.
Proof. intros E. unfold insert_entry. rewrite !fmap_app. simpl. by rewrite !fmap_take, !fmap_drop, E. Qed.
Lemma insert_entry_dens L i k x w es vs : den (cells L) x w -> dens L es.*2 vs.*2 -> dens L (insert_entry i (k, x) es).*2 (insert_entry i (k, w) vs).*2.
Proof.
  intros Hx HF. unfold insert_entry, dens. rewrite !fmap_app. simpl. rewrite !fmap_take, !fmap_drop.
  apply Forall2_app; [by apply Forall2_take|]. constructor; [done|by apply Forall2_drop].
Qed.

(** The elements of a content that belongs to one reference. *)
Definition owned L F R (h : heap) l sh es vs : Prop :=
  split h L F /\ inv L (l :: R) /\ L !! l = Some (1, Cell sh es) /\ es.*1 = vs.*1 /\ dens L es.*2 vs.*2.

Lemma owned_den L F R h l sh es vs : owned L F R h l sh es vs -> den (cells L) l (V sh vs).
Proof. intros (_ & _ & E & H1 & H2). apply den_children. exists es. split_and!; [by eapply heap_cells_lookup|done|done]. Qed.
Lemma owned_intro L F R h l c v : split h L F -> inv L (l :: R) -> L !! l = Some (1, c) -> den (cells L) l v -> exists es, owned L F R h l (vshape v) es (ventries v).
Proof.
  intros Hs Hi E Hd. destruct v as [sh vs]. apply den_children in Hd as (es & Ec & H1 & H2). exists es.
  rewrite (heap_cells_lookup _ _ _ _ E) in Ec. injection Ec as ->. by split_and!.
Qed.

Lemma element_spec h L F R l sh es vs k : owned L F R h l sh es vs -> nil ∈ R -> den (cells L) nil vnil ->
  match element_of sh k vnil vs with
  | Ok (i, vs') => exists h' L' es', element l k h = (Ok i, h') /\ owned L' F R h' l sh es' (default vs vs') /\ keeps L L' R /\ (i < length es')%nat
  | Throw e => element l k h = (Throw e, h)
  | _ => False
  end.
Proof.
  intros (Hs & Hi & E & Hk & HF) Hnil Hdn. pose proof (element_of_keys sh k nil vnil es vs Hk) as Hel. unfold element.
  rewrite (M_bind_Ok _ _ _ _ _ (get_ok _ _ _ _ _ Hs E)). cbn [fst snd shape_ entries].
  destruct (element_of sh k nil es) as [[i [es'|]]|e| |], (element_of sh k vnil vs) as [[j [vs'|]]|e'| |]; try done.
  - destruct Hel as (<- & Hle & -> & ->). simpl default. destruct (attach_spec h L F (l :: R) nil Hs Hi) as (h1 & L1 & E1 & Hs1 & Hi1 & Ec & Eo); [by right|].
    assert (Hi1' : inv L1 (l :: nil :: R)) by (eapply inv_perm; [apply perm_swap|exact Hi1]).
    destruct (inv_open _ _ _ _ Hi E) as (_ & HR & _). assert (Hne : l <> nil) by (intros ->; done).
    assert (E1' : L1 !! l = Some (1, Cell sh es)) by (by rewrite Eo).
    destruct (rewrite_cell h1 L1 F (nil :: R) R l sh es (insert_entry i (k, nil) es) (insert_entry i (k, vnil) vs) Hs1 Hi1' E1') as (L2 & E2 & Hs2 & Hi2 & El2 & Hd2 & Hk2).
    + rewrite insert_entry_perm. simpl. by rewrite Permutation_middle.
    + by apply insert_entry_keys.
    + apply insert_entry_dens; [by rewrite Ec|]. eapply (dens_keeps L L1 es.*2); [by apply keeps_cells|done|done].
    + eexists _, L2, _. split.
      * rewrite M_bind_lift. rewrite (M_bind_Ok _ _ _ _ _ E1), (M_bind_Ok _ _ _ _ _ (get_ok _ _ _ _ _ Hs1 E1')). cbn [fst snd shape_]. by rewrite (M_bind_Ok _ _ _ _ _ E2).
      * split; [split_and!; try done; [by apply insert_entry_keys|]|].
        -- apply den_children in Hd2 as (es2 & Ec2 & _ & HF2). rewrite (heap_cells_lookup _ _ _ _ El2) in Ec2. injection Ec2 as <-. done.
        -- split; [|unfold insert_entry; rewrite length_app, length_take; simpl; lia]. eapply keeps_trans; [by apply keeps_cells|]. eapply keeps_weaken; [exact Hk2|]. intros y Hy. by right.
  - destruct Hel as [<- Hlt]. exists h, L, es. rewrite M_bind_lift. split_and!; try done. by intros ??.
  - subst. done.
Qed.

(** ** Assignment through a path *)

Lemma set_entry_keys {A} i (a : A) es : (set_entry i a es).*1 = es.*1.
Proof. unfold set_entry. revert i. induction es as [|e es IH]; intros [|i]; simpl; [done..|]. f_equal. apply IH. Qed.
Lemma set_entry_values {A} i (a : A) es : (set_entry i a es).*2 = <[i := a]> es.*2.
Proof. unfold set_entry. revert i. induction es as [|e es IH]; intros [|i]; simpl; [done..|]. f_equal. apply IH. Qed.
Lemma insert_delete_perm {A} i (x y : A) xs : xs !! i = Some x -> <[i := y]> xs ≡ₚ y :: delete i xs.
Proof.
  intros E. rewrite <- (take_drop_middle _ _ _ E) at 1. pose proof (lookup_lt_Some _ _ _ E).
  rewrite insert_app_r_alt by (rewrite length_take; lia). rewrite length_take. replace (i - Nat.min i (length xs))%nat with 0%nat by lia. simpl.
  rewrite <- Permutation_middle. by rewrite delete_take_drop.
Qed.
Lemma lookup_delete_perm {A} i (x : A) xs : xs !! i = Some x -> xs ≡ₚ x :: delete i xs.
Proof. intros E. rewrite <- (insert_delete_perm i x x xs E). by rewrite list_insert_id. Qed.

Lemma dens_delete L i xs ws : dens L xs ws -> dens L (delete i xs) (delete i ws).
Proof. intros HF. unfold dens. rewrite !delete_take_drop. apply Forall2_app; [by apply Forall2_take|by apply Forall2_drop]. Qed.
Lemma dens_restore L i x w xs ws : dens L (delete i xs) (delete i ws) -> length xs = length ws -> den (cells L) x w -> dens L (<[i := x]> xs) (<[i := w]> ws).
Proof.
  unfold dens. revert i ws. induction xs as [|y xs IH]; intros i [|z ws] HF Hl Hd; simpl in *; try done.
  destruct i as [|i]; simpl in *; [by constructor|]. inversion HF; subst. constructor; [done|]. apply IH; [done|lia|done].
Qed.

(** What a change of an element has to achieve. *)
Definition changes (m : M (heap * Z) unit) (pm : M value unit) (fuel : nat) (y : Z) (w : value) : Prop := forall h L F R l v,
  split h L F -> inv L (l :: R) -> y ∈ R -> nil ∈ R -> den (cells L) l v -> den (cells L) y w -> den (cells L) nil vnil -> (vheight v <= fuel)%nat ->
  exists o v' h' l' L', pm v = (o, v') /\ m (h, l) = (o, (h', l')) /\ split h' L' F /\ inv L' (l' :: R) /\ den (cells L') l' v' /\ keeps L L' R.

Lemma in_element_spec m pm fuel y w h L F R l sh es vs i x : changes m pm fuel y w -> owned L F R h l sh es vs -> vs !! i = Some x -> (vheight x.2 <= fuel)%nat ->
  y ∈ R -> nil ∈ R -> den (cells L) y w -> den (cells L) nil vnil ->
  exists o x' h' L' es', pm x.2 = (o, x') /\ in_element l i m h = (o, h') /\ owned L' F R h' l sh es' (set_entry i x' vs) /\ keeps L L' R.
Proof.
  intros Hm Ho Ex Hh Hy Hnil Hdy Hdn. pose proof (owned_den _ _ _ _ _ _ _ _ Ho) as Hd. destruct Ho as (Hs & Hi & E & Hk & HF).
  destruct (inv_open _ _ _ _ Hi E) as (_ & HR & HL). destruct (open_keeps _ _ _ _ _ _ Hi E Hd) as (Hi' & Hkp & _ & HF').
  assert (Hlen : length es = length vs) by (rewrite <- (length_fmap fst es), Hk; by rewrite length_fmap).
  destruct (lookup_lt_is_Some_2 es i) as [[k a] Ea]; [rewrite Hlen; by eapply lookup_lt_Some|].
  assert (Ea2 : es.*2 !! i = Some a) by (by rewrite list_lookup_fmap, Ea). assert (Ex2 : vs.*2 !! i = Some x.2) by (by rewrite list_lookup_fmap, Ex).
  pose proof (lookup_delete_perm _ _ _ Ea2) as Hp. set (rest := delete i es.*2) in *.
  assert (Hi2 : inv (delete l L) (a :: rest ++ R)) by (eapply inv_perm; [|exact Hi']; by rewrite Hp).
  pose proof (split_open _ _ _ _ _ Hs E) as Hs2. pose proof (split_frame _ _ _ _ _ Hs E) as HFl.
  assert (Hda : den (cells (delete l L)) a x.2) by (by eapply (Forall2_lookup_lr _ _ _ _ _ _ HF')).
  assert (HkR : keeps L (delete l L) R) by (eapply keeps_weaken; [exact Hkp|]; intros z Hz; apply elem_of_app; by right).
  destruct (Hm h (delete l L) (<[l := (1, Cell sh es)]> F) (rest ++ R) a x.2 Hs2 Hi2) as (o & x' & h3 & a' & L3 & Ep & Em & Hs3 & Hi3 & Hd3 & Hk3); try done; try (apply elem_of_app; by right); try (by apply HkR).
  destruct (split_close h3 L3 F l (1, Cell sh es) (1, Cell sh (set_entry i a' es)) Hs3 HFl) as (E3 & EL3 & Hs4).
  exists o, x', (set_store (<[l := (1, Cell sh (set_entry i a' es))]> (store h3)) h3), (<[l := (1, Cell sh (set_entry i a' es))]> L3), (set_entry i a' es). split; [done|].
  split; [unfold in_element; rewrite (split_lookup _ _ _ _ _ Hs E); cbn [entries]; rewrite Ea, Em; by rewrite E3|].
  assert (Hsub : cells L3 ⊆ cells (<[l := (1, Cell sh (set_entry i a' es))]> L3)) by (by apply cells_insert_subseteq). split.
  - split_and!; [done|..].
    + apply inv_close; [|done]. unfold children. simpl. rewrite set_entry_values. eapply inv_perm; [|exact Hi3]. rewrite (insert_delete_perm i a a' es.*2 Ea2). done.
    + apply lookup_insert_eq.
    + by rewrite !set_entry_keys.
    + rewrite !set_entry_values. eapply dens_mono; [exact Hsub|]. apply dens_restore; [|by rewrite !length_fmap|done].
      eapply dens_keeps; [exact Hk3| |by apply dens_delete]. intros z Hz. apply elem_of_app. by left.
  - eapply keeps_trans; [exact HkR|]. eapply keeps_trans; [|by apply keeps_mono]. eapply keeps_weaken; [exact Hk3|]. intros z Hz. apply elem_of_app. by right.
Qed.

Lemma vheight_pos v : (1 <= vheight v)%nat.
Proof. destruct v. simpl. lia. Qed.

Lemma vheight_entry v i x fuel : ventries v !! i = Some x -> (vheight v <= fuel)%nat -> (vheight x.2 <= fuel)%nat.
Proof.
  destruct v as [sh vs]. intros Hx Hf. destruct fuel as [|fuel]; [simpl in Hf; lia|]. apply vheight_child in Hf.
  pose proof (Forall_lookup_1 _ _ _ _ Hf Hx) as H. simpl in H. lia.
Qed.

Lemma slot_bind {A B} (m : M (heap * Z) A) (f : A -> M (heap * Z) B) s a s' : m s = (Ok a, s') -> (m ≫= f) s = f a s'.
Proof. apply M_bind_Ok. Qed.

(** [update], and a change of the content that is now its own. *)
Lemma update_then fuel (f : Z -> M heap unit) (pm : M value unit) y w :
  (forall h L F R l sh es vs, owned L F R h l sh es vs -> y ∈ R -> nil ∈ R -> den (cells L) y w -> den (cells L) nil vnil -> (vheight (V sh vs) <= fuel)%nat ->
     exists o sh' vs' h' L' es', pm (V sh vs) = (o, V sh' vs') /\ f l h = (o, h') /\ owned L' F R h' l sh' es' vs' /\ keeps L L' R) ->
  changes (update fuel ;; at_slot f) pm fuel y w.
Proof.
  intros Hf h L F R l v Hs Hi Hy Hnil Hd Hdy Hdn Hh. destruct (update_spec fuel h L F R l v Hs Hi Hd Hh) as (l1 & h1 & L1 & c & E1 & Hs1 & Hi1 & El & Hd1 & Hk1).
  destruct (owned_intro L1 F R h1 l1 c v Hs1 Hi1 El Hd1) as [es Ho]. destruct v as [sh vs]. simpl in Ho.
  destruct (Hf h1 L1 F R l1 sh es vs Ho Hy Hnil) as (o & sh' & vs' & h2 & L2 & es' & Ep & E2 & Ho2 & Hk2); [by apply Hk1..|done|].
  exists o, (V sh' vs'), h2, l1, L2. split; [done|]. split; [rewrite (slot_bind _ _ _ _ _ E1); unfold at_slot, slot_heap; cbn [fst snd]; by rewrite E2|].
  pose proof (owned_den _ _ _ _ _ _ _ _ Ho2). destruct Ho2 as (Hs2 & Hi2 & _). split_and!; try done. by eapply keeps_trans.
Qed.

Lemma set_entry_default (vs : list (key * value)) vs' i : (i < length (default vs vs'))%nat -> exists x, default vs vs' !! i = Some x.
Proof. intros Hi. by apply lookup_lt_is_Some_2 in Hi. Qed.

Lemma element_of_nil_height sh k vs i vs' fuel x : element_of sh k vnil vs = Ok (i, vs') -> (vheight (V sh vs) <= fuel)%nat -> default vs vs' !! i = Some x -> (vheight x.2 <= fuel)%nat.
Proof.
  intros E Hh Hx. assert (Hin : x ∈ vs \/ x.2 = vnil).
  { destruct vs' as [vs'|]; simpl in Hx; [|left; by eapply list_elem_of_lookup_2].
    pose proof (element_of_keys sh k vnil vnil vs vs eq_refl) as H. rewrite E in H. destruct H as (_ & _ & -> & _).
    apply list_elem_of_lookup_2 in Hx. rewrite insert_entry_perm in Hx. apply elem_of_cons in Hx as [->|Hx]; [by right|by left]. }
  destruct Hin as [[j Hj]%list_elem_of_lookup| ->]; [by apply (vheight_entry (V sh vs) j)|]. pose proof (vheight_pos (V sh vs)). simpl in *. lia.
Qed.

Lemma element_changes fuel y w k m pm : changes m pm fuel y w ->
  changes (update fuel ;; at_slot (fun l => i ← element l k; in_element l i m)) (pelement k pm) fuel y w.
Proof.
  intros Hm. apply update_then. intros h L F R l sh es vs Ho Hy Hnil Hdy Hdn Hh. pose proof (element_spec h L F R l sh es vs k Ho Hnil Hdn) as He. unfold pelement. simpl.
  destruct (element_of sh k vnil vs) as [[i vs']|e| |] eqn:Ee; try done.
  - destruct He as (h1 & L1 & es1 & E1 & Ho1 & Hk1 & Hlt). assert (Hlen : length es1 = length (default vs vs')).
    { destruct Ho1 as (_ & _ & _ & Hk & _). rewrite <- (length_fmap fst es1), Hk. by rewrite length_fmap. }
    destruct (lookup_lt_is_Some_2 (default vs vs') i) as [x Ex]; [lia|].
    destruct (in_element_spec _ _ fuel y w h1 L1 F R l sh es1 (default vs vs') i x Hm Ho1 Ex) as (o & x' & h2 & L2 & es2 & Ep & E2 & Ho2 & Hk2);
      [by eapply element_of_nil_height|done|done|by apply Hk1|by apply Hk1|].
    exists o, sh, (set_entry i x' (default vs vs')), h2, L2, es2. rewrite Ex. destruct x as [kx vx]. simpl in Ep. rewrite Ep. split; [done|].
    split; [by rewrite (M_bind_Ok _ _ _ _ _ E1)|]. split; [done|by eapply keeps_trans].
  - exists (Throw e), sh, vs, h, L, es. split; [done|]. split; [by rewrite (M_bind_Throw _ _ _ _ _ He)|]. split; [done|by intros ??].
Qed.

Lemma assign_path_spec fuel y w path : changes (assign_path fuel path y) (passign path w) fuel y w.
Proof.
  induction path as [|k path IH]; simpl; [|by apply element_changes].
  intros h L F R l v Hs Hi Hy Hnil Hd Hdy Hdn Hh. destruct (assign_spec fuel h L F R l v y Hs Hi ltac:(by right) Hd Hh) as (h' & L' & E & Hs' & Hi' & Hk).
  eexists _, _, h', y, L'. split; [done|]. split; [exact E|]. split_and!; [done..|apply Hk; [by left|done]|]. eapply keeps_weaken; [exact Hk|]. intros z Hz. by right.
Qed.

Lemma append_spec fuel y w : changes (append fuel y) (pappend w) fuel y w.
Proof.
  apply update_then. intros h L F R l sh es vs Ho Hy Hnil Hdy Hdn Hh. pose proof Ho as (Hs & Hi & E & Hk & HF). unfold pappend. simpl.
  rewrite (M_bind_Ok _ _ _ _ _ (get_ok _ _ _ _ _ Hs E)). cbn [fst snd shape_].
  destruct sh as [a| | |]; try (exists (Throw BadOperator); eexists _, vs, h, L, es; split; [done|]; split; [done|]; split; [done|by intros ??]).
  destruct (attach_spec h L F (l :: R) y Hs Hi) as (h1 & L1 & E1 & Hs1 & Hi1 & Ec & Eo); [by right|].
  assert (Hi1' : inv L1 (l :: y :: R)) by (eapply inv_perm; [apply perm_swap|exact Hi1]).
  destruct (inv_open _ _ _ _ Hi E) as (_ & HR & _). assert (Hne : l <> y) by (intros ->; done). assert (E1' : L1 !! l = Some (1, Cell SList es)) by (by rewrite Eo).
  assert (Hk' : (es ++ [(KNumber 0, y)]).*1 = (vs ++ [(KNumber 0, w)]).*1) by (rewrite !fmap_app, Hk; done).
  destruct (rewrite_cell h1 L1 F (y :: R) R l SList es (es ++ [(KNumber 0, y)]) (vs ++ [(KNumber 0, w)]) Hs1 Hi1' E1') as (L2 & E2 & Hs2 & Hi2 & El2 & Hd2 & Hk2); [|done|..].
  - rewrite fmap_app. simpl. by rewrite <- app_assoc.
  - rewrite !fmap_app. apply Forall2_app; [|by repeat constructor; rewrite Ec]. eapply (dens_keeps L L1 es.*2); [by apply keeps_cells|done|done].
  - eexists (Ok tt), SList, (vs ++ [(KNumber 0, w)]), _, L2, _. split; [done|]. split.
    { rewrite (M_bind_Ok _ _ _ _ _ E1), (M_bind_Ok _ _ _ _ _ (get_ok _ _ _ _ _ Hs1 E1')). cbn [fst snd entries]. exact E2. }
    split; [|eapply keeps_trans; [by apply keeps_cells|]; eapply keeps_weaken; [exact Hk2|]; intros z Hz; by right].
    split_and!; try done. apply den_children in Hd2 as (es2 & Ec2 & _ & HF2). rewrite (heap_cells_lookup _ _ _ _ El2) in Ec2. by injection Ec2 as <-.
Qed.

Lemma den_live L l v : den (cells L) l v -> exists n c, L !! l = Some (n, c).
Proof.
  destruct v as [sh vs]. intros (es & E & _)%den_inv. unfold cells in E. rewrite lookup_fmap in E. destruct (L !! l) as [[n c]|]; [eauto|done].
Qed.

Lemma delete_entry_values {A} i (es : list (key * A)) : (delete i es).*2 = delete i es.*2.
Proof. by rewrite !delete_take_drop, fmap_app, fmap_take, fmap_drop. Qed.
Lemma delete_entry_keys {A} i (es : list (key * A)) : (delete i es).*1 = delete i es.*1.
Proof. by rewrite !delete_take_drop, fmap_app, fmap_take, fmap_drop. Qed.

Lemma remove_entry_spec fuel k h L F R l sh es vs : owned L F R h l sh es vs -> (vheight (V sh vs) <= fuel)%nat -> sh = SMap \/ sh = SOrderedMap ->
  exists o sh' vs' h' L' es', premove k (V sh vs) = (o, V sh' vs') /\ remove_entry fuel l k h = (o, h') /\ owned L' F R h' l sh' es' vs' /\ keeps L L' R.
Proof.
  intros Ho Hh Hsh. pose proof Ho as (Hs & Hi & E & Hk & HF). unfold remove_entry. rewrite (M_bind_Ok _ _ _ _ _ (get_ok _ _ _ _ _ Hs E)). cbn [fst snd shape_ entries].
  assert (Ep : premove k (V sh vs) = if comparable k vs then match find_key k vs with Some i => (Ok tt, V sh (delete i vs)) | None => (Ok tt, V sh vs) end else (Throw BadComparison, V sh vs))
    by (unfold premove; by destruct Hsh as [-> | ->]). rewrite Ep. clear Ep. rewrite (comparable_keys k _ _ Hk), (find_key_keys k _ _ Hk).
  destruct (comparable k vs); [|exists (Throw BadComparison), sh, vs, h, L, es; split; [done|]; split; [done|]; split; [done|by intros ??]].
  destruct (find_key k vs) as [i|] eqn:Ef; [|exists (Ok tt), sh, vs, h, L, es; split; [done|]; split; [done|]; split; [done|by intros ??]].
  pose proof (find_key_bound k vs i Ef) as Hib. rewrite <- (find_key_keys k _ _ Hk) in Ef. apply find_key_bound in Ef.
  destruct (lookup_lt_is_Some_2 es i) as [[ka a] Ea]; [done|]. destruct (lookup_lt_is_Some_2 vs i) as [x Ex]; [done|]. rewrite Ea.
  assert (Ea2 : es.*2 !! i = Some a) by (by rewrite list_lookup_fmap, Ea). assert (Ex2 : vs.*2 !! i = Some x.2) by (by rewrite list_lookup_fmap, Ex).
  assert (Hda : den (cells L) a x.2) by (by eapply (Forall2_lookup_lr _ _ _ _ _ _ HF)). pose proof (vheight_entry (V sh vs) i x fuel Ex Hh) as Hhx.
  destruct (den_live _ _ _ Hda) as (n & c & Ena). destruct (attach_live h L F (l :: R) a n c Hs Hi Ena) as (h1 & L1 & E1 & Hs1 & Hi1 & Ec & Eo).
  assert (Hi1' : inv L1 (l :: a :: R)) by (eapply inv_perm; [apply perm_swap|exact Hi1]). destruct (inv_open _ _ _ _ Hi E) as (_ & HR & HL).
  assert (Hne : l <> a) by (intros ->; apply HL, elem_of_contents; exists a, (Cell sh es); split; [by eapply heap_cells_lookup|by eapply list_elem_of_lookup_2]).
  assert (E1' : L1 !! l = Some (1, Cell sh es)) by (by rewrite Eo).
  destruct (rewrite_cell h1 L1 F (a :: R) (a :: a :: R) l sh es (delete i es) (delete i vs) Hs1 Hi1' E1') as (L2 & E2 & Hs2 & Hi2 & El2 & Hd2 & Hk2).
  { pose proof (lookup_delete_perm i a es.*2 Ea2) as Hp. rewrite delete_entry_values. set (d := delete i es.*2) in *. rewrite Hp. simpl. by rewrite Permutation_middle. }
  { by rewrite !delete_entry_keys, Hk. }
  { rewrite !delete_entry_values. apply dens_delete. eapply (dens_keeps L L1 es.*2); [by apply keeps_cells|done|done]. }
  assert (Hd2a : den (cells L2) a x.2) by (apply Hk2; [by left|by rewrite Ec]).
  assert (Hi2' : inv L2 (a :: a :: l :: R)) by (eapply inv_perm; [|exact Hi2]; by rewrite (perm_swap l a), (perm_swap l a)).
  destruct (detach_spec fuel _ L2 F (a :: l :: R) a x.2 Hs2 Hi2' Hd2a Hhx) as (h3 & L3 & E3 & Hs3 & Hi3 & Hk3 & Hsub3).
  destruct (detach_spec fuel h3 L3 F (l :: R) a x.2 Hs3 Hi3 ltac:(apply Hk3; [by left|done]) Hhx) as (h4 & L4 & E4 & Hs4 & Hi4 & Hk4 & Hsub4).
  destruct (count_one L2 L4 (a :: a :: R) R l (Cell sh (delete i es)) Hi2 El2 Hi4) as [c4 El4]; [by etransitivity|intros z Hz; by do 2 right|].
  destruct (owned_intro L4 F R h4 l c4 (V sh (delete i vs)) Hs4 Hi4 El4) as [es4 Ho4]; [apply Hk4; [by left|]; apply Hk3; [by right; left|done]|].
  exists (Ok tt), sh, (delete i vs), h4, L4, es4. split; [done|]. split.
  { rewrite (M_bind_Ok _ _ _ _ _ E1), (M_bind_Ok _ _ _ _ _ (get_ok _ _ _ _ _ Hs1 E1')). cbn [fst snd shape_ entries].
    by rewrite (M_bind_Ok _ _ _ _ _ E2), (M_bind_Ok _ _ _ _ _ E3). }
  split; [exact Ho4|]. intros z v Hz Hd. apply Hk4; [by right|]. apply Hk3; [by do 2 right|]. apply Hk2; [by right|]. by rewrite Ec.
Qed.

Lemma remove_spec fuel k y w : changes (remove fuel k) (premove k) fuel y w.
Proof.
  apply update_then. intros h L F R l sh es vs Ho Hy Hnil Hdy Hdn Hh. pose proof Ho as (Hs & Hi & E & _).
  rewrite (M_bind_Ok _ _ _ _ _ (get_ok _ _ _ _ _ Hs E)). cbn [fst snd shape_].
  destruct sh as [a| | |]; [..|apply (remove_entry_spec fuel k h L F R l _ es vs Ho Hh); auto|apply (remove_entry_spec fuel k h L F R l _ es vs Ho Hh); auto];
    (exists (Throw BadOperator); eexists _, vs, h, L, es; split; [done|]; split; [done|]; split; [done|by intros ??]).
Qed.

(** ** Temporaries *)

Lemma slot_heap_ok {A} (m : M heap A) h l a h' : m h = (Ok a, h') -> slot_heap m (h, l) = (Ok a, (h', l)).
Proof. intros E. unfold slot_heap. cbn [fst snd]. by rewrite E. Qed.

(** A slot takes over the content of a temporary, which then goes away. *)
Lemma assign_temporary fuel h L F R l v t w : split h L F -> inv L (t :: l :: R) -> den (cells L) l v -> den (cells L) t w -> (vheight v <= fuel)%nat -> (vheight w <= fuel)%nat ->
  exists h' L', (assign fuel t ;; slot_heap (detach fuel t)) (h, l) = (Ok tt, (h', t)) /\ split h' L' F /\ inv L' (t :: R) /\ den (cells L') t w /\ keeps L L' R.
Proof.
  intros Hs Hi Hd Hdt Hv Hw. assert (Hi' : inv L (l :: t :: R)) by (eapply inv_perm; [apply perm_swap|exact Hi]).
  destruct (assign_spec fuel h L F (t :: R) l v t Hs Hi' ltac:(by right; left) Hd Hv) as (h1 & L1 & E1 & Hs1 & Hi1 & Hk1).
  destruct (detach_spec fuel h1 L1 F (t :: R) t w Hs1 Hi1 ltac:(apply Hk1; [by left|done]) Hw) as (h2 & L2 & E2 & Hs2 & Hi2 & Hk2 & _).
  exists h2, L2. split; [rewrite (slot_bind _ _ _ _ _ E1); by apply slot_heap_ok|]. split_and!; [done..| |].
  - apply Hk2; [by left|]. apply Hk1; [by left|done].
  - intros z u Hz Hdz. apply Hk2; [by right|]. apply Hk1; [by do 2 right|done].
Qed.

Lemma construct_spec fuel h L F R l v sh : split h L F -> inv L (l :: R) -> den (cells L) l v -> (vheight v <= fuel)%nat ->
  exists h' l' L', construct fuel sh (h, l) = (Ok tt, (h', l')) /\ split h' L' F /\ inv L' (l' :: R) /\ den (cells L') l' (V sh []) /\ keeps L L' R.
Proof.
  intros Hs Hi Hd Hv. destruct (new_spec h L F (l :: R) sh [] [] Hs Hi eq_refl ltac:(constructor)) as (t & h0 & h1 & L1 & E0 & E1 & Hs1 & Hi1 & _ & Hsub & Hdt).
  destruct (assign_temporary fuel h1 L1 F R l v t (V sh []) Hs1 Hi1 (den_mono _ _ _ _ Hsub Hd) Hdt Hv) as (h2 & L2 & E2 & Hs2 & Hi2 & Hd2 & Hk2); [pose proof (vheight_pos v); simpl; lia|].
  exists h2, t, L2. split; [unfold construct; by rewrite (slot_bind _ _ _ _ _ (slot_heap_ok _ _ l _ _ E0)), (slot_bind _ _ _ _ _ (slot_heap_ok _ _ l _ _ E1))|].
  split_and!; [done..|]. eapply keeps_trans; [by apply keeps_mono|done].
Qed.

Lemma set_entry_id {A} i (es : list (key * A)) e : es !! i = Some e -> set_entry i e.2 es = es.
Proof.
  intros E. unfold set_entry. revert i E. induction es as [|e' es IH]; intros [|i] E; simpl in *; [done..| |]; [injection E as ->; by destruct e|]. f_equal. by apply IH.
Qed.

(** The element of a constant value. *)
Lemma element_value h L F R y w k e : split h L F -> inv L R -> y ∈ R -> den (cells L) y w -> pget w k = Ok e ->
  exists a, (i ← element y k; in_element y i (fun s => (Ok s.2, s))) h = (Ok a, h) /\ den (cells L) a e.
Proof.
  intros Hs Hi Hy Hdy Hget. destruct w as [sh vs]. apply den_children in Hdy as (es & Ec & Hk & HF). destruct (live_lookup _ _ _ Hi Hy) as (n & c & E & _).
  rewrite (heap_cells_lookup _ _ _ _ E) in Ec. injection Ec as ->. unfold pget in Hget. simpl in Hget. pose proof (element_of_keys sh k nil vnil es vs Hk) as Hel.
  destruct (element_of sh k vnil vs) as [[j [vs'|]]|e'| |]; try done. destruct (element_of sh k nil es) as [[i [es'|]]|e'| |] eqn:Eo; try done.
  destruct Hel as [<- Hlt]. destruct (lookup_lt_is_Some_2 es i) as [[ka a] Ea]; [done|]. destruct (vs !! i) as [[kx x]|] eqn:Ex; [|done]. injection Hget as ->.
  exists a. split; [|eapply (Forall2_lookup_lr _ _ _ i _ _ HF); rewrite list_lookup_fmap; [by rewrite Ea|by rewrite Ex]].
  assert (Eel : element y k h = (Ok i, h)) by (unfold element; rewrite (M_bind_Ok _ _ _ _ _ (get_ok _ _ _ _ _ Hs E)); cbn [fst snd shape_ entries]; by rewrite Eo).
  rewrite (M_bind_Ok _ _ _ _ _ Eel). unfold in_element. rewrite (split_lookup _ _ _ _ _ Hs E). cbn [entries shape_ fst snd]. rewrite Ea. cbv beta iota. cbn [snd]. f_equal.
  pose proof (set_entry_id i es (ka, a) Ea) as Eid. simpl in Eid. rewrite Eid, insert_id by (by eapply split_lookup). by destruct h.
Qed.

Lemma element_throws h L F R y w k e : split h L F -> inv L R -> y ∈ R -> den (cells L) y w -> pget w k = Throw e -> element y k h = (Throw e, h).
Proof.
  intros Hs Hi Hy Hdy Hget. destruct w as [sh vs]. apply den_children in Hdy as (es & Ec & Hk & _). destruct (live_lookup _ _ _ Hi Hy) as (n & c & E & _).
  rewrite (heap_cells_lookup _ _ _ _ E) in Ec. injection Ec as ->. unfold pget in Hget. simpl in Hget. pose proof (element_of_keys sh k nil vnil es vs Hk) as Hel.
  unfold element. rewrite (M_bind_Ok _ _ _ _ _ (get_ok _ _ _ _ _ Hs E)). cbn [fst snd shape_ entries].
  destruct (element_of sh k vnil vs) as [[j [vs'|]]|e'| |]; try done; [by destruct (vs !! j) as [[]|]|]. injection Hget as ->. destruct (element_of sh k nil es) as [[i [es'|]]| | |]; try done. by subst.
Qed.

Lemma get_element_spec fuel h L F R l v y w k : split h L F -> inv L (l :: R) -> y ∈ l :: R -> den (cells L) l v -> den (cells L) y w ->
  (vheight v <= fuel)%nat -> (vheight w <= fuel)%nat -> pget w k <> Undef ->
  match pget w k with
  | Ok e => exists h' l' L', get_element fuel y k (h, l) = (Ok tt, (h', l')) /\ split h' L' F /\ inv L' (l' :: R) /\ den (cells L') l' e /\ keeps L L' R
  | Throw e => get_element fuel y k (h, l) = (Throw e, (h, l))
  | _ => False
  end.
Proof.
  intros Hs Hi Hy Hd Hdy Hv Hw Hget. destruct (pget w k) as [e|e| |] eqn:Ep; try done.
  - destruct (element_value h L F (l :: R) y w k e Hs Hi Hy Hdy Ep) as (a & E0 & Hda).
    destruct (den_live _ _ _ Hda) as (m & d & Ena). destruct (attach_live h L F (l :: R) a m d Hs Hi Ena) as (h1 & L1 & E1 & Hs1 & Hi1 & Ec1 & _).
    assert (Hhe : (vheight e <= fuel)%nat).
    { unfold pget in Ep. destruct (element_of _ _ _ _) as [[i [?|]]| | |]; try done. destruct (ventries w !! i) as [[kx x]|] eqn:Ex; [|done]. injection Ep as <-. by apply (vheight_entry w i (kx, x) fuel). }
    destruct (assign_temporary fuel h1 L1 F R l v a e Hs1 Hi1) as (h2 & L2 & E2 & Hs2 & Hi2 & Hd2 & Hk2); [by rewrite Ec1..|done|done|].
    exists h2, a, L2. split; [unfold get_element; by rewrite (slot_bind _ _ _ _ _ (slot_heap_ok _ _ l _ _ E0)), (slot_bind _ _ _ _ _ (slot_heap_ok _ _ l _ _ E1))|].
    split_and!; [done..|]. eapply keeps_trans; [by apply keeps_cells|done].
  - pose proof (element_throws h L F (l :: R) y w k e Hs Hi Hy Hdy Ep) as Eel. unfold get_element.
    assert (E0 : slot_heap (i ← element y k; in_element y i (fun s => (Ok s.2, s))) (h, l) = (Throw e, (h, l)))
      by (unfold slot_heap; cbn [fst snd]; by rewrite (M_bind_Throw _ _ _ _ _ Eel)).
    by rewrite (M_bind_Throw _ _ _ _ _ E0).
  - unfold pget in Ep. pose proof (element_of_keys (vshape w) k vnil vnil _ _ (eq_refl (ventries w).*1)) as Hel. destruct (element_of _ _ _ _) as [[i [?|]]| | |]; try done. by destruct (ventries w !! i) as [[]|].
Qed.

(** ** Programs *)

(** The variables of a program hold the values of the program without sharing. *)
Definition represents (s : heap * list Z) (vs : list value) : Prop :=
  exists L, split s.1 L ∅ /\ inv L (nil :: s.2) /\ dens L s.2 vs /\ den (cells L) nil vnil.

Definition max_height (vs : list value) : nat := max_list (vheight <$> vs).

Lemma max_height_lookup vs x v : vs !! x = Some v -> (vheight v <= max_height vs)%nat.
Proof.
  unfold max_height. revert x. induction vs as [|w vs IH]; intros [|x] E; simpl in *; [done..| |]; [injection E as ->; lia|]. specialize (IH x E).
  change (list_fmap value nat vheight vs) with (vheight <$> vs). lia.
Qed.

(** A change of one variable. *)
Lemma var_changes x (m : M (heap * Z) unit) (pm : M value unit) h env vs :
  represents (h, env) vs -> (x < length vs)%nat ->
  (forall L l v R, env !! x = Some l -> vs !! x = Some v -> l :: R ≡ₚ nil :: env -> (forall y, y ∈ delete x env -> y ∈ R) -> nil ∈ R ->
     split h L ∅ -> inv L (l :: R) -> dens L env vs -> den (cells L) nil vnil ->
     exists o v' h' l' L', pm v = (o, v') /\ m (h, l) = (o, (h', l')) /\ split h' L' ∅ /\ inv L' (l' :: R) /\ den (cells L') l' v' /\ keeps L L' R) ->
  exists o s' vs', on_var x m (h, env) = (o, s') /\ on_pvar x pm vs = (o, vs') /\ represents s' vs'.
Proof.
  intros (L & Hs & Hi & HF & Hdn) Hx Hm. simpl in *. assert (Hlen : length env = length vs) by (by eapply Forall2_length).
  destruct (lookup_lt_is_Some_2 env x) as [l El]; [lia|]. destruct (lookup_lt_is_Some_2 vs x) as [v Ev]; [done|].
  pose proof (lookup_delete_perm x l env El) as Hp. set (R := nil :: delete x env) in *.
  assert (HpR : l :: R ≡ₚ nil :: env) by (unfold R; rewrite Hp at 2; apply perm_swap).
  destruct (Hm L l v R El Ev HpR) as (o & v' & h' & l' & L' & Epm & Em & Hs' & Hi' & Hd' & Hk'); try done.
  { intros y Hy. by right. } { by left. } { by eapply inv_perm. }
  exists o, (h', <[x := l']> env), (<[x := v']> vs). split; [unfold on_var; cbn [fst snd]; by rewrite El, Em|]. split; [unfold on_pvar; by rewrite Ev, Epm|].
  exists L'. simpl. split; [done|]. split; [|split].
  - eapply inv_perm; [|exact Hi']. unfold R. rewrite (insert_delete_perm x l l' env El). apply perm_swap.
  - apply dens_restore; [|done|done]. eapply dens_keeps; [exact Hk'| |by apply dens_delete]. intros y Hy. by right.
  - apply Hk'; [by left|done].
Qed.

Lemma elem_of_delete_ne {A} (l : list A) x y a : l !! y = Some a -> x <> y -> a ∈ delete x l.
Proof.
  revert x y. induction l as [|b l IH]; intros [|x] [|y] E Hne; simpl in *; try done.
  - by eapply list_elem_of_lookup_2.
  - injection E as ->. by left.
  - right. eapply IH; [exact E|congruence].
Qed.

Lemma step_refines fuel o h env vs : represents (h, env) vs -> proper o vs -> (max_height vs <= fuel)%nat ->
  exists r s' vs', step fuel o (h, env) = (r, s') /\ pstep o vs = (r, vs') /\ represents s' vs'.
Proof.
  intros Hr Hp Hf. assert (Hlen : length env = length vs) by (destruct Hr as (L & _ & _ & HF & _); by eapply Forall2_length).
  assert (Hden : forall L y w l, dens L env vs -> env !! y = Some l -> vs !! y = Some w -> den (cells L) l w) by (intros L y w l HF E1 E2; by eapply (Forall2_lookup_lr _ _ _ _ _ _ HF)).
  assert (Hmax : forall x v, vs !! x = Some v -> (vheight v <= fuel)%nat) by (intros x v E; pose proof (max_height_lookup _ _ _ E); lia).
  assert (Hvar : forall y, (y < length vs)%nat -> exists l w, env !! y = Some l /\ vs !! y = Some w).
  { intros y Hy. destruct (lookup_lt_is_Some_2 env y) as [l ?]; [lia|]. destruct (lookup_lt_is_Some_2 vs y) as [w ?]; [done|]. eauto. }
  destruct o as [x sh|x y|x y|x path y|x k|x y k]; simpl in Hp; cbn [step pstep].
  - apply var_changes; [done..|]. intros L l v R El Ev _ _ _ Hs Hi HF _.
    destruct (construct_spec fuel h L ∅ R l v sh Hs Hi) as (h' & l' & L' & E & H'); [by eapply Hden|by eapply Hmax|]. by eexists _, _, h', l', L'.
  - destruct Hp as [Hx Hy]. destruct (Hvar y Hy) as (ly & w & Ely & Ew). unfold with_var, with_pvar. cbn [snd]. rewrite Ely, Ew.
    apply var_changes; [done..|]. intros L l v R El Ev HpR HR _ Hs Hi HF _. assert (Hin : ly ∈ l :: R) by (rewrite HpR; right; by eapply list_elem_of_lookup_2).
    destruct (assign_spec fuel h L ∅ R l v ly Hs Hi Hin) as (h' & L' & E & Hs' & Hi' & Hk); [by eapply Hden|by eapply Hmax|].
    eexists _, _, h', ly, L'. split; [done|]. split; [exact E|]. split_and!; [done..|apply Hk; [by left|by eapply Hden]|]. eapply keeps_weaken; [exact Hk|]. intros z Hz. by right.
  - destruct Hp as (Hx & Hy & Hne). destruct (Hvar y Hy) as (ly & w & Ely & Ew). unfold with_var, with_pvar. cbn [snd]. rewrite Ely, Ew.
    apply var_changes; [done..|]. intros L l v R El Ev HpR HR Hnil Hs Hi HF Hdn. apply (append_spec fuel ly w); try done; [apply HR; by eapply elem_of_delete_ne|by eapply Hden|by eapply Hden|by eapply Hmax].
  - destruct Hp as (Hx & Hy & Hne). destruct (Hvar y Hy) as (ly & w & Ely & Ew). unfold with_var, with_pvar. cbn [snd]. rewrite Ely, Ew.
    apply var_changes; [done..|]. intros L l v R El Ev HpR HR Hnil Hs Hi HF Hdn. apply (assign_path_spec fuel ly w path); try done; [apply HR; by eapply elem_of_delete_ne|by eapply Hden|by eapply Hden|by eapply Hmax].
  - apply var_changes; [done..|]. intros L l v R El Ev HpR HR Hnil Hs Hi HF Hdn. apply (remove_spec fuel k nil vnil); try done; [by eapply Hden|by eapply Hmax].
  - destruct Hp as (Hx & w & Ew & Hget). destruct (Hvar y) as (ly & w' & Ely & Ew'); [by eapply lookup_lt_Some|]. rewrite Ew in Ew'. injection Ew' as <-.
    unfold with_var, with_pvar. cbn [snd]. rewrite Ely, Ew. apply var_changes; [done..|]. intros L l v R El Ev HpR HR _ Hs Hi HF _.
    assert (Hin : ly ∈ l :: R) by (rewrite HpR; right; by eapply list_elem_of_lookup_2).
    pose proof (get_element_spec fuel h L ∅ R l v ly w k Hs Hi Hin ltac:(by eapply Hden) ltac:(by eapply Hden) ltac:(by eapply Hmax) ltac:(by eapply Hmax) Hget) as Hg.
    destruct (pget w k) as [e|e| |]; try done.
    + destruct Hg as (h' & l' & L' & E & H'). by eexists _, _, h', l', L'.
    + eexists _, v, h, l, L. split_and!; try done; [by eapply Hden|by intros ??].
Qed.

(** The depth of the values that a program makes bounds the recursion of [clone] and [detach]. *)
Fixpoint fuel_needed (os : list op) (vs : list value) : nat :=
  match os with [] => 0 | o :: os => Nat.max (max_height vs) (fuel_needed os (pstep o vs).2) end.

Lemma run_refines os : forall fuel s vs, represents s vs -> proper_run os vs -> (fuel_needed os vs <= fuel)%nat ->
  exists rs s' vs', run fuel os s = (rs, s') /\ prun os vs = (rs, vs') /\ represents s' vs'.
Proof.
  induction os as [|o os IH]; intros fuel [h env] vs Hr Hp Hf; [by exists [], (h, env), vs|]. destruct Hp as [Hp1 Hp2]. cbn [fuel_needed] in Hf.
  destruct (step_refines fuel o h env vs Hr Hp1) as (r & s1 & vs1 & E & Ep & Hr1); [lia|]. rewrite Ep in Hp2, Hf. simpl in Hp2, Hf.
  destruct (IH fuel s1 vs1 Hr1 Hp2 ltac:(lia)) as (rs & s2 & vs2 & E2 & Ep2 & Hr2). exists (r :: rs), s2, vs2.
  split; [cbn [run]; by rewrite E, E2|]. split; [cbn [prun]; by rewrite Ep, Ep2|done].
Qed.

Lemma occ_replicate n l : occ l (replicate n l) = Z.of_nat n.
Proof. induction n as [|n IH]; [done|]. simpl replicate. rewrite occ_cons, decide_True, IH by done. lia. Qed.

Lemma start_represents n : represents (start n) (replicate n vnil).
Proof.
  set (L := {[nil := (1 + Z.of_nat n, Cell (SAtom ANil) [])]} : heap_map). exists L.
  assert (Hc : contents L = []) by (unfold contents, L; by rewrite map_to_list_singleton).
  assert (Hd : den (cells L) nil vnil) by (apply den_children; exists []; split; [unfold cells, L; by rewrite lookup_fmap, lookup_singleton_eq|]; split; [done|constructor]).
  split_and!; [| |by apply Forall2_replicate|done].
  - split_and!; [by rewrite map_union_empty|apply map_disjoint_empty_r|]. intros l [e He]. simpl in He. apply lookup_singleton_Some in He as [<- _]. simpl. unfold nil. lia.
  - split.
    + intros l m c [<- [= <- <-]]%lookup_singleton_Some. rewrite Hc, app_nil_r. simpl. rewrite occ_cons, decide_True, occ_replicate by done. lia.
    + intros l Hl. rewrite Hc, app_nil_r in Hl. assert (l = nil) as -> by (apply elem_of_cons in Hl as [->|Hl]; [done|]; by apply elem_of_replicate in Hl as [-> _]).
      unfold L. by rewrite lookup_singleton_eq.
Qed.

(** C29. A program of assignments, copies, [append], [remove], nested element assignments
    and constant element access behaves as if no content were ever shared: every statement
    returns or throws what it does on values without sharing, and at the end every variable
    holds that value.  The counts are those of the references, so nothing is deleted while
    it is used.  The conditions are that a value is not put into itself, and that a
    constant map is asked for keys that it has. *)
Theorem values_copy_on_write n os fuel : proper_run os (replicate n vnil) -> (fuel_needed os (replicate n vnil) <= fuel)%nat ->
  exists rs s vs, run fuel os (start n) = (rs, s) /\ prun os (replicate n vnil) = (rs, vs) /\ represents s vs.
Proof. intros Hp Hf. apply run_refines; [apply start_represents|done|done]. Qed.

(** A map that is shared, changed through one variable and read through the other. *)
Definition sharing_program : list op :=
  [Construct 0 SMap; Construct 1 (SAtom (ANumber 7)); Construct 3 SList; Append 3 1; Assign 0 [KString (str "a")] 3; Copy 2 0;
   Assign 2 [KString (str "a"); KNumber 0] 0; Append 2 1; Get 1 0 (KString (str "a")); Remove 0 (KString (str "b")); Assign 3 [KNumber 5] 2].

Lemma values_copy_on_write_witness : exists s vs,
  run 10 sharing_program (start 4) = ([Ok tt; Ok tt; Ok tt; Ok tt; Ok tt; Ok tt; Ok tt; Throw BadOperator; Ok tt; Ok tt; Throw AssertionFailed], s) /\
  represents s vs /\ vs !! 0%nat = Some (V SMap [(KString (str "a"), V SList [(KNumber 0, V (SAtom (ANumber 7)) [])])]).
Proof.
  destruct (values_copy_on_write 4 sharing_program 10) as (rs & s & vs & Hr & Hp & Hrep).
  - vm_compute. repeat match goal with |- _ /\ _ => split | |- exists _, _ => eexists end; first [exact I | lia | reflexivity | discriminate].
  - vm_compute. lia.
  - vm_compute in Hp. injection Hp as <- <-. exists s. eexists. split; [exact Hr|]. split; [exact Hrep|]. reflexivity.
Defined.

(** A value that is appended to itself becomes a list that contains itself: its content is
    not shared, so [update] does not clone it. *)
Example append_to_itself : exists h, run 10 [Construct 0 SList; Append 0 0] (start 1) = ([Ok tt; Ok tt], (h, [1])) /\
  store h !! 1 = Some (2, Cell SList [(KNumber 0, 1)]).
Proof. eexists. split; vm_compute; reflexivity. Qed.

(** Looking up a key that a constant map does not have inserts it, and every value that
    shares the content changes. *)
Example lookup_changes_copies : exists h, run 10 [Construct 0 SMap; Copy 1 0; Get 2 1 (KString (str "k"))] (start 3) = ([Ok tt; Ok tt; Ok tt], (h, [1; 1; nil])) /\
  store h !! 1 = Some (2, Cell SMap [(KString (str "k"), nil)]).
Proof. eexists. split; vm_compute; reflexivity. Qed.
