(* ===== verification/Configuration.v ===== *)
(** * Configurations

    [config/Configuration.cc] and [config/LocalConfiguration.cc]: a configuration is a
    [Value], usually a map of maps, and a separator; the names of parameters are paths
    through the maps.  The conversions of values are those of the contents
    ([value/NumberContent.cc] and the others).  Here every configuration has a value of its
    own; [ConfigurationShared.v] has the contents that configurations share. *)
From Stdlib Require Import Floats.SpecFloat.
From S2P Require Import Prelude Text Strings Translator Double TranslatorDouble SharedValue SharedValueSpec.
#[local] Set Warnings "-clear-no-such-hyp".

(** ** Classes of values *)

Definition isNil (v : value) : bool := match v with V (SAtom ANil) _ => true | _ => false end.
Definition isNumber (v : value) : bool := match v with V (SAtom (ANumber _)) _ => true | _ => false end.
Definition isBool (v : value) : bool := match v with V (SAtom (ABool _)) _ => true | _ => false end.
Definition isDouble (v : value) : bool := match v with V (SAtom (ADouble _)) _ => true | _ => false end.
Definition isString (v : value) : bool := match v with V (SAtom (AString _)) _ => true | _ => false end.
Definition isList (v : value) : bool := match v with V SList _ => true | _ => false end.
Definition isMap (v : value) : bool := match v with V SMap _ | V SOrderedMap _ => true | _ => false end.
Definition isOrderedMap (v : value) : bool := match v with V SOrderedMap _ => true | _ => false end.

Definition of_atom (a : atom) : value := V (SAtom a) [].
Definition of_list (vs : list value) : value := V SList ((fun v => (KNumber 0, v)) <$> vs).
Definition makeOrderedMap : value := V SOrderedMap [].

(** ** Conversions *)

(** [DoubleContent::value(long long&)]: NaN passes the comparisons, and its conversion is
    not defined. *)
Definition double_to_long_long (d : double) : outcome Z :=
  if SFleb d (of_Z (- 2 ^ 63)) || SFleb (of_Z (2 ^ 63)) d then Throw BadConversion
  else
    l ← to_long_long d;
    if SFeqb (of_Z l) d then Ok l else Throw BadConversion.

(** The content of a scalar, or of the only element of a list. *)
Fixpoint as_long_long (v : value) : outcome Z :=
  match v with
  | V (SAtom (ABool b)) _ => Ok (if b then 1 else 0)
  | V (SAtom (ANumber n)) _ => Ok n
  | V (SAtom (ADouble d)) _ => double_to_long_long d
  | V (SAtom (AString s)) _ => Ok (string_to_long_long s)
  | V SList [(_, v)] => as_long_long v
  | _ => Throw BadConversion
  end.

(** [StringContent::value(bool&)] *)
Definition string_value_bool (s : text) : outcome bool :=
  let v := lower s in
  if bool_decide (v ∈ [str "true"; str "on"; str "yes"; str "1"]) then Ok true
  else if bool_decide (v ∈ [str "false"; str "off"; str "no"; str "0"]) then Ok false
  else Throw BadConversion.

Fixpoint as_bool (v : value) : outcome bool :=
  match v with
  | V (SAtom (ABool b)) _ => Ok b
  | V (SAtom (ANumber n)) _ => Ok (negb (n =? 0))
  | V (SAtom (AString s)) _ => string_value_bool s
  | V SList [(_, v)] => as_bool v
  | _ => Throw BadConversion
  end.

Fixpoint as_double (v : value) : outcome double :=
  match v with
  | V (SAtom (ABool b)) _ => Ok (of_Z (if b then 1 else 0))
  | V (SAtom (ANumber n)) _ => Ok (of_Z n)
  | V (SAtom (ADouble d)) _ => Ok d
  | V (SAtom (AString s)) _ => string_to_double s
  | V SList [(_, v)] => as_double v
  | _ => Throw BadConversion
  end.

(** [print_double]: a double printed by a stream. *)
Fixpoint as_string (print_double : double -> text) (v : value) : outcome text :=
  match v with
  | V (SAtom (ABool b)) _ => Ok (if b then str "true" else str "false")
  | V (SAtom (ANumber n)) _ => Ok (long_long_to_string n)
  | V (SAtom (ADouble d)) _ => Ok (print_double d)
  | V (SAtom (AString s)) _ => Ok s
  | V SList [(_, v)] => as_string print_double v
  | _ => Throw BadConversion
  end.

(** Keys of maps are strings, at every depth. *)
Definition text_key (k : key) : bool := match k with KString _ => true | KNumber _ => false end.
Fixpoint text_keys (v : value) : bool :=
  let 'V sh es := v in
  match sh with SMap | SOrderedMap => forallb (fun e => text_key e.1) es | _ => true end && forallb (fun e => text_keys e.2) es.

(** ** Parameters of a type *)

(** How a parameter of type [T] is turned into a value ([LocalConfiguration::set]) and back
    ([Configuration::get]). *)
Record codec (T : Type) := Codec { into : T -> value; from : value -> outcome T; valid : T -> Prop }.
Arguments Codec {T}.
Arguments into {T}.
Arguments from {T}.
Arguments valid {T}.

Definition bool_codec : codec bool := Codec (fun b => of_atom (ABool b)) as_bool (fun _ => True).
(** [long result(v); ASSERT(int(result) == result);] *)
Definition int_codec : codec Z := Codec (fun n => of_atom (ANumber n))
  (fun v => result ← as_long_long v; ASSERT (wrapS 32 result =? result) ;; Ok result) (fun n => - 2 ^ 31 <= n < 2 ^ 31).
Definition long_codec : codec Z := Codec (fun n => of_atom (ANumber n)) as_long_long (fun n => - 2 ^ 63 <= n < 2 ^ 63).
(** [Value(unsigned long)] is kept as a [long long]. *)
Definition size_codec : codec Z := Codec (fun n => of_atom (ANumber (wrapS 64 n)))
  (fun v => n ← as_long_long v; Ok (wrapU 64 n)) (fun n => 0 <= n < 2 ^ 64).
Definition double_codec : codec double := Codec (fun d => of_atom (ADouble d)) as_double (fun _ => True).
Definition string_codec (print_double : double -> text) : codec text := Codec (fun s => of_atom (AString s)) (as_string print_double) (fun _ => True).

(** [int i = 0; while (v.contains(i)) { value.push_back(v[i]); i++; }] *)
Fixpoint elements {T} (c : codec T) (i : Z) (es : list (key * value)) : outcome (list T) :=
  match es with
  | [] => Ok []
  | e :: es => x ← from c e.2; if i =? 2 ^ 31 - 1 then Undef else xs ← elements c (i + 1) es; Ok (x :: xs)
  end.
Definition vector_codec {T} (c : codec T) : codec (list T) := Codec (fun xs => of_list (into c <$> xs))
  (fun v => ASSERT (isList v) ;; elements c 0 (ventries v)) (fun xs => Forall (valid c) xs /\ zlen xs < 2 ^ 31).

(** ** The configuration *)

Record Configuration := { root : value; separator : byte }.

Definition new_configuration (separator : byte) : Configuration := Build_Configuration makeOrderedMap separator.

(** [Tokenizer parse(separator_); parse(s, path);] *)
Definition path_of (c : Configuration) (s : text) : list key := KString <$> tokenize (Tokenizer_string [separator c] false) s.

(** The loop of [lookUp]: whether the path leads to a value, and the last value reached. *)
Fixpoint look (path : list key) (result : value) : outcome (bool * value) :=
  match path with
  | [] => Ok (true, result)
  | k :: path =>
      if isMap result then
        b ← contains_of (vshape result) k (ventries result);
        if (b : bool) then w ← pget result k; look path w else Ok (false, result)
      else Ok (false, result)
  end.
Definition lookUp (s : text) (c : Configuration) : outcome (bool * value) := look (path_of c s) (root c).

(** [lookUp(name)]: throws when nothing is found. *)
Definition lookUp_found (s : text) (c : Configuration) : outcome value :=
  '(found, v) ← lookUp s c; if (found : bool) then Ok v else Throw (ConfigurationNotFound s).

Definition has (s : text) (c : Configuration) : outcome bool := '(found, _) ← lookUp s c; Ok found.

(** [bool get(name, T& value)]: the value that is set, if any *)
Definition get {T} (cd : codec T) (s : text) (c : Configuration) : outcome (option T) :=
  '(found, v) ← lookUp s c; if (found : bool) then x ← from cd v; Ok (Some x) else Ok None.

(** [_get]: [getBool], [getInt], [getLong], ... *)
Definition get_found {T} (cd : codec T) (s : text) (c : Configuration) : outcome T :=
  x ← get cd s c; match x with Some x => Ok x | None => Throw (ConfigurationNotFound s) end.

(** [_getWithDefault]: the same with a default *)
Definition get_with_default {T} (cd : codec T) (s : text) (defaultVal : T) (c : Configuration) : outcome T :=
  x ← get cd s c; Ok (default defaultVal x).

(** [LocalConfiguration(other, path)] *)
Definition sub_configuration (s : text) (c : Configuration) : outcome Configuration :=
  v ← lookUp_found s c; Ok (Build_Configuration v (separator c)).

(** [LocalConfiguration] as a parameter: it has the separator of the configuration it is in. *)
Definition configuration_codec (sep : byte) : codec Configuration :=
  Codec root (fun v => Ok (Build_Configuration v sep)) (fun c => separator c = sep /\ text_keys (root c) = true).

(** [getSubConfiguration]: an empty one, with the default separator, when there is none *)
Definition getSubConfiguration (s : text) (c : Configuration) : outcome Configuration :=
  found ← has s c;
  if (found : bool) then get_found (configuration_codec (separator c)) s c else Ok (new_configuration "."%byte).

(** [isIntegral], [isBoolean], ...: [found && v.isXxx()] *)
Definition is_kind (kind : value -> bool) (s : text) (c : Configuration) : outcome bool :=
  '(found, v) ← lookUp s c; Ok (found && kind v).
(** [isIntegralList], ...: the first element decides *)
Definition is_list_of (kind : value -> bool) (s : text) (c : Configuration) : outcome bool :=
  '(found, v) ← lookUp s c;
  Ok (found && isList v && match ventries v with [] => true | e :: _ => kind e.2 end).

(** [Value::keys] *)
Definition keys_of (v : value) : outcome (list key) :=
  match vshape v with SMap | SOrderedMap => Ok (ventries v).*1 | _ => Throw BadOperator end.
Definition key_text (k : key) : text := match k with KString s => s | KNumber n => long_long_to_string n end.
Definition keys (c : Configuration) : outcome (list text) := ks ← keys_of (root c); Ok (map key_text ks).
Definition empty (c : Configuration) : outcome bool :=
  if isNil (root c) then Ok true else ks ← keys_of (root c); Ok (bool_decide (ks = [])).

(** ** Changes *)

(** [LocalConfiguration::setValue]; an empty path is read out of range. *)
Fixpoint psetValue (path : list key) (y : value) : M value unit :=
  match path with
  | [] => liftM Undef
  | [k] => passign [k] y
  | k :: path =>
      b ← pcontains k;
      (if (b : bool) then mret tt else passign [k] makeOrderedMap) ;;
      pelement k (psetValue path y)
  end.

Definition at_root (m : M value unit) : M Configuration unit := fun c =>
  let '(o, v) := m (root c) in (o, Build_Configuration v (separator c)).
Definition setValue (s : text) (v : value) : M Configuration unit := fun c => at_root (psetValue (path_of c s) v) c.
Definition set {T} (cd : codec T) (s : text) (x : T) : M Configuration unit := setValue s (into cd x).

(** [remove(name)]: a key of the root *)
Definition remove (name : text) : M Configuration unit := at_root (premove (KString name)).

(** [set(other)]: the keys of the other root *)
Fixpoint copy_keys (ks : list text) (other : value) : M value unit :=
  match ks with
  | [] => mret tt
  | k :: ks => v ← liftM (pget other (KString k)); passign [KString k] v ;; copy_keys ks other
  end.
Definition set_all (other : Configuration) : M Configuration unit := fun c =>
  match keys other with
  | Ok ks => at_root (copy_keys ks (root other)) c
  | Throw e => (Throw e, c)
  | Undef => (Undef, c)
  | NoFuel => (NoFuel, c)
  end.

(** ** Paths *)

(** The value that a path leads to. *)
Definition assoc {A} (k : key) (es : list (key * A)) : option A := find_key k es ≫= fun i => snd <$> es !! i.
Definition child (k : key) (v : value) : option value := if isMap v then assoc k (ventries v) else None.
Fixpoint at_path (path : list key) (v : value) : option value :=
  match path with [] => Some v | k :: path => child k v ≫= at_path path end.

(** No component of the path, but for the last one, is there and is not a map. *)
Fixpoint open (path : list key) (v : value) : bool :=
  match path with
  | [] => true
  | k :: path => isMap v && match child k v with Some w => bool_decide (path = []) || open path w | None => true end
  end.

(** A component of the path, but for the last one, is a scalar. *)
Fixpoint blocked (path : list key) (v : value) : bool :=
  match path with
  | [] => false
  | k :: path =>
      match vshape v with
      | SAtom _ => true
      | SList => false
      | _ => match child k v with Some w => bool_decide (path <> []) && blocked path w | None => false end
      end
  end.

Lemma text_comparable s (v : value) : text_keys v = true -> isMap v = true -> comparable (KString s) (ventries v) = true.
Proof.
  destruct v as [sh es]. simpl. intros [H _]%andb_prop Hm. unfold comparable. apply forallb_forall. intros e He.
  assert (Ht : text_key e.1 = true) by (destruct sh; try done; by apply (proj1 (forallb_forall _ _) H)). by destruct e.1.
Qed.

Lemma assoc_cons {A} k (e : key * A) es : assoc k (e :: es) = if decide (e.1 = k) then Some e.2 else assoc k es.
Proof. unfold assoc. simpl. case_decide; [done|]. by destruct (find_key k es). Qed.

Lemma assoc_app {A} k (es fs : list (key * A)) : assoc k (es ++ fs) = match assoc k es with Some a => Some a | None => assoc k fs end.
Proof. induction es as [|e es IH]; [done|]. simpl. rewrite !assoc_cons. by case_decide. Qed.

Lemma assoc_insert {A} k k' i (a : A) es : assoc k' (insert_entry i (k, a) es) =
  if decide (k = k') then match assoc k' (take i es) with Some b => Some b | None => Some a end else assoc k' es.
Proof.
  unfold insert_entry. rewrite assoc_app, assoc_cons. simpl. case_decide; [done|].
  pose proof (assoc_app k' (take i es) (drop i es)) as E. by rewrite take_drop in E.
Qed.

Lemma assoc_find {A} k (es : list (key * A)) : match find_key k es with
  | Some i => exists a, es !! i = Some (k, a) /\ assoc k es = Some a
  | None => assoc k es = None
  end.
Proof.
  induction es as [|e es IH]; [done|]. rewrite assoc_cons. simpl. case_decide as Hk; [exists e.2; simpl; rewrite <- Hk; by destruct e|].
  destruct (find_key k es) as [i|]; simpl; [|done]. exact IH.
Qed.

Lemma assoc_set {A} k k' i (a : A) es : find_key k es = Some i -> assoc k' (set_entry i a es) = if decide (k = k') then Some a else assoc k' es.
Proof.
  unfold set_entry. revert i. induction es as [|e es IH]; intros i E; simpl in E; [done|]. case_decide as Hk.
  - injection E as <-. simpl. rewrite !assoc_cons. simpl. rewrite Hk. by case_decide.
  - destruct (find_key k es) as [j|]; [|done]. injection E as <-. simpl. rewrite !assoc_cons. change (list_alter ?f j es) with (alter f j es). rewrite IH by done.
    case_decide as H1; case_decide; try done. by subst.
Qed.

Lemma assoc_none_take {A} k i (es : list (key * A)) : assoc k es = None -> assoc k (take i es) = None.
Proof. pose proof (assoc_app k (take i es) (drop i es)) as E. rewrite take_drop in E. rewrite E. by destruct (assoc k (take i es)). Qed.

Lemma assoc_elem {A} k (es : list (key * A)) a : assoc k es = Some a -> (k, a) ∈ es.
Proof. pose proof (assoc_find k es) as H. destruct (find_key k es) as [i|]; [|by rewrite H]. destruct H as (b & E & ->). intros [= ->]. by eapply list_elem_of_lookup_2. Qed.

Lemma text_keys_child k v w : text_keys v = true -> child k v = Some w -> text_keys w = true.
Proof.
  unfold child. intros Ht Hc. destruct (isMap v); [|done]. apply assoc_elem, list_elem_of_In in Hc. destruct v as [sh es]. simpl in *. apply andb_prop in Ht as [_ Ht].
  rewrite forallb_forall in Ht. by apply (Ht (k, w)).
Qed.

(** *** Looking up *)

Section Text.
Context (s : text) (v : value) (Ht : text_keys v = true) (Hm : isMap v = true).

Lemma contains_child : contains_of (vshape v) (KString s) (ventries v) = Ok (bool_decide (is_Some (child (KString s) v))).
Proof using Ht Hm.
  pose proof (text_comparable s v Ht Hm) as Hc. unfold child. rewrite Hm. pose proof (assoc_find (KString s) (ventries v)) as H. unfold contains_of. rewrite Hc.
  assert (E : bool_decide (is_Some (find_key (KString s) (ventries v))) = bool_decide (is_Some (assoc (KString s) (ventries v)))).
  { destruct (find_key _ _); [destruct H as (a & _ & ->); by rewrite !bool_decide_eq_true_2|by rewrite H]. }
  rewrite E. clear -Hm. by destruct v as [[| | |] es].
Qed.

Lemma pget_child w : child (KString s) v = Some w -> pget v (KString s) = Ok w.
Proof using Ht Hm.
  pose proof (text_comparable s v Ht Hm) as Hc. unfold child, pget. rewrite Hm. pose proof (assoc_find (KString s) (ventries v)) as H. intros Ew.
  assert (E : element_of (vshape v) (KString s) vnil (ventries v) = match find_key (KString s) (ventries v) with Some i => Ok (i, None) | None => Undef end).
  { destruct (find_key _ _) eqn:Ef; [|congruence]. unfold element_of. rewrite Hc, Ef. clear -Hm. by destruct v as [[| | |] es]. }
  rewrite E. destruct (find_key _ _); [|congruence]. destruct H as (a & -> & H). congruence.
Qed.
End Text.

Lemma look_at_path (ts : list text) v : text_keys v = true ->
  match at_path (KString <$> ts) v with
  | Some w => look (KString <$> ts) v = Ok (true, w)
  | None => exists r, look (KString <$> ts) v = Ok (false, r)
  end.
Proof.
  revert v. induction ts as [|s ts IH]; intros v Ht; [done|]. simpl. change (list_fmap text key KString ts) with (KString <$> ts).
  destruct (isMap v) eqn:Hm; [|unfold child; rewrite Hm; simpl; eauto]. rewrite (contains_child s v Ht Hm). simpl.
  destruct (child (KString s) v) as [w|] eqn:Ec; simpl; [|eauto]. rewrite (pget_child s v Ht Hm w Ec). simpl. apply IH. by eapply text_keys_child.
Qed.

Lemma at_path_app p q v : at_path (p ++ q) v = at_path p v ≫= at_path q.
Proof. revert v. induction p as [|k p IH]; intros v; [done|]. simpl. destruct (child k v); [apply IH|done]. Qed.

(** *** Changing one component *)

Record updated (k : key) (x v v' : value) : Prop := {
  updated_map : isMap v' = true;
  updated_child k' : child k' v' = if decide (k = k') then Some x else child k' v;
  updated_text : text_keys v = true -> text_keys x = true -> text_keys v' = true;
}.

Lemma text_keys_entries sh es : text_keys (V sh es) = true <->
  (isMap (V sh es) = true -> forall e, e ∈ es -> text_key e.1 = true) /\ forall e, e ∈ es -> text_keys e.2 = true.
Proof.
  simpl. rewrite andb_true_iff, forallb_forall. setoid_rewrite list_elem_of_In. destruct sh; rewrite ?forallb_forall; naive_solver.
Qed.

Lemma isMap_shape sh (es fs : list (key * value)) : isMap (V sh es) = isMap (V sh fs).
Proof. by destruct sh. Qed.

Lemma elem_of_set_entry {A} i (a : A) es e : e ∈ set_entry i a es -> e.1 ∈ es.*1 /\ (e.2 = a \/ e ∈ es).
Proof.
  intros [j He]%list_elem_of_lookup. split.
  - rewrite <- (set_entry_keys i a es). apply list_elem_of_fmap_2. by eapply list_elem_of_lookup_2.
  - unfold set_entry in He. destruct (decide (i = j)) as [->|Hne].
    + rewrite list_lookup_alter_eq in He. destruct (es !! j); [|done]. injection He as <-. by left.
    + rewrite list_lookup_alter_ne in He by done. right. by eapply list_elem_of_lookup_2.
Qed.

Section Element.
Context (s : text) (v : value) (Ht : text_keys v = true) (Hm : isMap v = true).
Let k := KString s.

Lemma element_of_map : exists i es', element_of (vshape v) k vnil (ventries v) = Ok (i, es') /\
  match find_key k (ventries v) with Some j => i = j /\ es' = None | None => es' = Some (insert_entry i (k, vnil) (ventries v)) /\ (i <= length (ventries v))%nat end.
Proof using Ht Hm.
  pose proof (text_comparable s v Ht Hm) as Hc. fold k in Hc. destruct v as [sh es]. simpl in *. unfold element_of. rewrite Hc. destruct (find_key k es) as [j|] eqn:E.
  - destruct sh; try done; eauto.
  - destruct sh; try done; eexists _, _; (split; [done|]); split; try done. unfold map_position. apply length_filter.
Qed.

(** The elements after [element], with the one of the key. *)
Lemma element_entries : exists i es' x, element_of (vshape v) k vnil (ventries v) = Ok (i, es') /\
  let es := default (ventries v) es' in
  es !! i = Some (k, x) /\ default vnil (child k v) = x /\ find_key k es = Some i /\
  (forall k', k <> k' -> assoc k' es = assoc k' (ventries v)) /\ (forall e, e ∈ es -> e ∈ ventries v \/ e = (k, vnil)).
Proof using Ht Hm.
  destruct element_of_map as (i & es' & E & H). exists i, es'. pose proof (assoc_find k (ventries v)) as Ha. unfold child. rewrite Hm.
  destruct (find_key k (ventries v)) as [j|] eqn:Ef.
  - destruct H as [-> ->]. destruct Ha as (a & Ea & ->). exists a. split_and!; try done. by left.
  - destruct H as [-> Hi]. rewrite Ha. exists vnil. split; [done|]. simpl. set (es := ventries v) in *. split_and!; try done.
    + unfold insert_entry. rewrite lookup_app_r by (rewrite length_take; lia). rewrite length_take. by replace (i - Nat.min i (length es))%nat with 0%nat by lia.
    + unfold insert_entry. clear -Ef Hi. revert i Hi. induction es as [|e es IH]; intros [|i] Hi; simpl in *; try lia; try (by rewrite decide_True).
      case_decide; [done|]. destruct (find_key k es); [done|]. rewrite IH by (done || lia). done.
    + intros k' Hk. rewrite assoc_insert. by rewrite decide_False.
    + intros e. rewrite insert_entry_perm, elem_of_cons. tauto.
Qed.

Lemma pelement_updated (m : M value unit) : exists v', pelement k m v = ((m (default vnil (child k v))).1, v') /\ updated k (m (default vnil (child k v))).2 v v'.
Proof using Ht Hm.
  destruct element_entries as (i & es' & x & E & El & -> & Ef & Ho & Hin). unfold pelement. rewrite E. cbv zeta. set (es := default (ventries v) es') in *. rewrite El.
  destruct (m x) as [o x'] eqn:Em. simpl. eexists. split; [done|].
  assert (Hm' : isMap (V (vshape v) (set_entry i x' es)) = true) by (rewrite (isMap_shape _ _ (ventries v)); by destruct v). split; [done| |].
  - intros k'. unfold child. rewrite Hm', Hm. simpl. rewrite (assoc_set k k' i x' es Ef). case_decide; [done|]. by apply Ho.
  - destruct v as [sh vs]. simpl in *. intros Ht' Hx'. change (text_keys (V sh vs) = true) in Ht'. apply text_keys_entries in Ht' as [H1 H2]. apply text_keys_entries.
    split; intros; match goal with H : ?e ∈ set_entry _ _ _ |- _ => apply elem_of_set_entry in H as [Hk Hv] end.
    + apply list_elem_of_fmap in Hk as (f & -> & Hf). destruct (Hin f Hf) as [Hf'| ->]; [by apply H1|done].
    + destruct Hv as [-> |Hf]; [done|]. destruct (Hin e Hf) as [Hf'| ->]; [by apply H2|done].
Qed.

Lemma pelement_same (m : M value unit) w o : child k v = Some w -> m w = (o, w) -> pelement k m v = (o, v).
Proof using Ht Hm.
  intros Ec Em. destruct element_of_map as (i & es' & E & H). unfold pelement. rewrite E. unfold child in Ec. rewrite Hm in Ec. pose proof (assoc_find k (ventries v)) as Ha.
  destruct (find_key k (ventries v)) as [j|]; [|congruence]. destruct H as [-> ->]. destruct Ha as (a & Ea & Ha). simpl. rewrite Ea. rewrite Ec in Ha. injection Ha as <-. rewrite Em.
  f_equal. pose proof (set_entry_id j (ventries v) (k, w) Ea) as Eid. simpl in Eid. rewrite Eid. by destruct v.
Qed.
End Element.

(** *** Setting a value *)

Lemma psetValue_cons k path y : path <> [] -> psetValue (k :: path) y =
  (b ← pcontains k; (if (b : bool) then mret tt else passign [k] makeOrderedMap) ;; pelement k (psetValue path y)).
Proof. by destruct path. Qed.

Lemma updated_unrelated k path q x v v' : updated k x v v' -> ~ k :: path `prefix_of` q -> ~ q `prefix_of` k :: path ->
  (forall q, ~ path `prefix_of` q -> ~ q `prefix_of` path -> at_path q x = child k v ≫= at_path q) -> at_path q v' = at_path q v.
Proof.
  intros U H1 H2 Hx. destruct q as [|k' q]; [exfalso; apply H2, prefix_nil|]. simpl. rewrite (updated_child _ _ _ _ U). case_decide as Hk; [|done]. subst. simpl.
  apply Hx; [contradict H1|contradict H2]; by apply prefix_cons.
Qed.

(** The component is there, or is made. *)
Lemma psetValue_component s path y v : path <> [] -> text_keys v = true -> isMap v = true ->
  exists v1 w, psetValue (KString s :: path) y v = pelement (KString s) (psetValue path y) v1 /\ text_keys v1 = true /\ isMap v1 = true /\ child (KString s) v1 = Some w /\
    w = default makeOrderedMap (child (KString s) v) /\ forall k', KString s <> k' -> child k' v1 = child k' v.
Proof.
  intros Hp Ht Hm. rewrite (psetValue_cons _ _ _ Hp).
  assert (E0 : pcontains (KString s) v = (Ok (bool_decide (is_Some (child (KString s) v))), v)) by (unfold pcontains; by rewrite contains_child).
  rewrite (M_bind_Ok _ _ _ _ _ E0). destruct (child (KString s) v) as [w|] eqn:Ec.
  - rewrite bool_decide_eq_true_2 by eauto. by exists v, w.
  - rewrite bool_decide_eq_false_2 by (by intros [? ?]). destruct (pelement_updated s v Ht Hm (passign [] makeOrderedMap)) as (v1 & E1 & U1). rewrite Ec in E1, U1. simpl in E1, U1.
    assert (E1' : passign [KString s] makeOrderedMap v = (Ok tt, v1)) by exact E1. rewrite (M_bind_Ok _ _ _ _ _ E1').
    exists v1, makeOrderedMap. split_and!; [done|by apply U1|apply U1|by rewrite (updated_child _ _ _ _ U1), decide_True|done|].
    intros k' Hk. by rewrite (updated_child _ _ _ _ U1), decide_False.
Qed.

Lemma at_path_empty q : q <> [] -> at_path q makeOrderedMap = None.
Proof. by destruct q. Qed.

Lemma psetValue_open ts y : forall v, ts <> [] -> text_keys v = true -> text_keys y = true -> open (KString <$> ts) v = true ->
  exists v', psetValue (KString <$> ts) y v = (Ok tt, v') /\ text_keys v' = true /\ isMap v' = true /\ at_path (KString <$> ts) v' = Some y /\
    forall q, ~ (KString <$> ts) `prefix_of` q -> ~ q `prefix_of` (KString <$> ts) -> at_path q v' = at_path q v.
Proof.
  induction ts as [|s ts IH]; intros v Hne Ht Hy Ho; [done|]. cbn [fmap list_fmap]. change (list_fmap text key KString ts) with (KString <$> ts). simpl in Ho. change (list_fmap text key KString ts) with (KString <$> ts) in Ho. apply andb_prop in Ho as [Hm Ho].
  destruct (decide (ts = [])) as [->|Hts].
  - destruct (pelement_updated s v Ht Hm (passign [] y)) as (v' & E & U). exists v'. split_and!; [exact E|by apply U|apply U| |].
    + simpl. by rewrite (updated_child _ _ _ _ U), decide_True.
    + intros q H1 H2. eapply updated_unrelated; [exact U|done..|]. intros q' H. exfalso. apply H, prefix_nil.
  - assert (Hp : KString <$> ts <> []) by (by destruct ts). destruct (psetValue_component s (KString <$> ts) y v Hp Ht Hm) as (v1 & w & -> & Ht1 & Hm1 & Ec & Ew & Hoth).
    assert (Hopen : open (KString <$> ts) w = true).
    { subst w. rewrite (bool_decide_eq_false_2 (KString <$> ts = [])) in Ho by done. destruct (child (KString s) v); [done|by destruct ts]. }
    destruct (IH w Hts (text_keys_child _ _ _ Ht1 Ec) Hy Hopen) as (w' & Epw & Htw & _ & Hw & Hq).
    destruct (pelement_updated s v1 Ht1 Hm1 (psetValue (KString <$> ts) y)) as (v' & E & U). rewrite Ec in E, U. simpl in E, U. rewrite Epw in E, U. simpl in E, U.
    exists v'. split_and!; [exact E|by apply U|apply U|simpl; by rewrite (updated_child _ _ _ _ U), decide_True|].
    intros q H1 H2. etransitivity; [eapply updated_unrelated; [exact U|exact H1|exact H2|]; intros q' H1' H2'; rewrite Ec; by apply Hq|].
    destruct q as [|k' q]; [exfalso; apply H2, prefix_nil|]. simpl. destruct (decide (KString s = k')) as [<-|Hk]; [|by rewrite Hoth].
    rewrite Ec, Ew. destruct (child (KString s) v); [done|]. apply at_path_empty. intros ->. apply H2, prefix_cons, prefix_nil.
Qed.

Lemma psetValue_blocked ts y : forall v, text_keys v = true -> blocked (KString <$> ts) v = true -> psetValue (KString <$> ts) y v = (Throw BadOperator, v).
Proof.
  induction ts as [|s ts IH]; intros v Ht Hb; [done|]. cbn [fmap list_fmap] in *. change (list_fmap text key KString ts) with (KString <$> ts) in *. simpl in Hb.
  destruct (decide (ts = [])) as [->|Hts].
  - destruct v as [[a| | |] es]; try done; simpl in Hb; by destruct (child _ _).
  - assert (Hp : KString <$> ts <> []) by (by destruct ts). rewrite (psetValue_cons _ _ _ Hp). destruct (isMap v) eqn:Hm.
    + destruct (child (KString s) v) as [w|] eqn:Ec; [|by destruct v as [[a| | |] es]]. assert (Hbw : blocked (KString <$> ts) w = true).
      { destruct v as [[a| | |] es]; try done; simpl in Hb; by apply andb_prop in Hb as [_ Hb]. }
      assert (E0 : pcontains (KString s) v = (Ok true, v)) by (unfold pcontains; rewrite contains_child, Ec by done; by rewrite bool_decide_eq_true_2 by eauto).
      rewrite (M_bind_Ok _ _ _ _ _ E0). apply (pelement_same s v Ht Hm _ w); [done|]. apply IH; [by eapply text_keys_child|done].
    + destruct v as [[[| | | |]| | |] es]; done.
Qed.

(** ** Types of parameters *)

(** What [set] makes of a parameter is turned back by [get]. *)
Class Lawful {T} (cd : codec T) : Prop := {
  from_into x : valid cd x -> from cd (into cd x) = Ok x;
  into_text x : valid cd x -> text_keys (into cd x) = true;
}.

#[export] Instance bool_lawful : Lawful bool_codec.
Proof. by split. Qed.
#[export] Instance int_lawful : Lawful int_codec.
Proof. split; [|done]. intros n Hn. simpl in *. rewrite (wrapS_id 32) by (done || apply in_S_spec; lia). by rewrite Z.eqb_refl. Qed.
#[export] Instance long_lawful : Lawful long_codec.
Proof. by split. Qed.
Lemma wrapU_wrapS w z : 0 < w -> wrapU w (wrapS w z) = wrapU w z.
Proof.
  intros Hw. unfold wrapS, to_signed, wrapU. destruct (_ <? _); [by rewrite Z.mod_mod by lia|].
  rewrite <- (Z.add_opp_r _ (2 ^ w)), <- Z.add_mod_idemp_r, Z.mod_opp_l_z, Z.add_0_r by (lia || apply Z.mod_same; lia). by rewrite Z.mod_mod by lia.
Qed.
#[export] Instance size_lawful : Lawful size_codec.
Proof. split; [|done]. intros n Hn. simpl in *. f_equal. rewrite wrapU_wrapS by lia. apply wrapU_id. by apply in_U_spec. Qed.
#[export] Instance double_lawful : Lawful double_codec.
Proof. by split. Qed.
#[export] Instance string_lawful pd : Lawful (string_codec pd).
Proof. by split. Qed.
#[export] Instance configuration_lawful sep : Lawful (configuration_codec sep).
Proof. split; [|by intros c [_ H]]. intros c [<- _]. simpl. by destruct c. Qed.

Lemma elements_into {T} (cd : codec T) `{!Lawful cd} xs : forall i, Forall (valid cd) xs -> i + zlen xs <= 2 ^ 31 - 1 ->
  elements cd i (ventries (of_list (into cd <$> xs))) = Ok xs.
Proof.
  induction xs as [|x xs IH]; intros i HF Hi; [done|]. apply Forall_cons in HF as [Hx HF]. simpl. rewrite from_into by done. simpl.
  unfold zlen in *. simpl in Hi. destruct (Z.eqb_spec i (2 ^ 31 - 1)); [lia|]. unfold of_list in IH. simpl in IH. rewrite IH by (done || lia). done.
Qed.
#[export] Instance vector_lawful {T} (cd : codec T) `{!Lawful cd} : Lawful (vector_codec cd).
Proof.
  split; intros xs [HF Hl].
  - apply (elements_into cd xs 0); [done|lia].
  - apply text_keys_entries. split; [done|]. intros e He. simpl in He. apply list_elem_of_fmap in He as (v & -> & Hv). apply list_elem_of_fmap in Hv as (x & -> & Hx).
    apply into_text. rewrite Forall_forall in HF. by apply HF.
Qed.

(** ** Properties *)

Lemma get_at {T} (cd : codec T) s c : text_keys (root c) = true ->
  get cd s c = match at_path (path_of c s) (root c) with Some w => x ← from cd w; Ok (Some x) | None => Ok None end.
Proof.
  intros Ht. unfold get, lookUp. pose proof (look_at_path (tokenize (Tokenizer_string [separator c] false) s) (root c) Ht) as H. fold (path_of c s) in H.
  destruct (at_path (path_of c s) (root c)); [by rewrite H|]. by destruct H as [r ->].
Qed.

(** C31. A parameter that was set has its value: for every type of parameter (logical,
    integers of both widths and signs, doubles, texts, lists, other configurations), [set]
    succeeds where no component of the name is there and is not a map, making the maps
    that are missing; [get] then returns the value, and every parameter whose name is
    neither part of the name nor the other way round is what it was, for every type.  Where
    a component is a scalar, [set] throws and changes nothing. *)
Theorem config_set_get {T} (cd : codec T) `{!Lawful cd} (s : text) (x : T) (c : Configuration) :
  text_keys (root c) = true -> path_of c s <> [] -> valid cd x ->
  (open (path_of c s) (root c) = true -> exists c', set cd s x c = (Ok tt, c') /\ text_keys (root c') = true /\ separator c' = separator c /\
    get cd s c' = Ok (Some x) /\
    forall t U (cd' : codec U), ~ path_of c s `prefix_of` path_of c t -> ~ path_of c t `prefix_of` path_of c s -> get cd' t c' = get cd' t c) /\
  (blocked (path_of c s) (root c) = true -> set cd s x c = (Throw BadOperator, c)).
Proof.
  intros Ht Hp Hx. unfold set, setValue, at_root. set (ts := tokenize (Tokenizer_string [separator c] false) s). assert (Hts : ts <> []) by (intros E; apply Hp; unfold path_of; by fold ts; rewrite E).
  assert (Ep : path_of c s = KString <$> ts) by done. rewrite Ep. split.
  - intros Ho. destruct (psetValue_open ts (into cd x) (root c) Hts Ht (into_text x Hx) Ho) as (v' & E & Ht' & _ & Hat & Hq). rewrite E. eexists. split; [done|]. split_and!; [done..| |].
    + rewrite get_at by done. unfold path_of. simpl. fold ts. rewrite Hat. by rewrite from_into.
    + intros t U cd' H1 H2. rewrite !get_at by done. change (path_of (Build_Configuration v' (separator c)) t) with (path_of c t). simpl. by rewrite (Hq (path_of c t) H1 H2).
  - intros Hb. rewrite (psetValue_blocked ts (into cd x) (root c) Ht Hb). by destruct c.
Qed.

Definition sample : Configuration := Build_Configuration
  (V SOrderedMap [(KString (str "a"), V SMap [(KString (str "b"), of_atom (ANumber 1))]); (KString (str "n"), of_list [of_atom (ANumber 1); of_atom (ANumber 2)])]) "."%byte.

Lemma config_set_get_witness : exists c', set (vector_codec int_codec) (str "a.c.d") [3; -4] sample = (Ok tt, c') /\
  get (vector_codec int_codec) (str "a.c.d") c' = Ok (Some [3; -4]) /\ get long_codec (str "a.b") c' = Ok (Some 1).
Proof.
  destruct (config_set_get (vector_codec int_codec) (str "a.c.d") [3; -4] sample) as [H _]; [by vm_compute|by vm_compute|split; [repeat constructor; simpl; lia|by vm_compute]|].
  destruct (H ltac:(by vm_compute)) as (c' & E & _ & _ & Hg & Hq). exists c'. split; [exact E|]. split; [exact Hg|]. etransitivity; [apply Hq|by vm_compute].
  - vm_compute. intros [q Hq']. discriminate.
  - vm_compute. intros [q Hq']. discriminate.
Defined.

(** ** What configurations do not do *)

(** [remove] does not take its argument as a path: a parameter below the root stays. *)
Example remove_is_not_a_path : exists c1 c2, set long_codec (str "x.y") 7 (new_configuration "."%byte) = (Ok tt, c1) /\
  remove (str "x.y") c1 = (Ok tt, c2) /\ has (str "x.y") c2 = Ok true.
Proof. eexists _, _. split; [vm_compute; reflexivity|]. split; [vm_compute; reflexivity|]. vm_compute. reflexivity. Qed.

(** A name below a list changes the first element of the list, and is not found. *)
Example set_into_list : exists c1, set long_codec (str "n.name") 7 sample = (Ok tt, c1) /\
  has (str "n.name") c1 = Ok false /\ get (vector_codec long_codec) (str "n") c1 = Ok (Some [7; 2]).
Proof. eexists. split; [vm_compute; reflexivity|]. split; vm_compute; reflexivity. Qed.

(** A name without components reads past the end of the path. *)
Example set_empty_name : (set long_codec (str ".") 7 sample).1 = Undef.
Proof. reflexivity. Qed.

(** NaN has no integer value, and is not rejected; the least [long long] has one, and is. *)
Example nan_as_long : from long_codec (into double_codec S754_nan) = Undef /\ from long_codec (into double_codec (of_Z (- 2 ^ 63))) = Throw BadConversion.
Proof. split; vm_compute; reflexivity. Qed.
