(* ===== verification/ConfigurationShared.v ===== *)
(** * Configurations that share their contents

    [LocalConfiguration::setValue], [Configuration::lookUp] and the assignment of
    configurations, on the heap of contents of [SharedValue.v]: copies of a configuration
    share the content of their root, and [setValue] clones what is shared on its way.  The
    refinement of [Configuration.v], where every configuration has a value of its own. *)
From S2P Require Import Prelude Text SharedValue SharedValueSpec Configuration.
#[local] Set Warnings "-clear-no-such-hyp".
Implicit Types (L F : heap_map) (R : list Z).

(** ** Temporaries *)

(** [Value(x)]: a new content with new contents for its elements *)
Fixpoint alloc (v : value) : M heap Z :=
  let 'V sh vs := v in
  es ← (fix go (vs : list (key * value)) : M heap (list (key * Z)) :=
          match vs with
          | [] => mret []
          | (k, w) :: vs => x ← alloc w; attach x ;; rest ← go vs; mret ((k, x) :: rest)
          end) vs;
  new_content (Cell sh es).

(** The destructor runs whether or not an exception is thrown. *)
Definition finally {S A} (m : M S A) (f : M S unit) : M S A := fun s =>
  let '(o, s) := m s in
  match f s with
  | (Ok _, s) => (o, s)
  | (Throw e, s) => (Throw e, s)
  | (Undef, s) => (Undef, s)
  | (NoFuel, s) => (NoFuel, s)
  end.
Definition with_temporary (fuel : nat) (v : value) (m : Z -> M (heap * Z) unit) : M (heap * Z) unit :=
  t ← slot_heap (alloc v); slot_heap (attach t) ;; finally (m t) (slot_heap (detach fuel t)).

(** ** Configurations *)

(** [if (root.shared()) root = root.clone();] *)
Definition clone_shared (fuel : nat) : M (heap * Z) unit :=
  b ← at_slot shared;
  if (b : bool) then t ← at_slot (clone fuel); slot_heap (attach t) ;; assign fuel t ;; slot_heap (detach fuel t) else mret tt.

(** [LocalConfiguration::setValue(path, i, root, value)] *)
Fixpoint setValue_at (fuel : nat) (path : list key) (y : Z) : M (heap * Z) unit :=
  clone_shared fuel ;;
  match path with
  | [] => liftM Undef
  | [k] => assign_path fuel [k] y
  | k :: path =>
      b ← at_slot (fun l => contains l k);
      (if (b : bool) then mret tt else with_temporary fuel makeOrderedMap (fun t => assign_path fuel [k] t)) ;;
      update fuel ;; at_slot (fun l => i ← element l k; in_element l i (setValue_at fuel path y))
  end.

(** The loop of [lookUp] on the local variable [result] *)
Definition is_map_at (l : Z) : M heap bool := e ← SharedValue.get l; mret (match shape_ e.2 with SMap | SOrderedMap => true | _ => false end).
Fixpoint lookUp_at (fuel : nat) (path : list key) : M (heap * Z) bool :=
  match path with
  | [] => mret true
  | k :: path =>
      m ← at_slot is_map_at;
      if (m : bool) then
        b ← at_slot (fun l => contains l k);
        if (b : bool) then (fun s => get_element fuel s.2 k s) ;; lookUp_at fuel path else mret false
      else mret false
  end.

(** A call of [lookUp]: [result] is a copy of the root; [m] reads it, and it goes away. *)
Definition look_at {A} (fuel : nat) (path : list key) (y : Z) (m : bool -> M (heap * Z) A) : M heap A := fun h =>
  let '(o, (h, z)) := (slot_heap (attach y) ;; finally (b ← lookUp_at fuel path; m b) (at_slot (detach fuel))) (h, y) in (o, h).
(** [Configuration::has]; and [Configuration::get] of a scalar, or [isIntegral] and the
    others, which read the content that was found *)
Definition has_at (fuel : nat) (path : list key) (y : Z) : M heap bool := look_at fuel path y mret.
Definition content_at (fuel : nat) (path : list key) (y : Z) : M heap (option shape) :=
  look_at fuel path y (fun found => if (found : bool) then e ← at_slot SharedValue.get; mret (Some (shape_ e.2)) else mret None).

(** [Configuration::Configuration(other, path)]: the root of a new configuration, or nothing *)
Definition not_found (path : list key) : exn := ConfigurationNotFound (concat (key_text <$> path)).
Definition sub_at (fuel : nat) (path : list key) (y : Z) : M heap Z := fun h =>
  let '(o, (h, z)) := (slot_heap (attach y) ;; lookUp_at fuel path) (h, y) in
  match o with
  | Ok true => (Ok z, h)
  | Ok false => finally (throwM (not_found path)) (detach fuel z) h
  | Throw e => finally (throwM e) (detach fuel z) h
  | Undef => finally (liftM Undef) (detach fuel z) h
  | NoFuel => finally (liftM NoFuel) (detach fuel z) h
  end.

(** [LocalConfiguration::set(other)]: [root[key] = other_root[key]] for the keys of the other
    root, where the constant [operator[]] returns a copy *)
Definition keys_at (l : Z) : M heap (list key) :=
  e ← SharedValue.get l; match shape_ e.2 with SMap | SOrderedMap => mret (entries e.2).*1 | _ => throwM BadOperator end.
Definition with_element (fuel : nat) (l : Z) (k : key) (m : Z -> M (heap * Z) unit) : M (heap * Z) unit :=
  t ← slot_heap (i ← element l k; in_element l i (fun s => (Ok s.2, s)));
  slot_heap (attach t) ;; finally (m t) (slot_heap (detach fuel t)).
Fixpoint copy_keys_at (fuel : nat) (ks : list text) (y : Z) : M (heap * Z) unit :=
  match ks with
  | [] => mret tt
  | k :: ks => with_element fuel y (KString k) (assign_path fuel [KString k]) ;; copy_keys_at fuel ks y
  end.
Definition set_all_at (fuel : nat) (y : Z) : M (heap * Z) unit :=
  ks ← slot_heap (keys_at y); copy_keys_at fuel (map key_text ks) y.

(** ** Programs *)

(** Statements on the roots of configurations; a name is given by its components. *)
Inductive statement :=
| New (x : nat)
| CopyOf (x y : nat)
| SubOf (x y : nat) (path : list key)
| Set_ (x : nat) (path : list key) (v : value)
| SetConfiguration (x : nat) (path : list key) (y : nat)
| SetAll (x y : nat)
| RemoveKey (x : nat) (k : key)
| Has (y : nat) (path : list key)
| Read (y : nat) (path : list key).

Inductive reply := Done | Found (b : bool) | Content (c : option shape).
Definition no_reply {S} (m : M S unit) : M S reply := m ;; mret Done.
(** A call on the root of [y]. *)
Definition ask {A} (y : nat) (m : Z -> M heap A) (f : A -> reply) : M (heap * list Z) reply := fun s =>
  match s.2 !! y with
  | Some l => let '(o, h) := m l s.1 in (a ← o; Ok (f a), (h, s.2))
  | None => (Undef, s)
  end.
Definition run_statement (fuel : nat) (o : statement) : M (heap * list Z) reply :=
  match o with
  | New x => no_reply (on_var x (construct fuel SOrderedMap))
  | CopyOf x y => no_reply (with_var y (fun l => on_var x (assign fuel l)))
  | SubOf x y path => no_reply (with_var y (fun l => on_var x (t ← slot_heap (sub_at fuel path l); assign fuel t ;; slot_heap (detach fuel t))))
  | Set_ x path v => no_reply (on_var x (with_temporary fuel v (setValue_at fuel path)))
  | SetConfiguration x path y => no_reply (with_var y (fun l => on_var x (setValue_at fuel path l)))
  | SetAll x y => no_reply (with_var y (fun l => on_var x (set_all_at fuel l)))
  | RemoveKey x k => no_reply (on_var x (SharedValue.remove fuel k))
  | Has y path => ask y (has_at fuel path) Found
  | Read y path => ask y (content_at fuel path) Content
  end.
Fixpoint run_statements (fuel : nat) (os : list statement) (s : heap * list Z) : list (outcome reply) * (heap * list Z) :=
  match os with
  | [] => ([], s)
  | o :: os => let '(r, s) := run_statement fuel o s in let '(rs, s) := run_statements fuel os s in (r :: rs, s)
  end.

(** The same on configurations that have values of their own *)
Definition sub_of (path : list key) (w v : value) : outcome unit * value :=
  match look path w with
  | Ok (true, u) => (Ok tt, u)
  | Ok (false, _) => (Throw (not_found path), v)
  | Throw e => (Throw e, v)
  | Undef => (Undef, v)
  | NoFuel => (NoFuel, v)
  end.
Definition pset_all (w : value) : M value unit := ks ← liftM (keys_of w); copy_keys (map key_text ks) w.
Definition pask (y : nat) (f : value -> outcome reply) : M (list value) reply := fun vs =>
  match vs !! y with Some v => (f v, vs) | None => (Undef, vs) end.
Definition found_reply (path : list key) (v : value) : outcome reply := '(b, _) ← look path v; Ok (Found b).
Definition content_reply (path : list key) (v : value) : outcome reply := '(b, u) ← look path v; Ok (Content (if (b : bool) then Some (vshape u) else None)).
Definition statement_meaning (o : statement) : M (list value) reply :=
  match o with
  | New x => no_reply (on_pvar x (fun _ => (Ok tt, makeOrderedMap)))
  | CopyOf x y => no_reply (with_pvar y (fun v => on_pvar x (fun _ => (Ok tt, v))))
  | SubOf x y path => no_reply (with_pvar y (fun w => on_pvar x (sub_of path w)))
  | Set_ x path v => no_reply (on_pvar x (psetValue path v))
  | SetConfiguration x path y => no_reply (with_pvar y (fun v => on_pvar x (psetValue path v)))
  | SetAll x y => no_reply (with_pvar y (fun w => on_pvar x (pset_all w)))
  | RemoveKey x k => no_reply (on_pvar x (premove k))
  | Has y path => pask y (found_reply path)
  | Read y path => pask y (content_reply path)
  end.
Fixpoint meaning (os : list statement) (vs : list value) : list (outcome reply) * list value :=
  match os with
  | [] => ([], vs)
  | o :: os => let '(r, vs) := statement_meaning o vs in let '(rs, vs) := meaning os vs in (r :: rs, vs)
  end.

(** A configuration is not put into itself; and the keys of one whose parameters are all
    copied are texts, as those of a configuration are. *)
Definition string_keys (v : value) : Prop := Forall (fun e => exists s, e.1 = KString s) (ventries v).
Definition sound (o : statement) (vs : list value) : Prop :=
  let n := length vs in
  match o with
  | New x | RemoveKey x _ | Set_ x _ _ | Has x _ | Read x _ => (x < n)%nat
  | CopyOf x y | SubOf x y _ => (x < n)%nat /\ (y < n)%nat
  | SetConfiguration x _ y => (x < n)%nat /\ (y < n)%nat /\ x <> y
  | SetAll x y => (x < n)%nat /\ x <> y /\ exists w, vs !! y = Some w /\ string_keys w
  end.
Fixpoint sound_run (os : list statement) (vs : list value) : Prop :=
  match os with [] => True | o :: os => sound o vs /\ sound_run os (statement_meaning o vs).2 end.

(** The depth of the values bounds the recursion of [clone] and [detach]. *)
Definition statement_fuel (o : statement) : nat := match o with Set_ _ _ v => Nat.max 2 (vheight v) | _ => 2 end.
Fixpoint config_fuel (os : list statement) (vs : list value) : nat :=
  match os with [] => 0 | o :: os => Nat.max (statement_fuel o) (Nat.max (max_height vs) (config_fuel os (statement_meaning o vs).2)) end.

(** ** Refinement *)

Lemma alloc_all (vs : list (key * value)) :
  Forall (fun e => forall h L F R, split h L F -> inv L R -> exists l h0 h' L', alloc e.2 h = (Ok l, h0) /\ attach l h0 = (Ok tt, h') /\ split h' L' F /\ inv L' (l :: R) /\ cells L ⊆ cells L' /\ den (cells L') l e.2) vs ->
  forall h L F R, split h L F -> inv L R -> exists es h' L',
  (fix go (vs : list (key * value)) : M heap (list (key * Z)) :=
          match vs with
          | [] => mret []
          | (k, w) :: vs => x ← alloc w; attach x ;; rest ← go vs; mret ((k, x) :: rest)
          end) vs h = (Ok es, h') /\ split h' L' F /\ inv L' (es.*2 ++ R) /\ es.*1 = vs.*1 /\ dens L' es.*2 vs.*2 /\ cells L ⊆ cells L'.
Proof.
  induction 1 as [|[k w] vs Hw _ IH]; intros h L F R Hs Hi; [exists [], h, L; split_and!; try done; constructor|]. simpl in Hw.
  destruct (Hw h L F R Hs Hi) as (x & h0 & h1 & L1 & E0 & E1 & Hs1 & Hi1 & Hsub1 & Hd). destruct (IH h1 L1 F (x :: R) Hs1 Hi1) as (es & h2 & L2 & E2 & Hs2 & Hi2 & Hk & HF & Hsub2).
  exists ((k, x) :: es), h2, L2. split; [by rewrite (M_bind_Ok _ _ _ _ _ E0), (M_bind_Ok _ _ _ _ _ E1), (M_bind_Ok _ _ _ _ _ E2)|].
  split; [done|]. split; [simpl; eapply inv_perm; [|exact Hi2]; by rewrite Permutation_middle|]. split; [simpl; by f_equal|].
  split; [constructor; [by eapply den_mono|done]|]. by etransitivity.
Qed.

Lemma alloc_spec v : forall h L F R, split h L F -> inv L R ->
  exists l h0 h' L', alloc v h = (Ok l, h0) /\ attach l h0 = (Ok tt, h') /\ split h' L' F /\ inv L' (l :: R) /\ cells L ⊆ cells L' /\ den (cells L') l v.
Proof.
  induction v as [sh vs IH] using value_ind'. intros h L F R Hs Hi. destruct (alloc_all vs IH h L F R Hs Hi) as (es & h1 & L1 & E1 & Hs1 & Hi1 & Hk & HF & Hsub1).
  destruct (new_spec h1 L1 F R sh es vs Hs1 Hi1 Hk HF) as (l & h2 & h3 & L2 & E2 & E3 & Hs3 & Hi3 & _ & Hsub2 & Hd).
  exists l, h2, h3, L2. split; [cbn [alloc]; by rewrite (M_bind_Ok _ _ _ _ _ E1)|]. split_and!; try done. by etransitivity.
Qed.

Lemma changes_seq m1 pm1 m2 pm2 fuel y w : changes m1 pm1 fuel y w -> (forall v v', (vheight v <= fuel)%nat -> pm1 v = (Ok tt, v') -> (vheight v' <= fuel)%nat) ->
  changes m2 pm2 fuel y w -> changes (m1 ;; m2) (pm1 ;; pm2) fuel y w.
Proof.
  intros H1 Hh H2 h L F R l v Hs Hi Hy Hnil Hd Hdy Hdn Hv. destruct (H1 h L F R l v Hs Hi Hy Hnil Hd Hdy Hdn Hv) as (o & v1 & h1 & l1 & L1 & Ep & E & Hs1 & Hi1 & Hd1 & Hk1).
  destruct o as [[]|e| |].
  - destruct (H2 h1 L1 F R l1 v1 Hs1 Hi1 Hy Hnil Hd1) as (o & v2 & h2 & l2 & L2 & Ep2 & E2 & Hs2 & Hi2 & Hd2 & Hk2); [by apply Hk1..|by eapply Hh|].
    exists o, v2, h2, l2, L2. split; [by rewrite (M_bind_Ok _ _ _ _ _ Ep)|]. split; [by rewrite (M_bind_Ok _ _ _ _ _ E)|]. split_and!; try done. by eapply keeps_trans.
  - exists (Throw e), v1, h1, l1, L1. split; [by rewrite (M_bind_Throw _ _ _ _ _ Ep)|]. split; [by rewrite (M_bind_Throw _ _ _ _ _ E)|]. by split_and!.
  - exists Undef, v1, h1, l1, L1. unfold mbind, M_bind. rewrite Ep, E. by split_and!.
  - exists NoFuel, v1, h1, l1, L1. unfold mbind, M_bind. rewrite Ep, E. by split_and!.
Qed.

Lemma changes_none fuel y w : changes (mret tt) (mret tt) fuel y w.
Proof. intros h L F R l v Hs Hi Hy Hnil Hd Hdy Hdn Hv. exists (Ok tt), v, h, l, L. split_and!; try done. by intros ??. Qed.

Lemma changes_undef fuel y w : changes (liftM Undef) (liftM Undef) fuel y w.
Proof. intros h L F R l v Hs Hi Hy Hnil Hd Hdy Hdn Hv. exists Undef, v, h, l, L. split_and!; try done. by intros ??. Qed.

Lemma den_cell h L F R l v : split h L F -> inv L (l :: R) -> den (cells L) l v -> exists n es, SharedValue.get l h = (Ok (n, Cell (vshape v) es), h) /\ es.*1 = (ventries v).*1.
Proof.
  intros Hs Hi Hd. destruct v as [sh vs]. apply den_children in Hd as (es & Ec & Hk & _). destruct (live_lookup _ _ l Hi ltac:(by left)) as (n & c & E & _).
  rewrite (heap_cells_lookup _ _ _ _ E) in Ec. injection Ec as ->. exists n, es. split; [by eapply get_ok|done].
Qed.

Lemma contains_of_keys {A B} sh k (es : list (key * A)) (vs : list (key * B)) : es.*1 = vs.*1 -> contains_of sh k es = contains_of sh k vs.
Proof. intros E. unfold contains_of. by rewrite (comparable_keys k _ _ E), (find_key_keys k _ _ E), (zlen_keys _ _ E). Qed.

Lemma contains_at h L F R l v k : split h L F -> inv L (l :: R) -> den (cells L) l v -> at_slot (fun l => contains l k) (h, l) = (contains_of (vshape v) k (ventries v), (h, l)).
Proof.
  intros Hs Hi Hd. destruct (den_cell h L F R l v Hs Hi Hd) as (n & es & E & Hk). unfold at_slot, slot_heap, contains. cbn [fst snd].
  rewrite (M_bind_Ok _ _ _ _ _ E). cbn [fst snd shape_ entries]. unfold liftM. by rewrite (contains_of_keys _ _ _ _ Hk).
Qed.

Lemma changes_contains k (f : bool -> M (heap * Z) unit) (pf : bool -> M value unit) fuel y w : (forall b, changes (f b) (pf b) fuel y w) ->
  changes (at_slot (fun l => contains l k) ≫= f) (pcontains k ≫= pf) fuel y w.
Proof.
  intros Hf h L F R l v Hs Hi Hy Hnil Hd Hdy Hdn Hv. pose proof (contains_at h L F R l v k Hs Hi Hd) as E.
  assert (Ep : pcontains k v = (contains_of (vshape v) k (ventries v), v)) by done. unfold mbind, M_bind. rewrite E, Ep.
  destruct (contains_of (vshape v) k (ventries v)) as [b|e| |]; [by apply (Hf b h L F R l v)|..]; eexists _, v, h, l, L; (split_and!; try done; by intros ??).
Qed.

(** The temporary lives while [m] runs, and is released. *)
Lemma changes_temporary fuel v0 m pm y w : (vheight v0 <= fuel)%nat -> (forall t, changes (m t) pm fuel t v0) -> changes (with_temporary fuel v0 m) pm fuel y w.
Proof.
  intros H0 Hm h L F R l v Hs Hi Hy Hnil Hd Hdy Hdn Hv. destruct (alloc_spec v0 h L F (l :: R) Hs Hi) as (t & h0 & h1 & L1 & E0 & E1 & Hs1 & Hi1 & Hsub & Hdt).
  assert (Hi1' : inv L1 (l :: t :: R)) by (eapply inv_perm; [apply perm_swap|exact Hi1]).
  destruct (Hm t h1 L1 F (t :: R) l v Hs1 Hi1' ltac:(by left) ltac:(by right)) as (o & v' & h2 & l2 & L2 & Ep & E2 & Hs2 & Hi2 & Hd2 & Hk2); try (by eapply den_mono); try done.
  assert (Hi2' : inv L2 (t :: l2 :: R)) by (eapply inv_perm; [apply perm_swap|exact Hi2]).
  destruct (detach_spec fuel h2 L2 F (l2 :: R) t v0 Hs2 Hi2' ltac:(apply Hk2; [by left|done]) H0) as (h3 & L3 & E3 & Hs3 & Hi3 & Hk3 & _).
  exists o, v', h3, l2, L3. split; [done|]. split.
  { unfold with_temporary. rewrite (slot_bind _ _ _ _ _ (slot_heap_ok _ _ l _ _ E0)), (slot_bind _ _ _ _ _ (slot_heap_ok _ _ l _ _ E1)). unfold finally. rewrite E2.
    by rewrite (slot_heap_ok _ _ l2 _ _ E3). }
  split_and!; try done; [apply Hk3; [by left|done]|]. intros z u Hz Hdz. apply Hk3; [by right|]. apply Hk2; [by right|]. by eapply den_mono.
Qed.

Lemma clone_shared_spec fuel y w : changes (clone_shared fuel) (mret tt) fuel y w.
Proof.
  intros h L F R l v Hs Hi Hy Hnil Hd Hdy Hdn Hv. destruct (den_cell h L F R l v Hs Hi Hd) as (n & es & Eg & _).
  assert (E0 : at_slot shared (h, l) = (Ok (1 <? n), (h, l))) by (unfold at_slot, slot_heap, shared; cbn [fst snd]; by rewrite (M_bind_Ok _ _ _ _ _ Eg)).
  unfold clone_shared. rewrite (slot_bind _ _ _ _ _ E0). destruct (1 <? n); [|exists (Ok tt), v, h, l, L; split_and!; try done; by intros ??].
  destruct (clone_spec fuel h L F (l :: R) l v Hs Hi Hd Hv) as (t & h0 & h1 & L1 & c & E1 & E2 & Hs1 & Hi1 & _ & Hsub & Hdt).
  destruct (assign_temporary fuel h1 L1 F R l v t v Hs1 Hi1 (den_mono _ _ _ _ Hsub Hd) Hdt Hv Hv) as (h2 & L2 & E3 & Hs2 & Hi2 & Hd2 & Hk2).
  exists (Ok tt), v, h2, t, L2. split; [done|]. split.
  { assert (E1' : at_slot (clone fuel) (h, l) = (Ok t, (h0, l))) by (unfold at_slot; by apply slot_heap_ok). by rewrite (slot_bind _ _ _ _ _ E1'), (slot_bind _ _ _ _ _ (slot_heap_ok _ _ l _ _ E2)). }
  split_and!; try done. eapply keeps_trans; [by apply keeps_mono|done].
Qed.

Lemma passign_height k y v o v' n : passign [k] y v = (o, v') -> (vheight v <= n)%nat -> (S (vheight y) <= n)%nat -> (vheight v' <= n)%nat.
Proof.
  intros E Hv Hy. destruct n as [|n]; [lia|]. destruct v as [sh vs]. unfold passign, pelement in E. simpl vshape in E. simpl ventries in E.
  destruct (element_of sh k vnil vs) as [[i es']| | |] eqn:Ee; [|by injection E as <- <-..]. destruct (default vs es' !! i) as [[k0 x0]|]; [|by injection E as <- <-].
  injection E as <- <-. apply vheight_child. apply vheight_child in Hv. rewrite Forall_forall in *. intros e He. apply elem_of_set_entry in He as [_ [-> |He]]; [lia|].
  destruct es' as [es'|]; simpl in He; [|by apply Hv]. pose proof (element_of_keys sh k vnil vnil vs vs eq_refl) as H. rewrite Ee in H. destruct H as (_ & _ & -> & _).
  rewrite insert_entry_perm in He. apply elem_of_cons in He as [->|He]; [simpl; pose proof (vheight_pos y); lia|by apply Hv].
Qed.

Lemma changes_cloned m pm fuel y w : changes m pm fuel y w -> changes (clone_shared fuel ;; m) pm fuel y w.
Proof. intros Hm. exact (changes_seq _ (mret tt) m pm fuel y w (clone_shared_spec fuel y w) ltac:(by intros v v' Hv [= <-]) Hm). Qed.

Lemma setValue_at_spec fuel path : (2 <= fuel)%nat -> forall y w, changes (setValue_at fuel path y) (psetValue path w) fuel y w.
Proof.
  intros Hf. induction path as [|k path IH]; intros y w; cbn [setValue_at]; apply changes_cloned; [apply changes_undef|].
  destruct path as [|k' path]; [apply assign_path_spec|]. rewrite psetValue_cons by done. apply changes_contains. intros b. apply changes_seq.
  - destruct b; [apply changes_none|]. apply changes_temporary; [simpl; lia|]. intros t. apply assign_path_spec.
  - intros v v' Hv E. destruct b; [by injection E as <-|]. eapply passign_height; [exact E|done|simpl; lia].
  - apply element_changes, IH.
Qed.

(** *** Looking up *)

Lemma pget_contains v k : isMap v = true -> contains_of (vshape v) k (ventries v) = Ok true -> exists w, pget v k = Ok w /\ w ∈ (ventries v).*2.
Proof.
  intros Hm Hc. destruct v as [sh vs]. simpl in *. unfold pget. simpl.
  assert (Hf : comparable k vs = true /\ exists i, find_key k vs = Some i).
  { destruct sh as [a| | |]; try done; simpl in Hc; destruct (comparable k vs); try done; injection Hc as Hc; apply bool_decide_eq_true in Hc as [i Hi]; eauto. }
  destruct Hf as [Hcmp [i Hi]]. assert (E : element_of sh k vnil vs = Ok (i, None)) by (destruct sh; try done; simpl; by rewrite Hcmp, Hi). rewrite E.
  pose proof (assoc_find k vs) as Ha. rewrite Hi in Ha. destruct Ha as (a & Ea & _). rewrite Ea. exists a. split; [done|]. apply list_elem_of_fmap. exists (k, a). split; [done|by eapply list_elem_of_lookup_2].
Qed.

Lemma lookUp_at_spec fuel path : forall h L F R l v, split h L F -> inv L (l :: R) -> den (cells L) l v -> (vheight v <= fuel)%nat ->
  exists h' l' L' w, lookUp_at fuel path (h, l) = ('(b, _) ← look path v; Ok b, (h', l')) /\ split h' L' F /\ inv L' (l' :: R) /\ den (cells L') l' w /\ (vheight w <= fuel)%nat /\ keeps L L' R /\
    (forall b u, look path v = Ok (b, u) -> w = u).
Proof.
  induction path as [|k path IH]; intros h L F R l v Hs Hi Hd Hv; [exists h, l, L, v; split_and!; try done; [by intros ??|by intros ?? [= _ <-]]|]. cbn [lookUp_at].
  destruct (den_cell h L F R l v Hs Hi Hd) as (n & es & Eg & _).
  assert (E0 : at_slot is_map_at (h, l) = (Ok (isMap v), (h, l))) by (unfold at_slot, slot_heap, is_map_at; cbn [fst snd]; rewrite (M_bind_Ok _ _ _ _ _ Eg); by destruct v as [[| | |] vs]).
  rewrite (slot_bind _ _ _ _ _ E0). cbn [look].
  assert (Hsame : forall o : outcome (bool * value), (forall b u, o = Ok (b, u) -> v = u) -> exists h' l' L' w, ('(b, _) ← o; Ok b, (h, l)) = ('(b, _) ← o; Ok b, (h', l')) /\ split h' L' F /\
    inv L' (l' :: R) /\ den (cells L') l' w /\ (vheight w <= fuel)%nat /\ keeps L L' R /\ (forall b u, o = Ok (b, u) -> w = u))
    by (intros o Ho; exists h, l, L, v; split_and!; try done; by intros ??).
  destruct (isMap v) eqn:Hm; [|apply (Hsame (Ok (false, v))); by intros ?? [= _ <-]]. pose proof (contains_at h L F R l v k Hs Hi Hd) as Ec. unfold mbind at 1, M_bind. rewrite Ec.
  destruct (contains_of (vshape v) k (ventries v)) as [[|]|e| |] eqn:Eco; [|by apply (Hsame (Ok (false, v))); intros ?? [= _ <-]|by apply (Hsame (Throw e))|by apply (Hsame Undef)|by apply (Hsame NoFuel)].
  destruct (pget_contains v k Hm Eco) as (w & Ew & Hw).
  pose proof (get_element_spec fuel h L F R l v l v k Hs Hi ltac:(by left) Hd Hd Hv Hv ltac:(by rewrite Ew)) as Hg. rewrite Ew in Hg. destruct Hg as (h1 & l1 & L1 & E1 & Hs1 & Hi1 & Hd1 & Hk1).
  assert (Hhw : (vheight w <= fuel)%nat). { apply list_elem_of_fmap in Hw as (e & -> & [i He]%list_elem_of_lookup). by eapply vheight_entry. }
  destruct (IH h1 L1 F R l1 w Hs1 Hi1 Hd1 Hhw) as (h2 & l2 & L2 & w2 & E2 & Hs2 & Hi2 & Hd2 & Hh2 & Hk2 & Hl2).
  exists h2, l2, L2, w2. cbn [mbind outcome_mbind outcome_bind]. rewrite Ew. cbn [outcome_bind]. split; [|split_and!; try done; by eapply keeps_trans]. unfold mbind, M_bind. cbn [snd]. by rewrite E1.
Qed.

Lemma look_at_spec {A} fuel path (m : bool -> M (heap * Z) A) (f : bool -> value -> A) h L F R y w : split h L F -> inv L R -> y ∈ R -> den (cells L) y w -> (vheight w <= fuel)%nat ->
  (forall b h L l u, split h L F -> inv L (l :: R) -> den (cells L) l u -> m b (h, l) = (Ok (f b u), (h, l))) ->
  exists h' L', look_at fuel path y m h = ('(b, u) ← look path w; Ok (f b u), h') /\ split h' L' F /\ inv L' R /\ keeps L L' R.
Proof.
  intros Hs Hi Hy Hd Hh Hm. destruct (attach_spec h L F R y Hs Hi Hy) as (h1 & L1 & E1 & Hs1 & Hi1 & Ec & _). rewrite <- Ec in Hd.
  destruct (lookUp_at_spec fuel path h1 L1 F R y w Hs1 Hi1 Hd Hh) as (h2 & l2 & L2 & w2 & E2 & Hs2 & Hi2 & Hd2 & Hh2 & Hk2 & Hl2).
  destruct (detach_spec fuel h2 L2 F R l2 w2 Hs2 Hi2 Hd2 Hh2) as (h3 & L3 & E3 & Hs3 & Hi3 & Hk3 & _). exists h3, L3.
  split; [|split_and!; try done; eapply keeps_trans; [by apply keeps_cells|]; by eapply keeps_trans].
  unfold look_at. rewrite (slot_bind _ _ _ _ _ (slot_heap_ok _ _ y _ _ E1)). unfold finally.
  assert (E : (b ← lookUp_at fuel path; m b) (h1, y) = ('(b, u) ← look path w; Ok (f b u), (h2, l2))).
  { unfold mbind, M_bind. rewrite E2. destruct (look path w) as [[b u]|e| |]; try done. rewrite <- (Hl2 b u eq_refl). simpl. by apply Hm with (L := L2). }
  rewrite E. unfold at_slot. cbn [snd]. by rewrite (slot_heap_ok _ _ l2 _ _ E3).
Qed.

Lemma released {A} (o : outcome A) fuel h L F R z u : split h L F -> inv L (z :: R) -> den (cells L) z u -> (vheight u <= fuel)%nat ->
  exists h' L', finally (liftM o) (detach fuel z) h = (o, h') /\ split h' L' F /\ inv L' R /\ keeps L L' R.
Proof.
  intros Hs Hi Hd Hh. destruct (detach_spec fuel h L F R z u Hs Hi Hd Hh) as (h3 & L3 & E3 & Hs3 & Hi3 & Hk3 & _). exists h3, L3. split; [|done]. unfold finally, liftM. by rewrite E3.
Qed.

(** A part of a configuration becomes the root of another. *)
Lemma sub_at_spec fuel path h L F R l v y w : split h L F -> inv L (l :: R) -> y ∈ l :: R -> den (cells L) l v -> den (cells L) y w -> (vheight v <= fuel)%nat -> (vheight w <= fuel)%nat ->
  exists o v' h' l' L', sub_of path w v = (o, v') /\ (t ← slot_heap (sub_at fuel path y); assign fuel t ;; slot_heap (detach fuel t)) (h, l) = (o, (h', l')) /\ split h' L' F /\
    inv L' (l' :: R) /\ den (cells L') l' v' /\ keeps L L' R.
Proof.
  intros Hs Hi Hy Hd Hdy Hv Hw. destruct (attach_spec h L F (l :: R) y Hs Hi Hy) as (h1 & L1 & E1 & Hs1 & Hi1 & Ec & _).
  assert (Hk1 : keeps L L1 (l :: R)) by (by apply keeps_cells). rewrite <- Ec in Hdy.
  destruct (lookUp_at_spec fuel path h1 L1 F (l :: R) y w Hs1 Hi1 Hdy Hw) as (h2 & z & L2 & u & E2 & Hs2 & Hi2 & Hd2 & Hh2 & Hk2 & Hl2).
  assert (Hk : keeps L L2 (l :: R)) by (by eapply keeps_trans). assert (Hd' : den (cells L2) l v) by (apply Hk; [by left|done]).
  assert (Hfail : forall o : outcome Z, (forall a, o <> Ok a) -> exists h' L', finally (liftM o) (detach fuel z) h2 = (o, h') /\ split h' L' F /\ inv L' (l :: R) /\ den (cells L') l v /\ keeps L L' R).
  { intros o _. destruct (released o fuel h2 L2 F (l :: R) z u Hs2 Hi2 Hd2 Hh2) as (h3 & L3 & E3 & Hs3 & Hi3 & Hk3). exists h3, L3. split_and!; try done; [apply Hk3; [by left|done]|].
    eapply keeps_trans; [eapply keeps_weaken; [exact Hk|]|eapply keeps_weaken; [exact Hk3|]]; intros a Ha; by right. }
  assert (Eu : forall a (h' : heap), sub_at fuel path y h = (a, h') <-> match look path w with
    | Ok (true, _) => (Ok z, h2) | Ok (false, _) => finally (throwM (not_found path)) (detach fuel z) h2 | Throw e => finally (throwM e) (detach fuel z) h2
    | Undef => finally (liftM Undef) (detach fuel z) h2 | NoFuel => finally (liftM NoFuel) (detach fuel z) h2 end = (a, h')).
  { intros a h'. unfold sub_at. rewrite (slot_bind _ _ _ _ _ (slot_heap_ok _ _ y _ _ E1)), E2. by destruct (look path w) as [[[] ?]|e| |]. }
  unfold sub_of. destruct (look path w) as [[[] u']|e| |] eqn:El.
  - rewrite <- (Hl2 true u' eq_refl). destruct (assign_temporary fuel h2 L2 F R l v z u Hs2 Hi2 Hd' Hd2 Hv Hh2) as (h3 & L3 & E3 & Hs3 & Hi3 & Hd3 & Hk3).
    exists (Ok tt), u, h3, z, L3. split; [done|]. split; [rewrite (slot_bind _ _ _ _ _ (slot_heap_ok _ _ l _ _ (proj2 (Eu _ _) eq_refl))); exact E3|]. split_and!; try done.
    eapply keeps_trans; [eapply keeps_weaken; [exact Hk|]|exact Hk3]. intros a Ha. by right.
  - destruct (Hfail (Throw (not_found path)) ltac:(done)) as (h3 & L3 & E3 & H3). eexists _, v, h3, l, L3. split; [done|]. split; [|exact H3].
    unfold mbind at 1, M_bind, slot_heap. cbn [fst snd]. by rewrite (proj2 (Eu _ _) E3).
  - destruct (Hfail (Throw e) ltac:(done)) as (h3 & L3 & E3 & H3). eexists _, v, h3, l, L3. split; [done|]. split; [|exact H3].
    unfold mbind at 1, M_bind, slot_heap. cbn [fst snd]. by rewrite (proj2 (Eu _ _) E3).
  - destruct (Hfail Undef ltac:(done)) as (h3 & L3 & E3 & H3). eexists _, v, h3, l, L3. split; [done|]. split; [|exact H3].
    unfold mbind at 1, M_bind, slot_heap. cbn [fst snd]. by rewrite (proj2 (Eu _ _) E3).
  - destruct (Hfail NoFuel ltac:(done)) as (h3 & L3 & E3 & H3). eexists _, v, h3, l, L3. split; [done|]. split; [|exact H3].
    unfold mbind at 1, M_bind, slot_heap. cbn [fst snd]. by rewrite (proj2 (Eu _ _) E3).
Qed.

(** *** Copying the parameters of another configuration *)

(** A copy of an element of [y] lives while [m] runs. *)
Lemma with_element_spec fuel y w k e m pm : pget w k = Ok e -> (vheight e <= fuel)%nat -> (forall t, changes (m t) pm fuel t e) -> changes (with_element fuel y k m) pm fuel y w.
Proof.
  intros He Hhe Hm h L F R l v Hs Hi Hy Hnil Hd Hdy Hdn Hv. destruct (element_value h L F (l :: R) y w k e Hs Hi ltac:(by right) Hdy He) as (a & E0 & Hda).
  destruct (den_live _ _ _ Hda) as (n & c & Ena). destruct (attach_live h L F (l :: R) a n c Hs Hi Ena) as (h1 & L1 & E1 & Hs1 & Hi1 & Ec1 & _).
  assert (Hk1 : forall z u, den (cells L) z u -> den (cells L1) z u) by (intros z u; by rewrite Ec1).
  assert (Hi1' : inv L1 (l :: a :: R)) by (eapply inv_perm; [apply perm_swap|exact Hi1]).
  destruct (Hm a h1 L1 F (a :: R) l v Hs1 Hi1' ltac:(by left) ltac:(by right)) as (o & v' & h2 & l2 & L2 & Ep & E2 & Hs2 & Hi2 & Hd2 & Hk2); auto.
  assert (Hi2' : inv L2 (a :: l2 :: R)) by (eapply inv_perm; [apply perm_swap|exact Hi2]).
  destruct (detach_spec fuel h2 L2 F (l2 :: R) a e Hs2 Hi2' ltac:(apply Hk2; [by left|auto]) Hhe) as (h3 & L3 & E3 & Hs3 & Hi3 & Hk3 & _).
  exists o, v', h3, l2, L3. split; [done|]. split.
  { unfold with_element. rewrite (slot_bind _ _ _ _ _ (slot_heap_ok _ _ l _ _ E0)), (slot_bind _ _ _ _ _ (slot_heap_ok _ _ l _ _ E1)). unfold finally. rewrite E2.
    by rewrite (slot_heap_ok _ _ l2 _ _ E3). }
  split_and!; try done; [apply Hk3; [by left|done]|]. intros z u Hz Hdz. apply Hk3; [by right|]. apply Hk2; [by right|]. auto.
Qed.

(** A key of a map is found. *)
Lemma pget_key w k : isMap w = true -> comparable k (ventries w) = true -> k ∈ (ventries w).*1 -> exists e, pget w k = Ok e /\ e ∈ (ventries w).*2.
Proof.
  intros Hm Hc Hk. apply pget_contains; [done|]. destruct w as [sh vs]. simpl in *. assert (Hf : is_Some (find_key k vs)).
  { clear Hm Hc. induction vs as [|[k' a] vs IH]; simpl in *; [by apply not_elem_of_nil in Hk|]. case_decide; [by eexists|]. apply elem_of_cons in Hk as [->|Hk]; [done|]. destruct (IH Hk) as [i ->]. by eexists. }
  destruct sh; try done; simpl; rewrite Hc; f_equal; by apply bool_decide_eq_true.
Qed.

Lemma copy_keys_spec fuel y w ks : (vheight w <= fuel)%nat -> Forall (fun k => exists e, pget w (KString k) = Ok e /\ e ∈ (ventries w).*2) ks ->
  changes (copy_keys_at fuel ks y) (copy_keys ks w) fuel y w.
Proof.
  intros Hw. induction 1 as [|k ks (e & He & Hin) _ IH]; [apply changes_none|]. cbn [copy_keys_at copy_keys].
  assert (Hhe : (S (vheight e) <= fuel)%nat).
  { apply list_elem_of_fmap in Hin as (x & -> & Hx). destruct w as [sh vs]. simpl in Hx. destruct fuel as [|fuel]; [simpl in Hw; lia|]. apply vheight_child in Hw. rewrite Forall_forall in Hw. specialize (Hw x Hx). lia. }
  assert (Hc : changes (with_element fuel y (KString k) (assign_path fuel [KString k]) ;; copy_keys_at fuel ks y) (passign [KString k] e ;; copy_keys ks w) fuel y w).
  { apply changes_seq; [|intros v v' Hv E; by eapply passign_height|exact IH]. apply (with_element_spec fuel y w (KString k) e); [done|lia|]. intros t. apply assign_path_spec. }
  intros h L F R l v. rewrite He. apply Hc.
Qed.

Lemma set_all_spec fuel y w : (vheight w <= fuel)%nat -> string_keys w -> changes (set_all_at fuel y) (pset_all w) fuel y w.
Proof.
  intros Hw Ht h L F R l v Hs Hi Hy Hnil Hd Hdy Hdn Hv.
  assert (Hiy : exists R', inv L (y :: R')). { apply elem_of_Permutation in Hy as [R' HR]. exists (l :: R'). eapply inv_perm; [|exact Hi]. rewrite HR. apply perm_swap. }
  destruct Hiy as [R' Hiy]. destruct (den_cell h L F R' y w Hs Hiy Hdy) as (n & es & Eg & Hk).
  assert (Ek : slot_heap (keys_at y) (h, l) = (keys_of w, (h, l))).
  { unfold slot_heap, keys_at. cbn [fst snd]. rewrite (M_bind_Ok _ _ _ _ _ Eg). cbn [snd shape_ entries]. unfold keys_of. rewrite Hk. by destruct (vshape w). }
  assert (Hkeys : forall ks, keys_of w = Ok ks -> Forall (fun k => exists e, pget w (KString k) = Ok e /\ e ∈ (ventries w).*2) (map key_text ks)).
  { intros ks Eks. unfold keys_of in Eks. apply Forall_forall. intros t (k & -> & Hin)%list_elem_of_fmap. assert (ks = (ventries w).*1 /\ isMap w = true) as [-> Hm] by (destruct w as [[] ?]; simpl in *; by simplify_eq).
    unfold string_keys in Ht. rewrite Forall_forall in Ht. pose proof Hin as Hin'. apply list_elem_of_fmap in Hin' as (x & -> & Hx). destruct (Ht x Hx) as [t Et]. rewrite Et in *. simpl.
    apply pget_key; [done| |done]. unfold comparable. apply forallb_forall. intros z Hz. apply list_elem_of_In in Hz. destruct (Ht z Hz) as [t' ->]. done. }
  unfold set_all_at, pset_all. unfold mbind, M_bind. rewrite Ek. unfold liftM. destruct (keys_of w) as [ks|e0| |] eqn:Eks.
  - apply (copy_keys_spec fuel y w (map key_text ks) Hw (Hkeys ks eq_refl) h L F R l v); done.
  - eexists _, v, h, l, L. split_and!; try done. by intros ??.
  - eexists _, v, h, l, L. split_and!; try done. by intros ??.
  - eexists _, v, h, l, L. split_and!; try done. by intros ??.
Qed.

(** *** Statements *)

Lemma no_reply_refines (m : M (heap * list Z) unit) (pm : M (list value) unit) s vs :
  (exists o s' vs', m s = (o, s') /\ pm vs = (o, vs') /\ represents s' vs') ->
  exists o s' vs', no_reply m s = (o, s') /\ no_reply pm vs = (o, vs') /\ represents s' vs'.
Proof.
  intros (o & s' & vs' & E & Ep & Hr). unfold no_reply, mbind, M_bind. rewrite E, Ep. destruct o as [[]|e| |]; by eexists _, s', vs'.
Qed.

Lemma on_pvar_length x m vs : length (on_pvar x m vs).2 = length vs.
Proof. unfold on_pvar. destruct (vs !! x); [|done]. destruct (m v). simpl. apply length_insert. Qed.
Lemma no_reply_state {S} (m : M S unit) s : (no_reply m s).2 = (m s).2.
Proof. unfold no_reply, mbind, M_bind. by destruct (m s) as [[]?]. Qed.
Lemma meaning_length o vs : length (statement_meaning o vs).2 = length vs.
Proof.
  destruct o; simpl; rewrite ?no_reply_state, ?on_pvar_length; try done; try (unfold with_pvar; destruct (vs !! _); [apply on_pvar_length|done]); unfold pask; by destruct (vs !! y).
Qed.

Lemma ask_refines {A} y (m : Z -> M heap A) (f : A -> reply) (pf : value -> outcome reply) h env vs : represents (h, env) vs -> (y < length vs)%nat ->
  (forall L l w, split h L ∅ -> inv L (nil :: env) -> l ∈ nil :: env -> vs !! y = Some w -> den (cells L) l w ->
    exists o h' L', m l h = (o, h') /\ (a ← o; Ok (f a)) = pf w /\ split h' L' ∅ /\ inv L' (nil :: env) /\ keeps L L' (nil :: env)) ->
  exists r s' vs', ask y m f (h, env) = (r, s') /\ pask y pf vs = (r, vs') /\ represents s' vs'.
Proof.
  intros (L & Hs & Hi & HF & Hdn) Hy Hm. simpl in Hs, Hi. assert (Hlen : length env = length vs) by (by eapply Forall2_length).
  destruct (lookup_lt_is_Some_2 env y) as [l El]; [lia|]. destruct (lookup_lt_is_Some_2 vs y) as [w Ew]; [done|].
  destruct (Hm L l w Hs Hi) as (o & h' & L' & E & Eo & Hs' & Hi' & Hk); [right; by eapply list_elem_of_lookup_2|done|by eapply (Forall2_lookup_lr _ _ _ _ _ _ HF)|].
  unfold ask, pask. cbn [fst snd]. rewrite El, Ew, E, Eo. eexists _, (h', env), vs. split; [done|]. split; [done|]. exists L'. split_and!; try done; [|apply Hk; [by left|done]].
  eapply dens_keeps; [exact Hk| |done]. intros z Hz. by right.
Qed.

(** A change with a value that another variable holds, or with a temporary. *)
Lemma var_changes_spec x m pm fuel y w h env vs : changes m pm fuel y w -> represents (h, env) vs -> (x < length vs)%nat -> (max_height vs <= fuel)%nat ->
  y = nil /\ w = vnil \/ (exists j, env !! j = Some y /\ vs !! j = Some w /\ x <> j) ->
  exists o s' vs', on_var x m (h, env) = (o, s') /\ on_pvar x pm vs = (o, vs') /\ represents s' vs'.
Proof.
  intros Hm Hr Hx Hf Hy. apply var_changes; [done..|]. intros L l v R El Ev HpR HR Hnil Hs Hi HF Hdn.
  assert (Hden : forall j a u, env !! j = Some a -> vs !! j = Some u -> den (cells L) a u) by (intros j a u E1 E2; by eapply (Forall2_lookup_lr _ _ _ _ _ _ HF)).
  apply (Hm h L ∅ R l v); try done.
  - destruct Hy as [[-> _]|(j & Ej & _ & Hne)]; [done|]. apply HR. by eapply elem_of_delete_ne.
  - by eapply Hden.
  - destruct Hy as [[-> ->]|(j & Ej & Ej' & _)]; [done|by eapply Hden].
  - pose proof (max_height_lookup _ _ _ Ev). lia.
Qed.

Lemma asked {A} (f : A -> reply) (o : outcome (bool * value)) (g : bool -> value -> A) (gr : bool -> value -> reply) : (forall b u, f (g b u) = gr b u) ->
  (a ← ('(b, u) ← o; Ok (g b u)); Ok (f a)) = '(b, u) ← o; Ok (gr b u).
Proof. intros H. destruct o as [[b u]|e| |]; simpl; by rewrite ?H. Qed.

Lemma statement_refines fuel o h env vs : represents (h, env) vs -> sound o vs -> (statement_fuel o <= fuel)%nat -> (max_height vs <= fuel)%nat ->
  exists r s' vs', run_statement fuel o (h, env) = (r, s') /\ statement_meaning o vs = (r, vs') /\ represents s' vs'.
Proof.
  intros Hr Hso Hf Hm. assert (Hlen : length env = length vs) by (destruct Hr as (L & _ & _ & HF & _); by eapply Forall2_length).
  assert (Hvar : forall y, (y < length vs)%nat -> exists l w, env !! y = Some l /\ vs !! y = Some w /\ (vheight w <= fuel)%nat).
  { intros y Hy. destruct (lookup_lt_is_Some_2 env y) as [l ?]; [lia|]. destruct (lookup_lt_is_Some_2 vs y) as [w Ew]; [done|]. pose proof (max_height_lookup _ _ _ Ew). exists l, w. split_and!; [done..|lia]. }
  destruct o as [x|x y|x y path|x path v|x path y|x y|x k|y path|y path]; simpl in Hso; cbn [run_statement statement_meaning].
  - apply no_reply_refines. by apply (step_refines fuel (Construct x SOrderedMap)).
  - apply no_reply_refines. by apply (step_refines fuel (Copy x y)).
  - destruct Hso as [Hx Hy]. destruct (Hvar y Hy) as (ly & w & Ely & Ew & Hhw). apply no_reply_refines. unfold with_var, with_pvar. cbn [snd]. rewrite Ely, Ew.
    apply var_changes; [done..|]. intros L l v R El Ev HpR HR Hnil Hs Hi HF Hdn. pose proof (max_height_lookup _ _ _ Ev).
    apply sub_at_spec; [done|done|rewrite HpR; right; by eapply list_elem_of_lookup_2|by eapply (Forall2_lookup_lr _ _ _ _ _ _ HF)|by eapply (Forall2_lookup_lr _ _ _ _ _ _ HF)|lia|done].
  - apply no_reply_refines. eapply (var_changes_spec x _ _ fuel nil vnil); [|done..|by left]. simpl in Hf. apply changes_temporary; [lia|]. intros t. apply setValue_at_spec. lia.
  - destruct Hso as (Hx & Hy & Hne). destruct (Hvar y Hy) as (l & w & El & Ew & _).
    apply no_reply_refines. unfold with_var, with_pvar. cbn [snd]. rewrite El, Ew. eapply (var_changes_spec x _ _ fuel l w); [|done..|by right; exists y].
    simpl in Hf. apply setValue_at_spec. lia.
  - destruct Hso as (Hx & Hne & w & Ew & Ht). destruct (Hvar y) as (l & w' & El & Ew' & Hhw); [by eapply lookup_lt_Some|]. rewrite Ew in Ew'. injection Ew' as <-.
    apply no_reply_refines. unfold with_var, with_pvar. cbn [snd]. rewrite El, Ew. eapply (var_changes_spec x _ _ fuel l w); [|done..|by right; exists y]. by apply set_all_spec.
  - apply no_reply_refines. by apply (step_refines fuel (Remove x k)).
  - apply ask_refines; [done..|]. intros L l w Hs Hi Hl Ew Hd. pose proof (max_height_lookup _ _ _ Ew).
    destruct (look_at_spec fuel path mret (fun b _ => b) h L ∅ (nil :: env) l w Hs Hi Hl Hd) as (h' & L' & E & H'); [lia|done|]. eexists _, h', L'. split; [exact E|]. split; [by apply asked|done].
  - apply ask_refines; [done..|]. intros L l w Hs Hi Hl Ew Hd. pose proof (max_height_lookup _ _ _ Ew).
    edestruct (look_at_spec fuel path (fun found => if (found : bool) then e ← at_slot SharedValue.get; mret (Some (shape_ e.2)) else mret None)
      (fun b u => if (b : bool) then Some (vshape u) else None) h L ∅ (nil :: env) l w Hs Hi Hl Hd) as (h' & L' & E & H'); [lia| |eexists _, h', L'; split; [exact E|]; split; [by apply asked|done]].
    intros [|] h1 L1 l1 u Hs1 Hi1 Hd1; [|done]. destruct (den_cell h1 L1 ∅ (nil :: env) l1 u Hs1 Hi1 Hd1) as (n & es & Eg & _). 
    assert (Ea : at_slot SharedValue.get (h1, l1) = (Ok (n, Cell (vshape u) es), (h1, l1))) by (unfold at_slot; by apply slot_heap_ok). by rewrite (slot_bind _ _ _ _ _ Ea).
Qed.

Lemma statements_refine os : forall fuel s vs, represents s vs -> sound_run os vs -> (config_fuel os vs <= fuel)%nat ->
  exists rs s' vs', run_statements fuel os s = (rs, s') /\ meaning os vs = (rs, vs') /\ represents s' vs'.
Proof.
  induction os as [|o os IH]; intros fuel [h env] vs Hr Hp Hf; [by exists [], (h, env), vs|]. destruct Hp as [Hp1 Hp2]. cbn [config_fuel] in Hf.
  destruct (statement_refines fuel o h env vs Hr Hp1) as (r & s1 & vs1 & E & Ep & Hr1); [lia..|]. rewrite Ep in Hf, Hp2. simpl in Hf, Hp2.
  destruct (IH fuel s1 vs1 Hr1 Hp2) as (rs & s2 & vs2 & E2 & Ep2 & Hr2); [lia|]. exists (r :: rs), s2, vs2.
  split; [cbn [run_statements]; by rewrite E, E2|]. split; [cbn [meaning]; by rewrite Ep, Ep2|done].
Qed.

(** C30. Configurations that were copied from each other share their contents, but not
    their changes: a program that creates, copies and changes configurations (a part of
    another one, a parameter, a configuration as a parameter, all parameters of another one,
    removal) and asks them for parameters and their contents gives the answers and errors,
    and the configurations at the end, that it gives when every configuration has a value of
    its own.  The conditions are that a configuration is not set as a parameter of itself,
    or all its parameters into itself, and that the keys of a configuration whose parameters
    are all copied are texts. *)
Theorem configurations_share n os fuel : sound_run os (replicate n vnil) -> (config_fuel os (replicate n vnil) <= fuel)%nat ->
  exists rs s vs, run_statements fuel os (start n) = (rs, s) /\ meaning os (replicate n vnil) = (rs, vs) /\ represents s vs.
Proof. intros Hs Hf. apply statements_refine; [apply start_represents|done|done]. Qed.

(** A configuration with a nested parameter, its copy, and a change of the copy. *)
Definition name (l : list text) : list key := KString <$> l.
Definition copy_program : list statement :=
  [New 0; Set_ 0 (name [str "a"; str "b"]) (of_atom (ANumber 1)); CopyOf 1 0; Set_ 1 (name [str "a"; str "c"]) (of_atom (ANumber 2));
   SetConfiguration 1 (name [str "d"]) 0; Has 0 (name [str "a"; str "c"]); Has 1 (name [str "d"; str "a"; str "b"]); Set_ 1 (name [str "a"; str "b"; str "e"]) vnil;
   SubOf 2 1 (name [str "d"; str "a"]); SetAll 2 1; Read 2 (name [str "b"]); Read 2 (name [str "a"]); SubOf 2 0 (name [str "z"])].

Lemma configurations_share_witness : exists s vs,
  run_statements 10 copy_program (start 3) = ([Ok Done; Ok Done; Ok Done; Ok Done; Ok Done; Ok (Found false); Ok (Found true); Throw BadOperator;
    Ok Done; Ok Done; Ok (Content (Some (SAtom (ANumber 1)))); Ok (Content (Some SOrderedMap)); Throw (not_found (name [str "z"]))], s) /\
  represents s vs /\ at_path (name [str "a"; str "b"]) <$> vs !! 0%nat = Some (Some (of_atom (ANumber 1))).
Proof.
  destruct (configurations_share 3 copy_program 10) as (rs & s & vs & Hr & Hp & Hrep).
  - vm_compute. repeat split; try lia. eexists. split; [reflexivity|]. repeat constructor; by eexists.
  - vm_compute. lia.
  - vm_compute in Hp. injection Hp as <- <-. exists s. eexists. split; [exact Hr|]. split; [exact Hrep|]. reflexivity.
Defined.

(** A configuration that is set as a parameter of itself contains itself: its root is not
    shared, so it is not cloned. *)
Example set_itself : exists h, run_statements 10 [New 0; SetConfiguration 0 (name [str "c"]) 0] (start 1) = ([Ok Done; Ok Done], (h, [1])) /\
  store h !! 1 = Some (2, Cell SOrderedMap [(KString (str "c"), 1)]).
Proof. eexists. split; [vm_compute; reflexivity|]. vm_compute. reflexivity. Qed.
