(* ===== verification/CSVParser.v ===== *)
(** * CSV input

    [parser/CSVParser.cc], on the stream parser of [JsonParser.v]: lines of items that are
    separated by commas, with or without a first line of names.  The loops take the number
    of characters that are left as fuel. *)
From S2P Require Import Prelude Text Strings SharedValue SharedValueSpec Configuration JsonParser.
#[local] Set Warnings "-clear-no-such-hyp".
#[local] Open Scope nat_scope.

Definition comma : byte := ","%byte.
Definition newline : byte := "010"%byte.
Definition return_ : byte := "013"%byte.
Definition zero : byte := "000"%byte.

(** ** The parser *)

(** [nextItem]: the loop over the ends of lines *)
Fixpoint skip_lines (fuel : nat) : M StreamParser unit :=
  match fuel with
  | O => liftM NoFuel
  | S fuel =>
      c ← peek true;
      if decide (c = zero) then mret tt
      else if decide (c <> newline /\ c <> return_) then mret tt
      else _ ← next true; skip_lines fuel
  end.

(** [nextItem]: the loop over the characters of the item *)
Fixpoint item_loop (fuel : nat) (result : text) : M StreamParser (text * bool) :=
  match fuel with
  | O => liftM NoFuel
  | S fuel =>
      c ← peek true;
      if decide (c = zero) then mret (result, false)
      else
        c ← next true;
        if decide (c = zero \/ c = comma \/ c = newline \/ c = return_) then mret (result, bool_decide (c = comma))
        else item_loop fuel (result ++ [c])
  end.

Definition nextItem : M StreamParser (text * bool) :=
  p ← getM; skip_lines (S (length (in_ p))) ;;
  p ← getM; item_loop (S (length (in_ p))) [].

(** [nextLine] *)
Fixpoint line_loop (fuel : nat) (result : list text) : M StreamParser (list text) :=
  match fuel with
  | O => liftM NoFuel
  | S fuel => '(x, more) ← nextItem; if (more : bool) then line_loop fuel (result ++ [x]) else mret (result ++ [x])
  end.
Definition nextLine : M StreamParser (list text) := p ← getM; line_loop (S (length (in_ p))) [].

(** [m[header[i]] = line[i]], on a map that is sorted by its keys *)
Definition map_assign (k : key) (v : value) (es : list (key * value)) : list (key * value) :=
  match find_key k es with Some i => set_entry i v es | None => insert_entry (map_position k es) (k, v) es end.
Fixpoint make_row (header line : list text) (m : list (key * value)) : list (key * value) :=
  match header, line with
  | k :: header, v :: line => make_row header line (map_assign (KString k) (of_atom (AString v)) m)
  | _, _ => m
  end.

(** The loop of [parse], with the names of the columns if there are any; a line is never
    empty. *)
Definition row (header : option (list text)) (line : list text) : outcome value :=
  match header with
  | Some header => ASSERT (length header =? length line) ;; Ok (V SMap (make_row header line []))
  | None => Ok (of_list ((fun t => of_atom (AString t)) <$> line))
  end.
Fixpoint rows_loop (fuel : nat) (header : option (list text)) (result : list value) : M StreamParser (list value) :=
  match fuel with
  | O => liftM NoFuel
  | S fuel =>
      c ← peek true;
      if decide (c = zero) then mret result
      else
        line ← nextLine;
        match line with
        | [] => mret result
        | _ => r ← liftM (row header line); rows_loop fuel header (result ++ [r])
        end
  end.

Definition parse (hasHeader : bool) : M StreamParser value :=
  header ← (if hasHeader then h ← nextLine; mret (Some h) else mret None);
  p ← getM; rs ← rows_loop (S (length (in_ p))) header [];
  mret (of_list rs).

Definition newCSVParser (s : text) : StreamParser := mkSP s false 0 0 false [ "#"%byte ] false.
Definition decodeString (s : text) (header : bool) : outcome value := (parse header (newCSVParser s)).1.

(** ** Single characters *)

Definition before (l : text) (p : StreamParser) : Prop := in_ p = l /\ eof_ p = false /\ comments_ p = false.

Lemma csv_peek c l p : before (c :: l) p -> peek true p = (Ok (if decide (c = return_) then newline else c), p).
Proof.
  intros (Ei & Ee & Ec). destruct p as [i e ln ps cm ct y]. simpl in *. subst.
  unfold peek, getM, mbind, M_bind. simpl. unfold _peek, stream_peek, _eof, getM, mbind, M_bind, mret, M_ret. simpl. done.
Qed.

Lemma csv_peek_end p : before [] p -> exists p', peek true p = (Ok zero, p').
Proof.
  intros (Ei & Ee & Ec). destruct p as [i e ln ps cm ct y]. simpl in *. subst. eexists.
  unfold peek, getM, mbind, M_bind. simpl. unfold _peek, stream_peek, _eof, getM, mbind, M_bind, mret, M_ret. simpl. done.
Qed.

Lemma csv_next c l p : before (c :: l) p -> c <> return_ -> exists p', next true p = (Ok c, p') /\ before l p'.
Proof.
  intros (Ei & Ee & Ec) Hc. destruct p as [i e ln ps cm ct y]. simpl in *. subst.
  unfold next, getM, mbind, M_bind. simpl. unfold _get, stream_get, stream_peek, _eof, modifyM, getM, mbind, M_bind, mret, M_ret. simpl.
  destruct (decide (c = "010"%byte \/ c = "013"%byte)); [rewrite (decide_False (P := c = "013"%byte)) by done|]; simpl; by eexists.
Qed.

Lemma csv_next_crlf l p : before (return_ :: newline :: l) p -> exists p', next true p = (Ok newline, p') /\ before l p'.
Proof.
  intros (Ei & Ee & Ec). destruct p as [i e ln ps cm ct y]. simpl in *. subst. by eexists.
Qed.

(** ** Items *)

Definition plain_item (t : text) : Prop := Forall (fun c => c <> zero /\ c <> comma /\ c <> newline /\ c <> return_) t.

(** What ends an item: a comma, or the end of the line in one of two forms. *)
Inductive terminator : text -> bool -> Prop :=
| term_comma : terminator [comma] true
| term_lf : terminator [newline] false
| term_crlf : terminator [return_; newline] false.

Lemma terminator_read e b l p : terminator e b -> before (e ++ l) p ->
  exists c d p', peek true p = (Ok c, p) /\ c <> zero /\ next true p = (Ok d, p') /\ (d = comma \/ d = newline) /\ b = bool_decide (d = comma) /\ before l p'.
Proof.
  intros [] Hp; simpl in Hp.
  - destruct (csv_next comma l p Hp) as (p' & E & H); [done|]. exists comma, comma, p'. rewrite (csv_peek _ _ _ Hp), decide_False by done. split_and!; try done. by left.
  - destruct (csv_next newline l p Hp) as (p' & E & H); [done|]. exists newline, newline, p'. rewrite (csv_peek _ _ _ Hp), decide_False by done. split_and!; try done. by right.
  - destruct (csv_next_crlf l p Hp) as (p' & E & H). exists newline, newline, p'. rewrite (csv_peek _ _ _ Hp), decide_True by done. split_and!; try done. by right.
Qed.

Lemma item_loop_reads t e b l : plain_item t -> terminator e b -> forall fuel acc p, length t < fuel -> before (t ++ e ++ l) p ->
  exists p', item_loop fuel acc p = (Ok (acc ++ t, b), p') /\ before l p'.
Proof.
  intros Ht He. induction Ht as [|c t (H0 & H1 & H2 & H3) Ht IH]; intros [|fuel] acc p Hf Hp; try (simpl in Hf; lia); cbn [item_loop].
  - destruct (terminator_read e b l p He Hp) as (c & d & p' & Ep & Hc & En & Hd & -> & Hp'). rewrite (M_bind_Ok _ _ _ _ _ Ep), decide_False by done.
    rewrite (M_bind_Ok _ _ _ _ _ En), decide_True by tauto. exists p'. by rewrite app_nil_r.
  - simpl in Hp. destruct (csv_next c _ p Hp H3) as (p1 & En & Hp1). rewrite (M_bind_Ok _ _ _ _ _ (csv_peek _ _ _ Hp)), (decide_False (P := c = return_)), decide_False by done.
    rewrite (M_bind_Ok _ _ _ _ _ En), decide_False by tauto. simpl in Hf. destruct (IH fuel (acc ++ [c]) p1 ltac:(lia) Hp1) as (p' & -> & Hp').
    exists p'. by rewrite <- app_assoc.
Qed.

Lemma nextItem_reads t e b l p : plain_item t -> terminator e b -> (t <> [] \/ b = true) -> before (t ++ e ++ l) p ->
  exists p', nextItem p = (Ok (t, b), p') /\ before l p'.
Proof.
  intros Ht He Hb Hp. unfold nextItem. rewrite (M_bind_Ok _ _ _ p p) by done.
  assert (Es : skip_lines (S (length (in_ p))) p = (Ok tt, p)).
  { assert (Hh : exists c r, t ++ e ++ l = c :: r /\ c <> newline /\ c <> return_).
    { destruct Ht as [|c t (_ & _ & H2 & H3) _]; [|by exists c, (t ++ e ++ l)]. destruct Hb as [|Hb]; [done|]. subst. inversion He. subst. by exists comma, l. }
    destruct Hh as (c & r & Er & Hn & Hr). rewrite Er in Hp. cbn [skip_lines]. rewrite (M_bind_Ok _ _ _ _ _ (csv_peek _ _ _ Hp)), (decide_False (P := c = return_)) by done.
    destruct (decide (c = zero)); [done|]. by rewrite decide_True. }
  rewrite (M_bind_Ok _ _ _ _ _ Es), (M_bind_Ok _ _ _ p p) by done.
  apply (item_loop_reads t e b l Ht He _ []); [|done]. destruct Hp as (-> & _). rewrite length_app. lia.
Qed.

(** ** Lines *)

Fixpoint line_text (eol : text) (line : list text) : text :=
  match line with
  | [] => []
  | [t] => t ++ eol
  | t :: line => t ++ comma :: line_text eol line
  end.
(** The last item is not empty. *)
Fixpoint good_line (line : list text) : Prop :=
  match line with
  | [] => False
  | [t] => plain_item t /\ t <> []
  | t :: line => plain_item t /\ good_line line
  end.
Definition csv_text (eol : text) (lines : list (list text)) : text := lines ≫= line_text eol.

Lemma line_text_length eol line : good_line line -> length line <= length (line_text eol line).
Proof.
  induction line as [|t line IH]; [done|]. destruct line as [|t' line]; simpl.
  - intros [_ Ht]. rewrite length_app. destruct t; [done|simpl; lia].
  - intros [_ Hl]. specialize (IH Hl). rewrite length_app. cbn [length] in *. simpl in IH. lia.
Qed.

Lemma line_loop_reads eol line l : terminator eol false -> good_line line -> forall fuel acc p, length line <= fuel -> before (line_text eol line ++ l) p ->
  exists p', line_loop fuel acc p = (Ok (acc ++ line), p') /\ before l p'.
Proof.
  intros He. induction line as [|t line IH]; intros Hg fuel acc p Hf Hp; [done|]. destruct fuel as [|fuel]; [simpl in Hf; lia|]. cbn [line_loop].
  destruct line as [|t' line].
  - destruct Hg as [Ht Hne]. simpl in Hp. rewrite <- app_assoc in Hp. destruct (nextItem_reads t eol false l p Ht He (or_introl Hne) Hp) as (p' & E & Hp').
    rewrite (M_bind_Ok _ _ _ _ _ E). by exists p'.
  - destruct Hg as [Ht Hg]. change (line_text eol (t :: t' :: line)) with (t ++ [comma] ++ line_text eol (t' :: line)) in Hp. rewrite <- !app_assoc in Hp.
    destruct (nextItem_reads t [comma] true _ p Ht term_comma (or_intror eq_refl) Hp) as (p1 & E & Hp1). rewrite (M_bind_Ok _ _ _ _ _ E).
    destruct (IH Hg fuel (acc ++ [t]) p1 ltac:(simpl in *; lia) Hp1) as (p' & -> & Hp'). exists p'. by rewrite <- app_assoc.
Qed.

Lemma nextLine_reads eol line l p : terminator eol false -> good_line line -> before (line_text eol line ++ l) p ->
  exists p', nextLine p = (Ok line, p') /\ before l p'.
Proof.
  intros He Hg Hp. unfold nextLine. rewrite (M_bind_Ok _ _ _ p p) by done. apply (line_loop_reads eol line l He Hg _ []); [|done].
  destruct Hp as (-> & _). rewrite length_app. pose proof (line_text_length eol line Hg). lia.
Qed.

(** A line begins with a character that is not taken for the end. *)
Lemma line_starts eol line l p : good_line line -> before (line_text eol line ++ l) p -> exists c, peek true p = (Ok c, p) /\ c <> zero.
Proof.
  intros Hg Hp. assert (Hh : exists c r, line_text eol line ++ l = c :: r /\ c <> zero).
  { destruct line as [|t [|t' line]]; [done| |].
    - destruct Hg as [Ht Hne]. destruct Ht as [|c t (H0 & _) _]; [done|]. by eexists c, _.
    - destruct Hg as [Ht _]. destruct Ht as [|c t (H0 & _) _]; by eexists _, _. }
  destruct Hh as (c & r & Er & Hz). rewrite Er in Hp. rewrite (csv_peek _ _ _ Hp). eexists. split; [done|]. by destruct (decide (c = return_)).
Qed.

Lemma rows_loop_reads eol header lines : terminator eol false -> Forall good_line lines ->
  forall rs fuel acc p, mapM (row header) lines = Ok rs -> length lines < fuel -> before (csv_text eol lines) p ->
  exists p', rows_loop fuel header acc p = (Ok (acc ++ rs), p').
Proof.
  intros He. induction 1 as [|line lines Hg HG IH]; intros rs [|fuel] acc p Hr Hf Hp; try (simpl in Hf; lia); cbn [rows_loop].
  - injection Hr as <-. destruct (csv_peek_end p Hp) as (p' & E). rewrite (M_bind_Ok _ _ _ _ _ E), decide_True by done. exists p'. by rewrite app_nil_r.
  - unfold csv_text in Hp. simpl in Hp. fold (csv_text eol lines) in Hp. destruct (line_starts _ _ _ _ Hg Hp) as (c & Ec & Hc). rewrite (M_bind_Ok _ _ _ _ _ Ec), decide_False by done.
    destruct (nextLine_reads eol line (csv_text eol lines) p He Hg Hp) as (p1 & E1 & Hp1). rewrite (M_bind_Ok _ _ _ _ _ E1).
    simpl in Hr. destruct (row header line) as [r| | |] eqn:Er; try done. simpl in Hr. destruct (mapM (row header) lines) as [rs'| | |] eqn:Em; try done. injection Hr as <-.
    destruct line as [|t line]; [done|]. rewrite (M_bind_Ok (liftM (Ok r)) _ p1 r p1) by done.
    destruct (IH rs' fuel (acc ++ [r]) p1 eq_refl ltac:(simpl in Hf; lia) Hp1) as (p' & ->). exists p'. by rewrite <- app_assoc.
Qed.

Lemma csv_text_length eol lines : Forall good_line lines -> length lines <= length (csv_text eol lines).
Proof.
  induction 1 as [|line lines Hg HG IH]; [done|]. unfold csv_text in *. cbn [mbind list_bind length]. rewrite length_app. fold (csv_text eol lines) in *. pose proof (line_text_length eol line Hg).
  change (list_bind _ _ (line_text eol) lines) with (lines ≫= line_text eol).
  assert (1 <= length line) by (destruct line; [done|simpl; lia]). lia.
Qed.

(** Lines of items are read back, with both forms of the end of a line: without names as
    lists of texts, and with names, when every line has as many items as there are names,
    as maps.  An item has no comma, no end of line and no zero in it, and the last item of a
    line is not empty. *)
Theorem csv_roundtrip eol names lines : terminator eol false -> Forall good_line (names :: lines) ->
  decodeString (csv_text eol lines) false = Ok (of_list ((fun l => of_list ((fun t => of_atom (AString t)) <$> l)) <$> lines)) /\
  (Forall (fun l => length l = length names) lines ->
   decodeString (csv_text eol (names :: lines)) true = Ok (of_list ((fun l => V SMap (make_row names l [])) <$> lines))).
Proof.
  intros He [Hn HG]%Forall_cons. split.
  - assert (Em : mapM (row None) lines = Ok ((fun l => of_list ((fun t => of_atom (AString t)) <$> l)) <$> lines)).
    { clear. induction lines as [|l lines IH]; [done|]. simpl. by rewrite IH. }
    unfold decodeString, parse. rewrite (M_bind_Ok (mret None) _ _ None _) by done. rewrite (M_bind_Ok getM _ _ (newCSVParser _) _) by done.
    pose proof (csv_text_length eol lines HG) as Hl.
    destruct (rows_loop_reads eol None lines He HG _ (S (length (csv_text eol lines))) [] (newCSVParser (csv_text eol lines)) Em ltac:(lia)) as (p' & E); [by split|].
    simpl in E |- *. by rewrite (M_bind_Ok _ _ _ _ _ E).
  - intros Hl. assert (Em : mapM (row (Some names)) lines = Ok ((fun l => V SMap (make_row names l [])) <$> lines)).
    { clear -Hl. induction Hl as [|l lines El Hl IH]; [done|]. simpl. rewrite El, Nat.eqb_refl. simpl. by rewrite IH. }
    unfold decodeString, parse. assert (Hp : before (line_text eol names ++ csv_text eol lines) (newCSVParser (csv_text eol (names :: lines)))) by by split.
    destruct (nextLine_reads eol names _ _ He Hn Hp) as (p1 & E1 & Hp1).
    rewrite (M_bind_Ok _ _ _ (Some names) p1) by (by rewrite (M_bind_Ok _ _ _ _ _ E1)). rewrite (M_bind_Ok getM _ _ p1 p1) by done.
    destruct (rows_loop_reads eol (Some names) lines He HG _ (S (length (in_ p1))) [] p1 Em) as (p' & E); [|done|].
    + destruct Hp1 as (-> & _). pose proof (csv_text_length eol lines HG). lia.
    + by rewrite (M_bind_Ok _ _ _ _ _ E).
Qed.

(** An empty item at the end of a line takes the first item of the next line. *)
Example csv_empty_last_item : decodeString (str "a," ++ [newline] ++ str "b,c" ++ [newline]) false =
  Ok (of_list [of_list [of_atom (AString (str "a")); of_atom (AString (str "b")); of_atom (AString (str "c"))]]).
Proof. by vm_compute. Qed.

(** A text whose last line is ended by a return is not read. *)
Example csv_last_return : decodeString (str "a,b" ++ [return_]) false = Throw ParserError.
Proof. by vm_compute. Qed.
