(* ===== verification/CmdArgs.v ===== *)
(** * Command line options

    [option/CmdArgs.cc] and the classes of options ([SimpleOption], [VectorOption],
    [MultiValueOption], [FactoryOption], [Separator]): the arguments of a program are
    turned into parameters of a configuration and positional arguments.

    An option is a record of its virtual functions, as the class [Option] of the source; its
    laws say what [set] takes from the arguments.  The property is proved against the laws,
    which the classes of options discharge. *)
From S2P Require Import Prelude Text Strings Translator Double TranslatorDouble SharedValue SharedValueSpec Configuration.
#[local] Set Warnings "-clear-no-such-hyp".

(** ** Options *)

(** [Option]: [set] takes the number of values that were given with the name (none or one)
    and the arguments from there on, and returns how many it took. *)
Record Option_ := mkOption {
  name_ : text;
  active : bool;
  set_option : nat -> list text -> M Configuration nat;
  setDefault : M Configuration unit;
  copy_option : Configuration -> M Configuration unit;
}.

(** [Option::copy<T>(name, from, to)] *)
Definition copy_parameter {T} (cd : codec T) (name : text) (from : Configuration) : M Configuration unit :=
  x ← liftM (get cd name from);
  match x with Some x => set cd name x | None => mret tt end.

(** [BaseOption::setDefault] *)
Definition set_default {T} (cd : codec T) (name : text) (default_value : option T) : M Configuration unit :=
  match default_value with Some x => set cd name x | None => mret tt end.

(** [SimpleOption<T>], with [Translator<std::string, T>] *)
Definition SimpleOption {T} (cd : codec T) (translate : text -> outcome T) (name : text) (default_value : option T) : Option_ :=
  mkOption name true
    (fun _ args =>
       match args with
       | [] => throwM UserError
       | a :: _ => value ← liftM (translate a); set cd name value ;; mret 1%nat
       end)
    (set_default cd name default_value) (copy_parameter cd name).

(** [SimpleOption<bool>]: a flag *)
Definition FlagOption (name : text) (default_value : option bool) : Option_ :=
  mkOption name true
    (fun values args =>
       if (0 <? values)%nat then
         match args with
         | [] => liftM Undef
         | a :: _ => set bool_codec name (string_to_bool a) ;; mret 1%nat
         end
       else set bool_codec name true ;; mret 0%nat)
    (set_default bool_codec name default_value) (copy_parameter bool_codec name).

(** [VectorOption<T>::translate] *)
Fixpoint translate_all {T} (translate : text -> outcome T) (tokens : list text) : outcome (list T) :=
  match tokens with [] => Ok [] | t :: tokens => x ← translate t; xs ← translate_all translate tokens; Ok (x :: xs) end.
Definition translate_vector {T} (translate : text -> outcome T) (size : Z) (separator value : text) : outcome (list T) :=
  values ← translate_all translate (tokenize (Tokenizer_string separator false) value);
  if negb (size =? 0) && negb (zlen values =? size) then Throw UserError else Ok values.
Definition VectorOption {T} (cd : codec T) (translate : text -> outcome T) (name : text) (size : Z) (separator : text) (default_value : option (list T)) : Option_ :=
  mkOption name true
    (fun _ args =>
       match args with
       | [] => throwM UserError
       | a :: _ => value ← liftM (translate_vector translate size separator a); set (vector_codec cd) name value ;; mret 1%nat
       end)
    (set_default (vector_codec cd) name default_value) (copy_parameter (vector_codec cd) name).

(** [MultiValueOption]: mandatory values, and then others up to the next option *)
Definition is_option (a : text) : bool := bool_decide (substr a 0 2 = str "--").
Fixpoint optional_values (n : nat) (args : list text) : list text :=
  match n, args with
  | S n, a :: args => if is_option a then [] else a :: optional_values n args
  | _, _ => []
  end.
Section Texts.
(** [print_double]: a double printed by a stream. *)
Context (print_double : double -> text).
Definition MultiValueOption (name : text) (n_mandatory_values n_optional_values : nat) (default_value : option (list text)) : outcome Option_ :=
  ASSERT (1 <=? n_mandatory_values)%nat ;;
  Ok (mkOption name true
    (fun _ args =>
       if (length args <? n_mandatory_values)%nat then throwM UserError
       else
         let collected := take n_mandatory_values args ++ optional_values n_optional_values (drop n_mandatory_values args) in
         set (vector_codec (string_codec print_double)) name collected ;; mret (length collected))
    (set_default (vector_codec (string_codec print_double)) name default_value) (copy_parameter (vector_codec (string_codec print_double)) name)).

(** [FactoryOption<T>]: the name of a class *)
Definition FactoryOption (name : text) (default_value : option text) : Option_ :=
  SimpleOption (string_codec print_double) (fun value => Ok value) name default_value.
End Texts.

(** [Separator]: a line of the usage *)
Definition Separator : Option_ := mkOption [] false (fun _ _ => mret 0%nat) (mret tt) (fun _ => mret tt).

(** ** [CmdArgs] *)

Record CmdArgs := mkCmdArgs { config : Configuration; keys_ : gset text; args_ : list text }.

Definition new_args : CmdArgs := mkCmdArgs (new_configuration "."%byte) ∅ [].

(** A call on the configuration that [CmdArgs] is *)
Definition on_config {A} (m : M Configuration A) : M CmdArgs A := fun s =>
  let '(o, c) := m (config s) in (o, mkCmdArgs c (keys_ s) (args_ s)).

(** [init]: the first loop *)
Fixpoint register (options : list Option_) (opts : gmap text Option_) : M CmdArgs (gmap text Option_) :=
  match options with
  | [] => mret opts
  | j :: options =>
      if active j then
        assertM (bool_decide (opts !! name_ j = None)) ;;
        modifyM (fun s => mkCmdArgs (config s) ({[name_ j]} ∪ keys_ s) (args_ s)) ;;
        on_config (setDefault j) ;;
        register options (<[name_ j := j]> opts)
      else register options opts
  end.

(** [init]: the loop over the arguments; [skip] of them were taken by an option.  An option
    that took fewer arguments than it was given would be read again, for ever. *)
Fixpoint process (opts : gmap text Option_) (skip : nat) (error : bool) (argv : list text) : M CmdArgs bool :=
  match argv with
  | [] => mret error
  | a :: rest =>
      match skip with
      | S skip => process opts skip error rest
      | O =>
          if is_option a then
            match split_at (drop 2 a) "="%byte with
            | [] => liftM Undef
            | name :: tokens =>
                match opts !! name with
                | Some option => fun s =>
                    match on_config (set_option option (length tokens) (tokens ++ rest)) s with
                    | (Ok consumed, s) =>
                        if (consumed <? length tokens)%nat then (NoFuel, s) else process opts (consumed - length tokens) error rest s
                    | (Throw UserError, s) => process opts 0 true rest s
                    | (Throw e, s) => (Throw e, s)
                    | (Undef, s) => (Undef, s)
                    | (NoFuel, s) => (NoFuel, s)
                    end
                | None => process opts 0 true rest
                end
            end
          else modifyM (fun s => mkCmdArgs (config s) (keys_ s) (args_ s ++ [a])) ;; process opts 0 error rest
      end
  end.

(** How [init] ends, when it does not throw: [exit(1)] ends the process. *)
Inductive finish := Parsed | Exited (code : Z).

Definition count_error (args_count minimum_args : Z) (args : list text) : bool :=
  (0 <=? args_count) && negb (zlen args =? args_count) || (0 <=? minimum_args) && (zlen args <? minimum_args).

Definition init (options : list Option_) (args_count minimum_args : Z) (throw_on_error : bool) (argv : list text) : M CmdArgs finish :=
  opts ← register options ∅;
  error ← process opts 0 false argv;
  s ← getM;
  if (error : bool) || count_error args_count minimum_args (args_ s) then
    if throw_on_error then throwM UserError else mret (Exited 1)
  else mret Parsed.

(** [configure(c)] *)
Fixpoint configure (options : list Option_) (from : Configuration) : M Configuration unit :=
  match options with
  | [] => mret tt
  | j :: options => copy_option j from ;; configure options from
  end.

(** [operator()(i)] *)
Definition argument (i : nat) (s : CmdArgs) : outcome text :=
  match args_ s !! i with Some a => Ok a | None => Throw AssertionFailed end.
Definition count (s : CmdArgs) : nat := length (args_ s).

(** ** What an option takes *)

(** [collect]: the value that [set] stores and the number of arguments that it takes *)
Record described := Described { it : Option_; collect : nat -> list text -> outcome (value * nat); default_value : option value }.

Definition store (name : text) (o : outcome (value * nat)) : M Configuration nat :=
  '(v, n) ← liftM o; setValue name v ;; mret n.

Class Describes (d : described) : Prop := {
  d_active : active (it d) = true;
  d_set values args c : set_option (it d) values args c = store (name_ (it d)) (collect d values args) c;
  d_default c : setDefault (it d) c = match default_value d with Some v => setValue (name_ (it d)) v c | None => (Ok tt, c) end;
  d_text values args v n : collect d values args = Ok (v, n) -> text_keys v = true;
  d_default_text v : default_value d = Some v -> text_keys v = true;
}.

(** Values of a type that have no keys but strings *)
Class Textual {T} (cd : codec T) : Prop := textual x : text_keys (into cd x) = true.
#[export] Instance bool_textual : Textual bool_codec.
Proof. done. Qed.
#[export] Instance int_textual : Textual int_codec.
Proof. done. Qed.
#[export] Instance long_textual : Textual long_codec.
Proof. done. Qed.
#[export] Instance size_textual : Textual size_codec.
Proof. done. Qed.
#[export] Instance double_textual : Textual double_codec.
Proof. done. Qed.
#[export] Instance string_textual pd : Textual (string_codec pd).
Proof. done. Qed.
#[export] Instance vector_textual {T} (cd : codec T) `{!Textual cd} : Textual (vector_codec cd).
Proof.
  intros xs. apply text_keys_entries. split; [done|]. intros e He. apply list_elem_of_fmap in He as (v & -> & Hv).
  apply list_elem_of_fmap in Hv as (x & -> & _). apply textual.
Qed.

Definition simple_described {T} (cd : codec T) (translate : text -> outcome T) (name : text) (dflt : option T) : described :=
  Described (SimpleOption cd translate name dflt)
    (fun _ args => match args with [] => Throw UserError | a :: _ => x ← translate a; Ok (into cd x, 1%nat) end) (into cd <$> dflt).
#[export] Instance simple_describes {T} (cd : codec T) `{!Textual cd} translate name dflt : Describes (simple_described cd translate name dflt).
Proof.
  split; simpl; [done| | | |].
  - intros _ [|a args] c; [done|]. unfold store, liftM, mbind, M_bind. by destruct (translate a).
  - intros c. by destruct dflt.
  - intros _ [|a args] v n; [done|]. destruct (translate a); try done. intros [= <- <-]. apply textual.
  - intros v E. destruct dflt; [|done]. injection E as <-. apply textual.
Qed.

Definition flag_described (name : text) (dflt : option bool) : described :=
  Described (FlagOption name dflt)
    (fun values args =>
       if (0 <? values)%nat then match args with [] => Undef | a :: _ => Ok (into bool_codec (string_to_bool a), 1%nat) end
       else Ok (into bool_codec true, 0%nat)) (into bool_codec <$> dflt).
#[export] Instance flag_describes name dflt : Describes (flag_described name dflt).
Proof.
  split; simpl; [done| | | |].
  - intros values args c. destruct (0 <? values)%nat; [by destruct args|done].
  - intros c. by destruct dflt.
  - intros values args v n. destruct (0 <? values)%nat; [destruct args; [done|]|]; by intros [= <- <-].
  - intros v E. destruct dflt; [|done]. by injection E as <-.
Qed.

Definition vector_described {T} (cd : codec T) (translate : text -> outcome T) (name : text) (size : Z) (separator : text) (dflt : option (list T)) : described :=
  Described (VectorOption cd translate name size separator dflt)
    (fun _ args => match args with [] => Throw UserError | a :: _ => xs ← translate_vector translate size separator a; Ok (into (vector_codec cd) xs, 1%nat) end)
    (into (vector_codec cd) <$> dflt).
#[export] Instance vector_describes {T} (cd : codec T) `{!Textual cd} translate name size separator dflt : Describes (vector_described cd translate name size separator dflt).
Proof. apply (simple_describes (vector_codec cd) (translate_vector translate size separator) name dflt). Qed.

Definition multi_described (print_double : double -> text) (mandatory optional : nat) (dflt : option (list text)) (o : Option_) : described :=
  Described o
    (fun _ args => if (length args <? mandatory)%nat then Throw UserError
                   else let l := take mandatory args ++ optional_values optional (drop mandatory args) in
                        Ok (into (vector_codec (string_codec print_double)) l, length l)) (into (vector_codec (string_codec print_double)) <$> dflt).
Lemma multi_describes pd name mandatory optional dflt o : MultiValueOption pd name mandatory optional dflt = Ok o ->
  Describes (multi_described pd mandatory optional dflt o).
Proof.
  unfold MultiValueOption. destruct (1 <=? mandatory)%nat; [|done]. intros [= <-]. split; simpl; [done| | | |].
  - intros _ args c. by destruct (length args <? mandatory)%nat.
  - intros c. by destruct dflt.
  - intros _ args v n. destruct (length args <? mandatory)%nat; [done|]. intros [= <- <-]. apply (textual (cd := vector_codec (string_codec pd))).
  - intros v E. destruct dflt as [l|]; [|done]. injection E as <-. apply (textual (cd := vector_codec (string_codec pd))).
Qed.

(** ** Command lines *)

(** A positional argument, or an option with a value after the sign [=] and further arguments *)
Inductive argument_item := Positional (a : text) | Given (d : described) (inline : option text) (more : list text).

Definition tokens_of (inline : option text) : list text := match inline with Some v => [v] | None => [] end.
Definition render_item (i : argument_item) : list text :=
  match i with
  | Positional a => [a]
  | Given d inline more => (str "--" ++ name_ (it d) ++ match inline with Some v => "="%byte :: v | None => [] end) :: more
  end.
Definition render (l : list argument_item) : list text := l ≫= render_item.

(** The options take what was given to them, and store these values. *)
Inductive assigns : list argument_item -> list (text * value) -> Prop :=
| assigns_nil : assigns [] []
| assigns_positional a l vs : is_option a = false -> assigns l vs -> assigns (Positional a :: l) vs
| assigns_given d inline more l v vs :
    collect d (length (tokens_of inline)) (tokens_of inline ++ more ++ render l) = Ok (v, length (tokens_of inline) + length more)%nat ->
    assigns l vs -> assigns (Given d inline more :: l) ((name_ (it d), v) :: vs).

Definition positional (l : list argument_item) : list text := l ≫= fun i => match i with Positional a => [a] | Given _ _ _ => [] end.
Definition defaults (ds : list described) : list (text * value) :=
  ds ≫= fun d => match default_value d with Some v => [(name_ (it d), v)] | None => [] end.
(** The last value of every parameter *)
Definition last_values (m : gmap text value) (l : list (text * value)) : gmap text value := foldl (fun m (e : text * value) => (<[e.1 := e.2]> m)) m l.

(** A name without components, and without the sign that ends it. *)
Definition plain_name (n : text) : Prop := n <> [] /\ ("."%byte ∉ n) /\ ("="%byte ∉ n).

(** The parameters of a configuration, which have names of one component *)
Definition holds (c : Configuration) (m : gmap text value) : Prop :=
  separator c = "."%byte /\ text_keys (root c) = true /\ isMap (root c) = true /\ forall n, child (KString n) (root c) = m !! n.

Lemma plain_path c n : separator c = "."%byte -> plain_name n -> path_of c n = [KString n].
Proof.
  intros Hs (Hn & Hd & _). unfold path_of, tokenize, Tokenizer_string. simpl. rewrite Hs.
  pose proof (tokenize_join (list_to_set ["."%byte]) false "."%byte [n]) as H. simpl in H. rewrite H; [done|set_solver| |done].
  apply Forall_singleton. split; [|by right]. apply Forall_forall. intros c' Hc' Hin. assert (c' = "."%byte) as -> by set_solver. done.
Qed.

Lemma at_component k v : at_path [k] v = child k v.
Proof. simpl. by destruct (child k v). Qed.

Lemma setValue_holds c m n v : holds c m -> plain_name n -> text_keys v = true ->
  exists c', setValue n v c = (Ok tt, c') /\ holds c' (<[n := v]> m).
Proof.
  intros (Hs & Ht & Hm & Hc) Hn Hv. unfold setValue, at_root. rewrite (plain_path c n Hs Hn).
  destruct (psetValue_open [n] v (root c)) as (r & E & Ht' & Hm' & Hat & Hq); [done..|simpl; rewrite Hm; by destruct (child _ _)|].
  change [KString n] with (KString <$> [n]). rewrite E. eexists. split; [done|]. split_and!; [done..|]. intros n'. simpl. destruct (decide (n = n')) as [<-|Hne].
  - rewrite lookup_insert_eq, <- at_component. exact Hat.
  - rewrite lookup_insert_ne, <- Hc, <- !at_component by done. apply Hq; intros H; apply prefix_cons_inv_1 in H; congruence.
Qed.

Lemma holds_new : holds (new_configuration "."%byte) ∅.
Proof. by split_and!. Qed.

Lemma holds_get {T} (cd : codec T) c m n : holds c m -> plain_name n ->
  get cd n c = match m !! n with Some v => x ← from cd v; Ok (Some x) | None => Ok None end.
Proof.
  intros (Hs & Ht & Hm & Hc) Hn. rewrite get_at by done. by rewrite (plain_path c n Hs Hn), <- Hc, <- at_component.
Qed.

(** ** The two loops *)

Lemma register_active options : forall opts, register options opts = register (filter (fun o => active o = true) options) opts.
Proof.
  induction options as [|j options IH]; intros opts; [done|]. rewrite filter_cons. simpl. destruct (active j) eqn:E; simpl; [|apply IH].
  rewrite E. by rewrite IH.
Qed.

Lemma last_values_app m l k : last_values m (l ++ k) = last_values (last_values m l) k.
Proof. apply foldl_app. Qed.

Lemma defaults_cons d ds : defaults (d :: ds) = defaults [d] ++ defaults ds.
Proof. unfold defaults. simpl. by rewrite app_nil_r. Qed.

Definition names (ds : list described) : list text := (fun d => name_ (it d)) <$> ds.

Lemma set_default_holds d `{!Describes d} s m : holds (config s) m -> plain_name (name_ (it d)) ->
  exists c, on_config (setDefault (it d)) s = (Ok tt, mkCmdArgs c (keys_ s) (args_ s)) /\ holds c (last_values m (defaults [d])).
Proof.
  intros Hm Hn. unfold on_config. rewrite d_default. unfold defaults. simpl. destruct (default_value d) as [v|] eqn:E; simpl; [|eauto].
  destruct (setValue_holds _ _ _ v Hm Hn (d_default_text v E)) as (c & -> & Hc). eauto.
Qed.

Lemma register_holds ds : forall opts s m, Forall Describes ds -> NoDup (names ds) ->
  Forall (fun d => plain_name (name_ (it d)) /\ opts !! name_ (it d) = None) ds -> holds (config s) m ->
  exists s' opts', register (it <$> ds) opts s = (Ok opts', s') /\ holds (config s') (last_values m (defaults ds)) /\ args_ s' = args_ s /\
    keys_ s' = list_to_set (names ds) ∪ keys_ s /\
    (forall n o, opts !! n = Some o -> opts' !! n = Some o) /\ Forall (fun d => opts' !! name_ (it d) = Some (it d)) ds.
Proof.
  induction ds as [|d ds IH]; intros opts s m HD Hn Hp Hm; simpl.
  { exists s, opts. split_and!; try done. by rewrite union_empty_l_L. }
  apply Forall_cons in HD as [Hd HD], Hp as [[Hp Ho] HP]. apply NoDup_cons in Hn as [Hnin Hn].
  rewrite d_active, (bool_decide_eq_true_2 _ Ho). simpl. unfold mbind at 1, M_bind at 1. simpl. unfold mbind at 1, M_bind at 1. simpl.
  set (s1 := mkCmdArgs (config s) ({[name_ (it d)]} ∪ keys_ s) (args_ s)).
  destruct (set_default_holds d s1 m Hm Hp) as (c & E & Hc). unfold mbind at 1, M_bind at 1. rewrite E.
  destruct (IH (<[name_ (it d) := it d]> opts) (mkCmdArgs c (keys_ s1) (args_ s1)) (last_values m (defaults [d])) HD Hn) as (s' & opts' & E' & H1 & H2 & H3 & H4 & H5); [|done|].
  { rewrite Forall_forall in HP |- *. intros d' Hd'. destruct (HP d' Hd') as [? ?]. split; [done|]. rewrite lookup_insert_ne; [done|].
    intros E1. apply Hnin. rewrite E1. unfold names. by apply (list_elem_of_fmap_2 (fun d => name_ (it d))). }
  exists s', opts'. split_and!; [done| |by rewrite H2|rewrite H3; simpl; set_solver| |].
  - change (holds (config s') (last_values m (defaults (d :: ds)))). by rewrite defaults_cons, last_values_app.
  - intros n o Hno. apply H4. rewrite lookup_insert_ne; [done|]. intros E1. by rewrite E1, Hno in Ho.
  - constructor; [|done]. apply H4. by rewrite lookup_insert_eq.
Qed.

(** The arguments that an option took are passed over. *)
Lemma process_skip opts more : forall e rest, process opts (length more) e (more ++ rest) = process opts 0 e rest.
Proof. induction more as [|a more IH]; intros e rest; [done|]. apply IH. Qed.

Lemma find_first_of_skip (n : text) (c : byte) rest : c ∉ n -> find_first_of c (n ++ c :: rest) = Some (length n).
Proof.
  induction n as [|x n IH]; intros Hn; simpl; [by rewrite decide_True|].
  rewrite decide_False by (intros ->; apply Hn; left). by rewrite IH by (intros H; apply Hn; by right).
Qed.
Lemma find_first_of_absent (n : text) (c : byte) : c ∉ n -> find_first_of c n = None.
Proof.
  induction n as [|x n IH]; intros Hn; simpl; [done|].
  rewrite decide_False by (intros ->; apply Hn; left). by rewrite IH by (intros H; apply Hn; by right).
Qed.

Lemma split_name n inline : plain_name n ->
  split_at (n ++ match inline with Some v => "="%byte :: v | None => [] end) "="%byte = n :: tokens_of inline.
Proof.
  intros (_ & _ & He). unfold split_at. destruct inline as [v|]; simpl.
  - rewrite find_first_of_skip by done. rewrite take_app_length, drop_app_ge by lia. by replace (length n + 1 - length n)%nat with 1%nat by lia.
  - rewrite app_nil_r, find_first_of_absent by done. done.
Qed.

Lemma process_given opts d `{!Describes d} inline more l v s m :
  opts !! name_ (it d) = Some (it d) -> plain_name (name_ (it d)) -> holds (config s) m ->
  collect d (length (tokens_of inline)) (tokens_of inline ++ more ++ render l) = Ok (v, length (tokens_of inline) + length more)%nat ->
  exists c, process opts 0 false (render (Given d inline more :: l)) s = process opts 0 false (render l) (mkCmdArgs c (keys_ s) (args_ s)) /\
    holds c (<[name_ (it d) := v]> m).
Proof.
  intros Ho Hn Hm Hc. unfold render. cbn [mbind list_bind]. fold (render l). cbn [render_item app process is_option].
  unfold is_option. rewrite bool_decide_eq_true_2 by done. change (drop 2 (str "--" ++ ?x)) with x. rewrite (split_name _ inline Hn), Ho.
  unfold on_config. rewrite d_set. fold (render l). rewrite Hc. unfold store. simpl. unfold mbind at 1, M_bind at 1. simpl.
  destruct (setValue_holds _ _ _ v Hm Hn (d_text _ _ _ _ Hc)) as (c & E & Hc'). unfold mbind at 1, M_bind at 1. rewrite E. simpl.
  rewrite (proj2 (Nat.ltb_ge _ _)) by lia. replace (length (tokens_of inline) + length more - length (tokens_of inline))%nat with (length more) by lia.
  exists c. split; [|done]. by rewrite process_skip.
Qed.

Lemma process_positional opts a l s : is_option a = false ->
  process opts 0 false (render (Positional a :: l)) s = process opts 0 false (render l) (mkCmdArgs (config s) (keys_ s) (args_ s ++ [a])).
Proof. intros Ha. unfold render. cbn [mbind list_bind render_item app process]. by rewrite Ha. Qed.

Lemma process_items opts ds : Forall Describes ds -> Forall (fun d => plain_name (name_ (it d))) ds -> Forall (fun d => opts !! name_ (it d) = Some (it d)) ds ->
  forall l vs, assigns l vs -> Forall (fun i => match i with Given d _ _ => d ∈ ds | _ => True end) l ->
  forall s m, holds (config s) m -> exists c, process opts 0 false (render l) s = (Ok false, mkCmdArgs c (keys_ s) (args_ s ++ positional l)) /\
    holds c (last_values m vs).
Proof.
  rewrite !Forall_forall. intros HD HP HO l vs Hl. induction Hl as [|a l vs Ha Hl IH|d inline more l v vs Hc Hl IH]; intros Hin s m Hm.
  - exists (config s). rewrite app_nil_r. by destruct s.
  - rewrite process_positional by done. apply Forall_cons in Hin as [_ Hin].
    destruct (IH Hin (mkCmdArgs (config s) (keys_ s) (args_ s ++ [a])) m Hm) as (c & E & H). exists c. rewrite E. simpl. by rewrite <- app_assoc.
  - apply Forall_cons in Hin as [Hd Hin]. pose proof (HD d Hd).
    destruct (process_given opts d inline more l v s m (HO d Hd) (HP d Hd) Hm Hc) as (c & -> & Hc').
    destruct (IH Hin (mkCmdArgs c (keys_ s) (args_ s)) _ Hc') as (c' & -> & H'). by exists c'.
Qed.

(** C32. A command line is parsed into what it was written from: for any options, of any of
    the classes and types, with different names, and any line of positional arguments and
    options with the values that they take (after the sign [=] or as arguments of their
    own), [init] collects the positional arguments in order, gives every parameter the last
    value that was given to it, or else its default, with its type, and knows the names of
    the options.  It ends with an error exactly when the number of positional arguments is not
    the one that was asked for. *)
Theorem cmdargs_parses options ds l vs args_count minimum_args throw_on_error :
  filter (fun o => active o = true) options = it <$> ds -> Forall Describes ds -> NoDup (names ds) -> Forall (fun d => plain_name (name_ (it d))) ds ->
  assigns l vs -> Forall (fun i => match i with Given d _ _ => d ∈ ds | _ => True end) l ->
  exists s, init options args_count minimum_args throw_on_error (render l) new_args =
    (if count_error args_count minimum_args (positional l) then if throw_on_error then Throw UserError else Ok (Exited 1) else Ok Parsed, s) /\
    args_ s = positional l /\ keys_ s = list_to_set (names ds) /\
    forall n T (cd : codec T), plain_name n -> get cd n (config s) =
      match last_values ∅ (defaults ds ++ vs) !! n with Some v => x ← from cd v; Ok (Some x) | None => Ok None end.
Proof.
  intros Ho HD Hn HP Hl Hin. unfold init. rewrite register_active, Ho.
  destruct (register_holds ds ∅ new_args ∅ HD Hn) as (s1 & opts & E1 & H1 & Ha & Hk & _ & Hopts); [by eapply Forall_impl|apply holds_new|].
  unfold mbind at 1, M_bind at 1. rewrite E1. destruct (process_items opts ds HD HP Hopts l vs Hl Hin s1 _ H1) as (c & E2 & H2).
  unfold mbind at 1, M_bind at 1. rewrite E2. simpl. rewrite Ha. simpl. exists (mkCmdArgs c (keys_ s1) (positional l)). split_and!; [|done| |].
  - unfold mbind, M_bind, getM. simpl. destruct (count_error _ _ _); [|done]. by destruct throw_on_error.
  - rewrite Hk. simpl. by rewrite union_empty_r_L.
  - intros n T cd Hp. rewrite last_values_app. by apply holds_get.
Qed.

(** ** Examples *)

Definition width_option : described := simple_described long_codec (fun s => Ok (string_to_long s)) (str "width") (Some 10).
Definition verbose_option : described := flag_described (str "verbose") None.
Definition area_option : described := vector_described long_codec (fun s => Ok (string_to_long s)) (str "area") 2 (str "/") None.
Definition files_option (o : Option_) : described := multi_described (fun _ => []) 1 2 None o.

Lemma cmdargs_parses_witness : exists s o, MultiValueOption (fun _ => []) (str "files") 1 2 None = Ok o /\
  init [it width_option; Separator; it verbose_option; it area_option; o] 1 0 true
    [str "--width"; str "20"; str "input"; str "--files=a"; str "b"; str "--verbose"; str "--width=30"; str "--area=1/2"] new_args = (Ok Parsed, s) /\
  args_ s = [str "input"] /\ get long_codec (str "width") (config s) = Ok (Some 30) /\ get bool_codec (str "verbose") (config s) = Ok (Some true) /\
  get (vector_codec long_codec) (str "area") (config s) = Ok (Some [1; 2]) /\ get (vector_codec (string_codec (fun _ => []))) (str "files") (config s) = Ok (Some [str "a"; str "b"]).
Proof.
  destruct (MultiValueOption (fun _ => []) (str "files") 1 2 None) as [o| | |] eqn:Eo; try discriminate.
  pose proof (multi_describes _ _ _ _ _ _ Eo) as Hmulti. injection Eo as Eo. assert (En : name_ o = str "files") by (by subst o).
  assert (Ea : active o = true) by (by subst o). clear Eo.
  set (ds := [width_option; verbose_option; area_option; files_option o]).
  destruct (cmdargs_parses [it width_option; Separator; it verbose_option; it area_option; o] ds
    [Given width_option None [str "20"]; Positional (str "input"); Given (files_option o) (Some (str "a")) [str "b"]; Given verbose_option None [];
     Given width_option (Some (str "30")) []; Given area_option (Some (str "1/2")) []]
    [(str "width", into long_codec 20); (str "files", into (vector_codec (string_codec (fun _ => []))) [str "a"; str "b"]); (str "verbose", into bool_codec true);
     (str "width", into long_codec 30); (str "area", into (vector_codec long_codec) [1; 2])] 1 0 true) as (s & E & H1 & _ & H2).
  - unfold ds. rewrite !filter_cons. simpl. by rewrite Ea.
  - repeat (apply Forall_cons; split); [apply _..|exact Hmulti|constructor].
  - unfold names, ds. simpl. rewrite En. apply (bool_decide_unpack _). by vm_compute.
  - repeat (apply Forall_cons; split); [..|constructor]; cbn [it files_option multi_described]; rewrite ?En; (split; [done|]); split; apply (bool_decide_unpack _); by vm_compute.
  - apply assigns_given; [by vm_compute|]. apply assigns_positional; [by vm_compute|]. rewrite <- En. apply (assigns_given (files_option o) (Some (str "a"))); [by vm_compute|].
    apply assigns_given; [by vm_compute|]. apply (assigns_given width_option (Some (str "30"))); [by vm_compute|]. apply (assigns_given area_option (Some (str "1/2"))); [by vm_compute|constructor].
  - unfold ds. repeat (apply Forall_cons; split); [set_solver..|constructor].
  - exists s, o. split; [done|]. unfold render in E. simpl in E. rewrite En in E. split; [exact E|]. split; [exact H1|].
    assert (Hp : forall n, n ∈ [str "width"; str "verbose"; str "area"; str "files"] -> plain_name n).
    { intros n Hn. repeat (apply elem_of_cons in Hn as [->|Hn]; [split; [done|]; split; apply (bool_decide_unpack _); by vm_compute|]). by apply elem_of_nil in Hn. }
    unfold ds, defaults in H2. simpl in H2. split_and!; (rewrite H2; [by vm_compute|apply Hp; set_solver]).
Defined.

(** A number that cannot be read is not reported as an invalid value: the exception of the
    translator leaves [init], as it is not the one that is caught. *)
Example cmdargs_bad_number :
  (init [SimpleOption double_codec string_to_double (str "x") None] (-1) 0 true [str "--x=abc"] new_args).1 = Throw BadParameter /\
  (init [it area_option] (-1) 0 false [str "--area=1"] new_args).1 = Ok (Exited 1).
Proof. split; by vm_compute. Qed.
