(* ===== verification/SPTree.v ===== *)
(** * Space partitioning trees

    What the spatial trees share ([container/sptree/]): the nodes, the counters of
    [StatCollector], the queue of the k best candidates, the brute force queries, the
    links for traversal and the iterator.  The point type of the template is the class
    [PointOps]; the node classes of [KDTree] and [BSPTree] are trees whose nodes hold an
    axis or a plane.  A node has its address [id]; a null pointer is [Null].

    [std::priority_queue] is the class [PriorityQueue] with the laws of the standard,
    since the order of equal candidates is open, and [std::sort] a parameter. *)
From stdpp Require Import sorting.
From Stdlib Require Import Floats.SpecFloat.
From S2P Require Import Prelude Double DoubleOrder.

(** ** Points *)

(** What the trees use of [Traits::Point]. *)
Class PointOps (P : Type) := {
  DIMS : nat;
  coord : P -> nat -> double;
  distance : P -> P -> double;
  axis_distance : P -> P -> nat -> double;
}.

(** What a search relies on, for points in [ok]: coordinates and distances are numbers,
    and a point beyond a plane is at least as far as the plane. *)
Class PointLaws (P : Type) `{PointOps P} (ok : P -> Prop) : Prop := {
  DIMS_pos : (0 < DIMS)%nat;
  coord_num p a : ok p -> (a < DIMS)%nat -> isnan (coord p a) = false;
  distance_num p q : ok p -> ok q -> isnan (distance p q) = false;
  beyond_above p n q a : ok p -> ok n -> ok q -> (a < DIMS)%nat ->
    dlt (coord p a) (coord n a) = true -> dle (coord n a) (coord q a) = true -> dle (axis_distance p n a) (distance p q) = true;
  beyond_below p n q a : ok p -> ok n -> ok q -> (a < DIMS)%nat ->
    dle (coord n a) (coord p a) = true -> dle (coord q a) (coord n a) = true -> dle (axis_distance p n a) (distance p q) = true;
}.

(** ** Counters *)

Record StatCollector := { calls_ : Z; nodes_ : Z; depth_ : Z; newCandidateMiss_ : Z; newCandidateOK_ : Z; crossOvers_ : Z }.

Definition inc (c : Z) : Z := wrapU 64 (c + 1).
Definition new_stats : StatCollector := Build_StatCollector 0 0 0 0 0 0.
Definition statsReset (s : StatCollector) : StatCollector := Build_StatCollector 0 0 (depth_ s) 0 0 0.
Definition statsCall (s : StatCollector) : StatCollector :=
  Build_StatCollector (inc (calls_ s)) (nodes_ s) (depth_ s) (newCandidateMiss_ s) (newCandidateOK_ s) (crossOvers_ s).
Definition statsVisitNode (s : StatCollector) : StatCollector :=
  Build_StatCollector (calls_ s) (inc (nodes_ s)) (depth_ s) (newCandidateMiss_ s) (newCandidateOK_ s) (crossOvers_ s).
Definition statsDepth (d : Z) (s : StatCollector) : StatCollector :=
  if depth_ s <? d then Build_StatCollector (calls_ s) (nodes_ s) d (newCandidateMiss_ s) (newCandidateOK_ s) (crossOvers_ s) else s.
Definition statsNewCandidateOK (s : StatCollector) : StatCollector :=
  Build_StatCollector (calls_ s) (nodes_ s) (depth_ s) (newCandidateMiss_ s) (inc (newCandidateOK_ s)) (crossOvers_ s).
Definition statsNewCandidateMiss (s : StatCollector) : StatCollector :=
  Build_StatCollector (calls_ s) (nodes_ s) (depth_ s) (inc (newCandidateMiss_ s)) (newCandidateOK_ s) (crossOvers_ s).
Definition statsCrossOver (s : StatCollector) : StatCollector :=
  Build_StatCollector (calls_ s) (nodes_ s) (depth_ s) (newCandidateMiss_ s) (newCandidateOK_ s) (inc (crossOvers_ s)).

(** The nodes that were visited and not yet counted as a hit or as a miss. *)
Definition uncounted (s : StatCollector) : Z := wrapU 64 (nodes_ s - newCandidateOK_ s - newCandidateMiss_ s).

(** ** Nodes *)

Record Value (P D : Type) := { point : P; payload : D }.
Arguments Build_Value {P D}.
Arguments point {P D}.
Arguments payload {P D}.

Record NodeInfo (P D : Type) := { node_ : Value P D; id_ : Z; distance_ : double }.
Arguments Build_NodeInfo {P D}.
Arguments node_ {P D}.
Arguments id_ {P D}.
Arguments distance_ {P D}.

Definition info_lt {P D} (a b : NodeInfo P D) : bool := dlt (distance_ a) (distance_ b).

(** [X]: what a node class adds to [SPNode]. *)
Inductive tree (P D X : Type) : Type :=
| Null
| Node (id : Z) (value : Value P D) (x : X) (left right : tree P D X).
Arguments Null {P D X}.
Arguments Node {P D X}.

(** ** The queue of candidates *)

(** [std::priority_queue<NodeInfo>]: [top] is an element than which none is greater. *)
Class PriorityQueue (P D Q : Type) := {
  pq_empty : Q;
  pq_push : NodeInfo P D -> Q -> Q;
  pq_top : Q -> option (NodeInfo P D);
  pq_pop : Q -> Q;
  pq_items : Q -> list (NodeInfo P D);
}.

Definition numbers {P D} (l : list (NodeInfo P D)) : Prop := forall i, i ∈ l -> isnan (distance_ i) = false.

Class PriorityQueueLaws (P D Q : Type) `{PriorityQueue P D Q} : Prop := {
  items_empty : pq_items pq_empty = [];
  items_push i q : pq_items (pq_push i q) ≡ₚ i :: pq_items q;
  top_none q : pq_top q = None -> pq_items q = [];
  top_some q i : pq_top q = Some i ->
    pq_items q ≡ₚ i :: pq_items (pq_pop q) /\ (numbers (pq_items q) -> forall j, j ∈ pq_items q -> dle (distance_ j) (distance_ i) = true);
}.

Section Tree.
Context {P D X : Type} `{PointOps P}.
Implicit Types t : tree P D X.

Fixpoint nodes t : list (Z * Value P D) :=
  match t with Null => [] | Node id v _ l r => (id, v) :: nodes l ++ nodes r end.
Definition ids t : list Z := (nodes t).*1.
Definition values t : list (Value P D) := (nodes t).*2.
Definition info (p : P) (n : Z * Value P D) : NodeInfo P D := Build_NodeInfo n.2 n.1 (distance p (point n.2)).
Definition infos (p : P) t : list (NodeInfo P D) := info p <$> nodes t.
Fixpoint height t : nat :=
  match t with Null => 0 | Node _ _ _ l r => S (max (height l) (height r)) end.

(** *** Brute force queries *)

Fixpoint nearestNeighbourBruteForceX (p : P) t (s : (Z * Value P D) * double) : (Z * Value P D) * double :=
  match t with
  | Null => s
  | Node id v _ l r =>
      let d := distance p (point v) in
      let s := if dlt d s.2 then ((id, v), d) else s in
      nearestNeighbourBruteForceX p r (nearestNeighbourBruteForceX p l s)
  end.

Definition nearestNeighbourBruteForce (p : P) t : outcome (NodeInfo P D) :=
  match t with
  | Null => Undef
  | Node id v _ _ _ =>
      let s := nearestNeighbourBruteForceX p t ((id, v), distance p (point v)) in
      Ok (Build_NodeInfo s.1.2 s.1.1 s.2)
  end.

Fixpoint findInSphereBruteForceX (p : P) (radius : double) t (result : list (NodeInfo P D)) : list (NodeInfo P D) :=
  match t with
  | Null => result
  | Node id v _ l r =>
      let d := distance p (point v) in
      let result := if dle d radius then result ++ [Build_NodeInfo v id d] else result in
      findInSphereBruteForceX p radius r (findInSphereBruteForceX p radius l result)
  end.

(** *** Traversal *)

(** The calls that a visitor gets: [enter] and [leave] with the point, whether the node
    is a leaf, and the depth. *)
Inductive event := Enter (p : P) (leaf : bool) (depth : Z) | Leave (p : P) (leaf : bool) (depth : Z).

Definition is_null t : bool := match t with Null => true | _ => false end.
Fixpoint visit t (depth : Z) : list event :=
  match t with
  | Null => []
  | Node _ v _ l r =>
      let leaf := is_null l && is_null r in
      Enter (point v) leaf depth :: visit l (depth + 1) ++ visit r (depth + 1) ++ [Leave (point v) leaf depth]
  end.

(** [linkNodes]: the fields [next_] of the nodes, by address, and [prev]. *)
Fixpoint linkNodes t (s : gmap Z Z * Z) : gmap Z Z * Z :=
  match t with
  | Null => s
  | Node id _ _ l r =>
      let '(next, prev) := s in
      let next := if prev =? 0 then next else <[prev := id]> next in
      linkNodes r (linkNodes l (next, id))
  end.

Definition next_of (next : gmap Z Z) (ptr : Z) : Z := default 0 (next !! ptr).

(** [SPIterator(alloc, ptr)] *)
Definition iterator (next : gmap Z Z) t : gmap Z Z * Z :=
  match t with
  | Null => (next, 0)
  | Node id _ _ _ _ => (if next_of next id =? 0 then (linkNodes t (next, 0)).1 else next, id)
  end.

(** The loop [for (it = begin; it != end; ++it)]: the nodes that it meets. *)
Fixpoint iterate (fuel : nat) (next : gmap Z Z) (ptr : Z) : outcome (list Z) :=
  if ptr =? 0 then Ok [] else
  match fuel with
  | O => NoFuel
  | S fuel => rest ← iterate fuel next (next_of next ptr); Ok (ptr :: rest)
  end.

(** [alloc_.convert(ptr, (Node* )0)->value()] *)
Definition value_at t (ptr : Z) : option (Value P D) :=
  (list_to_map (nodes t) : gmap Z (Value P D)) !! ptr.

(** [KDMemory::deleteNode]: the items left after the nodes of the tree were deleted. *)
Fixpoint deleteNode t (nbItems : Z) : Z :=
  match t with
  | Null => nbItems
  | Node _ _ _ l r => wrapU 64 (deleteNode r (deleteNode l nbItems) - 1)
  end.
End Tree.

(** ** [SPNodeQueue] *)

Section Queue.
Context {P D Q : Type} `{PQ : PriorityQueue P D Q}.
Implicit Types q : Q.

Definition queue_size q : nat := length (pq_items q).

(** [while (queue_.size() > k_) queue_.pop();] *)
Fixpoint pop_down (fuel : nat) (k : nat) q : Q :=
  match fuel with
  | O => q
  | S fuel => if bool_decide (k < queue_size q)%nat then pop_down fuel k (pq_pop q) else q
  end.
Definition push (k : nat) (i : NodeInfo P D) q : Q :=
  let q := pq_push i q in pop_down (queue_size q) k q.

Definition largest q : double := match pq_top q with Some i => distance_ i | None => dmax end.
Definition incomplete (k : nat) q : bool := bool_decide (queue_size q < k)%nat.

(** [while (!queue_.empty()) { v.push_back(queue_.top()); queue_.pop(); }] *)
Fixpoint drain (fuel : nat) q (v : list (NodeInfo P D)) : list (NodeInfo P D) :=
  match fuel with
  | O => v
  | S fuel => match pq_top q with Some i => drain fuel (pq_pop q) (v ++ [i]) | None => v end
  end.

(** [v.reserve(k_)] throws when [k_] elements of 24 bytes cannot exist. *)
Definition reserve_max : Z := (2 ^ 63 - 1) / 24.
Definition fill (std_sort : list (NodeInfo P D) -> list (NodeInfo P D)) (k : nat) q : outcome (list (NodeInfo P D)) :=
  if reserve_max <? Z.of_nat k then Throw StdLengthError else Ok (std_sort (drain (queue_size q) q [])).

Fixpoint kNearestNeighboursBruteForceX {X} `{PointOps P} (p : P) (k : nat) (t : tree P D X) q : Q :=
  match t with
  | Null => q
  | Node id v _ l r =>
      let q := push k (Build_NodeInfo v id (distance p (point v))) q in
      kNearestNeighboursBruteForceX p k r (kNearestNeighboursBruteForceX p k l q)
  end.
End Queue.

(** ** The k nearest *)

Section Nearest.
Context {P D : Type}.
Implicit Types (q S T : list (NodeInfo P D)) (i x y : NodeInfo P D).

(** [q] holds [k] of the candidates [S] (all of them when there are fewer), and no other
    candidate is nearer than one of them. *)
Definition nearest (k : nat) q S : Prop :=
  exists rest, S ≡ₚ q ++ rest /\ length q = Nat.min k (length S) /\
    forall x y, x ∈ q -> y ∈ rest -> dle (distance_ x) (distance_ y) = true.

Definition ascending q : Prop := StronglySorted (fun x y => dle (distance_ x) (distance_ y) = true) q.

(** What a query for the [k] nearest of [S] has to return. *)
Definition k_nearest (k : nat) (r S : list (NodeInfo P D)) : Prop := nearest k r S /\ ascending r.

Lemma nearest_incomplete k q S : nearest k q S -> (length q < k)%nat -> S ≡ₚ q.
Proof.
  intros (rest & Hp & Hl & _) Hk. pose proof (Permutation_length Hp) as E. rewrite length_app in E.
  destruct rest; [by rewrite app_nil_r in Hp|]. simpl in E. lia.
Qed.

Lemma nearest_perm k q q' S S' : q ≡ₚ q' -> S ≡ₚ S' -> nearest k q S -> nearest k q' S'.
Proof.
  intros Hq HS (rest & Hp & Hl & H). exists rest. rewrite <- Hq, <- HS. split_and!; [done| |].
  - done.
  - intros x y Hx Hy. apply H; [by rewrite Hq|done].
Qed.

Lemma nearest_add k q S i : nearest k q S -> (length q < k)%nat -> nearest k (i :: q) (i :: S).
Proof.
  intros Hn Hk. pose proof (nearest_incomplete k q S Hn Hk) as E. exists []. rewrite app_nil_r, E. split_and!; [done| |].
  - simpl. apply Permutation_length in E. lia.
  - intros x y _ []%not_elem_of_nil.
Qed.

(** The candidate that is dropped is one of the largest of [k + 1]. *)
Lemma nearest_replace k q q' S i t : nearest k q S -> length q = k -> i :: q ≡ₚ t :: q' ->
  (forall x, x ∈ i :: q -> dle (distance_ x) (distance_ t) = true) -> nearest k q' (i :: S).
Proof.
  intros (rest & Hp & Hl & H) Hk Hq Ht. exists (t :: rest). split_and!.
  - rewrite Hp. change (i :: q ++ rest) with ((i :: q) ++ rest). rewrite Hq. simpl. by rewrite Permutation_middle.
  - apply Permutation_length in Hq. simpl in *. lia.
  - assert (Hq' : forall x, x ∈ q' -> x ∈ i :: q) by (intros x Hx; rewrite Hq; by right).
    intros x y Hx Hy. apply elem_of_cons in Hy as [->|Hy]; [by apply Ht, Hq'|].
    assert (Hti : t ∈ i :: q) by (rewrite Hq; by left). apply elem_of_cons in Hti as [->|Hti].
    + apply Permutation_cons_inv in Hq. apply H; [by rewrite Hq|done].
    + destruct (proj1 (elem_of_cons _ _ _) (Hq' x Hx)) as [->|Hxq]; [|by apply H].
      eapply dle_trans; [apply Ht; by left|by apply H].
Qed.

Lemma nearest_skip k q S T : nearest k q S -> length q = k ->
  (forall x y, x ∈ q -> y ∈ T -> dle (distance_ x) (distance_ y) = true) -> nearest k q (T ++ S).
Proof.
  intros (rest & Hp & Hl & H) Hk HT. exists (T ++ rest). split_and!.
  - rewrite Hp. rewrite !(Permutation_app_comm T), app_assoc. done.
  - rewrite length_app. lia.
  - intros x y Hx [Hy|Hy]%elem_of_app; auto.
Qed.

Lemma nearest_nil k : nearest k [] [].
Proof. exists []. split_and!; [done|simpl; lia|]. intros x y []%not_elem_of_nil. Qed.

(** Two answers to the same query have the same distances, place by place. *)
Definition below (v : double) q : nat := length (filter (fun x => dlt (distance_ x) v = true) q).

Lemma below_app v q T : below v (q ++ T) = (below v q + below v T)%nat.
Proof. unfold below. by rewrite filter_app, length_app. Qed.
Lemma below_perm v q T : q ≡ₚ T -> below v q = below v T.
Proof. intros E. unfold below. by rewrite E. Qed.
Lemma below_none v q : (forall x, x ∈ q -> dle v (distance_ x) = true) -> below v q = 0%nat.
Proof.
  intros Hq. unfold below. rewrite filter_none; [done|]. apply Forall_forall. intros x Hx Hlt. by eapply dlt_dle_false; [|apply Hq].
Qed.
Lemma below_all v q : (forall x, x ∈ q -> dlt (distance_ x) v = true) -> below v q = length q.
Proof.
  unfold below. induction q as [|x q IH]; intros Hq; [done|]. rewrite filter_cons_True by (apply Hq; by left).
  simpl. f_equal. apply IH. intros y Hy. apply Hq. by right.
Qed.
Lemma below_le v q : (below v q <= length q)%nat.
Proof. apply length_filter. Qed.

Lemma ascending_lookup q n x : ascending q -> q !! n = Some x ->
  (forall y, y ∈ take n q -> dle (distance_ y) (distance_ x) = true) /\ (forall y, y ∈ drop (S n) q -> dle (distance_ x) (distance_ y) = true).
Proof.
  intros Ha Hx. pose proof (take_drop_middle _ _ _ Hx) as E. unfold ascending in Ha. rewrite <- E in Ha.
  apply StronglySorted_app in Ha as (H1 & Ha1 & Ha2). apply StronglySorted_inv in Ha2 as [_ Ha2]. split.
  - intros y Hy. apply H1; [done|by left].
  - intros y Hy. by apply (proj1 (Forall_forall _ _) Ha2).
Qed.

Lemma k_nearest_not_less k r1 r2 S n x1 x2 : numbers S -> k_nearest k r1 S -> k_nearest k r2 S ->
  r1 !! n = Some x1 -> r2 !! n = Some x2 -> dlt (distance_ x1) (distance_ x2) = true -> False.
Proof.
  intros HS [(t1 & Hp1 & _ & _) A1] [(t2 & Hp2 & _ & H2) A2] L1 L2 Hlt. set (v := distance_ x2) in *.
  assert (E : below v (r1 ++ t1) = below v (r2 ++ t2)) by (by rewrite <- (below_perm v _ _ Hp1), <- (below_perm v _ _ Hp2)).
  destruct (ascending_lookup r1 n x1 A1 L1) as [B1 _], (ascending_lookup r2 n x2 A2 L2) as [_ B2].
  assert (Hx2 : x2 ∈ r2) by (by eapply list_elem_of_lookup_2).
  assert (Hv : isnan v = false) by (apply HS; rewrite Hp2; apply elem_of_app; by left).
  rewrite !below_app, (below_none v t2) in E by (intros; by apply H2). rewrite <- (take_drop_middle _ _ _ L1), <- (take_drop_middle _ _ _ L2) in E.
  change (?a :: ?l) with ([a] ++ l) in E. rewrite !below_app, (below_none v (drop _ r2)), (below_none v [x2]), (below_all v (take n r1)), (below_all v [x1]) in E.
  - pose proof (below_le v (take n r2)) as L. rewrite length_take in *. apply lookup_lt_Some in L1, L2. simpl in *. lia.
  - by intros x ->%list_elem_of_singleton.
  - intros x Hx. eapply dle_lt_trans; [by apply B1|done].
  - intros x ->%list_elem_of_singleton. by apply dle_refl.
  - done.
Qed.
End Nearest.

(** ** What the queue does *)

(** [std::sort] on candidates whose distances are numbers. *)
Definition sorts_infos {P D} (std_sort : list (NodeInfo P D) -> list (NodeInfo P D)) : Prop :=
  forall l, numbers l -> std_sort l ≡ₚ l /\ ascending (std_sort l).

Lemma numbers_perm {P D} (l k : list (NodeInfo P D)) : l ≡ₚ k -> numbers k -> numbers l.
Proof. intros E Hk i Hi. apply Hk. by rewrite <- E. Qed.
Lemma numbers_cons {P D} (i : NodeInfo P D) l : numbers (i :: l) <-> isnan (distance_ i) = false /\ numbers l.
Proof.
  split; [intros Hl; split; [apply Hl; by left|intros j Hj; apply Hl; by right]|].
  intros [Hi Hl] j [->|Hj]%elem_of_cons; [done|by apply Hl].
Qed.
Lemma nearest_numbers {P D} k (q S : list (NodeInfo P D)) : nearest k q S -> numbers S -> numbers q.
Proof. intros (rest & Hp & _) HS i Hi. apply HS. rewrite Hp. apply elem_of_app. by left. Qed.
Lemma nearest_length {P D} k (q S : list (NodeInfo P D)) : nearest k q S -> (length q <= k)%nat.
Proof. intros (rest & Hp & Hl & _). lia. Qed.

Section QueueLaws.
Context {P D Q : Type} `{PQL : PriorityQueueLaws P D Q}.
Implicit Types (q : Q) (S : list (NodeInfo P D)).

Lemma push_nearest k i q S : nearest k (pq_items q) S -> numbers (i :: S) -> nearest k (pq_items (push k i q)) (i :: S).
Proof using PQL.
  intros Hn HS. pose proof (nearest_length _ _ _ Hn) as Hl. pose proof (items_push i q) as Hp.
  pose proof (Permutation_length Hp) as Hs. unfold push, queue_size. rewrite Hs. simpl pop_down. unfold queue_size. rewrite Hs. simpl length.
  case_bool_decide as Hk; [|eapply nearest_perm; [symmetry; exact Hp|done|apply nearest_add; [done|lia]]].
  apply numbers_cons in HS as [Hi HS]. pose proof (nearest_numbers _ _ _ Hn HS) as Hq.
  destruct (pq_top (pq_push i q)) as [t|] eqn:Et; [|rewrite (top_none _ Et) in Hp; by apply Permutation_nil_cons in Hp].
  destruct (top_some _ _ Et) as [Hpop Hmax]. specialize (Hmax (numbers_perm _ _ Hp (proj2 (numbers_cons _ _) (conj Hi Hq)))).
  assert (Hstop : forall fuel, pop_down fuel k (pq_pop (pq_push i q)) = pq_pop (pq_push i q)).
  { intros [|fuel]; [done|]. simpl. rewrite bool_decide_false; [done|]. unfold queue_size.
    pose proof (Permutation_length Hpop) as E. simpl in *. lia. }
  rewrite Hstop. eapply nearest_replace; [done|lia|rewrite <- Hp; exact Hpop|]. intros x Hx. apply Hmax. by rewrite Hp.
Qed.

Lemma largest_spec q x : numbers (pq_items q) -> x ∈ pq_items q -> dle (distance_ x) (largest q) = true.
Proof using PQL.
  intros Hq Hx. unfold largest. destruct (pq_top q) as [t|] eqn:Et.
  - by apply (proj2 (top_some _ _ Et)).
  - rewrite (top_none _ Et) in Hx. by apply not_elem_of_nil in Hx.
Qed.

Lemma largest_number q : numbers (pq_items q) -> isnan (largest q) = false.
Proof using PQL.
  intros Hq. unfold largest. destruct (pq_top q) as [t|] eqn:Et; [|done]. apply Hq.
  rewrite (proj1 (top_some _ _ Et)). by left.
Qed.

Lemma drain_perm n : forall q v, queue_size q = n -> drain n q v ≡ₚ v ++ pq_items q.
Proof using PQL.
  induction n as [|n IH]; intros q v Hn; simpl; unfold queue_size in *.
  - destruct (pq_items q); [by rewrite app_nil_r|done].
  - destruct (pq_top q) as [t|] eqn:Et; [|rewrite (top_none _ Et) in Hn; done].
    destruct (top_some _ _ Et) as [Hp _]. rewrite IH; [by rewrite Hp, <- app_assoc|].
    apply Permutation_length in Hp. simpl in Hp. lia.
Qed.

Lemma fill_spec std_sort k q S : sorts_infos std_sort -> Z.of_nat k <= reserve_max -> numbers S -> nearest k (pq_items q) S ->
  exists r, fill std_sort k q = Ok r /\ k_nearest k r S.
Proof using PQL.
  intros Hsort Hk HS Hn. unfold fill. destruct (Z.ltb_spec reserve_max (Z.of_nat k)); [lia|]. eexists; split; [done|].
  pose proof (drain_perm _ q [] eq_refl) as Hd. simpl in Hd.
  destruct (Hsort (drain (queue_size q) q [])) as [Hp Ha].
  - eapply numbers_perm; [exact Hd|by eapply nearest_numbers].
  - split; [|done]. eapply nearest_perm; [|done|exact Hn]. by rewrite Hp, Hd.
Qed.
End QueueLaws.

(** A queue that is a list, and an insertion sort: they satisfy the laws. *)
Fixpoint extract_max {P D} (l : list (NodeInfo P D)) : option (NodeInfo P D * list (NodeInfo P D)) :=
  match l with
  | [] => None
  | x :: l => match extract_max l with
              | None => Some (x, l)
              | Some (m, rest) => if info_lt m x then Some (x, l) else Some (m, x :: rest)
              end
  end.
#[export] Instance list_queue P D : PriorityQueue P D (list (NodeInfo P D)) := {|
  pq_empty := []; pq_push := cons; pq_top l := fst <$> extract_max l; pq_pop l := default [] (snd <$> extract_max l); pq_items l := l |}.

Lemma extract_max_spec {P D} (l : list (NodeInfo P D)) :
  match extract_max l with
  | None => l = []
  | Some (m, rest) => l ≡ₚ m :: rest /\ (numbers l -> forall x, x ∈ l -> dle (distance_ x) (distance_ m) = true)
  end.
Proof.
  induction l as [|x l IH]; simpl; [done|]. destruct (extract_max l) as [[m rest]|].
  - destruct IH as [Hp Hmax]. unfold info_lt. destruct (dlt (distance_ m) (distance_ x)) eqn:E.
    + split; [done|]. intros [Hx Hl]%numbers_cons y [->|Hy]%elem_of_cons; [by apply dle_refl|].
      eapply dle_trans; [by apply Hmax|by apply dlt_le].
    + split; [rewrite Hp; constructor|]. intros [Hx Hl]%numbers_cons y [->|Hy]%elem_of_cons; [|by apply Hmax].
      apply dlt_false; [apply Hl; rewrite Hp; by left|done..].
  - subst. split; [done|]. intros [Hx _]%numbers_cons y ->%list_elem_of_singleton. by apply dle_refl.
Qed.

#[export] Instance list_queue_laws P D : PriorityQueueLaws P D (list (NodeInfo P D)).
Proof.
  split; simpl; try done.
  - intros q. pose proof (extract_max_spec q). by destruct (extract_max q) as [[]|].
  - intros q i. pose proof (extract_max_spec q). destruct (extract_max q) as [[m r]|]; intros [= ->]. done.
Qed.

Fixpoint insert_info {P D} (i : NodeInfo P D) (l : list (NodeInfo P D)) : list (NodeInfo P D) :=
  match l with [] => [i] | j :: l => if info_lt j i then j :: insert_info i l else i :: j :: l end.
Definition insertion_sort {P D} (l : list (NodeInfo P D)) : list (NodeInfo P D) := foldr insert_info [] l.

Lemma insert_info_spec {P D} (i : NodeInfo P D) l : numbers (i :: l) -> ascending l -> insert_info i l ≡ₚ i :: l /\ ascending (insert_info i l).
Proof.
  intros [Hi Hn]%numbers_cons Ha. induction l as [|j l IH]; simpl; [split; [done|repeat constructor]|].
  apply numbers_cons in Hn as [Hj Hn]. unfold ascending in Ha. apply StronglySorted_inv in Ha as [Ha Hall]. unfold info_lt.
  destruct (dlt (distance_ j) (distance_ i)) eqn:E.
  - destruct (IH Hn Ha) as [Hp Hs]. split; [rewrite Hp; constructor|]. constructor; [done|]. rewrite Hp. constructor; [by apply dlt_le|done].
  - apply dlt_false in E; [|done..]. split; [done|]. constructor; [by constructor|]. constructor; [done|].
    eapply Forall_impl; [exact Hall|]. intros x Hx. by eapply dle_trans.
Qed.

Lemma insertion_sort_sorts {P D} : sorts_infos (@insertion_sort P D).
Proof.
  intros l. induction l as [|i l IH]; intros Hn; simpl; [split; [done|constructor]|].
  apply numbers_cons in Hn as [Hi Hn]. destruct (IH Hn) as [Hp Ha].
  destruct (insert_info_spec i (insertion_sort l)) as [Hp' Ha']; [apply numbers_cons; split; [done|by eapply numbers_perm]|done|].
  split; [by rewrite Hp', Hp|done].
Qed.

(** ** The nearest neighbour *)

Section Improve.
Context {P D : Type} `{PointOps P} (p : P).
Implicit Types (ns : list (Z * Value P D)) (s : (Z * Value P D) * double).

Definition node_distance (n : Z * Value P D) : double := distance p (point n.2).

(** From the candidate [s], a search of [ns] reaches [s']: it is [s] or one of [ns], and
    nothing that was seen is nearer. *)
Definition improves ns s s' : Prop :=
  (s' = s \/ exists n, n ∈ ns /\ s' = (n, node_distance n)) /\
  dle s'.2 s.2 = true /\ (forall n, n ∈ ns -> dle s'.2 (node_distance n) = true).

Lemma improves_nil s : isnan s.2 = false -> improves [] s s.
Proof. intros Hs. split_and!; [by left|by apply dle_refl|]. intros n []%not_elem_of_nil. Qed.

Lemma improves_trans ns1 ns2 s s1 s2 : improves ns1 s s1 -> improves ns2 s1 s2 -> improves (ns1 ++ ns2) s s2.
Proof.
  intros (Hb1 & Hd1 & Hn1) (Hb2 & Hd2 & Hn2). split_and!.
  - destruct Hb2 as [->|(n & Hn & ->)]; [destruct Hb1 as [->|(n & Hn & ->)]|]; [by left|right..]; exists n; rewrite elem_of_app; tauto.
  - by eapply dle_trans.
  - intros n [Hn|Hn]%elem_of_app; [|by apply Hn2]. eapply dle_trans; [done|by apply Hn1].
Qed.

Lemma improves_perm ns1 ns2 s s' : ns1 ≡ₚ ns2 -> improves ns1 s s' -> improves ns2 s s'.
Proof.
  intros Hp (Hb & Hd & Hn). split_and!; [|done|].
  - destruct Hb as [->|(n & Hin & ->)]; [by left|right]. exists n. by rewrite <- Hp.
  - intros n Hin. apply Hn. by rewrite Hp.
Qed.

Lemma improves_step n s : isnan s.2 = false -> isnan (node_distance n) = false ->
  improves [n] s (if dlt (node_distance n) s.2 then (n, node_distance n) else s).
Proof.
  intros Hs Hn. destruct (dlt (node_distance n) s.2) eqn:E.
  - split_and!; [right; exists n; split; [by left|done]|by apply dlt_le|]. intros m ->%list_elem_of_singleton. by apply dle_refl.
  - split_and!; [by left|by apply dle_refl|]. intros m ->%list_elem_of_singleton. by apply dlt_false.
Qed.

Lemma improves_skip ns ns' s s' : improves ns s s' -> (forall n, n ∈ ns' -> dle s'.2 (node_distance n) = true) -> improves (ns ++ ns') s s'.
Proof.
  intros (Hb & Hd & Hn) Hns. split_and!; [|done|].
  - destruct Hb as [->|(n & Hin & ->)]; [by left|right]. exists n. split; [set_solver|done].
  - intros n [Hin|Hin]%elem_of_app; auto.
Qed.

Lemma improves_number ns s s' : improves ns s s' -> isnan s'.2 = false.
Proof. intros (_ & Hd & _). by apply dle_nan in Hd as [? _]. Qed.
End Improve.

(** [r] is a nearest one of the candidates [S]. *)
Definition is_nearest {P D} (r : NodeInfo P D) (S : list (NodeInfo P D)) : Prop :=
  r ∈ S /\ forall x, x ∈ S -> dle (distance_ r) (distance_ x) = true.

Section Laws.
Context {P D X : Type} {OP : PointOps P} {ok : P -> Prop} {PL : PointLaws P ok}.
Implicit Types t : tree P D X.

Definition points_ok t : Prop := forall n, n ∈ nodes t -> ok (point n.2).

Lemma points_ok_node id v (x : X) l r : points_ok (Node id v x l r) <-> ok (point v) /\ points_ok l /\ points_ok r.
Proof.
  unfold points_ok. simpl. split.
  - intros Hn. split_and!; [apply (Hn (id, v)); by left|intros n Hin; apply Hn; right; apply elem_of_app; tauto..].
  - intros (Hv & Hl & Hr) n [->|[Hn|Hn]%elem_of_app]%elem_of_cons; auto.
Qed.

Lemma infos_numbers p t : ok p -> points_ok t -> numbers (infos p t).
Proof using PL. intros Hp Ht i (n & -> & Hn)%list_elem_of_fmap. simpl. apply distance_num; [done|by apply Ht]. Qed.

(** A search that starts at the root and improves over all the nodes ends at a nearest. *)
Lemma improves_is_nearest p t n s : n ∈ nodes t -> improves p (nodes t) (n, node_distance p n) s ->
  is_nearest (Build_NodeInfo s.1.2 s.1.1 s.2) (infos p t).
Proof.
  intros Hn (Hb & _ & Hall). split.
  - assert (E : exists m, m ∈ nodes t /\ s = (m, node_distance p m)) by (destruct Hb as [->|Hb]; [by exists n|done]).
    destruct E as (m & Hm & ->). apply list_elem_of_fmap. by exists m.
  - intros x (m & -> & Hm)%list_elem_of_fmap. by apply Hall.
Qed.

Lemma nearestBruteForceX_improves p t : forall s, ok p -> points_ok t -> isnan s.2 = false ->
  improves p (nodes t) s (nearestNeighbourBruteForceX p t s).
Proof using PL.
  induction t as [|id v x l IHl r IHr]; intros s Hp Ht Hs; simpl; [by apply improves_nil|].
  apply points_ok_node in Ht as (Hv & Hl & Hr).
  assert (H1 := improves_step p (id, v) s Hs (distance_num p (point v) Hp Hv)).
  change (node_distance p (id, v)) with (distance p (point v)) in H1. pose proof (improves_number _ _ _ _ H1) as Hs1.
  assert (H2 := IHl _ Hp Hl Hs1). pose proof (improves_number _ _ _ _ H2) as Hs2.
  assert (H3 := IHr _ Hp Hr Hs2). exact (improves_trans p [_] _ _ _ _ H1 (improves_trans p _ _ _ _ _ H2 H3)).
Qed.

Lemma bruteForce_nearest p t : ok p -> points_ok t -> t <> Null ->
  exists r, nearestNeighbourBruteForce p t = Ok r /\ is_nearest r (infos p t).
Proof using PL.
  intros Hp Ht Hne. destruct t as [|id v x l r]; [done|]. eexists; split; [done|].
  apply (improves_is_nearest p _ (id, v)); [by left|]. apply nearestBruteForceX_improves; [done..|].
  apply points_ok_node in Ht as [Hv _]. by apply distance_num.
Qed.

Lemma findBruteForceX_spec p radius t : forall result,
  findInSphereBruteForceX p radius t result = result ++ filter (fun i => dle (distance_ i) radius = true) (infos p t).
Proof.
  unfold infos. induction t as [|id v x l IHl r IHr]; intros result; simpl; [by rewrite app_nil_r|].
  rewrite IHl, IHr, fmap_app, filter_cons, filter_app. simpl. destruct (dle (distance p (point v)) radius); rewrite ?decide_True, ?decide_False by done; by rewrite <- !app_assoc.
Qed.

Lemma kNearestBruteForceX_nearest {Q} `{PQL : PriorityQueueLaws P D Q} p k t : forall (q : Q) S, ok p -> points_ok t -> numbers S ->
  nearest k (pq_items q) S -> nearest k (pq_items (kNearestNeighboursBruteForceX p k t q)) (infos p t ++ S).
Proof using PL.
  induction t as [|id v x l IHl r IHr]; intros q S Hp Ht HS Hn; simpl; [done|].
  apply points_ok_node in Ht as (Hv & Hl & Hr). set (i := Build_NodeInfo v id (distance p (point v))).
  assert (HiS : numbers (i :: S)) by (apply numbers_cons; split; [by apply distance_num|done]).
  assert (H1 := push_nearest k i q S Hn HiS). assert (H2 := IHl _ _ Hp Hl HiS H1).
  eapply nearest_perm; [done| |apply (IHr _ (infos p l ++ i :: S) Hp Hr); [|exact H2]].
  - change (infos p (Node id v x l r)) with (i :: (info p <$> (nodes l ++ nodes r))). rewrite fmap_app. fold (infos p l) (infos p r).
    rewrite (Permutation_app_comm (infos p l) (infos p r)). simpl. rewrite <- app_assoc, !Permutation_middle. done.
  - intros j [Hj|Hj]%elem_of_app; [by apply (infos_numbers p l)|by apply HiS].
Qed.
End Laws.

(** ** Traversal by links *)

Section Links.
Context {P D X : Type}.
Implicit Types (t : tree P D X) (next : gmap Z Z).

Definition link (s : gmap Z Z * Z) (id : Z) : gmap Z Z * Z :=
  (if s.2 =? 0 then s.1 else <[s.2 := id]> s.1, id).

Lemma linkNodes_ids t : forall s, linkNodes t s = foldl link s (ids t).
Proof.
  unfold ids. induction t as [|id v x l IHl r IHr]; intros [next prev]; simpl; [done|].
  by rewrite IHl, IHr, fmap_app, foldl_app.
Qed.

Lemma foldl_link_other l : forall next a x, x <> a -> x ∉ l -> (foldl link (next, a) l).1 !! x = next !! x.
Proof.
  induction l as [|b l IH]; intros next a x Ha Hl; simpl; [done|]. unfold link at 2. simpl.
  apply not_elem_of_cons in Hl as [Hb Hl]. rewrite IH by done. destruct (a =? 0); [done|]. by rewrite lookup_insert_ne.
Qed.

Lemma last_cons (l : list Z) : forall a b, List.last (b :: l) a = List.last l b.
Proof. induction l as [|c l IH]; intros a b; [done|]. change (List.last (c :: l) a = List.last (c :: l) b). by rewrite !IH. Qed.

Lemma last_elem (l : list Z) : forall a, List.last l a ∈ a :: l.
Proof. induction l as [|b l IH]; intros a; [by left|]. right. rewrite last_cons. apply IH. Qed.

Lemma iterate_links l : forall next a fuel, a <> 0 -> a ∉ l -> NoDup l -> 0 ∉ l -> next_of next (List.last l a) = 0 -> (length l < fuel)%nat ->
  iterate fuel (foldl link (next, a) l).1 a = Ok (a :: l).
Proof.
  induction l as [|b l IH]; intros next a fuel Ha Hal Hl H0 Hlast Hf; (destruct fuel as [|fuel]; [simpl in Hf; lia|]); simpl.
  - destruct (Z.eqb_spec a 0); [done|]. simpl in Hlast. rewrite Hlast. by destruct fuel.
  - destruct (Z.eqb_spec a 0); [done|]. apply not_elem_of_cons in Hal as [Hab Hal], H0 as [H0b H0]. apply NoDup_cons in Hl as [Hbl Hl].
    change (link (next, a) b) with (if a =? 0 then next else <[a:=b]> next, b). destruct (Z.eqb_spec a 0); [done|].
    assert (E : next_of (foldl link (<[a:=b]> next, b) l).1 a = b).
    { unfold next_of. rewrite foldl_link_other by (congruence || done). by rewrite lookup_insert_eq. }
    rewrite E, IH; [done|done..| |simpl in Hf; lia]. unfold next_of. rewrite lookup_insert_ne.
    + by rewrite last_cons in Hlast.
    + pose proof (last_elem l b) as Hb. intros Heq. rewrite <- Heq in Hb. by apply elem_of_cons in Hb as [Hb|Hb].
Qed.

(** A loop over a tree that was not linked before meets every node once, in preorder. *)
Lemma iterator_visits t next fuel : NoDup (ids t) -> 0 ∉ ids t -> (forall i, i ∈ ids t -> next !! i = None) -> (length (ids t) <= fuel)%nat ->
  let '(next', ptr) := iterator next t in iterate fuel next' ptr = Ok (ids t).
Proof.
  intros Hnd H0 Hnext Hf. destruct t as [|id v x l r]; unfold iterator; [by destruct fuel|].
  unfold next_of at 1. rewrite Hnext by (by left). simpl Z.eqb. cbn iota. rewrite linkNodes_ids.
  unfold ids in *. simpl in *. apply NoDup_cons in Hnd as [Hid Hnd]. apply not_elem_of_cons in H0 as [Hid0 H0].
  change (link (next, 0) id) with (next, id). apply iterate_links; try done.
  unfold next_of. rewrite Hnext; [done|]. apply last_elem.
Qed.

Lemma value_at_spec t id v : NoDup (ids t) -> (id, v) ∈ nodes t -> value_at t id = Some v.
Proof. intros Hnd Hin. by apply elem_of_list_to_map. Qed.

(** The destructor gives back what the nodes took. *)
Lemma deleteNode_count t n : 0 <= n -> n + zlen (nodes t) < 2 ^ 64 -> deleteNode t (n + zlen (nodes t)) = n.
Proof.
  revert n. induction t as [|id v x l IHl r IHr]; intros n Hn Hlt; simpl in *; zsimp; [lia|].
  replace (n + (1 + (zlen (nodes l) + zlen (nodes r)))) with ((n + 1 + zlen (nodes r)) + zlen (nodes l)) in * by lia.
  pose proof (zlen_nonneg (nodes l)). pose proof (zlen_nonneg (nodes r)).
  rewrite IHl by lia. rewrite IHr by lia. rewrite wrapU_id; [lia|]. apply in_U_spec. lia.
Qed.
End Links.
