(* ===== verification/KDTree.v ===== *)
(** * k-d trees

    [container/kdtree/KDNode.cc] and the trees over them ([container/KDTree.h]), in memory
    ([KDMemory]) or in a mapped file ([KDMapped]).  A tree is built from a container by
    [std::nth_element], which is a parameter with the behaviour of the standard, or by
    insertion; both keep the order along the axis of every node.  The queries prune
    subtrees by it, and find what the brute force queries of [SPTree] find. *)
From stdpp Require Import sorting.
From Stdlib Require Import Floats.SpecFloat.
From S2P Require Import Prelude Double DoubleOrder SPTree.

(** ** Allocators *)

(** What the trees use of [Traits::Alloc].  Addresses are the numbers of the allocations;
    [room a n]: [n] more nodes can be allocated. *)
Class Alloc (A : Type) := {
  newNode : M A Z;
  set_root : Z -> M A unit;
  nbItems : A -> Z;
  last_id : A -> Z;
  room : A -> nat -> Prop;
}.
Class AllocLaws (A : Type) `{Alloc A} : Prop := {
  last_id_nonneg a n : room a n -> 0 <= last_id a;
  room_less a n m : room a n -> (m <= n)%nat -> room a m;
  newNode_ok a n : room a (S n) -> exists a',
    newNode a = (Ok (last_id a + 1), a') /\ last_id a' = last_id a + 1 /\ nbItems a' = nbItems a + 1 /\ room a' n;
  root_first a n : room a n -> set_root 1 a = (Ok tt, a);
}.

(** [KDMemory]: [new] and a count of the nodes. *)
Record KDMemory := { allocated : Z; nbItems_ : Z }.
Definition new_memory : KDMemory := Build_KDMemory 0 0.
#[export] Instance memory_alloc : Alloc KDMemory := {|
  newNode m := (Ok (allocated m + 1), Build_KDMemory (allocated m + 1) (wrapU 64 (nbItems_ m + 1)));
  set_root _ := mret tt;
  nbItems := nbItems_;
  last_id := allocated;
  room m n := 0 <= allocated m /\ 0 <= nbItems_ m /\ nbItems_ m + Z.of_nat n < 2 ^ 64;
|}.

(** [KDMapped]: nodes 1, 2, ... of an array in a file for [itemCount_] nodes.  A node past
    the end of the mapping is not detected. *)
Record KDMapped := { itemCount_ : Z; count_ : Z; readonly_ : bool }.
Definition KDMapped_create (itemCount : Z) : KDMapped := Build_KDMapped itemCount 0 false.
Definition KDMapped_reopen (header_itemCount : Z) : KDMapped := Build_KDMapped header_itemCount header_itemCount true.
Definition KDMapped_newNode : M KDMapped Z := fun m =>
  if readonly_ m then (Throw AssertionFailed, m)
  else
    let m' := Build_KDMapped (itemCount_ m) (count_ m + 1) (readonly_ m) in
    if itemCount_ m <? count_ m + 1 then (Undef, m') else (Ok (count_ m + 1), m').
#[export] Instance mapped_alloc : Alloc KDMapped := {|
  newNode := KDMapped_newNode;
  set_root r := assertM (r =? 1);
  nbItems := count_;
  last_id := count_;
  room m n := readonly_ m = false /\ 0 <= count_ m /\ count_ m + Z.of_nat n <= itemCount_ m;
|}.

#[export] Instance memory_alloc_laws : AllocLaws KDMemory.
Proof.
  split; simpl.
  - lia.
  - intros. lia.
  - intros [n c] k (Ha & Hc & Hk). eexists; split; [done|]. simpl in *. rewrite wrapU_id; [lia|]. apply in_U_spec. lia.
  - done.
Qed.
#[export] Instance mapped_alloc_laws : AllocLaws KDMapped.
Proof.
  split; simpl.
  - lia.
  - intros a n m (? & ? & ?) ?. split_and!; [done|lia..].
  - intros [n c []] k (Hr & Hc & Hk); [done|]. simpl in *. unfold KDMapped_newNode. simpl.
    destruct (Z.ltb_spec n (c + 1)); [lia|]. eexists; split; [done|]. simpl. split_and!; [lia..|done|lia|lia].
  - done.
Qed.

(** ** Nodes *)

(** A node of [KDNode] holds its axis. *)
Abbreviation kdnode P D := (tree P D nat).

(** The state of [KDTreeX] over an allocator: [root_], and the fields [next_] of the nodes. *)
Record KDTree (P D A : Type) := { alloc_ : A; stats_ : StatCollector; root_ : kdnode P D; next_ : gmap Z Z }.
Arguments Build_KDTree {P D A}.
Arguments alloc_ {P D A}.
Arguments stats_ {P D A}.
Arguments root_ {P D A}.
Arguments next_ {P D A}.

Section KDNode.
Context {P D A : Type} {OP : PointOps P} {AL : Alloc A}.
Implicit Types t : kdnode P D.

Definition axis_of (depth : nat) : outcome nat := if bool_decide (DIMS = 0%nat) then Undef else Ok (depth `mod` DIMS)%nat.

(** [sorter(axis)] *)
Definition sorter (axis : nat) (a b : Value P D) : bool := dlt (coord (point a) axis) (coord (point b) axis).

(** [KDNode::build]: the tree, and the range as it was rearranged. *)
Fixpoint build_node (nth_element : (Value P D -> Value P D -> bool) -> nat -> list (Value P D) -> list (Value P D))
    (fuel : nat) (range : list (Value P D)) (depth : nat) : M (A * StatCollector) (kdnode P D * list (Value P D)) := fun s =>
  match range, fuel with
  | [], _ => (Ok (Null, []), s)
  | _, O => (NoFuel, s)
  | _, S fuel =>
      (modifyM (fun s => (s.1, statsDepth (Z.of_nat depth) s.2)) ;;
       axis ← liftM (axis_of depth);
       let median := (length range / 2)%nat in
       let range := nth_element (sorter axis) median range in
       match range !! median with
       | None => liftM Undef
       | Some e2 =>
           id ← (fun s => let '(o, a) := newNode s.1 in (o, (a, s.2)));
           '(l, lrange) ← build_node nth_element fuel (take median range) (S depth);
           '(r, rrange) ← build_node nth_element fuel (drop (S median) range) (S depth);
           mret (Node id e2 axis l r, lrange ++ e2 :: rrange)
       end) s
  end.

(** [KDNode::insert] *)
Fixpoint insert_node (value : Value P D) t (depth : nat) : M A (kdnode P D) :=
  axis ← liftM (axis_of depth);
  match t with
  | Null => id ← newNode; mret (Node id value axis Null Null)
  | Node id v ax l r =>
      if dle (coord (point value) axis) (coord (point v) axis)
      then l' ← insert_node value l (S depth); mret (Node id v ax l' r)
      else r' ← insert_node value r (S depth); mret (Node id v ax l r')
  end.

(** [KDNode::nearestNeighbourX]; on a null pointer it is not called and nothing changes. *)
Fixpoint nearestNeighbourX (p : P) t (s : ((Z * Value P D) * double) * StatCollector) : ((Z * Value P D) * double) * StatCollector :=
  match t with
  | Null => s
  | Node id v axis l r =>
      let s := (s.1, statsVisitNode s.2) in
      let on_left := dlt (coord p axis) (coord (point v) axis) in
      let s := nearestNeighbourX p (if on_left then l else r) s in
      let d := distance p (point v) in
      let s := if dlt d s.1.2 then (((id, v), d), statsNewCandidateOK s.2) else (s.1, statsNewCandidateMiss s.2) in
      if dlt (axis_distance p (point v) axis) s.1.2
      then nearestNeighbourX p (if on_left then r else l) (s.1, statsCrossOver s.2)
      else s
  end.

(** [KDNode::findInSphereX] *)
Fixpoint findInSphereX (p : P) (radius : double) t (result : list (NodeInfo P D)) : list (NodeInfo P D) :=
  match t with
  | Null => result
  | Node id v axis l r =>
      let on_left := dlt (coord p axis) (coord (point v) axis) in
      let result := findInSphereX p radius (if on_left then l else r) result in
      let d := distance p (point v) in
      let result := if dle d radius then result ++ [Build_NodeInfo v id d] else result in
      if dle (axis_distance p (point v) axis) radius
      then findInSphereX p radius (if on_left then r else l) result
      else result
  end.

(** [KDNode::kNearestNeighboursX] *)
Fixpoint kNearestNeighboursX {Q} `{PriorityQueue P D Q} (p : P) (k : nat) t (s : Q * StatCollector) : Q * StatCollector :=
  match t with
  | Null => s
  | Node id v axis l r =>
      let on_left := dlt (coord p axis) (coord (point v) axis) in
      let s := kNearestNeighboursX p k (if on_left then l else r) s in
      let q := push k (Build_NodeInfo v id (distance p (point v))) s.1 in
      if dle (axis_distance p (point v) axis) (largest q)
      then kNearestNeighboursX p k (if on_left then r else l) (q, statsCrossOver s.2)
      else (q, s.2)
  end.

(** ** Trees *)

Implicit Types T : KDTree P D A.

Definition new_tree (a : A) : KDTree P D A := Build_KDTree a new_stats Null ∅.
Definition set_stats (st : StatCollector) T : KDTree P D A := Build_KDTree (alloc_ T) st (root_ T) (next_ T).

(** [KDTreeX::build]; the container is returned as it was rearranged. *)
Definition root_id t : Z := match t with Null => 0 | Node id _ _ _ _ => id end.
Definition build nth_element (c : list (Value P D)) : M (KDTree P D A) (list (Value P D)) := fun T =>
  match build_node nth_element (length c) c 0 (alloc_ T, stats_ T) with
  | (Ok (t, c'), (a, st)) =>
      match set_root (root_id t) a with
      | (Ok _, a) => (Ok c', Build_KDTree a st t (next_ T))
      | (Throw e, a) => (Throw e, Build_KDTree a st t (next_ T))
      | (Undef, a) => (Undef, Build_KDTree a st t (next_ T))
      | (NoFuel, a) => (NoFuel, Build_KDTree a st t (next_ T))
      end
  | (Throw e, (a, st)) => (Throw e, Build_KDTree a st (root_ T) (next_ T))
  | (Undef, (a, st)) => (Undef, Build_KDTree a st (root_ T) (next_ T))
  | (NoFuel, (a, st)) => (NoFuel, Build_KDTree a st (root_ T) (next_ T))
  end.

(** [KDTreeX::insert] *)
Definition insert (value : Value P D) : M (KDTree P D A) unit := fun T =>
  match insert_node value (root_ T) 0 (alloc_ T) with
  | (Ok t, a) =>
      if root_id t =? root_id (root_ T) then (Ok tt, Build_KDTree a (stats_ T) t (next_ T))
      else match set_root (root_id t) a with
           | (Ok _, a) => (Ok tt, Build_KDTree a (stats_ T) t (next_ T))
           | (o, a) => (o, Build_KDTree a (stats_ T) (root_ T) (next_ T))
           end
  | (Throw e, a) => (Throw e, Build_KDTree a (stats_ T) (root_ T) (next_ T))
  | (Undef, a) => (Undef, Build_KDTree a (stats_ T) (root_ T) (next_ T))
  | (NoFuel, a) => (NoFuel, Build_KDTree a (stats_ T) (root_ T) (next_ T))
  end.

(** The queries of [SPTree] *)
Definition nearestNeighbour (p : P) : M (KDTree P D A) (NodeInfo P D) := fun T =>
  let st := statsCall (stats_ T) in
  match root_ T with
  | Null => (Throw AssertionFailed, set_stats st T)
  | Node id v _ _ _ as t =>
      let s := nearestNeighbourX p t (((id, v), distance p (point v)), st) in
      (Ok (Build_NodeInfo s.1.1.2 s.1.1.1 s.1.2), set_stats s.2 T)
  end.

Definition findInSphere (std_sort : list (NodeInfo P D) -> list (NodeInfo P D)) (p : P) (radius : double) : M (KDTree P D A) (list (NodeInfo P D)) := fun T =>
  let T := set_stats (statsCall (stats_ T)) T in
  match root_ T with
  | Null => (Throw AssertionFailed, T)
  | t => (Ok (std_sort (findInSphereX p radius t [])), T)
  end.

Definition kNearestNeighbours {Q} `{PriorityQueue P D Q} (std_sort : list (NodeInfo P D) -> list (NodeInfo P D)) (p : P) (k : nat) : M (KDTree P D A) (list (NodeInfo P D)) := fun T =>
  let st := statsCall (stats_ T) in
  match root_ T with
  | Null => (Throw AssertionFailed, set_stats st T)
  | t => let s := kNearestNeighboursX p k t (pq_empty, st) in (fill std_sort k s.1, set_stats s.2 T)
  end.

Definition nearestBruteForce (p : P) : M (KDTree P D A) (NodeInfo P D) := fun T =>
  let T := set_stats (statsCall (stats_ T)) T in
  match root_ T with
  | Null => (Throw AssertionFailed, T)
  | t => (nearestNeighbourBruteForce p t, T)
  end.

Definition findInSphereBruteForce (std_sort : list (NodeInfo P D) -> list (NodeInfo P D)) (p : P) (radius : double) : M (KDTree P D A) (list (NodeInfo P D)) := fun T =>
  match root_ T with
  | Null => (Throw AssertionFailed, T)
  | t => (Ok (std_sort (findInSphereBruteForceX p radius t [])), T)
  end.

Definition kNearestNeighboursBruteForce {Q} `{PriorityQueue P D Q} (std_sort : list (NodeInfo P D) -> list (NodeInfo P D)) (p : P) (k : nat) : M (KDTree P D A) (list (NodeInfo P D)) := fun T =>
  match root_ T with
  | Null => (Throw AssertionFailed, T)
  | t => (fill std_sort k (kNearestNeighboursBruteForceX p k t pq_empty), T)
  end.

(** [begin()]: the first pointer; the nodes are linked when the root is not. *)
Definition begin : M (KDTree P D A) Z := fun T =>
  if nbItems (alloc_ T) =? 0 then (Ok 0, T)
  else match root_ T with
       | Null => (Throw AssertionFailed, T)
       | t => let '(next, ptr) := iterator (next_ T) t in (Ok ptr, Build_KDTree (alloc_ T) (stats_ T) t next)
       end.
End KDNode.

(** A tree in a file that is opened again: [root_] is node 1 of the file, which the first
    query takes from there. *)
Definition KDTree_reopen {P D} (T : KDTree P D KDMapped) : KDTree P D KDMapped :=
  Build_KDTree (KDMapped_reopen (itemCount_ (alloc_ T))) new_stats (root_ T) (next_ T).

(** ** The order of the nodes *)

Section Order.
Context {P D : Type} {OP : PointOps P} {ok : P -> Prop} {PL : PointLaws P ok}.
Implicit Types t : kdnode P D.

Definition at_axis (a : nat) (n : Z * Value P D) : double := coord (point n.2) a.

(** The axis of a node is that of its depth; nothing on the left is greater along the
    axis, nothing on the right is less. *)
Fixpoint kd (depth : nat) t : Prop :=
  match t with
  | Null => True
  | Node id v axis l r =>
      axis = (depth `mod` DIMS)%nat /\
      (forall n, n ∈ nodes l -> dle (at_axis axis n) (coord (point v) axis) = true) /\
      (forall n, n ∈ nodes r -> dle (coord (point v) axis) (at_axis axis n) = true) /\
      kd (S depth) l /\ kd (S depth) r
  end.

Lemma axis_of_ok depth : axis_of depth = Ok (depth `mod` DIMS)%nat /\ (depth `mod` DIMS < DIMS)%nat.
Proof using PL.
  pose proof (DIMS_pos (ok := ok)). unfold axis_of. rewrite bool_decide_false by lia. split; [done|]. apply Nat.mod_upper_bound. lia.
Qed.

Definition on_left (p : P) (v : Value P D) (axis : nat) : bool := dlt (coord p axis) (coord (point v) axis).

(** What is on the other side of a node is at least as far as the node along its axis. *)
Lemma far_side depth id v axis l r p n : ok p -> points_ok (ok := ok) (Node id v axis l r) -> kd depth (Node id v axis l r) ->
  n ∈ nodes (if on_left p v axis then r else l) -> dle (axis_distance p (point v) axis) (node_distance p n) = true.
Proof using PL.
  intros Hp (Hv & Hl & Hr)%points_ok_node (-> & Hkl & Hkr & _) Hn. pose proof (proj2 (axis_of_ok depth)) as Ha.
  unfold on_left in Hn. destruct (dlt (coord p _) _) eqn:E.
  - by apply beyond_above; [| |apply Hr| | |apply Hkr].
  - apply dlt_false in E; [|by apply coord_num..]. by apply beyond_below; [| |apply Hl| | |apply Hkl].
Qed.

Lemma own_side (v : Value P D) axis p : ok p -> ok (point v) -> (axis < DIMS)%nat -> dle (axis_distance p (point v) axis) (distance p (point v)) = true.
Proof using PL.
  intros Hp Hv Ha. pose proof (coord_num p axis Hp Ha). pose proof (coord_num (point v) axis Hv Ha).
  destruct (dlt (coord p axis) (coord (point v) axis)) eqn:E.
  - apply beyond_above; try done. by apply dle_refl.
  - apply dlt_false in E; [|done..]. apply beyond_below; try done. by apply dle_refl.
Qed.

(** The order in which a query meets a node and its subtrees. *)
Lemma nodes_sides id v axis (l r : kdnode P D) (b : bool) :
  (nodes (if b then l else r) ++ [(id, v)]) ++ nodes (if b then r else l) ≡ₚ nodes (Node (X := nat) id v axis l r).
Proof.
  simpl. rewrite <- app_assoc. simpl. rewrite <- Permutation_middle. destruct b; [done|]. by rewrite (Permutation_app_comm (nodes r)).
Qed.

Lemma kd_side depth id v axis (l r : kdnode P D) (b : bool) : kd depth (Node id v axis l r) -> kd (S depth) (if b then l else r).
Proof. intros (_ & _ & _ & Hl & Hr). by destruct b. Qed.
Lemma ok_side id v axis (l r : kdnode P D) (b : bool) : points_ok (ok := ok) (Node (X := nat) id v axis l r) -> points_ok (ok := ok) (if b then l else r).
Proof. intros (_ & Hl & Hr)%points_ok_node. by destruct b. Qed.

(** ** Queries *)

Lemma nearestX_improves p t : forall depth s, ok p -> points_ok (ok := ok) t -> kd depth t -> isnan s.1.2 = false ->
  improves p (nodes t) s.1 (nearestNeighbourX p t s).1.
Proof using PL.
  induction t as [|id v axis l IHl r IHr]; intros depth s Hp Ht Hkd Hs; [by apply improves_nil|].
  cbn [nearestNeighbourX]. fold (on_left p v axis). set (b := on_left p v axis).
  assert (IH : forall (c : bool) s, isnan s.1.2 = false -> improves p (nodes (if c then l else r)) s.1 (nearestNeighbourX p (if c then l else r) s).1).
  { intros c s' Hs'. pose proof (ok_side _ _ _ _ _ c Ht). pose proof (kd_side _ _ _ _ _ _ c Hkd). destruct c; eauto. }
  eapply improves_perm; [apply (nodes_sides id v axis l r b)|]. set (s0 := (s.1, statsVisitNode s.2)).
  assert (H1 := IH b s0 Hs). set (s1 := nearestNeighbourX p (if b then l else r) s0) in *.
  assert (Hv : ok (point v)) by (by apply points_ok_node in Ht as [? _]).
  assert (H2 := improves_step p (id, v) s1.1 (improves_number _ _ _ _ H1) (distance_num p (point v) Hp Hv)).
  change (node_distance p (id, v)) with (distance p (point v)) in H2.
  set (s2 := if dlt (distance p (point v)) s1.1.2 then (((id, v), distance p (point v)), statsNewCandidateOK s1.2) else (s1.1, statsNewCandidateMiss s1.2)).
  assert (E : s2.1 = if dlt (distance p (point v)) s1.1.2 then ((id, v), distance p (point v)) else s1.1) by (unfold s2; by destruct (dlt _ _)).
  rewrite <- E in H2. pose proof (improves_trans _ _ _ _ _ _ H1 H2) as H12. pose proof (improves_number _ _ _ _ H12) as Hs2.
  destruct (dlt (axis_distance p (point v) axis) s2.1.2) eqn:Ec.
  - eapply improves_trans; [exact H12|]. replace (if b then r else l) with (if negb b then l else r) by (by destruct b). by apply (IH (negb b) (s2.1, _)).
  - eapply improves_skip; [exact H12|]. intros n Hn. pose proof (far_side _ _ _ _ _ _ _ n Hp Ht Hkd Hn) as Hfar.
    pose proof (dle_nan _ _ Hfar) as [? _]. apply dlt_false in Ec; [|done..]. by eapply dle_trans.
Qed.

Lemma find_spec p radius t : forall depth result, ok p -> points_ok (ok := ok) t -> kd depth t ->
  findInSphereX p radius t result ≡ₚ result ++ filter (fun i => dle (distance_ i) radius = true) (infos p t).
Proof using PL.
  induction t as [|id v axis l IHl r IHr]; intros depth result Hp Ht Hkd; [by rewrite app_nil_r|].
  cbn [findInSphereX]. fold (on_left p v axis). set (b := on_left p v axis).
  assert (IH : forall (c : bool) result, findInSphereX p radius (if c then l else r) result ≡ₚ
                 result ++ filter (fun i => dle (distance_ i) radius = true) (infos p (if c then l else r))).
  { intros c s'. pose proof (ok_side _ _ _ _ _ c Ht). pose proof (kd_side _ _ _ _ _ _ c Hkd). destruct c; eauto. }
  unfold infos at 1. rewrite <- (nodes_sides id v axis l r b), !fmap_app, !filter_app. fold (infos p (if b then l else r)) (infos p (if b then r else l)).
  rewrite !app_assoc, <- (IH b). set (res := findInSphereX p radius (if b then l else r) result). cbn [fmap list_fmap]. rewrite filter_cons. simpl.
  set (res' := if dle (distance p (point v)) radius then _ else res).
  replace (res ++ _) with res' by (unfold res'; destruct (dle (distance p (point v)) radius); [by rewrite decide_True|rewrite decide_False by done; by rewrite app_nil_r]).
  destruct (dle (axis_distance p (point v) axis) radius) eqn:Ec.
  - replace (if b then r else l) with (if negb b then l else r) by (by destruct b). apply IH.
  - rewrite filter_none; [by rewrite app_nil_r|]. apply Forall_forall. intros i (n & -> & Hn)%list_elem_of_fmap Hle.
    pose proof (far_side _ _ _ _ _ _ _ n Hp Ht Hkd Hn) as Hfar. rewrite (dle_trans _ _ _ Hfar Hle) in Ec. done.
Qed.

Lemma infos_sides p id v axis (l r : kdnode P D) (b : bool) :
  infos p (if b then r else l) ++ info p (id, v) :: infos p (if b then l else r) ≡ₚ infos p (Node (X := nat) id v axis l r).
Proof.
  unfold infos. rewrite <- (nodes_sides id v axis l r b), !fmap_app. simpl. rewrite (Permutation_app_comm (_ ++ _)).
  apply Permutation_app_head. by rewrite <- Permutation_cons_append.
Qed.
End Order.

Section KNearest.
Context {P D Q : Type} {OP : PointOps P} {ok : P -> Prop} {PL : PointLaws P ok} `{PQL : PriorityQueueLaws P D Q}.
Implicit Types t : kdnode P D.

(** Not to visit the other side is right: the queue is full, since it would hold the node
    itself otherwise, and the other side is not nearer than its largest element. *)
Lemma k_nearest_prune k q S id v axis p : ok p -> ok (point v) -> (axis < DIMS)%nat -> numbers S ->
  nearest k (pq_items q) (info p (id, v) :: S) -> isnan (distance p (point v)) = false ->
  dle (axis_distance p (point v) axis) (largest q) = false ->
  length (pq_items q) = k /\ forall x, x ∈ pq_items q -> dlt (distance_ x) (axis_distance p (point v) axis) = true.
Proof using PL PQL.
  intros Hp Hv Ha HS Hn Hd Hc. pose proof (own_side v axis p Hp Hv Ha) as Hown. pose proof (dle_nan _ _ Hown) as [Hax _].
  assert (HiS : numbers (info p (id, v) :: S)) by (by apply numbers_cons).
  pose proof (nearest_numbers _ _ _ Hn HiS) as Hq. apply dle_false in Hc; [|done|by apply largest_number].
  assert (Hall : forall x, x ∈ pq_items q -> dlt (distance_ x) (axis_distance p (point v) axis) = true).
  { intros x Hx. eapply dle_lt_trans; [by apply largest_spec|done]. }
  split; [|done]. pose proof (nearest_length _ _ _ Hn) as Hl.
  destruct (decide (length (pq_items q) < k)%nat) as [Hlt|]; [|lia]. exfalso. pose proof (nearest_incomplete _ _ _ Hn Hlt) as E.
  eapply dlt_dle_false; [apply (Hall (info p (id, v))); rewrite <- E; by left|exact Hown].
Qed.

Lemma kNearestX_nearest p k t : forall depth s S, ok p -> points_ok (ok := ok) t -> kd depth t -> numbers S ->
  nearest k (pq_items s.1) S -> nearest k (pq_items (kNearestNeighboursX p k t s).1) (infos p t ++ S).
Proof using PL PQL.
  induction t as [|id v axis l IHl r IHr]; intros depth s S Hp Ht Hkd HS Hn; [done|].
  cbn [kNearestNeighboursX]. fold (on_left p v axis). set (b := on_left p v axis).
  assert (IH : forall (c : bool) s S, numbers S -> nearest k (pq_items s.1) S ->
                 nearest k (pq_items (kNearestNeighboursX p k (if c then l else r) s).1) (infos p (if c then l else r) ++ S)).
  { intros c s' S'. pose proof (ok_side _ _ _ _ _ c Ht). pose proof (kd_side _ _ _ _ _ _ c Hkd). destruct c; eauto. }
  assert (Hside : forall c : bool, numbers (infos p (if c then l else r))) by (intros c; eapply infos_numbers; [done|by eapply ok_side]).
  pose proof Ht as (Hv & _ & _)%points_ok_node. pose proof (distance_num p (point v) Hp Hv) as Hd.
  assert (H1 := IH b s S HS Hn). set (s1 := kNearestNeighboursX p k (if b then l else r) s) in *.
  set (S1 := infos p (if b then l else r) ++ S) in *.
  assert (HS1 : numbers S1) by (intros i [Hi|Hi]%elem_of_app; [by apply (Hside b)|by apply HS]).
  assert (HiS : numbers (info p (id, v) :: S1)) by (by apply numbers_cons).
  assert (H2 := push_nearest k (info p (id, v)) s1.1 S1 H1 HiS).
  set (q := push k (Build_NodeInfo v id (distance p (point v))) s1.1). change (push k (info p (id, v)) s1.1) with q in H2.
  assert (Hperm : infos p (if b then r else l) ++ info p (id, v) :: S1 ≡ₚ infos p (Node id v axis l r) ++ S).
  { by rewrite <- (infos_sides p id v axis l r b), <- app_assoc. }
  eapply nearest_perm; [done|exact Hperm|].
  destruct (dle (axis_distance p (point v) axis) (largest q)) eqn:Ec.
  - replace (if b then r else l) with (if negb b then l else r) by (by destruct b). by apply IH.
  - pose proof Hkd as (Hax & _). assert (Ha : (axis < DIMS)%nat) by (rewrite Hax; apply (axis_of_ok (ok := ok))).
    destruct (k_nearest_prune k q S1 id v axis p Hp Hv Ha HS1 H2 Hd Ec) as [Hlen Hall].
    apply nearest_skip; [done..|]. intros x y Hx (n & -> & Hy)%list_elem_of_fmap.
    apply dlt_le. eapply dlt_le_trans; [by apply Hall|]. by apply (far_side _ _ _ _ _ _ _ n Hp Ht Hkd).
Qed.
End KNearest.

(** ** Counters *)

Lemma uncounted_visit s : uncounted (statsVisitNode s) = wrapU 64 (uncounted s + 1).
Proof.
  unfold uncounted, statsVisitNode, inc, wrapU. simpl nodes_. simpl newCandidateOK_. simpl newCandidateMiss_.
  rewrite Zplus_mod_idemp_l, <- !Z.sub_add_distr, Zminus_mod_idemp_l. f_equal. lia.
Qed.
Lemma uncounted_hit s : wrapU 64 (uncounted (statsNewCandidateOK s) + 1) = uncounted s.
Proof.
  unfold uncounted, statsNewCandidateOK, inc, wrapU. simpl nodes_. simpl newCandidateOK_. simpl newCandidateMiss_. rewrite Zplus_mod_idemp_l.
  replace (nodes_ s - (newCandidateOK_ s + 1) mod 2 ^ 64 - newCandidateMiss_ s + 1)
    with ((nodes_ s - newCandidateMiss_ s + 1) - (newCandidateOK_ s + 1) mod 2 ^ 64) by lia.
  rewrite Zminus_mod_idemp_r. f_equal. lia.
Qed.
Lemma uncounted_miss s : wrapU 64 (uncounted (statsNewCandidateMiss s) + 1) = uncounted s.
Proof.
  unfold uncounted, statsNewCandidateMiss, inc, wrapU. simpl nodes_. simpl newCandidateOK_. simpl newCandidateMiss_. rewrite Zplus_mod_idemp_l.
  replace (nodes_ s - newCandidateOK_ s - (newCandidateMiss_ s + 1) mod 2 ^ 64 + 1)
    with ((nodes_ s - newCandidateOK_ s + 1) - (newCandidateMiss_ s + 1) mod 2 ^ 64) by lia.
  rewrite Zminus_mod_idemp_r. f_equal. lia.
Qed.
Lemma uncounted_succ_inj s s' : wrapU 64 (uncounted s + 1) = wrapU 64 (uncounted s' + 1) -> uncounted s = uncounted s'.
Proof.
  unfold uncounted, wrapU. set (a := _ - _). set (b := _ - _). set (M := 2 ^ 64). intros E.
  rewrite !Zplus_mod_idemp_l in E. replace a with ((a + 1) - 1) by lia. replace b with ((b + 1) - 1) by lia.
  by rewrite Zminus_mod, E, <- Zminus_mod.
Qed.

(** A query counts every node that it visits as a hit or as a miss. *)
Lemma nearestX_counted {P D} `{PointOps P} (p : P) (t : kdnode P D) : forall s, uncounted (nearestNeighbourX p t s).2 = uncounted s.2.
Proof.
  induction t as [|id v axis l IHl r IHr]; intros s; [done|]. cbn [nearestNeighbourX].
  set (b := dlt (coord p axis) _). set (s0 := (s.1, statsVisitNode s.2)).
  assert (H1 : uncounted (nearestNeighbourX p (if b then l else r) s0).2 = uncounted s0.2) by (destruct b; auto).
  set (s1 := nearestNeighbourX p (if b then l else r) s0) in *.
  set (s2 := if dlt (distance p (point v)) s1.1.2 then (((id, v), distance p (point v)), statsNewCandidateOK s1.2) else (s1.1, statsNewCandidateMiss s1.2)).
  assert (H2 : uncounted s2.2 = uncounted s.2).
  { apply uncounted_succ_inj. rewrite <- (uncounted_visit s.2). change (statsVisitNode s.2) with s0.2. rewrite <- H1.
    unfold s2. destruct (dlt (distance p (point v)) s1.1.2); [apply uncounted_hit|apply uncounted_miss]. }
  destruct (dlt (axis_distance p (point v) axis) s2.1.2); [|done]. rewrite <- H2. destruct b; [rewrite IHr|rewrite IHl]; done.
Qed.

(** ** Building and inserting *)

(** [std::nth_element(begin, begin + n, end, comp)] for a comparison of numbers: nothing
    before the [n]-th place is greater than anything from there on. *)
Definition selects {V} (nth_element : (V -> V -> bool) -> nat -> list V -> list V) : Prop :=
  forall (key : V -> double) n l, (forall v, v ∈ l -> isnan (key v) = false) -> (n < length l)%nat ->
    let l' := nth_element (fun a b => dlt (key a) (key b)) n l in
    l' ≡ₚ l /\ forall i j x y, (i <= n <= j)%nat -> i <> j -> l' !! i = Some x -> l' !! j = Some y -> dlt (key y) (key x) = false.

Lemma elem_values {P D X} (t : tree P D X) n : n ∈ nodes t -> n.2 ∈ values t.
Proof. intros Hn. apply list_elem_of_fmap. by exists n. Qed.

Section Build.
Context {P D A : Type} {OP : PointOps P} {ok : P -> Prop} {PL : PointLaws P ok} {AL : Alloc A} {ALL : AllocLaws A}.
Context (nth_element : (Value P D -> Value P D -> bool) -> nat -> list (Value P D) -> list (Value P D)).
Implicit Types (t : kdnode P D) (range : list (Value P D)).

(** What [build_node] has to achieve for a range. *)
Record built depth range (a a' : A) (n : nat) t range' : Prop := {
  built_kd : kd depth t;
  built_values : values t ≡ₚ range;
  built_range : range' ≡ₚ range;
  built_ids : ids t = seqZ (last_id a + 1) (zlen range);
  built_last : last_id a' = last_id a + zlen range;
  built_items : nbItems a' = nbItems a + zlen range;
  built_room : room a' n;
  built_height : (2 ^ height t <= Nat.max 1 (2 * length range))%nat;
}.

(** The parts of a range around its median. *)
Lemma select_parts axis range : selects nth_element -> (axis < DIMS)%nat -> (forall v, v ∈ range -> ok (point v)) -> range <> [] ->
  let m := (length range / 2)%nat in let range' := nth_element (sorter axis) m range in
  exists e, range' !! m = Some e /\ take m range' ++ e :: drop (S m) range' ≡ₚ range /\
    length (take m range') = m /\ length (drop (S m) range') = (length range - 1 - m)%nat /\
    (forall x, x ∈ take m range' -> dle (coord (point x) axis) (coord (point e) axis) = true) /\
    (forall x, x ∈ drop (S m) range' -> dle (coord (point e) axis) (coord (point x) axis) = true).
Proof using PL.
  intros Hsel Ha Hok Hne m range'. assert (Hlen : (0 < length range)%nat) by (destruct range; simpl; [done|lia]).
  assert (Hm : (m < length range)%nat) by (apply Nat.div_lt; lia).
  destruct (Hsel (fun v => coord (point v) axis) m range) as [Hp Hord]; [intros v Hv; by apply coord_num, Ha; apply Hok|done|].
  fold (@sorter P D OP axis) in Hp, Hord. change (nth_element _ m range) with range' in Hp, Hord.
  pose proof (Permutation_length Hp) as Hl. destruct (lookup_lt_is_Some_2 range' m) as [e He]; [lia|]. exists e.
  assert (Hnum : forall x, x ∈ range' -> isnan (coord (point x) axis) = false).
  { intros x Hx. apply coord_num; [apply Hok; by rewrite <- Hp|done]. }
  split_and!; [done|by rewrite (take_drop_middle _ _ _ He)|rewrite length_take; lia|rewrite length_drop; lia|..].
  - intros x (i & Hi)%list_elem_of_lookup. apply lookup_take_Some in Hi as [Hi Hlt].
    apply dlt_false; [apply Hnum; by eapply list_elem_of_lookup_2..|]. eapply (Hord i m); [lia..|done|done].
  - intros x (i & Hi)%list_elem_of_lookup. rewrite lookup_drop in Hi.
    apply dlt_false; [apply Hnum; by eapply list_elem_of_lookup_2..|]. eapply (Hord m (S m + i)%nat); [lia..|done|done].
Qed.

Lemma build_node_S fuel range depth s : range <> [] -> build_node (A := A) nth_element (S fuel) range depth s =
  (modifyM (fun s => (s.1, statsDepth (Z.of_nat depth) s.2)) ;;
   axis ← liftM (axis_of depth);
   let median := (length range / 2)%nat in
   let range := nth_element (sorter axis) median range in
   match range !! median with
   | None => liftM Undef
   | Some e2 =>
       id ← (fun s => let '(o, a) := newNode s.1 in (o, (a, s.2)));
       '(l, lrange) ← build_node nth_element fuel (take median range) (S depth);
       '(r, rrange) ← build_node nth_element fuel (drop (S median) range) (S depth);
       mret (Node id e2 axis l r, lrange ++ e2 :: rrange)
   end) s.
Proof. by destruct range. Qed.

Lemma build_node_spec : selects nth_element -> forall fuel range depth a st n, (length range <= fuel)%nat -> (forall v, v ∈ range -> ok (point v)) ->
  room a (length range + n) -> exists t range' a' st', build_node nth_element fuel range depth (a, st) = (Ok (t, range'), (a', st')) /\ built depth range a a' n t range'.
Proof using PL ALL.
  intros Hsel fuel. induction fuel as [|fuel IH]; intros range depth a st n Hf Hok Hroom.
  { destruct range; [|simpl in Hf; lia]. exists Null, [], a, st. split; [done|]. split; simpl; zsimp; try done; lia. }
  destruct range as [|v0 range0]; [exists Null, [], a, st; split; [done|]; split; simpl; zsimp; try done; lia|].
  assert (Hne : v0 :: range0 <> []) by done. set (range := v0 :: range0) in *. destruct (axis_of_ok (ok := ok) depth) as [Eax Hax]. set (axis := (depth `mod` DIMS)%nat) in *.
  destruct (select_parts axis range Hsel Hax Hok Hne) as (e & He & Hparts & Hll & Hlr & Hle & Hge).
  set (m := (length range / 2)%nat) in *. set (range' := nth_element (sorter axis) m range) in *.
  assert (Hm : (m < length range)%nat) by (apply Nat.div_lt; [simpl; lia|lia]).
  set (lo := take m range') in *. set (hi := drop (S m) range') in *.
  assert (Hokl : forall v, v ∈ lo -> ok (point v)) by (intros v Hv; apply Hok; rewrite <- Hparts; apply elem_of_app; by left).
  assert (Hokr : forall v, v ∈ hi -> ok (point v)) by (intros v Hv; apply Hok; rewrite <- Hparts; apply elem_of_app; right; by right).
  destruct (newNode_ok a (length range - 1 + n)) as (a1 & En & Hlast1 & Hitems1 & Hroom1).
  { eapply room_less; [exact Hroom|]. lia. }
  destruct (IH lo (S depth) a1 (statsDepth (Z.of_nat depth) st) (length hi + n)%nat) as (tl & lrange & a2 & st2 & El & Bl); [lia|done|by eapply room_less; [exact Hroom1|lia]|].
  destruct (IH hi (S depth) a2 st2 n) as (tr & rrange & a3 & st3 & Er & Br); [lia|done|apply Bl|].
  exists (Node (last_id a + 1) e axis tl tr), (lrange ++ e :: rrange), a3, st3. split.
  - rewrite build_node_S by done. rewrite M_bind_modify, Eax, M_bind_lift. cbv zeta. fold m range'. rewrite He.
    cbn [fst snd]. erewrite M_bind_Ok by (cbv beta; cbn [fst snd]; rewrite En; reflexivity). cbv beta. erewrite M_bind_Ok by exact El. cbv beta iota. erewrite M_bind_Ok by exact Er. done.
  - destruct Bl as [Kl Vl Rl Il Ll Nl Ol Gl], Br as [Kr Vr Rr Ir Lr Nr Or Gr].
    assert (Elen : zlen range = 1 + zlen lo + zlen hi) by (unfold zlen; lia).
    split; try done.
    + simpl. split_and!; [done|..|done|done]; intros x Hx; [apply Hle|apply Hge]; [rewrite <- Vl|rewrite <- Vr]; by apply elem_values.
    + unfold values in *. simpl. rewrite fmap_app, Vl, Vr, <- Hparts. by rewrite Permutation_middle.
    + by rewrite Rl, Rr.
    + unfold ids in *. simpl. rewrite fmap_app, Il, Ir, Hlast1, Ll, Hlast1, Elen. pose proof (zlen_nonneg lo). pose proof (zlen_nonneg hi).
      replace (1 + zlen lo + zlen hi) with (Z.succ (zlen lo + zlen hi)) by lia. rewrite (seqZ_cons (last_id a + 1)), Z.pred_succ by lia. rewrite (seqZ_app _ (zlen lo)) by lia.
      f_equal. f_equal; f_equal; lia.
    + lia.
    + lia.
    + simpl height. rewrite Nat.pow_succ_r'. assert (2 * m <= length range)%nat by (unfold m; pose proof (Nat.div_mod_eq (length range) 2); lia).
      assert (2 * (length range - 1 - m) <= length range)%nat by (unfold m; pose proof (Nat.div_mod_eq (length range) 2); pose proof (Nat.mod_upper_bound (length range) 2); lia).
      destruct (Nat.max_spec (height tl) (height tr)) as [[_ ->]|[_ ->]]; lia.
Qed.
End Build.

Section Insert.
Context {P D A : Type} {OP : PointOps P} {ok : P -> Prop} {PL : PointLaws P ok} {AL : Alloc A} {ALL : AllocLaws A}.
Implicit Types (t : kdnode P D) (v : Value P D).

Lemma insert_node_spec v t : forall depth a n, kd depth t -> points_ok (ok := ok) t -> ok (point v) -> room a (S n) ->
  exists t' a', insert_node v t depth a = (Ok t', a') /\ kd depth t' /\ nodes t' ≡ₚ (last_id a + 1, v) :: nodes t /\
    last_id a' = last_id a + 1 /\ nbItems a' = nbItems a + 1 /\ room a' n /\
    root_id t' = (if is_null t then last_id a + 1 else root_id t).
Proof using PL ALL.
  induction t as [|id w axis l IHl r IHr]; intros depth a n Hkd Ht Hv Hroom;
    destruct (axis_of_ok (ok := ok) depth) as [Eax Hax]; simpl insert_node; rewrite Eax, M_bind_lift.
  - destruct (newNode_ok a n Hroom) as (a' & E & Hl & Hi & Hr). exists (Node (last_id a + 1) v (depth `mod` DIMS)%nat Null Null), a'.
    split; [by erewrite M_bind_Ok by exact E|]. simpl. split_and!; try done; by intros ? []%not_elem_of_nil.
  - destruct Hkd as (-> & Hl & Hr & Kl & Kr). apply points_ok_node in Ht as (Hw & Ol & Or). set (axis := (depth `mod` DIMS)%nat) in *.
    destruct (dle (coord (point v) axis) (coord (point w) axis)) eqn:Ec.
    + destruct (IHl (S depth) a n Kl Ol Hv Hroom) as (t' & a' & E & K' & N' & L' & I' & R' & _). exists (Node id w axis t' r), a'.
      split; [by erewrite M_bind_Ok by exact E|]. simpl. split_and!; try done.
      * intros x Hx. rewrite N' in Hx. apply elem_of_cons in Hx as [->|Hx]; [done|by apply Hl].
      * rewrite N'. simpl. by rewrite perm_swap.
    + apply dle_false in Ec; [|by apply coord_num..].
      destruct (IHr (S depth) a n Kr Or Hv Hroom) as (t' & a' & E & K' & N' & L' & I' & R' & _). exists (Node id w axis l t'), a'.
      split; [by erewrite M_bind_Ok by exact E|]. simpl. split_and!; try done.
      * intros x Hx. rewrite N' in Hx. apply elem_of_cons in Hx as [->|Hx]; [by apply dlt_le|by apply Hr].
      * rewrite N', perm_swap. constructor. by rewrite Permutation_middle.
Qed.

(** The invariant of a tree that holds the values [vs] and has room for [n] more. *)
Record wf (vs : list (Value P D)) (n : nat) (T : KDTree P D A) : Prop := {
  wf_kd : kd 0 (root_ T);
  wf_values : values (root_ T) ≡ₚ vs;
  wf_ok : forall v, v ∈ vs -> ok (point v);
  wf_ids : NoDup (ids (root_ T)) /\ forall i, i ∈ ids (root_ T) -> 1 <= i <= last_id (alloc_ T);
  wf_items : nbItems (alloc_ T) = zlen vs;
  wf_room : room (alloc_ T) n;
  wf_first : root_ T = Null -> last_id (alloc_ T) = 0;
  wf_unlinked : next_ T = ∅;
}.

Lemma wf_points_ok vs n T : wf vs n T -> points_ok (ok := ok) (root_ T).
Proof. intros W m Hm. apply (wf_ok _ _ _ W). rewrite <- (wf_values _ _ _ W). by apply elem_values. Qed.

Lemma wf_new a n : room a n -> last_id a = 0 -> nbItems a = 0 -> wf [] n (new_tree a).
Proof.
  intros Hr Hl Hi. split; simpl; try done.
  - by intros v []%not_elem_of_nil.
  - split; [constructor|]. by intros i []%not_elem_of_nil.
Qed.

Lemma build_wf nth_element c n T : selects nth_element -> wf [] (length c + n) T -> (forall v, v ∈ c -> ok (point v)) -> c <> [] ->
  exists T' c', build nth_element c T = (Ok c', T') /\ c' ≡ₚ c /\ wf c n T' /\ (2 ^ height (root_ T') <= 2 * length c)%nat.
Proof using PL ALL.
  intros Hsel W Hok Hne. destruct W as [_ Hv _ _ Hitems Hroom Hfirst Hlink].
  assert (Hnull : root_ T = Null) by (destruct (root_ T); [done|]; by apply Permutation_sym, Permutation_nil_cons in Hv).
  specialize (Hfirst Hnull). destruct (build_node_spec nth_element Hsel (length c) c 0 (alloc_ T) (stats_ T) n) as (t & c' & a' & st' & E & [K V R I L N O G]); [done..|].
  assert (Hlen : (0 < length c)%nat) by (destruct c; simpl; [done|lia]).
  assert (Hroot : root_id t = 1).
  { rewrite Hfirst in I. destruct t as [|id v axis l r]; [by apply Permutation_nil in V|]. unfold ids in I. simpl in I.
    rewrite seqZ_cons in I by (unfold zlen; lia). simpl. injection I. lia. }
  exists (Build_KDTree a' st' t (next_ T)), c'. unfold build. rewrite E, Hroot, (root_first _ _ O). split; [done|]. split; [done|]. split; [|cbn [root_]; lia].
  split; simpl; try done.
  - rewrite I. split; [apply NoDup_seqZ|]. intros i Hi%elem_of_seqZ. lia.
  - rewrite N, Hitems. by zsimp.
  - intros ->. by apply Permutation_nil in V.
Qed.

Lemma insert_wf v vs n T : wf vs (S n) T -> ok (point v) -> exists T', insert v T = (Ok tt, T') /\ wf (v :: vs) n T'.
Proof using PL ALL.
  intros W Hv. pose proof (wf_points_ok _ _ _ W) as Hp. destruct W as [K V Hok [Hnd Hid] Hitems Hroom Hfirst Hlink].
  destruct (insert_node_spec v (root_ T) 0 (alloc_ T) n K Hp Hv Hroom) as (t & a & E & K' & N' & L' & I' & R' & Eroot).
  pose proof (last_id_nonneg _ _ Hroom) as H0.
  assert (W' : wf (v :: vs) n (Build_KDTree a (stats_ T) t (next_ T))).
  { split; simpl; try done.
    - unfold values in *. rewrite N'. simpl. by rewrite V.
    - intros w [->|Hw]%elem_of_cons; [done|by apply Hok].
    - unfold ids in *. rewrite N'. simpl. split.
      + apply NoDup_cons. split; [|done]. intros Hin. apply Hid in Hin. lia.
      + intros i Hi. rewrite N' in Hi. apply elem_of_cons in Hi as [->|Hi]; [simpl; lia|]. apply Hid in Hi. lia.
    - rewrite I', Hitems. zsimp. lia.
    - intros ->. by apply Permutation_nil_cons in N'. }
  exists (Build_KDTree a (stats_ T) t (next_ T)). split; [|done]. unfold insert. rewrite E, Eroot.
  destruct (root_ T) as [|id w axis l r] eqn:Er; simpl.
  - specialize (Hfirst eq_refl). rewrite Hfirst. change (0 + 1) with 1. simpl. by rewrite (root_first _ _ R').
  - by rewrite Z.eqb_refl.
Qed.

(** A tree that is built and then grows by insertions. *)
Fixpoint insert_all (vs : list (Value P D)) : M (KDTree P D A) unit :=
  match vs with [] => mret tt | v :: vs => insert v ;; insert_all vs end.
Definition grow nth_element (c vs : list (Value P D)) : M (KDTree P D A) unit := build nth_element c ;; insert_all vs.

Lemma insert_all_wf vs : forall c n T, wf c (length vs + n) T -> (forall v, v ∈ vs -> ok (point v)) -> exists T', insert_all vs T = (Ok tt, T') /\ wf (c ++ vs) n T'.
Proof using PL ALL.
  induction vs as [|v vs IH]; intros c n T W Hok; simpl; [exists T; by rewrite app_nil_r|].
  destruct (insert_wf v c _ T W) as (T1 & E1 & W1); [apply Hok; by left|].
  destruct (IH (v :: c) n T1 W1) as (T2 & E2 & W2); [intros w Hw; apply Hok; by right|].
  exists T2. split; [by erewrite M_bind_Ok by exact E1|].
  destruct W2 as [K V O I N R F L]. split; try done.
  - rewrite V. simpl. by rewrite Permutation_middle.
  - intros w Hw. apply O. simpl. by rewrite Permutation_middle.
  - rewrite N. zsimp. lia.
Qed.

Lemma grow_wf nth_element c vs n a : selects nth_element -> room a (length c + length vs + n) -> last_id a = 0 -> nbItems a = 0 ->
  c <> [] -> (forall v, v ∈ c ++ vs -> ok (point v)) -> exists T, grow nth_element c vs (new_tree a) = (Ok tt, T) /\ wf (c ++ vs) n T.
Proof using PL ALL.
  intros Hsel Hr Hl Hi Hne Hok.
  destruct (build_wf nth_element c (length vs + n) (new_tree a) Hsel) as (T1 & c' & E & _ & W & _).
  - apply wf_new; [|done..]. by rewrite Nat.add_assoc.
  - intros v Hv. apply Hok, elem_of_app. by left.
  - done.
  - destruct (insert_all_wf vs c n T1 W) as (T2 & E2 & W2); [intros v Hv; apply Hok, elem_of_app; by right|].
    exists T2. split; [|done]. unfold grow. by erewrite M_bind_Ok by exact E.
Qed.
End Insert.
