(* ===== verification/KPoint.v ===== *)
(** * Points

    [KPoint<SIZE>] of [geometry/KPoint.h]: points with [SIZE] coordinates of type [double].
    It satisfies what the trees ask of a point type on grids of fixed point numbers, where
    differences and squares are exact.  In general it does not: a square can underflow to
    zero while the distance along the axis does not. *)
From Stdlib Require Import Floats.SpecFloat.
From S2P Require Import Prelude Double DoubleOrder DoubleFixed SPTree.

Definition KPoint (SIZE : nat) : Type := list double.

Section KPoint.
Context {SIZE : nat}.
Implicit Types p q : KPoint SIZE.

Definition x (p : KPoint SIZE) (axis : nat) : double := nth axis p (S754_zero false).

Definition squares (p1 p2 : list double) : list double := zip_with (fun a b => let dx := dsub a b in dmul dx dx) p1 p2.
Definition distance2 p q : double := foldl dadd (S754_zero false) (squares p q).
Definition kdistance p q : double := dsqrt (distance2 p q).
Definition kaxis_distance p q (axis : nat) : double := SFabs (dsub (x p axis) (x q axis)).

Definition norm p : double := dsqrt (foldl dadd (S754_zero false) ((fun a => dmul a a) <$> p)).
Definition dot p q : double := foldl dadd (S754_zero false) (zip_with dmul p q).
Definition equal p q : bool := forallb (fun '(a, b) => SFeqb a b) (zip p q).
Fixpoint lexicographical_compare (p q : list double) : bool :=
  match p, q with
  | _, [] => false
  | [], _ :: _ => true
  | a :: p, b :: q => if dlt a b then true else if dlt b a then false else lexicographical_compare p q
  end.

Definition add p q : KPoint SIZE := zip_with dadd p q.
Definition sub p q : KPoint SIZE := zip_with dsub p q.
Definition mul p (m : double) : KPoint SIZE := (fun a => dmul a m) <$> p.
Definition div p (m : double) : KPoint SIZE := (fun a => ddiv a m) <$> p.
Definition middle p q : KPoint SIZE := zip_with (fun a b => ddiv (dadd a b) (of_Z 2)) p q.
Definition componentsMin p q : KPoint SIZE := zip_with (fun a b => if dlt b a then b else a) p q.
Definition componentsMax p q : KPoint SIZE := zip_with (fun a b => if dlt a b then b else a) p q.
Definition zero : KPoint SIZE := replicate SIZE (S754_zero false).
Definition normalize p : KPoint SIZE := div p (kdistance p zero).
Definition symetrical p q : KPoint SIZE := zip_with (fun w c => dsub w (dsub c w)) p q.
End KPoint.

#[export] Instance kpoint_ops SIZE : PointOps (KPoint SIZE) := {|
  DIMS := SIZE; coord := x; SPTree.distance := kdistance; axis_distance := kaxis_distance |}.

(** ** Distances *)

Lemma square_opp a : dmul (SFopp a) (SFopp a) = dmul a a.
Proof. destruct a as [[]|[]| |[] m e]; done. Qed.

Lemma normalize_opp m e : m <> 0 -> binary_normalize 53 1024 (- m) e false = SFopp (binary_normalize 53 1024 m e false).
Proof.
  intros Hm. assert (H : forall p, binary_round 53 1024 true p e = SFopp (binary_round 53 1024 false p e)).
  { intros p. unfold binary_round. destruct (shl_align p e _) as [mz ez]. unfold binary_round_aux.
    destruct (shr_fexp 53 1024 (Zpos mz) ez loc_Exact) as [mrs e1]. destruct (shr_fexp _ _ _ _ _) as [mrs2 e2].
    destruct (shr_m mrs2); [done| |done]. by destruct (e2 <=? 1024 - 53). }
  destruct m as [|p|p]; [done|apply H|]. change (- Zneg p) with (Zpos p). cbn [binary_normalize]. rewrite H. by destruct (binary_round _ _ _ _ _) as [[]|[]| |[] ? ?].
Qed.

Lemma square_sub_comm a b : dmul (dsub a b) (dsub a b) = dmul (dsub b a) (dsub b a).
Proof.
  destruct a as [[]|[]| |sa ma ea], b as [[]|[]| |sb mb eb]; try done; try (destruct sa; done); try (destruct sb; done).
  unfold dsub. cbn [SFsub]. rewrite (Z.min_comm eb ea). set (u := cond_Zopp sa _). set (v := cond_Zopp sb _).
  destruct (Z.eq_dec (u - v) 0) as [E|E]; [by replace (v - u) with (u - v) by lia|].
  replace (v - u) with (- (u - v)) by lia. by rewrite normalize_opp, square_opp.
Qed.

(** Distances are symmetric to the last bit. *)
Lemma kdistance_comm {SIZE} (p q : KPoint SIZE) : kdistance p q = kdistance q p.
Proof.
  unfold kdistance, distance2. f_equal. unfold squares. f_equal. revert q. unfold KPoint. induction p as [|a p IH]; intros [|b q]; simpl; [done..|].
  f_equal; [apply square_sub_comm|apply IH].
Qed.

(** ** Grids of fixed point numbers *)

Section Grid.
Context (SIZE : nat) (s : Z).

(** Coordinates of at most 24 bits in units of [2 ^ s]. *)
Definition on_grid (p : KPoint SIZE) : Prop :=
  exists zs, p = fixed s <$> zs /\ length zs = SIZE /\ Forall (fun z => Z.abs z <= 2 ^ 24) zs.
Definition grid_ok : Prop := (0 < SIZE <= 7)%nat /\ -450 <= s <= 450.

Definition sum_squares (zs ws : list Z) : Z := foldl Z.add 0 (zip_with (fun a b => (a - b) * (a - b)) zs ws).

Lemma foldl_add_shift (l : list Z) : forall z, foldl Z.add z l = z + foldl Z.add 0 l.
Proof. induction l as [|y l IH]; intros z; simpl; [lia|]. rewrite (IH (z + y)), (IH (0 + y)). lia. Qed.

Lemma foldl_add_nonneg (l : list Z) : Forall (fun z => 0 <= z) l -> 0 <= foldl Z.add 0 l.
Proof. induction 1 as [|y l Hy _ IH]; simpl; [lia|]. rewrite foldl_add_shift. lia. Qed.

Lemma squares_nonneg zs ws : Forall (fun z => 0 <= z) (zip_with (fun a b => (a - b) * (a - b)) zs ws).
Proof.
  revert ws. induction zs as [|z zs IH]; intros [|w ws]; [by apply Forall_nil..|].
  simpl. apply Forall_cons. split; [apply Z.square_nonneg|apply IH].
Qed.

Lemma square_bound z w : Z.abs z <= 2 ^ 24 -> Z.abs w <= 2 ^ 24 -> 0 <= (z - w) * (z - w) <= 2 ^ 50.
Proof.
  intros Hz Hw. split; [apply Z.square_nonneg|]. rewrite <- Z.abs_square. change (2 ^ 50) with (2 ^ 25 * 2 ^ 25).
  apply Z.mul_le_mono_nonneg; lia.
Qed.

Lemma square_le_sum zs : forall ws a z w, zs !! a = Some z -> ws !! a = Some w -> (z - w) * (z - w) <= sum_squares zs ws.
Proof.
  unfold sum_squares. induction zs as [|z0 zs IH]; intros [|w0 ws] [|a] z w Hz Hw; simpl in *; simplify_eq; rewrite foldl_add_shift.
  - pose proof (foldl_add_nonneg _ (squares_nonneg zs ws)). lia.
  - specialize (IH ws a z w Hz Hw). pose proof (Z.square_nonneg (z0 - w0)). lia.
Qed.

Lemma sum_squares_bound zs : forall ws, Forall (fun z => Z.abs z <= 2 ^ 24) zs -> Forall (fun z => Z.abs z <= 2 ^ 24) ws ->
  0 <= sum_squares zs ws <= zlen zs * 2 ^ 50.
Proof.
  unfold sum_squares. induction zs as [|z zs IH]; intros [|w ws] Hz Hw; simpl; zsimp; try lia.
  - pose proof (zlen_nonneg zs). lia.
  - apply Forall_cons in Hz as [Hz Hzs], Hw as [Hw Hws]. rewrite foldl_add_shift. specialize (IH ws Hzs Hws).
    pose proof (square_bound z w Hz Hw). lia.
Qed.

Lemma fold_squares zs : forall ws acc, -450 <= s <= 450 -> Forall (fun z => Z.abs z <= 2 ^ 24) zs -> Forall (fun z => Z.abs z <= 2 ^ 24) ws ->
  0 <= acc -> acc + zlen zs * 2 ^ 50 < 2 ^ 53 ->
  foldl dadd (fixed (2 * s) acc) (squares (fixed s <$> zs) (fixed s <$> ws)) = fixed (2 * s) (acc + sum_squares zs ws).
Proof.
  unfold sum_squares. induction zs as [|z zs IH]; intros [|w ws] acc Hs Hz Hw Hacc Hlt; simpl; rewrite ?Z.add_0_r; try done.
  apply Forall_cons in Hz as [Hz Hzs], Hw as [Hw Hws]. zsimp. pose proof (zlen_nonneg zs).
  pose proof (square_bound z w Hz Hw) as Hsq.
  rewrite fixed_sub, fixed_square, fixed_add by (unfold short, scale_ok in *; lia). rewrite IH by (done || lia). f_equal.
  rewrite (foldl_add_shift _ ((z - w) * (z - w))). lia.
Qed.

Lemma grid_distance zs ws : grid_ok -> length zs = SIZE -> Forall (fun z => Z.abs z <= 2 ^ 24) zs -> Forall (fun z => Z.abs z <= 2 ^ 24) ws ->
  kdistance (SIZE := SIZE) (fixed s <$> zs) (fixed s <$> ws) = dsqrt (fixed (2 * s) (sum_squares zs ws)) /\ 0 <= sum_squares zs ws < 2 ^ 53.
Proof.
  intros [Hn Hs] Hl Hz Hw. pose proof (sum_squares_bound zs ws Hz Hw) as Hb. unfold zlen in Hb. split; [|lia].
  unfold kdistance, distance2. rewrite <- (fixed_0 (2 * s)). f_equal. by rewrite fold_squares by (done || unfold zlen; lia).
Qed.

Lemma grid_coord zs a z : zs !! a = Some z -> x (SIZE := SIZE) (fixed s <$> zs) a = fixed s z.
Proof. intros Hz. unfold x. apply nth_lookup_Some. by rewrite list_lookup_fmap, Hz. Qed.

Lemma grid_axis zs ws a z w : grid_ok -> zs !! a = Some z -> ws !! a = Some w -> Z.abs z <= 2 ^ 24 -> Z.abs w <= 2 ^ 24 ->
  kaxis_distance (SIZE := SIZE) (fixed s <$> zs) (fixed s <$> ws) a = fixed s (Z.abs (z - w)).
Proof.
  intros [_ Hs] Hz Hw Bz Bw. unfold kaxis_distance. erewrite !grid_coord by done.
  rewrite fixed_sub by (unfold short, scale_ok; lia). apply fixed_abs; unfold short, scale_ok; lia.
Qed.

(** The laws of points hold on a grid. *)
Lemma kpoint_laws : grid_ok -> PointLaws (KPoint SIZE) on_grid.
Proof.
  intros Hg. pose proof Hg as [Hn Hs]. assert (Hsc : scale_ok s /\ scale_ok (2 * s)) by (unfold scale_ok; lia). destruct Hsc as [Hsc Hsc2].
  assert (Hget : forall zs (a : nat), length zs = SIZE -> (a < SIZE)%nat -> Forall (fun z => Z.abs z <= 2 ^ 24) zs -> exists z, zs !! a = Some z /\ Z.abs z <= 2 ^ 24).
  { intros zs a Hl Ha HF. destruct (lookup_lt_is_Some_2 zs a) as [z Hz]; [lia|]. exists z. split; [done|]. by eapply (Forall_lookup_1 _ _ _ _ HF). }
  assert (Hfar : forall zp zn zq (a : nat) p0 n0 q0, length zp = SIZE -> Forall (fun z => Z.abs z <= 2 ^ 24) zp -> Forall (fun z => Z.abs z <= 2 ^ 24) zn -> Forall (fun z => Z.abs z <= 2 ^ 24) zq ->
            zp !! a = Some p0 -> zn !! a = Some n0 -> zq !! a = Some q0 -> Z.abs (p0 - n0) <= Z.abs (p0 - q0) ->
            dle (kaxis_distance (SIZE := SIZE) (fixed s <$> zp) (fixed s <$> zn) a) (kdistance (SIZE := SIZE) (fixed s <$> zp) (fixed s <$> zq)) = true).
  { intros zp zn zq a p0 n0 q0 Hl Fp Fn Fq Ep En Eq Hle. rewrite (grid_axis zp zn a p0 n0) by first [done | exact (Forall_lookup_1 _ _ _ _ Fp Ep) | exact (Forall_lookup_1 _ _ _ _ Fn En)].
    destruct (grid_distance zp zq Hg Hl Fp Fq) as [-> Hb]. pose proof (square_le_sum zp zq a p0 q0 Ep Eq). apply fixed_sqrt; try done; nia. }
  assert (short24 : forall z, Z.abs z <= 2 ^ 24 -> short z) by (unfold short; lia).
  split; simpl.
  - lia.
  - intros p a (zs & -> & Hl & HF) Ha. destruct (Hget zs a Hl Ha HF) as (z & Hz & Hb). rewrite (grid_coord zs a z Hz). apply fixed_number; auto.
  - intros p q (zs & -> & Hl & HF) (ws & -> & Hl' & HF'). destruct (grid_distance zs ws Hg Hl HF HF') as [-> Hb].
    pose proof (fixed_sqrt s 0 (sum_squares zs ws)) as Hsq. apply dle_nan in Hsq; try done; lia || tauto.
  - intros p n q a (zp & -> & Lp & Fp) (zn & -> & Ln & Fn) (zq & -> & Lq & Fq) Ha.
    destruct (Hget zp a Lp Ha Fp) as (p0 & Ep & Bp), (Hget zn a Ln Ha Fn) as (n0 & En & Bn), (Hget zq a Lq Ha Fq) as (q0 & Eq & Bq).
    rewrite (grid_coord zp a p0 Ep), (grid_coord zn a n0 En), (grid_coord zq a q0 Eq), fixed_lt, fixed_le by auto. rewrite Z.ltb_lt, Z.leb_le.
    intros. eapply Hfar; try done; lia.
  - intros p n q a (zp & -> & Lp & Fp) (zn & -> & Ln & Fn) (zq & -> & Lq & Fq) Ha.
    destruct (Hget zp a Lp Ha Fp) as (p0 & Ep & Bp), (Hget zn a Ln Ha Fn) as (n0 & En & Bn), (Hget zq a Lq Ha Fq) as (q0 & Eq & Bq).
    rewrite (grid_coord zp a p0 Ep), (grid_coord zn a n0 En), (grid_coord zq a q0 Eq), !fixed_le by auto. rewrite !Z.leb_le.
    intros. eapply Hfar; try done; lia.
Qed.
End Grid.
