(* ===== verification/KDTreeSpec.v ===== *)
(** * Queries on k-d trees

    A tree that was built from a container and has grown by insertions answers every query
    as a search of all its points does, for any point type with the laws of [PointLaws]
    (shown for [KPoint] on grids of fixed point numbers) and any allocator. *)
From stdpp Require Import sorting.
From Stdlib Require Import Floats.SpecFloat.
From S2P Require Import Prelude Double DoubleOrder DoubleFixed SPTree KDTree KPoint.

(** Distances that compare equal. *)
Definition same_distance {P D} (x y : NodeInfo P D) : Prop :=
  dle (distance_ x) (distance_ y) = true /\ dle (distance_ y) (distance_ x) = true.

Lemma nearest_same {P D} (x y : NodeInfo P D) S : is_nearest x S -> is_nearest y S -> same_distance x y.
Proof. intros [Hx Hx'] [Hy Hy']. split; auto. Qed.

Lemma k_nearest_same {P D} k (r1 r2 S : list (NodeInfo P D)) : numbers S -> k_nearest k r1 S -> k_nearest k r2 S -> Forall2 same_distance r1 r2.
Proof.
  intros HS H1 H2. assert (Hlen : length r1 = length r2) by (destruct H1 as [(? & _ & -> & _) _], H2 as [(? & _ & -> & _) _]; done).
  apply Forall2_same_length_lookup_2; [done|]. intros n x1 x2 E1 E2.
  assert (N1 : isnan (distance_ x1) = false) by (apply (nearest_numbers _ _ _ (proj1 H1) HS); by eapply list_elem_of_lookup_2).
  assert (N2 : isnan (distance_ x2) = false) by (apply (nearest_numbers _ _ _ (proj1 H2) HS); by eapply list_elem_of_lookup_2).
  split; apply dlt_false; try done; apply not_true_iff_false; intros Hlt; [by eapply (k_nearest_not_less k r2 r1)|by eapply (k_nearest_not_less k r1 r2)].
Qed.

Lemma omap_values {P D X} (t : tree P D X) : NoDup (ids t) -> omap (value_at t) (ids t) = values t.
Proof.
  intros Hnd.
  assert (Hgen : forall l, (forall n, n ∈ l -> n ∈ nodes t) -> omap (value_at t) l.*1 = l.*2); [|by apply Hgen].
  induction l as [|[id v] l IH]; intros Hl; [done|]. simpl. rewrite (value_at_spec t id v Hnd) by (apply Hl; by left).
  f_equal. apply IH. intros n Hn. apply Hl. by right.
Qed.

Section Queries.
Context {P D A : Type} {OP : PointOps P} {ok : P -> Prop} {PL : PointLaws P ok} {AL : Alloc A} {ALL : AllocLaws A}.
Context (nth_element : (Value P D -> Value P D -> bool) -> nat -> list (Value P D) -> list (Value P D)).
Context (std_sort : list (NodeInfo P D) -> list (NodeInfo P D)).
Context (a : A) (c vs : list (Value P D)) (p : P).
Hypothesis Hselects : selects nth_element.
Hypothesis Hsorts : sorts_infos std_sort.
Hypothesis Hroom : room a (length c + length vs).
Hypothesis Hfresh : last_id a = 0 /\ nbItems a = 0.
Hypothesis Hc : c <> [].
Hypothesis Hok : forall v, v ∈ c ++ vs -> ok (point v).
Hypothesis Hp : ok p.

Lemma grown : exists T, grow nth_element c vs (new_tree a) = (Ok tt, T) /\ wf (ok := ok) (c ++ vs) 0 T /\ root_ T <> Null.
Proof using PL ALL Hselects Hroom Hfresh Hc Hok.
  destruct Hfresh as [Hl Hi]. destruct (grow_wf (ok := ok) nth_element c vs 0 a Hselects) as (T & E & W); try done.
  { by rewrite Nat.add_0_r. }
  exists T. split_and!; [done..|]. intros En. pose proof (wf_values _ _ _ W) as V. rewrite En in V. apply Permutation_nil in V. by destruct c.
Qed.

(** C34. For points whose distances satisfy [PointLaws], after [build] and any insertions,
    which succeed, the tree holds the values given,
    and [nearestNeighbour] returns one of them with its distance, than which no other is
    nearer: the distance is that of the brute force search, although subtrees are
    pruned.  Every node visited is counted as a hit or as a miss. *)
Theorem kdtree_nearest : exists T, grow nth_element c vs (new_tree a) = (Ok tt, T) /\ values (root_ T) ≡ₚ c ++ vs /\
  exists r b st, nearestNeighbour p T = (Ok r, set_stats st T) /\ is_nearest r (infos p (root_ T)) /\ uncounted st = uncounted (stats_ T) /\
    nearestBruteForce p T = (Ok b, set_stats (statsCall (stats_ T)) T) /\ same_distance r b.
Proof using PL ALL Hselects Hroom Hfresh Hc Hok Hp.
  destruct grown as (T & E & W & Hne). exists T. split; [done|]. split; [apply W|].
  pose proof (wf_points_ok _ _ _ W) as Ht. destruct (bruteForce_nearest p (root_ T) Hp Ht Hne) as (b & Eb & Hb).
  unfold nearestNeighbour, nearestBruteForce. simpl root_. destruct (root_ T) as [|id v x l r] eqn:Er; [done|].
  set (s := nearestNeighbourX p _ _). assert (Hn : is_nearest (Build_NodeInfo s.1.1.2 s.1.1.1 s.1.2) (infos p (Node id v x l r))).
  { apply (improves_is_nearest p _ (id, v)); [by left|]. apply (nearestX_improves p _ 0 (((id, v), distance p (point v)), statsCall (stats_ T))); [done..| |].
    - rewrite <- Er. apply W.
    - apply distance_num; [done|]. apply (Ht (id, v)). by left. }
  eexists _, b, s.2. split_and!; [done|exact Hn|unfold s; by rewrite nearestX_counted|by rewrite Eb|by eapply nearest_same].
Qed.

(** C35. For points whose distances satisfy [PointLaws], [kNearestNeighbours] returns [k] of the values (all of them when there are fewer)
    in the order of their distances, and no other value is nearer than one of them; place
    by place, the distances are those of the brute force search. *)
Theorem kdtree_k_nearest {Q} {PQ : PriorityQueue P D Q} {PQL : PriorityQueueLaws P D Q} (k : nat) : Z.of_nat k <= reserve_max ->
  exists T, grow nth_element c vs (new_tree a) = (Ok tt, T) /\
  exists r b st, kNearestNeighbours std_sort p k T = (Ok r, set_stats st T) /\ k_nearest k r (infos p (root_ T)) /\ length r = Nat.min k (length (c ++ vs)) /\
    kNearestNeighboursBruteForce std_sort p k T = (Ok b, T) /\ Forall2 same_distance r b.
Proof using PL ALL Hselects Hsorts Hroom Hfresh Hc Hok Hp.
  intros Hk. destruct grown as (T & E & W & Hne). exists T. split; [done|]. pose proof (wf_points_ok _ _ _ W) as Ht.
  pose proof (infos_numbers p _ Hp Ht) as Hnum. assert (H0 : nearest k (pq_items (pq_empty : Q)) ([] : list (NodeInfo P D))) by (rewrite items_empty; apply nearest_nil).
  assert (Hnil : numbers ([] : list (NodeInfo P D))) by (intros i []%not_elem_of_nil).
  pose proof (kNearestX_nearest p k (root_ T) 0 (pq_empty, statsCall (stats_ T)) [] Hp Ht (wf_kd _ _ _ W) Hnil H0) as H1.
  pose proof (kNearestBruteForceX_nearest p k (root_ T) pq_empty [] Hp Ht Hnil H0) as H2. rewrite app_nil_r in H1, H2.
  destruct (fill_spec std_sort k _ _ Hsorts Hk Hnum H1) as (r & Er & Hr). destruct (fill_spec std_sort k _ _ Hsorts Hk Hnum H2) as (b & Eb & Hb).
  assert (E1 : kNearestNeighbours std_sort p k T = let s := kNearestNeighboursX p k (root_ T) (pq_empty, statsCall (stats_ T)) in (fill std_sort k s.1, set_stats s.2 T))
    by (unfold kNearestNeighbours; by destruct (root_ T)).
  assert (E2 : kNearestNeighboursBruteForce std_sort p k T = (fill std_sort k (kNearestNeighboursBruteForceX p k (root_ T) pq_empty), T))
    by (unfold kNearestNeighboursBruteForce; by destruct (root_ T)).
  cbv zeta in E1. rewrite Er in E1. rewrite Eb in E2. eexists r, b, _. split_and!; [exact E1|exact Hr| |exact E2|exact (k_nearest_same k r b _ Hnum Hr Hb)].
  destruct Hr as [(? & _ & -> & _) _]. unfold infos. rewrite length_fmap, <- (Permutation_length (wf_values _ _ _ W)). unfold values. by rewrite length_fmap.
Qed.

(** C36. For points whose distances satisfy [PointLaws], [findInSphere] returns, in the order of their distances, exactly the values whose
    distance is at most the radius, as often as the tree holds them, as the brute force
    search does. *)
Theorem kdtree_sphere (radius : double) : exists T, grow nth_element c vs (new_tree a) = (Ok tt, T) /\
  exists r b, findInSphere std_sort p radius T = (Ok r, set_stats (statsCall (stats_ T)) T) /\ ascending r /\
    r ≡ₚ filter (fun i => dle (distance_ i) radius = true) (infos p (root_ T)) /\
    findInSphereBruteForce std_sort p radius T = (Ok b, T) /\ r ≡ₚ b /\ ascending b.
Proof using PL ALL Hselects Hsorts Hroom Hfresh Hc Hok Hp.
  destruct grown as (T & E & W & Hne). exists T. split; [done|]. pose proof (wf_points_ok _ _ _ W) as Ht.
  pose proof (infos_numbers p _ Hp Ht) as Hnum. pose proof (find_spec p radius (root_ T) 0 [] Hp Ht (wf_kd _ _ _ W)) as H1.
  pose proof (findBruteForceX_spec p radius (root_ T) []) as H2. simpl in H1, H2.
  assert (Hf : numbers (filter (fun i => dle (distance_ i) radius = true) (infos p (root_ T)))) by (intros i [_ Hi]%list_elem_of_filter; by apply Hnum).
  destruct (Hsorts _ (numbers_perm _ _ H1 Hf)) as [Hp1 Ha1]. destruct (Hsorts _ Hf) as [Hp2 Ha2]. rewrite <- H2 in Hp2, Ha2.
  assert (E1 : findInSphere std_sort p radius T = (Ok (std_sort (findInSphereX p radius (root_ T) [])), set_stats (statsCall (stats_ T)) T))
    by (unfold findInSphere; simpl; by destruct (root_ T)).
  assert (E2 : findInSphereBruteForce std_sort p radius T = (Ok (std_sort (findInSphereBruteForceX p radius (root_ T) [])), T))
    by (unfold findInSphereBruteForce; by destruct (root_ T)).
  eexists _, _. split_and!; [exact E1|exact Ha1|by rewrite Hp1, H1|exact E2|by rewrite Hp1, H1, Hp2, H2|done].
Qed.

(** C37. [build] rearranges its container and gives a balanced tree of its values: the
    height is at most one more than the logarithm of their number.  A loop from [begin()]
    meets every node exactly once, and then stops. *)
Theorem kdtree_build_iterates : exists T c', build nth_element c (new_tree a) = (Ok c', T) /\ c' ≡ₚ c /\
  (2 ^ height (root_ T) <= 2 * length c)%nat /\
  exists ptr T', begin T = (Ok ptr, T') /\ forall fuel, (length c <= fuel)%nat ->
    exists ptrs, iterate fuel (next_ T') ptr = Ok ptrs /\ NoDup ptrs /\ omap (value_at (root_ T)) ptrs = values (root_ T) /\ values (root_ T) ≡ₚ c.
Proof using PL ALL Hselects Hroom Hfresh Hc Hok.
  destruct Hfresh as [Hl Hi]. destruct (build_wf (ok := ok) nth_element c (length vs) (new_tree a) Hselects) as (T & c' & E & Hc' & W & Hh).
  { by apply wf_new. } { intros v Hv. apply Hok, elem_of_app. by left. } { done. }
  exists T, c'. split_and!; [done..|]. destruct W as [_ V _ [Hnd Hid] Hitems _ _ Hlink].
  assert (H0 : 0 ∉ ids (root_ T)) by (intros Hin; apply Hid in Hin; lia).
  assert (Hlen : length (ids (root_ T)) = length c) by (rewrite <- (Permutation_length V); unfold ids, values; by rewrite !length_fmap).
  assert (Eb : begin T = (Ok (iterator (next_ T) (root_ T)).2, Build_KDTree (alloc_ T) (stats_ T) (root_ T) (iterator (next_ T) (root_ T)).1)).
  { unfold begin. rewrite Hitems. destruct (Z.eqb_spec (zlen c) 0) as [Hz|_]; [unfold zlen in Hz; destruct c; [done|simpl in Hz; lia]|].
    destruct (root_ T) as [|id v x l r]; [by apply Permutation_nil in V|]. done. }
  eexists _, _. split; [exact Eb|]. intros fuel Hf. exists (ids (root_ T)). split_and!; [|done|by apply omap_values|done].
  pose proof (iterator_visits (root_ T) (next_ T) fuel Hnd H0) as Hit. rewrite Hlink in *. destruct (iterator ∅ (root_ T)). apply Hit; [done|lia].
Qed.
End Queries.

(** ** Instances *)

(** A sort is a selection. *)
Fixpoint insert_by {V} (lt : V -> V -> bool) (v : V) (l : list V) : list V :=
  match l with [] => [v] | w :: l => if lt w v then w :: insert_by lt v l else v :: w :: l end.
Definition sort_select {V} (lt : V -> V -> bool) (n : nat) (l : list V) : list V := foldr (insert_by lt) [] l.

Lemma insert_by_spec {V} (key : V -> double) v l : isnan (key v) = false -> (forall w, w ∈ l -> isnan (key w) = false) ->
  let lt := fun a b => dlt (key a) (key b) in StronglySorted (fun a b => dle (key a) (key b) = true) l ->
  insert_by lt v l ≡ₚ v :: l /\ StronglySorted (fun a b => dle (key a) (key b) = true) (insert_by lt v l).
Proof.
  intros Hv Hl lt Hs. induction l as [|w l IH]; simpl; [split; [done|repeat constructor]|].
  apply StronglySorted_inv in Hs as [Hs Hw]. assert (Hnw : isnan (key w) = false) by (apply Hl; by left). unfold lt at 1 3.
  destruct (dlt (key w) (key v)) eqn:E.
  - destruct IH as [Hp Hs']; [intros x Hx; apply Hl; by right|done|]. split; [rewrite Hp; constructor|]. constructor; [done|].
    rewrite Hp. constructor; [by apply dlt_le|done].
  - apply dlt_false in E; [|done..]. split; [done|]. constructor; [by constructor|]. constructor; [done|].
    eapply Forall_impl; [exact Hw|]. intros x Hx. by eapply dle_trans.
Qed.

Lemma sort_select_selects {V} : selects (@sort_select V).
Proof.
  intros key n l Hl _. set (lt := fun a b => dlt (key a) (key b)).
  assert (H : sort_select lt n l ≡ₚ l /\ StronglySorted (fun a b => dle (key a) (key b) = true) (sort_select lt n l)).
  { unfold sort_select. induction l as [|v l IH]; simpl; [split; [done|constructor]|].
    destruct IH as [Hp Hs]; [intros w Hw; apply Hl; by right|].
    destruct (insert_by_spec key v (foldr (insert_by lt) [] l)) as [Hp' Hs']; [apply Hl; by left|intros w Hw; apply Hl; right; by rewrite <- Hp|done|].
    split; [|done]. etransitivity; [exact Hp'|]. by rewrite Hp. }
  destruct H as [Hp Hs]. split; [done|]. intros i j x y Hij Hne Hx Hy.
  assert (Hin : forall k z, sort_select lt n l !! k = Some z -> isnan (key z) = false) by (intros k z Hz; apply Hl; rewrite <- Hp; by eapply list_elem_of_lookup_2).
  apply dlt_false; [by eapply Hin..|]. rewrite <- (take_drop_middle _ _ _ Hx) in Hs. apply StronglySorted_app in Hs as (_ & _ & Hs).
  apply StronglySorted_inv in Hs as [_ Hs]. apply (proj1 (Forall_forall _ _) Hs). apply list_elem_of_lookup. exists (j - S i)%nat.
  rewrite lookup_drop. replace (S i + (j - S i))%nat with j by lia. done.
Qed.

Definition plane_point (a b : Z) : KPoint 2 := [fixed (-1) a; fixed (-1) b].
Definition site (a b n : Z) : Value (KPoint 2) Z := Build_Value (plane_point a b) n.
Definition sites : list (Value (KPoint 2) Z) := [site 0 0 1; site 8 2 2; site 3 9 3; site 8 8 4].
Definition later_sites : list (Value (KPoint 2) Z) := [site 4 4 5; site 8 1 6].

Lemma plane_laws : PointLaws (KPoint 2) (on_grid 2 (-1)).
Proof. apply kpoint_laws. split; lia. Qed.

Lemma plane_point_ok a b : Z.abs a <= 2 ^ 24 -> Z.abs b <= 2 ^ 24 -> on_grid 2 (-1) (plane_point a b).
Proof. intros Ha Hb. exists [a; b]. split_and!; [done..|]. by repeat constructor. Qed.

Lemma sites_ok v : v ∈ sites ++ later_sites -> on_grid 2 (-1) (point v).
Proof.
  intros Hv. assert (H : exists a b, point v = plane_point a b /\ Z.abs a <= 10 /\ Z.abs b <= 10); [|destruct H as (a & b & -> & Ha & Hb); apply plane_point_ok; lia].
  repeat (apply elem_of_cons in Hv as [->|Hv]; [eexists _, _; split; [reflexivity|lia]|]). by apply not_elem_of_nil in Hv.
Qed.

(** Four points in a mapped file for six, and two that are added. *)
Lemma kdtree_nearest_witness : exists T, grow sort_select sites later_sites (new_tree (KDMapped_create 6)) = (Ok tt, T) /\
  exists r st, nearestNeighbour (plane_point 5 5) T = (Ok r, set_stats st T) /\ is_nearest r (infos (plane_point 5 5) (root_ T)) /\ payload (node_ r) = 5.
Proof.
  destruct (kdtree_nearest (ok := on_grid 2 (-1)) (PL := plane_laws) sort_select (KDMapped_create 6) sites later_sites (plane_point 5 5) sort_select_selects) as (T & E & _ & r & b & st & Er & Hr & _).
  - simpl. split_and!; [done|lia|lia].
  - done.
  - done.
  - exact sites_ok.
  - apply plane_point_ok; lia.
  - exists T. split; [exact E|]. exists r, st. split; [exact Er|]. split; [exact Hr|].
    assert (E' : exists T r, grow sort_select sites later_sites (new_tree (KDMapped_create 6)) = (Ok tt, T) /\ (nearestNeighbour (plane_point 5 5) T).1 = Ok r /\ payload (node_ r) = 5)
      by (eexists _, _; split; [vm_compute; reflexivity|split; [vm_compute; reflexivity|vm_compute; reflexivity]]).
    destruct E' as (T' & r' & E1 & E2 & E3). rewrite E in E1. injection E1 as <-. rewrite Er in E2. simpl in E2. injection E2 as <-. exact E3.
Defined.

Lemma kdtree_k_nearest_witness : exists T, grow sort_select sites later_sites (new_tree new_memory) = (Ok tt, T) /\
  exists r st, kNearestNeighbours insertion_sort (plane_point 5 5) 3 T = (Ok r, set_stats st T) /\ k_nearest 3 r (infos (plane_point 5 5) (root_ T)) /\ length r = 3%nat.
Proof.
  destruct (kdtree_k_nearest (ok := on_grid 2 (-1)) (PL := plane_laws) sort_select insertion_sort new_memory sites later_sites (plane_point 5 5) sort_select_selects insertion_sort_sorts)
    with (Q := list (NodeInfo (KPoint 2) Z)) (PQ := list_queue (KPoint 2) Z) (k := 3%nat) as (T & E & r & b & st & Er & Hr & Hl & _).
  - simpl. split_and!; lia.
  - done.
  - done.
  - exact sites_ok.
  - apply plane_point_ok; lia.
  - apply list_queue_laws.
  - by vm_compute.
  - exists T. split; [exact E|]. exists r, st. split; [exact Er|]. split; [exact Hr|]. exact Hl.
Defined.

Lemma kdtree_sphere_witness : exists T, grow sort_select sites later_sites (new_tree new_memory) = (Ok tt, T) /\
  exists r, findInSphere insertion_sort (plane_point 5 5) (of_Z 2) T = (Ok r, set_stats (statsCall (stats_ T)) T) /\ ascending r.
Proof.
  destruct (kdtree_sphere (ok := on_grid 2 (-1)) (PL := plane_laws) sort_select insertion_sort new_memory sites later_sites (plane_point 5 5) sort_select_selects insertion_sort_sorts)
    with (radius := of_Z 2) as (T & E & r & b & Er & Hr & _).
  - simpl. split_and!; lia.
  - done.
  - done.
  - exact sites_ok.
  - apply plane_point_ok; lia.
  - exists T. split; [exact E|]. exists r. split; [exact Er|exact Hr].
Defined.

Lemma kdtree_build_iterates_witness : exists T c', build sort_select sites (new_tree new_memory) = (Ok c', T) /\ c' ≡ₚ sites /\ (2 ^ height (root_ T) <= 2 * length sites)%nat.
Proof.
  destruct (kdtree_build_iterates (ok := on_grid 2 (-1)) (PL := plane_laws) sort_select new_memory sites later_sites sort_select_selects) as (T & c' & E & Hc & Hh & _).
  - simpl. split_and!; lia.
  - done.
  - done.
  - exact sites_ok.
  - exists T, c'. split; [exact E|]. split; [exact Hc|exact Hh].
Defined.

(** ** What the trees do not do *)

(** A node that is inserted after a loop is not met by the next loop: the root is linked,
    so the nodes are not linked again. *)
Example insert_after_begin_is_missed :
  exists T T' ptr, (build sort_select sites ;; begin ;; insert (site 4 4 5)) (new_tree new_memory) = (Ok tt, T) /\ begin T = (Ok ptr, T') /\
    iterate 10 (next_ T') ptr = Ok [1; 2; 3; 4] /\ ids (root_ T') = [1; 2; 3; 5; 4].
Proof. eexists _, _, _. split; [vm_compute; reflexivity|]. split; [vm_compute; reflexivity|]. split; vm_compute; reflexivity. Qed.

(** A tree in a file for six nodes that holds four has, when it is opened again, the size six. *)
Example reopened_size : exists T c', build sort_select sites (new_tree (KDMapped_create 6)) = (Ok c', T) /\
  nbItems (alloc_ T) = 4 /\ nbItems (alloc_ (KDTree_reopen T)) = 6.
Proof. eexists _, _. split; [vm_compute; reflexivity|]. split; vm_compute; reflexivity. Qed.

(** An empty container cannot be built into a file. *)
Example empty_mapped_build : (build sort_select [] (new_tree (P := KPoint 2) (D := Z) (KDMapped_create 6))).1 = Throw AssertionFailed.
Proof. vm_compute. reflexivity. Qed.

(** The squares of small differences are zero: a distance can be less than that along an axis. *)
Example distance_underflow : let p : KPoint 2 := [fixed (-600) 1; of_Z 0] in let q : KPoint 2 := [of_Z 0; of_Z 0] in
  kdistance p q = S754_zero false /\ dlt (kdistance p q) (kaxis_distance p q 0) = true.
Proof. vm_compute. done. Qed.
