(* ===== verification/BSPTree.v ===== *)
(** * Binary space partitioning trees

    [container/bsptree/BSPNode.cc] and [container/BSPTree.h]: the points are in the leaves,
    an inner node holds a plane ([BSPHyperPlane]) and every child the least distance of
    its points to the plane above it.  The class [Partition] of the template, which cuts a
    container in two, is a parameter. *)
From Stdlib Require Import Floats.SpecFloat.
From S2P Require Import Prelude Double DoubleOrder DoubleFixed SPTree KDTree KPoint.

Section BSP.
Context {P D Plane : Type} {OP : PointOps P} (no_plane : Plane) (position : Plane -> P -> double).

(** A node of [BSPNode] holds [plane_] and [dist_]. *)
Abbreviation bspnode := (tree P D (Plane * double)).
Implicit Types t : bspnode.

Definition dist_ t : double := match t with Null => S754_zero false | Node _ _ (_, d) _ _ => d end.
Definition to_plane (plane : Plane) (p : P) : double := SFabs (position plane p).
Definition zero_or_less (d : double) : bool := dle d (S754_zero false).

(** [BSPNode::nearestNeighbourX] *)
Fixpoint bsp_nearestX (p : P) t (s : ((Z * Value P D) * double) * StatCollector) : ((Z * Value P D) * double) * StatCollector :=
  match t with
  | Null => s
  | Node id v (plane, _) l r =>
      let s := (s.1, statsVisitNode s.2) in
      match is_null l, is_null r with
      | false, false =>
          if zero_or_less (position plane p) then
            let s := bsp_nearestX p l s in
            if dle (dadd (to_plane plane p) (dist_ r)) s.1.2 then bsp_nearestX p r (s.1, statsCrossOver s.2) else s
          else
            let s := bsp_nearestX p r s in
            if dle (dadd (to_plane plane p) (dist_ l)) s.1.2 then bsp_nearestX p l (s.1, statsCrossOver s.2) else s
      | false, true => bsp_nearestX p l s
      | true, false => bsp_nearestX p r s
      | true, true =>
          let d := distance p (point v) in
          if dlt d s.1.2 then (((id, v), d), statsNewCandidateOK s.2) else (s.1, statsNewCandidateMiss s.2)
      end
  end.

(** [BSPNode::kNearestNeighboursX]: the bound [max] is taken before the first subtree is visited. *)
Fixpoint bsp_kNearestX {Q} `{PriorityQueue P D Q} (p : P) (k : nat) t (s : Q * StatCollector) : Q * StatCollector :=
  match t with
  | Null => s
  | Node id v (plane, _) l r =>
      match is_null l, is_null r with
      | false, false =>
          let max := largest s.1 in
          if zero_or_less (position plane p) then
            let s := bsp_kNearestX p k l s in
            if incomplete k s.1 || dle (dadd (to_plane plane p) (dist_ r)) max then bsp_kNearestX p k r (s.1, statsCrossOver s.2) else s
          else
            let s := bsp_kNearestX p k r s in
            if incomplete k s.1 || dle (dadd (to_plane plane p) (dist_ l)) max then bsp_kNearestX p k l (s.1, statsCrossOver s.2) else s
      | false, true => bsp_kNearestX p k l s
      | true, false => bsp_kNearestX p k r s
      | true, true => (push k (Build_NodeInfo v id (distance p (point v))) s.1, s.2)
      end
  end.

(** [BSPNode::findInSphereX] *)
Definition bsp_findInSphereX : outcome (list (NodeInfo P D)) := Throw NotImplemented.

(** [BSPNode::distanceToPlane] *)
Definition distanceToPlane (plane : Plane) (c : list (Value P D)) : double :=
  foldl (fun min v => let dist := to_plane plane (point v) in if dlt dist min then dist else min) dmax c.

(** [BSPNode::build] *)
Context {A : Type} {AL : Alloc A} (partition : list (Value P D) -> nat -> list (Value P D) * list (Value P D) * Plane).

Definition newNode3 : M (A * StatCollector) Z := fun s => let '(o, a) := newNode s.1 in (o, (a, s.2)).

Fixpoint bsp_build (fuel : nat) (nodes : list (Value P D)) (dist : double) (depth : nat) : M (A * StatCollector) bspnode :=
  match nodes, fuel with
  | [], _ => mret Null
  | _, O => liftM NoFuel
  | n0 :: rest, S fuel =>
      modifyM (fun s => (s.1, statsDepth (Z.of_nat depth) s.2)) ;;
      match rest with
      | [] => id ← newNode3; mret (Node id n0 (no_plane, dist) Null Null)
      | _ =>
          let '(lo, hi, plane) := partition nodes depth in
          match lo, hi with
          | [], [x] | [x], [] => id ← newNode3; mret (Node id x (plane, dist) Null Null)
          | [], _ | _, [] => throwM AssertionFailed
          | _, _ =>
              assertM (bool_decide (length lo < length nodes)%nat) ;;
              assertM (bool_decide (length hi < length nodes)%nat) ;;
              assertM (bool_decide (length hi + length lo = length nodes)%nat) ;;
              id ← newNode3;
              let dl := distanceToPlane plane lo in
              let dr := distanceToPlane plane hi in
              l ← bsp_build fuel lo dl (S depth);
              r ← bsp_build fuel hi dr (S depth);
              mret (Node id n0 (plane, dist) l r)
          end
      end
  end.

(** [SPNode::nearestNeighbour] and [kNearestNeighbours] on a tree *)
Definition bsp_nearest (p : P) t (st : StatCollector) : outcome (NodeInfo P D) :=
  match t with
  | Null => Throw AssertionFailed
  | Node id v _ _ _ => let s := bsp_nearestX p t (((id, v), distance p (point v)), st) in Ok (Build_NodeInfo s.1.1.2 s.1.1.1 s.1.2)
  end.
Definition bsp_kNearest {Q} `{PriorityQueue P D Q} (std_sort : list (NodeInfo P D) -> list (NodeInfo P D)) (p : P) (k : nat) t (st : StatCollector) : outcome (list (NodeInfo P D)) :=
  match t with
  | Null => Throw AssertionFailed
  | _ => fill std_sort k (bsp_kNearestX p k t (pq_empty, st)).1
  end.
End BSP.

(** ** The nearest neighbour *)

Section Nearest.
Context {P D Plane : Type} {OP : PointOps P} {ok : P -> Prop} {PL : PointLaws P ok} (no_plane : Plane) (position : Plane -> P -> double).
Abbreviation bspnode := (tree P D (Plane * double)).
Implicit Types t : bspnode.

(** The points of a tree are those of its leaves. *)
Fixpoint leaves t : list (Z * Value P D) :=
  match t with
  | Null => []
  | Node id v _ l r => if is_null l && is_null r then [(id, v)] else leaves l ++ leaves r
  end.

(** What the search for [p] relies on at every plane: a point on the other side is at
    least as far as [p] is from the plane plus the distance that the child stores. *)
Fixpoint apart (p : P) t : Prop :=
  match t with
  | Null => True
  | Node _ _ (plane, _) l r =>
      (is_null l = false -> is_null r = false ->
        if zero_or_less (position plane p)
        then forall n, n ∈ leaves r -> dle (dadd (to_plane position plane p) (dist_ r)) (node_distance p n) = true
        else forall n, n ∈ leaves l -> dle (dadd (to_plane position plane p) (dist_ l)) (node_distance p n) = true) /\
      apart p l /\ apart p r
  end.

Lemma leaves_nodes t n : n ∈ leaves t -> n ∈ nodes t.
Proof.
  induction t as [|id v [plane d] l IHl r IHr]; simpl; [done|]. destruct (is_null l && is_null r).
  - intros ->%list_elem_of_singleton. by left.
  - intros [Hn|Hn]%elem_of_app; right; apply elem_of_app; auto.
Qed.

Lemma bsp_nearestX_improves p t : forall s, ok p -> points_ok (ok := ok) t -> apart p t -> isnan s.1.2 = false ->
  improves p (leaves t) s.1 (bsp_nearestX position p t s).1.
Proof using PL.
  induction t as [|id v [plane d] l IHl r IHr]; intros s Hp Ht Ha Hs; [by apply improves_nil|].
  apply points_ok_node in Ht as (Hv & Hl & Hr). destruct Ha as (Hcut & Hal & Har). cbn [bsp_nearestX leaves].
  set (s0 := (s.1, statsVisitNode s.2)).
  assert (Hcross : forall t1 t2 st, improves p (leaves t1) s.1 (bsp_nearestX position p t1 s0).1 ->
      (forall s, isnan s.1.2 = false -> improves p (leaves t2) s.1 (bsp_nearestX position p t2 s).1) ->
      (forall n, n ∈ leaves t2 -> dle (dadd (to_plane position plane p) (dist_ t2)) (node_distance p n) = true) ->
      improves p (leaves t1 ++ leaves t2) s.1
        (let s := bsp_nearestX position p t1 s0 in if dle (dadd (to_plane position plane p) (dist_ t2)) s.1.2 then bsp_nearestX position p t2 (s.1, st) else s).1).
  { intros t1 t2 st H1 H2 Hfar. cbv zeta. pose proof (improves_number _ _ _ _ H1) as Hn1.
    destruct (dle (dadd _ _) _) eqn:E; [eapply improves_trans; [exact H1|by apply (H2 (_, st))]|].
    apply improves_skip; [done|]. intros n Hn. pose proof (Hfar n Hn) as Hfn. pose proof (dle_nan _ _ Hfn) as [Hnd _].
    apply dle_false in E; [|done..]. eapply dle_trans; [by apply dlt_le|done]. }
  destruct (is_null l) eqn:El, (is_null r) eqn:Er; cbn [andb].
  - destruct l; [|done]. destruct r; [|done]. assert (H := improves_step p (id, v) s0.1 Hs (distance_num p (point v) Hp Hv)).
    change (node_distance p (id, v)) with (distance p (point v)) in H. by destruct (dlt (distance p (point v)) s0.1.2).
  - destruct l; [|done]. by apply (IHr s0).
  - destruct r; [|done]. simpl. rewrite app_nil_r. by apply (IHl s0).
  - specialize (Hcut eq_refl eq_refl). destruct (zero_or_less (position plane p)).
    + apply (Hcross l r); [by apply (IHl s0)|intros; by apply IHr|done].
    + eapply improves_perm; [apply Permutation_app_comm|]. apply (Hcross r l); [by apply (IHr s0)|intros; by apply IHl|done].
Qed.

(** When the planes separate, [nearestNeighbour] returns a point of the tree, and no point
    of a leaf is nearer. *)
Lemma bsp_nearest_spec p t st : ok p -> points_ok (ok := ok) t -> apart p t -> t <> Null ->
  exists r, bsp_nearest position p t st = Ok r /\ r ∈ infos p t /\ forall n, n ∈ leaves t -> dle (distance_ r) (node_distance p n) = true.
Proof using PL.
  intros Hp Ht Ha Hne. destruct t as [|id v x l r]; [done|]. eexists; split; [reflexivity|]. set (t := Node id v x l r) in *.
  assert (Hv : isnan (distance p (point v)) = false) by (apply distance_num; [done|]; apply (Ht (id, v)); by left).
  destruct (bsp_nearestX_improves p t (((id, v), distance p (point v)), st) Hp Ht Ha Hv) as (Hb & _ & Hall). split; [|done].
  apply list_elem_of_fmap. destruct Hb as [E|(n & Hn & E)]; rewrite E; [exists (id, v); split; [done|by left]|].
  exists n. split; [done|]. by apply leaves_nodes.
Qed.
End Nearest.

(** ** Planes *)

(** [BSPHyperPlane] *)
Record BSPHyperPlane (SIZE : nat) := { normal_ : KPoint SIZE; d_ : double }.
Arguments Build_BSPHyperPlane {SIZE}.
Arguments normal_ {SIZE}.
Arguments d_ {SIZE}.
Definition default_plane {SIZE} : BSPHyperPlane SIZE := Build_BSPHyperPlane zero (S754_zero false).
Definition hyperplane {SIZE} (normal pt : KPoint SIZE) : BSPHyperPlane SIZE :=
  let n := normalize (SIZE := SIZE) normal in Build_BSPHyperPlane n (SFopp (dot (SIZE := SIZE) n pt)).
Definition position {SIZE} (h : BSPHyperPlane SIZE) (p : KPoint SIZE) : double := dadd (dot (SIZE := SIZE) p (normal_ h)) (d_ h).

(** ** A search for the k nearest that misses one *)

Definition pt (a b : Z) : KPoint 2 := [of_Z a; of_Z b].
Definition vertical (a : Z) : BSPHyperPlane 2 := hyperplane (pt 1 0) (pt a 0).
Definition three_points : list (Value (KPoint 2) Z) := [Build_Value (pt (-1) 0) 1; Build_Value (pt 1 10) 2; Build_Value (pt 5 0) 3].
(** Left of [x = 0], then left of [x = 4]. *)
Definition cut (nodes : list (Value (KPoint 2) Z)) (depth : nat) : list (Value (KPoint 2) Z) * list (Value (KPoint 2) Z) * BSPHyperPlane 2 :=
  let h := vertical (if bool_decide (depth = 0%nat) then 0 else 4) in
  (filter (fun v => zero_or_less (position h (point v)) = true) nodes, filter (fun v => zero_or_less (position h (point v)) = false) nodes, h).

(** The two nearest to the origin are 1 (distance 1) and 3 (distance 5); the search returns
    1 and 2, because the distance to beat was taken when the queue held one point only. *)
Example bsp_k_nearest_stale_bound : exists t s r n x,
  bsp_build default_plane position cut 3 three_points (S754_zero false) 0 (new_memory, new_stats) = (Ok t, s) /\
  bsp_kNearest position insertion_sort (pt 0 0) 2 t new_stats = Ok r /\ (payload <$> (node_ <$> r)) = [1; 2] /\
  leaves t !! 2%nat = Some n /\ payload n.2 = 3 /\ r !! 1%nat = Some x /\ dlt (node_distance (pt 0 0) n) (distance_ x) = true.
Proof.
  eexists _, _, _, _, _. split; [vm_compute; reflexivity|]. split; [vm_compute; reflexivity|]. split; [vm_compute; reflexivity|].
  split; [vm_compute; reflexivity|]. split; [vm_compute; reflexivity|]. split; vm_compute; reflexivity.
Qed.
